(* ===== verification/_CoqProject ===== *)
-Q . S2P
Prelude.v
Format.v
Economics.v
Rotation.v
Finality.v
DbCodec.v
DbStore.v
DbLog.v
DbView.v
DbMerkle.v
DbWal.v
DbReplay.v
DbCommit.v
DbScenarios.v
AccessMap.v
Scheduler.v
SchedulerFacts.v
SchedulerWaves.v
Mempool.v
MempoolFacts.v
MempoolSpec.v
MempoolPlan.v
MempoolScenarios.v
Genesis.v
ChainParams.v
ChainParamsFacts.v
ChainGenesis.v
Aura.v
AuraFabric.v
AuraRoute.v
AuraFacts.v
AuraOrder.v
AuraRouting.v
AuraGlobe.v
Compute.v
ComputeOrder.v
ComputeGraph.v
ComputeMarket.v
ComputeFacts.v
AuraAgent.v
AuraAgentFacts.v
Moe.v
MoeRun.v
MoeFacts.v
MoeRunFacts.v
Mvcc.v
MvccOrders.v
MvccBatch.v
MvccWorkers.v
MvccSerial.v
MvccLedger.v
MvccMoves.v
MvccExec.v
MvccState.v
MvccBook.v
MvccMatch.v
MvccMarket.v
Spv.v
SpvProof.v
SpvTarget.v
SpvState.v
SpvChain.v
SpvBest.v
SpvNode.v
SpvMerkle.v
SpvPayments.v
SpvScenarios.v
DriveMerkle.v
DriveCapacity.v
Erasure.v
ErasureMatrix.v
ErasureCode.v
Market.v
MarketFacts.v
PlacementFacts.v
PoucUndo.v
PoucUndoFacts.v
PoucRollback.v
Pouc.v
PoucFacts.v
