(* ===== verification/Prelude.v ===== *)
(** * QRX core: verification library

    A shallow embedding of the core of the QRX node (src/qrx-core/src, in C):
    what it stores, how it agrees, how it orders and executes transactions, how
    its drive and its market of computation account for work, and how AURA
    routes it, with the theorems that make these parts correct. Pure C functions
    are Rocq functions; functions that change a structure take it and return it;
    a call that can fail returns the code of the source, or an [option] where
    the source returns only an error; threads are step relations. Machine
    integers are [Z] with their wrap-around written out ([+64], [u32], ... in
    scope [word_scope]); C strings and byte arrays are lists of bytes.
    Everything is executable, and every theorem with hypotheses has a run on
    which they hold.

    ** The program and its parts

    A node keeps its state in QRXDB (qrxdb.c), an append-only log of records
    with a write-ahead log, an index and a Merkle root.  Transactions wait in
    the VELOCITY mempool (mempool/qrx_velocity_mempool.c), which has a log of
    its own.  For a block the mempool makes a plan: the best transactions, cut
    into waves by the scheduler (mempool/qrx_velocity_scheduler.c).  The MVCC
    executor (mempool/qrx_velocity_mvcc.c) runs the waves speculatively on a
    snapshot of QRXDB, resolves conflicts and commits one batch.  Proposers are
    chosen by consensus/qrx_deterministic_rotation.c, rounds are finalized by
    consensus/qrx_finality*.c, and equivocation is found by
    consensus/qrx_slashing.c.  A chain starts from a Genesis written and read
    by chain_params.c with the material of genesis/; economics/ splits the
    rewards.  Beside the chain, compute/qrx_aura_model_fabric.c keeps the pods
    that serve models and routes requests to them, and bitcoin/qrx_btc_spv.c
    keeps the headers of Bitcoin, in QRXDB, to check payments there.

    The drive spreads a file over providers as shards of an erasure code
    (storage/qrx_erasure.c) whose possession is proved by Merkle paths
    (qrx_merkle.c, qrx_capacity_proof.c, qrx_postor.c); resource/ keeps the bonds
    and contracts and places the shards.  compute/qrx_compute.c is the market of
    computation: graphs of jobs, quotes, escrow, budgets, the sessions of agents
    that ask for jobs, and the expert pods that run large models.  What a
    provider did is judged by qrx_compute_adversarial.c, settled from its escrow
    by qrx_pouc_mainnet.c and qrx_pouc_consensus.c, checked by validators that
    qrx_pouc_verifier.c draws by stake, and undone in a reorganisation of the
    chain by the journal that qrx_pouc_undo.c keeps in QRXDB.

    ** Files

    - Prelude: words, lists, sums, the tactics [word], [dlia], [unwrap], lemmas
      on parallel workers.  Format: [strtoll], [snprintf], decimal and
      hexadecimal output, the [key=value] fields of texts.
    - Economics, Rotation, Finality: economics/qrx_economics.c;
      consensus/qrx_deterministic_rotation.c, qrx_nonce_enforcement.c,
      qrx_timestamp_enforcement.c; consensus/qrx_finality.c,
      qrx_finality_state.c, qrx_slashing.c.  The [qrx_finality_state_t] of a
      round is a record whose vote arrays are lists; OpenSSL is a parameter.
    - DbCodec, DbStore, DbWal: qrxdb.c.  The mapped file is the list of its
      bytes, the directory of segments a [gmap]; [QrxDB] is the struct with
      both, and a [Disk] is what a closed or crashed database leaves.  DbLog,
      DbView, DbMerkle, DbReplay, DbCommit: what they compute, up to the
      abstract state: [contents db s] says that [db] holds the finite map [s]
      and can be reopened, [serves db s] that lookups, the root and
      [qrxdb_verify] answer for [s].  DbScenarios: runs.
    - AccessMap, Scheduler: qrx_velocity_scheduler.c.  [AccessTable] is the
      interface of the hash table, with [AccessTableLaws]; the open-addressing
      table of the source and a [gmap] are instances.  SchedulerFacts,
      SchedulerWaves: theorems for every lawful table.
    - Mempool: qrx_velocity_mempool.c and the disk file of its log; [io] says
      which writes fail.  MempoolFacts, MempoolSpec (refinement of an abstract
      pool of lists), MempoolPlan (plans, parallel verification),
      MempoolScenarios.
    - Genesis, ChainParams: genesis/*.c and chain_params.c; ChainParamsFacts,
      ChainGenesis (round trip, emission).
    - Aura, AuraFabric, AuraRoute: qrx_aura_model_fabric.c and the calibration
      profile of compute/qrx_compute.c; AuraFacts, AuraOrder, AuraRouting,
      AuraGlobe.
    - Mvcc (the adapters of single transactions, in a monad of reads, writes
      and [goto bad]), MvccOrders (the order book: qrx_velocity_dynamic.inc),
      MvccBatch (workers, resolution, commit): qrx_velocity_mvcc.c.
      MvccWorkers (the workers; class [Framed]: a computation depends only on
      the reads it records), MvccSerial, MvccLedger (class [Keeps]: a
      computation that leaves the money alone), MvccMoves, MvccExec (the serial
      specification [exec_plan]), MvccState; MvccBook (quotes, matches),
      MvccMatch (candidates); MvccMarket: runs.
    - Spv (headers), SpvProof (payments): bitcoin/qrx_btc_spv.c over a lookup
      [get], with OpenSSL's big numbers as the class [BnOps] and its laws.
      SpvTarget (compact targets; the integers as an instance), SpvState (keys),
      SpvChain (what is read from ancestors stays; the tree, forks), SpvBest,
      SpvNode (every accepted header keeps [spv_ok]); SpvMerkle, SpvPayments;
      SpvScenarios: runs.
    - DriveMerkle (trees), DriveCapacity (capacity and retrieval proofs):
      storage/qrx_merkle.c, resource/qrx_capacity_proof.c,
      storage/qrx_postor.c.  Erasure:
      storage/qrx_erasure.c; ErasureMatrix (the field of 256 elements, Gaussian
      elimination), ErasureCode (any k shards are enough; files in stripes).
    - Market: the bonds, contracts, reputation, capacity and placement of
      resource/; MarketFacts, PlacementFacts.
    - Compute (jobs, graphs, capabilities), ComputeMarket (quotes, escrow,
      budgets, receipts), AuraAgent (agents, chats, projects, code workspaces),
      Moe and MoeRun (expert pods): compute/qrx_compute.c.  ComputeOrder (the
      order of a graph), ComputeGraph (its commitment), ComputeFacts,
      AuraAgentFacts, MoeFacts, MoeRunFacts.
    - PoucUndo: compute/qrx_pouc_undo.c over the database of DbStore and DbWal.
      PoucUndoFacts (texts and keys of the journal, what fits in a batch),
      PoucRollback ([history]: the databases that runs of compute transactions
      leave; [ledger]: what they hold).  Pouc: qrx_compute_adversarial.c,
      qrx_pouc_mainnet.c, the credits of qrx_pouc_consensus.c and the draw and
      penalties of qrx_pouc_verifier.c; PoucFacts.

    ** What the theorems show

    - Storage: a crash anywhere in a commit reopens as the state before or
      after ([crash_recovery]); commits refine updates of a map
      ([batch_commit_refines]); close and open keep it ([open_close_roundtrip]);
      snapshots are isolated ([snapshot_isolation]); the root binds the map
      ([merkle_root_binding]).  Three histories lose data: a compaction followed
      by a reopening, a torn log tail, a batch committed after another write.
    - Agreement: two finalized blocks of a round expose more than a third of
      the power, when each was finalized by one precommit per validator
      ([accountable_safety]); the state machine of a round keeps its
      invariant and its decision; signatures, payloads and slashing.  One
      validator that repeats its vote can finalize alone
      ([repeated_precommit_finalizes]), and the quorum is exact only below 2^63.
    - Mempool and scheduler: runs refine the abstract pool
      ([mempool_refines]), while a transaction over the limit of the log makes
      it unreadable ([oversized_add_blocks_reopening]), and the pool's
      invariant survives failed writes; plans are sorted, complete and
      independent of arrival; conflicting transactions are in increasing waves
      ([schedule_orders_conflicts]) and the hash table does not matter;
      parallel verification ends with the sequential answer.
    - Execution, without orders: every interleaving of the workers gives the sequential result
      ([wave_deterministic]); a batch leaves the database alone or in the state
      of serial execution ([execute_batch_serializable]); balances and the pool
      of fees keep their sum ([batch_conserves_money]).
    - Order book: a match conserves both assets, free and locked, and leaves
      locked exactly what the rest can cost ([settle_match_conserves]); a taker
      meets exactly the live orders of the other side, by price and age
      ([candidates_by_priority]); an order too small to be priced blocks
      the orders that would meet it ([dust_order_blocks_buyer]).
    - Chain: a written Genesis verifies and reads back ([genesis_roundtrip]),
      and its emission stays below the maximal supply ([emission_bounded]).
    - Drive: any k shards of an erasure-coded file give it back
      ([erasure_roundtrip]), striped or whole ([encode_file_is_encode]); a
      capacity proof is accepted exactly from who has the chunk, up to
      collisions ([capacity_proof_exact]); a bond is paid back
      once, after its exit, and loses only what was taken ([bond_lifecycle]).
    - Computation: the order of a graph is the least topological order, or the
      graph has a cycle ([topological_order_spec]); its commitment binds it
      ([graph_commitment_binding]); an escrow is paid once and exactly
      ([escrow_lifecycle]); a budget is never exceeded
      ([budget_never_exceeded]); sessions, tool calls and code executions of
      agents stay within their manifests ([session_within_manifest],
      [tool_call_job], [execution_well_formed]); prefetch plans do not depend on
      the order of arrival ([prefetch_plan_canonical]), micro-batches keep their
      limits ([microbatch_within_limits]), streams their counters
      ([stream_accounts]), and every valid policy has an advice
      ([schedule_advice_spec]).
    - Proofs of computation: a rollback gives every key the value that the
      transactions kept give it ([rollback_restores]), but a journal of more
      than 4096 entries blocks it ([full_journal_blocks_rollback]); a settlement
      pays out what the escrow held ([settlement_conserves]) and nothing to who
      was convicted ([convicted_not_paid]); verifiers are distinct, unrelated
      and paid within the reward ([selection_spec]); a penalty takes exactly its
      amount ([penalty_exact]); a claim large enough wraps the risk to zero
      ([overclaim_undetected]).
    - AURA: the automatic route is optimal among the models that will do
      ([route_auto_spec]) whatever the order of the pods; public regions have
      enough providers and the counts of the snapshot are exact; ratios are
      exact on 64 bits.
    - Bitcoin: after any sequence of headers the active chain is the one of
      most work, of genuine headers that keep the rules
      ([spv_chain_of_most_work]); targets change as asked ([retarget_bounds]);
      Merkle proofs are complete and sound up to collisions ([merkle_complete],
      [merkle_sound]), but leave the high bits of the index free
      ([merkle_index_free]); payments are found ([tx_output_found]).

    ** Bounds and fuel

    Loops with a structural argument are [Fixpoint]s or folds.  The others take
    fuel that is shown to suffice: decimal output has 20 digits for 64 bits,
    the replay of a log has one step more than the file has bytes, the search
    of [ratio_bps64] has 14 steps for answers up to 10000 and the halvings of a
    reward 64, the probes of the hash table as many as it has slots, doubling
    sizes and powers of two 64, a walk to the ancestors of a Bitcoin header one
    step more than its height, the levels of a Merkle tree 64 and of a proof 65,
    an integer square root 32, the stripes of a file as many as a shard has
    bytes, the order of a graph as many as it has nodes.

    ** Not modelled

    Allocation and file calls succeed unless the source's own answer to their
    failure is the subject (the mempool log, crashes of the database); locks
    are the atomicity of the steps. Cryptography (SHA, OpenSSL keys) is a
    parameter. Of the executor the statistics and the clock are left out, the
    block time of chain.conf is an argument, and the theorems on batches are
    for plans without order transactions. Of the proofs of computation, the
    texts of the transactions, the journal of settlements, the records of
    penalties and the loading of requests from the database are left out: they
    print and parse records around the rules that are modelled. The rest of
    the repository is listed in the manifest: the node and command line around
    these parts (qrx.c, qrxd.c, qrx_cli.c) work on files, processes and global
    state; network/ and the transport of the drive on sockets; privacy/ and
    the cross-chain settlement are included by qrx.c and use its globals and
    OpenSSL; the services of AURA run processes and plugins; the registries,
    task globes and gates of resource/ read files; wallet, browser and tools
    are in other languages. *)

From Stdlib Require Export ZArith Lia.
From Stdlib Require Export Strings.Byte.
From Stdlib Require Strings.String.
From coqutil Require Export Byte Word.LittleEndianList.
From stdpp Require Export base list list_numbers numbers.
From stdpp Require Import gmap.

Export String.StringSyntax.
(** The list lemmas of stdpp take precedence over those of the same name in the
    Standard Library. *)
Export stdpp.list_basics.list stdpp.list_relations.list stdpp.list_monad.list
  stdpp.list_misc.list stdpp.list_tactics.list.

#[global] Open Scope Z_scope.

(** ** Machine integers

    A C integer is a [Z] in the range of its type.  Unsigned arithmetic wraps
    ([u64], [u32]); signed values obtained by a cast wrap too ([i64], [i32]). *)

Definition U64 : Z := 2 ^ 64.
Definition U32 : Z := 2 ^ 32.
Definition UINT64_MAX : Z := U64 - 1.
Definition UINT32_MAX : Z := U32 - 1.
Definition SIZE_MAX : Z := UINT64_MAX.
Definition LLONG_MAX : Z := 2 ^ 63 - 1.
Definition LLONG_MIN : Z := - 2 ^ 63.

Definition u64 (z : Z) : Z := z mod 2 ^ 64.
Definition u32 (z : Z) : Z := z mod 2 ^ 32.
Definition i64 (z : Z) : Z := (z + 2 ^ 63) mod 2 ^ 64 - 2 ^ 63.
Definition i32 (z : Z) : Z := (z + 2 ^ 31) mod 2 ^ 32 - 2 ^ 31.

Definition in_u64 (z : Z) : Prop := 0 <= z < 2 ^ 64.
Definition in_u32 (z : Z) : Prop := 0 <= z < 2 ^ 32.
Definition in_i64 (z : Z) : Prop := - 2 ^ 63 <= z < 2 ^ 63.
Definition in_i32 (z : Z) : Prop := - 2 ^ 31 <= z < 2 ^ 31.

Declare Scope word_scope.
Delimit Scope word_scope with word.
Notation "a +64 b" := (u64 (a + b)) (at level 50, left associativity) : word_scope.
Notation "a -64 b" := (u64 (a - b)) (at level 50, left associativity) : word_scope.
Notation "a *64 b" := (u64 (a * b)) (at level 40, left associativity) : word_scope.
Notation "a +32 b" := (u32 (a + b)) (at level 50, left associativity) : word_scope.
#[global] Open Scope word_scope.

Create HintDb word.
Create Rewrite HintDb wrap.

Lemma u64_range z : in_u64 (u64 z).
Proof. unfold in_u64, u64. apply Z.mod_pos_bound. lia. Qed.

Lemma u32_range z : in_u32 (u32 z).
Proof. unfold in_u32, u32. apply Z.mod_pos_bound. lia. Qed.

Lemma u64_small z : in_u64 z -> u64 z = z.
Proof. unfold in_u64, u64. intros. by rewrite Z.mod_small. Qed.

Lemma u32_small z : in_u32 z -> u32 z = z.
Proof. unfold in_u32, u32. intros. by rewrite Z.mod_small. Qed.

Lemma i64_small z : in_i64 z -> i64 z = z.
Proof. unfold in_i64, i64. intros. rewrite Z.mod_small; lia. Qed.

Lemma i32_small z : in_i32 z -> i32 z = z.
Proof. unfold in_i32, i32. intros. rewrite Z.mod_small; lia. Qed.

Lemma u64_u64 z : u64 (u64 z) = u64 z.
Proof. apply u64_small, u64_range. Qed.

#[export] Hint Resolve u64_range u32_range : word.
#[export] Hint Rewrite u64_u64 : wrap.

(** [word] unfolds the range predicates and constants and calls [lia]. *)
Ltac word_unfold :=
  unfold in_u64, in_u32, in_i64, in_i32, SIZE_MAX, UINT64_MAX, UINT32_MAX,
    LLONG_MAX, LLONG_MIN, U64, U32 in *.
(** [lia] with division and modulo by constants. *)
Ltac dlia := Z.to_euclidean_division_equations; lia.
Ltac word := word_unfold; first [lia | dlia].

(** Remove a wrap-around whose argument [lia] shows to be in range. *)
Ltac unwrap :=
  repeat match goal with
  | |- context [u64 ?z] => rewrite (u64_small z) by word
  | |- context [u32 ?z] => rewrite (u32_small z) by word
  | H : context [u64 ?z] |- _ => rewrite (u64_small z) in H by word
  | H : context [u32 ?z] |- _ => rewrite (u32_small z) in H by word
  end.

(** ** Bit operations stay within a width *)

Lemma testbit_high n x i : 0 <= x < 2 ^ n -> n <= i -> Z.testbit x i = false.
Proof.
  intros [??] ?. destruct (decide (x = 0)) as [->|]; [apply Z.testbit_0_l|].
  apply Z.bits_above_log2; [lia|].
  assert (Z.log2 x < n) by (apply Z.log2_lt_pow2; lia). lia.
Qed.

Lemma pow2_bound n x :
  0 <= n -> 0 <= x -> (forall i, n <= i -> Z.testbit x i = false) -> 0 <= x < 2 ^ n.
Proof.
  intros Hn Hx Hb. split; [done|].
  destruct (decide (x = 0)) as [->|]; [lia|].
  apply Z.log2_lt_pow2; [lia|].
  destruct (decide (Z.log2 x < n)) as [|Hge]; [done|].
  assert (Z.testbit x (Z.log2 x) = false) by (apply Hb; lia).
  rewrite Z.bit_log2 in * by lia. done.
Qed.

Lemma lxor_bound n a b :
  0 <= n -> 0 <= a < 2 ^ n -> 0 <= b < 2 ^ n -> 0 <= Z.lxor a b < 2 ^ n.
Proof.
  intros Hn Ha Hb. apply pow2_bound; [done|apply Z.lxor_nonneg; lia|].
  intros i Hi. by rewrite Z.lxor_spec, !(testbit_high n) by done.
Qed.

Lemma shiftr_bound n a k : 0 <= n -> 0 <= k -> 0 <= a < 2 ^ n -> 0 <= Z.shiftr a k < 2 ^ n.
Proof.
  intros Hn Hk Ha. apply pow2_bound; [done|apply Z.shiftr_nonneg; lia|].
  intros i Hi. rewrite Z.shiftr_spec by lia. apply (testbit_high n); lia.
Qed.

Lemma land_bound n a b : 0 <= n -> 0 <= a < 2 ^ n -> 0 <= Z.land a b < 2 ^ n.
Proof.
  intros Hn Ha. apply pow2_bound; [done|apply Z.land_nonneg; lia|].
  intros i Hi. by rewrite Z.land_spec, (testbit_high n) by done.
Qed.

Lemma lxor_u64 a b : in_u64 a -> in_u64 b -> in_u64 (Z.lxor a b).
Proof. apply lxor_bound. lia. Qed.
Lemma lxor_u32 a b : in_u32 a -> in_u32 b -> in_u32 (Z.lxor a b).
Proof. apply lxor_bound. lia. Qed.

#[export] Hint Resolve lxor_u64 lxor_u32 : word.

(** ** Bytes and C strings

    A byte buffer is a [list byte]; a C string is the list of its bytes
    without the terminator. *)

Abbreviation bytes := (list byte).

#[export] Instance byte_eq_dec : EqDecision byte := Byte.byte_eq_dec.

#[export] Program Instance byte_countable : Countable byte :=
  inj_countable' (fun b => Byte.to_N b) (fun n => default x00 (Byte.of_N n)) _.
Next Obligation. intros b; cbn beta. by rewrite Byte.of_to_N. Qed.

Definition cs (s : String.string) : bytes := String.list_byte_of_string s.
Arguments cs s%_string_scope.

(** [strlen] and the sizes of buffers, as the [size_t] values the code uses. *)
Definition blen {A} (l : list A) : Z := Z.of_nat (length l).

Lemma blen_nil {A} : blen (@nil A) = 0.
Proof. reflexivity. Qed.
Lemma blen_cons {A} (x : A) l : blen (x :: l) = 1 + blen l.
Proof. unfold blen. cbn [length]. lia. Qed.
Lemma blen_app {A} (l m : list A) : blen (l ++ m) = blen l + blen m.
Proof. unfold blen. rewrite length_app. lia. Qed.
Lemma blen_nonneg {A} (l : list A) : 0 <= blen l.
Proof. unfold blen. lia. Qed.
Lemma blen_fmap {A B} (f : A -> B) l : blen (f <$> l) = blen l.
Proof. unfold blen. by rewrite length_fmap. Qed.
Lemma blen_repeat {A} (x : A) n : blen (repeat x n) = Z.of_nat n.
Proof. unfold blen. by rewrite repeat_length. Qed.
Lemma blen_le_split n z : blen (le_split n z) = Z.of_nat n.
Proof. unfold blen. by rewrite length_le_split. Qed.

Lemma lookup_repeat_lt {A} (x : A) n i : (i < n)%nat -> repeat x n !! i = Some x.
Proof.
  revert i. induction n as [|n IH]; intros i Hi; [lia|].
  destruct i as [|i]; [done|]. apply IH. lia.
Qed.

Lemma le_split_inj n a b : 0 <= a < 2 ^ (Z.of_nat n * 8) -> 0 <= b < 2 ^ (Z.of_nat n * 8) ->
  le_split n a = le_split n b -> a = b.
Proof.
  intros Ha Hb H. rewrite <- (Z.mod_small a (2 ^ (Z.of_nat n * 8))), <- (Z.mod_small b (2 ^ (Z.of_nat n * 8))) by done.
  by rewrite <- !le_combine_split, H.
Qed.

Create Rewrite HintDb blen.
#[export] Hint Rewrite @blen_nil @blen_cons @blen_app @blen_fmap @blen_repeat
  @blen_le_split : blen.

(** Induction two elements at a time. *)
Lemma pair_ind {A} (P : list A -> Prop) :
  P [] -> (forall a, P [a]) -> (forall a b l, P l -> P (a :: b :: l)) -> forall l, P l.
Proof.
  intros H0 H1 H2. fix IH 1. intros [|a [|b l]]; [exact H0|exact (H1 a)|exact (H2 a b l (IH l))].
Qed.

(** ** Sums *)

Definition zsum (l : list Z) : Z := foldr Z.add 0 l.

Lemma zsum_cons x l : zsum (x :: l) = x + zsum l.
Proof. reflexivity. Qed.

Lemma zsum_app l m : zsum (l ++ m) = zsum l + zsum m.
Proof. induction l as [|x l IH]; simpl; [done|]. rewrite IH. lia. Qed.

#[export] Instance zsum_permutation : Proper ((≡ₚ) ==> eq) zsum.
Proof. intros l m H. induction H; simpl; lia. Qed.

Lemma zsum_nonneg l : Forall (fun x => 0 <= x) l -> 0 <= zsum l.
Proof. induction 1; simpl; lia. Qed.

(** Workers that run in parallel: changing the state of one of them. *)
Lemma omap_insert {A B} (f : A -> option B) (ws : list A) k a b : ws !! k = Some a ->
  let one o := match o with Some x => [x] | None => [] end in
  exists r, omap f ws ≡ₚ one (f a) ++ r /\ omap f (<[k := b]> ws) ≡ₚ one (f b) ++ r.
Proof.
  intros H one. exists (omap f (delete k ws)).
  assert (forall l x, l !! k = Some x -> omap f l ≡ₚ one (f x) ++ omap f (delete k l)) as Hd.
  { intros l x Hx. rewrite (delete_Permutation l k x Hx) at 1. cbn. by destruct (f x). }
  split; [by apply Hd|]. rewrite (Hd _ b) by (apply list_lookup_insert_eq; by eapply lookup_lt_Some).
  by rewrite !delete_take_drop, take_insert_ge, drop_insert_lt by lia.
Qed.

Lemma sum_insert {A} (weight : A -> nat) (ws : list A) k a b : ws !! k = Some a ->
  (sum_list_with weight (<[k := b]> ws) + weight a = sum_list_with weight ws + weight b)%nat.
Proof.
  revert k. induction ws as [|x ws IH]; intros [|k] H; [done..| |].
  - injection H as ->. cbn. lia.
  - specialize (IH k H).
    change (weight x + sum_list_with weight (<[k := b]> ws) + weight a = weight x + sum_list_with weight ws + weight b)%nat. lia.
Qed.

(** Weight of a finite set. *)
Section weight.
Context `{HC : Countable A} (power : A -> Z).

Definition wsum (s : gset A) : Z := zsum (power <$> elements s).

Lemma wsum_list l : NoDup l -> wsum (list_to_set l) = zsum (power <$> l).
Proof. intros Hl. unfold wsum. by rewrite elements_list_to_set. Qed.

Lemma wsum_disj_union s t : s ## t -> wsum (s ∪ t) = wsum s + wsum t.
Proof. intros Hd. unfold wsum. by rewrite elements_disj_union, fmap_app, zsum_app. Qed.

Lemma wsum_split s t : wsum s = wsum (s ∩ t) + wsum (s ∖ t).
Proof.
  rewrite <- wsum_disj_union by set_solver. f_equal.
  apply set_eq. intros x. destruct (decide (x ∈ t)); set_solver.
Qed.

Lemma wsum_union s t : wsum (s ∪ t) + wsum (s ∩ t) = wsum s + wsum t.
Proof.
  rewrite (wsum_split s t).
  replace (s ∪ t) with ((s ∖ t) ∪ t)
    by (apply set_eq; intros x; destruct (decide (x ∈ t)); set_solver).
  rewrite wsum_disj_union by set_solver. lia.
Qed.

Lemma wsum_nonneg s : (forall x, x ∈ s -> 0 <= power x) -> 0 <= wsum s.
Proof.
  intros Hp. apply zsum_nonneg, Forall_fmap, Forall_forall.
  intros x Hx. apply Hp. set_solver.
Qed.

Lemma wsum_subset s t :
  (forall x, x ∈ t -> 0 <= power x) -> s ⊆ t -> wsum s <= wsum t.
Proof.
  intros Hp Hs. rewrite (wsum_split t s).
  replace (t ∩ s) with s by set_solver.
  assert (0 <= wsum (t ∖ s)) by (apply wsum_nonneg; set_solver). lia.
Qed.
End weight.
