(* ===== verification/Format.v ===== *)
(** * C strings

    [strtoll] and [atoll], decimal output, the [key=value] fields that the
    code reads out of transactions and configuration files, and the cut that
    [snprintf] makes. *)

From stdpp Require Import gmap.
From S2P Require Import Prelude.

(** The C string at the start of a buffer: its bytes before the first zero. *)
Fixpoint cstr (b : bytes) : bytes :=
  match b with
  | [] => []
  | c :: b => if decide (c = x00) then [] else c :: cstr b
  end.

Definition no_nul (s : bytes) : Prop := x00 ∉ s.
#[export] Instance no_nul_dec s : Decision (no_nul s).
Proof. unfold no_nul. apply _. Defined.

(** [snprintf(dst, size, "%s", s)]: at most [size - 1] bytes. *)
Definition snprintf_s (size : nat) (s : bytes) : bytes := take (size - 1) s.

(** ** Numbers *)

Definition is_space (c : byte) : bool :=
  bool_decide (byte.unsigned c = 32 \/ 9 <= byte.unsigned c <= 13).
Definition is_digit (c : byte) : bool := bool_decide (48 <= byte.unsigned c <= 57).

Fixpoint skip_space (s : bytes) : bytes :=
  match s with
  | c :: s' => if is_space c then skip_space s' else s
  | [] => []
  end.

(** The digits at the start of [s], as a number after [acc]. *)
Fixpoint digits (acc : Z) (s : bytes) : Z :=
  match s with
  | c :: s => if is_digit c then digits (10 * acc + (byte.unsigned c - 48)) s else acc
  | [] => acc
  end.

Definition clamp (lo hi z : Z) : Z := if decide (z < lo) then lo else if decide (hi < z) then hi else z.

(** [strtoll(s, NULL, 10)] and, for a representable value, [atoll(s)]. *)
Definition strtoll (s : bytes) : Z :=
  match skip_space s with
  | x2d :: s => clamp LLONG_MIN LLONG_MAX (- digits 0 s)
  | x2b :: s => clamp LLONG_MIN LLONG_MAX (digits 0 s)
  | s => clamp LLONG_MIN LLONG_MAX (digits 0 s)
  end.

(** The conversions of [sscanf] that the code uses, each with the rest of the
    input: a literal, ["%lld"], and ["%<n>[^...]"] or ["%<n>s"], which stop at a
    character of [stop] and need at least one. *)
Fixpoint skip_digits (s : bytes) : bytes :=
  match s with c :: s' => if is_digit c then skip_digits s' else s | [] => [] end.

Definition scan_lit (lit s : bytes) : option bytes :=
  if decide (take (length lit) s = lit) then Some (drop (length lit) s) else None.

Definition scan_lld (s : bytes) : option (Z * bytes) :=
  let s := skip_space s in
  let digits_at := match s with x2d :: s' | x2b :: s' => s' | _ => s end in
  match digits_at with
  | c :: _ => if is_digit c then Some (strtoll s, skip_digits digits_at) else None
  | [] => None
  end.

Fixpoint scan_until (n : nat) (stop : byte -> bool) (s : bytes) : bytes :=
  match n, s with
  | S n, c :: s => if stop c then [] else c :: scan_until n stop s
  | _, _ => []
  end.
Definition scan_set (n : nat) (stop : byte -> bool) (s : bytes) : option (bytes * bytes) :=
  match scan_until n stop s with [] => None | w => Some (w, drop (length w) s) end.
Definition scan_word (n : nat) (s : bytes) : option (bytes * bytes) := scan_set n is_space (skip_space s).

(** Decimal output, ["%llu"] and ["%lld"]. *)
Fixpoint udec_loop (fuel : nat) (n : Z) (acc : bytes) : bytes :=
  match fuel with
  | O => acc
  | S fuel =>
      let acc := byte.of_Z (48 + n mod 10) :: acc in
      if decide (n / 10 = 0) then acc else udec_loop fuel (n / 10) acc
  end.
Definition print_u (n : Z) : bytes := udec_loop 20 n [].
Definition print_d (n : Z) : bytes := if decide (n < 0) then x2d :: print_u (- n) else print_u n.

(** [strstr(s, sub) != NULL]. *)
Fixpoint strstr (s sub : bytes) : bool :=
  bool_decide (take (length sub) s = sub) || match s with [] => false | _ :: s => strstr s sub end.

(** ** Hexadecimal output *)

Definition hex_digit (n : Z) : byte := byte.of_Z (if decide (n < 10) then 48 + n else 87 + n).
(** [sprintf("%02x")] of every byte. *)
Definition hex (d : bytes) : bytes :=
  concat ((fun b => [hex_digit (Z.shiftr (byte.unsigned b) 4); hex_digit (Z.land (byte.unsigned b) 15)]) <$> d).

(** ** Fields *)

(** The pieces of [s] between the separators. *)
Fixpoint split_on (sep : byte) (s : bytes) : list bytes :=
  match s with
  | [] => [[]]
  | c :: s =>
      if decide (c = sep) then [] :: split_on sep s
      else match split_on sep s with
           | l :: ls => (c :: l) :: ls
           | [] => [[c]]
           end
  end.

(** The value of a piece of the form [key=value] with a value that is not empty. *)
Definition piece_value (key piece : bytes) : option bytes :=
  if decide (blen piece > blen key + 1 /\ take (length key) piece = key /\ piece !! length key = Some x3d)
  then Some (drop (S (length key)) piece) else None.

Fixpoint first_value (key : bytes) (pieces : list bytes) : option bytes :=
  match pieces with
  | [] => None
  | p :: ps => match piece_value key p with Some v => Some v | None => first_value key ps end
  end.

(** The first field [key] of [s], cut to the buffer; [None] when there is none. *)
Definition sep_field (sep : byte) (s key : bytes) (out_sz : nat) : option bytes :=
  snprintf_s out_sz <$> first_value key (split_on sep s).

(** ** Lemmas *)

Lemma cstr_no_nul s : no_nul s -> cstr s = s.
Proof.
  unfold no_nul. induction s as [|c s IH]; intros H; [done|]. cbn.
  rewrite decide_False by set_solver. by rewrite IH by set_solver.
Qed.

Lemma cstr_app_zero s r : no_nul s -> cstr (s ++ x00 :: r) = s.
Proof.
  unfold no_nul. induction s as [|c s IH]; intros H; [done|]. cbn.
  rewrite decide_False by set_solver. by rewrite IH by set_solver.
Qed.

Lemma cstr_is_no_nul s : no_nul (cstr s).
Proof.
  unfold no_nul. induction s as [|c s IH]; cbn; [set_solver|]. case_decide; set_solver.
Qed.

Lemma strtoll_range s : in_i64 (strtoll s).
Proof.
  assert (forall z, in_i64 (clamp LLONG_MIN LLONG_MAX z)) as H.
  { intros z. unfold clamp. repeat case_decide; word. }
  unfold strtoll. destruct (skip_space s) as [|[] ?]; apply H.
Qed.

Lemma byte_of_digit d : 0 <= d < 10 -> byte.unsigned (byte.of_Z (48 + d)) = 48 + d.
Proof. intros H. rewrite byte.unsigned_of_Z. unfold byte.wrap. apply Z.mod_small. lia. Qed.

Lemma digits_step d acc s : 0 <= d < 10 -> digits acc (byte.of_Z (48 + d) :: s) = digits (10 * acc + d) s.
Proof.
  intros H. cbn [digits]. unfold is_digit. rewrite byte_of_digit by done.
  rewrite bool_decide_eq_true_2 by lia. f_equal. lia.
Qed.

Lemma udec_loop_digits fuel n acc tl : 0 <= n < 10 ^ Z.of_nat fuel -> (0 < fuel)%nat ->
  exists k, digits acc (udec_loop fuel n tl) = digits (acc * 10 ^ k + n) tl /\ 0 <= k.
Proof.
  revert n acc tl. induction fuel as [|fuel IH]; intros n acc tl Hn Hf; [lia|]. cbn [udec_loop].
  pose proof (Z.mod_pos_bound n 10 ltac:(lia)). pose proof (Z.div_mod n 10 ltac:(lia)) as Hdm. case_decide as Hz.
  - exists 1. rewrite digits_step by done. split; [f_equal; lia|lia].
  - rewrite Nat2Z.inj_succ, Z.pow_succ_r in Hn by lia.
    assert (0 < fuel)%nat as Hf' by (destruct fuel; [cbn in Hn; exfalso; apply Hz; apply Z.div_small; lia|lia]).
    destruct (IH (n / 10) acc (byte.of_Z (48 + n mod 10) :: tl)) as (k & Hk & Hk0).
    { split; [apply Z.div_pos; lia|]. apply Z.div_lt_upper_bound; lia. }
    { done. }
    exists (k + 1). rewrite Hk, digits_step by done. rewrite Z.pow_add_r by lia. split; [f_equal; lia|lia].
Qed.

Lemma print_u_digits n : in_u64 n -> digits 0 (print_u n) = n.
Proof.
  intros Hn. destruct (udec_loop_digits 20 n 0 []) as (k & Hk & _); [cbn; word|lia|].
  unfold print_u. rewrite Hk. cbn. lia.
Qed.

Lemma udec_loop_head fuel n tl : (0 < fuel)%nat -> 0 <= n ->
  exists d s, 0 <= d < 10 /\ udec_loop fuel n tl = byte.of_Z (48 + d) :: s.
Proof.
  revert n tl. induction fuel as [|fuel IH]; intros n tl Hf Hn; [lia|]. cbn [udec_loop].
  pose proof (Z.mod_pos_bound n 10 ltac:(lia)) as Hm.
  case_decide; [by eexists _, _|]. destruct fuel as [|fuel]; [by eexists _, _|].
  apply IH; [lia|apply Z.div_pos; lia].
Qed.

Lemma digit_byte d : 0 <= d < 10 -> exists c, byte.of_Z (48 + d) = c /\ is_space c = false /\ c <> x2d /\ c <> x2b.
Proof.
  intros H. eexists. split; [reflexivity|].
  assert (d = 0 \/ d = 1 \/ d = 2 \/ d = 3 \/ d = 4 \/ d = 5 \/ d = 6 \/ d = 7 \/ d = 8 \/ d = 9) as Hd by lia.
  repeat destruct Hd as [->|Hd]; [..|subst d]; vm_compute; (split; [reflexivity|split; discriminate]).
Qed.

(** Reading back what ["%lld"] prints. *)
Lemma strtoll_print_d n : LLONG_MIN <= n <= LLONG_MAX -> strtoll (print_d n) = n.
Proof.
  intros Hn. unfold strtoll, print_d. case_decide as Hneg.
  - cbn [skip_space]. change (is_space x2d) with false. cbn match.
    rewrite print_u_digits by word. unfold clamp. repeat (rewrite decide_False by word). lia.
  - pose proof (print_u_digits n ltac:(word)) as Hp.
    destruct (udec_loop_head 20 n [] ltac:(lia) ltac:(lia)) as (d & s & Hd & Hs).
    unfold print_u in *. rewrite Hs in *. destruct (digit_byte d Hd) as (c & Hc & Hsp & H1 & H2). rewrite Hc in *.
    cbn [skip_space]. rewrite Hsp. assert (clamp LLONG_MIN LLONG_MAX n = n) as Hcl
      by (unfold clamp; repeat (rewrite decide_False by word); done).
    destruct c; try done; by rewrite Hp.
Qed.

Lemma first_value_nonempty key ps v : first_value key ps = Some v -> v <> [].
Proof.
  induction ps as [|p ps IH]; [done|]. cbn. unfold piece_value at 1. case_decide as Hd; [|done].
  intros [= <-] H. destruct Hd as (Hl & _). apply (f_equal length) in H. rewrite length_drop in H. unfold blen in Hl. cbn in H. lia.
Qed.

Lemma hex_no_nul d : no_nul (hex d).
Proof.
  unfold no_nul, hex. rewrite list_elem_of_In, in_concat. intros (x & Hx & H0).
  apply list_elem_of_In, list_elem_of_fmap in Hx as (b & -> & _). pose proof (byte.unsigned_range b).
  assert (forall n, 0 <= n < 16 -> hex_digit n <> x00) as Hd.
  { intros n Hn Hx. apply (f_equal byte.unsigned) in Hx. unfold hex_digit in Hx. rewrite byte.unsigned_of_Z in Hx.
    unfold byte.wrap in Hx. rewrite Z.mod_small in Hx by (case_decide; lia). revert Hx. change (byte.unsigned x00) with 0.
    case_decide; lia. }
  destruct H0 as [H0|[H0|[]]]; (eapply Hd; [|exact H0]).
  - rewrite Z.shiftr_div_pow2 by done. change (2 ^ 4) with 16. split; [apply Z.div_pos; lia|apply Z.div_lt_upper_bound; lia].
  - change 15 with (Z.ones 4). rewrite Z.land_ones by done. apply Z.mod_pos_bound. done.
Qed.

Lemma hex_length d : length (hex d) = (2 * length d)%nat.
Proof. unfold hex. induction d as [|b d IH]; [done|]. cbn in *. lia. Qed.
