(* ===== verification/Economics.v ===== *)
(** * Reward policy (src/qrx-core/src/economics)

    The development share of a block reward, the validator share that is left,
    and the burn quotes of native assets, on 64-bit unsigned atoms. *)

From S2P Require Import Prelude.

(** ** Definitions *)

Definition QRX_BLOCK_TIME_SECONDS : Z := 10.
Definition QRX_BLOCKS_PER_DAY : Z := 8640.
Definition QRX_BLOCKS_PER_YEAR : Z := 3153600.
Definition QRX_MAX_SUPPLY_ATOMS : Z := 2100000000000000.
Definition QRX_INITIAL_BLOCK_REWARD_ATOMS : Z := 25000000.
Definition QRX_HALVING_INTERVAL_BLOCKS : Z := 12614400.

Definition qrx_dev_fund_percent (block_height : Z) : Z :=
  if decide (block_height < QRX_BLOCKS_PER_YEAR) then 20
  else if decide (block_height < QRX_BLOCKS_PER_YEAR * 2) then 10
  else if decide (block_height < QRX_BLOCKS_PER_YEAR * 3) then 5
  else 2.

Definition qrx_dev_reward_share (total_reward_atoms block_height : Z) : Z :=
  let pct := qrx_dev_fund_percent block_height in
  (total_reward_atoms / 100) *64 pct
    +64 ((total_reward_atoms mod 100) *64 pct) / 100.

Definition qrx_validator_reward_share (total_reward_atoms block_height : Z) : Z :=
  let dev := qrx_dev_reward_share total_reward_atoms block_height in
  if decide (dev > total_reward_atoms) then 0
  else total_reward_atoms -64 dev.

Definition qrx_asset_burn_from_reward_units (block_reward_atoms reward_units : Z) : Z :=
  if decide (reward_units = 0) then 0
  else if decide (block_reward_atoms = 0) then reward_units
  else if decide (block_reward_atoms > UINT64_MAX / reward_units) then UINT64_MAX
  else block_reward_atoms *64 reward_units.

(** ** Properties *)

Lemma dev_fund_percent_bounds h : 2 <= qrx_dev_fund_percent h <= 20.
Proof. unfold qrx_dev_fund_percent. repeat case_decide; lia. Qed.

(** Splitting a product at the hundreds loses nothing. *)
Lemma percent_split t p :
  0 <= t -> 0 <= p -> (t / 100) * p + ((t mod 100) * p) / 100 = (t * p) / 100.
Proof.
  intros. rewrite <- Z.div_add_l by lia. f_equal.
  rewrite (Z.div_mod t 100) at 3 by lia. ring.
Qed.

(** The dev share never wraps: it is the exact floor. *)
Lemma dev_reward_share_eq t h :
  in_u64 t -> qrx_dev_reward_share t h = (t * qrx_dev_fund_percent h) / 100.
Proof.
  intros Ht. unfold qrx_dev_reward_share.
  pose proof (dev_fund_percent_bounds h) as Hp.
  set (p := qrx_dev_fund_percent h) in *.
  assert (0 <= t mod 100 < 100) by (apply Z.mod_pos_bound; lia).
  assert (t / 100 * p + t mod 100 * p / 100 = t * p / 100)
    by (apply percent_split; unfold in_u64 in *; lia).
  assert (0 <= t * p / 100 <= t).
  { unfold in_u64 in *. split; [apply Z.div_pos; nia|].
    apply Z.div_le_upper_bound; nia. }
  assert (0 <= t mod 100 * p / 100) by (apply Z.div_pos; nia).
  assert (0 <= t / 100 * p) by (apply Z.mul_nonneg_nonneg; [apply Z.div_pos|]; unfold in_u64 in *; lia).
  rewrite (u64_small (t mod 100 * p)) by (unfold in_u64; nia).
  rewrite (u64_small (t / 100 * p)) by word.
  rewrite u64_small by word. done.
Qed.

(** The reward split is exact on the whole 64-bit range: the development
    share is the true floor of [pct] percent (no intermediate product wraps),
    never exceeds a fifth of the reward, and the two shares add up to it. *)
Theorem reward_split_exact (t h : Z) :
  in_u64 t ->
  qrx_dev_reward_share t h = t * qrx_dev_fund_percent h / 100 /\
  5 * qrx_dev_reward_share t h <= t /\
  qrx_dev_reward_share t h + qrx_validator_reward_share t h = t.
Proof.
  intros Ht. pose proof (dev_reward_share_eq t h Ht) as E.
  pose proof (dev_fund_percent_bounds h).
  assert (0 <= t * qrx_dev_fund_percent h / 100) by (apply Z.div_pos; word_unfold; nia).
  assert (5 * (t * qrx_dev_fund_percent h / 100) <= t).
  { pose proof (Z.mul_div_le (t * qrx_dev_fund_percent h) 100 ltac:(lia)).
    assert (t * qrx_dev_fund_percent h <= t * 20)
      by (apply Z.mul_le_mono_nonneg_l; word).
    lia. }
  unfold qrx_validator_reward_share. rewrite E.
  rewrite decide_False by lia. rewrite u64_small by word.
  repeat split; lia.
Qed.

Lemma reward_split_exact_witness :
  in_u64 UINT64_MAX /\
  qrx_dev_reward_share UINT64_MAX 0 + qrx_validator_reward_share UINT64_MAX 0 = UINT64_MAX.
Proof.
  assert (H : in_u64 UINT64_MAX) by word.
  split; [exact H|]. apply (reward_split_exact UINT64_MAX 0 H).
Defined.
