(* ===== verification/Rotation.v ===== *)
(** * Proposer rotation and header checks (src/qrx-core/src/consensus)

    The deterministic proposer choice of [qrx_deterministic_rotation.c] and the
    nonce and timestamp checks of [qrx_nonce_enforcement.c] and
    [qrx_timestamp_enforcement.c].  A pointer argument that the code compares
    with NULL is an [option]; a C [int] used as a truth value is a [Z]. *)

From S2P Require Import Prelude.

(** ** Data *)

Record qrx_validator_t := mkValidator {
  address : bytes;
  stake_atoms : Z;
  pubkey : bytes;
  active : Z
}.

Record qrx_consensus_round_t := mkRound {
  height : Z;
  previous_block_hash : bytes
}.

(** ** Operations *)

Definition qrx_mix64 (x : Z) : Z :=
  let x := Z.lxor x (Z.shiftr x 33) in
  let x := x *64 0xff51afd7ed558ccd in
  let x := Z.lxor x (Z.shiftr x 33) in
  let x := x *64 0xc4ceb9fe1a85ec53 in
  Z.lxor x (Z.shiftr x 33).

(** Eight bytes, most significant first, shifted into a [uint64_t]. *)
Definition be64_of (l : bytes) : Z :=
  fold_left (fun v b => Z.lor (u64 (Z.shiftl v 8)) (byte.unsigned b)) (take 8 l) 0.

Definition qrx_hash_round_input (round : qrx_consensus_round_t) (validator : qrx_validator_t) : Z :=
  let v := be64_of (previous_block_hash round) in
  let pk := be64_of (pubkey validator) in
  qrx_mix64 (Z.lxor (Z.lxor v pk) (u64 (height round))).

Definition qrx_consensus_validator_score
    (round : option qrx_consensus_round_t) (validator : option qrx_validator_t) : Z :=
  match round, validator with
  | Some round, Some validator =>
    if decide (active validator = 0) then UINT64_MAX
    else if decide (stake_atoms validator = 0) then UINT64_MAX
    else
      let base := qrx_hash_round_input round validator in
      let weighted := base / stake_atoms validator in
      if decide (weighted = 0) then 1 else weighted
  | _, _ => UINT64_MAX
  end.

(** The selection loop: [i] is the position of the head of [vs]. *)
Fixpoint select_proposer_loop (round : qrx_consensus_round_t) (vs : list qrx_validator_t)
    (i best_score best_index : Z) : Z :=
  match vs with
  | [] => best_index
  | v :: vs =>
    let score := qrx_consensus_validator_score (Some round) (Some v) in
    if decide (score < best_score)
    then select_proposer_loop round vs (i + 1) score (i32 i)
    else select_proposer_loop round vs (i + 1) best_score best_index
  end.

Definition qrx_consensus_select_proposer
    (round : option qrx_consensus_round_t) (validators : option (list qrx_validator_t)) : Z :=
  match round, validators with
  | Some round, Some vs =>
    if decide (length vs = 0%nat) then -1
    else select_proposer_loop round vs 0 UINT64_MAX (-1)
  | _, _ => -1
  end.

Definition qrx_verify_account_nonce (expected received : Z) : Z :=
  if decide (expected = received) then 1 else 0.

Definition qrx_validate_sequential_nonce (last_nonce next_nonce : Z) : Z :=
  if decide (next_nonce = last_nonce +64 1) then 1 else 0.

Definition qrx_verify_consensus_timestamp
    (block_ts parent_ts median_past local_time max_future_drift : Z) : Z :=
  if decide (block_ts <= parent_ts) then 0
  else if decide (block_ts < median_past) then 0
  else if decide (block_ts > local_time +64 max_future_drift) then 0
  else 1.

(** ** The mixing function is a bijection of 64-bit words *)

Definition xorshift33 (x : Z) : Z := Z.lxor x (Z.shiftr x 33).

Lemma xorshift33_range x : in_u64 x -> in_u64 (xorshift33 x).
Proof.
  intros Hx. apply lxor_bound; [lia|done|]. by apply shiftr_bound; [lia..|].
Qed.

Lemma xorshift33_involutive x : in_u64 x -> xorshift33 (xorshift33 x) = x.
Proof.
  intros Hx. unfold xorshift33. apply Z.bits_inj'. intros i Hi.
  rewrite !Z.lxor_spec, !Z.shiftr_spec, !Z.lxor_spec, !Z.shiftr_spec by lia.
  rewrite (testbit_high 64 x (i + 33 + 33)) by (done || lia).
  by destruct (Z.testbit x i), (Z.testbit x (i + 33)).
Qed.

Lemma mul_inv64 c d x : in_u64 x -> u64 (c * d) = 1 -> (x *64 c) *64 d = x.
Proof.
  intros Hx Hcd. unfold u64 in *.
  rewrite Z.mul_mod_idemp_l by lia.
  rewrite <- Z.mul_assoc, <- Z.mul_mod_idemp_r, Hcd, Z.mul_1_r by lia.
  by apply Z.mod_small.
Qed.

(** The inverse of [qrx_mix64], with the multiplicative inverses of its two
    odd constants modulo 2^64. *)
Definition unmix64 (x : Z) : Z :=
  xorshift33 (xorshift33 (xorshift33 x *64 0x9cb4b2f8129337db) *64 0x4f74430c22a54005).

Lemma mix64_unfold x :
  qrx_mix64 x =
  xorshift33 (xorshift33 (xorshift33 x *64 0xff51afd7ed558ccd) *64 0xc4ceb9fe1a85ec53).
Proof. reflexivity. Qed.

Lemma unmix_mix64 x : in_u64 x -> unmix64 (qrx_mix64 x) = x.
Proof.
  intros Hx. rewrite mix64_unfold. unfold unmix64.
  rewrite xorshift33_involutive by auto with word.
  rewrite mul_inv64 by (auto using xorshift33_range with word; reflexivity).
  rewrite xorshift33_involutive by auto with word.
  rewrite mul_inv64 by (auto using xorshift33_range with word; reflexivity).
  by apply xorshift33_involutive.
Qed.

Lemma unmix64_inj x y : in_u64 x -> in_u64 y -> qrx_mix64 x = qrx_mix64 y -> x = y.
Proof. intros Hx Hy E. by rewrite <- (unmix_mix64 x), <- (unmix_mix64 y), E. Qed.

Lemma le_combine_u64 l : (length l <= 8)%nat -> in_u64 (le_combine l).
Proof.
  intros Hl. pose proof (le_combine_bound l) as [? Hb]. split; [done|].
  eapply Z.lt_le_trans; [exact Hb|]. apply Z.pow_le_mono_r; lia.
Qed.

Lemma be64_fold l a :
  (length a + length l <= 8)%nat ->
  fold_left (fun v b => Z.lor (u64 (Z.shiftl v 8)) (byte.unsigned b)) l (le_combine a)
  = le_combine (rev l ++ a).
Proof.
  revert a. induction l as [|b l IH]; intros a Hl; [done|].
  simpl in Hl. cbn [fold_left rev]. rewrite <- app_assoc. cbn [app].
  rewrite <- (IH (b :: a)) by (simpl; lia). f_equal.
  change (le_combine (b :: a)) with (Z.lor (byte.unsigned b) (Z.shiftl (le_combine a) 8)).
  rewrite Z.lor_comm. f_equal. apply u64_small.
  pose proof (le_combine_bound a) as [??].
  rewrite Z.shiftl_mul_pow2 by lia. split; [lia|].
  assert (2 ^ (8 * Z.of_nat (length a)) <= 2 ^ 56) by (apply Z.pow_le_mono_r; lia). lia.
Qed.

Lemma be64_of_eq l : be64_of l = le_combine (rev (take 8 l)).
Proof.
  unfold be64_of. change 0 with (le_combine []).
  rewrite be64_fold, app_nil_r; [done|]. simpl. rewrite length_take. lia.
Qed.

Lemma be64_of_range l : in_u64 (be64_of l).
Proof. rewrite be64_of_eq. apply le_combine_u64. rewrite length_rev, length_take. lia. Qed.

Lemma be64_of_inj l m :
  (8 <= length l)%nat -> (8 <= length m)%nat -> be64_of l = be64_of m -> take 8 l = take 8 m.
Proof.
  intros Hl Hm. rewrite !be64_of_eq. intros E.
  apply le_combine_inj in E; [|rewrite !length_rev, !length_take; lia].
  by rewrite <- (rev_involutive (take 8 l)), E, rev_involutive.
Qed.

#[export] Hint Resolve be64_of_range xorshift33_range : word.

(** The round hash separates inputs: [qrx_mix64] is injective on 64-bit
    words (it has an explicit inverse), so in one round two validators share a
    hash exactly when the first eight bytes of their public keys agree,
    whatever the block hash and the height are. *)
Theorem round_hash_injective (round : qrx_consensus_round_t) (v w : qrx_validator_t) :
  (8 <= length (pubkey v))%nat -> (8 <= length (pubkey w))%nat ->
  qrx_hash_round_input round v = qrx_hash_round_input round w <->
  take 8 (pubkey v) = take 8 (pubkey w).
Proof.
  intros Hv Hw. unfold qrx_hash_round_input. split.
  - intros E. apply unmix64_inj in E; [|auto with word..].
    apply be64_of_inj; [done..|].
    apply (f_equal (fun z => Z.lxor (Z.lxor z (u64 (height round))) (be64_of (previous_block_hash round)))) in E.
    revert E. generalize (be64_of (pubkey v)), (be64_of (pubkey w)),
      (be64_of (previous_block_hash round)), (u64 (height round)). intros a b c d E.
    rewrite !(Z.lxor_comm c), !(Z.lxor_assoc _ d d), !Z.lxor_nilpotent, !Z.lxor_0_r,
      !Z.lxor_assoc, !Z.lxor_nilpotent, !Z.lxor_0_r in E. exact E.
  - intros E. by rewrite !be64_of_eq, E.
Qed.

Definition demo_validator (k : Z) (stake : Z) : qrx_validator_t :=
  {| address := cs "a"; stake_atoms := stake; pubkey := repeat (byte.of_Z k) 32; active := 1 |}.
Definition demo_round : qrx_consensus_round_t :=
  {| height := 7; previous_block_hash := repeat x01 32 |}.

Lemma round_hash_injective_witness :
  qrx_hash_round_input demo_round (demo_validator 1 5)
  <> qrx_hash_round_input demo_round (demo_validator 2 5).
Proof.
  intros E.
  apply (round_hash_injective demo_round (demo_validator 1 5) (demo_validator 2 5)) in E;
    [discriminate E|simpl; lia..].
Defined.

(** ** The proposer *)

Section proposer.
Context (round : qrx_consensus_round_t).

Definition score (v : qrx_validator_t) : Z :=
  qrx_consensus_validator_score (Some round) (Some v).

(** [best] is the first index of the least score below [UINT64_MAX] in [vs]. *)
Definition best_of (vs : list qrx_validator_t) (best_score best_index : Z) : Prop :=
  (best_index = -1 /\ best_score = UINT64_MAX /\
     forall j w, vs !! j = Some w -> UINT64_MAX <= score w) \/
  (exists i v, best_index = Z.of_nat i /\ vs !! i = Some v /\ score v = best_score /\
     best_score < UINT64_MAX /\
     forall j w, vs !! j = Some w -> best_score <= score w /\ ((j < i)%nat -> best_score < score w)).

Lemma best_of_snoc_lt vs v bs bi :
  best_of vs bs bi -> score v < bs -> best_of (vs ++ [v]) (score v) (blen vs).
Proof.
  intros Hb Hlt. right. exists (length vs), v. split; [done|].
  rewrite lookup_app_r, Nat.sub_diag by lia. split; [done|]. split; [done|].
  assert (bs <= UINT64_MAX) by (destruct Hb as [(_&?&_)|(?&?&_&_&_&?&_)]; lia).
  split; [lia|]. intros j w Hw.
  assert ((j < length vs)%nat -> bs <= score w).
  { intros Hj. rewrite lookup_app_l in Hw by done.
    destruct Hb as [(_&->&Hm)|(i&u&_&_&_&_&Hm)]; [by apply (Hm j)|by apply (Hm j)]. }
  destruct (decide (j < length vs)%nat); [lia|].
  rewrite lookup_app_r in Hw by lia.
  apply list_lookup_singleton_Some in Hw as [? <-]. lia.
Qed.

Lemma best_of_snoc_ge vs v bs bi :
  best_of vs bs bi -> bs <= score v -> best_of (vs ++ [v]) bs bi.
Proof.
  intros [(->&->&H)|(i&u&->&Hi&Hs&Hm&H)] Hge; [left|right].
  - repeat split; try done. intros j w Hw.
    apply lookup_app_Some in Hw as [Hw|[_ Hw]]; [by eapply H|].
    apply list_lookup_singleton_Some in Hw as [_ <-]. lia.
  - exists i, u. split; [done|]. split; [by apply lookup_app_l_Some|]. split; [done|].
    split; [done|]. intros j w Hw.
    apply lookup_app_Some in Hw as [Hw|[Hj Hw]]; [by apply H|].
    apply list_lookup_singleton_Some in Hw as [_ <-].
    apply lookup_lt_Some in Hi. lia.
Qed.

Lemma select_loop_best vs done_ bs bi :
  Z.of_nat (length done_ + length vs) <= 2 ^ 31 -> best_of done_ bs bi ->
  exists bs', best_of (done_ ++ vs) bs' (select_proposer_loop round vs (blen done_) bs bi).
Proof.
  revert done_ bs bi. induction vs as [|v vs IH]; intros dn bs bi Hlen Hb.
  { exists bs. by rewrite app_nil_r. }
  cbn [select_proposer_loop]. fold (score v). simpl in Hlen.
  replace (blen dn + 1) with (blen (dn ++ [v])) by (unfold blen; rewrite length_app; simpl; lia).
  rewrite cons_middle, app_assoc.
  case_decide.
  - rewrite i32_small by (unfold blen; word).
    apply IH; [rewrite length_app; simpl; lia|]. by eapply best_of_snoc_lt.
  - apply IH; [rewrite length_app; simpl; lia|]. apply best_of_snoc_ge; [done|lia].
Qed.

Lemma score_lt_eligible v : score v < UINT64_MAX -> active v <> 0 /\ stake_atoms v <> 0.
Proof.
  unfold score, qrx_consensus_validator_score. repeat case_decide; lia.
Qed.
End proposer.

(** The proposer choice is the arg-min of the scores: for at most 2^31
    validators, [qrx_consensus_select_proposer] returns -1 exactly when no
    validator scores below [UINT64_MAX], and otherwise the index of an active,
    staked validator whose score is least, the first such index on a tie. *)
Theorem select_proposer_spec (round : qrx_consensus_round_t) (vs : list qrx_validator_t) :
  blen vs <= 2 ^ 31 ->
  let r := qrx_consensus_select_proposer (Some round) (Some vs) in
  (r = -1 /\ forall j w, vs !! j = Some w -> UINT64_MAX <= score round w) \/
  (exists i v, r = Z.of_nat i /\ vs !! i = Some v /\
     active v <> 0 /\ stake_atoms v <> 0 /\ score round v < UINT64_MAX /\
     forall j w, vs !! j = Some w ->
       score round v <= score round w /\ ((j < i)%nat -> score round v < score round w)).
Proof.
  intros Hlen r. unfold r, qrx_consensus_select_proposer. case_decide as Hz.
  { left. split; [done|]. intros j w. apply nil_length_inv in Hz as ->. by rewrite lookup_nil. }
  destruct (select_loop_best round vs [] UINT64_MAX (-1)) as [bs H];
    [unfold blen in *; simpl; lia|left; done|].
  change (blen (@nil qrx_validator_t)) with 0 in H. cbn [app] in H.
  destruct H as [(->&_&H)|(i&v&->&Hi&Hs&Hm&H)]; [by left|right].
  exists i, v. subst bs. pose proof (score_lt_eligible round v Hm) as [??]. done.
Qed.

Lemma select_proposer_spec_witness :
  let vs := [demo_validator 1 0; demo_validator 2 1000; demo_validator 3 5000000000000000000] in
  blen vs <= 2 ^ 31 /\ qrx_consensus_select_proposer (Some demo_round) (Some vs) = 2 /\
  score demo_round (demo_validator 3 5000000000000000000) <= score demo_round (demo_validator 2 1000).
Proof.
  assert (H : blen [demo_validator 1 0; demo_validator 2 1000; demo_validator 3 5000000000000000000] <= 2 ^ 31)
    by (vm_compute; discriminate).
  assert (Ev : qrx_consensus_select_proposer (Some demo_round)
    (Some [demo_validator 1 0; demo_validator 2 1000; demo_validator 3 5000000000000000000]) = 2)
    by (vm_compute; reflexivity).
  split; [exact H|]. split; [exact Ev|].
  pose proof (select_proposer_spec demo_round _ H) as Hs. cbv zeta in Hs. rewrite Ev in Hs.
  destruct Hs as [[E _]|(i&v&E&Hi&_&_&_&Hle)]; [discriminate E|].
  assert (i = 2%nat) as -> by lia.
  injection Hi as <-. apply (Hle 1%nat). reflexivity.
Defined.

(** More stake never hurts: with the same key, the score of a validator
    with more stake is at most the score of one with less, and a staked active
    validator's score is at least one. *)
Theorem score_antitone_in_stake (round : qrx_consensus_round_t) (v w : qrx_validator_t) :
  pubkey v = pubkey w -> active v <> 0 -> active w <> 0 ->
  0 < stake_atoms v <= stake_atoms w ->
  1 <= score round w <= score round v.
Proof.
  intros Hk Hv Hw Hs. unfold score, qrx_consensus_validator_score.
  rewrite !(decide_False (P := active _ = 0)), !(decide_False (P := stake_atoms _ = 0)) by lia.
  assert (qrx_hash_round_input round v = qrx_hash_round_input round w) as ->
    by (unfold qrx_hash_round_input; by rewrite Hk).
  set (b := qrx_hash_round_input round w).
  assert (0 <= b) by (unfold b, qrx_hash_round_input; rewrite mix64_unfold;
    apply xorshift33_range; auto with word).
  assert (b / stake_atoms w <= b / stake_atoms v) by (apply Z.div_le_compat_l; lia).
  assert (0 <= b / stake_atoms w) by (apply Z.div_pos; lia).
  repeat case_decide; lia.
Qed.

Lemma score_antitone_in_stake_witness :
  1 <= score demo_round (demo_validator 3 2000) <= score demo_round (demo_validator 3 1000).
Proof. apply score_antitone_in_stake; [reflexivity|discriminate|discriminate|simpl; lia]. Defined.

(** A timestamp passes exactly when it is after the parent, not before the
    past median and not beyond the allowed drift, provided the drift bound does
    not overflow; a sequential nonce passes exactly when it is the successor
    of the last one. *)
Theorem header_checks_spec (ts parent median local drift last next : Z) :
  in_u64 (local + drift) -> in_u64 (last + 1) ->
  (qrx_verify_consensus_timestamp ts parent median local drift = 1 <->
     parent < ts /\ median <= ts <= local + drift) /\
  (qrx_validate_sequential_nonce last next = 1 <-> next = last + 1) /\
  (qrx_verify_account_nonce last next = 1 <-> next = last).
Proof.
  intros H1 H2. unfold qrx_verify_consensus_timestamp, qrx_validate_sequential_nonce,
    qrx_verify_account_nonce.
  rewrite !u64_small by done. repeat case_decide; repeat split; intros; lia.
Qed.

Lemma header_checks_spec_witness :
  in_u64 (100 + 20) /\ qrx_verify_consensus_timestamp 110 90 80 100 20 = 1.
Proof.
  assert (H : in_u64 (100 + 20)) by word. split; [exact H|].
  apply (header_checks_spec 110 90 80 100 20 3 4 H); [word|lia].
Defined.
