(* ===== verification/Finality.v ===== *)
(** * BFT finality and slashing (src/qrx-core/src/consensus)

    Votes, quorums and commit certificates ([qrx_finality.c]), the hybrid vote
    signature and the equivocation check ([qrx_slashing.c]), and the state
    machine of one height and round ([qrx_finality_state.c]).

    A fixed C array is the list of its bytes; the vote arrays of the state are
    the lists of their first [prevote_count] and [precommit_count] entries.
    A pointer the code compares with NULL is an [option].  OpenSSL is a
    parameter: key import, PEM import and one-shot verification. *)

From stdpp Require Import gmap.
From S2P Require Import Prelude.

(** ** Data *)

Definition QRX_FINALITY_HASH_SIZE : Z := 64.
Definition QRX_FINALITY_SIG_SIZE : Z := 8192.
Definition QRX_FINALITY_PUB_SIZE : Z := 8192.
Definition QRX_FINALITY_MAX_VOTES : Z := 4096.
Definition QRX_MAX_SLASH_EVENTS : Z := 4096.

(** The C enumerations are [int]s, so a vote may carry any value. *)
Definition QRX_VOTE_PREVOTE : Z := 1.
Definition QRX_VOTE_PRECOMMIT : Z := 2.

Definition QRX_SLASH_DOUBLE_PREVOTE : Z := 1.
Definition QRX_SLASH_DOUBLE_PRECOMMIT : Z := 2.
Definition QRX_SLASH_INVALID_SIGNATURE : Z := 3.

Record qrx_finality_vote_t := mkVote {
  v_protocol_version : Z;
  v_chain_id_hash : Z;
  v_height : Z;
  v_round : Z;
  v_type : Z;
  v_block_hash : bytes;
  v_validator_pubkey : bytes;
  v_validator_power : Z;
  v_signature : bytes;
  v_signature_len : Z
}.

Record qrx_commit_certificate_t := mkCert {
  c_height : Z;
  c_round : Z;
  c_block_hash : bytes;
  c_total_power : Z;
  c_signed_power : Z;
  c_vote_count : Z
}.

Record qrx_finality_state_t := mkState {
  st_height : Z;
  st_round : Z;
  st_proposed_block_hash : bytes;
  st_prevotes : list qrx_finality_vote_t;
  st_precommits : list qrx_finality_vote_t;
  st_total_power : Z;
  st_finalized : Z;
  st_commit_certificate : qrx_commit_certificate_t
}.

Record qrx_slash_event_t := mkSlash {
  ev_validator_pubkey : bytes;
  ev_reason : Z;
  ev_height : Z;
  ev_round : Z;
  ev_penalty_atoms : Z
}.

(** [events] up to [count]. *)
Record qrx_slashing_state_t := mkSlashState { sl_events : list qrx_slash_event_t }.

(** [memcmp(a, b, n) == 0] on two arrays of at least [n] bytes. *)
Definition mem_eq (n : Z) (a b : bytes) : bool :=
  bool_decide (take (Z.to_nat n) a = take (Z.to_nat n) b).

(** ** Quorum and certificates ([qrx_finality.c]) *)

Definition qrx_finality_quorum_power (total_power : Z) : Z :=
  ((total_power *64 2) / 3) +64 1.

Definition qrx_finality_has_quorum (signed_power total_power : Z) : Z :=
  if decide (total_power = 0) then 0
  else if decide (signed_power >= qrx_finality_quorum_power total_power) then 1 else 0.

Definition qrx_finality_vote_matches (vote : option qrx_finality_vote_t)
    (height round type : Z) (block_hash : option bytes) : Z :=
  match vote, block_hash with
  | Some vote, Some block_hash =>
    if decide (v_height vote <> height) then 0
    else if decide (v_round vote <> round) then 0
    else if decide (v_type vote <> type) then 0
    else if negb (mem_eq QRX_FINALITY_HASH_SIZE (v_block_hash vote) block_hash) then 0
    else if decide (v_validator_power vote = 0) then 0
    else 1
  | _, _ => 0
  end.

(** The counting loop of [qrx_finality_build_commit_certificate]. *)
Fixpoint count_votes (votes : list qrx_finality_vote_t) (height round : Z)
    (block_hash : bytes) (signed_power matched_votes : Z) : Z * Z :=
  match votes with
  | [] => (signed_power, matched_votes)
  | v :: votes =>
    if decide (qrx_finality_vote_matches (Some v) height round QRX_VOTE_PRECOMMIT (Some block_hash) <> 0)
    then count_votes votes height round block_hash
           (signed_power +64 v_validator_power v) (matched_votes +64 1)
    else count_votes votes height round block_hash signed_power matched_votes
  end.

(** Returns the result and the new [*out], [None] when it is not written. *)
Definition qrx_finality_build_commit_certificate (votes : option (list qrx_finality_vote_t))
    (height round : Z) (block_hash : option bytes) (total_power : Z)
    (out : option qrx_commit_certificate_t) : Z * option qrx_commit_certificate_t :=
  match votes, block_hash, out with
  | Some votes, Some block_hash, Some _ =>
    let '(signed_power, matched_votes) := count_votes votes height round block_hash 0 0 in
    (qrx_finality_has_quorum signed_power total_power,
     Some {| c_height := height; c_round := round;
             c_block_hash := take (Z.to_nat QRX_FINALITY_HASH_SIZE) block_hash;
             c_total_power := total_power; c_signed_power := signed_power;
             c_vote_count := matched_votes |})
  | _, _, _ => (0, out)
  end.

Definition qrx_finality_verify_commit_certificate (cert : option qrx_commit_certificate_t) : Z :=
  match cert with
  | None => 0
  | Some cert =>
    if decide (c_total_power cert = 0) then 0
    else if decide (c_signed_power cert > c_total_power cert) then 0
    else qrx_finality_has_quorum (c_signed_power cert) (c_total_power cert)
  end.

(** ** Vote payload ([qrx_slashing.c]) *)

Definition qrx_u32_be (v : Z) : bytes :=
  [byte.of_Z (Z.shiftr v 24); byte.of_Z (Z.shiftr v 16); byte.of_Z (Z.shiftr v 8); byte.of_Z v].

(** [for (i = 7; i >= 0; --i) { p[i] = v & 0xff; v >>= 8; }] *)
Fixpoint u64_be_loop (n : nat) (v : Z) (acc : bytes) : bytes :=
  match n with
  | O => acc
  | S n => u64_be_loop n (Z.shiftr v 8) (byte.of_Z (Z.land v 0xff) :: acc)
  end.
Definition qrx_u64_be (v : Z) : bytes := u64_be_loop 8 v [].

Definition qrx_finality_vote_payload (vote : qrx_finality_vote_t) : bytes :=
  cs "QRX-FINALITY-VOTE-V1"
  ++ qrx_u32_be (v_protocol_version vote)
  ++ qrx_u32_be (v_chain_id_hash vote)
  ++ qrx_u64_be (u64 (v_height vote))
  ++ qrx_u32_be (u32 (v_round vote))
  ++ qrx_u32_be (u32 (v_type vote))
  ++ take (Z.to_nat QRX_FINALITY_HASH_SIZE) (v_block_hash vote)
  ++ qrx_u64_be (v_validator_power vote).

(** Reads inside an array; [None] is a read past its end. *)
Definition rd_slice (buf : bytes) (off len : Z) : option bytes :=
  if decide (0 <= off /\ 0 <= len /\ off + len <= blen buf)
  then Some (take (Z.to_nat len) (drop (Z.to_nat off) buf)) else None.

Definition qrx_be16_read (buf : bytes) (off : Z) : option Z :=
  match rd_slice buf off 2 with
  | Some [a; b] => Some (Z.lor (Z.shiftl (byte.unsigned a) 8) (byte.unsigned b))
  | _ => None
  end.

(** ** Hybrid signature, equivocation and the state machine *)

Section openssl.
Context {PKEY : Type}.
(** [EVP_PKEY_new_raw_public_key(EVP_PKEY_ED25519, ...)]. *)
Variable ed25519_raw_public_key : bytes -> option PKEY.
(** [PEM_read_bio_PUBKEY] on a memory buffer. *)
Variable pem_read_pubkey : bytes -> option PKEY.
(** [EVP_DigestVerifyInit] and [EVP_DigestVerify] succeed with 1: key,
    message, signature. *)
Variable digest_verify : PKEY -> bytes -> bytes -> bool.

Definition qrx_verify_oneshot (pub : PKEY) (msg sig : bytes) : Z :=
  if digest_verify pub msg sig then 1 else 0.

(** [None] is a read past the end of [validator_pubkey] or [signature]. *)
Definition qrx_vote_signature_verify (vote : option qrx_finality_vote_t) : option Z :=
  match vote with
  | None => Some 0
  | Some vote =>
    if decide (v_signature_len vote < 2 + 64 + 2) then Some 0 else
    let pk := v_validator_pubkey vote in
    ed_raw ← rd_slice pk 0 32;
    ml_pub_len ← qrx_be16_read pk 32;
    if decide (ml_pub_len = 0 \/ 34 + ml_pub_len > QRX_FINALITY_PUB_SIZE) then Some 0 else
    ml_pem ← rd_slice pk 34 ml_pub_len;
    match ed25519_raw_public_key ed_raw, pem_read_pubkey ml_pem with
    | Some ed_pub, Some ml_pub =>
      let sig := v_signature vote in
      ed_sig_len ← qrx_be16_read sig 0;
      if decide (ed_sig_len = 0 \/ 2 + ed_sig_len + 2 > v_signature_len vote) then Some 0 else
      ml_sig_len ← qrx_be16_read sig (2 + ed_sig_len);
      let off := 2 + ed_sig_len + 2 in
      if decide (ml_sig_len = 0 \/ off + ml_sig_len <> v_signature_len vote) then Some 0 else
      ed_sig ← rd_slice sig 2 ed_sig_len;
      ml_sig ← rd_slice sig off ml_sig_len;
      let payload := qrx_finality_vote_payload vote in
      let ok_ed := qrx_verify_oneshot ed_pub payload ed_sig in
      let ok_ml := qrx_verify_oneshot ml_pub payload ml_sig in
      Some (if decide (ok_ed <> 0 /\ ok_ml <> 0) then 1 else 0)
    | _, _ => Some 0
    end
  end.

Definition qrx_same_validator (a b : qrx_finality_vote_t) : bool :=
  mem_eq QRX_FINALITY_PUB_SIZE (v_validator_pubkey a) (v_validator_pubkey b).

Fixpoint double_vote_loop (existing : list qrx_finality_vote_t)
    (candidate : qrx_finality_vote_t) : Z :=
  match existing with
  | [] => 0
  | v :: rest =>
    if negb (qrx_same_validator v candidate) then double_vote_loop rest candidate
    else if decide (v_height v <> v_height candidate) then double_vote_loop rest candidate
    else if decide (v_round v <> v_round candidate) then double_vote_loop rest candidate
    else if decide (v_type v <> v_type candidate) then double_vote_loop rest candidate
    else if negb (mem_eq QRX_FINALITY_HASH_SIZE (v_block_hash v) (v_block_hash candidate)) then 1
    else double_vote_loop rest candidate
  end.

Definition qrx_detect_double_vote (existing_votes : option (list qrx_finality_vote_t))
    (candidate : option qrx_finality_vote_t) : Z :=
  match existing_votes, candidate with
  | Some existing, Some candidate => double_vote_loop existing candidate
  | _, _ => 0
  end.

(** The result and the new state; [st] is [None] for a NULL state. *)
Definition qrx_apply_slash (st : option qrx_slashing_state_t)
    (vote : option qrx_finality_vote_t) (reason : Z) : Z * option qrx_slashing_state_t :=
  match st, vote with
  | Some st', Some vote =>
    if decide (blen (sl_events st') >= QRX_MAX_SLASH_EVENTS) then (0, st)
    else
      let ev := {| ev_validator_pubkey := take (Z.to_nat QRX_FINALITY_PUB_SIZE) (v_validator_pubkey vote);
                   ev_reason := reason; ev_height := v_height vote; ev_round := v_round vote;
                   ev_penalty_atoms := (v_validator_power vote *64 5) / 100 |} in
      (1, Some {| sl_events := sl_events st' ++ [ev] |})
  | _, _ => (0, st)
  end.

Definition zero_cert : qrx_commit_certificate_t := mkCert 0 0 (repeat x00 64) 0 0 0.

Definition qrx_finality_state_init (height round : Z) (block_hash : option bytes)
    (total_power : Z) : qrx_finality_state_t :=
  {| st_height := height; st_round := round;
     st_proposed_block_hash :=
       match block_hash with
       | Some h => take (Z.to_nat QRX_FINALITY_HASH_SIZE) h
       | None => repeat x00 64
       end;
     st_prevotes := []; st_precommits := []; st_total_power := total_power;
     st_finalized := 0; st_commit_certificate := zero_cert |}.

Definition with_prevotes (st : qrx_finality_state_t) (l : list qrx_finality_vote_t) :=
  {| st_height := st_height st; st_round := st_round st;
     st_proposed_block_hash := st_proposed_block_hash st;
     st_prevotes := l; st_precommits := st_precommits st;
     st_total_power := st_total_power st; st_finalized := st_finalized st;
     st_commit_certificate := st_commit_certificate st |}.
Definition with_precommits (st : qrx_finality_state_t) (l : list qrx_finality_vote_t) :=
  {| st_height := st_height st; st_round := st_round st;
     st_proposed_block_hash := st_proposed_block_hash st;
     st_prevotes := st_prevotes st; st_precommits := l;
     st_total_power := st_total_power st; st_finalized := st_finalized st;
     st_commit_certificate := st_commit_certificate st |}.
Definition with_certificate (st : qrx_finality_state_t) (c : qrx_commit_certificate_t) (fin : Z) :=
  {| st_height := st_height st; st_round := st_round st;
     st_proposed_block_hash := st_proposed_block_hash st;
     st_prevotes := st_prevotes st; st_precommits := st_precommits st;
     st_total_power := st_total_power st; st_finalized := fin;
     st_commit_certificate := c |}.

(** [qrx_finality_state_add_vote] past its NULL test; [None] is a read past
    the end of a vote's arrays. *)
Definition state_add_vote (st : qrx_finality_state_t)
    (vote : qrx_finality_vote_t) : option (Z * qrx_finality_state_t) :=
  if decide (qrx_finality_vote_matches (Some vote) (st_height st) (st_round st)
               (v_type vote) (Some (st_proposed_block_hash st)) = 0)
  then Some (0, st) else
  ok ← qrx_vote_signature_verify (Some vote);
  if decide (ok = 0) then Some (0, st) else
  if decide (v_type vote = QRX_VOTE_PREVOTE /\
             qrx_detect_double_vote (Some (st_prevotes st)) (Some vote) <> 0)
  then Some (0, st) else
  if decide (v_type vote = QRX_VOTE_PRECOMMIT /\
             qrx_detect_double_vote (Some (st_precommits st)) (Some vote) <> 0)
  then Some (0, st) else
  if decide (v_type vote = QRX_VOTE_PREVOTE) then
    if decide (blen (st_prevotes st) >= QRX_FINALITY_MAX_VOTES) then Some (0, st)
    else Some (1, with_prevotes st (st_prevotes st ++ [vote]))
  else if decide (v_type vote = QRX_VOTE_PRECOMMIT) then
    if decide (blen (st_precommits st) >= QRX_FINALITY_MAX_VOTES) then Some (0, st)
    else Some (1, with_precommits st (st_precommits st ++ [vote]))
  else Some (0, st).

Definition qrx_finality_state_add_vote (st : option qrx_finality_state_t)
    (vote : option qrx_finality_vote_t) : option (Z * option qrx_finality_state_t) :=
  match st, vote with
  | Some st', Some vote' =>
    '(r, st'') ← state_add_vote st' vote'; Some (r, Some st'')
  | _, _ => Some (0, st)
  end.

(** [qrx_finality_state_try_finalize] past its NULL test. *)
Definition state_try_finalize (st : qrx_finality_state_t) : Z * qrx_finality_state_t :=
  if decide (st_finalized st <> 0) then (1, st) else
  let '(ok, cert) :=
    qrx_finality_build_commit_certificate (Some (st_precommits st)) (st_height st)
      (st_round st) (Some (st_proposed_block_hash st)) (st_total_power st)
      (Some (st_commit_certificate st)) in
  let cert := default (st_commit_certificate st) cert in
  if decide (ok <> 0) then (1, with_certificate st cert 1)
  else (0, with_certificate st cert (st_finalized st)).

Definition qrx_finality_state_try_finalize (st : option qrx_finality_state_t)
    : Z * option qrx_finality_state_t :=
  match st with
  | None => (0, None)
  | Some st' => let '(r, st'') := state_try_finalize st' in (r, Some st'')
  end.
End openssl.

(** ** Lemmas: votes, quorums, certificates *)

Lemma mem_eq_spec n a b : mem_eq n a b = true <-> take (Z.to_nat n) a = take (Z.to_nat n) b.
Proof. unfold mem_eq. by rewrite bool_decide_eq_true. Qed.

Lemma mem_eq_sym n a b : mem_eq n a b = mem_eq n b a.
Proof. unfold mem_eq. apply bool_decide_ext. naive_solver. Qed.

Lemma vote_matches_01 v h r ty bh :
  qrx_finality_vote_matches v h r ty bh = 0 \/ qrx_finality_vote_matches v h r ty bh = 1.
Proof. unfold qrx_finality_vote_matches. repeat case_match; auto. Qed.

Lemma vote_matches_spec v h r ty bh :
  qrx_finality_vote_matches (Some v) h r ty (Some bh) = 1 <->
  v_height v = h /\ v_round v = r /\ v_type v = ty /\
  mem_eq QRX_FINALITY_HASH_SIZE (v_block_hash v) bh = true /\ v_validator_power v <> 0.
Proof.
  unfold qrx_finality_vote_matches.
  repeat case_decide; destruct (mem_eq _ _ _); simpl; naive_solver.
Qed.

Definition counts (h r : Z) (bh : bytes) (v : qrx_finality_vote_t) : Prop :=
  qrx_finality_vote_matches (Some v) h r QRX_VOTE_PRECOMMIT (Some bh) <> 0.
#[export] Instance counts_dec h r bh v : Decision (counts h r bh v).
Proof. unfold counts. apply _. Defined.

Lemma count_votes_spec vs h r bh s m :
  in_u64 s -> in_u64 m ->
  count_votes vs h r bh s m =
  (u64 (s + zsum (v_validator_power <$> filter (counts h r bh) vs)),
   u64 (m + blen (filter (counts h r bh) vs))).
Proof.
  revert s m. induction vs as [|v vs IH]; intros s m Hs Hm; cbn [count_votes].
  { unfold blen. cbn. by rewrite !Z.add_0_r, !u64_small. }
  rewrite filter_cons. destruct (decide (counts h r bh v)) as [Hc|Hc]; unfold counts in Hc.
  - rewrite decide_True by done. rewrite IH by auto with word.
    rewrite fmap_cons, zsum_cons, blen_cons.
    apply (f_equal2 pair); unfold u64; rewrite Z.add_mod_idemp_l by lia; f_equal; lia.
  - by rewrite decide_False, IH by done.
Qed.

(** The certificate the code builds for a list of votes. *)
Definition cert_of (h r : Z) (bh : bytes) (total : Z) (vs : list qrx_finality_vote_t)
    : qrx_commit_certificate_t :=
  {| c_height := h; c_round := r; c_block_hash := take 64 bh; c_total_power := total;
     c_signed_power := u64 (zsum (v_validator_power <$> filter (counts h r bh) vs));
     c_vote_count := u64 (blen (filter (counts h r bh) vs)) |}.

Lemma build_certificate_eq vs h r bh total out :
  qrx_finality_build_commit_certificate (Some vs) h r (Some bh) total (Some out) =
  (qrx_finality_has_quorum (c_signed_power (cert_of h r bh total vs)) total,
   Some (cert_of h r bh total vs)).
Proof.
  unfold qrx_finality_build_commit_certificate.
  rewrite count_votes_spec by (unfold in_u64; lia). done.
Qed.

Lemma quorum_eq t : 0 <= t < 2 ^ 63 -> qrx_finality_quorum_power t = 2 * t / 3 + 1.
Proof.
  intros. unfold qrx_finality_quorum_power. rewrite (u64_small (t * 2)) by word.
  rewrite (Z.mul_comm t 2), u64_small; [done|]. word.
Qed.

Lemma has_quorum_spec s t :
  0 <= t < 2 ^ 63 -> qrx_finality_has_quorum s t <> 0 <-> 0 < t /\ 2 * t < 3 * s.
Proof.
  intros. unfold qrx_finality_has_quorum. rewrite quorum_eq by done.
  repeat case_decide; dlia.
Qed.

(** Below 2^63 of total power the quorum is the least number strictly above
    two thirds of it; every nonzero total can reach its quorum, and two quorums
    overlap in strictly more than a third of the power.  The bound is needed: at
    2^63 the doubling wraps around and a single unit of power is a quorum. *)
Theorem quorum_power_spec (total : Z) :
  0 <= total < 2 ^ 63 ->
  let q := qrx_finality_quorum_power total in
  (forall s, 0 <= s -> q <= s <-> 2 * total < 3 * s) /\
  (0 < total -> q <= total) /\
  total < 3 * (2 * q - total) /\
  (forall s, qrx_finality_has_quorum s total = 1 <-> 0 < total /\ q <= s) /\
  qrx_finality_has_quorum 1 (2 ^ 63) = 1.
Proof.
  intros Ht q. unfold q. rewrite quorum_eq by done.
  split; [intros; dlia|]. split; [dlia|]. split; [dlia|].
  split; [|reflexivity]. intros s. pose proof (has_quorum_spec s total Ht) as H. revert H.
  unfold qrx_finality_has_quorum. rewrite quorum_eq by done.
  repeat case_decide; dlia.
Qed.

Lemma quorum_power_spec_witness : qrx_finality_has_quorum 67 100 = 1.
Proof.
  destruct (quorum_power_spec 100) as (_&_&_&H&_); [lia|].
  apply H. split; [lia|]. vm_compute. discriminate.
Defined.


(** ** The state machine of one round: reachable states and their invariant *)

Section machine.
Context {PKEY : Type} (edkey pemkey : bytes -> option PKEY)
  (dverify : PKEY -> bytes -> bytes -> bool).

Abbreviation sig_ok := (qrx_vote_signature_verify edkey pemkey dverify).
Abbreviation add_vote := (state_add_vote edkey pemkey dverify).

(** One call on the state of a round. *)
Inductive fstep : qrx_finality_state_t -> qrx_finality_state_t -> Prop :=
| fstep_add st v r st' : add_vote st v = Some (r, st') -> fstep st st'
| fstep_finalize st r st' : state_try_finalize st = (r, st') -> fstep st st'.

Definition reachable (h r : Z) (bh : bytes) (total : Z) (st : qrx_finality_state_t) : Prop :=
  rtc fstep (qrx_finality_state_init h r (Some bh) total) st.

(** What is known of a stored vote. *)
Definition stored (ty : Z) (st : qrx_finality_state_t) (v : qrx_finality_vote_t) : Prop :=
  qrx_finality_vote_matches (Some v) (st_height st) (st_round st) ty
    (Some (st_proposed_block_hash st)) = 1 /\ sig_ok (Some v) = Some 1.

Definition state_cert (st : qrx_finality_state_t) (vs : list qrx_finality_vote_t) :=
  cert_of (st_height st) (st_round st) (st_proposed_block_hash st) (st_total_power st) vs.

Record inv (st : qrx_finality_state_t) : Prop := {
  inv_prevotes : Forall (stored QRX_VOTE_PREVOTE st) (st_prevotes st);
  inv_precommits : Forall (stored QRX_VOTE_PRECOMMIT st) (st_precommits st);
  inv_prevote_count : blen (st_prevotes st) <= QRX_FINALITY_MAX_VOTES;
  inv_precommit_count : blen (st_precommits st) <= QRX_FINALITY_MAX_VOTES;
  inv_final : st_finalized st <> 0 ->
    exists pre, pre `prefix_of` st_precommits st /\
      st_commit_certificate st = state_cert st pre /\
      qrx_finality_has_quorum (c_signed_power (state_cert st pre)) (st_total_power st) = 1
}.

Lemma sig_ok_01 v r : sig_ok v = Some r -> r = 0 \/ r = 1.
Proof.
  unfold qrx_vote_signature_verify. intros H.
  repeat (case_match || simplify_option_eq); auto.
Qed.

Lemma init_inv h r bh total : inv (qrx_finality_state_init h r bh total).
Proof. split; cbn; try done; constructor. Qed.

(** Every way [state_add_vote] can end. *)
Lemma add_vote_cases st v r st' :
  add_vote st v = Some (r, st') ->
  (r = 0 /\ st' = st) \/
  (r = 1 /\ stored QRX_VOTE_PREVOTE st v /\ blen (st_prevotes st) < QRX_FINALITY_MAX_VOTES /\
     st' = with_prevotes st (st_prevotes st ++ [v])) \/
  (r = 1 /\ stored QRX_VOTE_PRECOMMIT st v /\ blen (st_precommits st) < QRX_FINALITY_MAX_VOTES /\
     st' = with_precommits st (st_precommits st ++ [v])).
Proof.
  unfold state_add_vote. case_decide as Hm; [intros [= <- <-]; by left|].
  destruct (sig_ok (Some v)) as [ok|] eqn:Hs; cbn [mbind option_bind]; [|done].
  case_decide as Hok; [intros [= <- <-]; by left|].
  assert (stored (v_type v) st v) as Hst.
  { split; [|destruct (sig_ok_01 _ _ Hs) as [->| ->]; done].
    destruct (vote_matches_01 (Some v) (st_height st) (st_round st) (v_type v)
      (Some (st_proposed_block_hash st))); done. }
  repeat (case_decide; [intros [= <- <-]; by left|]).
  case_decide as Ht.
  { rewrite Ht in Hst. case_decide; intros [= <- <-]; [by left|right; left].
    repeat split; try apply Hst. lia. }
  case_decide as Ht'; [|intros [= <- <-]; by left].
  rewrite Ht' in Hst. case_decide; intros [= <- <-]; [by left|right; right].
  repeat split; try apply Hst. lia.
Qed.

Lemma try_finalize_cases st r st' :
  state_try_finalize st = (r, st') ->
  (r = 1 /\ st_finalized st <> 0 /\ st' = st) \/
  (st_finalized st = 0 /\
   st' = with_certificate st (state_cert st (st_precommits st)) r /\
   r = qrx_finality_has_quorum (c_signed_power (state_cert st (st_precommits st))) (st_total_power st)).
Proof.
  unfold state_try_finalize. case_decide as Hf; [intros [= <- <-]; by left|].
  rewrite build_certificate_eq. cbn [default].
  fold (state_cert st (st_precommits st)).
  assert (st_finalized st = 0) as Hz by lia. rewrite Hz.
  intros H. right. split; [done|]. revert H.
  unfold qrx_finality_has_quorum, state_cert. repeat case_decide; intros [= <- <-]; try done; lia.
Qed.

Lemma fstep_inv st st' : fstep st st' -> inv st -> inv st'.
Proof.
  intros H [I1 I2 I3 I4 I5]. inversion H as [? v r ? Ha|? r ? Hf]; subst.
  - apply add_vote_cases in Ha as [[_ ->]|[(_&Hs&Hc&->)|(_&Hs&Hc&->)]]; [by split|..];
      split; cbn; try done.
    + apply Forall_app_2; [done|]. by constructor.
    + rewrite blen_app, blen_cons, blen_nil. unfold QRX_FINALITY_MAX_VOTES in *. lia.
    + apply Forall_app_2; [done|]. by constructor.
    + rewrite blen_app, blen_cons, blen_nil. unfold QRX_FINALITY_MAX_VOTES in *. lia.
    + intros Hf. destruct (I5 Hf) as (pre&Hp&?&?). exists pre. split; [|done].
      by apply prefix_app_r.
  - apply try_finalize_cases in Hf as [(_&_&->)|(Hz&->&Hr)]; [by split|].
    split; cbn; try done. intros Hne. exists (st_precommits st).
    split; [done|]. split; [done|]. unfold state_cert in *. cbn in *.
    rewrite <- Hr. revert Hr. unfold qrx_finality_has_quorum. repeat case_decide; lia.
Qed.

(** The identity of the round never changes. *)
Lemma fstep_round st st' :
  fstep st st' -> st_height st' = st_height st /\ st_round st' = st_round st /\
    st_proposed_block_hash st' = st_proposed_block_hash st /\
    st_total_power st' = st_total_power st.
Proof.
  intros H. inversion H as [? v r ? Ha|? r ? Hf]; subst.
  - apply add_vote_cases in Ha as [[_ ->]|[(_&_&_&->)|(_&_&_&->)]]; done.
  - apply try_finalize_cases in Hf as [(_&_&->)|(_&->&_)]; done.
Qed.

Lemma reachable_inv h r bh total st :
  reachable h r bh total st ->
  inv st /\ st_height st = h /\ st_round st = r /\
  st_proposed_block_hash st = take 64 bh /\ st_total_power st = total.
Proof.
  unfold reachable.
  assert (forall s, rtc fstep s st -> inv s ->
    inv st /\ st_height st = st_height s /\ st_round st = st_round s /\
    st_proposed_block_hash st = st_proposed_block_hash s /\
    st_total_power st = st_total_power s) as Hgen.
  { intros s Hs. induction Hs as [|s1 s2 s3 Hstep _ IH]; [done|]. intros Hi.
    pose proof (fstep_round _ _ Hstep) as (E1&E2&E3&E4).
    destruct (IH (fstep_inv _ _ Hstep Hi)) as (?&?&?&?&?). by rewrite <- E1, <- E2, <- E3, <- E4. }
  intros Hr. apply (Hgen _ Hr). apply init_inv.
Qed.

(** C5: soundness of a finalized round.  In every reachable state each stored
    vote is for this height, round and block with a verified hybrid signature
    and nonzero power, at most 4096 of each kind are kept, and a finalized
    state carries the certificate of a prefix of its precommits whose signed
    power is a quorum of the total. *)
Theorem finality_state_sound (h r : Z) (bh : bytes) (total : Z) (st : qrx_finality_state_t) :
  reachable h r bh total st ->
  Forall (stored QRX_VOTE_PREVOTE st) (st_prevotes st) /\
  Forall (stored QRX_VOTE_PRECOMMIT st) (st_precommits st) /\
  blen (st_prevotes st) <= 4096 /\ blen (st_precommits st) <= 4096 /\
  (st_finalized st <> 0 ->
     exists pre, pre `prefix_of` st_precommits st /\
       st_commit_certificate st = cert_of h r (take 64 bh) total pre /\
       qrx_finality_has_quorum (c_signed_power (st_commit_certificate st)) total = 1).
Proof.
  intros Hr. apply reachable_inv in Hr as ([I1 I2 I3 I4 I5]&Eh&Er&Eb&Et).
  repeat split; try done. intros Hf. destruct (I5 Hf) as (pre&Hp&Hc&Hq).
  exists pre. split; [done|]. unfold state_cert in *.
  rewrite Eh, Er, Eb, Et in *. rewrite Hc. done.
Qed.

(** Finality is irrevocable: no further vote and no further call of
    [try_finalize] changes a finalized state's certificate or clears the
    flag, and [try_finalize] keeps answering 1. *)
Theorem finalized_stable (st st' : qrx_finality_state_t) :
  st_finalized st <> 0 -> rtc fstep st st' ->
  st_finalized st' = st_finalized st /\
  st_commit_certificate st' = st_commit_certificate st /\
  state_try_finalize st' = (1, st').
Proof.
  intros Hf Hs. induction Hs as [st|st s2 st' Hstep _ IH].
  { repeat split. unfold state_try_finalize. by rewrite decide_True. }
  assert (st_finalized s2 = st_finalized st /\
          st_commit_certificate s2 = st_commit_certificate st) as [E1 E2].
  { inversion Hstep as [? v r ? Ha|? r ? Ht]; subst.
    - apply add_vote_cases in Ha as [[_ ->]|[(_&_&_&->)|(_&_&_&->)]]; done.
    - apply try_finalize_cases in Ht as [(_&_&->)|(Hz&_)]; done. }
  rewrite <- E1, <- E2. apply IH. by rewrite E1.
Qed.
End machine.

(** ** Accountable safety *)

Section accountability.
Context {PKEY : Type} (edkey pemkey : bytes -> option PKEY)
  (dverify : PKEY -> bytes -> bytes -> bool).
(** A validator set: public keys and their voting power. *)
Context (vals : gset bytes) (power : bytes -> Z).

(** One vote per validator of the set, each carrying its power. *)
Definition backed (vs : list qrx_finality_vote_t) : Prop :=
  NoDup (v_validator_pubkey <$> vs) /\
  Forall (fun v => v_validator_pubkey v ∈ vals /\
                   v_validator_power v = power (v_validator_pubkey v)) vs.

Definition signers (vs : list qrx_finality_vote_t) : gset bytes :=
  list_to_set (v_validator_pubkey <$> vs).

Lemma backed_prefix vs pre : pre `prefix_of` vs -> backed vs -> backed pre.
Proof.
  intros [k ->] [Hn Hf]. rewrite fmap_app in Hn. apply NoDup_app in Hn as (?&_&_).
  apply Forall_app in Hf as [??]. done.
Qed.

Lemma backed_subset vs : backed vs -> signers vs ⊆ vals.
Proof.
  intros [_ Hf] k. unfold signers. rewrite elem_of_list_to_set, list_elem_of_fmap.
  intros (v&->&Hv). rewrite Forall_forall in Hf. by apply Hf.
Qed.

Lemma backed_weight vs :
  backed vs -> zsum (v_validator_power <$> vs) = wsum power (signers vs).
Proof.
  intros [Hn Hf]. unfold signers. rewrite wsum_list by done. f_equal. clear Hn.
  induction Hf as [|v vs [_ E] _ IH]; [done|]. by rewrite !fmap_cons, IH, E.
Qed.

Lemma stored_counts st vs :
  Forall (stored edkey pemkey dverify QRX_VOTE_PRECOMMIT st) vs ->
  filter (counts (st_height st) (st_round st) (st_proposed_block_hash st)) vs = vs.
Proof.
  intros H. induction H as [|v vs [Hv _] _ IH]; [done|].
  rewrite filter_cons, decide_True, IH by (unfold counts; lia). done.
Qed.

(** A finalized state has a set of signers with more than two thirds of the
    total power. *)
Lemma finalized_signers st :
  inv edkey pemkey dverify st -> st_finalized st <> 0 ->
  st_total_power st = wsum power vals -> wsum power vals < 2 ^ 63 ->
  (forall k, k ∈ vals -> 0 <= power k) -> backed (st_precommits st) ->
  signers (st_precommits st) ⊆ vals /\
  2 * wsum power vals < 3 * wsum power (signers (st_precommits st)).
Proof.
  intros [_ I2 _ _ I5] Hf Ht Hb Hp Hbk. split; [by apply backed_subset|].
  destruct (I5 Hf) as (pre&Hpre&_&Hq). rewrite Ht in Hq.
  pose proof (backed_prefix _ _ Hpre Hbk) as Hbp.
  assert (signers pre ⊆ signers (st_precommits st)) as Hsub.
  { destruct Hpre as [k ->]. unfold signers. rewrite fmap_app, list_to_set_app_L. set_solver. }
  assert (Forall (stored edkey pemkey dverify QRX_VOTE_PRECOMMIT st) pre) as Hst.
  { destruct Hpre as [k Ek]. rewrite Ek in I2. by apply Forall_app in I2 as [??]. }
  cbn in Hq. rewrite stored_counts, backed_weight in Hq by done.
  assert (0 <= wsum power (signers pre) <= wsum power vals).
  { split; [apply wsum_nonneg|apply wsum_subset]; auto using backed_subset.
    intros k Hk. apply Hp. by apply (backed_subset pre). }
  rewrite u64_small in Hq by word.
  assert (Hq' : qrx_finality_has_quorum (wsum power (signers pre)) (wsum power vals) <> 0) by lia.
  apply has_quorum_spec in Hq'; [|lia].
  assert (wsum power (signers pre) <= wsum power (signers (st_precommits st))).
  { apply wsum_subset; [|done]. intros k Hk. apply Hp.
    by apply (backed_subset (st_precommits st)). }
  lia.
Qed.

Lemma signer_vote vs k :
  k ∈ signers vs -> exists v, v ∈ vs /\ v_validator_pubkey v = k.
Proof.
  unfold signers. rewrite elem_of_list_to_set, list_elem_of_fmap. naive_solver.
Qed.

Lemma double_vote_pair va vb :
  v_validator_pubkey va = v_validator_pubkey vb -> v_height va = v_height vb ->
  v_round va = v_round vb -> v_type va = v_type vb ->
  mem_eq QRX_FINALITY_HASH_SIZE (v_block_hash va) (v_block_hash vb) = false ->
  qrx_detect_double_vote (Some [va]) (Some vb) = 1.
Proof.
  intros E1 E2 E3 E4 Hm. cbn. unfold qrx_same_validator, mem_eq at 1.
  rewrite E1, bool_decide_true by done. cbn.
  rewrite !decide_False by lia. by rewrite Hm.
Qed.

(** C4: accountable safety.  If two states of one height and round finalize
    different blocks, and each carries at most one precommit per validator of
    a set whose total power is the states' total (below 2^63), then
    validators holding more than a third of the power signed both blocks:
    for each of them the states hold two precommits with valid hybrid
    signatures that the code's own double-vote detector convicts.  The state
    machine does not itself refuse a validator's second precommit, nor compare
    powers with the set: [backed] is a condition on the votes it is given, and
    [repeated_precommit_finalizes] is a run without it. *)
Theorem accountable_safety (h r : Z) (bhA bhB : bytes) (A B : qrx_finality_state_t) :
  (forall k, k ∈ vals -> 0 <= power k) -> wsum power vals < 2 ^ 63 ->
  take 64 bhA <> take 64 bhB ->
  reachable edkey pemkey dverify h r bhA (wsum power vals) A ->
  reachable edkey pemkey dverify h r bhB (wsum power vals) B ->
  backed (st_precommits A) -> backed (st_precommits B) ->
  st_finalized A <> 0 -> st_finalized B <> 0 ->
  exists D : gset bytes, D ⊆ vals /\ wsum power vals < 3 * wsum power D /\
    forall k, k ∈ D -> exists va vb,
      va ∈ st_precommits A /\ vb ∈ st_precommits B /\
      v_validator_pubkey va = k /\ v_validator_pubkey vb = k /\
      qrx_vote_signature_verify edkey pemkey dverify (Some va) = Some 1 /\
      qrx_vote_signature_verify edkey pemkey dverify (Some vb) = Some 1 /\
      qrx_detect_double_vote (Some [va]) (Some vb) = 1.
Proof.
  intros Hp Hb Hne HA HB HbA HbB HfA HfB.
  apply reachable_inv in HA as (IA&EhA&ErA&EbA&EtA).
  apply reachable_inv in HB as (IB&EhB&ErB&EbB&EtB).
  destruct (finalized_signers A IA HfA EtA Hb Hp HbA) as [SA QA].
  destruct (finalized_signers B IB HfB EtB Hb Hp HbB) as [SB QB].
  exists (signers (st_precommits A) ∩ signers (st_precommits B)).
  split; [set_solver|]. split.
  { pose proof (wsum_union power (signers (st_precommits A)) (signers (st_precommits B))).
    assert (wsum power (signers (st_precommits A) ∪ signers (st_precommits B)) <= wsum power vals)
      by (apply wsum_subset; [done|set_solver]).
    lia. }
  intros k [Ha Hk]%elem_of_intersection.
  destruct (signer_vote _ _ Ha) as (va&Hva&Eka). destruct (signer_vote _ _ Hk) as (vb&Hvb&Ekb).
  exists va, vb. repeat (split; [done|]).
  destruct IA as [_ IA _ _ _], IB as [_ IB _ _ _]. rewrite Forall_forall in IA, IB.
  destruct (IA _ Hva) as [MA SgA], (IB _ Hvb) as [MB SgB]. repeat (split; [done|]).
  apply vote_matches_spec in MA as (?&?&?&MA&_), MB as (?&?&?&MB&_).
  rewrite EbA in MA. rewrite EbB in MB. apply mem_eq_spec in MA, MB.
  apply double_vote_pair; [congruence..|].
  apply bool_decide_eq_false. intros E. apply Hne.
  change (Z.to_nat QRX_FINALITY_HASH_SIZE) with 64%nat in *.
  rewrite !take_take in *. simpl in *. congruence.
Qed.
End accountability.

(** ** The signed payload *)

Lemma u32_be_eq v : qrx_u32_be v = rev (le_split 4 v).
Proof.
  change (le_split 4 v) with
    [byte.of_Z v; byte.of_Z (Z.shiftr v 8); byte.of_Z (Z.shiftr (Z.shiftr v 8) 8);
     byte.of_Z (Z.shiftr (Z.shiftr (Z.shiftr v 8) 8) 8)].
  by rewrite !Z.shiftr_shiftr by lia.
Qed.

Lemma byte_of_land v : byte.of_Z (Z.land v 0xff) = byte.of_Z v.
Proof.
  apply byte.unsigned_inj. rewrite !byte.unsigned_of_Z. unfold byte.wrap.
  change 0xff with (Z.ones 8). rewrite Z.land_ones by lia. by rewrite Z.mod_mod.
Qed.

Lemma u64_be_loop_eq n v acc : u64_be_loop n v acc = rev (le_split n v) ++ acc.
Proof.
  revert v acc. induction n as [|n IH]; intros v acc; [done|].
  change (le_split (S n) v) with (byte.of_Z v :: le_split n (Z.shiftr v 8)).
  cbn [u64_be_loop rev]. rewrite IH, byte_of_land, <- app_assoc. done.
Qed.

Lemma u64_be_eq v : qrx_u64_be v = rev (le_split 8 v).
Proof. unfold qrx_u64_be. by rewrite u64_be_loop_eq, app_nil_r. Qed.

Lemma rev_le_split_inj n a b :
  0 <= a < 2 ^ (Z.of_nat n * 8) -> 0 <= b < 2 ^ (Z.of_nat n * 8) ->
  rev (le_split n a) = rev (le_split n b) -> a = b.
Proof.
  intros Ha Hb E. apply (f_equal (@rev _)) in E. rewrite !rev_involutive in E.
  by apply (le_split_inj n).
Qed.

Lemma be_length n v : length (rev (le_split n v)) = n.
Proof. by rewrite length_rev, length_le_split. Qed.

(** The ranges of the C types and the array sizes of a vote. *)
Record wf_vote (v : qrx_finality_vote_t) : Prop := {
  wf_version : in_u32 (v_protocol_version v);
  wf_chain : in_u32 (v_chain_id_hash v);
  wf_height : in_i64 (v_height v);
  wf_round : in_i32 (v_round v);
  wf_type : in_i32 (v_type v);
  wf_hash : length (v_block_hash v) = 64%nat;
  wf_power : in_u64 (v_validator_power v);
  wf_pubkey : blen (v_validator_pubkey v) = QRX_FINALITY_PUB_SIZE;
  wf_signature : blen (v_signature v) = QRX_FINALITY_SIG_SIZE
}.

Lemma u64_signed_inj a b : in_i64 a -> in_i64 b -> u64 a = u64 b -> a = b.
Proof. unfold in_i64, u64. intros. dlia. Qed.
Lemma u32_signed_inj a b : in_i32 a -> in_i32 b -> u32 a = u32 b -> a = b.
Proof. unfold in_i32, u32. intros. dlia. Qed.

(** The signed payload determines the vote: two well-formed votes with the
    same payload agree on protocol version, chain, height, round, type, block
    hash and power, so a signature cannot be replayed for another vote. *)
Theorem vote_payload_injective (v w : qrx_finality_vote_t) :
  wf_vote v -> wf_vote w ->
  qrx_finality_vote_payload v = qrx_finality_vote_payload w ->
  v_protocol_version v = v_protocol_version w /\ v_chain_id_hash v = v_chain_id_hash w /\
  v_height v = v_height w /\ v_round v = v_round w /\ v_type v = v_type w /\
  v_block_hash v = v_block_hash w /\ v_validator_power v = v_validator_power w.
Proof.
  intros [] []. unfold qrx_finality_vote_payload.
  rewrite !u32_be_eq, !u64_be_eq. intros E. apply app_inv_head in E.
  repeat (apply app_inj_1 in E as [?E E]; [|by rewrite ?be_length, ?length_take; lia]).
  apply rev_le_split_inj in E0, E1, E; [|word..].
  apply rev_le_split_inj in E2, E3, E4; [|apply u64_range || apply u32_range..].
  apply u64_signed_inj in E2; [|done..]. apply u32_signed_inj in E3, E4; [|done..].
  rewrite !take_ge in E5 by (change (Z.to_nat QRX_FINALITY_HASH_SIZE) with 64%nat; lia).
  done.
Qed.

(** ** The hybrid signature *)

Lemma rd_slice_app a b c : rd_slice (a ++ b ++ c) (blen a) (blen b) = Some b.
Proof.
  unfold rd_slice. rewrite decide_True by (rewrite !blen_app; pose proof (blen_nonneg a);
    pose proof (blen_nonneg b); pose proof (blen_nonneg c); lia).
  unfold blen. by rewrite !Nat2Z.id, drop_app_length, take_app_length.
Qed.

Lemma rd_slice_at buf a b c off len :
  buf = a ++ b ++ c -> off = blen a -> len = blen b -> rd_slice buf off len = Some b.
Proof. intros -> -> ->. apply rd_slice_app. Qed.

Lemma rd_slice_total buf off len :
  0 <= off -> 0 <= len -> off + len <= blen buf ->
  exists s, rd_slice buf off len = Some s /\ blen s = len.
Proof.
  intros. unfold rd_slice. rewrite decide_True by lia. eexists. split; [done|].
  unfold blen in *. rewrite length_take, length_drop. lia.
Qed.

(** Two bytes, big endian. *)
Definition be16 (n : Z) : bytes := [byte.of_Z (Z.shiftr n 8); byte.of_Z n].

Lemma be16_read_at buf a c n off :
  buf = a ++ be16 n ++ c -> off = blen a -> 0 <= n < 2 ^ 16 -> qrx_be16_read buf off = Some n.
Proof.
  intros -> -> Hn. unfold qrx_be16_read.
  rewrite (rd_slice_at _ a (be16 n) c) by done. unfold be16. f_equal.
  pose proof (le_combine_split 2 n) as E.
  change (le_split 2 n) with [byte.of_Z n; byte.of_Z (Z.shiftr n 8)] in E.
  change (le_combine [byte.of_Z n; byte.of_Z (Z.shiftr n 8)]) with
    (Z.lor (byte.unsigned (byte.of_Z n))
       (Z.shiftl (Z.lor (byte.unsigned (byte.of_Z (Z.shiftr n 8))) (Z.shiftl 0 8)) 8)) in E.
  rewrite Z.shiftl_0_l, Z.lor_0_r, Z.mod_small in E by done.
  by rewrite Z.lor_comm.
Qed.

Lemma be16_read_range buf off n : qrx_be16_read buf off = Some n -> 0 <= n < 2 ^ 16.
Proof.
  unfold qrx_be16_read. destruct (rd_slice buf off 2) as [[|a [|b [|]]]|]; try done.
  intros [= <-]. pose proof (byte.unsigned_range a). pose proof (byte.unsigned_range b).
  pose proof (le_combine_bound [b; a]) as Hb.
  change (le_combine [b; a]) with
    (Z.lor (byte.unsigned b) (Z.shiftl (Z.lor (byte.unsigned a) (Z.shiftl 0 8)) 8)) in Hb.
  rewrite Z.shiftl_0_l, Z.lor_0_r, Z.lor_comm in Hb. exact Hb.
Qed.

Lemma be16_read_total buf off :
  0 <= off -> off + 2 <= blen buf -> exists n, qrx_be16_read buf off = Some n.
Proof.
  intros. destruct (rd_slice_total buf off 2) as (s&Hs&Hl); [lia..|].
  unfold qrx_be16_read. rewrite Hs. unfold blen in Hl.
  destruct s as [|a [|b [|]]]; simpl in Hl; try lia. eauto.
Qed.

Section signature.
Context {PKEY : Type} (edkey pemkey : bytes -> option PKEY)
  (dverify : PKEY -> bytes -> bytes -> bool).
Abbreviation sig_ok := (qrx_vote_signature_verify edkey pemkey dverify).

(** Memory safety of the signature check: when the arrays have their
    declared sizes and [signature_len] is at most the size of the signature
    array, every read stays inside the arrays. *)
Theorem signature_verify_in_bounds (v : qrx_finality_vote_t) :
  wf_vote v -> v_signature_len v <= QRX_FINALITY_SIG_SIZE ->
  exists r, sig_ok (Some v) = Some r /\ (r = 0 \/ r = 1).
Proof.
  intros [] Hlen.
  assert (exists r, sig_ok (Some v) = Some r) as [r Hr]; [|eauto using sig_ok_01].
  unfold qrx_vote_signature_verify. unfold QRX_FINALITY_PUB_SIZE, QRX_FINALITY_SIG_SIZE in *.
  case_decide; [eauto|].
  destruct (rd_slice_total (v_validator_pubkey v) 0 32) as (raw&->&_); [lia..|].
  destruct (be16_read_total (v_validator_pubkey v) 32) as (pl&Hpl); [lia..|].
  rewrite Hpl. apply be16_read_range in Hpl. cbn [mbind option_bind].
  case_decide; [eauto|].
  destruct (rd_slice_total (v_validator_pubkey v) 34 pl) as (pem&->&_); [lia..|].
  cbn [mbind option_bind].
  destruct (edkey raw) as [ed|]; [|eauto]. destruct (pemkey pem) as [ml|]; [|eauto].
  destruct (be16_read_total (v_signature v) 0) as (el&Hel); [lia..|].
  rewrite Hel. apply be16_read_range in Hel. cbn [mbind option_bind].
  case_decide; [eauto|].
  destruct (be16_read_total (v_signature v) (2 + el)) as (mll&Hml); [lia..|].
  rewrite Hml. apply be16_read_range in Hml. cbn [mbind option_bind].
  case_decide; [eauto|].
  destruct (rd_slice_total (v_signature v) 2 el) as (es&->&_); [lia..|].
  destruct (rd_slice_total (v_signature v) (2 + el + 2) mll) as (ms&->&_); [lia..|].
  eauto.
Qed.

(** A public key and a signature in the layout the comment of
    [qrx_slashing.c] documents. *)
Definition encode_pubkey (raw pem pad : bytes) : bytes := raw ++ be16 (blen pem) ++ pem ++ pad.
Definition encode_signature (ed ml pad : bytes) : bytes :=
  be16 (blen ed) ++ ed ++ be16 (blen ml) ++ ml ++ pad.

(** The hybrid check fails closed.  On a vote in the documented layout it
    answers 1 exactly when both keys import and both the Ed25519 and the
    ML-DSA signature verify over the vote's payload; one valid half is never
    enough. *)
Theorem signature_verify_hybrid (v : qrx_finality_vote_t) (raw pem pad1 ed ml pad2 : bytes) :
  v_validator_pubkey v = encode_pubkey raw pem pad1 ->
  v_signature v = encode_signature ed ml pad2 ->
  v_signature_len v = 2 + blen ed + 2 + blen ml ->
  blen raw = 32 -> 0 < blen pem <= QRX_FINALITY_PUB_SIZE - 34 ->
  64 <= blen ed < 2 ^ 16 -> 0 < blen ml < 2 ^ 16 ->
  sig_ok (Some v) = Some 1 <->
  exists kE kM, edkey raw = Some kE /\ pemkey pem = Some kM /\
    dverify kE (qrx_finality_vote_payload v) ed = true /\
    dverify kM (qrx_finality_vote_payload v) ml = true.
Proof.
  intros Hpk Hsig Hlen Hraw Hpem Hed Hml. unfold qrx_vote_signature_verify.
  rewrite Hpk, Hsig, Hlen. unfold QRX_FINALITY_PUB_SIZE in *.
  assert (forall x, blen (be16 x) = 2) as H16 by done.
  rewrite decide_False by lia.
  set (P := encode_pubkey raw pem pad1). set (S := encode_signature ed ml pad2).
  rewrite (rd_slice_at P [] raw (be16 (blen pem) ++ pem ++ pad1) 0 32) by (done || lia).
  cbn [mbind option_bind].
  rewrite (be16_read_at P raw (pem ++ pad1) (blen pem) 32) by (done || lia).
  cbn [mbind option_bind]. rewrite decide_False by lia.
  rewrite (rd_slice_at P (raw ++ be16 (blen pem)) pem pad1 34)
    by (unfold P, encode_pubkey; rewrite ?blen_app, ?H16, <- ?app_assoc; done || lia).
  cbn [mbind option_bind].
  destruct (edkey raw) as [kE|]; [|naive_solver].
  destruct (pemkey pem) as [kM|]; [|naive_solver].
  rewrite (be16_read_at S [] (ed ++ be16 (blen ml) ++ ml ++ pad2) (blen ed) 0) by (done || lia).
  cbn [mbind option_bind]. rewrite decide_False by lia.
  rewrite (be16_read_at S (be16 (blen ed) ++ ed) (ml ++ pad2) (blen ml) (2 + blen ed))
    by (unfold S, encode_signature; rewrite ?blen_app, ?H16, <- ?app_assoc; done || lia).
  cbn [mbind option_bind]. rewrite decide_False by lia.
  rewrite (rd_slice_at S (be16 (blen ed)) ed (be16 (blen ml) ++ ml ++ pad2) 2)
    by (rewrite ?H16; done || lia).
  cbn [mbind option_bind].
  rewrite (rd_slice_at S (be16 (blen ed) ++ ed ++ be16 (blen ml)) ml pad2 (2 + blen ed + 2))
    by (unfold S, encode_signature; rewrite ?blen_app, ?H16, <- ?app_assoc; done || lia).
  cbn [mbind option_bind]. unfold qrx_verify_oneshot.
  split.
  - intros H. exists kE, kM. destruct (dverify kE _ ed), (dverify kM _ ml); done.
  - intros (?&?&[= <-]&[= <-]&->& ->). done.
Qed.
End signature.

(** ** Equivocation, slashing and repeated votes *)

(** The candidate contradicts [v]: same validator, height, round and type, but
    another block hash. *)
Definition contradicts (v candidate : qrx_finality_vote_t) : Prop :=
  qrx_same_validator v candidate = true /\ v_height v = v_height candidate /\
  v_round v = v_round candidate /\ v_type v = v_type candidate /\
  mem_eq QRX_FINALITY_HASH_SIZE (v_block_hash v) (v_block_hash candidate) = false.

Lemma double_vote_loop_spec vs c :
  (double_vote_loop vs c = 1 /\ Exists (fun v => contradicts v c) vs) \/
  (double_vote_loop vs c = 0 /\ Forall (fun v => ~ contradicts v c) vs).
Proof.
  induction vs as [|v vs IH]; [right; split; [done|constructor]|]. cbn [double_vote_loop].
  destruct (decide (contradicts v c)) as [H|H].
  { left. split; [|by constructor]. destruct H as (E1&E2&E3&E4&E5).
    rewrite E1, E5, !decide_False by lia. done. }
  assert (double_vote_loop (v :: vs) c = double_vote_loop vs c) as E.
  { cbn [double_vote_loop]. unfold contradicts in H.
    destruct (qrx_same_validator v c); [|done]. cbn [negb].
    repeat (case_decide; [done|]).
    destruct (mem_eq _ _ _) eqn:Em; [done|]. exfalso. apply H. repeat split; lia. }
  cbn [double_vote_loop] in E. rewrite E.
  destruct IH as [[? ?]|[? ?]]; [left|right]; split; auto.
Qed.

(** The double-vote detector convicts exactly the contradictions: it answers
    1 when some recorded vote of the same validator, height, round and type
    names another block, and 0 otherwise.  A slash is recorded while there is
    room for it, names the offender, and costs a twentieth of the voting power
    (rounded down) whenever five times the power fits in 64 bits. *)
Theorem equivocation_slashed (vs : list qrx_finality_vote_t) (v : qrx_finality_vote_t)
    (st : qrx_slashing_state_t) (reason : Z) :
  0 <= v_validator_power v -> 5 * v_validator_power v < 2 ^ 64 ->
  (qrx_detect_double_vote (Some vs) (Some v) = 1 <-> exists u, u ∈ vs /\ contradicts u v) /\
  (qrx_detect_double_vote (Some vs) (Some v) = 0 <-> forall u, u ∈ vs -> ~ contradicts u v) /\
  (blen (sl_events st) < QRX_MAX_SLASH_EVENTS ->
     exists ev, qrx_apply_slash (Some st) (Some v) reason =
                  (1, Some {| sl_events := sl_events st ++ [ev] |}) /\
       ev_validator_pubkey ev = take (Z.to_nat QRX_FINALITY_PUB_SIZE) (v_validator_pubkey v) /\ ev_reason ev = reason /\
       ev_height ev = v_height v /\ ev_round ev = v_round v /\
       ev_penalty_atoms ev = v_validator_power v / 20) /\
  (QRX_MAX_SLASH_EVENTS <= blen (sl_events st) ->
     qrx_apply_slash (Some st) (Some v) reason = (0, Some st)).
Proof.
  intros H0 H5. cbn [qrx_detect_double_vote]. rewrite <- Exists_exists, <- Forall_forall.
  assert (~ (Exists (fun u => contradicts u v) vs /\ Forall (fun u => ~ contradicts u v) vs)).
  { rewrite Exists_exists, Forall_forall. naive_solver. }
  destruct (double_vote_loop_spec vs v) as [[-> ?]|[-> ?]];
    (split; [split; [done|naive_solver]|]); (split; [split; [done|naive_solver]|]);
    unfold qrx_apply_slash; split; intros Hc.
  1,3: rewrite decide_False by lia; eexists; split; [done|]; cbn;
    repeat split; rewrite u64_small by word; dlia.
  all: by rewrite decide_True by lia.
Qed.

Section repeated.
Context {PKEY : Type} (edkey pemkey : bytes -> option PKEY)
  (dverify : PKEY -> bytes -> bytes -> bool).

(** In a reachable state the detector never fires: every stored vote is for
    the proposed block, and so is every vote that reaches the detector. *)
Lemma detector_silent st v :
  inv edkey pemkey dverify st ->
  qrx_finality_vote_matches (Some v) (st_height st) (st_round st) (v_type v)
    (Some (st_proposed_block_hash st)) = 1 ->
  qrx_detect_double_vote (Some (st_prevotes st)) (Some v) = 0 /\
  qrx_detect_double_vote (Some (st_precommits st)) (Some v) = 0.
Proof.
  intros [I1 I2 _ _ _] Hm. cbn. apply vote_matches_spec in Hm as (_&_&_&Hm&_).
  assert (forall ty vs, Forall (stored edkey pemkey dverify ty st) vs ->
    double_vote_loop vs v = 0) as Hgen; [|split; eauto].
  intros ty vs Hvs. destruct (double_vote_loop_spec vs v) as [[_ Hx]|[-> _]]; [|done].
  exfalso. apply Exists_exists in Hx as (u&Hu&_&_&_&_&Hd).
  rewrite Forall_forall in Hvs. destruct (Hvs u Hu) as [Hs _].
  apply vote_matches_spec in Hs as (_&_&_&Hs&_).
  apply mem_eq_spec in Hm, Hs. apply bool_decide_eq_false in Hd. congruence.
Qed.

Lemma add_matching_precommit st v :
  inv edkey pemkey dverify st -> stored edkey pemkey dverify QRX_VOTE_PRECOMMIT st v ->
  blen (st_precommits st) < QRX_FINALITY_MAX_VOTES ->
  state_add_vote edkey pemkey dverify st v =
  Some (1, with_precommits st (st_precommits st ++ [v])).
Proof.
  intros Hi [Hm Hs] Hc.
  assert (Ht : v_type v = QRX_VOTE_PRECOMMIT) by (by apply vote_matches_spec in Hm as (_&_&?&_)).
  rewrite <- Ht in Hm. destruct (detector_silent st v Hi Hm) as [D1 D2].
  unfold state_add_vote. rewrite Hm, Hs. cbn [mbind option_bind].
  rewrite D1, D2, Ht. rewrite !decide_False by (unfold QRX_VOTE_PRECOMMIT, QRX_VOTE_PREVOTE; lia).
  rewrite decide_True by done. by rewrite decide_False by lia.
Qed.

Lemma repeat_vote_reachable h r bh total v n :
  stored edkey pemkey dverify QRX_VOTE_PRECOMMIT (qrx_finality_state_init h r (Some bh) total) v ->
  Z.of_nat n <= QRX_FINALITY_MAX_VOTES ->
  reachable edkey pemkey dverify h r bh total
    (with_precommits (qrx_finality_state_init h r (Some bh) total) (repeat v n)).
Proof.
  intros Hs. induction n as [|n IH]; intros Hn; [constructor|].
  assert (Hr := IH ltac:(lia)). eapply rtc_r; [exact Hr|].
  replace (S n) with (n + 1)%nat by lia. rewrite repeat_app.
  eapply fstep_add, (add_matching_precommit (with_precommits _ (repeat v n))).
  - by eapply reachable_inv.
  - exact Hs.
  - cbn. rewrite blen_repeat. lia.
Qed.

(** The state machine counts repetitions.  Nothing in
    [qrx_finality_state_add_vote] rejects a second copy of a vote it already
    holds, so one validator finalizes a block alone by sending its precommit
    [n] times, as soon as [n] times its power exceeds two thirds of the
    total, however small its own share is. *)
Theorem repeated_precommit_finalizes (h r : Z) (bh : bytes) (total : Z)
    (v : qrx_finality_vote_t) (n : nat) :
  stored edkey pemkey dverify QRX_VOTE_PRECOMMIT (qrx_finality_state_init h r (Some bh) total) v ->
  Z.of_nat n <= QRX_FINALITY_MAX_VOTES -> 0 < total < 2 ^ 63 ->
  0 <= v_validator_power v -> Z.of_nat n * v_validator_power v < 2 ^ 64 ->
  2 * total < 3 * (Z.of_nat n * v_validator_power v) ->
  exists st, reachable edkey pemkey dverify h r bh total st /\ st_finalized st = 1 /\
    st_precommits st = repeat v n.
Proof.
  intros Hs Hn Ht H0 Hw Hq. set (st := with_precommits (qrx_finality_state_init h r (Some bh) total) (repeat v n)).
  assert (Hr : reachable edkey pemkey dverify h r bh total st) by by apply repeat_vote_reachable.
  pose proof (reachable_inv _ _ _ _ _ _ _ _ Hr) as [Hi _].
  assert (Ec : state_cert st (st_precommits st) =
    {| c_height := h; c_round := r; c_block_hash := take 64 (take 64 bh); c_total_power := total;
       c_signed_power := Z.of_nat n * v_validator_power v; c_vote_count := u64 (Z.of_nat n) |}).
  { unfold state_cert, cert_of. rewrite (stored_counts edkey pemkey dverify) by apply Hi.
    change (st_precommits st) with (repeat v n). rewrite blen_repeat. f_equal.
    assert (zsum (v_validator_power <$> repeat v n) = Z.of_nat n * v_validator_power v) as ->.
    { clear. induction n as [|n IH]; [done|]. cbn [repeat].
      rewrite fmap_cons, zsum_cons, IH. lia. }
    apply u64_small. split; lia. }
  exists (with_certificate st (state_cert st (st_precommits st)) 1).
  split; [|done]. eapply rtc_r; [exact Hr|]. eapply fstep_finalize.
  unfold state_try_finalize. rewrite decide_False by (intros Hx; by apply Hx).
  rewrite build_certificate_eq.
  fold (state_cert st (st_precommits st)). cbn [default].
  rewrite decide_True; [done|]. rewrite Ec. cbn [c_signed_power].
  change (st_total_power st) with total. apply has_quorum_spec; lia.
Qed.
End repeated.

(** ** Concrete runs *)

Section demo.
(** A toy signature scheme: a signature is a prefix of the key followed by
    the message. *)
Definition toy_import (b : bytes) : option bytes := Some b.
Definition toy_verify (k m s : bytes) : bool := bool_decide (s = take (length s) (k ++ m)).
Definition toy_sign (n : nat) (k m : bytes) : bytes := take n (k ++ m).

Definition demo_key (k : Z) : bytes := repeat (byte.of_Z k) 32.
Definition demo_hash (k : Z) : bytes := repeat (byte.of_Z k) 64.
Definition demo_unsigned (k ty power hash : Z) : qrx_finality_vote_t :=
  {| v_protocol_version := 1; v_chain_id_hash := 2; v_height := 10; v_round := 0;
     v_type := ty; v_block_hash := demo_hash hash;
     v_validator_pubkey := encode_pubkey (demo_key k) [byte.of_Z k] (repeat x00 (Z.to_nat 8157));
     v_validator_power := power; v_signature := []; v_signature_len := 69 |}.
Definition demo_vote (k ty power hash : Z) : qrx_finality_vote_t :=
  let v := demo_unsigned k ty power hash in
  let m := qrx_finality_vote_payload v in
  {| v_protocol_version := 1; v_chain_id_hash := 2; v_height := 10; v_round := 0;
     v_type := ty; v_block_hash := demo_hash hash;
     v_validator_pubkey := v_validator_pubkey v; v_validator_power := power;
     v_signature := encode_signature (toy_sign 64 (demo_key k) m) (toy_sign 1 [byte.of_Z k] m)
                      (repeat x00 (Z.to_nat 8123));
     v_signature_len := 69 |}.

Abbreviation demo_reach := (reachable toy_import toy_import toy_verify 10 0).
Definition demo_init (hash total : Z) := qrx_finality_state_init 10 0 (Some (demo_hash hash)) total.
(** Three of four validators of power 25 precommit block [hash]. *)
Definition demo_votes (hash : Z) : list qrx_finality_vote_t :=
  [demo_vote 1 2 25 hash; demo_vote 2 2 25 hash; demo_vote 3 2 25 hash].
Definition demo_voted (hash : Z) := with_precommits (demo_init hash 100) (demo_votes hash).
Definition demo_final (hash : Z) :=
  with_certificate (demo_voted hash)
    (cert_of 10 0 (take 64 (demo_hash hash)) 100 (demo_votes hash)) 1.

Lemma demo_reachable hash : hash = 7 \/ hash = 8 -> demo_reach (demo_hash hash) 100 (demo_final hash).
Proof.
  intros Hh. unfold reachable.
  apply (rtc_l _ _ (with_precommits (demo_init hash 100) [demo_vote 1 2 25 hash])).
  { eapply (fstep_add _ _ _ _ (demo_vote 1 2 25 hash) 1).
    destruct Hh as [->| ->]; vm_compute; reflexivity. }
  apply (rtc_l _ _ (with_precommits (demo_init hash 100) [demo_vote 1 2 25 hash; demo_vote 2 2 25 hash])).
  { eapply (fstep_add _ _ _ _ (demo_vote 2 2 25 hash) 1).
    destruct Hh as [->| ->]; vm_compute; reflexivity. }
  apply (rtc_l _ _ (demo_voted hash)).
  { eapply (fstep_add _ _ _ _ (demo_vote 3 2 25 hash) 1).
    destruct Hh as [->| ->]; vm_compute; reflexivity. }
  apply rtc_once. apply (fstep_finalize _ _ _ _ 1).
  destruct Hh as [->| ->]; vm_compute; reflexivity.
Qed.
End demo.

Abbreviation demo_sig_ok := (qrx_vote_signature_verify toy_import toy_import toy_verify).

Lemma demo_wf k hash : wf_vote (demo_vote k 2 25 hash).
Proof.
  split; try (word_unfold; cbn; lia); vm_compute; reflexivity.
Qed.

Lemma demo_stored total :
  stored toy_import toy_import toy_verify QRX_VOTE_PRECOMMIT
    (demo_init 7 total) (demo_vote 1 2 25 7).
Proof. split; vm_compute; reflexivity. Qed.

Lemma finality_state_sound_witness :
  demo_final 7 = demo_final 7 /\
  Forall (stored toy_import toy_import toy_verify QRX_VOTE_PRECOMMIT (demo_final 7)) (demo_votes 7).
Proof.
  split; [reflexivity|].
  apply (finality_state_sound toy_import toy_import toy_verify 10 0 (demo_hash 7) 100 (demo_final 7)).
  apply demo_reachable. left. reflexivity.
Defined.

Lemma finalized_stable_witness :
  st_finalized (demo_final 7) = 1 /\ state_try_finalize (demo_final 7) = (1, demo_final 7).
Proof.
  split; [reflexivity|].
  apply (finalized_stable toy_import toy_import toy_verify (demo_final 7) (demo_final 7));
    [discriminate|apply rtc_refl].
Defined.

Definition demo_pk (k : Z) : bytes := v_validator_pubkey (demo_unsigned k 2 25 7).
Definition demo_vals : gset bytes := list_to_set [demo_pk 1; demo_pk 2; demo_pk 3; demo_pk 4].
Definition demo_power (k : bytes) : Z := 25.

Lemma demo_total : wsum demo_power demo_vals = 100.
Proof.
  unfold demo_vals. rewrite wsum_list; [reflexivity|].
  apply (bool_decide_unpack _). vm_compute. exact I.
Qed.

Lemma demo_backed hash : backed demo_vals demo_power (st_precommits (demo_final hash)).
Proof.
  split.
  - change (v_validator_pubkey <$> st_precommits (demo_final hash)) with
      [demo_pk 1; demo_pk 2; demo_pk 3].
    apply (bool_decide_unpack _). vm_compute. exact I.
  - change (st_precommits (demo_final hash)) with (demo_votes hash).
    assert (forall k, k ∈ [demo_pk 1; demo_pk 2; demo_pk 3; demo_pk 4] -> k ∈ demo_vals) as Hin
      by (intros k; unfold demo_vals; by rewrite elem_of_list_to_set).
    unfold demo_votes. rewrite !Forall_cons.
    refine (conj (conj _ eq_refl) (conj (conj _ eq_refl) (conj (conj _ eq_refl) (Forall_nil_2 _)))).
    + apply (Hin (demo_pk 1)), list_elem_of_here.
    + apply (Hin (demo_pk 2)), list_elem_of_further, list_elem_of_here.
    + apply (Hin (demo_pk 3)), list_elem_of_further, list_elem_of_further, list_elem_of_here.
Qed.

Lemma accountable_safety_witness :
  exists D : gset bytes, D ⊆ demo_vals /\ 100 < 3 * wsum demo_power D.
Proof.
  destruct (accountable_safety toy_import toy_import toy_verify demo_vals demo_power 10 0
    (demo_hash 7) (demo_hash 8) (demo_final 7) (demo_final 8)) as (D&HD&Hw&_).
  - intros k _. unfold demo_power. lia.
  - rewrite demo_total. lia.
  - discriminate.
  - rewrite demo_total. apply demo_reachable. left. reflexivity.
  - rewrite demo_total. apply demo_reachable. right. reflexivity.
  - apply demo_backed.
  - apply demo_backed.
  - discriminate.
  - discriminate.
  - exists D. rewrite demo_total in Hw. split; [exact HD|exact Hw].
Defined.

Lemma vote_payload_injective_witness :
  v_validator_pubkey (demo_vote 1 2 25 7) <> v_validator_pubkey (demo_vote 2 2 25 7) /\
  v_block_hash (demo_vote 1 2 25 7) = v_block_hash (demo_vote 2 2 25 7).
Proof.
  split; [discriminate|].
  apply (vote_payload_injective (demo_vote 1 2 25 7) (demo_vote 2 2 25 7));
    [apply demo_wf|apply demo_wf|vm_compute; reflexivity].
Defined.

Lemma signature_verify_in_bounds_witness :
  exists r, demo_sig_ok (Some (demo_vote 1 2 25 7)) = Some r /\ (r = 0 \/ r = 1).
Proof.
  apply (signature_verify_in_bounds toy_import toy_import toy_verify); [apply demo_wf|].
  vm_compute. discriminate.
Defined.

Lemma signature_verify_hybrid_witness : demo_sig_ok (Some (demo_vote 1 2 25 7)) = Some 1.
Proof.
  apply (signature_verify_hybrid toy_import toy_import toy_verify (demo_vote 1 2 25 7)
    (demo_key 1) [byte.of_Z 1] (repeat x00 (Z.to_nat 8157))
    (toy_sign 64 (demo_key 1) (qrx_finality_vote_payload (demo_unsigned 1 2 25 7)))
    (toy_sign 1 [byte.of_Z 1] (qrx_finality_vote_payload (demo_unsigned 1 2 25 7)))
    (repeat x00 (Z.to_nat 8123)));
    only 1-4: (vm_compute; reflexivity); only 1-3: (vm_compute; intuition discriminate).
  exists (demo_key 1), [byte.of_Z 1]. repeat split; vm_compute; reflexivity.
Defined.

Lemma equivocation_slashed_witness :
  qrx_detect_double_vote (Some [demo_vote 1 2 25 7]) (Some (demo_vote 1 2 25 8)) = 1.
Proof.
  apply (equivocation_slashed [demo_vote 1 2 25 7] (demo_vote 1 2 25 8) (mkSlashState []) 2).
  - vm_compute. discriminate.
  - vm_compute. reflexivity.
  - exists (demo_vote 1 2 25 7). split; [apply list_elem_of_singleton; reflexivity|].
    repeat split; vm_compute; reflexivity.
Defined.

Lemma repeated_precommit_finalizes_witness :
  exists st, reachable toy_import toy_import toy_verify 10 0 (demo_hash 7) 100 st /\ st_finalized st = 1 /\
    st_precommits st = repeat (demo_vote 1 2 25 7) 3.
Proof.
  apply (repeated_precommit_finalizes toy_import toy_import toy_verify 10 0 (demo_hash 7) 100
    (demo_vote 1 2 25 7) 3); [apply demo_stored|..]; vm_compute; intuition discriminate.
Defined.

(** A vote whose [signature_len] claims more than the array holds. *)
Definition long_vote : qrx_finality_vote_t :=
  {| v_protocol_version := 1; v_chain_id_hash := 2; v_height := 10; v_round := 0;
     v_type := 2; v_block_hash := demo_hash 7;
     v_validator_pubkey := demo_pk 1; v_validator_power := 25;
     v_signature := repeat xff (Z.to_nat 8192); v_signature_len := 70000 |}.

(** C1: [signature_len] is not compared with the size of the signature array: a
    well-formed vote that claims 70000 bytes makes the check read past the end
    of the array as soon as its keys import. *)
Theorem signature_len_unchecked :
  wf_vote long_vote /\ demo_sig_ok (Some long_vote) = None.
Proof.
  split; [|vm_compute; reflexivity].
  split; try (word_unfold; cbn; lia); vm_compute; reflexivity.
Qed.
