(* ===== verification/DbCodec.v ===== *)
(** * QRXDB: checksums and on-disk encodings (src/qrx-core/src/qrxdb.c, qrxdb.h)

    The CRC, the record, WAL and file headers as the bytes that [memcpy] and
    [fwrite] put on disk (little-endian, with the padding of a 64-bit ABI:
    32, 40 and 112 bytes), and reads and writes of the mapped file.

    The mapped file is the list of its bytes up to the last one ever written;
    the bytes after it are the zeros [ftruncate] leaves. *)

From S2P Require Import Prelude.

(** ** Constants *)

Definition QRXDB_SCHEMA_VERSION : Z := 4.
Definition QRXDB_MAGIC : Z := 0x51525844.
Definition QRXDB_DATA_MAGIC : Z := 0x51444234.
Definition QRXDB_WAL_MAGIC : Z := 0x51574134.
Definition QRXDB_DEFAULT_MAP_SIZE : Z := 64 * 1024 * 1024.
Definition QRXDB_WAL_SEGMENT_SIZE : Z := 64 * 1024 * 1024.
Definition QRXDB_MERKLE_HASH_SIZE : Z := 64.
Definition QRXDB_MAX_KEY_SIZE : Z := 1024 * 1024.
Definition QRXDB_MAX_VALUE_SIZE : Z := 512 * 1024 * 1024.
Definition QRXDB_WAL_BEGIN : Z := 1.
Definition QRXDB_WAL_PUT : Z := 2.
Definition QRXDB_WAL_COMMIT : Z := 3.

(** The value that marks a deleted key: 0x1e, the text, 0x1e. *)
Definition qrxdb_tombstone_value : bytes := x1e :: cs "QRXDB_DELETE_V1" ++ [x1e].
Definition qrxdb_is_tombstone (v : bytes) : bool := bool_decide (v = qrxdb_tombstone_value).

Definition align8 (x : Z) : Z := Z.land (x +64 7) (UINT64_MAX - 7).

(** ** CRC *)

(** One turn of the inner loop of [qrxdb_crc32]. *)
Definition crc_bit (crc : Z) : Z :=
  Z.lxor (Z.shiftr crc 1) (Z.land 0xEDB88320 (u32 (- Z.land crc 1))).

Definition crc_byte (crc : Z) (b : byte) : Z :=
  Nat.iter 8 crc_bit (Z.lxor crc (byte.unsigned b)).

Definition qrxdb_crc32 (data : bytes) : Z :=
  Z.lxor (fold_left crc_byte data 0xFFFFFFFF) 0xFFFFFFFF.

Definition record_crc (key val : bytes) : Z :=
  let c := qrxdb_crc32 key in
  Z.lxor c (((qrxdb_crc32 val +32 0x9e3779b9) +32 u32 (Z.shiftl c 6)) +32 Z.shiftr c 2).

(** ** Headers *)

Record QrxDBRecordHeader := mkRecHdr {
  rh_magic : Z;
  rh_schema_version : Z;
  rh_timestamp : Z;
  rh_key_len : Z;
  rh_value_len : Z;
  rh_crc32 : Z
}.
Definition sizeof_rechdr : Z := 32.

Definition enc_rechdr (h : QrxDBRecordHeader) : bytes :=
  le_split 4 (rh_magic h) ++ le_split 4 (rh_schema_version h) ++ le_split 8 (rh_timestamp h)
  ++ le_split 4 (rh_key_len h) ++ le_split 4 (rh_value_len h) ++ le_split 4 (rh_crc32 h)
  ++ repeat x00 4.

(** The field of [n] bytes at [off]. *)
Definition fld (off n : nat) (b : bytes) : Z := le_combine (take n (drop off b)).

Definition dec_rechdr (b : bytes) : QrxDBRecordHeader :=
  {| rh_magic := fld 0 4 b; rh_schema_version := fld 4 4 b; rh_timestamp := fld 8 8 b;
     rh_key_len := fld 16 4 b; rh_value_len := fld 20 4 b; rh_crc32 := fld 24 4 b |}.

Record QrxDBWalHeader := mkWalHdr {
  wh_magic : Z;
  wh_type : Z;
  wh_generation : Z;
  wh_offset : Z;
  wh_key_len : Z;
  wh_value_len : Z;
  wh_crc32 : Z
}.
Definition sizeof_walhdr : Z := 40.

(** The bytes before [crc32], which the checksum covers. *)
Definition enc_walhdr_body (h : QrxDBWalHeader) : bytes :=
  le_split 4 (wh_magic h) ++ le_split 4 (wh_type h) ++ le_split 8 (wh_generation h)
  ++ le_split 8 (wh_offset h) ++ le_split 4 (wh_key_len h) ++ le_split 4 (wh_value_len h).
Definition enc_walhdr (h : QrxDBWalHeader) : bytes :=
  enc_walhdr_body h ++ le_split 4 (wh_crc32 h) ++ repeat x00 4.

Definition dec_walhdr (b : bytes) : QrxDBWalHeader :=
  {| wh_magic := fld 0 4 b; wh_type := fld 4 4 b; wh_generation := fld 8 8 b;
     wh_offset := fld 16 8 b; wh_key_len := fld 24 4 b; wh_value_len := fld 28 4 b;
     wh_crc32 := fld 32 4 b |}.

Record QrxDBFileHeader := mkFileHdr {
  fh_magic : Z;
  fh_schema_version : Z;
  fh_header_size : Z;
  fh_map_size : Z;
  fh_write_offset : Z;
  fh_generation : Z;
  fh_merkle_root : bytes;
  fh_crc32 : Z
}.
Definition sizeof_filehdr : Z := 112.

Definition enc_filehdr_body (h : QrxDBFileHeader) : bytes :=
  le_split 4 (fh_magic h) ++ le_split 4 (fh_schema_version h) ++ le_split 8 (fh_header_size h)
  ++ le_split 8 (fh_map_size h) ++ le_split 8 (fh_write_offset h) ++ le_split 8 (fh_generation h)
  ++ resize 64 x00 (fh_merkle_root h).
Definition enc_filehdr (h : QrxDBFileHeader) : bytes :=
  enc_filehdr_body h ++ le_split 4 (fh_crc32 h) ++ repeat x00 4.

Definition dec_filehdr (b : bytes) : QrxDBFileHeader :=
  {| fh_magic := fld 0 4 b; fh_schema_version := fld 4 4 b; fh_header_size := fld 8 8 b;
     fh_map_size := fld 16 8 b; fh_write_offset := fld 24 8 b; fh_generation := fld 32 8 b;
     fh_merkle_root := take 64 (drop 40 b); fh_crc32 := fld 104 4 b |}.

(** The first record starts after the aligned file header. *)
Definition data_start : Z := align8 sizeof_filehdr.

(** ** The mapped file *)

Definition rd (m : bytes) (off len : Z) : bytes :=
  resize (Z.to_nat len) x00 (drop (Z.to_nat off) m).
Definition wr (m : bytes) (off : Z) (data : bytes) : bytes :=
  resize (Z.to_nat off) x00 m ++ data ++ drop (Z.to_nat off + length data) m.

(** ** Lemmas: alignment and checksums *)

Lemma align8_eq x : 0 <= x <= 2 ^ 64 - 8 -> align8 x = 8 * ((x + 7) / 8).
Proof.
  intros Hx. unfold align8. rewrite u64_small by word.
  change (UINT64_MAX - 7) with (Z.shiftl (Z.ones 61) 3).
  set (y := x + 7). assert (Hy : 0 <= y < 2 ^ 64) by lia.
  rewrite (Z.mul_comm 8). change 8 with (2 ^ 3). rewrite <- Z.shiftl_mul_pow2, <- Z.shiftr_div_pow2 by lia.
  apply Z.bits_inj'. intros i Hi. rewrite Z.land_spec.
  destruct (decide (i < 3)) as [Hlt|Hge].
  { rewrite !Z.shiftl_spec_low by done. by rewrite andb_false_r. }
  rewrite !Z.shiftl_spec_high by lia. rewrite Z.shiftr_spec by lia.
  replace (i - 3 + 3) with i by lia.
  destruct (decide (i < 64)).
  - rewrite Z.ones_spec_low by lia. apply andb_true_r.
  - by rewrite (testbit_high 64 y i) by lia.
Qed.

Lemma data_start_eq : data_start = 112.
Proof. reflexivity. Qed.

Lemma crc_bit_range c : in_u32 c -> in_u32 (crc_bit c).
Proof.
  intros Hc. unfold crc_bit. apply lxor_u32; [apply shiftr_bound; [lia..|done]|].
  rewrite Z.land_comm. apply land_bound; [lia|]. apply u32_range.
Qed.

Lemma byte_u32 b : in_u32 (byte.unsigned b).
Proof. pose proof (byte.unsigned_range b). word. Qed.

Lemma crc_byte_range c b : in_u32 c -> in_u32 (crc_byte c b).
Proof.
  intros Hc. unfold crc_byte.
  generalize 8%nat. induction n as [|n IH]; cbn [Nat.iter].
  - apply lxor_u32; [done|apply byte_u32].
  - by apply crc_bit_range.
Qed.

Lemma crc_fold_range l c : in_u32 c -> in_u32 (fold_left crc_byte l c).
Proof. revert c. induction l as [|b l IH]; intros c Hc; [done|]. by apply IH, crc_byte_range. Qed.

Lemma qrxdb_crc32_range l : in_u32 (qrxdb_crc32 l).
Proof. apply lxor_u32; [apply crc_fold_range|]; word. Qed.

Lemma record_crc_range k v : in_u32 (record_crc k v).
Proof. apply lxor_u32; [apply qrxdb_crc32_range|apply u32_range]. Qed.

#[export] Hint Resolve qrxdb_crc32_range record_crc_range : word.

(** ** Lemmas: fields of an encoded header *)

Lemma fld_here n v b : 0 <= v < 2 ^ (Z.of_nat n * 8) -> fld 0 n (le_split n v ++ b) = v.
Proof.
  intros Hv. unfold fld. rewrite drop_0, take_app_length' by (by rewrite length_le_split).
  by rewrite le_combine_split, Z.mod_small.
Qed.

Lemma fld_skip off n a b : (length a <= off)%nat -> fld off n (a ++ b) = fld (off - length a) n b.
Proof. intros H. unfold fld. by rewrite drop_app_ge. Qed.

(** Compute one field of a header given as a concatenation. *)
Ltac solve_fld :=
  repeat (rewrite fld_skip by (rewrite ?length_app, ?length_le_split; lia);
          rewrite ?length_app, ?length_le_split; cbn [Nat.sub Nat.add]);
  rewrite <- ?app_assoc;
  first [apply fld_here; word | reflexivity].

Record wf_rechdr (h : QrxDBRecordHeader) : Prop := {
  wf_rh_magic : in_u32 (rh_magic h);
  wf_rh_schema : in_u32 (rh_schema_version h);
  wf_rh_timestamp : in_u64 (rh_timestamp h);
  wf_rh_key_len : in_u32 (rh_key_len h);
  wf_rh_value_len : in_u32 (rh_value_len h);
  wf_rh_crc : in_u32 (rh_crc32 h)
}.

Lemma dec_enc_rechdr h : wf_rechdr h -> dec_rechdr (enc_rechdr h) = h.
Proof.
  destruct h as [mg sv ts kl vl c]. intros []. cbn in *.
  unfold dec_rechdr, enc_rechdr. cbn [rh_magic rh_schema_version rh_timestamp rh_key_len
    rh_value_len rh_crc32]. f_equal; solve_fld.
Qed.

Record wf_walhdr (h : QrxDBWalHeader) : Prop := {
  wf_wh_magic : in_u32 (wh_magic h);
  wf_wh_type : in_u32 (wh_type h);
  wf_wh_generation : in_u64 (wh_generation h);
  wf_wh_offset : in_u64 (wh_offset h);
  wf_wh_key_len : in_u32 (wh_key_len h);
  wf_wh_value_len : in_u32 (wh_value_len h);
  wf_wh_crc : in_u32 (wh_crc32 h)
}.

Lemma dec_enc_walhdr h : wf_walhdr h -> dec_walhdr (enc_walhdr h) = h.
Proof.
  destruct h as [mg ty g off kl vl c]. intros []. cbn in *.
  unfold dec_walhdr, enc_walhdr, enc_walhdr_body. cbn [wh_magic wh_type wh_generation wh_offset
    wh_key_len wh_value_len wh_crc32]. rewrite <- !app_assoc. f_equal; solve_fld.
Qed.

Lemma enc_rechdr_length h : length (enc_rechdr h) = 32%nat.
Proof. unfold enc_rechdr. rewrite !length_app, !length_le_split. reflexivity. Qed.
Lemma enc_walhdr_length h : length (enc_walhdr h) = 40%nat.
Proof. unfold enc_walhdr, enc_walhdr_body. rewrite !length_app, !length_le_split. reflexivity. Qed.
Lemma enc_filehdr_length h : length (enc_filehdr h) = 112%nat.
Proof.
  unfold enc_filehdr, enc_filehdr_body. rewrite !length_app, !length_le_split, length_resize.
  reflexivity.
Qed.

(** ** Lemmas: reads and writes of the mapped file *)

Lemma rd_length m off len : length (rd m off len) = Z.to_nat len.
Proof. apply length_resize. Qed.

Lemma rd_app m a b c off len :
  m = a ++ b ++ c -> off = blen a -> len = blen b -> rd m off len = b.
Proof.
  intros -> -> ->. unfold rd, blen. rewrite !Nat2Z.id, drop_app_length. by apply resize_app.
Qed.

Lemma wr_app m a b off data :
  m = a ++ b -> off = blen a -> wr m off data = a ++ data ++ drop (length data) b.
Proof.
  intros -> ->. unfold wr, blen. rewrite Nat2Z.id, resize_app by done.
  rewrite drop_app_ge by lia. do 3 f_equal. lia.
Qed.

Lemma wr_end m off data : off = blen m -> wr m off data = m ++ data.
Proof.
  intros Ho. rewrite (wr_app m m []) by (rewrite ?app_nil_r; done). by rewrite drop_nil, app_nil_r.
Qed.
