(* ===== verification/DbStore.v ===== *)
(** * QRXDB: the record log, its index and its readers (src/qrx-core/src/qrxdb.c)

    The state of an open database and the functions that read records, rebuild
    the index, look keys up (live or at a snapshot), scan prefixes and compute
    the Merkle root.  SHA3-512 (OpenSSL) is a parameter.  [db->map] is present
    in an open database; [malloc] and file calls are taken to succeed. *)

From stdpp Require Import gmap sorting.
From S2P Require Import Prelude DbCodec.

(** ** State *)

Record QrxDBIndexEntry := mkIdx { ie_key : bytes; ie_offset : Z; ie_generation : Z }.

Record QrxDBView := mkView {
  vw_key : bytes;
  vw_value : bytes;
  vw_generation : Z;
  vw_offset : Z
}.

Record QrxDBReadTxn := mkTxn {
  tx_generation : Z;
  tx_write_offset : Z;
  tx_merkle_root : bytes
}.

(** [wal_dir] is the directory of WAL segments, by segment id. *)
Record QrxDB := mkDB {
  initialized : Z;
  map : bytes;
  map_size : Z;
  write_offset : Z;
  generation : Z;
  wal_segment_id : Z;
  wal_segment_offset : Z;
  merkle_root : bytes;
  index : list QrxDBIndexEntry;
  compacted_until_generation : Z;
  recovered_transactions : Z;
  wal_dir : gmap Z bytes
}.

Definition set_initialized (z : Z) (db : QrxDB) : QrxDB :=
  mkDB z (map db) (map_size db) (write_offset db) (generation db) (wal_segment_id db)
    (wal_segment_offset db) (merkle_root db) (index db) (compacted_until_generation db)
    (recovered_transactions db) (wal_dir db).
Definition set_map (m : bytes) (db : QrxDB) : QrxDB :=
  mkDB (initialized db) m (map_size db) (write_offset db) (generation db) (wal_segment_id db)
    (wal_segment_offset db) (merkle_root db) (index db) (compacted_until_generation db)
    (recovered_transactions db) (wal_dir db).
Definition set_map_size (z : Z) (db : QrxDB) : QrxDB :=
  mkDB (initialized db) (map db) z (write_offset db) (generation db) (wal_segment_id db)
    (wal_segment_offset db) (merkle_root db) (index db) (compacted_until_generation db)
    (recovered_transactions db) (wal_dir db).
Definition set_position (off gen : Z) (db : QrxDB) : QrxDB :=
  mkDB (initialized db) (map db) (map_size db) off gen (wal_segment_id db)
    (wal_segment_offset db) (merkle_root db) (index db) (compacted_until_generation db)
    (recovered_transactions db) (wal_dir db).
Definition set_wal (id off : Z) (dir : gmap Z bytes) (db : QrxDB) : QrxDB :=
  mkDB (initialized db) (map db) (map_size db) (write_offset db) (generation db) id off
    (merkle_root db) (index db) (compacted_until_generation db) (recovered_transactions db) dir.
Definition set_merkle_root (r : bytes) (db : QrxDB) : QrxDB :=
  mkDB (initialized db) (map db) (map_size db) (write_offset db) (generation db)
    (wal_segment_id db) (wal_segment_offset db) r (index db) (compacted_until_generation db)
    (recovered_transactions db) (wal_dir db).
Definition set_index (i : list QrxDBIndexEntry) (db : QrxDB) : QrxDB :=
  mkDB (initialized db) (map db) (map_size db) (write_offset db) (generation db)
    (wal_segment_id db) (wal_segment_offset db) (merkle_root db) i
    (compacted_until_generation db) (recovered_transactions db) (wal_dir db).
Definition set_compacted_until_generation (z : Z) (db : QrxDB) : QrxDB :=
  mkDB (initialized db) (map db) (map_size db) (write_offset db) (generation db)
    (wal_segment_id db) (wal_segment_offset db) (merkle_root db) (index db) z
    (recovered_transactions db) (wal_dir db).
Definition set_recovered_transactions (z : Z) (db : QrxDB) : QrxDB :=
  mkDB (initialized db) (map db) (map_size db) (write_offset db) (generation db)
    (wal_segment_id db) (wal_segment_offset db) (merkle_root db) (index db)
    (compacted_until_generation db) z (wal_dir db).

(** ** Header, space and synchronisation *)

Definition qrxdb_write_header (db : QrxDB) : QrxDB :=
  let hdr0 :=
    {| fh_magic := QRXDB_DATA_MAGIC; fh_schema_version := QRXDB_SCHEMA_VERSION;
       fh_header_size := align8 sizeof_filehdr; fh_map_size := map_size db;
       fh_write_offset := write_offset db; fh_generation := generation db;
       fh_merkle_root := merkle_root db; fh_crc32 := 0 |} in
  let hdr :=
    {| fh_magic := fh_magic hdr0; fh_schema_version := fh_schema_version hdr0;
       fh_header_size := fh_header_size hdr0; fh_map_size := fh_map_size hdr0;
       fh_write_offset := fh_write_offset hdr0; fh_generation := fh_generation hdr0;
       fh_merkle_root := fh_merkle_root hdr0;
       fh_crc32 := qrxdb_crc32 (enc_filehdr_body hdr0) |} in
  set_map (wr (map db) 0 (enc_filehdr hdr)) db.

Definition qrxdb_read_header (db : QrxDB) : option QrxDB :=
  if decide (map_size db < sizeof_filehdr) then None else
  let hdr := dec_filehdr (rd (map db) 0 sizeof_filehdr) in
  if decide (fh_magic hdr <> QRXDB_DATA_MAGIC \/ fh_schema_version hdr > QRXDB_SCHEMA_VERSION)
  then None else
  if decide (fh_crc32 hdr <> qrxdb_crc32 (enc_filehdr_body hdr)) then None else
  if decide (fh_write_offset hdr < align8 sizeof_filehdr \/ fh_write_offset hdr > map_size db)
  then None else
  Some (set_merkle_root (fh_merkle_root hdr)
          (set_position (fh_write_offset hdr) (fh_generation hdr) db)).

(** The header is written and the mapping flushed. *)
Definition qrxdb_sync (db : QrxDB) : QrxDB := qrxdb_write_header db.

Definition qrxdb_remap (db : QrxDB) (new_size : Z) : QrxDB :=
  if decide (new_size <= map_size db) then db else
  let db := qrxdb_sync (qrxdb_write_header db) in
  qrxdb_write_header (set_map_size new_size db).

(** [while (ns < end) ns *= 2ULL;] *)
Fixpoint double_until (fuel : nat) (ns end_ : Z) : Z :=
  match fuel with
  | O => ns
  | S fuel => if decide (ns < end_) then double_until fuel (ns *64 2) end_ else ns
  end.

Definition qrxdb_ensure_space (db : QrxDB) (need : Z) : QrxDB :=
  let end_ := write_offset db +64 need in
  if decide (end_ <= map_size db) then db else
  let ns := if decide (map_size db <> 0) then map_size db else QRXDB_DEFAULT_MAP_SIZE in
  qrxdb_remap db (double_until 64 ns end_).

(** ** Index *)

(** [db->index[i].key_len == klen && memcmp(...) == 0]: the same key. *)
Fixpoint qrxdb_index_upsert (idx : list QrxDBIndexEntry) (key : bytes) (offset gen : Z)
    : list QrxDBIndexEntry :=
  match idx with
  | [] => [{| ie_key := key; ie_offset := offset; ie_generation := gen |}]
  | e :: idx =>
    if decide (ie_key e = key)
    then {| ie_key := ie_key e; ie_offset := offset; ie_generation := gen |} :: idx
    else e :: qrxdb_index_upsert idx key offset gen
  end.

Fixpoint qrxdb_index_find (idx : list QrxDBIndexEntry) (key : bytes) : option Z :=
  match idx with
  | [] => None
  | e :: idx => if decide (ie_key e = key) then Some (ie_offset e) else qrxdb_index_find idx key
  end.

(** ** Records *)

Definition qrxdb_record_storage_size (klen vlen : Z) : Z :=
  align8 ((sizeof_rechdr +64 klen) +64 vlen).

(** The new state and the offset; [None] when a size limit is exceeded. *)
Definition write_data_record (db : QrxDB) (key val : bytes) (gen : Z) : option (QrxDB * Z) :=
  let klen := blen key in
  let vlen := blen val in
  if decide (klen > QRXDB_MAX_KEY_SIZE \/ vlen > QRXDB_MAX_VALUE_SIZE) then None else
  let hdr := {| rh_magic := QRXDB_MAGIC; rh_schema_version := QRXDB_SCHEMA_VERSION;
                rh_timestamp := gen; rh_key_len := klen; rh_value_len := vlen;
                rh_crc32 := record_crc key val |} in
  let recsz := align8 ((sizeof_rechdr +64 klen) +64 vlen) in
  let db := qrxdb_ensure_space db recsz in
  let off := write_offset db in
  let m := wr (map db) off (enc_rechdr hdr) in
  let m := wr m (off + sizeof_rechdr) key in
  let m := wr m (off + sizeof_rechdr + klen) val in
  let m := wr m (off + sizeof_rechdr + klen + vlen)
             (repeat x00 (Z.to_nat (recsz - (sizeof_rechdr + klen + vlen)))) in
  let db := set_position (off +64 recsz) gen (set_map m db) in
  Some (set_index (qrxdb_index_upsert (index db) key off gen) db, off).

Definition read_record_at (m : bytes) (off limit : Z)
    : option (QrxDBRecordHeader * bytes * bytes) :=
  if decide (off +64 sizeof_rechdr > limit) then None else
  let hdr := dec_rechdr (rd m off sizeof_rechdr) in
  if decide (rh_magic hdr <> QRXDB_MAGIC \/ rh_schema_version hdr > QRXDB_SCHEMA_VERSION \/
             rh_key_len hdr > QRXDB_MAX_KEY_SIZE \/ rh_value_len hdr > QRXDB_MAX_VALUE_SIZE)
  then None else
  let end_ := ((off +64 sizeof_rechdr) +64 rh_key_len hdr) +64 rh_value_len hdr in
  if decide (end_ > limit) then None else
  let k := rd m (off + sizeof_rechdr) (rh_key_len hdr) in
  let v := rd m (off + sizeof_rechdr + rh_key_len hdr) (rh_value_len hdr) in
  if decide (rh_crc32 hdr <> record_crc k v) then None else Some (hdr, k, v).

Definition next_record (off : Z) (hdr : QrxDBRecordHeader) : Z :=
  align8 (((off +64 sizeof_rechdr) +64 rh_key_len hdr) +64 rh_value_len hdr).

(** The loop the readers share:
    [while (off + sizeof(QrxDBRecordHeader) <= limit) { if (read_record_at(...) != 0)
    break; body; off = align8(...); }].  It visits at most one record per
    mapped byte. *)
Section scan_loop.
Context {A : Type} (m : bytes) (limit : Z).
Context (body : A -> Z -> QrxDBRecordHeader -> bytes -> bytes -> A).

Fixpoint scan_records (fuel : nat) (off : Z) (acc : A) : Z * A :=
  match fuel with
  | O => (off, acc)
  | S fuel =>
    if decide (off +64 sizeof_rechdr <= limit) then
      match read_record_at m off limit with
      | None => (off, acc)
      | Some (hdr, k, v) => scan_records fuel (next_record off hdr) (body acc off hdr k v)
      end
    else (off, acc)
  end.
End scan_loop.

Definition scan_all {A} (m : bytes) (limit : Z)
    (body : A -> Z -> QrxDBRecordHeader -> bytes -> bytes -> A) (acc : A) : Z * A :=
  scan_records m limit body (S (length m)) data_start acc.

(** The end of the valid records and the generation of the last one. *)
Definition scan_valid_tail (db : QrxDB) (limit : Z) : Z * Z :=
  scan_all (map db) limit (fun _ _ hdr _ _ => rh_timestamp hdr) 0.

Record QrxDBKV := mkKV { kv_key : bytes; kv_value : bytes; kv_offset : Z; kv_generation : Z }.

Fixpoint kv_upsert (arr : list QrxDBKV) (k v : bytes) (off gen : Z) : list QrxDBKV :=
  match arr with
  | [] => [{| kv_key := k; kv_value := v; kv_offset := off; kv_generation := gen |}]
  | e :: arr =>
    if decide (kv_key e = k)
    then {| kv_key := kv_key e; kv_value := v; kv_offset := off; kv_generation := gen |} :: arr
    else e :: kv_upsert arr k v off gen
  end.

Definition qrxdb_collect_live (db : QrxDB) (limit maxgen : Z) : list QrxDBKV :=
  let '(_, items) :=
    scan_all (map db) limit
      (fun items off hdr k v =>
         if decide (rh_timestamp hdr <= maxgen)
         then kv_upsert items k v off (rh_timestamp hdr) else items) [] in
  filter (fun e => qrxdb_is_tombstone (kv_value e) = false) items.

(** [memcmp] and the order of [cmp_kv_key]. *)
Fixpoint memcmp (a b : bytes) (n : nat) : Z :=
  match n, a, b with
  | S n, x :: a, y :: b =>
    if decide (x = y) then memcmp a b n else byte.unsigned x - byte.unsigned y
  | _, _, _ => 0
  end.

Definition cmp_key (ka kb : bytes) : Z :=
  let r := memcmp ka kb (length ka `min` length kb) in
  if decide (r <> 0) then r
  else Z.b2z (bool_decide (length kb < length ka)%nat) - Z.b2z (bool_decide (length ka < length kb)%nat).

Definition cmp_kv_key (a b : QrxDBKV) : Prop := cmp_key (kv_key a) (kv_key b) <= 0.
#[export] Instance cmp_kv_key_dec a b : Decision (cmp_kv_key a b).
Proof. unfold cmp_kv_key. apply _. Defined.

(** ** Merkle root *)

Section merkle.
Variable sha3_512 : bytes -> bytes.

Definition qrxdb_sha3_512_leaf (key val : bytes) : bytes :=
  sha3_512 (cs "QRXDB_LEAF_SHA3_512_V1" ++ le_split 4 (blen key) ++ key
            ++ le_split 4 (blen val) ++ val).
Definition qrxdb_sha3_512_node (a b : bytes) : bytes :=
  sha3_512 (cs "QRXDB_NODE_SHA3_512_V1" ++ a ++ b).

(** One pass of the in-place pairing loop; an odd last hash is paired with
    itself. *)
Fixpoint merkle_pass (level : list bytes) : list bytes :=
  match level with
  | a :: b :: rest => qrxdb_sha3_512_node a b :: merkle_pass rest
  | [a] => [qrxdb_sha3_512_node a a]
  | [] => []
  end.

Fixpoint merkle_reduce (fuel : nat) (level : list bytes) : list bytes :=
  match fuel, level with
  | S fuel, _ :: _ :: _ => merkle_reduce fuel (merkle_pass level)
  | _, _ => level
  end.

Definition merkle_of_items (items : list QrxDBKV) : bytes :=
  match items with
  | [] => repeat x00 (Z.to_nat QRXDB_MERKLE_HASH_SIZE)
  | _ =>
    let sorted := merge_sort cmp_kv_key items in
    let level := (fun e => qrxdb_sha3_512_leaf (kv_key e) (kv_value e)) <$> sorted in
    default [] (head (merkle_reduce (length level) level))
  end.

Definition qrxdb_recompute_merkle (db : QrxDB) : QrxDB :=
  set_merkle_root (merkle_of_items (qrxdb_collect_live db (write_offset db) UINT64_MAX)) db.

Definition qrxdb_rebuild_index (db : QrxDB) : QrxDB :=
  let '(_, idx) :=
    scan_all (map db) (write_offset db)
      (fun idx off hdr k _ => qrxdb_index_upsert idx k off (rh_timestamp hdr)) [] in
  qrxdb_recompute_merkle (set_index idx db).

Definition qrxdb_verify (db : QrxDB) : Z :=
  let '(good, gen) := scan_valid_tail db (write_offset db) in
  if decide (good <> write_offset db \/ gen <> generation db) then -1 else
  if decide (merkle_root (qrxdb_recompute_merkle db) = merkle_root db) then 0 else -1.
End merkle.

(** ** Readers *)

Definition qrxdb_read_txn_begin (db : QrxDB) : QrxDBReadTxn :=
  {| tx_generation := generation db; tx_write_offset := write_offset db;
     tx_merkle_root := merkle_root db |}.

(** The scan of [qrxdb_get_view_at]. *)
Definition view_scan (db : QrxDB) (key : bytes) (limit maxgen : Z) : option QrxDBView :=
  (scan_all (map db) limit
     (fun found off hdr k v =>
        if decide (rh_timestamp hdr <= maxgen /\ k = key) then
          if qrxdb_is_tombstone v then None
          else Some {| vw_key := k; vw_value := v; vw_generation := rh_timestamp hdr; vw_offset := off |}
        else found) None).2.

Definition qrxdb_get_view_at (db : QrxDB) (txn : option QrxDBReadTxn) (key : bytes)
    : option QrxDBView :=
  match txn with
  | Some txn => view_scan db key (tx_write_offset txn) (tx_generation txn)
  | None =>
    match qrxdb_index_find (index db) key with
    | Some off =>
      match read_record_at (map db) off (write_offset db) with
      | Some (hdr, k, v) =>
        if qrxdb_is_tombstone v then None
        else Some {| vw_key := k; vw_value := v; vw_generation := rh_timestamp hdr; vw_offset := off |}
      | None => view_scan db key (write_offset db) UINT64_MAX
      end
    | None => view_scan db key (write_offset db) UINT64_MAX
    end
  end.

Definition qrxdb_get_view (db : QrxDB) (key : bytes) : option QrxDBView :=
  qrxdb_get_view_at db None key.

(** The bytes copied into a buffer of [out_sz] bytes, without the terminator. *)
Definition qrxdb_get (db : QrxDB) (key : bytes) (out_sz : Z) : option bytes :=
  if decide (out_sz = 0) then None else
  match qrxdb_get_view db key with
  | None => None
  | Some v => Some (take (Z.to_nat (Z.min (blen (vw_value v)) (out_sz - 1))) (vw_value v))
  end.

Section scan_prefix.
(** A callback updates its context and answers a return code. *)
Context {C : Type} (callback : C -> bytes -> bytes -> C * Z).

Definition has_prefix (prefix key : bytes) : bool :=
  bool_decide (take (length prefix) key = prefix).

Fixpoint scan_prefix_loop (db : QrxDB) (prefix : bytes) (idx : list QrxDBIndexEntry) (ctx : C) : C * Z :=
  match idx with
  | [] => (ctx, 0)
  | ie :: idx =>
    if has_prefix prefix (ie_key ie) then
      match read_record_at (map db) (ie_offset ie) (write_offset db) with
      | None => (ctx, -1)
      | Some (_, k, v) =>
        if qrxdb_is_tombstone v then scan_prefix_loop db prefix idx ctx
        else
          let '(ctx, rc) := callback ctx k v in
          if decide (rc <> 0) then (ctx, rc) else scan_prefix_loop db prefix idx ctx
      end
    else scan_prefix_loop db prefix idx ctx
  end.
Definition qrxdb_scan_prefix (db : QrxDB) (prefix : bytes) (ctx : C) : C * Z :=
  scan_prefix_loop db prefix (index db) ctx.

Fixpoint scan_entries (entries : list QrxDBKV) (ctx : C) : C * Z :=
  match entries with
  | [] => (ctx, 0)
  | e :: entries =>
    if qrxdb_is_tombstone (kv_value e) then scan_entries entries ctx
    else
      let '(ctx, rc) := callback ctx (kv_key e) (kv_value e) in
      if decide (rc <> 0) then (ctx, rc) else scan_entries entries ctx
  end.
(** Keys are C strings, so [strcmp] is the order of [cmp_key]. *)
Definition qrxdb_scan_prefix_at (db : QrxDB) (txn : QrxDBReadTxn) (prefix : bytes) (ctx : C) : C * Z :=
  let limit := Z.min (tx_write_offset txn) (write_offset db) in
  let '(_, entries) :=
    scan_all (map db) limit
      (fun entries off hdr k v =>
         if decide (rh_timestamp hdr <= tx_generation txn /\ has_prefix prefix k = true)
         then kv_upsert entries k v off (rh_timestamp hdr) else entries) [] in
  scan_entries (merge_sort cmp_kv_key entries) ctx.
End scan_prefix.
