(* ===== verification/DbLog.v ===== *)
(** * QRXDB: the record log behind the mapped file

    What the readers of [DbStore] compute, in terms of the list of records
    they parse: reads over writes of the mapped file, the record round trip,
    the loop over the records as a fold, and the key/value map a log denotes. *)

From stdpp Require Import gmap sorting.
From S2P Require Import Prelude DbCodec DbStore.

(** ** Bytes of the mapped file *)

Definition peek (m : bytes) (i : Z) : byte := default x00 (m !! Z.to_nat i).

Lemma rd_lookup m off len (i : nat) :
  0 <= off -> (i < Z.to_nat len)%nat -> rd m off len !! i = Some (peek m (off + Z.of_nat i)).
Proof.
  intros Ho Hi. unfold rd, peek.
  replace (Z.to_nat (off + Z.of_nat i)) with (Z.to_nat off + i)%nat by lia.
  destruct (decide (i < length (drop (Z.to_nat off) m))%nat) as [Hl|Hl].
  - rewrite lookup_resize, lookup_drop by lia.
    destruct (m !! (Z.to_nat off + i)%nat) eqn:E; [done|].
    apply lookup_ge_None in E. rewrite length_drop in Hl. lia.
  - rewrite lookup_resize_new by lia.
    rewrite length_drop in Hl. by rewrite lookup_ge_None_2 by lia.
Qed.

Lemma rd_ext m m' off len :
  0 <= off -> (forall i, off <= i < off + len -> peek m i = peek m' i) -> rd m off len = rd m' off len.
Proof.
  intros Ho H. apply list_eq. intros i.
  destruct (decide (i < Z.to_nat len)%nat) as [Hi|Hi].
  - rewrite !rd_lookup by done. f_equal. apply H. lia.
  - by rewrite !lookup_ge_None_2 by (rewrite rd_length; lia).
Qed.

Lemma rd_split m off a b :
  0 <= off -> 0 <= a -> 0 <= b -> rd m off (a + b) = rd m off a ++ rd m (off + a) b.
Proof.
  intros Ho Ha Hb. apply list_eq. intros i.
  destruct (decide (i < Z.to_nat a)%nat).
  { rewrite lookup_app_l by (rewrite rd_length; lia). by rewrite !rd_lookup by lia. }
  rewrite lookup_app_r by (rewrite rd_length; lia). rewrite rd_length.
  destruct (decide (i < Z.to_nat (a + b))%nat).
  - rewrite !rd_lookup by lia. do 2 f_equal. lia.
  - by rewrite !lookup_ge_None_2 by (rewrite rd_length; lia).
Qed.

Lemma peek_wr m off d i :
  0 <= off -> 0 <= i ->
  peek (wr m off d) i =
  if decide (off <= i < off + blen d) then peek d (i - off) else peek m i.
Proof.
  intros Ho Hi. unfold peek, wr, blen.
  destruct (decide (i < off)) as [Hlt|].
  { rewrite decide_False by lia. rewrite lookup_app_l by (rewrite length_resize; lia).
    destruct (decide (Z.to_nat i < length m)%nat).
    - by rewrite lookup_resize by lia.
    - rewrite lookup_resize_new, (lookup_ge_None_2 m) by lia. done. }
  rewrite lookup_app_r by (rewrite length_resize; lia). rewrite length_resize.
  case_decide.
  - rewrite lookup_app_l by lia. do 2 f_equal. lia.
  - rewrite lookup_app_r, lookup_drop by lia. do 2 f_equal. lia.
Qed.

Lemma rd_wr_disjoint m off d o len :
  0 <= off -> 0 <= o -> o + len <= off \/ off + blen d <= o -> rd (wr m off d) o len = rd m o len.
Proof.
  intros. apply rd_ext; [done|]. intros i Hi. rewrite peek_wr by lia.
  by rewrite decide_False by lia.
Qed.

Lemma rd_wr_within m off a b c :
  0 <= off -> rd (wr m off (a ++ b ++ c)) (off + blen a) (blen b) = b.
Proof.
  intros Ho. apply list_eq. intros i. pose proof (blen_nonneg a).
  destruct (decide (i < length b)%nat) as [Hi|].
  - rewrite rd_lookup, peek_wr by (unfold blen; lia).
    rewrite decide_True by (rewrite !blen_app; unfold blen; lia).
    unfold peek. replace (Z.to_nat _) with (length a + i)%nat by (unfold blen in *; lia).
    rewrite lookup_app_r by lia. replace (length a + i - length a)%nat with i by lia.
    rewrite lookup_app_l by done. by destruct (lookup_lt_is_Some_2 b i Hi) as [? ->].
  - by rewrite !lookup_ge_None_2 by (rewrite ?rd_length; unfold blen; lia).
Qed.

Lemma rd_wr_same m off d : 0 <= off -> rd (wr m off d) off (blen d) = d.
Proof.
  intros Ho. pose proof (rd_wr_within m off [] d [] Ho) as H.
  cbn in H. by rewrite app_nil_r, Z.add_0_r in H.
Qed.

(** Consecutive writes are one write. *)
Lemma wr_wr m off a b o : 0 <= off -> o = off + blen a -> wr (wr m off a) o b = wr m off (a ++ b).
Proof.
  intros Ho ->. unfold wr, blen.
  replace (Z.to_nat (off + Z.of_nat (length a))) with (Z.to_nat off + length a)%nat by lia.
  rewrite (app_assoc (resize _ _ m) a), (resize_app (_ ++ _)) by (rewrite length_app, length_resize; lia).
  rewrite <- !app_assoc. do 3 f_equal.
  rewrite drop_app_ge by (rewrite length_resize; lia). rewrite length_resize.
  rewrite drop_app_ge by lia. rewrite drop_drop, length_app. f_equal. lia.
Qed.

(** ** Records *)

Record rec := mkRec { r_gen : Z; r_key : bytes; r_val : bytes }.

Record rec_ok (r : rec) : Prop := {
  ok_gen : in_u64 (r_gen r);
  ok_key : blen (r_key r) <= QRXDB_MAX_KEY_SIZE;
  ok_val : blen (r_val r) <= QRXDB_MAX_VALUE_SIZE
}.

Definition body_size (r : rec) : Z := sizeof_rechdr + blen (r_key r) + blen (r_val r).
Definition rec_size (r : rec) : Z := qrxdb_record_storage_size (blen (r_key r)) (blen (r_val r)).
Definition log_size (l : list rec) : Z := zsum (rec_size <$> l).

(** Offsets the program reaches: far from the end of the 64-bit range. *)
Definition off_max : Z := 2 ^ 62.
Definition good_off (off : Z) : Prop := 0 <= off <= off_max /\ off mod 8 = 0.

Definition rechdr_of (r : rec) : QrxDBRecordHeader :=
  {| rh_magic := QRXDB_MAGIC; rh_schema_version := QRXDB_SCHEMA_VERSION;
     rh_timestamp := r_gen r; rh_key_len := blen (r_key r); rh_value_len := blen (r_val r);
     rh_crc32 := record_crc (r_key r) (r_val r) |}.
Definition enc_body (r : rec) : bytes := enc_rechdr (rechdr_of r) ++ r_key r ++ r_val r.
Definition enc_rec (r : rec) : bytes :=
  enc_body r ++ repeat x00 (Z.to_nat (rec_size r - body_size r)).

(** The record [r] can be read at [off]. *)
Definition rec_at (m : bytes) (off : Z) (r : rec) : Prop :=
  exists h, read_record_at m off (2 ^ 63) = Some (h, r_key r, r_val r) /\ rh_timestamp h = r_gen r.

Fixpoint log_at (m : bytes) (off : Z) (l : list rec) : Prop :=
  match l with
  | [] => True
  | r :: l => rec_ok r /\ rec_at m off r /\ log_at m (off + rec_size r) l
  end.

Lemma body_size_bounds r : rec_ok r -> 32 <= body_size r <= 2 ^ 30.
Proof.
  intros [_ Hk Hv]. unfold body_size, sizeof_rechdr, QRXDB_MAX_KEY_SIZE, QRXDB_MAX_VALUE_SIZE in *.
  pose proof (blen_nonneg (r_key r)). pose proof (blen_nonneg (r_val r)). lia.
Qed.

Lemma storage_size_eq k v :
  0 <= k <= 2 ^ 40 -> 0 <= v <= 2 ^ 40 -> qrxdb_record_storage_size k v = 8 * ((32 + k + v + 7) / 8).
Proof.
  intros Hk Hv. unfold qrxdb_record_storage_size, sizeof_rechdr.
  rewrite (u64_small (32 + k)), (u64_small (32 + k + v)) by word.
  rewrite align8_eq by lia. reflexivity.
Qed.

Lemma rec_size_eq r : rec_ok r -> rec_size r = 8 * ((body_size r + 7) / 8).
Proof.
  intros Hr. pose proof (body_size_bounds r Hr). unfold rec_size, body_size, sizeof_rechdr in *.
  pose proof (blen_nonneg (r_key r)). pose proof (blen_nonneg (r_val r)).
  rewrite storage_size_eq by lia. done.
Qed.

Lemma rec_size_bounds r : rec_ok r -> body_size r <= rec_size r < body_size r + 8 /\ rec_size r mod 8 = 0.
Proof. intros Hr. rewrite rec_size_eq by done. pose proof (body_size_bounds r Hr). dlia. Qed.

Lemma good_off_step off r : rec_ok r -> good_off off -> off + rec_size r <= off_max -> good_off (off + rec_size r).
Proof.
  intros Hr [??] ?. pose proof (rec_size_bounds r Hr). pose proof (body_size_bounds r Hr).
  unfold good_off. dlia.
Qed.

Lemma log_size_cons r l : log_size (r :: l) = rec_size r + log_size l.
Proof. reflexivity. Qed.
Lemma log_size_app l1 l2 : log_size (l1 ++ l2) = log_size l1 + log_size l2.
Proof. unfold log_size. by rewrite fmap_app, zsum_app. Qed.
Lemma log_size_bounds l : Forall rec_ok l -> 32 * Z.of_nat (length l) <= log_size l /\ log_size l mod 8 = 0.
Proof.
  induction 1 as [|r l Hr Hl IH]; [done|]. rewrite log_size_cons. cbn [length].
  pose proof (rec_size_bounds r Hr). pose proof (body_size_bounds r Hr). dlia.
Qed.

Lemma enc_body_blen r : blen (enc_body r) = body_size r.
Proof.
  unfold enc_body, body_size. rewrite !blen_app. unfold blen at 1. rewrite enc_rechdr_length.
  unfold sizeof_rechdr. lia.
Qed.
Lemma enc_rec_blen r : rec_ok r -> blen (enc_rec r) = rec_size r.
Proof.
  intros Hr. unfold enc_rec. rewrite blen_app, blen_repeat, enc_body_blen.
  pose proof (rec_size_bounds r Hr). lia.
Qed.

Lemma rechdr_of_wf r : rec_ok r -> wf_rechdr (rechdr_of r).
Proof.
  intros [Hg Hk Hv]. unfold QRXDB_MAX_KEY_SIZE, QRXDB_MAX_VALUE_SIZE in *.
  pose proof (blen_nonneg (r_key r)). pose proof (blen_nonneg (r_val r)).
  split; cbn [rechdr_of rh_magic rh_schema_version rh_timestamp rh_key_len rh_value_len rh_crc32];
    first [apply record_crc_range | done | word].
Qed.

(** A successful read, and its limit. *)
Record parsed (m : bytes) (off : Z) (h : QrxDBRecordHeader) (k v : bytes) : Prop := {
  ps_hdr : h = dec_rechdr (rd m off sizeof_rechdr);
  ps_magic : rh_magic h = QRXDB_MAGIC;
  ps_schema : rh_schema_version h <= QRXDB_SCHEMA_VERSION;
  ps_klen : rh_key_len h = blen k;
  ps_vlen : rh_value_len h = blen v;
  ps_kmax : blen k <= QRXDB_MAX_KEY_SIZE;
  ps_vmax : blen v <= QRXDB_MAX_VALUE_SIZE;
  ps_key : k = rd m (off + sizeof_rechdr) (rh_key_len h);
  ps_val : v = rd m (off + sizeof_rechdr + rh_key_len h) (rh_value_len h);
  ps_crc : rh_crc32 h = record_crc k v
}.

Lemma fld_nonneg off n b : 0 <= fld off n b.
Proof. unfold fld. pose proof (le_combine_bound (take n (drop off b))). lia. Qed.

Lemma fld_bound off n b : 0 <= fld off n b < 2 ^ (8 * Z.of_nat n).
Proof.
  unfold fld. pose proof (le_combine_bound (take n (drop off b))) as H.
  split; [lia|]. eapply Z.lt_le_trans; [apply H|]. apply Z.pow_le_mono_r; [lia|].
  rewrite length_take. lia.
Qed.

Lemma read_record_at_parsed m off limit h k v :
  0 <= off <= off_max ->
  read_record_at m off limit = Some (h, k, v) <->
  parsed m off h k v /\ off + sizeof_rechdr + blen k + blen v <= limit.
Proof.
  intros Ho. unfold read_record_at. unfold off_max in *.
  set (h0 := dec_rechdr (rd m off sizeof_rechdr)).
  assert (Hk0 : 0 <= rh_key_len h0) by apply fld_nonneg.
  assert (Hv0 : 0 <= rh_value_len h0) by apply fld_nonneg.
  rewrite (u64_small (off + sizeof_rechdr)) by (unfold sizeof_rechdr; word).
  unfold QRXDB_MAX_KEY_SIZE, QRXDB_MAX_VALUE_SIZE in *.
  split.
  - intros H.
    destruct (decide (off + sizeof_rechdr > limit)); [done|].
    destruct (decide (rh_magic h0 <> QRXDB_MAGIC \/ _)); [done|].
    destruct (decide (_ > limit)); [done|]. destruct (decide (rh_crc32 h0 <> _)); [done|].
    injection H as <- <- <-.
    assert (Hbk : forall o, blen (rd m o (rh_key_len h0)) = rh_key_len h0)
      by (intros; unfold blen; rewrite rd_length; lia).
    assert (Hbv : forall o, blen (rd m o (rh_value_len h0)) = rh_value_len h0)
      by (intros; unfold blen; rewrite rd_length; lia).
    assert (rh_magic h0 = QRXDB_MAGIC) by lia.
    split; [|unfold sizeof_rechdr in *; unwrap; rewrite Hbk, Hbv; lia].
    split; rewrite ?Hbk, ?Hbv; try done; try (unfold QRXDB_MAX_KEY_SIZE, QRXDB_MAX_VALUE_SIZE; lia).
    destruct (decide (rh_crc32 h0 = record_crc (rd m (off + sizeof_rechdr) (rh_key_len h0))
      (rd m (off + sizeof_rechdr + rh_key_len h0) (rh_value_len h0)))); [done|by destruct n2].
  - intros [[-> Hm Hs Hkl Hvl Hkm Hvm Hk Hv Hc] Hl]. fold h0 in Hm, Hs, Hkl, Hvl, Hk, Hv, Hc.
    unfold QRXDB_MAX_KEY_SIZE, QRXDB_MAX_VALUE_SIZE, sizeof_rechdr in *.
    unwrap.
    do 3 rewrite decide_False by lia. rewrite <- Hk, <- Hv.
    rewrite decide_False by (intros Hn; exact (Hn Hc)). done.
Qed.

Lemma rec_at_read m off limit r :
  0 <= off <= off_max -> rec_ok r -> rec_at m off r -> off + body_size r <= limit ->
  exists h, read_record_at m off limit = Some (h, r_key r, r_val r) /\ rh_timestamp h = r_gen r
    /\ rh_key_len h = blen (r_key r) /\ rh_value_len h = blen (r_val r).
Proof.
  intros Ho Hr (h & Hh & Hg) Hl. exists h.
  apply read_record_at_parsed in Hh as [Hp _]; [|done].
  split_and!; [|done|apply Hp..]. apply read_record_at_parsed; [done|].
  split; [done|]. unfold body_size in Hl. lia.
Qed.

Lemma read_rec_at m off limit h k v :
  0 <= off <= off_max -> read_record_at m off limit = Some (h, k, v) ->
  rec_at m off (mkRec (rh_timestamp h) k v) /\ rec_ok (mkRec (rh_timestamp h) k v)
  /\ off + body_size (mkRec (rh_timestamp h) k v) <= limit.
Proof.
  intros Ho Hh. apply read_record_at_parsed in Hh as [Hp Hl]; [|done].
  split_and!; [|split|unfold body_size; cbn; lia]; cbn [r_gen r_key r_val].
  - exists h. cbn [r_gen r_key r_val]. split; [|done]. apply read_record_at_parsed; [done|]. split; [done|].
    destruct Hp. unfold QRXDB_MAX_KEY_SIZE, QRXDB_MAX_VALUE_SIZE, off_max, sizeof_rechdr in *. lia.
  - destruct Hp as [-> _ _ _ _ _ _ _ _ _]. cbn. pose proof (fld_bound 8 8 (rd m off sizeof_rechdr)). word.
  - apply Hp.
  - apply Hp.
Qed.

(** Reading depends only on the bytes of the record. *)
Lemma rec_at_ext m m' off r :
  0 <= off <= off_max -> rec_ok r ->
  (forall i, off <= i < off + body_size r -> peek m i = peek m' i) -> rec_at m off r -> rec_at m' off r.
Proof.
  intros Ho Hr Hm (h & Hh & Hg). exists h. split; [|done].
  pose proof (blen_nonneg (r_key r)). pose proof (blen_nonneg (r_val r)).
  apply read_record_at_parsed in Hh as [[] Hl]; [|done]. apply read_record_at_parsed; [done|].
  split; [|done]. split; try done; unfold body_size, sizeof_rechdr in *.
  - rewrite ps_hdr0. f_equal. apply rd_ext; [lia|]. intros. apply Hm. lia.
  - rewrite <- (rd_ext m m'); [done|lia|]. intros. apply Hm. lia.
  - rewrite <- (rd_ext m m'); [done|lia|]. intros. apply Hm. lia.
Qed.

(** What [write_data_record] writes can be read back. *)
Lemma rec_at_wr m off r : 0 <= off <= off_max -> rec_ok r -> rec_at (wr m off (enc_rec r)) off r.
Proof.
  intros Ho Hr. exists (rechdr_of r). split; [|done]. apply read_record_at_parsed; [done|].
  destruct (Hr) as [_ Hk Hv]. split.
  2:{ unfold QRXDB_MAX_KEY_SIZE, QRXDB_MAX_VALUE_SIZE, off_max, sizeof_rechdr in *. lia. }
  unfold enc_rec, enc_body. rewrite <- !app_assoc.
  assert (Hb : blen (enc_rechdr (rechdr_of r)) = sizeof_rechdr)
    by (unfold blen; by rewrite enc_rechdr_length).
  split; try done; cbn.
  - rewrite <- Hb. set (t := r_key r ++ _).
    pose proof (rd_wr_within m off [] (enc_rechdr (rechdr_of r)) t ltac:(lia)) as H.
    cbn in H. rewrite Z.add_0_r in H. unfold t in *. rewrite H. by rewrite dec_enc_rechdr by by apply rechdr_of_wf.
  - rewrite <- Hb. symmetry. by rewrite rd_wr_within by lia.
  - rewrite <- Hb. symmetry. rewrite app_assoc, <- Z.add_assoc, <- blen_app.
    by rewrite rd_wr_within by lia.
Qed.

(** ** The record loop as a fold *)

Fixpoint log_fold {A} (f : A -> Z -> rec -> A) (acc : A) (off : Z) (l : list rec) : A :=
  match l with
  | [] => acc
  | r :: l => log_fold f (f acc off r) (off + rec_size r) l
  end.

(** No record can be read at [off]. *)
Definition stops (m : bytes) (off limit : Z) : Prop :=
  off + sizeof_rechdr <= limit -> read_record_at m off limit = None.

(** The loop body that [f] describes. *)
Definition on_rec {A} (f : A -> Z -> rec -> A) : A -> Z -> QrxDBRecordHeader -> bytes -> bytes -> A :=
  fun acc off h k v => f acc off (mkRec (rh_timestamp h) k v).

Lemma log_fold_app {A} (f : A -> Z -> rec -> A) acc off l1 l2 :
  log_fold f acc off (l1 ++ l2) = log_fold f (log_fold f acc off l1) (off + log_size l1) l2.
Proof.
  revert acc off. induction l1 as [|r l1 IH]; intros acc off; cbn [log_fold app].
  { by rewrite Z.add_0_r. }
  rewrite IH, log_size_cons. f_equal. lia.
Qed.

Lemma log_fold_foldl {A} (f : A -> rec -> A) acc off l :
  log_fold (fun a _ r => f a r) acc off l = foldl f acc l.
Proof. revert acc off. induction l as [|r l IH]; intros; [done|]. apply IH. Qed.

Lemma log_at_ok m off l : log_at m off l -> Forall rec_ok l.
Proof. revert off. induction l; intros off; [done|]. intros (? & ? & ?). constructor; eauto. Qed.

Lemma log_at_app m off l1 l2 :
  log_at m off (l1 ++ l2) <-> log_at m off l1 /\ log_at m (off + log_size l1) l2.
Proof.
  revert off. induction l1 as [|r l1 IH]; intros off; cbn [log_at app].
  { rewrite Z.add_0_r. naive_solver. }
  rewrite IH, log_size_cons, Z.add_assoc. naive_solver.
Qed.

Lemma next_record_eq off h r :
  rec_ok r -> good_off off -> off + rec_size r <= off_max ->
  rh_key_len h = blen (r_key r) -> rh_value_len h = blen (r_val r) ->
  next_record off h = off + rec_size r.
Proof.
  intros Hr [Ho Hm] Hl Hk Hv. unfold next_record. rewrite Hk, Hv.
  pose proof (body_size_bounds r Hr). rewrite rec_size_eq in * by done.
  unfold body_size, off_max, sizeof_rechdr in *.
  pose proof (blen_nonneg (r_key r)). pose proof (blen_nonneg (r_val r)).
  unwrap. rewrite align8_eq by lia. dlia.
Qed.

Lemma scan_records_log {A} (f : A -> Z -> rec -> A) m limit l fuel off acc :
  log_at m off l -> good_off off -> off + log_size l <= limit <= off_max ->
  (length l < fuel)%nat -> stops m (off + log_size l) limit ->
  scan_records m limit (on_rec f) fuel off acc = (off + log_size l, log_fold f acc off l).
Proof.
  revert fuel off acc. induction l as [|r l IH]; intros fuel off acc Hl Ho Hlim Hf Hs;
    (destruct fuel as [|fuel]; [cbn in Hf; lia|]); cbn [scan_records log_fold].
  - rewrite Z.add_0_r in *. destruct Ho. unfold stops, off_max, sizeof_rechdr in *. unwrap.
    case_decide; [|done]. by rewrite Hs.
  - destruct Hl as (Hr & Hat & Hl). rewrite log_size_cons in *.
    pose proof (rec_size_bounds r Hr). pose proof (body_size_bounds r Hr).
    pose proof (log_size_bounds l (log_at_ok _ _ _ Hl)). destruct (Ho) as [Ho' _].
    destruct (rec_at_read m off limit r) as (h & -> & Hg & Hk & Hv); [done..|lia|].
    rewrite decide_True by (unfold off_max, sizeof_rechdr in *; unwrap; lia).
    rewrite (next_record_eq _ _ r) by (done || lia).
    rewrite IH; [|done|apply good_off_step; done || lia|lia|cbn in Hf; lia|by rewrite <- Z.add_assoc].
    unfold on_rec. rewrite Hg. destruct r; cbn [r_gen r_key r_val] in *. f_equal. lia.
Qed.

(** Any bytes parse as some log, up to a place where reading stops. *)
Lemma scan_records_any {A} (f : A -> Z -> rec -> A) m limit fuel off acc :
  good_off off -> off <= limit <= off_max -> limit mod 8 = 0 ->
  exists l, log_at m off l /\ off + log_size l <= limit /\
    scan_records m limit (on_rec f) fuel off acc = (off + log_size l, log_fold f acc off l) /\
    ((length l < fuel)%nat -> stops m (off + log_size l) limit) /\ (length l <= fuel)%nat.
Proof.
  intros Ho Hlim Hm8. revert off acc Ho Hlim. induction fuel as [|fuel IH]; intros off acc Ho Hlim.
  { exists []. cbn. rewrite Z.add_0_r. split_and!; done || lia. }
  cbn [scan_records]. destruct (Ho) as [Ho' Ho8].
  destruct (decide (off +64 sizeof_rechdr <= limit)) as [Hd|Hd].
  2:{ exists []. cbn. rewrite Z.add_0_r. split_and!; try done; try lia.
      intros _ ?. unfold off_max, sizeof_rechdr in *. rewrite u64_small in Hd by word. lia. }
  destruct (read_record_at m off limit) as [[[h k] v]|] eqn:E.
  2:{ exists []. cbn. rewrite Z.add_0_r. split_and!; try done; try lia. by intros _ _. }
  pose proof (read_rec_at m off limit h k v Ho' E) as (Hat & Hok & Hend).
  apply read_record_at_parsed in E as [Hp _]; [|done].
  set (r := mkRec (rh_timestamp h) k v) in *. pose proof (rec_size_bounds r Hok).
  pose proof (body_size_bounds r Hok).
  assert (off + rec_size r <= limit) by dlia.
  rewrite (next_record_eq _ _ r) by (done || lia || apply Hp).
  destruct (IH (off + rec_size r) (on_rec f acc off h k v)) as (l & Hl & Hlen & Heq & Hst & Hfu).
  { apply good_off_step; done || lia. }
  { lia. }
  exists (r :: l). rewrite log_size_cons, Z.add_assoc, Heq. cbn [log_at log_fold length].
  split_and!; try done; try lia. intros. apply Hst. lia.
Qed.

(** *** The fuel of [scan_all] is enough *)

Definition zero_from (m : bytes) (off : Z) : Prop := forall i, off <= i -> peek m i = x00.

Lemma zero_from_length m : zero_from m (blen m).
Proof. intros i Hi. unfold peek, blen in *. by rewrite lookup_ge_None_2 by lia. Qed.

Lemma rd_zero m off len : 0 <= off -> zero_from m off -> rd m off len = repeat x00 (Z.to_nat len).
Proof.
  intros Ho Hz. apply list_eq. intros i. destruct (decide (i < Z.to_nat len)%nat).
  - rewrite rd_lookup by done. rewrite Hz by lia. symmetry. by apply lookup_repeat_lt.
  - by rewrite !lookup_ge_None_2 by (rewrite ?rd_length, ?repeat_length; lia).
Qed.

Lemma zero_stops m off limit : 0 <= off -> zero_from m off -> stops m off limit.
Proof.
  intros Ho Hz _. unfold read_record_at. case_decide; [done|].
  rewrite (rd_zero m off) by done. cbv zeta.
  rewrite decide_True; [done|]. left. vm_compute. discriminate.
Qed.

Lemma rec_at_nonzero m off r : 0 <= off <= off_max -> rec_at m off r -> off < blen m.
Proof.
  intros Ho (h & Hh & _). destruct (decide (off < blen m)) as [|Hge]; [done|exfalso].
  assert (zero_from m off) as Hz by (intros i Hi; apply zero_from_length; lia).
  rewrite (zero_stops m off) in Hh; [done|lia|done|].
  unfold off_max, sizeof_rechdr in *. lia.
Qed.

Lemma log_at_fuel m off l :
  0 <= off -> off + log_size l <= off_max -> log_at m off l -> (length l < S (length m))%nat.
Proof.
  intros Ho Hmax Hl. enough (l <> [] -> off + 32 * (Z.of_nat (length l) - 1) < blen m) as H.
  { destruct l; cbn [length] in *; [lia|]. unfold blen in H. specialize (H ltac:(done)). lia. }
  revert off Ho Hmax Hl. induction l as [|r l IH]; intros off Ho Hmax Hl Hne; [done|].
  destruct Hl as (Hr & Hat & Hl). rewrite log_size_cons in Hmax.
  pose proof (rec_size_bounds r Hr). pose proof (body_size_bounds r Hr).
  pose proof (log_size_bounds l (log_at_ok _ _ _ Hl)).
  destruct l as [|r2 l]; cbn [length].
  - assert (off < blen m) by (apply (rec_at_nonzero m off r); [cbn in *; lia|done]). lia.
  - specialize (IH (off + rec_size r) ltac:(lia) ltac:(lia) Hl ltac:(done)). cbn [length] in IH. lia.
Qed.

Lemma data_start_good : good_off data_start.
Proof. rewrite data_start_eq. unfold good_off, off_max. split; [lia|done]. Qed.

Lemma scan_all_log {A} (f : A -> Z -> rec -> A) m limit l acc :
  log_at m data_start l -> data_start + log_size l <= limit <= off_max ->
  stops m (data_start + log_size l) limit ->
  scan_all m limit (on_rec f) acc = (data_start + log_size l, log_fold f acc data_start l).
Proof.
  intros Hl Hlim Hs. apply scan_records_log; try done.
  eapply log_at_fuel; [|..|done]; [done|lia].
Qed.

Lemma scan_all_any {A} (f : A -> Z -> rec -> A) m limit acc :
  data_start <= limit <= off_max -> limit mod 8 = 0 ->
  exists l, log_at m data_start l /\ data_start + log_size l <= limit /\
    stops m (data_start + log_size l) limit /\
    scan_all m limit (on_rec f) acc = (data_start + log_size l, log_fold f acc data_start l).
Proof.
  intros Hlim H8. destruct (scan_records_any f m limit (S (length m)) data_start acc)
    as (l & Hl & Hle & Heq & Hst & Hfu); [apply data_start_good|done..|].
  exists l. split_and!; try done. apply Hst.
  eapply log_at_fuel; [|..|done]; [done|lia].
Qed.

Lemma exact_stops m off : 0 <= off <= off_max -> stops m off off.
Proof. intros ??. unfold sizeof_rechdr in *. lia. Qed.

(** Reading one log determines it. *)
Lemma log_at_prefix m off l1 l2 limit :
  good_off off -> log_at m off l1 -> log_at m off l2 -> off + log_size l1 <= off_max ->
  off + log_size l1 <= limit -> off + log_size l2 <= limit -> limit <= off_max ->
  stops m (off + log_size l2) limit -> l1 `prefix_of` l2.
Proof.
  revert off l2. induction l1 as [|r1 l1 IH]; intros off l2 Ho H1 H2 Hm Hl1 Hl2 Hlm Hs.
  { apply prefix_nil. }
  destruct H1 as (Hr1 & Ha1 & H1). rewrite log_size_cons in *.
  pose proof (rec_size_bounds r1 Hr1). pose proof (body_size_bounds r1 Hr1).
  pose proof (log_size_bounds l1 (log_at_ok _ _ _ H1)). destruct (Ho) as [Ho' _].
  destruct (rec_at_read m off limit r1) as (h & Hh & Hg & Hk & Hv); [done..|lia|].
  destruct l2 as [|r2 l2].
  { rewrite Z.add_0_r in Hs. rewrite Hs in Hh; [done|]. unfold sizeof_rechdr. lia. }
  destruct H2 as (Hr2 & Ha2 & H2). rewrite log_size_cons in *.
  pose proof (rec_size_bounds r2 Hr2). pose proof (log_size_bounds l2 (log_at_ok _ _ _ H2)).
  destruct (rec_at_read m off limit r2) as (h2 & Hh2 & Hg2 & _); [done..|lia|].
  rewrite Hh in Hh2. injection Hh2 as <- Hkk Hvv.
  assert (r1 = r2) as <- by (destruct r1, r2; cbn in *; congruence).
  apply prefix_cons. apply (IH (off + rec_size r1)); try done; try lia.
  - apply good_off_step; done || lia.
  - by rewrite <- Z.add_assoc.
Qed.
