(* ===== verification/DbView.v ===== *)
(** * QRXDB: the key/value map a log denotes, and what the readers return

    A log denotes the finite map of its last non-deleted values.  Lookups
    through the index or by scanning, snapshot reads, prefix scans and the
    Merkle root are shown to depend on that map only. *)

From stdpp Require Import gmap sorting.
From S2P Require Import Prelude DbCodec DbStore DbLog.

Abbreviation kvs := (gmap bytes bytes).

Definition not_tombstone (kv : bytes * bytes) : Prop := qrxdb_is_tombstone kv.2 = false.
#[export] Instance not_tombstone_dec kv : Decision (not_tombstone kv).
Proof. unfold not_tombstone. apply _. Defined.

Definition put_or_delete (s : kvs) (k v : bytes) : kvs :=
  if qrxdb_is_tombstone v then delete k s else <[k := v]> s.
Definition raw_step (maxgen : Z) (s : kvs) (r : rec) : kvs :=
  if decide (r_gen r <= maxgen) then <[r_key r := r_val r]> s else s.
Definition live_step (maxgen : Z) (s : kvs) (r : rec) : kvs :=
  if decide (r_gen r <= maxgen) then put_or_delete s (r_key r) (r_val r) else s.

(** The last value of every key, deletions included, and the live map. *)
Definition raw (maxgen : Z) (l : list rec) : kvs := foldl (raw_step maxgen) ∅ l.
Definition live (maxgen : Z) (l : list rec) : kvs := foldl (live_step maxgen) ∅ l.

Lemma live_raw maxgen l : live maxgen l = filter not_tombstone (raw maxgen l).
Proof.
  induction l as [|r l IH] using rev_ind; [done|].
  unfold live, raw in *. rewrite !foldl_snoc, IH. unfold live_step, raw_step, put_or_delete.
  case_decide; [|done]. destruct (qrxdb_is_tombstone (r_val r)) eqn:E.
  - rewrite map_filter_insert_False; [by rewrite map_filter_delete|].
    unfold not_tombstone. cbn. by rewrite E.
  - by rewrite map_filter_insert_True.
Qed.

Lemma live_app maxgen l1 l2 : live maxgen (l1 ++ l2) = foldl (live_step maxgen) (live maxgen l1) l2.
Proof. apply foldl_app. Qed.

(** Generations up to [maxgen] are the whole log. *)
Lemma live_all maxgen g l :
  Forall (fun r => r_gen r <= g) l -> g <= maxgen -> live maxgen l = live g l.
Proof.
  intros Hl Hg. induction l as [|r l IH] using rev_ind; [done|].
  apply Forall_app in Hl as [Hl Hr]. inversion_clear Hr as [|? ? Hr' _].
  unfold live in *. rewrite !foldl_snoc, IH by done. unfold live_step.
  by rewrite !decide_True by lia.
Qed.

(** ** Association lists built by [kv_upsert] *)

Fixpoint kv_get (arr : list QrxDBKV) (k : bytes) : option bytes :=
  match arr with
  | [] => None
  | e :: arr => if decide (kv_key e = k) then Some (kv_value e) else kv_get arr k
  end.

Lemma kv_get_upsert arr k v off gen k' :
  kv_get (kv_upsert arr k v off gen) k' = if decide (k = k') then Some v else kv_get arr k'.
Proof.
  induction arr as [|e arr IH]; cbn; [done|].
  repeat (case_decide; cbn); simplify_eq; done.
Qed.

Lemma kv_upsert_keys arr k v off gen :
  kv_key <$> kv_upsert arr k v off gen =
  if decide (k ∈ kv_key <$> arr) then kv_key <$> arr else (kv_key <$> arr) ++ [k].
Proof.
  induction arr as [|e arr IH]; [done|]. cbn [kv_upsert fmap list_fmap].
  change ((fix go (l : list QrxDBKV) := match l with [] => [] | x :: l => kv_key x :: go l end) arr)
    with (kv_key <$> arr) in *.
  destruct (decide (kv_key e = k)) as [<-|Hne].
  - rewrite decide_True by set_solver. done.
  - change (kv_key <$> e :: kv_upsert arr k v off gen)
      with (kv_key e :: (kv_key <$> kv_upsert arr k v off gen)). rewrite IH.
    repeat case_decide; set_solver.
Qed.

Lemma kv_upsert_nodup arr k v off gen :
  NoDup (kv_key <$> arr) -> NoDup (kv_key <$> kv_upsert arr k v off gen).
Proof.
  intros H. rewrite kv_upsert_keys. case_decide; [done|].
  apply NoDup_app. split_and!; [done|set_solver|apply NoDup_singleton].
Qed.

Lemma kv_get_none arr k : k ∉ kv_key <$> arr -> kv_get arr k = None.
Proof. induction arr as [|e arr IH]; [done|]. cbn. case_decide; set_solver. Qed.

Lemma kv_get_filter arr k :
  NoDup (kv_key <$> arr) ->
  kv_get (filter (fun e => qrxdb_is_tombstone (kv_value e) = false) arr) k =
  v ← kv_get arr k; if qrxdb_is_tombstone v then None else Some v.
Proof.
  induction arr as [|e arr IH]; [done|]. rewrite fmap_cons, NoDup_cons. intros [Hn Hd].
  rewrite filter_cons. cbn [kv_get]. destruct (qrxdb_is_tombstone (kv_value e)) eqn:E.
  - rewrite decide_False by done. rewrite IH by done. case_decide as Hk; [|done].
    cbn. rewrite E. rewrite kv_get_none; [done|]. by rewrite <- Hk.
  - rewrite decide_True by done. cbn [kv_get]. case_decide as Hk; [|by apply IH].
    cbn. by rewrite E.
Qed.

Lemma kv_filter_nodup (P : QrxDBKV -> Prop) `{!forall e, Decision (P e)} arr :
  NoDup (kv_key <$> arr) -> NoDup (kv_key <$> filter P arr).
Proof.
  induction arr as [|e arr IH]; [done|]. rewrite fmap_cons, NoDup_cons, filter_cons.
  intros [Hn Hd]. case_decide; [|by apply IH]. rewrite fmap_cons. constructor; [|by apply IH].
  intros Hin. apply Hn. apply list_elem_of_fmap in Hin as (x & -> & Hx).
  apply list_elem_of_fmap_2. by apply list_elem_of_filter in Hx as [_ Hx].
Qed.

(** The items are a duplicate-free list of the bindings of a map. *)
Definition items_of (items : list QrxDBKV) (s : kvs) : Prop :=
  NoDup (kv_key <$> items) /\ forall k, kv_get items k = s !! k.

Definition collect_step (maxgen : Z) (items : list QrxDBKV) (off : Z) (r : rec) : list QrxDBKV :=
  if decide (r_gen r <= maxgen) then kv_upsert items (r_key r) (r_val r) off (r_gen r) else items.

Lemma collect_fold_raw maxgen l items s off :
  items_of items s -> items_of (log_fold (collect_step maxgen) items off l) (foldl (raw_step maxgen) s l).
Proof.
  revert items s off. induction l as [|r l IH]; intros items s off Hi; [done|].
  cbn [log_fold foldl]. apply IH. unfold collect_step, raw_step. case_decide; [|done].
  destruct Hi as [Hd Hg]. split; [by apply kv_upsert_nodup|]. intros k.
  rewrite kv_get_upsert. case_decide; simplify_eq; [by rewrite lookup_insert_eq|].
  by rewrite lookup_insert_ne by done.
Qed.

Lemma items_of_filter items s :
  items_of items s ->
  items_of (filter (fun e => qrxdb_is_tombstone (kv_value e) = false) items) (filter not_tombstone s).
Proof.
  intros [Hd Hg]. split; [by apply kv_filter_nodup|]. intros k.
  rewrite kv_get_filter, Hg by done. rewrite map_lookup_filter.
  destruct (s !! k) as [v|]; [|done]. cbn. case_guard as Hg'; unfold not_tombstone in Hg'; cbn in *.
  - by rewrite Hg'.
  - by destruct (qrxdb_is_tombstone v).
Qed.

(** ** Databases whose mapped file holds a log *)

Record holds (db : QrxDB) (limit : Z) (l : list rec) : Prop := {
  hs_log : log_at (map db) data_start l;
  hs_end : data_start + log_size l = limit;
  hs_max : limit <= off_max
}.

Lemma holds_app db limit limit1 l1 l2 :
  holds db limit (l1 ++ l2) -> limit1 = data_start + log_size l1 -> holds db limit1 l1.
Proof.
  intros [Hl He Hm] ->. apply log_at_app in Hl as [Hl Hl2].
  rewrite log_size_app in He. pose proof (log_size_bounds l2 (log_at_ok _ _ _ Hl2)).
  split; [done..|lia].
Qed.

Lemma holds_scan {A} (f : A -> Z -> rec -> A) db limit l acc :
  holds db limit l ->
  scan_all (map db) limit (on_rec f) acc = (limit, log_fold f acc data_start l).
Proof.
  intros [Hl <- Hm]. pose proof (log_size_bounds l (log_at_ok _ _ _ Hl)).
  apply scan_all_log; [done|lia|]. apply exact_stops. rewrite data_start_eq in *. lia.
Qed.

Lemma collect_live_spec db limit l maxgen :
  holds db limit l -> items_of (qrxdb_collect_live db limit maxgen) (live maxgen l).
Proof.
  intros Hh. unfold qrxdb_collect_live.
  change (fun items off hdr k v => if decide (rh_timestamp hdr <= maxgen) then _ else items)
    with (on_rec (collect_step maxgen)).
  rewrite (holds_scan _ db limit l) by done. rewrite live_raw.
  apply items_of_filter, collect_fold_raw. split; [constructor|done].
Qed.

Lemma scan_valid_tail_spec db limit l :
  holds db limit l -> scan_valid_tail db limit = (limit, default 0 (r_gen <$> last l)).
Proof.
  intros Hh. unfold scan_valid_tail.
  change (fun _ _ hdr _ _ => rh_timestamp hdr) with (on_rec (fun (_ : Z) (_ : Z) r => r_gen r)).
  rewrite (holds_scan _ db limit l) by done. f_equal.
  rewrite (log_fold_foldl (fun _ r => r_gen r)).
  destruct l as [|r l _] using rev_ind; [done|]. by rewrite foldl_snoc, last_snoc.
Qed.

(** *** Lookup by scanning *)

Definition view_step (key : bytes) (maxgen : Z) (found : option QrxDBView) (off : Z) (r : rec)
    : option QrxDBView :=
  if decide (r_gen r <= maxgen /\ r_key r = key) then
    if qrxdb_is_tombstone (r_val r) then None
    else Some {| vw_key := r_key r; vw_value := r_val r; vw_generation := r_gen r; vw_offset := off |}
  else found.

Lemma view_fold_live key maxgen l found s off :
  vw_value <$> found = s !! key ->
  vw_value <$> log_fold (view_step key maxgen) found off l = foldl (live_step maxgen) s l !! key.
Proof.
  revert found s off. induction l as [|r l IH]; intros found s off Hf; [done|].
  cbn [log_fold foldl]. apply IH. unfold view_step, live_step, put_or_delete.
  destruct (decide (r_gen r <= maxgen)).
  2:{ rewrite decide_False by naive_solver. done. }
  destruct (decide (r_key r = key)) as [<-|Hne].
  - rewrite decide_True by done. destruct (qrxdb_is_tombstone (r_val r)).
    + by rewrite lookup_delete_eq.
    + by rewrite lookup_insert_eq.
  - rewrite decide_False by naive_solver. destruct (qrxdb_is_tombstone (r_val r)).
    + by rewrite lookup_delete_ne.
    + by rewrite lookup_insert_ne.
Qed.

Lemma view_scan_spec db limit l key maxgen :
  holds db limit l -> vw_value <$> view_scan db key limit maxgen = live maxgen l !! key.
Proof.
  intros Hh. unfold view_scan.
  change (fun found off hdr k v => if decide (rh_timestamp hdr <= maxgen /\ k = key) then _ else found)
    with (on_rec (view_step key maxgen)).
  rewrite (holds_scan _ db limit l) by done. by apply view_fold_live.
Qed.

(** *** The index *)

Definition index_step (idx : list QrxDBIndexEntry) (off : Z) (r : rec) : list QrxDBIndexEntry :=
  qrxdb_index_upsert idx (r_key r) off (r_gen r).
Definition index_of (l : list rec) : list QrxDBIndexEntry := log_fold index_step [] data_start l.

Lemma index_of_snoc l r :
  index_of (l ++ [r]) = qrxdb_index_upsert (index_of l) (r_key r) (data_start + log_size l) (r_gen r).
Proof. unfold index_of. by rewrite log_fold_app. Qed.

Lemma index_find_upsert idx key off gen k :
  qrxdb_index_find (qrxdb_index_upsert idx key off gen) k =
  if decide (key = k) then Some off else qrxdb_index_find idx k.
Proof.
  induction idx as [|e idx IH]; cbn; [done|].
  repeat (case_decide; cbn); simplify_eq; done.
Qed.

(** The index holds, for every key, the offset of its last record. *)
Lemma index_find_spec l key :
  match qrxdb_index_find (index_of l) key with
  | None => raw UINT64_MAX l !! key = None /\ Forall (fun r => r_key r <> key) l
  | Some off => exists l1 r l2, l = l1 ++ r :: l2 /\ off = data_start + log_size l1 /\ r_key r = key
      /\ Forall (fun r => r_key r <> key) l2
  end.
Proof.
  induction l as [|r l IH] using rev_ind; [by split|].
  rewrite index_of_snoc, index_find_upsert. case_decide as Hk.
  { exists l, r, []. by split_and!. }
  destruct (qrxdb_index_find (index_of l) key) as [off|].
  - destruct IH as (l1 & r' & l2 & -> & -> & Hr & Hl2). exists l1, r', (l2 ++ [r]).
    rewrite <- app_assoc. split_and!; try done. by apply Forall_app; split; [|constructor].
  - destruct IH as [Hraw Hl]. split; [|by apply Forall_app; split; [|constructor]].
    unfold raw in *. rewrite foldl_snoc. unfold raw_step. case_decide; [|done].
    by rewrite lookup_insert_ne.
Qed.

(** An open database over the log [l]. *)
Record opened (db : QrxDB) (l : list rec) : Prop := {
  op_holds : holds db (write_offset db) l;
  op_index : index db = index_of l;
  op_gens : Forall (fun r => r_gen r <= generation db) l;
  op_generation : in_u64 (generation db)
}.

Lemma opened_live db l :
  opened db l -> live UINT64_MAX l = live (generation db) l.
Proof. intros [_ _ Hg ?]. apply live_all; [done|word]. Qed.

Lemma live_after l1 r l2 key maxgen :
  Forall (fun r => r_gen r <= maxgen) (l1 ++ r :: l2) -> r_key r = key ->
  Forall (fun r => r_key r <> key) l2 ->
  live maxgen (l1 ++ r :: l2) !! key = if qrxdb_is_tombstone (r_val r) then None else Some (r_val r).
Proof.
  intros Hg <- Hk. apply Forall_app in Hg as [_ Hg]. inversion_clear Hg as [|? ? Hr Hg2].
  rewrite live_app. cbn [foldl].
  assert (forall s, foldl (live_step maxgen) s l2 !! r_key r = s !! r_key r) as Hf.
  { clear Hg2. induction Hk as [|r2 l2 Hr2 _ IH]; intros s; [done|]. cbn [foldl]. rewrite IH.
    unfold live_step, put_or_delete. case_decide; [|done].
    destruct (qrxdb_is_tombstone (r_val r2)); [by rewrite lookup_delete_ne|by rewrite lookup_insert_ne]. }
  rewrite Hf. unfold live_step, put_or_delete. rewrite decide_True by done.
  destruct (qrxdb_is_tombstone (r_val r)); [by rewrite lookup_delete_eq|by rewrite lookup_insert_eq].
Qed.

(** [qrxdb_get_view] finds exactly the live value of a key, by the index. *)
Lemma get_view_live db l key :
  opened db l -> vw_value <$> qrxdb_get_view db key = live (generation db) l !! key.
Proof.
  intros Ho. destruct (Ho) as [Hh Hi Hg ?]. unfold qrxdb_get_view, qrxdb_get_view_at.
  rewrite Hi. pose proof (index_find_spec l key) as Hidx.
  destruct (qrxdb_index_find (index_of l) key) as [off|].
  2:{ rewrite (view_scan_spec db _ l) by done. by rewrite opened_live with (db := db). }
  destruct Hidx as (l1 & r & l2 & -> & -> & Hk & Hl2).
  destruct (Hh) as [Hlog Hend Hmax]. pose proof (log_at_ok _ _ _ Hlog) as Hok.
  apply log_at_app in Hlog as (_ & Hr & Hat & _).
  apply Forall_app in Hok as [Hok1 Hok2]. inversion_clear Hok2 as [|? ? _ Hok2'].
  rewrite log_size_app, log_size_cons in Hend.
  pose proof (log_size_bounds l1 Hok1). pose proof (log_size_bounds l2 Hok2').
  pose proof (rec_size_bounds r Hr). pose proof (body_size_bounds r Hr). rewrite data_start_eq in *.
  destruct (rec_at_read (map db) (112 + log_size l1) (write_offset db) r) as (h & -> & _);
    [lia|done|done|lia|].
  rewrite live_after by done. by destruct (qrxdb_is_tombstone (r_val r)).
Qed.

(** A snapshot sees the log up to its write offset, whatever was appended since. *)
Lemma get_view_at_snapshot db txn l l2 key :
  holds db (write_offset db) (l ++ l2) -> tx_write_offset txn = data_start + log_size l ->
  vw_value <$> qrxdb_get_view_at db (Some txn) key = live (tx_generation txn) l !! key.
Proof.
  intros Hh Ht. cbn [qrxdb_get_view_at]. apply view_scan_spec.
  rewrite Ht. by apply (holds_app db _ _ l l2 Hh).
Qed.

(** ** The order of keys *)

Lemma unsigned_inj a b : byte.unsigned a = byte.unsigned b -> a = b.
Proof. intros H. by rewrite <- (byte.of_Z_unsigned a), H, byte.of_Z_unsigned. Qed.

Lemma cmp_key_nil : cmp_key [] [] = 0.
Proof. reflexivity. Qed.
Lemma cmp_key_nil_l y b : cmp_key [] (y :: b) = -1.
Proof. reflexivity. Qed.

Lemma cmp_key_cons x a y b :
  cmp_key (x :: a) (y :: b) = if decide (x = y) then cmp_key a b else byte.unsigned x - byte.unsigned y.
Proof.
  unfold cmp_key. cbn [length Nat.min memcmp]. destruct (decide (x = y)) as [->|Hne].
  - case_decide; [done|]. 
    rewrite (bool_decide_ext (S (length b) < S (length a))%nat (length b < length a)%nat) by lia.
    rewrite (bool_decide_ext (S (length a) < S (length b))%nat (length a < length b)%nat) by lia.
    done.
  - rewrite decide_True; [done|]. intros H. apply Hne, unsigned_inj. lia.
Qed.

Lemma cmp_key_nil_r x a : cmp_key (x :: a) [] = 1.
Proof. reflexivity. Qed.

Lemma cmp_key_sym a b : cmp_key a b <= 0 <-> 0 <= cmp_key b a.
Proof.
  revert b. induction a as [|x a IH]; intros [|y b].
  - done.
  - rewrite cmp_key_nil_l, cmp_key_nil_r. lia.
  - rewrite cmp_key_nil_l, cmp_key_nil_r. lia.
  - rewrite !cmp_key_cons. destruct (decide (x = y)) as [->|].
    + rewrite decide_True by done. apply IH.
    + rewrite decide_False by congruence. lia.
Qed.

Lemma cmp_key_eq a b : cmp_key a b = 0 <-> a = b.
Proof.
  split; [|intros ->; induction b as [|y b IH]; [done|by rewrite cmp_key_cons, decide_True]].
  revert b. induction a as [|x a IH]; intros [|y b]; rewrite ?cmp_key_nil_l, ?cmp_key_nil_r;
    [done|lia|lia|]. rewrite cmp_key_cons. case_decide as Hd; intros H.
  - f_equal; auto.
  - destruct Hd. apply unsigned_inj. lia.
Qed.

Lemma cmp_key_antisym a b : cmp_key a b <= 0 -> cmp_key b a <= 0 -> a = b.
Proof. intros H1 H2. apply cmp_key_eq. apply cmp_key_sym in H2. lia. Qed.

Lemma cmp_key_trans a b c : cmp_key a b <= 0 -> cmp_key b c <= 0 -> cmp_key a c <= 0.
Proof.
  revert b c. induction a as [|x a IH]; intros [|y b] [|z c];
    rewrite ?cmp_key_nil, ?cmp_key_nil_l, ?cmp_key_nil_r; try lia.
  rewrite !cmp_key_cons.
  destruct (decide (x = y)) as [->|Hxy], (decide (y = z)) as [->|Hyz]; intros H1 H2.
  - by apply (IH b).
  - lia.
  - rewrite decide_False by done. lia.
  - destruct (decide (x = z)) as [->|]; [|lia]. exfalso. apply Hxy, unsigned_inj. lia.
Qed.

#[export] Instance cmp_kv_key_total : Total cmp_kv_key.
Proof.
  intros a b. unfold cmp_kv_key. destruct (decide (cmp_key (kv_key a) (kv_key b) <= 0)); [by left|].
  right. apply cmp_key_sym. lia.
Qed.
#[export] Instance cmp_kv_key_trans : Transitive cmp_kv_key.
Proof. intros a b c. apply cmp_key_trans. Qed.

(** Two duplicate-free lists of the same bindings sort to the same pairs. *)
Definition kv_pair (e : QrxDBKV) : bytes * bytes := (kv_key e, kv_value e).

Lemma kv_get_elem items k v :
  NoDup (kv_key <$> items) -> kv_get items k = Some v <-> (k, v) ∈ kv_pair <$> items.
Proof.
  induction items as [|e items IH]; cbn [kv_get].
  { rewrite fmap_nil. intros _. split; [done|set_solver]. }
  rewrite fmap_cons, NoDup_cons. intros [Hn Hd]. rewrite fmap_cons, elem_of_cons.
  case_decide as Hk.
  - subst k. split; [intros [= <-]; by left|]. intros [[= ->]|Hin]; [done|].
    destruct Hn. apply list_elem_of_fmap in Hin as ([ek ev eo eg] & He & Hin). unfold kv_pair in He. cbn in He.
    injection He as Hke <-. rewrite Hke. by apply (list_elem_of_fmap_2 kv_key) in Hin.
  - rewrite IH by done. split; [by right|]. intros [[= ? ?]|]; [congruence|done].
Qed.

Lemma items_of_perm i1 i2 s :
  items_of i1 s -> items_of i2 s -> kv_pair <$> i1 ≡ₚ kv_pair <$> i2.
Proof.
  intros [H1 G1] [H2 G2].
  assert (forall i, NoDup (kv_key <$> i) -> NoDup (kv_pair <$> i)) as Hnd.
  { intros i Hi. apply (NoDup_fmap_1 fst). by rewrite <- list_fmap_compose. }
  apply NoDup_Permutation; [by apply Hnd..|]. intros [k v].
  by rewrite <- !kv_get_elem, G1, G2 by done.
Qed.

Definition pair_le (a b : bytes * bytes) : Prop := cmp_key a.1 b.1 <= 0.

Lemma sorted_pairs_unique i1 i2 s :
  items_of i1 s -> items_of i2 s ->
  kv_pair <$> merge_sort cmp_kv_key i1 = kv_pair <$> merge_sort cmp_kv_key i2.
Proof.
  intros H1 H2.
  assert (forall i, StronglySorted pair_le (kv_pair <$> merge_sort cmp_kv_key i)) as Hss.
  { intros i. apply (StronglySorted_fmap kv_pair cmp_kv_key); [done|]. apply (StronglySorted_merge_sort _). }
  assert (forall i, kv_pair <$> merge_sort cmp_kv_key i ≡ₚ kv_pair <$> i) as Hp
    by (intros i; apply fmap_Permutation, merge_sort_Permutation).
  apply (StronglySorted_unique_strong pair_le); [|apply Hss..|by rewrite !Hp, (items_of_perm i1 i2 s)].
  intros [k1 v1] [k2 v2] Hi1 Hi2 Hr1 Hr2. cbn in *.
  assert (k1 = k2) as <- by by apply cmp_key_antisym. f_equal.
  rewrite Hp in Hi1, Hi2. apply kv_get_elem in Hi1, Hi2; [|apply H1 || apply H2..].
  destruct H1 as [_ H1], H2 as [_ H2]. rewrite H1 in Hi1. rewrite H2 in Hi2. congruence.
Qed.
