(* ===== verification/DbMerkle.v ===== *)
(** * QRXDB: the Merkle root of a state

    The root computed from a log depends only on the live map
    ([merkle_of_items_canonical]), and two states with the same root are equal
    unless SHA3-512 collides on one of the inputs hashed for them
    ([merkle_root_binding]): leaf and node inputs carry different tags, and
    pairing an odd last hash with itself cannot be confused with a repeated
    leaf because keys are distinct. *)

From stdpp Require Import gmap sorting.
From S2P Require Import Prelude DbCodec DbStore DbLog DbView.

Definition map_items (s : kvs) : list QrxDBKV :=
  (fun kv => {| kv_key := kv.1; kv_value := kv.2; kv_offset := 0; kv_generation := 0 |}) <$> map_to_list s.

Lemma map_items_pairs s : kv_pair <$> map_items s = map_to_list s.
Proof.
  unfold map_items. rewrite <- list_fmap_compose. rewrite <- (list_fmap_id (map_to_list s)) at 2.
  apply list_fmap_ext. by intros ? [].
Qed.

Lemma map_items_of s : items_of (map_items s) s.
Proof.
  assert (NoDup (kv_key <$> map_items s)) as Hd.
  { change kv_key with (fst ∘ kv_pair). rewrite list_fmap_compose, map_items_pairs.
    apply NoDup_fst_map_to_list. }
  split; [done|]. intros k. apply option_eq. intros v.
  rewrite kv_get_elem by done. rewrite map_items_pairs. apply elem_of_map_to_list.
Qed.

Section merkle.
Context (sha3_512 : bytes -> bytes).

Definition merkle_root_of (s : kvs) : bytes := merkle_of_items sha3_512 (map_items s).

(** ** The root is a function of the live map *)

Lemma items_of_nil s : items_of [] s -> s = ∅.
Proof. intros [_ H]. apply map_eq. intros k. by rewrite <- H, lookup_empty. Qed.

Lemma merkle_of_items_canonical items s :
  items_of items s -> merkle_of_items sha3_512 items = merkle_root_of s.
Proof.
  intros Hi. unfold merkle_root_of. pose proof (sorted_pairs_unique _ _ s Hi (map_items_of s)) as Hs.
  unfold merkle_of_items. destruct items as [|e items].
  { apply items_of_nil in Hi as ->. reflexivity. }
  destruct (map_items s) as [|e' items'] eqn:E.
  { exfalso. pose proof (items_of_perm _ _ s Hi (map_items_of s)) as Hp. rewrite E in Hp.
    apply Permutation_length in Hp. discriminate. }
  cbv zeta. set (leaf := fun e => qrxdb_sha3_512_leaf sha3_512 (kv_key e) (kv_value e)).
  assert (forall l, leaf <$> l = (fun p => qrxdb_sha3_512_leaf sha3_512 p.1 p.2) <$> (kv_pair <$> l)) as Hl
    by (intros l; by rewrite <- list_fmap_compose).
  by rewrite !Hl, Hs.
Qed.

Lemma recompute_merkle_spec db l :
  opened db l -> merkle_root (qrxdb_recompute_merkle sha3_512 db) = merkle_root_of (live (generation db) l).
Proof.
  intros Ho. unfold qrxdb_recompute_merkle. cbn [merkle_root set_merkle_root].
  rewrite <- (opened_live db l Ho). apply merkle_of_items_canonical, collect_live_spec, Ho.
Qed.

(** ** What is hashed *)

Definition leaf_input (kv : bytes * bytes) : bytes :=
  cs "QRXDB_LEAF_SHA3_512_V1" ++ le_split 4 (blen kv.1) ++ kv.1 ++ le_split 4 (blen kv.2) ++ kv.2.
Definition node_input (a b : bytes) : bytes := cs "QRXDB_NODE_SHA3_512_V1" ++ a ++ b.

(** The inputs of the next level. *)
Fixpoint pair_inputs (level : list bytes) : list bytes :=
  match level with
  | a :: b :: rest => node_input a b :: pair_inputs rest
  | [a] => [node_input a a]
  | [] => []
  end.
Definition next_inputs (p : list bytes) : list bytes := pair_inputs (sha3_512 <$> p).

Fixpoint merkle_inputs (fuel : nat) (p : list bytes) : list bytes :=
  p ++ match fuel, p with
       | S fuel, _ :: _ :: _ => merkle_inputs fuel (next_inputs p)
       | _, _ => []
       end.

Definition leaf_inputs (s : kvs) : list bytes :=
  leaf_input <$> (kv_pair <$> merge_sort cmp_kv_key (map_items s)).
(** Everything hashed to compute the root of [s]. *)
Definition hashed (s : kvs) : list bytes := merkle_inputs (size s) (leaf_inputs s).

Lemma merkle_pass_inputs p : merkle_pass sha3_512 (sha3_512 <$> p) = sha3_512 <$> next_inputs p.
Proof.
  unfold next_inputs. 
  induction (sha3_512 <$> p) as [|a|a b rest IH] using pair_ind; [done..|].
  cbn [merkle_pass pair_inputs]. rewrite fmap_cons. by rewrite IH.
Qed.

Lemma next_inputs_length p : length (next_inputs p) = ((length p + 1) / 2)%nat.
Proof.
  unfold next_inputs. rewrite <- (length_fmap sha3_512 p). 
  induction (sha3_512 <$> p) as [|a|a b rest IH] using pair_ind; [done..|].
  cbn [pair_inputs length]. rewrite IH.
  replace (S (S (length rest)) + 1)%nat with (length rest + 1 + 1 * 2)%nat by lia.
  rewrite Nat.div_add by lia. lia.
Qed.

Lemma next_inputs_shorter p : (2 <= length p)%nat -> (0 < length (next_inputs p) < length p)%nat.
Proof.
  intros H. rewrite next_inputs_length.
  split; [apply Nat.div_str_pos; lia|apply Nat.Div0.div_lt_upper_bound; lia].
Qed.

(** [above p q]: hashing upwards from level [p] reaches level [q]. *)
Inductive above (p : list bytes) : list bytes -> Prop :=
| above_refl : above p p
| above_next q : above p q -> (2 <= length q)%nat -> above p (next_inputs q).

Lemma above_first p q : (2 <= length p)%nat -> above (next_inputs p) q -> above p q.
Proof.
  intros Hp. induction 1; [apply above_next; [apply above_refl|done]|by apply above_next].
Qed.

Lemma above_short p q : (length p <= 1)%nat -> above p q -> q = p.
Proof. intros Hp. induction 1 as [|q _ IH Hq]; [done|]. subst q. lia. Qed.

Lemma above_inputs fuel p q x :
  (length p <= fuel)%nat -> above p q -> x ∈ q -> x ∈ merkle_inputs fuel p.
Proof.
  intros Hf Ha Hx. revert p Hf Ha. induction fuel as [|fuel IH]; intros p Hf Ha.
  { apply above_short in Ha as ->; [|lia]. destruct p; [set_solver|cbn in Hf; lia]. }
  destruct p as [|a [|b rest]].
  - apply above_short in Ha as ->; [|cbn; lia]. set_solver.
  - apply above_short in Ha as ->; [|cbn; lia]. cbn. set_solver.
  - set (p := a :: b :: rest) in *. change (merkle_inputs (S fuel) p)
      with (p ++ merkle_inputs fuel (next_inputs p)).
    rewrite elem_of_app.
    assert (q = p \/ above (next_inputs p) q) as [->|Ha'].
    { clear -Ha. induction Ha as [|q _ [->|IH] Hq]; [by left|right; apply above_refl|].
      right. by apply above_next. }
    + by left.
    + right. apply IH; [|done]. pose proof (next_inputs_shorter p). cbn in *. lia.
Qed.

(** ** Encodings *)

Definition short_kv (kv : bytes * bytes) : Prop := in_u32 (blen kv.1) /\ in_u32 (blen kv.2).

Lemma leaf_input_inj kv1 kv2 :
  short_kv kv1 -> short_kv kv2 -> leaf_input kv1 = leaf_input kv2 -> kv1 = kv2.
Proof.
  destruct kv1 as [k1 v1], kv2 as [k2 v2]. intros [Hk1 Hv1] [Hk2 Hv2] H. unfold leaf_input in H. cbn [fst snd] in *.
  apply app_inv_head in H. apply app_inj_1 in H as [Hk H]; [|by rewrite !length_le_split].
  apply le_split_inj in Hk; [|word..].
  apply app_inj_1 in H as [-> H]; [|unfold blen in Hk; lia].
  apply app_inj_1 in H as [_ ->]; [done|by rewrite !length_le_split].
Qed.

Lemma node_input_inj a b c d :
  length a = length c -> node_input a b = node_input c d -> a = c /\ b = d.
Proof. intros Hl H. apply app_inv_head in H. by apply app_inj_1. Qed.

Lemma leaf_not_node kv a b : leaf_input kv <> node_input a b.
Proof. unfold leaf_input, node_input. cbn. discriminate. Qed.

(** ** Binding *)

(** SHA3-512 has no collision among the inputs in [Q]. *)
Definition collision_free (Q : list bytes) : Prop :=
  forall x y, x ∈ Q -> y ∈ Q -> sha3_512 x = sha3_512 y -> x = y.

Lemma collision_free_check (Q : list bytes) :
  NoDup (sha3_512 <$> remove_dups Q) -> collision_free Q.
Proof.
  intros H x y Hx Hy Hs. rewrite <- elem_of_remove_dups in Hx, Hy.
  apply list_elem_of_lookup in Hx as [i Hx], Hy as [j Hy].
  assert (i = j) as -> by (eapply (NoDup_lookup _ i j); [exact H|by rewrite list_lookup_fmap, Hx|];
    by rewrite list_lookup_fmap, Hy, Hs). congruence.
Qed.

Context (sha_length : forall x, length (sha3_512 x) = 64%nat).

Definition digests (l : list bytes) : Prop := Forall (fun h => length h = 64%nat) l.

Lemma digests_sha p : digests (sha3_512 <$> p).
Proof. apply Forall_fmap, Forall_true. intros x. apply sha_length. Qed.

Ltac split_digests :=
  unfold digests in *;
  repeat match goal with H : Forall _ (_ :: _) |- _ => apply Forall_cons in H as [? H] end.

Lemma pair_inputs_inj l1 l2 :
  digests l1 -> digests l2 -> NoDup l1 -> NoDup l2 -> pair_inputs l1 = pair_inputs l2 -> l1 = l2.
Proof.
  revert l2. induction l1 as [|a|a b l1 IH] using pair_ind; intros [|c [|d l2]] D1 D2 N1 N2 H; try done;
    cbn [pair_inputs] in H; try discriminate; apply (inj2 cons) in H as [H Ht]; split_digests.
  - apply node_input_inj in H as [-> _]; [done|congruence].
  - apply node_input_inj in H as [<- <-]; [|congruence]. inversion_clear N2. set_solver.
  - apply node_input_inj in H as [-> ->]; [|congruence]. inversion_clear N1. set_solver.
  - apply node_input_inj in H as [-> ->]; [|congruence]. f_equal. f_equal.
    inversion_clear N1 as [|? ? ? N1']. inversion_clear N1'. inversion_clear N2 as [|? ? ? N2'].
    inversion_clear N2'. by apply IH.
Qed.

Lemma pair_inputs_elem l x : x ∈ pair_inputs l -> exists a b, x = node_input a b /\ a ∈ l.
Proof.
  induction l as [|a|a b l IH] using pair_ind; cbn [pair_inputs]; [set_solver|..];
    rewrite elem_of_cons; intros [->|H].
  - exists a, a. split; [done|set_solver].
  - set_solver.
  - exists a, b. split; [done|set_solver].
  - destruct (IH H) as (a' & b' & -> & ?). exists a', b'. split; [done|set_solver].
Qed.

Lemma pair_inputs_nodup l : digests l -> NoDup l -> NoDup (pair_inputs l).
Proof.
  induction l as [|a|a b l IH] using pair_ind; intros D N; cbn [pair_inputs];
    [constructor|apply NoDup_singleton|].
  split_digests. inversion_clear N as [|? ? Ha N']. inversion_clear N' as [|? ? Hb N].
  constructor; [|by apply IH]. intros (a' & b' & He & Hin)%pair_inputs_elem.
  apply node_input_inj in He as [-> _]; [set_solver|].
  eapply Forall_forall in Hin; [|done]. cbn in Hin. congruence.
Qed.

Section collision_free.
Context (Q : list bytes) (HQ : collision_free Q).

(** A level whose ancestors are all in [Q]. *)
Definition in_tree (p : list bytes) : Prop := NoDup p /\ forall q x, above p q -> x ∈ q -> x ∈ Q.

Lemma sha_nodup p : NoDup p -> (forall x, x ∈ p -> x ∈ Q) -> NoDup (sha3_512 <$> p).
Proof. intros Hn Hq. apply NoDup_fmap_2_strong; [|done]. intros x y ? ? ?. apply HQ; auto. Qed.

Lemma in_tree_here p x : in_tree p -> x ∈ p -> x ∈ Q.
Proof. intros [_ H]. apply (H p). apply above_refl. Qed.

Lemma in_tree_next p : in_tree p -> (2 <= length p)%nat -> in_tree (next_inputs p).
Proof.
  intros Hp Hl. destruct (Hp) as [Hn Hq]. split.
  - apply pair_inputs_nodup; [apply digests_sha|]. apply sha_nodup; [done|].
    intros x. by apply in_tree_here.
  - intros q x Ha. apply Hq. by apply above_first.
Qed.

Lemma in_tree_above p q : in_tree p -> above p q -> in_tree q.
Proof. intros Hp. induction 1; [done|by apply in_tree_next]. Qed.

Lemma next_inputs_inj p q : in_tree p -> in_tree q -> next_inputs p = next_inputs q -> p = q.
Proof.
  intros Hp Hq H.
  assert (sha3_512 <$> p = sha3_512 <$> q) as Hs.
  { apply pair_inputs_inj; [apply digests_sha..| | |done]; apply sha_nodup.
    - apply Hp.
    - intros x. by apply in_tree_here.
    - apply Hq.
    - intros x. by apply in_tree_here. }
  pose proof (fun x => in_tree_here p x Hp) as Hp'. pose proof (fun x => in_tree_here q x Hq) as Hq'.
  clear -HQ Hs Hp' Hq'. revert q Hs Hq'. induction p as [|x p IH]; intros [|y q] Hs Hq'; try done.
  rewrite !fmap_cons in Hs. injection Hs as Hxy Hs. f_equal.
  - apply HQ; [set_solver..|done].
  - apply IH; [|done|]; set_solver.
Qed.

Lemma reduce_unfold fuel p :
  (2 <= length p)%nat ->
  merkle_reduce sha3_512 (S fuel) (sha3_512 <$> p) = merkle_reduce sha3_512 fuel (sha3_512 <$> next_inputs p).
Proof. destruct p as [|a [|b p]]; cbn [length]; [lia..|]. intros _. rewrite <- merkle_pass_inputs. reflexivity. Qed.

Lemma reduce_short fuel p : (length p <= 1)%nat -> merkle_reduce sha3_512 fuel (sha3_512 <$> p) = sha3_512 <$> p.
Proof. destruct p as [|a [|b p]], fuel; cbn [length]; intros; first [lia | reflexivity]. Qed.

(** Two trees with the same root: one is at the top of the other. *)
Lemma reduce_above n p q f g :
  (length p + length q <= n)%nat -> (0 < length p <= f)%nat -> (0 < length q <= g)%nat ->
  in_tree p -> in_tree q ->
  merkle_reduce sha3_512 f (sha3_512 <$> p) = merkle_reduce sha3_512 g (sha3_512 <$> q) ->
  above p q \/ above q p.
Proof.
  revert p q f g. induction n as [|n IH]; intros p q f g Hn Hf Hg Hp Hq H; [lia|].
  destruct f as [|f]; [lia|]. destruct g as [|g]; [lia|].
  pose proof (next_inputs_shorter p) as Lp. pose proof (next_inputs_shorter q) as Lq.
  destruct (decide (length p <= 1)%nat) as [Sp|Sp], (decide (length q <= 1)%nat) as [Sq|Sq].
  - rewrite !reduce_short in H by done.
    destruct p as [|x [|]]; cbn in *; try lia. destruct q as [|y [|]]; cbn in *; try lia.
    apply (inj2 cons) in H as [H _].
    apply HQ in H as ->; [left; apply above_refl|apply (in_tree_here _ _ Hp)|apply (in_tree_here _ _ Hq)];
      apply list_elem_of_here.
  - rewrite (reduce_unfold g q) in H by lia.
    destruct (IH p (next_inputs q) (S f) g) as [Ha|Ha]; try done; try lia; [by apply in_tree_next; [|lia]|..].
    + apply above_short in Ha; [|done]. rewrite <- Ha. right. apply above_next; [apply above_refl|lia].
    + right. apply above_first; [lia|done].
  - rewrite (reduce_unfold f p) in H by lia.
    destruct (IH (next_inputs p) q f (S g)) as [Ha|Ha]; try done; try lia; [by apply in_tree_next; [|lia]|..].
    + left. apply above_first; [lia|done].
    + apply above_short in Ha; [|done]. rewrite <- Ha. left. apply above_next; [apply above_refl|lia].
  - rewrite (reduce_unfold f p), (reduce_unfold g q) in H by lia.
    destruct (IH (next_inputs p) (next_inputs q) f g) as [Ha|Ha]; try done; try lia;
      [by apply in_tree_next; [|lia]..| |]; inversion Ha as [Hx|r Hr Hl Hx].
    + apply next_inputs_inj in Hx as ->; [|done..]. left. apply above_refl.
    + apply next_inputs_inj in Hx as ->; [left; by apply above_first; [lia|]| |done].
      eapply in_tree_above; [|done]. by apply in_tree_next; [|lia].
    + apply next_inputs_inj in Hx as ->; [|done..]. left. apply above_refl.
    + apply next_inputs_inj in Hx as ->; [right; by apply above_first; [lia|]| |done].
      eapply in_tree_above; [|done]. by apply in_tree_next; [|lia].
Qed.
End collision_free.

Definition short_state (s : kvs) : Prop := map_Forall (fun k v => short_kv (k, v)) s.

Lemma leaf_inputs_perm s : exists ps, leaf_inputs s = leaf_input <$> ps /\ ps ≡ₚ map_to_list s.
Proof.
  exists (kv_pair <$> merge_sort cmp_kv_key (map_items s)). split; [done|].
  by rewrite merge_sort_Permutation, map_items_pairs.
Qed.

Lemma leaf_inputs_length s : length (leaf_inputs s) = size s.
Proof.
  destruct (leaf_inputs_perm s) as (ps & -> & Hp). by rewrite length_fmap, Hp, length_map_to_list.
Qed.

Lemma leaf_inputs_nodup s : short_state s -> NoDup (leaf_inputs s).
Proof.
  intros Hs. destruct (leaf_inputs_perm s) as (ps & -> & Hp). apply NoDup_fmap_2_strong.
  - intros x y Hx Hy. rewrite Hp in Hx, Hy. destruct x, y. apply elem_of_map_to_list in Hx, Hy.
    apply leaf_input_inj; by apply Hs.
  - rewrite Hp. apply NoDup_map_to_list.
Qed.

Lemma leaf_inputs_inj s1 s2 :
  short_state s1 -> short_state s2 -> leaf_inputs s1 = leaf_inputs s2 -> s1 = s2.
Proof.
  intros Hs1 Hs2. destruct (leaf_inputs_perm s1) as (p1 & -> & H1).
  destruct (leaf_inputs_perm s2) as (p2 & -> & H2). intros H.
  assert (p1 = p2) as ->.
  { apply list_eq_same_length with (length p1); [by rewrite <- (length_fmap leaf_input p1), H, length_fmap|done|].
    intros i [k1 v1] [k2 v2] _ L1 L2.
    assert (leaf_input (k1, v1) = leaf_input (k2, v2)) as He.
    { apply (f_equal (lookup i)) in H. rewrite !list_lookup_fmap, L1, L2 in H.
      exact (inj Some _ _ H). }
    apply list_elem_of_lookup_2 in L1, L2. rewrite H1 in L1. rewrite H2 in L2.
    apply elem_of_map_to_list in L1, L2. apply leaf_input_inj; [by apply Hs1|by apply Hs2|done]. }
  rewrite H1 in H2. by apply map_to_list_inj.
Qed.

Lemma leaf_inputs_nil s : leaf_inputs s = [] <-> s = ∅.
Proof.
  rewrite <- length_zero_iff_nil, leaf_inputs_length. apply map_size_empty_iff.
Qed.

(** The levels above leaves are made of nodes. *)
Lemma above_leaves s1 s2 : above (leaf_inputs s1) (leaf_inputs s2) -> leaf_inputs s1 = leaf_inputs s2.
Proof.
  intros Ha. inversion Ha as [|q _ Hl Hq]; [done|].
  pose proof (next_inputs_shorter q Hl). destruct (leaf_inputs_perm s2) as (ps & Hps & _).
  rewrite Hps in Hq. destruct ps as [|kv ps]; [rewrite Hq in *; cbn in *; lia|].
  unfold next_inputs in Hq. destruct q as [|a [|b q]]; cbn in Hl; [lia..|].
  rewrite fmap_cons in Hq. apply (inj2 cons) in Hq as [Hq _]. by destruct (leaf_not_node kv (sha3_512 a) (sha3_512 b)).
Qed.

Lemma merkle_root_of_reduce s :
  s <> ∅ -> merkle_root_of s = default [] (head (merkle_reduce sha3_512 (size s) (sha3_512 <$> leaf_inputs s))).
Proof.
  intros Hne. unfold merkle_root_of, merkle_of_items, leaf_inputs.
  destruct (map_items s) as [|e items] eqn:E.
  { destruct Hne. apply items_of_nil. rewrite <- E. apply map_items_of. }
  rewrite <- E. do 2 f_equal.
  - f_equal; [|by rewrite <- !list_fmap_compose].
    rewrite length_fmap, merge_sort_Permutation, <- (length_fmap kv_pair), map_items_pairs.
    apply length_map_to_list.
Qed.

Lemma reduce_single fuel p :
  (0 < length p <= fuel)%nat -> exists x q, above p q /\ x ∈ q /\ merkle_reduce sha3_512 fuel (sha3_512 <$> p) = [sha3_512 x].
Proof.
  revert p. induction fuel as [|fuel IH]; intros p Hl; [lia|].
  destruct (decide (length p <= 1)%nat) as [Hs|Hs].
  - rewrite reduce_short by done. destruct p as [|x [|]]; cbn in *; try lia.
    exists x, [x]. split_and!; [apply above_refl|set_solver|done].
  - pose proof (next_inputs_shorter p). rewrite reduce_unfold by lia.
    destruct (IH (next_inputs p)) as (x & q & Ha & Hx & He); [lia|].
    exists x, q. split_and!; [by apply above_first; [lia|]|done..].
Qed.

Definition zero_root : bytes := repeat x00 (Z.to_nat QRXDB_MERKLE_HASH_SIZE).

Lemma merkle_root_of_inj s1 s2 :
  short_state s1 -> short_state s2 -> collision_free (hashed s1 ++ hashed s2) ->
  Forall (fun x => sha3_512 x <> zero_root) (hashed s1 ++ hashed s2) ->
  merkle_root_of s1 = merkle_root_of s2 -> s1 = s2.
Proof.
  intros S1 S2 HQ HZ H.
  assert (forall s, s <> ∅ -> (0 < length (leaf_inputs s) <= size s)%nat) as Hlen.
  { intros s Hs. rewrite leaf_inputs_length. apply map_size_non_empty_iff in Hs. lia. }
  assert (forall s, s <> ∅ -> exists x, x ∈ hashed s /\
    merkle_reduce sha3_512 (size s) (sha3_512 <$> leaf_inputs s) = [sha3_512 x]) as Hred.
  { intros s Hs. destruct (reduce_single (size s) (leaf_inputs s) (Hlen s Hs)) as (x & q & Ha & Hx & He).
    exists x. split; [|done]. eapply above_inputs; [by rewrite leaf_inputs_length|done..]. }
  assert (forall s, s <> ∅ -> (forall x, x ∈ hashed s -> sha3_512 x <> zero_root) ->
    merkle_root_of s <> merkle_root_of ∅) as Hzero.
  { intros s Hs Hz. destruct (Hred s Hs) as (x & Hx & He).
    rewrite (merkle_root_of_reduce s) by done. rewrite He. by apply Hz. }
  rewrite Forall_app, !Forall_forall in HZ. destruct HZ as [Z1 Z2].
  destruct (decide (s1 = ∅)) as [->|N1], (decide (s2 = ∅)) as [->|N2]; [done|exfalso..|].
  { by apply (Hzero s2 N2). }
  { by apply (Hzero s1 N1). }
  assert (forall s, short_state s -> (forall x, x ∈ hashed s -> x ∈ hashed s1 ++ hashed s2) ->
    in_tree (hashed s1 ++ hashed s2) (leaf_inputs s)) as Htree.
  { intros s Hs Hsub. split; [by apply leaf_inputs_nodup|]. intros q x Ha Hx. apply Hsub.
    eapply above_inputs; [by rewrite leaf_inputs_length|done..]. }
  destruct (Hred s1 N1) as (x1 & _ & E1), (Hred s2 N2) as (x2 & _ & E2).
  rewrite !merkle_root_of_reduce, E1, E2 in H by done. cbn [head default] in H.
  apply leaf_inputs_inj; [done..|].
  destruct (reduce_above (hashed s1 ++ hashed s2) HQ (length (leaf_inputs s1) + length (leaf_inputs s2))
    (leaf_inputs s1) (leaf_inputs s2) (size s1) (size s2)) as [Ha|Ha]; auto.
  - apply Htree; [done|]. intros x Hx. apply elem_of_app. by left.
  - apply Htree; [done|]. intros x Hx. apply elem_of_app. by right.
  - rewrite E1, E2. f_equal. exact H.
  - by apply above_leaves.
  - symmetry. by apply above_leaves.
Qed.
End merkle.

Lemma live_short maxgen l : Forall rec_ok l -> short_state (live maxgen l).
Proof.
  intros Hl. induction l as [|r l IH] using rev_ind; [apply map_Forall_empty|].
  apply Forall_app in Hl as [Hl Hr]. inversion_clear Hr as [|? ? [_ Hk Hv] _].
  unfold live in *. rewrite foldl_snoc. unfold live_step, put_or_delete. case_decide; [|by apply IH].
  destruct (qrxdb_is_tombstone (r_val r)); [by apply map_Forall_delete, IH|].
  apply map_Forall_insert_2; [|by apply IH]. unfold QRXDB_MAX_KEY_SIZE, QRXDB_MAX_VALUE_SIZE in *.
  pose proof (blen_nonneg (r_key r)). pose proof (blen_nonneg (r_val r)). split; cbn; word.
Qed.

(** C13: two databases have the same recomputed Merkle root exactly when they hold
    the same live key/value map, whatever the order and history of their
    records, provided SHA3-512 has no collision and no all-zero digest among
    the leaf and node inputs hashed for the two states. *)
Theorem merkle_root_binding (sha3_512 : bytes -> bytes) (db1 db2 : QrxDB) (l1 l2 : list rec)
    (s1 := live (generation db1) l1) (s2 := live (generation db2) l2)
    (inputs := hashed sha3_512 s1 ++ hashed sha3_512 s2) :
  opened db1 l1 -> opened db2 l2 ->
  (forall x, length (sha3_512 x) = 64%nat) ->
  collision_free sha3_512 inputs -> Forall (fun x => sha3_512 x <> zero_root) inputs ->
  (merkle_root (qrxdb_recompute_merkle sha3_512 db1) = merkle_root (qrxdb_recompute_merkle sha3_512 db2)
   <-> s1 = s2).
Proof.
  intros O1 O2 Hlen Hc Hz. rewrite !(recompute_merkle_spec sha3_512 _ _ O1), !(recompute_merkle_spec sha3_512 _ _ O2).
  split; [|intros H; exact (f_equal (merkle_root_of sha3_512) H)]. apply merkle_root_of_inj; try done.
  - apply live_short. eapply log_at_ok, O1.
  - apply live_short. eapply log_at_ok, O2.
Qed.

(** *** A concrete instance *)

(** A database file holding the records [l], built by hand. *)
Definition example_db (l : list rec) : QrxDB :=
  {| initialized := 1; map := repeat x00 112 ++ concat (enc_rec <$> l);
     map_size := QRXDB_DEFAULT_MAP_SIZE; write_offset := 112 + log_size l; generation := 9;
     wal_segment_id := 1; wal_segment_offset := 0; merkle_root := []; index := index_of l;
     compacted_until_generation := 0; recovered_transactions := 0; wal_dir := ∅ |}.

(** A stand-in digest: the input as a number, modulo 2^127 - 1, plus one. *)
Definition example_sha (x : bytes) : bytes :=
  le_split 64 (le_combine (x ++ [x01]) mod (2 ^ 127 - 1) + 1).

Definition example_log1 : list rec :=
  [mkRec 1 (cs "a") (cs "1"); mkRec 2 (cs "b") (cs "2"); mkRec 3 (cs "c") (cs "3");
   mkRec 4 (cs "a") qrxdb_tombstone_value; mkRec 5 (cs "d") (cs "4")].
Definition example_log2 : list rec :=
  [mkRec 1 (cs "d") (cs "4"); mkRec 2 (cs "c") (cs "3"); mkRec 3 (cs "b") (cs "2")].

Ltac prove_log_at :=
  repeat first
    [ exact I
    | split; [split; vm_compute; intuition congruence|]
    | split; [eexists; vm_compute; split; reflexivity|] ].

Lemma example_opened l :
  log_at (map (example_db l)) data_start l -> Forall (fun r => r_gen r <= 9) l -> 112 + log_size l <= off_max ->
  opened (example_db l) l.
Proof. intros Hl Hg Hm. split; [split; done|done|done|cbn; word]. Qed.

Example merkle_root_binding_witness :
  merkle_root (qrxdb_recompute_merkle example_sha (example_db example_log1)) =
  merkle_root (qrxdb_recompute_merkle example_sha (example_db example_log2)).
Proof.
  apply (merkle_root_binding example_sha (example_db example_log1) (example_db example_log2)
    example_log1 example_log2).
  - apply example_opened; [prove_log_at|repeat constructor; done|vm_compute; discriminate].
  - apply example_opened; [prove_log_at|repeat constructor; done|vm_compute; discriminate].
  - intros x. apply length_le_split.
  - apply collision_free_check. apply (bool_decide_unpack _). vm_compute. exact I.
  - apply (bool_decide_unpack _). vm_compute. exact I.
  - apply (bool_decide_unpack _). vm_compute. exact I.
Defined.
