(* ===== verification/DbWal.v ===== *)
(** * QRXDB: write-ahead log, batches, recovery, compaction (src/qrx-core/src/qrxdb.c)

    The operations that change an open database, and what [qrxdb_init] makes
    of the files it finds.  A function of the code that answers an [int] and
    changes the database is a function to a pair of the new state and the
    answer; file and [malloc] calls are taken to succeed. *)

From stdpp Require Import gmap sorting.
From S2P Require Import Prelude DbCodec DbStore.

Abbreviation dbres := (QrxDB * Z)%type.
(** Go on while the answer is 0. *)
Definition ebind (r : dbres) (k : QrxDB -> dbres) : dbres := if decide (r.2 = 0) then k r.1 else r.
Notation "'do' db <- r ; k" := (ebind r (fun db => k))
  (at level 10, db name, r at level 100, k at level 200).

(** ** Log segments *)

(** [fopen(path, "ab+")] creates the segment when it is missing. *)
Definition wal_open_current (db : QrxDB) : QrxDB :=
  let id := if decide (wal_segment_id db = 0) then 1 else wal_segment_id db in
  let f := default [] (wal_dir db !! id) in
  set_wal id (blen f) (<[id := f]> (wal_dir db)) db.

Definition wal_rotate_if_needed (db : QrxDB) (add : Z) : QrxDB :=
  if decide (wal_segment_offset db +64 add <= QRXDB_WAL_SEGMENT_SIZE) then db
  else wal_open_current (set_wal (wal_segment_id db +64 1) 0 (wal_dir db) db).

Definition wal_record_size (klen vlen : Z) : Z := (sizeof_walhdr +64 klen) +64 vlen.

Definition wal_reserve_transaction (db : QrxDB) (size : Z) : dbres :=
  if decide (size > QRXDB_WAL_SEGMENT_SIZE) then (db, -1) else (wal_rotate_if_needed db size, 0).

(** The bytes of one record: [qrxdb_crc32] covers the header before [crc32]. *)
Definition wal_header (type gen off : Z) (key val : bytes) : QrxDBWalHeader :=
  let wh := {| wh_magic := QRXDB_WAL_MAGIC; wh_type := type; wh_generation := gen; wh_offset := off;
               wh_key_len := blen key; wh_value_len := blen val; wh_crc32 := 0 |} in
  {| wh_magic := QRXDB_WAL_MAGIC; wh_type := type; wh_generation := gen; wh_offset := off;
     wh_key_len := blen key; wh_value_len := blen val;
     wh_crc32 := Z.lxor (record_crc key val) (qrxdb_crc32 (enc_walhdr_body wh)) |}.
Definition wal_bytes (type gen off : Z) (key val : bytes) : bytes :=
  enc_walhdr (wal_header type gen off key val) ++ key ++ val.

Definition wal_write_record (db : QrxDB) (type gen off : Z) (key val : bytes) : QrxDB :=
  let sz := (sizeof_walhdr +64 blen key) +64 blen val in
  let db := wal_rotate_if_needed db sz in
  let f := default [] (wal_dir db !! wal_segment_id db) in
  set_wal (wal_segment_id db) (wal_segment_offset db +64 sz)
    (<[wal_segment_id db := f ++ wal_bytes type gen off key val]> (wal_dir db)) db.

(** ** Replay *)

Record QrxDBWalPut := mkPut { wp_key : bytes; wp_value : bytes; wp_offset : Z }.
Record QrxDBWalTxn := mkWalTxn {
  wt_puts : list QrxDBWalPut;
  wt_generation : Z;
  wt_begin_offset : Z;
  wt_commit_offset : Z;
  wt_committed : bool
}.
Definition empty_txn : QrxDBWalTxn :=
  {| wt_puts := []; wt_generation := 0; wt_begin_offset := 0; wt_commit_offset := 0; wt_committed := false |}.

Definition wal_txn_add_put (tx : QrxDBWalTxn) (key value : bytes) (offset : Z) : option QrxDBWalTxn :=
  if decide (blen key = 0) then None else
  Some {| wt_puts := wt_puts tx ++ [{| wp_key := key; wp_value := value; wp_offset := offset |}];
          wt_generation := wt_generation tx; wt_begin_offset := wt_begin_offset tx;
          wt_commit_offset := wt_commit_offset tx; wt_committed := wt_committed tx |}.

Definition wal_put_matches (db : QrxDB) (p : QrxDBWalPut) (gen : Z) : bool :=
  if decide (wp_offset p = 0 \/ wp_offset p >= write_offset db) then false else
  match read_record_at (map db) (wp_offset p) (write_offset db) with
  | None => false
  | Some (hdr, k, v) =>
    bool_decide (rh_timestamp hdr = gen /\ rh_key_len hdr = blen (wp_key p) /\
                 rh_value_len hdr = blen (wp_value p) /\ k = wp_key p /\ v = wp_value p)
  end.

Definition wal_txn_fully_applied (db : QrxDB) (tx : QrxDBWalTxn) : bool :=
  if decide (wt_committed tx = false \/ wt_puts tx = []) then false else
  if decide (wt_begin_offset tx = 0) then bool_decide (wt_generation tx <= generation db) else
  if decide (wt_commit_offset tx <> 0 /\ write_offset db < wt_commit_offset tx) then false else
  forallb (fun p => wal_put_matches db p (wt_generation tx)) (wt_puts tx).

Section sha.
Variable sha3_512 : bytes -> bytes.

(** The loop that writes the records of a transaction. *)
Fixpoint wal_apply_puts (db : QrxDB) (puts : list QrxDBWalPut) (gen : Z) : dbres :=
  match puts with
  | [] => (db, 0)
  | p :: puts =>
    match write_data_record db (wp_key p) (wp_value p) gen with
    | None => (db, -1)
    | Some (db, off) =>
      if decide (wp_offset p <> 0 /\ off <> wp_offset p) then (db, -1) else wal_apply_puts db puts gen
    end
  end.

Definition wal_apply_txn_if_needed (db : QrxDB) (tx : QrxDBWalTxn) : dbres :=
  if decide (wt_committed tx = false \/ wt_puts tx = []) then (db, 0) else
  if wal_txn_fully_applied db tx then (db, 0) else
  let apply db :=
    do db <- wal_apply_puts db (wt_puts tx) (wt_generation tx);
    (set_recovered_transactions (recovered_transactions db +64 1) db, 0) in
  if decide (wt_begin_offset tx > 0) then
    if decide (wt_begin_offset tx < align8 sizeof_filehdr \/ wt_begin_offset tx > write_offset db)
    then (db, -1)
    else
      let db := set_position (wt_begin_offset tx)
                  (if decide (wt_generation tx <> 0) then wt_generation tx - 1 else 0) db in
      apply (qrxdb_rebuild_index sha3_512 db)
  else if decide (wt_generation tx <= generation db) then (db, 0)
  else apply db.

(** One record of a segment and the rest of the file; [None] where the loop
    of [wal_replay_file] breaks. *)
Definition wal_read (f : bytes) : option (QrxDBWalHeader * bytes * bytes * bytes) :=
  if decide (blen f < sizeof_walhdr) then None else
  let wh := dec_walhdr (take (Z.to_nat sizeof_walhdr) f) in
  let f := drop (Z.to_nat sizeof_walhdr) f in
  if decide (wh_magic wh <> QRXDB_WAL_MAGIC \/ wh_key_len wh > QRXDB_MAX_KEY_SIZE \/
             wh_value_len wh > QRXDB_MAX_VALUE_SIZE) then None else
  if decide (blen f < wh_key_len wh) then None else
  let k := take (Z.to_nat (wh_key_len wh)) f in
  let f := drop (Z.to_nat (wh_key_len wh)) f in
  if decide (blen f < wh_value_len wh) then None else
  let v := take (Z.to_nat (wh_value_len wh)) f in
  let f := drop (Z.to_nat (wh_value_len wh)) f in
  if decide (wh_crc32 wh <> Z.lxor (record_crc k v) (qrxdb_crc32 (enc_walhdr_body wh)))
  then None else Some (wh, k, v, f).

(** Every turn consumes a header, so the length of the file bounds the turns. *)
Fixpoint wal_replay_loop (fuel : nat) (db : QrxDB) (tx : QrxDBWalTxn) (f : bytes) : dbres :=
  match fuel with
  | O => (db, 0)
  | S fuel =>
    match wal_read f with
    | None => (db, 0)
    | Some (wh, k, v, f) =>
      if decide (wh_type wh = QRXDB_WAL_BEGIN) then
        wal_replay_loop fuel db
          {| wt_puts := []; wt_generation := wh_generation wh; wt_begin_offset := wh_offset wh;
             wt_commit_offset := 0; wt_committed := false |} f
      else if decide (wh_type wh = QRXDB_WAL_PUT /\ wt_generation tx = wh_generation wh) then
        match wal_txn_add_put tx k v (wh_offset wh) with
        | None => (db, -1)
        | Some tx => wal_replay_loop fuel db tx f
        end
      else if decide (wh_type wh = QRXDB_WAL_COMMIT /\ wt_generation tx = wh_generation wh) then
        do db <- wal_apply_txn_if_needed db
          {| wt_puts := wt_puts tx; wt_generation := wt_generation tx;
             wt_begin_offset := wt_begin_offset tx; wt_commit_offset := wh_offset wh;
             wt_committed := true |};
        wal_replay_loop fuel db empty_txn f
      else wal_replay_loop fuel db tx f
    end
  end.

Definition wal_replay_file (db : QrxDB) (f : bytes) : dbres :=
  wal_replay_loop (S (length f)) db empty_txn f.

(** The ids of the segments in the directory, in increasing order. *)
Definition wal_ids (dir : gmap Z bytes) : list Z := merge_sort Z.le (elements (dom dir)).
Definition max_id (id : Z) (ids : list Z) : Z := foldl Z.max id ids.

Fixpoint wal_replay_files (db : QrxDB) (ids : list Z) : dbres :=
  match ids with
  | [] => (db, 0)
  | id :: ids =>
    do db <- wal_replay_file db (default [] (wal_dir db !! id));
    wal_replay_files db ids
  end.

Definition wal_replay_all (db : QrxDB) : dbres :=
  let ids := wal_ids (wal_dir db) in
  wal_replay_files (set_wal (max_id (wal_segment_id db) ids) (wal_segment_offset db) (wal_dir db) db) ids.

Definition qrxdb_recover (db : QrxDB) : dbres :=
  let '(good, gen) := scan_valid_tail db (map_size db) in
  let db := qrxdb_rebuild_index sha3_512 (set_position good gen db) in
  do db <- wal_replay_all db;
  (qrxdb_sync (qrxdb_recompute_merkle sha3_512 (qrxdb_rebuild_index sha3_512 db)), 0).

(** ** Opening and closing *)

(** What is on disk: the data file and its size, and the segments. *)
Record Disk := mkDisk { dk_data : bytes; dk_size : Z; dk_wal : gmap Z bytes }.

Definition disk_of (db : QrxDB) : Disk :=
  {| dk_data := map db; dk_size := map_size db; dk_wal := wal_dir db |}.

(** [memset(db, 0, ...)], then the mapping of the file, extended to the
    initial size when it is shorter. *)
Definition qrxdb_map_open (d : Disk) (initial_size : Z) : QrxDB :=
  {| initialized := 0; map := dk_data d;
     map_size := if decide (dk_size d < initial_size) then initial_size else dk_size d;
     write_offset := 0; generation := 0; wal_segment_id := 0; wal_segment_offset := 0;
     merkle_root := repeat x00 (Z.to_nat QRXDB_MERKLE_HASH_SIZE); index := [];
     compacted_until_generation := 0; recovered_transactions := 0; wal_dir := dk_wal d |}.

Definition qrxdb_init (d : Disk) : dbres :=
  let db := qrxdb_map_open d QRXDB_DEFAULT_MAP_SIZE in
  let db := set_wal (max_id 1 (wal_ids (wal_dir db))) 0 (wal_dir db) db in
  let db :=
    match qrxdb_read_header db with
    | Some db => db
    | None =>
      qrxdb_sync (qrxdb_write_header
        (set_merkle_root (repeat x00 (Z.to_nat QRXDB_MERKLE_HASH_SIZE))
          (set_position (align8 sizeof_filehdr) 0 db)))
    end in
  do db <- qrxdb_recover db;
  (set_initialized 1 (wal_open_current db), 0).

(** The files a closed database leaves. *)
Definition qrxdb_close (db : QrxDB) : Disk := disk_of (qrxdb_write_header db).

(** ** Batches *)

Record QrxDBBatchEntry := mkBatchEntry { be_key : bytes; be_value : bytes; be_offset : Z }.
Record QrxDBBatch := mkBatch {
  bt_entries : list QrxDBBatchEntry;
  bt_generation : Z;
  bt_start_offset : Z;
  bt_planned_end_offset : Z;
  bt_active : bool
}.

(** Also what [qrxdb_batch_commit] leaves of the batch when it succeeds. *)
Definition qrxdb_batch_abort : QrxDBBatch :=
  {| bt_entries := []; bt_generation := 0; bt_start_offset := 0; bt_planned_end_offset := 0; bt_active := false |}.

Definition qrxdb_batch_begin (db : QrxDB) : option QrxDBBatch :=
  if decide (initialized db = 0) then None else
  Some {| bt_entries := []; bt_generation := generation db +64 1; bt_start_offset := write_offset db;
          bt_planned_end_offset := write_offset db; bt_active := true |}.

(** [klen=(uint32_t)strlen(key)]: the copies hold that many bytes. *)
Definition qrxdb_batch_put (b : QrxDBBatch) (key value : bytes) : option QrxDBBatch :=
  if decide (bt_active b = false) then None else
  let klen := u32 (blen key) in
  let vlen := u32 (blen value) in
  if decide (klen = 0 \/ klen > QRXDB_MAX_KEY_SIZE \/ vlen > QRXDB_MAX_VALUE_SIZE) then None else
  let e := {| be_key := take (Z.to_nat klen) key; be_value := take (Z.to_nat vlen) value;
              be_offset := bt_planned_end_offset b |} in
  Some {| bt_entries := bt_entries b ++ [e]; bt_generation := bt_generation b;
          bt_start_offset := bt_start_offset b;
          bt_planned_end_offset := bt_planned_end_offset b +64 qrxdb_record_storage_size klen vlen;
          bt_active := bt_active b |}.

Definition qrxdb_batch_delete (b : QrxDBBatch) (key : bytes) : option QrxDBBatch :=
  qrxdb_batch_put b key qrxdb_tombstone_value.

Definition batch_wal_bytes (b : QrxDBBatch) : Z :=
  foldl (fun n e => n +64 wal_record_size (blen (be_key e)) (blen (be_value e)))
    (wal_record_size 0 0 +64 wal_record_size 0 0) (bt_entries b).

(** The records of the log for [b], each with its arguments, in the order of
    the calls of [wal_write_record]. *)
Definition batch_wal_records (b : QrxDBBatch) : list (Z * Z * Z * bytes * bytes) :=
  (QRXDB_WAL_BEGIN, bt_generation b, bt_start_offset b, [], []) ::
  ((fun e => (QRXDB_WAL_PUT, bt_generation b, be_offset e, be_key e, be_value e)) <$> bt_entries b)
  ++ [(QRXDB_WAL_COMMIT, bt_generation b, bt_planned_end_offset b, [], [])].
Definition wal_write_one (db : QrxDB) (r : Z * Z * Z * bytes * bytes) : QrxDB :=
  let '(type, gen, off, key, val) := r in wal_write_record db type gen off key val.

(** The loop over the data records; the answer is -1 where the code calls
    [qrxdb_recover]. *)
Fixpoint batch_write_data (db : QrxDB) (entries : list QrxDBBatchEntry) (gen : Z) : dbres :=
  match entries with
  | [] => (db, 0)
  | e :: entries =>
    if decide (write_offset db <> be_offset e) then (db, -1) else
    match write_data_record db (be_key e) (be_value e) gen with
    | None => (db, -1)
    | Some (db, off) => if decide (off <> be_offset e) then (db, -1) else batch_write_data db entries gen
    end
  end.

Definition qrxdb_batch_commit (db : QrxDB) (b : QrxDBBatch) : dbres :=
  if decide (bt_active b = false \/ bt_entries b = []) then (db, -1) else
  do db <- wal_reserve_transaction db (batch_wal_bytes b);
  let db := qrxdb_ensure_space db (bt_planned_end_offset b -64 bt_start_offset b) in
  let db := foldl wal_write_one db (batch_wal_records b) in
  let '(db, rc) := batch_write_data db (bt_entries b) (bt_generation b) in
  if decide (rc <> 0) then qrxdb_recover db
  else (qrxdb_sync (qrxdb_recompute_merkle sha3_512 db), 0).

Definition qrxdb_put (db : QrxDB) (key value : bytes) : dbres :=
  match qrxdb_batch_begin db with
  | None => (db, -1)
  | Some b =>
    match qrxdb_batch_put b key value with
    | None => (db, -1)
    | Some b => let '(db, rc) := qrxdb_batch_commit db b in (db, if decide (rc <> 0) then -1 else 0)
    end
  end.

Definition qrxdb_delete (db : QrxDB) (key : bytes) : dbres :=
  if decide (key = []) then (db, -1) else
  match qrxdb_batch_begin db with
  | None => (db, -1)
  | Some b =>
    match qrxdb_batch_delete b key with
    | None => (db, -1)
    | Some b => let '(db, rc) := qrxdb_batch_commit db b in (db, if decide (rc <> 0) then -1 else 0)
    end
  end.

(** ** Compaction and salvage *)

Fixpoint compact_write (ndb : QrxDB) (items : list QrxDBKV) : dbres :=
  match items with
  | [] => (ndb, 0)
  | e :: items =>
    let gen := generation ndb +64 1 in
    match write_data_record (set_position (write_offset ndb) gen ndb) (kv_key e) (kv_value e) gen with
    | None => (ndb, -1)
    | Some (ndb, _) => compact_write ndb items
    end
  end.

(** [tmp] is what the temporary file holds before. *)
Definition qrxdb_compact (tmp : Disk) (db : QrxDB) : dbres :=
  if decide (initialized db = 0) then (db, -1) else
  let snap := qrxdb_read_txn_begin db in
  let items := merge_sort cmp_kv_key (qrxdb_collect_live db (tx_write_offset snap) (tx_generation snap)) in
  let ndb := qrxdb_write_header
    (set_position (align8 sizeof_filehdr) 0 (qrxdb_map_open tmp QRXDB_DEFAULT_MAP_SIZE)) in
  let '(ndb, rc) := compact_write ndb items in
  if decide (rc <> 0) then (db, -1) else
  let ndb := set_position (write_offset ndb) (tx_generation snap) ndb in
  let file := qrxdb_close (qrxdb_sync (qrxdb_recompute_merkle sha3_512 ndb)) in
  let opened := qrxdb_map_open file QRXDB_DEFAULT_MAP_SIZE in
  let db := set_index [] (set_map (map opened) (set_map_size (map_size opened) db)) in
  let db := default db (qrxdb_read_header db) in
  let db := qrxdb_rebuild_index sha3_512 db in
  let db := set_initialized 1 (set_compacted_until_generation (tx_generation snap) db) in
  (qrxdb_sync (wal_open_current db), 0).

Definition qrxdb_salvage (db : QrxDB) : dbres :=
  let '(good, gen) := scan_valid_tail db (write_offset db) in
  let '(good, gen) :=
    if decide (good < align8 sizeof_filehdr) then scan_valid_tail db (map_size db) else (good, gen) in
  if decide (good < align8 sizeof_filehdr) then (db, -1) else
  let db := qrxdb_rebuild_index sha3_512 (set_position good gen db) in
  (qrxdb_sync (qrxdb_write_header (qrxdb_recompute_merkle sha3_512 db)), 0).
End sha.
