(* ===== verification/DbReplay.v ===== *)
(** * QRXDB: what replaying a write-ahead log does

    The write-ahead log as a sequence of transactions: reading a record back,
    torn records, transactions that are already applied, and the transaction
    that recovery completes. *)

From stdpp Require Import gmap sorting.
From S2P Require Import Prelude DbCodec DbStore DbLog DbView DbMerkle DbWal.

(** ** One record *)

Definition wal_args : Type := Z * Z * Z * bytes * bytes.
Definition args_type (r : wal_args) : Z := r.1.1.1.1.
Definition args_bytes (r : wal_args) : bytes :=
  let '(type, gen, off, key, val) := r in wal_bytes type gen off key val.
Definition args_size (r : wal_args) : Z := sizeof_walhdr + blen r.1.2 + blen r.2.

Record args_ok (r : wal_args) : Prop := {
  ao_type : in_u32 (args_type r);
  ao_gen : in_u64 r.1.1.1.2;
  ao_off : in_u64 r.1.1.2;
  ao_key : blen r.1.2 <= QRXDB_MAX_KEY_SIZE;
  ao_val : blen r.2 <= QRXDB_MAX_VALUE_SIZE;
  ao_put : args_type r = QRXDB_WAL_PUT -> r.1.2 <> []
}.

Lemma args_bytes_blen r : blen (args_bytes r) = args_size r.
Proof.
  destruct r as [[[[ty g] o] k] v]. unfold args_bytes, args_size, wal_bytes. cbn [fst snd].
  rewrite !blen_app. unfold blen at 1. rewrite enc_walhdr_length. unfold sizeof_walhdr. lia.
Qed.

Lemma args_size_bounds r : args_ok r -> 40 <= args_size r <= 2 ^ 30.
Proof.
  intros [_ _ _ Hk Hv _]. unfold args_size, sizeof_walhdr, QRXDB_MAX_KEY_SIZE, QRXDB_MAX_VALUE_SIZE in *.
  pose proof (blen_nonneg r.1.2). pose proof (blen_nonneg r.2). lia.
Qed.

Lemma wal_header_wf type gen off k v : args_ok (type, gen, off, k, v) -> wf_walhdr (wal_header type gen off k v).
Proof.
  intros [Ht Hg Ho Hk Hv _]. cbn in *. unfold QRXDB_MAX_KEY_SIZE, QRXDB_MAX_VALUE_SIZE in *.
  pose proof (blen_nonneg k). pose proof (blen_nonneg v).
  split; unfold wal_header; cbn [wh_magic wh_type wh_generation wh_offset wh_key_len wh_value_len wh_crc32];
    try done; try word.
  apply lxor_u32; [apply record_crc_range|apply qrxdb_crc32_range].
Qed.

Definition args_header (r : wal_args) : QrxDBWalHeader :=
  let '(type, gen, off, key, val) := r in wal_header type gen off key val.

Lemma take_blen_app (a b : bytes) n : n = blen a -> take (Z.to_nat n) (a ++ b) = a.
Proof. intros ->. unfold blen. by rewrite Nat2Z.id, take_app_length. Qed.
Lemma drop_blen_app (a b : bytes) n : n = blen a -> drop (Z.to_nat n) (a ++ b) = b.
Proof. intros ->. unfold blen. by rewrite Nat2Z.id, drop_app_length. Qed.

Lemma enc_walhdr_blen h : blen (enc_walhdr h) = sizeof_walhdr.
Proof. unfold blen. by rewrite enc_walhdr_length. Qed.

(** A record that was written is read back. *)
Lemma wal_read_bytes r f :
  args_ok r -> wal_read (args_bytes r ++ f) = Some (args_header r, r.1.2, r.2, f).
Proof.
  destruct r as [[[[ty g] o] k] v]. intros Hr. pose proof (wal_header_wf _ _ _ _ _ Hr) as Hwf.
  destruct Hr as [Ht Hg Ho Hk Hv _]. cbn [fst snd args_bytes args_header] in *.
  unfold wal_read, wal_bytes. rewrite <- !app_assoc.
  rewrite decide_False by (rewrite blen_app, enc_walhdr_blen; pose proof (blen_nonneg (k ++ v ++ f)); lia).
  rewrite take_blen_app, drop_blen_app by (by rewrite enc_walhdr_blen).
  rewrite dec_enc_walhdr by done. cbv zeta.
  change (wh_key_len (wal_header ty g o k v)) with (blen k).
  change (wh_value_len (wal_header ty g o k v)) with (blen v).
  rewrite take_blen_app, drop_blen_app by done. rewrite take_blen_app, drop_blen_app by done.
  rewrite decide_False by (change (wh_magic (wal_header ty g o k v)) with QRXDB_WAL_MAGIC;
    unfold QRXDB_MAX_KEY_SIZE, QRXDB_MAX_VALUE_SIZE in *; lia).
  rewrite decide_False by (rewrite blen_app; pose proof (blen_nonneg (v ++ f)); lia).
  rewrite decide_False by (rewrite blen_app; pose proof (blen_nonneg f); lia).
  rewrite decide_False; [done|]. intros Hn. by apply Hn.
Qed.

(** A record cut short is not read. *)
Lemma wal_read_torn r n :
  args_ok r -> Z.of_nat n < args_size r -> wal_read (take n (args_bytes r)) = None.
Proof.
  destruct r as [[[[ty g] o] k] v]. intros Hr Hn. pose proof (wal_header_wf _ _ _ _ _ Hr) as Hwf.
  unfold args_size in Hn. cbn [fst snd args_bytes] in *. unfold wal_read.
  assert (blen (take n (wal_bytes ty g o k v)) = Z.of_nat n) as Hb.
  { unfold blen. rewrite length_take, Nat.min_l; [done|].
    pose proof (args_bytes_blen (ty, g, o, k, v)) as H. unfold args_size in H. cbn [fst snd args_bytes] in H.
    unfold blen in *. lia. }
  destruct (decide _) as [|Hge]; [done|]. rewrite Hb in Hge.
  assert (exists j, n = (40 + j)%nat) as [j ->] by (exists (n - 40)%nat; unfold sizeof_walhdr in *; lia).
  unfold wal_bytes in *.
  replace (take (40 + j) (enc_walhdr (wal_header ty g o k v) ++ k ++ v))
    with (enc_walhdr (wal_header ty g o k v) ++ take j (k ++ v)).
  2:{ symmetry. apply take_app_add'. by rewrite enc_walhdr_length. }
  rewrite take_blen_app, drop_blen_app by (by rewrite enc_walhdr_blen). rewrite dec_enc_walhdr by done.
  cbv zeta. change (wh_key_len (wal_header ty g o k v)) with (blen k).
  change (wh_value_len (wal_header ty g o k v)) with (blen v).
  destruct (decide (_ \/ _)); [done|].
  assert (blen (take j (k ++ v)) < blen k + blen v) as Hj.
  { unfold blen, sizeof_walhdr in *. rewrite length_take, length_app. lia. }
  destruct (decide (blen (take j (k ++ v)) < blen k)); [done|].
  rewrite decide_True; [done|]. unfold blen in *. rewrite length_drop. lia.
Qed.

Lemma wal_read_nil : wal_read [] = None.
Proof. reflexivity. Qed.

Lemma wal_read_shorter f wh k v g : wal_read f = Some (wh, k, v, g) -> (length g < length f)%nat.
Proof.
  unfold wal_read. destruct (decide (blen f < sizeof_walhdr)) as [|Hl]; [done|]. cbv zeta.
  intros H. repeat (case_decide; [done|]). injection H as _ _ _ <-.
  rewrite !length_drop. unfold blen, sizeof_walhdr in *. lia.
Qed.

Section sha.
Context (sha3_512 : bytes -> bytes).

(** More turns than bytes change nothing. *)
Lemma replay_fuel n1 n2 db tx f :
  (length f < n1)%nat -> (length f < n2)%nat ->
  wal_replay_loop sha3_512 n1 db tx f = wal_replay_loop sha3_512 n2 db tx f.
Proof.
  revert n2 db tx f. induction n1 as [|n1 IH]; intros [|n2] db tx f H1 H2; try lia.
  cbn [wal_replay_loop]. destruct (wal_read f) as [[[[wh k] v] g]|] eqn:E; [|done].
  apply wal_read_shorter in E.
  case_decide; [apply IH; lia|]. case_decide.
  { destruct (wal_txn_add_put tx k v (wh_offset wh)); [apply IH; lia|done]. }
  case_decide; [|apply IH; lia].
  unfold ebind. case_decide; [apply IH; lia|done].
Qed.

(** [replay db tx f]: the loop with enough fuel. *)
Definition replay (db : QrxDB) (tx : QrxDBWalTxn) (f : bytes) : dbres :=
  wal_replay_loop sha3_512 (S (length f)) db tx f.

Lemma replay_step db tx r f :
  args_ok r ->
  replay db tx (args_bytes r ++ f) =
  (let '(type, gen, off, k, v) := r in
   if decide (type = QRXDB_WAL_BEGIN) then
     replay db {| wt_puts := []; wt_generation := gen; wt_begin_offset := off;
                  wt_commit_offset := 0; wt_committed := false |} f
   else if decide (type = QRXDB_WAL_PUT /\ wt_generation tx = gen) then
     match wal_txn_add_put tx k v off with
     | None => (db, -1)
     | Some tx => replay db tx f
     end
   else if decide (type = QRXDB_WAL_COMMIT /\ wt_generation tx = gen) then
     do db <- wal_apply_txn_if_needed sha3_512 db
       {| wt_puts := wt_puts tx; wt_generation := wt_generation tx;
          wt_begin_offset := wt_begin_offset tx; wt_commit_offset := off; wt_committed := true |};
     replay db empty_txn f
   else replay db tx f).
Proof.
  intros Hr. unfold replay at 1. cbn [wal_replay_loop]. rewrite wal_read_bytes by done.
  assert (length f < length (args_bytes r ++ f))%nat as Hl.
  { pose proof (args_size_bounds r Hr). pose proof (args_bytes_blen r). rewrite length_app.
    unfold blen in *. lia. }
  destruct r as [[[[ty g] o] k] v]. cbn [fst snd args_header].
  change (wh_type (wal_header ty g o k v)) with ty.
  change (wh_generation (wal_header ty g o k v)) with g.
  change (wh_offset (wal_header ty g o k v)) with o.
  unfold replay. case_decide; [apply replay_fuel; lia|]. case_decide.
  { destruct (wal_txn_add_put tx k v o); [apply replay_fuel; lia|done]. }
  case_decide; [|apply replay_fuel; lia]. unfold ebind. case_decide; [apply replay_fuel; lia|done].
Qed.

Lemma replay_end db tx f : wal_read f = None -> replay db tx f = (db, 0).
Proof. intros H. unfold replay. cbn [wal_replay_loop]. by rewrite H. Qed.

(** Records without a COMMIT, then a torn one: nothing happens. *)
Lemma replay_uncommitted db tx rs p :
  Forall (fun r => args_ok r /\ args_type r <> QRXDB_WAL_COMMIT) rs -> wal_read p = None ->
  replay db tx (concat (args_bytes <$> rs) ++ p) = (db, 0).
Proof.
  intros Hrs Hp. revert tx. induction Hrs as [|r rs [Hr Ht] _ IH]; intros tx; [by apply replay_end|].
  rewrite fmap_cons. cbn [concat]. rewrite <- app_assoc, replay_step by done.
  pose proof (ao_put r Hr) as Hput. destruct r as [[[[ty g] o] k] v].
  unfold args_type in *. cbn [fst snd] in *.
  repeat case_decide; try apply IH; [|exfalso; apply Ht; tauto].
  unfold wal_txn_add_put. rewrite decide_False; [apply IH|].
  intros Hk. destruct k; [|rewrite blen_cons in Hk; pose proof (blen_nonneg k); lia].
  destruct Hput; [tauto|done].
Qed.

(** ** Transactions *)

(** A transaction is the list of its records; [off] is where they go. *)
Definition txn_gen (t : list rec) : Z := default 0 (r_gen <$> head t).

Record txn_ok (t : list rec) : Prop := {
  to_nonempty : t <> [];
  to_recs : Forall rec_ok t;
  to_keys : Forall (fun r => r_key r <> []) t;
  to_gen : Forall (fun r => r_gen r = txn_gen t) t
}.

Fixpoint puts_of (off : Z) (t : list rec) : list QrxDBWalPut :=
  match t with
  | [] => []
  | r :: t => {| wp_key := r_key r; wp_value := r_val r; wp_offset := off |} :: puts_of (off + rec_size r) t
  end.
Fixpoint put_args (off : Z) (t : list rec) : list wal_args :=
  match t with
  | [] => []
  | r :: t => (QRXDB_WAL_PUT, r_gen r, off, r_key r, r_val r) :: put_args (off + rec_size r) t
  end.
Definition txn_args (off : Z) (t : list rec) : list wal_args :=
  (QRXDB_WAL_BEGIN, txn_gen t, off, [], []) :: put_args off t
  ++ [(QRXDB_WAL_COMMIT, txn_gen t, off + log_size t, [], [])].
Definition txn_wal (off : Z) (t : list rec) : bytes := concat (args_bytes <$> txn_args off t).
(** The transaction as replay reads it. *)
Definition txn_of (off : Z) (t : list rec) : QrxDBWalTxn :=
  {| wt_puts := puts_of off t; wt_generation := txn_gen t; wt_begin_offset := off;
     wt_commit_offset := off + log_size t; wt_committed := true |}.

Lemma txn_gen_u64 t : txn_ok t -> in_u64 (txn_gen t).
Proof. intros [Hne Hr _ _]. destruct t as [|r t]; [done|]. inversion_clear Hr. cbn. apply H. Qed.

Lemma put_args_ok off t :
  good_off off -> off + log_size t <= off_max -> Forall rec_ok t -> Forall (fun r => r_key r <> []) t ->
  Forall (fun r => args_ok r /\ args_type r <> QRXDB_WAL_COMMIT) (put_args off t).
Proof.
  intros Ho Hm Hr Hk. revert off Ho Hm. induction Hr as [|r t Hr Ht IH]; intros off Ho Hm; [constructor|].
  inversion_clear Hk as [|? ? Hk1 Hk2]. rewrite log_size_cons in Hm.
  pose proof (rec_size_bounds r Hr). pose proof (body_size_bounds r Hr). pose proof (log_size_bounds t Ht).
  cbn [put_args]. constructor.
  - split; [|done]. destruct (Hr), Ho. unfold off_max in *. split; cbn; try done; word.
  - apply IH; [done|apply good_off_step; done || lia|lia].
Qed.

Lemma txn_args_ok off t :
  good_off off -> off + log_size t <= off_max -> txn_ok t -> Forall args_ok (txn_args off t).
Proof.
  intros Ho Hm Ht. pose proof (txn_gen_u64 t Ht). destruct (Ht) as [_ Hr Hk _].
  pose proof (log_size_bounds t Hr). destruct (Ho). unfold off_max in *.
  constructor; [|apply Forall_app; split].
  - split; cbn; try done; word.
  - eapply Forall_impl; [by apply put_args_ok|]. cbn. tauto.
  - constructor; [|done]. split; cbn; try done; word.
Qed.

Lemma puts_of_app off t1 t2 : puts_of off (t1 ++ t2) = puts_of off t1 ++ puts_of (off + log_size t1) t2.
Proof.
  revert off. induction t1 as [|r t1 IH]; intros off; cbn [puts_of app]; [by rewrite Z.add_0_r|].
  rewrite IH, log_size_cons. do 3 f_equal. lia.
Qed.

Lemma replay_puts db tx off t f :
  good_off off -> off + log_size t <= off_max -> Forall rec_ok t -> Forall (fun r => r_key r <> []) t ->
  Forall (fun r => r_gen r = wt_generation tx) t ->
  replay db tx (concat (args_bytes <$> put_args off t) ++ f) =
  replay db {| wt_puts := wt_puts tx ++ puts_of off t; wt_generation := wt_generation tx;
               wt_begin_offset := wt_begin_offset tx; wt_commit_offset := wt_commit_offset tx;
               wt_committed := wt_committed tx |} f.
Proof.
  revert tx off. induction t as [|r t IH]; intros tx off Ho Hm Hr Hk Hg.
  { cbn. rewrite app_nil_r. by destruct tx. }
  pose proof (put_args_ok off (r :: t) Ho Hm Hr Hk) as Hok. cbn [put_args] in *.
  inversion_clear Hok as [|? ? [Hok1 _] _]. inversion_clear Hr as [|? ? Hr1 Hr2].
  inversion_clear Hk as [|? ? Hk1 Hk2]. inversion_clear Hg as [|? ? Hg1 Hg2]. rewrite log_size_cons in Hm.
  pose proof (rec_size_bounds r Hr1). pose proof (body_size_bounds r Hr1). pose proof (log_size_bounds t Hr2).
  rewrite fmap_cons. cbn [concat]. rewrite <- app_assoc, replay_step by done.
  rewrite decide_False by done. rewrite decide_True by done. unfold wal_txn_add_put.
  rewrite decide_False.
  2:{ destruct (r_key r); [done|]. rewrite blen_cons. pose proof (blen_nonneg l). lia. }
  rewrite IH; [|apply good_off_step; done || lia|lia|done..].
  cbn [wt_puts wt_generation wt_begin_offset wt_commit_offset wt_committed puts_of].
  by rewrite <- app_assoc.
Qed.

(** Replaying one transaction. *)
Lemma replay_txn db tx off t f :
  good_off off -> off + log_size t <= off_max -> txn_ok t ->
  replay db tx (txn_wal off t ++ f) =
  do db <- wal_apply_txn_if_needed sha3_512 db (txn_of off t); replay db empty_txn f.
Proof.
  intros Ho Hm Ht. pose proof (txn_args_ok off t Ho Hm Ht) as Hok. destruct (Ht) as [_ Hr Hk Hg].
  unfold txn_wal, txn_args in *. inversion_clear Hok as [|? ? Hok1 Hok2].
  apply Forall_app in Hok2 as [_ Hok3]. inversion_clear Hok3 as [|? ? Hok4 _].
  rewrite fmap_cons. cbn [concat]. rewrite <- app_assoc, replay_step by done.
  rewrite decide_True by done. rewrite fmap_app, concat_app, <- app_assoc, replay_puts by done.
  cbn [fmap list_fmap concat]. rewrite app_nil_r, replay_step by done.
  by rewrite decide_False, decide_False, decide_True by naive_solver.
Qed.

(** ** Appending records *)

(** [db'] is [db] with the records [t] written at its end. *)
Record appended (db db' : QrxDB) (t : list rec) : Prop := {
  ap_map : forall i, 0 <= i -> i < write_offset db \/ write_offset db + log_size t <= i ->
             peek (map db') i = peek (map db) i;
  ap_log : log_at (map db') (write_offset db) t;
  ap_offset : write_offset db' = write_offset db + log_size t;
  ap_generation : generation db' = default (generation db) (r_gen <$> last t);
  ap_index : index db' = log_fold index_step (index db) (write_offset db) t;
  ap_size : map_size db' = map_size db;
  ap_wal : wal_dir db' = wal_dir db /\ wal_segment_id db' = wal_segment_id db
           /\ wal_segment_offset db' = wal_segment_offset db;
  ap_initialized : initialized db' = initialized db
}.

Lemma appended_nil db : appended db db [].
Proof. split; try done; cbn; lia. Qed.

Lemma log_at_ext m m' off l :
  good_off off -> off + log_size l <= off_max ->
  (forall i, off <= i < off + log_size l -> peek m i = peek m' i) -> log_at m off l -> log_at m' off l.
Proof.
  revert off. induction l as [|r l IH]; intros off Ho Hm Hp Hl; [done|].
  destruct Hl as (Hr & Ha & Hl). rewrite log_size_cons in *.
  pose proof (rec_size_bounds r Hr). pose proof (body_size_bounds r Hr).
  pose proof (log_size_bounds l (log_at_ok _ _ _ Hl)). destruct (Ho) as [? _].
  split_and!; [done|eapply rec_at_ext; [| |intros i Hi; apply Hp|]; done || lia|].
  apply IH; [apply good_off_step; done || lia|lia| |done]. intros i Hi. apply Hp. lia.
Qed.

Lemma appended_cons db db1 db2 r t :
  good_off (write_offset db) -> write_offset db + log_size (r :: t) <= off_max -> Forall rec_ok (r :: t) ->
  appended db db1 [r] -> appended db1 db2 t -> appended db db2 (r :: t).
Proof.
  intros Ho Hm Hok A1 A2. inversion_clear Hok as [|? ? Hr Ht]. rewrite log_size_cons in *.
  pose proof (rec_size_bounds r Hr). pose proof (body_size_bounds r Hr). pose proof (log_size_bounds t Ht).
  destruct A1 as [M1 L1 O1 G1 I1 S1 (W1 & W1' & W1'') N1], A2 as [M2 L2 O2 G2 I2 S2 (W2 & W2' & W2'') N2].
  assert (log_size [r] = rec_size r) as Hsz by (unfold log_size; cbn; lia).
  assert (log_size (r :: t) = rec_size r + log_size t) as Hsz' by apply log_size_cons.
  destruct (Ho) as [Hob _]. split; try congruence.
  - intros i Hi Hd. rewrite M2, M1 by lia. done.
  - split_and!; [done| |by rewrite <- Hsz, <- O1]. destruct L1 as (_ & L1 & _).
    eapply rec_at_ext; [| | |exact L1]; [done|done|]. intros i Hi. symmetry. apply M2; lia.
  - lia.
  - rewrite G2, G1. destruct t as [|r' t]; [done|]. rewrite last_cons_cons, (last_cons r' t).
    by destruct (last t).
  - by rewrite I2, I1, O1, Hsz.
  - split_and!; congruence.
Qed.

Lemma ensure_space_enough db need :
  0 <= write_offset db <= off_max -> 0 <= need -> write_offset db + need <= map_size db -> need <= 2 ^ 62 ->
  qrxdb_ensure_space db need = db.
Proof.
  intros. unfold off_max, qrxdb_ensure_space in *. rewrite u64_small by word. by rewrite decide_True.
Qed.

(** One record. *)
Lemma write_data_record_spec db r :
  rec_ok r -> good_off (write_offset db) -> write_offset db + rec_size r <= map_size db ->
  write_offset db + rec_size r <= off_max ->
  exists db', write_data_record db (r_key r) (r_val r) (r_gen r) = Some (db', write_offset db)
    /\ appended db db' [r].
Proof.
  intros Hr Ho Hs Hm. pose proof (rec_size_bounds r Hr). pose proof (body_size_bounds r Hr).
  destruct (Hr) as [_ Hk Hv]. destruct (Ho) as [Ho1 _]. unfold write_data_record.
  rewrite decide_False by lia.
  change (align8 ((sizeof_rechdr +64 blen (r_key r)) +64 blen (r_val r))) with (rec_size r).
  rewrite ensure_space_enough by (unfold off_max in *; lia). cbv zeta.
  eexists. split; [reflexivity|].
  rewrite (u64_small (write_offset db + rec_size r)) by (unfold off_max in *; word).
  assert (blen (enc_rechdr (rechdr_of r)) = sizeof_rechdr) as Hb
    by (unfold blen; by rewrite enc_rechdr_length).
  change ({| rh_magic := QRXDB_MAGIC; rh_schema_version := _; rh_timestamp := _; rh_key_len := _;
             rh_value_len := _; rh_crc32 := _ |}) with (rechdr_of r).
  pose proof (blen_nonneg (r_key r)). pose proof (blen_nonneg (r_val r)).
  assert (sizeof_rechdr = 32) by done.
  rewrite !wr_wr by (rewrite ?blen_app, ?Hb; lia).
  change (sizeof_rechdr + blen (r_key r) + blen (r_val r)) with (body_size r).
  replace (enc_rechdr (rechdr_of r) ++ r_key r ++ r_val r ++ repeat x00 (Z.to_nat (rec_size r - body_size r)))
    with (enc_rec r) by (unfold enc_rec, enc_body; by rewrite <- !app_assoc).
  split; try done; cbn [map write_offset index set_index set_position set_map generation]; unfold log_size;
    cbn [fmap list_fmap zsum foldr]; rewrite ?Z.add_0_r; try done.
  - intros i Hi Hd. rewrite peek_wr by lia. rewrite enc_rec_blen by done. by rewrite decide_False by lia.
  - split_and!; [done|by apply rec_at_wr|done].
Qed.

Lemma wal_apply_puts_spec db off t :
  Forall rec_ok t -> Forall (fun r => r_gen r = txn_gen t) t ->
  good_off off -> write_offset db = off -> off + log_size t <= map_size db -> off + log_size t <= off_max ->
  exists db', wal_apply_puts db (puts_of off t) (txn_gen t) = (db', 0) /\ appended db db' t.
Proof.
  generalize (txn_gen t). intros g Ht Hg. revert db off.
  induction Ht as [|r t Hr Ht IH]; intros db off Ho He Hs Hm; [eexists; split; [done|apply appended_nil]|].
  inversion_clear Hg as [|? ? Hg1 Hg2]. rewrite log_size_cons in *.
  pose proof (rec_size_bounds r Hr). pose proof (body_size_bounds r Hr). pose proof (log_size_bounds t Ht).
  cbn [puts_of wal_apply_puts wp_key wp_value wp_offset]. rewrite <- Hg1.
  destruct (write_data_record_spec db r) as (db1 & -> & A1); [done|by rewrite He|lia|lia|].
  rewrite decide_False by (intros [_ Hn]; by apply Hn).
  assert (write_offset db1 = off + rec_size r) as Ho1.
  { rewrite (ap_offset _ _ _ A1), He. unfold log_size. cbn. lia. }
  destruct (IH Hg2 db1 (off + rec_size r)) as (db2 & Hw & A2);
    [apply good_off_step; done || lia|done|rewrite (ap_size _ _ _ A1); lia|lia|].
  exists db2. rewrite Hg1. split; [done|].
  apply (appended_cons db db1); try done; rewrite ?He, ?log_size_cons; done || lia || by constructor.
Qed.

(** ** Transactions that are applied, and the one that is not *)

Lemma put_matches_iff db r off :
  rec_ok r -> good_off off -> 0 < off -> write_offset db <= off_max ->
  wal_put_matches db {| wp_key := r_key r; wp_value := r_val r; wp_offset := off |} (r_gen r) = true <->
  rec_at (map db) off r /\ off + body_size r <= write_offset db.
Proof.
  intros Hr Ho Hp Hw. pose proof (body_size_bounds r Hr). destruct (Ho) as [Hob _].
  unfold wal_put_matches. cbn [wp_offset wp_key wp_value]. split.
  - case_decide; [done|]. destruct (read_record_at _ _ _) as [[[h k] v]|] eqn:E; [|done].
    intros (Hg & _ & _ & -> & ->)%bool_decide_eq_true.
    apply read_rec_at in E as (Ha & _ & Hl); [|done]. rewrite Hg in *. by destruct r.
  - intros [Ha Hl]. rewrite decide_False by lia.
    destruct (rec_at_read (map db) off (write_offset db) r) as (h & -> & Hg & Hk & Hv); [done..|].
    by apply bool_decide_eq_true.
Qed.

Lemma fully_applied_iff db off t :
  txn_ok t -> good_off off -> 0 < off -> off + log_size t <= off_max -> write_offset db <= off_max ->
  wal_txn_fully_applied db (txn_of off t) = true <->
  log_at (map db) off t /\ off + log_size t <= write_offset db.
Proof.
  intros [Hne Hr Hk Hg] Ho Hp Hm Hw. unfold wal_txn_fully_applied, txn_of.
  cbn [wt_committed wt_puts wt_begin_offset wt_commit_offset wt_generation].
  pose proof (log_size_bounds t Hr) as Hb.
  rewrite decide_False.
  2:{ intros [|Hn]; [done|]. by destruct t. }
  rewrite decide_False by lia. destruct (decide (_ <> 0 /\ _)) as [Hd|Hd].
  { split; [done|]. intros [_ ?]. lia. }
  assert (off + log_size t <= write_offset db) as Hle by lia. clear Hd Hne Hb.
  rewrite (and_iff_compat_l (log_at (map db) off t) (B := off + log_size t <= write_offset db) (C := True)) by tauto.
  revert Hg. generalize (txn_gen t). intros g Hg.
  revert off Ho Hp Hm Hle. induction t as [|r t IH]; intros off Ho Hp Hm Hle; [done|].
  inversion_clear Hr as [|? ? Hr1 Hr2]. inversion_clear Hg as [|? ? Hg1 Hg2]. inversion_clear Hk as [|? ? _ Hk2].
  rewrite log_size_cons in *. pose proof (rec_size_bounds r Hr1). pose proof (body_size_bounds r Hr1).
  pose proof (log_size_bounds t Hr2).
  cbn [puts_of forallb log_at]. rewrite andb_true_iff.
  rewrite (IH Hr2 Hk2 Hg2 (off + rec_size r)) by (lia || (apply good_off_step; done || lia)).
  subst g. rewrite put_matches_iff by done. intuition lia.
Qed.

(** Databases that differ only in their counters of recovered transactions
    and roots; what [rebuild_index] keeps. *)
Lemma rebuild_index_fields db :
  let db' := qrxdb_rebuild_index sha3_512 db in
  map db' = map db /\ map_size db' = map_size db /\ write_offset db' = write_offset db
  /\ generation db' = generation db /\ wal_dir db' = wal_dir db /\ wal_segment_id db' = wal_segment_id db
  /\ wal_segment_offset db' = wal_segment_offset db /\ initialized db' = initialized db.
Proof. unfold qrxdb_rebuild_index. destruct (scan_all _ _ _ _). by split_and!. Qed.

Lemma rebuild_index_spec db l :
  holds db (write_offset db) l -> index (qrxdb_rebuild_index sha3_512 db) = index_of l.
Proof.
  intros Hh. unfold qrxdb_rebuild_index.
  change (fun idx off hdr k _ => qrxdb_index_upsert idx k off (rh_timestamp hdr)) with (on_rec index_step).
  by rewrite (holds_scan _ db _ l) by done.
Qed.

(** [db'] is [db] up to fields that are not on disk, with the log [l]. *)
Record log_state (db db' : QrxDB) (l : list rec) : Prop := {
  ls_log : log_at (map db') data_start l;
  ls_offset : write_offset db' = data_start + log_size l;
  ls_index : index db' = index_of l;
  ls_size : map_size db' = map_size db;
  ls_wal : wal_dir db' = wal_dir db /\ wal_segment_id db' = wal_segment_id db;
  ls_initialized : initialized db' = initialized db
}.

Lemma apply_txn_skip db off t :
  txn_ok t -> good_off off -> 0 < off -> log_at (map db) off t ->
  off + log_size t <= write_offset db <= off_max ->
  wal_apply_txn_if_needed sha3_512 db (txn_of off t) = (db, 0).
Proof.
  intros Ht Ho Hp Hl Hw. unfold wal_apply_txn_if_needed. case_decide; [done|].
  by rewrite (proj2 (fully_applied_iff db off t Ht Ho Hp ltac:(lia) ltac:(lia))) by (split; [done|lia]).
Qed.

Lemma apply_txn_completes db l t :
  log_at (map db) data_start l -> txn_ok t ->
  data_start + log_size l <= write_offset db <= off_max ->
  data_start + log_size (l ++ t) <= map_size db <= off_max ->
  wal_txn_fully_applied db (txn_of (data_start + log_size l) t) = false ->
  exists db', wal_apply_txn_if_needed sha3_512 db (txn_of (data_start + log_size l) t) = (db', 0)
    /\ log_state db db' (l ++ t) /\ generation db' = txn_gen t
    /\ (forall i, data_start + log_size (l ++ t) <= i -> peek (map db') i = peek (map db) i).
Proof.
  intros Hl Ht Hw Hs Hf. destruct (Ht) as [Hne Hr Hk Hg].
  pose proof (log_size_bounds l (log_at_ok _ _ _ Hl)). pose proof (log_size_bounds t Hr).
  rewrite log_size_app in *. set (E := data_start + log_size l) in *.
  assert (data_start = 112) by done.
  assert (good_off E) as HE by (unfold good_off, E; split; [lia|]; rewrite data_start_eq; dlia).
  unfold wal_apply_txn_if_needed. rewrite decide_False.
  2:{ intros [|Hn]; [done|]. by destruct t. }
  rewrite Hf. cbn [txn_of wt_begin_offset wt_generation wt_puts].
  rewrite decide_True by lia. rewrite decide_False by (change (align8 sizeof_filehdr) with 112; lia).
  set (db0 := set_position E _ db). pose proof (rebuild_index_fields db0) as Hrb. cbv zeta in Hrb.
  set (db1 := qrxdb_rebuild_index sha3_512 db0) in *.
  destruct Hrb as (Rm & Rs & Ro & Rg & Rw & Rid & _ & Ri).
  change (map db0) with (map db) in Rm. change (map_size db0) with (map_size db) in Rs.
  change (write_offset db0) with E in Ro.
  change (wal_dir db0) with (wal_dir db) in Rw. change (wal_segment_id db0) with (wal_segment_id db) in Rid.
  change (initialized db0) with (initialized db) in Ri.
  assert (index db1 = index_of l) as Hidx.
  { apply rebuild_index_spec. split; [done|done|]. cbn. lia. }
  destruct (wal_apply_puts_spec db1 E t) as (db2 & Hw2 & A); [done..|rewrite Rs; lia|lia|].
  rewrite Hw2. unfold ebind. cbn [fst snd]. rewrite decide_True by done.
  destruct A as [M L O G I S (W & Wid & _) N]. rewrite Ro in *.
  assert (forall i, 0 <= i -> i < E \/ E + log_size t <= i -> peek (map db2) i = peek (map db) i) as M'.
  { intros i Hi Hd. rewrite M by done. by rewrite Rm. }
  eexists. split; [reflexivity|]. split_and!.
  - split; cbn [map write_offset index map_size wal_dir wal_segment_id initialized set_recovered_transactions].
    + apply log_at_app. split; [|done]. eapply log_at_ext; [| | |exact Hl]; [done|lia|].
      intros i Hi. symmetry. apply M'; lia.
    + rewrite O, log_size_app. unfold E. lia.
    + rewrite I, Hidx. unfold index_of. by rewrite log_fold_app.
    + by rewrite S, Rs.
    + by rewrite W, Wid, Rw, Rid.
    + by rewrite N, Ri.
  - cbn. rewrite G. destruct t as [|r t _] using rev_ind; [done|]. rewrite last_snoc. cbn.
    apply Forall_app in Hg as [_ Hg]. by inversion_clear Hg.
  - intros i Hi. apply M'; lia.
Qed.

(** ** Segments *)

Fixpoint txns_wal (off : Z) (ts : list (list rec)) : bytes :=
  match ts with
  | [] => []
  | t :: ts => txn_wal off t ++ txns_wal (off + log_size t) ts
  end.

Lemma txns_wal_app off ts1 ts2 :
  txns_wal off (ts1 ++ ts2) = txns_wal off ts1 ++ txns_wal (off + log_size (concat ts1)) ts2.
Proof.
  revert off. induction ts1 as [|t ts1 IH]; intros off; cbn [app concat txns_wal]; [by rewrite Z.add_0_r|].
  by rewrite IH, log_size_app, Z.add_assoc, app_assoc.
Qed.

Lemma concat_ok ts : Forall txn_ok ts -> Forall rec_ok (concat ts).
Proof. induction 1 as [|t ts Ht _ IH]; [constructor|]. apply Forall_app. split; [apply Ht|done]. Qed.

(** Transactions whose records are in the file are passed over. *)
Lemma replay_file_applied db off ts f :
  Forall txn_ok ts -> good_off off -> 0 < off -> log_at (map db) off (concat ts) ->
  off + log_size (concat ts) <= write_offset db <= off_max ->
  wal_replay_file sha3_512 db (txns_wal off ts ++ f) = replay db empty_txn f.
Proof.
  intros Hts. change (wal_replay_file sha3_512 db ?g) with (replay db empty_txn g). revert off.
  induction Hts as [|t ts Ht Hts IH]; intros off Ho Hp Hl Hw; [done|].
  cbn [concat txns_wal] in *. rewrite log_size_app in *. apply log_at_app in Hl as [Hl1 Hl2].
  pose proof (log_size_bounds t (to_recs t Ht)). pose proof (log_size_bounds _ (concat_ok ts Hts)).
  rewrite <- app_assoc, replay_txn by (done || lia).
  rewrite apply_txn_skip by (done || lia). unfold ebind. cbn [fst snd]. rewrite decide_True by done.
  apply IH; [|lia|done|lia]. unfold good_off in *. split; [lia|dlia].
Qed.

(** The segments: ids in increasing order, each with its transactions. *)
Definition segments : Type := list (Z * list (list rec)).
Definition seg_txns (segs : segments) : list (list rec) := concat segs.*2.
Definition seg_log (segs : segments) : list rec := concat (seg_txns segs).

Fixpoint segs_at (off : Z) (segs : segments) (dir : gmap Z bytes) : Prop :=
  match segs with
  | [] => True
  | (id, ts) :: segs =>
    dir !! id = Some (txns_wal off ts) /\ segs_at (off + log_size (concat ts)) segs dir
  end.

Lemma seg_txns_app s1 s2 : seg_txns (s1 ++ s2) = seg_txns s1 ++ seg_txns s2.
Proof. unfold seg_txns. by rewrite fmap_app, concat_app. Qed.
Lemma seg_log_app s1 s2 : seg_log (s1 ++ s2) = seg_log s1 ++ seg_log s2.
Proof. unfold seg_log. by rewrite seg_txns_app, concat_app. Qed.
Lemma seg_log_one id ts : seg_log [(id, ts)] = concat ts.
Proof. unfold seg_log, seg_txns. cbn. by rewrite app_nil_r. Qed.

Lemma segs_at_app off s1 s2 dir :
  segs_at off (s1 ++ s2) dir <-> segs_at off s1 dir /\ segs_at (off + log_size (seg_log s1)) s2 dir.
Proof.
  revert off. induction s1 as [|[id ts] s1 IH]; intros off; cbn [segs_at app].
  { rewrite Z.add_0_r. naive_solver. }
  rewrite IH. change ((id, ts) :: s1) with ([(id, ts)] ++ s1). rewrite seg_log_app, seg_log_one, log_size_app, Z.add_assoc.
  naive_solver.
Qed.

Lemma replay_files_applied db off segs :
  Forall txn_ok (seg_txns segs) -> good_off off -> 0 < off -> log_at (map db) off (seg_log segs) ->
  off + log_size (seg_log segs) <= write_offset db <= off_max -> segs_at off segs (wal_dir db) ->
  wal_replay_files sha3_512 db segs.*1 = (db, 0).
Proof.
  revert off. induction segs as [|[id ts] segs IH]; intros off Hok Ho Hp Hl Hw Hs; [done|].
  change ((id, ts) :: segs) with ([(id, ts)] ++ segs) in Hok, Hl, Hw.
  rewrite seg_txns_app in Hok. rewrite seg_log_app, seg_log_one in Hl, Hw.
  rewrite log_size_app in Hw. apply log_at_app in Hl as [Hl1 Hl2].
  unfold seg_txns in Hok. cbn [fmap list_fmap concat snd] in Hok. rewrite app_nil_r in Hok.
  apply Forall_app in Hok as [Hok1 Hok2]. destruct Hs as [Hid Hs].
  pose proof (log_size_bounds _ (concat_ok _ Hok1)). pose proof (log_size_bounds _ (concat_ok _ Hok2)).
  fold (seg_txns segs) in *. fold (seg_log segs) in *.
  cbn [fmap list_fmap wal_replay_files fst]. rewrite Hid. change (default [] (Some ?x)) with x.
  rewrite <- (app_nil_r (txns_wal off ts)), replay_file_applied by (done || lia).
  rewrite replay_end by done. unfold ebind. cbn [fst snd]. rewrite decide_True by done.
  apply (IH (off + log_size (concat ts))); try done; try lia.
  unfold good_off in *. split; [lia|dlia].
Qed.

Lemma replay_files_app db ids1 ids2 :
  wal_replay_files sha3_512 db (ids1 ++ ids2) =
  do db <- wal_replay_files sha3_512 db ids1; wal_replay_files sha3_512 db ids2.
Proof.
  revert db. induction ids1 as [|id ids1 IH]; intros db; [done|]. cbn [app wal_replay_files].
  unfold ebind. case_decide as Hd; [apply IH|]. by rewrite decide_False.
Qed.

Lemma wal_ids_sorted ids dir :
  StronglySorted Z.lt ids -> dom dir = list_to_set ids -> wal_ids dir = ids.
Proof.
  intros Hs Hd.
  assert (NoDup ids) as Hn.
  { clear Hd. induction Hs as [|id ids Hs IH Hf]; constructor; [|done].
    intros Hin. rewrite Forall_forall in Hf. specialize (Hf id Hin). lia. }
  unfold wal_ids. rewrite Hd. apply (StronglySorted_unique Z.le).
  - apply (StronglySorted_merge_sort _).
  - clear -Hs. induction Hs as [|id ids Hs IH Hf]; constructor; [done|].
    eapply Forall_impl; [done|]. cbn. lia.
  - by rewrite merge_sort_Permutation, elements_list_to_set.
Qed.

Lemma max_id_sorted n ids id : StronglySorted Z.lt (ids ++ [id]) -> n <= id -> max_id n (ids ++ [id]) = id.
Proof.
  intros Hs Hn. unfold max_id. rewrite foldl_snoc.
  assert (foldl Z.max n ids <= id) as Hm; [|lia].
  revert n Hn Hs. induction ids as [|i ids IH]; intros n Hn Hs; [done|].
  cbn [foldl]. cbn [app] in Hs. inversion_clear Hs as [|? ? Hs' Hf]. apply IH; [|done].
  apply Forall_app in Hf as [_ Hf]. inversion_clear Hf. lia.
Qed.

(** ** Recovery *)

Definition state_root (l : list rec) : bytes := merkle_root_of sha3_512 (live UINT64_MAX l).
Definition gen_of (l : list rec) : Z := default 0 (r_gen <$> last l).

(** A database whose every field agrees with the log [l]. *)
Record clean (db : QrxDB) (l : list rec) : Prop := {
  cl_log : log_at (map db) data_start l;
  cl_zero : zero_from (map db) (data_start + log_size l);
  cl_offset : write_offset db = data_start + log_size l;
  cl_generation : generation db = gen_of l;
  cl_index : index db = index_of l;
  cl_root : merkle_root db = state_root l;
  cl_size : data_start + log_size l <= map_size db <= off_max /\ map_size db mod 8 = 0
}.

Lemma peek_header m h i : sizeof_filehdr <= i -> peek (wr m 0 (enc_filehdr h)) i = peek m i.
Proof.
  intros Hi. unfold sizeof_filehdr in *. rewrite peek_wr by lia. unfold blen.
  rewrite enc_filehdr_length, decide_False by lia. done.
Qed.

(** The last steps of [qrxdb_recover] and of [qrxdb_batch_commit]. *)
Lemma finish_clean db l :
  log_at (map db) data_start l -> zero_from (map db) (data_start + log_size l) ->
  write_offset db = data_start + log_size l -> generation db = gen_of l -> index db = index_of l ->
  data_start + log_size l <= map_size db <= off_max /\ map_size db mod 8 = 0 ->
  clean (qrxdb_sync (qrxdb_recompute_merkle sha3_512 db)) l.
Proof.
  intros Hl Hz Ho Hg Hi Hs. pose proof (log_size_bounds l (log_at_ok _ _ _ Hl)).
  assert (data_start = 112) by done.
  unfold qrxdb_sync, qrxdb_write_header, qrxdb_recompute_merkle.
  split; cbn [map write_offset generation index merkle_root map_size set_merkle_root set_map]; try done.
  - eapply log_at_ext; [apply data_start_good|lia| |exact Hl]. intros i Hb.
    rewrite peek_header by (unfold sizeof_filehdr; lia). done.
  - intros i Hb. rewrite peek_header by (unfold sizeof_filehdr; lia). by apply Hz.
  - apply merkle_of_items_canonical. apply collect_live_spec. split; [done|done|lia].
Qed.

Lemma gen_of_txn l t : txn_ok t -> gen_of (l ++ t) = txn_gen t.
Proof.
  intros [Hne _ _ Hg]. unfold gen_of. destruct t as [|r t _] using rev_ind; [done|].
  rewrite app_assoc, last_snoc. cbn. apply Forall_app in Hg as [_ Hg]. by inversion_clear Hg.
Qed.

(** What the tail of the last segment adds to the log [l]. *)
Definition tail_adds (l : list rec) (tail : bytes) (new : list rec) : Prop :=
  (new = [] /\ exists rs p, tail = concat (args_bytes <$> rs) ++ p /\ wal_read p = None /\
     Forall (fun r => args_ok r /\ args_type r <> QRXDB_WAL_COMMIT) rs)
  \/ (txn_ok new /\ tail = txn_wal (data_start + log_size l) new).

Record wal_files (dir : gmap Z bytes) (segs : segments) (id : Z) (ts : list (list rec)) (tail : bytes) : Prop := {
  wf_ok : Forall txn_ok (seg_txns (segs ++ [(id, ts)]));
  wf_segs : segs_at data_start segs dir;
  wf_last : dir !! id = Some (txns_wal (data_start + log_size (seg_log segs)) ts ++ tail);
  wf_sorted : StronglySorted Z.lt (segs ++ [(id, ts)]).*1;
  wf_dom : dom dir = list_to_set (segs ++ [(id, ts)]).*1
}.

Lemma replay_all_spec db segs id ts tail f :
  wal_files (wal_dir db) segs id ts tail -> wal_segment_id db <= id ->
  log_at (map db) data_start (seg_log (segs ++ [(id, ts)])) ->
  data_start + log_size (seg_log (segs ++ [(id, ts)])) <= write_offset db <= off_max ->
  let db1 := set_wal id (wal_segment_offset db) (wal_dir db) db in
  replay db1 empty_txn tail = (f, 0) -> wal_replay_all sha3_512 db = (f, 0).
Proof.
  intros [Hok Hsegs Hlast Hsort Hdom] Hid Hl Hw db1 Hf. unfold wal_replay_all.
  rewrite (wal_ids_sorted _ _ Hsort Hdom), fmap_app. cbn [fmap list_fmap fst].
  rewrite fmap_app in Hsort. cbn [fmap list_fmap fst] in Hsort.
  rewrite max_id_sorted by done. fold db1.
  rewrite seg_log_app, seg_log_one in *. rewrite log_size_app in *. rewrite seg_txns_app in Hok.
  apply Forall_app in Hok as [Hok1 Hok2]. unfold seg_txns in Hok2. cbn in Hok2. rewrite app_nil_r in Hok2.
  apply log_at_app in Hl as [Hl1 Hl2].
  pose proof (log_size_bounds _ (concat_ok _ Hok1)) as Hb1. fold (seg_log segs) in Hb1.
  pose proof (log_size_bounds _ (concat_ok _ Hok2)) as Hb2.
  assert (data_start = 112) by done.
  rewrite replay_files_app, (replay_files_applied db1 data_start segs);
    [|done|apply data_start_good|lia|done|cbn; lia|done].
  unfold ebind. cbn [fst snd]. rewrite decide_True by done. cbn [wal_replay_files].
  change (wal_dir db1) with (wal_dir db). rewrite Hlast. change (default [] (Some ?x)) with x.
  rewrite replay_file_applied; [|done| |lia|done|cbn; lia].
  - rewrite Hf. unfold ebind. cbn [fst snd]. by rewrite decide_True.
  - unfold good_off. split; [lia|]. rewrite data_start_eq. dlia.
Qed.

(** The scan of the data file finds at least the log [l], and exactly it when
    nothing follows. *)
Lemma scan_tail_any db l new :
  log_at (map db) data_start l -> zero_from (map db) (data_start + log_size l + new) -> 0 <= new ->
  data_start + log_size l + new <= map_size db <= off_max -> map_size db mod 8 = 0 ->
  exists l', l `prefix_of` l' /\ log_at (map db) data_start l' /\ data_start + log_size l' <= map_size db /\
    stops (map db) (data_start + log_size l') (map_size db) /\
    scan_valid_tail db (map_size db) = (data_start + log_size l', gen_of l').
Proof.
  intros Hl Hz Hn Hs H8. pose proof (log_size_bounds l (log_at_ok _ _ _ Hl)).
  assert (data_start = 112) by done.
  destruct (scan_all_any (fun (_ : Z) (_ : Z) r => r_gen r) (map db) (map_size db) 0) as (l' & Hl' & Hle & Hst & He);
    [lia|done|].
  exists l'. split_and!; try done.
  - apply (log_at_prefix (map db) data_start l l' (map_size db)); try done; lia.
  - unfold scan_valid_tail. change (fun _ _ hdr _ _ => rh_timestamp hdr) with (on_rec (fun (_ : Z) (_ : Z) r => r_gen r)).
    rewrite He. f_equal. rewrite (log_fold_foldl (fun _ r => r_gen r)). unfold gen_of.
    destruct l' as [|r l' _] using rev_ind; [done|]. by rewrite foldl_snoc, last_snoc.
Qed.

(** After replay: the log is [l ++ new]. *)
Lemma replay_tail db l l' new tail :
  tail_adds l tail new -> log_at (map db) data_start l' -> l `prefix_of` l' ->
  write_offset db = data_start + log_size l' -> generation db = gen_of l' ->
  index db = index_of l' ->
  zero_from (map db) (data_start + log_size (l ++ new)) ->
  data_start + log_size l' <= map_size db -> data_start + log_size (l ++ new) <= map_size db <= off_max ->
  stops (map db) (data_start + log_size l') (map_size db) -> map_size db mod 8 = 0 ->
  exists db', replay db empty_txn tail = (db', 0) /\ log_state db db' (l ++ new) /\
    generation db' = gen_of (l ++ new) /\ zero_from (map db') (data_start + log_size (l ++ new)).
Proof.
  intros Ht Hl' Hpre Hw Hg Hi Hz Hle Hs Hst H8.
  assert (data_start = 112) by done.
  pose proof (log_size_bounds l' (log_at_ok _ _ _ Hl')) as Hb'.
  assert (Forall rec_ok (l ++ new)) as Hok.
  { destruct Hpre as [k ->]. apply Forall_app. split.
    - apply log_at_ok in Hl'. by apply Forall_app in Hl' as [? _].
    - destruct Ht as [[-> _]|[[] _]]; [constructor|done]. }
  pose proof (log_size_bounds _ Hok) as Hbn.
  (* a log that is in the file is a prefix of what was scanned, and conversely *)
  assert (log_at (map db) data_start (l ++ new) -> l' = l ++ new) as Huniq.
  { intros Hn.
    assert (l ++ new `prefix_of` l') by
      (apply (log_at_prefix (map db) data_start _ _ (map_size db)); done || apply data_start_good || lia).
    assert (l' `prefix_of` l ++ new).
    { apply (log_at_prefix (map db) data_start _ _ (map_size db)); try done; try lia.
      apply zero_stops; [lia|done]. }
    by apply (anti_symm prefix). }
  destruct Ht as [[-> (rs & p & -> & Hp & Hrs)]|[Hok2 ->]].
  - rewrite app_nil_r in *. assert (l' = l) as ->.
    { apply Huniq. destruct Hpre as [k ->]. by apply log_at_app in Hl' as [? _]. }
    exists db. split; [by apply replay_uncommitted|]. by split_and!.
  - rewrite <- (app_nil_r (txn_wal _ _)).
    assert (log_at (map db) data_start l) as Hl by (destruct Hpre as [k ->]; by apply log_at_app in Hl' as [? _]).
    pose proof (log_size_bounds l (log_at_ok _ _ _ Hl)). rewrite log_size_app in Hs, Hbn.
    assert (data_start + log_size l <= write_offset db).
    { rewrite Hw. destruct Hpre as [k ->]. rewrite log_size_app. apply log_at_app in Hl' as [_ Hk].
      pose proof (log_size_bounds k (log_at_ok _ _ _ Hk)). lia. }
    assert (good_off (data_start + log_size l)) as HE by (split; [lia|]; rewrite data_start_eq; dlia).
    pose proof (log_size_bounds new (to_recs new Hok2)).
    rewrite replay_txn by (done || lia).
    destruct (wal_txn_fully_applied db (txn_of (data_start + log_size l) new)) eqn:Hf.
    + apply fully_applied_iff in Hf as [Hn Hn2]; [|done..|lia|lia|lia].
      rewrite apply_txn_skip by (done || lia). unfold ebind. cbn [fst snd]. rewrite decide_True by done.
      rewrite replay_end by done.
      assert (l' = l ++ new) as -> by (apply Huniq, log_at_app; done).
      exists db. by split_and!.
    + destruct (apply_txn_completes db l new) as (db' & -> & Hst' & Hg' & Hp'); [done|done|lia|rewrite log_size_app; lia|done|].
      unfold ebind. cbn [fst snd]. rewrite decide_True by done. rewrite replay_end by done.
      exists db'. split_and!; [done|done|by rewrite gen_of_txn|].
      intros i Hi'. rewrite Hp' by done. by apply Hz.
Qed.

Lemma recover_spec db segs id ts tail new (l := seg_log (segs ++ [(id, ts)])) :
  wal_files (wal_dir db) segs id ts tail -> tail_adds l tail new -> wal_segment_id db <= id ->
  log_at (map db) data_start l -> zero_from (map db) (data_start + log_size (l ++ new)) ->
  data_start + log_size (l ++ new) <= map_size db <= off_max -> map_size db mod 8 = 0 ->
  exists db', qrxdb_recover sha3_512 db = (db', 0) /\ clean db' (l ++ new) /\ map_size db' = map_size db
    /\ wal_dir db' = wal_dir db /\ wal_segment_id db' = id /\ initialized db' = initialized db.
Proof.
  intros Hwf Ht Hid Hl Hz Hs H8. assert (data_start = 112) by done.
  assert (0 <= log_size new) as Hn.
  { destruct Ht as [[-> _]|[[_ Hr _ _] _]]; [done|]. pose proof (log_size_bounds new Hr). lia. }
  pose proof (log_size_bounds l (log_at_ok _ _ _ Hl)) as Hbl.
  rewrite log_size_app, Z.add_assoc in Hz, Hs.
  destruct (scan_tail_any db l (log_size new)) as (l' & Hpre & Hl' & Hle & Hst & Hscan); [done..|].
  unfold qrxdb_recover. rewrite Hscan.
  set (db0 := set_position _ _ db). pose proof (rebuild_index_fields db0) as Hrb. cbv zeta in Hrb.
  assert (index (qrxdb_rebuild_index sha3_512 db0) = index_of l') as Hidx
    by (apply rebuild_index_spec; split; [done|done|cbn; lia]).
  set (db1 := qrxdb_rebuild_index sha3_512 db0) in *.
  destruct Hrb as (Rm & Rs & Ro & Rg & Rw & Rid & _ & Ri).
  change (map db0) with (map db) in Rm. change (map_size db0) with (map_size db) in Rs.
  change (write_offset db0) with (data_start + log_size l') in Ro.
  change (generation db0) with (gen_of l') in Rg.
  change (wal_dir db0) with (wal_dir db) in Rw. change (wal_segment_id db0) with (wal_segment_id db) in Rid.
  change (initialized db0) with (initialized db) in Ri.
  set (db2 := set_wal id (wal_segment_offset db1) (wal_dir db1) db1).
  destruct (replay_tail db2 l l' new tail) as (db3 & Hr3 & Hs3 & Hg3 & Hz3); try done;
    cbn [map write_offset generation index map_size set_wal db2]; rewrite ?Rm, ?Rs, ?log_size_app, ?Z.add_assoc; try done.
  assert (log_size l <= log_size l').
  { destruct Hpre as [k ->]. rewrite log_size_app. apply log_at_app in Hl' as [_ Hk].
    pose proof (log_size_bounds k (log_at_ok _ _ _ Hk)). lia. }
  rewrite (replay_all_spec db1 segs id ts tail db3); [|by rewrite Rw|by rewrite Rid|by rewrite Rm| |done].
  2:{ rewrite Ro. fold l. lia. }
  unfold ebind. cbn [fst snd]. rewrite decide_True by done.
  destruct Hs3 as [L3 O3 I3 S3 (W3 & D3) N3].
  change (map_size db2) with (map_size db1) in S3. change (wal_dir db2) with (wal_dir db1) in W3.
  change (wal_segment_id db2) with id in D3. change (initialized db2) with (initialized db1) in N3.
  pose proof (rebuild_index_fields db3) as Hrb3. cbv zeta in Hrb3.
  assert (index (qrxdb_rebuild_index sha3_512 db3) = index_of (l ++ new)) as Hidx3.
  { apply rebuild_index_spec. split; [done|by rewrite O3|]. rewrite O3, log_size_app. lia. }
  set (db4 := qrxdb_rebuild_index sha3_512 db3) in *.
  destruct Hrb3 as (Tm & Ts & To & Tg & Tw & Tid & _ & Ti).
  eexists. split; [reflexivity|]. split.
  - apply finish_clean; rewrite ?Tm, ?Ts, ?To, ?Tg; try done. rewrite S3, Rs, log_size_app. split; [lia|done].
  - cbn [map_size wal_dir wal_segment_id initialized qrxdb_sync qrxdb_write_header qrxdb_recompute_merkle
      set_map set_merkle_root]. rewrite Ts, Tw, Tid, Ti, S3, W3, N3. by rewrite Rs, Rw, Ri.
Qed.
End sha.
