(* ===== verification/DbCommit.v ===== *)
(** * QRXDB: what a database promises, and that it keeps it

    [contents db s]: the open database [db] holds the map [s], and its files
    are such that they can be reopened.  Opening an empty directory gives the
    empty map; committing a batch updates the map; closing and reopening keeps
    it; and a crash at any point of a commit gives either the map before or the
    map after, according to whether the COMMIT record had reached the log. *)

From stdpp Require Import gmap sorting.
From S2P Require Import Prelude DbCodec DbStore DbLog DbView DbMerkle DbWal DbReplay.

Section sha.
Context (sha3_512 : bytes -> bytes).

(** ** The contract *)

Record db_ok (db : QrxDB) (segs : segments) (id : Z) (ts : list (list rec)) : Prop := {
  do_clean : clean sha3_512 db (seg_log (segs ++ [(id, ts)]));
  do_gens : Forall (fun r => r_gen r <= generation db) (seg_log (segs ++ [(id, ts)]));
  do_generation : in_u64 (generation db);
  do_wal : wal_files (wal_dir db) segs id ts [];
  do_id : wal_segment_id db = id /\ 1 <= id;
  do_segment : wal_segment_offset db = blen (default [] (wal_dir db !! id)) /\
               wal_segment_offset db <= QRXDB_WAL_SEGMENT_SIZE;
  do_size : QRXDB_DEFAULT_MAP_SIZE <= map_size db;
  do_initialized : initialized db <> 0
}.

Definition contents (db : QrxDB) (s : kvs) : Prop :=
  exists segs id ts, db_ok db segs id ts /\ s = live UINT64_MAX (seg_log (segs ++ [(id, ts)])).

(** Lookups, the root and [qrxdb_verify] answer for the map [s]. *)
Record serves (db : QrxDB) (s : kvs) : Prop := {
  sv_get : forall key, vw_value <$> qrxdb_get_view db key = s !! key;
  sv_root : merkle_root db = merkle_root_of sha3_512 s;
  sv_verify : qrxdb_verify sha3_512 db = 0
}.

Lemma clean_serves db l :
  clean sha3_512 db l -> Forall (fun r => r_gen r <= generation db) l -> in_u64 (generation db) ->
  serves db (live UINT64_MAX l).
Proof.
  intros [Hl Hz Ho Hg Hi Hr Hs] Hgens Hgen.
  assert (holds db (write_offset db) l) as Hh by (split; [done|done|rewrite Ho; lia]).
  assert (opened db l) as Hop by done.
  split.
  - intros key. rewrite (get_view_live db l key Hop). by rewrite (opened_live db l Hop).
  - done.
  - unfold qrxdb_verify. rewrite (scan_valid_tail_spec db _ l) by done.
    rewrite decide_False by (rewrite Hg; unfold gen_of; intros [|]; congruence).
    rewrite (recompute_merkle_spec sha3_512 db l Hop). rewrite <- (opened_live db l Hop).
    by rewrite decide_True by done.
Qed.

Lemma contents_serves db s : contents db s -> serves db s.
Proof. intros (segs & id & ts & [] & ->). by apply clean_serves. Qed.

(** ** Opening *)

Lemma read_header_fields db db' :
  qrxdb_read_header db = Some db' ->
  map db' = map db /\ map_size db' = map_size db /\ wal_dir db' = wal_dir db
  /\ wal_segment_id db' = wal_segment_id db /\ initialized db' = initialized db.
Proof.
  unfold qrxdb_read_header. intros H. repeat (case_decide; [done|]). by injection H as <-.
Qed.

Definition open_size (d : Disk) : Z :=
  if decide (dk_size d < QRXDB_DEFAULT_MAP_SIZE) then QRXDB_DEFAULT_MAP_SIZE else dk_size d.

Lemma init_spec d segs id ts tail new (l := seg_log (segs ++ [(id, ts)])) :
  wal_files (dk_wal d) segs id ts tail -> tail_adds l tail new -> 1 <= id ->
  log_at (dk_data d) data_start l -> zero_from (dk_data d) (data_start + log_size (l ++ new)) ->
  data_start + log_size (l ++ new) <= open_size d <= off_max -> open_size d mod 8 = 0 ->
  exists db, qrxdb_init sha3_512 d = (db, 0) /\ clean sha3_512 db (l ++ new) /\ map_size db = open_size d
    /\ wal_dir db = dk_wal d /\ wal_segment_id db = id
    /\ wal_segment_offset db = blen (default [] (dk_wal d !! id)) /\ initialized db = 1.
Proof.
  intros Hwf Ht Hid Hl Hz Hs H8. assert (data_start = 112) by done.
  pose proof (log_size_bounds l (log_at_ok _ _ _ Hl)) as Hbl.
  assert (0 <= log_size new) as Hn.
  { destruct Ht as [[-> _]|[[_ Hr _ _] _]]; [done|]. pose proof (log_size_bounds new Hr). lia. }
  assert (log_size (l ++ new) = log_size l + log_size new) as Hla by apply log_size_app.
  unfold qrxdb_init. set (db0 := qrxdb_map_open d QRXDB_DEFAULT_MAP_SIZE).
  set (db1 := set_wal _ 0 (wal_dir db0) db0).
  assert (wal_segment_id db1 = id) as Hid1.
  { destruct Hwf as [_ _ _ Hsort Hdom]. change (wal_segment_id db1) with (max_id 1 (wal_ids (dk_wal d))).
    rewrite (wal_ids_sorted _ _ Hsort Hdom). rewrite fmap_app in *. by apply max_id_sorted. }
  set (db2 := match qrxdb_read_header db1 with Some db => db | None => _ end).
  assert ((forall i, 112 <= i -> peek (map db2) i = peek (dk_data d) i) /\ map_size db2 = open_size d
    /\ wal_dir db2 = dk_wal d /\ wal_segment_id db2 = id /\ initialized db2 = 0) as (Hm & Hsz & Hw & Hi & Hin).
  { unfold db2. destruct (qrxdb_read_header db1) as [db'|] eqn:E.
    - apply read_header_fields in E as (-> & -> & -> & -> & ->). by split_and!.
    - split_and!; try done. intros i Hi. unfold qrxdb_sync, qrxdb_write_header.
      cbn [map set_map set_merkle_root set_position]. rewrite !peek_header by done. done. }
  clearbody db2.
  destruct (recover_spec sha3_512 db2 segs id ts tail new) as (db3 & Hrec & Hc3 & Hs3 & Hw3 & Hi3 & Hn3);
    rewrite ?Hw, ?Hi, ?Hsz; try done.
  { eapply log_at_ext; [apply data_start_good| | |exact Hl]; [fold l; lia|].
    intros i Hib. symmetry. apply Hm. lia. }
  { intros i Hib. rewrite Hm; [by apply Hz|]. fold l in Hib. lia. }
  rewrite Hrec. unfold ebind. cbn [fst snd]. rewrite decide_True by done.
  eexists. split; [reflexivity|]. unfold wal_open_current. rewrite Hi3.
  rewrite decide_False by lia. rewrite Hw3, Hw.
  assert (<[id := default [] (dk_wal d !! id)]> (dk_wal d) = dk_wal d) as Hins.
  { apply insert_id. by rewrite (wf_last _ _ _ _ _ Hwf). }
  split; [destruct Hc3; by split|]. split_and!; try done.
  all: cbn [wal_dir wal_segment_id wal_segment_offset initialized map_size set_initialized set_wal]; congruence.
Qed.

(** ** Steps of a commit *)

(** *** Space *)

Lemma double_until_spec fuel ns e :
  0 < ns <= 2 ^ 62 -> ns mod 8 = 0 -> e <= 2 ^ 61 -> e <= ns * 2 ^ Z.of_nat fuel ->
  let r := double_until fuel ns e in e <= r /\ ns <= r <= Z.max ns (2 * e) /\ r mod 8 = 0.
Proof.
  revert ns. induction fuel as [|fuel IH]; intros ns Hns H8 He Hf; cbn [double_until].
  { rewrite Z.mul_1_r in Hf. split_and!; done || lia. }
  case_decide as Hd; [|split_and!; done || lia].
  assert (ns *64 2 = 2 * ns) as -> by (rewrite u64_small by word; lia).
  specialize (IH (2 * ns)). cbv zeta in IH. destruct IH as (I1 & I2 & I3).
  - lia.
  - dlia.
  - done.
  - rewrite Nat2Z.inj_succ, Z.pow_succ_r in Hf by lia. lia.
  - split_and!; done || lia.
Qed.

(** [db'] is [db] with another header and a larger file. *)
Record grown (db db' : QrxDB) (need : Z) : Prop := {
  gr_map : forall i, 112 <= i -> peek (map db') i = peek (map db) i;
  gr_size : map_size db <= map_size db' <= off_max /\ map_size db' mod 8 = 0;
  gr_need : write_offset db + need <= map_size db';
  gr_fields : write_offset db' = write_offset db /\ generation db' = generation db /\
    index db' = index db /\ merkle_root db' = merkle_root db /\ wal_dir db' = wal_dir db /\
    wal_segment_id db' = wal_segment_id db /\ wal_segment_offset db' = wal_segment_offset db /\
    initialized db' = initialized db
}.

Lemma ensure_space_spec db need :
  0 <= write_offset db -> 0 <= need -> write_offset db + need <= 2 ^ 61 ->
  QRXDB_DEFAULT_MAP_SIZE <= map_size db <= off_max -> map_size db mod 8 = 0 ->
  grown db (qrxdb_ensure_space db need) need.
Proof.
  intros Hw Hn He Hs H8. unfold qrxdb_ensure_space, QRXDB_DEFAULT_MAP_SIZE, off_max in *.
  rewrite u64_small by word. case_decide as Hd; [by split; [done|unfold off_max; lia|lia|]|].
  rewrite decide_True by lia.
  destruct (double_until_spec 64 (map_size db) (write_offset db + need)) as (D1 & D2 & D3); [lia|done|lia| |].
  { change (2 ^ Z.of_nat 64) with (2 ^ 64). lia. }
  set (ns := double_until 64 _ _) in *. unfold qrxdb_remap. rewrite decide_False by lia.
  split; cbn [map_size write_offset set_map set_map_size qrxdb_write_header qrxdb_sync map];
    unfold off_max; try done; try lia.
  intros i Hi. rewrite !peek_header by done. done.
Qed.

Lemma clean_grown db db' need l : clean sha3_512 db l -> grown db db' need -> clean sha3_512 db' l.
Proof.
  intros [Hl Hz Ho Hg Hi Hr Hs] [Gm Gs Gn (F1 & F2 & F3 & F4 & F5 & F6 & F7 & F8)].
  pose proof (log_size_bounds l (log_at_ok _ _ _ Hl)). assert (data_start = 112) by done.
  split; try congruence.
  - eapply log_at_ext; [apply data_start_good|lia| |exact Hl]. intros i Hb. symmetry. apply Gm. lia.
  - intros i Hb. rewrite Gm by lia. by apply Hz.
  - split; [lia|apply Gs].
Qed.

(** *** Log segments *)

Lemma wal_files_dom dir segs id ts tail i :
  wal_files dir segs id ts tail -> id < i -> dir !! i = None.
Proof.
  intros [_ _ _ Hsort Hdom] Hi. apply not_elem_of_dom. rewrite Hdom, elem_of_list_to_set, fmap_app.
  rewrite fmap_app in Hsort. cbn in *. rewrite elem_of_app, list_elem_of_singleton.
  intros [Hin| ->]; [|lia]. revert Hsort Hin. generalize (segs.*1). induction l as [|x l IH]; [set_solver|].
  cbn [app]. intros Hs. inversion_clear Hs as [|? ? Hs' Hf]. rewrite elem_of_cons. intros [->|]; [|by apply IH].
  apply Forall_app in Hf as [_ Hf]. inversion_clear Hf. lia.
Qed.

Lemma segs_at_insert off segs dir i f : i ∉ segs.*1 -> segs_at off segs dir -> segs_at off segs (<[i := f]> dir).
Proof.
  revert off. induction segs as [|[id ts] segs IH]; intros off Hi; [done|]. cbn in Hi.
  rewrite not_elem_of_cons in Hi. destruct Hi as [Hi1 Hi2]. cbn [segs_at]. intros [H1 H2].
  split; [by rewrite lookup_insert_ne|by apply IH].
Qed.

Lemma last_fresh (segs : segments) id ts : StronglySorted Z.lt (segs ++ [(id, ts)]).*1 -> id ∉ segs.*1.
Proof.
  rewrite fmap_app. cbn [fmap list_fmap fst]. intros Hs Hin. eapply StronglySorted_app_1_elem_of in Hs;
    [|done|apply list_elem_of_here]. lia.
Qed.

(** The tail of the last segment becomes a transaction. *)
Lemma wal_files_commit dir segs id ts t tail :
  wal_files dir segs id ts tail -> txn_ok t ->
  tail = txn_wal (data_start + log_size (seg_log (segs ++ [(id, ts)]))) t ->
  wal_files dir segs id (ts ++ [t]) [].
Proof.
  intros [Hok Hsegs Hlast Hsort Hdom] Ht ->. rewrite seg_log_app, seg_log_one, log_size_app, Z.add_assoc in Hlast.
  rewrite fmap_app in *.
  split; try done; rewrite ?fmap_app; try done.
  - rewrite !seg_txns_app in *. unfold seg_txns in *. cbn [fmap list_fmap concat snd] in *. rewrite app_nil_r in *.
    rewrite app_assoc. apply Forall_app. split; [done|by constructor].
  - rewrite app_nil_r, txns_wal_app, Hlast. cbn [txns_wal]. by rewrite app_nil_r.
Qed.

Lemma wal_files_tail dir segs id ts tail tail' :
  wal_files dir segs id ts tail ->
  wal_files (<[id := default [] (dir !! id) ++ tail']> dir) segs id ts (tail ++ tail').
Proof.
  intros [Hok Hsegs Hlast Hsort Hdom]. split; try done.
  - by apply segs_at_insert; [eapply last_fresh|].
  - rewrite lookup_insert_eq, Hlast. cbn. by rewrite <- app_assoc.
  - rewrite dom_insert_L, Hdom. rewrite fmap_app. cbn. set_solver.
Qed.

Lemma reserve_spec db segs id ts size :
  db_ok db segs id ts -> id + 1 < 2 ^ 64 -> 0 <= size <= QRXDB_WAL_SEGMENT_SIZE ->
  exists segs1 id1 ts1 db1, wal_reserve_transaction db size = (db1, 0) /\
    db1 = set_wal id1 (wal_segment_offset db1) (wal_dir db1) db /\
    seg_log (segs1 ++ [(id1, ts1)]) = seg_log (segs ++ [(id, ts)]) /\
    wal_files (wal_dir db1) segs1 id1 ts1 [] /\ 1 <= id1 /\
    wal_segment_offset db1 = blen (default [] (wal_dir db1 !! id1)) /\
    wal_segment_offset db1 + size <= QRXDB_WAL_SEGMENT_SIZE.
Proof.
  intros [_ _ _ Hwf [Hid Hid1] [Hseg Hsegb] _ _] Hmax Hsize. unfold wal_reserve_transaction.
  rewrite decide_False by lia. unfold wal_rotate_if_needed.
  pose proof (blen_nonneg (default [] (wal_dir db !! id))). unfold QRXDB_WAL_SEGMENT_SIZE in *.
  rewrite u64_small by word. case_decide as Hd.
  { exists segs, id, ts, db. split_and!; try done. destruct db; cbn in *. by subst. }
  exists (segs ++ [(id, ts)]), (id + 1), []. eexists. split; [reflexivity|].
  unfold wal_open_current. cbn [wal_segment_id set_wal wal_dir wal_segment_offset].
  rewrite Hid, u64_small by word. rewrite decide_False by lia.
  assert (wal_dir db !! (id + 1) = None) as Hnone by (eapply wal_files_dom; [done|lia]). rewrite Hnone.
  change (default [] None) with (@nil byte). rewrite lookup_insert_eq.
  destruct (Hwf) as [Hok Hsegs Hlast Hsort Hdom].
  assert (seg_log ((segs ++ [(id, ts)]) ++ [(id + 1, [])]) = seg_log (segs ++ [(id, ts)])) as Hlog
    by (rewrite (seg_log_app (segs ++ _)), seg_log_one; apply app_nil_r).
  split_and!; try done; try lia; [|rewrite blen_nil; lia]. split.
  - rewrite seg_txns_app. unfold seg_txns at 2. cbn. by rewrite app_nil_r.
  - apply segs_at_insert.
    + intros Hin. apply not_elem_of_dom in Hnone. apply Hnone. rewrite Hdom. by apply elem_of_list_to_set.
    + apply segs_at_app. split; [done|]. cbn [segs_at]. split; [|done]. rewrite Hlast. by rewrite app_nil_r.
  - by rewrite lookup_insert_eq.
  - rewrite fmap_app. cbn [fmap list_fmap fst]. apply StronglySorted_app_2; [|done|by repeat constructor].
    intros x y Hx Hy%list_elem_of_singleton. subst y.
    assert (x ∈ dom (wal_dir db)) as Hx' by (rewrite Hdom; by apply elem_of_list_to_set).
    destruct (decide (x < id + 1)) as [|Hge]; [done|exfalso].
    apply elem_of_dom in Hx' as [f Hx']. rewrite (wal_files_dom _ _ _ _ _ x Hwf) in Hx' by lia. done.
  - rewrite dom_insert_L, Hdom, (fmap_app _ (segs ++ _)). cbn. set_solver.
Qed.

Definition args_total (rs : list wal_args) : Z := zsum (args_size <$> rs).

Lemma args_total_nonneg rs : Forall args_ok rs -> 0 <= args_total rs.
Proof.
  intros H. apply zsum_nonneg, Forall_fmap. eapply Forall_impl; [done|]. intros r Hr. cbn.
  pose proof (args_size_bounds r Hr). lia.
Qed.

(** Within the reserved space the records go to the current segment. *)
Lemma wal_write_all db rs :
  Forall args_ok rs -> 0 <= wal_segment_offset db ->
  wal_segment_offset db + args_total rs <= QRXDB_WAL_SEGMENT_SIZE -> is_Some (wal_dir db !! wal_segment_id db) ->
  foldl wal_write_one db rs =
  set_wal (wal_segment_id db) (wal_segment_offset db + args_total rs)
    (<[wal_segment_id db := default [] (wal_dir db !! wal_segment_id db) ++ concat (args_bytes <$> rs)]> (wal_dir db)) db.
Proof.
  intros Hrs. revert db. induction Hrs as [|r rs Hr Hrs IH]; intros db Ho Hs [f Hf].
  { cbn. rewrite Hf. unfold args_total. cbn. rewrite app_nil_r, insert_id, Z.add_0_r by done. by destruct db. }
  cbn [foldl]. pose proof (args_size_bounds r Hr). pose proof (args_total_nonneg rs Hrs).
  change (args_total (r :: rs)) with (args_size r + args_total rs) in *.
  assert (wal_write_one db r = set_wal (wal_segment_id db) (wal_segment_offset db + args_size r)
    (<[wal_segment_id db := f ++ args_bytes r]> (wal_dir db)) db) as ->.
  { destruct r as [[[[ty g] o] k] v]. unfold wal_write_one, wal_write_record, args_size in *. cbn [fst snd args_bytes] in *.
    pose proof (blen_nonneg k). pose proof (blen_nonneg v). unfold QRXDB_WAL_SEGMENT_SIZE, sizeof_walhdr in *.
    rewrite (u64_small (40 + blen k)), (u64_small (40 + blen k + blen v)) by word.
    unfold wal_rotate_if_needed, QRXDB_WAL_SEGMENT_SIZE. rewrite u64_small by word. rewrite decide_True by lia.
    rewrite ?u64_small by word. by rewrite Hf. }
  rewrite IH; cbn [wal_segment_offset wal_segment_id wal_dir set_wal]; [|lia|lia|].
  - rewrite lookup_insert_eq, insert_insert_eq, Hf, Z.add_assoc. cbn [default from_option].
    rewrite fmap_cons. cbn [concat]. unfold id. by rewrite app_assoc.
  - rewrite lookup_insert_eq. by eexists.
Qed.

(** *** Batches *)

(** [qrxdb_batch_put] for every pair; deletions put the tombstone. *)
Definition fill (b : QrxDBBatch) (puts : list (bytes * bytes)) : option QrxDBBatch :=
  foldl (fun ob kv => b ← ob; qrxdb_batch_put b kv.1 kv.2) (Some b) puts.

Fixpoint entries_of (off : Z) (t : list rec) : list QrxDBBatchEntry :=
  match t with
  | [] => []
  | r :: t => {| be_key := r_key r; be_value := r_val r; be_offset := off |} :: entries_of (off + rec_size r) t
  end.
Definition recs_of (gen : Z) (puts : list (bytes * bytes)) : list rec :=
  (fun kv => mkRec gen kv.1 kv.2) <$> puts.

(** Strings shorter than 4 GiB, so that [(uint32_t)strlen] is exact. *)
Definition short_puts (puts : list (bytes * bytes)) : Prop := Forall short_kv puts.

Lemma entries_of_snoc off t r :
  entries_of off (t ++ [r]) =
  entries_of off t ++ [{| be_key := r_key r; be_value := r_val r; be_offset := off + log_size t |}].
Proof.
  revert off. induction t as [|r' t IH]; intros off; cbn [entries_of app]; [by rewrite Z.add_0_r|].
  rewrite IH, log_size_cons. do 3 f_equal. f_equal. lia.
Qed.

Lemma fill_none puts : foldl (fun ob kv => b ← ob; qrxdb_batch_put b kv.1 kv.2) None puts = None.
Proof. by induction puts. Qed.

Lemma clip_short (s : bytes) : in_u32 (blen s) -> take (Z.to_nat (u32 (blen s))) s = s.
Proof. intros H. rewrite u32_small by done. apply take_ge. unfold blen. lia. Qed.

(** A filled batch holds the records and their places. *)
Lemma fill_spec off gen puts b :
  0 <= off -> off + log_size (recs_of gen puts) <= off_max -> in_u64 gen -> short_puts puts ->
  fill {| bt_entries := []; bt_generation := gen; bt_start_offset := off; bt_planned_end_offset := off;
          bt_active := true |} puts = Some b ->
  b = {| bt_entries := entries_of off (recs_of gen puts); bt_generation := gen; bt_start_offset := off;
         bt_planned_end_offset := off + log_size (recs_of gen puts); bt_active := true |}
  /\ Forall rec_ok (recs_of gen puts) /\ Forall (fun r => r_key r <> []) (recs_of gen puts).
Proof.
  intros Ho. revert b. induction puts as [|[k v] puts IH] using rev_ind; intros b Hm Hg Hs H.
  { cbn in H. injection H as <-. unfold log_size. cbn. by rewrite Z.add_0_r. }
  unfold recs_of in *. rewrite fmap_app in *. fold (recs_of gen puts) in *.
  apply Forall_app in Hs as [Hs Hkv]. inversion_clear Hkv as [|? ? [Hk Hv] _]. cbn [fst snd] in *.
  unfold fill in H. rewrite foldl_snoc in H. fold (fill {| bt_entries := []; bt_generation := gen;
    bt_start_offset := off; bt_planned_end_offset := off; bt_active := true |} puts) in H.
  destruct (fill _ puts) as [b0|]; [|done]. cbn [mbind option_bind fst snd] in H.
  set (t := recs_of gen puts) in *. rewrite log_size_app in *. cbn [fmap list_fmap fst snd] in *.
  set (r := mkRec gen k v) in *.
  assert (log_size [r] = rec_size r) as Hsz by (unfold log_size; cbn; lia). rewrite Hsz in *.
  unfold qrxdb_batch_put in H. rewrite !u32_small in H by done.
  destruct (decide (bt_active b0 = false)) as [|Hact]; [done|].
  destruct (decide (blen k = 0 \/ _)) as [|Hsize]; [done|].
  assert (rec_ok r) as Hr by (split; cbn; [done|lia|lia]).
  pose proof (rec_size_bounds r Hr). pose proof (body_size_bounds r Hr).
  destruct (IH b0) as (-> & Hok & Hkeys); [lia|done..|].
  pose proof (log_size_bounds t Hok). split_and!.
  - injection H as <-. cbn [bt_entries bt_generation bt_start_offset bt_planned_end_offset bt_active].
    rewrite <- (u32_small (blen k)), <- (u32_small (blen v)), !clip_short by done.
    rewrite !u32_small by done. change (qrxdb_record_storage_size (blen k) (blen v)) with (rec_size r).
    rewrite entries_of_snoc. rewrite u64_small by (unfold off_max in *; word). f_equal. lia.
  - apply Forall_app. split; [done|by constructor].
  - apply Forall_app. split; [done|]. constructor; [|done]. cbn. intros ->. unfold blen in Hsize. cbn in Hsize. lia.
Qed.

Lemma recs_of_txn gen puts :
  puts <> [] -> Forall rec_ok (recs_of gen puts) -> Forall (fun r => r_key r <> []) (recs_of gen puts) ->
  txn_ok (recs_of gen puts) /\ txn_gen (recs_of gen puts) = gen.
Proof.
  intros Hne Hok Hk. assert (txn_gen (recs_of gen puts) = gen) as Hg by by destruct puts.
  split; [|done]. split; try done; [by destruct puts|]. rewrite Hg. apply Forall_fmap, Forall_true. done.
Qed.

Lemma live_recs_of gen puts l :
  gen <= UINT64_MAX ->
  live UINT64_MAX (l ++ recs_of gen puts) = foldl (fun s kv => put_or_delete s kv.1 kv.2) (live UINT64_MAX l) puts.
Proof.
  intros Hg. rewrite live_app. generalize (live UINT64_MAX l). unfold recs_of.
  induction puts as [|kv puts IH]; intros s; [done|]. cbn [fmap list_fmap foldl]. rewrite IH. f_equal.
  unfold live_step. cbn. by rewrite decide_True.
Qed.

Lemma batch_records_args off gen puts b :
  b = {| bt_entries := entries_of off (recs_of gen puts); bt_generation := gen; bt_start_offset := off;
         bt_planned_end_offset := off + log_size (recs_of gen puts); bt_active := true |} ->
  puts <> [] -> batch_wal_records b = txn_args off (recs_of gen puts).
Proof.
  intros -> Hne. unfold batch_wal_records, txn_args.
  cbn [bt_entries bt_generation bt_start_offset bt_planned_end_offset].
  assert (txn_gen (recs_of gen puts) = gen) as -> by by destruct puts. do 2 f_equal. clear Hne.
  revert off. induction puts as [|kv puts IH]; intros off; [done|].
  cbn [recs_of fmap list_fmap entries_of put_args be_key be_value be_offset r_gen r_key r_val]. f_equal.
  apply IH.
Qed.

Lemma batch_write_data_spec db off t :
  Forall rec_ok t -> Forall (fun r => r_gen r = txn_gen t) t ->
  good_off off -> write_offset db = off -> off + log_size t <= map_size db -> off + log_size t <= off_max ->
  exists db', batch_write_data db (entries_of off t) (txn_gen t) = (db', 0) /\ appended db db' t.
Proof.
  generalize (txn_gen t). intros g Ht Hg. revert db off.
  induction Ht as [|r t Hr Ht IH]; intros db off Ho He Hs Hm; [eexists; split; [done|apply appended_nil]|].
  inversion_clear Hg as [|? ? Hg1 Hg2]. rewrite log_size_cons in *.
  pose proof (rec_size_bounds r Hr). pose proof (body_size_bounds r Hr). pose proof (log_size_bounds t Ht).
  cbn [entries_of batch_write_data be_key be_value be_offset]. rewrite <- Hg1.
  rewrite decide_False by (intros Hn; by apply Hn).
  destruct (write_data_record_spec db r) as (db1 & -> & A1); [done|by rewrite He|lia|lia|].
  rewrite decide_False by (intros Hn; by apply Hn).
  assert (write_offset db1 = off + rec_size r) as Ho1.
  { rewrite (ap_offset _ _ _ A1), He. unfold log_size. cbn. lia. }
  destruct (IH Hg2 db1 (off + rec_size r)) as (db2 & Hw & A2);
    [apply good_off_step; done || lia|done|rewrite (ap_size _ _ _ A1); lia|lia|].
  exists db2. rewrite Hg1. split; [done|].
  apply (appended_cons db db1); try done; rewrite ?He, ?log_size_cons; done || lia || by constructor.
Qed.

(** *** Sizes in the log *)

Lemma put_args_total off t : Forall rec_ok t -> 0 <= args_total (put_args off t) <= 2 * log_size t.
Proof.
  intros Ht. revert off. induction Ht as [|r t Hr Ht IH]; intros off; [done|].
  specialize (IH (off + rec_size r)). rewrite log_size_cons.
  change (args_total (put_args off (r :: t))) with
    (sizeof_walhdr + blen (r_key r) + blen (r_val r) + args_total (put_args (off + rec_size r) t)).
  pose proof (rec_size_bounds r Hr). pose proof (body_size_bounds r Hr).
  unfold body_size, sizeof_rechdr, sizeof_walhdr in *.
  pose proof (blen_nonneg (r_key r)). pose proof (blen_nonneg (r_val r)). lia.
Qed.

Lemma args_total_app rs1 rs2 : args_total (rs1 ++ rs2) = args_total rs1 + args_total rs2.
Proof. unfold args_total. by rewrite fmap_app, zsum_app. Qed.

Lemma batch_wal_bytes_spec off gen t b :
  b = {| bt_entries := entries_of off t; bt_generation := gen; bt_start_offset := off;
         bt_planned_end_offset := off + log_size t; bt_active := true |} ->
  Forall rec_ok t -> 0 <= off -> off + log_size t <= off_max ->
  batch_wal_bytes b = args_total (txn_args off t) /\ 0 <= args_total (txn_args off t) < 2 ^ 64.
Proof.
  intros -> Ht Ho Hm. unfold batch_wal_bytes, txn_args. cbn [bt_entries].
  change (args_total (?x :: ?l)) with (args_size x + args_total l). rewrite args_total_app.
  change (args_total [_]) with (40 + 0). change (args_size (_, _, _, [], [])) with 40.
  pose proof (put_args_total off t Ht). unfold off_max in *. split; [|lia].
  change (wal_record_size 0 0 +64 wal_record_size 0 0) with 80.
  assert (forall n, 0 <= n -> n + 2 * log_size t < 2 ^ 64 ->
    foldl (fun n e => n +64 wal_record_size (blen (be_key e)) (blen (be_value e))) n (entries_of off t)
    = n + args_total (put_args off t)) as Hf; [|rewrite Hf; lia].
  clear H Ho Hm. revert off. induction Ht as [|r t Hr Ht IH]; intros off n Hn Hl; [cbn; lia|].
  rewrite log_size_cons in Hl. pose proof (log_size_bounds t Ht).
  pose proof (rec_size_bounds r Hr). pose proof (body_size_bounds r Hr).
  unfold body_size, sizeof_rechdr in *.
  pose proof (blen_nonneg (r_key r)). pose proof (blen_nonneg (r_val r)).
  change (args_total (put_args off (r :: t))) with
    (40 + blen (r_key r) + blen (r_val r) + args_total (put_args (off + rec_size r) t)).
  cbn [entries_of foldl be_key be_value]. unfold wal_record_size, sizeof_walhdr.
  rewrite (u64_small (40 + blen (r_key r))), (u64_small (40 + blen (r_key r) + blen (r_val r))) by word.
  rewrite (u64_small (n + _)) by word. rewrite IH; lia.
Qed.

(** ** Commit *)

(** The batch [b] was opened on [db] and filled with [puts], and the counters
    are far from wrapping. *)
Record batch_for (db : QrxDB) (puts : list (bytes * bytes)) (b : QrxDBBatch) : Prop := {
  bf_filled : (b0 ← qrxdb_batch_begin db; fill b0 puts) = Some b;
  bf_nonempty : puts <> [];
  bf_short : short_puts puts;
  bf_generation : generation db < UINT64_MAX;
  bf_segment : wal_segment_id db < UINT64_MAX;
  bf_space : write_offset db + zsum ((fun kv => qrxdb_record_storage_size (blen kv.1) (blen kv.2)) <$> puts) <= 2 ^ 61
}.

Definition new_recs (db : QrxDB) (puts : list (bytes * bytes)) : list rec := recs_of (generation db + 1) puts.

(** What the batch holds and what is written for it. *)
Lemma batch_for_spec db puts b segs id ts (t := new_recs db puts) :
  db_ok db segs id ts -> batch_for db puts b ->
  b = {| bt_entries := entries_of (write_offset db) t; bt_generation := generation db + 1;
         bt_start_offset := write_offset db; bt_planned_end_offset := write_offset db + log_size t;
         bt_active := true |} /\
  txn_ok t /\ txn_gen t = generation db + 1 /\ write_offset db + log_size t <= 2 ^ 61 /\ good_off (write_offset db) /\
  batch_wal_records b = txn_args (write_offset db) t /\ bt_entries b <> [] /\
  batch_wal_bytes b = args_total (txn_args (write_offset db) t) /\ 0 <= batch_wal_bytes b.
Proof.
  intros Hok [Hf Hne Hs Hg Hi Hsp]. destruct Hok as [[Hl _ Ho _ _ _ _] _ Hgen _ _ _ _ Hin].
  pose proof (log_size_bounds _ (log_at_ok _ _ _ Hl)) as Hbl. assert (data_start = 112) by done.
  assert (zsum ((fun kv => qrxdb_record_storage_size (blen kv.1) (blen kv.2)) <$> puts) = log_size t) as Hsz.
  { unfold t, new_recs, recs_of, log_size. by rewrite <- list_fmap_compose. }
  rewrite Hsz in Hsp. unfold qrxdb_batch_begin in Hf. rewrite decide_False in Hf by done. cbn [mbind option_bind] in Hf.
  rewrite u64_small in Hf by word. apply fill_spec in Hf as (Hb & Hrec & Hkeys); [|lia| |word|done].
  2:{ fold (new_recs db puts). fold t. unfold off_max. lia. }
  fold (new_recs db puts) in *. fold t in Hb, Hrec, Hkeys.
  destruct (recs_of_txn (generation db + 1) puts) as [Ht Htg]; [done..|].
  assert (good_off (write_offset db)) as Hgo.
  { split; [unfold off_max; pose proof (log_size_bounds t Hrec); lia|]. rewrite Ho, data_start_eq. dlia. }
  destruct (batch_wal_bytes_spec _ _ t b Hb) as [Hwb Hwb2]; [done|lia|unfold off_max; lia|].
  split_and!; try done; try lia.
  - by apply batch_records_args.
  - rewrite Hb. cbn. unfold t, new_recs. by destruct puts.
Qed.

(** The database when the log is about to be written. *)
Record ready (db : QrxDB) (l : list rec) (b : QrxDBBatch) (segs : segments) (id : Z) (ts : list (list rec)) (need : Z) : Prop := {
  rd_clean : clean sha3_512 db l;
  rd_log : seg_log (segs ++ [(id, ts)]) = l;
  rd_wal : wal_files (wal_dir db) segs id ts [];
  rd_id : wal_segment_id db = id /\ 1 <= id;
  rd_segment : wal_segment_offset db = blen (default [] (wal_dir db !! id));
  rd_room : wal_segment_offset db + batch_wal_bytes b <= QRXDB_WAL_SEGMENT_SIZE;
  rd_space : write_offset db + need <= map_size db;
  rd_default : QRXDB_DEFAULT_MAP_SIZE <= map_size db;
  rd_initialized : initialized db <> 0
}.

Definition prepare (db : QrxDB) (b : QrxDBBatch) : QrxDB :=
  qrxdb_ensure_space (wal_reserve_transaction db (batch_wal_bytes b)).1
    (bt_planned_end_offset b -64 bt_start_offset b).

Lemma prepare_ready db puts b segs id ts :
  db_ok db segs id ts -> batch_for db puts b -> batch_wal_bytes b <= QRXDB_WAL_SEGMENT_SIZE ->
  (wal_reserve_transaction db (batch_wal_bytes b)).2 = 0 /\
  (forall i, 112 <= i -> peek (map (prepare db b)) i = peek (map db) i) /\
  write_offset (prepare db b) = write_offset db /\
  generation (prepare db b) = generation db /\
  exists segs1 id1 ts1,
    ready (prepare db b) (seg_log (segs ++ [(id, ts)])) b segs1 id1 ts1 (log_size (new_recs db puts)).
Proof.
  intros Hok Hb Hsz. destruct (batch_for_spec db puts b segs id ts Hok Hb) as (Hbe & Ht & Htg & Hsp & Hgo & Hrecs & Hne & Hwb & Hwb0).
  destruct (reserve_spec db segs id ts (batch_wal_bytes b)) as (segs1 & id1 & ts1 & db1 & Hres & Hdb1 & Hlog & Hwf & Hid & Hseg & Hroom).
  { done. }
  { destruct Hok as [_ _ _ _ [Hid _] _ _ _]. pose proof (bf_segment _ _ _ Hb). rewrite Hid in *. word. }
  { lia. }
  unfold prepare. rewrite Hres. cbn [fst snd].
  assert (bt_planned_end_offset b -64 bt_start_offset b = log_size (new_recs db puts)) as ->.
  { rewrite Hbe. cbn [bt_planned_end_offset bt_start_offset]. pose proof (log_size_bounds _ (to_recs _ Ht)).
    destruct Hgo. unfold off_max in *. rewrite u64_small by word. lia. }
  destruct (Hok) as [Hcl _ _ _ _ _ Hdef Hin].
  assert (clean sha3_512 db1 (seg_log (segs ++ [(id, ts)]))) as Hcl1 by (rewrite Hdb1; destruct Hcl; by split).
  assert (write_offset db1 = write_offset db /\ map_size db1 = map_size db /\ map db1 = map db /\
    initialized db1 = initialized db /\ generation db1 = generation db /\ wal_segment_id db1 = id1)
    as (E1 & E2 & E3 & E4 & E5 & E6) by (rewrite Hdb1; done).
  pose proof (log_size_bounds _ (to_recs _ Ht)).
  destruct (ensure_space_spec db1 (log_size (new_recs db puts))) as [Gm Gs Gn (F1 & F2 & F3 & F4 & F5 & F6 & F7 & F8)];
    rewrite ?E1, ?E2; [destruct Hgo; lia|lia|lia|destruct Hcl; lia|apply Hcl|].
  split_and!; [done| |congruence..|]; [intros i Hi; by rewrite Gm, E3|].
  exists segs1, id1, ts1. split; try done; [|by rewrite F5|split; congruence|by rewrite F7, F5|by rewrite F7
    |by rewrite F1|rewrite E2 in Gs; lia|congruence].
  eapply clean_grown; [done|]. by split.
Qed.

(** Writing the first [k] records of the transaction. *)
Lemma write_some db l b segs id ts need rs1 rs2 :
  ready db l b segs id ts need -> Forall args_ok (rs1 ++ rs2) -> args_total (rs1 ++ rs2) = batch_wal_bytes b ->
  foldl wal_write_one db rs1 =
    set_wal id (wal_segment_offset db + args_total rs1)
      (<[id := default [] (wal_dir db !! id) ++ concat (args_bytes <$> rs1)]> (wal_dir db)) db
  /\ wal_files (wal_dir (foldl wal_write_one db rs1)) segs id ts (concat (args_bytes <$> rs1)).
Proof.
  intros [_ _ Hwf [Hid _] Hseg Hroom _ _ _] Hok Htot. apply Forall_app in Hok as [Hok1 Hok2].
  rewrite args_total_app in Htot. pose proof (args_total_nonneg rs1 Hok1). pose proof (args_total_nonneg rs2 Hok2).
  rewrite wal_write_all; rewrite ?Hid; try done; [|rewrite Hseg; apply blen_nonneg|lia|].
  - split; [done|]. cbn [wal_dir set_wal]. change (concat ?x) with ([] ++ concat x) at 2. by apply wal_files_tail.
  - rewrite (wf_last _ _ _ _ _ Hwf). by eexists.
Qed.

Lemma commit_ok db puts b segs id ts :
  db_ok db segs id ts -> batch_for db puts b ->
  if decide (batch_wal_bytes b > QRXDB_WAL_SEGMENT_SIZE) then qrxdb_batch_commit sha3_512 db b = (db, -1)
  else exists segs1 id1 ts1 db', qrxdb_batch_commit sha3_512 db b = (db', 0) /\ db_ok db' segs1 id1 ts1 /\
    seg_log (segs1 ++ [(id1, ts1)]) = seg_log (segs ++ [(id, ts)]) ++ new_recs db puts /\
    generation db' = generation db + 1.
Proof.
  intros Hok Hb. destruct (batch_for_spec db puts b segs id ts Hok Hb)
    as (Hbe & Ht & Htg & Hsp & Hgo & Hrecs & Hne & Hwb & Hwb0).
  assert (~ (bt_active b = false \/ bt_entries b = [])) as Hact
    by (intros [Ha|Ha]; [by rewrite Hbe in Ha|by apply Hne]).
  unfold qrxdb_batch_commit. case_decide as Hbig; rewrite decide_False by exact Hact.
  { unfold wal_reserve_transaction, ebind. by rewrite (decide_True _ _ Hbig), decide_False. }
  destruct (prepare_ready db puts b segs id ts Hok Hb) as (Hr0 & Hpm & Hpo & Hpg & segs1 & id1 & ts1 & Hrd); [lia|].
  unfold ebind. rewrite Hr0, decide_True by done. fold (prepare db b). set (db2 := prepare db b) in *.
  set (t := new_recs db puts) in *. set (l := seg_log (segs ++ [(id, ts)])) in *.
  assert (Forall args_ok (txn_args (write_offset db) t)) as Hao
    by (apply txn_args_ok; [done|unfold off_max; lia|done]).
  destruct (write_some db2 l b segs1 id1 ts1 (log_size t) (txn_args (write_offset db) t) []) as [Hw Hwf];
    rewrite ?app_nil_r; [done..|]. rewrite Hrecs.
  set (db3 := foldl wal_write_one db2 _) in *.
  destruct Hrd as [[Cl Cz Co Cg Ci Cr Cs] Hlog _ [Hid Hid1] Hseg Hroom Hspace Hdef Hinit].
  assert (write_offset db3 = write_offset db /\ map_size db3 = map_size db2 /\ map db3 = map db2 /\
    initialized db3 = initialized db2 /\ wal_segment_id db3 = id1 /\ index db3 = index_of l)
    as (E1 & E2 & E3 & E4 & E5 & E6) by (rewrite Hw; done).
  pose proof (log_size_bounds _ (to_recs _ Ht)) as Hbt. assert (data_start = 112) by done.
  destruct (batch_write_data_spec db3 (write_offset db) t) as (db4 & Hw4 & [Am Al Ao Ag Ai As (Aw & Awid & Awo) An]);
    [apply Ht|apply Ht|done|done|rewrite E2, <- Hpo; done|unfold off_max; lia|].
  assert (bt_entries b = entries_of (write_offset db) t /\ bt_generation b = txn_gen t) as [-> ->]
    by (rewrite Hbe, Htg; done).
  rewrite Hw4.
  rewrite decide_False by (intros Hn; by apply Hn). rewrite E1 in *.
  assert (write_offset db = data_start + log_size l) as Hoff by congruence.
  assert (log_size (l ++ t) = log_size l + log_size t) as Hla by apply log_size_app.
  assert (gen_of (l ++ t) = generation db + 1) as Hgl by (rewrite gen_of_txn; done).
  pose proof (log_size_bounds l (log_at_ok _ _ _ Cl)) as Hbl.
  exists segs1, id1, (ts1 ++ [t]), (qrxdb_sync (qrxdb_recompute_merkle sha3_512 db4)).
  assert (seg_log (segs1 ++ [(id1, ts1 ++ [t])]) = l ++ t) as Hlog'.
  { rewrite seg_log_app, seg_log_one in *. rewrite concat_app, <- Hlog. cbn. by rewrite app_nil_r, app_assoc. }
  assert (generation db4 = generation db + 1) as Hg4.
  { rewrite Ag. destruct t as [|r t' _] eqn:E using rev_ind; [by destruct Ht|]. rewrite last_snoc.
    cbn. pose proof (to_gen _ Ht) as Hg. apply Forall_app in Hg as [_ Hg]. inversion_clear Hg. congruence. }
  split_and!; [done| |done|by cbn].
  split; rewrite ?Hlog'; cbn [generation wal_dir wal_segment_id wal_segment_offset map_size initialized qrxdb_sync
    qrxdb_recompute_merkle qrxdb_write_header set_map set_merkle_root].
  - apply finish_clean; try done.
    + apply log_at_app. rewrite <- Hoff. split; [|done].
      eapply log_at_ext; [apply data_start_good|unfold off_max; lia| |exact Cl].
      intros i Hi. rewrite Am by lia. by rewrite E3.
    + intros i Hi. rewrite Am by lia. rewrite E3. apply Cz. lia.
    + rewrite Ao. lia.
    + by rewrite Hgl.
    + rewrite Ai, E6. unfold index_of. by rewrite log_fold_app, Hoff.
    + rewrite As, E2. split; [lia|apply Cs].
  - rewrite Hg4. apply Forall_app. split.
    + eapply Forall_impl; [apply (do_gens _ _ _ _ Hok)|]. cbn. lia.
    + eapply Forall_impl; [apply (to_gen _ Ht)|]. cbn. lia.
  - rewrite Hg4. pose proof (do_generation _ _ _ _ Hok). pose proof (bf_generation _ _ _ Hb). word.
  - rewrite Aw. eapply wal_files_commit; [exact Hwf|done|]. rewrite Hlog, <- Hoff. done.
  - split; [congruence|done].
  - rewrite Awo, Aw, Hw. cbn [wal_segment_offset wal_dir set_wal]. rewrite lookup_insert_eq.
    cbn [default from_option]. unfold Datatypes.id. rewrite blen_app, Hseg. split.
    + f_equal. unfold args_total. clear. induction (txn_args (write_offset db) t) as [|r rs IH]; [done|].
      rewrite !fmap_cons. cbn [concat zsum foldr]. rewrite blen_app, args_bytes_blen. fold (zsum (args_size <$> rs)). lia.
    + lia.
  - rewrite As, E2. done.
  - by rewrite An, E4.
Qed.

(** ** Crashes *)

Definition same_data (m d : bytes) : Prop := forall i, 112 <= i -> peek d i = peek m i.

(** [f ++ p] in the last segment. *)
Definition torn (dir : gmap Z bytes) (id : Z) (p : bytes) : gmap Z bytes :=
  <[id := default [] (dir !! id) ++ p]> dir.

(** What a crash during [qrxdb_batch_commit db b] can leave on disk; the flag
    says whether the COMMIT record was written.  The file header is arbitrary
    throughout.  Each [fwrite] of the log may be cut anywhere (the records are
    written in order, each synced before the next), and once the log is
    complete the place of the new records in the data file may hold anything. *)
Inductive crash_disk (db : QrxDB) (b : QrxDBBatch) : Disk -> bool -> Prop :=
| crash_in_log rs1 r rs2 n d :
    batch_wal_records b = rs1 ++ r :: rs2 -> Z.of_nat n < args_size r -> same_data (map (prepare db b)) d ->
    let db' := foldl wal_write_one (prepare db b) rs1 in
    crash_disk db b {| dk_data := d; dk_size := map_size db';
                       dk_wal := torn (wal_dir db') (wal_segment_id db') (take n (args_bytes r)) |} false
| crash_in_data d :
    (forall i, 112 <= i < bt_start_offset b \/ bt_planned_end_offset b <= i ->
       peek d i = peek (map (prepare db b)) i) ->
    let db' := foldl wal_write_one (prepare db b) (batch_wal_records b) in
    crash_disk db b {| dk_data := d; dk_size := map_size db'; dk_wal := wal_dir db' |} true.

Lemma torn_wal_files dir segs id ts tail p :
  wal_files dir segs id ts tail -> wal_files (torn dir id p) segs id ts (tail ++ p).
Proof. apply wal_files_tail. Qed.

(** Before the last record of a transaction there is no COMMIT. *)
Lemma uncommitted_prefix off t rs1 r rs2 :
  txn_ok t -> good_off off -> off + log_size t <= 2 ^ 61 -> rs1 ++ r :: rs2 = txn_args off t ->
  Forall (fun r => args_ok r /\ args_type r <> QRXDB_WAL_COMMIT) rs1.
Proof.
  intros Ht Ho Hm He. assert (off + log_size t <= off_max) as Hm' by (unfold off_max; lia).
  pose proof (put_args_ok off t Ho Hm' (to_recs t Ht) (to_keys t Ht)) as Hp.
  pose proof (txn_args_ok off t Ho Hm' Ht) as Ha. unfold txn_args in *.
  inversion_clear Ha as [|? ? Ha1 _]. destruct rs1 as [|x rs1]; [constructor|].
  cbn [app] in He. injection He as -> He. constructor; [done|].
  assert (rs1 `prefix_of` put_args off t) as [k Hk].
  { destruct rs2 as [|r2 rs2 _] using rev_ind.
    - apply app_inj_tail in He as [-> _]. done.
    - rewrite app_comm_cons, app_assoc in He. apply app_inj_tail in He as [<- _]. by eexists. }
  rewrite Hk in Hp. by apply Forall_app in Hp as [Hp _].
Qed.

Lemma crash_ok db puts b segs id ts d c (l := seg_log (segs ++ [(id, ts)])) :
  db_ok db segs id ts -> batch_for db puts b -> batch_wal_bytes b <= QRXDB_WAL_SEGMENT_SIZE ->
  crash_disk db b d c ->
  exists db', qrxdb_init sha3_512 d = (db', 0) /\
    clean sha3_512 db' (l ++ if c then new_recs db puts else []).
Proof.
  intros Hok Hb Hsz Hc.
  destruct (batch_for_spec db puts b segs id ts Hok Hb) as (Hbe & Ht & Htg & Hsp & Hgo & Hrecs & Hne & Hwb & Hwb0).
  destruct (prepare_ready db puts b segs id ts Hok Hb Hsz) as (_ & Hpm & Hpo & _ & segs1 & id1 & ts1 & Hrd).
  fold l in Hrd. set (db2 := prepare db b) in *. set (t := new_recs db puts) in *.
  assert (Forall args_ok (txn_args (write_offset db) t)) as Hao
    by (apply txn_args_ok; [done|unfold off_max; lia|done]).
  destruct (Hrd) as [[Cl Cz Co Cg Ci Cr Cs] Hlog Hwf0 [Hid Hid1] Hseg Hroom Hspace Hdef Hinit].
  pose proof (log_size_bounds _ (to_recs _ Ht)) as Hbt. assert (data_start = 112) by done.
  pose proof (log_size_bounds l (log_at_ok _ _ _ Cl)) as Hbl.
  assert (write_offset db = data_start + log_size l) as Hoff by congruence.
  assert (log_size (l ++ t) = log_size l + log_size t) as Hla by apply log_size_app.
  destruct Hc as [rs1 r rs2 n d Hrs Hn Hd db3|d Hd db3].
  - rewrite Hrs in Hrecs. rewrite <- Hrecs in Hao, Hwb.
    destruct (write_some db2 l b segs1 id1 ts1 (log_size t) rs1 (r :: rs2)) as [Hw Hwf]; [done..|].
    change (foldl wal_write_one db2 rs1) with db3 in Hw, Hwf. clearbody db3.
    assert (map_size db3 = map_size db2 /\ wal_segment_id db3 = id1) as [E1 E2] by (by rewrite Hw).
    apply Forall_app in Hao as [Ha1 Ha2]. inversion_clear Ha2 as [|? ? Ha _].
    edestruct (init_spec {| dk_data := d; dk_size := map_size db3;
      dk_wal := torn (wal_dir db3) (wal_segment_id db3) (take n (args_bytes r)) |} segs1 id1 ts1) as (db' & Hi & Hcl & _);
      [cbn; rewrite E2; by apply torn_wal_files| |done|..]; cbn [dk_data dk_size dk_wal]; rewrite ?Hlog.
    + left. split; [done|]. exists rs1, (take n (args_bytes r)). split_and!; [done|by apply wal_read_torn|].
      by apply (uncommitted_prefix (write_offset db) t rs1 r rs2).
    + eapply log_at_ext; [apply data_start_good|unfold off_max; lia| |exact Cl]. intros i Hi. symmetry. apply Hd. lia.
    + rewrite app_nil_r. intros i Hi. rewrite Hd by lia. by apply Cz.
    + rewrite app_nil_r. unfold open_size. cbn. rewrite E1, decide_False by lia. lia.
    + unfold open_size. cbn. rewrite E1, decide_False by lia. apply Cs.
    + rewrite Hlog in Hcl. by exists db'.
  - destruct (write_some db2 l b segs1 id1 ts1 (log_size t) (txn_args (write_offset db) t) []) as [Hw Hwf];
      rewrite ?app_nil_r; [done..|]. rewrite <- Hrecs in Hw, Hwf.
    change (foldl wal_write_one db2 (batch_wal_records b)) with db3 in Hw, Hwf. clearbody db3.
    assert (map_size db3 = map_size db2) as E1 by (by rewrite Hw).
    assert (bt_start_offset b = write_offset db /\ bt_planned_end_offset b = write_offset db + log_size t) as [B1 B2]
      by (by rewrite Hbe). rewrite B1, B2, Hoff in Hd.
    edestruct (init_spec {| dk_data := d; dk_size := map_size db3; dk_wal := wal_dir db3 |} segs1 id1 ts1) as (db' & Hi & Hcl & _);
      [exact Hwf| |done|..]; cbn [dk_data dk_size dk_wal]; rewrite ?Hlog.
    + right. split; [exact Ht|]. rewrite Hrecs, <- Hoff. done.
    + eapply log_at_ext; [apply data_start_good|unfold off_max; lia| |exact Cl]. intros i Hi. symmetry. apply Hd. lia.
    + intros i Hi. rewrite Hd by lia. apply Cz. lia.
    + unfold open_size. cbn. rewrite E1, decide_False by lia. lia.
    + unfold open_size. cbn. rewrite E1, decide_False by lia. apply Cs.
    + rewrite Hlog in Hcl. by exists db'.
Qed.

(** ** Closing, reopening, and the empty database *)

Lemma clean_gens db l g : clean sha3_512 db l -> Forall (fun r => r_gen r <= g) l -> generation db = g ->
  Forall (fun r => r_gen r <= generation db) l.
Proof. by intros _ H ->. Qed.

Lemma reopen_ok db segs id ts d :
  db_ok db segs id ts -> same_data (map db) (dk_data d) -> dk_size d = map_size db -> dk_wal d = wal_dir db ->
  exists db', qrxdb_init sha3_512 d = (db', 0) /\ db_ok db' segs id ts.
Proof.
  intros [Hcl Hgens Hgen Hwf [Hid Hid1] [Hseg Hsegb] Hdef Hin] Hd Hsz Hw. assert (data_start = 112) by done.
  destruct (Hcl) as [Cl Cz Co Cg Ci Cr Cs]. set (l := seg_log (segs ++ [(id, ts)])) in *.
  pose proof (log_size_bounds l (log_at_ok _ _ _ Cl)) as Hbl.
  assert (open_size d = map_size db) as Hos by (unfold open_size; rewrite Hsz, decide_False by lia; done).
  destruct (init_spec d segs id ts [] []) as (db' & Hi & Hcl' & Hs' & Hw' & Hi' & Ho' & Hn');
    rewrite ?Hw, ?Hos, ?app_nil_r; try done; fold l.
  - left. split; [done|]. exists [], []. by split_and!.
  - eapply log_at_ext; [apply data_start_good|lia| |exact Cl]. intros i Hib. symmetry. apply Hd. lia.
  - intros i Hib. rewrite Hd by lia. by apply Cz.
  - apply Cs.
  - apply Cs.
  - exists db'. split; [done|]. rewrite app_nil_r in Hcl'. fold l in Hcl'.
    assert (generation db' = generation db) as Hge by (rewrite Cg; apply Hcl').
    split; fold l; rewrite ?Hge, ?Hw', ?Hi', ?Hn', ?Hs', ?Ho', ?Hw, ?Hos; try done.
    split; [done|]. by rewrite <- Hseg.
Qed.

Lemma close_data db : same_data (map db) (dk_data (qrxdb_close db)).
Proof. intros i Hi. cbn. by apply peek_header. Qed.

Lemma empty_ok : exists db, qrxdb_init sha3_512 {| dk_data := []; dk_size := 0; dk_wal := ∅ |} = (db, 0) /\ db_ok db [] 1 [].
Proof.
  eexists. split; [vm_compute; reflexivity|]. split; try done.
  - split; try done; try (vm_compute; done).
    intros i Hi. unfold peek. rewrite lookup_ge_None_2; [done|]. cbn. unfold data_start in Hi.
    change (align8 sizeof_filehdr) with 112 in Hi. change (log_size _) with 0 in Hi. lia.
  - split; try done; repeat constructor.
Qed.

(** ** Sequences of commits *)

Definition apply_puts (s : kvs) (puts : list (bytes * bytes)) : kvs :=
  foldl (fun s kv => put_or_delete s kv.1 kv.2) s puts.

Inductive commits : QrxDB -> QrxDB -> Prop :=
| commits_refl db : commits db db
| commits_step db db1 db2 puts b :
    commits db db1 -> batch_for db1 puts b -> qrxdb_batch_commit sha3_512 db1 b = (db2, 0) -> commits db db2.

Lemma commits_log db db' segs id ts :
  db_ok db segs id ts -> commits db db' ->
  exists segs' id' ts' l, db_ok db' segs' id' ts' /\
    seg_log (segs' ++ [(id', ts')]) = seg_log (segs ++ [(id, ts)]) ++ l.
Proof.
  intros Hok. induction 1 as [db|db db1 db2 puts b _ IH Hb Hc].
  - exists segs, id, ts, []. by rewrite app_nil_r.
  - destruct (IH Hok) as (segs1 & id1 & ts1 & l & Hok1 & Hl). pose proof (commit_ok _ _ _ _ _ _ Hok1 Hb) as H.
    case_decide.
    { rewrite H in Hc. by injection Hc. }
    destruct H as (segs2 & id2 & ts2 & db' & He & Hok2 & Hl2 & _). rewrite Hc in He. injection He as <-.
    exists segs2, id2, ts2, (l ++ new_recs db1 puts). split; [done|]. by rewrite Hl2, Hl, app_assoc.
Qed.
End sha.

(** ** Properties *)

(** C1: atomicity across crashes.  If the process dies anywhere inside
    [qrxdb_batch_commit] (between two writes, in the middle of one, with an
    arbitrary file header, and once the log is complete with anything in the
    place of the new records), then the next [qrxdb_init] succeeds and the
    database answers lookups, its Merkle root and [qrxdb_verify] for the state
    after the batch if the COMMIT record was written, and for the state before
    it otherwise. *)
Theorem crash_recovery (sha3_512 : bytes -> bytes) (db : QrxDB) (s : kvs) (puts : list (bytes * bytes))
    (b : QrxDBBatch) (d : Disk) (committed : bool) :
  contents sha3_512 db s -> batch_for db puts b -> batch_wal_bytes b <= QRXDB_WAL_SEGMENT_SIZE ->
  crash_disk db b d committed ->
  exists db', qrxdb_init sha3_512 d = (db', 0) /\
    serves sha3_512 db' (if committed then apply_puts s puts else s).
Proof.
  intros (segs & id & ts & Hok & ->) Hb Hsz Hc.
  destruct (crash_ok sha3_512 db puts b segs id ts d committed Hok Hb Hsz Hc) as (db' & Hi & Hcl).
  exists db'. split; [done|]. pose proof (do_generation _ _ _ _ _ Hok). pose proof (bf_generation _ _ _ Hb).
  destruct (batch_for_spec _ db puts b segs id ts Hok Hb) as (_ & Ht & Htg & _).
  pose proof (cl_generation _ _ _ (do_clean _ _ _ _ _ Hok)) as Hg. pose proof (do_gens _ _ _ _ _ Hok) as Hgens.
  pose proof (cl_generation _ _ _ Hcl) as Hg'.
  destruct committed.
  - unfold apply_puts. rewrite <- (live_recs_of (generation db + 1)) by word.
    rewrite gen_of_txn, Htg in Hg' by done. apply clean_serves; [done| |rewrite Hg'; word]. rewrite Hg'.
    apply Forall_app. split; [eapply Forall_impl; [exact Hgens|]; cbn; lia|].
    eapply Forall_impl; [apply (to_gen _ Ht)|]. cbn. lia.
  - rewrite app_nil_r in *. rewrite <- Hg in Hg'. apply clean_serves; [done|by rewrite Hg'|by rewrite Hg'].
Qed.

Lemma batch_commit_ok (sha3_512 : bytes -> bytes) (db : QrxDB) (s : kvs) (puts : list (bytes * bytes))
    (b : QrxDBBatch) :
  contents sha3_512 db s -> batch_for db puts b ->
  if decide (batch_wal_bytes b > QRXDB_WAL_SEGMENT_SIZE) then qrxdb_batch_commit sha3_512 db b = (db, -1)
  else exists db', qrxdb_batch_commit sha3_512 db b = (db', 0) /\
    contents sha3_512 db' (apply_puts s puts) /\ serves sha3_512 db' (apply_puts s puts) /\
    generation db' = generation db + 1.
Proof.
  intros (segs & id & ts & Hok & ->) Hb. pose proof (commit_ok sha3_512 db puts b segs id ts Hok Hb) as H.
  case_decide; [done|]. destruct H as (segs1 & id1 & ts1 & db' & Hc & Hok1 & Hl & Hg). exists db'.
  assert (contents sha3_512 db' (apply_puts (live UINT64_MAX (seg_log (segs ++ [(id, ts)]))) puts)) as Hcon.
  { exists segs1, id1, ts1. split; [done|]. rewrite Hl. symmetry. apply live_recs_of.
    pose proof (bf_generation _ _ _ Hb). lia. }
  split_and!; [done..|by apply contents_serves|done].
Qed.

(** C2: committing a batch.  A batch whose records do not fit in one log
    segment is refused and the database is unchanged; any other batch of
    non-empty puts is committed, the new contents are the old ones with the
    puts and deletions applied in order, and lookups, the Merkle root and
    [qrxdb_verify] answer for them. *)
Theorem batch_commit_refines (sha3_512 : bytes -> bytes) (db : QrxDB) (s : kvs) (puts : list (bytes * bytes))
    (b : QrxDBBatch) :
  contents sha3_512 db s -> batch_for db puts b ->
  if decide (batch_wal_bytes b > QRXDB_WAL_SEGMENT_SIZE) then qrxdb_batch_commit sha3_512 db b = (db, -1)
  else exists db', qrxdb_batch_commit sha3_512 db b = (db', 0) /\
    contents sha3_512 db' (apply_puts s puts) /\ serves sha3_512 db' (apply_puts s puts) /\
    generation db' = generation db + 1.
Proof. apply batch_commit_ok. Qed.

(** C15: an empty directory opens as the empty database, and closing a database
    and opening it again keeps its contents. *)
Theorem open_close_roundtrip (sha3_512 : bytes -> bytes) :
  (exists db, qrxdb_init sha3_512 {| dk_data := []; dk_size := 0; dk_wal := ∅ |} = (db, 0) /\ contents sha3_512 db ∅) /\
  (forall db s, contents sha3_512 db s ->
    exists db', qrxdb_init sha3_512 (qrxdb_close db) = (db', 0) /\ contents sha3_512 db' s /\ serves sha3_512 db' s).
Proof.
  split.
  - destruct (empty_ok sha3_512) as (db & Hi & Hok). exists db. split; [done|]. by exists [], 1, [].
  - intros db s (segs & id & ts & Hok & ->).
    destruct (reopen_ok sha3_512 db segs id ts (qrxdb_close db) Hok) as (db' & Hi & Hok'); [apply close_data|done..|].
    exists db'. split; [done|]. assert (contents sha3_512 db' (live UINT64_MAX (seg_log (segs ++ [(id, ts)])))) as Hc
      by (by exists segs, id, ts). split; [done|]. by apply contents_serves.
Qed.

Lemma snapshot_reads (sha3_512 : bytes -> bytes) (db db' : QrxDB) (s : kvs) (key : bytes) :
  contents sha3_512 db s -> commits sha3_512 db db' ->
  vw_value <$> qrxdb_get_view_at db' (Some (qrxdb_read_txn_begin db)) key = s !! key.
Proof.
  intros (segs & id & ts & Hok & ->) Hc.
  destruct (commits_log sha3_512 db db' segs id ts Hok Hc) as (segs' & id' & ts' & l & Hok' & Hl).
  destruct (do_clean _ _ _ _ _ Hok) as [_ _ Ho _ _ _ _]. destruct (do_clean _ _ _ _ _ Hok') as [Cl _ Co _ _ _ Cs].
  rewrite Hl in *. rewrite (get_view_at_snapshot db' _ (seg_log (segs ++ [(id, ts)])) l).
  - cbn. f_equal. symmetry. apply live_all; [apply (do_gens _ _ _ _ _ Hok)|].
    pose proof (do_generation _ _ _ _ _ Hok). word.
  - split; [done|done|]. rewrite Co. lia.
  - done.
Qed.

(** C14: snapshot isolation.  A read transaction keeps answering for the
    contents at the time it was opened, whatever batches are committed after. *)
Theorem snapshot_isolation (sha3_512 : bytes -> bytes) (db db' : QrxDB) (s : kvs) (key : bytes) :
  contents sha3_512 db s -> commits sha3_512 db db' ->
  vw_value <$> qrxdb_get_view_at db' (Some (qrxdb_read_txn_begin db)) key = s !! key.
Proof. apply snapshot_reads. Qed.
