(* ===== verification/DbScenarios.v ===== *)
(** * QRXDB: concrete runs

    Executions of the model on small databases: witnesses for the theorems of
    [DbCommit], and three histories in which data is lost: a compaction
    followed by a write and a reopening, a crash after a recovery that left a
    torn record in the log, and a batch committed after another write. *)

From stdpp Require Import gmap sorting.
From S2P Require Import Prelude DbCodec DbStore DbLog DbView DbMerkle DbWal DbReplay DbCommit.

Definition ex_empty : Disk := {| dk_data := []; dk_size := 0; dk_wal := ∅ |}.
Definition ex_init (d : Disk) : QrxDB := (qrxdb_init example_sha d).1.
Definition ex_batch (db : QrxDB) (puts : list (bytes * bytes)) : QrxDBBatch :=
  default qrxdb_batch_abort (b0 ← qrxdb_batch_begin db; fill b0 puts).
Definition ex_commit (db : QrxDB) (puts : list (bytes * bytes)) : QrxDB :=
  (qrxdb_batch_commit example_sha db (ex_batch db puts)).1.
Definition ex_get (db : QrxDB) (key : bytes) : option bytes := vw_value <$> qrxdb_get_view db key.

Definition ex_db0 : QrxDB := ex_init ex_empty.
Definition ex_puts : list (bytes * bytes) := [(cs "a", cs "1"); (cs "b", cs "2")].

(** The files after [n] bytes of the record [r], behind the records [rs1]. *)
Definition ex_torn (db : QrxDB) (b : QrxDBBatch) (rs1 : list wal_args) (r : wal_args) (n : nat) : Disk :=
  let db' := foldl wal_write_one (prepare db b) rs1 in
  {| dk_data := map (prepare db b); dk_size := map_size db';
     dk_wal := torn (wal_dir db') (wal_segment_id db') (take n (args_bytes r)) |}.

Lemma ex_torn_crash db b rs1 r rs2 n :
  batch_wal_records b = rs1 ++ r :: rs2 -> Z.of_nat n < args_size r ->
  crash_disk db b (ex_torn db b rs1 r n) false.
Proof. intros. by apply (crash_in_log db b rs1 r rs2 n). Qed.

Ltac prove_batch_for :=
  split; [vm_compute; reflexivity|discriminate|repeat constructor; done|vm_compute; reflexivity
    |vm_compute; reflexivity|vm_compute; discriminate].

Lemma ex_db0_contents : contents example_sha ex_db0 ∅.
Proof.
  destruct (empty_ok example_sha) as (db & Hi & Hok). unfold ex_db0, ex_init, ex_empty. rewrite Hi.
  by exists [], 1, [].
Qed.

Example crash_recovery_witness :
  let b := ex_batch ex_db0 ex_puts in
  exists db', qrxdb_init example_sha (ex_torn ex_db0 b [] (QRXDB_WAL_BEGIN, 1, 112, [], []) 10) = (db', 0) /\
    serves example_sha db' ∅.
Proof.
  intros b. apply (crash_recovery example_sha ex_db0 ∅ ex_puts b _ false).
  - apply ex_db0_contents.
  - prove_batch_for.
  - vm_compute. discriminate.
  - apply (ex_torn_crash _ _ _ _ (tail (batch_wal_records b))); vm_compute; reflexivity.
Defined.

Example batch_commit_refines_witness :
  exists db', qrxdb_batch_commit example_sha ex_db0 (ex_batch ex_db0 ex_puts) = (db', 0) /\
    contents example_sha db' (apply_puts ∅ ex_puts) /\ serves example_sha db' (apply_puts ∅ ex_puts) /\
    generation db' = generation ex_db0 + 1.
Proof.
  assert (batch_for ex_db0 ex_puts (ex_batch ex_db0 ex_puts)) as Hb by prove_batch_for.
  pose proof (batch_commit_refines example_sha ex_db0 ∅ ex_puts _ ex_db0_contents Hb) as H.
  rewrite decide_False in H by (vm_compute; discriminate). exact H.
Defined.

Example snapshot_isolation_witness :
  vw_value <$> qrxdb_get_view_at (ex_commit ex_db0 ex_puts) (Some (qrxdb_read_txn_begin ex_db0)) (cs "a")
  = (∅ : kvs) !! cs "a".
Proof.
  apply (snapshot_isolation example_sha); [apply ex_db0_contents|].
  apply (commits_step _ _ ex_db0 _ ex_puts (ex_batch ex_db0 ex_puts)).
  - apply commits_refl.
  - prove_batch_for.
  - unfold ex_commit. vm_compute. reflexivity.
Defined.

(** ** Histories that lose data *)

Definition ex_db4 : QrxDB :=
  let db := ex_commit ex_db0 [(cs "alice", cs "100")] in
  let db := ex_commit db [(cs "bob", cs "7")] in
  let db := ex_commit db [(cs "alice", qrxdb_tombstone_value)] in
  ex_commit db [(cs "carol", cs "9")].
Definition ex_compacted : QrxDB := ex_commit (qrxdb_compact example_sha ex_empty ex_db4).1 [(cs "dave", cs "5")].

(** Compaction does not reset the write-ahead log, whose records carry
    offsets of the file before compaction.  After [qrxdb_compact], one more
    put and a reopening, which all succeed, a committed key is gone and a
    deleted key is back: the log is replayed over the compacted file. *)
Theorem compaction_then_reopen_loses_data :
  (qrxdb_compact example_sha ex_empty ex_db4).2 = 0 /\
  ex_get ex_compacted (cs "carol") = Some (cs "9") /\ ex_get ex_compacted (cs "alice") = None /\
  (qrxdb_init example_sha (qrxdb_close ex_compacted)).2 = 0 /\
  ex_get (ex_init (qrxdb_close ex_compacted)) (cs "carol") = None /\
  ex_get (ex_init (qrxdb_close ex_compacted)) (cs "alice") = Some (cs "100").
Proof. vm_compute. split_and!; reflexivity. Qed.

(** A database reopened after a crash in the middle of the BEGIN record of a
    batch, the same crash with its files, and a crash after the COMMIT of the
    next batch with only the first of its two records in the data file. *)
Definition ex_torn_disk : Disk :=
  ex_torn ex_db0 (ex_batch ex_db0 ex_puts) [] (QRXDB_WAL_BEGIN, 1, 112, [], []) 10.
Definition ex_reopened : QrxDB := ex_init ex_torn_disk.
Definition ex_half_disk : Disk :=
  let b := ex_batch ex_reopened ex_puts in
  let db := foldl wal_write_one (prepare ex_reopened b) (batch_wal_records b) in
  {| dk_data := wr (map (prepare ex_reopened b)) 112 (enc_rec (mkRec 1 (cs "a") (cs "1")));
     dk_size := map_size db; dk_wal := wal_dir db |}.

(** Recovery leaves a torn record at the end of the log, and new records
    are appended behind it, where replay does not read.  After such a recovery
    a crash with the COMMIT record on disk and half of the data written is
    reopened, successfully, with half of the batch. *)
Theorem torn_log_breaks_atomicity :
  contents example_sha ex_db0 ∅ /\
  crash_disk ex_db0 (ex_batch ex_db0 ex_puts) ex_torn_disk false /\
  qrxdb_init example_sha ex_torn_disk = (ex_reopened, 0) /\
  batch_for ex_reopened ex_puts (ex_batch ex_reopened ex_puts) /\
  crash_disk ex_reopened (ex_batch ex_reopened ex_puts) ex_half_disk true /\
  (qrxdb_init example_sha ex_half_disk).2 = 0 /\
  ex_get (ex_init ex_half_disk) (cs "a") = Some (cs "1") /\ ex_get (ex_init ex_half_disk) (cs "b") = None.
Proof.
  split_and!.
  - apply ex_db0_contents.
  - apply (ex_torn_crash _ _ _ _ (tail (batch_wal_records (ex_batch ex_db0 ex_puts)))); vm_compute; reflexivity.
  - vm_compute. reflexivity.
  - prove_batch_for.
  - apply crash_in_data. intros i Hi.
    assert (bt_start_offset (ex_batch ex_reopened ex_puts) = 112) as Hs by (vm_compute; reflexivity).
    assert (bt_planned_end_offset (ex_batch ex_reopened ex_puts) = 192) as He by (vm_compute; reflexivity).
    assert (blen (enc_rec (mkRec 1 (cs "a") (cs "1"))) = 40) as Hb by (vm_compute; reflexivity).
    rewrite peek_wr by lia. by rewrite decide_False by lia.
  - vm_compute. reflexivity.
  - vm_compute. reflexivity.
  - vm_compute. reflexivity.
Qed.

Definition ex_stale : QrxDB :=
  let b := ex_batch ex_db0 [(cs "x", cs "1")] in
  let db := (qrxdb_put example_sha ex_db0 (cs "k") (cs "2")).1 in
  (qrxdb_batch_commit example_sha db b).1.

(** A batch is not checked against writes made since [qrxdb_batch_begin].
    When a put succeeds in between, the commit of the batch succeeds too, by
    way of [qrxdb_recover], and the put is undone. *)
Theorem stale_batch_undoes_put :
  let b := ex_batch ex_db0 [(cs "x", cs "1")] in
  let db := (qrxdb_put example_sha ex_db0 (cs "k") (cs "2")).1 in
  (qrxdb_put example_sha ex_db0 (cs "k") (cs "2")).2 = 0 /\ ex_get db (cs "k") = Some (cs "2") /\
  (qrxdb_batch_commit example_sha db b).2 = 0 /\
  ex_get ex_stale (cs "x") = Some (cs "1") /\ ex_get ex_stale (cs "k") = None.
Proof. vm_compute. split_and!; reflexivity. Qed.
