(* ===== verification/AccessMap.v ===== *)
(** * The scheduler's hash table (src/qrx-core/src/mempool/qrx_velocity_scheduler.c)

    [AccessMap]: open addressing with linear probing, FNV-1a hashes and growth
    at 70% load.  [AccessTable] is what the scheduler asks of a table from keys
    to indices, with laws that say it is a finite map; the open-addressing
    table is one instance and [gmap] another. *)

From stdpp Require Import gmap.
From S2P Require Import Prelude.

(** ** The interface *)

Class AccessTable (T : Type) := {
  at_init : Z -> option T;
  at_clear : T -> T;
  at_lookup : T -> bytes -> option Z;
  at_set : T -> bytes -> Z -> option T
}.

(** [at_model t s]: the table [t] holds the map [s].  Tables hold fewer than
    [2^56] keys; the empty key is refused. *)
Class AccessTableLaws (T : Type) `{!AccessTable T} := {
  at_model : T -> gmap bytes Z -> Prop;
  at_init_model n : 0 <= n < 2 ^ 56 -> exists t, at_init n = Some t /\ at_model t ∅;
  at_clear_model t s : at_model t s -> at_model (at_clear t) ∅;
  at_lookup_model t s k : at_model t s -> k <> [] -> at_lookup t k = s !! k;
  at_lookup_empty t s : at_model t s -> at_lookup t [] = None;
  at_set_model t s k v : at_model t s -> k <> [] -> Z.of_nat (size s) < 2 ^ 56 ->
    exists t', at_set t k v = Some t' /\ at_model t' (<[k := v]> s);
  at_set_empty t v : at_set t [] v = None
}.

(** ** The table *)

Record AccessSlot := mkSlot { as_key : bytes; as_last : Z; as_used : bool }.
Record AccessMap := mkAMap { am_slots : list AccessSlot; am_cap : Z; am_used : Z }.

Definition empty_slot : AccessSlot := {| as_key := []; as_last := 0; as_used := false |}.

Definition sched_hash64 (s : bytes) : Z :=
  fold_left (fun h b => Z.lxor h (byte.unsigned b) *64 1099511628211) s 1469598103934665603.

(** [while (p < n && p <= (SIZE_MAX >> 1)) p <<= 1;] *)
Fixpoint pow2_loop (fuel : nat) (p n : Z) : Z :=
  match fuel with
  | O => p
  | S fuel => if decide (p < n /\ p <= Z.shiftr SIZE_MAX 1) then pow2_loop fuel (u64 (Z.shiftl p 1)) n else p
  end.
Definition pow2_ge (n : Z) : Z := pow2_loop 64 16 n.

Definition amap_init (expected : Z) : AccessMap :=
  let want := if decide (expected > SIZE_MAX / 4) then SIZE_MAX else expected *64 4 in
  let cap := pow2_ge (if decide (want < 16) then 16 else want) in
  {| am_slots := replicate (Z.to_nat cap) empty_slot; am_cap := cap; am_used := 0 |}.

Definition amap_clear (m : AccessMap) : AccessMap :=
  {| am_slots := (fun _ => empty_slot) <$> am_slots m; am_cap := am_cap m; am_used := 0 |}.

Definition slot_at (slots : list AccessSlot) (pos : Z) : AccessSlot :=
  default empty_slot (slots !! Z.to_nat pos).

Definition first_pos (key : bytes) (cap : Z) : Z := Z.land (sched_hash64 key) (cap -64 1).
Definition next_pos (pos cap : Z) : Z := Z.land (pos +64 1) (cap -64 1).

(** The probing loop of [amap_lookup] and [amap_set]: the first slot from [pos]
    on that is free or holds [key]; [None] after [fuel] turns, where the one
    loop gives up ([pos == start] after [cap] turns) and the other would not
    end. *)
Fixpoint amap_probe (fuel : nat) (slots : list AccessSlot) (cap : Z) (key : bytes) (pos : Z) : option Z :=
  match fuel with
  | O => None
  | S fuel =>
    if as_used (slot_at slots pos) then
      if decide (as_key (slot_at slots pos) = key) then Some pos
      else amap_probe fuel slots cap key (next_pos pos cap)
    else Some pos
  end.

(** The probing loop of [amap_rehash], which does not compare keys. *)
Fixpoint free_probe (fuel : nat) (slots : list AccessSlot) (cap pos : Z) : option Z :=
  match fuel with
  | O => None
  | S fuel => if as_used (slot_at slots pos) then free_probe fuel slots cap (next_pos pos cap) else Some pos
  end.

Definition amap_lookup (m : AccessMap) (key : bytes) : option Z :=
  if decide (key = []) then None else
  match amap_probe (Z.to_nat (am_cap m)) (am_slots m) (am_cap m) key (first_pos key (am_cap m)) with
  | Some pos => if as_used (slot_at (am_slots m) pos) then Some (as_last (slot_at (am_slots m) pos)) else None
  | None => None
  end.

(** One turn of the loop of [amap_rehash]; [None] where it would not end. *)
Definition rehash_slot (new_cap : Z) (acc : option AccessMap) (old : AccessSlot) : option AccessMap :=
  m ← acc;
  if as_used old then
    pos ← free_probe (Z.to_nat new_cap) (am_slots m) new_cap (first_pos (as_key old) new_cap);
    Some {| am_slots := <[Z.to_nat pos := old]> (am_slots m); am_cap := new_cap; am_used := am_used m +64 1 |}
  else Some m.

Definition amap_rehash (m : AccessMap) (new_cap : Z) : option AccessMap :=
  foldl (rehash_slot new_cap)
    (Some {| am_slots := replicate (Z.to_nat new_cap) empty_slot; am_cap := new_cap; am_used := 0 |})
    (am_slots m).

Definition amap_set (m : AccessMap) (key : bytes) (last : Z) : option AccessMap :=
  if decide (key = []) then None else
  m ← (if decide ((am_used m +64 1) *64 10 >= am_cap m *64 7) then
         if decide (am_cap m > Z.shiftr SIZE_MAX 1) then None
         else amap_rehash m (u64 (Z.shiftl (am_cap m) 1))
       else Some m);
  pos ← amap_probe (Z.to_nat (am_cap m)) (am_slots m) (am_cap m) key (first_pos key (am_cap m));
  let s := slot_at (am_slots m) pos in
  if as_used s then
    Some {| am_slots := <[Z.to_nat pos := {| as_key := as_key s; as_last := last; as_used := true |}]> (am_slots m);
            am_cap := am_cap m; am_used := am_used m |}
  else
    Some {| am_slots := <[Z.to_nat pos := {| as_key := key; as_last := last; as_used := true |}]> (am_slots m);
            am_cap := am_cap m; am_used := am_used m +64 1 |}.

#[export] Instance amap_table : AccessTable AccessMap := {
  at_init n := Some (amap_init n);
  at_clear := amap_clear;
  at_lookup := amap_lookup;
  at_set := amap_set
}.

(** The reference table. *)
#[export] Instance gmap_table : AccessTable (gmap bytes Z) := {
  at_init _ := Some ∅;
  at_clear _ := ∅;
  at_lookup s k := if decide (k = []) then None else s !! k;
  at_set s k v := if decide (k = []) then None else Some (<[k := v]> s)
}.

#[export] Program Instance gmap_table_laws : AccessTableLaws (gmap bytes Z) := {
  at_model t s := t = s
}.
Next Obligation. intros n _. by exists ∅. Qed.
Next Obligation. done. Qed.
Next Obligation. intros t s k -> Hk. cbn. by rewrite decide_False. Qed.
Next Obligation. done. Qed.
Next Obligation. intros t s k v -> Hk _. exists (<[k := v]> s). cbn. by rewrite decide_False. Qed.
Next Obligation. done. Qed.

(** ** Probing *)

Definition home (key : bytes) (cap : Z) : Z := sched_hash64 key mod cap.
Definition at_dist (key : bytes) (cap d : Z) : Z := (home key cap + d) mod cap.

Definition pow2_cap (cap : Z) : Prop := exists j, 4 <= j <= 60 /\ cap = 2 ^ j.

Lemma pow2_cap_bounds cap : pow2_cap cap -> 16 <= cap <= 2 ^ 60.
Proof.
  intros (j & Hj & ->). split; [change 16 with (2 ^ 4)|]; apply Z.pow_le_mono_r; lia.
Qed.

Lemma mask_mod cap x : pow2_cap cap -> 0 <= x -> Z.land x (cap -64 1) = x mod cap.
Proof.
  intros Hc Hx. pose proof (pow2_cap_bounds cap Hc). rewrite u64_small by word.
  destruct Hc as (j & Hj & ->). rewrite <- Z.land_ones by lia. f_equal. rewrite Z.ones_equiv. lia.
Qed.

Lemma sched_hash64_range s : in_u64 (sched_hash64 s).
Proof.
  unfold sched_hash64. assert (in_u64 1469598103934665603) as H by word. revert H.
  generalize 1469598103934665603. induction s as [|b s IH]; intros h H; [done|].
  cbn [fold_left]. apply IH. apply u64_range.
Qed.

Lemma first_pos_eq key cap : pow2_cap cap -> first_pos key cap = at_dist key cap 0.
Proof.
  intros Hc. unfold first_pos, at_dist, home. pose proof (pow2_cap_bounds cap Hc).
  pose proof (sched_hash64_range key). rewrite mask_mod by (done || word).
  by rewrite Z.add_0_r, Z.mod_mod by lia.
Qed.

Lemma at_dist_range key cap d : 0 < cap -> 0 <= at_dist key cap d < cap.
Proof. intros. apply Z.mod_pos_bound. lia. Qed.

Lemma next_pos_eq key cap d : pow2_cap cap -> next_pos (at_dist key cap d) cap = at_dist key cap (d + 1).
Proof.
  intros Hc. pose proof (pow2_cap_bounds cap Hc). pose proof (at_dist_range key cap d ltac:(lia)).
  unfold next_pos. rewrite u64_small by word. rewrite mask_mod by (done || lia).
  unfold at_dist. rewrite Zplus_mod_idemp_l. f_equal. lia.
Qed.

(** Every position is on the way. *)
Lemma at_dist_surj key cap p : 0 < cap -> 0 <= p < cap -> exists d, 0 <= d < cap /\ at_dist key cap d = p.
Proof.
  intros Hc Hp. exists ((p - home key cap) mod cap). split; [by apply Z.mod_pos_bound|].
  unfold at_dist. rewrite Zplus_mod_idemp_r. replace (home key cap + (p - home key cap)) with p by lia.
  by apply Z.mod_small.
Qed.

Section probe.
Context (slots : list AccessSlot) (cap : Z) (Hcap : pow2_cap cap).
Context (Hfree : exists p, 0 <= p < cap /\ as_used (slot_at slots p) = false).

(** The slots before distance [d] are used by other keys. *)
Definition passed (key : bytes) (d : Z) : Prop :=
  forall e, 0 <= e < d -> as_used (slot_at slots (at_dist key cap e)) = true /\
    as_key (slot_at slots (at_dist key cap e)) <> key.

Lemma free_within key d :
  0 <= d -> (forall e, 0 <= e < d -> as_used (slot_at slots (at_dist key cap e)) = true) -> d < cap.
Proof.
  intros Hd Hp. destruct Hfree as (p & Hp0 & Hf). pose proof (pow2_cap_bounds cap Hcap).
  destruct (at_dist_surj key cap p) as (e & He & <-); [lia|done|].
  destruct (decide (d < cap)) as [|Hge]; [done|]. rewrite Hp in Hf by lia. done.
Qed.

Lemma amap_probe_spec key :
  exists d, 0 <= d < cap /\ passed key d /\
    amap_probe (Z.to_nat cap) slots cap key (first_pos key cap) = Some (at_dist key cap d) /\
    (as_used (slot_at slots (at_dist key cap d)) = true -> as_key (slot_at slots (at_dist key cap d)) = key).
Proof.
  rewrite first_pos_eq by done. pose proof (pow2_cap_bounds cap Hcap).
  assert (forall f d, 0 <= d -> Z.of_nat f + d = cap -> passed key d ->
    exists d', 0 <= d' < cap /\ passed key d' /\
      amap_probe f slots cap key (at_dist key cap d) = Some (at_dist key cap d') /\
      (as_used (slot_at slots (at_dist key cap d')) = true -> as_key (slot_at slots (at_dist key cap d')) = key)) as Hgen.
  { induction f as [|f IH]; intros d Hd Hf Hp.
    { exfalso. enough (d < cap) by lia. apply (free_within key d Hd). intros e He. by apply Hp. }
    cbn [amap_probe]. destruct (as_used _) eqn:Hu.
    2:{ exists d. split_and!; [done|lia|done|done|congruence]. }
    case_decide as Hk; [exists d; split_and!; done || lia|].
    rewrite next_pos_eq by done. apply IH; [lia|lia|]. intros e He.
    destruct (decide (e = d)) as [->|]; [done|]. apply Hp. lia. }
  apply Hgen; [done|lia|]. intros e He. lia.
Qed.

Lemma free_probe_spec key :
  exists d, 0 <= d < cap /\ (forall e, 0 <= e < d -> as_used (slot_at slots (at_dist key cap e)) = true) /\
    free_probe (Z.to_nat cap) slots cap (first_pos key cap) = Some (at_dist key cap d) /\
    as_used (slot_at slots (at_dist key cap d)) = false.
Proof.
  rewrite first_pos_eq by done. pose proof (pow2_cap_bounds cap Hcap).
  assert (forall f d, 0 <= d -> Z.of_nat f + d = cap ->
    (forall e, 0 <= e < d -> as_used (slot_at slots (at_dist key cap e)) = true) ->
    exists d', 0 <= d' < cap /\ (forall e, 0 <= e < d' -> as_used (slot_at slots (at_dist key cap e)) = true) /\
      free_probe f slots cap (at_dist key cap d) = Some (at_dist key cap d') /\
      as_used (slot_at slots (at_dist key cap d')) = false) as Hgen.
  { induction f as [|f IH]; intros d Hd Hf Hp.
    { exfalso. enough (d < cap) by lia. by apply (free_within key d Hd). }
    cbn [free_probe]. destruct (as_used _) eqn:Hu.
    2:{ exists d. split_and!; done || lia. }
    rewrite next_pos_eq by done. apply IH; [lia|lia|]. intros e He.
    destruct (decide (e = d)) as [->|]; [done|]. apply Hp. lia. }
  apply Hgen; [done|lia|]. intros e He. lia.
Qed.
End probe.

(** ** Entries of a table *)

Definition is_used (s : AccessSlot) : Prop := as_used s = true.
#[export] Instance is_used_dec s : Decision (is_used s).
Proof. unfold is_used. apply _. Defined.

Definition slot_kv (s : AccessSlot) : bytes * Z := (as_key s, as_last s).
Definition entries (slots : list AccessSlot) : list (bytes * Z) := slot_kv <$> filter is_used slots.

#[export] Instance entries_perm : Proper ((≡ₚ) ==> (≡ₚ)) entries.
Proof. intros l1 l2 H. unfold entries. by rewrite H. Qed.

Lemma entries_cons x l : entries (x :: l) = if as_used x then slot_kv x :: entries l else entries l.
Proof.
  unfold entries. rewrite filter_cons. case_decide as H; unfold is_used in H; [by rewrite H|].
  by destruct (as_used x).
Qed.

Lemma insert_perm (l : list AccessSlot) i x y :
  l !! i = Some x -> exists r, l ≡ₚ x :: r /\ <[i := y]> l ≡ₚ y :: r.
Proof.
  intros H. exists (delete i l). split; [by apply delete_Permutation|].
  rewrite (delete_Permutation (<[i := y]> l) i y).
  - f_equiv. by rewrite !delete_take_drop, take_insert_ge, drop_insert_lt by lia.
  - apply list_lookup_insert_eq. by eapply lookup_lt_Some.
Qed.

Lemma slot_at_lookup slots cap p :
  Z.of_nat (length slots) = cap -> 0 <= p < cap -> slots !! Z.to_nat p = Some (slot_at slots p).
Proof.
  intros Hl Hp. unfold slot_at. destruct (slots !! Z.to_nat p) eqn:E; [done|].
  apply lookup_ge_None in E. lia.
Qed.

Lemma slot_at_insert slots cap p q x :
  Z.of_nat (length slots) = cap -> 0 <= p < cap -> 0 <= q < cap ->
  slot_at (<[Z.to_nat p := x]> slots) q = if decide (p = q) then x else slot_at slots q.
Proof.
  intros Hl Hp Hq. unfold slot_at. case_decide as Hd.
  - subst q. by rewrite list_lookup_insert_eq by lia.
  - by rewrite list_lookup_insert_ne by lia.
Qed.

Record table (slots : list AccessSlot) (cap : Z) : Prop := {
  tb_cap : pow2_cap cap;
  tb_length : Z.of_nat (length slots) = cap;
  tb_nonempty : Forall (fun kv => kv.1 <> []) (entries slots);
  tb_probe : forall p, 0 <= p < cap -> as_used (slot_at slots p) = true ->
    exists d, 0 <= d < cap /\ at_dist (as_key (slot_at slots p)) cap d = p /\
      passed slots cap (as_key (slot_at slots p)) d
}.

Lemma table_elem slots cap p :
  table slots cap -> 0 <= p < cap -> as_used (slot_at slots p) = true ->
  slot_kv (slot_at slots p) ∈ entries slots.
Proof.
  intros Ht Hp Hu. apply list_elem_of_fmap_2, list_elem_of_filter. split; [done|].
  eapply list_elem_of_lookup_2. by apply (slot_at_lookup slots cap); [apply Ht|].
Qed.

Lemma table_elem_inv slots cap k v :
  table slots cap -> (k, v) ∈ entries slots ->
  exists p, 0 <= p < cap /\ as_used (slot_at slots p) = true /\ as_key (slot_at slots p) = k.
Proof.
  intros Ht Hin. apply list_elem_of_fmap in Hin as ([k' v' u'] & He & Hin). unfold slot_kv in He. cbn in He.
  injection He as <- <-. apply list_elem_of_filter in Hin as [Hu Hin].
  apply list_elem_of_lookup in Hin as [i Hi]. pose proof (lookup_lt_Some _ _ _ Hi). pose proof (tb_length _ _ Ht).
  exists (Z.of_nat i). assert (slot_at slots (Z.of_nat i) = mkSlot k v u') as ->
    by (unfold slot_at; by rewrite Nat2Z.id, Hi). split_and!; try done; lia.
Qed.

(** A key is in at most one slot. *)
Lemma table_unique slots cap p q :
  table slots cap -> 0 <= p < cap -> 0 <= q < cap -> as_used (slot_at slots p) = true ->
  as_used (slot_at slots q) = true -> as_key (slot_at slots p) = as_key (slot_at slots q) -> p = q.
Proof.
  intros Ht Hp Hq Up Uq Hk. destruct (tb_probe _ _ Ht p Hp Up) as (d & Hd & Ed & Pd).
  destruct (tb_probe _ _ Ht q Hq Uq) as (e & He & Ee & Pe). rewrite <- Hk in Ee, Pe.
  destruct (Ztrichotomy d e) as [Hlt|[->|Hgt]]; [|congruence|].
  - destruct (Pe d) as [_ Hn]; [lia|]. rewrite Ed in Hn. done.
  - destruct (Pd e) as [_ Hn]; [lia|]. rewrite Ee in Hn. congruence.
Qed.

Lemma table_nodup slots cap : table slots cap -> NoDup (entries slots).*1.
Proof.
  intros Ht. unfold entries. rewrite <- list_fmap_compose.
  assert (forall l, (forall i j x y, l !! i = Some x -> l !! j = Some y -> as_used x = true -> as_used y = true ->
    as_key x = as_key y -> i = j) -> NoDup ((fst ∘ slot_kv) <$> filter is_used l)) as Hgen.
  { induction l as [|x l IH]; intros H; [constructor|]. rewrite filter_cons.
    assert (NoDup ((fst ∘ slot_kv) <$> filter is_used l)) as Hl.
    { apply IH. intros i j a b Hi Hj Ua Ub Hab. assert (S i = S j) by (eapply H; eauto). lia. }
    case_decide as Hu; [|done]. rewrite fmap_cons. constructor; [|done].
    intros Hin. apply list_elem_of_fmap in Hin as (y & Hy & Hin). apply list_elem_of_filter in Hin as [Hu' Hin].
    apply list_elem_of_lookup in Hin as [i Hi]. assert (0 = S i)%nat; [|done].
    by eapply (H 0%nat (S i) x y). }
  apply Hgen. intros i j x y Hi Hj Ux Uy Hxy. pose proof (lookup_lt_Some _ _ _ Hi). pose proof (lookup_lt_Some _ _ _ Hj).
  pose proof (tb_length _ _ Ht).
  assert (forall i x, slots !! i = Some x -> slot_at slots (Z.of_nat i) = x) as Hs
    by (intros ? ? E; unfold slot_at; by rewrite Nat2Z.id, E).
  enough (Z.of_nat i = Z.of_nat j) by lia.
  apply (table_unique slots cap); try done; try lia; rewrite ?(Hs _ _ Hi), ?(Hs _ _ Hj); done.
Qed.

(** An unfilled table has a free slot. *)
Lemma table_free slots cap :
  Z.of_nat (length slots) = cap -> Z.of_nat (length (entries slots)) < cap ->
  exists p, 0 <= p < cap /\ as_used (slot_at slots p) = false.
Proof.
  intros Hl He. unfold entries in He. rewrite length_fmap in He.
  assert (exists i x, slots !! i = Some x /\ as_used x = false) as (i & x & Hi & Hx).
  { destruct (decide (Forall is_used slots)) as [Hall|Hn].
    - exfalso. enough (length (filter is_used slots) = length slots) by lia.
      clear He Hl. induction Hall as [|x l Hx _ IH]; [done|]. rewrite filter_cons, decide_True by done. cbn. lia.
    - apply not_Forall_Exists in Hn; [|apply _]. apply Exists_exists in Hn as (x & Hin & Hx).
      apply list_elem_of_lookup in Hin as [i Hi]. exists i, x. split; [done|].
      unfold is_used, compose in Hx. destruct (as_used x); [by destruct Hx|done]. }
  exists (Z.of_nat i). pose proof (lookup_lt_Some _ _ _ Hi). split; [lia|]. unfold slot_at. by rewrite Nat2Z.id, Hi.
Qed.

(** ** The operations *)

(** The table after a key is put in the free slot where its probe ended. *)
Lemma table_insert slots cap key last d :
  table slots cap -> key <> [] -> 0 <= d < cap -> passed slots cap key d ->
  as_used (slot_at slots (at_dist key cap d)) = false ->
  let slots' := <[Z.to_nat (at_dist key cap d) := {| as_key := key; as_last := last; as_used := true |}]> slots in
  table slots' cap /\ entries slots' ≡ₚ (key, last) :: entries slots.
Proof.
  intros Ht Hk Hd Hp Hu slots'. pose proof (tb_length _ _ Ht) as Hl.
  pose proof (pow2_cap_bounds cap (tb_cap _ _ Ht)).
  pose proof (at_dist_range key cap d ltac:(lia)) as Hr. set (p := at_dist key cap d) in *.
  assert (entries slots' ≡ₚ (key, last) :: entries slots) as Hperm.
  { destruct (insert_perm slots (Z.to_nat p) (slot_at slots p)
      {| as_key := key; as_last := last; as_used := true |}) as (r & H1 & H2);
      [by apply (slot_at_lookup slots cap)|].
    unfold slots'. rewrite H2, (entries_perm _ _ H1), !entries_cons, Hu. done. }
  split; [|done]. split.
  - apply Ht.
  - unfold slots'. by rewrite length_insert.
  - rewrite Hperm. constructor; [done|apply Ht].
  - intros q Hq. unfold slots'. rewrite (slot_at_insert slots cap) by done. case_decide as Hpq.
    + subst q. intros _. cbn [as_key]. exists d. split_and!; try done; try lia.
      intros e He. pose proof (at_dist_range key cap e ltac:(lia)).
      rewrite (slot_at_insert slots cap) by done. destruct (Hp e He) as [U K].
      rewrite decide_False; [done|]. intros Heq. rewrite <- Heq in U. congruence.
    + intros Uq. destruct (tb_probe _ _ Ht q Hq Uq) as (e & He & Ee & Pe). exists e. split_and!; try done; try lia.
      intros f Hf. pose proof (at_dist_range (as_key (slot_at slots q)) cap f ltac:(lia)).
      rewrite (slot_at_insert slots cap) by done. destruct (Pe f Hf) as [U K].
      rewrite decide_False; [done|]. intros Heq. rewrite <- Heq in U. congruence.
Qed.

(** The table after the value of a key is replaced. *)
Lemma table_replace slots cap p last :
  table slots cap -> 0 <= p < cap -> as_used (slot_at slots p) = true ->
  let slots' := <[Z.to_nat p := {| as_key := as_key (slot_at slots p); as_last := last; as_used := true |}]> slots in
  table slots' cap /\ exists r, entries slots ≡ₚ slot_kv (slot_at slots p) :: r /\
    entries slots' ≡ₚ (as_key (slot_at slots p), last) :: r.
Proof.
  intros Ht Hp Hu slots'. pose proof (tb_length _ _ Ht) as Hl.
  pose proof (pow2_cap_bounds cap (tb_cap _ _ Ht)).
  assert (exists r, entries slots ≡ₚ slot_kv (slot_at slots p) :: r /\
    entries slots' ≡ₚ (as_key (slot_at slots p), last) :: r) as (r & E1 & E2).
  { destruct (insert_perm slots (Z.to_nat p) (slot_at slots p)
      {| as_key := as_key (slot_at slots p); as_last := last; as_used := true |}) as (r & H1 & H2);
      [by apply (slot_at_lookup slots cap)|].
    exists (entries r). unfold slots'. rewrite H2, entries_cons. split; [|done].
    rewrite (entries_perm _ _ H1). by rewrite entries_cons, Hu. }
  split; [|by exists r].
  assert (forall q, 0 <= q < cap -> as_used (slot_at slots' q) = as_used (slot_at slots q) /\
    as_key (slot_at slots' q) = as_key (slot_at slots q)) as Hsame.
  { intros q Hq. unfold slots'. rewrite (slot_at_insert slots cap) by done. case_decide; [by subst q|done]. }
  split.
  - apply Ht.
  - unfold slots'. by rewrite length_insert.
  - pose proof (tb_nonempty _ _ Ht) as Hn. rewrite E1 in Hn. rewrite E2. inversion_clear Hn. by constructor.
  - intros q Hq. destruct (Hsame q Hq) as [-> ->]. intros Uq.
    destruct (tb_probe _ _ Ht q Hq Uq) as (e & He & Ee & Pe). exists e. split_and!; try done; try lia.
    intros f Hf. destruct (Hsame (at_dist (as_key (slot_at slots q)) cap f)) as [-> ->]; [apply at_dist_range; lia|].
    by apply Pe.
Qed.

Lemma table_empty cap : pow2_cap cap -> table (replicate (Z.to_nat cap) empty_slot) cap /\
  entries (replicate (Z.to_nat cap) empty_slot) = [].
Proof.
  intros Hc. pose proof (pow2_cap_bounds cap Hc).
  assert (entries (replicate (Z.to_nat cap) empty_slot) = []) as He.
  { generalize (Z.to_nat cap). induction n as [|n IH]; [done|]. cbn [replicate]. by rewrite entries_cons. }
  split; [|done]. split; [done|rewrite length_replicate; lia|by rewrite He|].
  intros p Hp. unfold slot_at. rewrite lookup_replicate_2 by lia. done.
Qed.

(** Looking a key up in a table. *)
Lemma table_lookup slots cap used key :
  table slots cap -> Z.of_nat (length (entries slots)) < cap -> key <> [] ->
  amap_lookup {| am_slots := slots; am_cap := cap; am_used := used |} key
  = (list_to_map (entries slots) : gmap bytes Z) !! key.
Proof.
  intros Ht Hc Hk. unfold amap_lookup. rewrite decide_False by done. cbn [am_slots am_cap].
  pose proof (table_free slots cap (tb_length _ _ Ht) Hc) as Hfree.
  destruct (amap_probe_spec slots cap (tb_cap _ _ Ht) Hfree key) as (d & Hd & Hp & -> & Hm).
  pose proof (at_dist_range key cap d ltac:(lia)) as Hr. destruct (as_used _) eqn:Hu; symmetry.
  - apply elem_of_list_to_map_1; [by eapply table_nodup|]. rewrite <- (Hm eq_refl) at 1.
    exact (table_elem slots cap _ Ht Hr Hu).
  - apply not_elem_of_list_to_map_1. intros Hin. apply list_elem_of_fmap in Hin as ([k v] & -> & Hin).
    cbn [fst] in *. destruct (table_elem_inv slots cap k v Ht Hin) as (q & Hq & Uq & Kq).
    destruct (tb_probe _ _ Ht q Hq Uq) as (e & He & Ee & Pe). rewrite Kq in Ee, Pe.
    destruct (Ztrichotomy d e) as [Hlt|[->|Hgt]].
    + destruct (Pe d) as [U _]; [lia|]. congruence.
    + congruence.
    + destruct (Hp e) as [_ Hn]; [lia|]. rewrite Ee in Hn. congruence.
Qed.

(** Growing: the entries move to a table of twice the size. *)
Lemma rehash_spec slots cap new_cap used :
  table slots cap -> pow2_cap new_cap -> Z.of_nat (length (entries slots)) < new_cap ->
  exists m, amap_rehash {| am_slots := slots; am_cap := cap; am_used := used |} new_cap = Some m /\
    am_cap m = new_cap /\ am_used m = Z.of_nat (length (entries slots)) /\
    table (am_slots m) new_cap /\ entries (am_slots m) ≡ₚ entries slots.
Proof.
  intros Ht Hc Hlen. unfold amap_rehash. cbn [am_slots]. destruct (table_empty new_cap Hc) as [T0 E0].
  pose proof (pow2_cap_bounds new_cap Hc).
  pose proof (table_nodup _ _ Ht) as Hnd. pose proof (tb_nonempty _ _ Ht) as Hne. clear Ht.
  set (m0 := {| am_slots := replicate _ _; am_cap := new_cap; am_used := 0 |}).
  assert (forall l m, table (am_slots m) new_cap -> am_cap m = new_cap ->
    am_used m = Z.of_nat (length (entries (am_slots m))) ->
    NoDup (entries (am_slots m) ++ entries l).*1 -> Forall (fun kv => kv.1 <> []) (entries l) ->
    Z.of_nat (length (entries (am_slots m) ++ entries l)) < new_cap ->
    exists m', foldl (rehash_slot new_cap) (Some m) l = Some m' /\ am_cap m' = new_cap /\
      am_used m' = Z.of_nat (length (entries (am_slots m'))) /\ table (am_slots m') new_cap /\
      entries (am_slots m') ≡ₚ entries (am_slots m) ++ entries l) as Hgen.
  { induction l as [|x l IH]; intros m Tm Cm Um Nm Em Lm.
    { exists m. rewrite app_nil_r. by split_and!. }
    cbn [foldl]. unfold rehash_slot at 2. cbn [mbind option_bind]. rewrite entries_cons in *.
    destruct x as [kx vx [|]]; cbn [as_used as_key as_last slot_kv] in *; [|by apply IH].
    rewrite length_app in Lm. cbn [length] in Lm.
    assert (exists p, 0 <= p < new_cap /\ as_used (slot_at (am_slots m) p) = false) as Hfree
      by (apply table_free; [apply Tm|lia]).
    destruct (free_probe_spec (am_slots m) new_cap Hc Hfree kx) as (d & Hd & Hp & -> & Hu).
    cbn [mbind option_bind]. inversion_clear Em as [|? ? Hk Em'].
    assert (passed (am_slots m) new_cap kx d) as Hpass.
    { intros e He. split; [by apply Hp|]. intros Hkey. pose proof (at_dist_range kx new_cap e ltac:(lia)) as Hr.
      pose proof (table_elem _ _ _ Tm Hr (Hp e He)) as Hin. rewrite fmap_app, NoDup_app in Nm.
      destruct Nm as (_ & Nm & _). apply (Nm kx); [|cbn; by left].
      apply (list_elem_of_fmap_2 fst) in Hin. cbn in Hin. by rewrite Hkey in Hin. }
    destruct (table_insert (am_slots m) new_cap kx vx d) as [T' P']; [done..|].
    change (slot_kv (mkSlot kx vx true)) with (kx, vx) in *.
    set (sl := <[Z.to_nat (at_dist kx new_cap d) := _]> (am_slots m)) in *.
    destruct (IH {| am_slots := sl; am_cap := new_cap; am_used := am_used m +64 1 |}) as (m' & Hf & C' & U' & Tm' & P'');
      cbn [am_slots am_cap am_used]; [exact T'|done|..].
    - rewrite P'. cbn [length]. rewrite Um. rewrite u64_small by word. lia.
    - rewrite P'. cbn [app]. rewrite Permutation_middle. exact Nm.
    - done.
    - rewrite P'. rewrite length_app. cbn [length]. lia.
    - exists m'. split_and!; try done. rewrite P''. cbn [am_slots]. rewrite P'. cbn [app].
      rewrite Permutation_middle. done. }
  assert (entries (am_slots m0) = []) as E0' by exact E0.
  destruct (Hgen slots m0) as (m' & Hf & C' & U' & Tm' & P''); rewrite ?E0'; try done.
  exists m'. rewrite P'' in U'. rewrite E0' in *. by split_and!.
Qed.

(** ** The table is a finite map *)

Record amap_model (m : AccessMap) (s : gmap bytes Z) : Prop := {
  mm_table : table (am_slots m) (am_cap m);
  mm_used : am_used m = Z.of_nat (length (entries (am_slots m)));
  mm_load : am_used m * 10 <= am_cap m * 7;
  mm_cap : am_cap m <= 2 ^ 59;
  mm_map : s = list_to_map (entries (am_slots m))
}.

Lemma amap_model_size m s : amap_model m s -> am_used m = Z.of_nat (size s).
Proof.
  intros [Ht Hu _ _ ->]. rewrite Hu. f_equal. rewrite <- length_map_to_list.
  rewrite map_to_list_to_map by by eapply table_nodup. done.
Qed.

Lemma pow2_loop_spec fuel p n :
  pow2_cap p -> n <= 2 ^ 59 -> p <= Z.max 16 (2 * n) -> n <= p * 2 ^ Z.of_nat fuel ->
  let r := pow2_loop fuel p n in pow2_cap r /\ r <= Z.max 16 (2 * n) /\ n <= r.
Proof.
  revert p. induction fuel as [|fuel IH]; intros p Hp Hn Hm Hf; cbn [pow2_loop].
  { split_and!; try done. cbn in Hf. lia. }
  pose proof (pow2_cap_bounds p Hp).
  case_decide as Hd.
  - assert (u64 (Z.shiftl p 1) = 2 * p) as ->.
    { rewrite Z.shiftl_mul_pow2 by lia. rewrite u64_small by word. lia. }
    apply IH; [|done|lia|rewrite Nat2Z.inj_succ, Z.pow_succ_r in Hf by lia; lia].
    destruct Hp as (j & Hj & ->). exists (j + 1). split.
    + assert (2 ^ j < 2 ^ 59) by lia. apply Z.pow_lt_mono_r_iff in H0; lia.
    + rewrite Z.pow_add_r by lia. lia.
  - split_and!; try done. change (Z.shiftr SIZE_MAX 1) with (2 ^ 63 - 1) in Hd. lia.
Qed.

Lemma amap_init_model n : 0 <= n < 2 ^ 56 -> amap_model (amap_init n) ∅.
Proof.
  intros Hn. unfold amap_init.
  assert (~ n > SIZE_MAX / 4) as Hbig by (change (SIZE_MAX / 4) with (2 ^ 62 - 1); lia).
  rewrite (decide_False _ _ Hbig).
  rewrite u64_small by word.
  set (w := if decide (n * 4 < 16) then 16 else n * 4).
  assert (16 <= w <= 2 ^ 58) as Hw by (unfold w; case_decide; lia).
  destruct (pow2_loop_spec 64 16 w) as (Hp & Hle & Hge).
  - exists 4. split; [lia|done].
  - lia.
  - lia.
  - change (2 ^ Z.of_nat 64) with (2 ^ 64). lia.
  - fold (pow2_ge w) in *. destruct (table_empty (pow2_ge w) Hp) as [Ht He].
    split; cbn [am_slots am_cap am_used]; rewrite ?He; try done; [|lia].
    pose proof (pow2_cap_bounds _ Hp). lia.
Qed.

Lemma amap_clear_model m s : amap_model m s -> amap_model (amap_clear m) ∅.
Proof.
  intros [Ht Hu Hl Hc _]. pose proof (tb_length _ _ Ht) as Hlen.
  assert ((fun _ => empty_slot) <$> am_slots m = replicate (Z.to_nat (am_cap m)) empty_slot) as He.
  { rewrite <- Hlen, Nat2Z.id. clear. induction (am_slots m) as [|x l IH]; [done|]. cbn. by f_equal. }
  destruct (table_empty (am_cap m) (tb_cap _ _ Ht)) as [T0 E0]. pose proof (pow2_cap_bounds _ (tb_cap _ _ Ht)).
  unfold amap_clear. rewrite He. split; cbn [am_slots am_cap am_used]; rewrite ?E0; try done. lia.
Qed.

Lemma amap_lookup_model m s k : amap_model m s -> k <> [] -> amap_lookup m k = s !! k.
Proof.
  intros [Ht Hu Hl Hc ->] Hk. destruct m as [slots cap used]. cbn [am_slots am_cap am_used] in *.
  pose proof (pow2_cap_bounds _ (tb_cap _ _ Ht)).
  apply table_lookup; [done| |done]. lia.
Qed.

(** [amap_set] on a table with room. *)
Lemma amap_put m s k v :
  table (am_slots m) (am_cap m) -> am_used m = Z.of_nat (length (entries (am_slots m))) ->
  (am_used m + 1) * 10 <= am_cap m * 7 -> am_cap m <= 2 ^ 59 ->
  s = list_to_map (entries (am_slots m)) -> k <> [] ->
  exists m', (pos ← amap_probe (Z.to_nat (am_cap m)) (am_slots m) (am_cap m) k (first_pos k (am_cap m));
    let s := slot_at (am_slots m) pos in
    if as_used s then
      Some {| am_slots := <[Z.to_nat pos := {| as_key := as_key s; as_last := v; as_used := true |}]> (am_slots m);
              am_cap := am_cap m; am_used := am_used m |}
    else
      Some {| am_slots := <[Z.to_nat pos := {| as_key := k; as_last := v; as_used := true |}]> (am_slots m);
              am_cap := am_cap m; am_used := am_used m +64 1 |}) = Some m' /\ amap_model m' (<[k := v]> s).
Proof.
  intros Ht Hu Hl Hc -> Hk. pose proof (pow2_cap_bounds _ (tb_cap _ _ Ht)).
  pose proof (table_free (am_slots m) (am_cap m) (tb_length _ _ Ht) ltac:(lia)) as Hfree.
  destruct (amap_probe_spec _ _ (tb_cap _ _ Ht) Hfree k) as (d & Hd & Hp & -> & Hm).
  pose proof (at_dist_range k (am_cap m) d ltac:(lia)) as Hr. cbn [mbind option_bind].
  pose proof (table_nodup _ _ Ht) as Hnd.
  destruct (as_used (slot_at _ _)) eqn:U.
  - specialize (Hm eq_refl).
    destruct (table_replace (am_slots m) (am_cap m) _ v Ht Hr U) as (T' & r & E1 & E2). rewrite Hm in T', E2 |- *.
    unfold slot_kv in E1. rewrite Hm in E1.
    eexists. split; [reflexivity|].
    assert (length (entries (am_slots m)) = S (length r)) as L1 by (by rewrite E1).
    split; cbn [am_slots am_cap am_used]; try done.
    + rewrite E2. cbn [length]. lia.
    + lia.
    + rewrite E1 in Hnd. rewrite (list_to_map_proper _ _ Hnd E1) || idtac.
      rewrite (list_to_map_proper (entries (am_slots m)) (_ :: r)) by (done || by eapply table_nodup).
      symmetry. rewrite (list_to_map_proper _ ((k, v) :: r)); [|by eapply table_nodup|done].
      cbn [list_to_map foldr fst snd]. by rewrite insert_insert_eq.
  - destruct (table_insert (am_slots m) (am_cap m) k v d Ht Hk Hd Hp U) as [T' P'].
    eexists. split; [reflexivity|].
    rewrite (u64_small (am_used m + 1)) by word.
    split; cbn [am_slots am_cap am_used]; try done.
    + rewrite P'. cbn [length]. lia.
    + symmetry. rewrite (list_to_map_proper _ ((k, v) :: entries (am_slots m))); [done|by eapply table_nodup|done].
Qed.

Lemma amap_set_model m s k v :
  amap_model m s -> k <> [] -> Z.of_nat (size s) < 2 ^ 56 ->
  exists m', amap_set m k v = Some m' /\ amap_model m' (<[k := v]> s).
Proof.
  intros Hm Hk Hs. pose proof (amap_model_size m s Hm) as Hsz. destruct (Hm) as [Ht Hu Hl Hc Hmap].
  pose proof (pow2_cap_bounds _ (tb_cap _ _ Ht)).
  unfold amap_set. rewrite decide_False by done.
  rewrite (u64_small (am_used m + 1)), (u64_small ((am_used m + 1) * 10)), (u64_small (am_cap m * 7)) by word.
  destruct (decide ((am_used m + 1) * 10 >= am_cap m * 7)) as [Hd|Hd].
  - rewrite decide_False by (change (Z.shiftr SIZE_MAX 1) with (2 ^ 63 - 1); lia).
    assert (u64 (Z.shiftl (am_cap m) 1) = 2 * am_cap m) as ->.
    { rewrite Z.shiftl_mul_pow2 by lia. rewrite u64_small by word. lia. }
    destruct m as [slots cap used]. cbn [am_slots am_cap am_used] in *.
    assert (cap < 2 ^ 58) as Hcb by lia.
    assert (pow2_cap (2 * cap)) as Hc2.
    { destruct (tb_cap _ _ Ht) as (j & Hj & ->). exists (j + 1). split.
      - apply Z.pow_lt_mono_r_iff in Hcb; lia.
      - rewrite Z.pow_add_r by lia. lia. }
    destruct (rehash_spec slots cap (2 * cap) used Ht Hc2) as (m' & -> & C' & U' & T' & P'); [lia|].
    cbn [mbind option_bind]. rewrite <- C' in T'.
    apply amap_put; try done; rewrite ?C'; try lia; [by rewrite P'|].
    rewrite Hmap. apply list_to_map_proper; [by eapply table_nodup|done].
  - cbn [mbind option_bind]. apply amap_put; done || lia.
Qed.

#[export] Program Instance amap_table_laws : AccessTableLaws AccessMap := {
  at_model := amap_model
}.
Next Obligation. intros n Hn. eexists. split; [reflexivity|by apply amap_init_model]. Qed.
Next Obligation. intros t s. apply amap_clear_model. Qed.
Next Obligation. intros t s k. apply amap_lookup_model. Qed.
Next Obligation. done. Qed.
Next Obligation. intros t s k v. apply amap_set_model. Qed.
Next Obligation. done. Qed.
