(* ===== verification/Scheduler.v ===== *)
(** * Block scheduler (src/qrx-core/src/mempool/qrx_velocity_scheduler.c)

    From an ordered list of transactions with their access keys, a dependency
    graph and execution waves: the last accessor of a key is a predecessor of
    the next, and a barrier comes after everything before it and before
    everything after it.  The scheduler is written against [AccessTable]; the
    theorems hold for every table that satisfies [AccessTableLaws]. *)

From stdpp Require Import gmap.
From S2P Require Import Prelude Format AccessMap.

(** ** Data *)

Definition QRX_VELOCITY_MAX_ACCESS_KEYS : Z := 12.
Definition QRX_VELOCITY_ADAPTER_TRANSFER : Z := 0.
Definition QRX_VELOCITY_ADAPTER_STATEFUL : Z := 1.
Definition QRX_VELOCITY_ADAPTER_BARRIER : Z := 2.
Definition QRX_VELOCITY_ADAPTER_DYNAMIC : Z := 3.

(** [access] holds [access_count] keys; [tx_len] is the length of [tx]. *)
Record QrxVelocityMempoolEntry := mkEntry {
  txid : bytes;
  tx : bytes;
  fee : Z;
  nonce : Z;
  lane : Z;
  arrival_seq : Z;
  shard : Z;
  adapter_class : Z;
  tx_type : bytes;
  from : bytes;
  to : bytes;
  access : list bytes
}.

Record QrxVelocityDependencyEdge := mkEdge { ed_from : nat; ed_to : nat }.
#[export] Instance edge_eq_dec : EqDecision QrxVelocityDependencyEdge.
Proof. solve_decision. Defined.

Record QrxVelocityBlockSchedule := mkSched {
  node_count : Z;
  waves : list Z;
  wave_count : Z;
  edges : list QrxVelocityDependencyEdge;
  static_conflicts : Z;
  barrier_fences : Z;
  barrier_nodes : Z;
  critical_path_nodes : Z;
  max_parallel_width : Z;
  schedule_hash : bytes
}.

(** ** Hash of a schedule *)

(** The bytes of [v], most significant first. *)
Definition digest_u64 (v : Z) : bytes :=
  (fun i : nat => byte.of_Z (Z.land (Z.shiftr v (56 - Z.of_nat i * 8)) 0xff)) <$> seq 0 8.


Section hash.
Variable sha3_512 : bytes -> bytes.

Definition schedule_preimage (entries : list QrxVelocityMempoolEntry) (ws : list Z)
    (es : list QrxVelocityDependencyEdge) : bytes :=
  cs "QRX-VELOCITY-BLOCK-SCHEDULE-v1" ++ digest_u64 (blen entries)
  ++ concat (zip_with (fun e w => digest_u64 (blen (txid e)) ++ txid e ++ digest_u64 w) entries ws)
  ++ digest_u64 (blen es)
  ++ concat ((fun e => digest_u64 (Z.of_nat (ed_from e)) ++ digest_u64 (Z.of_nat (ed_to e))) <$> es).

Definition compute_schedule_hash (entries : list QrxVelocityMempoolEntry) (ws : list Z)
    (es : list QrxVelocityDependencyEdge) : bytes :=
  hex (sha3_512 (schedule_preimage entries ws es)).
End hash.

(** ** Building the graph *)

(** The edges, [pred_tags], and the wave of the node being placed. *)
Record link_state := mkLink { lk_edges : list QrxVelocityDependencyEdge; lk_tags : list Z; lk_wave : Z }.

Definition edge_add (st : link_state) (from to : nat) (tag : Z) : link_state :=
  if decide (from = to) then st else
  if decide (lk_tags st !! from = Some tag) then st else
  {| lk_edges := lk_edges st ++ [{| ed_from := from; ed_to := to |}];
     lk_tags := <[from := tag]> (lk_tags st); lk_wave := lk_wave st |}.

(** [edge_add(out, from, i, pred_tags, tag)] and
    [w = out->waves[from] + 1; if (w > wave) wave = w;]. *)
Definition link (ws : list Z) (i : nat) (tag : Z) (st : link_state) (from : nat) : link_state :=
  let st := edge_add st from i tag in
  let w := u32 (default 0 (ws !! from) + 1) in
  {| lk_edges := lk_edges st; lk_tags := lk_tags st;
     lk_wave := if decide (w > lk_wave st) then w else lk_wave st |}.

Definition is_barrier (e : QrxVelocityMempoolEntry) : bool :=
  bool_decide (adapter_class e = QRX_VELOCITY_ADAPTER_BARRIER).

Section table.
Context {T : Type} `{!AccessTable T}.

(** The variables of the main loop; [sc_waves] holds the waves placed so far. *)
Record sched_state := mkSS {
  sc_waves : list Z;
  sc_edges : list QrxVelocityDependencyEdge;
  sc_tags : list Z;
  sc_map : T;
  sc_segment_start : nat;
  sc_last_barrier : option nat;
  sc_max_wave : Z;
  sc_conflicts : Z;
  sc_fences : Z;
  sc_barriers : Z
}.

Definition opt_list (o : option nat) : list nat := match o with Some x => [x] | None => [] end.

(** The last accessors of the keys of the node: one for every key found. *)
Definition last_accessors (map : T) (keys : list bytes) : list nat :=
  omap (fun k => Z.to_nat <$> at_lookup map k) keys.

Definition sched_node (st : sched_state) (i : nat) (e : QrxVelocityMempoolEntry) : option sched_state :=
  let tag := if decide (u32 (Z.of_nat i + 1) = 0) then 1 else u32 (Z.of_nat i + 1) in
  let start := {| lk_edges := sc_edges st; lk_tags := sc_tags st; lk_wave := 0 |} in
  if is_barrier e then
    let lk := foldl (link (sc_waves st) i tag) start (seq (sc_segment_start st) (i - sc_segment_start st)) in
    let lk := foldl (link (sc_waves st) i tag) lk (opt_list (sc_last_barrier st)) in
    let wave := lk_wave lk in
    Some {| sc_waves := sc_waves st ++ [wave]; sc_edges := lk_edges lk; sc_tags := lk_tags lk;
            sc_map := at_clear (sc_map st); sc_segment_start := S i; sc_last_barrier := Some i;
            sc_max_wave := if decide (wave > sc_max_wave st) then wave else sc_max_wave st;
            sc_conflicts := sc_conflicts st; sc_fences := sc_fences st +64 1;
            sc_barriers := sc_barriers st +64 1 |}
  else
    let lk := foldl (link (sc_waves st) i tag) start (opt_list (sc_last_barrier st)) in
    let prevs := last_accessors (sc_map st) (access e) in
    let lk := foldl (link (sc_waves st) i tag) lk prevs in
    let wave := lk_wave lk in
    map ← foldl (fun om k => m ← om; at_set m k (Z.of_nat i)) (Some (sc_map st)) (access e);
    Some {| sc_waves := sc_waves st ++ [wave]; sc_edges := lk_edges lk; sc_tags := lk_tags lk;
            sc_map := map; sc_segment_start := sc_segment_start st; sc_last_barrier := sc_last_barrier st;
            sc_max_wave := if decide (wave > sc_max_wave st) then wave else sc_max_wave st;
            sc_conflicts := sc_conflicts st +64 blen prevs; sc_fences := sc_fences st;
            sc_barriers := sc_barriers st |}.

(** The main loop; an entry that is [NULL] is [None]. *)
Fixpoint sched_loop (st : sched_state) (i : nat) (entries : list (option QrxVelocityMempoolEntry))
    : option sched_state :=
  match entries with
  | [] => Some st
  | None :: _ => None
  | Some e :: entries => st ← sched_node st i e; sched_loop st (S i) entries
  end.

(** [width[out->waves[i]]++] for every node, and the largest entry. *)
Definition max_width (ws : list Z) (n : Z) : Z :=
  let width := foldl (fun width w => alter (Z.add 1) (Z.to_nat w) width) (replicate (Z.to_nat n) 0) ws in
  let maxw := foldl (fun m x => if decide (x > m) then x else m) 0 width in
  if decide (maxw > UINT32_MAX) then UINT32_MAX else maxw.

Definition sched_init (map : T) (count : nat) : sched_state :=
  {| sc_waves := []; sc_edges := []; sc_tags := replicate count 0; sc_map := map;
     sc_segment_start := 0; sc_last_barrier := None; sc_max_wave := 0; sc_conflicts := 0;
     sc_fences := 0; sc_barriers := 0 |}.

Section build.
Variable sha3_512 : bytes -> bytes.

Definition qrx_velocity_block_schedule_build (entries : list (option QrxVelocityMempoolEntry))
    : option QrxVelocityBlockSchedule :=
  let count := blen entries in
  if decide (count = 0) then
    Some {| node_count := 0; waves := []; wave_count := 0; edges := []; static_conflicts := 0;
            barrier_fences := 0; barrier_nodes := 0; critical_path_nodes := 0; max_parallel_width := 0;
            schedule_hash := compute_schedule_hash sha3_512 [] [] [] |}
  else
    let expected_keys :=
      if decide (count > SIZE_MAX / QRX_VELOCITY_MAX_ACCESS_KEYS) then count
      else count *64 QRX_VELOCITY_MAX_ACCESS_KEYS in
    map ← at_init (if decide (expected_keys <> 0) then expected_keys else 1);
    st ← sched_loop (sched_init map (length entries)) 0 entries;
    let wc := u32 (sc_max_wave st + 1) in
    Some {| node_count := count; waves := sc_waves st; wave_count := wc; edges := sc_edges st;
            static_conflicts := sc_conflicts st; barrier_fences := sc_fences st;
            barrier_nodes := sc_barriers st; critical_path_nodes := wc;
            max_parallel_width := if decide (wc <> 0) then max_width (sc_waves st) wc else 0;
            schedule_hash := compute_schedule_hash sha3_512 (omap id entries) (sc_waves st) (sc_edges st) |}.
End build.
End table.
Arguments sched_state : clear implicits.
