(* ===== verification/SchedulerFacts.v ===== *)
(** * Block scheduler: correctness

    Two conflicting transactions (a shared access key, or a barrier among
    them) are ordered by a path of dependency edges, hence by strictly
    increasing waves, in the order of the list; edges go forward; waves are
    the longest-path levels of the graph; building succeeds. *)

From stdpp Require Import gmap.
From S2P Require Import Prelude AccessMap Scheduler.

(** ** What is promised *)

Definition entries_conflict (a b : QrxVelocityMempoolEntry) : Prop :=
  is_barrier a = true \/ is_barrier b = true \/ exists k, k ∈ access a /\ k ∈ access b.

(** Entries as the mempool makes them: at most twelve keys, none empty. *)
Record entry_ok (e : QrxVelocityMempoolEntry) : Prop := {
  eo_count : blen (access e) <= QRX_VELOCITY_MAX_ACCESS_KEYS;
  eo_keys : Forall (fun k => k <> []) (access e)
}.

Definition edge_rel (es : list QrxVelocityDependencyEdge) (i j : nat) : Prop := {| ed_from := i; ed_to := j |} ∈ es.
Abbreviation path es := (tc (edge_rel es)).

Definition wave_of (ws : list Z) (i : nat) : Z := default 0 (ws !! i).

(** ** Placing one node *)

Lemma path_mono es es' i j : (forall e, e ∈ es -> e ∈ es') -> path es i j -> path es' i j.
Proof. intros H. induction 1 as [x y Hxy|x y z Hxy _ IH]; [apply tc_once; by apply H|]. eapply tc_l; [by apply H|done]. Qed.

Record linked (ws : list Z) (i : nat) (tag : Z) (st st' : link_state) (ps : list nat) : Prop := {
  li_edges : forall e, e ∈ lk_edges st' <-> e ∈ lk_edges st \/ exists f, f ∈ ps /\ e = {| ed_from := f; ed_to := i |};
  li_tags : length (lk_tags st') = length (lk_tags st) /\
    forall f t, lk_tags st' !! f = Some t -> lk_tags st !! f = Some t \/ t = tag;
  li_wave : lk_wave st <= lk_wave st' /\ (forall f, f ∈ ps -> wave_of ws f + 1 <= lk_wave st') /\
    (lk_wave st' = lk_wave st \/ exists f, f ∈ ps /\ lk_wave st' = wave_of ws f + 1)
}.

(** The tag of a node marks the edges already made to it. *)
Definition tag_ok (i : nat) (tag : Z) (st : link_state) : Prop :=
  forall f, lk_tags st !! f = Some tag -> {| ed_from := f; ed_to := i |} ∈ lk_edges st.

Lemma link_one ws i tag st f :
  tag_ok i tag st -> (f < i)%nat -> (f < length (lk_tags st))%nat -> 0 <= wave_of ws f < 2 ^ 32 - 1 ->
  linked ws i tag st (link ws i tag st f) [f] /\ tag_ok i tag (link ws i tag st f).
Proof.
  intros Ht Hf Hl Hw. unfold link, edge_add. fold (wave_of ws f). rewrite (u32_small (wave_of ws f + 1)) by word.
  rewrite decide_False by lia. destruct (decide (lk_tags st !! f = Some tag)) as [Hd|Hd].
  - split; [|done]. split; cbn [lk_edges lk_tags lk_wave].
    + intros e. split; [by left|]. intros [?|(f' & ->%list_elem_of_singleton & ->)]; [done|by apply Ht].
    + split; [done|]. intros; by left.
    + split; [case_decide; lia|]. split; [intros f' ->%list_elem_of_singleton; case_decide; lia|].
      case_decide; [right; exists f; split; [set_solver|done]|by left].
  - split; [split|]; cbn [lk_edges lk_tags lk_wave].
    + intros e. rewrite elem_of_app, list_elem_of_singleton. split.
      * intros [?| ->]; [by left|]. right. exists f. split; [set_solver|done].
      * intros [?|(f' & ->%list_elem_of_singleton & ->)]; [by left|by right].
    + split; [by rewrite length_insert|]. intros f' t H. apply list_lookup_insert_Some in H. naive_solver.
    + split; [case_decide; lia|]. split; [intros f' ->%list_elem_of_singleton; case_decide; lia|].
      case_decide; [right; exists f; split; [set_solver|done]|by left].
    + intros f'. cbn [lk_edges lk_tags]. rewrite elem_of_app, list_elem_of_singleton. intros H.
      apply list_lookup_insert_Some in H as [(-> & _)|[_ H]]; [by right|left]. by apply Ht.
Qed.

Lemma link_fold ws i tag ps st :
  tag_ok i tag st -> (forall f, f ∈ ps -> (f < i)%nat /\ (f < length (lk_tags st))%nat /\ 0 <= wave_of ws f < 2 ^ 32 - 1) ->
  linked ws i tag st (foldl (link ws i tag) st ps) ps /\ tag_ok i tag (foldl (link ws i tag) st ps).
Proof.
  revert st. induction ps as [|f ps IH]; intros st Ht Hps; cbn [foldl].
  { split; [|done]. split; [set_solver|naive_solver|]. split; [lia|]. split; [set_solver|by left]. }
  destruct (Hps f) as (Hf & Hl & Hw); [set_solver|].
  destruct (link_one ws i tag st f Ht Hf Hl Hw) as [[E1 [T1 T1'] (W1 & W1' & W1'')] Ht1].
  destruct (IH (link ws i tag st f) Ht1) as [[E2 [T2 T2'] (W2 & W2' & W2'')] Ht2].
  { intros f' Hf'. rewrite T1. apply Hps. set_solver. }
  split; [|done]. split.
  - intros e. rewrite E2, E1. set_solver.
  - split; [congruence|]. intros f' t H. destruct (T2' f' t H) as [H'|]; [|by right]. by apply T1'.
  - split; [lia|]. split.
    + intros f'. rewrite elem_of_cons. intros [->|Hin]; [|by apply W2'].
      specialize (W1' f ltac:(set_solver)). lia.
    + destruct W2'' as [->|(f' & Hf' & ->)]; [|right; exists f'; set_solver].
      destruct W1'' as [->|(f' & Hf' & ->)]; [by left|right; exists f'; set_solver].
Qed.

(** ** The invariant of the main loop *)

Section inv.
Context {T : Type} `{!AccessTable T, !AccessTableLaws T}.

Record sched_inv (count : nat) (es : list QrxVelocityMempoolEntry) (st : sched_state T) : Prop := {
  iv_len : length (sc_waves st) = length es;
  iv_tags : length (sc_tags st) = count /\ forall f t, sc_tags st !! f = Some t -> 0 <= t <= Z.of_nat (length es);
  iv_edges : forall i j, edge_rel (sc_edges st) i j ->
    (i < j < length es)%nat /\ wave_of (sc_waves st) i < wave_of (sc_waves st) j;
  iv_level : forall i, (i < length es)%nat -> 0 <= wave_of (sc_waves st) i <= Z.of_nat i /\
    (wave_of (sc_waves st) i = 0 \/ exists f, edge_rel (sc_edges st) f i /\ wave_of (sc_waves st) i = wave_of (sc_waves st) f + 1);
  iv_max : (forall i, (i < length es)%nat -> wave_of (sc_waves st) i <= sc_max_wave st) /\
    (sc_max_wave st = 0 \/ exists i, (i < length es)%nat /\ sc_max_wave st = wave_of (sc_waves st) i);
  iv_segment : match sc_last_barrier st with
    | None => sc_segment_start st = 0%nat
    | Some b => sc_segment_start st = S b /\ (b < length es)%nat /\
        (forall j, (j < b)%nat -> path (sc_edges st) j b) /\ (forall j, (b < j < length es)%nat -> path (sc_edges st) b j)
    end;
  iv_plain : forall n e, (sc_segment_start st <= n)%nat -> es !! n = Some e -> is_barrier e = false;
  iv_map : exists s, at_model (sc_map st) s /\ Z.of_nat (size s) <= 12 * Z.of_nat (length es) /\
    (forall k j, s !! k = Some j -> exists n e, j = Z.of_nat n /\ (sc_segment_start st <= n)%nat /\ es !! n = Some e /\
       k ∈ access e /\ forall n' e', (n < n')%nat -> es !! n' = Some e' -> k ∉ access e') /\
    (forall n e k, (sc_segment_start st <= n)%nat -> es !! n = Some e -> k ∈ access e -> is_Some (s !! k));
  iv_conflict : forall i j a b, (i < j)%nat -> es !! i = Some a -> es !! j = Some b -> entries_conflict a b ->
    path (sc_edges st) i j
}.

Lemma inv_init count map : at_model map ∅ -> sched_inv count [] (sched_init map count).
Proof.
  intros Hm. split; cbn [sched_init sc_waves sc_edges sc_tags sc_map sc_segment_start sc_last_barrier sc_max_wave].
  - done.
  - split; [apply length_replicate|]. intros f t [-> _]%lookup_replicate. cbn. lia.
  - intros i j H. unfold edge_rel in H. set_solver.
  - cbn. lia.
  - split; [cbn; lia|by left].
  - done.
  - done.
  - exists ∅. split_and!; [done|by rewrite map_size_empty| |]; intros *; by rewrite ?lookup_empty.
  - done.
Qed.

Lemma wave_snoc_old ws w i : (i < length ws)%nat -> wave_of (ws ++ [w]) i = wave_of ws i.
Proof. intros H. unfold wave_of. by rewrite lookup_app_l. Qed.
Lemma wave_snoc_new ws w : wave_of (ws ++ [w]) (length ws) = w.
Proof. unfold wave_of. by rewrite lookup_app_r, Nat.sub_diag. Qed.

(** What a node adds, whatever its kind. *)
Record placed (es : list QrxVelocityMempoolEntry) (st : sched_state T) (ps : list nat)
    (edges' : list QrxVelocityDependencyEdge) (tags' : list Z) (wave : Z) : Prop := {
  pl_preds : forall f, f ∈ ps -> (f < length es)%nat;
  pl_edges : forall e, e ∈ edges' <-> e ∈ sc_edges st \/ exists f, f ∈ ps /\ e = {| ed_from := f; ed_to := length es |};
  pl_tags : length tags' = length (sc_tags st) /\ forall f t, tags' !! f = Some t -> 0 <= t <= Z.of_nat (S (length es));
  pl_wave : 0 <= wave /\ (forall f, f ∈ ps -> wave_of (sc_waves st) f + 1 <= wave) /\
    (wave = 0 \/ exists f, f ∈ ps /\ wave = wave_of (sc_waves st) f + 1)
}.

Lemma placed_node count es st ps1 ps2 :
  sched_inv count es st -> (length es < count)%nat -> Z.of_nat count < 2 ^ 32 - 1 ->
  (forall f, f ∈ ps1 ++ ps2 -> (f < length es)%nat) ->
  let i := length es in
  let tag := if decide (u32 (Z.of_nat i + 1) = 0) then 1 else u32 (Z.of_nat i + 1) in
  let lk := foldl (link (sc_waves st) i tag)
    (foldl (link (sc_waves st) i tag) {| lk_edges := sc_edges st; lk_tags := sc_tags st; lk_wave := 0 |} ps1) ps2 in
  placed es st (ps1 ++ ps2) (lk_edges lk) (lk_tags lk) (lk_wave lk).
Proof.
  intros Hi Hlen Hc Hps i tag lk.
  assert (u32 (Z.of_nat i + 1) = Z.of_nat i + 1) as Hu by (apply u32_small; unfold i; word).
  assert (tag = Z.of_nat i + 1) as Htag by (unfold tag; rewrite Hu, decide_False by lia; done). clearbody tag.
  destruct (iv_tags _ _ _ Hi) as [Ht1 Ht2].
  unfold lk. rewrite <- foldl_app.
  destruct (link_fold (sc_waves st) i tag (ps1 ++ ps2)
    {| lk_edges := sc_edges st; lk_tags := sc_tags st; lk_wave := 0 |}) as [[E [T1 T2] (W1 & W2 & W3)] _].
  - intros f H. cbn in H. apply Ht2 in H. unfold i in *. lia.
  - intros f Hf. cbn [lk_tags]. specialize (Hps f Hf). rewrite Ht1.
    destruct (iv_level _ _ _ Hi f Hps) as [Hb _]. unfold i. lia.
  - split; [done|exact E| |].
    + split; [done|]. intros f t H. destruct (T2 f t H) as [H'|]; [apply Ht2 in H'; lia|]. unfold i in *. lia.
    + done.
Qed.

(** The part of the invariant that both kinds of node share. *)
Lemma placed_inv count es (st : sched_state T) ps edges' tags' wave e (st' : sched_state T) :
  sched_inv count es st -> placed es st ps edges' tags' wave ->
  sc_waves st' = sc_waves st ++ [wave] -> sc_edges st' = edges' -> sc_tags st' = tags' ->
  sc_max_wave st' = (if decide (wave > sc_max_wave st) then wave else sc_max_wave st) ->
  let es' := es ++ [e] in
  length (sc_waves st') = length es' /\
  (length (sc_tags st') = count /\ forall f t, sc_tags st' !! f = Some t -> 0 <= t <= Z.of_nat (length es')) /\
  (forall i j, edge_rel (sc_edges st') i j ->
    (i < j < length es')%nat /\ wave_of (sc_waves st') i < wave_of (sc_waves st') j) /\
  (forall i, (i < length es')%nat -> 0 <= wave_of (sc_waves st') i <= Z.of_nat i /\
    (wave_of (sc_waves st') i = 0 \/ exists f, edge_rel (sc_edges st') f i /\ wave_of (sc_waves st') i = wave_of (sc_waves st') f + 1)) /\
  ((forall i, (i < length es')%nat -> wave_of (sc_waves st') i <= sc_max_wave st') /\
    (sc_max_wave st' = 0 \/ exists i, (i < length es')%nat /\ sc_max_wave st' = wave_of (sc_waves st') i)).
Proof.
  intros Hi [Pp Pe [Pt1 Pt2] (Pw1 & Pw2 & Pw3)] Hw He Ht Hm es'. rewrite Hw, He, Ht, Hm.
  pose proof (iv_len _ _ _ Hi) as Hlen.
  assert (length es' = S (length es)) as Hl' by (unfold es'; rewrite length_app; cbn; lia).
  assert (forall i, (i < length es)%nat -> wave_of (sc_waves st ++ [wave]) i = wave_of (sc_waves st) i) as Hold
    by (intros i Hl; apply wave_snoc_old; lia).
  assert (wave_of (sc_waves st ++ [wave]) (length es) = wave) as Hnew by (rewrite <- Hlen; apply wave_snoc_new).
  split_and!.
  - rewrite length_app, Hlen, Hl'. cbn. lia.
  - rewrite Pt1. apply (iv_tags _ _ _ Hi).
  - rewrite Hl'. done.
  - intros i j Hij. unfold edge_rel in Hij. apply Pe in Hij as [Hij|(f & Hf & [= -> ->])].
    + destruct (iv_edges _ _ _ Hi i j Hij) as [Hb Hlt]. rewrite !Hold by lia. split; [lia|done].
    + pose proof (Pp f Hf). rewrite Hnew, Hold by done. specialize (Pw2 f Hf). split; lia.
  - intros i Hil. destruct (decide (i = length es)) as [->|].
    + rewrite Hnew. split.
      * destruct Pw3 as [->|(f & Hf & ->)]; [lia|]. pose proof (Pp f Hf) as Hfl.
        destruct (iv_level _ _ _ Hi f Hfl) as [Hb _]. lia.
      * destruct Pw3 as [?|(f & Hf & Hwf)]; [by left|right]. exists f. pose proof (Pp f Hf). rewrite Hold by done.
        split; [|done]. apply Pe. right. by exists f.
    + destruct (iv_level _ _ _ Hi i) as [Hb Hlv]; [lia|]. rewrite Hold by lia. split; [done|].
      destruct Hlv as [?|(f & Hf & Hwf)]; [by left|right]. exists f. destruct (iv_edges _ _ _ Hi f i Hf) as [? _].
      rewrite Hold by lia. split; [|done]. apply Pe. by left.
  - intros i Hil. destruct (iv_max _ _ _ Hi) as [Hmax _]. destruct (decide (i = length es)) as [->|].
    + rewrite Hnew. case_decide; lia.
    + rewrite Hold by lia. specialize (Hmax i ltac:(lia)). case_decide; lia.
  - destruct (iv_max _ _ _ Hi) as [_ Hmax]. case_decide.
    + right. exists (length es). split; [lia|done].
    + destruct Hmax as [?|(i & Hil & ->)]; [by left|right]. exists i. rewrite Hold by done. split; [lia|done].
Qed.

Lemma lookup_snoc_cases {A} (l : list A) x n y :
  (l ++ [x]) !! n = Some y -> (l !! n = Some y /\ (n < length l)%nat) \/ (n = length l /\ y = x).
Proof.
  intros H. destruct (decide (n < length l)%nat) as [Hl|Hl].
  - left. by rewrite lookup_app_l in H.
  - right. rewrite lookup_app_r in H by lia. apply list_lookup_singleton_Some in H as [H ->]. split; [lia|done].
Qed.

Lemma conflict_snoc es e (es' := es ++ [e]) edges edges' :
  (forall x, x ∈ edges -> x ∈ edges') ->
  (forall i j a b, (i < j)%nat -> es !! i = Some a -> es !! j = Some b -> entries_conflict a b -> path edges i j) ->
  (forall i a, es !! i = Some a -> entries_conflict a e -> path edges' i (length es)) ->
  forall i j a b, (i < j)%nat -> es' !! i = Some a -> es' !! j = Some b -> entries_conflict a b -> path edges' i j.
Proof.
  intros Hsub Hold Hnew i j a b Hij Ha Hb Hc.
  destruct (lookup_snoc_cases _ _ _ _ Hb) as [[Hb' Hjl]|[-> ->]].
  - unfold es' in Ha. rewrite lookup_app_l in Ha by lia. eapply path_mono; [done|]. by eapply Hold.
  - unfold es' in Ha. rewrite lookup_app_l in Ha by done. by eapply Hnew.
Qed.

Lemma barrier_step count es st e :
  sched_inv count es st -> (length es < count)%nat -> Z.of_nat count < 2 ^ 32 - 1 -> is_barrier e = true ->
  exists st', sched_node st (length es) e = Some st' /\ sched_inv count (es ++ [e]) st'.
Proof.
  intros Hi Hlen Hc Hb. unfold sched_node. rewrite Hb.
  set (ps1 := seq (sc_segment_start st) (length es - sc_segment_start st)).
  set (ps2 := opt_list (sc_last_barrier st)).
  assert (forall f, f ∈ ps1 ++ ps2 -> (f < length es)%nat) as Hps.
  { intros f. rewrite elem_of_app. intros [H%elem_of_seq|H]; [lia|]. unfold ps2 in H.
    pose proof (iv_segment _ _ _ Hi) as Hs. destruct (sc_last_barrier st) as [b|]; [|set_solver].
    apply list_elem_of_singleton in H as ->. apply Hs. }
  pose proof (placed_node count es st ps1 ps2 Hi Hlen Hc Hps) as Hpl. cbv zeta in Hpl |- *.
  set (lk := foldl _ (foldl _ _ ps1) ps2) in *.
  eexists. split; [reflexivity|].
  set (st' := {| sc_waves := _; sc_edges := _; sc_tags := _; sc_map := _; sc_segment_start := _; sc_last_barrier := _;
    sc_max_wave := _; sc_conflicts := _; sc_fences := _; sc_barriers := _ |}).
  destruct (placed_inv count es st _ _ _ _ e st' Hi Hpl eq_refl eq_refl eq_refl eq_refl) as (I1 & I2 & I3 & I4 & I5).
  assert (forall x, x ∈ sc_edges st -> x ∈ sc_edges st') as Hsub
    by (intros x Hx; apply (pl_edges _ _ _ _ _ _ Hpl); by left).
  assert (forall j, (j < length es)%nat -> path (sc_edges st') j (length es)) as Hfence.
  { intros j Hj. assert (forall f, f ∈ ps1 ++ ps2 -> path (sc_edges st') f (length es)) as Hd.
    { intros f Hf. apply tc_once. apply (pl_edges _ _ _ _ _ _ Hpl). right. by exists f. }
    destruct (decide (sc_segment_start st <= j)%nat) as [Hge|Hlt].
    { apply Hd, elem_of_app. left. apply elem_of_seq. lia. }
    pose proof (iv_segment _ _ _ Hi) as Hs. destruct (sc_last_barrier st) as [b|] eqn:Eb; [|lia].
    destruct Hs as (Hs & Hbl & Hbefore & _).
    assert (path (sc_edges st') b (length es)) as Hbe.
    { apply Hd, elem_of_app. right. unfold ps2. set_solver. }
    destruct (decide (j = b)) as [->|]; [done|]. etrans; [|exact Hbe]. eapply path_mono; [done|]. apply Hbefore. lia. }
  split; try done.
  - cbn [st' sc_last_barrier sc_segment_start]. rewrite length_app. cbn. split_and!; [done|lia|done|lia].
  - intros n e' Hn He. cbn [st' sc_segment_start] in Hn. apply lookup_lt_Some in He. rewrite length_app in He. cbn in He. lia.
  - exists ∅. destruct (iv_map _ _ _ Hi) as (s & Hm & _). split_and!.
    + by eapply at_clear_model.
    + rewrite map_size_empty. lia.
    + intros k j. by rewrite lookup_empty.
    + intros n e' k Hn He. cbn [st' sc_segment_start] in Hn. apply lookup_lt_Some in He.
      rewrite length_app in He. cbn in He. lia.
  - apply (conflict_snoc es e (sc_edges st)); [done|apply (iv_conflict _ _ _ Hi)|].
    intros i a Ha _. apply Hfence. by eapply lookup_lt_Some.
Qed.

(** Setting the keys of a node. *)
Lemma set_keys (map : T) s keys v :
  at_model map s -> Forall (fun k => k <> []) keys -> Z.of_nat (size s) + blen keys < 2 ^ 56 ->
  exists map' s', foldl (fun om k => m ← om; at_set m k v) (Some map) keys = Some map' /\ at_model map' s' /\
    Z.of_nat (size s') <= Z.of_nat (size s) + blen keys /\
    (forall k, s' !! k = if decide (k ∈ keys) then Some v else s !! k).
Proof.
  intros Hm Hk. revert map s Hm. induction Hk as [|k keys Hk Hks IH]; intros map s Hm Hsz.
  { exists map, s. split_and!; try done. rewrite blen_nil. lia. }
  rewrite blen_cons in *. pose proof (blen_nonneg keys). cbn [foldl mbind option_bind].
  destruct (at_set_model map s k v Hm Hk ltac:(lia)) as (map1 & -> & Hm1).
  assert (Z.of_nat (size (<[k := v]> s)) <= Z.of_nat (size s) + 1) as Hs1.
  { destruct (s !! k) eqn:E; [rewrite map_size_insert_Some by done|rewrite map_size_insert_None by done]; lia. }
  destruct (IH map1 (<[k := v]> s) Hm1) as (map' & s' & Hf & Hm' & Hs' & Hl); [lia|].
  exists map', s'. split_and!; [done|done|lia|]. intros k'. rewrite Hl.
  destruct (decide (k' = k)) as [->|Hne].
  - rewrite lookup_insert_eq. rewrite (decide_True (P := k ∈ k :: keys)) by set_solver. by case_decide.
  - rewrite lookup_insert_ne by done. destruct (decide (k' ∈ keys)); [rewrite decide_True by set_solver|rewrite decide_False by set_solver]; done.
Qed.

Lemma plain_step count es st e :
  sched_inv count es st -> (length es < count)%nat -> Z.of_nat count < 2 ^ 32 - 1 -> is_barrier e = false -> entry_ok e ->
  exists st', sched_node st (length es) e = Some st' /\ sched_inv count (es ++ [e]) st'.
Proof.
  intros Hi Hlen Hc Hb [Hcount Hkeys]. unfold sched_node. rewrite Hb.
  destruct (iv_map _ _ _ Hi) as (s & Hm & Hsz & Hlast & Hsome).
  set (ps1 := opt_list (sc_last_barrier st)). set (ps2 := last_accessors (sc_map st) (access e)).
  assert (forall n, n ∈ ps2 <-> exists k, k ∈ access e /\ s !! k = Some (Z.of_nat n)) as Hps2.
  { intros n. unfold ps2, last_accessors. rewrite list_elem_of_omap. split.
    - intros (k & Hk & Hn). exists k. split; [done|].
      rewrite (at_lookup_model _ s) in Hn; [|done|by eapply Forall_forall in Hkeys].
      apply fmap_Some in Hn as (j & Hj & ->). destruct (Hlast k j Hj) as (n & e' & -> & _). by rewrite Nat2Z.id.
    - intros (k & Hk & Hn). exists k. split; [done|].
      rewrite (at_lookup_model _ s) by (done || by eapply Forall_forall in Hkeys). rewrite Hn. cbn. by rewrite Nat2Z.id. }
  assert (forall f, f ∈ ps1 ++ ps2 -> (f < length es)%nat) as Hps.
  { intros f. rewrite elem_of_app. intros [H|H].
    - unfold ps1 in H. pose proof (iv_segment _ _ _ Hi) as Hs. destruct (sc_last_barrier st) as [b|]; [|set_solver].
      apply list_elem_of_singleton in H as ->. apply Hs.
    - apply Hps2 in H as (k & _ & Hk). destruct (Hlast k _ Hk) as (n & e' & Hn & _ & He' & _).
      apply lookup_lt_Some in He'. lia. }
  pose proof (placed_node count es st ps1 ps2 Hi Hlen Hc Hps) as Hpl. cbv zeta in Hpl |- *.
  set (lk := foldl _ (foldl _ _ ps1) ps2) in *.
  unfold QRX_VELOCITY_MAX_ACCESS_KEYS in Hcount. pose proof (blen_nonneg (access e)).
  destruct (set_keys (sc_map st) s (access e) (Z.of_nat (length es)) Hm Hkeys) as (map' & s' & -> & Hm' & Hs' & Hl'); [lia|].
  cbn [mbind option_bind]. eexists. split; [reflexivity|].
  set (st' := {| sc_waves := _; sc_edges := _; sc_tags := _; sc_map := _; sc_segment_start := _; sc_last_barrier := _;
    sc_max_wave := _; sc_conflicts := _; sc_fences := _; sc_barriers := _ |}).
  destruct (placed_inv count es st _ _ _ _ e st' Hi Hpl eq_refl eq_refl eq_refl eq_refl) as (I1 & I2 & I3 & I4 & I5).
  assert (forall x, x ∈ sc_edges st -> x ∈ sc_edges st') as Hsub
    by (intros x Hx; apply (pl_edges _ _ _ _ _ _ Hpl); by left).
  assert (forall f, f ∈ ps1 ++ ps2 -> path (sc_edges st') f (length es)) as Hd.
  { intros f Hf. apply tc_once. apply (pl_edges _ _ _ _ _ _ Hpl). right. by exists f. }
  pose proof (iv_segment _ _ _ Hi) as Hseg.
  assert (forall j, (j < sc_segment_start st)%nat -> path (sc_edges st') j (length es)) as Hbefore.
  { intros j Hj. destruct (sc_last_barrier st) as [b|] eqn:Eb; [|lia]. destruct Hseg as (Hs & Hbl & Hbefore & _).
    assert (path (sc_edges st') b (length es)) as Hbe by (apply Hd, elem_of_app; left; unfold ps1; set_solver).
    destruct (decide (j = b)) as [->|]; [done|]. etrans; [|exact Hbe]. eapply path_mono; [done|]. apply Hbefore. lia. }
  split; try done.
  - cbn [st' sc_last_barrier sc_segment_start]. rewrite length_app. cbn [length].
    destruct (sc_last_barrier st) as [b|] eqn:Eb; [|done]. destruct Hseg as (Hs & Hbl & Hbb & Hba).
    split_and!; [done|lia| |].
    + intros j Hj. eapply path_mono; [done|by apply Hbb].
    + intros j Hj. destruct (decide (j = length es)) as [->|]; [|eapply path_mono; [done|apply Hba; lia]].
      apply Hd, elem_of_app. left. unfold ps1. set_solver.
  - intros n e' Hn He. cbn [st' sc_segment_start] in Hn.
    destruct (lookup_snoc_cases _ _ _ _ He) as [[He' _]|[-> ->]]; [|done]. by apply (iv_plain _ _ _ Hi n).
  - exists s'. cbn [st' sc_map sc_segment_start]. split_and!; [done|rewrite length_app; cbn; lia| |].
    + intros k j Hk. rewrite Hl' in Hk. case_decide as Hin.
      * injection Hk as <-. exists (length es), e. split_and!; try done.
        -- destruct (sc_last_barrier st); [destruct Hseg as (-> & ? & _); lia|lia].
        -- rewrite lookup_app_r, Nat.sub_diag by lia. done.
        -- intros n' e' Hn' He'. apply lookup_lt_Some in He'. rewrite length_app in He'. cbn in He'. lia.
      * destruct (Hlast k j Hk) as (n & e' & -> & Hn & He' & Hke & Hlater). exists n, e'. split_and!; try done.
        -- by apply lookup_app_l_Some.
        -- intros n' e'' Hn' He''. destruct (lookup_snoc_cases _ _ _ _ He'') as [[He3 _]|[_ ->]]; [by eapply Hlater|done].
    + intros n e' k Hn He Hk. rewrite Hl'. case_decide; [by eexists|].
      destruct (lookup_snoc_cases _ _ _ _ He) as [[He' _]|[_ ->]]; [by eapply Hsome|done].
  - apply (conflict_snoc es e (sc_edges st)); [done|apply (iv_conflict _ _ _ Hi)|].
    intros i a Ha Hconf. pose proof (lookup_lt_Some _ _ _ Ha) as Hil.
    destruct (decide (i < sc_segment_start st)%nat) as [Hlt|Hge]; [by apply Hbefore|].
    destruct Hconf as [Hba|[Hbe|(k & Hka & Hke)]].
    + rewrite (iv_plain _ _ _ Hi i a) in Hba by (done || lia). done.
    + congruence.
    + destruct (Hsome i a k ltac:(lia) Ha Hka) as [j Hj]. destruct (Hlast k j Hj) as (n & e' & -> & Hn & He' & Hke' & Hlater).
      assert (path (sc_edges st') n (length es)) as Hne.
      { apply Hd, elem_of_app. right. apply Hps2. by exists k. }
      destruct (decide (i = n)) as [->|]; [done|].
      assert (i < n)%nat as Hin.
      { destruct (decide (i < n)%nat) as [|Hni]; [done|]. exfalso. apply (Hlater i a); [lia|done|done]. }
      etrans; [|exact Hne]. eapply path_mono; [done|]. apply (iv_conflict _ _ _ Hi i n a e'); try done.
      right. right. by exists k.
Qed.

Lemma sched_loop_spec count es1 es2 st :
  sched_inv count es1 st -> count = (length es1 + length es2)%nat -> Z.of_nat count < 2 ^ 32 - 1 -> Forall entry_ok es2 ->
  exists st', sched_loop st (length es1) (Some <$> es2) = Some st' /\ sched_inv count (es1 ++ es2) st'.
Proof.
  revert es1 st. induction es2 as [|e es2 IH]; intros es1 st Hi Hc Hb Hok; cbn [fmap list_fmap sched_loop].
  { exists st. by rewrite app_nil_r. }
  inversion_clear Hok as [|? ? He Hes]. cbn [length] in Hc.
  assert (exists st1, sched_node st (length es1) e = Some st1 /\ sched_inv count (es1 ++ [e]) st1) as (st1 & -> & Hi1).
  { destruct (is_barrier e) eqn:Eb; [apply barrier_step|apply plain_step]; done || lia. }
  cbn [mbind option_bind].
  destruct (IH (es1 ++ [e]) st1 Hi1) as (st' & Hl & Hi'); [rewrite length_app; cbn; lia|done|done|].
  rewrite length_app, Nat.add_1_r in Hl. exists st'. split; [done|]. by rewrite <- app_assoc in Hi'.
Qed.
End inv.
