(* ===== verification/SchedulerWaves.v ===== *)
(** * Block scheduler: waves

    The number of waves is the length of the longest chain of dependent
    transactions and the width is the size of the largest wave; the theorems
    on a built schedule, for every lawful table. *)

From stdpp Require Import gmap.
From S2P Require Import Prelude AccessMap Scheduler SchedulerFacts.

(** ** Widths *)

Definition level_size (ws : list Z) (w : Z) : Z := blen (filter (fun x => x = w) ws).

Lemma level_size_cons x ws w : level_size (x :: ws) w = (if decide (x = w) then 1 else 0) + level_size ws w.
Proof.
  unfold level_size. destruct (decide (x = w)) as [Hx|Hx]; [rewrite filter_cons_True by done|rewrite filter_cons_False by done].
  - by rewrite blen_cons.
  - done.
Qed.

Lemma level_size_bounds ws w : 0 <= level_size ws w <= blen ws.
Proof. unfold level_size, blen. pose proof (length_filter (fun x : Z => x = w) ws). lia. Qed.

Lemma width_fold ws width :
  Forall (fun w => 0 <= w < blen width) ws ->
  let width' := foldl (fun width w => alter (Z.add 1) (Z.to_nat w) width) width ws in
  length width' = length width /\
  forall i x, width !! i = Some x -> width' !! i = Some (x + level_size ws (Z.of_nat i)).
Proof.
  intros Hws. revert width Hws. induction ws as [|w ws IH]; intros width Hws; cbn [foldl].
  { split; [done|]. intros i x Hx. rewrite Hx. change (level_size [] _) with 0. f_equal. lia. }
  inversion_clear Hws as [|? ? Hw Hws'].
  destruct (IH (alter (Z.add 1) (Z.to_nat w) width)) as [L1 L2].
  { unfold blen in *. by rewrite length_alter. }
  cbv zeta. split; [by rewrite L1, length_alter|].
  intros i x Hx. rewrite level_size_cons. case_decide as Hwi.
  - subst w. rewrite (L2 i (1 + x)); [f_equal; lia|]. rewrite Nat2Z.id, list_lookup_alter_eq, Hx. done.
  - rewrite (L2 i x); [f_equal; lia|]. by rewrite list_lookup_alter_ne by lia.
Qed.

Lemma fold_max l m :
  let r := foldl (fun m x => if decide (x > m) then x else m) m l in
  m <= r /\ (forall x, x ∈ l -> x <= r) /\ (r = m \/ r ∈ l).
Proof.
  revert m. induction l as [|x l IH]; intros m; cbn [foldl]; [split; [lia|split; [set_solver|by left]]|].
  destruct (IH (if decide (x > m) then x else m)) as (H1 & H2 & H3). cbv zeta in *.
  destruct (decide (x > m)) as [Hx|Hx]; (split_and!; [lia| |]).
  - intros y [->|Hy]%elem_of_cons; [done|by apply H2].
  - destruct H3 as [->|H3]; right; set_solver.
  - intros y [->|Hy]%elem_of_cons; [lia|by apply H2].
  - destruct H3 as [->|H3]; [by left|right; set_solver].
Qed.

(** [max_width] is the size of the largest level. *)
Lemma max_width_spec ws n :
  0 < n -> blen ws < 2 ^ 32 - 1 -> Forall (fun w => 0 <= w < n) ws ->
  (forall w, 0 <= w < n -> level_size ws w <= max_width ws n) /\
  exists w, 0 <= w < n /\ max_width ws n = level_size ws w.
Proof.
  intros Hn Hlen Hws. unfold max_width.
  set (width := foldl _ (replicate _ 0) ws).
  assert (length width = Z.to_nat n /\ forall w, 0 <= w < n -> width !! Z.to_nat w = Some (level_size ws w)) as [Hl Hw].
  { destruct (width_fold ws (replicate (Z.to_nat n) 0)) as [L1 L2].
    - eapply Forall_impl; [exact Hws|]. intros w H. cbn beta in H. unfold blen. rewrite length_replicate. lia.
    - split; [by rewrite <- (length_replicate (Z.to_nat n) 0)|]. intros w H.
      fold width in L2. rewrite (L2 (Z.to_nat w) 0); [rewrite Z2Nat.id by lia; done|].
      apply lookup_replicate. split; [done|lia]. }
  destruct (fold_max width 0) as (M1 & M2 & M3). cbv zeta in *. set (m := foldl _ 0 width) in *.
  assert (forall w, 0 <= w < n -> level_size ws w <= m) as Hle
    by (intros w H; eapply M2, list_elem_of_lookup_2, (Hw w H)).
  assert (exists w, 0 <= w < n /\ m = level_size ws w) as (w & Hwn & Hmw).
  { destruct M3 as [Hz|[i Hi]%list_elem_of_lookup].
    - exists 0. split; [lia|]. specialize (Hle 0 ltac:(lia)). pose proof (level_size_bounds ws 0). lia.
    - pose proof (lookup_lt_Some _ _ _ Hi). exists (Z.of_nat i). split; [lia|].
      specialize (Hw (Z.of_nat i) ltac:(lia)). rewrite Nat2Z.id in Hw. congruence. }
  pose proof (level_size_bounds ws w).
  rewrite decide_False by word. split; [done|by exists w].
Qed.

(** ** Chains *)

Fixpoint chain (es : list QrxVelocityDependencyEdge) (l : list nat) : Prop :=
  match l with
  | a :: (b :: _) as l' => edge_rel es a b /\ chain es l'
  | _ => True
  end.

Lemma last_cons_default {A} (l : list A) a b : List.last (b :: l) a = List.last l b.
Proof.
  revert a b. induction l as [|c l IH]; intros a b; [done|].
  change (List.last (c :: l) a = List.last (c :: l) b). by rewrite !IH.
Qed.

Section chains.
Variables (es : list QrxVelocityDependencyEdge) (ws : list Z).
Hypothesis Hup : forall i j, edge_rel es i j -> wave_of ws i < wave_of ws j.

Lemma path_up i j : path es i j -> wave_of ws i < wave_of ws j.
Proof using Hup. induction 1 as [x y H|x y z H _ IH]; [by apply Hup|]. apply Hup in H. lia. Qed.

Lemma chain_up a l : chain es (a :: l) -> wave_of ws a + blen l <= wave_of ws (List.last l a).
Proof using Hup.
  revert a. induction l as [|b l IH]; intros a H; [rewrite blen_nil; cbn [List.last]; lia|].
  destruct H as [Hab Hl]. apply Hup in Hab. specialize (IH b Hl). rewrite blen_cons.
  rewrite last_cons_default. lia.
Qed.

Lemma chain_snoc l a b : chain es (l ++ [a]) -> edge_rel es a b -> chain es (l ++ [a; b]).
Proof using.
  induction l as [|x l IH]; intros H Hab; [done|].
  destruct l as [|y l]; [by destruct H|]. destruct H as [Hxy H]. split; [done|by apply IH].
Qed.

Lemma chain_of_wave n : (forall i, (i < n)%nat -> 0 <= wave_of ws i /\
    (wave_of ws i = 0 \/ exists f, edge_rel es f i /\ wave_of ws i = wave_of ws f + 1)) ->
  (forall i j, edge_rel es i j -> (i < j)%nat) ->
  forall i, (i < n)%nat -> exists l, chain es (l ++ [i]) /\ blen l = wave_of ws i.
Proof using.
  intros Hl Hf i. induction i as [i IH] using lt_wf_ind. intros Hi.
  destruct (Hl i Hi) as [_ [H0|(f & Hfi & Hw)]]; [by exists []|].
  specialize (Hf f i Hfi). destruct (IH f) as (l & Hc & Hb); [done|lia|].
  exists (l ++ [f]). rewrite <- app_assoc. split; [by apply chain_snoc|]. rewrite blen_app, blen_cons, blen_nil. lia.
Qed.

Lemma level_reached n : (forall i, (i < n)%nat -> 0 <= wave_of ws i /\
    (wave_of ws i = 0 \/ exists f, edge_rel es f i /\ wave_of ws i = wave_of ws f + 1)) ->
  (forall i j, edge_rel es i j -> (i < j)%nat) ->
  forall i w, (i < n)%nat -> 0 <= w <= wave_of ws i -> exists j, (j < n)%nat /\ wave_of ws j = w.
Proof using.
  intros Hl Hf i. induction i as [i IH] using lt_wf_ind. intros w Hi Hw.
  destruct (decide (w = wave_of ws i)) as [->|]; [by exists i|].
  destruct (Hl i Hi) as [_ [H0|(f & Hfi & Hwf)]]; [lia|]. specialize (Hf f i Hfi). apply (IH f); lia.
Qed.
End chains.

Lemma level_size_pos ws i : (i < length ws)%nat -> 0 < level_size ws (wave_of ws i).
Proof.
  intros Hi. unfold level_size, wave_of. destruct (lookup_lt_is_Some_2 ws i Hi) as [w Hw]. rewrite Hw.
  apply list_elem_of_lookup_2 in Hw. change (default 0 (Some w)) with w.
  assert (w ∈ filter (fun x => x = w) ws) as H by (by apply list_elem_of_filter).
  unfold blen. destruct (filter _ ws); [by apply not_elem_of_nil in H|cbn; lia].
Qed.

(** ** The theorems *)

Section build.
Context {T : Type} `{!AccessTable T, !AccessTableLaws T} (sha3_512 : bytes -> bytes).

(** What a built schedule consists of. *)
Lemma build_spec es :
  es <> [] -> blen es < 2 ^ 32 - 1 -> Forall entry_ok es ->
  exists st : sched_state T, sched_inv (length es) es st /\
    qrx_velocity_block_schedule_build (T := T) sha3_512 (Some <$> es) =
      Some {| node_count := blen es; waves := sc_waves st; wave_count := sc_max_wave st + 1; edges := sc_edges st;
        static_conflicts := sc_conflicts st; barrier_fences := sc_fences st; barrier_nodes := sc_barriers st;
        critical_path_nodes := sc_max_wave st + 1; max_parallel_width := max_width (sc_waves st) (sc_max_wave st + 1);
        schedule_hash := compute_schedule_hash sha3_512 es (sc_waves st) (sc_edges st) |} /\
    0 <= sc_max_wave st < blen es.
Proof.
  intros Hne Hb Hok. unfold qrx_velocity_block_schedule_build. rewrite blen_fmap.
  assert (0 < blen es) as Hpos by (destruct es; [done|unfold blen; cbn; lia]).
  assert (SIZE_MAX / QRX_VELOCITY_MAX_ACCESS_KEYS = 1537228672809129301) as Hq by reflexivity.
  rewrite decide_False by lia. cbv zeta. rewrite (decide_False (P := blen es > _)) by (rewrite Hq; lia).
  unfold QRX_VELOCITY_MAX_ACCESS_KEYS. rewrite (u64_small (blen es * 12)) by word.
  rewrite decide_True by lia.
  destruct (at_init_model (blen es * 12)) as (m & -> & Hm); [lia|]. cbn [mbind option_bind].
  rewrite length_fmap.
  destruct (sched_loop_spec (length es) [] es (sched_init m (length es))) as (st & Hst & Hi);
    [by apply inv_init|done|exact Hb|done|].
  cbn [length] in Hst. rewrite Hst. cbn [mbind option_bind app] in *.
  destruct (iv_max _ _ _ Hi) as [Hm1 Hm2].
  assert (0 <= sc_max_wave st < blen es) as Hmw.
  { pose proof (Hm1 0%nat ltac:(unfold blen in *; lia)) as H0.
    destruct (iv_level _ _ _ Hi 0%nat ltac:(unfold blen in *; lia)) as [H1 _].
    destruct Hm2 as [->|(i & Hil & ->)]; [lia|]. destruct (iv_level _ _ _ Hi i Hil) as [H2 _]. unfold blen. lia. }
  exists st. split; [done|]. split; [|done].
  rewrite (u32_small (sc_max_wave st + 1)) by word. rewrite decide_True by lia.
  do 3 f_equal. clear. induction es as [|e es IH]; [done|]. cbn. by rewrite IH.
Qed.

Lemma conflicts_ordered es :
  blen es < 2 ^ 32 - 1 -> Forall entry_ok es ->
  exists s, qrx_velocity_block_schedule_build (T := T) sha3_512 (Some <$> es) = Some s /\
    length (waves s) = length es /\
    forall i j a b, (i < j)%nat -> es !! i = Some a -> es !! j = Some b -> entries_conflict a b ->
      path (edges s) i j /\ wave_of (waves s) i < wave_of (waves s) j.
Proof.
  intros Hb Hok. destruct (decide (es = [])) as [->|Hne].
  { eexists. split; [reflexivity|]. split; [done|]. intros i j a b _ H. by rewrite lookup_nil in H. }
  destruct (build_spec es Hne Hb Hok) as (st & Hi & -> & _). eexists. split; [reflexivity|].
  cbn [waves edges]. split; [apply (iv_len _ _ _ Hi)|]. intros i j a b Hij Ha Hb' Hc.
  pose proof (iv_conflict _ _ _ Hi i j a b Hij Ha Hb' Hc) as Hp. split; [done|].
  eapply path_up; [|exact Hp]. intros x y H. by apply (iv_edges _ _ _ Hi).
Qed.

(** C8: a schedule is built for every list of well-formed entries, and it
    orders every two conflicting ones: the earlier one has a path of
    dependency edges to the later one and is in an earlier wave. *)
Theorem schedule_orders_conflicts es :
  blen es < 2 ^ 32 - 1 -> Forall entry_ok es ->
  exists s, qrx_velocity_block_schedule_build (T := T) sha3_512 (Some <$> es) = Some s /\
    length (waves s) = length es /\
    forall i j a b, (i < j)%nat -> es !! i = Some a -> es !! j = Some b -> entries_conflict a b ->
      path (edges s) i j /\ wave_of (waves s) i < wave_of (waves s) j.
Proof. exact (conflicts_ordered es). Qed.

(** The edges of a schedule go forward to a later wave, so the graph is
    acyclic and a wave can run in parallel; [wave_count] is the length of the
    longest chain of dependent transactions, and [max_parallel_width] the
    size of the largest wave. *)
Theorem schedule_waves_are_levels es s :
  es <> [] -> blen es < 2 ^ 32 - 1 -> Forall entry_ok es ->
  qrx_velocity_block_schedule_build (T := T) sha3_512 (Some <$> es) = Some s ->
  (forall i j, edge_rel (edges s) i j -> (i < j < length es)%nat /\ wave_of (waves s) i < wave_of (waves s) j) /\
  (forall l, chain (edges s) l -> Forall (fun i => (i < length es)%nat) l -> blen l <= critical_path_nodes s) /\
  (exists l, chain (edges s) l /\ Forall (fun i => (i < length es)%nat) l /\ blen l = critical_path_nodes s) /\
  wave_count s = critical_path_nodes s /\
  (forall w, 0 <= w < wave_count s -> 0 < level_size (waves s) w <= max_parallel_width s) /\
  (exists w, 0 <= w < wave_count s /\ max_parallel_width s = level_size (waves s) w).
Proof.
  intros Hne Hb Hok. destruct (build_spec es Hne Hb Hok) as (st & Hi & -> & Hmw). intros [= <-].
  cbn [waves edges wave_count critical_path_nodes max_parallel_width].
  pose proof (iv_len _ _ _ Hi) as Hlen. destruct (iv_max _ _ _ Hi) as [Hm1 Hm2].
  assert (forall i j, edge_rel (sc_edges st) i j -> wave_of (sc_waves st) i < wave_of (sc_waves st) j) as Hup
    by (intros i j H; by apply (iv_edges _ _ _ Hi)).
  assert (forall i j, edge_rel (sc_edges st) i j -> (i < j)%nat) as Hfw
    by (intros i j H; destruct (iv_edges _ _ _ Hi i j H); lia).
  assert (exists i, (i < length es)%nat /\ sc_max_wave st = wave_of (sc_waves st) i) as (top & Htop & Htw).
  { destruct Hm2 as [H0|H]; [|done]. exists 0%nat. unfold blen in Hmw. split; [lia|].
    pose proof (Hm1 0%nat ltac:(lia)). pose proof (iv_level _ _ _ Hi 0%nat ltac:(lia)). lia. }
  assert (forall i, (i < length es)%nat -> 0 <= wave_of (sc_waves st) i /\
    (wave_of (sc_waves st) i = 0 \/ exists f, edge_rel (sc_edges st) f i /\ wave_of (sc_waves st) i = wave_of (sc_waves st) f + 1)) as Hlv.
  { intros i H. destruct (iv_level _ _ _ Hi i H) as [? ?]. split; [lia|done]. }
  destruct (max_width_spec (sc_waves st) (sc_max_wave st + 1)) as [Hw1 Hw2]; [lia|unfold blen in *; lia| |].
  { apply Forall_lookup. intros i w Hw. pose proof (lookup_lt_Some _ _ _ Hw) as Hil. rewrite Hlen in Hil.
    pose proof (Hm1 i Hil) as H1. pose proof (Hlv i Hil) as [H2 _]. unfold wave_of in H1, H2. rewrite Hw in H1, H2. cbn in H1, H2. lia. }
  split_and!.
  - apply (iv_edges _ _ _ Hi).
  - intros [|a l] Hc Hin; [rewrite blen_nil; lia|]. pose proof (chain_up _ _ Hup a l Hc) as Hcu. rewrite blen_cons.
    assert (List.last l a ∈ a :: l) as Hla.
    { clear. revert a. induction l as [|b l IH]; intros a; [set_solver|]. rewrite last_cons_default. specialize (IH b). set_solver. }
    rewrite Forall_forall in Hin. pose proof (Hm1 _ (Hin _ Hla)). destruct (Hlv a) as [? _]; [apply Hin; set_solver|]. lia.
  - destruct (chain_of_wave _ (sc_waves st) _ Hlv Hfw top Htop) as (l & Hc & Hbl). exists (l ++ [top]). split; [done|].
    split; [|rewrite blen_app, blen_cons, blen_nil; lia]. clear -Hc Hfw Htop. induction l as [|x l IH]; [by apply Forall_singleton|].
    assert (chain (sc_edges st) (l ++ [top]) /\ exists y, edge_rel (sc_edges st) x y /\ y ∈ l ++ [top]) as [Hc' (y & Hxy & Hy)].
    { destruct l as [|z l]; destruct Hc as [Hc1 Hc2]; (split; [done|]); eexists; (split; [exact Hc1|]); set_solver. }
    specialize (IH Hc'). constructor; [|done]. rewrite Forall_forall in IH. specialize (IH y Hy). apply Hfw in Hxy. lia.
  - done.
  - intros w Hw. split; [|by apply Hw1].
    destruct (level_reached _ (sc_waves st) _ Hlv Hfw top w Htop ltac:(lia)) as (j & Hj & <-).
    apply level_size_pos. lia.
  - done.
Qed.
End build.

(** ** Independence of the table *)

Section independence.
Context {T1 : Type} `{!AccessTable T1, !AccessTableLaws T1} {T2 : Type} `{!AccessTable T2, !AccessTableLaws T2}.

Record same_state (s1 : sched_state T1) (s2 : sched_state T2) (n : Z) : Prop := {
  ss_waves : sc_waves s1 = sc_waves s2;
  ss_edges : sc_edges s1 = sc_edges s2;
  ss_tags : sc_tags s1 = sc_tags s2;
  ss_map : exists s, at_model (sc_map s1) s /\ at_model (sc_map s2) s /\ Z.of_nat (size s) <= n;
  ss_segment : sc_segment_start s1 = sc_segment_start s2;
  ss_barrier : sc_last_barrier s1 = sc_last_barrier s2;
  ss_max : sc_max_wave s1 = sc_max_wave s2;
  ss_conflicts : sc_conflicts s1 = sc_conflicts s2;
  ss_fences : sc_fences s1 = sc_fences s2;
  ss_barriers : sc_barriers s1 = sc_barriers s2
}.

Lemma last_accessors_same m1 m2 s keys : at_model (T := T1) m1 s -> at_model (T := T2) m2 s ->
  Forall (fun k => k <> []) keys -> last_accessors m1 keys = last_accessors m2 keys.
Proof.
  intros H1 H2 Hk. unfold last_accessors. induction Hk as [|k keys Hk _ IH]; [done|]. cbn.
  rewrite (at_lookup_model m1 s k), (at_lookup_model m2 s k) by done. by rewrite IH.
Qed.

Lemma set_keys_model {T} `{!AccessTable T, !AccessTableLaws T} (m : T) s keys v :
  at_model m s -> Forall (fun k => k <> []) keys -> Z.of_nat (size s) + blen keys < 2 ^ 56 ->
  exists m', foldl (fun om k => m ← om; at_set m k v) (Some m) keys = Some m' /\
    at_model m' (foldl (fun s k => <[k := v]> s) s keys) /\
    Z.of_nat (size (foldl (fun s k => <[k := v]> s) s keys)) <= Z.of_nat (size s) + blen keys.
Proof.
  intros Hm Hk. revert m s Hm. induction Hk as [|k keys Hk _ IH]; intros m s Hm Hs.
  { exists m. split_and!; [done|done|rewrite blen_nil; cbn; lia]. }
  rewrite blen_cons in *. pose proof (blen_nonneg keys).
  destruct (at_set_model m s k v Hm Hk ltac:(lia)) as (m1 & Hs1 & Hm1).
  assert (Z.of_nat (size (<[k := v]> s)) <= Z.of_nat (size s) + 1) as Hsz.
  { destruct (s !! k) eqn:E; [rewrite map_size_insert_Some by done|rewrite map_size_insert_None by done]; lia. }
  destruct (IH m1 _ Hm1) as (m' & Hf & Hm' & Hsz'); [lia|]. exists m'. cbn [foldl mbind option_bind].
  rewrite Hs1. split_and!; [done|done|lia].
Qed.

Lemma sched_node_same s1 s2 n i e :
  same_state s1 s2 n -> 0 <= n -> n + 12 < 2 ^ 56 -> entry_ok e ->
  exists s1' s2', sched_node s1 i e = Some s1' /\ sched_node s2 i e = Some s2' /\ same_state s1' s2' (n + 12).
Proof.
  intros [E1 E2 E3 (s & M1 & M2 & Hs) E4 E5 E6 E7 E8 E9] Hn0 Hn [Hc Hk]. unfold QRX_VELOCITY_MAX_ACCESS_KEYS in Hc.
  unfold sched_node. cbv zeta. rewrite <- E1, <- E2, <- E3, <- E4, <- E5, <- E6, <- E7, <- E8, <- E9.
  destruct (is_barrier e).
  - do 2 eexists. split_and!; [reflexivity|reflexivity|]. split; try done. exists ∅.
    split_and!; [by eapply at_clear_model|by eapply at_clear_model|rewrite map_size_empty; lia].
  - rewrite <- (last_accessors_same _ _ s (access e) M1 M2 Hk).
    destruct (set_keys_model (sc_map s1) s (access e) (Z.of_nat i) M1 Hk ltac:(lia)) as (m1 & -> & Hm1 & Hsz).
    destruct (set_keys_model (sc_map s2) s (access e) (Z.of_nat i) M2 Hk ltac:(lia)) as (m2 & -> & Hm2 & _).
    cbn [mbind option_bind]. do 2 eexists. split_and!; [reflexivity|reflexivity|].
    split; try done. eexists. split_and!; [exact Hm1|exact Hm2|lia].
Qed.

Lemma sched_loop_same es s1 s2 n i :
  same_state s1 s2 n -> 0 <= n -> n + 12 * blen es < 2 ^ 56 -> Forall entry_ok es ->
  exists s1' s2', sched_loop s1 i (Some <$> es) = Some s1' /\ sched_loop s2 i (Some <$> es) = Some s2' /\
    exists n', same_state s1' s2' n'.
Proof.
  intros Hs H0 Hn Hok. revert s1 s2 n i Hs H0 Hn. induction Hok as [|e es He _ IH]; intros s1 s2 n i Hs H0 Hn.
  { exists s1, s2. split_and!; [done|done|by exists n]. }
  rewrite blen_cons in Hn. pose proof (blen_nonneg es).
  destruct (sched_node_same s1 s2 n i e Hs H0 ltac:(lia) He) as (t1 & t2 & H1 & H2 & Ht).
  destruct (IH t1 t2 (n + 12) (S i) Ht) as (s1' & s2' & L1 & L2 & Hs'); [lia|lia|].
  exists s1', s2'. cbn [fmap list_fmap sched_loop]. rewrite H1, H2. done.
Qed.
End independence.

(** The schedule does not depend on the table: the open-addressing hash
    table of the code gives the schedule that a finite map gives, for every
    list of well-formed entries. *)
Theorem schedule_table_independent sha3_512 es :
  blen es < 2 ^ 32 - 1 -> Forall entry_ok es ->
  qrx_velocity_block_schedule_build (T := AccessMap) sha3_512 (Some <$> es) =
  qrx_velocity_block_schedule_build (T := gmap bytes Z) sha3_512 (Some <$> es).
Proof.
  intros Hb Hok. unfold qrx_velocity_block_schedule_build. rewrite blen_fmap, length_fmap.
  case_decide as Hz; [done|]. cbv zeta.
  assert (SIZE_MAX / QRX_VELOCITY_MAX_ACCESS_KEYS = 1537228672809129301) as Hq by reflexivity.
  pose proof (blen_nonneg es). rewrite (decide_False (P := blen es > _)) by (rewrite Hq; lia).
  unfold QRX_VELOCITY_MAX_ACCESS_KEYS. rewrite (u64_small (blen es * 12)) by word. rewrite decide_True by lia.
  destruct (at_init_model (T := AccessMap) (blen es * 12)) as (m1 & -> & M1); [lia|].
  destruct (at_init_model (T := gmap bytes Z) (blen es * 12)) as (m2 & -> & M2); [lia|]. cbn [mbind option_bind].
  destruct (sched_loop_same es (sched_init m1 (length es)) (sched_init m2 (length es)) 0 0) as (s1 & s2 & -> & -> & n & Hs).
  - split; try done. exists ∅. split_and!; [done|done|rewrite map_size_empty; lia].
  - lia.
  - lia.
  - done.
  - cbn [mbind option_bind]. destruct Hs as [E1 E2 E3 _ E4 E5 E6 E7 E8 E9].
    by rewrite E1, E2, E6, E7, E8, E9.
Qed.

(** ** A block of four transactions *)

Definition ex_entry (id : bytes) (cls : Z) (keys : list bytes) : QrxVelocityMempoolEntry :=
  {| txid := id; tx := []; fee := 0; nonce := 0; lane := 0; arrival_seq := 0; shard := 0; adapter_class := cls;
     tx_type := []; from := []; to := []; access := keys |}.

Definition ex_block : list QrxVelocityMempoolEntry :=
  [ex_entry (cs "01") QRX_VELOCITY_ADAPTER_TRANSFER [cs "account:a"; cs "account:b"];
   ex_entry (cs "02") QRX_VELOCITY_ADAPTER_TRANSFER [cs "account:c"; cs "account:d"];
   ex_entry (cs "03") QRX_VELOCITY_ADAPTER_TRANSFER [cs "account:b"; cs "account:c"];
   ex_entry (cs "04") QRX_VELOCITY_ADAPTER_BARRIER [cs "account:x"]].

Lemma ex_block_ok : blen ex_block < 2 ^ 32 - 1 /\ Forall entry_ok ex_block.
Proof.
  split; [reflexivity|]. unfold ex_block. repeat (apply List.Forall_cons; [split; [vm_compute; discriminate|by repeat constructor]|]).
  apply List.Forall_nil.
Defined.

Example ex_waves : waves <$> qrx_velocity_block_schedule_build (T := AccessMap) id (Some <$> ex_block) = Some [0; 0; 1; 2].
Proof. vm_compute. reflexivity. Qed.

Lemma schedule_orders_conflicts_witness :
  exists s, qrx_velocity_block_schedule_build (T := AccessMap) id (Some <$> ex_block) = Some s /\
    length (waves s) = 4%nat /\
    forall i j a b, (i < j)%nat -> ex_block !! i = Some a -> ex_block !! j = Some b -> entries_conflict a b ->
      path (edges s) i j /\ wave_of (waves s) i < wave_of (waves s) j.
Proof. exact (schedule_orders_conflicts (T := AccessMap) id ex_block (proj1 ex_block_ok) (proj2 ex_block_ok)). Defined.

Lemma schedule_waves_are_levels_witness :
  exists s, qrx_velocity_block_schedule_build (T := AccessMap) id (Some <$> ex_block) = Some s /\
    (exists l, chain (edges s) l /\ Forall (fun i => (i < 4)%nat) l /\ blen l = critical_path_nodes s).
Proof.
  destruct (qrx_velocity_block_schedule_build (T := AccessMap) id (Some <$> ex_block)) as [s|] eqn:E.
  - exists s. split; [reflexivity|]. assert (ex_block <> []) as Hne by discriminate.
    exact (proj1 (proj2 (proj2 (schedule_waves_are_levels (T := AccessMap) id ex_block s Hne (proj1 ex_block_ok) (proj2 ex_block_ok) E)))).
  - exfalso. vm_compute in E. discriminate E.
Defined.

Lemma schedule_table_independent_witness :
  qrx_velocity_block_schedule_build (T := AccessMap) id (Some <$> ex_block) =
  qrx_velocity_block_schedule_build (T := gmap bytes Z) id (Some <$> ex_block).
Proof. exact (schedule_table_independent id ex_block (proj1 ex_block_ok) (proj2 ex_block_ok)). Defined.
