(* ===== verification/Mempool.v ===== *)
(** * Mempool (src/qrx-core/src/mempool/qrx_velocity_mempool.c, .h, qrx_mempool_limits.h)

    Thirty-two shards of transactions behind one lock, a write-ahead log of
    adds and removes that is replayed when the pool is opened, a checkpoint
    that rewrites the log, and the plan of a block.

    A transaction is a C string.  The disk holds one file, the log: [None]
    when it does not exist.  [io] says whether the writes of a call succeed
    and, when they fail, how many bytes reached the file.  Memory allocation
    succeeds.  SHA3-512 is a parameter. *)

From stdpp Require Import gmap sorting.
From S2P Require Import Prelude Format AccessMap Scheduler.

(** ** Constants and data *)

Definition QV_WAL_MAGIC : Z := 0x51565734.
Definition QV_WAL_VERSION : Z := 1.
Definition QV_WAL_ADD : Z := 1.
Definition QV_WAL_REMOVE : Z := 2.
Definition QRX_VELOCITY_MEMPOOL_SHARDS : Z := 32.
Definition QRX_MAX_TX_SIZE : Z := 256 * 1024.
Definition QRX_MAX_MEMPOOL_TX : Z := 50000.

(** [qh_txid] is the string in the array of 129 bytes. *)
Record QvWalHeader := mkQvHdr {
  qh_magic : Z;
  qh_version : Z;
  qh_op : Z;
  qh_payload_len : Z;
  qh_crc32 : Z;
  qh_txid : bytes
}.
Definition sizeof_qvhdr : nat := 148.

(** The header as [fwrite] puts it on disk, with the padding of the struct. *)
Definition enc_qvhdr (h : QvWalHeader) : bytes :=
  le_split 4 (qh_magic h) ++ le_split 2 (qh_version h) ++ le_split 2 (qh_op h)
  ++ le_split 4 (qh_payload_len h) ++ le_split 4 (qh_crc32 h) ++ resize 129 x00 (qh_txid h) ++ repeat x00 3.

Definition le_field (off n : nat) (b : bytes) : Z := le_combine (take n (drop off b)).
Definition dec_qvhdr (b : bytes) : QvWalHeader :=
  {| qh_magic := le_field 0 4 b; qh_version := le_field 4 2 b; qh_op := le_field 6 2 b;
     qh_payload_len := le_field 8 4 b; qh_crc32 := le_field 12 4 b; qh_txid := cstr (take 129 (drop 16 b)) |}.

Definition crc_step (crc : Z) : Z :=
  Z.lxor (Z.shiftr crc 1) (Z.land (u32 (0 - Z.land crc 1)) 0xEDB88320).
Definition crc32_local (data : bytes) : Z :=
  Z.lxor (foldl (fun crc b => Nat.iter 8 crc_step (Z.lxor crc (byte.unsigned b))) 0xFFFFFFFF data) 0xFFFFFFFF.

Definition fnv1a64 (s : bytes) : Z :=
  foldl (fun h c => Z.lxor h (byte.unsigned c) *64 1099511628211) 1469598103934665603 s.

(** ** Transactions *)

Definition field (tx key : bytes) (out_sz : nat) : option bytes := sep_field x0a tx key out_sz.
Definition payload_field (payload key : bytes) (out_sz : nat) : option bytes := sep_field x3b payload key out_sz.

Definition qrx_velocity_tx_adapter_class (tx : bytes) : Z :=
  match field tx (cs "tx_type") 64 with
  | None => QRX_VELOCITY_ADAPTER_BARRIER
  | Some type =>
      if decide (type = cs "TRANSFER_FAST") then QRX_VELOCITY_ADAPTER_TRANSFER
      else if decide (type = cs "AGENT_REGISTER" \/ type = cs "AGENT_UPDATE" \/ type = cs "AGENT_REVOKE" \/
                      type = cs "GATEWAY_REGISTER" \/ type = cs "GATEWAY_REVOKE") then QRX_VELOCITY_ADAPTER_STATEFUL
      else if decide (type = cs "ORDER_CREATE" \/ type = cs "ORDER_CANCEL" \/ type = cs "ORDER_REPLACE")
      then QRX_VELOCITY_ADAPTER_DYNAMIC
      else QRX_VELOCITY_ADAPTER_BARRIER
  end.

(** [add_access] on the array of keys. *)
Definition add_access (acc : list bytes) (prefix value : bytes) : list bytes :=
  if decide (value = [] \/ blen acc >= QRX_VELOCITY_MAX_ACCESS_KEYS) then acc
  else acc ++ [snprintf_s 512 (prefix ++ value)].

(** [if (payload_field(...) == 0) add_access(...)]. *)
Definition add_access_opt (acc : list bytes) (prefix : bytes) (v : option bytes) : list bytes :=
  match v with Some v => add_access acc prefix v | None => acc end.

Section hashed.
Variable sha3_512 : bytes -> bytes.

Definition hash_tx (tx : bytes) : bytes := hex (sha3_512 tx).

(** The keys that [qrx_velocity_tx_metadata] collects. *)
Definition access_keys (txid from to tx_type payload : bytes) : list bytes :=
  let acc := add_access [] (cs "acct:") from in
  let acc := add_access acc (cs "nonce:") from in
  let acc := add_access acc (cs "acct:") to in
  let acc := if decide (take 6 tx_type = cs "AGENT_") then add_access acc (cs "agent:") to else acc in
  let acc := if decide (tx_type = cs "ORDER_CREATE" \/ tx_type = cs "EXTERNAL_ORDER" \/ tx_type = cs "CROSSCHAIN_ORDER")
    then add_access (add_access acc (cs "order:") txid) (cs "agent:") from else acc in
  let acc := if decide (tx_type = cs "ORDER_CANCEL" \/ tx_type = cs "ORDER_REPLACE")
    then add_access (add_access_opt acc (cs "order:") (payload_field payload (cs "order_id") 512)) (cs "agent:") from
    else acc in
  let acc := if decide (tx_type = cs "GATEWAY_REGISTER" \/ tx_type = cs "GATEWAY_REVOKE")
    then add_access acc (cs "gateway:") to else acc in
  let acc := if decide (tx_type = cs "EXECUTION_REPORT")
    then add_access_opt (add_access acc (cs "gateway:") from) (cs "order:") (payload_field payload (cs "order_id") 512)
    else acc in
  let acc := if decide (tx_type = cs "CROSSCHAIN_REDEEM" \/ tx_type = cs "CROSSCHAIN_REFUND")
    then add_access_opt acc (cs "xswap:") (payload_field payload (cs "session_id") 512) else acc in
  if decide (tx_type = cs "BTC_SPV_HEADER" \/ tx_type = cs "BTC_SPV_FUNDING_PROOF")
  then add_access acc (cs "btcspv:") (cs "bestchain") else acc.

Definition qrx_velocity_tx_metadata (t : bytes) : QrxVelocityMempoolEntry :=
  let id := hash_tx t in
  let fr := default [] (field t (cs "from") 385) in
  let tt := default [] (field t (cs "to") 385) in
  let ty := default [] (field t (cs "tx_type") 48) in
  let payload := default [] (field t (cs "payload") (Z.to_nat 8192)) in
  {| txid := id; tx := []; fee := strtoll (default [] (field t (cs "fee") 64));
     nonce := strtoll (default [] (field t (cs "nonce") 64)); lane := strtoll (default [] (field t (cs "lane_id") 64));
     arrival_seq := 0; shard := fnv1a64 (if decide (fr <> []) then fr else id) mod QRX_VELOCITY_MEMPOOL_SHARDS;
     adapter_class := qrx_velocity_tx_adapter_class t; tx_type := ty; from := fr; to := tt;
     access := access_keys id fr tt ty payload |}.
End hashed.

(** A shared access key; without the barriers, which only the scheduler knows. *)
Definition qrx_velocity_entries_conflict (a b : QrxVelocityMempoolEntry) : bool :=
  existsb (fun k => existsb (fun k' => bool_decide (k = k')) (access b)) (access a).

(** ** The pool *)

Record QrxVelocityMempoolStats := mkStats {
  accepted : Z;
  duplicates : Z;
  rejected_full : Z;
  wal_records : Z;
  recovered_records : Z;
  removed : Z;
  stat_bytes : Z
}.

(** [wal] is the log on disk; [wal_file] says whether it is open for
    appending. *)
Record QrxVelocityMempool := mkPool {
  shards : list (list QrxVelocityMempoolEntry);
  max_entries : Z;
  next_seq : Z;
  stats : QrxVelocityMempoolStats;
  wal : option bytes;
  wal_file : bool;
  wal_since_sync : Z;
  wal_syncs : Z
}.

(** Whether the writes of a call succeed; on a failure [n] bytes reached the
    file. *)
Inductive io := IoOk | IoFail (n : nat).

Definition with_log (p : QrxVelocityMempool) (w : option bytes) : QrxVelocityMempool :=
  {| shards := shards p; max_entries := max_entries p; next_seq := next_seq p; stats := stats p; wal := w;
     wal_file := wal_file p; wal_since_sync := wal_since_sync p; wal_syncs := wal_syncs p |}.

Definition wal_record (op : Z) (txid payload : bytes) : bytes :=
  enc_qvhdr {| qh_magic := QV_WAL_MAGIC; qh_version := QV_WAL_VERSION; qh_op := op; qh_payload_len := u32 (blen payload);
               qh_crc32 := crc32_local payload; qh_txid := snprintf_s 129 txid |} ++ payload.

(** The result code and the new pool. *)
Definition wal_append (o : io) (p : QrxVelocityMempool) (op : Z) (txid payload : bytes) : Z * QrxVelocityMempool :=
  if wal_file p then
    let rec := wal_record op txid payload in
    match o with
    | IoFail n => (-1, with_log p (Some (default [] (wal p) ++ take n rec)))
    | IoOk =>
        let since := wal_since_sync p +64 1 in
        let s := stats p in
        (0, {| shards := shards p; max_entries := max_entries p; next_seq := next_seq p;
               stats := {| accepted := accepted s; duplicates := duplicates s; rejected_full := rejected_full s;
                 wal_records := wal_records s +64 1; recovered_records := recovered_records s; removed := removed s;
                 stat_bytes := stat_bytes s |};
               wal := Some (default [] (wal p) ++ rec); wal_file := true;
               wal_since_sync := if decide (since >= 64) then 0 else since;
               wal_syncs := if decide (since >= 64) then wal_syncs p +64 1 else wal_syncs p |})
    end
  else (-1, p).

Definition shard_find (s : list QrxVelocityMempoolEntry) (id : bytes) : option nat :=
  fst <$> list_find (fun e => txid e = id) s.

Definition total_count_unlocked (p : QrxVelocityMempool) : Z := zsum (blen <$> shards p).

(** [s->items[s->count++] = e]. *)
Definition push_entry (p : QrxVelocityMempool) (e : QrxVelocityMempoolEntry) : QrxVelocityMempool :=
  let s := stats p in
  {| shards := alter (fun l => l ++ [e]) (Z.to_nat (shard e)) (shards p); max_entries := max_entries p;
     next_seq := next_seq p;
     stats := {| accepted := accepted s +64 1; duplicates := duplicates s; rejected_full := rejected_full s;
       wal_records := wal_records s; recovered_records := recovered_records s; removed := removed s;
       stat_bytes := stat_bytes s +64 blen (tx e) |};
     wal := wal p; wal_file := wal_file p; wal_since_sync := wal_since_sync p; wal_syncs := wal_syncs p |}.

Definition count_duplicate (p : QrxVelocityMempool) : QrxVelocityMempool :=
  let s := stats p in
  {| shards := shards p; max_entries := max_entries p; next_seq := next_seq p;
     stats := {| accepted := accepted s; duplicates := duplicates s +64 1; rejected_full := rejected_full s;
       wal_records := wal_records s; recovered_records := recovered_records s; removed := removed s;
       stat_bytes := stat_bytes s |};
     wal := wal p; wal_file := wal_file p; wal_since_sync := wal_since_sync p; wal_syncs := wal_syncs p |}.

Definition count_full (p : QrxVelocityMempool) : QrxVelocityMempool :=
  let s := stats p in
  {| shards := shards p; max_entries := max_entries p; next_seq := next_seq p;
     stats := {| accepted := accepted s; duplicates := duplicates s; rejected_full := rejected_full s +64 1;
       wal_records := wal_records s; recovered_records := recovered_records s; removed := removed s;
       stat_bytes := stat_bytes s |};
     wal := wal p; wal_file := wal_file p; wal_since_sync := wal_since_sync p; wal_syncs := wal_syncs p |}.

(** [e.arrival_seq = p->next_seq++]. *)
Definition take_seq (p : QrxVelocityMempool) : QrxVelocityMempool :=
  {| shards := shards p; max_entries := max_entries p; next_seq := next_seq p +64 1; stats := stats p;
     wal := wal p; wal_file := wal_file p; wal_since_sync := wal_since_sync p; wal_syncs := wal_syncs p |}.

(** [forced_txid] over the hash of the transaction. *)
Definition forced_id (forced id : bytes) : bytes := if decide (forced <> []) then snprintf_s 129 forced else id.

Definition complete_entry (m : QrxVelocityMempoolEntry) (id t : bytes) (seq : Z) : QrxVelocityMempoolEntry :=
  {| txid := id; tx := t; fee := fee m; nonce := nonce m; lane := lane m; arrival_seq := seq; shard := shard m;
     adapter_class := adapter_class m; tx_type := tx_type m; from := from m; to := to m; access := access m |}.

Section ops.
Variable sha3_512 : bytes -> bytes.

(** The result code, the identifier written to [out], and the pool. *)
Definition add_unlocked (o : io) (p : QrxVelocityMempool) (t forced : bytes) (persist : bool)
    : Z * option bytes * QrxVelocityMempool :=
  let m := qrx_velocity_tx_metadata sha3_512 t in
  let id := forced_id forced (txid m) in
  match shard_find (default [] (shards p !! Z.to_nat (shard m))) id with
  | Some _ => (1, Some id, count_duplicate p)
  | None =>
      if decide (total_count_unlocked p >= max_entries p) then (-2, None, count_full p) else
      let e := complete_entry m id t (next_seq p) in
      let p := take_seq p in
      let '(rc, p) := if persist then wal_append o p QV_WAL_ADD id t else (0, p) in
      if decide (rc <> 0) then (-1, None, p) else (0, Some id, push_entry p e)
  end.

(** The shard and the place in it of [id]. *)
Fixpoint find_in (l : list (list QrxVelocityMempoolEntry)) (sidx : nat) (id : bytes) : option (nat * nat) :=
  match l with
  | [] => None
  | s :: l => match shard_find s id with Some i => Some (sidx, i) | None => find_in l (S sidx) id end
  end.

(** [if (i + 1 < s->count) s->items[i] = s->items[s->count - 1]; s->count--;]. *)
Definition swap_remove {A} (i : nat) (s : list A) : list A :=
  let n := length s in
  take (n - 1) (if decide (i + 1 < n)%nat then match s !! (n - 1)%nat with Some x => <[i := x]> s | None => s end else s).

Definition drop_entry (p : QrxVelocityMempool) (sidx i : nat) : QrxVelocityMempool :=
  let s := stats p in
  let len := blen (default [] (tx <$> (default [] (shards p !! sidx) !! i))) in
  {| shards := alter (swap_remove i) sidx (shards p); max_entries := max_entries p; next_seq := next_seq p;
     stats := {| accepted := accepted s; duplicates := duplicates s; rejected_full := rejected_full s;
       wal_records := wal_records s; recovered_records := recovered_records s; removed := removed s +64 1;
       stat_bytes := stat_bytes s -64 len |};
     wal := wal p; wal_file := wal_file p; wal_since_sync := wal_since_sync p; wal_syncs := wal_syncs p |}.

Definition remove_unlocked (o : io) (p : QrxVelocityMempool) (id : bytes) (persist : bool) : Z * QrxVelocityMempool :=
  match find_in (shards p) 0 id with
  | None => (1, p)
  | Some (sidx, i) =>
      let '(rc, p) := if persist then wal_append o p QV_WAL_REMOVE id [] else (0, p) in
      if decide (rc <> 0) then (-1, p) else (0, drop_entry p sidx i)
  end.

(** ** The log *)

Definition count_recovered (p : QrxVelocityMempool) : QrxVelocityMempool :=
  let s := stats p in
  {| shards := shards p; max_entries := max_entries p; next_seq := next_seq p;
     stats := {| accepted := accepted s; duplicates := duplicates s; rejected_full := rejected_full s;
       wal_records := wal_records s; recovered_records := recovered_records s +64 1; removed := removed s;
       stat_bytes := stat_bytes s |};
     wal := wal p; wal_file := wal_file p; wal_since_sync := wal_since_sync p; wal_syncs := wal_syncs p |}.

(** One record that was read completely; [None] is the error return.  A
    payload of length 0 leaves [buf] null. *)
Definition replay_record (p : QrxVelocityMempool) (h : QvWalHeader) (payload : bytes) : option QrxVelocityMempool :=
  if decide (qh_op h = QV_WAL_ADD /\ qh_payload_len h <> 0) then
    let '(rc, _, p) := add_unlocked IoOk p (cstr payload) (qh_txid h) false in
    if decide (rc < 0 /\ rc <> -2) then None else Some (count_recovered p)
  else if decide (qh_op h = QV_WAL_REMOVE) then
    Some (count_recovered (snd (remove_unlocked IoOk p (qh_txid h) false)))
  else Some (count_recovered p).

(** The loop of [replay] over the rest of the file. *)
Fixpoint replay_loop (fuel : nat) (p : QrxVelocityMempool) (f : bytes) : option QrxVelocityMempool :=
  match fuel with
  | O => None
  | S fuel =>
      if decide (length f < sizeof_qvhdr)%nat then Some p else
      let h := dec_qvhdr (take sizeof_qvhdr f) in
      let rest := drop sizeof_qvhdr f in
      if decide (qh_magic h <> QV_WAL_MAGIC \/ qh_version h <> QV_WAL_VERSION \/ qh_payload_len h > QRX_MAX_TX_SIZE)
      then None else
      let n := Z.to_nat (qh_payload_len h) in
      if decide (length rest < n)%nat then Some p else
      let payload := take n rest in
      if decide (qh_payload_len h <> 0 /\ crc32_local payload <> qh_crc32 h) then None else
      p ← replay_record p h payload;
      replay_loop fuel p (drop n rest)
  end.

Definition replay (p : QrxVelocityMempool) : option QrxVelocityMempool :=
  match wal p with
  | None => Some p
  | Some f => replay_loop (S (length f)) p f
  end.

Definition empty_pool (disk : option bytes) (max : Z) : QrxVelocityMempool :=
  {| shards := replicate 32 []; max_entries := if decide (max <> 0) then max else QRX_MAX_MEMPOOL_TX; next_seq := 1;
     stats := {| accepted := 0; duplicates := 0; rejected_full := 0; wal_records := 0; recovered_records := 0;
       removed := 0; stat_bytes := 0 |};
     wal := disk; wal_file := false; wal_since_sync := 0; wal_syncs := 0 |}.

(** [fopen(p->wal_path, "ab")]. *)
Definition open_log (p : QrxVelocityMempool) : QrxVelocityMempool :=
  {| shards := shards p; max_entries := max_entries p; next_seq := next_seq p; stats := stats p;
     wal := Some (default [] (wal p)); wal_file := true; wal_since_sync := wal_since_sync p; wal_syncs := wal_syncs p |}.

(** [disk] is the log found; a pool is initialised exactly when it was
    returned. *)
Definition qrx_velocity_mempool_open (disk : option bytes) (max : Z) : option QrxVelocityMempool :=
  p ← replay (empty_pool disk max);
  Some (open_log p).

(** What is left on disk. *)
Definition qrx_velocity_mempool_close (p : QrxVelocityMempool) : option bytes := wal p.

Definition qrx_velocity_mempool_add (o : io) (p : QrxVelocityMempool) (t : bytes) : Z * option bytes * QrxVelocityMempool :=
  add_unlocked o p t [] true.
Definition qrx_velocity_mempool_remove (o : io) (p : QrxVelocityMempool) (id : bytes) : Z * QrxVelocityMempool :=
  remove_unlocked o p id true.

(** The file that a checkpoint writes beside the log and renames over it. *)
Definition checkpoint_log (p : QrxVelocityMempool) : bytes :=
  concat ((fun e => wal_record QV_WAL_ADD (txid e) (tx e)) <$> concat (shards p)).

Definition qrx_velocity_mempool_checkpoint (o : io) (p : QrxVelocityMempool) : Z * QrxVelocityMempool :=
  let rc := match o with IoOk => 0 | IoFail _ => -1 end in
  let w := match o with IoOk => Some (checkpoint_log p) | IoFail _ => wal p end in
  (rc, {| shards := shards p; max_entries := max_entries p; next_seq := next_seq p; stats := stats p;
          wal := Some (default [] w); wal_file := true; wal_since_sync := 0; wal_syncs := wal_syncs p |}).

(** ** Plans *)

(** [cmp_entries] is at most zero: higher fee first, then [strcmp] of the
    identifiers. *)
Fixpoint strcmp_le (a b : bytes) : Prop :=
  match a, b with
  | [], _ => True
  | _ :: _, [] => False
  | x :: a, y :: b =>
      byte.unsigned x < byte.unsigned y \/ byte.unsigned x = byte.unsigned y /\ strcmp_le a b
  end.
#[export] Instance strcmp_le_dec a b : Decision (strcmp_le a b).
Proof. revert b. induction a as [|x a IH]; intros [|y b]; cbn; try apply _. Defined.

Definition cmp_entries (a b : QrxVelocityMempoolEntry) : Prop :=
  fee a > fee b \/ fee a = fee b /\ strcmp_le (txid a) (txid b).
#[export] Instance cmp_entries_dec : RelDecision cmp_entries.
Proof. intros a b. unfold cmp_entries. apply _. Defined.

Record QrxVelocityPlan := mkPlan {
  txids : list bytes;
  txs : list bytes;
  plan_waves : list Z;
  count : Z;
  plan_wave_count : Z;
  conflicts : Z;
  dependency_edges : Z;
  plan_barrier_fences : Z;
  plan_barrier_nodes : Z;
  plan_critical_path_nodes : Z;
  plan_max_parallel_width : Z;
  plan_schedule_hash : bytes
}.

(** The entries of a block, in order; [qsort] sorts by [cmp_entries]. *)
Definition plan_entries (p : QrxVelocityMempool) (max : Z) : list QrxVelocityMempoolEntry :=
  let all := merge_sort cmp_entries (concat (shards p)) in
  if decide (max <> 0 /\ blen all > max) then take (Z.to_nat max) all else all.

Definition qrx_velocity_mempool_plan (p : QrxVelocityMempool) (max : Z) : option QrxVelocityPlan :=
  let all := plan_entries p max in
  sched ← qrx_velocity_block_schedule_build (T := AccessMap) sha3_512 (Some <$> all);
  Some {| txids := txid <$> all; txs := tx <$> all; plan_waves := waves sched; count := blen all;
          plan_wave_count := wave_count sched; conflicts := static_conflicts sched;
          dependency_edges := blen (edges sched); plan_barrier_fences := barrier_fences sched;
          plan_barrier_nodes := barrier_nodes sched; plan_critical_path_nodes := critical_path_nodes sched;
          plan_max_parallel_width := max_parallel_width sched; plan_schedule_hash := schedule_hash sched |}.
End ops.

(** The counters, the number of entries, the bound and the number of shards. *)
Definition qrx_velocity_mempool_stats (p : QrxVelocityMempool) : QrxVelocityMempoolStats * Z * Z * Z :=
  (stats p, total_count_unlocked p, max_entries p, QRX_VELOCITY_MEMPOOL_SHARDS).

(** ** Parallel verification

    Workers take indices from a counter under a lock, verify without it, store
    the answer, and count it under the lock.  [fn] answers whether the
    callback returned 0; its interleavings are the steps below. *)

Definition clamp_workers (workers count : Z) : Z :=
  let w := if decide (workers < 1) then 1 else workers in
  let w := if decide (w > 64) then 64 else w in
  let w := if decide (count <> 0 /\ w > count) then count else w in
  if decide (w = 0) then 1 else w.

(** Where a worker is: before [work_take], verifying an index, about to count
    the result it stored, or finished. *)
Inductive worker := WTake | WVerify (i : nat) | WResult (i : nat) (ok : bool) | WDone.
#[export] Instance worker_eq_dec : EqDecision worker.
Proof. solve_decision. Defined.

Record VerifyWork := mkWork {
  mask : list Z;
  next : nat;
  w_ok : Z;
  w_failed : Z;
  workers : list worker
}.

Definition verify_init (n : nat) (nw : Z) : VerifyWork :=
  {| mask := replicate n 0; next := 0; w_ok := 0; w_failed := 0; workers := replicate (Z.to_nat nw) WTake |}.

Section verify.
Variables (fn : bytes -> bool) (plan_txs : list bytes).

(** One step of the worker [k]. *)
Inductive verify_step : VerifyWork -> VerifyWork -> Prop :=
| vs_take w k : workers w !! k = Some WTake -> (next w < length plan_txs)%nat ->
    verify_step w {| mask := mask w; next := S (next w); w_ok := w_ok w; w_failed := w_failed w;
                     workers := <[k := WVerify (next w)]> (workers w) |}
| vs_stop w k : workers w !! k = Some WTake -> (length plan_txs <= next w)%nat ->
    verify_step w {| mask := mask w; next := S (next w); w_ok := w_ok w; w_failed := w_failed w;
                     workers := <[k := WDone]> (workers w) |}
| vs_verify w k i t : workers w !! k = Some (WVerify i) -> plan_txs !! i = Some t ->
    verify_step w {| mask := <[i := if fn t then 1 else 0]> (mask w); next := next w; w_ok := w_ok w;
                     w_failed := w_failed w; workers := <[k := WResult i (fn t)]> (workers w) |}
| vs_result w k i (ok : bool) : workers w !! k = Some (WResult i ok) ->
    verify_step w {| mask := mask w; next := next w; w_ok := if ok then w_ok w +64 1 else w_ok w;
                     w_failed := if ok then w_failed w else w_failed w +64 1;
                     workers := <[k := WTake]> (workers w) |}.
End verify.
