(* ===== verification/MempoolFacts.v ===== *)
(** * Mempool: contents, log and restarts

    The pool seen as thirty-two lists of transaction texts; adds and removes
    refine operations on them, the log replays to the same lists, and
    checkpoints and restarts leave them alone. *)

From stdpp Require Import gmap sorting.
From S2P Require Import Prelude Format AccessMap Scheduler Mempool.

(** ** Headers *)

Lemma le_field_0 n v r : 0 <= v < 2 ^ (Z.of_nat n * 8) -> le_combine (take n (le_split n v ++ r)) = v.
Proof.
  intros Hv. rewrite take_app_length' by by rewrite length_le_split.
  rewrite le_combine_split, Z.mod_small; [done|]. by rewrite Z.mul_comm, Z.mul_comm.
Qed.

Lemma le_field_skip off k n v r : k = length v -> (k <= off)%nat -> le_field off n (v ++ r) = le_field (off - k) n r.
Proof.
  intros -> Hk. unfold le_field. rewrite drop_app. rewrite (drop_ge v) by done. done.
Qed.

Lemma enc_qvhdr_length h : length (enc_qvhdr h) = sizeof_qvhdr.
Proof. unfold enc_qvhdr. rewrite !length_app, !length_le_split, length_resize, repeat_length. reflexivity. Qed.

Record qvhdr_ok (h : QvWalHeader) : Prop := {
  qo_magic : in_u32 (qh_magic h);
  qo_version : 0 <= qh_version h < 2 ^ 16;
  qo_op : 0 <= qh_op h < 2 ^ 16;
  qo_len : in_u32 (qh_payload_len h);
  qo_crc : in_u32 (qh_crc32 h);
  qo_txid : no_nul (qh_txid h) /\ (length (qh_txid h) <= 128)%nat
}.

Lemma dec_enc_qvhdr h : qvhdr_ok h -> dec_qvhdr (enc_qvhdr h) = h.
Proof.
  intros [Hm Hv Ho Hl Hc [Hn Ht]]. unfold dec_qvhdr, enc_qvhdr. destruct h as [m v o l c t].
  cbn [qh_magic qh_version qh_op qh_payload_len qh_crc32 qh_txid] in *. f_equal.
  - unfold le_field. rewrite drop_0. by apply le_field_0.
  - rewrite (le_field_skip 4 4) by (rewrite ?length_le_split; done || lia). unfold le_field. rewrite drop_0. by apply le_field_0.
  - rewrite (le_field_skip 6 4), (le_field_skip (6 - 4) 2) by (rewrite ?length_le_split; done || lia).
    unfold le_field. rewrite drop_0. by apply le_field_0.
  - rewrite (le_field_skip 8 4), (le_field_skip (8 - 4) 2), (le_field_skip (8 - 4 - 2) 2) by (rewrite ?length_le_split; done || lia).
    unfold le_field. rewrite drop_0. by apply le_field_0.
  - rewrite (le_field_skip 12 4), (le_field_skip (12 - 4) 2), (le_field_skip (12 - 4 - 2) 2), (le_field_skip (12 - 4 - 2 - 2) 4)
      by (rewrite ?length_le_split; done || lia).
    unfold le_field. rewrite drop_0. by apply le_field_0.
  - rewrite !drop_app, !length_le_split. rewrite !(drop_ge (le_split _ _)) by (rewrite length_le_split; lia).
    cbn [app]. rewrite resize_ge by lia.
    rewrite (drop_0 (t ++ _)). rewrite <- app_assoc, take_app, take_ge by lia.
    destruct (129 - length t)%nat as [|k] eqn:E; [lia|]. cbn [replicate app take].
    by apply cstr_app_zero.
Qed.

Lemma crc_step_range c : in_u32 c -> in_u32 (crc_step c).
Proof.
  intros Hc. unfold crc_step. apply lxor_u32; [apply shiftr_bound; done|].
  apply (land_bound 32); [done|apply u32_range].
Qed.

Lemma crc32_local_range d : in_u32 (crc32_local d).
Proof.
  unfold crc32_local. apply lxor_u32; [|word].
  assert (forall c, in_u32 c -> in_u32 (foldl (fun crc b => Nat.iter 8 crc_step (Z.lxor crc (byte.unsigned b))) c d)) as H;
    [|apply H; word].
  induction d as [|b d IH]; intros c Hc; [done|]. cbn [foldl]. apply IH.
  assert (in_u32 (Z.lxor c (byte.unsigned b))) as H by (apply lxor_u32; [done|pose proof (byte.unsigned_range b); word]).
  revert H. generalize (Z.lxor c (byte.unsigned b)). intros z Hz. cbn. by repeat apply crc_step_range.
Qed.

(** Reading a record that was written completely. *)
Lemma replay_loop_record sha fuel p op id payload r :
  op = QV_WAL_ADD \/ op = QV_WAL_REMOVE -> no_nul id -> (length id <= 128)%nat -> blen payload <= QRX_MAX_TX_SIZE ->
  replay_loop sha (S fuel) p (wal_record op id payload ++ r) =
    (p' ← replay_record sha p {| qh_magic := QV_WAL_MAGIC; qh_version := QV_WAL_VERSION; qh_op := op;
       qh_payload_len := blen payload; qh_crc32 := crc32_local payload; qh_txid := id |} payload;
     replay_loop sha fuel p' r).
Proof.
  intros Hop Hid Hlen Hp. unfold QRX_MAX_TX_SIZE in Hp. pose proof (blen_nonneg payload).
  cbn [replay_loop]. unfold wal_record. rewrite u32_small by word.
  unfold snprintf_s. rewrite (take_ge id) by lia. set (h := {| qh_magic := _ |}).
  assert (qvhdr_ok h) as Hh.
  { split; cbn; [reflexivity || (unfold QV_WAL_MAGIC; word)|unfold QV_WAL_VERSION; lia| |word|apply crc32_local_range|done].
    destruct Hop as [->| ->]; cbv; split; discriminate || reflexivity. }
  rewrite <- app_assoc. rewrite decide_False by (rewrite length_app, enc_qvhdr_length; lia).
  rewrite take_app_length' by by rewrite enc_qvhdr_length. rewrite drop_app_length' by by rewrite enc_qvhdr_length.
  rewrite dec_enc_qvhdr by done. cbv zeta. rewrite (decide_False (P := qh_magic h <> _ \/ _)).
  2:{ cbn. unfold QRX_MAX_TX_SIZE. intros [Hf|[Hf|Hf]]; [by apply Hf|by apply Hf|lia]. }
  cbn [qh_payload_len h]. assert (Z.to_nat (blen payload) = length payload) as Hpl by (unfold blen; lia). rewrite Hpl.
  rewrite decide_False by (rewrite length_app; lia). rewrite take_app_length, drop_app_length.
  rewrite decide_False by (intros [_ Hf]; by apply Hf). done.
Qed.

(** A record cut short ends the replay. *)
Lemma replay_loop_torn sha fuel p op id payload r :
  op = QV_WAL_ADD \/ op = QV_WAL_REMOVE -> no_nul id -> (length id <= 128)%nat -> blen payload <= QRX_MAX_TX_SIZE ->
  r `prefix_of` wal_record op id payload -> r <> wal_record op id payload ->
  replay_loop sha (S fuel) p r = Some p.
Proof.
  intros Hop Hid Hlen Hp [k Hk] Hne. unfold QRX_MAX_TX_SIZE in Hp. pose proof (blen_nonneg payload).
  cbn [replay_loop]. case_decide as Hsz; [done|].
  unfold wal_record in Hk, Hne. rewrite u32_small in Hk, Hne by word.
  unfold snprintf_s in Hk, Hne. rewrite (take_ge id) in Hk, Hne by lia. set (h := {| qh_magic := _ |}) in *.
  assert (qvhdr_ok h) as Hh.
  { split; cbn; [reflexivity || (unfold QV_WAL_MAGIC; word)|unfold QV_WAL_VERSION; lia| |word|apply crc32_local_range|done].
    destruct Hop as [->| ->]; cbv; split; discriminate || reflexivity. }
  assert (take sizeof_qvhdr r = enc_qvhdr h) as Ht.
  { apply (f_equal (take sizeof_qvhdr)) in Hk. rewrite take_app_length' in Hk by by rewrite enc_qvhdr_length.
    by rewrite take_app_le in Hk by lia. }
  rewrite Ht, dec_enc_qvhdr by done. cbv zeta. rewrite decide_False.
  2:{ cbn. unfold QRX_MAX_TX_SIZE. intros [Hf|[Hf|Hf]]; [by apply Hf|by apply Hf|lia]. }
  cbn [qh_payload_len h]. apply decide_True.
  assert (length payload = length (drop sizeof_qvhdr r) + length k)%nat as Hl.
  { apply (f_equal (length)) in Hk. rewrite !length_app, enc_qvhdr_length in Hk. rewrite length_drop. lia. }
  destruct k as [|c k]; [exfalso; apply Hne; by rewrite Hk, app_nil_r|]. cbn [length] in Hl. unfold blen. lia.
Qed.

(** ** Lists *)

Lemma perm_insert {A} (l : list A) i x y : l !! i = Some x -> x :: <[i := y]> l ≡ₚ y :: l.
Proof.
  revert i. induction l as [|z l IH]; intros [|i] H; [done..| |].
  - injection H as ->. cbn. apply perm_swap.
  - cbn in H |- *. rewrite perm_swap, (IH i H). apply perm_swap.
Qed.

Lemma swap_remove_perm {A} i (s : list A) x : s !! i = Some x -> x :: swap_remove i s ≡ₚ s.
Proof.
  intros H. pose proof (lookup_lt_Some _ _ _ H) as Hi. unfold swap_remove.
  induction s as [|z s _] using rev_ind; [done|]. rewrite length_app in *. cbn [length] in *.
  replace (length s + 1 - 1)%nat with (length s) by lia. case_decide.
  - rewrite lookup_app_r, Nat.sub_diag by done. cbn [lookup list_lookup].
    rewrite lookup_app_l in H by lia. rewrite insert_app_l by lia.
    rewrite take_app_length' by by rewrite length_insert. rewrite (perm_insert _ _ _ z H). by rewrite Permutation_app_comm.
  - replace i with (length s) in H by lia. rewrite lookup_app_r, Nat.sub_diag in H by done. injection H as ->.
    rewrite take_app_length. by rewrite Permutation_app_comm.
Qed.

Lemma swap_remove_fmap {A B} (f : A -> B) i s : swap_remove i (f <$> s) = f <$> swap_remove i s.
Proof.
  unfold swap_remove. rewrite length_fmap, list_lookup_fmap, fmap_take. f_equal. case_decide; [|done].
  destruct (s !! _); [|done]. cbn. by rewrite list_fmap_insert.
Qed.

Lemma zsum_alter {A} (g : A -> Z) (f : A -> A) i l x : l !! i = Some x ->
  zsum (g <$> alter f i l) = zsum (g <$> l) - g x + g (f x).
Proof.
  revert i. induction l as [|y l IH]; intros [|i] H; [done..| |].
  - injection H as ->. cbn. lia.
  - change (g y + zsum (g <$> alter f i l) = g y + zsum (g <$> l) - g x + g (f x)). rewrite (IH i H). lia.
Qed.

(** ** Contents *)

Section sha.
Variable sha3_512 : bytes -> bytes.
Hypothesis sha3_512_length : forall x, length (sha3_512 x) = 64%nat.

Abbreviation meta := (qrx_velocity_tx_metadata sha3_512).
Abbreviation txid_of := (hash_tx sha3_512).
Definition shard_of (t : bytes) : nat := Z.to_nat (shard (meta t)).

Lemma shard_of_lt t : (shard_of t < 32)%nat.
Proof using.
  unfold shard_of, qrx_velocity_tx_metadata. cbn [shard]. unfold QRX_VELOCITY_MEMPOOL_SHARDS.
  match goal with |- context [?a mod 32] => pose proof (Z.mod_pos_bound a 32) end. lia.
Qed.

Lemma txid_of_ok t : no_nul (txid_of t) /\ length (txid_of t) = 128%nat.
Proof using sha3_512_length. split; [apply hex_no_nul|]. unfold hash_tx. by rewrite hex_length, sha3_512_length. Qed.

(** The transactions of the pool, shard by shard. *)
Definition contents (p : QrxVelocityMempool) : list (list bytes) := (fun l : list QrxVelocityMempoolEntry => tx <$> l) <$> shards p.

Definition a_total (A : list (list bytes)) : Z := zsum (blen <$> A).

(** Adding and removing, on the contents. *)
Definition a_add (max : Z) (A : list (list bytes)) (t : bytes) : Z * list (list bytes) :=
  if decide (txid_of t ∈ txid_of <$> default [] (A !! shard_of t)) then (1, A)
  else if decide (a_total A >= max) then (-2, A)
  else (0, alter (fun l => l ++ [t]) (shard_of t) A).

Fixpoint a_find (l : list (list bytes)) (sidx : nat) (id : bytes) : option (nat * nat) :=
  match l with
  | [] => None
  | s :: l => match list_find (fun t => txid_of t = id) s with Some (i, _) => Some (sidx, i) | None => a_find l (S sidx) id end
  end.

Definition a_remove (A : list (list bytes)) (id : bytes) : Z * list (list bytes) :=
  match a_find A 0 id with
  | None => (1, A)
  | Some (sidx, i) => (0, alter (swap_remove i) sidx A)
  end.

(** ** The invariant *)

Definition entry_in (i : nat) (e : QrxVelocityMempoolEntry) : Prop :=
  e = complete_entry (meta (tx e)) (txid e) (tx e) (arrival_seq e) /\ shard_of (tx e) = i.

Definition shard_ok (i : nat) (l : list QrxVelocityMempoolEntry) : Prop :=
  Forall (entry_in i) l /\ NoDup (txid <$> l).

Record pool_ok (p : QrxVelocityMempool) : Prop := {
  po_len : length (shards p) = 32%nat;
  po_shard : forall i l, shards p !! i = Some l -> shard_ok i l;
  po_cap : total_count_unlocked p <= max_entries p;
  po_bytes : stat_bytes (stats p) = u64 (zsum ((fun l : list QrxVelocityMempoolEntry => zsum ((fun e => blen (tx e)) <$> l)) <$> shards p))
}.

(** The identifiers are the hashes, as in every pool that no log of another
    program was replayed into. *)
Definition ids_ok (p : QrxVelocityMempool) : Prop :=
  forall i l e, shards p !! i = Some l -> e ∈ l -> txid e = txid_of (tx e).

(** Parts of the state that adds and removes do not read. *)
Definition same_core (p q : QrxVelocityMempool) : Prop :=
  shards p = shards q /\ max_entries p = max_entries q /\ stat_bytes (stats p) = stat_bytes (stats q).

Lemma pool_ok_core p q : same_core p q -> pool_ok p -> pool_ok q.
Proof using.
  intros (E1 & E2 & E3) [H1 H2 H3 H4]. unfold total_count_unlocked in *.
  split; unfold total_count_unlocked; rewrite <- ?E1, <- ?E2, <- ?E3; done.
Qed.

Lemma ids_ok_core p q : shards p = shards q -> ids_ok p -> ids_ok q.
Proof using. intros E H. unfold ids_ok. by rewrite <- E. Qed.

Lemma wal_append_core o p op id pl rc p' : wal_append o p op id pl = (rc, p') -> same_core p p'.
Proof using. unfold wal_append. destruct (wal_file p), o; intros [= <- <-]; done. Qed.

Lemma shard_find_spec (l : list QrxVelocityMempoolEntry) id :
  match shard_find l id with
  | Some i => exists e, l !! i = Some e /\ txid e = id
  | None => id ∉ txid <$> l
  end.
Proof using.
  unfold shard_find. destruct (list_find _ l) as [[i e]|] eqn:E; cbn.
  - apply list_find_Some in E as (H1 & H2 & _). by exists e.
  - apply list_find_None in E. intros (e & -> & He)%list_elem_of_fmap. by apply (proj1 (Forall_forall _ _) E e He).
Qed.

Lemma entry_in_complete t id seq : entry_in (shard_of t) (complete_entry (meta t) id t seq).
Proof using. done. Qed.

Lemma shard_complete t id seq : Z.to_nat (shard (complete_entry (meta t) id t seq)) = shard_of t.
Proof using. done. Qed.

Lemma push_ok p e t id seq :
  pool_ok p -> e = complete_entry (meta t) id t seq -> id ∉ txid <$> default [] (shards p !! shard_of t) ->
  total_count_unlocked p < max_entries p -> pool_ok (push_entry p e).
Proof using.
  intros [H1 H2 H3 H4] He Hid Hlt. pose proof (shard_of_lt t) as Hs.
  destruct (lookup_lt_is_Some_2 (shards p) (shard_of t)) as [l Hl]; [lia|].
  rewrite Hl in Hid. change (default [] (Some ?x)) with x in Hid. unfold total_count_unlocked in *.
  assert (Z.to_nat (shard e) = shard_of t) as Hse by (by subst e).
  split; unfold total_count_unlocked; cbn [push_entry shards max_entries stats stat_bytes]; rewrite Hse.
  - by rewrite length_alter.
  - intros i l' Hi. rewrite list_lookup_alter in Hi. case_decide as Hi'.
    + subst i. rewrite Hl in Hi. cbn in Hi. injection Hi as <-. destruct (H2 _ _ Hl) as [Hf Hn]. split.
      * apply Forall_app. split; [done|]. apply Forall_singleton. by subst e.
      * rewrite fmap_app. apply NoDup_app. split; [done|]. split; [|apply NoDup_singleton].
        intros x Hx ->%list_elem_of_singleton. by subst e.
    + by apply H2.
  - rewrite (zsum_alter _ _ _ _ l Hl), blen_app, blen_cons, blen_nil. lia.
  - rewrite (zsum_alter _ _ _ _ l Hl), fmap_app, zsum_app, H4. cbn [zsum fmap list_fmap foldr]. unfold u64.
    rewrite Zplus_mod_idemp_l. f_equal. lia.
Qed.

Lemma drop_ok p sidx i l e :
  pool_ok p -> shards p !! sidx = Some l -> l !! i = Some e -> pool_ok (drop_entry p sidx i).
Proof using.
  intros [H1 H2 H3 H4] Hl He. pose proof (swap_remove_perm i l e He) as Hp. unfold total_count_unlocked in *.
  split; unfold total_count_unlocked; cbn [drop_entry shards max_entries stats stat_bytes].
  - by rewrite length_alter.
  - intros j l' Hj. rewrite list_lookup_alter in Hj. case_decide as Hj'.
    + subst j. rewrite Hl in Hj. cbn in Hj. injection Hj as <-. destruct (H2 _ _ Hl) as [Hf Hn]. split.
      * rewrite <- Hp in Hf. by apply Forall_cons in Hf as [_ Hf].
      * rewrite <- Hp in Hn. by apply NoDup_cons in Hn as [_ Hn].
    + by apply H2.
  - rewrite (zsum_alter _ _ _ _ l Hl). apply Permutation_length in Hp. cbn [length] in Hp.
    assert (blen l = 1 + blen (swap_remove i l)) as -> by (unfold blen; lia). lia.
  - rewrite Hl. change (default [] (Some ?x)) with x. rewrite He. change (default [] (tx <$> Some e)) with (tx e).
    rewrite (zsum_alter _ _ _ _ l Hl), H4. pose proof (zsum_permutation _ _ (fmap_Permutation (fun e => blen (tx e)) _ _ Hp)) as Hz.
    cbn [fmap list_fmap zsum foldr] in Hz. unfold u64. rewrite Zminus_mod_idemp_l. f_equal.
    rewrite <- Hz. unfold zsum. lia.
Qed.

Lemma take_seq_core p : same_core p (take_seq p).
Proof using. done. Qed.

(** What an add does, on every branch. *)
Lemma add_unlocked_ok o p t forced persist rc out p' :
  pool_ok p -> add_unlocked sha3_512 o p t forced persist = (rc, out, p') -> pool_ok p'.
Proof using.
  intros Hp. unfold add_unlocked. set (id := forced_id _ _).
  pose proof (shard_find_spec (default [] (shards p !! Z.to_nat (shard (meta t)))) id) as Hf.
  destruct (shard_find _ id) as [i|]; [intros [= <- <- <-]; by apply (pool_ok_core p)|].
  case_decide as Hfull; [intros [= <- <- <-]; by apply (pool_ok_core p)|].
  destruct (if persist then _ else _) as [rc1 p1] eqn:Ew.
  assert (same_core p p1) as (E1 & E2 & E3).
  { destruct persist; [|by injection Ew as <- <-]. by apply (wal_append_core _ (take_seq p) _ _ _ _ _ Ew). }
  case_decide; intros [= <- <- <-]; [by apply (pool_ok_core p)|].
  eapply (push_ok p1 _ t id (next_seq p)); [by apply (pool_ok_core p)|done|by rewrite <- E1|].
  unfold total_count_unlocked in *. rewrite <- E1, <- E2. lia.
Qed.

Lemma find_in_spec l n id :
  match find_in l n id with
  | Some (k, i) => (n <= k)%nat /\ exists s e, l !! (k - n)%nat = Some s /\ s !! i = Some e /\ txid e = id
  | None => forall k s, l !! k = Some s -> id ∉ txid <$> s
  end.
Proof using.
  revert n. induction l as [|s l IH]; intros n; cbn [find_in]; [intros k s H; by rewrite lookup_nil in H|].
  pose proof (shard_find_spec s id) as Hs. destruct (shard_find s id) as [i|].
  - destruct Hs as (e & He & Hid). split; [lia|]. exists s, e. by rewrite Nat.sub_diag.
  - specialize (IH (S n)). destruct (find_in l (S n) id) as [[k i]|].
    + destruct IH as (Hk & s' & e & H1 & H2 & H3). split; [lia|]. exists s', e.
      by replace (k - n)%nat with (S (k - S n)) by lia.
    + intros [|k] s' H; [by injection H as <-|by apply (IH k)].
Qed.

Lemma remove_unlocked_ok o p id persist rc p' :
  pool_ok p -> remove_unlocked o p id persist = (rc, p') -> pool_ok p'.
Proof using.
  intros Hp. unfold remove_unlocked. pose proof (find_in_spec (shards p) 0 id) as Hf.
  destruct (find_in (shards p) 0 id) as [[k i]|]; [|by intros [= <- <-]].
  destruct Hf as (_ & s & e & Hs & He & _). rewrite Nat.sub_0_r in Hs.
  destruct (if persist then _ else _) as [rc1 p1] eqn:Ew.
  assert (same_core p p1) as Hc by (destruct persist; [by eapply wal_append_core|by injection Ew as <- <-]).
  case_decide; intros [= <- <-]; [by apply (pool_ok_core p)|].
  pose proof (pool_ok_core _ _ Hc Hp). destruct Hc as (E1 & _). rewrite E1 in Hs. by eapply drop_ok.
Qed.

Lemma empty_pool_ok disk max : 0 <= max -> pool_ok (empty_pool disk max).
Proof using.
  intros Hm. split; cbn [empty_pool shards stats stat_bytes].
  - done.
  - intros i l [-> _]%lookup_replicate. split; [done|apply NoDup_nil_2].
  - unfold total_count_unlocked, empty_pool. cbn [shards max_entries]. unfold QRX_MAX_MEMPOOL_TX.
    change (zsum _) with 0. case_decide; lia.
  - reflexivity.
Qed.

Lemma replay_record_ok p h pl p' : pool_ok p -> replay_record sha3_512 p h pl = Some p' -> pool_ok p'.
Proof using.
  intros Hp. unfold replay_record. case_decide.
  - destruct (add_unlocked _ _ _ _ _ _) as [[rc out] q] eqn:E. pose proof (add_unlocked_ok _ _ _ _ _ _ _ _ Hp E).
    case_decide; [done|]. intros [= <-]. by apply (pool_ok_core q).
  - case_decide; intros [= <-]; [|by apply (pool_ok_core p)].
    destruct (remove_unlocked _ _ _ _) as [rc q] eqn:E. apply (pool_ok_core q); [done|by eapply remove_unlocked_ok].
Qed.

Lemma replay_loop_ok fuel p f p' : pool_ok p -> replay_loop sha3_512 fuel p f = Some p' -> pool_ok p'.
Proof using.
  revert p f. induction fuel as [|fuel IH]; intros p f Hp; [done|]. cbn [replay_loop].
  case_decide; [by intros [= <-]|]. cbv zeta. case_decide; [done|]. case_decide; [by intros [= <-]|].
  case_decide; [done|]. destruct (replay_record _ _ _ _) as [q|] eqn:E; [|done]. cbn [mbind option_bind].
  apply IH. by eapply replay_record_ok.
Qed.

Lemma open_ok disk max p : 0 <= max -> qrx_velocity_mempool_open sha3_512 disk max = Some p -> pool_ok p.
Proof using.
  intros Hm. unfold qrx_velocity_mempool_open, replay. destruct disk as [f|]; cbn [wal empty_pool].
  - destruct (replay_loop _ _ _ _) as [q|] eqn:E; [|done]. intros [= <-].
    apply (pool_ok_core q); [done|]. eapply replay_loop_ok; [by apply (empty_pool_ok (Some f))|exact E].
  - intros [= <-]. apply (pool_ok_core (empty_pool None max)); [done|by apply empty_pool_ok].
Qed.

(** ** Refinement *)

Lemma contents_lookup p i : contents p !! i = (fun l : list QrxVelocityMempoolEntry => tx <$> l) <$> shards p !! i.
Proof using. apply list_lookup_fmap. Qed.

Lemma contents_total p : a_total (contents p) = total_count_unlocked p.
Proof using.
  unfold a_total, total_count_unlocked, contents. rewrite <- list_fmap_compose. f_equal. apply list_fmap_ext.
  intros i l _. cbn. apply blen_fmap.
Qed.

Lemma ids_fmap p i l : ids_ok p -> shards p !! i = Some l -> txid_of <$> (tx <$> l) = txid <$> l.
Proof using.
  intros Hi Hl. rewrite <- list_fmap_compose. apply list_fmap_ext. intros j e He. cbn. symmetry.
  eapply Hi; [exact Hl|]. by eapply list_elem_of_lookup_2.
Qed.

Lemma txid_of_nonempty t : txid_of t <> [].
Proof using sha3_512_length. intros H. destruct (txid_of_ok t) as [_ Hl]. by rewrite H in Hl. Qed.

Lemma forced_id_ok t forced : forced = [] \/ forced = txid_of t -> forced_id forced (txid (meta t)) = txid_of t.
Proof using sha3_512_length.
  unfold forced_id. intros [->|Hf]; [by rewrite decide_False by (intros H; by apply H)|].
  subst forced. rewrite decide_True by apply txid_of_nonempty. unfold snprintf_s. apply take_ge.
  destruct (txid_of_ok t) as [_ Hl]. lia.
Qed.

Lemma ids_push p e t seq : ids_ok p -> e = complete_entry (meta t) (txid_of t) t seq -> ids_ok (push_entry p e).
Proof using.
  intros Hi He i l x Hl Hx. cbn [push_entry shards] in Hl. rewrite list_lookup_alter in Hl. case_decide as Hs; [rewrite Hs in Hl|by apply (Hi i l)].
  destruct (shards p !! i) as [l0|] eqn:E; [|done]. injection Hl as <-.
  apply elem_of_app in Hx as [Hx|Hx%list_elem_of_singleton]; [by apply (Hi i l0)|]. subst x e. done.
Qed.

Lemma contents_push p e t seq : e = complete_entry (meta t) (txid_of t) t seq ->
  contents (push_entry p e) = alter (fun l => l ++ [t]) (shard_of t) (contents p).
Proof using.
  intros He. unfold contents, push_entry. cbn [shards]. replace (Z.to_nat (shard e)) with (shard_of t) by (by subst e).
  apply list_eq. intros i. rewrite list_lookup_fmap, !list_lookup_alter, !list_lookup_fmap. case_decide as Hs; [rewrite Hs|done].
  destruct (shards p !! i); [|done]. cbn. rewrite fmap_app. by subst e.
Qed.

Lemma contents_drop p k i : contents (drop_entry p k i) = alter (swap_remove i) k (contents p).
Proof using.
  unfold contents, drop_entry. cbn [shards].
  apply list_eq. intros j. rewrite list_lookup_fmap, !list_lookup_alter, !list_lookup_fmap. case_decide as Hs; [rewrite Hs|done].
  destruct (shards p !! j); [|done]. apply (f_equal Some). symmetry. apply swap_remove_fmap.
Qed.

(** A pool whose log can be written, or that need not write it. *)
Definition can_log (persist : bool) (p : QrxVelocityMempool) : Prop := persist = true -> wal_file p = true.

(** An add refines [a_add]; with [persist] it appends its record. *)
Lemma add_refines p t forced persist :
  pool_ok p -> ids_ok p -> can_log persist p -> forced = [] \/ forced = txid_of t ->
  exists rc out p', add_unlocked sha3_512 IoOk p t forced persist = (rc, out, p') /\
    (rc, contents p') = a_add (max_entries p) (contents p) t /\ pool_ok p' /\ ids_ok p' /\ max_entries p' = max_entries p /\
    wal_file p' = wal_file p /\
    wal p' = if persist && bool_decide (rc = 0) then Some (default [] (wal p) ++ wal_record QV_WAL_ADD (txid_of t) t) else wal p.
Proof using sha3_512_length.
  intros Hp Hi Hw Hf. destruct (add_unlocked sha3_512 IoOk p t forced persist) as [[rc out] p'] eqn:E.
  pose proof (add_unlocked_ok _ _ _ _ _ _ _ _ Hp E) as Hp'. exists rc, out, p'. split; [done|].
  revert E. unfold add_unlocked. rewrite forced_id_ok by done. unfold a_add. rewrite contents_total.
  assert (txid_of <$> default [] (contents p !! shard_of t) = txid <$> default [] (shards p !! shard_of t)) as Hids.
  { rewrite contents_lookup. destruct (shards p !! shard_of t) eqn:E; [|done]. by eapply ids_fmap. }
  rewrite Hids. change (Z.to_nat (shard (meta t))) with (shard_of t).
  pose proof (shard_find_spec (default [] (shards p !! shard_of t)) (txid_of t)) as Hs.
  destruct (shard_find _ _) as [i|].
  { destruct Hs as (e & He & Hid). rewrite decide_True.
    - intros [= <- <- <-]. rewrite bool_decide_eq_false_2, andb_false_r by lia. done.
    - rewrite <- Hid. apply list_elem_of_fmap_2. by eapply list_elem_of_lookup_2. }
  rewrite (decide_False (P := txid_of t ∈ _)) by done.
  case_decide as Hfull; [intros [= <- <- <-]; rewrite bool_decide_eq_false_2, andb_false_r by lia; done|].
  destruct (if persist then _ else _) as [rc1 p1] eqn:Ew.
  assert (rc1 = 0 /\ shards p1 = shards p /\ max_entries p1 = max_entries p /\ wal_file p1 = wal_file p /\
    wal p1 = if persist then Some (default [] (wal p) ++ wal_record QV_WAL_ADD (txid_of t) t) else wal p) as (-> & E1 & E2 & E3 & E4).
  { destruct persist; [|by injection Ew as <- <-]. unfold wal_append in Ew. specialize (Hw eq_refl).
    change (wal_file (take_seq p)) with (wal_file p) in Ew. rewrite Hw in Ew. by injection Ew as <- <-. }
  rewrite decide_False by lia. intros [= <- <- <-]. rewrite bool_decide_eq_true_2, andb_true_r by done.
  rewrite (contents_push p1 _ t (next_seq p)) by done.
  assert (contents p1 = contents p) as -> by (unfold contents; by rewrite E1).
  split; [done|]. split; [done|]. split; [|by rewrite <- E2, <- E3, <- E4].
  eapply ids_push; [|done]. by eapply (ids_ok_core p).
Qed.

Lemma fst_shift {A B} (o1 : option (nat * A)) (o2 : option (nat * B)) : fst <$> o1 = fst <$> o2 ->
  fst <$> (prod_map S id <$> o1) = fst <$> (prod_map S id <$> o2).
Proof using. destruct o1 as [[]|], o2 as [[]|]; cbn; congruence. Qed.

Lemma find_in_contents l n id : (forall i s e, l !! i = Some s -> e ∈ s -> txid e = txid_of (tx e)) ->
  a_find ((fun s : list QrxVelocityMempoolEntry => tx <$> s) <$> l) n id = find_in l n id.
Proof using.
  revert n. induction l as [|s l IH]; intros n H; [done|]. cbn [find_in a_find fmap list_fmap].
  assert (fst <$> list_find (fun t => txid_of t = id) (tx <$> s) = shard_find s id) as Hs.
  { unfold shard_find. assert (forall e, e ∈ s -> txid e = txid_of (tx e)) as He by (intros e; by apply (H 0%nat)).
    clear -He. induction s as [|e s IHs]; [done|]. cbn. rewrite <- (He e) by set_solver. case_decide; [done|].
    apply fst_shift, IHs. set_solver. }
  change (list_fmap _ _ tx s) with (tx <$> s). rewrite <- Hs.
  destruct (list_find _ (tx <$> s)) as [[i t]|]; [done|]. cbn. apply IH. intros i. by apply (H (S i)).
Qed.

Lemma ids_drop p k i : ids_ok p -> ids_ok (drop_entry p k i).
Proof using.
  intros Hi j l x Hl Hx. cbn [drop_entry shards] in Hl. rewrite list_lookup_alter in Hl. case_decide as Hs; [rewrite Hs in Hl|by apply (Hi j l)].
  destruct (shards p !! j) as [l0|] eqn:E; [|done]. injection Hl as <-. apply (Hi j l0 x E).
  revert Hx. unfold swap_remove. intros Hx%elem_of_take. destruct Hx as (m & Hm & _). case_decide; [|by eapply list_elem_of_lookup_2].
  destruct (l0 !! _) eqn:E2; [|by eapply list_elem_of_lookup_2].
  apply list_lookup_insert_Some in Hm as [(_ & <- & _)|[_ Hm]]; by eapply list_elem_of_lookup_2.
Qed.

(** A remove refines [a_remove]; with [persist] it appends its record. *)
Lemma remove_refines p id persist :
  pool_ok p -> ids_ok p -> can_log persist p ->
  exists rc p', remove_unlocked IoOk p id persist = (rc, p') /\
    (rc, contents p') = a_remove (contents p) id /\ pool_ok p' /\ ids_ok p' /\ max_entries p' = max_entries p /\
    wal_file p' = wal_file p /\
    wal p' = (if persist && bool_decide (rc = 0) then Some (default [] (wal p) ++ wal_record QV_WAL_REMOVE id []) else wal p) /\
    (rc = 0 -> exists t, id = txid_of t).
Proof using.
  intros Hp Hi Hw. destruct (remove_unlocked IoOk p id persist) as [rc p'] eqn:E.
  pose proof (remove_unlocked_ok _ _ _ _ _ _ Hp E) as Hp'. exists rc, p'. split; [done|].
  revert E. unfold remove_unlocked, a_remove. unfold contents at 2. rewrite (find_in_contents _ 0 id Hi).
  pose proof (find_in_spec (shards p) 0 id) as Hf. destruct (find_in (shards p) 0 id) as [[k i]|].
  - destruct Hf as (_ & s & e & Hs & He & Hid). rewrite Nat.sub_0_r in Hs.
    destruct (if persist then _ else _) as [rc1 p1] eqn:Ew.
    assert (rc1 = 0 /\ shards p1 = shards p /\ max_entries p1 = max_entries p /\ wal_file p1 = wal_file p /\
      wal p1 = if persist then Some (default [] (wal p) ++ wal_record QV_WAL_REMOVE id []) else wal p) as (-> & E1 & E2 & E3 & E4).
    { destruct persist; [|by injection Ew as <- <-]. unfold wal_append in Ew. specialize (Hw eq_refl).
      rewrite Hw in Ew. by injection Ew as <- <-. }
    rewrite decide_False by lia. intros [= <- <-]. rewrite bool_decide_eq_true_2, andb_true_r by done.
    rewrite contents_drop. assert (contents p1 = contents p) as -> by (unfold contents; by rewrite E1).
    split; [done|]. split; [done|]. split; [apply ids_drop; by eapply (ids_ok_core p)|].
    split; [by rewrite <- E2|]. split; [by rewrite <- E3|]. split; [by rewrite <- E4|].
    intros _. exists (tx e). rewrite <- Hid. eapply Hi; [exact Hs|]. by eapply list_elem_of_lookup_2.
  - intros [= <- <-]. rewrite bool_decide_eq_false_2, andb_false_r by lia. split_and!; done.
Qed.

(** ** The log *)

(** A transaction that can be logged: a C string, not empty, not too long. *)
Definition storable (t : bytes) : Prop := no_nul t /\ 0 < blen t <= QRX_MAX_TX_SIZE.

Definition max_of (max : Z) : Z := if decide (max <> 0) then max else QRX_MAX_MEMPOOL_TX.

(** A pool that holds [A]. *)
Definition holds (max : Z) (A : list (list bytes)) (p : QrxVelocityMempool) : Prop :=
  pool_ok p /\ ids_ok p /\ contents p = A /\ max_entries p = max_of max.

Lemma holds_core max A p q : same_core p q -> holds max A p -> holds max A q.
Proof using.
  intros Hc (H1 & H2 & H3 & H4). pose proof (pool_ok_core _ _ Hc H1). destruct Hc as (E1 & E2 & _).
  split_and!; [done|by eapply (ids_ok_core p)|unfold contents in *; by rewrite <- E1|by rewrite <- E2].
Qed.

Lemma replay_add max A p t : holds max A p -> storable t ->
  exists q, replay_record sha3_512 p {| qh_magic := QV_WAL_MAGIC; qh_version := QV_WAL_VERSION; qh_op := QV_WAL_ADD;
       qh_payload_len := blen t; qh_crc32 := crc32_local t; qh_txid := txid_of t |} t = Some q /\
    holds max (snd (a_add (max_of max) A t)) q.
Proof using sha3_512_length.
  intros (H1 & H2 & <- & H4) [Hn Hl]. unfold replay_record. cbn [qh_op qh_payload_len qh_txid].
  rewrite decide_True by (split; [done|lia]). rewrite cstr_no_nul by done.
  destruct (add_refines p t (txid_of t) false H1 H2 ltac:(done) ltac:(by right)) as (rc & out & q & -> & Ha & Hq1 & Hq2 & Hq3 & _).
  assert (rc = 0 \/ rc = 1 \/ rc = -2) as Hrc by (unfold a_add in Ha; repeat case_decide; injection Ha; lia).
  rewrite decide_False by lia. eexists. split; [done|]. rewrite H4 in Ha. rewrite <- Ha.
  apply (holds_core max _ q); [done|]. split_and!; [done..|congruence].
Qed.

Lemma replay_remove max A p id : holds max A p ->
  exists q, replay_record sha3_512 p {| qh_magic := QV_WAL_MAGIC; qh_version := QV_WAL_VERSION; qh_op := QV_WAL_REMOVE;
       qh_payload_len := blen (@nil byte); qh_crc32 := crc32_local []; qh_txid := id |} [] = Some q /\
    holds max (snd (a_remove A id)) q.
Proof using.
  intros (H1 & H2 & <- & H4). unfold replay_record. cbn [qh_op qh_payload_len qh_txid].
  rewrite decide_False by (intros [_ Hf]; by apply Hf). rewrite decide_True by done.
  destruct (remove_refines p id false H1 H2 ltac:(done)) as (rc & q & -> & Ha & Hq1 & Hq2 & Hq3 & _).
  eexists. split; [done|]. rewrite <- Ha. apply (holds_core max _ q); [done|]. split_and!; [done..|congruence].
Qed.

(** Replaying the log [f] gives the contents [A], whatever follows it. *)
Definition logged (max : Z) (f : bytes) (A : list (list bytes)) : Prop :=
  forall r fuel d, (length (f ++ r) < fuel)%nat -> exists q fuel', (length r < fuel')%nat /\
    replay_loop sha3_512 fuel (empty_pool d max) (f ++ r) = replay_loop sha3_512 fuel' q r /\ holds max A q.

Lemma logged_nil max : 0 <= max -> logged max [] (replicate 32 []).
Proof using.
  intros Hm r fuel d Hf. exists (empty_pool d max), fuel. split; [done|]. split; [done|].
  split_and!; [by apply empty_pool_ok| |done|done].
  intros i l e [-> _]%lookup_replicate He. by apply not_elem_of_nil in He.
Qed.

Lemma record_length op id pl : length (wal_record op id pl) = (sizeof_qvhdr + length pl)%nat.
Proof using. unfold wal_record. by rewrite length_app, enc_qvhdr_length. Qed.

Lemma logged_record max f A op id pl A' :
  logged max f A -> op = QV_WAL_ADD \/ op = QV_WAL_REMOVE -> no_nul id -> (length id <= 128)%nat -> blen pl <= QRX_MAX_TX_SIZE ->
  (forall p, holds max A p -> exists q, replay_record sha3_512 p {| qh_magic := QV_WAL_MAGIC; qh_version := QV_WAL_VERSION;
     qh_op := op; qh_payload_len := blen pl; qh_crc32 := crc32_local pl; qh_txid := id |} pl = Some q /\ holds max A' q) ->
  logged max (f ++ wal_record op id pl) A'.
Proof using.
  intros Hl Hop Hid Hlen Hpl Hrec r fuel d Hf. rewrite <- app_assoc in *.
  destruct (Hl (wal_record op id pl ++ r) fuel d Hf) as (q & fuel' & Hf' & -> & Hq).
  rewrite length_app, record_length in Hf'. destruct fuel' as [|fuel']; [lia|].
  rewrite replay_loop_record by done. destruct (Hrec q Hq) as (q' & -> & Hq'). cbn [mbind option_bind].
  exists q', fuel'. split; [unfold sizeof_qvhdr in Hf'; lia|done].
Qed.

Lemma logged_add max f A t : logged max f A -> storable t ->
  logged max (f ++ wal_record QV_WAL_ADD (txid_of t) t) (snd (a_add (max_of max) A t)).
Proof using sha3_512_length.
  intros Hl Ht. destruct (txid_of_ok t) as [H1 H2]. eapply logged_record; [exact Hl|by left|done|lia|apply Ht|].
  intros p Hp. by apply replay_add.
Qed.

Lemma logged_remove max f A t : logged max f A ->
  logged max (f ++ wal_record QV_WAL_REMOVE (txid_of t) []) (snd (a_remove A (txid_of t))).
Proof using sha3_512_length.
  intros Hl. destruct (txid_of_ok t) as [H1 H2]. eapply logged_record; [exact Hl|by right|done|lia| |].
  - rewrite blen_nil. unfold QRX_MAX_TX_SIZE. lia.
  - intros p Hp. by apply replay_remove.
Qed.

(** *** Checkpoints *)

Definition a_adds (M : Z) (l : list bytes) : list (list bytes) :=
  foldl (fun A t => snd (a_add M A t)) (replicate 32 []) l.

Lemma logged_adds max l : 0 <= max -> Forall storable l ->
  logged max (concat ((fun t => wal_record QV_WAL_ADD (txid_of t) t) <$> l)) (a_adds (max_of max) l).
Proof using sha3_512_length.
  intros Hm. induction l as [|t l IH] using rev_ind; intros Hs; [by apply logged_nil|].
  apply Forall_app in Hs as [Hs Ht]. apply Forall_cons in Ht as [Ht _]. unfold a_adds. rewrite foldl_app, fmap_app, concat_app. cbn [foldl fmap list_fmap concat].
  rewrite app_nil_r. apply logged_add; [by apply IH|done].
Qed.

Lemma a_adds_spec M l :
  blen l <= M -> (forall i, NoDup (txid_of <$> filter (fun t => shard_of t = i) l)) ->
  a_total (a_adds M l) = blen l /\ length (a_adds M l) = 32%nat /\
  forall i, (i < 32)%nat -> a_adds M l !! i = Some (filter (fun t => shard_of t = i) l).
Proof using sha3_512_length.
  induction l as [|t l IH] using rev_ind; intros Hb Hn.
  { split; [done|]. split; [done|]. intros i Hi. apply lookup_replicate. done. }
  rewrite blen_app, blen_cons, blen_nil in *. destruct IH as (I1 & I2 & I3); [lia| |].
  { intros i. specialize (Hn i). rewrite filter_app, fmap_app in Hn. by apply NoDup_app in Hn as [Hn _]. }
  unfold a_adds in *. rewrite foldl_app. cbn [foldl]. set (A := foldl _ _ l) in *.
  pose proof (shard_of_lt t) as Hs. pose proof (I3 _ Hs) as Hsl. unfold a_add. rewrite Hsl.
  change (default [] (Some ?x)) with x. rewrite decide_False.
  2:{ specialize (Hn (shard_of t)). rewrite filter_app, fmap_app in Hn. apply NoDup_app in Hn as (_ & Hd & _).
      intros Hin. apply (Hd _ Hin). rewrite filter_cons_True by done. set_solver. }
  rewrite decide_False by lia. cbn [snd]. split; [|split].
  - unfold a_total in *. rewrite (zsum_alter _ _ _ _ _ Hsl), blen_app, blen_cons, blen_nil. lia.
  - by rewrite length_alter.
  - intros i Hi. rewrite list_lookup_alter, filter_app. case_decide as Hsi.
    + rewrite <- Hsi, Hsl. cbn [fmap option_fmap option_map]. by rewrite filter_cons_True by done.
    + rewrite filter_cons_False by done. rewrite filter_nil, app_nil_r. by apply I3.
Qed.

Lemma filter_all {A} (P : A -> Prop) `{!forall x, Decision (P x)} l : Forall P l -> filter P l = l.
Proof using. induction 1 as [|x l Hx _ IH]; [done|]. by rewrite filter_cons_True, IH. Qed.
Lemma filter_none {A} (P : A -> Prop) `{!forall x, Decision (P x)} l : Forall (fun x => ~ P x) l -> filter P l = [].
Proof using. induction 1 as [|x l Hx _ IH]; [done|]. by rewrite filter_cons_False, IH. Qed.

Lemma filter_concat (A : list (list bytes)) n i :
  (forall j s, A !! j = Some s -> Forall (fun t => shard_of t = (n + j)%nat) s) ->
  filter (fun t => shard_of t = (n + i)%nat) (concat A) = default [] (A !! i).
Proof using.
  revert n i. induction A as [|s A IH]; intros n i H; [by rewrite lookup_nil|]. cbn [concat]. rewrite filter_app.
  pose proof (H 0%nat s eq_refl) as Hs. rewrite Nat.add_0_r in Hs.
  assert (forall j s', A !! j = Some s' -> Forall (fun t => shard_of t = (S n + j)%nat) s') as HA
    by (intros j s' Hj; replace (S n + j)%nat with (n + S j)%nat by lia; by apply (H (S j))).
  destruct i as [|i].
  - rewrite Nat.add_0_r. cbn [lookup list_lookup]. change (default [] (Some s)) with s.
    rewrite (filter_all _ s Hs). rewrite filter_none; [apply app_nil_r|].
    apply Forall_concat, Forall_lookup. intros j s' Hj. eapply Forall_impl; [by apply (HA j)|]. intros t Ht. cbn beta in *. lia.
  - rewrite (filter_none _ s); [|eapply Forall_impl; [exact Hs|]; intros t Ht; cbn beta in *; lia]. cbn [app].
    replace (n + S i)%nat with (S n + i)%nat by lia. rewrite (IH (S n) i HA). done.
Qed.

Lemma concat_contents p : concat (contents p) = tx <$> concat (shards p).
Proof using. unfold contents. induction (shards p) as [|l ls IH]; [done|]. cbn. by rewrite fmap_app, IH. Qed.

Lemma concat_total p : blen (concat (shards p)) = total_count_unlocked p.
Proof using.
  unfold total_count_unlocked. induction (shards p) as [|l ls IH]; [done|]. cbn [concat fmap list_fmap]. by rewrite blen_app, IH, zsum_cons.
Qed.

Lemma contents_shard p i s : pool_ok p -> contents p !! i = Some s -> Forall (fun t => shard_of t = i) s.
Proof using.
  intros Hp Hs. rewrite contents_lookup in Hs. destruct (shards p !! i) as [l|] eqn:E; [|done]. injection Hs as <-.
  apply Forall_fmap. eapply Forall_impl; [exact (proj1 (po_shard _ Hp _ _ E))|]. by intros e [_ He].
Qed.

(** The log of a checkpoint gives the contents back. *)
Lemma logged_checkpoint max p : 0 <= max -> holds max (contents p) p -> Forall storable (concat (contents p)) ->
  logged max (checkpoint_log p) (contents p).
Proof using sha3_512_length.
  intros Hm (Hp & Hi & _ & Hmax) Hs.
  assert (checkpoint_log p = concat ((fun t => wal_record QV_WAL_ADD (txid_of t) t) <$> concat (contents p))) as ->.
  { unfold checkpoint_log. f_equal. rewrite concat_contents, <- list_fmap_compose. apply list_fmap_ext.
    intros j e He. apply list_elem_of_lookup_2, list_elem_of_In, in_concat in He as (l & Hl%list_elem_of_In & He%list_elem_of_In).
    apply list_elem_of_lookup in Hl as [i Hl]. cbn. by rewrite (Hi i l e Hl He). }
  assert (a_adds (max_of max) (concat (contents p)) = contents p) as Ha.
  { assert (forall i, filter (fun t => shard_of t = i) (concat (contents p)) = default [] (contents p !! i)) as Hf
      by (intros i; apply (filter_concat (contents p) 0 i); intros j s; by apply contents_shard).
    destruct (a_adds_spec (max_of max) (concat (contents p))) as (_ & Hl & Hlk).
    - rewrite concat_contents, blen_fmap, concat_total, <- Hmax. apply Hp.
    - intros i. rewrite Hf, contents_lookup. destruct (shards p !! i) as [l|] eqn:E; [|apply NoDup_nil_2].
      change (default [] ((fun l : list QrxVelocityMempoolEntry => tx <$> l) <$> Some l)) with (tx <$> l).
      rewrite (ids_fmap p i l Hi E). by apply (po_shard _ Hp _ _ E).
    - apply list_eq. intros i. destruct (decide (i < 32)%nat) as [Hlt|Hge].
      + rewrite Hlk, Hf by done. rewrite contents_lookup.
        destruct (lookup_lt_is_Some_2 (shards p) i) as [l Hl']; [rewrite (po_len _ Hp); lia|]. by rewrite Hl'.
      + rewrite !lookup_ge_None_2; [done| |lia]. unfold contents. rewrite length_fmap, (po_len _ Hp). lia. }
  rewrite <- Ha at 2. by apply logged_adds.
Qed.
End sha.
