(* ===== verification/MempoolSpec.v ===== *)
(** * Mempool: the theorems

    Sequences of adds, removes, checkpoints and restarts refine the two
    operations on the contents; a crash in an append is atomic; what happens
    after a failed write or an oversized transaction; plans; parallel
    verification. *)

From stdpp Require Import gmap sorting.
From S2P Require Import Prelude Format AccessMap Scheduler SchedulerFacts SchedulerWaves Mempool MempoolFacts.

(** ** Sequences of operations *)

Inductive op := OpAdd (t : bytes) | OpRemove (id : bytes) | OpCheckpoint | OpReopen.

Section sha.
Variable sha3_512 : bytes -> bytes.
Hypothesis sha3_512_length : forall x, length (sha3_512 x) = 64%nat.

(** One operation, with writes that succeed; its result code. *)
Definition mp_step (max : Z) (p : QrxVelocityMempool) (o : op) : option (Z * QrxVelocityMempool) :=
  match o with
  | OpAdd t => let '(rc, _, p') := qrx_velocity_mempool_add sha3_512 IoOk p t in Some (rc, p')
  | OpRemove id => Some (qrx_velocity_mempool_remove IoOk p id)
  | OpCheckpoint => Some (qrx_velocity_mempool_checkpoint IoOk p)
  | OpReopen => p' ← qrx_velocity_mempool_open sha3_512 (qrx_velocity_mempool_close p) max; Some (0, p')
  end.

Fixpoint mp_run (max : Z) (p : QrxVelocityMempool) (ops : list op) : option (list Z * QrxVelocityMempool) :=
  match ops with
  | [] => Some ([], p)
  | o :: ops =>
      '(rc, p) ← mp_step max p o;
      '(rcs, p) ← mp_run max p ops;
      Some (rc :: rcs, p)
  end.

(** The same on the contents: checkpoints and restarts do nothing. *)
Definition a_step (M : Z) (A : list (list bytes)) (o : op) : Z * list (list bytes) :=
  match o with
  | OpAdd t => a_add sha3_512 M A t
  | OpRemove id => a_remove sha3_512 A id
  | OpCheckpoint | OpReopen => (0, A)
  end.

Fixpoint a_run (M : Z) (A : list (list bytes)) (ops : list op) : list Z * list (list bytes) :=
  match ops with
  | [] => ([], A)
  | o :: ops => let '(rc, A) := a_step M A o in let '(rcs, A) := a_run M A ops in (rc :: rcs, A)
  end.

Definition op_ok (o : op) : Prop := match o with OpAdd t => storable t | _ => True end.

(** A pool in use: its log gives its contents. *)
Definition live (max : Z) (p : QrxVelocityMempool) : Prop :=
  holds sha3_512 max (contents p) p /\ wal_file p = true /\
  (exists f, wal p = Some f /\ logged sha3_512 max f (contents p)) /\ Forall storable (concat (contents p)).

Lemma live_holds max p q : holds sha3_512 max (contents p) p -> holds sha3_512 max (contents p) q ->
  contents q = contents p.
Proof. by intros _ (_ & _ & H & _). Qed.

Lemma open_logged max f A : logged sha3_512 max f A -> 0 <= max ->
  exists q, qrx_velocity_mempool_open sha3_512 (Some f) max = Some q /\ holds sha3_512 max A q /\ wal_file q = true /\
    wal q = Some f.
Proof.
  intros Hl Hm. destruct (Hl [] (S (length f)) (Some f)) as (q & fuel' & Hf & Hr & Hq); [rewrite app_nil_r; lia|].
  rewrite app_nil_r in Hr. unfold qrx_velocity_mempool_open, replay. cbn [wal empty_pool].
  destruct fuel' as [|fuel']; [cbn in Hf; lia|]. change (replay_loop sha3_512 (S fuel') q []) with (Some q) in Hr.
  rewrite Hr. cbn [mbind option_bind].
  exists (open_log q). split; [done|]. split; [by apply (holds_core _ _ _ q)|]. split; [done|].
  cbn [open_log wal]. f_equal.
  assert (forall fuel p g p', replay_loop sha3_512 fuel p g = Some p' -> wal p' = wal p) as Hwal.
  2:{ apply Hwal in Hr. by rewrite Hr. }
  clear. intros fuel. induction fuel as [|fuel IH]; intros p g p'; [done|]. cbn [replay_loop].
  case_decide; [by intros [= <-]|]. cbv zeta. case_decide; [done|]. case_decide; [by intros [= <-]|]. case_decide; [done|].
  destruct (replay_record _ _ _ _) as [p1|] eqn:E; [|done]. cbn [mbind option_bind]. intros Hr%IH. rewrite Hr. clear Hr IH.
  revert E. unfold replay_record, add_unlocked, remove_unlocked. case_decide.
  - destruct (shard_find _ _); [by case_decide; [|intros [= <-]]|]. case_decide; [by case_decide; [|intros [= <-]]|].
    rewrite decide_False by lia. case_decide; [done|by intros [= <-]].
  - case_decide; [|by intros [= <-]]. destruct (find_in _ _ _) as [[k i]|]; [|by intros [= <-]].
    rewrite decide_False by lia. by intros [= <-].
Qed.

Lemma storable_alter A i f t : Forall storable (concat A) -> storable t -> (forall l, f l = l ++ [t]) ->
  Forall storable (concat (alter f i A)).
Proof.
  intros H Ht Hf. rewrite Forall_concat in H |- *. apply Forall_lookup. intros j l Hj.
  rewrite list_lookup_alter in Hj. case_decide; [|by eapply Forall_lookup_1].
  destruct (A !! i) as [l0|] eqn:E; [|done]. injection Hj as <-. rewrite Hf. apply Forall_app. split; [by eapply Forall_lookup_1|].
  by apply Forall_cons.
Qed.

Lemma storable_swap A i k : Forall storable (concat A) -> Forall storable (concat (alter (swap_remove i) k A)).
Proof.
  intros H. rewrite Forall_concat in H |- *. apply Forall_lookup. intros j l Hj.
  rewrite list_lookup_alter in Hj. case_decide; [|by eapply Forall_lookup_1].
  destruct (A !! k) as [l0|] eqn:E; [|done]. injection Hj as <-.
  assert (Forall storable l0) as Hst by (by eapply Forall_lookup_1). unfold swap_remove.
  apply Forall_take. case_decide; [|done]. destruct (l0 !! _) eqn:E2; [|done]. apply Forall_insert; [done|].
  by eapply Forall_lookup_1.
Qed.

Lemma a_add_cases M A t rc A' : a_add sha3_512 M A t = (rc, A') ->
  (A' = A /\ rc <> 0) \/ (rc = 0 /\ exists i, A' = alter (fun l => l ++ [t]) i A).
Proof.
  unfold a_add. case_decide; [intros [= <- <-]; by left|]. case_decide; intros [= <- <-]; [by left|right; eauto].
Qed.

Lemma a_remove_cases A id rc A' : a_remove sha3_512 A id = (rc, A') ->
  (A' = A /\ rc <> 0) \/ (rc = 0 /\ exists k i, A' = alter (swap_remove i) k A).
Proof.
  unfold a_remove. destruct (a_find _ _ _ _) as [[k i]|]; intros [= <- <-]; [right; eauto|by left].
Qed.

(** Every operation keeps a live pool live and does what [a_step] does. *)
Lemma mp_step_live max p o : 0 <= max -> live max p -> op_ok o ->
  exists rc p', mp_step max p o = Some (rc, p') /\ (rc, contents p') = a_step (max_of max) (contents p) o /\ live max p'.
Proof using sha3_512_length.
  intros Hm (Hh & Hw & (f & Hf & Hl) & Hs) Ho. pose proof Hh as (H1 & H2 & _ & H4). destruct o as [t|id| |]; cbn [mp_step a_step].
  - unfold qrx_velocity_mempool_add.
    destruct (add_refines sha3_512 sha3_512_length p t [] true H1 H2 (fun _ => Hw) ltac:(by left)) as
      (rc & out & p' & -> & Ha & Hp1 & Hp2 & Hp3 & Hp4 & Hp5). exists rc, p'. split; [done|]. rewrite <- H4. split; [done|].
    rewrite H4 in Ha. unfold live, holds. split; [split_and!; [done..|congruence]|]. split; [congruence|].
    rewrite Hf in Hp5. cbn [default from_option andb] in Hp5.
    pose proof (logged_add _ sha3_512_length max f (contents p) t Hl Ho) as Hla. rewrite <- Ha in Hla. cbn [snd] in Hla.
    symmetry in Ha. destruct (a_add_cases _ _ _ _ _ Ha) as [[Hc Hrc]|[Hrc [i Hc]]].
    + rewrite bool_decide_eq_false_2 in Hp5 by done. rewrite Hc. split; [by exists f|done].
    + rewrite bool_decide_eq_true_2 in Hp5 by done. split; [by eexists|]. rewrite Hc. by eapply storable_alter.
  - unfold qrx_velocity_mempool_remove.
    destruct (remove_refines sha3_512 p id true H1 H2 (fun _ => Hw)) as (rc & p' & -> & Ha & Hp1 & Hp2 & Hp3 & Hp4 & Hp5 & Hid).
    exists rc, p'. split; [done|]. split; [done|]. split; [split_and!; [done..|congruence]|]. split; [congruence|].
    rewrite Hf in Hp5. cbn [default from_option andb] in Hp5.
    pose proof (eq_sym Ha) as Ha'. destruct (a_remove_cases _ _ _ _ Ha') as [[Hc Hrc]|[Hrc (k & i & Hc)]].
    + rewrite bool_decide_eq_false_2 in Hp5 by done. rewrite Hc. split; [by exists f|done].
    + rewrite bool_decide_eq_true_2 in Hp5 by done. destruct (Hid Hrc) as [t ->]. split; [|rewrite Hc; by apply storable_swap].
      eexists. split; [exact Hp5|]. pose proof (logged_remove _ sha3_512_length max f (contents p) t Hl) as Hlr.
      by rewrite <- Ha in Hlr.
  - eexists _, _. split; [reflexivity|]. split; [done|].
    split; [apply (holds_core sha3_512 max (contents p) p); done|]. split; [done|]. split; [|done]. eexists. split; [reflexivity|]. exact (logged_checkpoint sha3_512 sha3_512_length max p Hm Hh Hs).
  - unfold qrx_velocity_mempool_close. rewrite Hf.
    destruct (open_logged max f (contents p) Hl Hm) as (q & -> & Hq & Hwq & Hfq). cbn [mbind option_bind].
    exists 0, q. split; [done|]. pose proof Hq as (_ & _ & Hcq & _). rewrite Hcq. split; [done|].
    unfold live. rewrite Hcq. split_and!; [done|done|by exists f|done].
Qed.

Lemma open_none_live max : 0 <= max ->
  exists p, qrx_velocity_mempool_open sha3_512 None max = Some p /\ contents p = replicate 32 [] /\ live max p.
Proof.
  intros Hm. eexists. split; [reflexivity|]. split; [done|]. split.
  - apply (holds_core _ _ _ (empty_pool None max)); [done|]. split_and!; [by apply empty_pool_ok| |done|done].
    intros i l e [-> _]%lookup_replicate He. by apply not_elem_of_nil in He.
  - split; [done|]. split; [|apply Forall_nil_2]. eexists. split; [reflexivity|]. by apply logged_nil.
Qed.

Lemma mp_run_live max p ops : 0 <= max -> live max p -> Forall op_ok ops ->
  exists rcs p', mp_run max p ops = Some (rcs, p') /\ (rcs, contents p') = a_run (max_of max) (contents p) ops /\ live max p'.
Proof using sha3_512_length.
  intros Hm Hp Hops. revert p Hp. induction Hops as [|o ops Ho _ IH]; intros p Hp; [by exists [], p|].
  destruct (mp_step_live max p o Hm Hp Ho) as (rc & p1 & H1 & Ha & Hp1).
  destruct (IH p1 Hp1) as (rcs & p2 & H2 & Ha2 & Hp2). exists (rc :: rcs), p2.
  cbn [mp_run a_run]. rewrite H1. cbn [mbind option_bind]. rewrite H2. cbn [mbind option_bind].
  split; [done|]. split; [|done]. rewrite <- Ha. cbn. by rewrite <- Ha2.
Qed.

Lemma contents_nodup p : pool_ok sha3_512 p -> ids_ok sha3_512 p -> NoDup (concat (contents p)).
Proof using.
  intros Hp Hi.
  assert (forall i s, contents p !! i = Some s -> NoDup s /\ Forall (fun t => shard_of sha3_512 t = i) s) as H.
  { intros i s Hs. split; [|by eapply contents_shard]. rewrite contents_lookup in Hs.
    destruct (shards p !! i) as [l|] eqn:E; [|done]. injection Hs as <-.
    pose proof (proj2 (po_shard _ _ Hp _ _ E)) as Hn. rewrite <- (ids_fmap _ p i l Hi E) in Hn. by eapply NoDup_fmap_1. }
  revert H. generalize (contents p) as A. intros A H.
  assert (forall n, (forall i s, A !! i = Some s -> NoDup s /\ Forall (fun t => shard_of sha3_512 t = (n + i)%nat) s) -> NoDup (concat A)) as Hg;
    [|by apply (Hg 0%nat)]. clear H.
  induction A as [|s A IH]; intros n H; [apply NoDup_nil_2|]. cbn [concat]. apply NoDup_app.
  split; [by apply (H 0%nat)|]. split.
  - intros t Ht Hc. apply list_elem_of_In, in_concat in Hc as (l & Hl%list_elem_of_In & Hc%list_elem_of_In).
    apply list_elem_of_lookup in Hl as [i Hl]. destruct (H 0%nat s eq_refl) as [_ H1]. destruct (H (S i) l Hl) as [_ H2].
    rewrite Forall_forall in H1, H2. specialize (H1 t Ht). specialize (H2 t Hc). lia.
  - apply (IH (S n)). intros i l Hl. replace (S n + i)%nat with (n + S i)%nat by lia. by apply (H (S i)).
Qed.

(** C6: every sequence of adds, removes, checkpoints and restarts, from a pool
    without a log, succeeds and refines the operations on the contents: the
    result codes and the transactions are those of a pool that is never
    checkpointed nor restarted.  No transaction is held twice, and there are
    at most as many as the bound.  The transactions added are [storable], that
    is of 1 to QRX_MAX_TX_SIZE bytes without a zero byte (a longer one is
    accepted too, and then [oversized_add_blocks_reopening]), and every write
    to the files succeeds. *)
Theorem mempool_refines max ops :
  0 <= max -> Forall op_ok ops ->
  exists p0 rcs p, qrx_velocity_mempool_open sha3_512 None max = Some p0 /\ mp_run max p0 ops = Some (rcs, p) /\
    (rcs, contents p) = a_run (max_of max) (replicate 32 []) ops /\
    NoDup (concat (contents p)) /\ blen (concat (contents p)) <= max_of max.
Proof using sha3_512_length.
  intros Hm Ho. destruct (open_none_live max Hm) as (p0 & H0 & Hc & Hp0).
  destruct (mp_run_live max p0 ops Hm Hp0 Ho) as (rcs & p & Hr & Ha & ((Hok & Hids & _ & Hmax) & _)).
  exists p0, rcs, p. split; [done|]. split; [done|]. split; [by rewrite <- Hc|]. split; [by apply contents_nodup|].
  rewrite concat_contents, blen_fmap, concat_total, <- Hmax. apply Hok.
Qed.

Definition appends (o : op) : Prop := match o with OpAdd _ | OpRemove _ => True | _ => False end.

(** What an add or a remove does to the log. *)
Lemma append_record max p o rc p' f f' : live max p -> op_ok o -> appends o ->
  mp_step max p o = Some (rc, p') -> wal p = Some f -> wal p' = Some f' ->
  f' = f \/ exists k id pl, f' = f ++ wal_record k id pl /\ (k = QV_WAL_ADD \/ k = QV_WAL_REMOVE) /\ no_nul id /\
    (length id <= 128)%nat /\ blen pl <= QRX_MAX_TX_SIZE.
Proof using sha3_512_length.
  intros ((H1 & H2 & _ & H4) & Hw & _) Ho Happ Hs Hf Hf'. destruct o as [t|id| |]; [| |done..]; cbn [mp_step] in Hs.
  - destruct (add_refines sha3_512 sha3_512_length p t [] true H1 H2 (fun _ => Hw) ltac:(by left))
      as (rc1 & out & p1 & Hadd & _ & _ & _ & _ & _ & Hwal).
    unfold qrx_velocity_mempool_add in Hs. rewrite Hadd in Hs. injection Hs as <- <-.
    rewrite Hf, Hf' in Hwal. cbn [andb] in Hwal. case_bool_decide; injection Hwal as ->; [right|by left].
    destruct (txid_of_ok sha3_512 sha3_512_length t) as [Hi1 Hi2].
    exists QV_WAL_ADD, (hash_tx sha3_512 t), t. split_and!; [done|by left|done|lia|apply Ho].
  - destruct (remove_refines sha3_512 p id true H1 H2 (fun _ => Hw)) as (rc1 & p1 & Hrem & _ & _ & _ & _ & _ & Hwal & Hid).
    unfold qrx_velocity_mempool_remove in Hs. rewrite Hrem in Hs. injection Hs as <- <-.
    rewrite Hf, Hf' in Hwal. cbn [andb] in Hwal. case_bool_decide as Hrc; injection Hwal as ->; [right|by left].
    destruct (Hid Hrc) as [t ->]. destruct (txid_of_ok sha3_512 sha3_512_length t) as [Hi1 Hi2].
    exists QV_WAL_REMOVE, (hash_tx sha3_512 t), []. split_and!; [done|by right|done|lia|done].
Qed.

(** After any such sequence, a crash that leaves any part of the record of
    an add or a remove at the end of the log reopens as the pool before the
    operation or as the pool after it. *)
Theorem mempool_append_atomic max ops p0 rcs p o rc p' f f' d :
  0 <= max -> Forall op_ok ops -> op_ok o -> appends o ->
  qrx_velocity_mempool_open sha3_512 None max = Some p0 -> mp_run max p0 ops = Some (rcs, p) ->
  mp_step max p o = Some (rc, p') -> wal p = Some f -> wal p' = Some f' ->
  f `prefix_of` d -> d `prefix_of` f' ->
  exists q, qrx_velocity_mempool_open sha3_512 (Some d) max = Some q /\ (contents q = contents p \/ contents q = contents p').
Proof using sha3_512_length.
  intros Hm Hops Ho Happ H0 Hr Hs Hf Hf' [x ->] Hd2.
  destruct (open_none_live max Hm) as (p0' & H0' & _ & Hp0). rewrite H0 in H0'. injection H0' as <-.
  destruct (mp_run_live max p0 ops Hm Hp0 Hops) as (rcs' & p1 & Hr' & _ & Hp). rewrite Hr in Hr'. injection Hr' as <- <-.
  destruct (mp_step_live max p o Hm Hp Ho) as (rc' & p1' & Hs' & _ & Hp'). rewrite Hs in Hs'. injection Hs' as <- <-.
  pose proof (append_record max p o rc p' f f' Hp Ho Happ Hs Hf Hf') as Hk.
  destruct Hp as (Hh & _ & (g & Hg & Hl) & _). rewrite Hf in Hg. injection Hg as <-.
  destruct Hp' as (Hh' & _ & (g' & Hg' & Hl') & _). rewrite Hf' in Hg'. injection Hg' as <-.
  destruct Hk as [->|(k & id & pl & -> & Hop & Hid & Hlen & Hpl)].
  - assert (x = []) as ->.
    { apply prefix_length in Hd2. rewrite length_app in Hd2. destruct x; [done|cbn in Hd2; lia]. }
    rewrite app_nil_r. destruct (open_logged max f _ Hl Hm) as (q & Hq & (_ & _ & Hc & _) & _). exists q. split; [done|by left].
  - apply prefix_app_inv in Hd2. destruct (decide (x = wal_record k id pl)) as [->|Hx].
    + destruct (open_logged max _ _ Hl' Hm) as (q & Hq & (_ & _ & Hc & _) & _). exists q. split; [done|by right].
    + destruct (Hl x (S (length (f ++ x))) (Some (f ++ x)) ltac:(lia)) as (q & fuel' & Hfu & Hrp & Hq).
      unfold qrx_velocity_mempool_open, replay. cbn [wal empty_pool]. rewrite Hrp.
      destruct fuel' as [|fuel']; [lia|]. rewrite (replay_loop_torn sha3_512 fuel' q k id pl x Hop Hid Hlen Hpl Hd2 Hx).
      cbn [mbind option_bind]. exists (open_log q). split; [done|]. left. by destruct Hq as (_ & _ & Hc & _).
Qed.

(** ** Any sequence of calls, with writes that may fail *)

Inductive mp_reach (max : Z) : QrxVelocityMempool -> Prop :=
| mr_open disk p : qrx_velocity_mempool_open sha3_512 disk max = Some p -> mp_reach max p
| mr_add o t p rc out p' : mp_reach max p -> qrx_velocity_mempool_add sha3_512 o p t = (rc, out, p') -> mp_reach max p'
| mr_remove o id p rc p' : mp_reach max p -> qrx_velocity_mempool_remove o p id = (rc, p') -> mp_reach max p'
| mr_checkpoint o p rc p' : mp_reach max p -> qrx_velocity_mempool_checkpoint o p = (rc, p') -> mp_reach max p'.

Lemma max_entries_kept o p t forced persist rc out p' :
  add_unlocked sha3_512 o p t forced persist = (rc, out, p') -> max_entries p' = max_entries p.
Proof using.
  unfold add_unlocked. destruct (shard_find _ _); [by intros [= <- <- <-]|]. case_decide; [by intros [= <- <- <-]|].
  destruct (if persist then _ else _) as [rc1 p1] eqn:Ew.
  assert (max_entries p1 = max_entries p) as Hm.
  { destruct persist; [|by injection Ew as <- <-]. apply wal_append_core in Ew as (_ & Hm & _). by rewrite <- Hm. }
  case_decide; by intros [= <- <- <-].
Qed.

Lemma max_entries_removed o p id persist rc p' :
  remove_unlocked o p id persist = (rc, p') -> max_entries p' = max_entries p.
Proof using.
  unfold remove_unlocked. destruct (find_in _ _ _) as [[k i]|]; [|by intros [= <- <-]].
  destruct (if persist then _ else _) as [rc1 p1] eqn:Ew.
  assert (max_entries p1 = max_entries p) as Hm
    by (destruct persist; [by apply wal_append_core in Ew as (_ & Hm & _)|by injection Ew as <- <-]).
  case_decide; by intros [= <- <-].
Qed.

Lemma max_entries_replayed fuel p f p' : replay_loop sha3_512 fuel p f = Some p' -> max_entries p' = max_entries p.
Proof using.
  revert p f. induction fuel as [|fuel IH]; intros p f; [done|]. cbn [replay_loop].
  case_decide; [by intros [= <-]|]. cbv zeta. case_decide; [done|]. case_decide; [by intros [= <-]|]. case_decide; [done|].
  destruct (replay_record _ _ _ _) as [q|] eqn:E; [|done]. cbn [mbind option_bind]. intros ->%IH.
  revert E. unfold replay_record. case_decide.
  - destruct (add_unlocked _ _ _ _ _ _) as [[rc out] q1] eqn:E. apply max_entries_kept in E. case_decide; [done|]. by intros [= <-].
  - case_decide; [|by intros [= <-]]. destruct (remove_unlocked _ _ _ _) as [rc q1] eqn:E. apply max_entries_removed in E.
    by intros [= <-].
Qed.

Lemma reach_ok max p : 0 <= max -> mp_reach max p -> pool_ok sha3_512 p /\ max_entries p = max_of max.
Proof using.
  intros Hm Hr. induction Hr as [disk p Ho|o t p rc out p' _ [IH1 IH2] Ha|o id p rc p' _ [IH1 IH2] Ha|o p rc p' _ [IH1 IH2] Ha].
  - split; [by eapply open_ok|]. unfold qrx_velocity_mempool_open, replay in Ho. destruct disk as [f|]; cbn [wal empty_pool] in Ho.
    + destruct (replay_loop _ _ _ _) as [q|] eqn:E; [|done]. injection Ho as <-. by apply max_entries_replayed in E.
    + by injection Ho as <-.
  - split; [by eapply add_unlocked_ok|]. rewrite <- IH2. by eapply max_entries_kept.
  - split; [by eapply remove_unlocked_ok|]. rewrite <- IH2. by eapply max_entries_removed.
  - injection Ha as <- <-. split; [|done]. by apply (pool_ok_core sha3_512 p).
Qed.

(** Whatever the log found at the start and whatever writes fail, a pool
    never holds more transactions than its bound, every transaction is in the
    shard of its sender with the fields its text says, no shard holds an
    identifier twice, and the byte counter is the size of what is held. *)
Theorem mempool_invariant max p :
  0 <= max -> mp_reach max p ->
  total_count_unlocked p <= max_of max /\
  (forall i l e, shards p !! i = Some l -> e ∈ l ->
     e = complete_entry (qrx_velocity_tx_metadata sha3_512 (tx e)) (txid e) (tx e) (arrival_seq e) /\ shard e = Z.of_nat i) /\
  (forall i l, shards p !! i = Some l -> NoDup (txid <$> l)) /\
  stat_bytes (stats p) = u64 (zsum ((fun e => blen (tx e)) <$> concat (shards p))).
Proof using.
  intros Hm Hr. destruct (reach_ok max p Hm Hr) as [Hp Hmax].
  split; [rewrite <- Hmax; apply Hp|]. split; [|split].
  - intros i l e Hl He. destruct (po_shard _ _ Hp i l Hl) as [Hf _]. rewrite Forall_forall in Hf.
    destruct (Hf e He) as [H1 H2]. split; [done|]. rewrite H1. cbn [shard complete_entry]. rewrite <- H2. unfold shard_of.
    rewrite Z2Nat.id; [done|]. unfold qrx_velocity_tx_metadata. cbn [shard]. unfold QRX_VELOCITY_MEMPOOL_SHARDS.
    apply Z.mod_pos_bound. lia.
  - intros i l Hl. apply (po_shard _ _ Hp i l Hl).
  - rewrite (po_bytes _ _ Hp). f_equal. clear. induction (shards p) as [|l ls IH]; [done|].
    cbn [concat fmap list_fmap]. rewrite zsum_cons, fmap_app, zsum_app. by rewrite <- IH.
Qed.

(** C26: after any sequence of operations that keeps the bound, a transaction
    longer than [QRX_MAX_TX_SIZE] that is accepted is logged too, and then the
    pool, closed, cannot be opened any more. *)
Theorem oversized_add_blocks_reopening max ops p0 rcs p t out p' :
  0 <= max -> Forall op_ok ops -> qrx_velocity_mempool_open sha3_512 None max = Some p0 -> mp_run max p0 ops = Some (rcs, p) ->
  QRX_MAX_TX_SIZE < blen t < 2 ^ 32 -> qrx_velocity_mempool_add sha3_512 IoOk p t = (0, out, p') ->
  qrx_velocity_mempool_open sha3_512 (qrx_velocity_mempool_close p') max = None.
Proof using sha3_512_length.
  intros Hm Hops H0 Hr Ht Ha.
  destruct (open_none_live max Hm) as (p0' & H0' & _ & Hp0). rewrite H0 in H0'. injection H0' as <-.
  destruct (mp_run_live max p0 ops Hm Hp0 Hops) as (rcs' & p1 & Hr' & _ & ((H1 & H2 & _ & _) & Hw & (f & Hf & Hl) & _)).
  rewrite Hr in Hr'. injection Hr' as <- <-.
  destruct (add_refines sha3_512 sha3_512_length p t [] true H1 H2 (fun _ => Hw) ltac:(by left)) as
    (rc & out' & p1 & Ha' & _ & _ & _ & _ & _ & Hwal).
  unfold qrx_velocity_mempool_add in Ha. rewrite Ha in Ha'. injection Ha' as <- <- <-.
  unfold qrx_velocity_mempool_close. rewrite Hwal, Hf. change (default [] (Some f)) with f. rewrite bool_decide_eq_true_2 by done. cbn [andb].
  unfold qrx_velocity_mempool_open, replay. cbn [wal empty_pool].
  set (rec := wal_record _ _ _).
  destruct (Hl rec (S (length (f ++ rec))) (Some (f ++ rec)) ltac:(lia)) as (q & fuel' & Hfu & -> & _).
  destruct fuel' as [|fuel']; [lia|]. cbn [replay_loop]. unfold rec, wal_record. clear Hfu.
  rewrite u32_small by (pose proof (blen_nonneg t); word). rewrite decide_False by (rewrite length_app, enc_qvhdr_length; lia).
  rewrite take_app_length' by by rewrite enc_qvhdr_length. rewrite dec_enc_qvhdr.
  - cbv zeta. rewrite decide_True; [done|]. right. right. cbn. lia.
  - destruct (txid_of_ok sha3_512 sha3_512_length t) as [Hi1 Hi2]. pose proof (blen_nonneg t).
    split; cbn [qh_magic qh_version qh_op qh_payload_len qh_crc32 qh_txid].
    + unfold QV_WAL_MAGIC. word.
    + unfold QV_WAL_VERSION. lia.
    + unfold QV_WAL_ADD. lia.
    + word.
    + apply crc32_local_range.
    + unfold snprintf_s. rewrite take_ge by lia. split; [done|lia].
Qed.
End sha.
