(* ===== verification/MempoolPlan.v ===== *)
(** * Mempool: plans and parallel verification

    A plan is the pool sorted by fee and identifier, cut to the size asked
    for, with the waves of the scheduler; it does not depend on the order of
    arrival.  Parallel verification gives the answers of the callback under
    every interleaving of the workers. *)

From stdpp Require Import gmap sorting.
From S2P Require Import Prelude Format AccessMap Scheduler SchedulerFacts SchedulerWaves Mempool MempoolFacts MempoolSpec.

(** ** Access keys *)

Definition keys_ok (acc : list bytes) : Prop := blen acc <= QRX_VELOCITY_MAX_ACCESS_KEYS /\ Forall (fun k => k <> []) acc.

Lemma add_access_ok acc prefix v : prefix <> [] -> keys_ok acc -> keys_ok (add_access acc prefix v).
Proof.
  intros Hp [H1 H2]. unfold add_access. case_decide as Hd; [done|]. apply Decidable.not_or in Hd as [Hv Hc].
  split; [rewrite blen_app, blen_cons, blen_nil; lia|]. apply Forall_app. split; [done|]. apply List.Forall_cons; [|done].
  destruct prefix; [done|]. discriminate.
Qed.

Lemma add_access_opt_ok acc prefix v : prefix <> [] -> keys_ok acc -> keys_ok (add_access_opt acc prefix v).
Proof. intros Hp Ha. destruct v; [by apply add_access_ok|done]. Qed.

Lemma keys_if (P : Prop) `{!Decision P} acc acc' : keys_ok acc -> (keys_ok acc -> keys_ok acc') ->
  keys_ok (if decide P then acc' else acc).
Proof. intros H1 H2. case_decide; auto. Qed.

Lemma access_keys_ok id fr tt ty pl : keys_ok (access_keys id fr tt ty pl).
Proof.
  assert (keys_ok []) as H0 by (split; [done|apply Forall_nil_2]). unfold access_keys. cbv zeta.
  repeat lazymatch goal with
    | H : ?P |- ?P => exact H
    | |- keys_ok (if _ then _ else _) => apply keys_if; [|intros ?]
    | |- keys_ok (add_access _ _ _) => apply add_access_ok; [discriminate|]
    | |- keys_ok (add_access_opt _ _ _) => apply add_access_opt_ok; [discriminate|]
    end.
Qed.

Lemma metadata_entry_ok sha i e : entry_in sha i e -> SchedulerFacts.entry_ok e.
Proof.
  intros [He _]. rewrite He. destruct (access_keys_ok (hash_tx sha (tx e)) (default [] (field (tx e) (cs "from") 385))
    (default [] (field (tx e) (cs "to") 385)) (default [] (field (tx e) (cs "tx_type") 48))
    (default [] (field (tx e) (cs "payload") (Z.to_nat 8192)))) as [H1 H2]. split; [exact H1|exact H2].
Qed.

(** ** The order *)

Lemma strcmp_le_total a b : strcmp_le a b \/ strcmp_le b a.
Proof.
  revert b. induction a as [|x a IH]; intros [|y b]; cbn; [by left|by left|by right|].
  destruct (IH b), (Z.lt_trichotomy (byte.unsigned x) (byte.unsigned y)) as [?|[?|?]]; intuition lia.
Qed.
Lemma strcmp_le_trans a b c : strcmp_le a b -> strcmp_le b c -> strcmp_le a c.
Proof.
  revert b c. induction a as [|x a IH]; intros [|y b] [|z c]; cbn; try done.
  intros [?|[? H1]] [?|[? H2]]; [left; lia|left; lia|left; lia|right]. split; [lia|by apply (IH b)].
Qed.
Lemma strcmp_le_antisymm a b : strcmp_le a b -> strcmp_le b a -> a = b.
Proof.
  revert b. induction a as [|x a IH]; intros [|y b]; cbn; try done.
  intros [?|[Hxy H1]] [?|[? H2]]; [lia..|]. f_equal; [|by apply IH].
  rewrite <- (byte.of_Z_unsigned x), <- (byte.of_Z_unsigned y). by rewrite Hxy.
Qed.

#[export] Instance cmp_entries_total : Total cmp_entries.
Proof. intros a b. unfold cmp_entries. destruct (strcmp_le_total (txid a) (txid b)), (Z.lt_trichotomy (fee a) (fee b)) as [?|[?|?]]; intuition lia. Qed.
#[export] Instance cmp_entries_trans : Transitive cmp_entries.
Proof.
  intros a b c. unfold cmp_entries. intros [?|[? H1]] [?|[? H2]]; [left; lia|left; lia|left; lia|right].
  split; [lia|by apply (strcmp_le_trans _ (txid b))].
Qed.

(** ** Entries up to their arrival *)

Definition erase (e : QrxVelocityMempoolEntry) : QrxVelocityMempoolEntry := complete_entry e (txid e) (tx e) 0.

Section sched.
Context {T : Type} `{!AccessTable T}.

Lemma sched_node_erase (st : sched_state T) i e : sched_node st i (erase e) = sched_node st i e.
Proof. done. Qed.

Lemma sched_loop_erase (st : sched_state T) i es : sched_loop st i (Some <$> (erase <$> es)) = sched_loop st i (Some <$> es).
Proof.
  revert st i. induction es as [|e es IH]; intros st i; [done|]. cbn [fmap list_fmap sched_loop]. rewrite sched_node_erase.
  destruct (sched_node st i e); [|done]. cbn [mbind option_bind]. apply IH.
Qed.

Lemma preimage_erase es ws ed : schedule_preimage (erase <$> es) ws ed = schedule_preimage es ws ed.
Proof.
  unfold schedule_preimage. rewrite blen_fmap. do 3 f_equal. f_equal. revert ws.
  induction es as [|e es IH]; intros [|w ws]; [done..|]. cbn. by f_equal.
Qed.

Lemma build_erase sha es :
  qrx_velocity_block_schedule_build (T := T) sha (Some <$> (erase <$> es)) = qrx_velocity_block_schedule_build sha (Some <$> es).
Proof.
  assert (forall l : list QrxVelocityMempoolEntry, omap id (Some <$> l) = l) as Hid
    by (intros l; induction l as [|x l IH]; [done|]; cbn; by rewrite IH).
  unfold qrx_velocity_block_schedule_build. rewrite !blen_fmap, !length_fmap. case_decide; [done|]. cbv zeta.
  destruct (at_init _) as [m|]; [|done]. cbn [mbind option_bind]. rewrite sched_loop_erase.
  destruct (sched_loop _ _ _) as [st|]; [|done]. cbn [mbind option_bind]. rewrite !Hid.
  unfold compute_schedule_hash. by rewrite preimage_erase.
Qed.
End sched.

Lemma cmp_erase a b : cmp_entries a b <-> cmp_entries (erase a) (erase b).
Proof. done. Qed.

Lemma erase_sorted l : StronglySorted cmp_entries l -> StronglySorted cmp_entries (erase <$> l).
Proof.
  induction 1 as [|a l _ IH Ha]; [apply SSorted_nil|]. cbn. apply SSorted_cons; [done|].
  apply Forall_fmap. eapply Forall_impl; [exact Ha|]. by intros b Hb.
Qed.

Lemma take_perm {A} n (l : list A) : l = take n l ++ drop n l.
Proof. by rewrite take_drop. Qed.

Lemma sorted_app {A} (R : A -> A -> Prop) l1 l2 : StronglySorted R (l1 ++ l2) -> forall a b, a ∈ l1 -> b ∈ l2 -> R a b.
Proof.
  induction l1 as [|x l1 IH]; intros H a b Ha Hb; [by apply not_elem_of_nil in Ha|].
  cbn in H. apply StronglySorted_inv in H as [H1 H2]. apply elem_of_cons in Ha as [->|Ha]; [|by apply IH].
  rewrite Forall_forall in H2. apply H2, elem_of_app. by right.
Qed.

Lemma sorted_take {A} (R : A -> A -> Prop) n (l : list A) : StronglySorted R l -> StronglySorted R (take n l).
Proof.
  intros H. revert n. induction H as [|a l _ IH Ha]; intros [|n]; [apply SSorted_nil..|]. cbn. apply SSorted_cons; [apply IH|].
  by apply Forall_take.
Qed.

Section sha.
Variable sha3_512 : bytes -> bytes.

Lemma plan_sorted p max : StronglySorted cmp_entries (plan_entries p max).
Proof. unfold plan_entries. cbv zeta. case_decide; [apply sorted_take|]; apply (StronglySorted_merge_sort _). Qed.

Lemma plan_rest p max : exists rest, concat (shards p) ≡ₚ plan_entries p max ++ rest /\
  forall a b, a ∈ plan_entries p max -> b ∈ rest -> cmp_entries a b.
Proof.
  unfold plan_entries. cbv zeta. set (all := merge_sort _ _).
  assert (all ≡ₚ concat (shards p)) as Hp by apply merge_sort_Permutation.
  assert (StronglySorted cmp_entries all) as Hs by apply (StronglySorted_merge_sort _).
  case_decide.
  - exists (drop (Z.to_nat max) all). rewrite take_drop. split; [done|]. apply sorted_app. by rewrite take_drop.
  - exists []. rewrite app_nil_r. split; [done|]. intros a b _ Hb. by apply not_elem_of_nil in Hb.
Qed.

Lemma plan_length p max : 0 <= max ->
  blen (plan_entries p max) = if decide (max = 0) then total_count_unlocked p else Z.min max (total_count_unlocked p).
Proof.
  intros Hm. unfold plan_entries. cbv zeta. set (all := merge_sort _ _).
  assert (blen all = total_count_unlocked p) as Hl
    by (rewrite <- concat_total; unfold blen; f_equal; apply Permutation_length, merge_sort_Permutation).
  destruct (decide (max = 0)) as [->|Hne]; [rewrite decide_False by lia; done|].
  case_decide as Hd; [|rewrite Hl in *; lia]. unfold blen in *. rewrite length_take. lia.
Qed.

Lemma plan_entries_ok p max : pool_ok sha3_512 p -> Forall SchedulerFacts.entry_ok (plan_entries p max).
Proof.
  intros Hp. destruct (plan_rest p max) as (rest & Hperm & _). apply Forall_forall. intros e He.
  assert (e ∈ concat (shards p)) as Hin by (rewrite Hperm; apply elem_of_app; by left).
  apply list_elem_of_In, in_concat in Hin as (l & Hl%list_elem_of_In & Hin%list_elem_of_In).
  apply list_elem_of_lookup in Hl as [i Hl]. destruct (po_shard _ _ Hp i l Hl) as [Hf _].
  rewrite Forall_forall in Hf. by eapply metadata_entry_ok, Hf.
Qed.

(** C16: a plan is made from every pool; it holds the best transactions by fee
    and identifier, in that order and as many as were asked for, and of two
    that share an access key or of which one is a barrier, the earlier is in
    an earlier wave. *)
Theorem plan_spec max0 p max :
  0 <= max0 < 2 ^ 32 - 1 -> 0 <= max -> mp_reach sha3_512 max0 p ->
  exists plan rest, qrx_velocity_mempool_plan sha3_512 p max = Some plan /\
    let all := plan_entries p max in
    txids plan = txid <$> all /\ txs plan = tx <$> all /\ StronglySorted cmp_entries all /\
    concat (shards p) ≡ₚ all ++ rest /\ (forall a b, a ∈ all -> b ∈ rest -> cmp_entries a b) /\
    count plan = (if decide (max = 0) then total_count_unlocked p else Z.min max (total_count_unlocked p)) /\
    forall i j a b, (i < j)%nat -> all !! i = Some a -> all !! j = Some b ->
      is_barrier a = true \/ is_barrier b = true \/ qrx_velocity_entries_conflict a b = true ->
      wave_of (plan_waves plan) i < wave_of (plan_waves plan) j.
Proof.
  intros Hm0 Hm Hr. assert (pool_ok sha3_512 p /\ total_count_unlocked p < 2 ^ 32 - 1) as [Hp Ht].
  { destruct (reach_ok sha3_512 max0 p ltac:(lia) Hr) as [Hp Hmax]. split; [done|]. pose proof (po_cap _ _ Hp) as Hc.
    rewrite Hmax in Hc. unfold max_of, QRX_MAX_MEMPOOL_TX in Hc. case_decide; lia. }
  destruct (plan_rest p max) as (rest & Hperm & Hrest). pose proof (plan_length p max Hm) as Hlen.
  assert (blen (plan_entries p max) < 2 ^ 32 - 1) as Hb.
  { rewrite Hlen. case_decide; lia. }
  pose proof (plan_entries_ok p max Hp) as Hok.
  destruct (conflicts_ordered (T := AccessMap) sha3_512 (plan_entries p max) Hb Hok) as (s & Hs & _ & Hc).
  unfold qrx_velocity_mempool_plan. cbv zeta. rewrite Hs. cbn [mbind option_bind]. eexists _, rest.
  split; [reflexivity|]. cbn [txids txs count plan_waves]. split_and!; try done; [apply plan_sorted|].
  intros i j a b Hij Ha Hb' Hcf. apply (Hc i j a b Hij Ha Hb').
  destruct Hcf as [H|[H|H]]; [by left|by right; left|right; right].
  unfold qrx_velocity_entries_conflict in H. apply existsb_exists in H as (k & Hk & H).
  apply existsb_exists in H as (k' & Hk' & ->%bool_decide_eq_true_1). exists k'. by rewrite !list_elem_of_In.
Qed.

(** Two lists of entries with the same texts are the same up to arrival. *)
Lemma erase_of_text i e : entry_in sha3_512 i e -> txid e = hash_tx sha3_512 (tx e) ->
  erase e = complete_entry (qrx_velocity_tx_metadata sha3_512 (tx e)) (hash_tx sha3_512 (tx e)) (tx e) 0.
Proof. intros [He _] Hid. unfold erase. rewrite Hid. by rewrite He. Qed.

Lemma erase_all p : pool_ok sha3_512 p -> ids_ok sha3_512 p ->
  erase <$> concat (shards p) =
  (fun t => complete_entry (qrx_velocity_tx_metadata sha3_512 t) (hash_tx sha3_512 t) t 0) <$> concat (contents p).
Proof.
  intros Hp Hi. rewrite concat_contents, <- list_fmap_compose. apply list_fmap_ext. intros j e He. cbn.
  apply list_elem_of_lookup_2, list_elem_of_In, in_concat in He as (l & Hl%list_elem_of_In & He%list_elem_of_In).
  apply list_elem_of_lookup in Hl as [i Hl]. destruct (po_shard _ _ Hp i l Hl) as [Hf _]. rewrite Forall_forall in Hf.
  apply (erase_of_text i); [by apply Hf|by eapply Hi].
Qed.

(** The plan depends only on which transactions the pool holds, not on the
    order in which they arrived, the removals between, checkpoints or
    restarts, when no two of them have one identifier. *)
Theorem plan_deterministic p q max :
  pool_ok sha3_512 p -> ids_ok sha3_512 p -> pool_ok sha3_512 q -> ids_ok sha3_512 q ->
  concat (contents p) ≡ₚ concat (contents q) ->
  (forall a b, a ∈ concat (contents p) -> b ∈ concat (contents p) -> hash_tx sha3_512 a = hash_tx sha3_512 b -> a = b) ->
  qrx_velocity_mempool_plan sha3_512 p max = qrx_velocity_mempool_plan sha3_512 q max.
Proof.
  intros Hp Hpi Hq Hqi Hperm Hinj.
  assert (erase <$> plan_entries p max = erase <$> plan_entries q max) as He.
  { assert (erase <$> merge_sort cmp_entries (concat (shards p)) = erase <$> merge_sort cmp_entries (concat (shards q))) as Hs.
    2:{ unfold plan_entries. cbv zeta.
        assert (blen (merge_sort cmp_entries (concat (shards p))) = blen (merge_sort cmp_entries (concat (shards q)))) as Hl
          by (apply (f_equal blen) in Hs; by rewrite !blen_fmap in Hs).
        rewrite Hl. case_decide; [|done]. by rewrite !fmap_take, Hs. }
    apply (StronglySorted_unique_strong cmp_entries).
    - intros a b Ha Hb H1 H2. rewrite merge_sort_Permutation in Ha. rewrite merge_sort_Permutation in Hb.
      rewrite (erase_all p Hp Hpi) in Ha. rewrite (erase_all q Hq Hqi), <- Hperm in Hb.
      apply list_elem_of_fmap in Ha as (ta & -> & Ha). apply list_elem_of_fmap in Hb as (tb & -> & Hb).
      assert (ta = tb) as ->; [|done]. apply Hinj; [done..|].
      destruct H1 as [H1|[H1 H1']], H2 as [H2|[H2 H2']]; try (cbn in H1, H2; lia). by apply strcmp_le_antisymm.
    - apply erase_sorted, (StronglySorted_merge_sort _).
    - apply erase_sorted, (StronglySorted_merge_sort _).
    - rewrite !merge_sort_Permutation, (erase_all p Hp Hpi), (erase_all q Hq Hqi). by rewrite Hperm. }
  unfold qrx_velocity_mempool_plan. cbv zeta. rewrite <- (build_erase _ (plan_entries p max)), <- (build_erase _ (plan_entries q max)), He.
  assert (forall l, txid <$> l = txid <$> (erase <$> l)) as Hid by (intros l; by rewrite <- list_fmap_compose).
  assert (forall l, tx <$> l = tx <$> (erase <$> l)) as Htx by (intros l; by rewrite <- list_fmap_compose).
  assert (blen (plan_entries p max) = blen (plan_entries q max)) as Hl
    by (apply (f_equal blen) in He; by rewrite !blen_fmap in He).
  by rewrite (Hid (plan_entries p max)), (Htx (plan_entries p max)), He, <- Hid, <- Htx, Hl.
Qed.
End sha.

(** ** Parallel verification *)

Section verify.
Variables (fn : bytes -> bool) (plan_txs : list bytes).
Abbreviation n := (length plan_txs).

Definition answer (i : nat) : bool := fn (default [] (plan_txs !! i)).

Definition holding (w : worker) : option nat :=
  match w with WVerify i | WResult i _ => Some i | _ => None end.

Definition b2z (b : bool) : Z := if b then 1 else 0.

(** [D] are the indices whose results are counted. *)
Record verify_inv (w : VerifyWork) (D : list nat) : Prop := {
  vi_idx : D ++ omap holding (workers w) ≡ₚ seq 0 (Nat.min (next w) n);
  vi_mask : length (mask w) = n /\ forall i, i ∈ D -> mask w !! i = Some (b2z (answer i));
  vi_result : forall k i ok, workers w !! k = Some (WResult i ok) -> ok = answer i /\ mask w !! i = Some (b2z (answer i));
  vi_count : w_ok w = u64 (zsum ((fun i => b2z (answer i)) <$> D)) /\
             w_failed w = u64 (zsum ((fun i => b2z (negb (answer i))) <$> D));
  vi_done : forall k, workers w !! k = Some WDone -> (n <= next w)%nat
}.

Lemma verify_inv_init nw : verify_inv (verify_init n nw) [].
Proof.
  split; cbn [verify_init workers next mask w_ok w_failed].
  - cbn. replace (omap _ _) with (@nil nat); [done|]. generalize (Z.to_nat nw). intros k. induction k; [done|]. cbn. done.
  - split; [apply length_replicate|]. intros i Hi. by apply not_elem_of_nil in Hi.
  - intros k i ok [Hf _]%lookup_replicate. done.
  - done.
  - intros k [Hf _]%lookup_replicate. done.
Qed.

Lemma held_unique w D k i : verify_inv w D -> workers w !! k = Some (WVerify i) ->
  (i ∉ D) /\ (i < n)%nat /\ forall k' ok, workers w !! k' <> Some (WResult i ok).
Proof.
  intros Hi Hk. destruct (omap_insert holding (workers w) k _ WTake Hk) as (r & H1 & H2). cbn [holding opt_list app] in H1, H2.
  pose proof (vi_idx _ _ Hi) as Hp. rewrite H1 in Hp.
  assert (NoDup (D ++ i :: r)) as Hn by (rewrite Hp; apply NoDup_seq).
  apply NoDup_app in Hn as (_ & Hd & Hn). apply NoDup_cons in Hn as [Hir _]. split_and!.
  - intros Hin. apply (Hd i Hin). apply list_elem_of_here.
  - assert (i ∈ seq 0 (Nat.min (next w) n)) as Hs by (rewrite <- Hp; apply elem_of_app; right; apply list_elem_of_here).
    apply elem_of_seq in Hs. lia.
  - intros k' ok Hk'. apply Hir. rewrite <- H2. apply list_elem_of_omap. exists (WResult i ok). split; [|done].
    eapply list_elem_of_lookup_2. rewrite list_lookup_insert_ne; [exact Hk'|]. intros ->. congruence.
Qed.

Lemma verify_inv_step w w' D : verify_inv w D -> verify_step fn plan_txs w w' -> exists D', verify_inv w' D'.
Proof.
  intros Hi Hs. pose proof Hi as [H1 [H2 H2'] H3 [H4 H4'] H5]. inversion Hs as [w0 k Hk Hn|w0 k Hk Hn|w0 k i t Hk Ht|w0 k i ok Hk]; subst w0 w'.
  - exists D. destruct (omap_insert holding _ k _ (WVerify (next w)) Hk) as (r & E1 & E2). cbn [holding opt_list app] in E1, E2.
    split; cbn [workers next mask w_ok w_failed].
    + rewrite E2. replace (Nat.min (S (next w)) n) with (Nat.min (next w) n + 1)%nat by lia.
      rewrite seq_app. cbn [seq]. replace (0 + Nat.min (next w) n)%nat with (next w) by lia.
      rewrite <- H1, E1, <- app_assoc. f_equiv. apply Permutation_cons_append.
    + done.
    + intros k' i ok Hk'. apply list_lookup_insert_Some in Hk' as [(_ & Hf & _)|[_ Hk']]; [done|by apply (H3 k')].
    + done.
    + intros k' Hk'. apply list_lookup_insert_Some in Hk' as [(_ & Hf & _)|[_ Hk']]; [done|]. specialize (H5 k' Hk'). lia.
  - exists D. destruct (omap_insert holding _ k _ WDone Hk) as (r & E1 & E2). cbn [holding opt_list app] in E1, E2.
    split; cbn [workers next mask w_ok w_failed].
    + rewrite E2, <- E1, H1. by replace (Nat.min (S (next w)) n) with (Nat.min (next w) n) by lia.
    + done.
    + intros k' i ok Hk'. apply list_lookup_insert_Some in Hk' as [(_ & Hf & _)|[_ Hk']]; [done|by apply (H3 k')].
    + done.
    + intros k' _. lia.
  - destruct (held_unique w D k i Hi Hk) as (HiD & Hin & Hir).
    assert (answer i = fn t) as Ha by (unfold answer; by rewrite Ht).
    exists D. destruct (omap_insert holding _ k _ (WResult i (fn t)) Hk) as (r & E1 & E2). cbn [holding opt_list app] in E1, E2.
    split; cbn [workers next mask w_ok w_failed].
    + by rewrite E2, <- E1.
    + split; [by rewrite length_insert|]. intros j Hj. rewrite list_lookup_insert_ne by (intros ->; done). by apply H2'.
    + intros k' j ok Hk'. apply list_lookup_insert_Some in Hk' as [(_ & Hf & _)|[_ Hk']].
      * injection Hf as <- <-. split; [done|]. rewrite list_lookup_insert_eq by lia. by rewrite Ha.
      * destruct (H3 k' j ok Hk') as [? ?]. split; [done|]. rewrite list_lookup_insert_ne; [done|].
        intros ->. by apply (Hir k' ok).
    + done.
    + intros k' Hk'. apply list_lookup_insert_Some in Hk' as [(_ & Hf & _)|[_ Hk']]; [done|by apply (H5 k')].
  - destruct (H3 k i ok Hk) as [-> Hm]. exists (i :: D).
    destruct (omap_insert holding _ k _ WTake Hk) as (r & E1 & E2). cbn [holding opt_list app] in E1, E2.
    split; cbn [workers next mask w_ok w_failed].
    + rewrite E2, <- H1, E1. apply (Permutation_middle D r i).
    + split; [done|]. intros j [->|Hj]%elem_of_cons; [done|by apply H2'].
    + intros k' j ok Hk'. apply list_lookup_insert_Some in Hk' as [(_ & Hf & _)|[_ Hk']]; [done|by apply (H3 k')].
    + rewrite !fmap_cons, !zsum_cons, H4, H4'. unfold u64. destruct (answer i); cbn [b2z negb];
        rewrite ?Zplus_mod_idemp_l; split; (reflexivity || (f_equal; lia)).
    + intros k' Hk'. apply list_lookup_insert_Some in Hk' as [(_ & Hf & _)|[_ Hk']]; [done|by apply (H5 k')].
Qed.

(** What remains to be done. *)
Definition weight (w : worker) : nat := match w with WTake => 1 | WVerify _ => 3 | WResult _ _ => 2 | WDone => 0 end.
Definition work_left (w : VerifyWork) : nat := (4 * (n - next w) + sum_list_with weight (workers w))%nat.

Lemma work_decreases w w' : verify_step fn plan_txs w w' -> (work_left w' < work_left w)%nat.
Proof.
  intros Hs. inversion Hs as [w0 k Hk Hn|w0 k Hk Hn|w0 k i t Hk Ht|w0 k i ok Hk]; subst; unfold work_left; cbn [next workers].
  - pose proof (sum_insert weight _ k _ (WVerify (next w)) Hk). cbn [weight] in *. lia.
  - pose proof (sum_insert weight _ k _ WDone Hk). cbn [weight] in *. lia.
  - pose proof (sum_insert weight _ k _ (WResult i (fn t)) Hk). cbn [weight] in *. lia.
  - pose proof (sum_insert weight _ k _ WTake Hk). cbn [weight] in *. lia.
Qed.

Lemma clamp_workers_pos nw c : 0 <= c -> 1 <= clamp_workers nw c <= 64.
Proof. intros Hc. unfold clamp_workers. repeat case_decide; lia. Qed.

Lemma sum_flags (f : nat -> bool) D : 0 <= zsum ((fun i => b2z (f i)) <$> D) <= blen D.
Proof.
  induction D as [|i D IH]; [done|]. rewrite fmap_cons, zsum_cons, blen_cons. destruct (f i); cbn [b2z]; lia.
Qed.

Lemma reach_inv nw w : rtc (verify_step fn plan_txs) (verify_init n nw) w -> 1 <= nw <= 64 ->
  exists D, verify_inv w D /\ workers w <> [].
Proof.
  intros Hr Hnw. revert w Hr. apply (rtc_ind_r (R := verify_step fn plan_txs)).
  - exists []. split; [apply verify_inv_init|]. cbn. destruct (Z.to_nat nw) eqn:E; [lia|done].
  - intros w1 w2 _ Hs (D & Hi & Hne). destruct (verify_inv_step w1 w2 D Hi Hs) as [D' Hi']. exists D'. split; [done|].
    assert (length (workers w2) = length (workers w1)) as Hl by (inversion Hs; subst; cbn [workers]; apply length_insert).
    intros Hnil. rewrite Hnil in Hl. by destruct (workers w1).
Qed.

(** C18: under every interleaving of the workers, verification takes at most
    [work_left] steps, is stuck only when every worker has finished, and then
    the mask holds the answer of the callback for every transaction and the
    counters the number of each answer. *)
Theorem parallel_verify_correct nw :
  blen plan_txs < 2 ^ 64 ->
  let w0 := verify_init n (clamp_workers nw (blen plan_txs)) in
  (forall w w', verify_step fn plan_txs w w' -> (work_left w' < work_left w)%nat) /\
  forall w, rtc (verify_step fn plan_txs) w0 w ->
    (exists w', verify_step fn plan_txs w w') \/
    (Forall (fun x => x = WDone) (workers w) /\ mask w = (fun t => if fn t then 1 else 0) <$> plan_txs /\
     w_ok w = zsum ((fun t => b2z (fn t)) <$> plan_txs) /\ w_failed w = blen plan_txs - w_ok w).
Proof.
  intros Hlen w0. split; [apply work_decreases|]. intros w Hr.
  destruct (reach_inv _ w Hr) as [D Hi]; [apply clamp_workers_pos, blen_nonneg|].
  destruct Hi as [Hi Hne]. destruct (decide (Forall (fun x => x = WDone) (workers w))) as [Hdone|Hnd].
  - right. split; [done|]. assert (n <= next w)%nat as Hnext.
    { destruct (workers w) as [|x ws] eqn:E; [done|]. apply (vi_done _ _ Hi 0%nat). rewrite E.
      by apply Forall_cons in Hdone as [-> _]. }
    assert (D ≡ₚ seq 0 n) as HD.
    { pose proof (vi_idx _ _ Hi) as Hp. replace (Nat.min (next w) n) with n in Hp by lia.
      replace (omap holding (workers w)) with (@nil nat) in Hp; [by rewrite app_nil_r in Hp|].
      clear -Hdone. induction Hdone as [|x l -> _ IH]; [done|exact IH]. }
    assert (forall f : bytes -> Z, zsum ((fun i => f (default [] (plan_txs !! i))) <$> D) = zsum (f <$> plan_txs)) as Hsum.
    { intros f. rewrite (zsum_permutation _ _ (fmap_Permutation _ _ _ HD)). f_equal. apply list_eq. intros i.
      rewrite !list_lookup_fmap. destruct (decide (i < n)%nat) as [Hlt|Hge].
      - rewrite lookup_seq_lt by done. cbn. by destruct (lookup_lt_is_Some_2 plan_txs i Hlt) as [t ->].
      - rewrite lookup_seq_ge by lia. by rewrite lookup_ge_None_2 by lia. }
    destruct (vi_count _ _ Hi) as [Hc1 Hc2]. pose proof (sum_flags answer D) as B1.
    pose proof (sum_flags (fun i => negb (answer i)) D) as B2.
    assert (blen D = blen plan_txs) as HDl by (unfold blen; by rewrite HD, length_seq).
    rewrite u64_small in Hc1 by word. rewrite u64_small in Hc2 by word.
    assert (zsum ((fun i => b2z (negb (answer i))) <$> D) = blen D - zsum ((fun i => b2z (answer i)) <$> D)) as Hneg.
    { clear. induction D as [|i D IH]; [done|]. rewrite !fmap_cons, !zsum_cons, blen_cons, IH. destruct (answer i); cbn [b2z negb]; lia. }
    split_and!.
    + apply list_eq. intros i. rewrite list_lookup_fmap. destruct (vi_mask _ _ Hi) as [Hml Hmi].
      destruct (decide (i < n)%nat) as [Hlt|Hge].
      * rewrite Hmi by (rewrite HD; apply elem_of_seq; lia). unfold answer.
        by destruct (lookup_lt_is_Some_2 plan_txs i Hlt) as [t ->].
      * rewrite !lookup_ge_None_2; [done|lia|lia].
    + rewrite Hc1. apply (Hsum (fun t => b2z (fn t))).
    + rewrite Hc2, Hneg, Hc1, HDl. done.
  - left. apply not_Forall_Exists, Exists_exists in Hnd as (x & Hx & Hnx); [|apply _].
    apply list_elem_of_lookup in Hx as [k Hk]. destruct x as [|i|i ok|]; [| | |by destruct Hnx].
    + destruct (decide (next w < n)%nat); eexists; [by apply (vs_take _ _ w k)|apply (vs_stop _ _ w k); [done|lia]].
    + destruct (held_unique w D k i Hi Hk) as (_ & Hin & _). destruct (lookup_lt_is_Some_2 plan_txs i Hin) as [t Ht].
      eexists. by apply (vs_verify _ _ w k i t).
    + eexists. by apply (vs_result _ _ w k i ok).
Qed.
End verify.
