(* ===== verification/MempoolScenarios.v ===== *)
(** * Mempool: concrete runs

    Witnesses of the theorems on small pools, and what a failed write does. *)

From stdpp Require Import gmap sorting.
From S2P Require Import Prelude Format AccessMap Scheduler SchedulerFacts SchedulerWaves Mempool MempoolFacts MempoolSpec MempoolPlan.

(** A hash of 64 bytes for the examples. *)
Definition ex_hash (x : bytes) : bytes := resize 64 x00 x.
Lemma ex_hash_length x : length (ex_hash x) = 64%nat.
Proof. apply length_resize. Defined.

Definition line (s : String.string) : bytes := cs s ++ [x0a].
Arguments line s%_string_scope.
Definition tx_of (lines : list bytes) : bytes := concat lines.
Definition tx1 : bytes := tx_of [line "nonce=1"; line "from=alice"; line "to=bob"; line "tx_type=TRANSFER_FAST"; line "fee=10"].
Definition tx2 : bytes := tx_of [line "nonce=2"; line "from=alice"; line "to=carol"; line "tx_type=TRANSFER_FAST"; line "fee=30"].
Definition tx3 : bytes := tx_of [line "nonce=3"; line "from=dave"; line "to=erin"; line "tx_type=TRANSFER_FAST"; line "fee=20"].

Example ex_fees : (fun t => (fee (qrx_velocity_tx_metadata ex_hash t), nonce (qrx_velocity_tx_metadata ex_hash t))) <$> [tx1; tx2; tx3]
  = [(10, 1); (30, 2); (20, 3)].
Proof. vm_compute. reflexivity. Qed.

Definition the_pool (o : option QrxVelocityMempool) : QrxVelocityMempool :=
  match o with Some p => p | None => empty_pool None 1 end.
Definition p_empty : QrxVelocityMempool := the_pool (qrx_velocity_mempool_open ex_hash None 100).
Definition run_pool (ops : list op) : QrxVelocityMempool :=
  match mp_run ex_hash 100 p_empty ops with Some (_, p) => p | None => p_empty end.
Definition ops_a : list op := [OpAdd tx1; OpAdd tx2].
Definition ops_b : list op := [OpAdd tx2; OpAdd tx3; OpAdd tx1; OpRemove (hash_tx ex_hash tx3); OpCheckpoint; OpReopen].

Lemma storable_examples : Forall storable [tx1; tx2; tx3].
Proof.
  assert (forall t, bool_decide (no_nul t) = true -> bool_decide (0 < blen t) = true -> bool_decide (blen t <= QRX_MAX_TX_SIZE) = true -> storable t) as H.
  { intros t H1 H2 H3. split; [exact (bool_decide_eq_true_1 _ H1)|split; [exact (bool_decide_eq_true_1 _ H2)|exact (bool_decide_eq_true_1 _ H3)]]. }
  repeat (apply List.Forall_cons; [apply H; vm_compute; reflexivity|]). apply List.Forall_nil.
Defined.

Lemma ops_ok : Forall op_ok ops_a /\ Forall op_ok ops_b.
Proof.
  pose proof storable_examples as Hs. inversion_clear Hs as [|? ? H1 Hs1]. inversion_clear Hs1 as [|? ? H2 Hs2].
  inversion_clear Hs2 as [|? ? H3 _]. split; repeat (apply List.Forall_cons; [done|]); apply List.Forall_nil.
Defined.

Example ex_run : fst <$> mp_run ex_hash 100 p_empty ops_b = Some [0; 0; 0; 0; 0; 0].
Proof. vm_compute. reflexivity. Qed.

Lemma mempool_refines_witness :
  exists p0 rcs p, qrx_velocity_mempool_open ex_hash None 100 = Some p0 /\ mp_run ex_hash 100 p0 ops_b = Some (rcs, p) /\
    (rcs, contents p) = a_run ex_hash (max_of 100) (replicate 32 []) ops_b /\
    NoDup (concat (contents p)) /\ blen (concat (contents p)) <= max_of 100.
Proof. exact (mempool_refines ex_hash ex_hash_length 100 ops_b ltac:(lia) (proj2 ops_ok)). Defined.

Definition ex_before : QrxVelocityMempool := run_pool ops_a.
Definition ex_step : Z * QrxVelocityMempool := qrx_velocity_mempool_remove IoOk ex_before (hash_tx ex_hash tx1).
Definition ex_after : QrxVelocityMempool := snd ex_step.
Definition ex_torn : bytes := take (length (default [] (wal ex_before)) + 20) (default [] (wal ex_after)).

Lemma ex_open : qrx_velocity_mempool_open ex_hash None 100 = Some p_empty.
Proof. reflexivity. Defined.
Lemma ex_run_a : mp_run ex_hash 100 p_empty ops_a = Some ([0; 0], ex_before).
Proof. vm_compute. reflexivity. Defined.

Lemma mempool_append_atomic_witness :
  exists q, qrx_velocity_mempool_open ex_hash (Some ex_torn) 100 = Some q /\
    (contents q = contents ex_before \/ contents q = contents ex_after).
Proof.
  assert (mp_step ex_hash 100 ex_before (OpRemove (hash_tx ex_hash tx1)) = Some (0, ex_after)) as Hs by (vm_compute; reflexivity).
  assert (wal ex_before = Some (default [] (wal ex_before))) as Hf by (vm_compute; reflexivity).
  assert (wal ex_after = Some (default [] (wal ex_after))) as Hf' by (vm_compute; reflexivity).
  assert (default [] (wal ex_before) `prefix_of` ex_torn) as Hd1 by (exists (drop (length (default [] (wal ex_before))) ex_torn); vm_compute; reflexivity).
  assert (ex_torn `prefix_of` default [] (wal ex_after)) as Hd2 by apply prefix_take.
  exact (mempool_append_atomic ex_hash ex_hash_length 100 ops_a p_empty [0; 0] ex_before (OpRemove (hash_tx ex_hash tx1)) 0 ex_after
    _ _ ex_torn ltac:(lia) (proj1 ops_ok) I I ex_open ex_run_a Hs Hf Hf' Hd1 Hd2).
Defined.

Lemma mempool_invariant_witness : total_count_unlocked ex_before <= max_of 100.
Proof.
  assert (mp_reach ex_hash 100 ex_before) as Hr.
  { apply (mr_add _ _ IoOk tx2 (run_pool [OpAdd tx1]) 0 (Some (hash_tx ex_hash tx2))); [|vm_compute; reflexivity].
    apply (mr_add _ _ IoOk tx1 p_empty 0 (Some (hash_tx ex_hash tx1))); [|vm_compute; reflexivity].
    apply (mr_open _ _ None). reflexivity. }
  exact (proj1 (mempool_invariant ex_hash 100 ex_before ltac:(lia) Hr)).
Defined.

(** ** Failed and oversized writes *)

(** When an append fails after ten bytes, the log keeps them: the next add
    succeeds, and then the pool cannot be opened again. *)
Theorem failed_append_blocks_reopening :
  exists p1 p2 out, qrx_velocity_mempool_add ex_hash (IoFail 10) p_empty tx1 = (-1, None, p1) /\
    qrx_velocity_mempool_add ex_hash IoOk p1 tx2 = (0, out, p2) /\
    qrx_velocity_mempool_open ex_hash (qrx_velocity_mempool_close p2) 100 = None.
Proof.
  exists (snd (qrx_velocity_mempool_add ex_hash (IoFail 10) p_empty tx1)).
  exists (snd (qrx_velocity_mempool_add ex_hash IoOk (snd (qrx_velocity_mempool_add ex_hash (IoFail 10) p_empty tx1)) tx2)).
  exists (Some (hash_tx ex_hash tx2)). vm_compute. split; [reflexivity|split; reflexivity].
Qed.

Definition tx_big : bytes := repeat x61 (Z.to_nat (QRX_MAX_TX_SIZE + 1)).
Definition ex_big : Z * option bytes * QrxVelocityMempool := qrx_velocity_mempool_add ex_hash IoOk p_empty tx_big.

Lemma oversized_add_blocks_reopening_witness :
  qrx_velocity_mempool_open ex_hash (qrx_velocity_mempool_close (snd ex_big)) 100 = None.
Proof.
  assert (QRX_MAX_TX_SIZE < blen tx_big < 2 ^ 32) as Hb.
  { unfold tx_big. rewrite blen_repeat, Z2Nat.id by (unfold QRX_MAX_TX_SIZE; lia). unfold QRX_MAX_TX_SIZE. lia. }
  assert (fst (fst ex_big) = 0) as Hrc by (vm_compute; reflexivity).
  assert (qrx_velocity_mempool_add ex_hash IoOk p_empty tx_big = (fst (fst ex_big), snd (fst ex_big), snd ex_big)) as E
    by (unfold ex_big; destruct (qrx_velocity_mempool_add ex_hash IoOk p_empty tx_big) as [[rc out] p']; reflexivity).
  rewrite Hrc in E.
  exact (oversized_add_blocks_reopening ex_hash ex_hash_length 100 [] p_empty [] p_empty tx_big (snd (fst ex_big)) (snd ex_big)
    ltac:(lia) (List.Forall_nil _) ex_open eq_refl Hb E).
Defined.

(** ** Plans *)

Lemma live_runs : live ex_hash 100 (run_pool ops_a) /\ live ex_hash 100 (run_pool ops_b).
Proof.
  destruct (open_none_live ex_hash 100 ltac:(lia)) as (p0 & H0 & _ & Hl). rewrite ex_open in H0. injection H0 as <-.
  split; unfold run_pool.
  - destruct (mp_run_live ex_hash ex_hash_length 100 p_empty ops_a ltac:(lia) Hl (proj1 ops_ok)) as (rcs & p & -> & _ & Hp). exact Hp.
  - destruct (mp_run_live ex_hash ex_hash_length 100 p_empty ops_b ltac:(lia) Hl (proj2 ops_ok)) as (rcs & p & -> & _ & Hp). exact Hp.
Qed.

Lemma plan_spec_witness :
  exists plan rest, qrx_velocity_mempool_plan ex_hash p_empty 1 = Some plan /\
    concat (shards p_empty) ≡ₚ plan_entries p_empty 1 ++ rest.
Proof.
  destruct (plan_spec ex_hash 100 p_empty 1 ltac:(lia) ltac:(lia) (mr_open _ _ None _ eq_refl)) as (plan & rest & H1 & _ & _ & _ & H2 & _).
  exists plan, rest. split; [exact H1|exact H2].
Defined.

Lemma plan_deterministic_witness :
  qrx_velocity_mempool_plan ex_hash (run_pool ops_a) 0 = qrx_velocity_mempool_plan ex_hash (run_pool ops_b) 0.
Proof.
  destruct live_runs as [((H1 & H2 & _) & _) ((H3 & H4 & _) & _)].
  assert (concat (contents (run_pool ops_a)) = [tx1; tx2]) as Ha by (vm_compute; reflexivity).
  assert (concat (contents (run_pool ops_b)) = [tx2; tx1]) as Hb by (vm_compute; reflexivity).
  apply (plan_deterministic ex_hash (run_pool ops_a) (run_pool ops_b) 0 H1 H2 H3 H4).
  - rewrite Ha, Hb. apply perm_swap.
  - rewrite Ha. assert (hash_tx ex_hash tx1 <> hash_tx ex_hash tx2) as Hne by (apply (bool_decide_unpack _); vm_compute; exact I).
    intros a b Hina Hinb He. rewrite elem_of_cons, list_elem_of_singleton in Hina, Hinb.
    destruct Hina as [Hina|Hina], Hinb as [Hinb|Hinb]; rewrite Hina, Hinb in *; [reflexivity|by destruct Hne|by destruct Hne|reflexivity].
Defined.

Example ex_plan_fees : (fun p => txs p) <$> qrx_velocity_mempool_plan ex_hash (run_pool ops_a) 0 = Some [tx2; tx1].
Proof. vm_compute. reflexivity. Qed.

Definition ex_fn (t : bytes) : bool := bool_decide (t = tx1).
Definition ex_txs : list bytes := [tx1; tx2].

Lemma parallel_verify_correct_witness :
  blen ex_txs < 2 ^ 64 /\
  forall w, rtc (verify_step ex_fn ex_txs) (verify_init (length ex_txs) (clamp_workers 2 (blen ex_txs))) w ->
    (exists w', verify_step ex_fn ex_txs w w') \/ mask w = (fun t => if ex_fn t then 1 else 0) <$> ex_txs.
Proof.
  assert (blen ex_txs < 2 ^ 64) as Hl by (change (blen ex_txs) with 2; lia). split; [exact Hl|].
  intros w Hw. destruct (proj2 (parallel_verify_correct ex_fn ex_txs 2 Hl) w Hw) as [H|(_ & H & _)]; [left; exact H|right; exact H].
Defined.
