(* ===== verification/Genesis.v ===== *)
(** * Genesis material (src/qrx-core/src/genesis)

    The bootstrap validators and the governance roots that are part of the
    Genesis bytes of Mainnet, and the checks that a release makes on them. *)

From stdpp Require Import gmap.
From S2P Require Import Prelude Format Economics.

(** ** Bootstrap validators *)

Definition QRX_BOOTSTRAP_VALIDATOR_COUNT : Z := 60.
Definition QRX_BOOTSTRAP_VALIDATOR_QUB : Z := 1000.
Definition QRX_BOOTSTRAP_VALIDATOR_ATOMS : Z := QRX_BOOTSTRAP_VALIDATOR_QUB * 100000000.
Definition QRX_BOOTSTRAP_LOCK_DAYS : Z := 180.
Definition QRX_BOOTSTRAP_LOCK_BLOCKS : Z := QRX_BOOTSTRAP_LOCK_DAYS * QRX_BLOCKS_PER_DAY.
Definition QRX_BOOTSTRAP_LOCK_UNTIL_HEIGHT : Z := QRX_BOOTSTRAP_LOCK_BLOCKS.

Record qrx_bootstrap_validator_t := mkBootstrap {
  address : bytes;
  amount_atoms : Z;
  locked_until_height : Z;
  staking_allowed : Z;
  transfer_allowed_before_unlock : Z
}.

(** A row of the table: all rows agree but for the address. *)
Definition bootstrap (a : String.string) : qrx_bootstrap_validator_t :=
  {| address := cs a; amount_atoms := QRX_BOOTSTRAP_VALIDATOR_ATOMS; locked_until_height := QRX_BOOTSTRAP_LOCK_UNTIL_HEIGHT;
     staking_allowed := 1; transfer_allowed_before_unlock := 0 |}.
Arguments bootstrap a%_string_scope.

Definition QRX_BOOTSTRAP_VALIDATORS : list qrx_bootstrap_validator_t := [
  bootstrap "qrx1c9c74ec6cbb63beacbbd3058b1b8afb7eeb4a488ab1d4db2657f6769fa78ebcb6a85d2f250ef4f8326105edf1d0f559a057407ec35581f299dc9c8ee";
  bootstrap "qrx1d1fb67417de33888a2ad235db70a7c93925532cea69f136c057c0113467f1afc683a1a18e4d8ad26e20c7bc90abf63692f5d8951e3cfd106a52c80c9";
  bootstrap "qrx19229b2fc3eb156d48bbe431746ef72729804094bc4626ce06bce87a1c47a3988706e2c56c337c84338c781b05de425391cfeb81909d3cb91f7f91852";
  bootstrap "qrx16bc62cfac3b613c58a101de5a246b9e8a0c134ab9658515159a9a99e5c113fcc6602f44733730761e0087d440fc069203df46e5dc28e1454e21d54cf";
  bootstrap "qrx1620f93c8edf7ed75a22ffe57ec3e7eb43c2e693d3fcdb3c63ca59eafc1bd8f7e69bed0c5db24930717f93f51f6fed8763d7d92192c6b31886147f74c";
  bootstrap "qrx16e0df25ef626baaf49b4fdd3485e1707140e87d3032dec24197343dd50a029185a00c3acd5609ad06929a90c41a93f1b4999f4b69074d54abe0734d2";
  bootstrap "qrx1d45c93980fe4af8b9fc6e1b443f30902238831cfb40f3c5fd58b0dd144266dd9d17339cea5e6d5d697e394fdf6f360d83e8693fef0cfca4e5194b9ec";
  bootstrap "qrx1993a15e5e2ba97756d26d48f79668247b6260cfdde883a2ef3687e839a1dd9b8f5e4b57e2e70383c7889317a9bd0399ed87fb3fbdfc3cc066cccddc9";
  bootstrap "qrx1b2aa8d115c52a2c50d2577804348ec454b4d582e0571fcf2737151fdadaef2cc3b8015cf2f1b3b5dc76815c30811780eb2e5b45451b318c35e2f1f12";
  bootstrap "qrx18d69aa0f5fa5836e3b7f5ba99569a9fffddd7efb35dd58042fcd089393be10a01446c4eea05faa3ba29870deb0b713eeb058be6b4d5f807d4ced395a";
  bootstrap "qrx14395a9c0618ea12c83710f986cbcab1e91aa69d674ebb9ba49550fbc17c4ce7fc84c62dc3f1bbd5fe2af5a0052442fc5a23e2081e35c7e4fcfb00974";
  bootstrap "qrx1033eb38dda61eb2f2554c3081acbdc043c5afd7deac05de61ae3f483027fb82edf496c36ecb444815f1eedce384834e7ce60ca65fcb73c9a34e61985";
  bootstrap "qrx10a30f31afaf76bb739a5b8a374174db82bf5bd45796546c311550899856002895d029648b3e7b290769b4cde78653fff9010e86975c9ad0ff79348cf";
  bootstrap "qrx1642e8741acbf0e0bc4fbf41c577211926a3d760bdf4a45625a5cd56062b146fa0f65d3ecbeeadfbae75dcab6cfbbd34dfe25594bfd26b0603895ba44";
  bootstrap "qrx1733de839758a534018da04e822f766c306f6361b2d1a88f588f98e7e050452eaaf67e312ef57b19b9e845da3d5031fa6b20f26e2607f3837bbd5449e";
  bootstrap "qrx183ef6ca04e88a806efa0efd6897decb6240ffe284f41929b511b8b5f47c9d965b1125be1a52aa0c02f428dc1e22d5f8d22ae782391f3e432fa3a111f";
  bootstrap "qrx1f50453b5de1ecdf155d1a65715a003b3ab772536201217c0a84f4c87f3129e36d35c0e78625d34068284b0617084ba2d8e387ca1c50dd043aad07084";
  bootstrap "qrx174f81f57df63dd094775fe3aad0633128db33a2b76688d9b0b1c23c09b4c0ab37df6e9a87a1ad25ba202266aaccd9a0a163503f76d0b9c0c78f0e05c";
  bootstrap "qrx138dbbfe318e76ee019cb3ddd034f3ef70f1ba8d8863c52a8e8a5d13cc6165688b0dc41a94c716fafa24dedb15bdf988831084343b48285de35e1b046";
  bootstrap "qrx1bf945606750d698efc70f443e4eb4449b4d5ebbb8e53c3a391bb2bfdf9aded122392afaa7e922557c6ee15ff826744ab5c528ef5c98869437e731aca";
  bootstrap "qrx10dd39fddb338646ae1c09765c9dbb9b5008e83faa3cba44f18c6761fecd7aa838d9a40eade9cbc4f86b9436fb085abfc94d045c84ffc5c6f7dc9a5e1";
  bootstrap "qrx1e3aac97621660d2097ade8d7bc5ddc5709acc13267abed4f51728ecbdc8ff6d1e7434462c78aace26ac5c9c474ae356a849c52e841f6d6b52667e5be";
  bootstrap "qrx1575621368ed28f2807f67fb034498943ca7c2e76e33ccd399ef6e99032fad0f3fd4b6ae57b50e4be146b128beb9d4764b9919b54832a6adbc4cbbb98";
  bootstrap "qrx1f3d8fc23b16847b7e761a0c742bdaffeab548aee804497d0eac42c5a1166862c5d57e5e1695d743b858e574c76dbe8c835548d227df469d37883e154";
  bootstrap "qrx15d43a53ae7fb7ec6b2fbc11ee5f8ec4a249d43c59fb4922c9d98b84e583e556c0424371d38a4763d565aa9925f67f86c42f909250e4756079d972277";
  bootstrap "qrx1648300f84650af8530eee134cceb7eac05216934ae7f54cc6ff4281896128c652e3cb9107f1f4028648b2acc7655f0af57fba774a6d9400aa50af52c";
  bootstrap "qrx1740ae986f5347eb3229e52f6b52b8f5bb1995b12c0633d1db4066298b988fa1a6b002f6784f43bed2e561865b3d72e04277194ab0a403d785f73f8d5";
  bootstrap "qrx1521ca969dd39cf42716d3e9b129c17a9fad19613cb22d2f2781f84b8496f99d32338a8f7b4d76a98c6f388a267bb158fc7ec6bb849e0f50ea92d747f";
  bootstrap "qrx137a25b4632ab8e8839a84187ad4ecb03761388dc0aae031203120908d4eca4679e71392a81d555ed28808531703f945beccbd2b06302715db270e3a9";
  bootstrap "qrx18c58f3c99b918f32f61e698f5b57895ce1e8fd8f9c5b3d604cbb0057b4784c2eb42de543baa0c26db1c471474db1bb0cbc5f4f5ee4b62893d2765dff";
  bootstrap "qrx19b3e61feb7d1bf23d82633954b2325ed9d1d59bd24efe8f719f392f95466b3745278d324d1b6c60ea0a6c738e9235c52a1b160baa933b74dd4b3edca";
  bootstrap "qrx188b9fb3838d1fbc0296d8c807814218f3b15af54a29ba5945bec6ea7d46dbaa0d90f179387a62fc0411dc063e1d17134d15c84564dd63826179f2481";
  bootstrap "qrx1f3e7fdb0a3bef5ca5d0188e09580322e1d5dec22bd0e0e49e0f72201e7682228dcabe14251908235e18b2801866b9df696921df1a7bb3306330462b6";
  bootstrap "qrx1e8a434ad4ee57b434dbdc0aaae303755463613813f50fdba34720d70f1181a913b472730915dc4929f10964d5247616b195bddffb1a190a1008207c7";
  bootstrap "qrx198a3092c28c8a6f5d4811cb4e5da09a42067b8628a41b6269697a13387f32d311c8d09fce8d06e684813dbdc42c85957189cd9d8561d6e3b2f56e4ad";
  bootstrap "qrx1bba4a03fc0a4c9bd1ecb0c6000ed0af14a9153c01114d1704532032c99d680e32e25eefc5e31ac2fc55b2d361e5a08b0ba894bb6b960030f707c310d";
  bootstrap "qrx16b67f72933b7c04bf062e947a0e36506516867f4f9293232a94a501202eac9f4b485afac5be32636a970e53f16cfbd17882e1868f1b42b3cb54ab1e8";
  bootstrap "qrx1b2b2d880ac6f27c789ca900f58259ee574e4b8e662d92dc19f4680ca494b8d5d94b90910969932394a04339304967dc6447fd667d3bb0756ce20e59f";
  bootstrap "qrx1c14a7abd57f88a2cc7e618daa1ba74b9d4fa9c04cd25a72493487337b21795f0a11db93cc457b86ef0036a107f99a0631f41b3c911f925ecea065674";
  bootstrap "qrx139cfedcb842f838779d05e264551823e0e5f98167ff976a7c78239592ecc17cf2c0d1d1b6bc76434952b8c4f5ed44a5ccccb0c8f325c2d3caa3e92f6";
  bootstrap "qrx1ca8130db971130cca60a657c5df12c318cb1d44bbf386d294ed341d6612524713458aae5d097a14f32b64feeadd76a9d7e0edb895c442d36e82077a8";
  bootstrap "qrx1191faaabceb036a43f111c1e9844060a511983b9a5dc552e3b4bb166b31c1b936125cfb879b19d6dbea5eb44b4d6d4f8c548c393f6df9a5025e424c0";
  bootstrap "qrx14569e909f0af4ce86455198fb4366a04d2114b41655dad2e906cfdff5852fa61bb35ab21b0f43ed809289756927fc7986e3f5bd405533f6daf80851d";
  bootstrap "qrx161cbffe42e74c04fdc93e9f54ec227713a9044462ed2fcaeff34be038a9e26eedf319d5e263f84b875363d386206939f9f3e4d49319f283dbd777d4e";
  bootstrap "qrx150428045f8a251c8defc6430ab9dace4160a5b0dac419d170c5b6bbccfbcc1361577997488e257c118e3b5fdffaef50cb4c041bbcfabb09bd64ec517";
  bootstrap "qrx1ac7622b9a23e0976131f68cd859d118abd10f34284922de0fcd2c459186a686d7ed6b1aedefcd3c0282b715ee993a8e00e120c89648740d842e959f8";
  bootstrap "qrx1f23565b7d6adc6c4f0925064e50e55fbaf0fd078fac6c13cc87cdabddb7b6690517c1a023f25b66ccf43f6d7d23bcbcc400b0d715a06f8125b639b2a";
  bootstrap "qrx1ddbf59b0a130369107f9aa03ad89f8a69cb6bcb0b586dbf60b2e0b2ca25fa2e2a83e8b2cf6529ee31a8e83617100b71b62b53b70e937c9634356ca27";
  bootstrap "qrx122d8bc6873b4da7e386e433cfc318df7887c7a78a80511f6b7e5a4ebaea0bc8a3eda1c582e9e7075bb690ac645f67b7d98f679fe6cd30d2a2e93c1d0";
  bootstrap "qrx10ecf4e48a0a92c20b89aa53c1c5fa186e043e3045bba8fbdc036343a8cc848b421892e9cb396c43db7e2ae441e86feec0b66d27f0d920d98a1c859a2";
  bootstrap "qrx11a7aa8392b43af2f7c54986bb60acdc6ab1567c6f575ce244a4b3ca530b67077def042d42545942005248fffee9696c1ee823dedb9fd25009874b045";
  bootstrap "qrx11949a0704ca04f79c7121a9fd99871c0cc4edb53f243be12643f37e918d8220f1f7d0ab1e6bd9bae2d0820da4bb235f8451e061be1ca8cdacc7e5c9f";
  bootstrap "qrx1c4480c6186bc2e1c2e099b345866caad56a1ef67d0fe6bc473b139ed1340bc4d01236d990c042f2ae228814dbbeb7e66c32997a5f7413cc09612ffdd";
  bootstrap "qrx17b37b83a11f8c611222a28353d1d02f5d02c1b9bbbc7eaa5d56d390b9418269b9200af99ec71742c6ee4649e31417df431f08da5b8f6eae808ca4a45";
  bootstrap "qrx1452689e139a7ef9b4885b02ba22198819290e7bdc9c7f677cea3b35a3b651943af47dfb6a23b4547b6e70b3371d74a9fed06629c38efbdc0ae27aab0";
  bootstrap "qrx1a0091a2b2ca3995cdef39ab96d3627d1ff9307b79a1aa405f0ccd9a798cc0b7b64710bb00fd31e9aad118c99d8c5c7d7aac864e3079cac7f2153f7ff";
  bootstrap "qrx1683e7b75c59e0e97cbdf2ee67de93c0bcf0146fc61c7dcbfea21c95f8287c0e0d12f1cf9845f03d61e475c5775eb1ee33c2829e6ea55329fba6088c9";
  bootstrap "qrx11569f25fd2ab2fc190e30d5102c88c1c746bac06dd4dcb6ed09717b8895ae295d8d0a96dd3a0c914673e1f1f152970365190e9c9ced91af2cea73182";
  bootstrap "qrx17521771e1ad24000daaeb322189440aec9d59d2abe7b1d68143cd9d75aeded9882a3378234c5ade897c85d44dda7c55d3fe35f89a83163997a7329fb";
  bootstrap "qrx12a15c064925ba8109ae1e704d9aabef6221759247e79a50f214742f89a8c385a574c60782acfce526aef1550f2d1ded34bf15aa693a163e12e641ded"].

(** [isxdigit]. *)
Definition is_xdigit (c : byte) : bool :=
  bool_decide (48 <= byte.unsigned c <= 57 \/ 65 <= byte.unsigned c <= 70 \/ 97 <= byte.unsigned c <= 102).

Definition qrx_genesis_address_sane (s : bytes) : bool :=
  bool_decide (take 4 s = cs "qrx1") && bool_decide (length s = 124%nat) && negb (strstr s (cs "bootstrap"))
  && forallb is_xdigit (drop 4 s).

Definition bootstrap_ok (earlier : list qrx_bootstrap_validator_t) (v : qrx_bootstrap_validator_t) : bool :=
  qrx_genesis_address_sane (address v) && bool_decide (amount_atoms v = QRX_BOOTSTRAP_VALIDATOR_ATOMS)
  && bool_decide (locked_until_height v = QRX_BOOTSTRAP_LOCK_UNTIL_HEIGHT) && bool_decide (staking_allowed v <> 0)
  && bool_decide (transfer_allowed_before_unlock v = 0)
  && forallb (fun u => bool_decide (address v <> address u)) earlier.

Fixpoint bootstrap_loop (earlier vs : list qrx_bootstrap_validator_t) : bool :=
  match vs with
  | [] => true
  | v :: vs => bootstrap_ok earlier v && bootstrap_loop (earlier ++ [v]) vs
  end.
Definition qrx_bootstrap_validators_material_ready : bool := bootstrap_loop [] QRX_BOOTSTRAP_VALIDATORS.

(** ** Governance roots *)

Definition QRX_GENESIS_GOVERNANCE_ROOT_COUNT : Z := 5.
Definition QRX_GENESIS_GOVERNANCE_THRESHOLD : Z := 3.

Record qrx_genesis_governance_root_t := mkRoot { key_id : bytes; public_key_hex : bytes }.

Definition QRX_GENESIS_GOVERNANCE_ROOTS : list qrx_genesis_governance_root_t := [
  {| key_id := cs "DEV_GOV_1"; public_key_hex := cs "8f9ff6ec3693c92ffb073ac7f8e4cf76e676ebb9f82a12d9afd01f1edeaa0631" |};
  {| key_id := cs "DEV_GOV_2"; public_key_hex := cs "0953ce77866644556532d9539b7439aa9629d0264dad73d05c082a86b6aa8359" |};
  {| key_id := cs "DEV_GOV_3"; public_key_hex := cs "5496f12881d64ddacf38d836cd9e637591897fa6f9cffdd41a2d9c94aa08fb61" |};
  {| key_id := cs "DEV_GOV_4"; public_key_hex := cs "8098202bee6290fe76dccff6ab5f0994b0275a211371867fc639864ef5af18f3" |};
  {| key_id := cs "DEV_GOV_5"; public_key_hex := cs "4f71860006566ecfa528538780c54ccde039d86a7c49fb6570f91a8ab2519d8c" |}].

Definition hex64 (s : bytes) : bool := bool_decide (length s = 64%nat) && forallb is_xdigit s.

Definition root_ok (earlier : list qrx_genesis_governance_root_t) (r : qrx_genesis_governance_root_t) : bool :=
  bool_decide (key_id r <> []) && hex64 (public_key_hex r)
  && forallb (fun u => bool_decide (public_key_hex r <> public_key_hex u)) earlier.

Fixpoint roots_loop (earlier rs : list qrx_genesis_governance_root_t) : bool :=
  match rs with
  | [] => true
  | r :: rs => root_ok earlier r && roots_loop (earlier ++ [r]) rs
  end.
Definition qrx_genesis_governance_material_ready : bool :=
  if decide (QRX_GENESIS_GOVERNANCE_THRESHOLD < 1 \/ QRX_GENESIS_GOVERNANCE_THRESHOLD > QRX_GENESIS_GOVERNANCE_ROOT_COUNT)
  then false else roots_loop [] QRX_GENESIS_GOVERNANCE_ROOTS.

(** ** What the checks mean *)

Lemma bootstrap_loop_spec earlier vs : bootstrap_loop earlier vs = true ->
  NoDup (address <$> earlier) -> NoDup (address <$> earlier ++ vs) /\
  Forall (fun v => qrx_genesis_address_sane (address v) = true /\ amount_atoms v = QRX_BOOTSTRAP_VALIDATOR_ATOMS /\
    locked_until_height v = QRX_BOOTSTRAP_LOCK_UNTIL_HEIGHT /\ transfer_allowed_before_unlock v = 0) vs.
Proof.
  revert earlier. induction vs as [|v vs IH]; intros earlier H Hn; [by rewrite app_nil_r|].
  cbn [bootstrap_loop] in H. apply andb_true_iff in H as [Hv H]. unfold bootstrap_ok in Hv.
  rewrite !andb_true_iff, !bool_decide_eq_true in Hv. destruct Hv as [[[[[H1 H2] H3] H4] H5] H6].
  destruct (IH (earlier ++ [v]) H) as [Hd Hf].
  - rewrite fmap_app. apply NoDup_app. split; [done|]. split; [|apply NoDup_singleton].
    intros a Ha ->%list_elem_of_singleton. apply list_elem_of_fmap in Ha as (u & Hu & Hin).
    rewrite forallb_forall in H6. specialize (H6 u (proj1 (list_elem_of_In _ _) Hin)). by apply bool_decide_eq_true in H6.
  - rewrite <- app_assoc in Hd. split; [exact Hd|]. by apply List.Forall_cons.
Qed.

(** The released material passes its checks: sixty bootstrap validators
    with distinct addresses, each with the agreed amount locked for 180 days,
    60,000 QUB in all, and governance roots whose threshold can be met. *)
Theorem genesis_material_ready :
  qrx_bootstrap_validators_material_ready = true /\ qrx_genesis_governance_material_ready = true /\
  blen QRX_BOOTSTRAP_VALIDATORS = QRX_BOOTSTRAP_VALIDATOR_COUNT /\
  NoDup (address <$> QRX_BOOTSTRAP_VALIDATORS) /\
  zsum (amount_atoms <$> QRX_BOOTSTRAP_VALIDATORS) = 60000 * 100000000 /\
  Forall (fun v => locked_until_height v = 1555200 /\ transfer_allowed_before_unlock v = 0) QRX_BOOTSTRAP_VALIDATORS.
Proof.
  assert (qrx_bootstrap_validators_material_ready = true) as Hr by (vm_compute; reflexivity).
  destruct (bootstrap_loop_spec [] _ Hr (NoDup_nil_2)) as [Hn Hf]. split; [done|]. split; [vm_compute; reflexivity|].
  split; [reflexivity|]. split; [exact Hn|]. split; [vm_compute; reflexivity|].
  eapply Forall_impl; [exact Hf|]. intros v (_ & _ & H & H'). split; [exact H|exact H'].
Qed.
