(* ===== verification/ChainParams.v ===== *)
(** * Chain parameters (src/qrx-core/src/chain_params.c, chain_params.h)

    [chain.meta] and [genesis.cfg] of a chain directory: writing them, checking
    the Genesis hash, reading a parameter, with the overrides of forks by
    height, and the block reward.

    A chain directory is the contents of the two files, [None] for one that
    cannot be read.  Writes and allocation succeed.  SHA-256 is a parameter. *)

From stdpp Require Import gmap.
From S2P Require Import Prelude Format Economics Genesis.

Record ChainDir := mkChainDir { chain_meta : option bytes; genesis_cfg : option bytes }.

(** ** Reading *)

(** The value of the first line [key=value]. *)
Definition cfg_get_local (cfg key : bytes) : option bytes := first_value key (split_on x0a cfg).

Record fork_override_t := mkFork { fk_height : Z; fk_key : bytes; fk_value : bytes }.

(** The text before the first [=], and after it. *)
Fixpoint cut_eq (s : bytes) : option (bytes * bytes) :=
  match s with
  | [] => None
  | c :: s => if decide (c = x3d) then Some ([], s) else prod_map (cons c) id <$> cut_eq s
  end.

(** [sscanf(line, "fork.%lld.%127[^=]", &height, key) == 2]. *)
Definition scan_fork (line : bytes) : option (Z * bytes) :=
  s ← scan_lit (cs "fork.") line;
  '(h, s) ← scan_lld s;
  s ← scan_lit (cs ".") s;
  '(key, _) ← scan_set 127 (fun c => bool_decide (c = x3d)) s;
  Some (h, key).

(** One line; [None] when it is no override. *)
Definition parse_fork (line : bytes) : option fork_override_t :=
  if decide (blen line > 7 /\ take 5 line = cs "fork.") then
    '(line, val) ← cut_eq (take 511 line);
    '(h, key) ← scan_fork line;
    if decide (h >= 0) then Some {| fk_height := h; fk_key := snprintf_s 128 key; fk_value := snprintf_s 256 val |} else None
  else None.

Definition parse_fork_overrides (cfg : bytes) : list fork_override_t := omap parse_fork (split_on x0a cfg).

(** The last override of [key] of the greatest height that is reached. *)
Definition better_fork (height : Z) (key : bytes) (best : Z * option bytes) (f : fork_override_t) : Z * option bytes :=
  if decide (fk_height f <= height /\ fk_key f = key /\ fk_height f >= fst best)
  then (fk_height f, Some (fk_value f)) else best.
Definition best_fork (height : Z) (key : bytes) (forks : list fork_override_t) : option bytes :=
  snd (foldl (better_fork height key) (-1, None) forks).

Section sha.
Variable sha256 : bytes -> bytes.

Definition sha256_hex_local (data : bytes) : bytes := hex (sha256 data).

Definition qrx_chain_verify_genesis (d : ChainDir) : Z :=
  match chain_meta d, genesis_cfg d with
  | Some meta, Some genesis =>
      match cfg_get_local (cstr meta) (cs "genesis_hash") with
      | None => -1
      | Some expected => if decide (expected = sha256_hex_local genesis) then 0 else -1
      end
  | _, _ => -1
  end.

(** The value in [chain.meta], which is read first and is not verified. *)
Definition meta_value (d : ChainDir) (key : bytes) : option bytes :=
  meta ← chain_meta d; cfg_get_local (cstr meta) key.

Definition qrx_chain_get_value (d : ChainDir) (key : bytes) (out_sz : nat) : option bytes :=
  match meta_value d key with
  | Some v => Some (snprintf_s out_sz v)
  | None =>
      if decide (qrx_chain_verify_genesis d <> 0) then None else
      txt ← genesis_cfg d;
      snprintf_s out_sz <$> cfg_get_local (cstr txt) key
  end.

Definition qrx_chain_get_ll_or_default (d : ChainDir) (key : bytes) (dflt : Z) : Z :=
  match qrx_chain_get_value d key 128 with None => dflt | Some v => strtoll v end.

Definition qrx_chain_get_value_at_height (d : ChainDir) (height : Z) (key : bytes) (out_sz : nat) : option bytes :=
  match meta_value d key with
  | Some v => Some (snprintf_s out_sz v)
  | None =>
      if decide (qrx_chain_verify_genesis d <> 0) then None else
      txt ← genesis_cfg d;
      let out := match cfg_get_local (cstr txt) key with Some v => snprintf_s out_sz v | None => [] end in
      let out := match best_fork height key (parse_fork_overrides (cstr txt)) with
                 | Some v => snprintf_s out_sz v | None => out end in
      if decide (out <> []) then Some out else None
  end.

Definition qrx_chain_get_ll_at_height_or_default (d : ChainDir) (height : Z) (key : bytes) (dflt : Z) : Z :=
  match qrx_chain_get_value_at_height d height key 128 with None => dflt | Some v => strtoll v end.

(** ** The block reward *)

(** The loop of [qrx_chain_get_block_reward_at_height] from [i] on. *)
Fixpoint halve (fuel : nat) (i halvings reward : Z) : option Z :=
  if decide (i < halvings) then
    match fuel with
    | O => None
    | S fuel =>
        let reward := Z.quot reward 2 in
        if decide (reward <= 0) then Some 0 else halve fuel (i + 1) halvings reward
    end
  else Some reward.

Definition qrx_chain_get_block_reward_at_height (d : ChainDir) (height dflt_initial_reward_atoms dflt_halving_interval_blocks : Z) : option Z :=
  let initial_reward := qrx_chain_get_ll_at_height_or_default d height (cs "initial_reward_atoms")
    (qrx_chain_get_ll_at_height_or_default d height (cs "epoch_reward_atoms") dflt_initial_reward_atoms) in
  let halving_interval :=
    qrx_chain_get_ll_at_height_or_default d height (cs "halving_interval_blocks") dflt_halving_interval_blocks in
  if decide (halving_interval <= 0) then Some initial_reward
  else halve 64 0 (Z.quot height halving_interval) initial_reward.

Definition qrx_chain_get_next_halving_height (d : ChainDir) (height dflt_halving_interval_blocks : Z) : Z :=
  let halving_interval :=
    qrx_chain_get_ll_at_height_or_default d height (cs "halving_interval_blocks") dflt_halving_interval_blocks in
  if decide (halving_interval <= 0) then -1 else (Z.quot height halving_interval + 1) * halving_interval.

End sha.

(** ** Writing *)

Record GenesisArgs := mkArgs {
  network_id : bytes;
  protocol_version : bytes;
  magic : bytes;
  chain_name : bytes;
  penalty_threshold : Z;
  redistribute_bps : Z;
  max_supply_atoms : Z;
  epoch_reward_atoms : Z;
  faucet_cap_atoms : Z;
  block_time_seconds : Z;
  max_txs_per_block : Z;
  max_block_bytes : Z;
  max_tx_bytes : Z;
  validator_reward_percent : Z;
  delegator_reward_percent : Z;
  network_pool_percent : Z;
  dev_address : bytes;
  genesis_time : Z
}.

(** The lines of the format string of [genesis.cfg], in order. *)
Definition genesis_fields (a : GenesisArgs) : list (bytes * bytes) :=
  [(cs "genesis_version", cs "1");
   (cs "chain_name", chain_name a);
   (cs "genesis_time", print_d (genesis_time a));
   (cs "genesis_activation_policy", cs "not_before_timestamp");
   (cs "genesis_memo", cs "At the threshold of the AI age, amid global change, QRX was launched to keep value, verification, and digital sovereignty in the hands of people -- and to help ensure that the opportunities of artificial intelligence are open to all, not reserved for a few.");
   (cs "block_time_seconds", print_d (block_time_seconds a));
   (cs "max_txs_per_block", print_d (max_txs_per_block a));
   (cs "max_block_bytes", print_d (max_block_bytes a));
   (cs "max_tx_bytes", print_d (max_tx_bytes a));
   (cs "slash_penalty_threshold", print_d (penalty_threshold a));
   (cs "slash_redistribute_bps", print_d (redistribute_bps a));
   (cs "max_supply_atoms", print_d (max_supply_atoms a));
   (cs "epoch_reward_atoms", print_d (epoch_reward_atoms a));
   (cs "initial_reward_atoms", print_d (epoch_reward_atoms a));
   (cs "tx_fee_atoms", cs "1000");
   (cs "asset_activation_height", cs "0");
   (cs "asset_burn_policy", cs "block_reward_units_v1");
   (cs "asset_issue_main_burn_reward_units", cs "400");
   (cs "asset_issue_sub_burn_reward_units", cs "100");
   (cs "asset_issue_unique_burn_reward_units", cs "10");
   (cs "asset_issue_channel_burn_reward_units", cs "100");
   (cs "asset_issue_qualifier_burn_reward_units", cs "1000");
   (cs "asset_issue_subqualifier_burn_reward_units", cs "100");
   (cs "asset_issue_restricted_burn_reward_units", cs "2000");
   (cs "asset_reissue_burn_reward_units", cs "40");
   (cs "asset_tag_burn_reward_units", cs "4");
   (cs "asset_issue_main_burn_atoms", cs "10000000000");
   (cs "asset_issue_sub_burn_atoms", cs "2500000000");
   (cs "asset_issue_unique_burn_atoms", cs "250000000");
   (cs "asset_issue_channel_burn_atoms", cs "2500000000");
   (cs "asset_issue_qualifier_burn_atoms", cs "25000000000");
   (cs "asset_issue_subqualifier_burn_atoms", cs "2500000000");
   (cs "asset_issue_restricted_burn_atoms", cs "50000000000");
   (cs "asset_reissue_burn_atoms", cs "1000000000");
   (cs "asset_tag_burn_atoms", cs "100000000");
   (cs "halving_interval_blocks", cs "12614400");
   (cs "faucet_cap_atoms", print_d (faucet_cap_atoms a));
   (cs "validator_reward_percent", print_d (validator_reward_percent a));
   (cs "delegator_reward_percent", print_d (delegator_reward_percent a));
   (cs "network_pool_percent", print_d (network_pool_percent a));
   (cs "min_validator_stake_atoms", cs "10000000000");
   (cs "double_sign_slash_bps", cs "5000");
   (cs "double_sign_jail_seconds", cs "315360000");
   (cs "offline_penalty_bps", cs "5");
   (cs "offline_penalty_after_blocks", cs "25920");
   (cs "offline_penalty_interval_blocks", cs "8640");
   (cs "offline_max_slash_bps_per_outage", cs "100");
   (cs "offline_jail_after_blocks", cs "60480");
   (cs "offline_jail_seconds", cs "3600");
   (cs "validator_catchup_max_blocks", cs "2");
   (cs "validator_catchup_min_peers", cs "1");
   (cs "validator_catchup_stable_seconds", cs "30");
   (cs "genesis_premine_policy", cs "bootstrap_validators_only");
   (cs "development_fund_policy", cs "dynamic_subsidy_share");
   (cs "dev_address", dev_address a);
   (cs "transaction_fee_policy", cs "validators_and_delegators_100_percent");
   (cs "fork.0.block_time_seconds", print_d (block_time_seconds a));
   (cs "fork.0.max_txs_per_block", print_d (max_txs_per_block a));
   (cs "fork.0.max_block_bytes", print_d (max_block_bytes a));
   (cs "fork.0.max_tx_bytes", print_d (max_tx_bytes a));
   (cs "fork.0.epoch_reward_atoms", print_d (epoch_reward_atoms a));
   (cs "fork.0.initial_reward_atoms", print_d (epoch_reward_atoms a));
   (cs "fork.0.tx_fee_atoms", cs "1000");
   (cs "fork.0.asset_activation_height", cs "0");
   (cs "fork.0.asset_burn_policy", cs "block_reward_units_v1");
   (cs "fork.0.asset_issue_main_burn_reward_units", cs "400");
   (cs "fork.0.asset_issue_sub_burn_reward_units", cs "100");
   (cs "fork.0.asset_issue_unique_burn_reward_units", cs "10");
   (cs "fork.0.asset_issue_channel_burn_reward_units", cs "100");
   (cs "fork.0.asset_issue_qualifier_burn_reward_units", cs "1000");
   (cs "fork.0.asset_issue_subqualifier_burn_reward_units", cs "100");
   (cs "fork.0.asset_issue_restricted_burn_reward_units", cs "2000");
   (cs "fork.0.asset_reissue_burn_reward_units", cs "40");
   (cs "fork.0.asset_tag_burn_reward_units", cs "4");
   (cs "fork.0.asset_issue_main_burn_atoms", cs "10000000000");
   (cs "fork.0.asset_issue_sub_burn_atoms", cs "2500000000");
   (cs "fork.0.asset_issue_unique_burn_atoms", cs "250000000");
   (cs "fork.0.asset_issue_channel_burn_atoms", cs "2500000000");
   (cs "fork.0.asset_issue_qualifier_burn_atoms", cs "25000000000");
   (cs "fork.0.asset_issue_subqualifier_burn_atoms", cs "2500000000");
   (cs "fork.0.asset_issue_restricted_burn_atoms", cs "50000000000");
   (cs "fork.0.asset_reissue_burn_atoms", cs "1000000000");
   (cs "fork.0.asset_tag_burn_atoms", cs "100000000");
   (cs "fork.0.halving_interval_blocks", cs "12614400");
   (cs "fork.0.validator_reward_percent", print_d (validator_reward_percent a));
   (cs "fork.0.delegator_reward_percent", print_d (delegator_reward_percent a));
   (cs "fork.0.network_pool_percent", print_d (network_pool_percent a));
   (cs "fork.0.min_validator_stake_atoms", cs "10000000000");
   (cs "fork.0.double_sign_slash_bps", cs "5000");
   (cs "fork.0.double_sign_jail_seconds", cs "315360000");
   (cs "fork.0.offline_penalty_bps", cs "5");
   (cs "fork.0.offline_penalty_after_blocks", cs "25920");
   (cs "fork.0.offline_penalty_interval_blocks", cs "8640");
   (cs "fork.0.offline_max_slash_bps_per_outage", cs "100");
   (cs "fork.0.offline_jail_after_blocks", cs "60480");
   (cs "fork.0.offline_jail_seconds", cs "3600");
   (cs "fork.0.validator_catchup_max_blocks", cs "2");
   (cs "fork.0.validator_catchup_min_peers", cs "1");
   (cs "fork.0.validator_catchup_stable_seconds", cs "30")].

Definition kv_line (kv : bytes * bytes) : bytes := fst kv ++ x3d :: snd kv ++ [x0a].
Definition render (kvs : list (bytes * bytes)) : bytes := concat (kv_line <$> kvs).

(** What Mainnet appends, a list of pieces, each one call of [snprintf]. *)
Definition governance_header : list (bytes * bytes) :=
  [(cs "governance_model", cs "developer_threshold_v1");
   (cs "governance_threshold", print_d QRX_GENESIS_GOVERNANCE_THRESHOLD);
   (cs "governance_root_count", print_d QRX_GENESIS_GOVERNANCE_ROOT_COUNT);
   (cs "kyc_provider_registry", cs "consensus_qrxdb_v1");
   (cs "kyc_provider_governance", cs "developer_threshold_v1");
   (cs "bootstrap_validator_count", print_d QRX_BOOTSTRAP_VALIDATOR_COUNT);
   (cs "bootstrap_validator_amount_atoms", print_d QRX_BOOTSTRAP_VALIDATOR_ATOMS);
   (cs "bootstrap_validator_lock_until_height", print_d QRX_BOOTSTRAP_LOCK_UNTIL_HEIGHT)].

Definition root_piece (i : nat) (r : qrx_genesis_governance_root_t) : list (bytes * bytes) :=
  let pre := cs "governance_root_" ++ print_d (Z.of_nat i + 1) in
  [(pre ++ cs "_key_id", key_id r); (pre ++ cs "_public_key_hex", public_key_hex r)].

Definition validator_piece (i : nat) (v : qrx_bootstrap_validator_t) : list (bytes * bytes) :=
  let pre := cs "bootstrap_validator_" ++ print_d (Z.of_nat i + 1) in
  [(pre ++ cs "_address", address v); (pre ++ cs "_amount_atoms", print_d (amount_atoms v));
   (pre ++ cs "_locked_until_height", print_d (locked_until_height v));
   (pre ++ cs "_staking_allowed", print_d (staking_allowed v));
   (pre ++ cs "_transfer_allowed_before_unlock", print_d (transfer_allowed_before_unlock v))].

Definition mainnet_pieces : list (list (bytes * bytes)) :=
  governance_header :: imap root_piece QRX_GENESIS_GOVERNANCE_ROOTS ++ imap validator_piece QRX_BOOTSTRAP_VALIDATORS.

(** [n = snprintf(genesis + off, sizeof(genesis) - off, ...)] with its check. *)
Definition append_piece (genesis : option bytes) (piece : list (bytes * bytes)) : option bytes :=
  g ← genesis;
  if decide (blen (render piece) >= 65536 - blen g) then None else Some (g ++ render piece).

Definition genesis_text (a : GenesisArgs) : option bytes :=
  let genesis := snprintf_s (Z.to_nat 65536) (render (genesis_fields a)) in
  if strstr (network_id a) (cs "mainnet") then foldl append_piece (Some genesis) mainnet_pieces else Some genesis.

Section write.
Variable sha256 : bytes -> bytes.

Definition meta_fields (a : GenesisArgs) (genesis_hash chain_id : bytes) : list (bytes * bytes) :=
  [(cs "network_id", network_id a); (cs "protocol_version", protocol_version a); (cs "consensus_version", cs "1");
   (cs "magic", magic a); (cs "genesis_hash", genesis_hash); (cs "chain_id", chain_id)].

Definition chain_id_input (a : GenesisArgs) (genesis_hash : bytes) : bytes :=
  snprintf_s 2048 (network_id a ++ x7c :: protocol_version a ++ x7c :: magic a ++ x7c :: chain_name a ++ x7c :: genesis_hash).

(** The directory after the call; [None] is the error return, before any file
    is written. *)
Definition qrx_chain_write_genesis (a : GenesisArgs) : option ChainDir :=
  genesis ← genesis_text a;
  let genesis_hash := sha256_hex_local sha256 genesis in
  let chain_id := sha256_hex_local sha256 (chain_id_input a genesis_hash) in
  Some {| chain_meta := Some (snprintf_s 2048 (render (meta_fields a genesis_hash chain_id)));
          genesis_cfg := Some genesis |}.
End write.
