(* ===== verification/ChainGenesis.v ===== *)
(** * Chain parameters: what a written Genesis says

    The round trip of [qrx_chain_write_genesis], on Mainnet and elsewhere, and
    the emission of such a chain: the reward of a block halves every 12,614,400
    blocks, the loop of halvings needs at most 64 steps, and all the rewards
    together with the bootstrap stakes stay below the maximal supply. *)

From stdpp Require Import gmap.
From S2P Require Import Prelude Format Economics Genesis ChainParams ChainParamsFacts.

(** ** Arguments *)

(** Strings without zeros or line ends and of moderate length, numbers in the
    range of [long long]. *)
Record args_ok (a : GenesisArgs) : Prop := {
  ao_strings : Forall (fun s => clean s /\ blen s <= 300)
    [network_id a; protocol_version a; magic a; chain_name a; dev_address a];
  ao_numbers : Forall (fun n => LLONG_MIN <= n <= LLONG_MAX)
    [penalty_threshold a; redistribute_bps a; max_supply_atoms a; epoch_reward_atoms a; faucet_cap_atoms a;
     block_time_seconds a; max_txs_per_block a; max_block_bytes a; max_tx_bytes a; validator_reward_percent a;
     delegator_reward_percent a; network_pool_percent a; genesis_time a]
}.

Definition value_ok (v : bytes) : Prop := clean v /\ blen v <= 300.
#[export] Instance value_ok_dec v : Decision (value_ok v).
Proof. unfold value_ok. apply _. Defined.

(** The digits that are printed. *)
Lemma udec_loop_ok fuel n tl : Forall (fun c => is_digit c = true) tl ->
  Forall (fun c => is_digit c = true) (udec_loop fuel n tl) /\ (length (udec_loop fuel n tl) <= fuel + length tl)%nat.
Proof.
  revert n tl. induction fuel as [|fuel IH]; intros n tl Ht; cbn [udec_loop]; [split; [done|lia]|].
  pose proof (Z.mod_pos_bound n 10 ltac:(lia)) as Hm.
  assert (is_digit (byte.of_Z (48 + n mod 10)) = true) as Hd
    by (unfold is_digit; rewrite byte_of_digit by done; apply bool_decide_eq_true_2; lia).
  case_decide; [split; [by constructor|cbn; lia]|].
  destruct (IH (n / 10) (byte.of_Z (48 + n mod 10) :: tl)) as [H1 H2]; [by constructor|].
  split; [done|]. cbn in H2. lia.
Qed.

Lemma print_d_value n : value_ok (print_d n).
Proof.
  assert (forall m, Forall (fun c => is_digit c = true) (print_u m) /\ (length (print_u m) <= 20)%nat) as Hu
    by (intros m; destruct (udec_loop_ok 20 m [] (Forall_nil_2 _)) as [H1 H2]; split; [done|cbn [length] in H2; unfold print_u; lia]).
  assert (forall l, Forall (fun c => is_digit c = true) l -> clean l) as Hc.
  { intros l Hl. split; intros Hin; rewrite Forall_forall in Hl; by apply Hl in Hin. }
  unfold print_d, value_ok. case_decide.
  - destruct (Hu (- n)) as [H1 H2]. split; [|rewrite blen_cons; unfold blen; lia].
    destruct (Hc _ H1). split; intros [|]%elem_of_cons; done.
  - destruct (Hu n) as [H1 H2]. split; [by apply Hc|unfold blen; lia].
Qed.

Lemma print_d_length n : (length (print_d n) <= 21)%nat.
Proof.
  assert (forall m, (length (print_u m) <= 20)%nat) as Hu
    by (intros m; destruct (udec_loop_ok 20 m [] (Forall_nil_2 _)) as [_ H]; cbn [length] in H; unfold print_u; lia).
  unfold print_d. case_decide; [cbn [length]; specialize (Hu (- n)); lia|specialize (Hu n); lia].
Qed.

Lemma print_d_nonempty n : print_d n <> [].
Proof.
  unfold print_d. case_decide; [done|]. destruct (udec_loop_head 20 n [] ltac:(lia) ltac:(lia)) as (d & s & _ & Hd).
  unfold print_u. by rewrite Hd.
Qed.

Lemma genesis_values a : args_ok a -> Forall (fun kv => value_ok (snd kv)) (genesis_fields a).
Proof.
  intros [Hs _]. rewrite !Forall_cons in Hs. destruct Hs as (_ & _ & _ & Hn & Hd & _). unfold genesis_fields.
  repeat (apply List.Forall_cons; [cbn [snd]; first [apply print_d_value | exact Hn | exact Hd
    | apply (bool_decide_unpack _); vm_compute; exact I]|]). apply List.Forall_nil.
Qed.

(** *** Names *)

Definition no_args : GenesisArgs :=
  {| network_id := []; protocol_version := []; magic := []; chain_name := []; penalty_threshold := 0; redistribute_bps := 0;
     max_supply_atoms := 0; epoch_reward_atoms := 0; faucet_cap_atoms := 0; block_time_seconds := 0; max_txs_per_block := 0;
     max_block_bytes := 0; max_tx_bytes := 0; validator_reward_percent := 0; delegator_reward_percent := 0;
     network_pool_percent := 0; dev_address := []; genesis_time := 0 |}.

Lemma genesis_keys a : (genesis_fields a).*1 = (genesis_fields no_args).*1.
Proof. reflexivity. Qed.

Definition name_ok (k : bytes) : Prop :=
  key_ok k /\ blen k <= 200 /\ match fork_name k with Some (h, key) => h = 0 | None => True end.
#[export] Instance name_ok_dec k : Decision (name_ok k).
Proof. unfold name_ok. destruct (fork_name k) as [[h key]|]; apply _. Defined.

Lemma genesis_names a : Forall name_ok (genesis_fields a).*1.
Proof. rewrite genesis_keys. apply (bool_decide_unpack _). vm_compute. exact I. Qed.

Definition mainnet_fields : list (bytes * bytes) := concat mainnet_pieces.

Lemma mainnet_ok : Forall (fun kv => name_ok (fst kv) /\ value_ok (snd kv)) mainnet_fields.
Proof. apply (bool_decide_unpack _). vm_compute. exact I. Qed.

Lemma mainnet_no_forks : omap fork_of mainnet_fields = [].
Proof. vm_compute. reflexivity. Qed.

(** ** The text *)

Lemma render_app a b : render (a ++ b) = render a ++ render b.
Proof. unfold render. by rewrite fmap_app, concat_app. Qed.

Lemma blen_render kvs n : Forall (fun kv => blen (snd kv) <= n) kvs ->
  blen (render kvs) <= zsum (blen <$> kvs.*1) + (n + 2) * blen kvs.
Proof.
  unfold render. induction 1 as [|[k v] kvs Hv _ IH]; [change (0 <= 0 + (n + 2) * 0); lia|]. cbn [fmap list_fmap concat fst snd] in *.
  rewrite blen_app. unfold kv_line at 1. cbn [fst snd].
  rewrite !blen_app, !blen_cons, blen_app, blen_cons, blen_nil, zsum_cons. lia.
Qed.

Lemma genesis_size a : args_ok a -> blen (render (genesis_fields a)) <= 36000.
Proof.
  intros Ha. etrans; [apply (blen_render _ 300)|].
  - eapply Forall_impl; [by apply genesis_values|]. intros kv [_ H]; exact H.
  - rewrite genesis_keys. assert (blen (genesis_fields a) = blen (genesis_fields no_args)) as -> by reflexivity.
    apply (bool_decide_unpack _). vm_compute. exact I.
Qed.

Lemma append_pieces g pieces : blen g + blen (render (concat pieces)) < 65536 ->
  foldl append_piece (Some g) pieces = Some (g ++ render (concat pieces)).
Proof.
  revert g. induction pieces as [|p ps IH]; intros g H; [by cbn; rewrite app_nil_r|].
  cbn [foldl append_piece mbind option_bind concat] in *. rewrite render_app, blen_app in H.
  pose proof (blen_nonneg (render (concat ps))). rewrite decide_False by lia.
  rewrite IH by (rewrite blen_app; lia). by rewrite render_app, app_assoc.
Qed.

(** The lines of the file, with those of Mainnet. *)
Definition all_fields (a : GenesisArgs) : list (bytes * bytes) :=
  genesis_fields a ++ (if strstr (network_id a) (cs "mainnet") then mainnet_fields else []).

Lemma genesis_text_eq a : args_ok a -> genesis_text a = Some (render (all_fields a)).
Proof.
  intros Ha. pose proof (genesis_size a Ha) as Hs. unfold genesis_text, all_fields. cbv zeta.
  unfold snprintf_s. rewrite take_ge by (unfold blen in Hs; lia).
  destruct (strstr _ _); [|by rewrite app_nil_r]. rewrite append_pieces; [by rewrite render_app|].
  assert (blen (render (concat mainnet_pieces)) <= 29000) by (apply (bool_decide_unpack _); vm_compute; exact I). lia.
Qed.

Lemma all_fields_ok a : args_ok a -> Forall (fun kv => name_ok (fst kv) /\ value_ok (snd kv)) (all_fields a).
Proof.
  intros Ha. unfold all_fields. apply Forall_app. split.
  - apply Forall_and. split; [|by apply genesis_values]. assert (Forall (name_ok ∘ fst) (genesis_fields a)) as H by (apply Forall_fmap, genesis_names). exact H.
  - destruct (strstr _ _); [apply mainnet_ok|apply List.Forall_nil].
Qed.

Lemma all_fields_clean a : args_ok a -> Forall kv_clean (all_fields a) /\ forks_ok (all_fields a).
Proof.
  intros Ha. split; (eapply Forall_impl; [by apply all_fields_ok|]).
  - intros [k v] [((H1 & H2 & _) & _) [H3 _]]. done.
  - intros [k v] [(H1 & H2 & _) [_ H3]]. cbn [fst snd] in *. split; [done|]. intros _. lia.
Qed.

(** ** Reading back *)

(** The parameters of a written Genesis, as numbers. *)
Definition ll_params (a : GenesisArgs) : list (bytes * Z) :=
  [(cs "genesis_time", genesis_time a); (cs "block_time_seconds", block_time_seconds a);
   (cs "max_txs_per_block", max_txs_per_block a); (cs "max_block_bytes", max_block_bytes a);
   (cs "max_tx_bytes", max_tx_bytes a); (cs "slash_penalty_threshold", penalty_threshold a);
   (cs "slash_redistribute_bps", redistribute_bps a); (cs "max_supply_atoms", max_supply_atoms a);
   (cs "epoch_reward_atoms", epoch_reward_atoms a); (cs "initial_reward_atoms", epoch_reward_atoms a);
   (cs "tx_fee_atoms", 1000); (cs "halving_interval_blocks", QRX_HALVING_INTERVAL_BLOCKS);
   (cs "faucet_cap_atoms", faucet_cap_atoms a); (cs "validator_reward_percent", validator_reward_percent a);
   (cs "delegator_reward_percent", delegator_reward_percent a); (cs "network_pool_percent", network_pool_percent a);
   (cs "min_validator_stake_atoms", 10000000000); (cs "double_sign_slash_bps", 5000);
   (cs "double_sign_jail_seconds", 315360000); (cs "offline_penalty_bps", 5)].

(** The value of the first line of a name. *)
Fixpoint first_named (key : bytes) (kvs : list (bytes * bytes)) : option bytes :=
  match kvs with
  | [] => None
  | (k, v) :: kvs => if decide (key = k) then Some v else first_named key kvs
  end.

Lemma assoc_first_named key kvs v : first_named key kvs = Some v -> v <> [] -> assoc key kvs = Some v.
Proof.
  induction kvs as [|[k w] kvs IH]; [done|]. cbn [first_named assoc]. intros Hf Hv. case_decide as Hk.
  - injection Hf as ->. by rewrite decide_True.
  - rewrite decide_False by tauto. by apply IH.
Qed.

(** A parameter is in the plain lines, and an override of it has its value. *)
Definition param_in (a : GenesisArgs) (kn : bytes * Z) : Prop :=
  assoc (fst kn) (genesis_fields a) = Some (print_d (snd kn)) /\
  (last_override (fst kn) None (omap fork_of (genesis_fields a)) = None \/
   last_override (fst kn) None (omap fork_of (genesis_fields a)) = Some (snprintf_s 256 (print_d (snd kn)))) /\
  LLONG_MIN <= snd kn <= LLONG_MAX /\ (x3d ∉ fst kn).

Lemma ll_params_in a : args_ok a -> Forall (param_in a) (ll_params a).
Proof.
  intros [_ Hn]. rewrite !Forall_cons in Hn. decompose [and] Hn. clear Hn.
  unfold ll_params. repeat (apply List.Forall_cons; [unfold param_in; cbn [fst snd];
    split; [apply assoc_first_named; [reflexivity|apply print_d_nonempty]|split; [first [right; reflexivity | left; reflexivity]|split; [first [split; assumption | unfold QRX_HALVING_INTERVAL_BLOCKS; word]|
      apply (bool_decide_unpack _); vm_compute; exact I]]]|]).
  apply List.Forall_nil.
Qed.

Lemma last_override_no_forks key a b :
  omap fork_of b = [] -> last_override key None (omap fork_of (a ++ b)) = last_override key None (omap fork_of a).
Proof. intros Hb. by rewrite omap_app, last_override_app, Hb. Qed.

Lemma forks_at_zero a : args_ok a ->
  Forall (fun f => fk_height f = 0) (omap fork_of (all_fields a)) /\
  forall key, last_override key None (omap fork_of (all_fields a)) = last_override key None (omap fork_of (genesis_fields a)).
Proof.
  intros Ha. split.
  - apply Forall_forall. intros f Hf. apply list_elem_of_omap in Hf as ([k v] & Hkv & Hf).
    pose proof (all_fields_ok a Ha) as Hok. rewrite Forall_forall in Hok. destruct (Hok _ Hkv) as [(_ & _ & Hn) _].
    unfold fork_of in Hf. cbn [fst snd] in *. destruct (fork_name k) as [[h key]|]; [|done]. cbn [mbind option_bind] in Hf.
    case_decide; [|done]. by injection Hf as <-.
  - intros key. unfold all_fields. destruct (strstr _ _); [|by rewrite app_nil_r].
    exact (last_override_no_forks key (genesis_fields a) mainnet_fields mainnet_no_forks).
Qed.

Lemma hex_no_newline d : x0a ∉ hex d.
Proof.
  intros Hin. unfold hex in Hin. rewrite list_elem_of_In, in_concat in Hin. destruct Hin as (x & Hx & H0).
  apply list_elem_of_In, list_elem_of_fmap in Hx as (b & -> & _). pose proof (byte.unsigned_range b).
  assert (forall n, 0 <= n < 16 -> hex_digit n <> x0a) as Hd.
  { intros n Hn Hx. apply (f_equal byte.unsigned) in Hx. unfold hex_digit in Hx. rewrite byte.unsigned_of_Z in Hx.
    unfold byte.wrap in Hx. rewrite Z.mod_small in Hx by (case_decide; lia). revert Hx. change (byte.unsigned x0a) with 10.
    case_decide; lia. }
  destruct H0 as [H0|[H0|[]]]; (eapply Hd; [|exact H0]).
  - rewrite Z.shiftr_div_pow2 by done. change (2 ^ 4) with 16. split; [apply Z.div_pos; lia|apply Z.div_lt_upper_bound; lia].
  - change 15 with (Z.ones 4). rewrite Z.land_ones by done. apply Z.mod_pos_bound. done.
Qed.

Section sha.
Variable sha256 : bytes -> bytes.
Hypothesis sha256_length : forall x, length (sha256 x) = 32%nat.

Lemma sha_value_ok x : value_ok (sha256_hex_local sha256 x) /\ sha256_hex_local sha256 x <> [].
Proof using sha256_length.
  unfold sha256_hex_local. pose proof (hex_length (sha256 x)) as Hl. rewrite sha256_length in Hl.
  split; [|intros H; by rewrite H in Hl]. split; [|unfold blen; lia]. split; [apply hex_no_nul|apply hex_no_newline].
Qed.

Definition meta_of (a : GenesisArgs) (genesis : bytes) : list (bytes * bytes) :=
  let h := sha256_hex_local sha256 genesis in meta_fields a h (sha256_hex_local sha256 (chain_id_input a h)).

Lemma meta_clean a g : args_ok a -> Forall kv_clean (meta_of a g) /\ blen (render (meta_of a g)) < 2048.
Proof using sha256_length.
  intros [Hs _]. rewrite !Forall_cons in Hs. destruct Hs as ([H1 L1] & [H2 L2] & [H3 L3] & _).
  unfold meta_of, meta_fields. cbv zeta. set (h := sha256_hex_local sha256 g).
  destruct (sha_value_ok g) as [[H4 _] _]. destruct (sha_value_ok (chain_id_input a h)) as [[H5 _] _]. fold h in H4.
  assert (forall x, blen (sha256_hex_local sha256 x) = 64) as Hl64
    by (intros x; unfold sha256_hex_local, blen; by rewrite hex_length, sha256_length).
  split.
  - repeat (apply List.Forall_cons; [split; [|split]; cbn [fst snd];
      first [assumption | apply (bool_decide_unpack _); vm_compute; exact I]|]). apply List.Forall_nil.
  - unfold render, kv_line. cbn [fmap list_fmap concat fst snd]. repeat rewrite !blen_app, !blen_cons. rewrite !blen_nil.
    unfold h. rewrite !Hl64. assert (forall n, Z.of_nat n = Z.of_nat n) as _ by done.
    change (blen (cs "network_id")) with 10. change (blen (cs "protocol_version")) with 16.
    change (blen (cs "consensus_version")) with 17. change (blen (cs "1")) with 1. change (blen (cs "magic")) with 5.
    change (blen (cs "genesis_hash")) with 12. change (blen (cs "chain_id")) with 8. lia.
Qed.

Lemma meta_lookup a g key : args_ok a -> x3d ∉ key ->
  meta_value {| chain_meta := Some (snprintf_s 2048 (render (meta_of a g))); genesis_cfg := Some g |} key = assoc key (meta_of a g).
Proof using sha256_length.
  intros Ha Hk. destruct (meta_clean a g Ha) as [Hc Hl]. unfold meta_value. cbn [chain_meta mbind option_bind].
  unfold snprintf_s. rewrite take_ge by (unfold blen in Hl; lia). by apply cfg_get_render.
Qed.

Lemma written_verifies a g : args_ok a ->
  qrx_chain_verify_genesis sha256 {| chain_meta := Some (snprintf_s 2048 (render (meta_of a g))); genesis_cfg := Some g |} = 0.
Proof using sha256_length.
  intros Ha. unfold qrx_chain_verify_genesis. cbn [chain_meta genesis_cfg].
  destruct (meta_clean a g Ha) as [Hc Hl]. unfold snprintf_s. rewrite take_ge by (unfold blen in Hl; lia).
  rewrite cfg_get_render; [|apply (bool_decide_unpack _); vm_compute; exact I|done].
  assert (assoc (cs "genesis_hash") (meta_of a g) = Some (sha256_hex_local sha256 g)) as ->.
  { unfold meta_of, meta_fields. cbv zeta. cbn [assoc]. repeat (rewrite decide_False by (intros [H _]; discriminate H)).
    apply decide_True. split; [done|apply sha_value_ok]. }
  by rewrite decide_True.
Qed.

(** The parameters are none of the names of [chain.meta]. *)
Lemma params_not_meta a g : Forall (fun kn => assoc (fst kn) (meta_of a g) = None) (ll_params a).
Proof using.
  unfold ll_params, meta_of, meta_fields. cbv zeta.
  repeat (apply List.Forall_cons; [cbn [fst assoc]; repeat (rewrite decide_False by (intros [H _]; discriminate H)); reflexivity|]).
  apply List.Forall_nil.
Qed.

Definition written_dir (a : GenesisArgs) : ChainDir :=
  let g := render (all_fields a) in {| chain_meta := Some (snprintf_s 2048 (render (meta_of a g))); genesis_cfg := Some g |}.

Lemma write_genesis_eq a : args_ok a -> qrx_chain_write_genesis sha256 a = Some (written_dir a).
Proof using. intros Ha. unfold qrx_chain_write_genesis. by rewrite genesis_text_eq. Qed.

(** A parameter of the list, read back. *)
Lemma written_ll a key n dflt : args_ok a -> (key, n) ∈ ll_params a ->
  qrx_chain_get_ll_or_default sha256 (written_dir a) key dflt = n /\ forall height, 0 <= height -> qrx_chain_get_ll_at_height_or_default sha256 (written_dir a) height key dflt = n.
Proof using sha256_length.
  intros Ha. unfold written_dir. set (g := render (all_fields a)). cbv zeta.
  intros Hin. pose proof (ll_params_in a Ha) as Hps. rewrite Forall_forall in Hps.
  destruct (Hps _ Hin) as (Hp & Hf & Hr & Hk). cbn [fst snd] in *.
  assert (meta_value {| chain_meta := Some (snprintf_s 2048 (render (meta_of a g))); genesis_cfg := Some g |} key = None) as Hm.
  { rewrite meta_lookup by done. pose proof (params_not_meta a g) as Hno. rewrite Forall_forall in Hno. by apply (Hno (key, n)). }
  destruct (all_fields_clean a Ha) as [Hcl Hfo].
  assert (cfg_get_local (cstr g) key = Some (print_d n)) as Hget
    by (unfold g; rewrite cfg_get_render by done; by apply assoc_app).
  assert (snprintf_s 128 (print_d n) = print_d n /\ snprintf_s 128 (snprintf_s 256 (print_d n)) = print_d n) as [Ht1 Ht2].
  { pose proof (print_d_length n) as Hpl. assert (forall m, (22 <= m)%nat -> snprintf_s m (print_d n) = print_d n) as Hsn
      by (intros m Hm2; unfold snprintf_s; apply take_ge; lia).
    rewrite !(Hsn 256%nat), (Hsn 128%nat) by lia. done. }
  split.
  - unfold qrx_chain_get_ll_or_default, qrx_chain_get_value. rewrite Hm, written_verifies by done.
    rewrite decide_False by (intros H; by apply H). cbn [genesis_cfg mbind option_bind]. rewrite Hget. cbn [fmap option_fmap option_map].
    rewrite Ht1. by apply strtoll_print_d.
  - intros height Hh. unfold qrx_chain_get_ll_at_height_or_default, qrx_chain_get_value_at_height.
    rewrite Hm, written_verifies by done. rewrite decide_False by (intros H; by apply H).
    cbn [genesis_cfg mbind option_bind]. cbv zeta. rewrite Hget. unfold g. rewrite parse_forks_render by done.
    destruct (forks_at_zero a Ha) as [Hz Hlo]. rewrite best_fork_zero, Hlo by done.
    destruct Hf as [-> | ->]; rewrite ?Ht1, ?Ht2; (rewrite decide_True by apply print_d_nonempty); by apply strtoll_print_d.
Qed.

(** C9: a Genesis written for any reasonable arguments verifies, and its
    parameters read back as they were given, plainly and at every height; on
    Mainnet the appended validators and roots change none of them. *)
Theorem genesis_roundtrip a :
  args_ok a ->
  exists d, qrx_chain_write_genesis sha256 a = Some d /\ qrx_chain_verify_genesis sha256 d = 0 /\
    forall key n dflt, (key, n) ∈ ll_params a ->
      qrx_chain_get_ll_or_default sha256 d key dflt = n /\
      forall height, 0 <= height -> qrx_chain_get_ll_at_height_or_default sha256 d height key dflt = n.
Proof using sha256_length.
  intros Ha. exists (written_dir a). split; [by apply write_genesis_eq|]. split; [by apply written_verifies|].
  intros key n dflt Hin. by apply written_ll.
Qed.

End sha.

(** ** Witness *)

Definition sample_hash (x : bytes) : bytes := replicate 32 (nth 0 x x00).

Definition mainnet_args : GenesisArgs :=
  {| network_id := cs "qrx-mainnet"; protocol_version := cs "1"; magic := cs "QRXM"; chain_name := cs "QRX";
     penalty_threshold := 20; redistribute_bps := 5000; max_supply_atoms := QRX_MAX_SUPPLY_ATOMS;
     epoch_reward_atoms := QRX_INITIAL_BLOCK_REWARD_ATOMS; faucet_cap_atoms := 0; block_time_seconds := 10;
     max_txs_per_block := 100; max_block_bytes := 524288; max_tx_bytes := 8192; validator_reward_percent := 70;
     delegator_reward_percent := 30; network_pool_percent := 0; dev_address := cs "QRXDEV"; genesis_time := 1780000000 |}.

Lemma mainnet_args_ok : args_ok mainnet_args.
Proof. split; apply (bool_decide_unpack _); vm_compute; exact I. Qed.

Lemma genesis_roundtrip_witness :
  args_ok mainnet_args /\
  exists d, qrx_chain_write_genesis sample_hash mainnet_args = Some d /\
    qrx_chain_get_ll_or_default sample_hash d (cs "max_block_bytes") 0 = 524288.
Proof.
  split; [exact mainnet_args_ok|].
  destruct (genesis_roundtrip sample_hash (fun x => eq_refl) mainnet_args mainnet_args_ok) as (d & Hd & _ & Hr).
  exists d. split; [exact Hd|]. apply (Hr (cs "max_block_bytes") 524288).
  apply (bool_decide_unpack _). vm_compute. exact I.
Defined.

(** ** The loop of halvings *)

Lemma halve_pos fuel i k R : 0 <= i <= k -> 0 < R < 2 ^ Z.of_nat fuel -> halve fuel i k R = Some (R / 2 ^ (k - i)).
Proof.
  revert i R. induction fuel as [|fuel IH]; intros i R Hi HR; [change (2 ^ Z.of_nat 0) with 1 in HR; lia|].
  cbn [halve]. cbv zeta. rewrite Nat2Z.inj_succ, Z.pow_succ_r in HR by lia. rewrite Z.quot_div_nonneg by lia.
  case_decide as Hlt; [|replace (k - i) with 0 by lia; by rewrite Z.pow_0_r, Z.div_1_r].
  pose proof (Z.div_mod R 2 ltac:(lia)). pose proof (Z.mod_pos_bound R 2 ltac:(lia)).
  assert (R / 2 ^ (k - i) = R / 2 / 2 ^ (k - (i + 1))) as ->.
  { rewrite Z.div_div by lia. f_equal. rewrite <- Z.pow_succ_r by lia. f_equal. lia. }
  case_decide as Hz; [|by apply IH; lia]. assert (R / 2 = 0) as -> by lia. by rewrite Z.div_0_l by lia.
Qed.

(** Sixty-four steps are enough for a [long long]. *)
Lemma halve_ok k R : 0 <= k -> 0 <= R <= LLONG_MAX -> halve 64 0 k R = Some (R / 2 ^ k).
Proof.
  intros Hk HR. destruct (decide (R = 0)) as [->|].
  - rewrite Z.div_0_l by lia. change 64%nat with (S 63). cbn [halve]. cbv zeta. by case_decide.
  - rewrite halve_pos; [by rewrite Z.sub_0_r|lia|]. change (2 ^ Z.of_nat 64) with 18446744073709551616. word.
Qed.

(** ** The total *)

Section total.
Variables R H : Z.
Hypothesis R_nonneg : 0 <= R.
Hypothesis H_pos : 0 < H.

Definition reward_of (h : Z) : Z := R / 2 ^ (h / H).
Definition total_of (n : nat) : Z := zsum ((fun i : nat => reward_of (Z.of_nat i)) <$> seq 0 n).

Lemma total_of_S n : total_of (S n) = total_of n + reward_of (Z.of_nat n).
Proof using. unfold total_of. rewrite seq_S, fmap_app, zsum_app. cbn [fmap list_fmap zsum foldr Nat.add]. lia. Qed.

Lemma half_step q : 0 <= q -> 2 * (R / 2 ^ (q + 1)) <= R / 2 ^ q.
Proof using R_nonneg.
  intros Hq. rewrite Z.pow_add_r, <- Z.div_div by lia. change (2 ^ 1) with 2. apply Z.mul_div_le. lia.
Qed.

(** What is left to emit: the rest of this period and as much again. *)
Lemma total_invariant n : let q := Z.of_nat n / H in
  total_of n + (2 * H - Z.of_nat n mod H) * (R / 2 ^ q) <= 2 * R * H.
Proof using R_nonneg H_pos.
  cbv zeta. induction n as [|n IH].
  - change (Z.of_nat 0) with 0. rewrite Z.mod_0_l, Z.div_0_l, Z.pow_0_r, Z.div_1_r by lia. unfold total_of. cbn. lia.
  - rewrite total_of_S. unfold reward_of. set (m := Z.of_nat n) in *. replace (Z.of_nat (S n)) with (m + 1) by lia.
    pose proof (Z.div_mod m H ltac:(lia)) as Hm. pose proof (Z.mod_pos_bound m H H_pos) as Hb.
    assert (0 <= m / H) as Hq by (apply Z.div_pos; lia).
    destruct (decide (m mod H = H - 1)) as [He|Hne].
    + assert ((m + 1) / H = m / H + 1) as -> by (symmetry; apply Z.div_unique with 0; lia).
      assert ((m + 1) mod H = 0) as -> by (symmetry; apply Z.mod_unique with (m / H + 1); lia).
      pose proof (half_step (m / H) Hq). rewrite He in IH. nia.
    + assert ((m + 1) / H = m / H) as -> by (symmetry; apply Z.div_unique with (m mod H + 1); lia).
      assert ((m + 1) mod H = m mod H + 1) as -> by (symmetry; apply Z.mod_unique with (m / H); lia). lia.
Qed.

Lemma total_bound n : total_of n <= 2 * R * H.
Proof using R_nonneg H_pos.
  pose proof (total_invariant n) as Hi. cbv zeta in Hi. pose proof (Z.mod_pos_bound (Z.of_nat n) H H_pos).
  assert (0 <= R / 2 ^ (Z.of_nat n / H)) by (apply Z.div_pos; [done|apply Z.pow_pos_nonneg; [lia|apply Z.div_pos; lia]]).
  nia.
Qed.
End total.

(** ** The rewards of the chain *)

Section sha.
Variable sha256 : bytes -> bytes.
Hypothesis sha256_length : forall x, length (sha256 x) = 32%nat.

(** The rewards of the first [n] heights. *)
Definition rewards (d : ChainDir) (dflt dflt_interval : Z) (n : nat) : option (list Z) :=
  mapM (fun i : nat => qrx_chain_get_block_reward_at_height sha256 d (Z.of_nat i) dflt dflt_interval) (seq 0 n).

Lemma written_reward a height dflt dfi : args_ok a -> 0 <= epoch_reward_atoms a -> 0 <= height ->
  qrx_chain_get_block_reward_at_height sha256 (written_dir sha256 a) height dflt dfi
    = Some (reward_of (epoch_reward_atoms a) QRX_HALVING_INTERVAL_BLOCKS height).
Proof using sha256_length.
  intros Ha HR Hh. unfold qrx_chain_get_block_reward_at_height. cbv zeta.
  assert (forall key n dd, (key, n) ∈ ll_params a ->
    qrx_chain_get_ll_at_height_or_default sha256 (written_dir sha256 a) height key dd = n) as Hrd
    by (intros key n dd Hin; destruct (written_ll sha256 sha256_length a key n dd Ha Hin) as [_ Hrd]; by apply Hrd).
  rewrite (Hrd (cs "initial_reward_atoms") (epoch_reward_atoms a))
    by (unfold ll_params; rewrite !elem_of_cons; tauto).
  rewrite (Hrd (cs "halving_interval_blocks") QRX_HALVING_INTERVAL_BLOCKS)
    by (unfold ll_params; rewrite !elem_of_cons; tauto).
  rewrite decide_False by (unfold QRX_HALVING_INTERVAL_BLOCKS; lia).
  rewrite Z.quot_div_nonneg by (unfold QRX_HALVING_INTERVAL_BLOCKS; lia). apply halve_ok.
  - apply Z.div_pos; [done|unfold QRX_HALVING_INTERVAL_BLOCKS; lia].
  - destruct Ha as [_ Hn]. rewrite !Forall_cons in Hn. destruct Hn as (_ & _ & _ & Hn & _). lia.
Qed.

(** C19: on a written chain the block reward is the initial reward halved once
    per 12,614,400 blocks, whatever the height and the caller's defaults, the
    loop of halvings ends within its bound, and all the rewards of any prefix
    of the chain stay below twice one period's; with the released initial
    reward they stay, with the bootstrap stakes, below the maximal supply. *)
Theorem emission_bounded a :
  args_ok a -> 0 <= epoch_reward_atoms a ->
  exists d, qrx_chain_write_genesis sha256 a = Some d /\
    (forall height dflt dfi, 0 <= height -> qrx_chain_get_block_reward_at_height sha256 d height dflt dfi
       = Some (epoch_reward_atoms a / 2 ^ (height / QRX_HALVING_INTERVAL_BLOCKS))) /\
    forall dflt dfi n, exists rs, rewards d dflt dfi n = Some rs /\
      zsum rs <= 2 * epoch_reward_atoms a * QRX_HALVING_INTERVAL_BLOCKS /\
      (epoch_reward_atoms a = QRX_INITIAL_BLOCK_REWARD_ATOMS ->
       zsum rs + zsum (amount_atoms <$> QRX_BOOTSTRAP_VALIDATORS) <= QRX_MAX_SUPPLY_ATOMS).
Proof using sha256_length.
  intros Ha HR. exists (written_dir sha256 a). split; [by apply write_genesis_eq|].
  split; [intros height dflt dfi Hh; by apply written_reward|].
  intros dflt dfi n. set (R := epoch_reward_atoms a) in *. set (H := QRX_HALVING_INTERVAL_BLOCKS).
  exists ((fun i : nat => reward_of R H (Z.of_nat i)) <$> seq 0 n). split.
  - apply mapM_Some, Forall2_fmap_r, Forall_Forall2_diag, Forall_forall. intros i _. apply written_reward; [done|done|lia].
  - pose proof (total_bound R H HR ltac:(done) n) as Hb. unfold total_of in Hb. split; [exact Hb|]. intros HRe.
    assert (zsum (amount_atoms <$> QRX_BOOTSTRAP_VALIDATORS) = 6000000000000) as -> by (vm_compute; reflexivity).
    rewrite HRe in *. unfold H, QRX_HALVING_INTERVAL_BLOCKS, QRX_INITIAL_BLOCK_REWARD_ATOMS, QRX_MAX_SUPPLY_ATOMS in *. lia.
Qed.
End sha.

Lemma emission_bounded_witness :
  args_ok mainnet_args /\ 0 <= epoch_reward_atoms mainnet_args /\
  exists d, qrx_chain_write_genesis sample_hash mainnet_args = Some d /\
    qrx_chain_get_block_reward_at_height sample_hash d 12614400 0 0 = Some 12500000.
Proof.
  split; [exact mainnet_args_ok|]. split; [done|].
  destruct (emission_bounded sample_hash (fun x => eq_refl) mainnet_args mainnet_args_ok ltac:(done)) as (d & Hd & Hr & _).
  exists d. split; [exact Hd|]. rewrite Hr by done. reflexivity.
Defined.
