(* ===== verification/Aura.v ===== *)
(** * AURA model fabric: pods and readiness
      (src/qrx-core/src/compute/qrx_aura_model_fabric.c, .h; the calibration
      profile of qrx_compute.c, .h)

    Pods of accelerators, the models they can serve, the registry of pods, and
    how ready a set of pods is for a model, in basis points.

    Fields carry a prefix for their struct ([p_] pod, [m_] model, [c_]
    calibration, [dv_] device).  A [char] array is the list of its bytes; its
    string is [cstr] of it.  Enumerations, flags and [uint8_t] booleans are
    integers, as in C.  SHA3-256 is a parameter. *)

From stdpp Require Import gmap.
From S2P Require Import Prelude Format.

(** ** Constants *)

Definition GIB : Z := 1024 * 1024 * 1024.
Definition QRX_AURA_FABRIC_VERSION : Z := 1.
Definition QRX_AURA_FABRIC_LOCAL_REGISTRY_MAX_PODS : Z := 256.
Definition QRX_AURA_FABRIC_MAX_PODS : Z := 4096.
Definition QRX_AURA_FABRIC_MAX_MODELS : Z := 64.
Definition QRX_AURA_FABRIC_MAX_FAMILY : nat := 64.
Definition QRX_AURA_FABRIC_MAX_QUANT : nat := 32.
Definition QRX_AURA_FABRIC_DEFAULT_PRIVACY_MIN_PROVIDERS : Z := 3.
Definition QRX_AURA_POD_ROLE_INFERENCE : Z := 1.
Definition QRX_AURA_POD_ROLE_ALL : Z := 127.
Definition QRX_AURA_TIER_NONE : Z := 0.
Definition QRX_AURA_TIER_NANO : Z := 1.
Definition QRX_AURA_TIER_EDGE : Z := 2.
Definition QRX_AURA_TIER_LOCAL : Z := 3.
Definition QRX_AURA_TIER_CLUSTER : Z := 4.
Definition QRX_AURA_TIER_K2_CLASS : Z := 5.
Definition QRX_AURA_TIER_K3_CLASS : Z := 6.
Definition QRX_GLOBE_PROVIDER_MAX : nat := 128.
Definition QRX_GLOBE_REGION_MAX : nat := 63.
Definition QRX_MOE_MAX_POD_ID : nat := 96.
Definition QRX_MODEL_MAX_ID : nat := 96.
Definition QRX_MODEL_MAX_VERSION : nat := 48.
Definition QRX_MODEL_MAX_RUNTIME : nat := 96.
Definition QRX_MOE_BACKEND_CPU : Z := 1.
Definition QRX_MOE_BACKEND_MLX_METAL : Z := 2.
Definition QRX_MOE_BACKEND_CUDA : Z := 3.
Definition QRX_MOE_BACKEND_OTHER : Z := 4.
Definition QRX_MOE_RUNTIME_VERSION : Z := 1.
Definition QRX_MOE_CALIBRATION_VERSION : Z := 1.
Definition QRX_MOE_MAX_DEVICE_NAME : nat := 96.
Definition QRX_MOE_ACCEL_FEAT_MLX : Z := 32.
Definition QRX_MOE_ACCEL_FEAT_METAL : Z := 64.
Definition QRX_MOE_ACCEL_FEAT_CUDA : Z := 128.

(** ** Data *)

Record QrxAuraPodCapacity := mkPod {
  p_version : Z;
  p_provider_id : bytes;
  p_pod_id : bytes;
  p_region : bytes;
  p_backend : Z;
  p_accelerator_features : Z;
  p_role_mask : Z;
  p_usable_memory_bytes : Z;
  p_free_memory_bytes : Z;
  p_model_cache_free_bytes : Z;
  p_measured_milli_tokens_per_second : Z;
  p_network_egress_mbps : Z;
  p_latency_ms : Z;
  p_utilization_bps : Z;
  p_reliability_bps : Z;
  p_cache_hit_bps : Z;
  p_expert_locality_bps : Z;
  p_max_context_tokens : Z;
  p_node_count : Z;
  p_available : Z;
  p_calibration_commitment : bytes
}.

Record QrxAuraModelCapabilityProfile := mkModel {
  m_version : Z;
  m_model_id : bytes;
  m_model_version : bytes;
  m_family : bytes;
  m_runtime_id : bytes;
  m_quantization : bytes;
  m_tier : Z;
  m_min_memory_bytes : Z;
  m_recommended_memory_bytes : Z;
  m_min_storage_bytes : Z;
  m_min_aggregate_milli_tokens_per_second : Z;
  m_min_pods : Z;
  m_min_network_mbps : Z;
  m_max_latency_ms : Z;
  m_min_reliability_bps : Z;
  m_min_cache_hit_bps : Z;
  m_min_expert_locality_bps : Z;
  m_max_context_tokens : Z;
  m_quality_bps : Z;
  m_coding_bps : Z;
  m_reasoning_bps : Z;
  m_rag_bps : Z;
  m_tool_use_bps : Z;
  m_required_accelerator_features : Z;
  m_is_moe : Z;
  m_supports_single_device : Z
}.

(** The pods are the first [count] of the array. *)
Record QrxAuraPodCapacityRegistry := mkRegistry { rg_version : Z; rg_pods : list QrxAuraPodCapacity; rg_revision : Z }.

Record QrxMoeRuntimeDevice := mkDevice {
  dv_version : Z;
  dv_backend : Z;
  dv_device_name : bytes;
  dv_accelerator_features : Z;
  dv_device_memory_bytes : Z;
  dv_cuda_cc_major : Z;
  dv_cuda_cc_minor : Z;
  dv_max_batch_items : Z
}.

Record QrxMoeCalibrationProfile := mkCalibration {
  c_version : Z;
  c_profile_id : bytes;
  c_device : QrxMoeRuntimeDevice;
  c_measured_at_unix_ms : Z;
  c_memory_bandwidth_bytes_per_second : Z;
  c_compute_ops_per_second : Z;
  c_model_milli_tokens_per_second : Z;
  c_model_batch_items : Z;
  c_sample_count : Z;
  c_transport_latency_us : Z;
  c_transport_bandwidth_mbps : Z
}.

(** ** Helpers *)

(** [snprintf] into an array of [n] bytes, and into one of zeros. *)
Definition overwrite (n : nat) (s old : bytes) : bytes := snprintf_s n s ++ x00 :: drop (length (snprintf_s n s) + 1) old.
Definition arr (n : nat) (s : bytes) : bytes := overwrite n s (repeat x00 n).

Definition bounded_nonempty (s : bytes) (n : nat) : bool := bool_decide (x00 ∈ take n s) && bool_decide (cstr s <> []).

Definition bps_ok (v : Z) : bool := bool_decide (v <= 10000).

Definition is_hex_lower (c : byte) : bool := is_digit c || bool_decide (97 <= byte.unsigned c <= 102).

Definition hex64_or_empty (s : bytes) : bool :=
  if decide (x00 ∉ take 65 s) then false
  else if decide (cstr s = []) then true
  else if decide (blen (cstr s) <> 64) then false
  else forallb is_hex_lower (take 64 s).

Definition sat_add64 (a b : Z) : Z := if decide (UINT64_MAX - a < b) then UINT64_MAX else a + b.
Definition sat_add32 (a b : Z) : Z := if decide (UINT32_MAX - a < b) then UINT32_MAX else a + b.

(** The loop of [ratio_bps64] with at most [fuel] steps. *)
Fixpoint ratio_search (fuel : nat) (q r have lo hi : Z) : option Z :=
  if decide (lo < hi) then
    match fuel with
    | O => None
    | S fuel =>
        let mid := lo + (hi - lo + 1) / 2 in
        let tail := (r *64 mid +64 9999) / 10000 in
        let threshold := q *64 mid +64 tail in
        if decide (have >= threshold) then ratio_search fuel q r have mid hi
        else ratio_search fuel q r have lo (mid - 1)
    end
  else Some lo.

Definition ratio_bps64 (have need : Z) : Z :=
  if decide (need = 0 \/ have >= need) then 10000
  else if decide (have <= UINT64_MAX / 10000) then u32 ((have *64 10000) / need)
  else default 0 (ratio_search 14 (need / 10000) (need mod 10000) have 0 9999).

Definition ratio_bps32 (have need : Z) : Z :=
  if decide (need = 0 \/ have >= need) then 10000 else u32 ((have *64 10000) / need).

(** [strcmp(a, b) < 0], bytes compared as [unsigned char]. *)
Fixpoint strcmp_lt (a b : bytes) : bool :=
  match a, b with
  | [], [] => false
  | [], _ :: _ => true
  | _ :: _, [] => false
  | x :: a, y :: b => if decide (x = y) then strcmp_lt a b else bool_decide (byte.unsigned x < byte.unsigned y)
  end.

Definition inference (mask : Z) : bool := bool_decide (Z.land mask QRX_AURA_POD_ROLE_INFERENCE <> 0).

(** ** Validation *)

Definition qrx_aura_pod_capacity_validate (p : QrxAuraPodCapacity) : Z :=
  if decide (p_version p <> QRX_AURA_FABRIC_VERSION) then -1
  else if negb (bounded_nonempty (p_provider_id p) (QRX_GLOBE_PROVIDER_MAX + 1)) || negb (bounded_nonempty (p_pod_id p) QRX_MOE_MAX_POD_ID)
    || negb (bounded_nonempty (p_region p) (QRX_GLOBE_REGION_MAX + 1)) then -2
  else if decide (p_backend p < QRX_MOE_BACKEND_CPU \/ p_backend p > QRX_MOE_BACKEND_OTHER) then -3
  else if decide (p_role_mask p = 0 \/ Z.ldiff (p_role_mask p) QRX_AURA_POD_ROLE_ALL <> 0) then -4
  else if decide (p_usable_memory_bytes p = 0 \/ p_free_memory_bytes p > p_usable_memory_bytes p \/ p_node_count p = 0) then -5
  else if negb (bps_ok (p_utilization_bps p)) || negb (bps_ok (p_reliability_bps p))
    || negb (bps_ok (p_cache_hit_bps p)) || negb (bps_ok (p_expert_locality_bps p)) then -6
  else if negb (hex64_or_empty (p_calibration_commitment p)) then -7
  else if decide (inference (p_role_mask p) = true /\
      (p_measured_milli_tokens_per_second p = 0 \/ p_max_context_tokens p = 0 \/ cstr (p_calibration_commitment p) = [])) then -8
  else if decide (p_available p > 1) then -9
  else 0.

Definition qrx_aura_model_profile_validate (m : QrxAuraModelCapabilityProfile) : Z :=
  if decide (m_version m <> QRX_AURA_FABRIC_VERSION) then -1
  else if negb (bounded_nonempty (m_model_id m) QRX_MODEL_MAX_ID) || negb (bounded_nonempty (m_model_version m) QRX_MODEL_MAX_VERSION)
    || negb (bounded_nonempty (m_family m) QRX_AURA_FABRIC_MAX_FAMILY) || negb (bounded_nonempty (m_runtime_id m) QRX_MODEL_MAX_RUNTIME)
    || negb (bounded_nonempty (m_quantization m) QRX_AURA_FABRIC_MAX_QUANT) then -2
  else if decide (m_tier m < QRX_AURA_TIER_NANO \/ m_tier m > QRX_AURA_TIER_K3_CLASS) then -3
  else if decide (m_min_memory_bytes m = 0 \/ m_recommended_memory_bytes m < m_min_memory_bytes m \/
      m_min_storage_bytes m = 0 \/ m_min_aggregate_milli_tokens_per_second m = 0 \/
      m_min_pods m = 0 \/ m_max_context_tokens m = 0) then -4
  else if negb (bps_ok (m_min_reliability_bps m)) || negb (bps_ok (m_min_cache_hit_bps m))
    || negb (bps_ok (m_min_expert_locality_bps m)) || negb (bps_ok (m_quality_bps m))
    || negb (bps_ok (m_coding_bps m)) || negb (bps_ok (m_reasoning_bps m))
    || negb (bps_ok (m_rag_bps m)) || negb (bps_ok (m_tool_use_bps m)) then -5
  else if decide (m_quality_bps m = 0) then -6
  else if decide (m_is_moe m <> 0 /\ m_tier m < QRX_AURA_TIER_CLUSTER) then -7
  else if decide (m_supports_single_device m <> 0 /\ m_min_pods m > 1) then -8
  else 0.

Definition qrx_aura_tier_name (tier : Z) : bytes :=
  if decide (tier = QRX_AURA_TIER_NANO) then cs "NANO"
  else if decide (tier = QRX_AURA_TIER_EDGE) then cs "EDGE"
  else if decide (tier = QRX_AURA_TIER_LOCAL) then cs "LOCAL"
  else if decide (tier = QRX_AURA_TIER_CLUSTER) then cs "CLUSTER"
  else if decide (tier = QRX_AURA_TIER_K2_CLASS) then cs "K2_CLASS"
  else if decide (tier = QRX_AURA_TIER_K3_CLASS) then cs "K3_CLASS"
  else cs "NONE".

Definition qrx_aura_pod_tier_classify (p : QrxAuraPodCapacity) : Z :=
  if decide (qrx_aura_pod_capacity_validate p <> 0 \/ p_available p = 0) then QRX_AURA_TIER_NONE
  else if negb (inference (p_role_mask p)) then
    if decide (p_free_memory_bytes p >= 2 * GIB) then QRX_AURA_TIER_NANO else QRX_AURA_TIER_NONE
  else if decide ((p_node_count p >= 2 \/ p_free_memory_bytes p >= 32 * GIB) /\ p_measured_milli_tokens_per_second p >= 20000)
    then QRX_AURA_TIER_CLUSTER
  else if decide (p_free_memory_bytes p >= 16 * GIB /\ p_measured_milli_tokens_per_second p >= 8000) then QRX_AURA_TIER_LOCAL
  else if decide (p_free_memory_bytes p >= 6 * GIB /\ p_measured_milli_tokens_per_second p >= 2000) then QRX_AURA_TIER_EDGE
  else if decide (p_free_memory_bytes p >= 2 * GIB /\ p_measured_milli_tokens_per_second p >= 250) then QRX_AURA_TIER_NANO
  else QRX_AURA_TIER_NONE.

(** ** The registry *)

Definition qrx_aura_pod_registry_init : QrxAuraPodCapacityRegistry :=
  {| rg_version := QRX_AURA_FABRIC_VERSION; rg_pods := []; rg_revision := 0 |}.

(** The index of the pod with the identifier. *)
Definition pod_index (pods : list QrxAuraPodCapacity) (id : bytes) : option nat :=
  fst <$> list_find (fun q => cstr (p_pod_id q) = cstr id) pods.

Definition qrx_aura_pod_registry_find (r : QrxAuraPodCapacityRegistry) (pod_id : bytes) : option QrxAuraPodCapacity :=
  if decide (rg_version r <> QRX_AURA_FABRIC_VERSION \/ cstr pod_id = []) then None
  else i ← pod_index (rg_pods r) pod_id; rg_pods r !! i.

Definition qrx_aura_pod_registry_upsert (r : QrxAuraPodCapacityRegistry) (p : QrxAuraPodCapacity) : Z * QrxAuraPodCapacityRegistry :=
  if decide (rg_version r <> QRX_AURA_FABRIC_VERSION \/ qrx_aura_pod_capacity_validate p <> 0) then (-1, r)
  else match pod_index (rg_pods r) (p_pod_id p) with
       | Some i => (0, {| rg_version := rg_version r; rg_pods := <[i:=p]> (rg_pods r); rg_revision := rg_revision r +64 1 |})
       | None =>
           if decide (blen (rg_pods r) >= QRX_AURA_FABRIC_LOCAL_REGISTRY_MAX_PODS) then (-2, r)
           else (0, {| rg_version := rg_version r; rg_pods := rg_pods r ++ [p]; rg_revision := rg_revision r +64 1 |})
       end.

Definition qrx_aura_pod_registry_remove (r : QrxAuraPodCapacityRegistry) (pod_id : bytes) : Z * QrxAuraPodCapacityRegistry :=
  if decide (rg_version r <> QRX_AURA_FABRIC_VERSION \/ cstr pod_id = []) then (-1, r)
  else match pod_index (rg_pods r) pod_id with
       | Some i =>
           (0, {| rg_version := rg_version r; rg_pods := take i (rg_pods r) ++ drop (S i) (rg_pods r);
                  rg_revision := rg_revision r +64 1 |})
       | None => (1, r)
       end.

(** ** Calibration *)

Definition be (n : nat) (v : Z) : bytes := rev (le_split n v).

(** [qrx_digest_field]: eight bytes of length and the bytes. *)
Definition qrx_digest_field (p : bytes) : bytes := be 8 (blen p) ++ p.
Definition qrx_job_digest_u64 (x : Z) : bytes := qrx_digest_field (be 8 x).
Definition qrx_job_digest_u32 (x : Z) : bytes := qrx_digest_field (be 4 x).

Definition qrx_moe_runtime_device_validate (d : QrxMoeRuntimeDevice) : Z :=
  if decide (dv_version d <> QRX_MOE_RUNTIME_VERSION \/ dv_backend d < QRX_MOE_BACKEND_CPU \/ dv_backend d > QRX_MOE_BACKEND_OTHER \/
      bounded_nonempty (dv_device_name d) QRX_MOE_MAX_DEVICE_NAME = false \/ dv_max_batch_items d = 0) then -1
  else if decide (dv_backend d = QRX_MOE_BACKEND_CUDA /\
      (Z.land (dv_accelerator_features d) QRX_MOE_ACCEL_FEAT_CUDA = 0 \/ dv_cuda_cc_major d = 0 \/ dv_device_memory_bytes d = 0)) then -2
  else if decide (dv_backend d = QRX_MOE_BACKEND_MLX_METAL /\
      Z.land (dv_accelerator_features d) (Z.lor QRX_MOE_ACCEL_FEAT_MLX QRX_MOE_ACCEL_FEAT_METAL)
        <> Z.lor QRX_MOE_ACCEL_FEAT_MLX QRX_MOE_ACCEL_FEAT_METAL) then -3
  else 0.

Definition qrx_moe_calibration_profile_validate (p : QrxMoeCalibrationProfile) : Z :=
  if decide (c_version p <> QRX_MOE_CALIBRATION_VERSION \/ bounded_nonempty (c_profile_id p) 129 = false \/
      qrx_moe_runtime_device_validate (c_device p) <> 0 \/ c_sample_count p = 0) then -1
  else if decide (c_model_milli_tokens_per_second p <> 0 /\ c_model_batch_items p = 0) then -2
  else 0.

(** What [qrx_moe_calibration_commitment] hashes. *)
Definition calibration_preimage (p : QrxMoeCalibrationProfile) : bytes :=
  cs "QRX/MOE/CALIBRATION/V1" ++ qrx_digest_field (cstr (c_profile_id p)) ++ qrx_digest_field (cstr (dv_device_name (c_device p)))
  ++ qrx_job_digest_u32 (dv_backend (c_device p)) ++ qrx_job_digest_u32 (dv_accelerator_features (c_device p))
  ++ qrx_job_digest_u64 (dv_device_memory_bytes (c_device p)) ++ qrx_job_digest_u32 (dv_cuda_cc_major (c_device p))
  ++ qrx_job_digest_u32 (dv_cuda_cc_minor (c_device p)) ++ qrx_job_digest_u64 (c_measured_at_unix_ms p)
  ++ qrx_job_digest_u64 (c_memory_bandwidth_bytes_per_second p) ++ qrx_job_digest_u64 (c_compute_ops_per_second p)
  ++ qrx_job_digest_u64 (c_model_milli_tokens_per_second p) ++ qrx_job_digest_u32 (c_model_batch_items p)
  ++ qrx_job_digest_u32 (c_sample_count p) ++ qrx_job_digest_u32 (c_transport_latency_us p)
  ++ qrx_job_digest_u32 (c_transport_bandwidth_mbps p).

Section sha.
Variable sha3_256 : bytes -> bytes.

Definition qrx_moe_calibration_commitment (p : QrxMoeCalibrationProfile) : option bytes :=
  if decide (qrx_moe_calibration_profile_validate p <> 0) then None else Some (hex (sha3_256 (calibration_preimage p))).

(** The code, and the pod when it was filled in. *)
Definition qrx_aura_pod_from_calibration (provider_id pod_id region : bytes) (c : QrxMoeCalibrationProfile)
    (role_mask free_memory_bytes model_cache_free_bytes network_egress_mbps latency_ms utilization_bps reliability_bps
     cache_hit_bps expert_locality_bps max_context_tokens node_count : Z) : Z * option QrxAuraPodCapacity :=
  if decide (qrx_moe_calibration_profile_validate c <> 0) then (-1, None)
  else if decide (blen provider_id >= Z.of_nat (QRX_GLOBE_PROVIDER_MAX + 1) \/ blen pod_id >= Z.of_nat QRX_MOE_MAX_POD_ID \/
      blen region >= Z.of_nat (QRX_GLOBE_REGION_MAX + 1)) then (-1, None)
  else
    let usable := dv_device_memory_bytes (c_device c) in
    let out commitment :=
      {| p_version := QRX_AURA_FABRIC_VERSION;
         p_provider_id := arr (QRX_GLOBE_PROVIDER_MAX + 1) provider_id;
         p_pod_id := arr QRX_MOE_MAX_POD_ID pod_id;
         p_region := arr (QRX_GLOBE_REGION_MAX + 1) region;
         p_backend := dv_backend (c_device c);
         p_accelerator_features := dv_accelerator_features (c_device c);
         p_role_mask := role_mask;
         p_usable_memory_bytes := usable;
         p_free_memory_bytes := if decide (free_memory_bytes > usable) then usable else free_memory_bytes;
         p_model_cache_free_bytes := model_cache_free_bytes;
         p_measured_milli_tokens_per_second := c_model_milli_tokens_per_second c;
         p_network_egress_mbps := network_egress_mbps;
         p_latency_ms := latency_ms;
         p_utilization_bps := utilization_bps;
         p_reliability_bps := reliability_bps;
         p_cache_hit_bps := cache_hit_bps;
         p_expert_locality_bps := expert_locality_bps;
         p_max_context_tokens := max_context_tokens;
         p_node_count := node_count;
         p_available := 1;
         p_calibration_commitment := commitment |} in
    match qrx_moe_calibration_commitment c with
    | None => (-2, Some (out (repeat x00 65)))
    | Some h => let p := out (h ++ [x00]) in (qrx_aura_pod_capacity_validate p, Some p)
    end.
End sha.

(** ** Readiness *)

Definition accelerator_ok (p : QrxAuraPodCapacity) (m : QrxAuraModelCapabilityProfile) : bool :=
  bool_decide (Z.land (p_accelerator_features p) (m_required_accelerator_features m) = m_required_accelerator_features m).

Definition basic_pod_eligible (p : QrxAuraPodCapacity) (m : QrxAuraModelCapabilityProfile) : bool :=
  if decide (p_available p = 0) then false
  else if negb (inference (p_role_mask p)) || negb (accelerator_ok p m) then false
  else if decide (p_reliability_bps p < m_min_reliability_bps m) then false
  else if decide (m_max_latency_ms m <> 0 /\ p_latency_ms p > m_max_latency_ms m) then false
  else if decide (m_min_network_mbps m <> 0 /\ p_network_egress_mbps p < m_min_network_mbps m) then false
  else if decide (p_max_context_tokens p < m_max_context_tokens m) then false
  else true.

(** The test at the head of the loops over the pods. *)
Definition counts (m : QrxAuraModelCapabilityProfile) (p : QrxAuraPodCapacity) : bool :=
  bool_decide (qrx_aura_pod_capacity_validate p = 0) && basic_pod_eligible p m.

Definition single_candidate_better (candidate : QrxAuraPodCapacity) (candidate_score : Z)
    (best : option QrxAuraPodCapacity) (best_score : Z) : bool :=
  match best with
  | None => true
  | Some best =>
      if decide (candidate_score <> best_score) then bool_decide (candidate_score > best_score)
      else if decide (p_measured_milli_tokens_per_second candidate <> p_measured_milli_tokens_per_second best)
        then bool_decide (p_measured_milli_tokens_per_second candidate > p_measured_milli_tokens_per_second best)
      else if decide (p_free_memory_bytes candidate <> p_free_memory_bytes best)
        then bool_decide (p_free_memory_bytes candidate > p_free_memory_bytes best)
      else if decide (p_reliability_bps candidate <> p_reliability_bps best)
        then bool_decide (p_reliability_bps candidate > p_reliability_bps best)
      else if decide (p_latency_ms candidate <> p_latency_ms best)
        then bool_decide (p_latency_ms candidate < p_latency_ms best)
      else if decide (p_cache_hit_bps candidate <> p_cache_hit_bps best)
        then bool_decide (p_cache_hit_bps candidate > p_cache_hit_bps best)
      else if decide (p_expert_locality_bps candidate <> p_expert_locality_bps best)
        then bool_decide (p_expert_locality_bps candidate > p_expert_locality_bps best)
      else strcmp_lt (cstr (p_pod_id candidate)) (cstr (p_pod_id best))
  end.

(** The score of one pod for the model. *)
Definition single_score (m : QrxAuraModelCapabilityProfile) (p : QrxAuraPodCapacity) : Z :=
  let s := ratio_bps64 (p_free_memory_bytes p) (m_min_memory_bytes m) in
  let s := Z.min s (ratio_bps64 (p_measured_milli_tokens_per_second p) (m_min_aggregate_milli_tokens_per_second m)) in
  Z.min s (ratio_bps32 (p_cache_hit_bps p) (m_min_cache_hit_bps m)).

Definition single_step (m : QrxAuraModelCapabilityProfile) (best : option QrxAuraPodCapacity * Z) (p : QrxAuraPodCapacity)
    : option QrxAuraPodCapacity * Z :=
  if negb (counts m p) then best
  else let s := single_score m p in if single_candidate_better p s (fst best) (snd best) then (Some p, s) else best.

Definition single_device_best (m : QrxAuraModelCapabilityProfile) (pods : list QrxAuraPodCapacity) : option QrxAuraPodCapacity * Z :=
  foldl (single_step m) (None, 0) pods.

(** The readiness, and the tokens per second of the chosen pod. *)
Definition single_device_readiness (m : QrxAuraModelCapabilityProfile) (pods : list QrxAuraPodCapacity) : Z * Z :=
  let '(best, readiness) := single_device_best m pods in
  (readiness, match best with Some p => p_measured_milli_tokens_per_second p | None => 0 end).

(** The sums of the loops over the eligible pods. *)
Record Sums := mkSums {
  t_eligible : Z; t_memory : Z; t_tps : Z; t_network : Z; t_reliability : Z; t_cache : Z; t_locality : Z; t_latency : Z
}.
Definition no_sums : Sums := mkSums 0 0 0 0 0 0 0 0.

Definition readiness_step (m : QrxAuraModelCapabilityProfile) (t : Sums) (p : QrxAuraPodCapacity) : Sums :=
  if negb (counts m p) then t
  else {| t_eligible := t_eligible t +32 1;
          t_memory := sat_add64 (t_memory t) (p_free_memory_bytes p);
          t_tps := sat_add64 (t_tps t) (p_measured_milli_tokens_per_second p);
          t_network := sat_add32 (t_network t) (p_network_egress_mbps p);
          t_reliability := sat_add32 (t_reliability t) (p_reliability_bps p);
          t_cache := sat_add32 (t_cache t) (p_cache_hit_bps p);
          t_locality := sat_add32 (t_locality t) (p_expert_locality_bps p);
          t_latency := t_latency t |}.

Record Readiness := mkReadiness { rd_bps : Z; rd_eligible_pods : Z; rd_aggregate : Z }.

Definition qrx_aura_model_readiness_bps (m : QrxAuraModelCapabilityProfile) (pods : list QrxAuraPodCapacity) : Readiness :=
  if decide (qrx_aura_model_profile_validate m <> 0) then mkReadiness 0 0 0
  else if decide (m_is_moe m = 0 /\ m_supports_single_device m <> 0) then
    let '(readiness, selected_tps) := single_device_readiness m pods in
    if decide (readiness <> 0) then mkReadiness readiness 1 selected_tps else mkReadiness readiness 0 0
  else
    let t := foldl (readiness_step m) no_sums pods in
    if decide (t_eligible t = 0) then mkReadiness 0 (t_eligible t) (t_tps t)
    else
      let avg x := x / t_eligible t in
      let score := Z.min 10000 (ratio_bps64 (t_memory t) (m_min_memory_bytes m)) in
      let score := Z.min score (ratio_bps64 (t_tps t) (m_min_aggregate_milli_tokens_per_second m)) in
      let score := Z.min score (ratio_bps32 (t_eligible t) (m_min_pods m)) in
      let score := Z.min score (ratio_bps32 (avg (t_network t)) (m_min_network_mbps m)) in
      let score := Z.min score (ratio_bps32 (avg (t_reliability t)) (m_min_reliability_bps m)) in
      let score := Z.min score (ratio_bps32 (avg (t_cache t)) (m_min_cache_hit_bps m)) in
      let score := if decide (m_is_moe m <> 0) then Z.min score (ratio_bps32 (avg (t_locality t)) (m_min_expert_locality_bps m))
                   else score in
      mkReadiness score (t_eligible t) (t_tps t).
