(* ===== verification/AuraFabric.v ===== *)
(** * AURA model fabric: the snapshot and the globe
      (src/qrx-core/src/compute/qrx_aura_model_fabric.c, .h)

    [qrx_aura_fabric_build]: the totals over all pods, one cell per region, and
    the readiness for the two largest tiers, globally and by region.  A cell is
    public when enough providers are in it.  Prefixes: [g_] cell, [s_]
    snapshot.  Allocation succeeds. *)

From stdpp Require Import gmap.
From S2P Require Import Prelude Format Aura.

Record QrxAuraGlobeCell := mkCell {
  g_version : Z;
  g_region : bytes;
  g_provider_count : Z;
  g_pod_count : Z;
  g_inference_pods : Z;
  g_utility_pods : Z;
  g_tier_pods : list Z;
  g_free_memory_bytes : Z;
  g_model_cache_free_bytes : Z;
  g_ai_milli_tokens_per_second : Z;
  g_avg_latency_ms : Z;
  g_avg_utilization_bps : Z;
  g_avg_reliability_bps : Z;
  g_avg_cache_hit_bps : Z;
  g_avg_expert_locality_bps : Z;
  g_k2_readiness_bps : Z;
  g_k3_readiness_bps : Z;
  g_publicly_visible : Z
}.

Record QrxAuraFabricSnapshot := mkSnapshot {
  s_version : Z;
  s_provider_count : Z;
  s_total_pods : Z;
  s_inference_pods : Z;
  s_utility_pods : Z;
  s_tier_pods : list Z;
  s_free_memory_bytes : Z;
  s_model_cache_free_bytes : Z;
  s_ai_milli_tokens_per_second : Z;
  s_avg_latency_ms : Z;
  s_avg_utilization_bps : Z;
  s_avg_reliability_bps : Z;
  s_avg_cache_hit_bps : Z;
  s_avg_expert_locality_bps : Z;
  s_visible_regions : Z;
  s_hidden_regions : Z;
  s_k2_readiness_bps : Z;
  s_k3_readiness_bps : Z;
  s_max_ready_tier : Z
}.

Definition no_tiers : list Z := replicate 7 0.
Definition count_tier (tiers : list Z) (tier : Z) : list Z :=
  if decide (QRX_AURA_TIER_NANO <= tier <= QRX_AURA_TIER_CLUSTER) then alter (fun n => n +64 1) (Z.to_nat tier) tiers else tiers.

Definition best_tier_readiness (tier : Z) (models : list QrxAuraModelCapabilityProfile) (pods : list QrxAuraPodCapacity) : Z :=
  foldl (fun best m =>
    if decide (qrx_aura_model_profile_validate m <> 0 \/ m_tier m <> tier) then best
    else let readiness := rd_bps (qrx_aura_model_readiness_bps m pods) in
         if decide (readiness > best) then readiness else best) 0 models.

(** [provider_seen_before] and [pod_seen_before], on the pods before the
    index. *)
Definition provider_seen_before (before : list QrxAuraPodCapacity) (p : QrxAuraPodCapacity) (region : option bytes) : bool :=
  existsb (fun q => bool_decide (cstr (p_provider_id q) = cstr (p_provider_id p))
    && match region with None => true | Some g => bool_decide (cstr (p_region q) = cstr g) end) before.

Definition pod_seen_before (before : list QrxAuraPodCapacity) (p : QrxAuraPodCapacity) : bool :=
  existsb (fun q => bool_decide (cstr (p_pod_id q) = cstr (p_pod_id p))) before.

Definition cell_new (region : bytes) : QrxAuraGlobeCell :=
  mkCell QRX_AURA_FABRIC_VERSION (arr (QRX_GLOBE_REGION_MAX + 1) region) 0 0 0 0 no_tiers 0 0 0 0 0 0 0 0 0 0 0.

Definition cell_add (c : QrxAuraGlobeCell) (p : QrxAuraPodCapacity) (tier : Z) (unique_provider : bool) : QrxAuraGlobeCell :=
  {| g_version := g_version c;
     g_region := g_region c;
     g_provider_count := if unique_provider then g_provider_count c +64 1 else g_provider_count c;
     g_pod_count := g_pod_count c +64 1;
     g_inference_pods := if inference (p_role_mask p) then g_inference_pods c +64 1 else g_inference_pods c;
     g_utility_pods := if inference (p_role_mask p) then g_utility_pods c else g_utility_pods c +64 1;
     g_tier_pods := count_tier (g_tier_pods c) tier;
     g_free_memory_bytes := sat_add64 (g_free_memory_bytes c) (p_free_memory_bytes p);
     g_model_cache_free_bytes := sat_add64 (g_model_cache_free_bytes c) (p_model_cache_free_bytes p);
     g_ai_milli_tokens_per_second := sat_add64 (g_ai_milli_tokens_per_second c) (p_measured_milli_tokens_per_second p);
     g_avg_latency_ms := sat_add32 (g_avg_latency_ms c) (p_latency_ms p);
     g_avg_utilization_bps := sat_add32 (g_avg_utilization_bps c) (p_utilization_bps p);
     g_avg_reliability_bps := sat_add32 (g_avg_reliability_bps c) (p_reliability_bps p);
     g_avg_cache_hit_bps := sat_add32 (g_avg_cache_hit_bps c) (p_cache_hit_bps p);
     g_avg_expert_locality_bps := sat_add32 (g_avg_expert_locality_bps c) (p_expert_locality_bps p);
     g_k2_readiness_bps := g_k2_readiness_bps c;
     g_k3_readiness_bps := g_k3_readiness_bps c;
     g_publicly_visible := g_publicly_visible c |}.

Definition cell_average (c : QrxAuraGlobeCell) : QrxAuraGlobeCell :=
  if decide (g_pod_count c = 0) then c
  else
    let n := if decide (g_pod_count c > UINT32_MAX) then UINT32_MAX else g_pod_count c in
    {| g_version := g_version c;
       g_region := g_region c;
       g_provider_count := g_provider_count c;
       g_pod_count := g_pod_count c;
       g_inference_pods := g_inference_pods c;
       g_utility_pods := g_utility_pods c;
       g_tier_pods := g_tier_pods c;
       g_free_memory_bytes := g_free_memory_bytes c;
       g_model_cache_free_bytes := g_model_cache_free_bytes c;
       g_ai_milli_tokens_per_second := g_ai_milli_tokens_per_second c;
       g_avg_latency_ms := g_avg_latency_ms c / n;
       g_avg_utilization_bps := g_avg_utilization_bps c / n;
       g_avg_reliability_bps := g_avg_reliability_bps c / n;
       g_avg_cache_hit_bps := g_avg_cache_hit_bps c / n;
       g_avg_expert_locality_bps := g_avg_expert_locality_bps c / n;
       g_k2_readiness_bps := g_k2_readiness_bps c;
       g_k3_readiness_bps := g_k3_readiness_bps c;
       g_publicly_visible := g_publicly_visible c |}.

Definition snapshot_new : QrxAuraFabricSnapshot :=
  mkSnapshot QRX_AURA_FABRIC_VERSION 0 0 0 0 no_tiers 0 0 0 0 0 0 0 0 0 0 0 0 0.

(** The additions of one available pod to the snapshot. *)
Definition snapshot_add (s : QrxAuraFabricSnapshot) (p : QrxAuraPodCapacity) (tier : Z) (unique_provider : bool) : QrxAuraFabricSnapshot :=
  {| s_version := s_version s;
     s_provider_count := if unique_provider then s_provider_count s +64 1 else s_provider_count s;
     s_total_pods := s_total_pods s +64 1;
     s_inference_pods := if inference (p_role_mask p) then s_inference_pods s +64 1 else s_inference_pods s;
     s_utility_pods := if inference (p_role_mask p) then s_utility_pods s else s_utility_pods s +64 1;
     s_tier_pods := count_tier (s_tier_pods s) tier;
     s_free_memory_bytes := sat_add64 (s_free_memory_bytes s) (p_free_memory_bytes p);
     s_model_cache_free_bytes := sat_add64 (s_model_cache_free_bytes s) (p_model_cache_free_bytes p);
     s_ai_milli_tokens_per_second := sat_add64 (s_ai_milli_tokens_per_second s) (p_measured_milli_tokens_per_second p);
     s_avg_latency_ms := sat_add32 (s_avg_latency_ms s) (p_latency_ms p);
     s_avg_utilization_bps := sat_add32 (s_avg_utilization_bps s) (p_utilization_bps p);
     s_avg_reliability_bps := sat_add32 (s_avg_reliability_bps s) (p_reliability_bps p);
     s_avg_cache_hit_bps := sat_add32 (s_avg_cache_hit_bps s) (p_cache_hit_bps p);
     s_avg_expert_locality_bps := sat_add32 (s_avg_expert_locality_bps s) (p_expert_locality_bps p);
     s_visible_regions := s_visible_regions s;
     s_hidden_regions := s_hidden_regions s;
     s_k2_readiness_bps := s_k2_readiness_bps s;
     s_k3_readiness_bps := s_k3_readiness_bps s;
     s_max_ready_tier := s_max_ready_tier s |}.

(** The averages and what follows them. *)
Definition snapshot_finish (s : QrxAuraFabricSnapshot) (samples k2 k3 max_tier visible hidden : Z) : QrxAuraFabricSnapshot :=
  let avg x := if decide (samples <> 0) then x / samples else x in
  {| s_version := s_version s;
     s_provider_count := s_provider_count s;
     s_total_pods := s_total_pods s;
     s_inference_pods := s_inference_pods s;
     s_utility_pods := s_utility_pods s;
     s_tier_pods := s_tier_pods s;
     s_free_memory_bytes := s_free_memory_bytes s;
     s_model_cache_free_bytes := s_model_cache_free_bytes s;
     s_ai_milli_tokens_per_second := s_ai_milli_tokens_per_second s;
     s_avg_latency_ms := avg (s_avg_latency_ms s);
     s_avg_utilization_bps := avg (s_avg_utilization_bps s);
     s_avg_reliability_bps := avg (s_avg_reliability_bps s);
     s_avg_cache_hit_bps := avg (s_avg_cache_hit_bps s);
     s_avg_expert_locality_bps := avg (s_avg_expert_locality_bps s);
     s_visible_regions := visible;
     s_hidden_regions := hidden;
     s_k2_readiness_bps := k2;
     s_k3_readiness_bps := k3;
     s_max_ready_tier := max_tier |}.

(** The cell of the pod's region, which is added when there is none yet. *)
Fixpoint cells_add (cells : list QrxAuraGlobeCell) (p : QrxAuraPodCapacity) (tier : Z) (unique_provider : bool) : list QrxAuraGlobeCell :=
  match cells with
  | [] => [cell_add (cell_new (cstr (p_region p))) p tier unique_provider]
  | c :: cells =>
      if decide (cstr (g_region c) = cstr (p_region p)) then cell_add c p tier unique_provider :: cells
      else c :: cells_add cells p tier unique_provider
  end.

(** The state of the main loop. *)
Record Build := mkBuild { b_out : QrxAuraFabricSnapshot; b_cells : list QrxAuraGlobeCell; b_samples : Z }.

Definition build_step (before : list QrxAuraPodCapacity) (p : QrxAuraPodCapacity) (b : Build) : Build :=
  if decide (p_available p = 0) then b
  else
    let tier := qrx_aura_pod_tier_classify p in
    {| b_out := snapshot_add (b_out b) p tier (negb (provider_seen_before before p None));
       b_samples := b_samples b +32 1;
       b_cells := cells_add (b_cells b) p tier (negb (provider_seen_before before p (Some (p_region p)))) |}.

Fixpoint build_loop (before pods : list QrxAuraPodCapacity) (b : Build) : Build :=
  match pods with
  | [] => b
  | p :: pods => build_loop (before ++ [p]) pods (build_step before p b)
  end.

(** The checks of the pods, in the order of the loop; 0 when all pass. *)
Fixpoint pods_check (before pods : list QrxAuraPodCapacity) : Z :=
  match pods with
  | [] => 0
  | p :: pods =>
      if decide (qrx_aura_pod_capacity_validate p <> 0) then -2
      else if pod_seen_before before p then -3
      else pods_check (before ++ [p]) pods
  end.

Definition max_ready_tier (models : list QrxAuraModelCapabilityProfile) (pods : list QrxAuraPodCapacity) : Z :=
  foldl (fun best m =>
    let readiness := rd_bps (qrx_aura_model_readiness_bps m pods) in
    if decide (readiness = 10000 /\ m_tier m > best) then m_tier m else best) QRX_AURA_TIER_NONE models.

(** The last loop, on one cell. *)
Definition cell_finish (privacy_min_providers : Z) (models : list QrxAuraModelCapabilityProfile)
    (pods : list QrxAuraPodCapacity) (c : QrxAuraGlobeCell) : QrxAuraGlobeCell :=
  let c := cell_average c in
  let regional := filter (fun p => p_available p <> 0 /\ cstr (p_region p) = cstr (g_region c)) pods in
  {| g_version := g_version c;
     g_region := g_region c;
     g_provider_count := g_provider_count c;
     g_pod_count := g_pod_count c;
     g_inference_pods := g_inference_pods c;
     g_utility_pods := g_utility_pods c;
     g_tier_pods := g_tier_pods c;
     g_free_memory_bytes := g_free_memory_bytes c;
     g_model_cache_free_bytes := g_model_cache_free_bytes c;
     g_ai_milli_tokens_per_second := g_ai_milli_tokens_per_second c;
     g_avg_latency_ms := g_avg_latency_ms c;
     g_avg_utilization_bps := g_avg_utilization_bps c;
     g_avg_reliability_bps := g_avg_reliability_bps c;
     g_avg_cache_hit_bps := g_avg_cache_hit_bps c;
     g_avg_expert_locality_bps := g_avg_expert_locality_bps c;
     g_k2_readiness_bps := best_tier_readiness QRX_AURA_TIER_K2_CLASS models regional;
     g_k3_readiness_bps := best_tier_readiness QRX_AURA_TIER_K3_CLASS models regional;
     g_publicly_visible := if decide (g_provider_count c >= privacy_min_providers) then 1 else 0 |}.

Definition is_visible (c : QrxAuraGlobeCell) : bool := bool_decide (g_publicly_visible c <> 0).

Definition qrx_aura_fabric_build (pods : list QrxAuraPodCapacity) (models : list QrxAuraModelCapabilityProfile)
    (privacy_min_providers : Z) : Z + (QrxAuraFabricSnapshot * list QrxAuraGlobeCell) :=
  if decide (blen pods > QRX_AURA_FABRIC_MAX_PODS \/ blen models > QRX_AURA_FABRIC_MAX_MODELS) then inl (-1)
  else
    let privacy_min_providers :=
      if decide (privacy_min_providers = 0) then QRX_AURA_FABRIC_DEFAULT_PRIVACY_MIN_PROVIDERS else privacy_min_providers in
    if decide (pods_check [] pods <> 0) then inl (pods_check [] pods)
    else if existsb (fun m => bool_decide (qrx_aura_model_profile_validate m <> 0)) models then inl (-4)
    else
      let b := build_loop [] pods (mkBuild snapshot_new [] 0) in
      let cells := cell_finish privacy_min_providers models pods <$> b_cells b in
      inr (snapshot_finish (b_out b) (b_samples b)
             (best_tier_readiness QRX_AURA_TIER_K2_CLASS models pods) (best_tier_readiness QRX_AURA_TIER_K3_CLASS models pods)
             (max_ready_tier models pods)
             (u32 (blen (filter (fun c => is_visible c = true) cells))) (u32 (blen (filter (fun c => is_visible c = false) cells))),
           cells).
