(* ===== verification/AuraRoute.v ===== *)
(** * AURA model fabric: routing
      (src/qrx-core/src/compute/qrx_aura_model_fabric.c, .h)

    [qrx_aura_route_model] chooses a model for a request among those the pods
    can serve, the decision is bound by a commitment, and
    [qrx_aura_route_apply_to_job_node] writes it into a job.  Prefixes: [r_]
    request, [d_] decision, [n_] job node. *)

From stdpp Require Import gmap.
From S2P Require Import Prelude Format Aura.

Definition QRX_AURA_ROUTE_AUTO : Z := 1.
Definition QRX_AURA_ROUTE_PINNED : Z := 2.
Definition QRX_AURA_TASK_CHAT : Z := 1.
Definition QRX_AURA_TASK_RAG : Z := 2.
Definition QRX_AURA_TASK_CODING : Z := 3.
Definition QRX_AURA_TASK_REASONING : Z := 4.
Definition QRX_AURA_TASK_TOOL_USE : Z := 5.
Definition QRX_JOB_AI_INFERENCE : Z := 1.
Definition QRX_JOB_CODE_GENERATION : Z := 2.
Definition QRX_JOB_RESEARCH : Z := 10.
Definition QRX_JOB_CAP_MODEL_INFERENCE : Z := 8.

Record QrxAuraRouteRequest := mkRequest {
  r_version : Z;
  r_mode : Z;
  r_task_class : Z;
  r_complexity_bps : Z;
  r_min_quality_bps : Z;
  r_min_context_tokens : Z;
  r_allow_degradation : Z;
  r_pinned_model_id : bytes;
  r_pinned_model_version : bytes
}.

Record QrxAuraRouteDecision := mkDecision {
  d_version : Z;
  d_mode : Z;
  d_task_class : Z;
  d_model_id : bytes;
  d_model_version : bytes;
  d_runtime_id : bytes;
  d_tier : Z;
  d_fitness_bps : Z;
  d_readiness_bps : Z;
  d_task_quality_bps : Z;
  d_required_quality_bps : Z;
  d_selected_pods : Z;
  d_aggregate_milli_tokens_per_second : Z;
  d_degraded : Z;
  d_decision_commitment : bytes
}.

Record QrxComputeJobNode := mkNode {
  n_node_id : Z;
  n_job_type : Z;
  n_runtime_id : bytes;
  n_model_id : bytes;
  n_model_version : bytes;
  n_input_ref : bytes;
  n_output_ref : bytes;
  n_min_memory_bytes : Z;
  n_max_runtime_ms : Z;
  n_max_output_bytes : Z;
  n_max_fee_atoms : Z;
  n_capability_mask : Z
}.

(** ** Fitness *)

Definition task_quality (m : QrxAuraModelCapabilityProfile) (task_class : Z) : Z :=
  if decide (task_class = QRX_AURA_TASK_CODING) then m_coding_bps m
  else if decide (task_class = QRX_AURA_TASK_REASONING) then m_reasoning_bps m
  else if decide (task_class = QRX_AURA_TASK_RAG) then m_rag_bps m
  else if decide (task_class = QRX_AURA_TASK_TOOL_USE) then m_tool_use_bps m
  else m_quality_bps m.

Definition derived_quality (r : QrxAuraRouteRequest) : Z :=
  if decide (r_min_quality_bps r <> 0) then r_min_quality_bps r
  else
    let q := 3000 +64 (r_complexity_bps r *64 55) / 100 in
    let q := if decide (r_task_class r = QRX_AURA_TASK_CODING) then q +64 500 else q in
    let q := if decide (r_task_class r = QRX_AURA_TASK_REASONING) then q +64 800 else q in
    let q := if decide (q > 9500) then 9500 else q in
    u32 q.

Definition fitness_step (m : QrxAuraModelCapabilityProfile) (t : Sums) (p : QrxAuraPodCapacity) : Sums :=
  if negb (counts m p) then t
  else {| t_eligible := t_eligible t +32 1;
          t_memory := sat_add64 (t_memory t) (p_free_memory_bytes p);
          t_tps := t_tps t;
          t_network := t_network t;
          t_reliability := sat_add32 (t_reliability t) (p_reliability_bps p);
          t_cache := sat_add32 (t_cache t) (p_cache_hit_bps p);
          t_locality := sat_add32 (t_locality t) (p_expert_locality_bps p);
          t_latency := sat_add32 (t_latency t) (p_latency_ms p) |}.

(** The sums, divided, with the tokens per second and the number of pods that
    are selected. *)
Definition fitness_sums (m : QrxAuraModelCapabilityProfile) (pods : list QrxAuraPodCapacity) (rd : Readiness) : Sums * Z * Z :=
  if decide (m_is_moe m = 0 /\ m_supports_single_device m <> 0) then
    match single_device_best m pods with
    | (Some p, s) =>
        if decide (s <> 0) then
          (mkSums 1 (p_free_memory_bytes p) 0 0 (p_reliability_bps p) (p_cache_hit_bps p) (p_expert_locality_bps p) (p_latency_ms p),
           p_measured_milli_tokens_per_second p, 1)
        else (no_sums, rd_aggregate rd, rd_eligible_pods rd)
    | _ => (no_sums, rd_aggregate rd, rd_eligible_pods rd)
    end
  else
    let t := foldl (fitness_step m) no_sums pods in
    let avg x := if decide (t_eligible t <> 0) then x / t_eligible t else x in
    (mkSums (t_eligible t) (t_memory t) (t_tps t) (t_network t) (avg (t_reliability t)) (avg (t_cache t)) (avg (t_locality t))
       (avg (t_latency t)), rd_aggregate rd, rd_eligible_pods rd).

(** The weighted score of the sums. *)
Definition fitness_score (m : QrxAuraModelCapabilityProfile) (readiness : Z) (t : Sums) (selected_tps : Z) : Z :=
  let memory_score := ratio_bps64 (t_memory t) (m_recommended_memory_bytes m) in
  let tps_target := if decide (m_min_aggregate_milli_tokens_per_second m > UINT64_MAX / 2) then UINT64_MAX
                    else m_min_aggregate_milli_tokens_per_second m *64 2 in
  let tps_score := ratio_bps64 selected_tps tps_target in
  let latency_score :=
    if decide (m_max_latency_ms m <> 0) then
      if decide (t_latency t >= m_max_latency_ms m) then 0
      else u32 (((m_max_latency_ms m - t_latency t) *64 10000) / m_max_latency_ms m)
    else 10000 in
  let score := readiness *64 30 +64 memory_score *64 15 +64 tps_score *64 20 +64 t_reliability t *64 12
    +64 latency_score *64 8 +64 t_cache t *64 7 +64 t_locality t *64 8 in
  u32 (score / 100).

(** The fitness; with it, when they are written, the number of selected pods
    and their tokens per second. *)
Definition model_fitness (m : QrxAuraModelCapabilityProfile) (pods : list QrxAuraPodCapacity) : Z * option (Z * Z) :=
  let rd := qrx_aura_model_readiness_bps m pods in
  if decide (rd_bps rd = 0) then (0, None)
  else
    let '(t, selected_tps, selected_pods) := fitness_sums m pods rd in
    if decide (t_eligible t = 0) then (0, None)
    else (fitness_score m (rd_bps rd) t selected_tps, Some (selected_pods, selected_tps)).

Definition find_model (models : list QrxAuraModelCapabilityProfile) (model_id model_version : bytes) : option QrxAuraModelCapabilityProfile :=
  snd <$> list_find (fun m => cstr (m_model_id m) = cstr model_id /\ cstr (m_model_version m) = cstr model_version) models.

(** ** The commitment *)

Definition digest_u32 (v : Z) : bytes := be 4 v.
Definition digest_u64 (v : Z) : bytes := be 8 v.
Definition digest_field (s : bytes) : bytes := digest_u64 (blen s) ++ s.

Definition route_preimage (d : QrxAuraRouteDecision) : bytes :=
  cs "QRX/AURA/MODEL-ROUTE/V1" ++ digest_field (cstr (d_model_id d)) ++ digest_field (cstr (d_model_version d))
  ++ digest_field (cstr (d_runtime_id d)) ++ digest_u32 (d_mode d) ++ digest_u32 (d_task_class d) ++ digest_u32 (d_tier d)
  ++ digest_u32 (d_fitness_bps d) ++ digest_u32 (d_readiness_bps d) ++ digest_u32 (d_task_quality_bps d)
  ++ digest_u32 (d_required_quality_bps d) ++ digest_u32 (d_selected_pods d)
  ++ digest_u64 (d_aggregate_milli_tokens_per_second d) ++ digest_u32 (d_degraded d).

Section sha.
Variable sha3_256 : bytes -> bytes.

Definition qrx_aura_route_decision_commitment (d : QrxAuraRouteDecision) : option bytes :=
  if decide (d_version d <> QRX_AURA_FABRIC_VERSION \/
      bounded_nonempty (d_model_id d) QRX_MODEL_MAX_ID = false \/
      bounded_nonempty (d_model_version d) QRX_MODEL_MAX_VERSION = false \/
      bounded_nonempty (d_runtime_id d) QRX_MODEL_MAX_RUNTIME = false \/
      d_tier d < QRX_AURA_TIER_NANO \/ d_tier d > QRX_AURA_TIER_K3_CLASS \/
      d_mode d < QRX_AURA_ROUTE_AUTO \/ d_mode d > QRX_AURA_ROUTE_PINNED \/
      d_task_class d < QRX_AURA_TASK_CHAT \/ d_task_class d > QRX_AURA_TASK_TOOL_USE) then None
  else Some (hex (sha3_256 (route_preimage d))).

(** ** Routing *)

(** What the loops keep of the best model so far. *)
Record Choice := mkChoice { ch_model : QrxAuraModelCapabilityProfile; ch_fitness : Z; ch_quality : Z; ch_readiness : Z; ch_pods : Z; ch_tps : Z }.

(** The common part of the bodies: the model's figures, [None] when it is
    passed over; only the first loop asks for the required quality. *)
Definition consider (r : QrxAuraRouteRequest) (pods : list QrxAuraPodCapacity) (required_quality : option Z)
    (m : QrxAuraModelCapabilityProfile) : option Choice :=
  if decide (r_min_context_tokens r <> 0 /\ m_max_context_tokens m < r_min_context_tokens r) then None
  else
    let rd := qrx_aura_model_readiness_bps m pods in
    if decide (rd_bps rd < 10000) then None
    else
      let quality := task_quality m (r_task_class r) in
      if match required_quality with Some q => bool_decide (quality < q) | None => false end then None
      else
        let '(fitness, out) := model_fitness m pods in
        let '(selected_pods, selected_tps) := default (rd_eligible_pods rd, rd_aggregate rd) out in
        Some (mkChoice m fitness quality (rd_bps rd) selected_pods selected_tps).

Definition auto_better (c : Choice) (best : option Choice) : bool :=
  match best with
  | None => true
  | Some b => bool_decide (m_tier (ch_model c) < m_tier (ch_model b) \/
                           (m_tier (ch_model c) = m_tier (ch_model b) /\ ch_fitness c > ch_fitness b))
  end.

Definition degraded_better (c : Choice) (best : option Choice) : bool :=
  match best with
  | None => true
  | Some b => bool_decide (ch_quality c > ch_quality b \/ (ch_quality c = ch_quality b /\ ch_fitness c > ch_fitness b))
  end.

Definition choose (better : Choice -> option Choice -> bool) (considered : QrxAuraModelCapabilityProfile -> option Choice)
    (models : list QrxAuraModelCapabilityProfile) : option Choice :=
  foldl (fun best m => match considered m with
                       | None => best
                       | Some c => if better c best then Some c else best
                       end) None models.

(** The choice, with the flag for a degraded one, or the error. *)
Definition route_choice (r : QrxAuraRouteRequest) (models : list QrxAuraModelCapabilityProfile) (pods : list QrxAuraPodCapacity)
    : Z + (Choice * bool) :=
  let required_quality := derived_quality r in
  if decide (r_mode r = QRX_AURA_ROUTE_PINNED) then
    if decide (cstr (r_pinned_model_id r) = [] \/ cstr (r_pinned_model_version r) = []) then inl (-4)
    else match find_model models (r_pinned_model_id r) (r_pinned_model_version r) with
         | None => inl (-5)
         | Some m =>
             let rd := qrx_aura_model_readiness_bps m pods in
             if decide (rd_bps rd < 10000) then inl (-6)
             else if decide (r_min_context_tokens r <> 0 /\ m_max_context_tokens m < r_min_context_tokens r) then inl (-7)
             else
               let quality := task_quality m (r_task_class r) in
               let '(fitness, out) := model_fitness m pods in
               let '(best_pods, best_tps) := default (rd_eligible_pods rd, rd_aggregate rd) out in
               inr (mkChoice m fitness quality (rd_bps rd) best_pods best_tps, bool_decide (quality < required_quality))
         end
  else
    match choose auto_better (consider r pods (Some required_quality)) models with
    | Some c => inr (c, false)
    | None =>
        if decide (r_allow_degradation r <> 0) then
          match choose degraded_better (consider r pods None) models with
          | Some c => inr (c, true)
          | None => inl (-8)
          end
        else inl (-8)
    end.

Definition request_bad (r : QrxAuraRouteRequest) : bool :=
  bool_decide (r_version r <> QRX_AURA_FABRIC_VERSION \/ r_mode r < QRX_AURA_ROUTE_AUTO \/ r_mode r > QRX_AURA_ROUTE_PINNED \/
    r_task_class r < QRX_AURA_TASK_CHAT \/ r_task_class r > QRX_AURA_TASK_TOOL_USE)
  || negb (bps_ok (r_complexity_bps r)) || negb (bps_ok (r_min_quality_bps r)).

Definition decision_of (r : QrxAuraRouteRequest) (c : Choice) (degraded : bool) (commitment : bytes) : QrxAuraRouteDecision :=
  {| d_version := QRX_AURA_FABRIC_VERSION;
     d_mode := r_mode r;
     d_task_class := r_task_class r;
     d_model_id := arr QRX_MODEL_MAX_ID (cstr (m_model_id (ch_model c)));
     d_model_version := arr QRX_MODEL_MAX_VERSION (cstr (m_model_version (ch_model c)));
     d_runtime_id := arr QRX_MODEL_MAX_RUNTIME (cstr (m_runtime_id (ch_model c)));
     d_tier := m_tier (ch_model c);
     d_fitness_bps := ch_fitness c;
     d_readiness_bps := ch_readiness c;
     d_task_quality_bps := ch_quality c;
     d_required_quality_bps := derived_quality r;
     d_selected_pods := ch_pods c;
     d_aggregate_milli_tokens_per_second := ch_tps c;
     d_degraded := if degraded then 1 else 0;
     d_decision_commitment := commitment |}.

Definition qrx_aura_route_model (r : QrxAuraRouteRequest) (models : list QrxAuraModelCapabilityProfile) (pods : list QrxAuraPodCapacity)
    : Z + QrxAuraRouteDecision :=
  if decide (models = [] \/ request_bad r = true \/ blen models > QRX_AURA_FABRIC_MAX_MODELS \/ blen pods > QRX_AURA_FABRIC_MAX_PODS)
  then inl (-1)
  else if existsb (fun m => bool_decide (qrx_aura_model_profile_validate m <> 0)) models then inl (-2)
  else if existsb (fun p => bool_decide (qrx_aura_pod_capacity_validate p <> 0)) pods then inl (-3)
  else match route_choice r models pods with
       | inl e => inl e
       | inr (c, degraded) =>
           match qrx_aura_route_decision_commitment (decision_of r c degraded (repeat x00 65)) with
           | None => inl (-9)
           | Some h => inr (decision_of r c degraded (h ++ [x00]))
           end
       end.
End sha.

(** ** The job *)

Definition qrx_aura_route_apply_to_job_node (d : QrxAuraRouteDecision) (models : list QrxAuraModelCapabilityProfile)
    (node : QrxComputeJobNode) : Z * QrxComputeJobNode :=
  if decide (models = [] \/ d_version d <> QRX_AURA_FABRIC_VERSION) then (-1, node)
  else match find_model models (d_model_id d) (d_model_version d) with
       | None => (-2, node)
       | Some m =>
           if decide (cstr (m_runtime_id m) <> cstr (d_runtime_id d) \/ m_tier m <> d_tier d) then (-2, node)
           else if decide (n_job_type node <> QRX_JOB_AI_INFERENCE /\ n_job_type node <> QRX_JOB_CODE_GENERATION /\
               n_job_type node <> QRX_JOB_RESEARCH) then (-3, node)
           else (0,
             {| n_node_id := n_node_id node;
                n_job_type := n_job_type node;
                n_runtime_id := overwrite QRX_MODEL_MAX_RUNTIME (cstr (d_runtime_id d)) (n_runtime_id node);
                n_model_id := overwrite QRX_MODEL_MAX_ID (cstr (d_model_id d)) (n_model_id node);
                n_model_version := overwrite QRX_MODEL_MAX_VERSION (cstr (d_model_version d)) (n_model_version node);
                n_input_ref := n_input_ref node;
                n_output_ref := n_output_ref node;
                n_min_memory_bytes := if decide (n_min_memory_bytes node < m_min_memory_bytes m) then m_min_memory_bytes m
                                      else n_min_memory_bytes node;
                n_max_runtime_ms := n_max_runtime_ms node;
                n_max_output_bytes := n_max_output_bytes node;
                n_max_fee_atoms := n_max_fee_atoms node;
                n_capability_mask := Z.lor (n_capability_mask node) QRX_JOB_CAP_MODEL_INFERENCE |})
       end.
