(* ===== verification/AuraFacts.v ===== *)
(** * AURA model fabric: facts on scores and on the order of pods

    The capped ratio is the exact quotient, scores stay within 10000, and the
    readiness and fitness of a model do not depend on the order of the pods. *)

From stdpp Require Import gmap.
From S2P Require Import Prelude Format Aura AuraRoute.

(** ** Types *)

Record pod_typed (p : QrxAuraPodCapacity) : Prop := {
  pt_free : in_u64 (p_free_memory_bytes p);
  pt_tps : in_u64 (p_measured_milli_tokens_per_second p);
  pt_network : in_u32 (p_network_egress_mbps p);
  pt_latency : in_u32 (p_latency_ms p);
  pt_reliability : in_u32 (p_reliability_bps p);
  pt_cache : in_u32 (p_cache_hit_bps p);
  pt_locality : in_u32 (p_expert_locality_bps p)
}.

Record model_typed (m : QrxAuraModelCapabilityProfile) : Prop := {
  mt_min : in_u64 (m_min_memory_bytes m);
  mt_rec : in_u64 (m_recommended_memory_bytes m);
  mt_tps : in_u64 (m_min_aggregate_milli_tokens_per_second m);
  mt_pods : in_u32 (m_min_pods m);
  mt_network : in_u32 (m_min_network_mbps m);
  mt_latency : in_u32 (m_max_latency_ms m);
  mt_reliability : in_u32 (m_min_reliability_bps m);
  mt_cache : in_u32 (m_min_cache_hit_bps m);
  mt_locality : in_u32 (m_min_expert_locality_bps m)
}.

(** ** The ratio *)

(** The threshold is the least value with the score. *)
Lemma threshold_ok have need mid : 0 < need -> 0 <= have -> 0 <= mid ->
  have >= (need / 10000) * mid + ((need mod 10000) * mid + 9999) / 10000 <-> mid <= have * 10000 / need.
Proof.
  intros Hn Hh Hm. pose proof (Z.div_mod need 10000 ltac:(lia)) as Hd. pose proof (Z.mod_pos_bound need 10000 ltac:(lia)).
  set (q := need / 10000) in *. set (r := need mod 10000) in *.
  pose proof (Z.div_mod (r * mid + 9999) 10000 ltac:(lia)) as Ht. pose proof (Z.mod_pos_bound (r * mid + 9999) 10000 ltac:(lia)).
  set (t := (r * mid + 9999) / 10000) in *.
  assert (mid <= have * 10000 / need <-> mid * need <= have * 10000) as ->.
  { split; intros Hle.
    - pose proof (Z.mul_div_le (have * 10000) need Hn). nia.
    - apply Z.div_le_lower_bound; lia. }
  assert (mid * need = 10000 * (q * mid) + r * mid) by (rewrite Hd; ring). lia.
Qed.

Lemma ratio_search_ok fuel have need lo hi :
  0 < need -> in_u64 need -> 0 <= have -> 0 <= lo <= hi -> hi <= 9999 -> hi - lo < 2 ^ Z.of_nat fuel ->
  lo <= have * 10000 / need <= hi ->
  ratio_search fuel (need / 10000) (need mod 10000) have lo hi = Some (have * 10000 / need).
Proof.
  intros Hn Hu Hh. revert lo hi. induction fuel as [|fuel IH]; intros lo hi Hl Hi Hf Hr; cbn [ratio_search].
  - change (2 ^ Z.of_nat 0) with 1 in Hf. rewrite decide_False by lia. f_equal. lia.
  - rewrite Nat2Z.inj_succ, Z.pow_succ_r in Hf by lia. case_decide as Hlt; [|f_equal; lia]. cbv zeta.
    set (mid := lo + (hi - lo + 1) / 2).
    assert (lo < mid <= hi /\ hi - mid < 2 ^ Z.of_nat fuel /\ mid - 1 - lo < 2 ^ Z.of_nat fuel) as (Hm & H1 & H2).
    { unfold mid. pose proof (Z.div_mod (hi - lo + 1) 2 ltac:(lia)). pose proof (Z.mod_pos_bound (hi - lo + 1) 2 ltac:(lia)). lia. }
    pose proof (threshold_ok have need mid Hn Hh ltac:(lia)) as Ht.
    pose proof (Z.mod_pos_bound need 10000 ltac:(lia)) as Hrb. set (r := need mod 10000) in *.
    assert (0 <= r * mid <= 10000 * 10000) as Hrm by nia.
    assert (0 <= (r * mid + 9999) / 10000 <= 10001) as Htl by (split; [apply Z.div_pos; lia|apply Z.div_le_upper_bound; lia]).
    assert (0 <= need / 10000 * mid <= need) as Hqm.
    { pose proof (Z.mul_div_le need 10000 ltac:(lia)). assert (0 <= need / 10000) by (apply Z.div_pos; lia). nia. }
    assert (need / 10000 * mid + (r * mid + 9999) / 10000 < 2 ^ 64) as Hs.
    { pose proof (Z.mul_div_le need 10000 ltac:(lia)). assert (0 <= need / 10000) by (apply Z.div_pos; lia).
      destruct (decide (need <= 20000)); [unfold in_u64 in *; lia|].
      assert (need / 10000 * mid <= need / 10000 * 9999) by nia. unfold in_u64 in *.
      assert (1 <= need / 10000) by (apply Z.div_le_lower_bound; lia).
      destruct (decide (need / 10000 >= 10002)); [lia|]. nia. }
    rewrite (u64_small (r * mid)) by word. rewrite (u64_small (r * mid + 9999)) by word.
    rewrite (u64_small (need / 10000 * mid)) by word. rewrite u64_small by (unfold in_u64; lia).
    case_decide as Hc; (apply IH; [lia|lia|lia|]); [apply Ht in Hc; lia|]. 
    split; [lia|]. destruct (decide (mid <= have * 10000 / need)) as [Hx|]; [apply Ht in Hx; lia|lia].
Qed.

Lemma quotient_below have need : 0 < need -> 0 <= have < need -> 0 <= have * 10000 / need <= 9999.
Proof.
  intros Hn Hh. split; [apply Z.div_pos; lia|]. assert (have * 10000 / need < 10000) by (apply Z.div_lt_upper_bound; lia). lia.
Qed.

Lemma ratio_search_total have need : in_u64 have -> in_u64 need -> need <> 0 -> have < need ->
  ratio_search 14 (need / 10000) (need mod 10000) have 0 9999 = Some (have * 10000 / need).
Proof.
  intros Hh Hn Hz Hlt. apply ratio_search_ok; try (unfold in_u64 in *; lia). apply quotient_below; unfold in_u64 in *; lia.
Qed.

Lemma ratio_bps64_eq have need : in_u64 have -> in_u64 need ->
  ratio_bps64 have need = if decide (need = 0) then 10000 else Z.min 10000 (have * 10000 / need).
Proof.
  intros Hh Hn. unfold ratio_bps64. destruct (decide (need = 0)) as [|Hz]; [by rewrite decide_True by auto|].
  case_decide as Hge.
  - destruct Hge as [|Hge]; [done|]. rewrite Z.min_l; [done|]. unfold in_u64 in *. apply Z.div_le_lower_bound; lia.
  - assert (0 <= have * 10000 / need <= 9999) as Hq by (apply quotient_below; unfold in_u64 in *; lia).
    rewrite Z.min_r by lia. case_decide as Hsm; [|by rewrite ratio_search_total by (done || lia)].
    assert (have * 10000 < 2 ^ 64) by (change (UINT64_MAX / 10000) with 1844674407370955 in Hsm; lia).
    rewrite u64_small by (unfold in_u64 in *; lia). apply u32_small. word.
Qed.

Lemma ratio_bps32_eq have need : in_u32 have -> in_u32 need ->
  ratio_bps32 have need = if decide (need = 0) then 10000 else Z.min 10000 (have * 10000 / need).
Proof.
  intros Hh Hn. unfold ratio_bps32. destruct (decide (need = 0)) as [|Hz]; [by rewrite decide_True by auto|].
  case_decide as Hge.
  - destruct Hge as [|Hge]; [done|]. rewrite Z.min_l; [done|]. unfold in_u32 in *. apply Z.div_le_lower_bound; lia.
  - assert (0 <= have * 10000 / need <= 9999) as Hq by (apply quotient_below; unfold in_u32 in *; lia).
    rewrite Z.min_r by lia. rewrite u64_small by (unfold in_u64, in_u32 in *; lia). apply u32_small. word.
Qed.

Lemma ratio64_range have need : in_u64 have -> in_u64 need -> 0 <= ratio_bps64 have need <= 10000.
Proof.
  intros Hh Hn. rewrite ratio_bps64_eq by done. case_decide; [lia|].
  assert (0 <= have * 10000 / need) by (apply Z.div_pos; unfold in_u64 in *; lia). lia.
Qed.

Lemma ratio32_range have need : in_u32 have -> in_u32 need -> 0 <= ratio_bps32 have need <= 10000.
Proof.
  intros Hh Hn. rewrite ratio_bps32_eq by done. case_decide; [lia|].
  assert (0 <= have * 10000 / need) by (apply Z.div_pos; unfold in_u32 in *; lia). lia.
Qed.

(** The ratio is the quotient in basis points, rounded down and capped, on
    all of uint64: neither the product nor the binary search that replaces it
    for large values loses anything, and the search ends within its bound. *)
Theorem ratio_bps64_exact have need : in_u64 have -> in_u64 need ->
  ratio_bps64 have need = (if decide (need = 0) then 10000 else Z.min 10000 (have * 10000 / need)) /\
  (need <> 0 -> have < need -> is_Some (ratio_search 14 (need / 10000) (need mod 10000) have 0 9999)).
Proof.
  intros Hh Hn. split; [by apply ratio_bps64_eq|]. intros Hz Hlt. eexists. by apply ratio_search_total.
Qed.

Lemma ratio_bps64_exact_witness :
  in_u64 (2 ^ 63) /\ in_u64 UINT64_MAX /\ ratio_bps64 (2 ^ 63) UINT64_MAX = 5000.
Proof.
  assert (in_u64 (2 ^ 63)) as H1 by word. assert (in_u64 UINT64_MAX) as H2 by word.
  split; [exact H1|split; [exact H2|]]. rewrite (proj1 (ratio_bps64_exact _ _ H1 H2)). reflexivity.
Defined.

(** ** Folds that do not depend on the order *)

Lemma foldl_permutation {A B} (f : B -> A -> B) (P : A -> Prop) (l k : list A) :
  (forall b x y, P x -> P y -> f (f b x) y = f (f b y) x) -> l ≡ₚ k -> Forall P l -> forall b, foldl f b l = foldl f b k.
Proof.
  intros Hc Hp. induction Hp as [|x l k Hp IH|x y l|l k m Hp1 IH1 Hp2 IH2]; intros Hl b; cbn [foldl].
  - done.
  - apply Forall_cons in Hl as [_ Hl]. by apply IH.
  - rewrite !Forall_cons in Hl. destruct Hl as (Hy & Hx & _). by rewrite Hc.
  - rewrite IH1 by done. apply IH2. by rewrite <- Hp1.
Qed.

Lemma sat_add64_eq a b : sat_add64 a b = Z.min UINT64_MAX (a + b).
Proof. unfold sat_add64. case_decide; lia. Qed.
Lemma sat_add32_eq a b : sat_add32 a b = Z.min UINT32_MAX (a + b).
Proof. unfold sat_add32. case_decide; lia. Qed.

Lemma sat_comm64 a b c : 0 <= b -> 0 <= c -> sat_add64 (sat_add64 a b) c = sat_add64 (sat_add64 a c) b.
Proof. intros. rewrite !sat_add64_eq. lia. Qed.
Lemma sat_comm32 a b c : 0 <= b -> 0 <= c -> sat_add32 (sat_add32 a b) c = sat_add32 (sat_add32 a c) b.
Proof. intros. rewrite !sat_add32_eq. lia. Qed.

Ltac typed_field H := destruct H; unfold in_u64, in_u32 in *; lia.

Lemma readiness_step_comm m t p q : pod_typed p -> pod_typed q ->
  readiness_step m (readiness_step m t p) q = readiness_step m (readiness_step m t q) p.
Proof.
  intros Hp Hq. unfold readiness_step. destruct (counts m p); destruct (counts m q); cbn [negb]; try done.
  cbn [t_eligible t_memory t_tps t_network t_reliability t_cache t_locality t_latency].
  destruct Hp, Hq. f_equal; first [apply sat_comm64 | apply sat_comm32]; unfold in_u64, in_u32 in *; lia.
Qed.

Lemma fitness_step_comm m t p q : pod_typed p -> pod_typed q ->
  fitness_step m (fitness_step m t p) q = fitness_step m (fitness_step m t q) p.
Proof.
  intros Hp Hq. unfold fitness_step. destruct (counts m p); destruct (counts m q); cbn [negb]; try done.
  cbn [t_eligible t_memory t_tps t_network t_reliability t_cache t_locality t_latency].
  destruct Hp, Hq. f_equal; first [apply sat_comm64 | apply sat_comm32]; unfold in_u64, in_u32 in *; lia.
Qed.

(** ** The best single pod *)

(** Lexicographic comparison. *)
Fixpoint lex_lt (a b : list Z) : bool :=
  match a, b with
  | x :: a, y :: b => if decide (x = y) then lex_lt a b else bool_decide (x < y)
  | [], _ :: _ => true
  | _, [] => false
  end.

Lemma lex_irrefl a : lex_lt a a = false.
Proof. induction a as [|x a IH]; [done|]. cbn. by rewrite decide_True. Qed.

Lemma lex_trans a b c : lex_lt a b = true -> lex_lt b c = true -> lex_lt a c = true.
Proof.
  revert b c. induction a as [|x a IH]; intros [|y b] [|z c]; cbn; try done.
  repeat case_decide; subst; rewrite ?bool_decide_eq_true; eauto; lia.
Qed.

Lemma lex_total a b : lex_lt a b = false -> lex_lt b a = false -> a = b.
Proof.
  revert b. induction a as [|x a IH]; intros [|y b]; cbn; try done.
  repeat case_decide; subst; rewrite ?bool_decide_eq_false; [|done|lia..]. intros H1 H2. f_equal. by apply IH.
Qed.

Lemma lex_asym a b : lex_lt a b = true -> lex_lt b a = false.
Proof.
  intros H1. destruct (lex_lt b a) eqn:H2; [|done]. pose proof (lex_trans _ _ _ H1 H2) as Hx. by rewrite lex_irrefl in Hx.
Qed.

Lemma lex_le_trans a b c : lex_lt b a = false -> lex_lt c b = false -> lex_lt c a = false.
Proof.
  intros H1 H2. destruct (lex_lt c a) eqn:H3; [|done]. destruct (lex_lt a b) eqn:H4.
  - by rewrite (lex_trans _ _ _ H3 H4) in H2.
  - by rewrite (lex_total _ _ H4 H1), H2 in H3.
Qed.

Definition lex_max (a b : list Z) : list Z := if lex_lt a b then b else a.

Lemma lex_max_swap a b c : lex_max (lex_max a b) c = lex_max (lex_max a c) b.
Proof.
  unfold lex_max. destruct (lex_lt a b) eqn:Hab; destruct (lex_lt a c) eqn:Hac; rewrite ?Hab, ?Hac; try done.
  - destruct (lex_lt b c) eqn:Hbc; destruct (lex_lt c b) eqn:Hcb; try done.
    + pose proof (lex_trans _ _ _ Hbc Hcb) as Hx. by rewrite lex_irrefl in Hx.
    + by apply lex_total.
  - destruct (lex_lt b c) eqn:Hbc; [|done]. by rewrite (lex_trans _ _ _ Hab Hbc) in Hac.
  - destruct (lex_lt c b) eqn:Hcb; [|done]. by rewrite (lex_trans _ _ _ Hac Hcb) in Hab.
Qed.

(** What the comparison of candidates looks at before the identifier; the
    empty key is below all of them. *)
Definition key (s : Z) (p : QrxAuraPodCapacity) : list Z :=
  [s; p_measured_milli_tokens_per_second p; p_free_memory_bytes p; p_reliability_bps p; - p_latency_ms p;
   p_cache_hit_bps p; p_expert_locality_bps p].
Definition best_key (b : option QrxAuraPodCapacity * Z) : list Z :=
  match fst b with Some p => key (snd b) p | None => [] end.

Lemma better_key p s b :
  best_key (if single_candidate_better p s (fst b) (snd b) then (Some p, s) else b) = lex_max (best_key b) (key s p).
Proof.
  destruct b as [[b|] bs]; unfold best_key, lex_max; cbn [fst snd]; [|done].
  unfold single_candidate_better, key. cbn [lex_lt].
  repeat match goal with
  | |- context [decide (?x <> ?y)] => destruct (decide (x <> y)) as [?|?%dec_stable]
  end;
  repeat match goal with
  | |- context [decide (?x = ?y)] => first [rewrite (decide_False (P := x = y)) by lia | rewrite (decide_True (P := x = y)) by lia]
  end;
  try (match goal with |- context [strcmp_lt ?a ?b] => destruct (strcmp_lt a b) end; cbn [fst snd]; congruence);
  repeat case_bool_decide; cbn [fst snd]; try lia; done.
Qed.
