(* ===== verification/AuraOrder.v ===== *)
(** * AURA model fabric: what routing guarantees

    The decision does not depend on the order in which the pods are listed;
    the automatic mode takes the fittest model of the least tier that will do;
    and the commitment determines the decision. *)

From stdpp Require Import gmap.
From S2P Require Import Prelude Format Finality Aura AuraRoute AuraFacts.

(** ** The order of the pods *)

Lemma single_step_key m b p :
  best_key (single_step m b p) = if counts m p then lex_max (best_key b) (key (single_score m p) p) else best_key b.
Proof. unfold single_step. destruct (counts m p); cbn [negb]; [apply better_key|done]. Qed.

Lemma single_best_key m pods b :
  best_key (foldl (single_step m) b pods)
    = foldl (fun k p => if counts m p then lex_max k (key (single_score m p) p) else k) (best_key b) pods.
Proof.
  revert b. induction pods as [|p pods IH]; intros b; [done|]. cbn [foldl]. by rewrite IH, single_step_key.
Qed.

Section order.
Context (m : QrxAuraModelCapabilityProfile) (pods pods' : list QrxAuraPodCapacity).
Hypothesis Hperm : pods ≡ₚ pods'.
Hypothesis Htyped : Forall pod_typed pods.

Lemma single_best_order : best_key (single_device_best m pods) = best_key (single_device_best m pods').
Proof using Hperm.
  unfold single_device_best. rewrite !single_best_key. apply (foldl_permutation _ (fun _ => True)); [|done|by apply Forall_true].
  intros k p q _ _. destruct (counts m p), (counts m q); try done. apply lex_max_swap.
Qed.

(** The best pods of both orders agree in all that is used of them. *)
Lemma single_best_cases :
  (single_device_best m pods = (None, 0) /\ single_device_best m pods' = (None, 0)) \/
  exists p p' s, single_device_best m pods = (Some p, s) /\ single_device_best m pods' = (Some p', s) /\ key s p = key s p'.
Proof using Hperm.
  pose proof single_best_order as Hk. unfold best_key in Hk.
  assert (forall l b, fst (foldl (single_step m) b l) = None -> foldl (single_step m) b l = b) as Hnone.
  { induction l as [|x l IH]; intros b Hl; cbn [foldl] in *; [done|]. rewrite (IH _ Hl).
    rewrite (IH _ Hl) in Hl. revert Hl. unfold single_step. destruct (counts m x); cbn [negb]; [|done]. by destruct (single_candidate_better _ _ _ _). }
  destruct (single_device_best m pods) as [[p|] s] eqn:E1; destruct (single_device_best m pods') as [[p'|] s'] eqn:E2;
    cbn [fst snd] in Hk; try (discriminate Hk).
  - right. exists p, p', s. injection Hk as <- H1 H2 H3 H4 H5 H6. split; [done|split; [done|]].
    unfold key. congruence.
  - left. unfold single_device_best in *. by rewrite <- E1, <- E2, !Hnone by (by rewrite ?E1, ?E2).
Qed.

Lemma readiness_order : qrx_aura_model_readiness_bps m pods = qrx_aura_model_readiness_bps m pods'.
Proof using Hperm Htyped.
  unfold qrx_aura_model_readiness_bps, single_device_readiness. case_decide; [done|]. case_decide.
  - destruct single_best_cases as [[-> ->]|(p & p' & s & -> & -> & Hk)]; [done|]. injection Hk as H1 H2 H3 H4 H5 H6. by rewrite H1.
  - by rewrite (foldl_permutation (readiness_step m) pod_typed pods pods' (readiness_step_comm m) Hperm Htyped).
Qed.

Lemma fitness_order : model_fitness m pods = model_fitness m pods'.
Proof using Hperm Htyped.
  unfold model_fitness. rewrite readiness_order. case_decide; [done|]. unfold fitness_sums. case_decide.
  - destruct single_best_cases as [[-> ->]|(p & p' & s & -> & -> & Hk)]; [done|]. injection Hk as H1 H2 H3 H4 H5 H6.
    assert (p_latency_ms p = p_latency_ms p') as H7 by lia. case_decide; [|done]. by rewrite H1, H2, H3, H5, H6, H7.
  - by rewrite (foldl_permutation (fitness_step m) pod_typed pods pods' (fitness_step_comm m) Hperm Htyped).
Qed.
End order.

Lemma existsb_permutation {A} (f : A -> bool) l k : l ≡ₚ k -> existsb f l = existsb f k.
Proof.
  induction 1 as [|x l k _ IH|x y l|l k m _ IH1 _ IH2]; cbn; [done|by rewrite IH| |by rewrite IH1].
  by destruct (f x), (f y).
Qed.

(** Routing does not depend on the order in which the pods are listed: two
    nodes that know the same pods take the same decision, with the same
    commitment, or fail with the same error, whatever order gossip brought
    them in and whatever ties there are. *)
Theorem route_pods_permutation sha3_256 r models pods pods' :
  pods ≡ₚ pods' -> Forall pod_typed pods ->
  qrx_aura_route_model sha3_256 r models pods = qrx_aura_route_model sha3_256 r models pods'.
Proof.
  intros Hp Ht. unfold qrx_aura_route_model. assert (blen pods = blen pods') as -> by (unfold blen; by rewrite (Permutation_length Hp)).
  rewrite (existsb_permutation _ _ _ Hp).
  assert (route_choice r models pods = route_choice r models pods') as ->; [|done].
  assert (forall m q, consider r pods q m = consider r pods' q m) as Hc.
  { intros m q. unfold consider. by rewrite (readiness_order m _ _ Hp Ht), (fitness_order m _ _ Hp Ht). }
  assert (forall b q l, choose b (consider r pods q) l = choose b (consider r pods' q) l) as Hch.
  { intros b q l. unfold choose. generalize (@None Choice). induction l as [|m l IH]; intros o; [done|]. cbn [foldl]. by rewrite Hc. }
  unfold route_choice. cbv zeta. rewrite !Hch. destruct (find_model _ _ _) as [m|]; [|done].
  by rewrite (readiness_order m _ _ Hp Ht), (fitness_order m _ _ Hp Ht).
Qed.

(** ** The best choice *)

Section choose.
Variable better : Choice -> option Choice -> bool.
Variable rank : Choice -> list Z.
Variable considered : QrxAuraModelCapabilityProfile -> option Choice.
Hypothesis better_none : forall c, better c None = true.
Hypothesis better_rank : forall c b, better c (Some b) = lex_lt (rank b) (rank c).

Lemma choose_from (l : list QrxAuraModelCapabilityProfile) (o : option Choice) :
  match foldl (fun best m => match considered m with None => best | Some c => if better c best then Some c else best end) o l with
  | None => o = None /\ Forall (fun m => considered m = None) l
  | Some c => (o = Some c \/ exists m, m ∈ l /\ considered m = Some c) /\
              (forall b, o = Some b -> lex_lt (rank c) (rank b) = false) /\
              forall m c', m ∈ l -> considered m = Some c' -> lex_lt (rank c) (rank c') = false
  end.
Proof using better_none better_rank.
  revert o. induction l as [|x l IH]; intros o; cbn [foldl].
  - destruct o as [c|]; [|done]. split; [by left|]. split; [intros b [= ->]; apply lex_irrefl|].
    intros m c' Hm. by apply elem_of_nil in Hm.
  - set (o' := match considered x with None => o | Some c => if better c o then Some c else o end).
    assert (match o' with
            | None => o = None /\ considered x = None
            | Some b => (o = Some b \/ considered x = Some b) /\ (forall a, o = Some a -> lex_lt (rank b) (rank a) = false) /\
                        forall a, considered x = Some a -> lex_lt (rank b) (rank a) = false
            end) as Ho.
    { unfold o'. destruct (considered x) as [cx|], o as [b|]; try (by auto).
      - rewrite better_rank. destruct (lex_lt (rank b) (rank cx)) eqn:E.
        + split; [by right|]. split; intros a [= <-]; [by apply lex_asym|apply lex_irrefl].
        + split; [by left|]. split; intros a [= <-]; [apply lex_irrefl|done].
      - rewrite better_none. split; [by right|]. split; [done|]. intros a [= <-]. apply lex_irrefl.
      - split; [by left|]. split; [|done]. intros a [= <-]. apply lex_irrefl. }
    specialize (IH o'). destruct (foldl _ o' l) as [c|].
    + destruct IH as (H1 & H2 & H3). destruct o' as [b|].
      * destruct Ho as (Hb & Ho1 & Ho2). specialize (H2 b eq_refl).
        split; [|split].
        -- destruct H1 as [[= <-]|(m & Hm & Hc)]; [|right; exists m; split; [by apply list_elem_of_further|done]].
           destruct Hb as [Hb|Hb]; [by left|right; exists x; split; [apply list_elem_of_here|done]].
        -- intros a Ha. eapply lex_le_trans; [by apply Ho1|done].
        -- intros m c' [->|Hm]%elem_of_cons Hc; [|by eapply H3]. eapply lex_le_trans; [by apply Ho2|done].
      * destruct Ho as [-> Hx]. split; [|split; [done|]].
        -- destruct H1 as [|(m & Hm & Hc)]; [done|]. right. exists m. split; [by apply list_elem_of_further|done].
        -- intros m c' [->|Hm]%elem_of_cons Hc; [congruence|by eapply H3].
    + destruct IH as [-> H2]. destruct Ho as [-> Hx]. split; [done|]. by apply List.Forall_cons.
Qed.

Lemma choose_some l c : choose better considered l = Some c ->
  (exists m, m ∈ l /\ considered m = Some c) /\
  forall m c', m ∈ l -> considered m = Some c' -> lex_lt (rank c) (rank c') = false.
Proof using better_none better_rank.
  intros H. pose proof (choose_from l None) as Hc. unfold choose in H. rewrite H in Hc.
  destruct Hc as ([|Hc] & _ & H3); [done|]. by split.
Qed.

Lemma choose_none l : choose better considered l = None -> forall m, m ∈ l -> considered m = None.
Proof using better_none better_rank.
  intros H. pose proof (choose_from l None) as Hc. unfold choose in H. rewrite H in Hc. destruct Hc as [_ Hc].
  by rewrite Forall_forall in Hc.
Qed.
End choose.

(** A model that the automatic mode may take. *)
Definition admissible (r : QrxAuraRouteRequest) (pods : list QrxAuraPodCapacity) (required : option Z) (m : QrxAuraModelCapabilityProfile) : Prop :=
  (r_min_context_tokens r = 0 \/ r_min_context_tokens r <= m_max_context_tokens m) /\
  10000 <= rd_bps (qrx_aura_model_readiness_bps m pods) /\
  match required with Some q => q <= task_quality m (r_task_class r) | None => True end.

Lemma consider_spec r pods q m :
  match consider r pods q m with
  | Some c => admissible r pods q m /\ ch_model c = m /\ ch_quality c = task_quality m (r_task_class r) /\
              ch_fitness c = fst (model_fitness m pods) /\ ch_readiness c = rd_bps (qrx_aura_model_readiness_bps m pods)
  | None => ~ admissible r pods q m
  end.
Proof.
  unfold consider, admissible. case_decide as H1; [intros [H2 _]; lia|]. cbv zeta. case_decide as H2; [intros (_ & H3 & _); lia|].
  destruct q as [q|].
  - case_bool_decide as H3; [intros (_ & _ & H4); lia|]. destruct (model_fitness m pods) as [f out] eqn:Hf.
    destruct (default _ out) as [sp st]. cbn [ch_model ch_quality ch_fitness ch_readiness fst]. repeat split; lia || done.
  - destruct (model_fitness m pods) as [f out] eqn:Hf.
    destruct (default _ out) as [sp st]. cbn [ch_model ch_quality ch_fitness ch_readiness fst]. repeat split; lia || done.
Qed.

Lemma auto_rank c b : auto_better c (Some b) = lex_lt [- m_tier (ch_model b); ch_fitness b] [- m_tier (ch_model c); ch_fitness c].
Proof.
  unfold auto_better. cbn [lex_lt]. repeat case_decide; apply bool_decide_ext || (apply bool_decide_eq_true; lia)
    || (apply bool_decide_eq_false; lia); lia.
Qed.

Lemma degraded_rank c b : degraded_better c (Some b) = lex_lt [ch_quality b; ch_fitness b] [ch_quality c; ch_fitness c].
Proof.
  unfold degraded_better. cbn [lex_lt]. repeat case_decide; apply bool_decide_ext || (apply bool_decide_eq_true; lia)
    || (apply bool_decide_eq_false; lia); lia.
Qed.
