(* ===== verification/AuraRouting.v ===== *)
(** * AURA model fabric: the choice of a model

    Scores stay within 10000, the strings of a decision are the model's, and
    the automatic mode takes the fittest model of the least tier that will do,
    or says that none will. *)

From stdpp Require Import gmap.
From S2P Require Import Prelude Format Aura AuraRoute AuraFacts AuraOrder.

(** ** Strings *)

Lemma cstr_overwrite n s old : no_nul s -> (length s < n)%nat -> cstr (overwrite n s old) = s.
Proof.
  intros Hs Hn. unfold overwrite, snprintf_s. rewrite take_ge by lia. by apply cstr_app_zero.
Qed.

Lemma bounded_cstr s n : bounded_nonempty s n = true -> (length (cstr s) < n)%nat /\ cstr s <> [].
Proof.
  unfold bounded_nonempty. intros [Hin%bool_decide_eq_true Hne%bool_decide_eq_true]%andb_true_iff. split; [|done]. clear Hne.
  revert n Hin. induction s as [|c s IH]; intros [|n] Hin; cbn in *; try (by apply elem_of_nil in Hin).
  case_decide; [cbn; lia|]. apply elem_of_cons in Hin as [Heq|Hin]; [by subst c|]. cbn. apply IH in Hin. lia.
Qed.

Lemma bounded_arr n s : s <> [] -> no_nul s -> (length s < n)%nat -> bounded_nonempty (arr n s) n = true.
Proof.
  intros Hne Hs Hn. unfold bounded_nonempty. unfold arr. rewrite cstr_overwrite by done.
  apply andb_true_iff. split; apply bool_decide_eq_true; [|done]. unfold overwrite, snprintf_s. rewrite (take_ge s) by lia.
  rewrite take_app_ge by lia. destruct (n - length s)%nat eqn:E; [lia|]. cbn [take]. set_solver.
Qed.

(** ** What valid pods and models have *)

Lemma pod_valid p : qrx_aura_pod_capacity_validate p = 0 ->
  p_reliability_bps p <= 10000 /\ p_cache_hit_bps p <= 10000 /\ p_expert_locality_bps p <= 10000.
Proof.
  unfold qrx_aura_pod_capacity_validate. repeat (case_match; try done).
  match goal with H : (negb (bps_ok _) || _) || _ || _ = false |- _ => rewrite !orb_false_iff, !negb_false_iff in H;
    unfold bps_ok in H; rewrite !bool_decide_eq_true in H end. tauto.
Qed.

Lemma model_valid m : qrx_aura_model_profile_validate m = 0 ->
  bounded_nonempty (m_model_id m) QRX_MODEL_MAX_ID = true /\ bounded_nonempty (m_model_version m) QRX_MODEL_MAX_VERSION = true /\
  bounded_nonempty (m_runtime_id m) QRX_MODEL_MAX_RUNTIME = true /\ QRX_AURA_TIER_NANO <= m_tier m <= QRX_AURA_TIER_K3_CLASS /\
  m_min_memory_bytes m <> 0.
Proof.
  unfold qrx_aura_model_profile_validate. repeat (case_match; try done).
  match goal with H : negb (bounded_nonempty _ _) || _ || _ || _ || _ = false |- _ => rewrite !orb_false_iff, !negb_false_iff in H end.
  intros _. repeat split; (tauto || lia).
Qed.

Lemma counts_valid m p : counts m p = true -> qrx_aura_pod_capacity_validate p = 0.
Proof. unfold counts. rewrite andb_true_iff, bool_decide_eq_true. tauto. Qed.

(** ** Bounds *)

Lemma single_best_in m pods : match single_device_best m pods with
  | (Some p, s) => p ∈ pods /\ counts m p = true /\ s = single_score m p
  | (None, s) => s = 0
  end.
Proof.
  unfold single_device_best. induction pods as [|p pods IH] using rev_ind; [done|]. rewrite foldl_snoc.
  set (b := foldl (single_step m) (None, 0) pods) in *. unfold single_step.
  assert (match b with (Some q, s) => q ∈ pods ++ [p] /\ counts m q = true /\ s = single_score m q | (None, s) => s = 0 end) as Hold
    by (destruct b as [[q|] s]; [destruct IH as (H1 & H2); split; [apply elem_of_app; by left|done]|done]).
  destruct (counts m p) eqn:Hc; cbn [negb]; [|exact Hold]. destruct (single_candidate_better _ _ _ _); [|exact Hold].
  split; [apply elem_of_app; right; by apply list_elem_of_singleton|done].
Qed.

Lemma single_score_range m p : pod_typed p -> model_typed m -> 0 <= single_score m p <= 10000.
Proof.
  intros [] []. unfold single_score. pose proof (ratio64_range (p_free_memory_bytes p) (m_min_memory_bytes m) ltac:(done) ltac:(done)).
  pose proof (ratio64_range (p_measured_milli_tokens_per_second p) (m_min_aggregate_milli_tokens_per_second m) ltac:(done) ltac:(done)).
  pose proof (ratio32_range (p_cache_hit_bps p) (m_min_cache_hit_bps m) ltac:(done) ltac:(done)). lia.
Qed.

(** The sums of a loop over at most [n] pods. *)
Record sums_ok (n : Z) (t : Sums) : Prop := {
  so_eligible : 0 <= t_eligible t <= n;
  so_memory : in_u64 (t_memory t);
  so_tps : in_u64 (t_tps t);
  so_network : in_u32 (t_network t);
  so_latency : in_u32 (t_latency t);
  so_reliability : in_u32 (t_reliability t) /\ t_reliability t <= 10000 * t_eligible t;
  so_cache : in_u32 (t_cache t) /\ t_cache t <= 10000 * t_eligible t;
  so_locality : in_u32 (t_locality t) /\ t_locality t <= 10000 * t_eligible t
}.

Lemma no_sums_ok : sums_ok 0 no_sums.
Proof. split; cbn; word. Qed.

Ltac sums_step := split; cbn [t_eligible t_memory t_tps t_network t_reliability t_cache t_locality t_latency];
  rewrite ?sat_add64_eq, ?sat_add32_eq; unfold in_u64, in_u32, UINT64_MAX, UINT32_MAX, U64, U32 in *;
  try (rewrite u32_small by (unfold in_u32; lia)); lia.

Lemma readiness_step_ok m n t p : 0 <= n < 2 ^ 32 - 1 -> pod_typed p -> sums_ok n t -> sums_ok (n + 1) (readiness_step m t p).
Proof.
  intros Hn Hp [[H0 H1] H2 H3 H4 H5 [H6 H6'] [H7 H7'] [H8 H8']]. unfold readiness_step. destruct (counts m p) eqn:Hc; cbn [negb].
  - apply counts_valid, pod_valid in Hc as (B1 & B2 & B3). destruct Hp. sums_step.
  - split; (lia || done || (split; [done|lia])).
Qed.

Lemma fitness_step_ok m n t p : 0 <= n < 2 ^ 32 - 1 -> pod_typed p -> sums_ok n t -> sums_ok (n + 1) (fitness_step m t p).
Proof.
  intros Hn Hp [[H0 H1] H2 H3 H4 H5 [H6 H6'] [H7 H7'] [H8 H8']]. unfold fitness_step. destruct (counts m p) eqn:Hc; cbn [negb].
  - apply counts_valid, pod_valid in Hc as (B1 & B2 & B3). destruct Hp. sums_step.
  - split; (lia || done || (split; [done|lia])).
Qed.

Lemma foldl_sums_ok f pods :
  (forall n t p, 0 <= n < 2 ^ 32 - 1 -> pod_typed p -> sums_ok n t -> sums_ok (n + 1) (f t p)) ->
  Forall pod_typed pods -> blen pods < 2 ^ 32 -> sums_ok (blen pods) (foldl f no_sums pods).
Proof.
  intros Hf. induction pods as [|p pods IH] using rev_ind; intros Ht Hl; [apply no_sums_ok|].
  rewrite foldl_snoc, blen_app, blen_cons, blen_nil in *. apply Forall_app in Ht as [Ht1 Ht2]. apply Forall_cons in Ht2 as [Hp _].
  pose proof (blen_nonneg pods). apply Hf; [lia|done|]. apply IH; [done|lia].
Qed.

(** Averages of sums. *)
Lemma avg_u32 x n : 0 < n -> in_u32 x -> in_u32 (x / n).
Proof.
  unfold in_u32. intros Hn Hx. split; [apply Z.div_pos; lia|]. apply Z.div_lt_upper_bound; nia.
Qed.

Lemma avg_bps x n : 0 < n -> 0 <= x <= 10000 * n -> 0 <= x / n <= 10000.
Proof. intros Hn Hx. split; [apply Z.div_pos; lia|]. apply Z.div_le_upper_bound; lia. Qed.

Lemma readiness_ok m pods : model_typed m -> Forall pod_typed pods -> blen pods < 2 ^ 32 ->
  0 <= rd_bps (qrx_aura_model_readiness_bps m pods) <= 10000 /\ in_u64 (rd_aggregate (qrx_aura_model_readiness_bps m pods)).
Proof.
  intros Hm Ht Hl. unfold qrx_aura_model_readiness_bps, single_device_readiness. case_decide; [cbn; word|]. case_decide.
  - pose proof (single_best_in m pods) as Hb. destruct (single_device_best m pods) as [[p|] s]; cbn [rd_bps rd_aggregate].
    + destruct Hb as (Hin & _ & ->). rewrite Forall_forall in Ht. pose proof (single_score_range m p (Ht p Hin) Hm).
      destruct (Ht p Hin). case_decide; cbn [rd_bps rd_aggregate]; (split; [lia|done || word]).
    + subst s. rewrite decide_False by lia. cbn; word.
  - pose proof (foldl_sums_ok (readiness_step m) pods (readiness_step_ok m) Ht Hl) as [S0 S1 S2 S3 S4 [S5 _] [S6 _] [S7 _]].
    case_decide; [cbn [rd_bps rd_aggregate]; split; [lia|done]|]. cbv zeta. cbn [rd_bps rd_aggregate]. split; [|done]. destruct Hm.
    assert (0 < t_eligible (foldl (readiness_step m) no_sums pods)) as Hpos by lia.
    repeat match goal with
    | |- context [ratio_bps64 ?x ?y] => let H := fresh "Hr" in
        pose proof (ratio64_range x y ltac:(done) ltac:(done)) as H; revert H; generalize (ratio_bps64 x y); intros ? ?
    | |- context [ratio_bps32 (?x / ?n) ?y] => let H := fresh "Hr" in
        pose proof (ratio32_range (x / n) y ltac:(apply avg_u32; done) ltac:(done)) as H; revert H;
        generalize (ratio_bps32 (x / n) y); intros ? ?
    | |- context [ratio_bps32 ?x ?y] => let H := fresh "Hr" in
        pose proof (ratio32_range x y ltac:(unfold in_u32; lia) ltac:(done)) as H; revert H; generalize (ratio_bps32 x y); intros ? ?
    end. case_decide; lia.
Qed.

(** Nested 64-bit sums, innermost first. *)
Ltac unwrap_sums :=
  repeat match goal with
  | |- context [u64 (?x + ?y)] => lazymatch x with context [u64 _] => fail | _ => rewrite (u64_small (x + y)) by (unfold in_u64; lia) end
  end.

Lemma fitness_score_range m rd t tps : model_typed m -> 0 <= rd <= 10000 -> in_u64 tps -> in_u64 (t_memory t) -> in_u32 (t_latency t) ->
  0 <= t_reliability t <= 10000 -> 0 <= t_cache t <= 10000 -> 0 <= t_locality t <= 10000 ->
  0 <= fitness_score m rd t tps <= 10000.
Proof.
  intros Hm Hr Ht Hme Hl B1 B2 B3. unfold fitness_score. cbv zeta.
  set (target := if decide (m_min_aggregate_milli_tokens_per_second m > UINT64_MAX / 2) then _ else _).
  assert (in_u64 target) as Hta by (unfold target; case_decide; [word|apply u64_range]).
  set (ls := if decide (m_max_latency_ms m <> 0) then _ else _).
  assert (0 <= ls <= 10000) as Hls.
  { unfold ls. destruct Hm. case_decide; [|lia]. case_decide; [lia|]. unfold in_u32 in *.
    assert (0 <= (m_max_latency_ms m - t_latency t) * 10000 / m_max_latency_ms m <= 10000)
      by (split; [apply Z.div_pos; lia|apply Z.div_le_upper_bound; lia]).
    rewrite u64_small by (unfold in_u64; lia). rewrite u32_small by (unfold in_u32; lia). lia. }
  pose proof (ratio64_range (t_memory t) (m_recommended_memory_bytes m) Hme ltac:(by destruct Hm)) as H1.
  pose proof (ratio64_range tps target Ht Hta) as H2. clearbody ls target.
  revert H1 H2. set (a := ratio_bps64 (t_memory t) _). set (b := ratio_bps64 tps _). clearbody a b. intros H1 H2.
  rewrite !(u64_small (_ * _)) by (unfold in_u64; lia). unwrap_sums.
  set (score := _ + _). assert (0 <= score <= 10000 * 100) as Hs by (unfold score; lia). clearbody score.
  assert (0 <= score / 100 <= 10000) by (split; [apply Z.div_pos; lia|apply Z.div_le_upper_bound; lia]).
  by rewrite u32_small by (unfold in_u32; lia).
Qed.

Lemma fitness_range m pods : model_typed m -> Forall pod_typed pods -> blen pods < 2 ^ 32 -> 0 <= fst (model_fitness m pods) <= 10000.
Proof.
  intros Hm Ht Hl. pose proof (readiness_ok m pods Hm Ht Hl) as [Hr Ha]. unfold model_fitness. cbv zeta.
  set (rd := qrx_aura_model_readiness_bps m pods) in *. case_decide; [cbn; lia|]. unfold fitness_sums. case_decide.
  - pose proof (single_best_in m pods) as Hb. destruct (single_device_best m pods) as [[p|] s]; [|by cbn].
    destruct Hb as (Hin & Hc & ->). case_decide; [|by cbn]. cbn [t_eligible]. rewrite (decide_False (P := 1 = 0)) by lia. cbn [fst].
    apply counts_valid, pod_valid in Hc as (B1 & B2 & B3). rewrite Forall_forall in Ht. destruct (Ht p Hin).
    apply fitness_score_range; cbn [t_memory t_latency t_reliability t_cache t_locality]; unfold in_u32 in *; (done || lia).
  - pose proof (foldl_sums_ok (fitness_step m) pods (fitness_step_ok m) Ht Hl) as [S0 S1 S2 S3 S4 [S5 S5'] [S6 S6'] [S7 S7']].
    cbv zeta. cbn [t_eligible]. case_decide; [cbn; lia|]. cbn [fst].
    assert (0 < t_eligible (foldl (fitness_step m) no_sums pods)) as Hpos by lia.
    apply fitness_score_range; cbn [t_memory t_latency t_reliability t_cache t_locality]; rewrite ?decide_True by done;
      [done|done|done|done|by apply avg_u32|apply avg_bps; unfold in_u32 in *; lia..].
Qed.

(** ** The decision *)

Lemma decision_names r c degraded h : qrx_aura_model_profile_validate (ch_model c) = 0 ->
  cstr (d_model_id (decision_of r c degraded h)) = cstr (m_model_id (ch_model c)) /\
  cstr (d_model_version (decision_of r c degraded h)) = cstr (m_model_version (ch_model c)) /\
  cstr (d_runtime_id (decision_of r c degraded h)) = cstr (m_runtime_id (ch_model c)).
Proof.
  intros (H1 & H2 & H3 & _)%model_valid. apply bounded_cstr in H1 as [H1 _], H2 as [H2 _], H3 as [H3 _].
  unfold decision_of, arr. cbn [d_model_id d_model_version d_runtime_id].
  rewrite !cstr_overwrite by (done || apply cstr_is_no_nul). done.
Qed.

Lemma commitment_some sha3_256 r c degraded h : qrx_aura_model_profile_validate (ch_model c) = 0 -> request_bad r = false ->
  is_Some (qrx_aura_route_decision_commitment sha3_256 (decision_of r c degraded h)).
Proof.
  intros Hv Hr. pose proof (model_valid _ Hv) as (H1 & H2 & H3 & Ht & _).
  apply bounded_cstr in H1 as [H1 H1'], H2 as [H2 H2'], H3 as [H3 H3'].
  unfold request_bad in Hr. rewrite !orb_false_iff in Hr. destruct Hr as [[Hr%bool_decide_eq_false _] _].
  unfold qrx_aura_route_decision_commitment. rewrite decide_False; [by eexists|].
  unfold decision_of. cbn [d_version d_mode d_task_class d_model_id d_model_version d_runtime_id d_tier].
  rewrite !bounded_arr by (done || apply cstr_is_no_nul).
  intros [|[|[|[|[|[|[|[|[|]]]]]]]]]; (done || lia || tauto).
Qed.

Lemma existsb_invalid {A} (f : A -> Z) l : existsb (fun x => bool_decide (f x <> 0)) l = false -> Forall (fun x => f x = 0) l.
Proof.
  induction l as [|x l IH]; cbn; [constructor|]. intros [H1%bool_decide_eq_false H2]%orb_false_iff. constructor; [lia|by apply IH].
Qed.

(** What a decision says of the model it names. *)
Definition decision_for (pods : list QrxAuraPodCapacity) (m : QrxAuraModelCapabilityProfile) (d : QrxAuraRouteDecision) : Prop :=
  cstr (d_model_id d) = cstr (m_model_id m) /\ cstr (d_model_version d) = cstr (m_model_version m) /\
  cstr (d_runtime_id d) = cstr (m_runtime_id m) /\ d_tier d = m_tier m /\
  d_readiness_bps d = 10000 /\ rd_bps (qrx_aura_model_readiness_bps m pods) = 10000 /\
  d_fitness_bps d = fst (model_fitness m pods) /\ 0 <= d_fitness_bps d <= 10000.

Lemma considered_decision sha3_256 r pods c b m q :
  consider r pods q m = Some c -> qrx_aura_model_profile_validate m = 0 -> request_bad r = false ->
  model_typed m -> Forall pod_typed pods -> blen pods < 2 ^ 32 ->
  match qrx_aura_route_decision_commitment sha3_256 (decision_of r c b (repeat x00 65)) with
  | None => False
  | Some h => decision_for pods m (decision_of r c b (h ++ [x00]))
  end.
Proof.
  intros Hc Hv Hreq Hm Hp Hl. pose proof (consider_spec r pods q m) as Hs. rewrite Hc in Hs.
  destruct Hs as ((_ & Hr & _) & Hcm & _ & Hcf & Hcr). rewrite <- Hcm in Hv.
  destruct (commitment_some sha3_256 r c b (repeat x00 65) Hv Hreq) as [h ->].
  destruct (decision_names r c b (h ++ [x00]) Hv) as (N1 & N2 & N3). unfold decision_for. rewrite N1, N2, N3, Hcm.
  unfold decision_of. cbn [d_tier d_readiness_bps d_fitness_bps]. rewrite Hcm, Hcf, Hcr.
  pose proof (readiness_ok m pods Hm Hp Hl) as [Hrr _]. pose proof (fitness_range m pods Hm Hp Hl).
  repeat split; lia || done.
Qed.

(** C12: in the automatic mode a decision names one of the models, ready in
    full, with scores within 10000.  When it is not degraded no other model
    that will do is of a lower tier, or of the same tier and fitter; when it is,
    the request allows it, no model would do, and none that is ready does the
    task better.  When the error is -8 no model will do, nor, with degradation
    allowed, is any ready; no other error occurs once the inputs are valid. *)
Theorem route_auto_spec sha3_256 r models pods :
  r_mode r = QRX_AURA_ROUTE_AUTO -> Forall model_typed models -> Forall pod_typed pods ->
  match qrx_aura_route_model sha3_256 r models pods with
  | inr d => exists m, m ∈ models /\ decision_for pods m d /\
      if decide (d_degraded d = 0) then
        admissible r pods (Some (derived_quality r)) m /\
        forall m', m' ∈ models -> admissible r pods (Some (derived_quality r)) m' ->
          m_tier m < m_tier m' \/ (m_tier m = m_tier m' /\ fst (model_fitness m' pods) <= d_fitness_bps d)
      else
        r_allow_degradation r <> 0 /\ admissible r pods None m /\
        forall m', m' ∈ models -> ~ admissible r pods (Some (derived_quality r)) m' /\
          (admissible r pods None m' -> task_quality m' (r_task_class r) <= task_quality m (r_task_class r))
  | inl e => e = -1 \/ e = -2 \/ e = -3 \/
      (e = -8 /\ forall m', m' ∈ models -> ~ admissible r pods (Some (derived_quality r)) m' /\
        (r_allow_degradation r <> 0 -> ~ admissible r pods None m'))
  end.
Proof.
  intros Hmode Hm Hp. unfold qrx_aura_route_model. case_decide as Hg; [by left|].
  destruct (existsb _ models) eqn:Hvm; [by right; left|]. destruct (existsb _ pods) eqn:Hvp; [by right; right; left|].
  apply existsb_invalid in Hvm. clear Hvp.
  assert (blen pods < 2 ^ 32) as Hl by (unfold QRX_AURA_FABRIC_MAX_PODS in Hg; lia).
  assert (request_bad r = false) as Hreq by (destruct (request_bad r); [exfalso; apply Hg; tauto|done]).
  assert (forall c b m q, consider r pods q m = Some c -> m ∈ models ->
    match qrx_aura_route_decision_commitment sha3_256 (decision_of r c b (repeat x00 65)) with
    | None => False
    | Some h => decision_for pods m (decision_of r c b (h ++ [x00]))
    end) as Hd.
  { intros c b m q Hc Hin. rewrite Forall_forall in Hvm, Hm. by apply (considered_decision sha3_256 r pods c b m q); auto. }
  unfold route_choice. cbv zeta. rewrite decide_False by (rewrite Hmode; done).
  destruct (choose auto_better _ models) as [c|] eqn:Hc.
  - apply (choose_some _ _ _ (fun _ => eq_refl) auto_rank) in Hc as [(m & Hin & Hcm) Hbest].
    specialize (Hd c false m _ Hcm Hin). destruct (qrx_aura_route_decision_commitment _ _) as [h|]; [|done].
    exists m. split; [done|]. split; [exact Hd|]. destruct Hd as (_ & _ & _ & _ & _ & _ & D7 & _).
    rewrite decide_True by done. pose proof (consider_spec r pods (Some (derived_quality r)) m) as Hs. rewrite Hcm in Hs.
    destruct Hs as (Ha & Hcm' & _ & Hcf & _). split; [exact Ha|]. intros m' Hin' Ha'.
    pose proof (consider_spec r pods (Some (derived_quality r)) m') as Hs'.
    destruct (consider r pods (Some (derived_quality r)) m') as [c'|] eqn:Hc'; [|done]. destruct Hs' as (_ & Hm2 & _ & Hf2 & _).
    specialize (Hbest m' c' Hin' Hc'). cbn [lex_lt] in Hbest. rewrite Hcm', Hm2, Hf2, Hcf in Hbest. rewrite D7.
    repeat case_decide; [lia|apply bool_decide_eq_false in Hbest; lia..].
  - pose proof (choose_none _ _ _ (fun _ => eq_refl) auto_rank _ Hc) as Hnone.
    assert (forall m', m' ∈ models -> ~ admissible r pods (Some (derived_quality r)) m') as Hna.
    { intros m' Hin'. pose proof (consider_spec r pods (Some (derived_quality r)) m') as Hs. by rewrite (Hnone m' Hin') in Hs. }
    case_decide as Hdg; [|right; right; right; split; [done|]; intros m' Hin'; split; [by apply Hna|done]].
    destruct (choose degraded_better _ models) as [c|] eqn:Hc2.
    + apply (choose_some _ _ _ (fun _ => eq_refl) degraded_rank) in Hc2 as [(m & Hin & Hcm) Hbest].
      specialize (Hd c true m _ Hcm Hin). destruct (qrx_aura_route_decision_commitment _ _) as [h|]; [|done].
      exists m. split; [done|]. split; [exact Hd|].
      rewrite decide_False by done. pose proof (consider_spec r pods None m) as Hs. rewrite Hcm in Hs.
      destruct Hs as (Ha & _ & Hq & _). split; [done|]. split; [exact Ha|]. intros m' Hin'. split; [by apply Hna|]. intros Ha'.
      pose proof (consider_spec r pods None m') as Hs'.
      destruct (consider r pods None m') as [c'|] eqn:Hc'; [|done]. destruct Hs' as (_ & _ & Hq2 & _).
      specialize (Hbest m' c' Hin' Hc'). cbn [lex_lt] in Hbest. rewrite Hq, Hq2 in Hbest.
      case_decide; [lia|apply bool_decide_eq_false in Hbest; lia].
    + pose proof (choose_none _ _ _ (fun _ => eq_refl) degraded_rank _ Hc2) as Hnone2.
      right; right; right. split; [done|]. intros m' Hin'. split; [by apply Hna|]. intros _.
      pose proof (consider_spec r pods None m') as Hs. by rewrite (Hnone2 m' Hin') in Hs.
Qed.

(** ** Witnesses *)

Definition sample_pod (id : bytes) (tps latency : Z) : QrxAuraPodCapacity :=
  {| p_version := 1; p_provider_id := arr 129 (cs "prov-" ++ id); p_pod_id := arr 96 id; p_region := arr 64 (cs "eu-west");
     p_backend := 1; p_accelerator_features := 3; p_role_mask := 1; p_usable_memory_bytes := 16 * GIB; p_free_memory_bytes := 8 * GIB;
     p_model_cache_free_bytes := GIB; p_measured_milli_tokens_per_second := tps; p_network_egress_mbps := 100; p_latency_ms := latency;
     p_utilization_bps := 0; p_reliability_bps := 9900; p_cache_hit_bps := 5000; p_expert_locality_bps := 5000;
     p_max_context_tokens := 8192; p_node_count := 1; p_available := 1; p_calibration_commitment := arr 65 (repeat x30 64) |}.

Definition sample_model (id : bytes) (tier quality : Z) : QrxAuraModelCapabilityProfile :=
  {| m_version := 1; m_model_id := arr 96 id; m_model_version := arr 48 (cs "1"); m_family := arr 64 (cs "fam");
     m_runtime_id := arr 96 (cs "rt"); m_quantization := arr 32 (cs "q4"); m_tier := tier; m_min_memory_bytes := 4 * GIB;
     m_recommended_memory_bytes := 8 * GIB; m_min_storage_bytes := GIB; m_min_aggregate_milli_tokens_per_second := 1000;
     m_min_pods := 1; m_min_network_mbps := 0; m_max_latency_ms := 200; m_min_reliability_bps := 5000; m_min_cache_hit_bps := 0;
     m_min_expert_locality_bps := 0; m_max_context_tokens := 4096; m_quality_bps := quality; m_coding_bps := quality;
     m_reasoning_bps := quality; m_rag_bps := quality; m_tool_use_bps := quality; m_required_accelerator_features := 2;
     m_is_moe := 0; m_supports_single_device := 0 |}.

Definition sample_request : QrxAuraRouteRequest :=
  {| r_version := 1; r_mode := 1; r_task_class := 1; r_complexity_bps := 5000; r_min_quality_bps := 0; r_min_context_tokens := 1024;
     r_allow_degradation := 1; r_pinned_model_id := repeat x00 96; r_pinned_model_version := repeat x00 48 |}.

Definition sample_pods : list QrxAuraPodCapacity := [sample_pod (cs "a") 3000 20; sample_pod (cs "b") 5000 60].
Definition sample_models : list QrxAuraModelCapabilityProfile := [sample_model (cs "big") 3 9000; sample_model (cs "mid") 2 7000; sample_model (cs "low") 1 2000].

Lemma sample_pods_typed : Forall pod_typed sample_pods.
Proof. repeat (apply List.Forall_cons; [split; apply (bool_decide_unpack _); vm_compute; exact I|]). apply List.Forall_nil. Qed.
Lemma sample_models_typed : Forall model_typed sample_models.
Proof. repeat (apply List.Forall_cons; [split; apply (bool_decide_unpack _); vm_compute; exact I|]). apply List.Forall_nil. Qed.

Definition no_hash (x : bytes) : bytes := repeat x00 32.

Lemma route_pods_permutation_witness :
  Forall pod_typed sample_pods /\
  qrx_aura_route_model no_hash sample_request sample_models sample_pods
    = qrx_aura_route_model no_hash sample_request sample_models (rev sample_pods) /\
  match qrx_aura_route_model no_hash sample_request sample_models sample_pods with inr d => cstr (d_model_id d) = cs "mid" | inl _ => False end.
Proof.
  split; [exact sample_pods_typed|]. split; [|vm_compute; reflexivity].
  apply (route_pods_permutation no_hash sample_request sample_models sample_pods (rev sample_pods)
    (Permutation_rev _) sample_pods_typed).
Defined.

Lemma route_auto_spec_witness :
  r_mode sample_request = QRX_AURA_ROUTE_AUTO /\ Forall model_typed sample_models /\ Forall pod_typed sample_pods /\
  exists d m, qrx_aura_route_model no_hash sample_request sample_models sample_pods = inr d /\ m ∈ sample_models /\
    decision_for sample_pods m d.
Proof.
  split; [reflexivity|]. split; [exact sample_models_typed|]. split; [exact sample_pods_typed|].
  pose proof (route_auto_spec no_hash sample_request sample_models sample_pods eq_refl sample_models_typed sample_pods_typed) as H.
  destruct (qrx_aura_route_model no_hash sample_request sample_models sample_pods) as [e|d] eqn:E.
  - vm_compute in E. discriminate E.
  - destruct H as (m & Hin & Hd & _). exists d, m. split; [reflexivity|]. split; [exact Hin|exact Hd].
Defined.
