(* ===== verification/AuraGlobe.v ===== *)
(** * AURA model fabric: what the globe shows

    A cell that is public has enough providers, the totals of the snapshot are
    those of its cells, and an example in which an available provider is not
    counted. *)

From stdpp Require Import gmap.
From S2P Require Import Prelude Format Aura AuraFabric AuraFacts AuraRouting.

Lemma blen_snoc {A} (l : list A) x : blen (l ++ [x]) = blen l + 1.
Proof. unfold blen. rewrite length_app. cbn [length]. lia. Qed.

Definition region_of (c : QrxAuraGlobeCell) : bytes := cstr (g_region c).

(** A provider with an available pod in the region. *)
Definition provides (pods : list QrxAuraPodCapacity) (region id : bytes) : Prop :=
  exists p, p ∈ pods /\ p_available p <> 0 /\ cstr (p_provider_id p) = id /\ cstr (p_region p) = region.

Lemma provides_app pods pods' region id : provides pods region id -> provides (pods ++ pods') region id.
Proof. intros (p & Hp & H). exists p. split; [apply elem_of_app; by left|done]. Qed.

Record cell_inv (before : list QrxAuraPodCapacity) (c : QrxAuraGlobeCell) : Prop := {
  ci_pods : 0 <= g_pod_count c <= blen before;
  ci_providers : exists ids, NoDup ids /\ blen ids <= blen before /\ g_provider_count c = blen ids /\ Forall (provides before (region_of c)) ids
}.

Lemma cell_inv_app before p c : cell_inv before c -> cell_inv (before ++ [p]) c.
Proof.
  intros [H1 (ids & H2 & H3 & H4 & H5)]. split; [rewrite blen_snoc; lia|].
  exists ids. rewrite blen_snoc. split; [done|]. split; [lia|]. split; [done|].
  eapply Forall_impl; [exact H5|]. intros id. apply provides_app.
Qed.

Lemma cell_add_inv before p tier c : blen before < 2 ^ 32 -> p_available p <> 0 -> region_of c = cstr (p_region p) ->
  cell_inv before c -> cell_inv (before ++ [p]) (cell_add c p tier (negb (provider_seen_before before p (Some (p_region p))))).
Proof.
  intros Hl Ha Hr [H1 (ids & H2 & H3 & H4 & H5)]. split.
  - cbn [cell_add g_pod_count]. rewrite u64_small, blen_snoc by (unfold in_u64; lia). lia.
  - change (region_of (cell_add _ _ _ _)) with (region_of c). cbn [cell_add g_provider_count].
    rewrite blen_snoc. destruct (provider_seen_before before p (Some (p_region p))) eqn:Hs; cbn [negb].
    + exists ids. split; [done|]. split; [lia|]. split; [done|]. eapply Forall_impl; [exact H5|]. intros id. apply provides_app.
    + exists (cstr (p_provider_id p) :: ids). rewrite blen_cons. split; [|split; [lia|split]].
      * apply NoDup_cons. split; [|done]. intros Hin. rewrite Forall_forall in H5. destruct (H5 _ Hin) as (q & Hq & _ & Hqi & Hqr).
        unfold provider_seen_before in Hs. rewrite <- not_true_iff_false, existsb_exists in Hs. apply Hs. exists q.
        split; [by apply list_elem_of_In|]. rewrite andb_true_iff, !bool_decide_eq_true. split; [done|congruence].
      * pose proof (blen_nonneg ids). rewrite u64_small by (unfold in_u64; lia). lia.
      * apply Forall_cons. split; [|eapply Forall_impl; [exact H5|]; intros id; apply provides_app].
        exists p. split; [apply elem_of_app; right; by apply list_elem_of_singleton|]. done.
Qed.

Lemma cell_new_inv before region : cell_inv before (cell_new region).
Proof.
  split; [cbn; pose proof (blen_nonneg before); lia|]. exists []. split; [constructor|]. split; [apply blen_nonneg|]. by split.
Qed.

(** ** Adding a pod to the cells *)

Section cells.
Context (before : list QrxAuraPodCapacity) (p : QrxAuraPodCapacity) (tier : Z).
Hypothesis Hlen : blen before < 2 ^ 32.
Hypothesis Havail : p_available p <> 0.
Hypothesis Hvalid : qrx_aura_pod_capacity_validate p = 0.

Abbreviation add cells := (cells_add cells p tier (negb (provider_seen_before before p (Some (p_region p))))).

Lemma pod_region : region_of (cell_new (cstr (p_region p))) = cstr (p_region p).
Proof using Hvalid.
  unfold region_of, cell_new, arr. cbn [g_region]. apply cstr_overwrite; [apply cstr_is_no_nul|].
  assert (bounded_nonempty (p_region p) (QRX_GLOBE_REGION_MAX + 1) = true) as Hb; [|by apply bounded_cstr in Hb as [Hb _]].
  revert Hvalid. unfold qrx_aura_pod_capacity_validate. case_decide; [done|].
  destruct (bounded_nonempty (p_region p) _); [done|]. by rewrite orb_true_r.
Qed.

Lemma cells_add_inv cells : Forall (cell_inv before) cells -> Forall (cell_inv (before ++ [p])) (add cells).
Proof using Hlen Havail Hvalid.
  induction 1 as [|c cells Hc Hcs IH]; cbn [cells_add].
  - apply List.Forall_cons; [|apply List.Forall_nil]. apply cell_add_inv; [done|done|apply pod_region|apply cell_new_inv].
  - case_decide as Hr; apply List.Forall_cons.
    + by apply cell_add_inv.
    + eapply Forall_impl; [exact Hcs|]. intros d. apply cell_inv_app.
    + by apply cell_inv_app.
    + exact IH.
Qed.

Lemma cells_add_regions cells : region_of <$> add cells
  = if decide (cstr (p_region p) ∈ (region_of <$> cells)) then region_of <$> cells else (region_of <$> cells) ++ [cstr (p_region p)].
Proof using Hvalid.
  induction cells as [|c cells IH]; cbn [cells_add fmap list_fmap].
  - rewrite decide_False by (by intros ?%elem_of_nil). cbn [app]. f_equal. apply pod_region.
  - destruct (decide (cstr (g_region c) = cstr (p_region p))) as [Hr|Hr]; cbn [fmap list_fmap].
    + rewrite decide_True; [reflexivity|]. fold (region_of c) in Hr. rewrite <- Hr. apply list_elem_of_here.
    + rewrite IH. fold (region_of c) in Hr. destruct (decide (cstr (p_region p) ∈ region_of <$> cells)) as [Hin|Hin].
      * rewrite decide_True; [done|]. by apply list_elem_of_further.
      * rewrite decide_False; [done|]. intros [Heq|Hin']%elem_of_cons; congruence.
Qed.

Lemma cells_add_sum cells : Forall (cell_inv before) cells ->
  zsum (g_pod_count <$> add cells) = zsum (g_pod_count <$> cells) + 1.
Proof using Hlen.
  induction 1 as [|c cells [Hc _] Hcs IH]; cbn [cells_add fmap list_fmap].
  - rewrite !zsum_cons. cbn. reflexivity.
  - case_decide; cbn [fmap list_fmap]; rewrite !zsum_cons; [|lia]. cbn [cell_add g_pod_count].
    rewrite u64_small by (unfold in_u64; lia). lia.
Qed.
End cells.

(** ** The main loop *)

Definition available (p : QrxAuraPodCapacity) : bool := bool_decide (p_available p <> 0).

Record build_inv (before : list QrxAuraPodCapacity) (b : Build) : Prop := {
  bi_cells : Forall (cell_inv before) (b_cells b);
  bi_few : blen (b_cells b) <= blen before;
  bi_nodup : NoDup (region_of <$> b_cells b);
  bi_cover : Forall (fun p => available p = true -> cstr (p_region p) ∈ (region_of <$> b_cells b)) before;
  bi_total : s_total_pods (b_out b) = blen (List.filter available before);
  bi_sum : zsum (g_pod_count <$> b_cells b) = s_total_pods (b_out b);
  bi_parts : s_inference_pods (b_out b) + s_utility_pods (b_out b) = s_total_pods (b_out b) /\
             0 <= s_inference_pods (b_out b) /\ 0 <= s_utility_pods (b_out b)
}.

Lemma blen_filter_le {A} (f : A -> bool) l : blen (List.filter f l) <= blen l.
Proof. unfold blen. pose proof (filter_length_le f l). lia. Qed.

Lemma build_step_inv before p b : blen before < 2 ^ 32 -> qrx_aura_pod_capacity_validate p = 0 ->
  build_inv before b -> build_inv (before ++ [p]) (build_step before p b).
Proof.
  intros Hl Hv [I1 I0 I2 I3 I4 I5 [I6 [I7 I8]]]. unfold build_step. case_decide as Ha.
  - assert (available p = false) as Hav by (apply bool_decide_eq_false; tauto). split; try done.
    + eapply Forall_impl; [exact I1|]. intros c. apply cell_inv_app.
    + rewrite blen_snoc. lia.
    + apply Forall_app. split; [done|]. apply Forall_singleton. congruence.
    + rewrite List.filter_app. cbn [List.filter]. rewrite Hav, app_nil_r. exact I4.
  - assert (available p = true) as Hav by (by apply bool_decide_eq_true). cbv zeta.
    pose proof (cells_add_regions before p (qrx_aura_pod_tier_classify p) Hv (b_cells b)) as Hreg.
    pose proof (blen_filter_le available before) as Hfl.
    split; cbn [b_cells b_out snapshot_add s_total_pods s_inference_pods s_utility_pods].
    + by apply cells_add_inv.
    + rewrite <- (blen_fmap region_of), Hreg, blen_snoc. rewrite <- (blen_fmap region_of) in I0.
      case_decide; [lia|]. rewrite blen_snoc. lia.
    + rewrite Hreg. case_decide as Hin; [done|]. apply NoDup_app. split; [done|]. split; [|apply NoDup_singleton].
      intros x Hx ->%list_elem_of_singleton. done.
    + rewrite Hreg. apply Forall_app. split.
      * eapply Forall_impl; [exact I3|]. intros q Hq Hqa. specialize (Hq Hqa). case_decide; [done|]. apply elem_of_app. by left.
      * apply Forall_singleton. intros _. case_decide; [done|]. apply elem_of_app. right. by apply list_elem_of_singleton.
    + rewrite List.filter_app. cbn [List.filter]. rewrite Hav, blen_snoc, <- I4.
      apply u64_small. unfold in_u64. lia.
    + rewrite cells_add_sum by done. rewrite I5. symmetry. apply u64_small. unfold in_u64. lia.
    + destruct (inference (p_role_mask p)); rewrite !u64_small by (unfold in_u64; lia); lia.
Qed.

Lemma build_loop_inv before pods b : blen before + blen pods < 2 ^ 32 -> Forall (fun p => qrx_aura_pod_capacity_validate p = 0) pods ->
  build_inv before b -> build_inv (before ++ pods) (build_loop before pods b).
Proof.
  revert before b. induction pods as [|p pods IH]; intros before b Hl Hv Hb; [by rewrite app_nil_r|]. cbn [build_loop].
  apply Forall_cons in Hv as [Hp Hv]. rewrite blen_cons in Hl. replace (before ++ p :: pods) with ((before ++ [p]) ++ pods)
    by (by rewrite <- app_assoc). pose proof (blen_nonneg pods).
  apply IH; [rewrite blen_snoc; lia|done|]. apply build_step_inv; [lia|done|done].
Qed.

Lemma build_inv_start : build_inv [] (mkBuild snapshot_new [] 0).
Proof. split; try done; try (by constructor). Qed.

Lemma pods_check_ok before pods : pods_check before pods = 0 -> Forall (fun p => qrx_aura_pod_capacity_validate p = 0) pods.
Proof.
  revert before. induction pods as [|p pods IH]; intros before; cbn [pods_check]; [constructor|].
  case_decide as Hv; [done|]. destruct (pod_seen_before before p); [done|]. intros Hc. apply List.Forall_cons; [lia|by eapply IH].
Qed.

(** ** The finished cells *)

Lemma cell_finish_same k models pods c :
  g_pod_count (cell_finish k models pods c) = g_pod_count c /\ g_provider_count (cell_finish k models pods c) = g_provider_count c /\
  region_of (cell_finish k models pods c) = region_of c /\
  (g_publicly_visible (cell_finish k models pods c) <> 0 <-> k <= g_provider_count c).
Proof.
  unfold cell_finish, cell_average, region_of. cbv zeta. destruct (decide (g_pod_count c = 0));
    cbn [g_pod_count g_provider_count g_region g_publicly_visible]; repeat split; try (case_decide; lia).
Qed.

Lemma blen_partition {A} (f : A -> bool) (l : list A) :
  blen (filter (fun x => f x = true) l) + blen (filter (fun x => f x = false) l) = blen l.
Proof.
  unfold blen. induction l as [|x l IH]; [done|]. rewrite !filter_cons. destruct (f x).
  - rewrite decide_True, decide_False by done. cbn [length]. lia.
  - rewrite decide_False, decide_True by done. cbn [length]. lia.
Qed.

(** A region is shown only when it has at least the asked number of
    distinct providers (three by default) with available pods in it; there is
    one cell for every region with an available pod; and the counts of the
    snapshot are exact: the available pods, over the cells, by role, and the
    visible and hidden regions. *)
Theorem globe_private_and_exact pods models k s cells :
  qrx_aura_fabric_build pods models k = inr (s, cells) ->
  (forall c, c ∈ cells -> g_publicly_visible c <> 0 ->
     exists ids, NoDup ids /\ (if decide (k = 0) then 3 else k) <= blen ids /\ Forall (provides pods (region_of c)) ids) /\
  NoDup (region_of <$> cells) /\
  (forall p, p ∈ pods -> p_available p <> 0 -> cstr (p_region p) ∈ (region_of <$> cells)) /\
  s_total_pods s = blen (List.filter available pods) /\ zsum (g_pod_count <$> cells) = s_total_pods s /\
  s_inference_pods s + s_utility_pods s = s_total_pods s /\ s_visible_regions s + s_hidden_regions s = blen cells.
Proof.
  unfold qrx_aura_fabric_build. case_decide as Hsz; [done|]. cbv zeta. set (k' := if decide (k = 0) then _ else k).
  case_decide as Hck; [done|]. destruct (existsb _ models); [done|]. intros [= <- <-].
  assert (blen pods < 2 ^ 32) as Hl by (unfold QRX_AURA_FABRIC_MAX_PODS in Hsz; lia).
  assert (pods_check [] pods = 0) as Hc0 by lia. apply pods_check_ok in Hc0.
  pose proof (build_loop_inv [] pods _ ltac:(change (blen []) with 0; lia) Hc0 build_inv_start) as [I1 I0 I2 I3 I4 I5 [I6 _]].
  cbn [app] in *. set (b := build_loop [] pods (mkBuild snapshot_new [] 0)) in *.
  assert (region_of <$> (cell_finish k' models pods <$> b_cells b) = region_of <$> b_cells b) as Hreg.
  { rewrite <- list_fmap_compose. apply list_fmap_ext. intros i c _. apply (cell_finish_same k' models pods c). }
  assert (g_pod_count <$> (cell_finish k' models pods <$> b_cells b) = g_pod_count <$> b_cells b) as Hcnt.
  { rewrite <- list_fmap_compose. apply list_fmap_ext. intros i c _. apply (cell_finish_same k' models pods c). }
  rewrite Hreg, Hcnt. split; [|split; [exact I2|split; [|split; [exact I4|split; [exact I5|split; [exact I6|]]]]]].
  - intros c Hin Hvis. apply list_elem_of_fmap in Hin as (c0 & -> & Hin0). rewrite Forall_forall in I1.
    destruct (I1 c0 Hin0) as [_ (ids & H2 & _ & H4 & H5)].
    destruct (cell_finish_same k' models pods c0) as (_ & _ & Hr & Hv). apply Hv in Hvis. exists ids. rewrite Hr.
    split; [done|]. split; [|done]. rewrite H4 in Hvis. exact Hvis.
  - intros p Hin Hav. rewrite Forall_forall in I3. apply I3; [done|]. by apply bool_decide_eq_true.
  - cbn [snapshot_finish s_visible_regions s_hidden_regions]. set (cells := cell_finish k' models pods <$> b_cells b) in *.
    pose proof (blen_partition is_visible cells) as Hpart.
    assert (blen cells < 2 ^ 32) as Hcl by (unfold cells; rewrite blen_fmap; lia).

    rewrite !u32_small by (unfold in_u32; pose proof (blen_nonneg (filter (fun c => is_visible c = true) cells));
      pose proof (blen_nonneg (filter (fun c => is_visible c = false) cells)); lia). exact Hpart.
Qed.

(** ** Witness and example *)

Definition utility_pod (provider id : bytes) (avail : Z) : QrxAuraPodCapacity :=
  {| p_version := 1; p_provider_id := arr 129 provider; p_pod_id := arr 96 id; p_region := arr 64 (cs "eu-west");
     p_backend := 1; p_accelerator_features := 0; p_role_mask := 2; p_usable_memory_bytes := GIB; p_free_memory_bytes := GIB;
     p_model_cache_free_bytes := 0; p_measured_milli_tokens_per_second := 0; p_network_egress_mbps := 0; p_latency_ms := 0;
     p_utilization_bps := 0; p_reliability_bps := 0; p_cache_hit_bps := 0; p_expert_locality_bps := 0;
     p_max_context_tokens := 0; p_node_count := 1; p_available := avail; p_calibration_commitment := repeat x00 65 |}.

Definition three_providers : list QrxAuraPodCapacity :=
  [utility_pod (cs "p1") (cs "a") 1; utility_pod (cs "p2") (cs "b") 1; utility_pod (cs "p2") (cs "c") 1; utility_pod (cs "p3") (cs "d") 1].

Lemma globe_private_and_exact_witness :
  exists s cells, qrx_aura_fabric_build three_providers [] 0 = inr (s, cells) /\
    s_visible_regions s = 1 /\ s_total_pods s = 4 /\ zsum (g_pod_count <$> cells) = s_total_pods s.
Proof.
  destruct (qrx_aura_fabric_build three_providers [] 0) as [e|[s cells]] eqn:E; [vm_compute in E; discriminate E|].
  exists s, cells. split; [reflexivity|]. pose proof (globe_private_and_exact three_providers [] 0 s cells E) as (_ & _ & _ & _ & H & _).
  vm_compute in E. injection E as <- <-. split; [reflexivity|]. split; [reflexivity|]. exact H.
Defined.

(** A provider whose first listed pod is unavailable is not counted at
    all, so that three providers with available pods can be reported as none
    and their region hidden; listed the other way round all three are counted. *)
Theorem providers_undercounted :
  let off := [utility_pod (cs "p1") (cs "a") 0; utility_pod (cs "p2") (cs "b") 0; utility_pod (cs "p3") (cs "c") 0] in
  let on := [utility_pod (cs "p1") (cs "d") 1; utility_pod (cs "p2") (cs "e") 1; utility_pod (cs "p3") (cs "f") 1] in
  match qrx_aura_fabric_build (off ++ on) [] 0, qrx_aura_fabric_build (on ++ off) [] 0 with
  | inr (s, _), inr (s', _) =>
      (s_total_pods s, s_provider_count s, s_visible_regions s) = (3, 0, 0) /\
      (s_total_pods s', s_provider_count s', s_visible_regions s') = (3, 3, 1)
  | _, _ => False
  end.
Proof. vm_compute. split; reflexivity. Qed.
