(* ===== verification/Compute.v ===== *)
(** * Compute: capabilities, benchmarks and job graphs
      (src/qrx-core/src/compute/qrx_compute.c, .h)

    What a provider offers, how its benchmark becomes a score, the registry of
    models, and the graph of jobs of an order: validation, the order in which
    the jobs run, and the commitments.  A digest is the hash of what the code
    feeds it.  Character arrays and the answers of the validators are as
    in [Aura]; an array with a count is the list of its used entries.
    Prefixes: [cc_] capabilities, [tk_] task, [bm_] metrics, [ns_] score, [dp_]
    dispatch profile, [md_] model, [n_] job node, [e_] edge, [g_] graph. *)

From stdpp Require Import gmap.
From S2P Require Import Prelude Format Aura AuraRoute.

Definition QRX_COMPUTE_MAX_ACCELERATORS : Z := 16.
Definition QRX_CPU_FEATURE_SSE2 : Z := 2 ^ 0.
Definition QRX_CPU_FEATURE_AVX2 : Z := 2 ^ 1.
Definition QRX_CPU_FEATURE_AVX512F : Z := 2 ^ 3.
Definition QRX_CPU_FEATURE_NEON : Z := 2 ^ 16.
Definition QRX_CPU_FEATURE_SVE : Z := 2 ^ 17.
Definition QRX_CPU_FEATURE_SVE2 : Z := 2 ^ 18.
Definition QRX_COMPUTE_KERNEL_SCALAR : Z := 0.
Definition QRX_COMPUTE_KERNEL_SSE2 : Z := 1.
Definition QRX_COMPUTE_KERNEL_AVX2 : Z := 2.
Definition QRX_COMPUTE_KERNEL_AVX512 : Z := 3.
Definition QRX_COMPUTE_KERNEL_NEON : Z := 4.
Definition QRX_COMPUTE_KERNEL_SVE : Z := 5.
Definition QRX_COMPUTE_KERNEL_SVE2 : Z := 6.
Definition QRX_COMPUTE_OS_LINUX : Z := 1.
Definition QRX_COMPUTE_OS_WINDOWS : Z := 2.
Definition QRX_COMPUTE_OS_MACOS : Z := 3.
Definition QRX_COMPUTE_ARCH_UNKNOWN : Z := 0.
Definition QRX_COMPUTE_ARCH_X86_64 : Z := 1.
Definition QRX_COMPUTE_ARCH_ARM64 : Z := 2.

Record QrxComputeAccelerator := mkAccelerator { ac_type : Z; ac_name : bytes; ac_memory_bytes : Z; ac_capability_flags : Z }.
Record QrxComputeCapabilities := mkCapabilities {
  cc_provider_id : bytes;
  cc_os : Z;
  cc_arch : Z;
  cc_logical_cpu_count : Z;
  cc_memory_total_bytes : Z;
  cc_memory_available_bytes : Z;
  cc_cpu_feature_flags : Z;
  cc_accelerators : list QrxComputeAccelerator;
  cc_max_parallel_tasks : Z;
  cc_sandbox_available : Z
}.
Record QrxComputeTaskDescriptor := mkTask {
  tk_task_id : bytes;
  tk_owner : bytes;
  tk_runtime_id : bytes;
  tk_workload_hash : bytes;
  tk_input_commitment : bytes;
  tk_required_arch : Z;
  tk_min_memory_bytes : Z;
  tk_max_runtime_ms : Z;
  tk_max_output_bytes : Z;
  tk_max_fee_atoms : Z;
  tk_nonce : Z;
  tk_network_access : Z;
  tk_filesystem_write : Z;
  tk_host_command_access : Z
}.
Record QrxComputeDispatchProfile := mkDispatch {
  dp_kernel_class : Z; dp_cpu_feature_flags : Z; dp_recommended_parallel_tasks : Z; dp_scheduling_memory_bytes : Z
}.

Definition nonempty (s : bytes) (n : nat) : bool := bounded_nonempty s n.
Definition has (mask bit : Z) : bool := bool_decide (Z.land mask bit <> 0).

Definition qrx_compute_capabilities_validate (c : QrxComputeCapabilities) : Z :=
  if negb (nonempty (cc_provider_id c) 129) then -1
  else if decide (cc_os c < QRX_COMPUTE_OS_LINUX \/ cc_os c > QRX_COMPUTE_OS_MACOS) then -1
  else if decide (cc_arch c <> QRX_COMPUTE_ARCH_X86_64 /\ cc_arch c <> QRX_COMPUTE_ARCH_ARM64) then -1
  else if decide (cc_logical_cpu_count c = 0 \/ cc_memory_total_bytes c = 0 \/ cc_memory_available_bytes c > cc_memory_total_bytes c) then -1
  else if decide (blen (cc_accelerators c) > QRX_COMPUTE_MAX_ACCELERATORS \/ cc_max_parallel_tasks c = 0) then -1
  else if forallb (fun a => nonempty (ac_name a) 96) (cc_accelerators c) then 0 else -1.

Definition qrx_compute_task_validate (t : QrxComputeTaskDescriptor) : Z :=
  if negb (nonempty (tk_task_id t) 129) || negb (nonempty (tk_owner t) 160) then -1
  else if negb (nonempty (tk_runtime_id t) 129) || negb (nonempty (tk_workload_hash t) 129) || negb (nonempty (tk_input_commitment t) 129) then -1
  else if decide (tk_required_arch t <> QRX_COMPUTE_ARCH_UNKNOWN /\ tk_required_arch t <> QRX_COMPUTE_ARCH_X86_64 /\
                  tk_required_arch t <> QRX_COMPUTE_ARCH_ARM64) then -1
  else if decide (tk_max_runtime_ms t = 0 \/ tk_max_output_bytes t = 0 \/ tk_max_fee_atoms t = 0) then -1
  else if decide (tk_host_command_access t <> 0 \/ tk_filesystem_write t <> 0 \/ tk_network_access t <> 0) then -1
  else 0.

Definition qrx_compute_provider_eligible (c : QrxComputeCapabilities) (t : QrxComputeTaskDescriptor) : bool :=
  if decide (qrx_compute_capabilities_validate c <> 0 \/ qrx_compute_task_validate t <> 0) then false
  else if decide (cc_sandbox_available c = 0) then false
  else if decide (tk_required_arch t <> QRX_COMPUTE_ARCH_UNKNOWN /\ tk_required_arch t <> cc_arch c) then false
  else if decide (cc_memory_available_bytes c < tk_min_memory_bytes t) then false
  else true.

(** The shifts keep to 64 bits. *)
Definition qrx_compute_privacy_fingerprint (c : QrxComputeCapabilities) : Z :=
  if decide (qrx_compute_capabilities_validate c <> 0) then 0
  else
    let gib := Z.shiftr (cc_memory_total_bytes c) 30 in
    let bucket := if decide (gib < 8) then 1 else if decide (gib < 16) then 2 else if decide (gib < 32) then 3
                  else if decide (gib < 64) then 4 else if decide (gib < 128) then 5 else 6 in
    let n := cc_logical_cpu_count c in
    let cpu_bucket := if decide (n < 4) then 1 else if decide (n < 8) then 2 else if decide (n < 16) then 3 else 4 in
    u64 (Z.lor (Z.lor (Z.lor (Z.lor (Z.shiftl (cc_os c) 56) (Z.shiftl (cc_arch c) 48)) (Z.shiftl bucket 40)) (Z.shiftl cpu_bucket 32))
           (Z.shiftl (blen (cc_accelerators c)) 24)).

Definition qrx_compute_os_name (os : Z) : bytes :=
  if decide (os = QRX_COMPUTE_OS_LINUX) then cs "LINUX" else if decide (os = QRX_COMPUTE_OS_WINDOWS) then cs "WINDOWS"
  else if decide (os = QRX_COMPUTE_OS_MACOS) then cs "MACOS" else cs "UNKNOWN".
Definition qrx_compute_arch_name (a : Z) : bytes :=
  if decide (a = QRX_COMPUTE_ARCH_X86_64) then cs "X86_64" else if decide (a = QRX_COMPUTE_ARCH_ARM64) then cs "ARM64" else cs "UNKNOWN".

Definition qrx_compute_select_dispatch_profile (c : QrxComputeCapabilities) : option QrxComputeDispatchProfile :=
  if decide (qrx_compute_capabilities_validate c <> 0) then None
  else
    let flags := cc_cpu_feature_flags c in
    let kernel :=
      if decide (cc_arch c = QRX_COMPUTE_ARCH_X86_64) then
        if has flags QRX_CPU_FEATURE_AVX512F then QRX_COMPUTE_KERNEL_AVX512
        else if has flags QRX_CPU_FEATURE_AVX2 then QRX_COMPUTE_KERNEL_AVX2
        else if has flags QRX_CPU_FEATURE_SSE2 then QRX_COMPUTE_KERNEL_SSE2
        else QRX_COMPUTE_KERNEL_SCALAR
      else if decide (cc_arch c = QRX_COMPUTE_ARCH_ARM64) then
        if has flags QRX_CPU_FEATURE_SVE2 then QRX_COMPUTE_KERNEL_SVE2
        else if has flags QRX_CPU_FEATURE_SVE then QRX_COMPUTE_KERNEL_SVE
        else if has flags QRX_CPU_FEATURE_NEON then QRX_COMPUTE_KERNEL_NEON
        else QRX_COMPUTE_KERNEL_SCALAR
      else 0 in
    Some (mkDispatch kernel flags (cc_max_parallel_tasks c) ((cc_memory_available_bytes c / 8) *64 7)).
Definition qrx_compute_kernel_name (k : Z) : bytes :=
  if decide (k = QRX_COMPUTE_KERNEL_SSE2) then cs "SSE2" else if decide (k = QRX_COMPUTE_KERNEL_AVX2) then cs "AVX2"
  else if decide (k = QRX_COMPUTE_KERNEL_AVX512) then cs "AVX512" else if decide (k = QRX_COMPUTE_KERNEL_NEON) then cs "NEON"
  else if decide (k = QRX_COMPUTE_KERNEL_SVE) then cs "SVE" else if decide (k = QRX_COMPUTE_KERNEL_SVE2) then cs "SVE2" else cs "SCALAR".

(** ** Benchmarks *)

Definition QRX_COMPUTE_BENCHMARK_VERSION : Z := 1.
Definition QRX_COMPUTE_NCU_BASE : Z := 10000.
Definition QRX_COMPUTE_COMPONENT_SCORE_CAP : Z := 20000.
Definition QRX_COMPUTE_REF_BF16_MOPS : Z := 1000.
Definition QRX_COMPUTE_REF_MXFP4_MOPS : Z := 1500.
Definition QRX_COMPUTE_REF_MEMORY_MIB_S : Z := 10000.
Definition QRX_COMPUTE_REF_STORAGE_MIB_S : Z := 1000.
Definition QRX_COMPUTE_REF_NETWORK_MBIT_S : Z := 1000.
Definition QRX_COMPUTE_REF_MOE_MILLI_TOKENS_S : Z := 10000.
Definition QRX_COMPUTE_REF_INFERENCE_MILLI_TOKENS_S : Z := 10000.
(** The five sources together. *)
Definition QRX_COMPUTE_BENCH_SRC_REQUIRED : Z := 31.
Definition QRX_COMPUTE_SCORE_CLASS_ENTRY : Z := 1.
Definition QRX_COMPUTE_SCORE_CLASS_STANDARD : Z := 2.
Definition QRX_COMPUTE_SCORE_CLASS_HIGH : Z := 3.
Definition QRX_COMPUTE_SCORE_CLASS_EXTREME : Z := 4.

Record QrxComputeBenchmarkMetrics := mkMetrics {
  bm_version : Z; bm_source_mask : Z; bm_sample_count : Z; bm_sample_window_ms : Z; bm_bf16_mops : Z; bm_mxfp4_mops : Z; bm_memory_mib_s : Z;
  bm_storage_mib_s : Z; bm_network_mbit_s : Z; bm_moe_milli_tokens_s : Z; bm_inference_milli_tokens_s : Z
}.
Record QrxComputeNormalizedScore := mkScore {
  ns_version : Z; ns_normalized_score : Z; ns_cpu_score : Z; ns_memory_score : Z; ns_storage_score : Z; ns_network_score : Z; ns_moe_score : Z;
  ns_inference_score : Z; ns_class_id : Z
}.

Definition benchmark_component_score (measured reference : Z) : Z :=
  if decide (reference = 0 \/ measured = 0) then 0
  else if decide (measured >= reference *64 2) then QRX_COMPUTE_COMPONENT_SCORE_CAP
  else u32 ((measured *64 QRX_COMPUTE_NCU_BASE) / reference).
Definition qrx_compute_benchmark_validate (m : QrxComputeBenchmarkMetrics) : Z :=
  if decide (bm_version m <> QRX_COMPUTE_BENCHMARK_VERSION) then -1
  else if decide (Z.land (bm_source_mask m) QRX_COMPUTE_BENCH_SRC_REQUIRED <> QRX_COMPUTE_BENCH_SRC_REQUIRED) then -1
  else if decide (bm_sample_count m = 0 \/ bm_sample_window_ms m = 0) then -1
  else if decide (bm_bf16_mops m = 0 \/ bm_mxfp4_mops m = 0 \/ bm_memory_mib_s m = 0 \/ bm_storage_mib_s m = 0 \/ bm_network_mbit_s m = 0 \/
                  bm_moe_milli_tokens_s m = 0 \/ bm_inference_milli_tokens_s m = 0) then -1
  else if decide (bm_sample_count m > 1000000 \/ bm_sample_window_ms m > 86400000) then -1
  else 0.
Definition qrx_compute_benchmark_normalize (m : QrxComputeBenchmarkMetrics) : option QrxComputeNormalizedScore :=
  if decide (qrx_compute_benchmark_validate m <> 0) then None
  else
    let bf16 := benchmark_component_score (bm_bf16_mops m) QRX_COMPUTE_REF_BF16_MOPS in
    let mx := benchmark_component_score (bm_mxfp4_mops m) QRX_COMPUTE_REF_MXFP4_MOPS in
    let cpu := u32 ((bf16 +64 mx) / 2) in
    let memory := benchmark_component_score (bm_memory_mib_s m) QRX_COMPUTE_REF_MEMORY_MIB_S in
    let storage := benchmark_component_score (bm_storage_mib_s m) QRX_COMPUTE_REF_STORAGE_MIB_S in
    let network := benchmark_component_score (bm_network_mbit_s m) QRX_COMPUTE_REF_NETWORK_MBIT_S in
    let moe := benchmark_component_score (bm_moe_milli_tokens_s m) QRX_COMPUTE_REF_MOE_MILLI_TOKENS_S in
    let inference := benchmark_component_score (bm_inference_milli_tokens_s m) QRX_COMPUTE_REF_INFERENCE_MILLI_TOKENS_S in
    let weighted := (cpu *64 30) +64 (memory *64 15) +64 (storage *64 10) +64 (network *64 10) +64 (moe *64 20) +64 (inference *64 15) in
    let score := u32 (weighted / 100) in
    let class := if decide (score < 7500) then QRX_COMPUTE_SCORE_CLASS_ENTRY else if decide (score < 12500) then QRX_COMPUTE_SCORE_CLASS_STANDARD
                 else if decide (score < 17500) then QRX_COMPUTE_SCORE_CLASS_HIGH else QRX_COMPUTE_SCORE_CLASS_EXTREME in
    Some (mkScore QRX_COMPUTE_BENCHMARK_VERSION score cpu memory storage network moe inference class).
Definition qrx_compute_score_class_name (c : Z) : bytes :=
  if decide (c = QRX_COMPUTE_SCORE_CLASS_ENTRY) then cs "ENTRY" else if decide (c = QRX_COMPUTE_SCORE_CLASS_STANDARD) then cs "STANDARD"
  else if decide (c = QRX_COMPUTE_SCORE_CLASS_HIGH) then cs "HIGH" else if decide (c = QRX_COMPUTE_SCORE_CLASS_EXTREME) then cs "EXTREME" else cs "UNKNOWN".

(** ** Models *)

Definition QRX_MODEL_REGISTRY_VERSION : Z := 1.
Definition QRX_MODEL_MAX_ARCH : nat := 96.
Definition QRX_MODEL_MAX_LICENSE : nat := 96.
Definition QRX_MODEL_ROOT_HEX : Z := 64.
Definition QRX_MODEL_VERIFY_LOW : Z := 1.
Definition QRX_MODEL_VERIFY_HIGH : Z := 3.

Record QrxAiModelRecord := mkModelRecord {
  md_registry_version : Z; md_model_id : bytes; md_model_version : bytes; md_architecture : bytes; md_runtime_id : bytes; md_manifest_root : bytes;
  md_tokenizer_root : bytes; md_expert_manifest_root : bytes; md_min_memory_bytes : Z; md_min_storage_bytes : Z; md_verification_profile : Z;
  md_license_id : bytes; md_is_moe : Z
}.
(** The records in use. *)
Abbreviation QrxAiModelRegistry := (list QrxAiModelRecord).

Definition isxdigit (c : byte) : bool :=
  let v := byte.unsigned c in bool_decide (48 <= v <= 57) || bool_decide (65 <= v <= 70) || bool_decide (97 <= v <= 102).
Definition qrx_model_hexroot (s : bytes) : bool :=
  if decide (blen (cstr s) <> QRX_MODEL_ROOT_HEX) then false else forallb isxdigit (cstr s).
Definition qrx_model_zero_root (s : bytes) : bool := if qrx_model_hexroot s then forallb (fun c => bool_decide (c = x30)) (cstr s) else false.
(** [strnlen(s,n)>=n]. *)
Definition unterminated (s : bytes) (n : nat) : bool := bool_decide (n <= length (cstr (take n s)))%nat.

Definition qrx_ai_model_validate (m : QrxAiModelRecord) : Z :=
  if decide (md_registry_version m <> QRX_MODEL_REGISTRY_VERSION) then -1
  else if decide (cstr (md_model_id m) = [] \/ cstr (md_model_version m) = [] \/ cstr (md_architecture m) = [] \/ cstr (md_runtime_id m) = [] \/
                  cstr (md_license_id m) = []) then -1
  else if unterminated (md_model_id m) QRX_MODEL_MAX_ID || unterminated (md_model_version m) QRX_MODEL_MAX_VERSION ||
          unterminated (md_architecture m) QRX_MODEL_MAX_ARCH || unterminated (md_runtime_id m) QRX_MODEL_MAX_RUNTIME ||
          unterminated (md_license_id m) QRX_MODEL_MAX_LICENSE then -1
  else if negb (qrx_model_hexroot (md_manifest_root m)) || negb (qrx_model_hexroot (md_tokenizer_root m)) || negb (qrx_model_hexroot (md_expert_manifest_root m)) then -1
  else if decide (md_min_memory_bytes m = 0 \/ md_min_storage_bytes m = 0) then -1
  else if decide (md_verification_profile m < QRX_MODEL_VERIFY_LOW \/ md_verification_profile m > QRX_MODEL_VERIFY_HIGH) then -1
  else if decide (md_is_moe m <> 0) then if qrx_model_zero_root (md_expert_manifest_root m) then -1 else 0
  else if qrx_model_zero_root (md_expert_manifest_root m) then 0 else -1.

Definition model_preimage (m : QrxAiModelRecord) : bytes :=
  cs "QRX-AI-MODEL-REGISTRY-V1" ++
  concat ((fun s => qrx_digest_field (cstr s)) <$>
    [md_model_id m; md_model_version m; md_architecture m; md_runtime_id m; md_manifest_root m; md_tokenizer_root m; md_expert_manifest_root m; md_license_id m]) ++
  qrx_digest_field (be 8 (md_min_memory_bytes m) ++ be 8 (md_min_storage_bytes m) ++ be 1 (md_verification_profile m) ++ be 1 (md_is_moe m) ++ be 1 (md_registry_version m)).

Definition same_model (id ver : bytes) (r : QrxAiModelRecord) : bool :=
  bool_decide (cstr (md_model_id r) = cstr id) && bool_decide (cstr (md_model_version r) = cstr ver).
(** The answer and the registry after the call. *)
Definition qrx_ai_model_registry_add (r : QrxAiModelRegistry) (m : QrxAiModelRecord) : Z * QrxAiModelRegistry :=
  if decide (qrx_ai_model_validate m <> 0 \/ blen r >= 64) then (-1, r)
  else if existsb (same_model (md_model_id m) (md_model_version m)) r then (-2, r)
  else (0, r ++ [m]).
Definition qrx_ai_model_registry_find (r : QrxAiModelRegistry) (id ver : bytes) : option QrxAiModelRecord :=
  snd <$> list_find (fun x => same_model id ver x = true) r.

(** ** Job nodes *)

Definition QRX_COMPUTE_JOB_PROTOCOL_VERSION : Z := 1.
Definition QRX_COMPUTE_JOB_MAX_NODES : Z := 64.
Definition QRX_COMPUTE_JOB_MAX_EDGES : Z := 256.
Definition QRX_COMPUTE_JOB_MAX_REF : nat := 129.
Definition QRX_COMPUTE_JOB_MAX_RUNTIME : nat := 96.
Definition QRX_COMPUTE_JOB_MAX_MODEL_ID : nat := 96.
Definition QRX_COMPUTE_JOB_MAX_MODEL_VERSION : nat := 48.
Definition QRX_JOB_CAP_READ_INPUTS : Z := 1.
Definition QRX_JOB_CAP_WRITE_ARTIFACTS : Z := 2.
Definition QRX_JOB_CAP_STREAM_OUTPUT : Z := 4.
Definition QRX_JOB_CAP_SANDBOX_EXEC : Z := 16.
Definition QRX_JOB_CAP_ALLOWED_V1 : Z := 31.
Definition QRX_JOB_CODE_EXECUTION : Z := 3.
Definition QRX_JOB_DOCUMENT_GENERATION : Z := 4.
Definition QRX_JOB_DATA_ANALYSIS : Z := 5.
Definition QRX_JOB_IMAGE_GENERATION : Z := 6.
Definition QRX_JOB_COMPILE : Z := 7.
Definition QRX_JOB_TEST : Z := 8.
Definition QRX_JOB_CONVERSION : Z := 9.
Definition QRX_JOB_CUSTOM_SANDBOXED : Z := 11.

(** No control characters or blanks in a reference. *)
Definition qrx_job_ref_valid (s : bytes) (n : nat) : bool :=
  nonempty s n && forallb (fun c => negb (bool_decide (byte.unsigned c <= 0x20)) && negb (bool_decide (byte.unsigned c = 0x7f))) (cstr s).
Definition qrx_compute_job_type_name (t : Z) : bytes :=
  if decide (t = QRX_JOB_AI_INFERENCE) then cs "AI_INFERENCE" else if decide (t = QRX_JOB_CODE_GENERATION) then cs "CODE_GENERATION"
  else if decide (t = QRX_JOB_CODE_EXECUTION) then cs "CODE_EXECUTION" else if decide (t = QRX_JOB_DOCUMENT_GENERATION) then cs "DOCUMENT_GENERATION"
  else if decide (t = QRX_JOB_DATA_ANALYSIS) then cs "DATA_ANALYSIS" else if decide (t = QRX_JOB_IMAGE_GENERATION) then cs "IMAGE_GENERATION"
  else if decide (t = QRX_JOB_COMPILE) then cs "COMPILE" else if decide (t = QRX_JOB_TEST) then cs "TEST"
  else if decide (t = QRX_JOB_CONVERSION) then cs "CONVERSION" else if decide (t = QRX_JOB_RESEARCH) then cs "RESEARCH"
  else if decide (t = QRX_JOB_CUSTOM_SANDBOXED) then cs "CUSTOM_SANDBOXED" else cs "UNKNOWN".

Definition qrx_compute_job_node_validate (n : QrxComputeJobNode) : Z :=
  let t := n_job_type n in
  if decide (n_node_id n = 0) then -1
  else if decide (t < QRX_JOB_AI_INFERENCE \/ t > QRX_JOB_CUSTOM_SANDBOXED) then -1
  else if negb (nonempty (n_runtime_id n) QRX_COMPUTE_JOB_MAX_RUNTIME) then -1
  else if negb (qrx_job_ref_valid (n_input_ref n) QRX_COMPUTE_JOB_MAX_REF) || negb (qrx_job_ref_valid (n_output_ref n) QRX_COMPUTE_JOB_MAX_REF) then -1
  else if decide (n_max_runtime_ms n = 0 \/ n_max_output_bytes n = 0 \/ n_max_fee_atoms n = 0) then -1
  else if decide (Z.ldiff (n_capability_mask n) QRX_JOB_CAP_ALLOWED_V1 <> 0) then -1
  else if negb (has (n_capability_mask n) QRX_JOB_CAP_READ_INPUTS) then -1
  else if bool_decide (t = QRX_JOB_CODE_EXECUTION \/ t = QRX_JOB_COMPILE \/ t = QRX_JOB_TEST \/ t = QRX_JOB_CUSTOM_SANDBOXED) &&
          negb (has (n_capability_mask n) QRX_JOB_CAP_SANDBOX_EXEC) then -1
  else if bool_decide (t = QRX_JOB_AI_INFERENCE \/ t = QRX_JOB_CODE_GENERATION \/ t = QRX_JOB_IMAGE_GENERATION \/ t = QRX_JOB_RESEARCH) then
    if negb (nonempty (n_model_id n) QRX_COMPUTE_JOB_MAX_MODEL_ID) || negb (nonempty (n_model_version n) QRX_COMPUTE_JOB_MAX_MODEL_VERSION) then -1
    else if negb (has (n_capability_mask n) QRX_JOB_CAP_MODEL_INFERENCE) then -1
    else 0
  else 0.

(** ** Graphs *)

Record QrxComputeJobEdge := mkEdge { e_from_node : Z; e_to_node : Z }.
#[export] Instance edge_eq_dec : EqDecision QrxComputeJobEdge.
Proof. solve_decision. Defined.
(** The nodes and the edges in use. *)
Record QrxComputeJobGraph := mkGraph {
  g_protocol_version : Z; g_graph_id : bytes; g_owner : bytes; g_nonce : Z; g_max_total_fee_atoms : Z; g_expiry_height : Z;
  g_nodes : list QrxComputeJobNode; g_edges : list QrxComputeJobEdge
}.

Definition ids (g : QrxComputeJobGraph) : list Z := n_node_id <$> g_nodes g.
(** The scan keeps the last index that matches, or stops at the first. *)
Definition last_index (l : list Z) (x : Z) : option nat :=
  foldl (fun r i => if decide (l !! i = Some x) then Some i else r) None (seq 0 (length l)).
Definition first_index (l : list Z) (x : Z) : option nat := fst <$> list_find (fun y => y = x) l.

(** The number of edges into every node, or [None] for an edge to itself or to nowhere. *)
Definition indegree_step (l : list Z) (acc : option (list Z)) (e : QrxComputeJobEdge) : option (list Z) :=
  indeg ← acc;
  if decide (e_from_node e = e_to_node e) then None
  else match last_index l (e_from_node e), last_index l (e_to_node e) with
       | Some _, Some ti => Some (alter (fun d => u32 (d + 1)) ti indeg)
       | _, _ => None
       end.
(** The smallest identifier among the nodes that are left and have no edges in. *)
Definition best_step (l : list Z) (used : list bool) (indeg : list Z) (best : option nat) (i : nat) : option nat :=
  if decide (used !! i = Some false /\ indeg !! i = Some 0) then
    match best with
    | None => Some i
    | Some b => if decide (l !!! i < l !!! b) then Some i else best
    end
  else best.
Definition release_step (l : list Z) (id : Z) (acc : option (list Z)) (e : QrxComputeJobEdge) : option (list Z) :=
  indeg ← acc;
  if decide (e_from_node e = id) then
    match first_index l (e_to_node e) with
    | Some j => if decide (indeg !! j = Some 0) then None else Some (alter (fun d => u32 (d - 1)) j indeg)
    | None => Some indeg
    end
  else Some indeg.
(** The identifiers in order, or the code of the error. *)
Fixpoint order_loop (positions : nat) (l : list Z) (edges : list QrxComputeJobEdge) (used : list bool) (indeg order : list Z) : Z + list Z :=
  match positions with
  | O => inr order
  | S positions =>
      match foldl (best_step l used indeg) None (seq 0 (length l)) with
      | None => inl (-3)
      | Some best =>
          match foldl (release_step l (l !!! best)) (Some indeg) edges with
          | None => inl (-2)
          | Some indeg => order_loop positions l edges (<[best := true]> used) indeg (order ++ [l !!! best])
          end
      end
  end.
Definition qrx_compute_job_graph_topological_order (g : QrxComputeJobGraph) : Z + list Z :=
  let l := ids g in
  let n := length l in
  if decide (n = 0%nat \/ Z.of_nat n > QRX_COMPUTE_JOB_MAX_NODES \/ blen (g_edges g) > QRX_COMPUTE_JOB_MAX_EDGES) then inl (-1)
  else match foldl (indegree_step l) (Some (replicate n 0)) (g_edges g) with
       | None => inl (-2)
       | Some indeg => order_loop n l (g_edges g) (replicate n false) indeg []
       end.

(** The sum of the fees so far and the identifiers seen. *)
Definition node_step (acc : option (Z * list Z)) (n : QrxComputeJobNode) : option (Z * list Z) :=
  '(fees, seen) ← acc;
  if decide (qrx_compute_job_node_validate n <> 0) then None
  else if decide (n_node_id n ∈ seen) then None
  else if decide (UINT64_MAX - fees < n_max_fee_atoms n) then None
  else Some (fees + n_max_fee_atoms n, seen ++ [n_node_id n]).
Definition edge_step (acc : option (list QrxComputeJobEdge)) (e : QrxComputeJobEdge) : option (list QrxComputeJobEdge) :=
  seen ← acc; if decide (e ∈ seen) then None else Some (seen ++ [e]).
Definition qrx_compute_job_graph_validate (g : QrxComputeJobGraph) : Z :=
  if decide (g_protocol_version g <> QRX_COMPUTE_JOB_PROTOCOL_VERSION) then -1
  else if negb (nonempty (g_graph_id g) 129) || negb (nonempty (g_owner g) 160) then -1
  else if decide (g_nonce g = 0 \/ g_max_total_fee_atoms g = 0 \/ g_expiry_height g = 0) then -1
  else if decide (g_nodes g = [] \/ blen (g_nodes g) > QRX_COMPUTE_JOB_MAX_NODES \/ blen (g_edges g) > QRX_COMPUTE_JOB_MAX_EDGES) then -1
  else match foldl node_step (Some (0, [])) (g_nodes g) with
       | None => -1
       | Some (fees, _) =>
           if decide (fees > g_max_total_fee_atoms g) then -1
           else match foldl edge_step (Some []) (g_edges g) with
                | None => -1
                | Some _ => match qrx_compute_job_graph_topological_order g with inr _ => 0 | inl _ => -1 end
                end
       end.

(** ** The commitment of a graph *)

(** The sort of the indices: every later entry that is smaller changes places
    with the one at hand. *)
Section exchange.
Context {A : Type} (lt : A -> A -> bool).
Fixpoint exchange_pass (x : A) (rest : list A) : A * list A :=
  match rest with
  | [] => (x, [])
  | y :: rest =>
      if lt y x then let '(m, rest) := exchange_pass y rest in (m, x :: rest)
      else let '(m, rest) := exchange_pass x rest in (m, y :: rest)
  end.
Fixpoint exchange_sort (fuel : nat) (l : list A) : list A :=
  match fuel, l with
  | S fuel, x :: rest => let '(m, rest) := exchange_pass x rest in m :: exchange_sort fuel rest
  | _, _ => l
  end.
End exchange.

Definition node_lt (a b : QrxComputeJobNode) : bool := bool_decide (n_node_id a < n_node_id b).
Definition edge_lt (b a : QrxComputeJobEdge) : bool :=
  bool_decide (e_from_node b < e_from_node a \/ (e_from_node b = e_from_node a /\ e_to_node b < e_to_node a)).
Definition node_digest (n : QrxComputeJobNode) : bytes :=
  qrx_job_digest_u32 (n_node_id n) ++ qrx_job_digest_u32 (n_job_type n) ++ qrx_digest_field (cstr (n_runtime_id n)) ++ qrx_digest_field (cstr (n_model_id n)) ++
  qrx_digest_field (cstr (n_model_version n)) ++ qrx_digest_field (cstr (n_input_ref n)) ++ qrx_digest_field (cstr (n_output_ref n)) ++
  qrx_job_digest_u64 (n_min_memory_bytes n) ++ qrx_job_digest_u64 (n_max_runtime_ms n) ++ qrx_job_digest_u64 (n_max_output_bytes n) ++
  qrx_job_digest_u64 (n_max_fee_atoms n) ++ qrx_job_digest_u32 (n_capability_mask n).
Definition edge_digest (e : QrxComputeJobEdge) : bytes := qrx_job_digest_u32 (e_from_node e) ++ qrx_job_digest_u32 (e_to_node e).
Definition graph_preimage (g : QrxComputeJobGraph) : bytes :=
  cs "QRX-COMPUTE-JOB-GRAPH-V1" ++ qrx_digest_field (cstr (g_graph_id g)) ++ qrx_digest_field (cstr (g_owner g)) ++ qrx_job_digest_u64 (g_nonce g) ++
  qrx_job_digest_u64 (g_max_total_fee_atoms g) ++ qrx_job_digest_u64 (g_expiry_height g) ++ qrx_job_digest_u32 (blen (g_nodes g)) ++ qrx_job_digest_u32 (blen (g_edges g)) ++
  concat (node_digest <$> exchange_sort node_lt (length (g_nodes g)) (g_nodes g)) ++
  concat (edge_digest <$> exchange_sort edge_lt (length (g_edges g)) (g_edges g)).

Section sha.
Variable sha3_256 : bytes -> bytes.
Definition qrx_ai_model_commitment (m : QrxAiModelRecord) : option bytes :=
  if decide (qrx_ai_model_validate m <> 0) then None else Some (hex (sha3_256 (model_preimage m))).
Definition qrx_compute_job_graph_commitment (g : QrxComputeJobGraph) : option bytes :=
  if decide (qrx_compute_job_graph_validate g <> 0) then None else Some (hex (sha3_256 (graph_preimage g))).
End sha.
