(* ===== verification/ComputeOrder.v ===== *)
(** * Compute: the order of execution
      (src/qrx-core/src/compute/qrx_compute.c: qrx_compute_job_graph_topological_order)

    The scan over bounded arrays computes the least order of execution: every
    edge leads forward, and at the first place where another such order
    differs it has the larger identifier.  When there is no order of execution
    it says so. *)

From stdpp Require Import gmap.
From S2P Require Import Prelude Format Aura AuraFacts AuraRoute Compute.

(** An order of execution: every job once, and every edge forward. *)
Definition topo_order (g : QrxComputeJobGraph) (o : list Z) : Prop :=
  o ≡ₚ ids g /\
  forall e, e ∈ g_edges g -> exists i j, (i < j)%nat /\ o !! i = Some (e_from_node e) /\ o !! j = Some (e_to_node e).

(** ** Scans *)

Lemma last_index_spec l x : match last_index l x with Some i => l !! i = Some x | None => x ∉ l end.
Proof.
  unfold last_index.
  assert (forall k, match foldl (fun r i => if decide (l !! i = Some x) then Some i else r) None (seq 0 k) with
                    | Some i => l !! i = Some x | None => forall j, (j < k)%nat -> l !! j <> Some x end) as H.
  { induction k as [|k IH]; [cbn; lia|]. rewrite seq_S, foldl_snoc. cbn [Nat.add]. destruct (decide (l !! k = Some x)) as [|Hk]; [done|].
    destruct (foldl _ _ _); [done|]. intros j Hj. destruct (decide (j = k)) as [->|]; [done|]. apply IH. lia. }
  specialize (H (length l)). destruct (foldl _ _ _); [done|]. intros [j Hj]%list_elem_of_lookup.
  apply (H j); [by eapply lookup_lt_Some|done].
Qed.

Lemma first_index_spec l x : match first_index l x with Some i => l !! i = Some x | None => x ∉ l end.
Proof.
  unfold first_index. destruct (list_find _ l) as [[i y]|] eqn:E; cbn.
  - by apply list_find_Some in E as (? & -> & _).
  - apply list_find_None in E. intros Hx. by eapply Forall_forall in E.
Qed.

Definition candidate (used : list bool) (indeg : list Z) (i : nat) : Prop := used !! i = Some false /\ indeg !! i = Some 0.

Lemma best_spec l used indeg n :
  match foldl (best_step l used indeg) None (seq 0 n) with
  | Some b => (b < n)%nat /\ candidate used indeg b /\ forall i, (i < n)%nat -> candidate used indeg i -> l !!! b <= l !!! i
  | None => forall i, (i < n)%nat -> ~ candidate used indeg i
  end.
Proof.
  induction n as [|n IH]; [cbn; lia|]. rewrite seq_S, foldl_snoc. cbn [Nat.add]. unfold best_step at 1.
  destruct (decide (used !! n = Some false /\ indeg !! n = Some 0)) as [Hc|Hc].
  - destruct (foldl _ _ _) as [b|].
    + destruct IH as (Hb & Hcb & Hmin). destruct (decide (l !!! n < l !!! b)).
      * split; [lia|split; [done|]]. intros i Hi Hci. destruct (decide (i = n)) as [->|]; [done|]. specialize (Hmin i ltac:(lia) Hci). lia.
      * split; [lia|split; [done|]]. intros i Hi Hci. destruct (decide (i = n)) as [->|]; [lia|]. apply Hmin; [lia|done].
    + split; [lia|split; [done|]]. intros i Hi Hci. destruct (decide (i = n)) as [->|]; [done|]. by destruct (IH i ltac:(lia)).
  - destruct (foldl _ _ _) as [b|].
    + destruct IH as (Hb & Hcb & Hmin). split; [lia|split; [done|]]. intros i Hi Hci.
      destruct (decide (i = n)) as [->|]; [done|]. apply Hmin; [lia|done].
    + intros i Hi Hci. destruct (decide (i = n)) as [->|]; [done|]. by apply (IH i ltac:(lia)).
Qed.

Section graph.
Variable l : list Z.
Hypothesis Hnodup : NoDup l.

(** The number of edges of a kind. *)
Definition count (P : QrxComputeJobEdge -> Prop) `{!forall e, Decision (P e)} (es : list QrxComputeJobEdge) : Z := blen (filter P es).

Lemma count_cons P `{!forall e, Decision (P e)} e es : count P (e :: es) = (if decide (P e) then 1 else 0) + count P es.
Proof. unfold count. rewrite filter_cons. destruct (decide (P e)); [apply blen_cons|lia]. Qed.
Lemma count_app P `{!forall e, Decision (P e)} es fs : count P (es ++ fs) = count P es + count P fs.
Proof. unfold count. by rewrite filter_app, blen_app. Qed.
Lemma count_range P `{!forall e, Decision (P e)} es : 0 <= count P es <= blen es.
Proof. unfold count, blen. pose proof (length_filter P es). lia. Qed.

Definition edge_ok (e : QrxComputeJobEdge) : Prop := e_from_node e <> e_to_node e /\ e_from_node e ∈ l /\ e_to_node e ∈ l.
(** The counters of the nodes. *)
Definition counters (c : Z -> Z) (d : list Z) : Prop := length d = length l /\ forall i x, l !! i = Some x -> d !! i = Some (c x).

Lemma counters_alter c d i x f : counters c d -> l !! i = Some x ->
  counters (fun y => if decide (y = x) then f (c y) else c y) (alter f i d).
Proof using Hnodup.
  intros [Hl Hc] Hi. split; [by rewrite length_alter|]. intros j y Hj. destruct (decide (i = j)) as [<-|Hne].
  - assert (y = x) as -> by congruence. rewrite list_lookup_alter_eq, (Hc i x Hi), decide_True by done. done.
  - rewrite list_lookup_alter_ne, (Hc j y Hj) by done. rewrite decide_False; [done|]. intros ->. apply Hne. by eapply NoDup_lookup.
Qed.

Lemma indegree_spec es : blen es <= 256 ->
  match foldl (indegree_step l) (Some (replicate (length l) 0)) es with
  | Some d => Forall edge_ok es /\ counters (fun x => count (fun e => e_to_node e = x) es) d
  | None => ~ Forall edge_ok es
  end.
Proof using Hnodup.
  induction es as [|e es IH] using rev_ind; intros Hlen.
  - cbn. split; [done|]. split; [apply length_replicate|]. intros i x Hi. apply lookup_replicate_2. by eapply lookup_lt_Some.
  - rewrite blen_app in Hlen. rewrite blen_cons, blen_nil in Hlen. rewrite foldl_snoc. unfold indegree_step at 1. specialize (IH ltac:(lia)).
    destruct (foldl _ _ es) as [d|]; cbn [mbind option_bind]; [|rewrite Forall_app; tauto]. destruct IH as [Hok Hc].
    assert (Forall edge_ok (es ++ [e]) <-> edge_ok e) as Hall by (rewrite Forall_app, Forall_singleton; tauto). unfold edge_ok at 2 in Hall.
    destruct (decide (e_from_node e = e_to_node e)) as [|Hne]; [tauto|].
    pose proof (last_index_spec l (e_from_node e)) as Hf. pose proof (last_index_spec l (e_to_node e)) as Ht.
    destruct (last_index l (e_from_node e)) as [fi|]; [|tauto]. destruct (last_index l (e_to_node e)) as [ti|]; [|tauto].
    split; [apply Hall; split; [done|split; by eapply list_elem_of_lookup_2]|].
    destruct (counters_alter _ d ti _ (fun v => u32 (v + 1)) Hc Ht) as [H1 H2]. split; [done|]. intros i x Hi. rewrite (H2 i x Hi). f_equal.
    rewrite count_app, count_cons. change (count _ []) with 0. pose proof (count_range (fun e => e_to_node e = x) es) as Hr.
    destruct (decide (x = e_to_node e)) as [->|].
    + rewrite decide_True by done. rewrite u32_small by word. lia.
    + rewrite decide_False by congruence. lia.
Qed.

Definition released (id x : Z) (e : QrxComputeJobEdge) : Prop := e_from_node e = id /\ e_to_node e = x.
#[local] Instance released_dec id x e : Decision (released id x e).
Proof. unfold released. apply _. Defined.

Lemma release_spec id es c d : counters c d -> (forall e, e ∈ es -> e_to_node e ∈ l) ->
  (forall x, count (released id x) es <= c x < 2 ^ 32) ->
  exists d', foldl (release_step l id) (Some d) es = Some d' /\ counters (fun x => c x - count (released id x) es) d'.
Proof using Hnodup.
  revert c d. induction es as [|e es IH]; intros c d Hd Hin Hc.
  - exists d. split; [done|]. destruct Hd as [H1 H2]. split; [done|]. intros i x Hi. rewrite (H2 i x Hi). f_equal. change (count _ []) with 0. lia.
  - cbn [foldl]. unfold release_step at 2. cbn [mbind option_bind].
    destruct (decide (e_from_node e = id)) as [He|He].
    + pose proof (first_index_spec l (e_to_node e)) as Ht. destruct (first_index l (e_to_node e)) as [j|].
      2:{ destruct Ht. apply Hin. apply list_elem_of_here. }
      assert (1 <= c (e_to_node e)) as Hpos.
      { specialize (Hc (e_to_node e)). rewrite count_cons, decide_True in Hc by done. pose proof (count_range (released id (e_to_node e)) es). lia. }
      rewrite decide_False by (rewrite (proj2 Hd j _ Ht); intros [=]; lia).
      destruct (IH _ _ (counters_alter c d j _ (fun v => u32 (v - 1)) Hd Ht)) as (d' & Hf & Hd').
      * intros e' He'. apply Hin. by apply list_elem_of_further.
      * intros x. specialize (Hc x). rewrite count_cons in Hc. destruct (decide (x = e_to_node e)) as [->|Hx].
        -- rewrite decide_True in Hc by done. rewrite u32_small by word. lia.
        -- rewrite decide_False in Hc by (intros [_ ?]; congruence). lia.
      * exists d'. split; [done|]. destruct Hd' as [H1 H2]. split; [done|]. intros i x Hi. rewrite (H2 i x Hi). f_equal. rewrite count_cons.
        specialize (Hc x). destruct (decide (x = e_to_node e)) as [->|Hx].
        -- rewrite (decide_True (P := released _ _ _)) by done. rewrite u32_small by word. lia.
        -- rewrite decide_False by (intros [_ ?]; congruence). lia.
    + destruct (IH c d Hd) as (d' & Hf & Hd').
      * intros e' He'. apply Hin. by apply list_elem_of_further.
      * intros x. specialize (Hc x). rewrite count_cons, decide_False in Hc by (intros [? _]; congruence). lia.
      * exists d'. split; [done|]. destruct Hd' as [H1 H2]. split; [done|]. intros i x Hi. rewrite (H2 i x Hi). f_equal.
        rewrite count_cons, decide_False by (intros [? _]; congruence). lia.
Qed.

(** ** The loop *)

Variable es : list QrxComputeJobEdge.
Hypothesis Hes : Forall edge_ok es.
Hypothesis Hlen : blen es <= 256.

(** The edges from jobs that have not run. *)
Definition waiting (ran : list Z) (x : Z) (e : QrxComputeJobEdge) : Prop := e_to_node e = x /\ e_from_node e ∉ ran.
#[local] Instance waiting_dec ran x e : Decision (waiting ran x e).
Proof. unfold waiting. apply _. Defined.
Definition ready (ran : list Z) (x : Z) : Prop := forall e, e ∈ es -> e_to_node e = x -> e_from_node e ∈ ran.

Lemma waiting_zero ran x : count (waiting ran x) es = 0 <-> ready ran x.
Proof.
  unfold count, blen, ready. split.
  - intros H e He Ht. destruct (decide (e_from_node e ∈ ran)) as [|Hn]; [done|].
    assert (e ∈ filter (waiting ran x) es) as Hin by (by apply list_elem_of_filter). destruct (filter _ es); [by apply not_elem_of_nil in Hin|done].
  - intros H. assert (filter (waiting ran x) es = []) as ->; [|done].
    destruct (filter (waiting ran x) es) as [|e k] eqn:E; [done|]. assert (e ∈ filter (waiting ran x) es) as [[Ht Hn] He]%list_elem_of_filter
      by (rewrite E; apply list_elem_of_here). by destruct Hn; apply H.
Qed.

Lemma waiting_snoc ran id x : id ∉ ran -> count (waiting (ran ++ [id]) x) es = count (waiting ran x) es - count (released id x) es.
Proof.
  intros Hid. clear Hes Hlen. induction es as [|e k IH]; [done|]. rewrite !count_cons, IH. unfold waiting, released.
  destruct (decide (e_to_node e = x)) as [Ht|Ht].
  - destruct (decide (e_from_node e = id)) as [Hf|Hf].
    + rewrite (decide_True (P := _ /\ e_to_node e = x)) by done. rewrite decide_False by (rewrite elem_of_app, list_elem_of_singleton; tauto).
      rewrite decide_True by (by rewrite Hf). lia.
    + rewrite (decide_False (P := _ /\ e_to_node e = x)) by tauto. destruct (decide (e_from_node e ∈ ran)).
      * rewrite !decide_False by (rewrite ?elem_of_app; tauto). lia.
      * rewrite !decide_True by (rewrite ?elem_of_app, ?list_elem_of_singleton; tauto). lia.
  - rewrite !decide_False by tauto. lia.
Qed.

(** Every job of the order was ready, and no smaller one was. *)
Definition greedy (o : list Z) : Prop := forall k y, o !! k = Some y ->
  ready (take k o) y /\ forall z, z ∈ l -> z ∉ take k o -> ready (take k o) z -> y <= z.
(** Jobs are left, and none of them is ready. *)
Definition stuck (o : list Z) : Prop := (exists x, x ∈ l /\ x ∉ o) /\ forall x, x ∈ l -> x ∉ o -> ~ ready o x.

Record loop_inv (o : list Z) (used : list bool) (indeg : list Z) : Prop := {
  li_nodup : NoDup o;
  li_in : forall x, x ∈ o -> x ∈ l;
  li_used : length used = length l /\ forall i x, l !! i = Some x -> used !! i = Some (bool_decide (x ∈ o));
  li_indeg : counters (fun x => count (waiting o x) es) indeg;
  li_greedy : greedy o
}.

Lemma candidate_ready o used indeg i x : loop_inv o used indeg -> l !! i = Some x -> candidate used indeg i <-> x ∉ o /\ ready o x.
Proof.
  intros [_ _ [_ Hu] [_ Hi] _] Hx. unfold candidate. rewrite (Hu i x Hx), (Hi i x Hx), <- waiting_zero.
  split.
  - intros [Ho Hw]. injection Ho as Ho. injection Hw as Hw. by apply bool_decide_eq_false in Ho.
  - intros [? ->]. by rewrite bool_decide_false.
Qed.

Lemma greedy_snoc o x : greedy o -> x ∉ o -> ready o x -> (forall z, z ∈ l -> z ∉ o -> ready o z -> x <= z) -> greedy (o ++ [x]).
Proof.
  intros Hg Hx Hr Hm k y Hk. apply lookup_app_Some in Hk as [Hk|[Hge Hk]].
  - rewrite take_app_le by (apply lookup_lt_Some in Hk; lia). by apply Hg.
  - apply list_lookup_singleton_Some in Hk as [Hz <-]. assert (k = length o) as -> by lia. by rewrite take_app_length.
Qed.

Lemma loop_step o used indeg b d : loop_inv o used indeg -> (b < length l)%nat -> candidate used indeg b ->
  (forall i, (i < length l)%nat -> candidate used indeg i -> l !!! b <= l !!! i) ->
  counters (fun x => count (waiting o x) es - count (released (l !!! b) x) es) d ->
  loop_inv (o ++ [l !!! b]) (<[b := true]> used) d /\ l !!! b ∉ o.
Proof using Hnodup.
  intros Hinv Hb Hc Hmin Hd. destruct (lookup_lt_is_Some_2 l b Hb) as [x Hx]. rewrite (list_lookup_total_correct l b x Hx) in *.
  pose proof (proj1 (candidate_ready o used indeg b x Hinv Hx) Hc) as [Hnx Hrx]. split; [|done].
  pose proof Hinv as [Hn Hin [Hul Hu] Hi Hg]. split.
  - apply NoDup_app. split; [done|]. split; [|apply NoDup_singleton]. intros y Hy ->%list_elem_of_singleton. done.
  - intros y [Hy| ->%list_elem_of_singleton]%elem_of_app; [by apply Hin|by eapply list_elem_of_lookup_2].
  - split; [by rewrite length_insert|]. intros i y Hy. destruct (decide (b = i)) as [<-|Hne].
    + rewrite list_lookup_insert_eq by lia. assert (y = x) as -> by congruence.
      by rewrite bool_decide_true by (apply elem_of_app; right; by apply list_elem_of_singleton).
    + rewrite list_lookup_insert_ne, (Hu i y Hy) by done. f_equal. apply bool_decide_ext. rewrite elem_of_app, list_elem_of_singleton.
      split; [tauto|]. intros [| ->]; [done|]. destruct Hne. exact (NoDup_lookup l b i x Hnodup Hx Hy).
  - destruct Hd as [H1 H2]. split; [done|]. intros i y Hy. rewrite (H2 i y Hy). f_equal. symmetry. by apply waiting_snoc.
  - apply greedy_snoc; [done..|]. intros z Hz Hnz Hrz. apply list_elem_of_lookup in Hz as [i Hz].
    specialize (Hmin i ltac:(by eapply lookup_lt_Some)). rewrite (list_lookup_total_correct l i z Hz) in Hmin. apply Hmin.
    by apply (candidate_ready o used indeg i z Hinv Hz).
Qed.

Lemma order_loop_spec positions o used indeg : loop_inv o used indeg -> (positions + length o = length l)%nat ->
  match order_loop positions l es used indeg o with
  | inr o' => o' ≡ₚ l /\ greedy o'
  | inl c => c = -3 /\ exists o', stuck o'
  end.
Proof using Hes Hlen Hnodup.
  revert o used indeg. induction positions as [|positions IH]; intros o used indeg Hinv Hn; cbn [order_loop].
  - destruct Hinv as [Hnd Hin _ _ Hg]. split; [|done]. apply submseteq_length_Permutation; [|lia].
    apply NoDup_submseteq; [done|]. intros x. apply Hin.
  - pose proof (best_spec l used indeg (length l)) as Hb. destruct (foldl (best_step _ _ _) _ _) as [b|].
    + destruct Hb as (Hb & Hc & Hmin).
      destruct (release_spec (l !!! b) es _ indeg (li_indeg _ _ _ Hinv)) as (d & -> & Hd).
      * intros e He. by eapply Forall_forall in Hes as (_ & _ & ?).
      * intros x. pose proof (count_range (waiting o x) es) as Hr. split; [|lia].
        destruct (lookup_lt_is_Some_2 l b Hb) as [y Hy]. rewrite (list_lookup_total_correct l b y Hy).
        pose proof (proj1 (candidate_ready o used indeg b y Hinv Hy) Hc) as [Hny _].
        pose proof (waiting_snoc o y x Hny). pose proof (count_range (waiting (o ++ [y]) x) es). lia.
      * destruct (loop_step o used indeg b d Hinv Hb Hc Hmin Hd) as [Hinv' _]. apply IH; [done|]. rewrite length_app. cbn. lia.
    + split; [done|]. exists o. split.
      * destruct (decide (Forall (fun x => x ∈ o) l)) as [Hall|Hall].
        -- rewrite Forall_forall in Hall. pose proof (submseteq_length _ _ (NoDup_submseteq l o Hnodup Hall)). lia.
        -- apply not_Forall_Exists in Hall; [|intros x; apply _]. by apply Exists_exists in Hall.
      * intros x Hx Hnx Hr. apply list_elem_of_lookup in Hx as [i Hx]. apply (Hb i); [by eapply lookup_lt_Some|].
        by apply (candidate_ready o used indeg i x Hinv Hx).
Qed.

Lemma loop_start d : counters (fun x => count (fun e => e_to_node e = x) es) d -> loop_inv [] (replicate (length l) false) d.
Proof using Type.
  clear Hnodup Hlen Hes.
  intros [H1 H2]. split; [apply NoDup_nil_2|by intros x ?%not_elem_of_nil| | |by intros k y ?].
  - split; [apply length_replicate|]. intros i x Hi. rewrite bool_decide_false by apply not_elem_of_nil.
    apply lookup_replicate_2. by eapply lookup_lt_Some.
  - split; [done|]. intros i x Hi. rewrite (H2 i x Hi). f_equal. unfold count. f_equal. apply list_filter_iff. intros e. unfold waiting. set_solver.
Qed.

End graph.

(** ** Orders of execution *)

Section orders.
Variable g : QrxComputeJobGraph.
Hypothesis Hnodup : NoDup (ids g).
Abbreviation l := (ids g).
Abbreviation es := (g_edges g).

Lemma topo_nodup o : topo_order g o -> NoDup o.
Proof using Hnodup. intros [Hp _]. by rewrite Hp. Qed.

Lemma topo_edges_ok o : topo_order g o -> Forall (edge_ok l) es.
Proof using Hnodup.
  intros Ht. pose proof (topo_nodup o Ht) as Hn. destruct Ht as [Hp He]. apply Forall_forall. intros e Hin. destruct (He e Hin) as (i & j & Hij & Hi & Hj).
  split; [|rewrite <- Hp; split; by eapply list_elem_of_lookup_2].
  intros Heq. rewrite Heq in Hi. pose proof (NoDup_lookup o i j _ Hn Hi Hj). lia.
Qed.

(** The jobs before a job of an order of execution are all it waits for. *)
Lemma topo_ready o k y : topo_order g o -> o !! k = Some y -> ready es (take k o) y.
Proof using Hnodup.
  intros Ht Hk e He <-. pose proof (topo_nodup o Ht) as Hn. destruct Ht as [Hp Hf]. destruct (Hf e He) as (i & j & Hij & Hi & Hj).
  assert (j = k) as -> by (by eapply NoDup_lookup). apply elem_of_take. by exists i.
Qed.

Lemma topo_not_stuck o p : topo_order g o -> ~ stuck l es p.
Proof using Hnodup.
  intros Ht [(x & Hx & Hnx) Hs]. destruct (list_find (fun y => y ∉ p) o) as [[k y]|] eqn:E.
  - apply list_find_Some in E as (Hk & Hy & Hmin). apply (Hs y); [|done|].
    + destruct Ht as [Hp _]. rewrite <- Hp. by eapply list_elem_of_lookup_2.
    + intros e He Hey. pose proof (topo_ready o k y Ht Hk e He Hey) as Hin. apply elem_of_take in Hin as (i & Hi & Hlt).
      specialize (Hmin i _ Hi Hlt). destruct (decide (e_from_node e ∈ p)); [done|by destruct Hmin].
  - apply list_find_None in E. destruct Ht as [Hp _]. rewrite <- Hp in Hx. eapply Forall_forall in E; [|exact Hx]. by apply E.
Qed.

Lemma greedy_topo o : o ≡ₚ l -> Forall (edge_ok l) es -> greedy l es o -> topo_order g o.
Proof.
  intros Hp Hok Hg. split; [done|]. intros e He. pose proof (proj1 (Forall_forall _ _) Hok e He) as (_ & _ & Hin). rewrite <- Hp in Hin.
  apply list_elem_of_lookup in Hin as [j Hj]. destruct (Hg j _ Hj) as [Hr _]. specialize (Hr e He eq_refl).
  apply elem_of_take in Hr as (i & Hi & Hlt). by exists i, j.
Qed.

(** Where a list is lexicographically smaller. *)
Lemma lex_lt_split (a b : list Z) : lex_lt a b = true -> length a = length b ->
  exists k x y, take k a = take k b /\ a !! k = Some x /\ b !! k = Some y /\ x < y.
Proof.
  revert b. induction a as [|x a IH]; intros [|y b]; cbn; try done. intros Hlt [= Hl]. destruct (decide (x = y)) as [->|].
  - destruct (IH b Hlt Hl) as (k & u & v & H1 & H2 & H3 & H4). exists (S k), u, v. cbn. by rewrite H1.
  - apply bool_decide_eq_true in Hlt. by exists O, x, y.
Qed.

Lemma greedy_least o o' : o ≡ₚ l -> greedy l es o -> topo_order g o' -> lex_lt o' o = false.
Proof using Hnodup.
  intros Hp Hg Ht. destruct (lex_lt o' o) eqn:E; [|done]. pose proof (topo_nodup o' Ht) as Hn'.
  destruct (lex_lt_split o' o E) as (k & x & y & Htake & Hx & Hy & Hlt).
  { by rewrite (Permutation_length (proj1 Ht)), (Permutation_length Hp). }
  destruct (Hg k y Hy) as [_ Hm]. specialize (Hm x). rewrite <- Htake in Hm.
  assert (y <= x); [|lia]. apply Hm.
  - rewrite <- (proj1 Ht). by eapply list_elem_of_lookup_2.
  - intros (i & Hi & Hik)%elem_of_take. assert (i = k) by (by eapply NoDup_lookup). lia.
  - by apply topo_ready.
Qed.
End orders.

(** C28: the order that the code computes is the least order of execution: every
    job once, every edge forward, and no other such order is
    lexicographically smaller.  It fails with -2 or -3 only when there is no
    order of execution at all. *)
Theorem topological_order_spec g : NoDup (ids g) -> 0 < blen (g_nodes g) <= QRX_COMPUTE_JOB_MAX_NODES -> blen (g_edges g) <= QRX_COMPUTE_JOB_MAX_EDGES ->
  match qrx_compute_job_graph_topological_order g with
  | inr o => topo_order g o /\ forall o', topo_order g o' -> lex_lt o' o = false
  | inl c => (c = -2 \/ c = -3) /\ forall o, ~ topo_order g o
  end.
Proof.
  intros Hn Hl He. assert (Z.of_nat (length (ids g)) = blen (g_nodes g)) as Hlen by (unfold ids; by rewrite length_fmap).
  unfold qrx_compute_job_graph_topological_order. cbv zeta. rewrite decide_False by lia.
  pose proof (indegree_spec (ids g) Hn (g_edges g) He) as Hi. destruct (foldl (indegree_step _) _ _) as [d|].
  - destruct Hi as [Hok Hc].
    pose proof (order_loop_spec (ids g) Hn (g_edges g) Hok He (length (ids g)) [] _ _ (loop_start (ids g) (g_edges g) d Hc) ltac:(cbn; lia)) as Hloop.
    destruct (order_loop _ _ _ _ _ _) as [c|o].
    + destruct Hloop as [-> [p Hs]]. split; [by right|]. intros o Ho. by apply (topo_not_stuck g Hn o p).
    + destruct Hloop as [Hp Hg]. split; [by apply greedy_topo|]. intros o'. by apply greedy_least.
  - split; [by left|]. intros o Ho. apply Hi. by eapply topo_edges_ok.
Qed.
