(* ===== verification/ComputeGraph.v ===== *)
(** * Compute: what a graph's commitment commits to
      (src/qrx-core/src/compute/qrx_compute.c: qrx_compute_job_graph_validate,
      qrx_compute_job_graph_commitment)

    The validation as a proposition, which says nothing about the order of the
    nodes or the edges; the canonical form that the commitment hashes; and that
    a commitment determines the graph up to that order. *)

From stdpp Require Import gmap sorting.
From S2P Require Import Prelude Format Aura AuraFacts AuraRoute Compute ComputeOrder.

(** ** The exchange sort *)

Section sort.
Context {A : Type} (lt : A -> A -> bool).
Hypothesis lt_irrefl : forall a, lt a a = false.
Hypothesis lt_asym : forall a b, lt a b = true -> lt b a = false.
Hypothesis le_trans : forall a b c, lt b a = false -> lt c b = false -> lt c a = false.

Lemma exchange_pass_spec x l : let '(m, r) := exchange_pass lt x l in
  m :: r ≡ₚ x :: l /\ Forall (fun z => lt z m = false) r /\ lt x m = false.
Proof using lt_irrefl lt_asym le_trans.
  revert x. induction l as [|y l IH]; intros x; cbn [exchange_pass]; [by repeat split; auto|]. destruct (lt y x) eqn:E.
  - specialize (IH y). destruct (exchange_pass lt y l) as [m r]. destruct IH as (Hp & Hf & Hy). apply lt_asym in E.
    pose proof (le_trans m y x Hy E) as Hx. split; [by rewrite Permutation_swap, Hp|]. split; [by constructor|done].
  - specialize (IH x). destruct (exchange_pass lt x l) as [m r]. destruct IH as (Hp & Hf & Hx).
    split; [rewrite (Permutation_swap y m), Hp; apply Permutation_swap|]. split; [|done]. constructor; [|done]. by apply (le_trans m x y).
Qed.

Lemma exchange_sort_spec l : exchange_sort lt (length l) l ≡ₚ l /\ StronglySorted (fun a b => lt b a = false) (exchange_sort lt (length l) l).
Proof using lt_irrefl lt_asym le_trans.
  remember (length l) as n eqn:Hn. revert l Hn. induction n as [|n IH]; intros [|x l] Hn; cbn in Hn; try lia; cbn [exchange_sort]; [by split; [|constructor]|]. apply Nat.succ_inj in Hn.
  pose proof (exchange_pass_spec x l) as H. destruct (exchange_pass lt x l) as [m r]. destruct H as (Hp & Hf & _).
  assert (n = length r) as Hr by (pose proof (Permutation_length Hp) as E; cbn in E; lia).
  destruct (IH r Hr) as [Hp' Hs]. split; [by rewrite Hp'|]. constructor; [done|]. by rewrite Hp'.
Qed.

(** The order of the entries does not matter when no two have the same key. *)
Lemma exchange_sort_canonical l k : (forall a b, a ∈ l -> b ∈ l -> lt a b = false -> lt b a = false -> a = b) -> l ≡ₚ k ->
  exchange_sort lt (length l) l = exchange_sort lt (length k) k.
Proof using lt_irrefl lt_asym le_trans.
  intros Ha Hp. destruct (exchange_sort_spec l) as [Hl Sl], (exchange_sort_spec k) as [Hk Sk].
  apply (StronglySorted_unique_strong (fun a b => lt b a = false)); [|done|done|by rewrite Hl, Hk].
  intros a b Hx Hy Hab Hba. rewrite Hl in Hx. rewrite Hk, <- Hp in Hy. by apply Ha.
Qed.
End sort.

Lemma sort_nodes_spec l : exchange_sort node_lt (length l) l ≡ₚ l.
Proof. apply exchange_sort_spec; unfold node_lt; intros *; rewrite ?bool_decide_eq_true, ?bool_decide_eq_false; lia. Qed.
Lemma sort_edges_spec l : exchange_sort edge_lt (length l) l ≡ₚ l.
Proof. apply exchange_sort_spec; unfold edge_lt; intros *; rewrite ?bool_decide_eq_true, ?bool_decide_eq_false; lia. Qed.

Lemma sort_nodes_canonical l k : NoDup (n_node_id <$> l) -> l ≡ₚ k -> exchange_sort node_lt (length l) l = exchange_sort node_lt (length k) k.
Proof.
  intros Hn Hp. apply exchange_sort_canonical; try (unfold node_lt; intros *; rewrite ?bool_decide_eq_true, ?bool_decide_eq_false; lia); [|done].
  intros a b [i Hi]%list_elem_of_lookup [j Hj]%list_elem_of_lookup. unfold node_lt. rewrite !bool_decide_eq_false. intros H1 H2.
  assert (i = j) as ->; [|congruence]. apply (NoDup_lookup _ i j (n_node_id a) Hn); rewrite list_lookup_fmap, ?Hi, ?Hj; [done|]. cbn. f_equal. lia.
Qed.
Lemma sort_edges_canonical l k : l ≡ₚ k -> exchange_sort edge_lt (length l) l = exchange_sort edge_lt (length k) k.
Proof.
  intros Hp. apply exchange_sort_canonical; try (unfold edge_lt; intros *; rewrite ?bool_decide_eq_true, ?bool_decide_eq_false; lia); [|done].
  intros [a a'] [b b'] _ _. unfold edge_lt. rewrite !bool_decide_eq_false. cbn. intros H1 H2. f_equal; lia.
Qed.

(** ** Validation *)

Lemma zsum_perm l k : l ≡ₚ k -> zsum l = zsum k.
Proof. induction 1; rewrite ?zsum_cons; lia. Qed.

Definition fee_sum (l : list QrxComputeJobNode) : Z := zsum (n_max_fee_atoms <$> l).
Definition nodes_ok (l : list QrxComputeJobNode) : Prop :=
  Forall (fun n => qrx_compute_job_node_validate n = 0) l /\ NoDup (n_node_id <$> l) /\ fee_sum l <= UINT64_MAX.

Lemma fee_sum_snoc l n : fee_sum (l ++ [n]) = fee_sum l + n_max_fee_atoms n.
Proof. unfold fee_sum. rewrite fmap_app, zsum_app. cbn. lia. Qed.
Lemma nodup_snoc {B} (l : list B) x : NoDup (l ++ [x]) <-> NoDup l /\ x ∉ l.
Proof.
  rewrite NoDup_app. split.
  - intros (? & H & _). split; [done|]. intros Hx. by apply (H _ Hx), list_elem_of_singleton.
  - intros [? H]. split; [done|]. split; [|apply NoDup_singleton]. by intros y Hy ->%list_elem_of_singleton.
Qed.
Lemma nodes_ok_snoc l n : nodes_ok (l ++ [n]) <->
  Forall (fun n => qrx_compute_job_node_validate n = 0) l /\ qrx_compute_job_node_validate n = 0 /\ NoDup (n_node_id <$> l) /\
  n_node_id n ∉ n_node_id <$> l /\ fee_sum l + n_max_fee_atoms n <= UINT64_MAX.
Proof. unfold nodes_ok. rewrite Forall_app, Forall_singleton, fmap_app, fee_sum_snoc. cbn [fmap list_fmap]. rewrite nodup_snoc. tauto. Qed.

Lemma node_steps_spec l : Forall (fun n => 0 <= n_max_fee_atoms n) l ->
  match foldl node_step (Some (0, [])) l with
  | Some (fees, seen) => fees = fee_sum l /\ seen = n_node_id <$> l /\ nodes_ok l
  | None => ~ nodes_ok l
  end.
Proof.
  induction l as [|n l IH] using rev_ind; intros Hf.
  - cbn. unfold nodes_ok. repeat split; try done; constructor.
  - apply Forall_app in Hf as [Hf Hn]. rewrite Forall_singleton in Hn. specialize (IH Hf). rewrite foldl_snoc. unfold node_step at 1.
    rewrite fee_sum_snoc, fmap_app. change (n_node_id <$> [n]) with [n_node_id n]. pose proof (nodes_ok_snoc l n) as Hsn.
    destruct (foldl node_step _ l) as [[fees seen]|]; cbn [mbind option_bind].
    2:{ intros (? & _ & ? & _ & ?)%Hsn. apply IH. split; [done|]. split; [done|lia]. }
    destruct IH as (-> & -> & Hok & Hd & Hs).
    destruct (decide (qrx_compute_job_node_validate n <> 0)) as [|Hv]; [tauto|].
    destruct (decide (n_node_id n ∈ n_node_id <$> l)) as [|Hi]; [tauto|].
    destruct (decide (UINT64_MAX - fee_sum l < n_max_fee_atoms n)) as [|Hu]; [intros (? & ? & ? & ? & ?)%Hsn; lia|].
    split; [lia|]. split; [done|]. apply Hsn. split; [done|]. split; [lia|]. split; [done|]. split; [done|lia].
Qed.

Lemma edge_steps_spec es : foldl edge_step (Some []) es = if decide (NoDup es) then Some es else None.
Proof.
  induction es as [|e es IH] using rev_ind; [cbn; rewrite decide_True; [done|constructor]|]. rewrite foldl_snoc, IH. unfold edge_step.
  pose proof (nodup_snoc es e) as Hsn. destruct (decide (NoDup es)) as [Hn|Hn]; cbn [mbind option_bind]; [destruct (decide (e ∈ es)) as [He|He]|].
  - by rewrite decide_False by tauto.
  - by rewrite decide_True by tauto.
  - by rewrite decide_False by tauto.
Qed.

(** The ranges of the integers of a graph, and strings a machine can hold. *)
Record node_typed (n : QrxComputeJobNode) : Prop := {
  nt_id : in_u32 (n_node_id n); nt_type : in_u32 (n_job_type n); nt_mask : in_u32 (n_capability_mask n);
  nt_memory : in_u64 (n_min_memory_bytes n); nt_runtime : in_u64 (n_max_runtime_ms n); nt_output : in_u64 (n_max_output_bytes n);
  nt_fee : in_u64 (n_max_fee_atoms n);
  nt_strings : Forall (fun s => in_u64 (blen (cstr s))) [n_runtime_id n; n_model_id n; n_model_version n; n_input_ref n; n_output_ref n]
}.
Record graph_typed (g : QrxComputeJobGraph) : Prop := {
  gt_nonce : in_u64 (g_nonce g); gt_total : in_u64 (g_max_total_fee_atoms g); gt_expiry : in_u64 (g_expiry_height g);
  gt_strings : Forall (fun s => in_u64 (blen (cstr s))) [g_graph_id g; g_owner g];
  gt_nodes : Forall node_typed (g_nodes g);
  gt_edges : Forall (fun e => in_u32 (e_from_node e) /\ in_u32 (e_to_node e)) (g_edges g)
}.

(** What a valid graph is. *)
Definition graph_ok (g : QrxComputeJobGraph) : Prop :=
  (g_protocol_version g = QRX_COMPUTE_JOB_PROTOCOL_VERSION /\ nonempty (g_graph_id g) 129 = true /\ nonempty (g_owner g) 160 = true /\
   g_nonce g <> 0 /\ g_max_total_fee_atoms g <> 0 /\ g_expiry_height g <> 0) /\
  0 < blen (g_nodes g) <= QRX_COMPUTE_JOB_MAX_NODES /\ blen (g_edges g) <= QRX_COMPUTE_JOB_MAX_EDGES /\
  Forall (fun n => qrx_compute_job_node_validate n = 0) (g_nodes g) /\ NoDup (ids g) /\ fee_sum (g_nodes g) <= g_max_total_fee_atoms g /\
  NoDup (g_edges g) /\ exists o, topo_order g o.

Lemma graph_validate_iff g : graph_typed g -> qrx_compute_job_graph_validate g = 0 <-> graph_ok g.
Proof.
  intros [_ Ht _ _ Hn _]. unfold qrx_compute_job_graph_validate, graph_ok.
  assert (g_nodes g = [] <-> blen (g_nodes g) <= 0) as Hnil by (destruct (g_nodes g); rewrite ?blen_nil, ?blen_cons; split; try done; pose proof (blen_nonneg l); lia).
  pose proof (node_steps_spec (g_nodes g)) as Hs. rewrite edge_steps_spec.
  destruct (decide (g_protocol_version g <> _)) as [|]; [split; [lia|tauto]|].
  destruct (nonempty (g_graph_id g) 129), (nonempty (g_owner g) 160); cbn [negb orb]; try (by split; [|intros ((? & ? & ? & _) & _)]).
  destruct (decide (g_nonce g = 0 \/ _)) as [|]; [split; [lia|tauto]|].
  destruct (decide (g_nodes g = [] \/ _)) as [Hc|]; [split; [lia|]; intros (_ & ? & ? & _); destruct Hc as [?%Hnil|]; lia|].
  assert (~ blen (g_nodes g) <= 0) by tauto.
  assert (Forall (fun n => 0 <= n_max_fee_atoms n) (g_nodes g)) as Hpos by (eapply Forall_impl; [exact Hn|]; intros nd [? ? ? ? ? ? Hfee ?]; unfold in_u64 in Hfee; lia).
  specialize (Hs Hpos). unfold nodes_ok in Hs. destruct (foldl node_step _ _) as [[fees seen]|].
  - destruct Hs as (-> & _ & Hok & Hd & Hu). destruct (decide (fee_sum (g_nodes g) > _)); [split; [lia|]; intros (_ & _ & _ & _ & _ & ? & _); lia|].
    destruct (decide (NoDup (g_edges g))) as [He|He]; [|split; [lia|tauto]].
    pose proof (topological_order_spec g Hd ltac:(lia) ltac:(lia)) as Hto. destruct (qrx_compute_job_graph_topological_order g) as [c|o].
    + destruct Hto as [_ Hno]. split; [lia|]. intros (_ & _ & _ & _ & _ & _ & _ & o & Ho). by destruct (Hno o).
    + destruct Hto as [Ho _]. split; [|done]. intros _. repeat split; try done; try tauto; try lia. by exists o.
  - split; [lia|]. intros (_ & _ & _ & ? & ? & ? & _). destruct Hs. split; [done|]. split; [done|]. word.
Qed.

(** The same graph with its nodes and edges in another order. *)
Record graph_perm (g h : QrxComputeJobGraph) : Prop := {
  gp_version : g_protocol_version g = g_protocol_version h; gp_id : g_graph_id g = g_graph_id h; gp_owner : g_owner g = g_owner h;
  gp_nonce : g_nonce g = g_nonce h; gp_total : g_max_total_fee_atoms g = g_max_total_fee_atoms h; gp_expiry : g_expiry_height g = g_expiry_height h;
  gp_nodes : g_nodes g ≡ₚ g_nodes h; gp_edges : g_edges g ≡ₚ g_edges h
}.

Lemma topo_perm g h o : graph_perm g h -> topo_order g o -> topo_order h o.
Proof.
  intros [_ _ _ _ _ _ Hn He] [Hp Hf]. split; [rewrite Hp; unfold ids; by rewrite Hn|]. intros e Hin. apply Hf. by rewrite He.
Qed.

Lemma graph_ok_perm g h : graph_perm g h -> graph_ok g -> graph_ok h.
Proof.
  intros Hp (Hsc & Hl & Hm & Hv & Hi & Hf & He & o & Ho). pose proof (topo_perm g h o Hp Ho) as Ho'. destruct Hp as [E1 E2 E3 E4 E5 E6 Hn Hq].
  unfold graph_ok. rewrite <- E1, <- E2, <- E3, <- E4, <- E5, <- E6.
  assert (blen (g_nodes h) = blen (g_nodes g)) as -> by (unfold blen; by rewrite Hn). assert (blen (g_edges h) = blen (g_edges g)) as -> by (unfold blen; by rewrite Hq).
  unfold ids, fee_sum in *. rewrite <- (zsum_perm (n_max_fee_atoms <$> g_nodes g)) by (by rewrite Hn). rewrite <- Hn, <- Hq.
  repeat split; try tauto; try lia. by exists o.
Qed.

Lemma graph_typed_perm g h : graph_perm g h -> graph_typed g -> graph_typed h.
Proof.
  intros [E1 E2 E3 E4 E5 E6 Hn Hq] [? ? ? Hs Hns Hes]. split; rewrite <- ?E4, <- ?E5, <- ?E6, <- ?E2, <- ?E3, <- ?Hn, <- ?Hq; done.
Qed.

(** ** The commitment is canonical *)

Lemma graph_preimage_perm g h : NoDup (ids g) -> graph_perm g h -> graph_preimage g = graph_preimage h.
Proof.
  intros Hn [_ E2 E3 E4 E5 E6 Hp Hq]. unfold graph_preimage. rewrite E2, E3, E4, E5, E6, (sort_nodes_canonical _ _ Hn Hp), (sort_edges_canonical _ _ Hq).
  assert (blen (g_nodes g) = blen (g_nodes h)) as -> by (unfold blen; by rewrite Hp). by assert (blen (g_edges g) = blen (g_edges h)) as -> by (unfold blen; by rewrite Hq).
Qed.

(** The commitment of a graph does not depend on the order in which its jobs
    and its edges are listed; in particular one listing is valid exactly when
    every other one is. *)
Theorem graph_commitment_canonical sha3_256 g h : graph_typed g -> graph_perm g h ->
  qrx_compute_job_graph_commitment sha3_256 g = qrx_compute_job_graph_commitment sha3_256 h.
Proof.
  intros Ht Hp. pose proof (graph_validate_iff g Ht) as Hg. pose proof (graph_validate_iff h (graph_typed_perm g h Hp Ht)) as Hh.
  unfold qrx_compute_job_graph_commitment. destruct (decide (qrx_compute_job_graph_validate g = 0)) as [E|E].
  - rewrite (decide_False (P := qrx_compute_job_graph_validate g <> 0)) by tauto. rewrite decide_False.
    + f_equal. f_equal. f_equal. apply graph_preimage_perm; [|done]. by apply Hg in E as (_ & _ & _ & _ & ? & _).
    + intros H. apply H, Hh. apply (graph_ok_perm g); [done|]. by apply Hg.
  - rewrite (decide_True (P := qrx_compute_job_graph_validate g <> 0)) by done. rewrite decide_True; [done|]. intros E'. apply E, Hg.
    apply (graph_ok_perm h); [|by apply Hh]. destruct Hp. by split.
Qed.

(** ** The commitment binds *)

Lemma hex_digit_inj a b : 0 <= a < 16 -> 0 <= b < 16 -> hex_digit a = hex_digit b -> a = b.
Proof.
  intros Ha Hb H. apply (f_equal byte.unsigned) in H. unfold hex_digit in H. rewrite !byte.unsigned_of_Z in H. unfold byte.wrap in H.
  destruct (decide (a < 10)), (decide (b < 10)); rewrite !Z.mod_small in H by lia; lia.
Qed.

Lemma nibbles b : byte.unsigned b = 16 * Z.shiftr (byte.unsigned b) 4 + Z.land (byte.unsigned b) 15 /\
  0 <= Z.shiftr (byte.unsigned b) 4 < 16 /\ 0 <= Z.land (byte.unsigned b) 15 < 16.
Proof.
  pose proof (byte.unsigned_range b) as Hr. rewrite Z.shiftr_div_pow2 by lia. change (2 ^ 4) with 16. change 15 with (Z.ones 4).
  rewrite Z.land_ones by lia. change (2 ^ 4) with 16. pose proof (Z.div_mod (byte.unsigned b) 16). pose proof (Z.mod_pos_bound (byte.unsigned b) 16). lia.
Qed.

Lemma hex_inj c d : hex c = hex d -> c = d.
Proof.
  revert d. induction c as [|x c IH]; intros [|y d] H; try done. unfold hex in H. cbn [fmap list_fmap concat app] in H. injection H as H1 H2 H3.
  destruct (nibbles x) as (Ex & ? & ?), (nibbles y) as (Ey & ? & ?). apply hex_digit_inj in H1; [|done..]. apply hex_digit_inj in H2; [|done..].
  f_equal; [|by apply IH]. assert (byte.unsigned x = byte.unsigned y) as E by lia. apply (f_equal byte.of_Z) in E. by rewrite !byte.of_Z_unsigned in E.
Qed.

Lemma be_eq n a b : 0 <= a < 2 ^ (Z.of_nat n * 8) -> 0 <= b < 2 ^ (Z.of_nat n * 8) -> be n a = be n b -> a = b.
Proof. intros Ha Hb E. unfold be in E. apply (f_equal (@rev _)) in E. rewrite !rev_involutive in E. by apply (le_split_inj n). Qed.
Lemma be_len n a : length (be n a) = n.
Proof. unfold be. by rewrite length_rev, length_le_split. Qed.

Lemma field_inj p q r s : in_u64 (blen p) -> in_u64 (blen q) -> qrx_digest_field p ++ r = qrx_digest_field q ++ s -> p = q /\ r = s.
Proof.
  intros Hp Hq H. unfold qrx_digest_field in H. rewrite <- !app_assoc in H. apply app_inj_1 in H as [H1 H2]; [|by rewrite !be_len].
  apply be_eq in H1; [|done..]. apply app_inj_1 in H2; [done|]. unfold blen in H1. lia.
Qed.
Lemma num_field_inj n a b r s : Z.of_nat n < 2 ^ 64 -> 0 <= a < 2 ^ (Z.of_nat n * 8) -> 0 <= b < 2 ^ (Z.of_nat n * 8) ->
  qrx_digest_field (be n a) ++ r = qrx_digest_field (be n b) ++ s -> a = b /\ r = s.
Proof.
  intros Hn Ha Hb H. apply field_inj in H as [H1 H2]; [|unfold in_u64, blen; rewrite be_len; lia..]. split; [by apply be_eq in H1|done].
Qed.
Lemma u32_field_inj a b r s : in_u32 a -> in_u32 b -> qrx_job_digest_u32 a ++ r = qrx_job_digest_u32 b ++ s -> a = b /\ r = s.
Proof. intros ? ?. by apply num_field_inj. Qed.
Lemma u64_field_inj a b r s : in_u64 a -> in_u64 b -> qrx_job_digest_u64 a ++ r = qrx_job_digest_u64 b ++ s -> a = b /\ r = s.
Proof. intros ? ?. by apply num_field_inj. Qed.

(** Take equal fields off the front of two equal preimages. *)
Ltac field_by H E :=
  rewrite <- ?app_assoc in H;
  lazymatch type of H with
  | qrx_job_digest_u32 ?a ++ ?r = qrx_job_digest_u32 ?b ++ ?s => apply (u32_field_inj a b r s) in H; [|assumption..]
  | qrx_job_digest_u64 ?a ++ ?r = qrx_job_digest_u64 ?b ++ ?s => apply (u64_field_inj a b r s) in H; [|assumption..]
  | qrx_digest_field ?p ++ ?r = qrx_digest_field ?q ++ ?s => apply (field_inj p q r s) in H; [|assumption..]
  end; destruct H as [E H].

Lemma concat_digest_inj {A B} (d : A -> bytes) (view : A -> B) (P : A -> Prop) l k r s :
  (forall a b r s, P a -> P b -> d a ++ r = d b ++ s -> view a = view b /\ r = s) ->
  length l = length k -> Forall P l -> Forall P k -> concat (d <$> l) ++ r = concat (d <$> k) ++ s -> view <$> l = view <$> k /\ r = s.
Proof.
  intros Hd. revert k. induction l as [|a l IH]; intros [|b k] Hlen Hl Hk H; try done.
  apply Forall_cons in Hl as [Ha Hl]. apply Forall_cons in Hk as [Hb Hk]. cbn [fmap list_fmap concat] in H. rewrite <- !app_assoc in H.
  apply Hd in H as [E H]; [|done..]. cbn in Hlen. apply IH in H as [E' H]; [|lia|done..]. split; [|done]. cbn. by rewrite E, E'.
Qed.

(** A job with its arrays cut at their terminators. *)
Definition node_view (n : QrxComputeJobNode) : QrxComputeJobNode :=
  mkNode (n_node_id n) (n_job_type n) (cstr (n_runtime_id n)) (cstr (n_model_id n)) (cstr (n_model_version n)) (cstr (n_input_ref n))
    (cstr (n_output_ref n)) (n_min_memory_bytes n) (n_max_runtime_ms n) (n_max_output_bytes n) (n_max_fee_atoms n) (n_capability_mask n).

Lemma node_digest_inj a b r s : node_typed a -> node_typed b -> node_digest a ++ r = node_digest b ++ s -> node_view a = node_view b /\ r = s.
Proof.
  intros [A1 A2 A3 A4 A5 A6 A7 A8] [B1 B2 B3 B4 B5 B6 B7 B8] H. rewrite !Forall_cons in A8, B8.
  destruct A8 as (A8 & A9 & A10 & A11 & A12 & _), B8 as (B8 & B9 & B10 & B11 & B12 & _). unfold node_digest in H.
  field_by H E1. field_by H E2. field_by H E3. field_by H E4. field_by H E5. field_by H E6. field_by H E7. field_by H E8. field_by H E9.
  field_by H E10. field_by H E11. field_by H E12. split; [|done]. unfold node_view. congruence.
Qed.

Lemma edge_digest_inj a b r s : in_u32 (e_from_node a) /\ in_u32 (e_to_node a) -> in_u32 (e_from_node b) /\ in_u32 (e_to_node b) ->
  edge_digest a ++ r = edge_digest b ++ s -> id a = id b /\ r = s.
Proof.
  intros [Ha Ha'] [Hb Hb'] H. unfold edge_digest in H. field_by H E1. field_by H E2. split; [|done]. destruct a, b. cbn in *. by subst.
Qed.

(** The same graph, up to the order of nodes and edges and to what lies behind
    the terminators of the strings. *)
Record graph_same (g h : QrxComputeJobGraph) : Prop := {
  gs_id : cstr (g_graph_id g) = cstr (g_graph_id h); gs_owner : cstr (g_owner g) = cstr (g_owner h); gs_nonce : g_nonce g = g_nonce h;
  gs_total : g_max_total_fee_atoms g = g_max_total_fee_atoms h; gs_expiry : g_expiry_height g = g_expiry_height h;
  gs_nodes : node_view <$> g_nodes g ≡ₚ node_view <$> g_nodes h; gs_edges : g_edges g ≡ₚ g_edges h
}.

Lemma graph_preimage_inj g h : graph_typed g -> graph_typed h -> in_u32 (blen (g_nodes g)) -> in_u32 (blen (g_nodes h)) ->
  in_u32 (blen (g_edges g)) -> in_u32 (blen (g_edges h)) -> graph_preimage g = graph_preimage h -> graph_same g h.
Proof.
  intros [A1 A2 A3 A4 A5 A6] [B1 B2 B3 B4 B5 B6] HA HB HC HD H. rewrite !Forall_cons in A4, B4. destruct A4 as (A4 & A7 & _), B4 as (B4 & B7 & _).
  unfold graph_preimage in H. apply app_inv_head in H.
  field_by H E1. field_by H E2. field_by H E3. field_by H E4. field_by H E5. field_by H E6. field_by H E7.
  apply (concat_digest_inj node_digest node_view node_typed) in H as [E8 H]; [|exact node_digest_inj|rewrite !sort_nodes_spec; unfold blen in E6; lia|by rewrite sort_nodes_spec..].
  rewrite <- (app_nil_r (concat (edge_digest <$> exchange_sort edge_lt (length (g_edges g)) _))), <- (app_nil_r (concat (edge_digest <$> exchange_sort edge_lt (length (g_edges h)) _))) in H.
  apply (concat_digest_inj edge_digest id (fun e => in_u32 (e_from_node e) /\ in_u32 (e_to_node e))) in H as [E9 _]; [|exact edge_digest_inj|rewrite !sort_edges_spec; unfold blen in E7; lia|by rewrite sort_edges_spec..].
  rewrite !list_fmap_id in E9. split; try done.
  - by rewrite <- (sort_nodes_spec (g_nodes g)), <- (sort_nodes_spec (g_nodes h)), E8.
  - by rewrite <- (sort_edges_spec (g_edges g)), <- (sort_edges_spec (g_edges h)), E9.
Qed.

(** C29: two graphs with the same commitment are the same graph, unless SHA3-256
    collides on what was hashed for them. *)
Theorem graph_commitment_binding sha3_256 g h c : graph_typed g -> graph_typed h ->
  qrx_compute_job_graph_commitment sha3_256 g = Some c -> qrx_compute_job_graph_commitment sha3_256 h = Some c ->
  graph_same g h \/ (graph_preimage g <> graph_preimage h /\ sha3_256 (graph_preimage g) = sha3_256 (graph_preimage h)).
Proof.
  intros Hg Hh. unfold qrx_compute_job_graph_commitment.
  destruct (decide (qrx_compute_job_graph_validate g <> 0)) as [|Vg]; [done|]. destruct (decide (qrx_compute_job_graph_validate h <> 0)) as [|Vh]; [done|].
  intros [= <-] [= E%hex_inj]. apply dec_stable in Vg, Vh. apply (graph_validate_iff g Hg) in Vg as (_ & Ng & Eg & _). apply (graph_validate_iff h Hh) in Vh as (_ & Nh & Eh & _).
  destruct (decide (graph_preimage g = graph_preimage h)) as [Ep|]; [|by right]. left.
  pose proof (blen_nonneg (g_edges g)). pose proof (blen_nonneg (g_edges h)).
  unfold QRX_COMPUTE_JOB_MAX_NODES, QRX_COMPUTE_JOB_MAX_EDGES in *. apply graph_preimage_inj; try done; unfold in_u32; lia.
Qed.
