(* ===== verification/ComputeMarket.v ===== *)
(** * Compute: quotes, escrow, sandbox, budgets and receipts
      (src/qrx-core/src/compute/qrx_compute.c, .h)

    Prefixes: [q_] quote, [es_] escrow, [sp_] sandbox policy, [bg_] budget
    guard, [pr_] receipt, [pv_] verification.  An operation on a state answers
    its code and the state after it. *)

From stdpp Require Import gmap.
From S2P Require Import Prelude Format Aura AuraRoute Compute.

(** ** Quotes *)

Definition QRX_COMPUTE_MARKET_VERSION : Z := 1.
Definition QRX_COMPUTE_MAX_QUOTES : Z := 128.
Definition QRX_COMPUTE_BPS : Z := 10000.
Definition QRX_FASTTRACK_PROVIDER_SHARE_BPS : Z := 9000.
Definition QRX_FASTTRACK_NETWORK_SHARE_BPS : Z := 950.
Definition QRX_FASTTRACK_DEV_SHARE_BPS : Z := 50.
Definition QRX_FASTTRACK_MAX_PREMIUM_BPS : Z := 2500.
Definition QRX_COMPUTE_VERIFY_LOW : Z := 1.
Definition QRX_COMPUTE_VERIFY_HIGH : Z := 3.

Record QrxComputeQuote := mkQuote {
  q_market_version : Z; q_quote_id : bytes; q_provider_id : bytes; q_graph_commitment : bytes; q_node_id : Z; q_price_atoms : Z; q_expiry_height : Z;
  q_normalized_compute_score : Z; q_reliability_bps : Z; q_estimated_latency_ms : Z; q_verification_level : Z; q_model_local : Z; q_fasttrack_available : Z
}.
(** The quotes in use. *)
Abbreviation QrxComputeQuoteBook := (list QrxComputeQuote).

Inductive QrxComputeEscrowState :=
| QRX_COMPUTE_ESCROW_EMPTY | QRX_COMPUTE_ESCROW_LOCKED | QRX_COMPUTE_ESCROW_ASSIGNED | QRX_COMPUTE_ESCROW_SETTLED
| QRX_COMPUTE_ESCROW_REFUNDED | QRX_COMPUTE_ESCROW_CANCELLED | QRX_COMPUTE_ESCROW_EXPIRED.
#[export] Instance escrow_state_eq_dec : EqDecision QrxComputeEscrowState.
Proof. solve_decision. Defined.
Record QrxComputeEscrow := mkEscrow {
  es_market_version : Z; es_graph_commitment : bytes; es_owner : bytes; es_max_compute_atoms : Z; es_fasttrack_fee_atoms : Z;
  es_verification_reward_atoms : Z; es_verification_reward_spent_atoms : Z; es_locked_atoms : Z; es_actual_compute_atoms : Z;
  es_fasttrack_dev_atoms : Z; es_fasttrack_net_atoms : Z; es_refund_atoms : Z; es_expiry_height : Z; es_state : QrxComputeEscrowState
}.

Definition qrx_job_find_node (g : QrxComputeJobGraph) (node_id : Z) : option QrxComputeJobNode :=
  snd <$> list_find (fun n => n_node_id n = node_id) (g_nodes g).
Definition qrx_hex64 (s : bytes) : bool := if decide (blen (cstr s) <> 64) then false else forallb isxdigit (cstr s).

Definition qrx_compute_quote_rank_score (q : QrxComputeQuote) (n : QrxComputeJobNode) : option Z :=
  if decide (n_max_fee_atoms n = 0 \/ q_price_atoms q = 0 \/ q_price_atoms q > n_max_fee_atoms n \/ q_reliability_bps q > QRX_COMPUTE_BPS) then None
  else
    let price := ((n_max_fee_atoms n -64 q_price_atoms q) *64 QRX_COMPUTE_BPS) / n_max_fee_atoms n in
    let ncu := if decide (q_normalized_compute_score q >= 20000) then QRX_COMPUTE_BPS else (q_normalized_compute_score q *64 QRX_COMPUTE_BPS) / 20000 in
    let latency := if decide (q_estimated_latency_ms q >= 10000) then 0 else 10000 - q_estimated_latency_ms q in
    let locality := if decide (q_model_local q <> 0) then QRX_COMPUTE_BPS else 0 in
    let verify := (q_verification_level q *64 QRX_COMPUTE_BPS) / QRX_COMPUTE_VERIFY_HIGH in
    let weighted := (price *64 25) +64 (ncu *64 20) +64 (q_reliability_bps q *64 20) +64 (locality *64 15) +64 (latency *64 10) +64 (verify *64 10) in
    Some (u32 (weighted / 100)).

Section sha.
Variable sha3_256 : bytes -> bytes.
Abbreviation commitment := (qrx_compute_job_graph_commitment sha3_256).

Definition qrx_compute_quote_validate (q : QrxComputeQuote) (g : QrxComputeJobGraph) (height : Z) : Z :=
  if decide (qrx_compute_job_graph_validate g <> 0) then -1
  else if decide (q_market_version q <> QRX_COMPUTE_MARKET_VERSION) then -1
  else if negb (nonempty (q_quote_id q) 129) || negb (nonempty (q_provider_id q) 129) then -1
  else if negb (qrx_hex64 (q_graph_commitment q)) then -1
  else if decide (q_node_id q = 0 \/ q_price_atoms q = 0 \/ q_expiry_height q = 0 \/ q_expiry_height q <= height) then -1
  else if decide (q_normalized_compute_score q = 0 \/ q_reliability_bps q = 0 \/ q_reliability_bps q > QRX_COMPUTE_BPS \/ q_estimated_latency_ms q = 0) then -1
  else if decide (q_verification_level q < QRX_COMPUTE_VERIFY_LOW \/ q_verification_level q > QRX_COMPUTE_VERIFY_HIGH) then -1
  else if decide (q_model_local q > 1 \/ q_fasttrack_available q > 1) then -1
  else match qrx_job_find_node g (q_node_id q) with
       | None => -1
       | Some n =>
           if decide (q_price_atoms q > n_max_fee_atoms n) then -1
           else match commitment g with
                | None => -1
                | Some c => if decide (c = cstr (q_graph_commitment q)) then 0 else -1
                end
       end.
Definition qrx_compute_quote_book_add (b : QrxComputeQuoteBook) (q : QrxComputeQuote) (g : QrxComputeJobGraph) (height : Z) : Z * QrxComputeQuoteBook :=
  if decide (qrx_compute_quote_validate q g height <> 0 \/ blen b >= QRX_COMPUTE_MAX_QUOTES) then (-1, b)
  else if existsb (fun x => bool_decide (cstr (q_quote_id x) = cstr (q_quote_id q))) b then (-2, b)
  else (0, b ++ [q]).

(** [true] where the quote may be chosen. *)
Definition quote_counts (g : QrxComputeJobGraph) (node_id min_verify require_local require_fast height : Z) (q : QrxComputeQuote) : bool :=
  negb (bool_decide (q_node_id q <> node_id \/ qrx_compute_quote_validate q g height <> 0 \/ q_verification_level q < min_verify \/
                     (require_local <> 0 /\ q_model_local q = 0) \/ (require_fast <> 0 /\ q_fasttrack_available q = 0))).
Definition quote_better (score : Z) (q : QrxComputeQuote) (best_score : Z) (best : QrxComputeQuote) : bool :=
  bool_decide (score > best_score) ||
  bool_decide (score = best_score) && (bool_decide (q_price_atoms q < q_price_atoms best) ||
     bool_decide (q_price_atoms q = q_price_atoms best) && strcmp_lt (cstr (q_provider_id q)) (cstr (q_provider_id best))).
Definition quote_step (g : QrxComputeJobGraph) (n : QrxComputeJobNode) (node_id min_verify require_local require_fast height : Z)
    (best : option (QrxComputeQuote * Z)) (q : QrxComputeQuote) : option (QrxComputeQuote * Z) :=
  if quote_counts g node_id min_verify require_local require_fast height q then
    match qrx_compute_quote_rank_score q n with
    | None => best
    | Some score =>
        match best with
        | None => Some (q, score)
        | Some (b, best_score) => if quote_better score q best_score b then Some (q, score) else best
        end
    end
  else best.
Definition qrx_compute_quote_select (b : QrxComputeQuoteBook) (g : QrxComputeJobGraph) (node_id min_verify require_local require_fast height : Z)
    : option QrxComputeQuote :=
  if decide (min_verify < QRX_COMPUTE_VERIFY_LOW \/ min_verify > QRX_COMPUTE_VERIFY_HIGH) then None
  else
    n ← qrx_job_find_node g node_id;
    fst <$> foldl (quote_step g n node_id min_verify require_local require_fast height) None b.

(** ** Escrow *)

Definition max_premium (total : Z) : Z :=
  ((total / QRX_COMPUTE_BPS) *64 QRX_FASTTRACK_MAX_PREMIUM_BPS) +64 (((total mod QRX_COMPUTE_BPS) *64 QRX_FASTTRACK_MAX_PREMIUM_BPS) / QRX_COMPUTE_BPS).
(** The code, and the escrow that is written. *)
Definition qrx_compute_escrow_lock (g : QrxComputeJobGraph) (fasttrack height : Z) : Z * option QrxComputeEscrow :=
  let total := g_max_total_fee_atoms g in
  if decide (qrx_compute_job_graph_validate g <> 0 \/ g_expiry_height g <= height) then (-1, None)
  else if decide (total <> 0 /\ fasttrack > max_premium total) then (-2, None)
  else if decide (UINT64_MAX - total < fasttrack) then (-1, None)
  else match commitment g with
       | None => (-1, None)
       | Some c => (0, Some (mkEscrow QRX_COMPUTE_MARKET_VERSION c (snprintf_s 160 (cstr (g_owner g))) total fasttrack 0 0 (total +64 fasttrack) 0 0 0 0
                               (g_expiry_height g) QRX_COMPUTE_ESCROW_LOCKED))
       end.
End sha.

Definition escrow_with (e : QrxComputeEscrow) (actual dev net refund : Z) (s : QrxComputeEscrowState) : QrxComputeEscrow :=
  mkEscrow (es_market_version e) (es_graph_commitment e) (es_owner e) (es_max_compute_atoms e) (es_fasttrack_fee_atoms e) (es_verification_reward_atoms e)
    (es_verification_reward_spent_atoms e) (es_locked_atoms e) actual dev net refund (es_expiry_height e) s.
Definition qrx_compute_escrow_mark_assigned (e : QrxComputeEscrow) : Z * QrxComputeEscrow :=
  if decide (es_state e <> QRX_COMPUTE_ESCROW_LOCKED) then (-1, e)
  else (0, escrow_with e (es_actual_compute_atoms e) (es_fasttrack_dev_atoms e) (es_fasttrack_net_atoms e) (es_refund_atoms e) QRX_COMPUTE_ESCROW_ASSIGNED).
Definition escrow_open (e : QrxComputeEscrow) : Prop := es_state e = QRX_COMPUTE_ESCROW_LOCKED \/ es_state e = QRX_COMPUTE_ESCROW_ASSIGNED.
#[export] Instance escrow_open_dec e : Decision (escrow_open e).
Proof. unfold escrow_open. apply _. Defined.
(** A settlement that fails on the verification rewards has already written
    its shares. *)
Definition qrx_compute_escrow_settle (e : QrxComputeEscrow) (actual height : Z) : Z * QrxComputeEscrow :=
  if decide (~ escrow_open e) then (-1, e)
  else if decide (height > es_expiry_height e \/ actual > es_max_compute_atoms e) then (-1, e)
  else
    let dev := (es_fasttrack_fee_atoms e *64 QRX_FASTTRACK_DEV_SHARE_BPS) / QRX_COMPUTE_BPS in
    let net := (es_fasttrack_fee_atoms e *64 QRX_FASTTRACK_NETWORK_SHARE_BPS) / QRX_COMPUTE_BPS in
    if decide (es_verification_reward_spent_atoms e > es_verification_reward_atoms e) then (-1, escrow_with e actual dev net (es_refund_atoms e) (es_state e))
    else (0, escrow_with e actual dev net ((es_max_compute_atoms e -64 actual) +64 (es_verification_reward_atoms e -64 es_verification_reward_spent_atoms e))
               QRX_COMPUTE_ESCROW_SETTLED).
Definition qrx_compute_escrow_refund (e : QrxComputeEscrow) (height : Z) : Z * QrxComputeEscrow :=
  if decide (~ escrow_open e) then (-1, e)
  else if decide (es_verification_reward_spent_atoms e > es_locked_atoms e) then (-1, escrow_with e 0 0 0 (es_refund_atoms e) (es_state e))
  else (0, escrow_with e 0 0 0 (es_locked_atoms e -64 es_verification_reward_spent_atoms e)
             (if decide (height > es_expiry_height e) then QRX_COMPUTE_ESCROW_EXPIRED else QRX_COMPUTE_ESCROW_REFUNDED)).
Definition qrx_compute_escrow_state_name (s : QrxComputeEscrowState) : bytes :=
  match s with
  | QRX_COMPUTE_ESCROW_EMPTY => cs "EMPTY" | QRX_COMPUTE_ESCROW_LOCKED => cs "LOCKED" | QRX_COMPUTE_ESCROW_ASSIGNED => cs "ASSIGNED"
  | QRX_COMPUTE_ESCROW_SETTLED => cs "SETTLED" | QRX_COMPUTE_ESCROW_REFUNDED => cs "REFUNDED" | QRX_COMPUTE_ESCROW_CANCELLED => cs "CANCELLED"
  | QRX_COMPUTE_ESCROW_EXPIRED => cs "EXPIRED"
  end.

(** ** The sandbox *)

Definition QRX_SANDBOX_POLICY_VERSION : Z := 1.
Definition QRX_SANDBOX_MAX_REF : nat := 129.
Definition QRX_SANDBOX_ALLOW_INPUT_READ : Z := 1.
Definition QRX_SANDBOX_ALLOW_ARTIFACT_WRITE : Z := 2.
Definition QRX_SANDBOX_ALLOW_NETWORK : Z := 4.
Definition QRX_SANDBOX_ALLOW_SUBPROCESS : Z := 8.
Definition QRX_SANDBOX_ALLOW_MODEL_READ : Z := 16.
Definition QRX_SANDBOX_ALLOWED_V1 : Z := 31.

Record QrxComputeSandboxPolicy := mkPolicy {
  sp_version : Z; sp_permissions : Z; sp_memory_limit_bytes : Z; sp_cpu_time_limit_ms : Z; sp_wall_time_limit_ms : Z; sp_output_limit_bytes : Z;
  sp_max_subprocesses : Z; sp_wallet_keys_visible : Z; sp_host_secrets_visible : Z; sp_host_fs_visible : Z; sp_unrestricted_network : Z
}.

Definition qrx_compute_sandbox_policy_validate (n : QrxComputeJobNode) (p : QrxComputeSandboxPolicy) : Z :=
  if decide (sp_version p <> QRX_SANDBOX_POLICY_VERSION) then -1
  else if decide (Z.ldiff (sp_permissions p) QRX_SANDBOX_ALLOWED_V1 <> 0) then -1
  else if decide (sp_wallet_keys_visible p <> 0 \/ sp_host_secrets_visible p <> 0 \/ sp_host_fs_visible p <> 0 \/ sp_unrestricted_network p <> 0) then -2
  else if decide (sp_memory_limit_bytes p = 0 \/ sp_memory_limit_bytes p < n_min_memory_bytes n \/ sp_cpu_time_limit_ms p = 0 \/
                  sp_cpu_time_limit_ms p > n_max_runtime_ms n \/ sp_wall_time_limit_ms p = 0 \/ sp_wall_time_limit_ms p > n_max_runtime_ms n \/
                  sp_output_limit_bytes p = 0 \/ sp_output_limit_bytes p > n_max_output_bytes n) then -1
  else if has (sp_permissions p) QRX_SANDBOX_ALLOW_SUBPROCESS && negb (has (n_capability_mask n) QRX_JOB_CAP_SANDBOX_EXEC) then -3
  else if has (sp_permissions p) QRX_SANDBOX_ALLOW_INPUT_READ && negb (has (n_capability_mask n) QRX_JOB_CAP_READ_INPUTS) then -3
  else if has (sp_permissions p) QRX_SANDBOX_ALLOW_ARTIFACT_WRITE && negb (has (n_capability_mask n) QRX_JOB_CAP_WRITE_ARTIFACTS) then -3
  else if has (sp_permissions p) QRX_SANDBOX_ALLOW_MODEL_READ && negb (has (n_capability_mask n) QRX_JOB_CAP_MODEL_INFERENCE) then -3
  else if has (sp_permissions p) QRX_SANDBOX_ALLOW_NETWORK then -4
  else 0.
(** The code, and the policy that is written in either case. *)
Definition qrx_compute_sandbox_policy_default (n : QrxComputeJobNode) : Z * QrxComputeSandboxPolicy :=
  let allow (cap perm p : Z) := if has (n_capability_mask n) cap then Z.lor p perm else p in
  let permissions :=
    allow QRX_JOB_CAP_SANDBOX_EXEC QRX_SANDBOX_ALLOW_SUBPROCESS
      (allow QRX_JOB_CAP_MODEL_INFERENCE QRX_SANDBOX_ALLOW_MODEL_READ
        (allow QRX_JOB_CAP_WRITE_ARTIFACTS QRX_SANDBOX_ALLOW_ARTIFACT_WRITE
          (allow QRX_JOB_CAP_READ_INPUTS QRX_SANDBOX_ALLOW_INPUT_READ 0))) in
  let memory := if decide (n_min_memory_bytes n <> 0) then n_min_memory_bytes n *64 2 else 256 * 1024 * 1024 in
  let memory := if decide (memory < n_min_memory_bytes n) then UINT64_MAX else memory in
  let p := mkPolicy QRX_SANDBOX_POLICY_VERSION permissions memory (n_max_runtime_ms n) (n_max_runtime_ms n) (n_max_output_bytes n)
             (if has (n_capability_mask n) QRX_JOB_CAP_SANDBOX_EXEC then 16 else 0) 0 0 0 0 in
  (qrx_compute_sandbox_policy_validate n p, p).

(** ** The budget *)

Definition QRX_BUDGET_WARNING_BPS : Z := 8000.
Definition QRX_BUDGET_CRITICAL_BPS : Z := 9500.

Inductive QrxComputeBudgetState :=
| QRX_BUDGET_RUNNING | QRX_BUDGET_WARNING | QRX_BUDGET_CHECKPOINTING | QRX_BUDGET_PAUSED_EXHAUSTED | QRX_BUDGET_EXTENDED
| QRX_BUDGET_RESUMING | QRX_BUDGET_COMPLETED.
#[export] Instance budget_state_eq_dec : EqDecision QrxComputeBudgetState.
Proof. solve_decision. Defined.
(** [bg_checkpoint_ref] is the string the array holds. *)
Record QrxComputeBudgetGuard := mkGuard {
  bg_authorized_atoms : Z; bg_verified_spent_atoms : Z; bg_extension_atoms : Z; bg_checkpoint_seq : Z; bg_checkpoint_ref : bytes;
  bg_state : QrxComputeBudgetState
}.
Definition guard_in (g : QrxComputeBudgetGuard) (s : QrxComputeBudgetState) : QrxComputeBudgetGuard :=
  mkGuard (bg_authorized_atoms g) (bg_verified_spent_atoms g) (bg_extension_atoms g) (bg_checkpoint_seq g) (bg_checkpoint_ref g) s.

Definition qrx_compute_budget_guard_init (authorized : Z) : option QrxComputeBudgetGuard :=
  if decide (authorized = 0) then None else Some (mkGuard authorized 0 0 0 [] QRX_BUDGET_RUNNING).
Definition budget_state_at (total authorized : Z) : QrxComputeBudgetState :=
  let bps := if decide (total >= authorized) then 10000 else (total *64 10000) / authorized in
  if decide (total = authorized) then QRX_BUDGET_PAUSED_EXHAUSTED
  else if decide (bps >= QRX_BUDGET_CRITICAL_BPS) then QRX_BUDGET_CHECKPOINTING
  else if decide (bps >= QRX_BUDGET_WARNING_BPS) then QRX_BUDGET_WARNING
  else QRX_BUDGET_RUNNING.
Definition qrx_compute_budget_guard_charge (g : QrxComputeBudgetGuard) (total : Z) : Z * QrxComputeBudgetGuard :=
  if decide (bg_authorized_atoms g = 0 \/ total < bg_verified_spent_atoms g \/ bg_state g = QRX_BUDGET_COMPLETED) then (-1, g)
  else if decide (total > bg_authorized_atoms g) then (-2, g)
  else (0, mkGuard (bg_authorized_atoms g) total (bg_extension_atoms g) (bg_checkpoint_seq g) (bg_checkpoint_ref g)
             (budget_state_at total (bg_authorized_atoms g))).
Definition qrx_compute_budget_guard_checkpoint (g : QrxComputeBudgetGuard) (ref : bytes) : Z * QrxComputeBudgetGuard :=
  if decide (cstr ref = [] \/ QRX_SANDBOX_MAX_REF <= length (cstr ref))%nat then (-1, g)
  else if decide (bg_state g <> QRX_BUDGET_CHECKPOINTING /\ bg_state g <> QRX_BUDGET_WARNING /\ bg_state g <> QRX_BUDGET_PAUSED_EXHAUSTED) then (-2, g)
  else (0, mkGuard (bg_authorized_atoms g) (bg_verified_spent_atoms g) (bg_extension_atoms g) (bg_checkpoint_seq g +64 1)
             (snprintf_s QRX_SANDBOX_MAX_REF (cstr ref))
             (if decide (bg_verified_spent_atoms g >= bg_authorized_atoms g) then QRX_BUDGET_PAUSED_EXHAUSTED else bg_state g)).
Definition qrx_compute_budget_guard_extend (g : QrxComputeBudgetGuard) (add : Z) : Z * QrxComputeBudgetGuard :=
  if decide (add = 0 \/ bg_state g <> QRX_BUDGET_PAUSED_EXHAUSTED \/ UINT64_MAX - bg_authorized_atoms g < add) then (-1, g)
  else (0, mkGuard (bg_authorized_atoms g +64 add) (bg_verified_spent_atoms g) (bg_extension_atoms g +64 add) (bg_checkpoint_seq g)
             (bg_checkpoint_ref g) QRX_BUDGET_EXTENDED).
Definition qrx_compute_budget_guard_resume (g : QrxComputeBudgetGuard) : Z * QrxComputeBudgetGuard :=
  if decide (bg_state g <> QRX_BUDGET_EXTENDED \/ bg_checkpoint_seq g = 0) then (-1, g) else (0, guard_in g QRX_BUDGET_RESUMING).
Definition qrx_compute_budget_guard_complete (g : QrxComputeBudgetGuard) : Z * QrxComputeBudgetGuard :=
  if decide (bg_verified_spent_atoms g > bg_authorized_atoms g \/ bg_state g = QRX_BUDGET_PAUSED_EXHAUSTED) then (-1, g)
  else (0, guard_in g QRX_BUDGET_COMPLETED).
Definition qrx_compute_budget_state_name (s : QrxComputeBudgetState) : bytes :=
  match s with
  | QRX_BUDGET_RUNNING => cs "RUNNING" | QRX_BUDGET_WARNING => cs "BUDGET_WARNING" | QRX_BUDGET_CHECKPOINTING => cs "CHECKPOINTING"
  | QRX_BUDGET_PAUSED_EXHAUSTED => cs "PAUSED_BUDGET_EXHAUSTED" | QRX_BUDGET_EXTENDED => cs "BUDGET_EXTENDED"
  | QRX_BUDGET_RESUMING => cs "RESUMING" | QRX_BUDGET_COMPLETED => cs "COMPLETED"
  end.

(** The calls a guard is driven by, and a run of them. *)
Inductive BudgetCall :=
| CallCharge (total : Z) | CallCheckpoint (ref : bytes) | CallExtend (add : Z) | CallResume | CallComplete.
Definition budget_call (g : QrxComputeBudgetGuard) (c : BudgetCall) : Z * QrxComputeBudgetGuard :=
  match c with
  | CallCharge total => qrx_compute_budget_guard_charge g total
  | CallCheckpoint ref => qrx_compute_budget_guard_checkpoint g ref
  | CallExtend add => qrx_compute_budget_guard_extend g add
  | CallResume => qrx_compute_budget_guard_resume g
  | CallComplete => qrx_compute_budget_guard_complete g
  end.
Definition budget_run (g : QrxComputeBudgetGuard) (calls : list BudgetCall) : QrxComputeBudgetGuard :=
  foldl (fun g c => snd (budget_call g c)) g calls.

(** ** Receipts *)

Definition QRX_POUC_VERSION : Z := 1.
Definition QRX_POUC_MAX_PROVIDER : nat := 160.
Definition QRX_POUC_MAX_RUNTIME : nat := 96.
Definition QRX_POUC_VERIFY_SPOT : Z := 1.
Definition QRX_POUC_VERIFY_RANDOM : Z := 2.
Definition QRX_POUC_VERIFY_REDUNDANT_2_OF_3 : Z := 3.

Record QrxPoucReceipt := mkReceipt {
  pr_version : Z; pr_graph_commitment : bytes; pr_node_id : Z; pr_provider_id : bytes; pr_input_commitment : bytes; pr_model_commitment : bytes;
  pr_runtime_id : bytes; pr_execution_params_commitment : bytes; pr_result_commitment : bytes; pr_verified_compute_atoms : Z;
  pr_started_height : Z; pr_completed_height : Z; pr_verification_mode : Z
}.
Record QrxPoucVerification := mkVerification {
  pv_receipt_commitment : bytes; pv_verifier_count : Z; pv_matching_verifiers : Z; pv_challenge_required : Z; pv_accepted : bool
}.
Definition qrx_pouc_hex (s : bytes) : bool := qrx_hex64 s.
Definition qrx_pouc_receipt_validate (r : QrxPoucReceipt) : Z :=
  if decide (pr_version r <> QRX_POUC_VERSION \/ pr_node_id r = 0) then -1
  else if negb (nonempty (pr_provider_id r) QRX_POUC_MAX_PROVIDER) || negb (nonempty (pr_runtime_id r) QRX_POUC_MAX_RUNTIME) then -1
  else if negb (qrx_pouc_hex (pr_graph_commitment r)) || negb (qrx_pouc_hex (pr_input_commitment r)) || negb (qrx_pouc_hex (pr_model_commitment r)) ||
          negb (qrx_pouc_hex (pr_execution_params_commitment r)) || negb (qrx_pouc_hex (pr_result_commitment r)) then -1
  else if decide (pr_verified_compute_atoms r = 0 \/ pr_started_height r = 0 \/ pr_completed_height r < pr_started_height r) then -1
  else if decide (pr_verification_mode r < QRX_POUC_VERIFY_SPOT \/ pr_verification_mode r > QRX_POUC_VERIFY_REDUNDANT_2_OF_3) then -1
  else 0.
(** The integers are hashed as they lie in memory: the low byte first on the
    machines the code names. *)
Definition receipt_preimage (r : QrxPoucReceipt) : bytes :=
  cs "QRX/POUC/RECEIPT/V1" ++ take 64 (pr_graph_commitment r) ++ le_split 4 (pr_node_id r) ++ cstr (pr_provider_id r) ++ take 64 (pr_input_commitment r) ++
  take 64 (pr_model_commitment r) ++ cstr (pr_runtime_id r) ++ take 64 (pr_execution_params_commitment r) ++ take 64 (pr_result_commitment r) ++
  le_split 8 (pr_verified_compute_atoms r) ++ le_split 8 (pr_started_height r) ++ le_split 8 (pr_completed_height r) ++ le_split 4 (pr_verification_mode r).

Section sha.
Variable sha3_256 : bytes -> bytes.
Definition qrx_pouc_receipt_commitment (r : QrxPoucReceipt) : option bytes :=
  if decide (qrx_pouc_receipt_validate r <> 0) then None else Some (hex (sha3_256 (receipt_preimage r))).
Definition qrx_pouc_verify_result (r : QrxPoucReceipt) (vc mc : Z) : option QrxPoucVerification :=
  if decide (qrx_pouc_receipt_validate r <> 0 \/ mc > vc) then None
  else
    c ← qrx_pouc_receipt_commitment r;
    if decide (pr_verification_mode r = QRX_POUC_VERIFY_SPOT) then Some (mkVerification c vc mc 1 (bool_decide (vc >= 1 /\ mc >= 1)))
    else if decide (pr_verification_mode r = QRX_POUC_VERIFY_RANDOM) then Some (mkVerification c vc mc 1 (bool_decide (vc >= 2 /\ mc >= 1)))
    else if decide (pr_verification_mode r = QRX_POUC_VERIFY_REDUNDANT_2_OF_3) then Some (mkVerification c vc mc 0 (bool_decide (vc >= 3 /\ mc >= 2)))
    else None.
End sha.
