(* ===== verification/ComputeFacts.v ===== *)
(** * Compute: theorems on money, budgets, quotes and receipts

    An escrow is paid out exactly once and exactly, a budget is never
    exceeded, the quote that is chosen is the best of those that count, the
    sandbox that is derived for a job grants what the job declares and no more;
    and what a receipt does not commit to. *)

From stdpp Require Import gmap.
From S2P Require Import Prelude Format Economics Aura AuraFacts AuraRoute Compute ComputeMarket ComputeOrder ComputeGraph.

(** ** Escrow *)

Lemma max_premium_exact total : in_u64 total -> max_premium total = total * 2500 / 10000.
Proof.
  intros [Ha Hb]. unfold max_premium, QRX_COMPUTE_BPS, QRX_FASTTRACK_MAX_PREMIUM_BPS.
  pose proof (Z.div_mod total 10000 ltac:(lia)) as E. pose proof (Z.mod_pos_bound total 10000 ltac:(lia)) as Hm.
  set (q := total / 10000) in *. set (m := total mod 10000) in *. assert (0 <= q) by (apply Z.div_pos; lia).
  rewrite (u64_small (q * 2500)), (u64_small (m * 2500)) by word.
  replace (total * 2500) with (q * 2500 * 10000 + m * 2500) by lia. rewrite Z.div_add_l by lia.
  assert (0 <= m * 2500 / 10000 <= m) by (split; [apply Z.div_pos; lia|apply Z.div_le_upper_bound; lia]). apply u64_small. word.
Qed.

(** An open escrow that holds what may have to be paid. *)
Record escrow_funded (e : QrxComputeEscrow) : Prop := {
  ef_open : escrow_open e;
  ef_max : 0 <= es_max_compute_atoms e;
  ef_fast : 0 <= es_fasttrack_fee_atoms e;
  ef_reward : 0 <= es_verification_reward_spent_atoms e <= es_verification_reward_atoms e;
  ef_locked : es_locked_atoms e = es_max_compute_atoms e + es_fasttrack_fee_atoms e + es_verification_reward_atoms e;
  ef_fits : in_u64 (es_locked_atoms e)
}.

(** An escrow is locked for every valid graph that has not expired, with a
    premium of at most a quarter, and then it holds the two fees. *)
Theorem escrow_lock_spec sha3_256 g fast height : graph_typed g -> in_u64 fast ->
  let total := g_max_total_fee_atoms g in
  match qrx_compute_escrow_lock sha3_256 g fast height with
  | (c, Some e) => c = 0 /\ graph_ok g /\ height < g_expiry_height g /\ fast <= total * 2500 / 10000 /\ escrow_funded e /\
                   es_locked_atoms e = total + fast /\ es_expiry_height e = g_expiry_height g
  | (c, None) => c <> 0 /\ (~ graph_ok g \/ g_expiry_height g <= height \/ total * 2500 / 10000 < fast \/ UINT64_MAX < total + fast)
  end.
Proof.
  intros Ht Hf total. pose proof (graph_validate_iff g Ht) as Hv. pose proof (gt_total g Ht) as Htot. unfold qrx_compute_escrow_lock. fold total in Htot |- *.
  rewrite (max_premium_exact total Htot). destruct (decide (qrx_compute_job_graph_validate g <> 0 \/ g_expiry_height g <= height)) as [Hb|Hb].
  { split; [lia|]. destruct Hb; [left|right; by left]. tauto. }
  apply Decidable.not_or in Hb as [Hok Hexp]. apply dec_stable in Hok. pose proof (proj1 Hv Hok) as Hgo.
  assert (total <> 0) as Hnz by apply Hgo. destruct (decide (total <> 0 /\ _)) as [[_ Hp]|Hp]; [split; [lia|]; right; right; left; lia|].
  destruct (decide (UINT64_MAX - total < fast)) as [Hu|Hu]; [split; [lia|]; right; right; right; lia|].
  unfold qrx_compute_job_graph_commitment. rewrite decide_False by lia. cbn [es_locked_atoms es_expiry_height].
  split; [done|]. split; [done|]. split; [lia|]. split; [lia|]. assert (total +64 fast = total + fast) as Es by (apply u64_small; word).
  split; [|by rewrite Es]. constructor; cbn; [by left|word|word|lia|rewrite Es; fold total; lia|apply u64_range].
Qed.

(** The calls that drive an escrow. *)
Inductive EscrowCall := CallAssign | CallSettle (actual height : Z) | CallRefund (height : Z).
Definition escrow_call (e : QrxComputeEscrow) (c : EscrowCall) : Z * QrxComputeEscrow :=
  match c with
  | CallAssign => qrx_compute_escrow_mark_assigned e
  | CallSettle actual height => qrx_compute_escrow_settle e actual height
  | CallRefund height => qrx_compute_escrow_refund e height
  end.
Definition escrow_run (e : QrxComputeEscrow) (calls : list EscrowCall) : QrxComputeEscrow := foldl (fun e c => snd (escrow_call e c)) e calls.
Definition call_typed (c : EscrowCall) : Prop := match c with CallSettle actual _ => 0 <= actual | _ => True end.

(** What the escrow held is what the provider, the two funds, the verifiers
    and the owner get. *)
Definition settled_exactly (e0 e : QrxComputeEscrow) : Prop :=
  0 <= es_actual_compute_atoms e <= es_max_compute_atoms e0 /\
  0 <= es_fasttrack_dev_atoms e /\ 0 <= es_fasttrack_net_atoms e /\
  0 <= es_fasttrack_fee_atoms e0 - es_fasttrack_dev_atoms e - es_fasttrack_net_atoms e /\ 0 <= es_refund_atoms e /\
  es_locked_atoms e0 = es_actual_compute_atoms e + es_fasttrack_dev_atoms e + es_fasttrack_net_atoms e +
    (es_fasttrack_fee_atoms e0 - es_fasttrack_dev_atoms e - es_fasttrack_net_atoms e) + es_verification_reward_spent_atoms e0 + es_refund_atoms e /\
  (es_fasttrack_fee_atoms e0 <= QRX_MAX_SUPPLY_ATOMS ->
   es_fasttrack_dev_atoms e = es_fasttrack_fee_atoms e0 * 50 / 10000 /\ es_fasttrack_net_atoms e = es_fasttrack_fee_atoms e0 * 950 / 10000).

Definition same_funds (e0 e : QrxComputeEscrow) : Prop :=
  es_max_compute_atoms e = es_max_compute_atoms e0 /\ es_fasttrack_fee_atoms e = es_fasttrack_fee_atoms e0 /\
  es_verification_reward_atoms e = es_verification_reward_atoms e0 /\ es_verification_reward_spent_atoms e = es_verification_reward_spent_atoms e0 /\
  es_locked_atoms e = es_locked_atoms e0.
Definition refunded_exactly (e0 e : QrxComputeEscrow) : Prop :=
  es_actual_compute_atoms e = 0 /\ es_fasttrack_dev_atoms e = 0 /\ es_fasttrack_net_atoms e = 0 /\
  es_locked_atoms e0 = es_verification_reward_spent_atoms e0 + es_refund_atoms e.
Definition escrow_outcome (e0 e : QrxComputeEscrow) : Prop :=
  match es_state e with
  | QRX_COMPUTE_ESCROW_LOCKED | QRX_COMPUTE_ESCROW_ASSIGNED => escrow_funded e /\ same_funds e0 e
  | QRX_COMPUTE_ESCROW_SETTLED => settled_exactly e0 e
  | QRX_COMPUTE_ESCROW_REFUNDED | QRX_COMPUTE_ESCROW_EXPIRED => refunded_exactly e0 e
  | _ => False
  end.

Lemma share_bound fast bps : 0 <= fast -> 0 <= bps -> 0 <= fast *64 bps / 10000 <= fast * bps / 10000.
Proof.
  intros Hf Hb. pose proof (u64_range (fast * bps)) as Hr. unfold in_u64 in Hr. assert (0 <= fast * bps) by nia.
  split; [apply Z.div_pos; lia|]. apply Z.div_le_mono; [lia|]. unfold u64. apply Z.mod_le; lia.
Qed.

Lemma settle_step e0 e actual height : escrow_funded e -> same_funds e0 e -> 0 <= actual ->
  escrow_outcome e0 (snd (qrx_compute_escrow_settle e actual height)).
Proof.
  intros Hfund Hs Ha. pose proof Hfund as [Ho Hm Hf Hr Hl Hu]. unfold qrx_compute_escrow_settle. rewrite decide_False by tauto.
  destruct (decide (height > _ \/ _)) as [|Hc].
  { cbn. unfold escrow_outcome. by destruct Ho as [-> | ->]. }
  rewrite decide_False by lia. cbn [snd]. unfold escrow_outcome. cbn [es_state escrow_with].
  destruct Hs as (E1 & E2 & E3 & E4 & E5). unfold settled_exactly. cbn. rewrite <- E1, <- E2, <- E4, <- E5.
  unfold QRX_FASTTRACK_DEV_SHARE_BPS, QRX_FASTTRACK_NETWORK_SHARE_BPS, QRX_COMPUTE_BPS.
  set (fast := es_fasttrack_fee_atoms e) in *. pose proof (share_bound fast 50 Hf ltac:(lia)) as Hd. pose proof (share_bound fast 950 Hf ltac:(lia)) as Hn.
  assert (fast * 50 / 10000 + fast * 950 / 10000 <= fast) by (pose proof (Z.mul_div_le (fast * 50) 10000); pose proof (Z.mul_div_le (fast * 950) 10000); lia).
  assert (es_max_compute_atoms e -64 actual = es_max_compute_atoms e - actual) as -> by (apply u64_small; word).
  assert (es_verification_reward_atoms e -64 es_verification_reward_spent_atoms e = es_verification_reward_atoms e - es_verification_reward_spent_atoms e) as -> by (apply u64_small; word).
  rewrite (u64_small (_ + _)) by word. repeat (split; [lia|]). intros Hsup. unfold QRX_MAX_SUPPLY_ATOMS in Hsup. rewrite !u64_small by word. done.
Qed.

Lemma refund_step e0 e height : escrow_funded e -> same_funds e0 e -> escrow_outcome e0 (snd (qrx_compute_escrow_refund e height)).
Proof.
  intros [Ho Hm Hf Hr Hl Hu] (E1 & E2 & E3 & E4 & E5). unfold qrx_compute_escrow_refund. rewrite decide_False by tauto. rewrite decide_False by lia.
  unfold escrow_outcome, refunded_exactly. cbn. rewrite <- E4, <- E5. rewrite u64_small by word. by case_decide; repeat (split; [lia|]); lia.
Qed.

Lemma escrow_closed e c : ~ escrow_open e -> escrow_call e c = (-1, e).
Proof.
  intros Hc. destruct c; cbn; unfold qrx_compute_escrow_mark_assigned, qrx_compute_escrow_settle, qrx_compute_escrow_refund; rewrite decide_True; try done.
  intros H. apply Hc. by left.
Qed.

(** C30: whatever is called on a funded escrow, and in whatever order, it stays
    funded and untouched, or it has been settled, or refunded, with every atom
    accounted for.  Once it is closed every call is refused, so it is never
    paid out twice. *)
Theorem escrow_lifecycle e0 calls : escrow_funded e0 -> Forall call_typed calls ->
  let e := escrow_run e0 calls in
  escrow_outcome e0 e /\ (~ escrow_open e -> forall c, escrow_call e c = (-1, e)).
Proof.
  intros Hf Hc e. split; [|intros Ho c; by apply escrow_closed]. unfold e. clear e.
  induction calls as [|c calls IH] using rev_ind.
  - cbn. unfold escrow_outcome, same_funds. pose proof (ef_open e0 Hf) as Ho. destruct Ho as [E|E]; rewrite E; done.
  - apply Forall_app in Hc as [Hc Hct]. specialize (IH Hc). rewrite Forall_singleton in Hct. unfold escrow_run. rewrite foldl_snoc. fold (escrow_run e0 calls).
    set (e := escrow_run e0 calls) in *. destruct (decide (escrow_open e)) as [Ho|Ho]; [|by rewrite escrow_closed].
    assert (escrow_funded e /\ same_funds e0 e) as [He Hs] by (unfold escrow_outcome in IH; by destruct Ho as [E|E]; rewrite E in IH).
    destruct c as [|actual height|height]; cbn [escrow_call]; [|by apply settle_step|by apply refund_step].
    unfold qrx_compute_escrow_mark_assigned. case_decide as Hd; [done|]. unfold escrow_outcome. cbn. split; [|done].
    destruct He as [? ? ? ? ? ?]. split; cbn; try done. by right.
Qed.

(** ** Budgets *)

(** What every guard keeps. *)
Record guard_ok (a : Z) (g : QrxComputeBudgetGuard) : Prop := {
  go_spent : 0 <= bg_verified_spent_atoms g <= bg_authorized_atoms g;
  go_authorized : bg_authorized_atoms g = a + bg_extension_atoms g;
  go_extension : 0 <= bg_extension_atoms g;
  go_fits : 0 < bg_authorized_atoms g <= UINT64_MAX;
  go_paused : bg_state g = QRX_BUDGET_PAUSED_EXHAUSTED -> bg_verified_spent_atoms g = bg_authorized_atoms g;
  go_first : 0 < a
}.
Definition budget_typed (c : BudgetCall) : Prop := match c with CallCharge t => 0 <= t | CallExtend t => 0 <= t | _ => True end.

Lemma guard_step a g c : guard_ok a g -> budget_typed c ->
  guard_ok a (snd (budget_call g c)) /\ bg_verified_spent_atoms g <= bg_verified_spent_atoms (snd (budget_call g c)) /\
  bg_authorized_atoms g <= bg_authorized_atoms (snd (budget_call g c)).
Proof.
  intros Hg Hc. pose proof Hg as [H1 H2 H3 H4 H5 H6]. destruct c as [t|ref|add| |]; cbn [budget_call budget_typed] in *.
  - unfold qrx_compute_budget_guard_charge. case_decide; [cbn; split; [done|lia]|]. case_decide; [cbn; split; [done|lia]|].
    cbn. split; [|lia]. constructor; cbn; try done; try lia. unfold budget_state_at. by repeat case_decide.
  - unfold qrx_compute_budget_guard_checkpoint. repeat case_decide; cbn; (split; [|lia]); try done; constructor; cbn; try done. lia.
  - unfold qrx_compute_budget_guard_extend. case_decide as Hd; cbn; [by split; [|lia]|]. rewrite !u64_small by word. split; [|lia].
    constructor; cbn; try done; lia.
  - unfold qrx_compute_budget_guard_resume. case_decide; cbn; (split; [|lia]); try done; constructor; cbn; done.
  - unfold qrx_compute_budget_guard_complete. case_decide; cbn; (split; [|lia]); try done; constructor; cbn; done.
Qed.

Lemma guard_completed g c : bg_state g = QRX_BUDGET_COMPLETED -> snd (budget_call g c) = g.
Proof.
  intros H. destruct c; cbn [budget_call]; unfold qrx_compute_budget_guard_charge, qrx_compute_budget_guard_checkpoint, qrx_compute_budget_guard_extend,
    qrx_compute_budget_guard_resume, qrx_compute_budget_guard_complete; rewrite ?H; repeat case_decide; try done; try tauto; try (exfalso; naive_solver).
  destruct g; cbn in *. by subst.
Qed.

(** C31: a job never spends more than was authorised: the first authorisation and
    the extensions.  This holds after any calls in any order; what was spent
    and what was authorised never decrease, a paused job has spent everything,
    and a completed job stays as it is. *)
Theorem budget_never_exceeded a g0 calls more : 0 < a <= UINT64_MAX -> qrx_compute_budget_guard_init a = Some g0 ->
  Forall budget_typed calls -> Forall budget_typed more ->
  let g := budget_run g0 calls in
  let h := budget_run g more in
  guard_ok a g /\ bg_verified_spent_atoms g <= bg_verified_spent_atoms h /\ bg_authorized_atoms g <= bg_authorized_atoms h /\
  (bg_state g = QRX_BUDGET_COMPLETED -> h = g).
Proof.
  intros Ha Hi Hc Hm g h.
  assert (forall g cs, guard_ok a g -> Forall budget_typed cs -> guard_ok a (budget_run g cs) /\
    bg_verified_spent_atoms g <= bg_verified_spent_atoms (budget_run g cs) /\ bg_authorized_atoms g <= bg_authorized_atoms (budget_run g cs)) as Hrun.
  { clear. intros g cs Hg Hcs. revert g Hg. induction Hcs as [|c cs Hc _ IH]; intros g Hg; [by split; [|cbn; lia]|].
    destruct (guard_step a g c Hg Hc) as (Hg' & ? & ?). destruct (IH _ Hg') as (? & ? & ?). cbn [budget_run foldl] in *. unfold budget_run in *. split; [done|lia]. }
  assert (guard_ok a g0) as H0.
  { revert Hi. unfold qrx_compute_budget_guard_init. case_decide; [lia|]. intros [= <-]. constructor; cbn; try done; lia. }
  destruct (Hrun g0 calls H0 Hc) as [Hg _]. fold g in Hg. destruct (Hrun g more Hg Hm) as (_ & ? & ?). fold h in H, H1.
  split; [done|]. split; [done|]. split; [done|]. intros Hd. unfold h. clear - Hd. induction more as [|c more IH]; [done|].
  cbn [budget_run foldl]. by rewrite guard_completed.
Qed.

(** A guard that was paused and extended takes charges again although it was
    not resumed, and with no checkpoint: the gate of
    [qrx_compute_budget_guard_resume] is not on the way. *)
Lemma extended_guard_charges : exists g1 g2,
  g1 = budget_run (mkGuard 100 0 0 0 [] QRX_BUDGET_RUNNING) [CallCharge 100; CallExtend 100] /\ bg_state g1 = QRX_BUDGET_EXTENDED /\
  fst (qrx_compute_budget_guard_resume g1) = -1 /\ qrx_compute_budget_guard_charge g1 120 = (0, g2) /\ bg_state g2 = QRX_BUDGET_RUNNING.
Proof. eexists _, _. split; [reflexivity|]. vm_compute. by repeat split. Qed.

(** ** The sandbox *)

(** What the node's capabilities allow, as the bits of a policy. *)
Definition granted (m : Z) : Z :=
  (if has m QRX_JOB_CAP_READ_INPUTS then 1 else 0) + (if has m QRX_JOB_CAP_WRITE_ARTIFACTS then 2 else 0) +
  (if has m QRX_JOB_CAP_SANDBOX_EXEC then 8 else 0) + (if has m QRX_JOB_CAP_MODEL_INFERENCE then 16 else 0).


Lemma node_valid_limits n : qrx_compute_job_node_validate n = 0 -> n_max_runtime_ms n <> 0 /\ n_max_output_bytes n <> 0 /\ n_max_fee_atoms n <> 0.
Proof.
  unfold qrx_compute_job_node_validate. do 2 (case_decide; [done|]). destruct (negb _); [done|]. destruct (_ || _); [done|]. case_decide; [done|]. lia.
Qed.

(** The policy derived for a valid job passes its own validation, grants
    exactly what the job declares and never the network, and its limits are
    the job's: at least the memory it needs, doubled where that fits. *)
Theorem sandbox_default_spec n : node_typed n -> qrx_compute_job_node_validate n = 0 ->
  exists p, qrx_compute_sandbox_policy_default n = (0, p) /\ qrx_compute_sandbox_policy_validate n p = 0 /\
  sp_permissions p = granted (n_capability_mask n) /\
  sp_memory_limit_bytes p = (if decide (n_min_memory_bytes n = 0) then 2 ^ 28 else Z.min UINT64_MAX (n_min_memory_bytes n * 2)) /\
  sp_wall_time_limit_ms p = n_max_runtime_ms n /\ sp_output_limit_bytes p = n_max_output_bytes n /\
  (sp_wallet_keys_visible p, sp_host_secrets_visible p, sp_host_fs_visible p, sp_unrestricted_network p) = (0, 0, 0, 0).
Proof.
  intros [_ _ Hmask Hmem Hrun Hout _ _] Hv. apply node_valid_limits in Hv as (Hr & Ho & _). unfold qrx_compute_sandbox_policy_default. cbv zeta.
  match goal with |- context [mkPolicy _ _ ?m _ _ _ _ _ _ _ _] => set (memory := m) end.
  assert (memory = if decide (n_min_memory_bytes n = 0) then 2 ^ 28 else Z.min UINT64_MAX (n_min_memory_bytes n * 2)) as Em.
  { unfold memory. destruct (decide (n_min_memory_bytes n = 0)) as [E|E].
    - rewrite (decide_False (P := n_min_memory_bytes n <> 0)) by lia. rewrite decide_False by lia. done.
    - rewrite (decide_True (P := n_min_memory_bytes n <> 0)) by lia. destruct (decide (n_min_memory_bytes n * 2 <= UINT64_MAX)).
      + rewrite u64_small by word. rewrite decide_False by word. lia.
      + assert (n_min_memory_bytes n *64 2 = n_min_memory_bytes n * 2 - 2 ^ 64) as ->; [|rewrite decide_True by word; lia].
        unfold u64. symmetry. apply (Z.mod_unique_pos _ _ 1); word. }
  assert (memory <> 0 /\ n_min_memory_bytes n <= memory) as [Hm1 Hm2] by (rewrite Em; case_decide; word). clearbody memory.
  match goal with |- context [mkPolicy _ ?x _ _ _ _ _ _ _ _ _] => set (perms := x) end.
  assert (perms = granted (n_capability_mask n)) as Ep.
  { unfold perms, granted. by destruct (has _ QRX_JOB_CAP_SANDBOX_EXEC), (has _ QRX_JOB_CAP_MODEL_INFERENCE), (has _ QRX_JOB_CAP_WRITE_ARTIFACTS), (has _ QRX_JOB_CAP_READ_INPUTS). }
  clearbody perms. subst perms. match goal with |- context [mkPolicy ?a ?b ?c ?d ?e ?f ?g ?h ?i ?j ?k] => set (p := mkPolicy a b c d e f g h i j k) end.
  assert (qrx_compute_sandbox_policy_validate n p = 0) as Hp; [|by exists p; rewrite Hp].
  unfold qrx_compute_sandbox_policy_validate, p. cbn. rewrite decide_False by lia. unfold granted.
  destruct (has (n_capability_mask n) QRX_JOB_CAP_SANDBOX_EXEC), (has (n_capability_mask n) QRX_JOB_CAP_MODEL_INFERENCE),
    (has (n_capability_mask n) QRX_JOB_CAP_WRITE_ARTIFACTS), (has (n_capability_mask n) QRX_JOB_CAP_READ_INPUTS);
    (rewrite decide_False by (intros H; by apply H)); rewrite decide_False by lia; rewrite decide_False by lia; reflexivity.
Qed.

(** ** Quotes *)

Lemma strcmp_lex a b : strcmp_lt a b = lex_lt (byte.unsigned <$> a) (byte.unsigned <$> b).
Proof.
  revert b. induction a as [|x a IH]; intros [|y b]; try done. cbn. rewrite IH. destruct (decide (x = y)) as [->|Hn]; [by rewrite decide_True|].
  rewrite decide_False; [done|]. intros E. apply Hn. apply (f_equal byte.of_Z) in E. by rewrite !byte.of_Z_unsigned in E.
Qed.

(** What a quote is judged by: the score, then the price, then the name. *)
Definition quote_key (score : Z) (q : QrxComputeQuote) : list Z := [- score; q_price_atoms q] ++ (byte.unsigned <$> cstr (q_provider_id q)).

Lemma quote_better_key s q t b : quote_better s q t b = lex_lt (quote_key s q) (quote_key t b).
Proof.
  unfold quote_better, quote_key. cbn. rewrite strcmp_lex. destruct (decide (- s = - t)) as [E|E].
  - assert (s = t) as -> by lia. rewrite bool_decide_false, bool_decide_true by lia. cbn. destruct (decide (q_price_atoms q = q_price_atoms b)) as [-> |Hp].
    + rewrite bool_decide_false, bool_decide_true by lia. done.
    + rewrite (bool_decide_false (q_price_atoms q = _)) by done. cbn. by rewrite orb_false_r.
  - rewrite (bool_decide_false (s = t)) by lia. cbn. rewrite orb_false_r. apply bool_decide_ext. lia.
Qed.

Section select.
Variable sha3_256 : bytes -> bytes.
Variables (g : QrxComputeJobGraph) (n : QrxComputeJobNode) (node_id min_verify require_local require_fast height : Z).
Abbreviation counting := (quote_counts sha3_256 g node_id min_verify require_local require_fast height).
Abbreviation step := (quote_step sha3_256 g n node_id min_verify require_local require_fast height).

Lemma quote_fold_spec b :
  match foldl step None b with
  | None => forall q, q ∈ b -> counting q = true -> qrx_compute_quote_rank_score q n = None
  | Some (q, s) => (q ∈ b /\ counting q = true /\ qrx_compute_quote_rank_score q n = Some s) /\
      forall q' s', q' ∈ b -> counting q' = true -> qrx_compute_quote_rank_score q' n = Some s' -> lex_lt (quote_key s' q') (quote_key s q) = false
  end.
Proof.
  induction b as [|x b IH] using rev_ind; [cbn; by intros q ?%not_elem_of_nil|]. rewrite foldl_snoc. set (best := foldl step None b) in *. unfold quote_step.
  destruct (counting x) eqn:Hc.
  2:{ destruct best as [[q s]|].
      - destruct IH as [(? & ? & ?) Hm]. split; [split; [apply elem_of_app; by left|done]|]. intros q' s' [Hq| ->%list_elem_of_singleton]%elem_of_app; [by apply Hm|congruence].
      - intros q' [Hq| ->%list_elem_of_singleton]%elem_of_app; [by apply IH|congruence]. }
  destruct (qrx_compute_quote_rank_score x n) as [s|] eqn:Hs.
  - destruct best as [[q t]|].
    + destruct IH as [(Hq & Hcq & Hsq) Hm]. rewrite quote_better_key. destruct (lex_lt (quote_key s x) (quote_key t q)) eqn:Hb.
      * split; [split; [apply elem_of_app; right; by apply list_elem_of_singleton|done]|].
        intros q' s' [Hq'| ->%list_elem_of_singleton]%elem_of_app Hc' Hs'; [|assert (s' = s) as -> by congruence; apply lex_irrefl].
        apply (lex_le_trans _ (quote_key t q)); [by apply lex_asym|by apply Hm].
      * split; [split; [apply elem_of_app; by left|done]|]. intros q' s' [Hq'| ->%list_elem_of_singleton]%elem_of_app Hc' Hs'; [by apply Hm|congruence].
    + split; [split; [apply elem_of_app; right; by apply list_elem_of_singleton|done]|].
      intros q' s' [Hq'| ->%list_elem_of_singleton]%elem_of_app Hc' Hs'; [by rewrite (IH _ Hq' Hc') in Hs'|]. assert (s' = s) as -> by congruence. apply lex_irrefl.
  - destruct best as [[q t]|].
    + destruct IH as [(? & ? & ?) Hm]. split; [split; [apply elem_of_app; by left|done]|]. intros q' s' [Hq'| ->%list_elem_of_singleton]%elem_of_app; [by apply Hm|congruence].
    + intros q' [Hq'| ->%list_elem_of_singleton]%elem_of_app; [by apply IH|done].
Qed.
End select.

Lemma counting_ranked sha3_256 g n node_id min_verify require_local require_fast height q : qrx_job_find_node g node_id = Some n -> n_max_fee_atoms n <> 0 ->
  quote_counts sha3_256 g node_id min_verify require_local require_fast height q = true -> is_Some (qrx_compute_quote_rank_score q n).
Proof.
  intros Hn Hf Hc. unfold quote_counts in Hc. apply negb_true_iff, bool_decide_eq_false in Hc.
  assert (q_node_id q = node_id /\ qrx_compute_quote_validate sha3_256 q g height = 0) as [Hq Hv] by (split; lia). clear Hc. revert Hv.
  unfold qrx_compute_quote_validate, qrx_compute_quote_rank_score. case_decide; [done|]. case_decide; [done|]. destruct (_ || _); [done|]. destruct (negb _); [done|].
  case_decide; [done|]. case_decide; [done|]. case_decide; [done|]. case_decide; [done|]. rewrite Hq, Hn. case_decide; [done|]. intros _.
  rewrite decide_False by lia. by eexists.
Qed.

(** The quote that is selected for a job counts, and none that counts has a
    better score, or the same score and a lower price, or the same of both and
    an earlier name.  With no quote selected none counts. *)
Theorem quote_select_best sha3_256 b g n node_id min_verify require_local require_fast height :
  QRX_COMPUTE_VERIFY_LOW <= min_verify <= QRX_COMPUTE_VERIFY_HIGH -> qrx_job_find_node g node_id = Some n -> n_max_fee_atoms n <> 0 ->
  let counting := quote_counts sha3_256 g node_id min_verify require_local require_fast height in
  match qrx_compute_quote_select sha3_256 b g node_id min_verify require_local require_fast height with
  | None => forall q, q ∈ b -> counting q = false
  | Some q => q ∈ b /\ counting q = true /\ exists s, qrx_compute_quote_rank_score q n = Some s /\
      forall q' s', q' ∈ b -> counting q' = true -> qrx_compute_quote_rank_score q' n = Some s' -> lex_lt (quote_key s' q') (quote_key s q) = false
  end.
Proof.
  intros Hv Hn Hf counting. unfold qrx_compute_quote_select. rewrite decide_False by lia. rewrite Hn. cbn [mbind option_bind].
  pose proof (quote_fold_spec sha3_256 g n node_id min_verify require_local require_fast height b) as Hs. destruct (foldl _ _ _) as [[q s]|]; cbn [fmap option_fmap option_map fst].
  - destruct Hs as [(? & ? & ?) Hm]. split; [done|]. split; [done|]. exists s. by split.
  - intros q Hq. destruct (counting q) eqn:Hc; [|done]. destruct (counting_ranked sha3_256 g n _ _ _ _ _ q Hn Hf Hc) as [s Hs']. by rewrite (Hs q Hq Hc) in Hs'.
Qed.

(** ** Benchmarks *)

Lemma component_exact measured ref : in_u64 measured -> 0 < ref < 2 ^ 32 -> benchmark_component_score measured ref = Z.min 20000 (measured * 10000 / ref).
Proof.
  intros Hm Hr. unfold benchmark_component_score, QRX_COMPUTE_COMPONENT_SCORE_CAP, QRX_COMPUTE_NCU_BASE.
  assert (0 <= measured * 10000 / ref) by (apply Z.div_pos; word). destruct (decide (ref = 0 \/ measured = 0)) as [[|H0]|Hn]; [lia|rewrite H0, Z.mul_0_l, Z.div_0_l by lia; done|].
  rewrite (u64_small (ref * 2)) by word. destruct (decide (measured >= ref * 2)) as [Hge|Hlt].
  - assert (20000 <= measured * 10000 / ref) by (apply Z.div_le_lower_bound; lia). lia.
  - assert (measured * 10000 / ref < 20000) by (apply Z.div_lt_upper_bound; lia). rewrite u64_small by word. rewrite u32_small by word. lia.
Qed.

Record metrics_typed (m : QrxComputeBenchmarkMetrics) : Prop := {
  mt_bf16 : in_u64 (bm_bf16_mops m); mt_mxfp4 : in_u64 (bm_mxfp4_mops m); mt_memory : in_u64 (bm_memory_mib_s m);
  mt_storage : in_u64 (bm_storage_mib_s m); mt_network : in_u64 (bm_network_mbit_s m); mt_moe : in_u64 (bm_moe_milli_tokens_s m);
  mt_inference : in_u64 (bm_inference_milli_tokens_s m)
}.

(** The score without machine arithmetic. *)
Definition capped (measured ref : Z) : Z := Z.min 20000 (measured * 10000 / ref).
Definition weighted_score (m : QrxComputeBenchmarkMetrics) : Z :=
  (((capped (bm_bf16_mops m) 1000 + capped (bm_mxfp4_mops m) 1500) / 2) * 30 + capped (bm_memory_mib_s m) 10000 * 15 +
   capped (bm_storage_mib_s m) 1000 * 10 + capped (bm_network_mbit_s m) 1000 * 10 + capped (bm_moe_milli_tokens_s m) 10000 * 20 +
   capped (bm_inference_milli_tokens_s m) 10000 * 15) / 100.

Lemma capped_range measured ref : 0 <= measured -> 0 < ref -> 0 <= capped measured ref <= 20000.
Proof. intros. unfold capped. assert (0 <= measured * 10000 / ref) by (apply Z.div_pos; lia). lia. Qed.
Lemma capped_mono a b ref : 0 < ref -> a <= b -> capped a ref <= capped b ref.
Proof. intros. unfold capped. assert (a * 10000 / ref <= b * 10000 / ref) by (apply Z.div_le_mono; lia). lia. Qed.

(** The normalised score of valid metrics is the weighted mean of the capped
    components, computed without overflow; it is at most 20000, and better
    metrics never have a lower one. *)
Theorem benchmark_score_spec m : metrics_typed m -> qrx_compute_benchmark_validate m = 0 ->
  exists s, qrx_compute_benchmark_normalize m = Some s /\ ns_normalized_score s = weighted_score m /\ 0 <= weighted_score m <= 20000 /\
  forall m', metrics_typed m' -> bm_bf16_mops m <= bm_bf16_mops m' -> bm_mxfp4_mops m <= bm_mxfp4_mops m' -> bm_memory_mib_s m <= bm_memory_mib_s m' ->
    bm_storage_mib_s m <= bm_storage_mib_s m' -> bm_network_mbit_s m <= bm_network_mbit_s m' -> bm_moe_milli_tokens_s m <= bm_moe_milli_tokens_s m' ->
    bm_inference_milli_tokens_s m <= bm_inference_milli_tokens_s m' -> weighted_score m <= weighted_score m'.
Proof.
  intros [H1 H2 H3 H4 H5 H6 H7] Hv. unfold qrx_compute_benchmark_normalize. rewrite decide_False by lia. cbv zeta.
  unfold QRX_COMPUTE_REF_BF16_MOPS, QRX_COMPUTE_REF_MXFP4_MOPS, QRX_COMPUTE_REF_MEMORY_MIB_S, QRX_COMPUTE_REF_STORAGE_MIB_S, QRX_COMPUTE_REF_NETWORK_MBIT_S,
    QRX_COMPUTE_REF_MOE_MILLI_TOKENS_S, QRX_COMPUTE_REF_INFERENCE_MILLI_TOKENS_S.
  rewrite !component_exact by (done || lia). fold (capped (bm_bf16_mops m) 1000) (capped (bm_mxfp4_mops m) 1500) (capped (bm_memory_mib_s m) 10000)
    (capped (bm_storage_mib_s m) 1000) (capped (bm_network_mbit_s m) 1000) (capped (bm_moe_milli_tokens_s m) 10000) (capped (bm_inference_milli_tokens_s m) 10000).
  unfold in_u64 in *.
  pose proof (capped_range (bm_bf16_mops m) 1000 ltac:(lia) ltac:(lia)) as R1. pose proof (capped_range (bm_mxfp4_mops m) 1500 ltac:(lia) ltac:(lia)) as R2.
  pose proof (capped_range (bm_memory_mib_s m) 10000 ltac:(lia) ltac:(lia)) as R3. pose proof (capped_range (bm_storage_mib_s m) 1000 ltac:(lia) ltac:(lia)) as R4.
  pose proof (capped_range (bm_network_mbit_s m) 1000 ltac:(lia) ltac:(lia)) as R5. pose proof (capped_range (bm_moe_milli_tokens_s m) 10000 ltac:(lia) ltac:(lia)) as R6.
  pose proof (capped_range (bm_inference_milli_tokens_s m) 10000 ltac:(lia) ltac:(lia)) as R7.
  assert (0 <= weighted_score m <= 20000) as Hw.
  { unfold weighted_score. set (c := (_ + _) / 2). assert (0 <= c <= 20000) by (unfold c; split; [apply Z.div_pos; lia|apply Z.div_le_upper_bound; lia]).
    split; [apply Z.div_pos; lia|apply Z.div_le_upper_bound; lia]. }
  eexists. split; [reflexivity|]. cbn [ns_normalized_score]. split; [|split; [done|]].
  - unfold weighted_score in *. rewrite (u64_small (capped (bm_bf16_mops m) 1000 + _)) by word. set (c := (_ + _) / 2) in *.
    assert (0 <= c <= 20000) by (unfold c; split; [apply Z.div_pos; lia|apply Z.div_le_upper_bound; lia]). rewrite (u32_small c) by word.
    repeat match goal with |- context [u64 ?z] => lazymatch z with context [u64 _] => fail | _ => rewrite (u64_small z) by word end end. apply u32_small. word.
  - intros m' _ L1 L2 L3 L4 L5 L6 L7. unfold weighted_score. apply Z.div_le_mono; [lia|].
    pose proof (capped_mono _ _ 1000 ltac:(lia) L1). pose proof (capped_mono _ _ 1500 ltac:(lia) L2). pose proof (capped_mono _ _ 10000 ltac:(lia) L3).
    pose proof (capped_mono _ _ 1000 ltac:(lia) L4). pose proof (capped_mono _ _ 1000 ltac:(lia) L5). pose proof (capped_mono _ _ 10000 ltac:(lia) L6).
    pose proof (capped_mono _ _ 10000 ltac:(lia) L7). assert ((capped (bm_bf16_mops m) 1000 + capped (bm_mxfp4_mops m) 1500) / 2 <= (capped (bm_bf16_mops m') 1000 + capped (bm_mxfp4_mops m') 1500) / 2) by (apply Z.div_le_mono; lia). lia.
Qed.

(** ** Receipts *)

Definition as64 : bytes := repeat x61 64.
Definition receipt_of (provider runtime : bytes) : QrxPoucReceipt :=
  mkReceipt 1 as64 7 (arr 160 provider) as64 as64 (arr 96 runtime) as64 as64 1000 5 6 1.

(** The receipt's hash takes the provider and the runtime without their
    lengths, so that one commitment belongs to valid receipts of two
    providers. *)
Theorem receipt_commitment_ambiguous sha3_256 :
  let r := receipt_of (cs "alice") (cs "abc") in
  let s := receipt_of (cs "alicea") (cs "bc") in
  qrx_pouc_receipt_validate r = 0 /\ qrx_pouc_receipt_validate s = 0 /\ cstr (pr_provider_id r) <> cstr (pr_provider_id s) /\
  qrx_pouc_receipt_commitment sha3_256 r = qrx_pouc_receipt_commitment sha3_256 s /\ is_Some (qrx_pouc_receipt_commitment sha3_256 r).
Proof.
  cbv zeta. split; [reflexivity|]. split; [reflexivity|]. split; [intros H; vm_compute in H; discriminate|].
  assert (receipt_preimage (receipt_of (cs "alice") (cs "abc")) = receipt_preimage (receipt_of (cs "alicea") (cs "bc"))) as E by (vm_compute; reflexivity).
  unfold qrx_pouc_receipt_commitment. rewrite !decide_False by (intros H; apply H; reflexivity). rewrite E. by split.
Qed.

(** ** Concrete graphs *)

Definition sample_node (id : Z) (input output : bytes) : QrxComputeJobNode :=
  mkNode id QRX_JOB_TEST (arr 96 (cs "runtime")) (arr 96 []) (arr 48 []) (arr 129 input) (arr 129 output) 1000 60000 4096 500 17.
Definition sample_graph (nodes : list QrxComputeJobNode) (edges : list QrxComputeJobEdge) : QrxComputeJobGraph :=
  mkGraph 1 (arr 129 (cs "graph")) (arr 160 (cs "owner")) 9 100000 50 nodes edges.
Definition job_build : QrxComputeJobNode := sample_node 30 (cs "in") (cs "out").
Definition job_compile : QrxComputeJobNode := sample_node 10 (cs "src") (cs "obj").
Definition job_link : QrxComputeJobNode := sample_node 20 (cs "obj") (cs "in").
Definition chain_graph : QrxComputeJobGraph := sample_graph [job_build; job_compile; job_link] [mkEdge 20 30; mkEdge 10 20].
Definition chain_again : QrxComputeJobGraph := sample_graph [job_compile; job_link; job_build] [mkEdge 10 20; mkEdge 20 30].
(** A stand-in for the hash. *)
Definition toy_hash (p : bytes) : bytes := resize 32 x00 p.

(** Decide a closed statement about ranges. *)
Ltac closed := unfold in_u64, in_u32; apply (bool_decide_unpack _); vm_compute; exact I.

Lemma chain_nodes_typed : Forall node_typed [job_build; job_compile; job_link].
Proof. apply List.Forall_cons; [|apply List.Forall_cons; [|apply List.Forall_cons; [|apply List.Forall_nil]]]; constructor; closed. Qed.
Lemma chain_typed : graph_typed chain_graph.
Proof. constructor; [closed|closed|closed|closed|exact chain_nodes_typed|closed]. Qed.
Lemma chain_perm : graph_perm chain_graph chain_again.
Proof. constructor; try reflexivity; cbn [g_nodes g_edges chain_graph chain_again sample_graph]; [exact (Permutation_app_comm [job_build] [job_compile; job_link])|apply perm_swap]. Qed.

Lemma topological_order_spec_witness : qrx_compute_job_graph_topological_order chain_graph = inr [10; 20; 30] /\
  match qrx_compute_job_graph_topological_order chain_graph with
  | inr o => topo_order chain_graph o /\ forall o', topo_order chain_graph o' -> lex_lt o' o = false
  | inl c => (c = -2 \/ c = -3) /\ forall o, ~ topo_order chain_graph o
  end.
Proof. split; [vm_compute; reflexivity|]. apply topological_order_spec; closed. Defined.

Lemma graph_commitment_canonical_witness :
  qrx_compute_job_graph_commitment toy_hash chain_graph = qrx_compute_job_graph_commitment toy_hash chain_again /\ is_Some (qrx_compute_job_graph_commitment toy_hash chain_graph).
Proof.
  split; [apply graph_commitment_canonical; [exact chain_typed|exact chain_perm]|].
  vm_compute. eexists. reflexivity.
Defined.

Lemma graph_commitment_binding_witness :
  graph_same chain_graph chain_again \/ (graph_preimage chain_graph <> graph_preimage chain_again /\ toy_hash (graph_preimage chain_graph) = toy_hash (graph_preimage chain_again)).
Proof.
  eapply graph_commitment_binding; [exact chain_typed|exact (graph_typed_perm _ _ chain_perm chain_typed)|vm_compute; reflexivity|vm_compute; reflexivity].
Defined.

Definition locked_escrow : QrxComputeEscrow := default (mkEscrow 0 [] [] 0 0 0 0 0 0 0 0 0 0 QRX_COMPUTE_ESCROW_EMPTY) (snd (qrx_compute_escrow_lock toy_hash chain_graph 20000 7)).
Lemma escrow_lock_spec_witness :
  match qrx_compute_escrow_lock toy_hash chain_graph 20000 7 with
  | (c, Some e) => c = 0 /\ graph_ok chain_graph /\ 7 < 50 /\ 20000 <= 100000 * 2500 / 10000 /\ escrow_funded e /\ es_locked_atoms e = 100000 + 20000 /\ es_expiry_height e = 50
  | (c, None) => c <> 0 /\ (~ graph_ok chain_graph \/ 50 <= 7 \/ 100000 * 2500 / 10000 < 20000 \/ UINT64_MAX < 100000 + 20000)
  end.
Proof. apply (escrow_lock_spec toy_hash chain_graph 20000 7); [exact chain_typed|closed]. Defined.

Lemma locked_escrow_funded : escrow_funded locked_escrow.
Proof. constructor; [left; vm_compute; reflexivity|closed|closed|closed|vm_compute; reflexivity|closed]. Qed.
Lemma escrow_lifecycle_witness :
  let e := escrow_run locked_escrow [CallAssign; CallSettle 60000 20; CallRefund 21; CallSettle 1 22] in
  es_state e = QRX_COMPUTE_ESCROW_SETTLED /\ escrow_outcome locked_escrow e /\ (~ escrow_open e -> forall c, escrow_call e c = (-1, e)).
Proof. split; [vm_compute; reflexivity|]. apply escrow_lifecycle; [exact locked_escrow_funded|]. repeat constructor; cbn; lia. Defined.

Definition first_guard : QrxComputeBudgetGuard := mkGuard 100 0 0 0 [] QRX_BUDGET_RUNNING.
Definition budget_calls : list BudgetCall := [CallCharge 100; CallCheckpoint (cs "ref"); CallExtend 60; CallResume; CallCharge 170].
Lemma budget_never_exceeded_witness :
  let g := budget_run first_guard budget_calls in
  let h := budget_run g [CallCharge 110; CallComplete; CallCharge 150] in
  guard_ok 100 g /\ bg_verified_spent_atoms g <= bg_verified_spent_atoms h /\ bg_authorized_atoms g <= bg_authorized_atoms h /\
  (bg_state g = QRX_BUDGET_COMPLETED -> h = g).
Proof. apply (budget_never_exceeded 100 first_guard); [word|reflexivity|repeat constructor; cbn; lia|repeat constructor; cbn; lia]. Defined.

Lemma sandbox_default_spec_witness : exists p, qrx_compute_sandbox_policy_default job_build = (0, p) /\ qrx_compute_sandbox_policy_validate job_build p = 0 /\
  sp_permissions p = granted 17 /\ sp_memory_limit_bytes p = (if decide (1000 = 0) then 2 ^ 28 else Z.min UINT64_MAX (1000 * 2)) /\
  sp_wall_time_limit_ms p = 60000 /\ sp_output_limit_bytes p = 4096 /\
  (sp_wallet_keys_visible p, sp_host_secrets_visible p, sp_host_fs_visible p, sp_unrestricted_network p) = (0, 0, 0, 0).
Proof. apply (sandbox_default_spec job_build); [constructor; closed|vm_compute; reflexivity]. Defined.

Definition chain_commitment : bytes := default [] (qrx_compute_job_graph_commitment toy_hash chain_graph).
Definition sample_quote (id provider : bytes) (price : Z) : QrxComputeQuote :=
  mkQuote 1 (arr 129 id) (arr 129 provider) (arr 65 chain_commitment) 10 price 40 10000 9000 100 2 0 1.
Definition sample_quotes : QrxComputeQuoteBook := [sample_quote (cs "q1") (cs "bob") 400; sample_quote (cs "q2") (cs "carol") 300; sample_quote (cs "q3") (cs "alice") 300].
Lemma quote_select_best_witness :
  qrx_compute_quote_select toy_hash sample_quotes chain_graph 10 1 0 1 7 = Some (sample_quote (cs "q3") (cs "alice") 300) /\
  let counting := quote_counts toy_hash chain_graph 10 1 0 1 7 in
  match qrx_compute_quote_select toy_hash sample_quotes chain_graph 10 1 0 1 7 with
  | None => forall q, q ∈ sample_quotes -> counting q = false
  | Some q => q ∈ sample_quotes /\ counting q = true /\ exists s, qrx_compute_quote_rank_score q job_compile = Some s /\
      forall q' s', q' ∈ sample_quotes -> counting q' = true -> qrx_compute_quote_rank_score q' job_compile = Some s' -> lex_lt (quote_key s' q') (quote_key s q) = false
  end.
Proof. split; [vm_compute; reflexivity|]. apply (quote_select_best toy_hash sample_quotes chain_graph job_compile 10 1 0 1 7); [closed|vm_compute; reflexivity|vm_compute; discriminate]. Defined.

Definition sample_metrics : QrxComputeBenchmarkMetrics := mkMetrics 1 31 10 1000 900 1600 12000 700 5000 8000 (2 ^ 60).
Lemma benchmark_score_spec_witness : exists s, qrx_compute_benchmark_normalize sample_metrics = Some s /\
  ns_normalized_score s = weighted_score sample_metrics /\ 0 <= weighted_score sample_metrics <= 20000 /\
  forall m', metrics_typed m' -> 900 <= bm_bf16_mops m' -> 1600 <= bm_mxfp4_mops m' -> 12000 <= bm_memory_mib_s m' ->
    700 <= bm_storage_mib_s m' -> 5000 <= bm_network_mbit_s m' -> 8000 <= bm_moe_milli_tokens_s m' ->
    2 ^ 60 <= bm_inference_milli_tokens_s m' -> weighted_score sample_metrics <= weighted_score m'.
Proof. apply (benchmark_score_spec sample_metrics); [constructor; closed|vm_compute; reflexivity]. Defined.
