(* ===== verification/AuraAgent.v ===== *)
(** * AURA: agents, sessions, chats, projects and code workspaces
      (src/qrx-core/src/compute/qrx_compute.c, .h)

    The client of the job protocol: what an agent may do and spend, the calls
    of its tools and the jobs they become, conversations, artifacts and
    projects, and the staged plans of a code workspace with their execution.
    Character arrays are the bytes they hold, terminator included, and so are
    the strings that callers pass; an array with a count is the list of its
    used entries.  An operation answers its code and the state after it.
    Prefixes: [mf_] manifest, [ss_] session, [tc_] tool call, [cv_]
    conversation, [cm_] message, [ar_] artifact, [pf_] project file, [pj_]
    project, [sg_] stage, [cw_] workspace, [sr_] stage result, [ex_]
    execution. *)

From stdpp Require Import list strings.
From S2P Require Import Prelude Format Aura AuraRoute Compute ComputeMarket.

(** ** Agents and sessions *)

Definition QRX_AURA_RUNTIME_VERSION : Z := 1.
Definition QRX_AURA_MAX_ID : nat := 129.
Definition QRX_AURA_MAX_OWNER : nat := 160.
Definition QRX_AURA_MAX_REF : nat := 129.
Definition QRX_AURA_MAX_STEPS : Z := 1024.
Definition QRX_AURA_CAP_CHAT : Z := 1.
Definition QRX_AURA_CAP_MODEL_INFERENCE : Z := 2.
Definition QRX_AURA_CAP_READ_ARTIFACT : Z := 4.
Definition QRX_AURA_CAP_WRITE_ARTIFACT : Z := 8.
Definition QRX_AURA_CAP_SUBMIT_JOB : Z := 16.
Definition QRX_AURA_CAP_STREAM_RESULT : Z := 32.
Definition QRX_AURA_CAP_RESEARCH : Z := 64.
Definition QRX_AURA_CAP_CODE : Z := 128.
Definition QRX_AURA_CAP_ALLOWED_V1 : Z := 255.
Definition QRX_AURA_TOOL_MODEL_INFERENCE : Z := 1.
Definition QRX_AURA_TOOL_READ_ARTIFACT : Z := 2.
Definition QRX_AURA_TOOL_WRITE_ARTIFACT : Z := 3.
Definition QRX_AURA_TOOL_SUBMIT_JOB : Z := 4.
Definition QRX_AURA_TOOL_JOB_STATUS : Z := 5.
Definition QRX_AURA_TOOL_STREAM_RESULT : Z := 6.
Definition QRX_AURA_TOOL_RESEARCH : Z := 7.
Definition QRX_AURA_TOOL_CODE_GENERATION : Z := 8.
Definition QRX_AURA_TOOL_CODE_EXECUTION : Z := 9.
Definition QRX_AURA_TOOL_COMPILE : Z := 10.
Definition QRX_AURA_TOOL_TEST : Z := 11.

Record QrxAuraAgentManifest := mkManifest {
  mf_version : Z; mf_agent_id : bytes; mf_owner : bytes; mf_model_id : bytes; mf_model_version : bytes; mf_capability_mask : Z; mf_max_steps : Z;
  mf_max_job_fee_atoms : Z; mf_max_session_fee_atoms : Z; mf_require_user_approval_for_code_execution : Z
}.
Inductive QrxAuraSessionState :=
| QRX_AURA_SESSION_OPEN | QRX_AURA_SESSION_BUDGET_WARNING | QRX_AURA_SESSION_PAUSED | QRX_AURA_SESSION_COMPLETED | QRX_AURA_SESSION_CANCELLED.
#[export] Instance session_state_eq_dec : EqDecision QrxAuraSessionState.
Proof. solve_decision. Defined.
Record QrxAuraSession := mkSession {
  ss_version : Z; ss_session_id : bytes; ss_agent_commitment : bytes; ss_owner : bytes; ss_authorized_atoms : Z; ss_spent_atoms : Z;
  ss_step_count : Z; ss_state : QrxAuraSessionState
}.
Record QrxAuraToolCall := mkToolCall {
  tc_version : Z; tc_call_id : bytes; tc_session_id : bytes; tc_tool_type : Z; tc_input_ref : bytes; tc_output_ref : bytes; tc_runtime_id : bytes;
  tc_requested_fee_atoms : Z; tc_max_runtime_ms : Z; tc_max_output_bytes : Z; tc_user_approved : Z
}.

(** [p] is absent, empty or too long for [n] bytes. *)
Definition bad_string (p : bytes) (n : nat) : bool := bool_decide (cstr p = []) || bool_decide (n <= length (cstr p))%nat.
Definition fields (l : list bytes) : bytes := concat ((fun s => qrx_digest_field (cstr s)) <$> l).
Definition same_string (a b : bytes) : bool := bool_decide (cstr a = cstr b).

Definition qrx_aura_tool_requires_cap (t caps : Z) : bool :=
  if decide (t = QRX_AURA_TOOL_MODEL_INFERENCE) then has caps QRX_AURA_CAP_MODEL_INFERENCE
  else if decide (t = QRX_AURA_TOOL_READ_ARTIFACT) then has caps QRX_AURA_CAP_READ_ARTIFACT
  else if decide (t = QRX_AURA_TOOL_WRITE_ARTIFACT) then has caps QRX_AURA_CAP_WRITE_ARTIFACT
  else if decide (t = QRX_AURA_TOOL_SUBMIT_JOB) then has caps QRX_AURA_CAP_SUBMIT_JOB
  else if decide (t = QRX_AURA_TOOL_JOB_STATUS) then has caps QRX_AURA_CAP_SUBMIT_JOB
  else if decide (t = QRX_AURA_TOOL_STREAM_RESULT) then has caps QRX_AURA_CAP_STREAM_RESULT
  else if decide (t = QRX_AURA_TOOL_RESEARCH) then has caps QRX_AURA_CAP_RESEARCH
  else if decide (t = QRX_AURA_TOOL_CODE_GENERATION \/ t = QRX_AURA_TOOL_CODE_EXECUTION \/ t = QRX_AURA_TOOL_COMPILE \/ t = QRX_AURA_TOOL_TEST)
  then has caps QRX_AURA_CAP_CODE
  else false.
Definition qrx_aura_tool_type_name (t : Z) : bytes :=
  if decide (t = QRX_AURA_TOOL_MODEL_INFERENCE) then cs "MODEL_INFERENCE" else if decide (t = QRX_AURA_TOOL_READ_ARTIFACT) then cs "READ_ARTIFACT"
  else if decide (t = QRX_AURA_TOOL_WRITE_ARTIFACT) then cs "WRITE_ARTIFACT" else if decide (t = QRX_AURA_TOOL_SUBMIT_JOB) then cs "SUBMIT_JOB"
  else if decide (t = QRX_AURA_TOOL_JOB_STATUS) then cs "JOB_STATUS" else if decide (t = QRX_AURA_TOOL_STREAM_RESULT) then cs "STREAM_RESULT"
  else if decide (t = QRX_AURA_TOOL_RESEARCH) then cs "RESEARCH" else if decide (t = QRX_AURA_TOOL_CODE_GENERATION) then cs "CODE_GENERATION"
  else if decide (t = QRX_AURA_TOOL_CODE_EXECUTION) then cs "CODE_EXECUTION" else if decide (t = QRX_AURA_TOOL_COMPILE) then cs "COMPILE"
  else if decide (t = QRX_AURA_TOOL_TEST) then cs "TEST" else cs "UNKNOWN".
Definition qrx_aura_session_state_name (s : QrxAuraSessionState) : bytes :=
  match s with
  | QRX_AURA_SESSION_OPEN => cs "OPEN" | QRX_AURA_SESSION_BUDGET_WARNING => cs "BUDGET_WARNING" | QRX_AURA_SESSION_PAUSED => cs "PAUSED"
  | QRX_AURA_SESSION_COMPLETED => cs "COMPLETED" | QRX_AURA_SESSION_CANCELLED => cs "CANCELLED"
  end.

Definition qrx_aura_agent_manifest_validate (m : QrxAuraAgentManifest) : Z :=
  if decide (mf_version m <> QRX_AURA_RUNTIME_VERSION) then -1
  else if negb (nonempty (mf_agent_id m) QRX_AURA_MAX_ID) || negb (nonempty (mf_owner m) QRX_AURA_MAX_OWNER) then -1
  else if negb (nonempty (mf_model_id m) QRX_COMPUTE_JOB_MAX_MODEL_ID) || negb (nonempty (mf_model_version m) QRX_COMPUTE_JOB_MAX_MODEL_VERSION) then -1
  else if decide (mf_capability_mask m = 0 \/ Z.ldiff (mf_capability_mask m) QRX_AURA_CAP_ALLOWED_V1 <> 0) then -1
  else if negb (has (mf_capability_mask m) QRX_AURA_CAP_CHAT) || negb (has (mf_capability_mask m) QRX_AURA_CAP_MODEL_INFERENCE) then -1
  else if decide (mf_max_steps m = 0 \/ mf_max_steps m > QRX_AURA_MAX_STEPS \/ mf_max_job_fee_atoms m = 0 \/ mf_max_session_fee_atoms m = 0 \/
                  mf_max_job_fee_atoms m > mf_max_session_fee_atoms m) then -1
  else if decide (mf_require_user_approval_for_code_execution m > 1) then -1
  else 0.
Definition manifest_preimage (m : QrxAuraAgentManifest) : bytes :=
  cs "QRX/AURA/AGENT-MANIFEST/V1" ++ fields [mf_agent_id m; mf_owner m; mf_model_id m; mf_model_version m] ++
  qrx_job_digest_u32 (mf_version m) ++ qrx_job_digest_u32 (mf_capability_mask m) ++ qrx_job_digest_u32 (mf_max_steps m) ++
  qrx_job_digest_u64 (mf_max_job_fee_atoms m) ++ qrx_job_digest_u64 (mf_max_session_fee_atoms m) ++
  qrx_job_digest_u32 (mf_require_user_approval_for_code_execution m).

Definition session_at (s : QrxAuraSession) (spent steps : Z) (st : QrxAuraSessionState) : QrxAuraSession :=
  mkSession (ss_version s) (ss_session_id s) (ss_agent_commitment s) (ss_owner s) (ss_authorized_atoms s) spent steps st.
Definition qrx_aura_session_charge (s : QrxAuraSession) (total : Z) : Z * QrxAuraSession :=
  if decide (ss_version s <> QRX_AURA_RUNTIME_VERSION \/ ss_state s = QRX_AURA_SESSION_COMPLETED \/ ss_state s = QRX_AURA_SESSION_CANCELLED \/
             total < ss_spent_atoms s) then (-1, s)
  else if decide (total > ss_authorized_atoms s) then (-2, s)
  else (0, session_at s total (ss_step_count s)
             (if decide (total = ss_authorized_atoms s) then QRX_AURA_SESSION_PAUSED
              else if decide ((total *64 10000) / ss_authorized_atoms s >= QRX_BUDGET_WARNING_BPS) then QRX_AURA_SESSION_BUDGET_WARNING
              else QRX_AURA_SESSION_OPEN)).
Definition qrx_aura_session_record_step (m : QrxAuraAgentManifest) (s : QrxAuraSession) : Z * QrxAuraSession :=
  if decide (qrx_aura_agent_manifest_validate m <> 0 \/ ss_state s = QRX_AURA_SESSION_COMPLETED \/ ss_state s = QRX_AURA_SESSION_CANCELLED \/
             ss_state s = QRX_AURA_SESSION_PAUSED) then (-1, s)
  else if negb (same_string (ss_owner s) (mf_owner m)) then (-1, s)
  else if decide (ss_step_count s >= mf_max_steps m) then (-1, s)
  else (0, session_at s (ss_spent_atoms s) (u32 (ss_step_count s + 1)) (ss_state s)).
Definition qrx_aura_session_complete (s : QrxAuraSession) : Z * QrxAuraSession :=
  if decide (ss_state s = QRX_AURA_SESSION_PAUSED \/ ss_state s = QRX_AURA_SESSION_CANCELLED \/ ss_state s = QRX_AURA_SESSION_COMPLETED) then (-1, s)
  else (0, session_at s (ss_spent_atoms s) (ss_step_count s) QRX_AURA_SESSION_COMPLETED).
Definition qrx_aura_session_cancel (s : QrxAuraSession) : Z * QrxAuraSession :=
  if decide (ss_state s = QRX_AURA_SESSION_COMPLETED \/ ss_state s = QRX_AURA_SESSION_CANCELLED) then (-1, s)
  else (0, session_at s (ss_spent_atoms s) (ss_step_count s) QRX_AURA_SESSION_CANCELLED).

Definition call_preimage (c : QrxAuraToolCall) : bytes :=
  cs "QRX/AURA/TOOL-CALL/V1" ++ fields [tc_call_id c; tc_session_id c; tc_input_ref c; tc_output_ref c; tc_runtime_id c] ++
  qrx_job_digest_u32 (tc_version c) ++ qrx_job_digest_u32 (tc_tool_type c) ++ qrx_job_digest_u64 (tc_requested_fee_atoms c) ++
  qrx_job_digest_u64 (tc_max_runtime_ms c) ++ qrx_job_digest_u64 (tc_max_output_bytes c) ++ qrx_job_digest_u32 (tc_user_approved c).

(** Tools that run code on a provider, and tools that name an output. *)
Definition runs_code (t : Z) : bool := bool_decide (t = QRX_AURA_TOOL_CODE_EXECUTION \/ t = QRX_AURA_TOOL_COMPILE \/ t = QRX_AURA_TOOL_TEST).
Definition names_output (t : Z) : bool :=
  bool_decide (t = QRX_AURA_TOOL_MODEL_INFERENCE \/ t = QRX_AURA_TOOL_WRITE_ARTIFACT \/ t = QRX_AURA_TOOL_RESEARCH \/ t = QRX_AURA_TOOL_CODE_GENERATION \/
               t = QRX_AURA_TOOL_CODE_EXECUTION \/ t = QRX_AURA_TOOL_COMPILE \/ t = QRX_AURA_TOOL_TEST).
(** The type of the job of a tool and its capabilities, where it becomes one. *)
Definition job_of_tool (t : Z) : option (Z * Z) :=
  let ai := Z.lor QRX_JOB_CAP_MODEL_INFERENCE (Z.lor QRX_JOB_CAP_STREAM_OUTPUT QRX_JOB_CAP_WRITE_ARTIFACTS) in
  let code := Z.lor QRX_JOB_CAP_SANDBOX_EXEC QRX_JOB_CAP_WRITE_ARTIFACTS in
  if decide (t = QRX_AURA_TOOL_MODEL_INFERENCE) then Some (QRX_JOB_AI_INFERENCE, Z.lor QRX_JOB_CAP_READ_INPUTS ai)
  else if decide (t = QRX_AURA_TOOL_RESEARCH) then Some (QRX_JOB_RESEARCH, Z.lor QRX_JOB_CAP_READ_INPUTS ai)
  else if decide (t = QRX_AURA_TOOL_CODE_GENERATION) then Some (QRX_JOB_CODE_GENERATION, Z.lor QRX_JOB_CAP_READ_INPUTS ai)
  else if decide (t = QRX_AURA_TOOL_CODE_EXECUTION) then Some (QRX_JOB_CODE_EXECUTION, Z.lor QRX_JOB_CAP_READ_INPUTS code)
  else if decide (t = QRX_AURA_TOOL_COMPILE) then Some (QRX_JOB_COMPILE, Z.lor QRX_JOB_CAP_READ_INPUTS code)
  else if decide (t = QRX_AURA_TOOL_TEST) then Some (QRX_JOB_TEST, Z.lor QRX_JOB_CAP_READ_INPUTS code)
  else None.
Definition node_of_call (m : QrxAuraAgentManifest) (c : QrxAuraToolCall) (node_id job_type caps : Z) : QrxComputeJobNode :=
  let ai := bool_decide (job_type = QRX_JOB_AI_INFERENCE \/ job_type = QRX_JOB_RESEARCH \/ job_type = QRX_JOB_CODE_GENERATION) in
  mkNode node_id job_type (arr QRX_COMPUTE_JOB_MAX_RUNTIME (cstr (tc_runtime_id c)))
    (arr QRX_COMPUTE_JOB_MAX_MODEL_ID (if ai then cstr (mf_model_id m) else []))
    (arr QRX_COMPUTE_JOB_MAX_MODEL_VERSION (if ai then cstr (mf_model_version m) else []))
    (arr QRX_COMPUTE_JOB_MAX_REF (cstr (tc_input_ref c)))
    (arr QRX_COMPUTE_JOB_MAX_REF (if decide (cstr (tc_output_ref c) <> []) then cstr (tc_output_ref c) else cstr (tc_input_ref c)))
    0 (tc_max_runtime_ms c) (tc_max_output_bytes c) (tc_requested_fee_atoms c) caps.

Section sha.
Variable sha3_256 : bytes -> bytes.

Definition qrx_aura_agent_manifest_commitment (m : QrxAuraAgentManifest) : option bytes :=
  if decide (qrx_aura_agent_manifest_validate m <> 0) then None else Some (hex (sha3_256 (manifest_preimage m))).
Definition qrx_aura_session_open (m : QrxAuraAgentManifest) (session_id : bytes) (authorized : Z) : option QrxAuraSession :=
  if bad_string session_id QRX_AURA_MAX_ID then None
  else if decide (qrx_aura_agent_manifest_validate m <> 0 \/ authorized = 0 \/ authorized > mf_max_session_fee_atoms m) then None
  else
    ac ← qrx_aura_agent_manifest_commitment m;
    Some (mkSession QRX_AURA_RUNTIME_VERSION (arr QRX_AURA_MAX_ID (cstr session_id)) (ac ++ [x00]) (arr QRX_AURA_MAX_OWNER (cstr (mf_owner m)))
            authorized 0 0 QRX_AURA_SESSION_OPEN).

Definition qrx_aura_tool_call_validate (m : QrxAuraAgentManifest) (s : QrxAuraSession) (c : QrxAuraToolCall) : Z :=
  if decide (qrx_aura_agent_manifest_validate m <> 0 \/ ss_version s <> QRX_AURA_RUNTIME_VERSION \/ tc_version c <> QRX_AURA_RUNTIME_VERSION) then -1
  else if decide (ss_state s <> QRX_AURA_SESSION_OPEN /\ ss_state s <> QRX_AURA_SESSION_BUDGET_WARNING) then -1
  else if decide (ss_step_count s >= mf_max_steps m) then -5
  else if negb (same_string (ss_owner s) (mf_owner m)) || negb (same_string (tc_session_id c) (ss_session_id s)) then -1
  else if decide (qrx_aura_agent_manifest_commitment m <> Some (cstr (ss_agent_commitment s))) then -1
  else if negb (nonempty (tc_call_id c) QRX_AURA_MAX_ID) || negb (qrx_job_ref_valid (tc_input_ref c) QRX_AURA_MAX_REF) then -1
  else if negb (nonempty (tc_runtime_id c) QRX_COMPUTE_JOB_MAX_RUNTIME) then -1
  else if decide (tc_requested_fee_atoms c = 0 \/ tc_max_runtime_ms c = 0 \/ tc_max_output_bytes c = 0) then -1
  else if decide (tc_requested_fee_atoms c > mf_max_job_fee_atoms m \/ tc_requested_fee_atoms c > ss_authorized_atoms s -64 ss_spent_atoms s) then -2
  else if negb (qrx_aura_tool_requires_cap (tc_tool_type c) (mf_capability_mask m)) then -3
  else if runs_code (tc_tool_type c) && bool_decide (mf_require_user_approval_for_code_execution m <> 0 /\ tc_user_approved c = 0) then -4
  else if decide (tc_user_approved c > 1) then -1
  else if names_output (tc_tool_type c) && negb (qrx_job_ref_valid (tc_output_ref c) QRX_AURA_MAX_REF) then -1
  else 0.
Definition qrx_aura_tool_call_commitment (c : QrxAuraToolCall) : option bytes :=
  if decide (tc_version c <> QRX_AURA_RUNTIME_VERSION) then None
  else if negb (nonempty (tc_call_id c) QRX_AURA_MAX_ID) || negb (nonempty (tc_session_id c) QRX_AURA_MAX_ID) then None
  else Some (hex (sha3_256 (call_preimage c))).
(** The code, and the node that is written, complete or not. *)
Definition qrx_aura_tool_call_to_job_node (m : QrxAuraAgentManifest) (s : QrxAuraSession) (c : QrxAuraToolCall) (node_id : Z)
    : Z * option QrxComputeJobNode :=
  if decide (node_id = 0 \/ qrx_aura_tool_call_validate m s c <> 0) then (-1, None)
  else match job_of_tool (tc_tool_type c) with
       | None => (-2, Some (node_of_call m c node_id 0 QRX_JOB_CAP_READ_INPUTS))
       | Some (job_type, caps) =>
           let o := node_of_call m c node_id job_type caps in (qrx_compute_job_node_validate o, Some o)
       end.
End sha.

(** ** Conversations *)

Definition QRX_AURA_CHAT_VERSION : Z := 1.
Definition QRX_AURA_CHAT_MAX_TITLE : nat := 128.
Definition QRX_AURA_CHAT_MAX_MESSAGES : Z := 512.
Definition QRX_AURA_CHAT_MAX_ARTIFACTS : Z := 16.
Definition QRX_AURA_CHAT_MAX_JOB_REF : nat := 129.
Definition QRX_AURA_CHAT_ROLE_SYSTEM : Z := 1.
Definition QRX_AURA_CHAT_ROLE_ASSISTANT : Z := 3.
Definition QRX_AURA_CHAT_ROLE_TOOL : Z := 4.
Definition QRX_AURA_CHAT_MSG_PENDING : Z := 1.
Definition QRX_AURA_CHAT_MSG_STREAMING : Z := 2.
Definition QRX_AURA_CHAT_MSG_COMPLETE : Z := 3.
Definition QRX_AURA_CHAT_MSG_CANCELLED : Z := 4.
Definition QRX_AURA_CHAT_MSG_FAILED : Z := 5.

Record QrxAuraConversation := mkConversation {
  cv_version : Z; cv_conversation_id : bytes; cv_owner : bytes; cv_session_id : bytes; cv_title : bytes; cv_context_ref : bytes;
  cv_max_conversation_fee_atoms : Z; cv_spent_atoms : Z; cv_message_count : Z; cv_encrypted_context : Z
}.
Record QrxAuraChatMessage := mkMessage {
  cm_version : Z; cm_message_id : bytes; cm_conversation_id : bytes; cm_parent_message_id : bytes; cm_role : Z; cm_state : Z; cm_content_ref : bytes;
  cm_job_ref : bytes; cm_artifact_refs : list bytes; cm_authorized_fee_atoms : Z; cm_verified_fee_atoms : Z; cm_stream_sequence : Z
}.

(** A string that may be absent, and one that may be empty. *)
Definition text (s : option bytes) : bytes := match s with Some s => cstr s | None => [] end.
Definition empty_or_ref (s : bytes) : bool := bool_decide (cstr s = []) || qrx_job_ref_valid s QRX_AURA_MAX_REF.

Definition qrx_aura_conversation_validate (c : QrxAuraConversation) : Z :=
  if decide (cv_version c <> QRX_AURA_CHAT_VERSION) then -1
  else if negb (nonempty (cv_conversation_id c) QRX_AURA_MAX_ID) || negb (nonempty (cv_owner c) QRX_AURA_MAX_OWNER) ||
          negb (nonempty (cv_session_id c) QRX_AURA_MAX_ID) then -1
  else if decide (cv_message_count c > QRX_AURA_CHAT_MAX_MESSAGES \/ cv_max_conversation_fee_atoms c = 0 \/
                  cv_spent_atoms c > cv_max_conversation_fee_atoms c \/ cv_encrypted_context c <> 1) then -1
  else if negb (empty_or_ref (cv_context_ref c)) then -1
  else 0.
Definition qrx_aura_conversation_open (m : QrxAuraAgentManifest) (s : QrxAuraSession) (id : bytes) (title ctx : option bytes) (max : Z)
    : Z * option QrxAuraConversation :=
  if decide (qrx_aura_agent_manifest_validate m <> 0 \/ ss_version s <> QRX_AURA_RUNTIME_VERSION) then (-1, None)
  else if negb (same_string (ss_owner s) (mf_owner m)) || bad_string id QRX_AURA_MAX_ID then (-1, None)
  else if decide (max = 0 \/ max > ss_authorized_atoms s -64 ss_spent_atoms s) then (-1, None)
  else if negb (match ctx with Some ctx => empty_or_ref ctx | None => true end) then (-1, None)
  else
    let o := mkConversation QRX_AURA_CHAT_VERSION (arr QRX_AURA_MAX_ID (cstr id)) (arr QRX_AURA_MAX_OWNER (cstr (mf_owner m)))
               (arr QRX_AURA_MAX_ID (cstr (ss_session_id s))) (arr QRX_AURA_CHAT_MAX_TITLE (text title)) (arr QRX_AURA_MAX_REF (text ctx)) max 0 0 1 in
    (qrx_aura_conversation_validate o, Some o).
Definition qrx_aura_chat_message_validate (c : QrxAuraConversation) (m : QrxAuraChatMessage) : Z :=
  if decide (qrx_aura_conversation_validate c <> 0 \/ cm_version m <> QRX_AURA_CHAT_VERSION) then -1
  else if negb (same_string (cm_conversation_id m) (cv_conversation_id c)) || negb (nonempty (cm_message_id m) QRX_AURA_MAX_ID) then -1
  else if decide (cm_role m < QRX_AURA_CHAT_ROLE_SYSTEM \/ cm_role m > QRX_AURA_CHAT_ROLE_TOOL \/ cm_state m < QRX_AURA_CHAT_MSG_PENDING \/
                  cm_state m > QRX_AURA_CHAT_MSG_FAILED) then -1
  else if negb (qrx_job_ref_valid (cm_content_ref m) QRX_AURA_MAX_REF) then -1
  else if decide (blen (cm_artifact_refs m) > QRX_AURA_CHAT_MAX_ARTIFACTS \/ cm_verified_fee_atoms m > cm_authorized_fee_atoms m) then -1
  else if forallb (fun r => qrx_job_ref_valid r QRX_AURA_MAX_REF) (cm_artifact_refs m) then 0 else -1.
Definition message_preimage (m : QrxAuraChatMessage) : bytes :=
  cs "QRX/AURA/CHAT-MESSAGE/V1" ++
  fields ([cm_message_id m; cm_conversation_id m; cm_parent_message_id m; cm_content_ref m; cm_job_ref m] ++ cm_artifact_refs m) ++
  qrx_job_digest_u32 (cm_role m) ++ qrx_job_digest_u32 (cm_state m) ++ qrx_job_digest_u32 (blen (cm_artifact_refs m)) ++
  qrx_job_digest_u64 (cm_authorized_fee_atoms m) ++ qrx_job_digest_u64 (cm_verified_fee_atoms m) ++ qrx_job_digest_u64 (cm_stream_sequence m).
Definition message_at (m : QrxAuraChatMessage) (state : Z) (job : bytes) (artifacts : list bytes) (verified seq : Z) : QrxAuraChatMessage :=
  mkMessage (cm_version m) (cm_message_id m) (cm_conversation_id m) (cm_parent_message_id m) (cm_role m) state (cm_content_ref m) job artifacts
    (cm_authorized_fee_atoms m) verified seq.
Definition message_live (m : QrxAuraChatMessage) : Prop := cm_state m = QRX_AURA_CHAT_MSG_PENDING \/ cm_state m = QRX_AURA_CHAT_MSG_STREAMING.
#[export] Instance message_live_dec m : Decision (message_live m).
Proof. unfold message_live. apply _. Defined.

Definition qrx_aura_chat_begin_assistant (c : QrxAuraConversation) (mid : bytes) (parent : option bytes) (input output : bytes) (fee : Z)
    : Z * option (QrxAuraToolCall * QrxAuraChatMessage) :=
  if decide (qrx_aura_conversation_validate c <> 0 \/ cstr mid = [] \/ fee = 0 \/ fee > cv_max_conversation_fee_atoms c -64 cv_spent_atoms c) then (-1, None)
  else
    let call := mkToolCall QRX_AURA_RUNTIME_VERSION (arr QRX_AURA_MAX_ID (cs "chat:" ++ cstr mid)) (arr QRX_AURA_MAX_ID (cstr (cv_session_id c)))
                  QRX_AURA_TOOL_MODEL_INFERENCE (arr QRX_AURA_MAX_REF (cstr input)) (arr QRX_AURA_MAX_REF (cstr output))
                  (arr QRX_COMPUTE_JOB_MAX_RUNTIME (cs "qrx-aura-chat-v1")) fee 300000 (16 * 1024 * 1024) 0 in
    let m := mkMessage QRX_AURA_CHAT_VERSION (arr QRX_AURA_MAX_ID (cstr mid)) (arr QRX_AURA_MAX_ID (cstr (cv_conversation_id c)))
               (arr QRX_AURA_MAX_ID (text parent)) QRX_AURA_CHAT_ROLE_ASSISTANT QRX_AURA_CHAT_MSG_PENDING (arr QRX_AURA_MAX_REF (cstr output))
               (repeat x00 QRX_AURA_CHAT_MAX_JOB_REF) [] fee 0 0 in
    (qrx_aura_chat_message_validate c m, Some (call, m)).
Definition qrx_aura_chat_stream_advance (m : QrxAuraChatMessage) (seq : Z) : Z * QrxAuraChatMessage :=
  if decide (~ message_live m \/ seq <= cm_stream_sequence m) then (-1, m)
  else (0, message_at m QRX_AURA_CHAT_MSG_STREAMING (cm_job_ref m) (cm_artifact_refs m) (cm_verified_fee_atoms m) seq).
Definition qrx_aura_chat_complete (c : QrxAuraConversation) (m : QrxAuraChatMessage) (fee : Z) (job : bytes)
    : Z * QrxAuraConversation * QrxAuraChatMessage :=
  if decide (qrx_aura_conversation_validate c <> 0 \/ ~ message_live m \/ fee > cm_authorized_fee_atoms m \/
             cv_spent_atoms c +64 fee > cv_max_conversation_fee_atoms c) then (-1, c, m)
  else if bad_string job QRX_AURA_CHAT_MAX_JOB_REF then (-1, c, m)
  else (0, mkConversation (cv_version c) (cv_conversation_id c) (cv_owner c) (cv_session_id c) (cv_title c) (cv_context_ref c)
             (cv_max_conversation_fee_atoms c) (cv_spent_atoms c +64 fee) (u32 (cv_message_count c + 1)) (cv_encrypted_context c),
        message_at m QRX_AURA_CHAT_MSG_COMPLETE (overwrite QRX_AURA_CHAT_MAX_JOB_REF (cstr job) (cm_job_ref m)) (cm_artifact_refs m) fee (cm_stream_sequence m)).
Definition qrx_aura_chat_cancel (m : QrxAuraChatMessage) : Z * QrxAuraChatMessage :=
  if decide (~ message_live m) then (-1, m)
  else (0, message_at m QRX_AURA_CHAT_MSG_CANCELLED (cm_job_ref m) (cm_artifact_refs m) (cm_verified_fee_atoms m) (cm_stream_sequence m)).
Definition qrx_aura_chat_add_artifact (m : QrxAuraChatMessage) (r : bytes) : Z * QrxAuraChatMessage :=
  if negb (qrx_job_ref_valid r QRX_AURA_MAX_REF) then (-1, m)
  else if decide (blen (cm_artifact_refs m) >= QRX_AURA_CHAT_MAX_ARTIFACTS) then (-1, m)
  else (0, message_at m (cm_state m) (cm_job_ref m) (cm_artifact_refs m ++ [arr QRX_AURA_MAX_REF (cstr r)]) (cm_verified_fee_atoms m) (cm_stream_sequence m)).
Definition qrx_aura_chat_branch (s : QrxAuraConversation) (from : QrxAuraChatMessage) (id : bytes) : option QrxAuraConversation :=
  if decide (qrx_aura_conversation_validate s <> 0) then None
  else if bad_string id QRX_AURA_MAX_ID || negb (same_string (cm_conversation_id from) (cv_conversation_id s)) then None
  else Some (mkConversation (cv_version s) (overwrite QRX_AURA_MAX_ID (cstr id) (cv_conversation_id s)) (cv_owner s) (cv_session_id s) (cv_title s)
               (cv_context_ref s) (cv_max_conversation_fee_atoms s) 0 0 (cv_encrypted_context s)).

(** ** Artifacts and projects *)

Definition QRX_AURA_ARTIFACT_VERSION : Z := 1.
Definition QRX_AURA_PROJECT_VERSION : Z := 1.
Definition QRX_AURA_ARTIFACT_MAX_NAME : nat := 192.
Definition QRX_AURA_ARTIFACT_MAX_EXT : nat := 16.
Definition QRX_AURA_PROJECT_MAX_FILES : Z := 128.
Definition QRX_AURA_PROJECT_MAX_PATH : nat := 256.
Definition QRX_AURA_ARTIFACT_TEXT : Z := 1.
Definition QRX_AURA_ARTIFACT_OTHER : Z := 9.

Record QrxAuraArtifact := mkArtifact {
  ar_version : Z; ar_artifact_id : bytes; ar_owner : bytes; ar_name : bytes; ar_mime_type : bytes; ar_extension : bytes; ar_type : Z;
  ar_drive_ref : bytes; ar_source_job_ref : bytes; ar_content_commitment : bytes; ar_size_bytes : Z; ar_private_pq : Z; ar_immutable : Z
}.
Record QrxAuraProjectFile := mkProjectFile { pf_path : bytes; pf_artifact_commitment : bytes }.
Record QrxAuraProject := mkProject {
  pj_version : Z; pj_project_id : bytes; pj_owner : bytes; pj_name : bytes; pj_root_ref : bytes; pj_files : list QrxAuraProjectFile; pj_private_pq : Z
}.

Definition qrx_aura_hex64 (s : bytes) : bool := if decide (blen (cstr s) <> 64) then false else forallb is_hex_lower (cstr s).
Definition qrx_aura_relative_path_safe (p : bytes) : bool :=
  let s := cstr p in
  if bad_string p QRX_AURA_PROJECT_MAX_PATH then false
  else if decide (head s = Some x2f \/ head s = Some x5c) then false
  else if strstr s (cs "..") || bool_decide (x5c ∈ s) || bool_decide (x3a ∈ s) then false
  else forallb (fun c => negb (bool_decide (byte.unsigned c < 32))) s.
Definition qrx_aura_artifact_validate (a : QrxAuraArtifact) : Z :=
  if decide (ar_version a <> QRX_AURA_ARTIFACT_VERSION) then -1
  else if negb (nonempty (ar_artifact_id a) QRX_AURA_MAX_ID) || negb (nonempty (ar_owner a) QRX_AURA_MAX_OWNER) ||
          negb (nonempty (ar_name a) QRX_AURA_ARTIFACT_MAX_NAME) then -1
  else if decide (ar_type a < QRX_AURA_ARTIFACT_TEXT \/ ar_type a > QRX_AURA_ARTIFACT_OTHER) then -1
  else if negb (qrx_job_ref_valid (ar_drive_ref a) QRX_AURA_MAX_REF) then -1
  else if decide (ar_size_bytes a = 0 \/ ar_private_pq a > 1 \/ ar_immutable a <> 1) then -1
  else if negb (empty_or_ref (ar_source_job_ref a)) then -1
  else if negb (bool_decide (cstr (ar_content_commitment a) = []) || qrx_aura_hex64 (ar_content_commitment a)) then -1
  else if decide (cstr (ar_extension a) <> []) then
    if decide (head (cstr (ar_extension a)) <> Some x2e \/ QRX_AURA_ARTIFACT_MAX_EXT <= length (cstr (ar_extension a)))%nat then -1 else 0
  else 0.
Definition artifact_preimage (a : QrxAuraArtifact) : bytes :=
  cs "QRX/AURA/ARTIFACT/V1" ++
  fields [ar_artifact_id a; ar_owner a; ar_name a; ar_mime_type a; ar_extension a; ar_drive_ref a; ar_source_job_ref a; ar_content_commitment a] ++
  qrx_job_digest_u32 (ar_version a) ++ qrx_job_digest_u32 (ar_type a) ++ qrx_job_digest_u64 (ar_size_bytes a) ++ qrx_job_digest_u32 (ar_private_pq a) ++
  qrx_job_digest_u32 (ar_immutable a).
(** The paths seen so far, each of them once. *)
Definition file_step (acc : option (list bytes)) (f : QrxAuraProjectFile) : option (list bytes) :=
  seen ← acc;
  if negb (qrx_aura_relative_path_safe (pf_path f)) || negb (qrx_aura_hex64 (pf_artifact_commitment f)) then None
  else if decide (cstr (pf_path f) ∈ seen) then None else Some (seen ++ [cstr (pf_path f)]).
Definition qrx_aura_project_validate (p : QrxAuraProject) : Z :=
  if decide (pj_version p <> QRX_AURA_PROJECT_VERSION) then -1
  else if negb (nonempty (pj_project_id p) QRX_AURA_MAX_ID) || negb (nonempty (pj_owner p) QRX_AURA_MAX_OWNER) ||
          negb (nonempty (pj_name p) QRX_AURA_ARTIFACT_MAX_NAME) then -1
  else if negb (empty_or_ref (pj_root_ref p)) then -1
  else if decide (pj_private_pq p > 1 \/ blen (pj_files p) > QRX_AURA_PROJECT_MAX_FILES) then -1
  else match foldl file_step (Some []) (pj_files p) with Some _ => 0 | None => -1 end.
Definition project_preimage (p : QrxAuraProject) : bytes :=
  cs "QRX/AURA/PROJECT/V1" ++ fields [pj_project_id p; pj_owner p; pj_name p; pj_root_ref p] ++
  concat ((fun f => fields [pf_path f; pf_artifact_commitment f]) <$> pj_files p) ++
  qrx_job_digest_u32 (pj_version p) ++ qrx_job_digest_u32 (blen (pj_files p)) ++ qrx_job_digest_u32 (pj_private_pq p).
Definition qrx_aura_artifact_prepare_write_call (c : QrxAuraConversation) (a : QrxAuraArtifact) (call_id input : bytes) (fee : Z) : option QrxAuraToolCall :=
  if decide (qrx_aura_conversation_validate c <> 0 \/ qrx_aura_artifact_validate a <> 0) then None
  else if negb (same_string (cv_owner c) (ar_owner a)) || bad_string call_id QRX_AURA_MAX_ID || negb (qrx_job_ref_valid input QRX_AURA_MAX_REF) then None
  else if decide (fee = 0 \/ fee > cv_max_conversation_fee_atoms c -64 cv_spent_atoms c) then None
  else Some (mkToolCall QRX_AURA_RUNTIME_VERSION (arr QRX_AURA_MAX_ID (cstr call_id)) (arr QRX_AURA_MAX_ID (cstr (cv_session_id c)))
               QRX_AURA_TOOL_WRITE_ARTIFACT (arr QRX_AURA_MAX_REF (cstr input)) (arr QRX_AURA_MAX_REF (cstr (ar_drive_ref a)))
               (arr QRX_COMPUTE_JOB_MAX_RUNTIME (cs "qrx-aura-artifact-v1")) fee 300000 (ar_size_bytes a) 0).
Definition qrx_aura_artifact_attach_to_chat (m : QrxAuraChatMessage) (a : QrxAuraArtifact) : Z * QrxAuraChatMessage :=
  if decide (qrx_aura_artifact_validate a <> 0) then (-1, m) else qrx_aura_chat_add_artifact m (ar_drive_ref a).

Section sha.
Variable sha3_256 : bytes -> bytes.
Definition qrx_aura_chat_message_commitment (m : QrxAuraChatMessage) : option bytes :=
  if decide (cm_version m <> QRX_AURA_CHAT_VERSION) then None
  else if negb (nonempty (cm_message_id m) QRX_AURA_MAX_ID) then None else Some (hex (sha3_256 (message_preimage m))).
Definition qrx_aura_artifact_commitment (a : QrxAuraArtifact) : option bytes :=
  if decide (qrx_aura_artifact_validate a <> 0) then None else Some (hex (sha3_256 (artifact_preimage a))).
Definition qrx_aura_project_commitment (p : QrxAuraProject) : option bytes :=
  if decide (qrx_aura_project_validate p <> 0) then None else Some (hex (sha3_256 (project_preimage p))).
Definition qrx_aura_project_add_file (p : QrxAuraProject) (path : bytes) (a : QrxAuraArtifact) : Z * QrxAuraProject :=
  if decide (qrx_aura_artifact_validate a <> 0) then (-1, p)
  else if negb (qrx_aura_relative_path_safe path) then (-1, p)
  else if decide (blen (pj_files p) >= QRX_AURA_PROJECT_MAX_FILES) then (-1, p)
  else if negb (same_string (pj_owner p) (ar_owner a)) then (-1, p)
  else if existsb (fun f => same_string (pf_path f) path) (pj_files p) then (-2, p)
  else match qrx_aura_artifact_commitment a with
       | None => (-1, p)
       | Some h => (0, mkProject (pj_version p) (pj_project_id p) (pj_owner p) (pj_name p) (pj_root_ref p)
                         (pj_files p ++ [mkProjectFile (arr QRX_AURA_PROJECT_MAX_PATH (cstr path)) (arr 65 h)]) (pj_private_pq p))
       end.
End sha.

(** ** Code workspaces *)

Definition QRX_AURA_CODE_WORKSPACE_VERSION : Z := 1.
Definition QRX_AURA_CODE_MAX_STAGES : Z := 16.
Definition QRX_AURA_CODE_MAX_LABEL : nat := 96.
Definition QRX_AURA_CODE_MAX_RUNTIME : nat := 96.
Definition QRX_AURA_CODE_STAGE_GENERATE : Z := 1.
Definition QRX_AURA_CODE_STAGE_EXECUTE : Z := 2.
Definition QRX_AURA_CODE_STAGE_COMPILE : Z := 4.
Definition QRX_AURA_CODE_STAGE_TEST : Z := 8.
Definition QRX_AURA_CODE_STAGE_ALLOWED_V1 : Z := 15.
Definition QRX_AURA_CODE_PLAN_DRAFT : Z := 1.
Definition QRX_AURA_CODE_PLAN_APPROVED : Z := 2.
Definition QRX_AURA_CODE_PLAN_RUNNING : Z := 3.
Definition QRX_AURA_CODE_PLAN_COMPLETED : Z := 4.
Definition QRX_AURA_CODE_PLAN_FAILED : Z := 5.
Definition QRX_AURA_CODE_PLAN_CANCELLED : Z := 6.

Record QrxAuraCodeStage := mkStage {
  sg_stage_id : Z; sg_stage_mask : Z; sg_label : bytes; sg_input_ref : bytes; sg_output_ref : bytes; sg_runtime_id : bytes; sg_max_fee_atoms : Z;
  sg_max_runtime_ms : Z; sg_max_output_bytes : Z; sg_requires_user_approval : Z
}.
Record QrxAuraCodeWorkspace := mkWorkspace {
  cw_version : Z; cw_workspace_id : bytes; cw_owner : bytes; cw_project_commitment : bytes; cw_source_project_ref : bytes; cw_patch_artifact_ref : bytes;
  cw_build_log_ref : bytes; cw_test_log_ref : bytes; cw_max_total_fee_atoms : Z; cw_stages : list QrxAuraCodeStage; cw_state : Z;
  cw_user_approved_execution : Z
}.

Definition qrx_aura_code_one_stage_bit (m : Z) : bool :=
  bool_decide (m <> 0) && bool_decide (Z.land m (m - 1) = 0) && bool_decide (Z.ldiff m QRX_AURA_CODE_STAGE_ALLOWED_V1 = 0).
(** The stages that run code. *)
Definition runs_stage (mask : Z) : bool :=
  has mask (Z.lor QRX_AURA_CODE_STAGE_EXECUTE (Z.lor QRX_AURA_CODE_STAGE_COMPILE QRX_AURA_CODE_STAGE_TEST)).
(** The sum so far, or [None] once it has overflowed. *)
Definition fee_step (t : option Z) (s : QrxAuraCodeStage) : option Z :=
  t ← t; if decide (UINT64_MAX - t < sg_max_fee_atoms s) then None else Some (t + sg_max_fee_atoms s).
Definition qrx_aura_code_total_stage_fee (w : QrxAuraCodeWorkspace) : Z := default UINT64_MAX (foldl fee_step (Some 0) (cw_stages w)).
Definition stage_ok (i : nat) (s : QrxAuraCodeStage) : bool :=
  if negb (bool_decide (sg_stage_id s = Z.of_nat i + 1)) || negb (qrx_aura_code_one_stage_bit (sg_stage_mask s)) then false
  else if negb (nonempty (sg_label s) QRX_AURA_CODE_MAX_LABEL) || negb (qrx_job_ref_valid (sg_input_ref s) QRX_AURA_MAX_REF) ||
          negb (qrx_job_ref_valid (sg_output_ref s) QRX_AURA_MAX_REF) || negb (nonempty (sg_runtime_id s) QRX_AURA_CODE_MAX_RUNTIME) then false
  else if decide (sg_max_fee_atoms s = 0 \/ sg_max_runtime_ms s = 0 \/ sg_max_output_bytes s = 0 \/ sg_requires_user_approval s > 1) then false
  else negb (runs_stage (sg_stage_mask s) && bool_decide (sg_requires_user_approval s = 0)).
Definition qrx_aura_code_workspace_validate (w : QrxAuraCodeWorkspace) : Z :=
  if decide (cw_version w <> QRX_AURA_CODE_WORKSPACE_VERSION) then -1
  else if negb (nonempty (cw_workspace_id w) QRX_AURA_MAX_ID) || negb (nonempty (cw_owner w) QRX_AURA_MAX_OWNER) ||
          negb (qrx_aura_hex64 (cw_project_commitment w)) || negb (qrx_job_ref_valid (cw_source_project_ref w) QRX_AURA_MAX_REF) then -1
  else if decide (cw_max_total_fee_atoms w = 0 \/ blen (cw_stages w) > QRX_AURA_CODE_MAX_STAGES \/ cw_user_approved_execution w > 1) then -1
  else if decide (cw_state w < QRX_AURA_CODE_PLAN_DRAFT \/ cw_state w > QRX_AURA_CODE_PLAN_CANCELLED) then -1
  else if negb (empty_or_ref (cw_patch_artifact_ref w)) || negb (empty_or_ref (cw_build_log_ref w)) || negb (empty_or_ref (cw_test_log_ref w)) then -1
  else if negb (forallb id (imap stage_ok (cw_stages w))) then -1
  else if decide (qrx_aura_code_total_stage_fee w > cw_max_total_fee_atoms w) then -1
  else 0.
Definition workspace_with (w : QrxAuraCodeWorkspace) (stages : list QrxAuraCodeStage) (state approved : Z) : QrxAuraCodeWorkspace :=
  mkWorkspace (cw_version w) (cw_workspace_id w) (cw_owner w) (cw_project_commitment w) (cw_source_project_ref w) (cw_patch_artifact_ref w)
    (cw_build_log_ref w) (cw_test_log_ref w) (cw_max_total_fee_atoms w) stages state approved.
(** A stage that makes the workspace invalid has been added all the same. *)
Definition qrx_aura_code_workspace_add_stage (w : QrxAuraCodeWorkspace) (mask : Z) (label input output rt : bytes) (fee ms size : Z)
    : Z * QrxAuraCodeWorkspace :=
  let used := qrx_aura_code_total_stage_fee w in
  if decide (cw_state w <> QRX_AURA_CODE_PLAN_DRAFT \/ blen (cw_stages w) >= QRX_AURA_CODE_MAX_STAGES) then (-1, w)
  else if negb (qrx_aura_code_one_stage_bit mask) || bad_string label QRX_AURA_CODE_MAX_LABEL || negb (qrx_job_ref_valid input QRX_AURA_MAX_REF) ||
          negb (qrx_job_ref_valid output QRX_AURA_MAX_REF) || bad_string rt QRX_AURA_CODE_MAX_RUNTIME then (-1, w)
  else if decide (fee = 0 \/ ms = 0 \/ size = 0) then (-1, w)
  else if decide (used = UINT64_MAX \/ fee > cw_max_total_fee_atoms w \/ used > cw_max_total_fee_atoms w - fee) then (-2, w)
  else
    let s := mkStage (u32 (blen (cw_stages w) + 1)) mask (arr QRX_AURA_CODE_MAX_LABEL (cstr label)) (arr QRX_AURA_MAX_REF (cstr input))
               (arr QRX_AURA_MAX_REF (cstr output)) (arr QRX_AURA_CODE_MAX_RUNTIME (cstr rt)) fee ms size (if runs_stage mask then 1 else 0) in
    let w := workspace_with w (cw_stages w ++ [s]) (cw_state w) (cw_user_approved_execution w) in
    (qrx_aura_code_workspace_validate w, w).
Definition qrx_aura_code_workspace_approve (w : QrxAuraCodeWorkspace) (approve : Z) : Z * QrxAuraCodeWorkspace :=
  if decide (qrx_aura_code_workspace_validate w <> 0 \/ cw_state w <> QRX_AURA_CODE_PLAN_DRAFT \/ approve > 1 \/ cw_stages w = []) then (-1, w)
  else if existsb (fun s => bool_decide (sg_requires_user_approval s <> 0 /\ approve = 0)) (cw_stages w) then (-2, w)
  else (0, workspace_with w (cw_stages w) QRX_AURA_CODE_PLAN_APPROVED approve).
Definition stage_digest (s : QrxAuraCodeStage) : bytes :=
  fields [sg_label s; sg_input_ref s; sg_output_ref s; sg_runtime_id s] ++ qrx_job_digest_u32 (sg_stage_id s) ++ qrx_job_digest_u32 (sg_stage_mask s) ++
  qrx_job_digest_u64 (sg_max_fee_atoms s) ++ qrx_job_digest_u64 (sg_max_runtime_ms s) ++ qrx_job_digest_u64 (sg_max_output_bytes s) ++
  qrx_job_digest_u32 (sg_requires_user_approval s).
Definition workspace_preimage (w : QrxAuraCodeWorkspace) : bytes :=
  cs "QRX/AURA/CODE-WORKSPACE/V1" ++
  fields [cw_workspace_id w; cw_owner w; cw_project_commitment w; cw_source_project_ref w; cw_patch_artifact_ref w; cw_build_log_ref w; cw_test_log_ref w] ++
  concat (stage_digest <$> cw_stages w) ++ qrx_job_digest_u32 (cw_version w) ++ qrx_job_digest_u64 (cw_max_total_fee_atoms w) ++
  qrx_job_digest_u32 (blen (cw_stages w)) ++ qrx_job_digest_u32 (cw_state w) ++ qrx_job_digest_u32 (cw_user_approved_execution w).
Definition qrx_aura_code_stage_prepare_tool_call (w : QrxAuraCodeWorkspace) (c : QrxAuraConversation) (idx : nat) (call_id : bytes) : option QrxAuraToolCall :=
  if decide (qrx_aura_code_workspace_validate w <> 0 \/ qrx_aura_conversation_validate c <> 0) then None
  else if negb (same_string (cw_owner w) (cv_owner c)) then None
  else if decide (cw_state w <> QRX_AURA_CODE_PLAN_APPROVED) then None
  else
    s ← cw_stages w !! idx;
    if bad_string call_id QRX_AURA_MAX_ID then None
    else
      t ← (if decide (sg_stage_mask s = QRX_AURA_CODE_STAGE_GENERATE) then Some QRX_AURA_TOOL_CODE_GENERATION
           else if decide (sg_stage_mask s = QRX_AURA_CODE_STAGE_EXECUTE) then Some QRX_AURA_TOOL_CODE_EXECUTION
           else if decide (sg_stage_mask s = QRX_AURA_CODE_STAGE_COMPILE) then Some QRX_AURA_TOOL_COMPILE
           else if decide (sg_stage_mask s = QRX_AURA_CODE_STAGE_TEST) then Some QRX_AURA_TOOL_TEST else None);
      Some (mkToolCall QRX_AURA_RUNTIME_VERSION (arr QRX_AURA_MAX_ID (cstr call_id)) (arr QRX_AURA_MAX_ID (cstr (cv_session_id c))) t
              (arr QRX_AURA_MAX_REF (cstr (sg_input_ref s))) (arr QRX_AURA_MAX_REF (cstr (sg_output_ref s)))
              (arr QRX_COMPUTE_JOB_MAX_RUNTIME (cstr (sg_runtime_id s))) (sg_max_fee_atoms s) (sg_max_runtime_ms s) (sg_max_output_bytes s)
              (if decide (sg_requires_user_approval s <> 0) then cw_user_approved_execution w else 0)).
Definition qrx_aura_code_plan_state_name (s : Z) : bytes :=
  if decide (s = QRX_AURA_CODE_PLAN_DRAFT) then cs "DRAFT" else if decide (s = QRX_AURA_CODE_PLAN_APPROVED) then cs "APPROVED"
  else if decide (s = QRX_AURA_CODE_PLAN_RUNNING) then cs "RUNNING" else if decide (s = QRX_AURA_CODE_PLAN_COMPLETED) then cs "COMPLETED"
  else if decide (s = QRX_AURA_CODE_PLAN_FAILED) then cs "FAILED" else if decide (s = QRX_AURA_CODE_PLAN_CANCELLED) then cs "CANCELLED" else cs "UNKNOWN".

(** ** Executions of a workspace *)

Definition QRX_AURA_CODE_EXECUTION_VERSION : Z := 1.
Definition QRX_AURA_CODE_RESULT_MAX_SUMMARY : nat := 192.
Definition QRX_AURA_CODE_STAGE_PENDING : Z := 1.
Definition QRX_AURA_CODE_STAGE_RUNNING : Z := 2.
Definition QRX_AURA_CODE_STAGE_PASSED : Z := 3.
Definition QRX_AURA_CODE_STAGE_FAILED : Z := 4.
Definition QRX_AURA_CODE_STAGE_CANCELLED : Z := 5.

Record QrxAuraCodeStageResult := mkResult {
  sr_stage_id : Z; sr_status : Z; sr_output_ref : bytes; sr_log_ref : bytes; sr_result_commitment : bytes; sr_summary : bytes; sr_exit_code : Z;
  sr_charged_fee_atoms : Z; sr_started_ms : Z; sr_finished_ms : Z
}.
Record QrxAuraCodeExecution := mkExecution {
  ex_version : Z; ex_execution_id : bytes; ex_workspace_commitment : bytes; ex_owner : bytes; ex_current_stage_index : Z;
  ex_results : list QrxAuraCodeStageResult; ex_patch_artifact_ref : bytes; ex_diff_artifact_ref : bytes; ex_build_report_ref : bytes;
  ex_test_report_ref : bytes; ex_total_charged_atoms : Z; ex_state : Z; ex_final_user_approved : Z
}.

Definition qrx_aura_exec_ref_optional (s : option bytes) : bool := match s with None => true | Some s => empty_or_ref s end.
Definition qrx_aura_exec_result_commitment_optional (s : option bytes) : bool :=
  match s with None => true | Some s => bool_decide (cstr s = []) || qrx_aura_hex64 s end.
Definition qrx_aura_code_stage_status_name (s : Z) : bytes :=
  if decide (s = QRX_AURA_CODE_STAGE_PENDING) then cs "PENDING" else if decide (s = QRX_AURA_CODE_STAGE_RUNNING) then cs "RUNNING"
  else if decide (s = QRX_AURA_CODE_STAGE_PASSED) then cs "PASSED" else if decide (s = QRX_AURA_CODE_STAGE_FAILED) then cs "FAILED"
  else if decide (s = QRX_AURA_CODE_STAGE_CANCELLED) then cs "CANCELLED" else cs "UNKNOWN".

(** The number of running stages and the charges so far. *)
Definition result_step (acc : option (nat * Z * Z)) (p : QrxAuraCodeStageResult * QrxAuraCodeStage) : option (nat * Z * Z) :=
  '(i, running, sum) ← acc;
  let '(r, s) := p in
  if decide (sr_stage_id r <> Z.of_nat i + 1 \/ sr_status r < QRX_AURA_CODE_STAGE_PENDING \/ sr_status r > QRX_AURA_CODE_STAGE_CANCELLED) then None
  else if negb (qrx_aura_exec_ref_optional (Some (sr_output_ref r))) || negb (qrx_aura_exec_ref_optional (Some (sr_log_ref r))) ||
          negb (qrx_aura_exec_result_commitment_optional (Some (sr_result_commitment r))) then None
  else if negb (nonempty (sr_summary r) QRX_AURA_CODE_RESULT_MAX_SUMMARY) && bool_decide (sr_status r >= QRX_AURA_CODE_STAGE_PASSED) then None
  else
    let running := if decide (sr_status r = QRX_AURA_CODE_STAGE_RUNNING) then running + 1 else running in
    if decide (sr_charged_fee_atoms r > sg_max_fee_atoms s) then None
    else if decide (UINT64_MAX - sum < sr_charged_fee_atoms r) then None
    else if decide (sr_finished_ms r <> 0 /\ sr_started_ms r <> 0 /\ sr_finished_ms r < sr_started_ms r) then None
    else Some (S i, running, sum + sr_charged_fee_atoms r).
Definition execution_preimage (e : QrxAuraCodeExecution) : bytes :=
  cs "QRX/AURA/CODE-EXECUTION/V1" ++
  fields [ex_execution_id e; ex_workspace_commitment e; ex_owner e; ex_patch_artifact_ref e; ex_diff_artifact_ref e; ex_build_report_ref e; ex_test_report_ref e] ++
  concat ((fun r => fields [sr_output_ref r; sr_log_ref r; sr_result_commitment r; sr_summary r] ++ qrx_job_digest_u32 (sr_stage_id r) ++
             qrx_job_digest_u32 (sr_status r) ++ qrx_job_digest_u32 (u32 (sr_exit_code r)) ++ qrx_job_digest_u64 (sr_charged_fee_atoms r) ++
             qrx_job_digest_u64 (sr_started_ms r) ++ qrx_job_digest_u64 (sr_finished_ms r)) <$> ex_results e) ++
  qrx_job_digest_u32 (ex_version e) ++ qrx_job_digest_u32 (ex_current_stage_index e) ++ qrx_job_digest_u32 (blen (ex_results e)) ++
  qrx_job_digest_u64 (ex_total_charged_atoms e) ++ qrx_job_digest_u32 (ex_state e) ++ qrx_job_digest_u32 (ex_final_user_approved e).
Definition execution_with (e : QrxAuraCodeExecution) (index : Z) (results : list QrxAuraCodeStageResult) (charged state : Z) : QrxAuraCodeExecution :=
  mkExecution (ex_version e) (ex_execution_id e) (ex_workspace_commitment e) (ex_owner e) index results (ex_patch_artifact_ref e) (ex_diff_artifact_ref e)
    (ex_build_report_ref e) (ex_test_report_ref e) charged state (ex_final_user_approved e).
(** No state of the execution is asked for. *)
Definition qrx_aura_code_execution_set_reports (e : QrxAuraCodeExecution) (p d b t : option bytes) : Z * QrxAuraCodeExecution :=
  if negb (qrx_aura_exec_ref_optional p) || negb (qrx_aura_exec_ref_optional d) || negb (qrx_aura_exec_ref_optional b) || negb (qrx_aura_exec_ref_optional t) then (-1, e)
  else (0, mkExecution (ex_version e) (ex_execution_id e) (ex_workspace_commitment e) (ex_owner e) (ex_current_stage_index e) (ex_results e)
             (overwrite QRX_AURA_MAX_REF (text p) (ex_patch_artifact_ref e)) (overwrite QRX_AURA_MAX_REF (text d) (ex_diff_artifact_ref e))
             (overwrite QRX_AURA_MAX_REF (text b) (ex_build_report_ref e)) (overwrite QRX_AURA_MAX_REF (text t) (ex_test_report_ref e))
             (ex_total_charged_atoms e) (ex_state e) (ex_final_user_approved e)).
Definition qrx_aura_code_execution_user_approve (e : QrxAuraCodeExecution) (approve : Z) : Z * QrxAuraCodeExecution :=
  if decide (approve > 1 \/ ex_state e <> QRX_AURA_CODE_PLAN_COMPLETED) then (-1, e)
  else (0, mkExecution (ex_version e) (ex_execution_id e) (ex_workspace_commitment e) (ex_owner e) (ex_current_stage_index e) (ex_results e)
             (ex_patch_artifact_ref e) (ex_diff_artifact_ref e) (ex_build_report_ref e) (ex_test_report_ref e) (ex_total_charged_atoms e) (ex_state e) approve).

Section sha.
Variable sha3_256 : bytes -> bytes.
Definition qrx_aura_code_workspace_commitment (w : QrxAuraCodeWorkspace) : option bytes :=
  if decide (qrx_aura_code_workspace_validate w <> 0) then None else Some (hex (sha3_256 (workspace_preimage w))).
Definition qrx_aura_code_workspace_init (p : QrxAuraProject) (id src : bytes) (max : Z) : option QrxAuraCodeWorkspace :=
  if decide (qrx_aura_project_validate p <> 0) then None
  else if bad_string id QRX_AURA_MAX_ID || negb (qrx_job_ref_valid src QRX_AURA_MAX_REF) then None
  else if decide (max = 0) then None
  else
    h ← qrx_aura_project_commitment sha3_256 p;
    Some (mkWorkspace QRX_AURA_CODE_WORKSPACE_VERSION (arr QRX_AURA_MAX_ID (cstr id)) (arr QRX_AURA_MAX_OWNER (cstr (pj_owner p))) (h ++ [x00])
            (arr QRX_AURA_MAX_REF (cstr src)) (repeat x00 QRX_AURA_MAX_REF) (repeat x00 QRX_AURA_MAX_REF) (repeat x00 QRX_AURA_MAX_REF) max []
            QRX_AURA_CODE_PLAN_DRAFT 0).

Definition pending_result (i : nat) : QrxAuraCodeStageResult :=
  mkResult (Z.of_nat i + 1) QRX_AURA_CODE_STAGE_PENDING (repeat x00 QRX_AURA_MAX_REF) (repeat x00 QRX_AURA_MAX_REF) (repeat x00 65)
    (repeat x00 QRX_AURA_CODE_RESULT_MAX_SUMMARY) 0 0 0 0.
Definition qrx_aura_code_execution_init (w : QrxAuraCodeWorkspace) (id : bytes) : option QrxAuraCodeExecution :=
  if decide (qrx_aura_code_workspace_validate w <> 0 \/ cw_state w <> QRX_AURA_CODE_PLAN_APPROVED) then None
  else if bad_string id QRX_AURA_MAX_ID then None
  else
    h ← qrx_aura_code_workspace_commitment w;
    Some (mkExecution QRX_AURA_CODE_EXECUTION_VERSION (arr QRX_AURA_MAX_ID (cstr id)) (h ++ [x00]) (arr QRX_AURA_MAX_OWNER (cstr (cw_owner w))) 0
            (pending_result <$> seq 0 (length (cw_stages w))) (repeat x00 QRX_AURA_MAX_REF) (repeat x00 QRX_AURA_MAX_REF) (repeat x00 QRX_AURA_MAX_REF)
            (repeat x00 QRX_AURA_MAX_REF) 0 QRX_AURA_CODE_PLAN_RUNNING 0).
Definition qrx_aura_code_execution_validate (w : QrxAuraCodeWorkspace) (e : QrxAuraCodeExecution) : Z :=
  if decide (qrx_aura_code_workspace_validate w <> 0 \/ ex_version e <> QRX_AURA_CODE_EXECUTION_VERSION) then -1
  else if negb (nonempty (ex_execution_id e) QRX_AURA_MAX_ID) || negb (same_string (ex_owner e) (cw_owner w)) ||
          negb (qrx_aura_hex64 (ex_workspace_commitment e)) then -1
  else if decide (length (ex_results e) <> length (cw_stages w) \/ blen (ex_results e) > QRX_AURA_CODE_MAX_STAGES \/
                  ex_current_stage_index e > blen (ex_results e) \/ ex_final_user_approved e > 1) then -1
  else if decide (qrx_aura_code_workspace_commitment w <> Some (cstr (ex_workspace_commitment e))) then -1
  else if decide (ex_state e <> QRX_AURA_CODE_PLAN_RUNNING /\ ex_state e <> QRX_AURA_CODE_PLAN_COMPLETED /\ ex_state e <> QRX_AURA_CODE_PLAN_FAILED /\
                  ex_state e <> QRX_AURA_CODE_PLAN_CANCELLED) then -1
  else if negb (qrx_aura_exec_ref_optional (Some (ex_patch_artifact_ref e))) || negb (qrx_aura_exec_ref_optional (Some (ex_diff_artifact_ref e))) ||
          negb (qrx_aura_exec_ref_optional (Some (ex_build_report_ref e))) || negb (qrx_aura_exec_ref_optional (Some (ex_test_report_ref e))) then -1
  else match foldl result_step (Some (0%nat, 0, 0)) (zip (ex_results e) (cw_stages w)) with
       | None => -1
       | Some (_, running, sum) =>
           if decide (running > 1 \/ sum <> ex_total_charged_atoms e \/ sum > cw_max_total_fee_atoms w) then -1 else 0
       end.
Definition passed (r : option QrxAuraCodeStageResult) : bool := bool_decide (sr_status <$> r = Some QRX_AURA_CODE_STAGE_PASSED).
Definition qrx_aura_code_execution_start_stage (w : QrxAuraCodeWorkspace) (e : QrxAuraCodeExecution) (idx : nat) (started : Z)
    : Z * QrxAuraCodeExecution :=
  if decide (qrx_aura_code_execution_validate w e <> 0 \/ ex_state e <> QRX_AURA_CODE_PLAN_RUNNING \/ started = 0) then (-1, e)
  else match ex_results e !! idx with
       | None => (-1, e)
       | Some r =>
           if bool_decide (idx <> 0%nat) && negb (passed (ex_results e !! (idx - 1)%nat)) then (-2, e)
           else if decide (sr_status r <> QRX_AURA_CODE_STAGE_PENDING) then (-3, e)
           else (0, execution_with e (Z.of_nat idx)
                      (<[idx := mkResult (sr_stage_id r) QRX_AURA_CODE_STAGE_RUNNING (sr_output_ref r) (sr_log_ref r) (sr_result_commitment r) (sr_summary r)
                                  (sr_exit_code r) (sr_charged_fee_atoms r) started (sr_finished_ms r)]> (ex_results e))
                      (ex_total_charged_atoms e) (ex_state e))
       end.
Definition qrx_aura_code_execution_record_result (w : QrxAuraCodeWorkspace) (e : QrxAuraCodeExecution) (idx : nat) (st : Z)
    (outref logref commit : option bytes) (summary : bytes) (exit_code fee finished : Z) : Z * QrxAuraCodeExecution :=
  if decide (qrx_aura_code_execution_validate w e <> 0) then (-1, e)
  else match ex_results e !! idx, cw_stages w !! idx with
       | Some r, Some s =>
           if decide ((st <> QRX_AURA_CODE_STAGE_PASSED /\ st <> QRX_AURA_CODE_STAGE_FAILED /\ st <> QRX_AURA_CODE_STAGE_CANCELLED) \/ finished = 0) then (-1, e)
           else if bad_string summary QRX_AURA_CODE_RESULT_MAX_SUMMARY || negb (qrx_aura_exec_ref_optional outref) || negb (qrx_aura_exec_ref_optional logref) ||
                   negb (qrx_aura_exec_result_commitment_optional commit) then (-1, e)
           else if decide (fee > sg_max_fee_atoms s) then (-1, e)
           else if decide (sr_status r <> QRX_AURA_CODE_STAGE_RUNNING \/ finished < sr_started_ms r) then (-2, e)
           else if decide (fee > cw_max_total_fee_atoms w -64 ex_total_charged_atoms e) then (-3, e)
           else
             let r' := mkResult (sr_stage_id r) st (overwrite QRX_AURA_MAX_REF (text outref) (sr_output_ref r)) (overwrite QRX_AURA_MAX_REF (text logref) (sr_log_ref r))
                         (overwrite 65 (text commit) (sr_result_commitment r)) (overwrite QRX_AURA_CODE_RESULT_MAX_SUMMARY (cstr summary) (sr_summary r))
                         exit_code fee (sr_started_ms r) finished in
             (0, execution_with e
                   (if decide (st <> QRX_AURA_CODE_STAGE_FAILED /\ st <> QRX_AURA_CODE_STAGE_CANCELLED /\ S idx = length (ex_results e))
                    then blen (ex_results e) else ex_current_stage_index e)
                   (<[idx := r']> (ex_results e)) (ex_total_charged_atoms e +64 fee)
                   (if decide (st = QRX_AURA_CODE_STAGE_FAILED) then QRX_AURA_CODE_PLAN_FAILED
                    else if decide (st = QRX_AURA_CODE_STAGE_CANCELLED) then QRX_AURA_CODE_PLAN_CANCELLED else ex_state e))
       | _, _ => (-1, e)
       end.
Definition qrx_aura_code_execution_finalize (w : QrxAuraCodeWorkspace) (e : QrxAuraCodeExecution) : Z * QrxAuraCodeExecution :=
  if decide (qrx_aura_code_execution_validate w e <> 0 \/ ex_state e <> QRX_AURA_CODE_PLAN_RUNNING) then (-1, e)
  else if negb (forallb (fun r => passed (Some r)) (ex_results e)) then (-2, e)
  else if decide (cstr (ex_patch_artifact_ref e) = [] \/ cstr (ex_diff_artifact_ref e) = [] \/ cstr (ex_build_report_ref e) = [] \/
                  cstr (ex_test_report_ref e) = []) then (-3, e)
  else (0, execution_with e (blen (ex_results e)) (ex_results e) (ex_total_charged_atoms e) QRX_AURA_CODE_PLAN_COMPLETED).
Definition qrx_aura_code_execution_commitment (w : QrxAuraCodeWorkspace) (e : QrxAuraCodeExecution) : option bytes :=
  if decide (qrx_aura_code_execution_validate w e <> 0) then None else Some (hex (sha3_256 (execution_preimage e))).
End sha.
