(* ===== verification/AuraAgentFacts.v ===== *)
(** * AURA: theorems on agents, chats and code workspaces

    What an agent spends and how often it acts is bounded by its manifest, a
    call of a tool becomes a valid job that can do no more than the tool, and
    the execution of a plan stays well formed, in order and within its budget;
    and what a conversation and an approval do not keep. *)

From stdpp Require Import gmap.
From S2P Require Import Prelude Format Aura AuraRoute AuraRouting Compute ComputeMarket ComputeOrder ComputeGraph ComputeFacts AuraAgent.

(** ** Sessions *)

Inductive SessionCall := SessionCharge (total : Z) | SessionStep | SessionComplete | SessionCancel.
Definition session_call (m : QrxAuraAgentManifest) (s : QrxAuraSession) (c : SessionCall) : Z * QrxAuraSession :=
  match c with
  | SessionCharge total => qrx_aura_session_charge s total
  | SessionStep => qrx_aura_session_record_step m s
  | SessionComplete => qrx_aura_session_complete s
  | SessionCancel => qrx_aura_session_cancel s
  end.
Definition session_run (m : QrxAuraAgentManifest) (s : QrxAuraSession) (calls : list SessionCall) : QrxAuraSession :=
  foldl (fun s c => snd (session_call m s c)) s calls.
Definition session_over (s : QrxAuraSession) : Prop := ss_state s = QRX_AURA_SESSION_COMPLETED \/ ss_state s = QRX_AURA_SESSION_CANCELLED.

(** What a session keeps. *)
Record session_ok (m : QrxAuraAgentManifest) (a : Z) (s : QrxAuraSession) : Prop := {
  so_authorized : ss_authorized_atoms s = a;
  so_spent : 0 <= ss_spent_atoms s <= a;
  so_steps : 0 <= ss_step_count s <= mf_max_steps m;
  so_paused : ss_state s = QRX_AURA_SESSION_PAUSED -> ss_spent_atoms s = a
}.

Lemma manifest_steps m : qrx_aura_agent_manifest_validate m = 0 -> 0 <= mf_max_steps m -> 0 < mf_max_steps m <= QRX_AURA_MAX_STEPS.
Proof.
  unfold qrx_aura_agent_manifest_validate. case_decide; [done|]. do 2 (destruct (_ || _); [done|]). case_decide; [done|]. destruct (_ || _); [done|].
  case_decide; [done|]. lia.
Qed.

Lemma session_step m a s c : session_ok m a s -> (forall t, c = SessionCharge t -> 0 <= t) ->
  let s' := snd (session_call m s c) in
  session_ok m a s' /\ ss_spent_atoms s <= ss_spent_atoms s' /\ ss_step_count s <= ss_step_count s' /\ (session_over s -> s' = s).
Proof.
  intros [H1 H2 H3 H4] Hc s'. unfold s'. clear s'. unfold session_over. destruct c as [t| | |]; cbn [session_call].
  - specialize (Hc t eq_refl). unfold qrx_aura_session_charge.
    destruct (decide (_ \/ _)) as [|Hn]; [split; [done|split; [cbn; lia|by split; [cbn; lia|]]]|].
    destruct (decide (t > _)); [split; [done|split; [cbn; lia|by split; [cbn; lia|]]]|]. cbn. split; [|split; [lia|split; [lia|tauto]]].
    constructor; cbn; try done; [lia|]. repeat case_decide; try done. intros _. lia.
  - unfold qrx_aura_session_record_step. destruct (decide (_ \/ _)) as [|Hn]; [split; [done|split; [cbn; lia|by split; [cbn; lia|]]]|].
    destruct (negb _); [split; [done|split; [cbn; lia|by split; [cbn; lia|]]]|].
    destruct (decide (ss_step_count s >= _)) as [|Hs]; [split; [done|split; [cbn; lia|by split; [cbn; lia|]]]|].
    apply Decidable.not_or in Hn as [Hv Hn]. assert (qrx_aura_agent_manifest_validate m = 0) as Hv' by lia. apply manifest_steps in Hv'; [|lia].
    unfold QRX_AURA_MAX_STEPS in *. cbn. rewrite u32_small by word. split; [|split; [lia|split; [lia|tauto]]]. constructor; cbn; try done; lia.
  - unfold qrx_aura_session_complete. case_decide as Hd; cbn; [split; [done|split; [lia|by split; [lia|]]]|]. split; [|split; [lia|split; [lia|tauto]]]. by constructor.
  - unfold qrx_aura_session_cancel. case_decide as Hd; cbn; [split; [done|split; [lia|by split; [lia|]]]|]. split; [|split; [lia|split; [lia|tauto]]]. by constructor.
Qed.

(** C32: whatever an agent does, it spends no more than its session was opened
    with, which is no more than its manifest allows, and takes no more steps
    than its manifest allows.  Spending and steps never go back, a paused
    session has spent everything, and one that is over does not change. *)
Theorem session_within_manifest sha3_256 m id a s0 calls more : 0 <= a -> 0 <= mf_max_steps m -> qrx_aura_session_open sha3_256 m id a = Some s0 ->
  Forall (fun c => forall t, c = SessionCharge t -> 0 <= t) (calls ++ more) ->
  let s := session_run m s0 calls in
  let t := session_run m s more in
  0 < a <= mf_max_session_fee_atoms m /\ session_ok m a s /\ ss_spent_atoms s <= ss_spent_atoms t /\ ss_step_count s <= ss_step_count t /\
  (session_over s -> t = s).
Proof.
  intros Ha Hm Ho Hc s t. apply Forall_app in Hc as [Hc Hmo].
  assert (forall s cs, session_ok m a s -> Forall (fun c => forall t, c = SessionCharge t -> 0 <= t) cs ->
    session_ok m a (session_run m s cs) /\ ss_spent_atoms s <= ss_spent_atoms (session_run m s cs) /\ ss_step_count s <= ss_step_count (session_run m s cs) /\
    (session_over s -> session_run m s cs = s)) as Hrun.
  { clear. intros s cs Hs Hcs. revert s Hs. induction Hcs as [|c cs Hc _ IH]; intros s Hs; [by split; [|split; [cbn; lia|split; [cbn; lia|]]]|].
    destruct (session_step m a s c Hs Hc) as (H1 & H2 & H3 & H4). destruct (IH _ H1) as (G1 & G2 & G3 & G4). unfold session_run in *. cbn [foldl].
    split; [done|]. split; [lia|]. split; [lia|]. intros Hov. specialize (H4 Hov). by rewrite H4 in *; apply G4. }
  revert Ho. unfold qrx_aura_session_open. destruct (bad_string id _); [done|]. destruct (decide _) as [|Hn]; [done|].
  destruct (qrx_aura_agent_manifest_commitment sha3_256 m) as [ac|]; cbn [mbind option_bind]; [|done]. intros [= E].
  assert (session_ok m a s0) as H0 by (rewrite <- E; constructor; cbn; try done; lia).
  destruct (Hrun s0 calls H0 Hc) as (Hs & _). fold s in Hs. destruct (Hrun s more Hs Hmo) as (_ & H2 & H3 & H4). fold t in H2, H3, H4.
  split; [lia|]. by split.
Qed.

(** ** Tool calls as jobs *)

Lemma cstr_arr n s : no_nul s -> (length s < n)%nat -> cstr (arr n s) = s.
Proof. apply cstr_overwrite. Qed.
Lemma nonempty_arr n s : nonempty s n = true -> nonempty (arr n (cstr s)) n = true /\ cstr (arr n (cstr s)) = cstr s.
Proof.
  intros H. apply bounded_cstr in H as [Hl Hn]. pose proof (cstr_is_no_nul s). split; [by apply bounded_arr|by apply cstr_arr].
Qed.
Lemma ref_valid_arr n s : qrx_job_ref_valid s n = true -> qrx_job_ref_valid (arr n (cstr s)) n = true.
Proof. unfold qrx_job_ref_valid. intros [H1 H2]%andb_true_iff. apply nonempty_arr in H1 as [H1 ->]. by rewrite H1. Qed.

Record call_ok (m : QrxAuraAgentManifest) (s : QrxAuraSession) (c : QrxAuraToolCall) : Prop := {
  ok_model_id : nonempty (mf_model_id m) QRX_COMPUTE_JOB_MAX_MODEL_ID = true;
  ok_model_version : nonempty (mf_model_version m) QRX_COMPUTE_JOB_MAX_MODEL_VERSION = true;
  ok_input : qrx_job_ref_valid (tc_input_ref c) QRX_AURA_MAX_REF = true;
  ok_runtime : nonempty (tc_runtime_id c) QRX_COMPUTE_JOB_MAX_RUNTIME = true;
  ok_limits : tc_requested_fee_atoms c <> 0 /\ tc_max_runtime_ms c <> 0 /\ tc_max_output_bytes c <> 0;
  ok_fee : tc_requested_fee_atoms c <= mf_max_job_fee_atoms m /\ tc_requested_fee_atoms c <= ss_authorized_atoms s -64 ss_spent_atoms s;
  ok_tool : qrx_aura_tool_requires_cap (tc_tool_type c) (mf_capability_mask m) = true;
  ok_approved : runs_code (tc_tool_type c) = true -> mf_require_user_approval_for_code_execution m <> 0 -> tc_user_approved c <> 0;
  ok_output : names_output (tc_tool_type c) = true -> qrx_job_ref_valid (tc_output_ref c) QRX_AURA_MAX_REF = true
}.

Lemma manifest_model m : qrx_aura_agent_manifest_validate m = 0 ->
  nonempty (mf_model_id m) QRX_COMPUTE_JOB_MAX_MODEL_ID = true /\ nonempty (mf_model_version m) QRX_COMPUTE_JOB_MAX_MODEL_VERSION = true.
Proof.
  unfold qrx_aura_agent_manifest_validate. case_decide; [done|]. destruct (_ || _); [done|].
  destruct (nonempty (mf_model_id m) _), (nonempty (mf_model_version m) _); done.
Qed.

Lemma call_validated sha3_256 m s c : qrx_aura_tool_call_validate sha3_256 m s c = 0 -> call_ok m s c.
Proof.
  unfold qrx_aura_tool_call_validate. destruct (decide (_ \/ _)) as [|Hv]; [done|]. case_decide; [done|]. case_decide; [done|]. destruct (_ || _); [done|].
  case_decide; [done|]. destruct (qrx_job_ref_valid (tc_input_ref c) _) eqn:Hi; [|by cbn [negb]; rewrite orb_true_r]. destruct (negb _ || _); [done|].
  destruct (nonempty (tc_runtime_id c) _) eqn:Hr; [|done]. cbn [negb]. destruct (decide (_ \/ _)) as [|Hl]; [done|]. destruct (decide (_ \/ _)) as [|Hf]; [done|].
  destruct (qrx_aura_tool_requires_cap _ _) eqn:Ht; [|done]. cbn [negb]. destruct (runs_code _ && _) eqn:Ha; [done|]. destruct (decide (tc_user_approved c > 1)); [done|].
  destruct (names_output _ && _) eqn:Ho; [done|]. intros _. assert (qrx_aura_agent_manifest_validate m = 0) as Hm by lia. apply manifest_model in Hm as [Hm1 Hm2].
  constructor; try done; try lia.
  - intros E Hq Hu. rewrite E in Ha. cbn in Ha. apply bool_decide_eq_false in Ha. tauto.
  - intros E. rewrite E in Ho. by destruct (qrx_job_ref_valid (tc_output_ref c) _).
Qed.

(** The tools that become jobs: those that ask a model, and those that run code. *)
Definition asks_model (t : Z) : Prop := t = QRX_AURA_TOOL_MODEL_INFERENCE \/ t = QRX_AURA_TOOL_RESEARCH \/ t = QRX_AURA_TOOL_CODE_GENERATION.
Lemma job_of_tool_cases t jt caps : job_of_tool t = Some (jt, caps) -> names_output t = true /\
  ((asks_model t /\ runs_code t = false /\ caps = 15 /\ (jt = QRX_JOB_AI_INFERENCE \/ jt = QRX_JOB_RESEARCH \/ jt = QRX_JOB_CODE_GENERATION)) \/
   (runs_code t = true /\ caps = 19 /\ (jt = QRX_JOB_CODE_EXECUTION \/ jt = QRX_JOB_COMPILE \/ jt = QRX_JOB_TEST))).
Proof.
  unfold job_of_tool, names_output, runs_code, asks_model. cbv zeta.
  repeat (let H := fresh in case_decide as H; [rewrite H; intros E; injection E as <- <-; split; [reflexivity|]; first [left; split; [by auto|split; [reflexivity|split; [reflexivity|by auto]]]|right; split; [reflexivity|split; [reflexivity|by auto]]]|]). done.
Qed.

(** C33: a call that passes becomes a valid job exactly when its tool runs on
    providers.  The job costs no more than the manifest and what is left of
    the session allow, runs code only for the tools that do and with the
    user's approval where the manifest asks for it, computes with the model of
    the manifest, and the sandbox derived for it has no network. *)
Theorem tool_call_job sha3_256 m s c node_id : node_id <> 0 -> qrx_aura_tool_call_validate sha3_256 m s c = 0 ->
  match job_of_tool (tc_tool_type c) with
  | None => fst (qrx_aura_tool_call_to_job_node sha3_256 m s c node_id) = -2
  | Some (jt, caps) => exists n, qrx_aura_tool_call_to_job_node sha3_256 m s c node_id = (0, Some n) /\ qrx_compute_job_node_validate n = 0 /\
      n_max_fee_atoms n <= mf_max_job_fee_atoms m /\ n_max_fee_atoms n <= ss_authorized_atoms s -64 ss_spent_atoms s /\
      has (n_capability_mask n) QRX_JOB_CAP_SANDBOX_EXEC = runs_code (tc_tool_type c) /\
      (has (n_capability_mask n) QRX_JOB_CAP_SANDBOX_EXEC = true -> mf_require_user_approval_for_code_execution m <> 0 -> tc_user_approved c <> 0) /\
      (has (n_capability_mask n) QRX_JOB_CAP_MODEL_INFERENCE = true -> cstr (n_model_id n) = cstr (mf_model_id m) /\ cstr (n_model_version n) = cstr (mf_model_version m)) /\
      has (sp_permissions (snd (qrx_compute_sandbox_policy_default n))) QRX_SANDBOX_ALLOW_NETWORK = false
  end.
Proof.
  intros Hid Hv. pose proof (call_validated sha3_256 m s c Hv) as [H1 H2 H3 H4 H5 H6 H7 H8 H9]. unfold qrx_aura_tool_call_to_job_node.
  rewrite decide_False by lia. destruct (job_of_tool (tc_tool_type c)) as [[jt caps]|] eqn:Hj; [|done].
  apply job_of_tool_cases in Hj as [Hname Hj]. specialize (H9 Hname). exists (node_of_call m c node_id jt caps).
  pose proof (ref_valid_arr _ _ H3) as Hi. pose proof (ref_valid_arr _ _ H9) as Ho.
  apply nonempty_arr in H1 as [M1 M1'], H2 as [M2 M2'], H4 as [R1 R2].
  assert (cstr (tc_output_ref c) <> []) as Hne by (unfold qrx_job_ref_valid in H9; apply andb_true_iff in H9 as [H9 _]; by apply bounded_cstr in H9 as [_ H9]).
  assert (forall x y, (if decide (cstr (tc_output_ref c) <> []) then x else y) = (x : bytes)) as Hout by (intros; by rewrite decide_True).
  assert (qrx_compute_job_node_validate (node_of_call m c node_id jt caps) = 0 /\ has caps QRX_JOB_CAP_SANDBOX_EXEC = runs_code (tc_tool_type c) /\
    (has caps QRX_JOB_CAP_MODEL_INFERENCE = true -> cstr (n_model_id (node_of_call m c node_id jt caps)) = cstr (mf_model_id m) /\
       cstr (n_model_version (node_of_call m c node_id jt caps)) = cstr (mf_model_version m))) as (Hn & Hx & Hy).
  { unfold qrx_compute_job_node_validate, node_of_call. cbn [n_node_id n_job_type n_runtime_id n_model_id n_model_version n_input_ref n_output_ref
      n_max_runtime_ms n_max_output_bytes n_max_fee_atoms n_capability_mask]. rewrite Hout.
    change QRX_COMPUTE_JOB_MAX_REF with QRX_AURA_MAX_REF. rewrite (decide_False (P := node_id = 0)) by done. rewrite Hi, Ho, R1. cbn [negb orb].
    rewrite (decide_False (P := tc_max_runtime_ms c = 0 \/ _)) by lia.
    match goal with |- context [arr QRX_COMPUTE_JOB_MAX_MODEL_ID ?x] => set (mid := arr QRX_COMPUTE_JOB_MAX_MODEL_ID x) end.
    match goal with |- context [arr QRX_COMPUTE_JOB_MAX_MODEL_VERSION ?x] => set (ver := arr QRX_COMPUTE_JOB_MAX_MODEL_VERSION x) end.
    assert (jt = QRX_JOB_AI_INFERENCE \/ jt = QRX_JOB_RESEARCH \/ jt = QRX_JOB_CODE_GENERATION ->
      (nonempty mid QRX_COMPUTE_JOB_MAX_MODEL_ID = true /\ cstr mid = cstr (mf_model_id m)) /\
      (nonempty ver QRX_COMPUTE_JOB_MAX_MODEL_VERSION = true /\ cstr ver = cstr (mf_model_version m))) as Hai
      by (intros E; unfold mid, ver; by rewrite bool_decide_true).
    clearbody mid ver. destruct Hj as [(_ & -> & -> & Hjt)|(-> & -> & Hjt)].
    - destruct (Hai Hjt) as [[-> Em] [-> Ev]]. split; [by destruct Hjt as [-> |[-> | ->]]|by split].
    - split; [by destruct Hjt as [-> |[-> | ->]]|]. split; [done|]. intros E. by vm_compute in E. }
  rewrite Hn. split; [done|]. split; [done|]. cbn [n_max_fee_atoms n_capability_mask node_of_call]. split; [lia|]. split; [lia|]. split; [done|].
  split; [intros E; apply H8; congruence|]. split; [exact Hy|].
  unfold qrx_compute_sandbox_policy_default. cbn [snd sp_permissions n_capability_mask].
  by destruct (has _ QRX_JOB_CAP_SANDBOX_EXEC), (has _ QRX_JOB_CAP_MODEL_INFERENCE), (has _ QRX_JOB_CAP_WRITE_ARTIFACTS), (has _ QRX_JOB_CAP_READ_INPUTS).
Qed.

(** ** Executions *)

Lemma hex_digit_lower v : 0 <= v < 16 -> is_hex_lower (hex_digit v) = true.
Proof.
  intros Hv. unfold is_hex_lower, is_digit, hex_digit. rewrite byte.unsigned_of_Z. unfold byte.wrap. apply orb_true_iff.
  destruct (decide (v < 10)); rewrite Z.mod_small by lia; [left|right]; apply bool_decide_eq_true; lia.
Qed.
Lemma hex_lower d : forallb is_hex_lower (hex d) = true.
Proof.
  induction d as [|b d IH]; [done|]. unfold hex in *. cbn [fmap list_fmap concat app forallb]. rewrite IH. destruct (nibbles b) as (_ & ? & ?).
  by rewrite !hex_digit_lower.
Qed.

(** What one result is next to its stage. *)
Record result_ok (i : nat) (r : QrxAuraCodeStageResult) (s : QrxAuraCodeStage) : Prop := {
  ro_id : sr_stage_id r = Z.of_nat i + 1;
  ro_status : QRX_AURA_CODE_STAGE_PENDING <= sr_status r <= QRX_AURA_CODE_STAGE_CANCELLED;
  ro_refs : empty_or_ref (sr_output_ref r) = true /\ empty_or_ref (sr_log_ref r) = true /\
            qrx_aura_exec_result_commitment_optional (Some (sr_result_commitment r)) = true;
  ro_summary : QRX_AURA_CODE_STAGE_PASSED <= sr_status r -> nonempty (sr_summary r) QRX_AURA_CODE_RESULT_MAX_SUMMARY = true;
  ro_charged : sr_charged_fee_atoms r <= sg_max_fee_atoms s;
  ro_time : sr_finished_ms r = 0 \/ sr_started_ms r = 0 \/ sr_started_ms r <= sr_finished_ms r
}.
Definition charges (l : list QrxAuraCodeStageResult) : Z := zsum (sr_charged_fee_atoms <$> l).
Definition running (l : list QrxAuraCodeStageResult) : Z := zsum ((fun r => if decide (sr_status r = QRX_AURA_CODE_STAGE_RUNNING) then 1 else 0) <$> l).

Lemma result_steps i k sum rs ss : length rs = length ss -> (forall j r s, rs !! j = Some r -> ss !! j = Some s -> result_ok (i + j) r s) ->
  Forall (fun r => 0 <= sr_charged_fee_atoms r) rs -> sum + charges rs <= UINT64_MAX ->
  foldl result_step (Some (i, k, sum)) (zip rs ss) = Some ((i + length rs)%nat, k + running rs, sum + charges rs).
Proof.
  revert i k sum ss. induction rs as [|r rs IH]; intros i k sum [|s ss] Hlen Hok Hpos Hsum; try done.
  - unfold running, charges. cbn. by rewrite Nat.add_0_r, !Z.add_0_r.
  - apply Forall_cons in Hpos as [Hr Hpos]. unfold charges, running in *. cbn [fmap list_fmap] in *. rewrite zsum_cons in *.
    assert (0 <= zsum (sr_charged_fee_atoms <$> rs)) as Hn by (apply zsum_nonneg; by apply Forall_fmap).
    destruct (Hok 0%nat r s eq_refl eq_refl) as [H1 H2 (H3 & H4 & H5) H6 H7 H8]. cbn [zip foldl]. unfold result_step at 2. cbn [mbind option_bind].
    rewrite decide_False by lia. cbn [qrx_aura_exec_ref_optional]. rewrite H3, H4, H5. cbn [negb orb].
    assert (negb (nonempty (sr_summary r) QRX_AURA_CODE_RESULT_MAX_SUMMARY) && bool_decide (sr_status r >= QRX_AURA_CODE_STAGE_PASSED) = false) as ->.
    { apply andb_false_iff. destruct (decide (QRX_AURA_CODE_STAGE_PASSED <= sr_status r)) as [Hp|Hp]; [left; by rewrite (H6 Hp)|right; apply bool_decide_eq_false; lia]. }
    rewrite !decide_False by lia. rewrite IH; [|cbn in Hlen; lia| |done|lia].
    + replace (i + length (r :: rs))%nat with (S i + length rs)%nat by (cbn; lia). rewrite zsum_cons.
      by apply (f_equal Some), pair_eq; (split; [apply pair_eq; split; [done|case_decide; lia]|lia]).
    + intros j r' s' Hj Hs. replace (S i + j)%nat with (i + S j)%nat by lia. by apply Hok.
Qed.

(** A well formed execution, in order: a stage that is not pending has only
    passed ones before it, and what has not ended has cost nothing. *)
Record execution_ok (sha3_256 : bytes -> bytes) (w : QrxAuraCodeWorkspace) (e : QrxAuraCodeExecution) : Prop := {
  eo_head : qrx_aura_code_workspace_validate w = 0 /\ ex_version e = QRX_AURA_CODE_EXECUTION_VERSION /\ nonempty (ex_execution_id e) QRX_AURA_MAX_ID = true /\
    same_string (ex_owner e) (cw_owner w) = true /\ qrx_aura_hex64 (ex_workspace_commitment e) = true /\
    qrx_aura_code_workspace_commitment sha3_256 w = Some (cstr (ex_workspace_commitment e)) /\ ex_final_user_approved e <= 1;
  eo_state : ex_state e = QRX_AURA_CODE_PLAN_RUNNING \/ ex_state e = QRX_AURA_CODE_PLAN_COMPLETED \/ ex_state e = QRX_AURA_CODE_PLAN_FAILED \/
             ex_state e = QRX_AURA_CODE_PLAN_CANCELLED;
  eo_reports : empty_or_ref (ex_patch_artifact_ref e) = true /\ empty_or_ref (ex_diff_artifact_ref e) = true /\
               empty_or_ref (ex_build_report_ref e) = true /\ empty_or_ref (ex_test_report_ref e) = true;
  eo_length : length (ex_results e) = length (cw_stages w) /\ blen (ex_results e) <= QRX_AURA_CODE_MAX_STAGES;
  eo_index : ex_current_stage_index e <= blen (ex_results e);
  eo_results : forall i r s, ex_results e !! i = Some r -> cw_stages w !! i = Some s -> result_ok i r s;
  eo_pos : Forall (fun r => 0 <= sr_charged_fee_atoms r) (ex_results e);
  eo_charged : charges (ex_results e) = ex_total_charged_atoms e /\ ex_total_charged_atoms e <= cw_max_total_fee_atoms w <= UINT64_MAX;
  eo_fresh : forall i r, ex_results e !! i = Some r -> sr_status r < QRX_AURA_CODE_STAGE_PASSED -> sr_charged_fee_atoms r = 0 /\ sr_finished_ms r = 0;
  eo_order : forall i j r q, (i < j)%nat -> ex_results e !! i = Some r -> ex_results e !! j = Some q -> sr_status q <> QRX_AURA_CODE_STAGE_PENDING ->
             sr_status r = QRX_AURA_CODE_STAGE_PASSED;
  eo_done : ex_state e = QRX_AURA_CODE_PLAN_COMPLETED -> Forall (fun r => sr_status r = QRX_AURA_CODE_STAGE_PASSED) (ex_results e)
}.

(** In order, at most one stage runs. *)
Lemma running_one l : (forall i j r q, (i < j)%nat -> l !! i = Some r -> l !! j = Some q -> sr_status q <> QRX_AURA_CODE_STAGE_PENDING -> sr_status r = QRX_AURA_CODE_STAGE_PASSED) ->
  0 <= running l <= 1.
Proof.
  unfold running. induction l as [|r l IH]; intros Ho; [cbn; lia|]. cbn [fmap list_fmap]. rewrite zsum_cons.
  assert (0 <= running l <= 1) as IH' by (apply IH; intros i j x y Hij Hx Hy; by apply (Ho (S i) (S j) x y ltac:(lia))). unfold running in IH'.
  destruct (decide (sr_status r = QRX_AURA_CODE_STAGE_RUNNING)) as [Hr|Hr]; [|lia].
  assert (zsum ((fun r => if decide (sr_status r = QRX_AURA_CODE_STAGE_RUNNING) then 1 else 0) <$> l) = 0) as ->; [|lia].
  assert (forall q, q ∈ l -> sr_status q <> QRX_AURA_CODE_STAGE_RUNNING) as Hq.
  { intros q [j Hj]%list_elem_of_lookup Hq. assert (sr_status r = QRX_AURA_CODE_STAGE_PASSED) by (apply (Ho 0%nat (S j) r q); [lia|done|done|by rewrite Hq]).
    unfold QRX_AURA_CODE_STAGE_RUNNING, QRX_AURA_CODE_STAGE_PASSED in *. lia. }
  clear -Hq. induction l as [|q l IH]; [done|]. cbn [fmap list_fmap]. rewrite zsum_cons, decide_False by (apply Hq; apply list_elem_of_here).
  rewrite IH; [done|]. intros x Hx. apply Hq. by apply list_elem_of_further.
Qed.

Lemma execution_valid sha3_256 w e : execution_ok sha3_256 w e -> qrx_aura_code_execution_validate sha3_256 w e = 0.
Proof.
  intros [(H1 & H2 & H3 & H4 & H5 & H6 & H7) Hst (R1 & R2 & R3 & R4) (L1 & L2) Hi Hr Hp (C1 & C2) _ Ho _]. unfold qrx_aura_code_execution_validate.
  rewrite decide_False by lia. rewrite H3, H4, H5. cbn [negb orb]. rewrite decide_False by lia. rewrite decide_False by (rewrite H6; tauto).
  rewrite decide_False by tauto. cbn [qrx_aura_exec_ref_optional]. rewrite R1, R2, R3, R4. cbn [negb orb].
  rewrite (result_steps 0 0 0 (ex_results e) (cw_stages w)); [|done|exact Hr|done|lia]. pose proof (running_one _ Ho). rewrite decide_False by lia. done.
Qed.

(** Strings written over an array. *)
Lemma nonempty_overwrite n s old : s <> [] -> no_nul s -> (length s < n)%nat -> nonempty (overwrite n s old) n = true.
Proof.
  intros Hne Hs Hn. unfold nonempty, bounded_nonempty. rewrite cstr_overwrite by done. apply andb_true_iff. split; apply bool_decide_eq_true; [|done].
  unfold overwrite, snprintf_s. rewrite (take_ge s) by lia. rewrite take_app_ge by lia. destruct (n - length s)%nat eqn:E; [lia|]. cbn [take]. set_solver.
Qed.
Lemma optional_ref_written o old : qrx_aura_exec_ref_optional o = true -> empty_or_ref (overwrite QRX_AURA_MAX_REF (text o) old) = true.
Proof.
  assert (empty_or_ref (overwrite QRX_AURA_MAX_REF [] old) = true) as Hnil.
  { unfold empty_or_ref. rewrite cstr_overwrite; [done|apply not_elem_of_nil|unfold QRX_AURA_MAX_REF; cbn; lia]. }
  destruct o as [s|]; cbn [qrx_aura_exec_ref_optional text]; [|done]. intros H. unfold empty_or_ref in H.
  apply orb_true_iff in H as [H|H]; [apply bool_decide_eq_true in H; by rewrite H|]. unfold empty_or_ref. apply orb_true_iff. right.
  unfold qrx_job_ref_valid in *. apply andb_true_iff in H as [Hb Hf]. apply bounded_cstr in Hb as [Hl Hne]. pose proof (cstr_is_no_nul s).
  rewrite nonempty_overwrite, cstr_overwrite by done. done.
Qed.
Lemma optional_commitment_written o old : qrx_aura_exec_result_commitment_optional o = true ->
  qrx_aura_exec_result_commitment_optional (Some (overwrite 65 (text o) old)) = true.
Proof.
  assert (qrx_aura_exec_result_commitment_optional (Some (overwrite 65 [] old)) = true) as Hnil.
  { cbn [qrx_aura_exec_result_commitment_optional]. rewrite cstr_overwrite; [done|apply not_elem_of_nil|cbn; lia]. }
  destruct o as [s|]; cbn [qrx_aura_exec_result_commitment_optional text]; [|done]. intros H.
  apply orb_true_iff in H as [H|H]; [apply bool_decide_eq_true in H; by rewrite H|]. pose proof H as Hh. unfold qrx_aura_hex64 in Hh.
  destruct (decide (blen (cstr s) <> 64)) as [|Hl]; [done|]. cbn [qrx_aura_exec_result_commitment_optional]. unfold qrx_aura_hex64 in *.
  rewrite cstr_overwrite; [by rewrite H, orb_true_r|apply cstr_is_no_nul|unfold blen in Hl; lia].
Qed.
Lemma good_string s n : bad_string s n = false -> cstr s <> [] /\ (length (cstr s) < n)%nat.
Proof. unfold bad_string. intros [H1 H2]%orb_false_iff. apply bool_decide_eq_false in H1, H2. split; [done|lia]. Qed.

Lemma charges_app a b : charges (a ++ b) = charges a + charges b.
Proof. unfold charges. by rewrite fmap_app, zsum_app. Qed.
Lemma charges_insert l i r x : l !! i = Some r -> charges (<[i := x]> l) = charges l - sr_charged_fee_atoms r + sr_charged_fee_atoms x.
Proof.
  intros Hi. assert (i < length l)%nat by (by eapply lookup_lt_Some). rewrite insert_take_drop by done. rewrite <- (take_drop_middle l i r Hi) at 3.
  unfold charges. rewrite !fmap_app, !zsum_app. cbn [fmap list_fmap]. rewrite !zsum_cons. lia.
Qed.

(** The calls on an execution. *)
Inductive ExecCall :=
| ExecStart (idx : nat) (started : Z)
| ExecRecord (idx : nat) (st : Z) (outref logref commit : option bytes) (summary : bytes) (exit_code fee finished : Z)
| ExecReports (p d b t : option bytes)
| ExecFinalize
| ExecApprove (approve : Z).
Section executions.
Variable sha3_256 : bytes -> bytes.
Hypothesis sha_length : forall x, length (sha3_256 x) = 32%nat.
Variable w : QrxAuraCodeWorkspace.
Hypothesis total_fits : 0 <= cw_max_total_fee_atoms w <= UINT64_MAX.
Hypothesis stage_fees : Forall (fun s => 0 <= sg_max_fee_atoms s) (cw_stages w).

Definition exec_call (e : QrxAuraCodeExecution) (c : ExecCall) : Z * QrxAuraCodeExecution :=
  match c with
  | ExecStart idx started => qrx_aura_code_execution_start_stage sha3_256 w e idx started
  | ExecRecord idx st o l c summary code fee fin => qrx_aura_code_execution_record_result sha3_256 w e idx st o l c summary code fee fin
  | ExecReports p d b t => qrx_aura_code_execution_set_reports e p d b t
  | ExecFinalize => qrx_aura_code_execution_finalize sha3_256 w e
  | ExecApprove approve => qrx_aura_code_execution_user_approve e approve
  end.
Definition exec_run (e : QrxAuraCodeExecution) (calls : list ExecCall) : QrxAuraCodeExecution := foldl (fun e c => snd (exec_call e c)) e calls.
Definition exec_typed (c : ExecCall) : Prop := match c with ExecRecord _ _ _ _ _ _ _ fee _ => 0 <= fee | _ => True end.

Abbreviation ok := (execution_ok sha3_256 w).

Lemma init_ok id e : qrx_aura_code_execution_init sha3_256 w id = Some e -> ok e.
Proof using sha_length total_fits stage_fees.
  unfold qrx_aura_code_execution_init. destruct (decide (_ \/ _)) as [|Hv]; [done|]. destruct (bad_string id _) eqn:Hb; [done|].
  apply good_string in Hb as [Hne Hl]. unfold qrx_aura_code_workspace_commitment. assert (qrx_aura_code_workspace_validate w = 0) as Hw by lia.
  rewrite decide_False by lia. cbn [mbind option_bind]. intros E. injection E as <-. set (h := hex (sha3_256 (workspace_preimage w))).
  assert (cstr (h ++ [x00]) = h) as Hh by (apply cstr_app_zero, hex_no_nul).
  assert (length (pending_result <$> seq 0 (length (cw_stages w))) = length (cw_stages w)) as Hlen by (by rewrite length_fmap, length_seq).
  assert (forall i r, (pending_result <$> seq 0 (length (cw_stages w))) !! i = Some r -> r = pending_result i) as Hp.
  { intros i r Hi. rewrite list_lookup_fmap in Hi. destruct (seq 0 _ !! i) as [j|] eqn:Hj; [|done]. injection Hi as <-. by apply lookup_seq in Hj as [-> _]. }
  pose proof Hw as Hw'. revert Hw'. unfold qrx_aura_code_workspace_validate. case_decide; [done|]. destruct (nonempty (cw_owner w) _) eqn:Ho; [|by rewrite orb_true_r].
  destruct (_ || _); [done|]. destruct (decide (_ \/ _)) as [|Hn]; [done|]. intros _. apply nonempty_arr in Ho as [_ Ho].
  constructor; cbn [ex_version ex_execution_id ex_owner ex_workspace_commitment ex_final_user_approved ex_state ex_patch_artifact_ref ex_diff_artifact_ref
    ex_build_report_ref ex_test_report_ref ex_results ex_current_stage_index ex_total_charged_atoms].
  - split; [done|]. split; [done|]. split; [apply nonempty_overwrite; [done|apply cstr_is_no_nul|done]|]. split; [unfold same_string; by rewrite Ho, bool_decide_true|].
    split; [|split; [|lia]].
    + unfold qrx_aura_hex64. rewrite Hh. unfold h. rewrite hex_lower. by rewrite decide_False by (unfold blen; rewrite hex_length, sha_length; lia).
    + unfold qrx_aura_code_workspace_commitment. by rewrite decide_False, Hh by lia.
  - by left.
  - by repeat split.
  - unfold blen in *. rewrite Hlen. split; [done|lia].
  - apply blen_nonneg.
  - intros i r s Hi Hs. apply Hp in Hi as ->. constructor; cbn; try done; [|by left].
    apply (proj1 (Forall_forall _ _) stage_fees). by eapply list_elem_of_lookup_2.
  - apply Forall_forall. intros r [i Hi]%list_elem_of_lookup. by apply Hp in Hi as ->.
  - split; [|lia]. unfold charges. clear. generalize 0%nat. induction (length (cw_stages w)) as [|n IH]; intros k; [done|]. cbn [seq fmap list_fmap]. rewrite zsum_cons.
    by rewrite IH.
  - intros i r Hi _. by apply Hp in Hi as ->.
  - intros i j r q _ _ Hj Hq. by apply Hp in Hj as ->.
  - done.
Qed.

Lemma start_ok e idx started : ok e -> ok (snd (qrx_aura_code_execution_start_stage sha3_256 w e idx started)).
Proof.
  intros He. unfold qrx_aura_code_execution_start_stage. case_decide as Hd; [done|]. destruct (ex_results e !! idx) as [r|] eqn:Hr; [|done].
  destruct (bool_decide (idx <> 0%nat) && _) eqn:Hprev; [done|]. destruct (decide (sr_status r <> _)) as [|Hp]; [done|]. apply dec_stable in Hp.
  destruct He as [H1 H2 H3 [L1 L2] H5 H6 H7 [C1 C2] H9 H10 H11]. cbn [snd]. set (r' := mkResult _ _ _ _ _ _ _ _ _ _).
  destruct (H9 idx r Hr ltac:(rewrite Hp; done)) as [Hc Hf]. assert (idx < length (ex_results e))%nat as Hlt by (by eapply lookup_lt_Some).
  constructor; cbn [ex_version ex_execution_id ex_owner ex_workspace_commitment ex_final_user_approved ex_state ex_patch_artifact_ref ex_diff_artifact_ref
    ex_build_report_ref ex_test_report_ref ex_results ex_current_stage_index ex_total_charged_atoms execution_with]; try done.
  - unfold blen. by rewrite length_insert.
  - unfold blen. rewrite length_insert. lia.
  - intros i q s Hi Hs. apply list_lookup_insert_Some in Hi as [(<- & <- & _)|[Hne Hi]]; [|by apply H6].
    destruct (H6 idx r s Hr Hs) as [G1 G2 G3 G4 G5 G6]. constructor; cbn; try done; [rewrite Hf; by left].
  - apply Forall_insert; [done|]. cbn. lia.
  - split; [|done]. rewrite (charges_insert _ _ r) by done. cbn. lia.
  - intros i q Hi Hq. apply list_lookup_insert_Some in Hi as [(<- & <- & _)|[Hne Hi]]; [done|by apply (H9 i)].
  - intros i j x y Hij Hi Hj Hy. apply list_lookup_insert_Some in Hj as [(<- & <- & _)|[Hnj Hj]].
    + rewrite list_lookup_insert_ne in Hi by lia. destruct (decide (idx = 0%nat)) as [->|]; [lia|]. rewrite bool_decide_true in Hprev by done.
      cbn [andb] in Hprev. apply negb_false_iff, bool_decide_eq_true in Hprev. destruct (ex_results e !! (idx - 1)%nat) as [p|] eqn:Hp1; [|done].
      cbn in Hprev. injection Hprev as Hpp. destruct (decide (i = idx - 1)%nat) as [->|]; [congruence|].
      apply (H10 i (idx - 1)%nat x p ltac:(lia) Hi Hp1). rewrite Hpp. done.
    + apply list_lookup_insert_Some in Hi as [(<- & <- & _)|[Hne Hi]]; [|by apply (H10 i j x y)].
      exfalso. assert (sr_status r = QRX_AURA_CODE_STAGE_PASSED) as E by (by apply (H10 idx j r y)). by rewrite Hp in E.
  - intros Hst. exfalso. rewrite Hst in Hd. apply Hd. right. by left.
Qed.

Lemma record_ok e idx st o l c summary code fee fin : ok e -> 0 <= fee ->
  ok (snd (qrx_aura_code_execution_record_result sha3_256 w e idx st o l c summary code fee fin)).
Proof.
  intros He Hfee. unfold qrx_aura_code_execution_record_result. case_decide as Hd; [done|]. destruct (ex_results e !! idx) as [r|] eqn:Hr; [|done].
  destruct (cw_stages w !! idx) as [s|] eqn:Hs; [|done]. destruct (decide (_ \/ fin = 0)) as [|Hst]; [done|].
  destruct (bad_string summary _) eqn:Hsum; [done|]. destruct (qrx_aura_exec_ref_optional o) eqn:Ho; [|done]. destruct (qrx_aura_exec_ref_optional l) eqn:Hl; [|done].
  destruct (qrx_aura_exec_result_commitment_optional c) eqn:Hc; [|done]. cbn [negb orb]. destruct (decide (fee > sg_max_fee_atoms s)) as [|Hmax]; [done|].
  destruct (decide (sr_status r <> _ \/ _)) as [|Hrun]; [done|]. destruct (decide (fee > _)) as [|Htot]; [done|].
  apply good_string in Hsum as [Hsum1 Hsum2]. pose proof He as [H1 H2 H3 [L1 L2] H5 H6 H7 [C1 C2] H9 H10 H11].
  assert (sr_status r = QRX_AURA_CODE_STAGE_RUNNING) as Er by (destruct (decide (sr_status r = QRX_AURA_CODE_STAGE_RUNNING)); tauto).
  assert (QRX_AURA_CODE_STAGE_PASSED <= st <= QRX_AURA_CODE_STAGE_CANCELLED) as Hst' by (unfold QRX_AURA_CODE_STAGE_PASSED, QRX_AURA_CODE_STAGE_FAILED, QRX_AURA_CODE_STAGE_CANCELLED in *; lia).
  destruct (H9 idx r Hr ltac:(rewrite Er; done)) as [Hcz Hf]. assert (idx < length (ex_results e))%nat as Hlt by (by eapply lookup_lt_Some).
  assert (0 <= ex_total_charged_atoms e) as Hpos by (rewrite <- C1; apply zsum_nonneg; by apply Forall_fmap).
  rewrite u64_small in Htot by word. cbv zeta. cbn [snd]. set (r' := mkResult _ _ _ _ _ _ _ _ _ _).
  assert (result_ok idx r' s) as Hr'.
  { destruct (H6 idx r s Hr Hs) as [G1 G2 G3 G4 G5 G6]. constructor; unfold r'; cbn [sr_stage_id sr_status sr_output_ref sr_log_ref sr_result_commitment sr_summary sr_charged_fee_atoms sr_started_ms sr_finished_ms];
      [done| | | |lia|right; right; lia].
    - unfold QRX_AURA_CODE_STAGE_PENDING, QRX_AURA_CODE_STAGE_PASSED in *. lia.
    - split; [by apply optional_ref_written|]. split; [by apply optional_ref_written|by apply optional_commitment_written].
    - intros _. apply nonempty_overwrite; [done|apply cstr_is_no_nul|done]. }
  constructor; cbn [ex_version ex_execution_id ex_owner ex_workspace_commitment ex_final_user_approved ex_state ex_patch_artifact_ref ex_diff_artifact_ref
    ex_build_report_ref ex_test_report_ref ex_results ex_current_stage_index ex_total_charged_atoms execution_with]; try done.
  - repeat case_decide; tauto.
  - unfold blen. by rewrite length_insert.
  - unfold blen in *. rewrite length_insert. case_decide; lia.
  - intros i q t Hi Ht. apply list_lookup_insert_Some in Hi as [(<- & <- & _)|[Hne Hi]]; [|by apply H6]. by assert (t = s) as -> by congruence.
  - by apply Forall_insert.
  - rewrite (charges_insert _ _ r) by done. cbn. rewrite u64_small by word. lia.
  - intros i q Hi Hq. apply list_lookup_insert_Some in Hi as [(<- & <- & _)|[Hne Hi]]; [cbn in Hq; lia|by apply (H9 i)].
  - intros i j x y Hij Hi Hj Hy. apply list_lookup_insert_Some in Hj as [(<- & <- & _)|[Hnj Hj]].
    + rewrite list_lookup_insert_ne in Hi by lia. apply (H10 i idx x r); try done. by rewrite Er.
    + apply list_lookup_insert_Some in Hi as [(<- & <- & _)|[Hne Hi]]; [|by apply (H10 i j x y)].
      exfalso. assert (sr_status r = QRX_AURA_CODE_STAGE_PASSED) as E by (by apply (H10 idx j r y)). by rewrite Er in E.
  - intros Hst2. exfalso. assert (ex_state e = QRX_AURA_CODE_PLAN_COMPLETED) as Hco by (revert Hst2; repeat case_decide; done).
    specialize (H11 Hco). eapply Forall_lookup_1 in H11; [|exact Hr]. by rewrite Er in H11.
Qed.

Lemma exec_call_ok e c : ok e -> exec_typed c -> ok (snd (exec_call e c)).
Proof.
  intros He Hc. destruct c as [idx started|idx st o l c summary code fee fin|p d b t| |approve]; cbn [exec_call exec_typed] in *.
  - by apply start_ok.
  - by apply record_ok.
  - unfold qrx_aura_code_execution_set_reports. destruct (qrx_aura_exec_ref_optional p) eqn:E1; [|done]. destruct (qrx_aura_exec_ref_optional d) eqn:E2; [|done].
    destruct (qrx_aura_exec_ref_optional b) eqn:E3; [|done]. destruct (qrx_aura_exec_ref_optional t) eqn:E4; [|done]. cbn [negb orb snd].
    destruct He as [H1 H2 H3 H4 H5 H6 H7 H8 H9 H10 H11]. constructor; cbn; try done. repeat split; by apply optional_ref_written.
  - unfold qrx_aura_code_execution_finalize. case_decide; [done|]. destruct (forallb _ _) eqn:Ha; [|done]. cbn [negb]. case_decide; [done|]. cbn [snd].
    destruct He as [H1 H2 H3 H4 H5 H6 H7 H8 H9 H10 H11]. constructor; cbn; try done; [by right; left|]. intros _. apply Forall_forall. intros r Hr.
    rewrite forallb_forall in Ha. apply list_elem_of_In, Ha in Hr. apply bool_decide_eq_true in Hr. cbn in Hr. by injection Hr.
  - unfold qrx_aura_code_execution_user_approve. case_decide; [done|]. cbn [snd]. destruct He as [H1 H2 H3 H4 H5 H6 H7 H8 H9 H10 H11].
    constructor; cbn; try done. destruct H1 as (? & ? & ? & ? & ? & ? & _). do 6 (split; [done|]). lia.
Qed.

(** C34: from its initialisation on, and after any calls in any order, an
    execution passes its own validation: the results are those of the plan's
    stages, stages run in order and one at a time, the charge of each is
    within its limit and their sum is what has been charged, within the limit
    of the workspace; and a completed execution has passed every stage. *)
Theorem execution_well_formed id e0 calls : qrx_aura_code_execution_init sha3_256 w id = Some e0 -> Forall exec_typed calls ->
  let e := exec_run e0 calls in
  qrx_aura_code_execution_validate sha3_256 w e = 0 /\ execution_ok sha3_256 w e /\ 0 <= running (ex_results e) <= 1.
Proof using sha_length total_fits stage_fees.
  intros Hi Hc e. assert (ok e) as He; [|split; [by apply execution_valid|split; [done|apply running_one; by apply (eo_order _ _ _ He)]]].
  unfold e. clear e. apply init_ok in Hi. revert e0 Hi. induction Hc as [|c calls Hc _ IH]; intros e0 H0; [done|].
  cbn [exec_run foldl]. apply IH. by apply exec_call_ok.
Qed.
End executions.

(** ** What is not kept *)

(** The message after the last one that a conversation may have is accepted,
    and the conversation is refused from then on. *)
Lemma full_conversation_closes c m fee job c' m' : cv_message_count c = QRX_AURA_CHAT_MAX_MESSAGES -> qrx_aura_chat_complete c m fee job = (0, c', m') ->
  qrx_aura_conversation_validate c' = -1.
Proof.
  intros Hn. unfold qrx_aura_chat_complete. case_decide; [done|]. destruct (bad_string _ _); [done|]. intros E. injection E as <- <-.
  unfold qrx_aura_conversation_validate. cbn [cv_version cv_conversation_id cv_owner cv_session_id cv_message_count]. case_decide; [done|].
  destruct (_ || _); [done|]. rewrite decide_True; [done|]. left. by rewrite Hn.
Qed.

(** A branch has the whole budget of its source again. *)
Lemma branch_spends_again s from id c : qrx_aura_chat_branch s from id = Some c ->
  cv_max_conversation_fee_atoms c = cv_max_conversation_fee_atoms s /\ cv_session_id c = cv_session_id s /\ cv_spent_atoms c = 0.
Proof. unfold qrx_aura_chat_branch. case_decide; [done|]. destruct (_ || _); [done|]. by intros [= <-]. Qed.

(** The reports of an execution that the user has approved can be replaced,
    and it stays approved. *)
Lemma approved_reports_replaced e p d b t : ex_state e = QRX_AURA_CODE_PLAN_COMPLETED ->
  qrx_aura_exec_ref_optional p = true -> qrx_aura_exec_ref_optional d = true -> qrx_aura_exec_ref_optional b = true -> qrx_aura_exec_ref_optional t = true ->
  let e1 := snd (qrx_aura_code_execution_user_approve e 1) in
  let e2 := snd (qrx_aura_code_execution_set_reports e1 p d b t) in
  ex_final_user_approved e2 = 1 /\ ex_state e2 = QRX_AURA_CODE_PLAN_COMPLETED /\ ex_patch_artifact_ref e2 = overwrite QRX_AURA_MAX_REF (text p) (ex_patch_artifact_ref e).
Proof.
  intros Hs Hp Hd Hb Ht. unfold qrx_aura_code_execution_user_approve, qrx_aura_code_execution_set_reports. rewrite Hp, Hd, Hb, Ht.
  rewrite decide_False; [done|]. intros [H|H]; [done|by apply H].
Qed.

(** ** A concrete agent *)

Definition sample_manifest : QrxAuraAgentManifest :=
  mkManifest 1 (arr 129 (cs "agent")) (arr 160 (cs "owner")) (arr 96 (cs "model")) (arr 48 (cs "v1")) 131 2 500 900 1.
Definition sample_session : QrxAuraSession :=
  default (mkSession 0 [] [] [] 0 0 0 QRX_AURA_SESSION_CANCELLED) (qrx_aura_session_open toy_hash sample_manifest (cs "s1") 800).
Definition sample_calls : list SessionCall := [SessionStep; SessionCharge 300; SessionStep; SessionStep; SessionCharge 900; SessionCharge 700].
Lemma session_within_manifest_witness :
  let s := session_run sample_manifest sample_session sample_calls in
  let t := session_run sample_manifest s [SessionCharge 800; SessionStep; SessionCancel] in
  0 < 800 <= 900 /\ session_ok sample_manifest 800 s /\ ss_spent_atoms s <= ss_spent_atoms t /\ ss_step_count s <= ss_step_count t /\ (session_over s -> t = s).
Proof.
  apply (session_within_manifest toy_hash sample_manifest (cs "s1") 800 sample_session); [lia|cbn; lia|vm_compute; reflexivity|].
  repeat constructor; intros t E; first [discriminate | injection E as <-; lia].
Defined.

Definition sample_call : QrxAuraToolCall :=
  mkToolCall 1 (arr 129 (cs "c1")) (arr 129 (cs "s1")) QRX_AURA_TOOL_COMPILE (arr 129 (cs "src")) (arr 129 (cs "obj")) (arr 96 (cs "cc")) 400 1000 4096 1.
Lemma tool_call_job_witness : exists n, qrx_aura_tool_call_to_job_node toy_hash sample_manifest sample_session sample_call 7 = (0, Some n) /\
  qrx_compute_job_node_validate n = 0 /\ n_max_fee_atoms n <= 500 /\ n_max_fee_atoms n <= ss_authorized_atoms sample_session -64 ss_spent_atoms sample_session /\
  has (n_capability_mask n) QRX_JOB_CAP_SANDBOX_EXEC = runs_code QRX_AURA_TOOL_COMPILE /\
  (has (n_capability_mask n) QRX_JOB_CAP_SANDBOX_EXEC = true -> 1 <> 0 -> 1 <> 0) /\
  (has (n_capability_mask n) QRX_JOB_CAP_MODEL_INFERENCE = true -> cstr (n_model_id n) = cstr (mf_model_id sample_manifest) /\ cstr (n_model_version n) = cstr (mf_model_version sample_manifest)) /\
  has (sp_permissions (snd (qrx_compute_sandbox_policy_default n))) QRX_SANDBOX_ALLOW_NETWORK = false.
Proof. apply (tool_call_job toy_hash sample_manifest sample_session sample_call 7); [lia|vm_compute; reflexivity]. Defined.

Definition sample_project : QrxAuraProject := mkProject 1 (arr 129 (cs "p")) (arr 160 (cs "owner")) (arr 192 (cs "name")) (arr 129 []) [] 1.
Definition add_stage (mask : Z) (label : bytes) (fee : Z) (w : QrxAuraCodeWorkspace) : QrxAuraCodeWorkspace :=
  snd (qrx_aura_code_workspace_add_stage w mask (arr 96 label) (arr 129 (cs "in")) (arr 129 (cs "out")) (arr 96 (cs "rt")) fee 1000 4096).
Definition sample_workspace : QrxAuraCodeWorkspace :=
  default (mkWorkspace 0 [] [] [] [] [] [] [] 0 [] 0 0)
    ((fun w => snd (qrx_aura_code_workspace_approve (add_stage 8 (cs "test") 40 (add_stage 4 (cs "compile") 50 w)) 1)) <$>
     qrx_aura_code_workspace_init toy_hash sample_project (cs "w") (arr 129 (cs "src")) 100).
Definition sample_execution : QrxAuraCodeExecution :=
  default (mkExecution 0 [] [] [] 0 [] [] [] [] [] 0 0 0) (qrx_aura_code_execution_init toy_hash sample_workspace (cs "e1")).
Definition report : option bytes := Some (arr 129 (cs "report")).
Definition sample_exec_calls : list ExecCall :=
  [ExecStart 1 5; ExecStart 0 6; ExecRecord 0 3 report None None (cs "compiled") 0 45 9; ExecStart 1 10; ExecFinalize;
   ExecRecord 1 3 None report None (cs "tested") 0 60 12; ExecRecord 1 3 None report None (cs "tested") 0 40 12; ExecReports report report report report;
   ExecFinalize; ExecApprove 1].
Lemma execution_well_formed_witness :
  let e := exec_run toy_hash sample_workspace sample_execution sample_exec_calls in
  (ex_state e = QRX_AURA_CODE_PLAN_COMPLETED /\ ex_total_charged_atoms e = 85 /\ ex_final_user_approved e = 1) /\
  qrx_aura_code_execution_validate toy_hash sample_workspace e = 0 /\ execution_ok toy_hash sample_workspace e /\ 0 <= running (ex_results e) <= 1.
Proof.
  split; [vm_compute; by repeat split|]. apply (execution_well_formed toy_hash) with (id := cs "e1").
  - intros x. apply length_resize.
  - closed.
  - closed.
  - vm_compute. reflexivity.
  - repeat constructor; cbn; lia.
Defined.
