(* ===== verification/Moe.v ===== *)
(** * Moe: experts placed on nodes, prefetched, batched, streamed and summed
      (src/qrx-core/src/compute/qrx_compute.c, .h, from
      qrx_moe_classify_memory to qrx_moe_aggregation_commitment)

    A mixture-of-experts model is cut into fragments that live on the nodes of a
    pod.  Here are the placements and their scores, the plan of what to
    prefetch, micro-batches of requests, the streams between two nodes, and the
    sums of partial results.  Arrays with a count are lists; a structure whose
    [version] is 0 is one that the caller zeroed.
    Prefixes: [np_] node, [fr_] fragment, [pl_] placement, [op_] policy, [co_]
    co-activation, [rq_] request, [pi_] item of a plan, [pp_] plan, [bi_] item of
    a batch, [mb_] batch, [ps_] stream, [ai_] input of a sum, [ag_] sum. *)

From stdpp Require Import gmap sorting.
From S2P Require Import Prelude Format Aura Compute AuraAgent.

Definition QRX_MOE_PLACEMENT_VERSION : Z := 1.
Definition QRX_MOE_MAX_REPLICAS : Z := 16.
Definition QRX_MOE_MAX_BACKEND : nat := 48.
Definition QRX_MOE_MAX_MODEL_ID : nat := 96.
Definition QRX_MOE_ROLE_EXPERT : Z := 2 ^ 1.
Definition QRX_MOE_ROLE_CACHE : Z := 2 ^ 5.
Definition QRX_POUC_OPT_MIN_CHALLENGE_BPS : Z := 50.
Definition QRX_MOE_NODE_MICRO : Z := 1.
Definition QRX_MOE_NODE_LIGHT : Z := 2.
Definition QRX_MOE_NODE_STANDARD : Z := 3.
Definition QRX_MOE_NODE_HOT : Z := 4.
Definition QRX_MOE_RES_REMOTE : Z := 1.
Definition QRX_MOE_RES_NVME : Z := 2.
Definition QRX_MOE_RES_RAM : Z := 3.
Definition QRX_MOE_RES_VRAM : Z := 4.
Definition QRX_MOE_CACHE_COLD : Z := 1.
Definition QRX_MOE_CACHE_WARM : Z := 2.
Definition QRX_MOE_CACHE_HOT : Z := 3.
Definition QRX_ACT_FP16 : Z := 1.
Definition QRX_ACT_BF16 : Z := 2.
Definition QRX_ACT_FP8 : Z := 3.
Definition QRX_ACT_INT8 : Z := 4.
Definition QRX_ACT_INT4 : Z := 5.
Definition QRX_POUC_OPT_FAST : Z := 1.
Definition QRX_POUC_OPT_STANDARD : Z := 2.
Definition QRX_POUC_OPT_HIGH : Z := 3.
Definition QRX_POUC_OPT_CONSENSUS : Z := 4.

Record QrxMoeNodeProfile := mkNodeProfile {
  np_version : Z;
  np_node_id : bytes;
  np_pod_id : bytes;
  np_arch : Z;
  np_node_class : Z;
  np_capability_mask : Z;
  np_role_mask : Z;
  np_memory_total_bytes : Z;
  np_memory_available_bytes : Z;
  np_nvme_available_bytes : Z;
  np_accelerator_memory_available_bytes : Z;
  np_latency_us_to_pod : Z;
  np_bandwidth_mbps_to_pod : Z;
  np_backend : bytes
}.
Record QrxMoeExpertFragment := mkFragment {
  fr_version : Z;
  fr_model_id : bytes;
  fr_model_version : bytes;
  fr_layer_id : Z;
  fr_expert_id : Z;
  fr_fragment_id : Z;
  fr_fragment_count : Z;
  fr_content_root : bytes;
  fr_size_bytes : Z
}.
Record QrxMoeExpertPlacement := mkPlacement {
  pl_version : Z;
  pl_node_id : bytes;
  pl_pod_id : bytes;
  pl_fragment : QrxMoeExpertFragment;
  pl_residency : Z;
  pl_cache_state : Z;
  pl_replica_ordinal : Z;
  pl_measured_latency_us : Z
}.
Record QrxPoucOptimisticPolicy := mkOptimistic {
  op_tier : Z; op_challenge_bps : Z; op_redundant_workers : Z; op_async_verification : Z; op_allow_optimistic_forward : Z
}.

(** [qsort] by a comparison; MoeFacts shows that any sort gives the same. *)
Definition by_cmp {A} (cmp : A -> A -> Z) (x y : A) : Prop := cmp x y <= 0.
#[export] Instance by_cmp_dec {A} (cmp : A -> A -> Z) x y : Decision (by_cmp cmp x y).
Proof. unfold by_cmp. apply _. Defined.
Definition qsort {A} (cmp : A -> A -> Z) (l : list A) : list A := merge_sort (by_cmp cmp) l.

(** The sign of [strcmp]. *)
Definition strcmp (a b : bytes) : Z := if strcmp_lt a b then -1 else if strcmp_lt b a then 1 else 0.

Definition qrx_moe_classify_memory (b : Z) : Z :=
  let g := b / 2 ^ 30 in
  if decide (g < 16) then QRX_MOE_NODE_MICRO else if decide (g < 64) then QRX_MOE_NODE_LIGHT
  else if decide (g < 256) then QRX_MOE_NODE_STANDARD else QRX_MOE_NODE_HOT.

Definition qrx_moe_node_profile_validate (p : QrxMoeNodeProfile) : Z :=
  if decide (np_version p <> QRX_MOE_PLACEMENT_VERSION) then -1
  else if negb (nonempty (np_node_id p) 129) || negb (nonempty (np_pod_id p) QRX_MOE_MAX_POD_ID) || negb (nonempty (np_backend p) QRX_MOE_MAX_BACKEND) then -1
  else if decide (np_arch p <> QRX_COMPUTE_ARCH_X86_64 /\ np_arch p <> QRX_COMPUTE_ARCH_ARM64) then -1
  else if decide (np_memory_total_bytes p = 0 \/ np_memory_available_bytes p > np_memory_total_bytes p \/ np_role_mask p = 0 \/ np_capability_mask p = 0) then -1
  else if decide (np_node_class p <> qrx_moe_classify_memory (np_memory_total_bytes p)) then -1
  else if decide (np_bandwidth_mbps_to_pod p = 0) then -1
  else 0.

Definition qrx_moe_fragment_validate (f : QrxMoeExpertFragment) : Z :=
  if decide (fr_version f <> QRX_MOE_PLACEMENT_VERSION) then -1
  else if negb (nonempty (fr_model_id f) QRX_MOE_MAX_MODEL_ID) || negb (nonempty (fr_model_version f) QRX_MODEL_MAX_VERSION) || negb (qrx_aura_hex64 (fr_content_root f)) then -1
  else if decide (fr_size_bytes f = 0 \/ fr_fragment_count f = 0) then -1
  else if decide (fr_fragment_id f >= fr_fragment_count f) then -1
  else 0.

Definition qrx_moe_placement_validate (n : QrxMoeNodeProfile) (p : QrxMoeExpertPlacement) : Z :=
  if decide (qrx_moe_node_profile_validate n <> 0 \/ pl_version p <> QRX_MOE_PLACEMENT_VERSION \/ cstr (np_node_id n) <> cstr (pl_node_id p) \/
      cstr (np_pod_id n) <> cstr (pl_pod_id p) \/ qrx_moe_fragment_validate (pl_fragment p) <> 0) then -1
  else if negb (has (np_role_mask n) (Z.lor QRX_MOE_ROLE_EXPERT QRX_MOE_ROLE_CACHE)) then -1
  else if decide (pl_residency p < QRX_MOE_RES_REMOTE \/ pl_residency p > QRX_MOE_RES_VRAM \/ pl_cache_state p < QRX_MOE_CACHE_COLD \/
      pl_cache_state p > QRX_MOE_CACHE_HOT \/ pl_replica_ordinal p >= QRX_MOE_MAX_REPLICAS) then -1
  else if decide (pl_residency p = QRX_MOE_RES_RAM /\ fr_size_bytes (pl_fragment p) > np_memory_available_bytes n) then -2
  else if decide (pl_residency p = QRX_MOE_RES_VRAM /\ fr_size_bytes (pl_fragment p) > np_accelerator_memory_available_bytes n) then -2
  else if decide (pl_residency p = QRX_MOE_RES_NVME /\ fr_size_bytes (pl_fragment p) > np_nvme_available_bytes n) then -2
  else 0.

Definition placement_preimage (p : QrxMoeExpertPlacement) : bytes :=
  let f := pl_fragment p in
  cs "QRX/MOE/PLACEMENT/V1" ++ fields [pl_node_id p; pl_pod_id p; fr_model_id f; fr_model_version f; fr_content_root f] ++
  qrx_job_digest_u32 (pl_version p) ++ qrx_job_digest_u32 (fr_layer_id f) ++ qrx_job_digest_u32 (fr_expert_id f) ++
  qrx_job_digest_u32 (fr_fragment_id f) ++ qrx_job_digest_u32 (fr_fragment_count f) ++ qrx_job_digest_u64 (fr_size_bytes f) ++
  qrx_job_digest_u32 (pl_residency p) ++ qrx_job_digest_u32 (pl_cache_state p) ++ qrx_job_digest_u32 (pl_replica_ordinal p) ++
  qrx_job_digest_u32 (pl_measured_latency_us p).

Definition activation_bits (e : Z) : Z :=
  if decide (e = QRX_ACT_FP16 \/ e = QRX_ACT_BF16) then 16 else if decide (e = QRX_ACT_FP8 \/ e = QRX_ACT_INT8) then 8
  else if decide (e = QRX_ACT_INT4) then 4 else 0.
Definition qrx_moe_activation_wire_bytes (n e : Z) : Z :=
  let bits := activation_bits e in
  if decide (bits = 0) then 0 else if decide (n > UINT64_MAX / bits) then UINT64_MAX else (n *64 bits +64 7) / 8.

Definition qrx_moe_placement_score (n : QrxMoeNodeProfile) (p : QrxMoeExpertPlacement) : Z :=
  if decide (qrx_moe_placement_validate n p <> 0) then 0
  else
    let lat := np_latency_us_to_pod n +64 pl_measured_latency_us p in
    let s := 1000000 -64 (if decide (lat > 300000) then 300000 else lat) in
    let s := s +64 (if decide (np_bandwidth_mbps_to_pod n > 100000) then 100000 else np_bandwidth_mbps_to_pod n) *64 2 in
    let s := s +64 (if decide (pl_residency p = QRX_MOE_RES_VRAM) then 250000 else if decide (pl_residency p = QRX_MOE_RES_RAM) then 180000
                    else if decide (pl_residency p = QRX_MOE_RES_NVME) then 70000 else 0) in
    s +64 (if decide (pl_cache_state p = QRX_MOE_CACHE_HOT) then 100000 else if decide (pl_cache_state p = QRX_MOE_CACHE_WARM) then 50000 else 0).

Definition qrx_pouc_optimistic_policy (t rel : Z) : option QrxPoucOptimisticPolicy :=
  if decide (rel > 10000) then None
  else
    let at_least c := if decide (c < QRX_POUC_OPT_MIN_CHALLENGE_BPS) then QRX_POUC_OPT_MIN_CHALLENGE_BPS else c in
    if decide (t = QRX_POUC_OPT_FAST) then Some (mkOptimistic t (at_least (if decide (rel >= 9900) then 100 else 300)) 1 1 1)
    else if decide (t = QRX_POUC_OPT_STANDARD) then
      Some (mkOptimistic t (at_least (if decide (rel >= 9900) then 200 else if decide (rel >= 9500) then 500 else 1000)) 1 1 1)
    else if decide (t = QRX_POUC_OPT_HIGH) then Some (mkOptimistic t (at_least (if decide (rel >= 9900) then 1000 else 2000)) 2 1 0)
    else if decide (t = QRX_POUC_OPT_CONSENSUS) then Some (mkOptimistic t (at_least 10000) 3 0 0)
    else None.

(** ** What to prefetch *)

Definition QRX_MOE_COORDINATOR_VERSION : Z := 1.
Definition QRX_MOE_MAX_PREFETCH : Z := 32.
Definition QRX_MOE_MAX_SELECTED_EXPERTS : Z := 32.
Definition QRX_MOE_PREFETCH_NONE : Z := 0.
Definition QRX_MOE_PREFETCH_NVME_TO_RAM : Z := 1.
Definition QRX_MOE_PREFETCH_RAM_TO_VRAM : Z := 2.
Definition QRX_MOE_PREFETCH_REMOTE_TO_RAM : Z := 4.

Record QrxMoeCoactivationStat := mkCoactivation {
  co_version : Z;
  co_model_id : bytes;
  co_model_version : bytes;
  co_layer_id : Z;
  co_expert_a : Z;
  co_expert_b : Z;
  co_coactivation_count : Z;
  co_observation_count : Z
}.
Record QrxMoeCoordinatorRequest := mkCoordinatorRequest {
  rq_version : Z;
  rq_pod_id : bytes;
  rq_current_layer_id : Z;
  rq_next_layer_id : Z;
  rq_selected_experts : list Z;
  rq_max_prefetch : Z;
  rq_max_prefetch_bytes : Z;
  rq_activation_encoding : Z
}.
Record QrxMoePrefetchItem := mkPrefetchItem {
  pi_version : Z;
  pi_placement : QrxMoeExpertPlacement;
  pi_action : Z;
  pi_locality_score : Z;
  pi_predicted_bps : Z;
  pi_estimated_wire_bytes : Z
}.
Record QrxMoePrefetchPlan := mkPrefetchPlan {
  pp_version : Z;
  pp_pod_id : bytes;
  pp_next_layer_id : Z;
  pp_items : list QrxMoePrefetchItem;
  pp_total_prefetch_bytes : Z;
  pp_estimated_wire_bytes : Z
}.

Definition qrx_moe_coactivation_validate (s : QrxMoeCoactivationStat) : Z :=
  if decide (co_version s <> QRX_MOE_COORDINATOR_VERSION) then -1
  else if negb (nonempty (co_model_id s) QRX_MOE_MAX_MODEL_ID) || negb (nonempty (co_model_version s) QRX_MODEL_MAX_VERSION) then -1
  else if decide (co_expert_a s = co_expert_b s \/ co_observation_count s = 0 \/ co_coactivation_count s > co_observation_count s) then -1
  else 0.
Definition qrx_moe_coactivation_bps (s : QrxMoeCoactivationStat) : Z :=
  if decide (qrx_moe_coactivation_validate s <> 0) then 0
  else if decide (co_coactivation_count s > UINT64_MAX / 10000) then 10000
  else u32 ((co_coactivation_count s *64 10000) / co_observation_count s).
Definition qrx_moe_locality_score (n : QrxMoeNodeProfile) (p : QrxMoeExpertPlacement) (co_bps : Z) : Z :=
  if decide (co_bps > 10000 \/ qrx_moe_placement_validate n p <> 0) then 0 else qrx_moe_placement_score n p +64 co_bps *64 25.

Definition qrx_moe_coordinator_request_validate (r : QrxMoeCoordinatorRequest) : Z :=
  if decide (rq_version r <> QRX_MOE_COORDINATOR_VERSION \/ nonempty (rq_pod_id r) QRX_MOE_MAX_POD_ID = false) then -1
  else if decide (rq_next_layer_id r <= rq_current_layer_id r \/ rq_selected_experts r = [] \/ blen (rq_selected_experts r) > QRX_MOE_MAX_SELECTED_EXPERTS) then -1
  else if decide (rq_max_prefetch r = 0 \/ rq_max_prefetch r > QRX_MOE_MAX_PREFETCH \/ rq_max_prefetch_bytes r = 0) then -1
  else if decide (qrx_moe_activation_wire_bytes 1 (rq_activation_encoding r) = 0) then -1
  else if decide (NoDup (rq_selected_experts r)) then 0 else -1.

Definition qrx_moe_prefetch_action (r : Z) : Z :=
  if decide (r = QRX_MOE_RES_NVME) then QRX_MOE_PREFETCH_NVME_TO_RAM
  else if decide (r = QRX_MOE_RES_RAM) then QRX_MOE_PREFETCH_RAM_TO_VRAM
  else if decide (r = QRX_MOE_RES_REMOTE) then QRX_MOE_PREFETCH_REMOTE_TO_RAM
  else QRX_MOE_PREFETCH_NONE.

(** What the loop of [qrx_moe_prefetch_plan_add] compares: the same fragment
    on the same node. *)
Definition same_fragment (p q : QrxMoeExpertPlacement) : bool :=
  bool_decide (cstr (pl_node_id p) = cstr (pl_node_id q)) && bool_decide (fr_layer_id (pl_fragment p) = fr_layer_id (pl_fragment q)) &&
  bool_decide (fr_expert_id (pl_fragment p) = fr_expert_id (pl_fragment q)) && bool_decide (fr_fragment_id (pl_fragment p) = fr_fragment_id (pl_fragment q)).
Definition prefetch_item (n : QrxMoeNodeProfile) (p : QrxMoeExpertPlacement) (predicted : Z) : QrxMoePrefetchItem :=
  mkPrefetchItem QRX_MOE_COORDINATOR_VERSION p (qrx_moe_prefetch_action (pl_residency p)) (qrx_moe_locality_score n p predicted) predicted
    (if decide (pl_residency p = QRX_MOE_RES_REMOTE) then fr_size_bytes (pl_fragment p) else 0).
Definition qrx_moe_prefetch_plan_add (r : QrxMoeCoordinatorRequest) (n : QrxMoeNodeProfile) (p : QrxMoeExpertPlacement) (predicted : Z)
    (plan : QrxMoePrefetchPlan) : Z * QrxMoePrefetchPlan :=
  if decide (qrx_moe_coordinator_request_validate r <> 0 \/ predicted > 10000 \/ qrx_moe_placement_validate n p <> 0) then (-1, plan)
  else if decide (cstr (rq_pod_id r) <> cstr (pl_pod_id p) \/ fr_layer_id (pl_fragment p) <> rq_next_layer_id r) then (-1, plan)
  else
    let plan := if decide (pp_version plan = 0)
                then mkPrefetchPlan QRX_MOE_COORDINATOR_VERSION (arr QRX_MOE_MAX_POD_ID (cstr (rq_pod_id r))) (rq_next_layer_id r) [] 0 0 else plan in
    if decide (pp_version plan <> QRX_MOE_COORDINATOR_VERSION \/ cstr (pp_pod_id plan) <> cstr (rq_pod_id r) \/ pp_next_layer_id plan <> rq_next_layer_id r) then (-1, plan)
    else if decide (blen (pp_items plan) >= rq_max_prefetch r \/ blen (pp_items plan) >= QRX_MOE_MAX_PREFETCH) then (-2, plan)
    else if decide (pp_total_prefetch_bytes plan > rq_max_prefetch_bytes r \/
        fr_size_bytes (pl_fragment p) > rq_max_prefetch_bytes r -64 pp_total_prefetch_bytes plan) then (-3, plan)
    else if existsb (fun it => same_fragment (pi_placement it) p) (pp_items plan) then (-4, plan)
    else let it := prefetch_item n p predicted in
      (0, mkPrefetchPlan (pp_version plan) (pp_pod_id plan) (pp_next_layer_id plan) (pp_items plan ++ [it])
            (pp_total_prefetch_bytes plan +64 fr_size_bytes (pl_fragment p)) (pp_estimated_wire_bytes plan +64 pi_estimated_wire_bytes it)).

Definition qrx_moe_prefetch_cmp (x y : QrxMoePrefetchItem) : Z :=
  let f := pl_fragment (pi_placement x) in let g := pl_fragment (pi_placement y) in
  if decide (pi_locality_score x > pi_locality_score y) then -1
  else if decide (pi_locality_score x < pi_locality_score y) then 1
  else let c := strcmp (cstr (pl_node_id (pi_placement x))) (cstr (pl_node_id (pi_placement y))) in
    if decide (c <> 0) then c
    else if decide (fr_expert_id f < fr_expert_id g) then -1 else if decide (fr_expert_id f > fr_expert_id g) then 1
    else if decide (fr_fragment_id f < fr_fragment_id g) then -1 else if decide (fr_fragment_id f > fr_fragment_id g) then 1
    else 0.
Definition qrx_moe_prefetch_plan_finalize (r : QrxMoeCoordinatorRequest) (p : QrxMoePrefetchPlan) : Z * QrxMoePrefetchPlan :=
  if decide (qrx_moe_coordinator_request_validate r <> 0 \/ pp_version p <> QRX_MOE_COORDINATOR_VERSION \/ cstr (pp_pod_id p) <> cstr (rq_pod_id r) \/
      pp_next_layer_id p <> rq_next_layer_id r \/ blen (pp_items p) > rq_max_prefetch r \/ pp_total_prefetch_bytes p > rq_max_prefetch_bytes r) then (-1, p)
  else (0, mkPrefetchPlan (pp_version p) (pp_pod_id p) (pp_next_layer_id p) (qsort qrx_moe_prefetch_cmp (pp_items p))
             (pp_total_prefetch_bytes p) (pp_estimated_wire_bytes p)).

Definition prefetch_preimage (p : QrxMoePrefetchPlan) : bytes :=
  cs "QRX/MOE/PREFETCH-PLAN/V1" ++ fields [pp_pod_id p] ++
  concat ((fun it => let q := pi_placement it in let f := pl_fragment q in
      fields [pl_node_id q; fr_model_id f; fr_model_version f; fr_content_root f] ++ qrx_job_digest_u32 (fr_layer_id f) ++
      qrx_job_digest_u32 (fr_expert_id f) ++ qrx_job_digest_u32 (fr_fragment_id f) ++ qrx_job_digest_u32 (pi_action it) ++
      qrx_job_digest_u64 (pi_locality_score it) ++ qrx_job_digest_u64 (pi_predicted_bps it) ++ qrx_job_digest_u64 (pi_estimated_wire_bytes it)) <$> pp_items p) ++
  qrx_job_digest_u32 (pp_version p) ++ qrx_job_digest_u32 (pp_next_layer_id p) ++ qrx_job_digest_u32 (blen (pp_items p)) ++
  qrx_job_digest_u64 (pp_total_prefetch_bytes p) ++ qrx_job_digest_u64 (pp_estimated_wire_bytes p).

(** ** Micro-batches *)

Definition QRX_MOE_BATCH_VERSION : Z := 1.
Definition QRX_MOE_MAX_BATCH_ITEMS : Z := 64.
Definition QRX_MOE_MAX_AGG_ITEMS : Z := 32.
Definition QRX_MOE_MAX_STREAM_ID : nat := 129.
Definition QRX_MOE_STREAM_OPEN : Z := 1.
Definition QRX_MOE_STREAM_CLOSED : Z := 3.
Definition QRX_MOE_STREAM_FAILED : Z := 4.

Record QrxMoeBatchItem := mkBatchItem {
  bi_version : Z;
  bi_request_id : bytes;
  bi_session_id : bytes;
  bi_model_id : bytes;
  bi_model_version : bytes;
  bi_layer_id : Z;
  bi_expert_id : Z;
  bi_fragment_id : Z;
  bi_activation_encoding : Z;
  bi_token_count : Z;
  bi_activation_elements : Z;
  bi_deadline_us : Z
}.
Record QrxMoeMicroBatch := mkMicroBatch {
  mb_version : Z;
  mb_pod_id : bytes;
  mb_layer_id : Z;
  mb_expert_id : Z;
  mb_fragment_id : Z;
  mb_activation_encoding : Z;
  mb_items : list QrxMoeBatchItem;
  mb_total_tokens : Z;
  mb_total_activation_elements : Z;
  mb_estimated_wire_bytes : Z;
  mb_earliest_deadline_us : Z
}.

Definition qrx_moe_batch_item_validate (i : QrxMoeBatchItem) : Z :=
  if decide (bi_version i <> QRX_MOE_BATCH_VERSION) then -1
  else if negb (nonempty (bi_request_id i) 129) || negb (nonempty (bi_session_id i) 129) || negb (nonempty (bi_model_id i) QRX_MOE_MAX_MODEL_ID) ||
          negb (nonempty (bi_model_version i) QRX_MODEL_MAX_VERSION) then -1
  else if decide (bi_token_count i = 0 \/ bi_activation_elements i = 0 \/ bi_deadline_us i = 0 \/ qrx_moe_activation_wire_bytes 1 (bi_activation_encoding i) = 0) then -1
  else 0.
Definition qrx_moe_batch_compatible (b : QrxMoeMicroBatch) (i : QrxMoeBatchItem) : bool :=
  bool_decide (mb_layer_id b = bi_layer_id i) && bool_decide (mb_expert_id b = bi_expert_id i) && bool_decide (mb_fragment_id b = bi_fragment_id i) &&
  bool_decide (mb_activation_encoding b = bi_activation_encoding i).
Definition qrx_moe_microbatch_add (b : QrxMoeMicroBatch) (pod : bytes) (i : QrxMoeBatchItem) (max_items max_tokens max_wire : Z) : Z * QrxMoeMicroBatch :=
  if decide (nonempty pod QRX_MOE_MAX_POD_ID = false \/ qrx_moe_batch_item_validate i <> 0 \/ max_items = 0 \/ max_items > QRX_MOE_MAX_BATCH_ITEMS \/
      max_tokens = 0 \/ max_wire = 0) then (-1, b)
  else
    let w := qrx_moe_activation_wire_bytes (bi_activation_elements i) (bi_activation_encoding i) in
    if decide (w = 0) then (-1, b)
    else
      let b := if decide (mb_version b = 0)
               then mkMicroBatch QRX_MOE_BATCH_VERSION (arr QRX_MOE_MAX_POD_ID (cstr pod)) (bi_layer_id i) (bi_expert_id i) (bi_fragment_id i)
                      (bi_activation_encoding i) [] 0 0 0 (bi_deadline_us i) else b in
      if decide (mb_version b <> QRX_MOE_BATCH_VERSION \/ cstr (mb_pod_id b) <> cstr pod \/ qrx_moe_batch_compatible b i = false) then (-2, b)
      else if decide (blen (mb_items b) >= max_items \/ blen (mb_items b) >= QRX_MOE_MAX_BATCH_ITEMS) then (-3, b)
      else if decide (bi_token_count i > max_tokens \/ mb_total_tokens b > u32 (max_tokens - bi_token_count i)) then (-4, b)
      else if decide (mb_estimated_wire_bytes b > max_wire \/ w > max_wire -64 mb_estimated_wire_bytes b) then (-5, b)
      else if existsb (fun k => bool_decide (cstr (bi_request_id k) = cstr (bi_request_id i))) (mb_items b) then (-6, b)
      else (0, mkMicroBatch (mb_version b) (mb_pod_id b) (mb_layer_id b) (mb_expert_id b) (mb_fragment_id b) (mb_activation_encoding b)
                 (mb_items b ++ [i]) (mb_total_tokens b +32 bi_token_count i) (mb_total_activation_elements b +64 bi_activation_elements i)
                 (mb_estimated_wire_bytes b +64 w)
                 (if decide (bi_deadline_us i < mb_earliest_deadline_us b) then bi_deadline_us i else mb_earliest_deadline_us b)).

Definition qrx_moe_batch_item_cmp (x y : QrxMoeBatchItem) : Z :=
  if decide (bi_deadline_us x < bi_deadline_us y) then -1 else if decide (bi_deadline_us x > bi_deadline_us y) then 1
  else strcmp (cstr (bi_request_id x)) (cstr (bi_request_id y)).
Definition qrx_moe_microbatch_finalize (b : QrxMoeMicroBatch) : Z * QrxMoeMicroBatch :=
  if decide (mb_version b <> QRX_MOE_BATCH_VERSION \/ mb_items b = [] \/ nonempty (mb_pod_id b) QRX_MOE_MAX_POD_ID = false) then (-1, b)
  else (0, mkMicroBatch (mb_version b) (mb_pod_id b) (mb_layer_id b) (mb_expert_id b) (mb_fragment_id b) (mb_activation_encoding b)
             (qsort qrx_moe_batch_item_cmp (mb_items b)) (mb_total_tokens b) (mb_total_activation_elements b)
             (mb_estimated_wire_bytes b) (mb_earliest_deadline_us b)).

Definition microbatch_preimage (b : QrxMoeMicroBatch) : bytes :=
  cs "QRX/MOE/MICROBATCH/V1" ++ fields [mb_pod_id b] ++ qrx_job_digest_u32 (mb_layer_id b) ++ qrx_job_digest_u32 (mb_expert_id b) ++
  qrx_job_digest_u32 (mb_fragment_id b) ++ qrx_job_digest_u32 (mb_activation_encoding b) ++
  concat ((fun i => fields [bi_request_id i; bi_session_id i; bi_model_id i; bi_model_version i] ++ qrx_job_digest_u32 (bi_token_count i) ++
             qrx_job_digest_u64 (bi_activation_elements i) ++ qrx_job_digest_u64 (bi_deadline_us i)) <$> mb_items b) ++
  qrx_job_digest_u32 (blen (mb_items b)) ++ qrx_job_digest_u32 (mb_total_tokens b) ++ qrx_job_digest_u64 (mb_total_activation_elements b) ++
  qrx_job_digest_u64 (mb_estimated_wire_bytes b) ++ qrx_job_digest_u64 (mb_earliest_deadline_us b).

(** ** Streams *)

Record QrxMoePersistentStream := mkStream {
  ps_version : Z;
  ps_stream_id : bytes;
  ps_pod_id : bytes;
  ps_local_node_id : bytes;
  ps_remote_node_id : bytes;
  ps_state : Z;
  ps_feature_mask : Z;
  ps_activation_encoding : Z;
  ps_max_inflight_batches : Z;
  ps_inflight_batches : Z;
  ps_bytes_sent : Z;
  ps_bytes_received : Z;
  ps_opened_us : Z;
  ps_last_activity_us : Z
}.

(** The structure is zeroed before it is filled in. *)
Definition qrx_moe_stream_open (sid pod local remote : bytes) (enc feat maxinf now : Z) : option QrxMoePersistentStream :=
  if negb (nonempty sid QRX_MOE_MAX_STREAM_ID) || negb (nonempty pod QRX_MOE_MAX_POD_ID) || negb (nonempty local 129) || negb (nonempty remote 129) then None
  else if decide (cstr local = cstr remote \/ qrx_moe_activation_wire_bytes 1 enc = 0 \/ maxinf = 0) then None
  else Some (mkStream QRX_MOE_BATCH_VERSION (arr QRX_MOE_MAX_STREAM_ID (cstr sid)) (arr QRX_MOE_MAX_POD_ID (cstr pod)) (arr 129 (cstr local)) (arr 129 (cstr remote))
               QRX_MOE_STREAM_OPEN feat enc maxinf 0 0 0 now now).
Definition stream_with (s : QrxMoePersistentStream) (state inflight sent received now : Z) : QrxMoePersistentStream :=
  mkStream (ps_version s) (ps_stream_id s) (ps_pod_id s) (ps_local_node_id s) (ps_remote_node_id s) state (ps_feature_mask s)
    (ps_activation_encoding s) (ps_max_inflight_batches s) inflight sent received (ps_opened_us s) now.
Definition qrx_moe_stream_begin_batch (s : QrxMoePersistentStream) (n now : Z) : Z * QrxMoePersistentStream :=
  if decide (ps_version s <> QRX_MOE_BATCH_VERSION \/ ps_state s <> QRX_MOE_STREAM_OPEN \/ n = 0 \/ ps_inflight_batches s >= ps_max_inflight_batches s \/
      now < ps_last_activity_us s) then (-1, s)
  else if decide (UINT64_MAX - ps_bytes_sent s < n) then (-1, s)
  else (0, stream_with s (ps_state s) (ps_inflight_batches s +32 1) (ps_bytes_sent s +64 n) (ps_bytes_received s) now).
Definition qrx_moe_stream_complete_batch (s : QrxMoePersistentStream) (n now : Z) : Z * QrxMoePersistentStream :=
  if decide (ps_version s <> QRX_MOE_BATCH_VERSION \/ ps_inflight_batches s = 0 \/ now < ps_last_activity_us s \/ UINT64_MAX - ps_bytes_received s < n) then (-1, s)
  else (0, stream_with s (ps_state s) (u32 (ps_inflight_batches s - 1)) (ps_bytes_sent s) (ps_bytes_received s +64 n) now).
Definition qrx_moe_stream_set_state (s : QrxMoePersistentStream) (st now : Z) : Z * QrxMoePersistentStream :=
  if decide (ps_version s <> QRX_MOE_BATCH_VERSION \/ st < QRX_MOE_STREAM_OPEN \/ st > QRX_MOE_STREAM_FAILED \/ now < ps_last_activity_us s) then (-1, s)
  else if decide ((st = QRX_MOE_STREAM_CLOSED \/ st = QRX_MOE_STREAM_FAILED) /\ ps_inflight_batches s <> 0) then (-2, s)
  else (0, stream_with s st (ps_inflight_batches s) (ps_bytes_sent s) (ps_bytes_received s) now).

(** ** Sums of partial results *)

Record QrxMoeAggregateInput := mkAggregateInput { ai_node_id : bytes; ai_partial_result_bytes : Z; ai_sequence : Z }.
Record QrxMoeAggregationPlan := mkAggregation {
  ag_version : Z;
  ag_pod_id : bytes;
  ag_aggregator_node_id : bytes;
  ag_layer_id : Z;
  ag_expert_id : Z;
  ag_inputs : list QrxMoeAggregateInput;
  ag_local_input_bytes : Z;
  ag_uplink_result_bytes : Z
}.

(** The slots of the array that are not in use hold zeros. *)
Definition qrx_moe_aggregation_add (p : QrxMoeAggregationPlan) (pod agg : bytes) (layer expert : Z) (node : bytes) (n seq : Z) : Z * QrxMoeAggregationPlan :=
  if decide (nonempty pod QRX_MOE_MAX_POD_ID = false \/ nonempty agg 129 = false \/ nonempty node 129 = false \/ n = 0) then (-1, p)
  else
    let p := if decide (ag_version p = 0)
             then mkAggregation QRX_MOE_BATCH_VERSION (arr QRX_MOE_MAX_POD_ID (cstr pod)) (arr 129 (cstr agg)) layer expert [] 0 0 else p in
    if decide (ag_version p <> QRX_MOE_BATCH_VERSION \/ cstr (ag_pod_id p) <> cstr pod \/ cstr (ag_aggregator_node_id p) <> cstr agg \/
        ag_layer_id p <> layer \/ ag_expert_id p <> expert \/ blen (ag_inputs p) >= QRX_MOE_MAX_AGG_ITEMS) then (-2, p)
    else if existsb (fun k => bool_decide (cstr (ai_node_id k) = cstr node) || bool_decide (ai_sequence k = seq)) (ag_inputs p) then (-3, p)
    else if decide (UINT64_MAX - ag_local_input_bytes p < n) then (-4, p)
    else (0, mkAggregation (ag_version p) (ag_pod_id p) (ag_aggregator_node_id p) (ag_layer_id p) (ag_expert_id p)
               (ag_inputs p ++ [mkAggregateInput (arr 129 (cstr node)) n seq]) (ag_local_input_bytes p +64 n) (ag_uplink_result_bytes p)).
Definition qrx_moe_agg_cmp (x y : QrxMoeAggregateInput) : Z :=
  if decide (ai_sequence x < ai_sequence y) then -1 else if decide (ai_sequence x > ai_sequence y) then 1
  else strcmp (cstr (ai_node_id x)) (cstr (ai_node_id y)).
Definition qrx_moe_aggregation_finalize (p : QrxMoeAggregationPlan) (uplink : Z) : Z * QrxMoeAggregationPlan :=
  if decide (ag_version p <> QRX_MOE_BATCH_VERSION \/ ag_inputs p = [] \/ uplink = 0) then (-1, p)
  else (0, mkAggregation (ag_version p) (ag_pod_id p) (ag_aggregator_node_id p) (ag_layer_id p) (ag_expert_id p)
             (qsort qrx_moe_agg_cmp (ag_inputs p)) (ag_local_input_bytes p) uplink).
Definition qrx_moe_aggregation_wire_savings (p : QrxMoeAggregationPlan) : Z :=
  if decide (ag_version p <> QRX_MOE_BATCH_VERSION \/ ag_local_input_bytes p <= ag_uplink_result_bytes p) then 0
  else ag_local_input_bytes p -64 ag_uplink_result_bytes p.
Definition aggregation_preimage (p : QrxMoeAggregationPlan) : bytes :=
  cs "QRX/MOE/AGGREGATION/V1" ++ fields [ag_pod_id p; ag_aggregator_node_id p] ++ qrx_job_digest_u32 (ag_layer_id p) ++ qrx_job_digest_u32 (ag_expert_id p) ++
  concat ((fun i => fields [ai_node_id i] ++ qrx_job_digest_u64 (ai_partial_result_bytes i) ++ qrx_job_digest_u64 (ai_sequence i)) <$> ag_inputs p) ++
  qrx_job_digest_u32 (blen (ag_inputs p)) ++ qrx_job_digest_u64 (ag_local_input_bytes p) ++ qrx_job_digest_u64 (ag_uplink_result_bytes p).

(** ** Commitments *)

Section sha.
Variable sha3_256 : bytes -> bytes.

Definition qrx_moe_placement_commitment (p : QrxMoeExpertPlacement) : option bytes :=
  if decide (pl_version p <> QRX_MOE_PLACEMENT_VERSION \/ qrx_moe_fragment_validate (pl_fragment p) <> 0 \/ nonempty (pl_node_id p) 129 = false \/
      nonempty (pl_pod_id p) QRX_MOE_MAX_POD_ID = false) then None
  else Some (hex (sha3_256 (placement_preimage p))).
Definition qrx_moe_prefetch_plan_commitment (p : QrxMoePrefetchPlan) : option bytes :=
  if decide (pp_version p <> QRX_MOE_COORDINATOR_VERSION \/ nonempty (pp_pod_id p) QRX_MOE_MAX_POD_ID = false \/ blen (pp_items p) > QRX_MOE_MAX_PREFETCH) then None
  else Some (hex (sha3_256 (prefetch_preimage p))).
Definition qrx_moe_microbatch_commitment (b : QrxMoeMicroBatch) : option bytes :=
  if decide (mb_version b <> QRX_MOE_BATCH_VERSION \/ mb_items b = []) then None else Some (hex (sha3_256 (microbatch_preimage b))).
Definition qrx_moe_aggregation_commitment (p : QrxMoeAggregationPlan) : option bytes :=
  if decide (ag_version p <> QRX_MOE_BATCH_VERSION \/ ag_inputs p = [] \/ ag_uplink_result_bytes p = 0) then None
  else Some (hex (sha3_256 (aggregation_preimage p))).
End sha.
