(* ===== verification/MoeRun.v ===== *)
(** * MoeRun: when a batch is sent, by whom it is run, and how fast
      (src/qrx-core/src/compute/qrx_compute.c, .h, from
      qrx_moe_adaptive_policy_validate to the end)

    Advice on dispatching under load, the choice of a replica, telemetry, the
    benchmark of a pod, the discovery of devices, workers and calibration.  The
    CUDA driver and the memory and processors of the machine are arguments of
    [qrx_moe_runtime_discover_native]; the build is not one for Apple.
    Prefixes: [ab_] policy, [sn_] snapshot, [sa_] advice, [rc_] candidate, [tt_]
    telemetry, [ta_] transport, [bn_] node, [bs_] scenario, [br_] result, [dd_]
    device found, [ri_] inventory, [wr_] requirement, [wa_] adapter. *)

From stdpp Require Import gmap.
From S2P Require Import Prelude Format Aura Compute AuraAgent Moe.

Definition QRX_MOE_SCHED_VERSION : Z := 1.
Definition QRX_MOE_MAX_REPLICA_CANDIDATES : Z := 16.
Definition QRX_MOE_TELEMETRY_VERSION : Z := 1.
Definition QRX_MOE_DISPATCH_WAIT : Z := 1.
Definition QRX_MOE_DISPATCH_NOW : Z := 2.
Definition QRX_MOE_DISPATCH_REROUTE : Z := 3.
Definition QRX_MOE_DISPATCH_REJECT : Z := 4.
Definition QRX_MOE_PRESSURE_NORMAL : Z := 1.
Definition QRX_MOE_PRESSURE_ELEVATED : Z := 2.
Definition QRX_MOE_PRESSURE_HIGH : Z := 3.
Definition QRX_MOE_PRESSURE_CRITICAL : Z := 4.

Record QrxMoeAdaptiveBatchPolicy := mkBatchPolicy {
  ab_version : Z;
  ab_min_batch_items : Z;
  ab_target_batch_items : Z;
  ab_max_batch_items : Z;
  ab_max_wait_us : Z;
  ab_deadline_guard_us : Z;
  ab_elevated_queue_bps : Z;
  ab_high_queue_bps : Z;
  ab_critical_queue_bps : Z
}.
Record QrxMoeSchedulerSnapshot := mkSnapshot {
  sn_version : Z;
  sn_queued_items : Z;
  sn_compatible_items : Z;
  sn_queue_capacity : Z;
  sn_inflight_batches : Z;
  sn_inflight_capacity : Z;
  sn_oldest_item_age_us : Z;
  sn_earliest_deadline_slack_us : Z;
  sn_alternate_replica_available : Z
}.
Record QrxMoeScheduleAdvice := mkAdvice {
  sa_decision : Z; sa_pressure : Z; sa_selected_batch_items : Z; sa_suggested_wait_us : Z; sa_queue_pressure_bps : Z; sa_inflight_pressure_bps : Z
}.
Record QrxMoeReplicaCandidate := mkCandidate {
  rc_version : Z;
  rc_node_id : bytes;
  rc_queue_depth : Z;
  rc_queue_capacity : Z;
  rc_inflight_batches : Z;
  rc_inflight_capacity : Z;
  rc_latency_us : Z;
  rc_bandwidth_mbps : Z;
  rc_reliability_bps : Z;
  rc_residency : Z;
  rc_cache_state : Z
}.

Definition qrx_ratio_bps_u32 (n d : Z) : Z := if decide (d = 0) then 10000 else if decide (n >= d) then 10000 else u32 ((n *64 10000) / d).
Definition qrx_moe_adaptive_policy_validate (p : QrxMoeAdaptiveBatchPolicy) : Z :=
  if decide (ab_version p <> QRX_MOE_SCHED_VERSION) then -1
  else if decide (ab_min_batch_items p = 0 \/ ab_min_batch_items p > ab_target_batch_items p \/ ab_target_batch_items p > ab_max_batch_items p \/
      ab_max_batch_items p > QRX_MOE_MAX_BATCH_ITEMS) then -2
  else if decide (ab_max_wait_us p = 0 \/ ab_deadline_guard_us p > ab_max_wait_us p) then -3
  else if decide (ab_elevated_queue_bps p = 0 \/ ab_elevated_queue_bps p >= ab_high_queue_bps p \/ ab_high_queue_bps p >= ab_critical_queue_bps p \/
      ab_critical_queue_bps p > 10000) then -4
  else 0.
Definition qrx_moe_schedule_advice (p : QrxMoeAdaptiveBatchPolicy) (s : QrxMoeSchedulerSnapshot) : option QrxMoeScheduleAdvice :=
  if decide (qrx_moe_adaptive_policy_validate p <> 0 \/ sn_version s <> QRX_MOE_SCHED_VERSION \/ sn_queue_capacity s = 0 \/ sn_inflight_capacity s = 0) then None
  else
    let q := qrx_ratio_bps_u32 (sn_queued_items s) (sn_queue_capacity s) in
    let i := qrx_ratio_bps_u32 (sn_inflight_batches s) (sn_inflight_capacity s) in
    let load := if decide (q > i) then q else i in
    let pressure := if decide (load >= ab_critical_queue_bps p) then QRX_MOE_PRESSURE_CRITICAL
                    else if decide (load >= ab_high_queue_bps p) then QRX_MOE_PRESSURE_HIGH
                    else if decide (load >= ab_elevated_queue_bps p) then QRX_MOE_PRESSURE_ELEVATED else QRX_MOE_PRESSURE_NORMAL in
    let compatible := if decide (sn_compatible_items s > ab_max_batch_items p) then ab_max_batch_items p else sn_compatible_items s in
    let advice d w := Some (mkAdvice d pressure compatible w q i) in
    if decide (pressure = QRX_MOE_PRESSURE_CRITICAL) then
      advice (if decide (sn_alternate_replica_available s <> 0) then QRX_MOE_DISPATCH_REROUTE else QRX_MOE_DISPATCH_REJECT) 0
    else if decide (sn_earliest_deadline_slack_us s <= ab_deadline_guard_us p \/ sn_oldest_item_age_us s >= ab_max_wait_us p \/
        compatible >= ab_target_batch_items p \/ pressure >= QRX_MOE_PRESSURE_HIGH) then advice QRX_MOE_DISPATCH_NOW 0
    else
      let left := ab_max_wait_us p -64 sn_oldest_item_age_us s in
      if decide (compatible >= ab_min_batch_items p) then
        let dl := if decide (sn_earliest_deadline_slack_us s > ab_deadline_guard_us p) then sn_earliest_deadline_slack_us s -64 ab_deadline_guard_us p else 0 in
        advice QRX_MOE_DISPATCH_WAIT (if decide (left < dl) then left else dl)
      else advice (if decide (sn_alternate_replica_available s <> 0 /\ pressure >= QRX_MOE_PRESSURE_ELEVATED) then QRX_MOE_DISPATCH_REROUTE
                   else QRX_MOE_DISPATCH_WAIT) left.

Definition qrx_moe_replica_candidate_score (c : QrxMoeReplicaCandidate) : Z :=
  if decide (rc_version c <> QRX_MOE_SCHED_VERSION \/ nonempty (rc_node_id c) 129 = false \/ rc_queue_capacity c = 0 \/ rc_inflight_capacity c = 0 \/
      rc_bandwidth_mbps c = 0 \/ rc_reliability_bps c > 10000 \/ rc_residency c < QRX_MOE_RES_REMOTE \/ rc_residency c > QRX_MOE_RES_VRAM \/
      rc_cache_state c < QRX_MOE_CACHE_COLD \/ rc_cache_state c > QRX_MOE_CACHE_HOT) then 0
  else
    let qp := qrx_ratio_bps_u32 (rc_queue_depth c) (rc_queue_capacity c) in
    let ip := qrx_ratio_bps_u32 (rc_inflight_batches c) (rc_inflight_capacity c) in
    let pressure := if decide (qp > ip) then qp else ip in
    u32 (10000 - pressure) *64 40 +64 rc_reliability_bps c *64 30 +64 rc_residency c *64 50000 +64 rc_cache_state c *64 40000 +64
    (if decide (rc_bandwidth_mbps c > 100000) then 100000 else rc_bandwidth_mbps c) *64 2 +64
    (if decide (rc_latency_us c >= 1000000) then 0 else (1000000 -64 rc_latency_us c) / 5).

(** The loop of [qrx_moe_choose_replica]: the index, name and score of the best
    so far. *)
Fixpoint choose_loop (l : list QrxMoeReplicaCandidate) (i : Z) (best : option (Z * bytes * Z)) : option (Z * bytes * Z) :=
  match l with
  | [] => best
  | c :: l =>
      let sc := qrx_moe_replica_candidate_score c in
      if decide (sc = 0) then None
      else choose_loop l (i + 1)
             (match best with
              | None => Some (i, cstr (rc_node_id c), sc)
              | Some (_, name, b) => if decide (sc > b \/ sc = b /\ strcmp_lt (cstr (rc_node_id c)) name = true) then Some (i, cstr (rc_node_id c), sc) else best
              end)
  end.
Definition qrx_moe_choose_replica (c : list QrxMoeReplicaCandidate) : Z + Z :=
  if decide (c = [] \/ blen c > QRX_MOE_MAX_REPLICA_CANDIDATES) then inl (-1)
  else match choose_loop c 0 None with Some (i, _, _) => inr i | None => inl (-2) end.

(** ** Telemetry *)

Record QrxMoeThroughputTelemetry := mkTelemetry {
  tt_version : Z;
  tt_pod_id : bytes;
  tt_window_start_us : Z;
  tt_window_end_us : Z;
  tt_requests_completed : Z;
  tt_tokens_completed : Z;
  tt_activation_bytes_sent : Z;
  tt_result_bytes_received : Z;
  tt_local_aggregation_bytes : Z;
  tt_wan_bytes : Z;
  tt_compute_us : Z;
  tt_queue_wait_us : Z;
  tt_batch_count : Z;
  tt_reroute_count : Z;
  tt_rejected_count : Z;
  tt_failed_count : Z
}.

Definition qrx_moe_telemetry_validate (t : QrxMoeThroughputTelemetry) : Z :=
  if decide (tt_version t <> QRX_MOE_TELEMETRY_VERSION \/ nonempty (tt_pod_id t) QRX_MOE_MAX_POD_ID = false \/ tt_window_end_us t < tt_window_start_us t) then -1 else 0.
Definition qrx_add_u64 (a b : Z) : option Z := if decide (UINT64_MAX - a < b) then None else Some (a +64 b).
(** The calls of [qrx_add_u64] in a row, up to the first that fails: the code
    and the counters. *)
Fixpoint add_all (l : list (Z * Z)) : Z * list Z :=
  match l with
  | [] => (0, [])
  | (a, b) :: l =>
      match qrx_add_u64 a b with
      | None => (-2, a :: (fst <$> l))
      | Some s => let '(rc, r) := add_all l in (rc, s :: r)
      end
  end.
Definition qrx_moe_telemetry_record_batch (t : QrxMoeThroughputTelemetry) (req tok sent recv local wan compute queue rerouted failed : Z) : Z * QrxMoeThroughputTelemetry :=
  if decide (qrx_moe_telemetry_validate t <> 0 \/ req = 0 \/ tok = 0) then (-1, t)
  else
    match add_all [(tt_requests_completed t, req); (tt_tokens_completed t, tok); (tt_activation_bytes_sent t, sent); (tt_result_bytes_received t, recv);
                   (tt_local_aggregation_bytes t, local); (tt_wan_bytes t, wan); (tt_compute_us t, compute); (tt_queue_wait_us t, queue); (tt_batch_count t, 1);
                   (tt_reroute_count t, if decide (rerouted <> 0) then 1 else 0); (tt_failed_count t, if decide (failed <> 0) then 1 else 0)] with
    | (rc, [a; b; c; d; e; f; g; h; i; j; k]) =>
        (rc, mkTelemetry (tt_version t) (tt_pod_id t) (tt_window_start_us t) (tt_window_end_us t) a b c d e f g h i j (tt_rejected_count t) k)
    | (rc, _) => (rc, t)
    end.
Definition qrx_rate_milli (units start fin : Z) : Z :=
  if decide (fin <= start) then 0
  else let dur := fin -64 start in if decide (units > UINT64_MAX / 1000000000) then UINT64_MAX else (units *64 1000000000) / dur.
Definition qrx_moe_telemetry_tokens_per_second_milli (t : QrxMoeThroughputTelemetry) : Z :=
  if decide (qrx_moe_telemetry_validate t <> 0) then 0 else qrx_rate_milli (tt_tokens_completed t) (tt_window_start_us t) (tt_window_end_us t).
Definition qrx_moe_telemetry_requests_per_second_milli (t : QrxMoeThroughputTelemetry) : Z :=
  if decide (qrx_moe_telemetry_validate t <> 0) then 0 else qrx_rate_milli (tt_requests_completed t) (tt_window_start_us t) (tt_window_end_us t).
Definition qrx_moe_telemetry_wan_share_bps (t : QrxMoeThroughputTelemetry) : Z :=
  if decide (qrx_moe_telemetry_validate t <> 0) then 0
  else
    let total := tt_activation_bytes_sent t +64 tt_result_bytes_received t in
    if decide (total < tt_activation_bytes_sent t) then 0 else if decide (total = 0) then 0
    else if decide (tt_wan_bytes t >= total) then 10000 else u32 ((tt_wan_bytes t *64 10000) / total).

Definition telemetry_preimage (t : QrxMoeThroughputTelemetry) : bytes :=
  cs "QRX/MOE/THROUGHPUT/V1" ++ fields [tt_pod_id t] ++
  concat (qrx_job_digest_u64 <$> [tt_window_start_us t; tt_window_end_us t; tt_requests_completed t; tt_tokens_completed t; tt_activation_bytes_sent t;
    tt_result_bytes_received t; tt_local_aggregation_bytes t; tt_wan_bytes t; tt_compute_us t; tt_queue_wait_us t; tt_batch_count t; tt_reroute_count t;
    tt_rejected_count t; tt_failed_count t]).

(** ** Transports and devices *)

Definition QRX_MOE_BENCH_VERSION : Z := 1.
Definition QRX_MOE_MAX_TRANSPORT_NAME : nat := 32.
Definition QRX_MOE_MAX_BENCH_NODES : Z := 256.
Definition QRX_MOE_RUNTIME_FEAT_RDMA : Z := 2 ^ 3.
Definition QRX_MOE_ACCEL_FEAT_FP16 : Z := 2 ^ 0.
Definition QRX_MOE_ACCEL_FEAT_FP32 : Z := 2 ^ 1.
Definition QRX_MOE_ACCEL_FEAT_INT8 : Z := 2 ^ 2.
Definition QRX_MOE_ACCEL_FEAT_TENSOR_CORES : Z := 2 ^ 3.
Definition QRX_MOE_TRANSPORT_LOCAL : Z := 1.
Definition QRX_MOE_TRANSPORT_SHM : Z := 2.
Definition QRX_MOE_TRANSPORT_MPI : Z := 5.
Definition QRX_MOE_TRANSPORT_JACCL_RDMA : Z := 6.

Record QrxMoeTransportAdapter := mkTransport {
  ta_version : Z;
  ta_kind : Z;
  ta_name : bytes;
  ta_feature_mask : Z;
  ta_latency_us : Z;
  ta_bandwidth_mbps : Z;
  ta_max_inflight : Z;
  ta_mtu_bytes : Z;
  ta_per_message_overhead_bytes : Z
}.
Record QrxMoeBenchmarkNode := mkBenchmarkNode {
  bn_version : Z;
  bn_node_id : bytes;
  bn_device : QrxMoeRuntimeDevice;
  bn_transport : QrxMoeTransportAdapter;
  bn_standalone_milli_tokens_per_second : Z;
  bn_availability_bps : Z
}.
Record QrxMoeBenchmarkScenario := mkScenario {
  bs_version : Z;
  bs_scenario_id : bytes;
  bs_seed : Z;
  bs_duration_us : Z;
  bs_concurrency : Z;
  bs_requested_batch_items : Z;
  bs_activation_bytes_per_token : Z;
  bs_result_bytes_per_token : Z;
  bs_synthetic_fault_bps : Z;
  bs_nodes : list QrxMoeBenchmarkNode
}.
Record QrxMoeBenchmarkResult := mkBenchmark {
  br_version : Z;
  br_effective_nodes_milli : Z;
  br_raw_milli_tokens_per_second : Z;
  br_estimated_milli_tokens_per_second : Z;
  br_estimated_tokens_completed : Z;
  br_estimated_wire_bytes : Z;
  br_estimated_transport_us : Z;
  br_estimated_compute_us : Z;
  br_bottleneck_transport_index : Z;
  br_fault_loss_bps : Z
}.

Definition qrx_moe_transport_validate (a : QrxMoeTransportAdapter) : Z :=
  if decide (ta_version a <> QRX_MOE_RUNTIME_VERSION \/ ta_kind a < QRX_MOE_TRANSPORT_LOCAL \/ ta_kind a > QRX_MOE_TRANSPORT_JACCL_RDMA \/
      nonempty (ta_name a) QRX_MOE_MAX_TRANSPORT_NAME = false \/ ta_max_inflight a = 0) then -1
  else if decide (ta_kind a <> QRX_MOE_TRANSPORT_LOCAL /\ ta_kind a <> QRX_MOE_TRANSPORT_SHM /\ ta_bandwidth_mbps a = 0) then -2
  else if decide (has (ta_feature_mask a) QRX_MOE_RUNTIME_FEAT_RDMA = true /\ ta_kind a <> QRX_MOE_TRANSPORT_JACCL_RDMA /\ ta_kind a <> QRX_MOE_TRANSPORT_MPI) then -3
  else 0.

Fixpoint strstr (hay needle : bytes) : bool :=
  bool_decide (needle `prefix_of` hay) || match hay with [] => false | _ :: hay => strstr hay needle end.
Definition qrx_moe_runtime_is_nvidia_p40 (d : QrxMoeRuntimeDevice) : bool :=
  if decide (qrx_moe_runtime_device_validate d <> 0) then false
  else bool_decide (dv_backend d = QRX_MOE_BACKEND_CUDA) && bool_decide (dv_cuda_cc_major d = 6) && bool_decide (dv_cuda_cc_minor d = 1) &&
       strstr (cstr (dv_device_name d)) (cs "P40").
Definition qrx_moe_runtime_supports_tensor_core_kernel (d : QrxMoeRuntimeDevice) : bool :=
  if decide (qrx_moe_runtime_device_validate d <> 0) then false else has (dv_accelerator_features d) QRX_MOE_ACCEL_FEAT_TENSOR_CORES.

(** ** The benchmark of a pod *)

(** The checks of one node, [before] being those in front of it. *)
Definition bench_node_check (n : QrxMoeBenchmarkNode) (before : list QrxMoeBenchmarkNode) : Z :=
  if decide (bn_version n <> QRX_MOE_BENCH_VERSION \/ nonempty (bn_node_id n) 129 = false \/ qrx_moe_runtime_device_validate (bn_device n) <> 0 \/
      qrx_moe_transport_validate (bn_transport n) <> 0 \/ bn_standalone_milli_tokens_per_second n = 0 \/ bn_availability_bps n > 10000) then -2
  else if existsb (fun m => bool_decide (cstr (bn_node_id n) = cstr (bn_node_id m))) before then -3
  else 0.
Fixpoint bench_nodes_check (l before : list QrxMoeBenchmarkNode) : Z :=
  match l with
  | [] => 0
  | n :: l => let rc := bench_node_check n before in if decide (rc <> 0) then rc else bench_nodes_check l (before ++ [n])
  end.
Definition qrx_moe_benchmark_scenario_validate (s : QrxMoeBenchmarkScenario) : Z :=
  if decide (bs_version s <> QRX_MOE_BENCH_VERSION \/ nonempty (bs_scenario_id s) 129 = false \/ bs_duration_us s = 0 \/ bs_concurrency s = 0 \/
      bs_requested_batch_items s = 0 \/ bs_requested_batch_items s > QRX_MOE_MAX_BATCH_ITEMS \/ bs_nodes s = [] \/
      blen (bs_nodes s) > QRX_MOE_MAX_BENCH_NODES \/ bs_synthetic_fault_bps s > 10000) then -1
  else bench_nodes_check (bs_nodes s) [].

Definition qrx_u64_sat_add (a b : Z) : Z := if decide (UINT64_MAX - a < b) then UINT64_MAX else a +64 b.

(** What the loop over the nodes adds up: the nodes that count, the raw rate,
    the slowest transport and its index. *)
Record bench_state := mkBench { bx_nodes : Z; bx_raw : Z; bx_worst : Z; bx_index : Z }.
Definition transport_us (wire : Z) (n : QrxMoeBenchmarkNode) : Z :=
  let tu := ta_latency_us (bn_transport n) in
  if decide (ta_bandwidth_mbps (bn_transport n) <> 0 /\ wire <> 0) then
    qrx_u64_sat_add tu (if decide (wire > UINT64_MAX / 8) then UINT64_MAX else (wire *64 8) / ta_bandwidth_mbps (bn_transport n))
  else tu.
Definition bench_step (wire : Z) (st : bench_state) (i : Z) (n : QrxMoeBenchmarkNode) : bench_state :=
  let tu := transport_us wire n in
  mkBench (qrx_u64_sat_add (bx_nodes st) (bn_availability_bps n / 10))
    (qrx_u64_sat_add (bx_raw st) ((bn_standalone_milli_tokens_per_second n *64 bn_availability_bps n) / 10000))
    (if decide (tu > bx_worst st) then tu else bx_worst st) (if decide (tu > bx_worst st) then i else bx_index st).
Fixpoint bench_loop (wire : Z) (st : bench_state) (i : Z) (l : list QrxMoeBenchmarkNode) : bench_state :=
  match l with [] => st | n :: l => bench_loop wire (bench_step wire st i n) (i + 1) l end.
Definition qrx_moe_benchmark_run (s : QrxMoeBenchmarkScenario) : option QrxMoeBenchmarkResult :=
  if decide (qrx_moe_benchmark_scenario_validate s <> 0) then None
  else
    let wire := qrx_u64_sat_add (bs_activation_bytes_per_token s) (bs_result_bytes_per_token s) in
    let st := bench_loop wire (mkBench 0 0 0 0) 0 (bs_nodes s) in
    let batch := if decide (bs_requested_batch_items s > bs_concurrency s) then bs_concurrency s else bs_requested_batch_items s in
    let amortized := if decide (batch <> 0) then bx_worst st / batch else bx_worst st in
    let raw_token := if decide (bx_raw st <> 0) then 1000000000 / bx_raw st else UINT64_MAX in
    let total := qrx_u64_sat_add raw_token amortized in
    let est := if decide (total <> 0) then 1000000000 / total else 0 in
    let loss := if decide (bs_synthetic_fault_bps s > 10000) then 10000 else bs_synthetic_fault_bps s in
    let est := (est *64 (10000 - loss)) / 10000 in
    let done := (est *64 bs_duration_us s) / 1000000000 in
    Some (mkBenchmark QRX_MOE_BENCH_VERSION (bx_nodes st) (bx_raw st) est done
            (if decide (wire <> 0 /\ done <= UINT64_MAX / wire) then done *64 wire else UINT64_MAX)
            (done *64 amortized) (done *64 raw_token) (bx_index st) loss).

Definition benchmark_preimage (s : QrxMoeBenchmarkScenario) (r : QrxMoeBenchmarkResult) : bytes :=
  cs "QRX/MOE/BENCHMARK/V1" ++ fields [bs_scenario_id s] ++ qrx_job_digest_u64 (bs_seed s) ++ qrx_job_digest_u64 (bs_duration_us s) ++
  qrx_job_digest_u32 (bs_concurrency s) ++ qrx_job_digest_u32 (bs_requested_batch_items s) ++ qrx_job_digest_u64 (bs_activation_bytes_per_token s) ++
  qrx_job_digest_u64 (bs_result_bytes_per_token s) ++ qrx_job_digest_u32 (bs_synthetic_fault_bps s) ++ qrx_job_digest_u32 (blen (bs_nodes s)) ++
  concat ((fun n => let d := bn_device n in let t := bn_transport n in
      fields [bn_node_id n] ++ qrx_job_digest_u32 (dv_backend d) ++ qrx_job_digest_u32 (dv_accelerator_features d) ++
      qrx_job_digest_u64 (dv_device_memory_bytes d) ++ qrx_job_digest_u32 (dv_cuda_cc_major d) ++ qrx_job_digest_u32 (dv_cuda_cc_minor d) ++
      qrx_job_digest_u32 (ta_kind t) ++ qrx_job_digest_u32 (ta_feature_mask t) ++ qrx_job_digest_u32 (ta_latency_us t) ++
      qrx_job_digest_u32 (ta_bandwidth_mbps t) ++ qrx_job_digest_u64 (bn_standalone_milli_tokens_per_second n) ++
      qrx_job_digest_u32 (bn_availability_bps n)) <$> bs_nodes s) ++
  qrx_job_digest_u64 (br_raw_milli_tokens_per_second r) ++ qrx_job_digest_u64 (br_estimated_milli_tokens_per_second r) ++
  qrx_job_digest_u64 (br_estimated_tokens_completed r) ++ qrx_job_digest_u64 (br_estimated_wire_bytes r) ++ qrx_job_digest_u32 (br_fault_loss_bps r).

(** ** Discovery *)

Definition QRX_MOE_DISCOVERY_VERSION : Z := 1.
Definition QRX_MOE_MAX_DISCOVERED_DEVICES : Z := 32.
Definition QRX_MOE_KERNEL_FP32 : Z := 2 ^ 0.
Definition QRX_MOE_KERNEL_FP16 : Z := 2 ^ 1.
Definition QRX_MOE_KERNEL_INT8 : Z := 2 ^ 2.
Definition QRX_MOE_KERNEL_TENSORCORE : Z := 2 ^ 3.
Definition QRX_MOE_KERNEL_MLX : Z := 2 ^ 4.
Definition QRX_MOE_KERNEL_METAL : Z := 2 ^ 5.
Definition QRX_MOE_DISCOVERY_CPU_NATIVE : Z := 1.
Definition QRX_MOE_DISCOVERY_CUDA_DRIVER : Z := 3.
Definition QRX_MOE_MAX_ADAPTER_NAME : nat := 64.

Record QrxMoeDiscoveredDevice := mkDiscovered {
  dd_version : Z; dd_source : Z; dd_device : QrxMoeRuntimeDevice; dd_runtime_present : Z; dd_execution_adapter_ready : Z
}.
Record QrxMoeRuntimeInventory := mkInventory {
  ri_version : Z;
  ri_devices : list QrxMoeDiscoveredDevice;
  ri_cuda_driver_present : Z;
  ri_apple_silicon : Z;
  ri_metal_capable : Z;
  ri_mlx_adapter_present : Z
}.
Record QrxMoeWorkerRequirement := mkRequirement {
  wr_version : Z; wr_backend : Z; wr_required_kernel_features : Z; wr_required_device_memory_bytes : Z; wr_requested_batch_items : Z
}.

Definition qrx_moe_inventory_push (out : QrxMoeRuntimeInventory) (source : Z) (d : QrxMoeRuntimeDevice) (present ready : Z) : Z * QrxMoeRuntimeInventory :=
  if decide (blen (ri_devices out) >= QRX_MOE_MAX_DISCOVERED_DEVICES) then (-1, out)
  else (0, mkInventory (ri_version out) (ri_devices out ++ [mkDiscovered QRX_MOE_DISCOVERY_VERSION source d present ready])
             (ri_cuda_driver_present out) (ri_apple_silicon out) (ri_metal_capable out) (ri_mlx_adapter_present out)).
Definition qrx_cuda_feature_mask (maj min : Z) : Z :=
  let f := Z.lor QRX_MOE_ACCEL_FEAT_CUDA QRX_MOE_ACCEL_FEAT_FP32 in
  let f := if decide (maj >= 5) then Z.lor f QRX_MOE_ACCEL_FEAT_FP16 else f in
  let f := if decide (maj > 6 \/ (maj = 6 /\ min >= 1)) then Z.lor f QRX_MOE_ACCEL_FEAT_INT8 else f in
  if decide (maj >= 7) then Z.lor f QRX_MOE_ACCEL_FEAT_TENSOR_CORES else f.

(** What the driver answers on a device: its name, capability and memory, or
    nothing when one of the calls failed. *)
Definition cuda_answer : Type := option (bytes * Z * Z * Z).
Definition cuda_device (name : bytes) (maj min mem : Z) : QrxMoeRuntimeDevice :=
  mkDevice QRX_MOE_RUNTIME_VERSION QRX_MOE_BACKEND_CUDA (arr QRX_MOE_MAX_DEVICE_NAME (cstr name)) (qrx_cuda_feature_mask (u32 maj) (u32 min)) mem (u32 maj) (u32 min) 64.
Definition cuda_step (out : QrxMoeRuntimeInventory) (a : cuda_answer) : QrxMoeRuntimeInventory :=
  match a with
  | Some (name, maj, min, mem) => snd (qrx_moe_inventory_push out QRX_MOE_DISCOVERY_CUDA_DRIVER (cuda_device name maj min mem) 1 1)
  | None => out
  end.
(** The loop stops when the inventory is full. *)
Fixpoint cuda_loop (out : QrxMoeRuntimeInventory) (l : list cuda_answer) : QrxMoeRuntimeInventory :=
  match l with
  | [] => out
  | a :: l => if decide (blen (ri_devices out) < QRX_MOE_MAX_DISCOVERED_DEVICES) then cuda_loop (cuda_step out a) l else out
  end.
(** [None]: no driver, or one that does not start.  [Some None]: it does not
    say how many devices there are. *)
Definition qrx_moe_discover_cuda (out : QrxMoeRuntimeInventory) (driver : option (option (list cuda_answer))) : QrxMoeRuntimeInventory :=
  match driver with
  | None => out
  | Some answers =>
      let out := mkInventory (ri_version out) (ri_devices out) 1 (ri_apple_silicon out) (ri_metal_capable out) (ri_mlx_adapter_present out) in
      match answers with None => out | Some l => cuda_loop out l end
  end.

Definition discovered_check (d : QrxMoeDiscoveredDevice) : Z :=
  if decide (dd_version d <> QRX_MOE_DISCOVERY_VERSION \/ dd_source d < QRX_MOE_DISCOVERY_CPU_NATIVE \/ dd_source d > QRX_MOE_DISCOVERY_CUDA_DRIVER \/
      qrx_moe_runtime_device_validate (dd_device d) <> 0) then -2
  else if decide (dd_execution_adapter_ready d <> 0 /\ dd_runtime_present d = 0) then -3 else 0.
(** The code of the first device that fails. *)
Fixpoint first_code (l : list Z) : Z := match l with [] => 0 | c :: l => if decide (c <> 0) then c else first_code l end.
Definition qrx_moe_runtime_inventory_validate (i : QrxMoeRuntimeInventory) : Z :=
  if decide (ri_version i <> QRX_MOE_DISCOVERY_VERSION \/ ri_devices i = [] \/ blen (ri_devices i) > QRX_MOE_MAX_DISCOVERED_DEVICES) then -1
  else first_code (discovered_check <$> ri_devices i).
Definition cpu_device (memory cpus : Z) : QrxMoeRuntimeDevice :=
  mkDevice QRX_MOE_RUNTIME_VERSION QRX_MOE_BACKEND_CPU (arr QRX_MOE_MAX_DEVICE_NAME (cs "Native CPU")) QRX_MOE_ACCEL_FEAT_FP32 memory 0 0
    (if decide (cpus = 0) then 1 else cpus).
Definition qrx_moe_runtime_discover_native (memory cpus : Z) (driver : option (option (list cuda_answer))) : Z * QrxMoeRuntimeInventory :=
  let out := mkInventory QRX_MOE_DISCOVERY_VERSION [] 0 0 0 0 in
  let '(rc, out) := qrx_moe_inventory_push out QRX_MOE_DISCOVERY_CPU_NATIVE (cpu_device memory cpus) 1 1 in
  if decide (rc <> 0) then (-2, out)
  else let out := qrx_moe_discover_cuda out driver in (qrx_moe_runtime_inventory_validate out, out).

(** ** Workers *)

Definition kernel_bit (features feat kernel : Z) (m : Z) : Z := if has features feat then Z.lor m kernel else m.
Definition qrx_moe_runtime_kernel_mask (d : QrxMoeRuntimeDevice) : Z :=
  if decide (qrx_moe_runtime_device_validate d <> 0) then 0
  else
    let f := dv_accelerator_features d in
    kernel_bit f QRX_MOE_ACCEL_FEAT_METAL QRX_MOE_KERNEL_METAL (kernel_bit f QRX_MOE_ACCEL_FEAT_MLX QRX_MOE_KERNEL_MLX
      (kernel_bit f QRX_MOE_ACCEL_FEAT_TENSOR_CORES QRX_MOE_KERNEL_TENSORCORE (kernel_bit f QRX_MOE_ACCEL_FEAT_INT8 QRX_MOE_KERNEL_INT8
        (kernel_bit f QRX_MOE_ACCEL_FEAT_FP16 QRX_MOE_KERNEL_FP16 (kernel_bit f QRX_MOE_ACCEL_FEAT_FP32 QRX_MOE_KERNEL_FP32 0))))).
Definition qrx_moe_worker_eligible (d : QrxMoeRuntimeDevice) (r : QrxMoeWorkerRequirement) : bool :=
  if decide (qrx_moe_runtime_device_validate d <> 0 \/ wr_version r <> QRX_MOE_DISCOVERY_VERSION \/ wr_backend r < QRX_MOE_BACKEND_CPU \/
      wr_backend r > QRX_MOE_BACKEND_OTHER \/ wr_requested_batch_items r = 0) then false
  else if decide (dv_backend d <> wr_backend r) then false
  else if decide (dv_device_memory_bytes d < wr_required_device_memory_bytes r \/ dv_max_batch_items d < wr_requested_batch_items r) then false
  else bool_decide (Z.land (qrx_moe_runtime_kernel_mask d) (wr_required_kernel_features r) = wr_required_kernel_features r).

(** [execute], with its context, reads the input and gets the capacity of the
    output; it answers a code and what it wrote. *)
Record QrxMoeWorkerAdapter := mkAdapter {
  wa_version : Z; wa_name : bytes; wa_backend : Z; wa_kernel_mask : Z; wa_ready : Z; wa_execute : option (bytes -> Z -> Z * bytes)
}.
Definition qrx_moe_worker_adapter_validate (a : QrxMoeWorkerAdapter) : Z :=
  if decide (wa_version a <> QRX_MOE_DISCOVERY_VERSION \/ nonempty (wa_name a) QRX_MOE_MAX_ADAPTER_NAME = false \/ wa_backend a < QRX_MOE_BACKEND_CPU \/
      wa_backend a > QRX_MOE_BACKEND_OTHER) then -1
  else if decide (wa_ready a <> 0 /\ (wa_execute a = None \/ wa_kernel_mask a = 0)) then -2 else 0.
(** [None] stands for a null pointer. *)
Definition qrx_moe_worker_adapter_execute (a : QrxMoeWorkerAdapter) (d : QrxMoeRuntimeDevice) (r : QrxMoeWorkerRequirement) (input : option bytes) (in_n : Z)
    (out_null : bool) (out_cap : Z) : Z * bytes :=
  if decide (qrx_moe_worker_adapter_validate a <> 0 \/ wa_ready a = 0) then (-1, [])
  else match wa_execute a with
       | None => (-1, [])
       | Some execute =>
           if decide (wa_backend a <> dv_backend d \/ qrx_moe_worker_eligible d r = false) then (-2, [])
           else if decide (Z.land (wa_kernel_mask a) (wr_required_kernel_features r) <> wr_required_kernel_features r) then (-3, [])
           else if decide (in_n <> 0 /\ input = None) then (-4, []) else if decide (out_cap <> 0 /\ out_null = true) then (-5, [])
           else execute (take (Z.to_nat in_n) (default [] input)) out_cap
       end.

(** ** Calibration *)

Definition qrx_moe_calibration_apply_to_benchmark (p : QrxMoeCalibrationProfile) (n : QrxMoeBenchmarkNode) : Z * QrxMoeBenchmarkNode :=
  if decide (qrx_moe_calibration_profile_validate p <> 0 \/ bn_version n <> QRX_MOE_BENCH_VERSION \/ c_model_milli_tokens_per_second p = 0) then (-1, n)
  else
    let t := bn_transport n in
    (0, mkBenchmarkNode (bn_version n) (bn_node_id n) (c_device p)
          (mkTransport (ta_version t) (ta_kind t) (ta_name t) (ta_feature_mask t)
             (if decide (c_transport_latency_us p <> 0) then c_transport_latency_us p else ta_latency_us t)
             (if decide (c_transport_bandwidth_mbps p <> 0) then c_transport_bandwidth_mbps p else ta_bandwidth_mbps t)
             (ta_max_inflight t) (ta_mtu_bytes t) (ta_per_message_overhead_bytes t))
          (c_model_milli_tokens_per_second p) (bn_availability_bps n)).
Definition calibration_with (p : QrxMoeCalibrationProfile) (rate batch samples latency bandwidth : Z) : QrxMoeCalibrationProfile :=
  mkCalibration (c_version p) (c_profile_id p) (c_device p) (c_measured_at_unix_ms p) (c_memory_bandwidth_bytes_per_second p) (c_compute_ops_per_second p)
    rate batch samples latency bandwidth.
Definition sample_rate (tokens elapsed : Z) : Z := if decide (tokens > UINT64_MAX / 1000000000) then UINT64_MAX else (tokens *64 1000000000) / elapsed.
(** The mean over the samples; it is left alone where the sum does not fit. *)
Definition mean_rate (mean old milli : Z) : Z :=
  if decide (old = 0) then milli
  else
    let weighted := if decide (mean <= UINT64_MAX / old) then mean *64 old else UINT64_MAX in
    if decide (weighted <> UINT64_MAX /\ UINT64_MAX - weighted >= milli) then (weighted +64 milli) / (old +32 1) else mean.
Definition qrx_moe_calibration_record_model_sample (p : QrxMoeCalibrationProfile) (tokens elapsed batch : Z) : Z * QrxMoeCalibrationProfile :=
  if decide (c_version p <> QRX_MOE_CALIBRATION_VERSION \/ tokens = 0 \/ elapsed = 0 \/ batch = 0) then (-1, p)
  else if decide (c_sample_count p = UINT32_MAX) then (-2, p)
  else (0, calibration_with p (mean_rate (c_model_milli_tokens_per_second p) (c_sample_count p) (sample_rate tokens elapsed)) batch (c_sample_count p +32 1)
             (c_transport_latency_us p) (c_transport_bandwidth_mbps p)).
Definition qrx_moe_calibration_record_transport_probe (p : QrxMoeCalibrationProfile) (payload rtt : Z) : Z * QrxMoeCalibrationProfile :=
  if decide (c_version p <> QRX_MOE_CALIBRATION_VERSION \/ payload = 0 \/ rtt = 0) then (-1, p)
  else (0, calibration_with p (c_model_milli_tokens_per_second p) (c_model_batch_items p) (c_sample_count p)
             (u32 (if decide (rtt / 2 > UINT32_MAX) then UINT32_MAX else rtt / 2))
             (if decide (payload > UINT64_MAX / 16) then UINT32_MAX
              else let mbps := (payload *64 16) / rtt in u32 (if decide (mbps > UINT32_MAX) then UINT32_MAX else mbps))).

Section sha.
Variable sha3_256 : bytes -> bytes.

Definition qrx_moe_telemetry_commitment (t : QrxMoeThroughputTelemetry) : option bytes :=
  if decide (qrx_moe_telemetry_validate t <> 0) then None else Some (hex (sha3_256 (telemetry_preimage t))).
Definition qrx_moe_benchmark_commitment (s : QrxMoeBenchmarkScenario) (r : QrxMoeBenchmarkResult) : option bytes :=
  if decide (qrx_moe_benchmark_scenario_validate s <> 0 \/ br_version r <> QRX_MOE_BENCH_VERSION) then None
  else Some (hex (sha3_256 (benchmark_preimage s r))).
End sha.
