(* ===== verification/MoeFacts.v ===== *)
(** * Moe: what plans, batches, streams and sums keep

    The sorted plans do not depend on the order in which their entries came or
    on the sort; a micro-batch stays within its limits whatever it is offered;
    a stream accounts for every batch. *)

From stdpp Require Import gmap sorting.
From S2P Require Import Prelude Format Aura AuraFacts AuraRouting Compute ComputeFacts AuraAgent AuraAgentFacts Moe.

(** ** Sorting by a key *)

Section qsort.
Context {A : Type} (cmp : A -> A -> Z) (key : A -> list Z).
Hypothesis by_key : forall x y, by_cmp cmp x y <-> lex_lt (key y) (key x) = false.

#[local] Instance by_cmp_trans : Transitive (by_cmp cmp).
Proof using by_key. intros a b c. rewrite !by_key. apply lex_le_trans. Qed.
#[local] Instance by_cmp_total : Total (by_cmp cmp).
Proof using by_key.
  intros a b. rewrite !by_key. destruct (lex_lt (key b) (key a)) eqn:E; [right; by apply lex_asym|by left].
Qed.

Lemma qsort_perm l : qsort cmp l ≡ₚ l.
Proof using. apply merge_sort_Permutation. Qed.
Lemma qsort_sorted l : StronglySorted (by_cmp cmp) (qsort cmp l).
Proof using by_key. apply (StronglySorted_merge_sort _). Qed.
(** With distinct keys every sort gives the same. *)
Lemma qsort_unique l k : NoDup (key <$> l) -> k ≡ₚ l -> StronglySorted (by_cmp cmp) k -> k = qsort cmp l.
Proof using by_key.
  intros Hn Hp Hs. apply (StronglySorted_unique_strong (by_cmp cmp)); [|done|apply qsort_sorted|by rewrite qsort_perm].
  intros x y Hx Hy. rewrite !by_key. intros H1 H2. rewrite Hp in Hx. rewrite qsort_perm in Hy.
  apply list_elem_of_lookup in Hx as [i Hi], Hy as [j Hj]. assert (i = j) as ->; [|congruence].
  apply (NoDup_lookup _ i j (key x) Hn); rewrite list_lookup_fmap, ?Hi, ?Hj; [done|]. cbn. f_equal. by apply lex_total.
Qed.
Lemma qsort_same l k : NoDup (key <$> l) -> l ≡ₚ k -> qsort cmp l = qsort cmp k.
Proof using by_key.
  intros Hn Hp. symmetry. apply qsort_unique; [done|by rewrite qsort_perm|apply qsort_sorted].
Qed.
End qsort.

(** A string in a key: what follows counts only when the strings are equal. *)
Definition str_key (s : bytes) : list Z := ((fun b => byte.unsigned b + 1) <$> s) ++ [0].

Lemma str_key_lt a b r q : lex_lt (str_key a ++ r) (str_key b ++ q) = if strcmp_lt a b then true else if strcmp_lt b a then false else lex_lt r q.
Proof.
  revert b. induction a as [|x a IH]; intros [|y b]; cbn; try done.
  - pose proof (byte.unsigned_range y). rewrite decide_False by lia. apply bool_decide_true. lia.
  - pose proof (byte.unsigned_range x). rewrite decide_False by lia. apply bool_decide_false. lia.
  - destruct (decide (x = y)) as [->|Hn]; [rewrite !decide_True by done; apply IH|].
    assert (byte.unsigned x <> byte.unsigned y) as Hu by (intros E; apply Hn; apply (f_equal byte.of_Z) in E; by rewrite !byte.of_Z_unsigned in E).
    rewrite (decide_False (P := y = x)), decide_False by (done || lia). case_bool_decide as H1; case_bool_decide as H2; try case_bool_decide; try done; lia.
Qed.
Lemma strcmp_lt_asym a b : strcmp_lt a b = true -> strcmp_lt b a = false.
Proof. rewrite !strcmp_lex. apply lex_asym. Qed.
Lemma strcmp_lt_total a b : strcmp_lt a b = false -> strcmp_lt b a = false -> a = b.
Proof.
  rewrite !strcmp_lex. intros H1 H2. pose proof (lex_total _ _ H1 H2) as H. apply (list_fmap_eq_inj byte.unsigned); [|done].
  intros x y E. apply (f_equal byte.of_Z) in E. by rewrite !byte.of_Z_unsigned in E.
Qed.
Lemma str_key_inj a b r q : str_key a ++ r = str_key b ++ q -> a = b /\ r = q.
Proof.
  intros E. assert (a = b) as ->; [|split; [done|]; by apply app_inv_head in E].
  pose proof (str_key_lt a b r q) as H1. pose proof (str_key_lt b a q r) as H2. rewrite E, lex_irrefl in H1. rewrite <- E, lex_irrefl in H2.
  destruct (strcmp_lt a b) eqn:H; [done|]. destruct (strcmp_lt b a) eqn:H'; [done|]. by apply strcmp_lt_total.
Qed.

Definition prefetch_key (x : QrxMoePrefetchItem) : list Z :=
  - pi_locality_score x :: str_key (cstr (pl_node_id (pi_placement x))) ++ [fr_expert_id (pl_fragment (pi_placement x)); fr_fragment_id (pl_fragment (pi_placement x))].
Definition batch_key (x : QrxMoeBatchItem) : list Z := bi_deadline_us x :: str_key (cstr (bi_request_id x)) ++ [].
Definition agg_key (x : QrxMoeAggregateInput) : list Z := ai_sequence x :: str_key (cstr (ai_node_id x)) ++ [].

Lemma lex_cons x y a b : lex_lt (x :: a) (y :: b) = if decide (x = y) then lex_lt a b else bool_decide (x < y).
Proof. done. Qed.
(** The end of a comparison: a first number, then a string, then what is left. *)
Lemma num_str_key x y a b r q (rest : Z) : (rest <= 0 <-> lex_lt q r = false) ->
  (if decide (x < y) then -1 else if decide (x > y) then 1 else let c := strcmp a b in if decide (c <> 0) then c else rest) <= 0 <->
  lex_lt (y :: str_key b ++ q) (x :: str_key a ++ r) = false.
Proof.
  intros Hr. rewrite lex_cons, str_key_lt. unfold strcmp. case_decide; [rewrite decide_False, bool_decide_false by lia; by split|].
  case_decide; [rewrite decide_False, bool_decide_true by lia; split; [lia|done]|]. rewrite (decide_True (P := y = x)) by lia. cbv zeta.
  destruct (strcmp_lt a b) eqn:E1; [rewrite (strcmp_lt_asym _ _ E1), decide_True by lia; split; [done|lia]|].
  destruct (strcmp_lt b a) eqn:E2; [rewrite decide_True by lia; split; [lia|done]|]. by rewrite decide_False by lia.
Qed.
Lemma by_prefetch_key x y : by_cmp qrx_moe_prefetch_cmp x y <-> lex_lt (prefetch_key y) (prefetch_key x) = false.
Proof.
  unfold by_cmp, qrx_moe_prefetch_cmp, prefetch_key. cbv zeta. rewrite <- num_str_key with
    (rest := let f := pl_fragment (pi_placement x) in let g := pl_fragment (pi_placement y) in
      if decide (fr_expert_id f < fr_expert_id g) then -1 else if decide (fr_expert_id f > fr_expert_id g) then 1
      else if decide (fr_fragment_id f < fr_fragment_id g) then -1 else if decide (fr_fragment_id f > fr_fragment_id g) then 1 else 0).
  - cbv zeta. destruct (decide (pi_locality_score x > pi_locality_score y)), (decide (- pi_locality_score x < - pi_locality_score y)); try lia.
    destruct (decide (pi_locality_score x < pi_locality_score y)), (decide (- pi_locality_score x > - pi_locality_score y)); first [lia | done].
  - cbv zeta. rewrite !lex_cons. cbn [lex_lt]. repeat (let H := fresh in case_decide as H; try lia); rewrite ?bool_decide_eq_false; lia.
Qed.
Lemma by_batch_key x y : by_cmp qrx_moe_batch_item_cmp x y <-> lex_lt (batch_key y) (batch_key x) = false.
Proof.
  unfold by_cmp, qrx_moe_batch_item_cmp, batch_key. rewrite <- (num_str_key _ _ _ _ [] [] 0) by (split; done). cbv zeta.
  destruct (decide (strcmp (cstr (bi_request_id x)) (cstr (bi_request_id y)) <> 0)) as [|E]; [done|]. apply dec_stable in E. by rewrite E.
Qed.
Lemma by_agg_key x y : by_cmp qrx_moe_agg_cmp x y <-> lex_lt (agg_key y) (agg_key x) = false.
Proof.
  unfold by_cmp, qrx_moe_agg_cmp, agg_key. rewrite <- (num_str_key _ _ _ _ [] [] 0) by (split; done). cbv zeta.
  destruct (decide (strcmp (cstr (ai_node_id x)) (cstr (ai_node_id y)) <> 0)) as [|E]; [done|]. apply dec_stable in E. by rewrite E.
Qed.

(** ** Prefetch plans *)

(** A call of [qrx_moe_prefetch_plan_add]: the node, the placement on it and
    the prediction. *)
Abbreviation offer := (QrxMoeNodeProfile * QrxMoeExpertPlacement * Z)%type.
Definition offer_size (x : offer) : Z := fr_size_bytes (pl_fragment x.1.2).
Definition offer_key (x : offer) : bytes * Z * Z :=
  (cstr (pl_node_id x.1.2), fr_expert_id (pl_fragment x.1.2), fr_fragment_id (pl_fragment x.1.2)).
Definition offer_item (x : offer) : QrxMoePrefetchItem := prefetch_item x.1.1 x.1.2 x.2.
Definition total_size (l : list offer) : Z := zsum (offer_size <$> l).

Section prefetch.
Variable r : QrxMoeCoordinatorRequest.

(** Adding all of them, until one is refused. *)
Fixpoint prefetch_all (l : list offer) (plan : QrxMoePrefetchPlan) : option QrxMoePrefetchPlan :=
  match l with
  | [] => Some plan
  | x :: l => match qrx_moe_prefetch_plan_add r x.1.1 x.1.2 x.2 plan with (0, plan) => prefetch_all l plan | _ => None end
  end.

Definition plan_of (l : list offer) : QrxMoePrefetchPlan :=
  mkPrefetchPlan QRX_MOE_COORDINATOR_VERSION (arr QRX_MOE_MAX_POD_ID (cstr (rq_pod_id r))) (rq_next_layer_id r) (offer_item <$> l) (total_size l)
    (zsum (pi_estimated_wire_bytes <$> (offer_item <$> l))).

Definition offer_ok (x : offer) : Prop :=
  x.2 <= 10000 /\ qrx_moe_placement_validate x.1.1 x.1.2 = 0 /\ cstr (pl_pod_id x.1.2) = cstr (rq_pod_id r) /\ fr_layer_id (pl_fragment x.1.2) = rq_next_layer_id r.
(** What a plan can hold. *)
Record admissible (l : list offer) : Prop := {
  ad_ok : Forall offer_ok l;
  ad_keys : NoDup (offer_key <$> l);
  ad_count : blen l <= rq_max_prefetch r;
  ad_bytes : total_size l <= rq_max_prefetch_bytes r
}.
Definition offer_typed (x : offer) : Prop := 0 <= offer_size x.
Record request_typed : Prop := { rt_valid : qrx_moe_coordinator_request_validate r = 0; rt_bytes : in_u64 (rq_max_prefetch_bytes r); rt_count : 0 <= rq_max_prefetch r }.

Lemma total_size_snoc l x : total_size (l ++ [x]) = total_size l + offer_size x.
Proof using. unfold total_size. rewrite fmap_app, zsum_app. cbn. lia. Qed.
Lemma total_size_nonneg l : Forall offer_typed l -> 0 <= total_size l.
Proof using. intros H. apply zsum_nonneg, Forall_fmap. done. Qed.
Lemma wire_le_size l : Forall offer_typed l -> 0 <= zsum (pi_estimated_wire_bytes <$> (offer_item <$> l)) <= total_size l.
Proof using.
  induction 1 as [|x l Hx _ IH]; [cbn; lia|]. unfold total_size in *. rewrite !fmap_cons, !zsum_cons. unfold offer_typed in Hx.
  assert (0 <= pi_estimated_wire_bytes (offer_item x) <= offer_size x); [|lia]. unfold offer_item, prefetch_item, offer_size in *. cbn. case_decide; lia.
Qed.
Lemma request_max : request_typed -> rq_max_prefetch r <= QRX_MOE_MAX_PREFETCH /\ cstr (arr QRX_MOE_MAX_POD_ID (cstr (rq_pod_id r))) = cstr (rq_pod_id r).
Proof using.
  intros [H _ _]. unfold qrx_moe_coordinator_request_validate in H. case_decide as H1; [done|]. case_decide; [done|]. case_decide as H2; [done|].
  split; [lia|]. apply nonempty_arr. destruct (nonempty _ _) eqn:E; [done|tauto].
Qed.

Lemma admissible_app l k : Forall offer_typed (l ++ k) -> admissible (l ++ k) -> admissible l.
Proof using.
  intros Ht [H1 H2 H3 H4]. apply Forall_app in Ht as [_ Ht], H1 as [H1 _]. rewrite fmap_app in H2. apply NoDup_app in H2 as (H2 & _).
  rewrite blen_app in H3. pose proof (blen_nonneg k). unfold total_size in H4. rewrite fmap_app, zsum_app in H4. pose proof (total_size_nonneg k Ht) as Hk. unfold total_size in Hk.
  split; try done; unfold total_size; lia.
Qed.
Lemma same_fragment_key l x : Forall offer_ok (l ++ [x]) ->
  existsb (fun it => same_fragment (pi_placement it) x.1.2) (offer_item <$> l) = true <-> offer_key x ∈ offer_key <$> l.
Proof using.
  intros H. apply Forall_app in H as [H Hx]. rewrite Forall_singleton in Hx. rewrite existsb_exists, list_elem_of_fmap. split.
  - intros (it & (y & -> & Hy)%list_elem_of_In%list_elem_of_fmap & E). exists y. split; [|done]. unfold same_fragment in E.
    rewrite !andb_true_iff, !bool_decide_eq_true in E. cbn in E. destruct E as [[[E1 E2] E3] E4]. unfold offer_key. congruence.
  - intros (y & E & Hy). exists (offer_item y). split; [apply list_elem_of_In, list_elem_of_fmap; by exists y|]. injection E as E1 E2 E3.
    assert (fr_layer_id (pl_fragment y.1.2) = fr_layer_id (pl_fragment x.1.2)) as E4.
    { rewrite Forall_forall in H. destruct (H y Hy) as (_ & _ & _ & ->), Hx as (_ & _ & _ & ->). done. }
    unfold same_fragment. cbn. by rewrite !andb_true_iff, !bool_decide_eq_true, E1, E2, E3, E4.
Qed.

Lemma add_spec l x plan : request_typed -> Forall offer_typed (l ++ [x]) -> admissible l -> pp_version plan = 0 /\ l = [] \/ plan = plan_of l ->
  (admissible (l ++ [x]) -> qrx_moe_prefetch_plan_add r x.1.1 x.1.2 x.2 plan = (0, plan_of (l ++ [x]))) /\
  (fst (qrx_moe_prefetch_plan_add r x.1.1 x.1.2 x.2 plan) = 0 -> admissible (l ++ [x])).
Proof using.
  intros Hr Ht Hl Hplan. pose proof (request_max Hr) as [Hmax Hpod]. pose proof (rt_valid Hr) as Hv. pose proof (rt_bytes Hr) as Hb.
  apply Forall_app in Ht as [Htl Htx]. pose proof (total_size_nonneg l Htl) as Hn. pose proof (wire_le_size l Htl) as Hw. rewrite Forall_singleton in Htx.
  unfold offer_typed, offer_size in Htx. pose proof (ad_bytes _ Hl) as Hbytes. pose proof (ad_count _ Hl) as Hcount.
  unfold qrx_moe_prefetch_plan_add. rewrite Hv.
  destruct (decide (offer_ok x)) as [(H1 & H2 & H3 & H4)|Hno].
  2:{ split.
      - intros [H _ _ _]. apply Forall_app in H as [_ H]. by rewrite Forall_singleton in H.
      - case_decide as D1; [done|]. case_decide as D2; [done|]. destruct Hno. unfold offer_ok. split; [lia|].
        destruct (decide (qrx_moe_placement_validate x.1.1 x.1.2 = 0)) as [E|E]; [|lia].
        destruct (decide (cstr (rq_pod_id r) = cstr (pl_pod_id x.1.2))); [|tauto]. split; [done|]. split; [done|]. lia. }
  rewrite decide_False by lia. rewrite decide_False by (intros [E|E]; congruence). cbv zeta.
  assert ((if decide (pp_version plan = 0) then mkPrefetchPlan QRX_MOE_COORDINATOR_VERSION (arr QRX_MOE_MAX_POD_ID (cstr (rq_pod_id r))) (rq_next_layer_id r) [] 0 0 else plan) = plan_of l) as ->.
  { destruct Hplan as [[E ->]| ->]; [by rewrite decide_True|]. rewrite decide_False by done. done. }
  rewrite (decide_False (P := pp_version (plan_of l) <> _ \/ _)) by (cbn [plan_of pp_version pp_pod_id pp_next_layer_id]; rewrite Hpod; intros [E|[E|E]]; done).
  assert (blen (pp_items (plan_of l)) = blen l) as -> by (cbn; unfold blen; by rewrite length_fmap).
  cbn [plan_of pp_total_prefetch_bytes pp_items pp_version pp_pod_id pp_next_layer_id pp_estimated_wire_bytes].
  assert (Forall offer_ok (l ++ [x])) as Hok by (apply Forall_app; split; [apply Hl|by apply Forall_singleton]).
  assert (admissible (l ++ [x]) <-> blen l < rq_max_prefetch r /\ total_size l + offer_size x <= rq_max_prefetch_bytes r /\ offer_key x ∉ offer_key <$> l) as Ha.
  { split.
    - intros [_ K C B]. rewrite blen_app in C. cbn in C. rewrite total_size_snoc in B. rewrite fmap_app in K. apply NoDup_app in K as (_ & K & _).
      split; [change (blen [x]) with 1 in C; lia|]. split; [done|]. intros E. apply (K _ E). cbn. by apply list_elem_of_singleton.
    - intros (C & B & K). split; [done| |rewrite blen_app; change (blen [x]) with 1; lia|by rewrite total_size_snoc].
      rewrite fmap_app. apply NoDup_app. split; [apply Hl|]. split; [|apply NoDup_singleton]. intros k Hk E. apply list_elem_of_singleton in E as ->. done. }
  rewrite Ha. pose proof (same_fragment_key l x Hok) as Hs. unfold offer_size in *.
  case_decide as D1; [split; [lia|done]|]. rewrite (u64_small (rq_max_prefetch_bytes r - _)) by word.
  case_decide as D2; [split; [lia|done]|]. destruct (existsb _ _) eqn:E; [split; [|done]; intros (_ & _ & K); exfalso; by apply K, Hs|].
  split; [|intros _; split; [lia|]; split; [lia|]; intros K; apply Hs in K; congruence].
  intros (C & B & K). unfold plan_of. rewrite fmap_app, total_size_snoc. f_equal. cbn [fmap list_fmap]. rewrite fmap_app, zsum_app. unfold offer_size.
  assert (0 <= pi_estimated_wire_bytes (offer_item x) <= fr_size_bytes (pl_fragment x.1.2)) as Hwx by (unfold offer_item, prefetch_item; cbn; case_decide; lia).
  unfold offer_item in *. cbn [fmap list_fmap]. rewrite zsum_cons. change (zsum []) with 0. rewrite !u64_small by word. f_equal. lia.
Qed.

Lemma prefetch_all_spec k l plan : request_typed -> Forall offer_typed (l ++ k) -> admissible l -> pp_version plan = 0 /\ l = [] \/ plan = plan_of l ->
  (admissible (l ++ k) -> k <> [] -> prefetch_all k plan = Some (plan_of (l ++ k))) /\ (is_Some (prefetch_all k plan) -> admissible (l ++ k)).
Proof using.
  intros Hr. revert l plan. induction k as [|x k IH]; intros l plan Ht Hl Hp; [by rewrite app_nil_r|].
  replace (l ++ x :: k) with ((l ++ [x]) ++ k) in * by (by rewrite <- app_assoc).
  pose proof Ht as Htx. apply Forall_app in Htx as [Htx _]. destruct (add_spec l x plan Hr Htx Hl Hp) as [H1 H2]. cbn [prefetch_all].
  split.
  - intros Ha _. pose proof (admissible_app _ _ Ht Ha) as Hx. rewrite (H1 Hx). destruct k as [|y k]; [by rewrite app_nil_r|].
    apply (IH (l ++ [x])); [done|done|by right|done|done].
  - destruct (qrx_moe_prefetch_plan_add r x.1.1 x.1.2 x.2 plan) as [rc plan'] eqn:E. cbn in H2. destruct rc; [|by intros [? ?]..].
    pose proof (H2 eq_refl) as Hx. specialize (H1 Hx). injection H1 as ->. apply IH; [done|done|by right].
Qed.

Lemma admissible_perm l k : l ≡ₚ k -> admissible l -> admissible k.
Proof using.
  intros Hp [H1 H2 H3 H4]. split; [by rewrite <- Hp|by rewrite <- Hp|unfold blen in *; by rewrite <- Hp|]. unfold total_size in *. by rewrite <- Hp.
Qed.
Lemma admissible_nil : request_typed -> admissible [].
Proof using. intros [_ Hb Hc]. split; [by constructor|by apply NoDup_nil_2|done|unfold total_size; cbn; word]. Qed.
End prefetch.

(** Keys that tell more apart. *)
Lemma NoDup_finer {A B C} (f : A -> B) (g : A -> C) l : (forall x y, g x = g y -> f x = f y) -> NoDup (f <$> l) -> NoDup (g <$> l).
Proof.
  intros H. induction l as [|x l IH]; intros Hn; [by apply NoDup_nil_2|]. rewrite fmap_cons in *. apply NoDup_cons in Hn as [Hx Hn]. apply NoDup_cons.
  split; [|by apply IH]. intros (y & E & Hy)%list_elem_of_fmap. apply Hx. rewrite (H x y E). by apply list_elem_of_fmap_2.
Qed.
Lemma offer_keys l : NoDup (offer_key <$> l) -> NoDup (prefetch_key <$> (offer_item <$> l)).
Proof.
  intros H. rewrite <- list_fmap_compose. revert H. apply NoDup_finer. intros x y E. injection E as _ E. apply str_key_inj in E as [E1 E2].
  injection E2 as E2 E3. unfold offer_key. by rewrite E1, E2, E3.
Qed.

(** C35: placements that can all be added to an empty plan can be added in any
    order, and the finished plan is the same: the items by falling score,
    whatever the sort, each fragment of a node once, within the number and the
    bytes of the request. *)
Theorem prefetch_plan_canonical r l k zero p : request_typed r -> Forall offer_typed l -> pp_version zero = 0 -> l <> [] -> l ≡ₚ k ->
  prefetch_all r l zero = Some p ->
  exists q out, prefetch_all r k zero = Some q /\ qrx_moe_prefetch_plan_finalize r p = (0, out) /\ qrx_moe_prefetch_plan_finalize r q = (0, out) /\
  pp_items out ≡ₚ offer_item <$> l /\ StronglySorted (by_cmp qrx_moe_prefetch_cmp) (pp_items out) /\
  (forall s, s ≡ₚ pp_items p -> StronglySorted (by_cmp qrx_moe_prefetch_cmp) s -> s = pp_items out) /\
  NoDup (offer_key <$> l) /\ blen l <= rq_max_prefetch r /\ pp_total_prefetch_bytes out = total_size l /\ total_size l <= rq_max_prefetch_bytes r.
Proof.
  intros Hr Ht Hz Hl Hp Hall. pose proof (admissible_nil r Hr) as H0.
  destruct (prefetch_all_spec r l [] zero Hr Ht H0 (or_introl (conj Hz eq_refl))) as [H1 H2]. cbn in H1, H2.
  assert (admissible r l) as Ha by (apply H2; by rewrite Hall). specialize (H1 Ha Hl). assert (p = plan_of r l) as -> by congruence.
  assert (k <> []) as Hk by (intros ->; by apply Permutation_nil_r in Hp).
  assert (Forall offer_typed k) as Htk by by rewrite <- Hp. pose proof (admissible_perm r l k Hp Ha) as Hak.
  destruct (prefetch_all_spec r k [] zero Hr Htk H0 (or_introl (conj Hz eq_refl))) as [H3 _]. specialize (H3 Hak Hk). cbn in H3.
  assert (forall m, admissible r m -> qrx_moe_prefetch_plan_finalize r (plan_of r m) = (0, mkPrefetchPlan (pp_version (plan_of r m)) (pp_pod_id (plan_of r m))
      (pp_next_layer_id (plan_of r m)) (qsort qrx_moe_prefetch_cmp (offer_item <$> m)) (total_size m) (pp_estimated_wire_bytes (plan_of r m)))) as Hf.
  { intros m [M1 M2 M3 M4]. unfold qrx_moe_prefetch_plan_finalize. rewrite (rt_valid r Hr). destruct (request_max r Hr) as [_ Hpod].
    rewrite decide_False; [done|]. cbn [plan_of pp_version pp_pod_id pp_next_layer_id pp_items pp_total_prefetch_bytes]. rewrite Hpod, blen_fmap.
    intros [E|[E|[E|[E|E]]]]; try done; lia. }
  pose proof (offer_keys l (ad_keys r l Ha)) as Hkeys.
  exists (plan_of r k). rewrite (Hf l Ha), (Hf k Hak). eexists. split; [done|]. split; [done|].
  assert (total_size k = total_size l) as Hts by (unfold total_size; by rewrite <- Hp).
  split.
  { f_equal. cbn [plan_of pp_version pp_pod_id pp_next_layer_id pp_estimated_wire_bytes]. rewrite Hts. f_equal; [|by rewrite Hp].
    symmetry. apply (qsort_same _ prefetch_key by_prefetch_key); [done|]. by rewrite Hp. }
  cbn [pp_items pp_total_prefetch_bytes plan_of]. split; [apply qsort_perm|]. split; [apply (qsort_sorted _ prefetch_key by_prefetch_key)|].
  split; [intros s Hs1 Hs2; by apply (qsort_unique _ prefetch_key by_prefetch_key)|]. split; [apply Ha|]. split; [apply Ha|]. split; [done|]. apply Ha.
Qed.

(** ** Micro-batches *)

Definition item_wire (i : QrxMoeBatchItem) : Z := qrx_moe_activation_wire_bytes (bi_activation_elements i) (bi_activation_encoding i).
Record item_typed (i : QrxMoeBatchItem) : Prop := {
  it_tokens : in_u32 (bi_token_count i);
  it_elements : in_u64 (bi_activation_elements i)
}.

Lemma zsum_snoc {A} (f : A -> Z) l x : zsum (f <$> (l ++ [x])) = zsum (f <$> l) + f x.
Proof. rewrite fmap_app, zsum_app. cbn. lia. Qed.
Lemma wire_nonneg i : item_typed i -> 0 <= item_wire i.
Proof.
  intros [_ H]. unfold item_wire, qrx_moe_activation_wire_bytes. cbv zeta. case_decide; [lia|]. case_decide; [word|].
  match goal with |- context [u64 ?z / 8] => pose proof (u64_range z) end. word.
Qed.

Section microbatch.
Variables (pod : bytes) (max_items max_tokens max_wire : Z).
Hypotheses (Htokens : in_u32 max_tokens) (Hwire : in_u64 max_wire).

(** Every item of the list is offered, whatever became of those before it. *)
Definition microbatch_run (b : QrxMoeMicroBatch) (l : list QrxMoeBatchItem) : QrxMoeMicroBatch :=
  foldl (fun b i => snd (qrx_moe_microbatch_add b pod i max_items max_tokens max_wire)) b l.

(** What a batch that was started holds, out of what it was offered. *)
Record batch_ok (offered : list QrxMoeBatchItem) (b : QrxMoeMicroBatch) : Prop := {
  bo_version : mb_version b = QRX_MOE_BATCH_VERSION;
  bo_pod : cstr (mb_pod_id b) = cstr pod /\ nonempty (mb_pod_id b) QRX_MOE_MAX_POD_ID = true;
  bo_offered : mb_items b `sublist_of` offered;
  bo_valid : Forall (fun i => qrx_moe_batch_item_validate i = 0 /\ qrx_moe_batch_compatible b i = true) (mb_items b);
  bo_requests : NoDup ((fun i => cstr (bi_request_id i)) <$> mb_items b);
  bo_count : blen (mb_items b) <= max_items <= QRX_MOE_MAX_BATCH_ITEMS;
  bo_tokens : mb_total_tokens b = zsum (bi_token_count <$> mb_items b) /\ mb_total_tokens b <= max_tokens;
  bo_wire : mb_estimated_wire_bytes b = zsum (item_wire <$> mb_items b) /\ mb_estimated_wire_bytes b <= max_wire;
  bo_deadline : Forall (fun i => mb_earliest_deadline_us b <= bi_deadline_us i) (mb_items b)
}.

Lemma microbatch_add_ok offered b i : Forall item_typed (offered ++ [i]) -> 0 <= max_items -> mb_version b = 0 \/ batch_ok offered b ->
  let b' := snd (qrx_moe_microbatch_add b pod i max_items max_tokens max_wire) in mb_version b' = 0 \/ batch_ok (offered ++ [i]) b'.
Proof using Htokens Hwire.
  intros Ht Hmi Hb b'. subst b'. assert (forall c, batch_ok offered c -> batch_ok (offered ++ [i]) c) as Hmore.
  { intros c [A1 A2 A3 A4 A5 A6 A7 A8 A9]. split; try done. rewrite A3. by apply sublist_inserts_r. }
  pose proof Ht as [Hto Hti]%Forall_app. rewrite Forall_singleton in Hti. pose proof (wire_nonneg i Hti) as Hw. fold (item_wire i). unfold qrx_moe_microbatch_add. fold (item_wire i).
  assert (mb_version b = 0 \/ batch_ok (offered ++ [i]) b) as Hsame by (destruct Hb; [by left|right; by apply Hmore]).
  case_decide as D1; [done|]. cbv zeta. case_decide as D2; [done|].
  match goal with |- context [cstr (mb_pod_id ?x) <> cstr pod] => set (c := x) end.
  assert (batch_ok offered c) as Hc.
  { unfold c. destruct (decide (mb_version b = 0)) as [E|E]; [|by destruct Hb].
    split; cbn [mb_version mb_pod_id mb_items mb_total_tokens mb_estimated_wire_bytes mb_earliest_deadline_us fmap list_fmap]; try done.
    - destruct (nonempty pod QRX_MOE_MAX_POD_ID) eqn:E'; [|tauto]. by apply nonempty_arr in E' as [? ?].
    - apply sublist_nil_l.
    - by apply NoDup_nil_2.
    - unfold blen. cbn. lia.
    - split; [done|]. change (zsum []) with 0. word.
    - split; [done|]. change (zsum []) with 0. word. }
  clearbody c. pose proof (or_intror (Hmore c Hc) : mb_version c = 0 \/ _) as Hkeep. clear Hb Hsame Hmore. clear b.
  pose proof Hc as [A1 A2 A3 A4 A5 A6 [A7 A7'] [A8 A8'] A9].
  assert (Forall item_typed (mb_items c)) as Hit by (rewrite Forall_forall in Hto; apply Forall_forall; intros j Hj; apply Hto; by eapply elem_of_sublist).
  assert (0 <= zsum (bi_token_count <$> mb_items c)) as Ht0 by (apply zsum_nonneg, Forall_fmap; eapply Forall_impl; [done|]; intros j [Hj _]; cbn; word).
  assert (0 <= zsum (item_wire <$> mb_items c)) as Hw0 by (apply zsum_nonneg, Forall_fmap; eapply Forall_impl; [done|]; apply wire_nonneg).
  rewrite <- A7 in Ht0. rewrite <- A8 in Hw0. pose proof (it_tokens i Hti) as Hit0.
  case_decide as D3; [done|]. case_decide as D4; [done|]. case_decide as D5; [done|]. apply Decidable.not_or in D5 as [D5 D5'].
  rewrite u32_small in D5' by word. case_decide as D6; [done|]. apply Decidable.not_or in D6 as [D6 D6']. rewrite u64_small in D6' by word. destruct (existsb _ _) eqn:D7; [done|]. right. cbn [snd].
  assert (qrx_moe_batch_compatible c i = true) as Hci by (destruct (qrx_moe_batch_compatible c i); [done|tauto]).
  split; cbn [mb_version mb_pod_id mb_items mb_total_tokens mb_estimated_wire_bytes mb_earliest_deadline_us]; try done.
  - by apply sublist_app.
  - apply Forall_app. split; [exact A4|]. apply Forall_singleton. split; [lia|done].
  - rewrite fmap_app. apply NoDup_app. split; [done|]. split; [|apply NoDup_singleton]. intros x (j & -> & Hj)%list_elem_of_fmap E%list_elem_of_singleton.
    apply not_true_iff_false in D7. apply D7, existsb_exists. exists j. split; [by apply list_elem_of_In|by apply bool_decide_true].
  - rewrite blen_app. change (blen [i]) with 1. lia.
  - rewrite zsum_snoc, <- A7, u32_small by word. split; [done|lia].
  - rewrite zsum_snoc, <- A8, u64_small by word. split; [done|lia].
  - apply Forall_app. split; [eapply Forall_impl; [exact A9|]; intros j Hj; cbn in *; case_decide; lia|]. apply Forall_singleton. case_decide; lia.
Qed.

(** What there is room for is taken. *)
Definition request_fits (b : QrxMoeMicroBatch) (i : QrxMoeBatchItem) : Prop :=
  nonempty pod QRX_MOE_MAX_POD_ID = true /\ qrx_moe_batch_item_validate i = 0 /\ item_wire i <> 0 /\ 0 < max_items <= QRX_MOE_MAX_BATCH_ITEMS /\
  blen (mb_items b) < max_items /\ mb_total_tokens b + bi_token_count i <= max_tokens /\ mb_estimated_wire_bytes b + item_wire i <= max_wire /\
  ~ cstr (bi_request_id i) ∈ (fun k => cstr (bi_request_id k)) <$> mb_items b.

Lemma microbatch_takes offered b i : Forall item_typed offered -> item_typed i -> batch_ok offered b -> qrx_moe_batch_compatible b i = true -> request_fits b i ->
  exists b', qrx_moe_microbatch_add b pod i max_items max_tokens max_wire = (0, b') /\ mb_items b' = mb_items b ++ [i].
Proof using Htokens Hwire.
  intros Hto Hti [A1 [A2 A2'] A3 A4 A5 A6 [A7 A7'] [A8 A8'] A9] Hc (F1 & F2 & F3 & F4 & F5 & F6 & F7 & F8).
  assert (Forall item_typed (mb_items b)) as Hit by (rewrite Forall_forall in Hto; apply Forall_forall; intros j Hj; apply Hto; by eapply elem_of_sublist).
  assert (0 <= zsum (bi_token_count <$> mb_items b)) as Ht0 by (apply zsum_nonneg, Forall_fmap; eapply Forall_impl; [done|]; intros j [Hj _]; cbn; word).
  assert (0 <= zsum (item_wire <$> mb_items b)) as Hw0 by (apply zsum_nonneg, Forall_fmap; eapply Forall_impl; [done|]; apply wire_nonneg).
  rewrite <- A7 in Ht0. rewrite <- A8 in Hw0. pose proof (it_tokens i Hti) as Hit0. pose proof (wire_nonneg i Hti) as Hwi.
  assert (bi_token_count i <> 0) as Htok.
  { unfold qrx_moe_batch_item_validate in F2. case_decide; [done|]. destruct (negb _ || _ || _ || _); [done|]. case_decide; [done|]. lia. }
  unfold qrx_moe_microbatch_add. fold (item_wire i). rewrite F1. rewrite decide_False by (intros [E|[E|[E|[E|[E|E]]]]]; try done; word). cbv zeta.
  rewrite (decide_False (P := item_wire i = 0)) by done. rewrite A1. rewrite (decide_False (P := QRX_MOE_BATCH_VERSION = 0)) by done.
  rewrite (decide_False (P := mb_version b <> _ \/ _)) by (rewrite A1, A2, Hc; intros [E|[E|E]]; done).
  rewrite (decide_False (P := blen _ >= _ \/ _)) by lia. rewrite (u32_small (max_tokens - _)), (u64_small (max_wire - _)) by word.
  rewrite (decide_False (P := bi_token_count i > _ \/ _)) by lia. rewrite (decide_False (P := mb_estimated_wire_bytes b > _ \/ _)) by lia.
  destruct (existsb _ _) eqn:E; [|by eexists]. apply existsb_exists in E as (k & Hk & E%bool_decide_eq_true). destruct F8. rewrite <- E.
  apply (list_elem_of_fmap_2 (fun k => cstr (bi_request_id k))). by apply list_elem_of_In.
Qed.

(** C36: whatever is offered to a micro-batch, it holds distinct valid requests
    for one fragment of one expert in one encoding, in the order in which they
    were offered; its totals are the sums and within the limits, and its deadline
    is none later than theirs.  A compatible request for which there is room is
    taken.  Finishing sorts them and changes nothing else. *)
Theorem microbatch_within_limits zero l : Forall item_typed l -> 0 <= max_items -> mb_version zero = 0 ->
  let b := microbatch_run zero l in
  mb_version b = 0 \/ batch_ok l b /\
  (forall i, item_typed i -> qrx_moe_batch_compatible b i = true -> request_fits b i ->
     exists b', qrx_moe_microbatch_add b pod i max_items max_tokens max_wire = (0, b') /\ mb_items b' = mb_items b ++ [i]) /\
  (mb_items b <> [] -> exists b', qrx_moe_microbatch_finalize b = (0, b') /\ mb_items b' ≡ₚ mb_items b /\
     StronglySorted (by_cmp qrx_moe_batch_item_cmp) (mb_items b') /\
     (forall s, s ≡ₚ mb_items b -> StronglySorted (by_cmp qrx_moe_batch_item_cmp) s -> s = mb_items b') /\
     mb_total_tokens b' = mb_total_tokens b /\ mb_estimated_wire_bytes b' = mb_estimated_wire_bytes b).
Proof using Htokens Hwire.
  intros Ht Hmi Hz. cbv zeta.
  assert (mb_version (microbatch_run zero l) = 0 \/ batch_ok l (microbatch_run zero l)) as [H|H].
  { induction l as [|i l IH] using rev_ind; [by left|]. unfold microbatch_run. rewrite foldl_snoc. apply microbatch_add_ok; [done|done|].
    apply IH. by apply Forall_app in Ht as [Ht _]. }
  { by left. }
  right. split; [done|]. split; [intros i Hi Hc Hf; by apply (microbatch_takes l)|]. intros Hne. destruct H as [A1 [_ A2] A3 A4 A5 A6 A7 A8 A9]. unfold qrx_moe_microbatch_finalize.
  rewrite decide_False by (rewrite A2; intros [E|[E|E]]; done). eexists. split; [done|]. cbn [mb_items mb_total_tokens mb_estimated_wire_bytes].
  split; [apply qsort_perm|]. split; [apply (qsort_sorted _ batch_key by_batch_key)|]. split; [|done].
  intros s Hs1 Hs2. apply (qsort_unique _ batch_key by_batch_key); [|done|done]. revert A5. apply NoDup_finer.
  intros x y E. injection E as _ E. by apply str_key_inj in E as [E _].
Qed.
End microbatch.

(** Two findings.  Requests of two models go into one batch: the model is not
    compared.  And an item that is refused for its tokens leaves the empty batch
    set up for its expert, so that a request for another is refused too. *)
Definition mf_item (request model : bytes) (expert tokens : Z) : QrxMoeBatchItem :=
  mkBatchItem QRX_MOE_BATCH_VERSION (arr 129 request) (arr 129 (cs "s")) (arr QRX_MOE_MAX_MODEL_ID model) (arr QRX_MODEL_MAX_VERSION (cs "1")) 3 expert 0 QRX_ACT_INT8 tokens 64 1000.
Definition mf_zero : QrxMoeMicroBatch := mkMicroBatch 0 [] 0 0 0 0 [] 0 0 0 0.
Definition mf_pod : bytes := arr QRX_MOE_MAX_POD_ID (cs "pod").

Lemma mixed_models_batched :
  (fun i => (cstr (bi_model_id i), bi_expert_id i)) <$> mb_items (microbatch_run mf_pod 8 100 1000 mf_zero [mf_item (cs "r1") (cs "alpha") 7 1; mf_item (cs "r2") (cs "beta") 7 1])
  = [(cs "alpha", 7); (cs "beta", 7)].
Proof. vm_compute. reflexivity. Qed.
Lemma refused_item_pins_batch : exists b,
  qrx_moe_microbatch_add mf_zero mf_pod (mf_item (cs "r1") (cs "alpha") 7 200) 8 100 1000 = (-4, b) /\ mb_items b = [] /\
  fst (qrx_moe_microbatch_add mf_zero mf_pod (mf_item (cs "r2") (cs "alpha") 8 1) 8 100 1000) = 0 /\
  fst (qrx_moe_microbatch_add b mf_pod (mf_item (cs "r2") (cs "alpha") 8 1) 8 100 1000) = -2.
Proof. eexists. split; [vm_compute; reflexivity|]. vm_compute. done. Qed.

(** ** Streams *)

(** The bytes of an activation are those its bits fill, except for one number of
    4-bit elements, where the rounding wraps. *)
Lemma wire_bytes_exact n e : 0 <= n -> activation_bits e <> 0 -> n <= UINT64_MAX / activation_bits e -> n * activation_bits e <= UINT64_MAX - 7 ->
  qrx_moe_activation_wire_bytes n e = (n * activation_bits e + 7) / 8.
Proof.
  intros Hn Hb Hm Hr. unfold qrx_moe_activation_wire_bytes. cbv zeta. rewrite decide_False by done. rewrite decide_False by lia.
  assert (0 < activation_bits e) as Hp by (revert Hb; unfold activation_bits; repeat case_decide; lia).
  rewrite (u64_small (n * _)) by word. by rewrite u64_small by word.
Qed.
Lemma wire_bytes_wrap : qrx_moe_activation_wire_bytes (2 ^ 62 - 1) QRX_ACT_INT4 = 0.
Proof. reflexivity. Qed.

Inductive stream_call := CallBegin (n now : Z) | CallComplete (n now : Z) | CallState (st now : Z).
Definition stream_typed (c : stream_call) : Prop :=
  match c with CallBegin n now | CallComplete n now => in_u64 n /\ in_u64 now | CallState _ now => in_u64 now end.

(** A stream with what was sent and received by the calls that were taken. *)
Definition stream_step (x : QrxMoePersistentStream * list Z * list Z) (c : stream_call) : QrxMoePersistentStream * list Z * list Z :=
  let '(s, sent, received) := x in
  match c with
  | CallBegin n now => match qrx_moe_stream_begin_batch s n now with (0, s') => (s', n :: sent, received) | (_, s') => (s', sent, received) end
  | CallComplete n now => match qrx_moe_stream_complete_batch s n now with (0, s') => (s', sent, n :: received) | (_, s') => (s', sent, received) end
  | CallState st now => (snd (qrx_moe_stream_set_state s st now), sent, received)
  end.

Record stream_ok (s0 : QrxMoePersistentStream) (x : QrxMoePersistentStream * list Z * list Z) : Prop := {
  so_version : ps_version x.1.1 = QRX_MOE_BATCH_VERSION;
  so_sent : ps_bytes_sent x.1.1 = zsum x.1.2 /\ in_u64 (ps_bytes_sent x.1.1);
  so_received : ps_bytes_received x.1.1 = zsum x.2 /\ in_u64 (ps_bytes_received x.1.1);
  so_inflight : ps_inflight_batches x.1.1 = blen x.1.2 - blen x.2 /\ 0 <= ps_inflight_batches x.1.1 <= ps_max_inflight_batches s0;
  so_state : QRX_MOE_STREAM_OPEN <= ps_state x.1.1 <= QRX_MOE_STREAM_FAILED /\
    (ps_state x.1.1 = QRX_MOE_STREAM_CLOSED \/ ps_state x.1.1 = QRX_MOE_STREAM_FAILED -> ps_inflight_batches x.1.1 = 0);
  so_time : ps_last_activity_us s0 <= ps_last_activity_us x.1.1;
  so_fixed : (ps_max_inflight_batches x.1.1, ps_stream_id x.1.1, ps_pod_id x.1.1, ps_local_node_id x.1.1, ps_remote_node_id x.1.1, ps_activation_encoding x.1.1) =
    (ps_max_inflight_batches s0, ps_stream_id s0, ps_pod_id s0, ps_local_node_id s0, ps_remote_node_id s0, ps_activation_encoding s0)
}.

Lemma stream_step_ok s0 x c : in_u32 (ps_max_inflight_batches s0) -> stream_typed c -> stream_ok s0 x -> stream_ok s0 (stream_step x c).
Proof.
  intros Hmax Hc Hok. destruct x as [[s sent] received]. pose proof Hok as [A1 [A2 A2'] [A3 A3'] [A4 A4'] [A5 A5'] A6 A7]. cbn [fst snd] in *.
  injection A7 as B1 B2 B3 B4 B5 B6. unfold stream_step. destruct c as [n now|n now|st now]; cbn in Hc.
  - unfold qrx_moe_stream_begin_batch. case_decide as D1; [done|]. case_decide as D2; [done|].
    split; cbn -[zsum blen]; rewrite ?blen_cons, ?zsum_cons, ?(u64_small (ps_bytes_sent s + n)), ?(u32_small (ps_inflight_batches s + 1)) by word; try done; try word; try congruence.
    split; [done|]. intros [E|E]; exfalso; apply D1; right; left; rewrite E; done.
  - unfold qrx_moe_stream_complete_batch. case_decide as D1; [done|].
    split; cbn -[zsum blen]; rewrite ?blen_cons, ?zsum_cons, ?(u64_small (ps_bytes_received s + n)), ?(u32_small (ps_inflight_batches s - 1)) by word; try done; try word; try congruence.
  - unfold qrx_moe_stream_set_state. case_decide as D1; [done|]. case_decide as D2; [done|]. split; cbn; try done; try lia; try congruence.
Qed.

(** However a stream is used after it was opened, its counters are what
    was sent and received, a batch is in flight from its beginning to its
    completion and no more of them than was agreed, none is in flight when the
    stream is closed or failed, and time does not go back. *)
Theorem stream_accounts sid pod local remote enc feat maxinf now s0 calls :
  qrx_moe_stream_open sid pod local remote enc feat maxinf now = Some s0 -> in_u32 maxinf -> Forall stream_typed calls ->
  cstr (ps_local_node_id s0) <> cstr (ps_remote_node_id s0) /\ stream_ok s0 (foldl stream_step (s0, [], []) calls).
Proof.
  unfold qrx_moe_stream_open. destruct (negb _ || _ || _ || _) eqn:E; [done|]. case_decide as D; [done|]. intros [= <-] Hm Hc. rewrite !orb_false_iff, !negb_false_iff in E.
  destruct E as [[[E1 E2] E3] E4]. apply nonempty_arr in E3 as [_ E3], E4 as [_ E4]. split; [cbn [ps_local_node_id ps_remote_node_id]; rewrite E3, E4; tauto|].
  match goal with |- stream_ok ?s _ => set (s0 := s) end. assert (in_u32 (ps_max_inflight_batches s0)) as Hm0 by done.
  assert (stream_ok s0 (s0, [], [])) as H0.
  { split; cbn -[zsum blen]; change (zsum []) with 0; try done; try lia; try (split; [done|word]). }
  clearbody s0. induction calls as [|c calls IH] using rev_ind; [done|]. apply Forall_app in Hc as [Hc Hx]. rewrite Forall_singleton in Hx.
  rewrite foldl_snoc. apply stream_step_ok; [done|done|by apply IH].
Qed.

(** A stream that was closed can be opened again and used. *)
Lemma closed_stream_reopens : exists s0 s,
  qrx_moe_stream_open (arr 129 (cs "s")) mf_pod (arr 129 (cs "a")) (arr 129 (cs "b")) QRX_ACT_FP16 0 4 10 = Some s0 /\
  foldl stream_step (s0, [], []) [CallState QRX_MOE_STREAM_CLOSED 11; CallState QRX_MOE_STREAM_OPEN 12; CallBegin 64 13] = (s, [64], []) /\ ps_inflight_batches s = 1.
Proof. eexists _, _. split; [vm_compute; reflexivity|]. split; [vm_compute; reflexivity|]. done. Qed.

(** ** Sums *)

Section aggregation.
Variables (pod agg : bytes) (layer expert : Z).

(** Adding all the partial results: node, bytes, sequence number. *)
Fixpoint aggregate_all (l : list (bytes * Z * Z)) (p : QrxMoeAggregationPlan) : option QrxMoeAggregationPlan :=
  match l with
  | [] => Some p
  | (node, n, seq) :: l => match qrx_moe_aggregation_add p pod agg layer expert node n seq with (0, p) => aggregate_all l p | _ => None end
  end.
Definition aggregate_of (l : list (bytes * Z * Z)) : QrxMoeAggregationPlan :=
  mkAggregation QRX_MOE_BATCH_VERSION (arr QRX_MOE_MAX_POD_ID (cstr pod)) (arr 129 (cstr agg)) layer expert
    ((fun x => mkAggregateInput (arr 129 (cstr x.1.1)) x.1.2 x.2) <$> l) (zsum ((fun x => x.1.2) <$> l)) 0.

Lemma aggregate_step l x p q : (ag_version p = 0 /\ l = [] \/ p = aggregate_of l) -> 0 <= zsum ((fun x => x.1.2) <$> l) -> 0 <= x.1.2 -> NoDup l.*2 ->
  qrx_moe_aggregation_add p pod agg layer expert x.1.1 x.1.2 x.2 = (0, q) ->
  q = aggregate_of (l ++ [x]) /\ NoDup (l ++ [x]).*2 /\ zsum ((fun x => x.1.2) <$> (l ++ [x])) <= UINT64_MAX.
Proof using.
  intros Hp Hl Hx Hn. unfold qrx_moe_aggregation_add. case_decide as D1; [done|]. cbv zeta.
  assert ((if decide (ag_version p = 0) then mkAggregation QRX_MOE_BATCH_VERSION (arr QRX_MOE_MAX_POD_ID (cstr pod)) (arr 129 (cstr agg)) layer expert [] 0 0 else p) = aggregate_of l) as ->.
  { destruct Hp as [[E ->]| ->]; [by rewrite decide_True|]. by rewrite decide_False. }
  case_decide as D2; [done|]. destruct (existsb _ _) eqn:D3; [done|]. cbn [aggregate_of ag_version ag_pod_id ag_aggregator_node_id ag_layer_id ag_expert_id ag_inputs ag_local_input_bytes ag_uplink_result_bytes] in *.
  case_decide as D4; [done|]. intros [= <-]. rewrite zsum_snoc, u64_small by word. split; [unfold aggregate_of; by rewrite zsum_snoc, fmap_app|]. split; [|lia].
  rewrite fmap_app. apply NoDup_app. split; [done|]. split; [|apply NoDup_singleton]. intros s (y & -> & Hy)%list_elem_of_fmap E%list_elem_of_singleton.
  apply not_true_iff_false in D3. apply D3, existsb_exists. eexists. split; [apply list_elem_of_In, (list_elem_of_fmap_2 _ _ y Hy)|].
  cbn. rewrite E, (bool_decide_true (x.2 = x.2)) by done. apply orb_true_r.
Qed.
Lemma aggregate_all_spec k l p q : (ag_version p = 0 /\ l = [] \/ p = aggregate_of l) -> Forall (fun x => 0 <= x.1.2) (l ++ k) -> NoDup l.*2 -> k <> [] ->
  aggregate_all k p = Some q -> q = aggregate_of (l ++ k) /\ NoDup (l ++ k).*2 /\ zsum ((fun x => x.1.2) <$> (l ++ k)) <= UINT64_MAX.
Proof using.
  revert l p. induction k as [|[[node n] seq] k IH]; intros l p Hp Hf Hn Hk; [done|]. cbn [aggregate_all].
  destruct (qrx_moe_aggregation_add p pod agg layer expert node n seq) as [[] p'] eqn:E; try done. intros Hall.
  replace (l ++ (node, n, seq) :: k) with ((l ++ [(node, n, seq)]) ++ k) in * by (by rewrite <- app_assoc).
  pose proof Hf as [[H1 H2]%Forall_app _]%Forall_app. rewrite Forall_singleton in H2.
  destruct (aggregate_step l (node, n, seq) p p' Hp) as (-> & Hn' & Hs); [by apply zsum_nonneg, Forall_fmap|done|done|done|].
  destruct k as [|y k]; [cbn in Hall; injection Hall as <-; by rewrite app_nil_r|]. by apply (IH _ _ (or_intror eq_refl)).
Qed.

(** The finished sum does not depend on the order in which the partial
    results came, nor on the sort; it counts all of them, and what it saves is
    what they have more than the result. *)
Theorem aggregation_canonical zero l k p q uplink : ag_version zero = 0 -> Forall (fun x => 0 <= x.1.2) l -> l <> [] -> l ≡ₚ k -> 0 < uplink ->
  aggregate_all l zero = Some p -> aggregate_all k zero = Some q ->
  exists out, qrx_moe_aggregation_finalize p uplink = (0, out) /\ qrx_moe_aggregation_finalize q uplink = (0, out) /\
  ag_inputs out ≡ₚ ag_inputs p /\ length (ag_inputs p) = length l /\
  (forall s, s ≡ₚ ag_inputs p -> StronglySorted (by_cmp qrx_moe_agg_cmp) s -> s = ag_inputs out) /\
  ag_local_input_bytes out = zsum ((fun x => x.1.2) <$> l) /\
  qrx_moe_aggregation_wire_savings out = Z.max 0 (zsum ((fun x => x.1.2) <$> l) - uplink).
Proof using.
  intros Hz Hf Hl Hp Hu Hpl Hqk. assert (k <> []) as Hk by (intros ->; by apply Permutation_nil_r in Hp).
  assert (Forall (fun x => 0 <= x.1.2) k) as Hfk by by rewrite <- Hp.
  destruct (aggregate_all_spec l [] zero p (or_introl (conj Hz eq_refl)) Hf (NoDup_nil_2) Hl Hpl) as (-> & Hn & Hs). cbn [app] in *.
  destruct (aggregate_all_spec k [] zero q (or_introl (conj Hz eq_refl)) Hfk (NoDup_nil_2) Hk Hqk) as (-> & _ & _). cbn [app] in *.
  set (input := fun x : bytes * Z * Z => mkAggregateInput (arr 129 (cstr x.1.1)) x.1.2 x.2).
  assert (NoDup (agg_key <$> (input <$> l))) as Hkeys.
  { rewrite <- list_fmap_compose. revert Hn. apply NoDup_finer. intros x y E. by injection E. }
  unfold qrx_moe_aggregation_finalize. cbn [aggregate_of ag_version ag_inputs ag_pod_id ag_aggregator_node_id ag_layer_id ag_expert_id ag_local_input_bytes]. fold input.
  rewrite !decide_False by (intros [E|[E|E]]; [done|by apply fmap_nil_inv in E|lia]). eexists. split; [done|]. split.
  { f_equal. rewrite <- Hp at 2. f_equal. symmetry. apply (qsort_same _ agg_key by_agg_key); [done|]. by rewrite Hp. }
  cbn [ag_inputs ag_local_input_bytes]. split; [apply qsort_perm|]. split; [by rewrite length_fmap|].
  split; [intros s H1 H2; by apply (qsort_unique _ agg_key by_agg_key)|]. split; [done|].
  unfold qrx_moe_aggregation_wire_savings. cbn [ag_version ag_local_input_bytes ag_uplink_result_bytes].
  assert (0 <= zsum ((fun x : bytes * Z * Z => x.1.2) <$> l)) by by apply zsum_nonneg, Forall_fmap.
  case_decide as D; [destruct D as [D|D]; [done|lia]|]. rewrite u64_small by word. lia.
Qed.
End aggregation.
