(* ===== verification/MoeRunFacts.v ===== *)
(** * Moe: what the advice, the choice and the estimates promise

    When a batch waits and for how long, which replica is chosen, what a
    discovery lists and who may run what; with the cases in which telemetry and
    the benchmark go wrong, and the theorems of MoeFacts on concrete inputs. *)

From stdpp Require Import gmap sorting.
From S2P Require Import Prelude Format Aura AuraFacts AuraRouting Compute ComputeFacts AuraAgent AuraAgentFacts Moe MoeRun MoeFacts.

(** ** Advice *)

Record snapshot_typed (s : QrxMoeSchedulerSnapshot) : Prop := {
  st_queued : in_u32 (sn_queued_items s);
  st_capacity : in_u32 (sn_queue_capacity s);
  st_batches : in_u32 (sn_inflight_batches s);
  st_inflight : in_u32 (sn_inflight_capacity s);
  st_compatible : in_u32 (sn_compatible_items s);
  st_age : in_u64 (sn_oldest_item_age_us s);
  st_slack : in_u64 (sn_earliest_deadline_slack_us s)
}.
Record policy_typed (p : QrxMoeAdaptiveBatchPolicy) : Prop := {
  pt_wait : in_u64 (ab_max_wait_us p); pt_guard : in_u64 (ab_deadline_guard_us p); pt_items : in_u32 (ab_max_batch_items p)
}.

Lemma ratio_exact n d : in_u32 n -> in_u32 d -> qrx_ratio_bps_u32 n d = if decide (d = 0) then 10000 else Z.min 10000 (n * 10000 / d).
Proof.
  intros Hn Hd. unfold qrx_ratio_bps_u32. case_decide; [done|]. case_decide.
  - rewrite Z.min_l; [done|]. apply Z.div_le_lower_bound; word.
  - assert (0 <= n * 10000 / d < 10000) by (split; [apply Z.div_pos; word|apply Z.div_lt_upper_bound; word]).
    rewrite Z.min_r by lia. rewrite u64_small by word. rewrite u32_small by word. done.
Qed.

(** How full the fuller of the queue and the batches in flight is, in basis points. *)
Definition load (s : QrxMoeSchedulerSnapshot) : Z :=
  Z.max (Z.min 10000 (sn_queued_items s * 10000 / sn_queue_capacity s)) (Z.min 10000 (sn_inflight_batches s * 10000 / sn_inflight_capacity s)).

(** A valid policy always has an advice.  A request is rejected exactly
    when the load is critical and no other replica is there; at most the maximal
    and the compatible requests are sent together; it never waits past the
    maximal wait of the oldest one nor, with enough requests, past the guard of
    the deadline. *)
Theorem schedule_advice_spec p s : policy_typed p -> snapshot_typed s -> qrx_moe_adaptive_policy_validate p = 0 -> sn_version s = QRX_MOE_SCHED_VERSION ->
  sn_queue_capacity s <> 0 -> sn_inflight_capacity s <> 0 ->
  exists a, qrx_moe_schedule_advice p s = Some a /\
  (sa_pressure a = QRX_MOE_PRESSURE_CRITICAL <-> ab_critical_queue_bps p <= load s) /\
  (sa_decision a = QRX_MOE_DISPATCH_REJECT <-> ab_critical_queue_bps p <= load s /\ sn_alternate_replica_available s = 0) /\
  (sa_decision a = QRX_MOE_DISPATCH_REROUTE -> sn_alternate_replica_available s <> 0 /\ ab_elevated_queue_bps p <= load s) /\
  (sa_decision a = QRX_MOE_DISPATCH_NOW <-> load s < ab_critical_queue_bps p /\
     (sn_earliest_deadline_slack_us s <= ab_deadline_guard_us p \/ ab_max_wait_us p <= sn_oldest_item_age_us s \/
      ab_target_batch_items p <= sn_compatible_items s \/ ab_high_queue_bps p <= load s)) /\
  sa_selected_batch_items a = Z.min (ab_max_batch_items p) (sn_compatible_items s) /\
  (sa_decision a = QRX_MOE_DISPATCH_WAIT -> 0 < sa_suggested_wait_us a /\ sn_oldest_item_age_us s + sa_suggested_wait_us a <= ab_max_wait_us p /\
     (ab_min_batch_items p <= sn_compatible_items s -> sa_suggested_wait_us a + ab_deadline_guard_us p <= sn_earliest_deadline_slack_us s)).
Proof.
  intros [P1 P2 P3] [S1 S2 S3 S4 S5 S6 S7] Hv Hver Hq Hi. pose proof Hv as Hp. unfold qrx_moe_adaptive_policy_validate in Hp.
  case_decide; [done|]. case_decide as B1; [done|]. case_decide as B2; [done|]. case_decide as B3; [done|]. clear Hp.
  unfold qrx_moe_schedule_advice. rewrite decide_False by (intros [E|[E|[E|E]]]; congruence).
  rewrite (ratio_exact (sn_queued_items s)), (ratio_exact (sn_inflight_batches s)), (decide_False (P := sn_queue_capacity s = 0)), (decide_False (P := sn_inflight_capacity s = 0)) by done. cbv zeta.
  match goal with |- context [if decide (?x > ?y) then ?x else ?y] => replace (if decide (x > y) then x else y) with (load s) by (unfold load; case_decide; lia) end.
  generalize (load s). intros ld.
  match goal with |- context [mkAdvice _ ?x _ _ _ _] => set (pressure := x) end.
  assert ((pressure = QRX_MOE_PRESSURE_CRITICAL <-> ab_critical_queue_bps p <= ld) /\ (pressure >= QRX_MOE_PRESSURE_HIGH <-> ab_high_queue_bps p <= ld) /\
    (pressure >= QRX_MOE_PRESSURE_ELEVATED <-> ab_elevated_queue_bps p <= ld)) as (Hcrit & Hhigh & Helev).
  { subst pressure. unfold QRX_MOE_PRESSURE_CRITICAL, QRX_MOE_PRESSURE_HIGH, QRX_MOE_PRESSURE_ELEVATED, QRX_MOE_PRESSURE_NORMAL. repeat (let H := fresh in case_decide as H); lia. }
  clearbody pressure.
  replace (if decide (sn_compatible_items s > ab_max_batch_items p) then ab_max_batch_items p else sn_compatible_items s)
    with (Z.min (ab_max_batch_items p) (sn_compatible_items s)) by (case_decide; lia).
  generalize (Z.min 10000 (sn_queued_items s * 10000 / sn_queue_capacity s)) (Z.min 10000 (sn_inflight_batches s * 10000 / sn_inflight_capacity s)). intros qb ib.
  assert (QRX_MOE_DISPATCH_WAIT = 1 /\ QRX_MOE_DISPATCH_NOW = 2 /\ QRX_MOE_DISPATCH_REROUTE = 3 /\ QRX_MOE_DISPATCH_REJECT = 4) as (Ew & En & Er & Ej) by done.
  case_decide as D1.
  { apply Hcrit in D1 as D1'. eexists. split; [done|]. cbn [sa_decision sa_pressure sa_selected_batch_items sa_suggested_wait_us].
    case_decide; repeat match goal with |- _ /\ _ => split end; lia. }
  assert (ld < ab_critical_queue_bps p) by (destruct (decide (ab_critical_queue_bps p <= ld)) as [E|E]; [by apply Hcrit in E|lia]).
  case_decide as D2.
  { eexists. split; [done|]. cbn [sa_decision sa_pressure sa_selected_batch_items sa_suggested_wait_us]. repeat match goal with |- _ /\ _ => split end; lia. }
  rewrite (u64_small (ab_max_wait_us p - _)) by word. case_decide as D3.
  - eexists. split; [done|]. cbn [sa_decision sa_pressure sa_selected_batch_items sa_suggested_wait_us]. rewrite (decide_True (P := _ > ab_deadline_guard_us p)) by lia.
    rewrite (u64_small (sn_earliest_deadline_slack_us s - _)) by word. case_decide; repeat match goal with |- _ /\ _ => split end; lia.
  - eexists. split; [done|]. cbn [sa_decision sa_pressure sa_selected_batch_items sa_suggested_wait_us]. case_decide; repeat match goal with |- _ /\ _ => split end; lia.
Qed.

(** With fewer requests than the minimum the deadline is not looked at: this
    batch waits 5000 microseconds although its deadline is in 300. *)
Lemma underfull_batch_misses_deadline :
  (fun a => (sa_decision a, sa_suggested_wait_us a)) <$>
    qrx_moe_schedule_advice (mkBatchPolicy 1 4 8 16 5000 200 5000 7000 9000) (mkSnapshot 1 1 1 100 0 8 0 300 0) = Some (QRX_MOE_DISPATCH_WAIT, 5000).
Proof. vm_compute. reflexivity. Qed.

(** ** The choice of a replica *)

Definition candidate_key (c : QrxMoeReplicaCandidate) : list Z := [- qrx_moe_replica_candidate_score c] ++ (byte.unsigned <$> cstr (rc_node_id c)).

Lemma candidate_better c d : qrx_moe_replica_candidate_score c > qrx_moe_replica_candidate_score d \/
  qrx_moe_replica_candidate_score c = qrx_moe_replica_candidate_score d /\ strcmp_lt (cstr (rc_node_id c)) (cstr (rc_node_id d)) = true <->
  lex_lt (candidate_key c) (candidate_key d) = true.
Proof.
  unfold candidate_key. cbn [app]. rewrite lex_cons, strcmp_lex. case_decide as H; [|rewrite bool_decide_eq_true; lia]. split; [intros [?|[_ ?]]; [lia|done]|]. right. split; [lia|done].
Qed.

(** The best so far, as the loop keeps it. *)
Definition best_at (l : list QrxMoeReplicaCandidate) (i : nat) : option (Z * bytes * Z) :=
  c ← l !! i; Some (Z.of_nat i, cstr (rc_node_id c), qrx_moe_replica_candidate_score c).
Definition is_best (l : list QrxMoeReplicaCandidate) (i : nat) : Prop :=
  exists c, l !! i = Some c /\ forall d, d ∈ l -> lex_lt (candidate_key d) (candidate_key c) = false.

Lemma choose_loop_spec l before best : (best = None /\ before = [] \/ exists i, best = best_at before i /\ is_best before i) ->
  match choose_loop l (blen before) best with
  | None => (best = None /\ l = []) \/ exists c, c ∈ l /\ qrx_moe_replica_candidate_score c = 0
  | Some r => Forall (fun c => qrx_moe_replica_candidate_score c <> 0) l /\ exists i, Some r = best_at (before ++ l) i /\ is_best (before ++ l) i
  end.
Proof.
  revert before best. induction l as [|c l IH]; intros before best Hb; cbn [choose_loop].
  { rewrite app_nil_r. destruct best as [r|]; [|by left]. split; [done|]. destruct Hb as [[? _]|Hb]; [done|]. destruct Hb as (i & E & Hi). by exists i. }
  case_decide as Hc; [right; exists c; split; [by left|done]|].
  replace (blen before + 1) with (blen (before ++ [c])) by (by rewrite blen_app).
  match goal with |- context [choose_loop l _ ?b] => specialize (IH (before ++ [c]) b) end. rewrite <- app_assoc in IH. cbn [app] in IH.
  match type of IH with ?H -> _ => assert H as Hpre end.
  2:{ specialize (IH Hpre). destruct (choose_loop _ _ _) as [r|] eqn:E; [destruct IH as [IH1 IH2]; by split; [by constructor|]|].
      destruct IH as [[E1 ->]|(d & Hd & E1)]; right; [|exists d; split; [by right|done]].
      destruct Hb as [[-> ->]|(i & -> & x & Hx & _)]; [done|]. unfold best_at in E1. rewrite Hx in E1. cbn in E1. by case_decide. }
  right. assert ((before ++ [c]) !! length before = Some c) as Hlast by by apply list_lookup_middle.
  destruct Hb as [[-> ->]|(i & -> & x & Hx & Hmin)].
  - exists 0%nat. split; [done|]. exists c. split; [done|]. intros d Hd%list_elem_of_singleton. subst d. apply lex_irrefl.
  - unfold best_at at 1. rewrite Hx. cbn [mbind option_bind]. case_decide as D.
    + exists (length before). split; [unfold best_at; by rewrite Hlast|]. exists c. split; [done|]. apply candidate_better in D.
      intros d [Hd| ->%list_elem_of_singleton]%elem_of_app; [|apply lex_irrefl]. apply (lex_le_trans _ (candidate_key x)); [by apply lex_asym|by apply Hmin].
    + exists i. assert ((before ++ [c]) !! i = Some x) as Hx' by (by apply lookup_app_l_Some). split; [unfold best_at; by rewrite Hx, Hx'|].
      exists x. split; [done|]. intros d [Hd| ->%list_elem_of_singleton]%elem_of_app; [by apply Hmin|].
      destruct (lex_lt (candidate_key c) (candidate_key x)) eqn:E; [|done]. by apply candidate_better in E.
Qed.

(** Among one to sixteen usable candidates the replica chosen is one of
    them with the best score and, of those, the first name; one unusable
    candidate makes the choice fail. *)
Theorem choose_replica_best l :
  match qrx_moe_choose_replica l with
  | inr i => exists k, i = Z.of_nat k /\ is_best l k /\ Forall (fun c => qrx_moe_replica_candidate_score c <> 0) l
  | inl rc => rc = -1 /\ (l = [] \/ blen l > QRX_MOE_MAX_REPLICA_CANDIDATES) \/ rc = -2 /\ exists c, c ∈ l /\ qrx_moe_replica_candidate_score c = 0
  end.
Proof.
  unfold qrx_moe_choose_replica. case_decide as D; [by left|]. pose proof (choose_loop_spec l [] None (or_introl (conj eq_refl eq_refl))) as H.
  change (blen []) with 0 in H. cbn [app] in H. destruct (choose_loop l 0 None) as [[[i name] b]|].
  - destruct H as [Hf (k & E & Hk)]. exists k. split; [|done]. unfold best_at in E. destruct (l !! k); [by injection E|done].
  - right. split; [done|]. destruct H as [[_ ->]|H]; [|done]. destruct D. by left.
Qed.

(** ** Optimistic verification *)

(** A provider that is less reliable is not challenged less, and a higher tier
    challenges no less and asks for no fewer workers. *)
Lemma optimistic_policy_monotone t u rel rel' p q : 0 <= rel <= rel' -> t <= u ->
  qrx_pouc_optimistic_policy t rel' = Some p -> qrx_pouc_optimistic_policy u rel = Some q ->
  QRX_POUC_OPT_MIN_CHALLENGE_BPS <= op_challenge_bps p <= op_challenge_bps q /\ op_challenge_bps q <= 10000 /\ 1 <= op_redundant_workers p <= op_redundant_workers q.
Proof.
  intros Hr Ht. unfold qrx_pouc_optimistic_policy, QRX_POUC_OPT_MIN_CHALLENGE_BPS, QRX_POUC_OPT_FAST, QRX_POUC_OPT_STANDARD, QRX_POUC_OPT_HIGH, QRX_POUC_OPT_CONSENSUS.
  cbv zeta. intros Hp Hq.
  repeat (let H := fresh in case_decide as H; try discriminate Hp; try discriminate Hq; subst); try lia; injection Hp as <-; injection Hq as <-; cbn [op_challenge_bps op_redundant_workers]; lia.
Qed.

(** ** Telemetry *)

Lemma add_all_ok l : Forall (fun x => in_u64 x.1 /\ in_u64 x.2) l -> fst (add_all l) = 0 -> snd (add_all l) = (fun x => x.1 + x.2) <$> l.
Proof.
  induction 1 as [|[a b] l [Ha Hb] _ IH]; [done|]. cbn in Ha, Hb. cbn [add_all]. unfold qrx_add_u64. case_decide; [done|].
  destruct (add_all l) as [rc r]. cbn in *. intros ->. rewrite IH by done. f_equal. apply u64_small. word.
Qed.

(** A recorded batch that overflows a counter leaves the counters in front of it
    increased: the call failed and one request more is counted. *)
Definition mr_telemetry (recv : Z) : QrxMoeThroughputTelemetry := mkTelemetry 1 mf_pod 0 1000 5 50 10 recv 0 0 0 0 1 0 0 0.
Lemma failed_record_counts : exists t,
  qrx_moe_telemetry_record_batch (mr_telemetry UINT64_MAX) 1 10 1 1 0 0 0 0 0 0 = (-2, t) /\
  (tt_requests_completed t, tt_tokens_completed t, tt_batch_count t) = (6, 60, 1).
Proof. eexists. split; vm_compute; reflexivity. Qed.
(** The share of the wide area wraps for large counters: three quarters of the
    bytes are reported as three percent. *)
Lemma wan_share_wraps :
  qrx_moe_telemetry_wan_share_bps (mkTelemetry 1 mf_pod 0 1000 1 1 (2 ^ 53) (2 ^ 53) 0 (2 ^ 53 + 2 ^ 52) 0 0 1 0 0 0) = 332 /\
  qrx_moe_telemetry_wan_share_bps (mkTelemetry 1 mf_pod 0 1000 1 1 (2 ^ 43) (2 ^ 43) 0 (2 ^ 43 + 2 ^ 42) 0 0 1 0 0 0) = 7500.
Proof. vm_compute. done. Qed.

(** ** The benchmark *)

Definition node_typed (n : QrxMoeBenchmarkNode) : Prop :=
  in_u64 (bn_standalone_milli_tokens_per_second n) /\ 0 <= bn_availability_bps n /\ in_u32 (ta_latency_us (bn_transport n)) /\ in_u32 (ta_bandwidth_mbps (bn_transport n)).

Lemma sat_add_spec a b : 0 <= a -> 0 <= b -> qrx_u64_sat_add a b = Z.min UINT64_MAX (a + b) \/ UINT64_MAX < a.
Proof. intros. unfold qrx_u64_sat_add. case_decide; [destruct (decide (a <= UINT64_MAX)); [left; lia|by right; lia]|left]. rewrite u64_small by word. lia. Qed.

(** The raw rate of a pod is the sum over its nodes of what each does when it is
    there, where the products fit in 64 bits. *)
Lemma bench_raw_sum wire l st i : 0 <= bx_raw st <= UINT64_MAX ->
  Forall (fun n => node_typed n /\ bn_standalone_milli_tokens_per_second n * bn_availability_bps n <= UINT64_MAX) l ->
  bx_raw (bench_loop wire st i l) = Z.min UINT64_MAX (bx_raw st + zsum ((fun n => bn_standalone_milli_tokens_per_second n * bn_availability_bps n / 10000) <$> l)).
Proof.
  intros Hst H. revert st i Hst. induction H as [|n l [(H1 & H2 & _) H3] Hl IH]; intros st i Hst; [cbn; lia|]. cbn [bench_loop]. rewrite fmap_cons, zsum_cons.
  assert (0 <= bn_standalone_milli_tokens_per_second n * bn_availability_bps n / 10000) by (apply Z.div_pos; [apply Z.mul_nonneg_nonneg|]; word).
  assert (bx_raw (bench_step wire st i n) = Z.min UINT64_MAX (bx_raw st + bn_standalone_milli_tokens_per_second n * bn_availability_bps n / 10000)) as E.
  { cbn [bench_step bx_raw]. rewrite u64_small by (unfold in_u64; word). destruct (sat_add_spec (bx_raw st) (bn_standalone_milli_tokens_per_second n * bn_availability_bps n / 10000)); lia. }
  rewrite IH, E by (rewrite E; lia).
  assert (0 <= zsum ((fun n => bn_standalone_milli_tokens_per_second n * bn_availability_bps n / 10000) <$> l)); [|lia].
  apply zsum_nonneg, Forall_fmap. eapply Forall_impl; [exact Hl|]. intros m [(M1 & M2 & _) _]. apply Z.div_pos; [apply Z.mul_nonneg_nonneg|]; word.
Qed.

(** The estimate is no bound: a pod of 600000 tokens a second is estimated at a
    million, one of 1100000 at nothing, since the time of a token is rounded to
    whole microseconds; and the rate of a node wraps for the product with its
    availability. *)
Definition mr_device : QrxMoeRuntimeDevice := cpu_device 1 1.
Definition mr_node (rate : Z) : QrxMoeBenchmarkNode :=
  mkBenchmarkNode 1 (arr 129 (cs "n")) mr_device (mkTransport 1 QRX_MOE_TRANSPORT_LOCAL (arr 32 (cs "local")) 0 0 0 1 0 0) rate 10000.
Definition mr_scenario (rate : Z) : QrxMoeBenchmarkScenario := mkScenario 1 (arr 129 (cs "s")) 0 1000000 1 1 0 0 0 [mr_node rate].
Lemma benchmark_not_a_bound :
  omap (fun rate => (fun r => (br_raw_milli_tokens_per_second r, br_estimated_milli_tokens_per_second r)) <$> qrx_moe_benchmark_run (mr_scenario rate))
    [600000000; 1100000000; 2 ^ 64 / 10000 + 1] =
  [(600000000, 1000000000); (1100000000, 0); (0, 0)].
Proof. vm_compute. reflexivity. Qed.

(** ** Discovery and workers *)

(** Tensor cores are listed from compute capability 7 on; those of Pascal are
    never inferred. *)
Lemma tensor_cores_from_volta maj min : has (qrx_cuda_feature_mask maj min) QRX_MOE_ACCEL_FEAT_TENSOR_CORES = bool_decide (7 <= maj).
Proof.
  unfold qrx_cuda_feature_mask. cbv zeta. case_bool_decide as H.
  - rewrite (decide_True (P := maj >= 7)), (decide_True (P := maj >= 5)), (decide_True (P := maj > 6 \/ _)) by lia. reflexivity.
  - rewrite (decide_False (P := maj >= 7)) by lia. do 2 case_decide; reflexivity.
Qed.

(** What the driver says on a device is complete. *)
Definition answer_ok (a : bytes * Z * Z * Z) : Prop := let '(name, maj, min, mem) := a in cstr name <> [] /\ u32 maj <> 0 /\ mem <> 0.
Definition found (a : bytes * Z * Z * Z) : QrxMoeDiscoveredDevice :=
  let '(name, maj, min, mem) := a in mkDiscovered QRX_MOE_DISCOVERY_VERSION QRX_MOE_DISCOVERY_CUDA_DRIVER (cuda_device name maj min mem) 1 1.

Lemma arr_nonempty n s : (1 < n)%nat -> no_nul s -> s <> [] -> nonempty (arr n s) n = true.
Proof.
  intros Hn Hz Hs. assert (arr n s = arr n (take (n - 1) s)) as ->.
  { unfold arr, overwrite, snprintf_s. by rewrite take_take, Nat.min_id. }
  apply bounded_arr.
  - destruct s as [|c s]; [done|]. by destruct n as [|[|n]]; [lia..|].
  - unfold no_nul in *. intros H. apply Hz. eapply elem_of_take in H as (i & Hi & _). by eapply list_elem_of_lookup_2.
  - rewrite length_take. lia.
Qed.
Lemma arr_empty n : nonempty (arr n []) n = false.
Proof. unfold nonempty, bounded_nonempty. apply andb_false_iff. right. apply bool_decide_false. intros H. apply H. unfold arr, overwrite, snprintf_s. by rewrite take_nil. Qed.

Lemma found_check a : discovered_check (found a) = if decide (let '(name, maj, min, mem) := a in cstr name = [] \/ u32 maj = 0 \/ mem = 0) then -2 else 0.
Proof.
  destruct a as [[[name maj] min] mem]. unfold discovered_check, found. cbn [dd_version dd_source dd_device dd_runtime_present dd_execution_adapter_ready].
  assert (qrx_moe_runtime_device_validate (cuda_device name maj min mem) <> 0 <-> cstr name = [] \/ u32 maj = 0 \/ mem = 0) as E.
  { unfold qrx_moe_runtime_device_validate, cuda_device. cbn [dv_version dv_backend dv_device_name dv_max_batch_items dv_accelerator_features dv_cuda_cc_major dv_device_memory_bytes].
    assert (Z.land (qrx_cuda_feature_mask (u32 maj) (u32 min)) QRX_MOE_ACCEL_FEAT_CUDA <> 0) as Hc by (unfold qrx_cuda_feature_mask; cbv zeta; repeat (let H := fresh in case_decide as H); intros Hz; by vm_compute in Hz).
    change (bounded_nonempty ?x ?y) with (nonempty x y).
    destruct (decide (cstr name = [])) as [E|E].
    - rewrite E. rewrite arr_empty. rewrite decide_True by (right; right; right; by left). split; [by left|done].
    - assert (1 < QRX_MOE_MAX_DEVICE_NAME)%nat as Hn by (unfold QRX_MOE_MAX_DEVICE_NAME; lia). rewrite (arr_nonempty _ _ Hn (cstr_is_no_nul name) E).
      rewrite decide_False by (intros [H|[H|[H|[H|H]]]]; done). case_decide as D; [split; [tauto|done]|]. rewrite decide_False by (intros [H _]; done). split; [done|tauto]. }
  destruct (decide (cstr name = [] \/ u32 maj = 0 \/ mem = 0)) as [D|D].
  - rewrite decide_True; [done|]. right. right. right. by apply E.
  - rewrite decide_False by (intros [H|[H|[H|H]]]; [done|done|done|by apply D, E]). by rewrite decide_False by (intros [_ H]; done).
Qed.

Lemma cuda_loop_spec out l : (length (ri_devices out) <= 32)%nat ->
  ri_devices (cuda_loop out l) = take 32 (ri_devices out ++ (found <$> omap id l)) /\ ri_version (cuda_loop out l) = ri_version out.
Proof.
  revert out. induction l as [|a l IH]; intros out Ho; cbn [cuda_loop]; [cbn; by rewrite app_nil_r, take_ge|]. case_decide as D.
  - destruct a as [[[[name maj] min] mem]|]; [|by apply IH]. cbn [cuda_step]. unfold qrx_moe_inventory_push. rewrite decide_False by lia. cbn [snd].
    edestruct IH as [-> ->]; [|split; [|done]]; cbn [ri_devices].
    + rewrite length_app. unfold blen, QRX_MOE_MAX_DISCOVERED_DEVICES in D. cbn. lia.
    + by rewrite <- app_assoc.
  - split; [|done]. assert (length (ri_devices out) = 32%nat) as E by (unfold blen, QRX_MOE_MAX_DISCOVERED_DEVICES in D; lia). by rewrite take_app_le, take_ge by lia.
Qed.
Lemma first_code_zero l : first_code l = 0 <-> Forall (fun c => c = 0) l.
Proof.
  induction l as [|c l IH]; cbn [first_code]; [by split; [constructor|]|]. rewrite Forall_cons. case_decide; [split; [done|by intros [? _]]|]. rewrite IH. split; [split; [lia|done]|by intros [_ ?]].
Qed.
Lemma cpu_check memory cpus : discovered_check (mkDiscovered QRX_MOE_DISCOVERY_VERSION QRX_MOE_DISCOVERY_CPU_NATIVE (cpu_device memory cpus) 1 1) = 0.
Proof.
  unfold discovered_check. cbn [dd_version dd_source dd_device dd_runtime_present dd_execution_adapter_ready].
  assert (qrx_moe_runtime_device_validate (cpu_device memory cpus) = 0) as ->; [|by rewrite !decide_False by (intros H; intuition done)].
  unfold qrx_moe_runtime_device_validate, cpu_device. cbn [dv_version dv_backend dv_device_name dv_max_batch_items dv_accelerator_features dv_cuda_cc_major dv_device_memory_bytes].
  rewrite decide_False. 2:{ change (bounded_nonempty _ _) with true. intros [H|[H|[H|[H|H]]]]; try done. case_decide; lia. }
  by rewrite !decide_False by (intros [H _]; done).
Qed.

(** The inventory has the processor and then every device on which the
    driver answered, up to 32 in all; the discovery succeeds exactly when all of
    these answers are complete, so that one nameless device hides the others. *)
Theorem discover_native_spec memory cpus l : exists rc out,
  qrx_moe_runtime_discover_native memory cpus (Some (Some l)) = (rc, out) /\
  dd_device <$> ri_devices out = cpu_device memory cpus :: ((fun '(name, maj, min, mem) => cuda_device name maj min mem) <$> take 31 (omap id l)) /\
  (rc = 0 <-> Forall answer_ok (take 31 (omap id l))).
Proof.
  set (cpu := mkDiscovered QRX_MOE_DISCOVERY_VERSION QRX_MOE_DISCOVERY_CPU_NATIVE (cpu_device memory cpus) 1 1).
  assert (qrx_moe_runtime_discover_native memory cpus (Some (Some l)) =
    let out := cuda_loop (mkInventory QRX_MOE_DISCOVERY_VERSION [cpu] 1 0 0 0) l in (qrx_moe_runtime_inventory_validate out, out)) as -> by reflexivity.
  cbv zeta. eexists _, _. split; [done|].
  match goal with |- context [cuda_loop ?o l] => set (out := o) end. assert (length (ri_devices out) <= 32)%nat as Hlen by (cbn; lia).
  destruct (cuda_loop_spec out l Hlen) as [E Ev]. set (res := cuda_loop out l) in *. rewrite E. cbn [out ri_devices app take]. split.
  { rewrite fmap_cons. cbn [dd_device]. f_equal. rewrite <- fmap_take, <- list_fmap_compose. apply list_fmap_ext. by intros _ [[[name maj] min] mem] _. }
  unfold qrx_moe_runtime_inventory_validate. rewrite Ev, E. cbn [out ri_version ri_devices app]. 
  rewrite decide_False. 2:{ intros [H|[H|H]]; [done|done|]. unfold blen, QRX_MOE_MAX_DISCOVERED_DEVICES in H. rewrite length_take in H. lia. }
  rewrite first_code_zero, firstn_cons, fmap_cons, Forall_cons, (cpu_check memory cpus : discovered_check cpu = 0), <- fmap_take, !Forall_fmap. split.
  - intros [_ H]. eapply Forall_impl; [exact H|]. intros [[[name maj] min] mem]. unfold compose. rewrite found_check. case_decide; [done|]. unfold answer_ok. tauto.
  - intros H. split; [done|]. eapply Forall_impl; [exact H|]. intros [[[name maj] min] mem]. unfold compose, answer_ok. rewrite found_check. intros ?. rewrite decide_False; [done|tauto].
Qed.

(** ** Workers and calibration *)

(** A worker is run only when its device has what the work asks for: backend,
    memory, batch and kernels, of the device and of the adapter. *)
Lemma worker_runs_supported a d r input in_n null cap rc out execute :
  wa_execute a = Some execute -> (forall i c, 0 <= fst (execute i c)) -> qrx_moe_worker_adapter_execute a d r input in_n null cap = (rc, out) -> 0 <= rc ->
  wa_ready a <> 0 /\ wa_backend a = dv_backend d /\ dv_backend d = wr_backend r /\ wr_required_device_memory_bytes r <= dv_device_memory_bytes d /\
  wr_requested_batch_items r <= dv_max_batch_items d /\
  Z.land (qrx_moe_runtime_kernel_mask d) (wr_required_kernel_features r) = wr_required_kernel_features r /\
  Z.land (wa_kernel_mask a) (wr_required_kernel_features r) = wr_required_kernel_features r.
Proof.
  intros Ha Hx. unfold qrx_moe_worker_adapter_execute. case_decide as D1; [intros [= <- _]; lia|]. rewrite Ha. case_decide as D2; [intros [= <- _]; lia|].
  case_decide as D3; [intros [= <- _]; lia|]. case_decide; [intros [= <- _]; lia|]. case_decide; [intros [= <- _]; lia|]. intros _ _.
  destruct (qrx_moe_worker_eligible d r) eqn:E; [|tauto]. unfold qrx_moe_worker_eligible in E. case_decide; [done|]. case_decide as D4; [done|]. case_decide as D5; [done|].
  apply bool_decide_eq_true in E. destruct (decide (wa_backend a = dv_backend d)); [|tauto]. split; [tauto|]. repeat (split; [done || lia|]). done.
Qed.

(** The mean of the samples stays between the old mean and the new sample. *)
Lemma mean_between mean old milli : in_u64 mean -> in_u64 milli -> 0 < old < UINT32_MAX ->
  Z.min mean milli <= mean_rate mean old milli <= Z.max mean milli.
Proof.
  intros Hm Hs Ho. unfold mean_rate. rewrite decide_False by lia. cbv zeta. destruct (decide (mean <= UINT64_MAX / old)) as [D|D]; [|rewrite decide_False by tauto; lia].
  assert (mean * old <= UINT64_MAX) as Hfit.
  { apply (Z.le_trans _ (UINT64_MAX / old * old)); [apply Z.mul_le_mono_nonneg_r; lia|]. rewrite Z.mul_comm. apply Z.mul_div_le. lia. }
  assert (0 <= mean * old) by (apply Z.mul_nonneg_nonneg; word). rewrite (u64_small (mean * old)) by word. case_decide as D2; [|lia].
  rewrite (u64_small (_ + milli)), (u32_small (old + 1)) by word. split; [apply Z.div_le_lower_bound; [lia|]|apply Z.div_le_upper_bound; [lia|]].
  - destruct (Z.le_ge_cases mean milli); [rewrite Z.min_l by lia; nia|rewrite Z.min_r by lia; nia].
  - destruct (Z.le_ge_cases mean milli); [rewrite Z.max_r by lia; nia|rewrite Z.max_l by lia; nia].
Qed.
(** Where the sum of the samples does not fit the mean stands still, and the
    sample is counted all the same. *)
Lemma mean_stands_still : mean_rate (2 ^ 40) (2 ^ 24) 0 = 2 ^ 40.
Proof. reflexivity. Qed.

(** ** Runs *)

Definition mr_root : bytes := arr 65 (repeat x61 64).
Definition mr_place (expert size residency : Z) : offer :=
  (mkNodeProfile 1 (arr 129 (cs "n1")) mf_pod QRX_COMPUTE_ARCH_X86_64 QRX_MOE_NODE_LIGHT 1 QRX_MOE_ROLE_EXPERT (2 ^ 35) (2 ^ 34) (2 ^ 38) 0 100 1000 (arr QRX_MOE_MAX_BACKEND (cs "cpu")),
   mkPlacement 1 (arr 129 (cs "n1")) mf_pod (mkFragment 1 (arr QRX_MOE_MAX_MODEL_ID (cs "m")) (arr QRX_MODEL_MAX_VERSION (cs "1")) 5 expert 0 1 mr_root size) residency QRX_MOE_CACHE_COLD 0 50,
   9000).
Definition mr_request : QrxMoeCoordinatorRequest := mkCoordinatorRequest 1 mf_pod 4 5 [1; 2] 4 1000 QRX_ACT_FP16.
Definition mr_plan : QrxMoePrefetchPlan := mkPrefetchPlan 0 [] 0 [] 0 0.

Lemma prefetch_plan_canonical_witness : let a := mr_place 1 300 QRX_MOE_RES_NVME in let b := mr_place 2 500 QRX_MOE_RES_RAM in
  exists p q out, prefetch_all mr_request [a; b] mr_plan = Some p /\ prefetch_all mr_request [b; a] mr_plan = Some q /\
  qrx_moe_prefetch_plan_finalize mr_request p = (0, out) /\ qrx_moe_prefetch_plan_finalize mr_request q = (0, out) /\ pp_total_prefetch_bytes out = 800.
Proof.
  intros a b. destruct (prefetch_all mr_request [a; b] mr_plan) as [p|] eqn:E; [|by vm_compute in E].
  destruct (prefetch_plan_canonical mr_request [a; b] [b; a] mr_plan p) as (q & out & H1 & H2 & H3 & _ & _ & _ & _ & _ & H4 & _).
  - split; vm_compute; by repeat split.
  - repeat constructor; unfold offer_typed; vm_compute; done.
  - done.
  - done.
  - apply perm_swap.
  - done.
  - exists p, q, out. split; [done|]. split; [done|]. split; [done|]. split; [done|]. by rewrite H4.
Defined.

Lemma microbatch_within_limits_witness :
  let l := [mf_item (cs "r2") (cs "m") 7 10; mf_item (cs "r1") (cs "m") 7 200; mf_item (cs "r3") (cs "m") 7 20; mf_item (cs "r2") (cs "m") 7 1; mf_item (cs "r0") (cs "m") 7 80] in
  let b := microbatch_run mf_pod 8 100 1000 mf_zero l in
  mb_total_tokens b = 30 /\ batch_ok mf_pod 8 100 1000 l b /\ exists b', qrx_moe_microbatch_finalize b = (0, b') /\ mb_items b' ≡ₚ mb_items b.
Proof.
  intros l b. assert (mb_total_tokens b = 30) as Ht by (vm_compute; reflexivity). split; [done|].
  destruct (microbatch_within_limits mf_pod 8 100 1000 ltac:(vm_compute; by split) ltac:(vm_compute; by split) mf_zero l) as [H|(H1 & _ & H2)].
  - unfold l. do 5 (apply List.Forall_cons; [split; vm_compute; by split|]). apply List.Forall_nil.
  - lia.
  - done.
  - by vm_compute in H.
  - split; [done|]. destruct H2 as (b' & H3 & H4 & _); [intros E; vm_compute in E; discriminate E|]. exists b'. split; [exact H3|exact H4].
Defined.

Lemma stream_accounts_witness : exists s0,
  qrx_moe_stream_open (arr 129 (cs "s")) mf_pod (arr 129 (cs "a")) (arr 129 (cs "b")) QRX_ACT_FP16 0 2 10 = Some s0 /\
  let calls := [CallBegin 64 11; CallBegin 32 12; CallBegin 8 13; CallState QRX_MOE_STREAM_CLOSED 14; CallComplete 16 15] in
  stream_ok s0 (foldl stream_step (s0, [], []) calls) /\ (foldl stream_step (s0, [], []) calls).1.2 = [32; 64].
Proof.
  eexists. split; [vm_compute; reflexivity|]. intros calls. split; [|vm_compute; reflexivity].
  eapply (stream_accounts (arr 129 (cs "s")) mf_pod (arr 129 (cs "a")) (arr 129 (cs "b")) QRX_ACT_FP16 0 2 10).
  - vm_compute. reflexivity.
  - vm_compute. by split.
  - unfold calls. repeat (apply List.Forall_cons; [vm_compute; by repeat split|]). apply List.Forall_nil.
Defined.

Lemma schedule_advice_spec_witness : exists a,
  qrx_moe_schedule_advice (mkBatchPolicy 1 2 8 16 5000 200 5000 7000 9000) (mkSnapshot 1 10 4 100 1 8 1000 900 0) = Some a /\
  sa_decision a = QRX_MOE_DISPATCH_WAIT /\ sa_suggested_wait_us a + 200 <= 900.
Proof.
  destruct (schedule_advice_spec (mkBatchPolicy 1 2 8 16 5000 200 5000 7000 9000) (mkSnapshot 1 10 4 100 1 8 1000 900 0)) as (a & Ha & _ & _ & _ & _ & _ & H).
  - split; vm_compute; by split.
  - split; vm_compute; by split.
  - reflexivity.
  - reflexivity.
  - done.
  - done.
  - assert (sa_decision a = QRX_MOE_DISPATCH_WAIT) as Hd by (vm_compute in Ha; injection Ha as <-; reflexivity).
    exists a. split; [done|]. split; [done|]. apply H; [done|]. cbn. lia.
Defined.
