(* ===== verification/Mvcc.v ===== *)
(** * VELOCITY execution: the adapters
      (src/qrx-core/src/mempool/qrx_velocity_mvcc.c, .h)

    A transaction is executed against a snapshot of the database below an
    overlay of earlier writes; it records the keys it reads and the writes it
    would make.  These are transfers, agent and gateway transactions; the adapter
    of the order book, an argument of the dispatcher here, is in MvccOrders.

    An adapter is a computation over a lookup function and a write set that can
    give up ([goto bad]).  Allocation succeeds. *)

From stdpp Require Import gmap.
From S2P Require Import Prelude Format Scheduler Mempool.

(** ** Data *)

Definition QRX_MVCC_OK : Z := 0.
Definition QRX_MVCC_RETRY : Z := 1.
Definition QRX_MVCC_UNSUPPORTED : Z := 2.
Definition QRX_MVCC_BARRIER : Z := 3.
Definition QRX_MVCC_ERROR : Z := -1.

Abbreviation QrxVelocityMvccKV := (bytes * bytes)%type.

(** The arrays are lists, in order. *)
Record QrxVelocityMvccWriteSet := mkWs {
  ws_txid : bytes;
  ws_plan_index : Z;
  ws_wave : Z;
  ws_status : Z;
  ws_fee_delta : Z;
  ws_dynamic : Z;
  ws_speculative : Z;
  ws_retried : Z;
  ws_conflict_loser : Z;
  ws_dynamic_scope : bytes;
  ws_discovered_keys : Z;
  ws_dynamic_trades : Z;
  ws_expired_orders : Z;
  ws_writes : list QrxVelocityMvccKV;
  ws_reads : list bytes;
  ws_read_prefixes : list bytes
}.

Definition ws_zero : QrxVelocityMvccWriteSet := mkWs [] 0 0 0 0 0 0 0 0 [] 0 0 0 [] [] [].

Definition ws_init (txid : bytes) (plan_index wave : Z) : QrxVelocityMvccWriteSet :=
  mkWs (snprintf_s 129 txid) plan_index wave 0 0 0 0 0 0 [] 0 0 0 [] [] [].

Definition set_status (ws : QrxVelocityMvccWriteSet) (status : Z) : QrxVelocityMvccWriteSet :=
  mkWs (ws_txid ws) (ws_plan_index ws) (ws_wave ws) status (ws_fee_delta ws) (ws_dynamic ws) (ws_speculative ws) (ws_retried ws)
    (ws_conflict_loser ws) (ws_dynamic_scope ws) (ws_discovered_keys ws) (ws_dynamic_trades ws) (ws_expired_orders ws)
    (ws_writes ws) (ws_reads ws) (ws_read_prefixes ws).
Definition set_fee (ws : QrxVelocityMvccWriteSet) (fee : Z) : QrxVelocityMvccWriteSet :=
  mkWs (ws_txid ws) (ws_plan_index ws) (ws_wave ws) (ws_status ws) fee (ws_dynamic ws) (ws_speculative ws) (ws_retried ws)
    (ws_conflict_loser ws) (ws_dynamic_scope ws) (ws_discovered_keys ws) (ws_dynamic_trades ws) (ws_expired_orders ws)
    (ws_writes ws) (ws_reads ws) (ws_read_prefixes ws).
Definition set_flags (ws : QrxVelocityMvccWriteSet) (speculative retried loser : Z) : QrxVelocityMvccWriteSet :=
  mkWs (ws_txid ws) (ws_plan_index ws) (ws_wave ws) (ws_status ws) (ws_fee_delta ws) (ws_dynamic ws) speculative retried
    loser (ws_dynamic_scope ws) (ws_discovered_keys ws) (ws_dynamic_trades ws) (ws_expired_orders ws)
    (ws_writes ws) (ws_reads ws) (ws_read_prefixes ws).
Definition set_writes (ws : QrxVelocityMvccWriteSet) (writes : list QrxVelocityMvccKV) : QrxVelocityMvccWriteSet :=
  mkWs (ws_txid ws) (ws_plan_index ws) (ws_wave ws) (ws_status ws) (ws_fee_delta ws) (ws_dynamic ws) (ws_speculative ws) (ws_retried ws)
    (ws_conflict_loser ws) (ws_dynamic_scope ws) (ws_discovered_keys ws) (ws_dynamic_trades ws) (ws_expired_orders ws)
    writes (ws_reads ws) (ws_read_prefixes ws).
Definition set_reads (ws : QrxVelocityMvccWriteSet) (reads : list bytes) : QrxVelocityMvccWriteSet :=
  mkWs (ws_txid ws) (ws_plan_index ws) (ws_wave ws) (ws_status ws) (ws_fee_delta ws) (ws_dynamic ws) (ws_speculative ws) (ws_retried ws)
    (ws_conflict_loser ws) (ws_dynamic_scope ws) (ws_discovered_keys ws) (ws_dynamic_trades ws) (ws_expired_orders ws)
    (ws_writes ws) reads (ws_read_prefixes ws).

(** ** Helpers *)

Definition field (tx key : bytes) (out_sz : nat) : option bytes := sep_field x0a tx key out_sz.
Definition payload_field_mvcc (payload key : bytes) (out_sz : nat) : option bytes := sep_field x3b payload key out_sz.

(** [strtoll(s, &end, 10)] with [errno] and [*end] checked; without digits
    [end] is [s], which is accepted when [s] is empty. *)
Definition strtoll_checked (s : bytes) : option Z :=
  let t := skip_space s in
  let '(negative, t) := match t with x2d :: t => (true, t) | x2b :: t => (false, t) | _ => (false, t) end in
  match t with
  | c :: _ =>
      if is_digit c then
        let v := if negative : bool then - digits 0 t else digits 0 t in
        if decide (skip_digits t = [] /\ LLONG_MIN <= v <= LLONG_MAX) then Some v else None
      else None
  | [] => if decide (s = []) then Some 0 else None
  end.

Definition parse_ll (s : bytes) (positive : bool) : option Z :=
  if decide (s = []) then None
  else v ← strtoll_checked s; if decide (v < if positive then 1 else 0) then None else Some v.

Definition add_ll (a b : Z) : option Z :=
  if decide ((b > 0 /\ a > LLONG_MAX - b) \/ (b < 0 /\ a < LLONG_MIN - b)) then None else Some (a + b).

Fixpoint kv_set (arr : list QrxVelocityMvccKV) (key value : bytes) : list QrxVelocityMvccKV :=
  match arr with
  | [] => [(key, value)]
  | (k, v) :: arr => if decide (k = key) then (k, value) :: arr else (k, v) :: kv_set arr key value
  end.

(** The last pair with the key. *)
Fixpoint kv_find (arr : list QrxVelocityMvccKV) (key : bytes) : option bytes :=
  match arr with
  | [] => None
  | (k, v) :: arr => match kv_find arr key with Some w => Some w | None => if decide (k = key) then Some v else None end
  end.

Definition strset_add (arr : list bytes) (value : bytes) : option (list bytes) :=
  if decide (value = []) then None else if decide (value ∈ arr) then Some arr else Some (arr ++ [value]).

Definition key_has_prefix (key prefix : bytes) : bool := bool_decide (prefix <> [] /\ take (length prefix) key = prefix).

(** ** Computations of an adapter *)

Definition M (A : Type) : Type := (bytes -> option bytes) -> QrxVelocityMvccWriteSet -> QrxVelocityMvccWriteSet * option A.

#[export] Instance M_ret : MRet M := fun A x _ ws => (ws, Some x).
#[export] Instance M_bind : MBind M := fun A B f c look ws =>
  match c look ws with (ws, Some x) => f x look ws | (ws, None) => (ws, None) end.

(** A check or a parse that can fail, and a guard. *)
Definition mlift {A} (o : option A) : M A := fun _ ws => (ws, o).
Definition mcheck (P : Prop) {dec : Decision P} : M unit := mlift (if decide P then Some tt else None).

Definition ws_track_read (key : bytes) : M unit :=
  fun _ ws => match strset_add (ws_reads ws) key with Some r => (set_reads ws r, Some tt) | None => (ws, None) end.

(** The string at the key, cut to the buffer; the lookup function is the
    overlay over the snapshot. *)
Definition snapshot_get (key : bytes) (out_sz : nat) : M (option bytes) :=
  ws_track_read key;; (fun look ws => (ws, Some (snprintf_s out_sz <$> look key))) : M (option bytes).

Definition snapshot_get_ll (key : bytes) (def : Z) : M Z :=
  found ← snapshot_get key 128;
  match found with None => mret def | Some buf => mlift (strtoll_checked buf) end.

Definition ws_put (key value : bytes) : M unit := fun _ ws => (set_writes ws (kv_set (ws_writes ws) key value), Some tt).
Definition ws_put_ll (key : bytes) (value : Z) : M unit := ws_put key (snprintf_s 64 (print_d value)).

(** [snprintf] of a key, in a buffer of 1024. *)
Definition key_of (prefix s : bytes) : bytes := snprintf_s 1024 (prefix ++ s).
Definition nonce_key (from : bytes) (lane : Z) : bytes :=
  if decide (lane = 0) then key_of (cs "acct:nonce:") from
  else snprintf_s 1024 (cs "velocity:nonce:" ++ from ++ cs ":" ++ print_d lane).

Definition body_hash_of (tx : bytes) : option bytes :=
  match field tx (cs "body_hash_sha3_512") 160 with Some h => Some h | None => field tx (cs "body_hash") 160 end.

Definition applied_value (height : Z) (sz : nat) : bytes := snprintf_s sz (cs "height=" ++ print_d height ++ [x0a] ++ cs "applied=1" ++ [x0a]).
Definition loc_value (body_hash : bytes) (height plan_index : Z) (sz : nat) : bytes :=
  snprintf_s sz (cs "tx_hash=" ++ body_hash ++ [x0a] ++ cs "block_hash=velocity-mvcc" ++ [x0a] ++ cs "height=" ++ print_d height ++ [x0a]
    ++ cs "index=" ++ print_u plan_index ++ [x0a]).
Definition consensus_value (type : bytes) (height : Z) (sz : nat) : bytes :=
  snprintf_s sz (cs "height=" ++ print_d height ++ [x0a] ++ cs "type=velocity-" ++ type ++ cs "-mvcc" ++ [x0a] ++ cs "committed=1" ++ [x0a]).

(** The marks that a transaction was applied, the same in both adapters. *)
Definition put_marks (tx body_hash type : bytes) (height plan_index : Z) (sz : nat) : M unit :=
  ws_put (key_of (cs "tx:applied:") body_hash) (applied_value height sz);;
  ws_put (key_of (cs "tx:loc:") body_hash) (loc_value body_hash height plan_index sz);;
  ws_put (key_of (cs "tx:payload:") body_hash) tx;;
  ws_put (key_of (cs "consensus:applytx:") body_hash) (consensus_value type height sz).

Definition put_fee (fee : Z) : M unit := fun _ ws => (set_fee ws fee, Some tt).

(** ** Transfers *)

(** After the type is checked; the result is the code. *)
Definition transfer_body (tx : bytes) (plan_index height : Z) : M Z :=
  from ← mlift (field tx (cs "from") 512);
  to ← mlift (field tx (cs "to") 512);
  amount_s ← mlift (field tx (cs "amount") 64);
  fee_s ← mlift (field tx (cs "fee") 64);
  nonce_s ← mlift (field tx (cs "nonce") 64);
  lane_s ← mlift (field tx (cs "lane_id") 64);
  body_hash ← mlift (body_hash_of tx);
  amount ← mlift (parse_ll amount_s true);
  fee ← mlift (parse_ll fee_s false);
  nonce ← mlift (parse_ll nonce_s true);
  lane ← mlift (parse_ll lane_s false);
  let k_from := key_of (cs "acct:balance:") from in
  let k_to := key_of (cs "acct:balance:") to in
  let k_nonce := nonce_key from lane in
  found ← snapshot_get (key_of (cs "tx:applied:") body_hash) 256;
  mcheck (found = None);;
  frombal ← snapshot_get_ll k_from 0;
  tobal ← snapshot_get_ll k_to 0;
  current_nonce ← snapshot_get_ll k_nonce 0;
  mcheck (current_nonce <> LLONG_MAX /\ nonce = current_nonce + 1);;
  debit ← mlift (add_ll amount fee);
  mcheck (debit <= frombal);;
  '(new_from, new_to) ←
    (if decide (from = to) then n ← mlift (add_ll frombal (- fee)); mret (n, n)
     else n ← mlift (add_ll frombal (- debit)); t ← mlift (add_ll tobal amount); mret (n, t));
  ws_put_ll k_from new_from;;
  (if decide (from = to) then mret tt else ws_put_ll k_to new_to);;
  ws_put_ll k_nonce nonce;;
  put_marks tx body_hash (cs "transfer-fast") height plan_index 256;;
  put_fee fee;;
  mret QRX_MVCC_OK.

(** The end of an adapter: its code is also the status, and [bad] is an error. *)
Definition finish (r : QrxVelocityMvccWriteSet * option Z) : Z * QrxVelocityMvccWriteSet :=
  match r with
  | (ws, Some rc) => (rc, set_status ws rc)
  | (ws, None) => (QRX_MVCC_ERROR, set_status ws QRX_MVCC_ERROR)
  end.

Definition transfer_main (tx : bytes) (plan_index height : Z) : M Z :=
  if decide (field tx (cs "tx_version") 32 = Some (cs "3") /\ field tx (cs "tx_type") 64 = Some (cs "TRANSFER_FAST"))
  then transfer_body tx plan_index height
  else mret QRX_MVCC_UNSUPPORTED.

(** ** Other transactions that need no order book *)

(** Type, sender, recipient, payload and body hash. *)
Definition prepare_common_nontransfer (tx : bytes) (plan_index height : Z) : M (bytes * bytes * bytes * bytes * bytes) :=
  mcheck (field tx (cs "tx_version") 32 = Some (cs "3"));;
  type ← mlift (field tx (cs "tx_type") 64);
  from ← mlift (field tx (cs "from") 512);
  to ← mlift (field tx (cs "to") 512);
  fee_s ← mlift (field tx (cs "fee") 64);
  nonce_s ← mlift (field tx (cs "nonce") 64);
  lane_s ← mlift (field tx (cs "lane_id") 64);
  payload ← mlift (field tx (cs "payload") (Z.to_nat 16384));
  body_hash ← mlift (body_hash_of tx);
  fee ← mlift (parse_ll fee_s false);
  nonce ← mlift (parse_ll nonce_s true);
  lane ← mlift (parse_ll lane_s false);
  let k_from := key_of (cs "acct:balance:") from in
  let k_nonce := nonce_key from lane in
  found ← snapshot_get (key_of (cs "tx:applied:") body_hash) 512;
  mcheck (found = None);;
  bal ← snapshot_get_ll k_from 0;
  current_nonce ← snapshot_get_ll k_nonce 0;
  mcheck (current_nonce <> LLONG_MAX /\ nonce = current_nonce + 1 /\ fee <= bal);;
  newbal ← mlift (add_ll bal (- fee));
  ws_put_ll k_from newbal;;
  ws_put_ll k_nonce nonce;;
  put_marks tx body_hash type height plan_index 512;;
  put_fee fee;;
  mret (type, from, to, payload, body_hash).

Definition agent_key (agent f : bytes) : bytes := snprintf_s 1200 (cs "velocity:agent:" ++ agent ++ cs ":" ++ f).
Definition gateway_key (gw f : bytes) : bytes := snprintf_s 1200 (cs "velocity:gateway:" ++ gw ++ cs ":" ++ f).

(** Puts of several fields of an agent or a gateway. *)
Fixpoint put_fields (key : bytes -> bytes) (kvs : list (bytes * bytes)) : M unit :=
  match kvs with
  | [] => mret tt
  | (f, v) :: kvs => ws_put (key f) v;; put_fields key kvs
  end.

Definition agent_body (tx : bytes) (plan_index height : Z) : M Z :=
  '(type, owner, agent, payload, body_hash) ← prepare_common_nontransfer tx plan_index height;
  if decide (type <> cs "AGENT_REGISTER" /\ type <> cs "AGENT_UPDATE" /\ type <> cs "AGENT_REVOKE") then mret QRX_MVCC_UNSUPPORTED
  else
    status ← snapshot_get (agent_key agent (cs "status")) 128;
    existing_owner ← snapshot_get (agent_key agent (cs "owner")) 512;
    let active := bool_decide (status = Some (cs "active")) in
    (if decide (type = cs "AGENT_REGISTER") then mcheck (active = false)
     else mcheck (active = true /\ existing_owner = Some owner));;
    let hb := snprintf_s 64 (print_d height) in
    (if decide (type = cs "AGENT_REGISTER" \/ type = cs "AGENT_UPDATE") then
       perm ← mlift (payload_field_mvcc payload (cs "permissions") 1024);
       mx ← mlift (payload_field_mvcc payload (cs "max_trade_atoms") 64);
       daily ← mlift (payload_field_mvcc payload (cs "daily_limit_atoms") 64);
       markets ← mlift (payload_field_mvcc payload (cs "market_allowlist") 4096);
       exp ← mlift (payload_field_mvcc payload (cs "expires_height") 64);
       (if decide (type = cs "AGENT_REGISTER") then
          ed ← mlift (payload_field_mvcc payload (cs "agent_ed25519_pub_hex") 4096);
          ml ← mlift (payload_field_mvcc payload (cs "agent_mldsa65_pub_b64") (Z.to_nat 8192));
          put_fields (agent_key agent) [(cs "ed25519_pub_hex", ed); (cs "mldsa65_pub_b64", ml)]
        else mret tt);;
       put_fields (agent_key agent)
         [(cs "owner", owner); (cs "status", cs "active"); (cs "permissions", perm); (cs "max_trade_atoms", mx);
          (cs "daily_limit_atoms", daily); (cs "market_allowlist", markets); (cs "expires_height", exp); (cs "updated_height", hb);
          (cs "last_tx", body_hash)]
     else
       put_fields (agent_key agent)
         [(cs "status", cs "revoked"); (cs "revoked_height", hb); (cs "updated_height", hb); (cs "last_tx", body_hash)]);;
    mret QRX_MVCC_OK.

Definition gateway_body (tx : bytes) (plan_index height : Z) : M Z :=
  '(type, authority, gateway, payload, body_hash) ← prepare_common_nontransfer tx plan_index height;
  if decide (type <> cs "GATEWAY_REGISTER" /\ type <> cs "GATEWAY_REVOKE") then mret QRX_MVCC_UNSUPPORTED
  else
    status ← snapshot_get (gateway_key gateway (cs "status")) 128;
    mcheck (type = cs "GATEWAY_REVOKE" -> status = Some (cs "active"));;
    let hb := snprintf_s 64 (print_d height) in
    (if decide (type = cs "GATEWAY_REGISTER") then
       venue ← mlift (payload_field_mvcc payload (cs "venue") 512);
       name ← mlift (payload_field_mvcc payload (cs "name") 1024);
       ed ← mlift (payload_field_mvcc payload (cs "gateway_ed25519_pub_hex") 4096);
       ml ← mlift (payload_field_mvcc payload (cs "gateway_mldsa65_pub_b64") (Z.to_nat 8192));
       exp ← mlift (payload_field_mvcc payload (cs "expires_height") 64);
       put_fields (gateway_key gateway)
         [(cs "authority", authority); (cs "status", cs "active"); (cs "venue", venue); (cs "name", name); (cs "ed25519_pub_hex", ed);
          (cs "mldsa65_pub_b64", ml); (cs "expires_height", exp); (cs "updated_height", hb); (cs "last_tx", body_hash)]
     else
       put_fields (gateway_key gateway)
         [(cs "status", cs "revoked"); (cs "revoked_height", hb); (cs "updated_height", hb); (cs "last_tx", body_hash)]);;
    mret QRX_MVCC_OK.

(** ** Dispatch *)

(** An adapter: lookup, transaction, identifier, index, wave and height. *)
Definition adapter : Type := (bytes -> option bytes) -> bytes -> bytes -> Z -> Z -> Z -> Z * QrxVelocityMvccWriteSet.

Definition run_adapter (body : bytes -> Z -> Z -> M Z) : adapter :=
  fun look tx txid plan_index wave height => finish (body tx plan_index height look (ws_init txid plan_index wave)).

Definition prepare_transfer : adapter := run_adapter transfer_main.
Definition prepare_agent_stateful : adapter := run_adapter agent_body.
Definition prepare_gateway_stateful : adapter := run_adapter gateway_body.

Definition prepare_phase4c_tx (mvcc_prepare_native_dynamic : adapter) : adapter :=
  fun look tx txid plan_index wave height =>
    let cls := qrx_velocity_tx_adapter_class tx in
    let type := default [] (field tx (cs "tx_type") 64) in
    if decide (cls = QRX_VELOCITY_ADAPTER_TRANSFER) then prepare_transfer look tx txid plan_index wave height
    else if decide (cls = QRX_VELOCITY_ADAPTER_STATEFUL /\ take 6 type = cs "AGENT_") then
      prepare_agent_stateful look tx txid plan_index wave height
    else if decide (cls = QRX_VELOCITY_ADAPTER_STATEFUL /\ take 8 type = cs "GATEWAY_") then
      prepare_gateway_stateful look tx txid plan_index wave height
    else if decide (cls = QRX_VELOCITY_ADAPTER_DYNAMIC) then mvcc_prepare_native_dynamic look tx txid plan_index wave height
    else (QRX_MVCC_BARRIER, set_status (ws_init txid plan_index wave) QRX_MVCC_BARRIER).
