(* ===== verification/MvccOrders.v ===== *)
(** * VELOCITY execution: the order book
      (src/qrx-core/src/mempool/qrx_velocity_dynamic.inc)

    Transactions that create, cancel and replace limit orders: the order is
    authorised for the agent, its owner's funds are locked, and it is matched
    at once against the open orders of the other side, best price first, then
    oldest, each match being settled in full.

    What an order transaction sees of the database beside single keys is an
    argument: the keys below [velocity:order:] in the snapshot and in the
    overlay, the root and generation of the snapshot, and the block time of
    [chain.conf].  SHA3-512 is a parameter; reads of keys cannot fail, because
    no key is empty. *)

From stdpp Require Import gmap.
From S2P Require Import Prelude Format Scheduler Mempool Mvcc.

Definition QRX_MVCC_TRADE_PRICE_SCALE : Z := 100000000.

Record MvccMatchOrder := mkMatch { mo_id : bytes; mo_owner : bytes; mo_side : bytes; mo_price : Z; mo_remaining : Z; mo_created_height : Z }.
Record MvccOrderIdList := mkIds { oi_ids : list bytes; oi_scanned_keys : Z }.

(** ** Strings *)

Definition mvcc_ascii_tolower (c : byte) : Z := let n := byte.unsigned c in if decide (65 <= n <= 90) then n + 32 else n.
Definition mvcc_ieq (a b : bytes) : bool := bool_decide (mvcc_ascii_tolower <$> a = mvcc_ascii_tolower <$> b).

Definition is_blank (c : byte) : bool := bool_decide (c = x20 \/ c = x09).
Definition is_sep (c : byte) : bool := bool_decide (c = x2c \/ c = x7c).
Fixpoint skip_while (p : byte -> bool) (s : bytes) : bytes :=
  match s with c :: s' => if p c then skip_while p s' else s | [] => [] end.
Fixpoint take_while (p : byte -> bool) (s : bytes) : bytes :=
  match s with c :: s' => if p c then c :: take_while p s' else [] | [] => [] end.

Fixpoint token_loop (fuel : nat) (cur needle : bytes) : bool :=
  match fuel, cur with
  | O, _ | _, [] => false
  | S fuel, _ =>
      let cur := skip_while (fun c => is_sep c || is_blank c) cur in
      let upto := take_while (fun c => negb (is_sep c)) cur in
      let token := reverse (skip_while is_blank (reverse upto)) in
      if bool_decide (token = cs "*") || mvcc_ieq token needle then true
      else token_loop fuel (tail (drop (length upto) cur)) needle
  end.
Definition mvcc_token_list_contains_ci (list needle : bytes) : bool :=
  if decide (needle = []) then false else token_loop (S (length list)) list needle.

Definition upper (c : byte) : byte := let n := byte.unsigned c in if decide (97 <= n <= 122) then byte.of_Z (n - 32) else c.
Definition mvcc_asset_normalize (s : bytes) : bytes := upper <$> take 31 s.

(** Exactly one slash, and two different names of 1 to 31 bytes. *)
Definition mvcc_parse_market (market : bytes) : option (bytes * bytes) :=
  match split_on x2f market with
  | [b; q] =>
      if decide (b = [] \/ q = [] \/ (32 <= length b)%nat \/ (32 <= length q)%nat) then None
      else let base := mvcc_asset_normalize b in let quote := mvcc_asset_normalize q in
        if decide (base = quote) then None else Some (base, quote)
  | _ => None
  end.

(** ** Arithmetic *)

(** One bit of [a]: the quotient and the remainder so far. *)
Definition md_step (ub ud ua : Z) (st : Z * Z) (i : Z) : option (Z * Z) :=
  let base_q := ub / ud in
  let base_r := ub mod ud in
  let '(q, rem) := st in
  if decide (q > LLONG_MAX / 2) then None
  else
    let q := q *64 2 in
    let rem := rem *64 2 in
    '(q, rem) ← (if decide (rem >= ud) then if decide (q >= LLONG_MAX) then None else Some (q +64 1, rem -64 ud) else Some (q, rem));
    if Z.testbit ua i then
      if decide (q > LLONG_MAX - base_q) then None
      else
        let q := q +64 base_q in
        let rem := rem +64 base_r in
        if decide (rem >= ud) then if decide (q >= LLONG_MAX) then None else Some (q +64 1, rem -64 ud) else Some (q, rem)
    else Some (q, rem).

(** The loop from bit [n - 1] to bit 0. *)
Fixpoint md_loop (n : nat) (ub ud ua : Z) (st : Z * Z) : option (Z * Z) :=
  match n with
  | O => Some st
  | S n => st ← md_step ub ud ua st (Z.of_nat n); md_loop n ub ud ua st
  end.

Definition mvcc_mul_div_floor_nonneg (a b d : Z) : option Z :=
  if decide (a < 0 \/ b < 0 \/ d <= 0) then None else fst <$> md_loop 63 b d a (0, 0).

Definition mvcc_quote_for_quantity (qty price : Z) : option Z :=
  if decide (qty <= 0 \/ price <= 0) then None
  else out ← mvcc_mul_div_floor_nonneg qty price QRX_MVCC_TRADE_PRICE_SCALE; if decide (out <= 0) then None else Some out.

(** ** Keys *)

Definition mvcc_order_key (id f : bytes) : bytes := snprintf_s 1024 (cs "velocity:order:" ++ id ++ cs ":" ++ f).
Definition mvcc_trade_key (id f : bytes) : bytes := snprintf_s 1024 (cs "velocity:trade:" ++ id ++ cs ":" ++ f).
Definition mvcc_asset_key (asset owner : bytes) : bytes :=
  if decide (asset = cs "QUB") then snprintf_s 1024 (cs "acct:balance:" ++ owner)
  else snprintf_s 1024 (cs "velocity:asset:balance:" ++ asset ++ cs ":" ++ owner).

(** ** Reads and writes *)

Definition mvcc_local_get (key : bytes) (out_sz : nat) : M (option bytes) := fun look ws =>
  match kv_find (ws_writes ws) key with
  | Some v => (ws, Some (Some (snprintf_s out_sz v)))
  | None => snapshot_get key out_sz look ws
  end.
Definition mvcc_local_get_ll (key : bytes) (def : Z) : M Z :=
  found ← mvcc_local_get key 128;
  match found with None => mret def | Some b => mlift (strtoll_checked b) end.

Definition mvcc_order_get (id f : bytes) (out_sz : nat) : M (option bytes) := mvcc_local_get (mvcc_order_key id f) out_sz.
Definition mvcc_order_get_ll (id f : bytes) (def : Z) : M Z := mvcc_local_get_ll (mvcc_order_key id f) def.
Definition mvcc_order_put (id f v : bytes) : M unit := ws_put (mvcc_order_key id f) v.
Definition mvcc_order_put_ll (id f : bytes) (v : Z) : M unit := ws_put_ll (mvcc_order_key id f) v.
Definition mvcc_trade_put (id f v : bytes) : M unit := ws_put (mvcc_trade_key id f) v.
Definition mvcc_trade_put_ll (id f : bytes) (v : Z) : M unit := ws_put_ll (mvcc_trade_key id f) v.

Definition mvcc_asset_get_ll (asset owner : bytes) : M Z := mvcc_local_get_ll (mvcc_asset_key (mvcc_asset_normalize asset) owner) 0.
Definition mvcc_asset_put_ll (asset owner : bytes) (value : Z) : M unit :=
  mcheck (0 <= value);; ws_put_ll (mvcc_asset_key (mvcc_asset_normalize asset) owner) value.
Definition mvcc_asset_adjust (asset owner : bytes) (d : Z) : M unit :=
  cur ← mvcc_asset_get_ll asset owner;
  next ← mlift (add_ll cur d);
  mcheck (0 <= next);;
  mvcc_asset_put_ll asset owner next.

(** A change of the counters of the write set. *)
Definition ws_modify (f : QrxVelocityMvccWriteSet -> QrxVelocityMvccWriteSet) : M unit := fun _ ws => (f ws, Some tt).
Definition set_dynamic (ws : QrxVelocityMvccWriteSet) : QrxVelocityMvccWriteSet :=
  mkWs (ws_txid ws) (ws_plan_index ws) (ws_wave ws) (ws_status ws) (ws_fee_delta ws) 1 (ws_speculative ws) (ws_retried ws)
    (ws_conflict_loser ws) (ws_dynamic_scope ws) (ws_discovered_keys ws) (ws_dynamic_trades ws) (ws_expired_orders ws)
    (ws_writes ws) (ws_reads ws) (ws_read_prefixes ws).
Definition set_scope (market : bytes) (ws : QrxVelocityMvccWriteSet) : QrxVelocityMvccWriteSet :=
  mkWs (ws_txid ws) (ws_plan_index ws) (ws_wave ws) (ws_status ws) (ws_fee_delta ws) (ws_dynamic ws) (ws_speculative ws) (ws_retried ws)
    (ws_conflict_loser ws) (snprintf_s 512 market) (ws_discovered_keys ws) (ws_dynamic_trades ws) (ws_expired_orders ws)
    (ws_writes ws) (ws_reads ws) (ws_read_prefixes ws).
Definition count_dynamic (keys trades expired : Z) (ws : QrxVelocityMvccWriteSet) : QrxVelocityMvccWriteSet :=
  mkWs (ws_txid ws) (ws_plan_index ws) (ws_wave ws) (ws_status ws) (ws_fee_delta ws) (ws_dynamic ws) (ws_speculative ws) (ws_retried ws)
    (ws_conflict_loser ws) (ws_dynamic_scope ws) (ws_discovered_keys ws +64 keys) (ws_dynamic_trades ws +64 trades)
    (ws_expired_orders ws +64 expired) (ws_writes ws) (ws_reads ws) (ws_read_prefixes ws).
Definition ws_track_prefix (prefix : bytes) : M unit := fun _ ws =>
  match strset_add (ws_read_prefixes ws) prefix with
  | Some p => (mkWs (ws_txid ws) (ws_plan_index ws) (ws_wave ws) (ws_status ws) (ws_fee_delta ws) (ws_dynamic ws) (ws_speculative ws)
                (ws_retried ws) (ws_conflict_loser ws) (ws_dynamic_scope ws) (ws_discovered_keys ws) (ws_dynamic_trades ws)
                (ws_expired_orders ws) (ws_writes ws) (ws_reads ws) p, Some tt)
  | None => (ws, None)
  end.

Section orders.
Variable sha3_512 : bytes -> bytes.
(** The snapshot, the keys found below [velocity:order:], and the chain. *)
Variables (snap_root : bytes) (snap_generation : Z) (order_keys : list bytes) (block_time : Z).

Definition mvcc_sha3_512_hex (text : bytes) : bytes := hex (sha3_512 text).

(** ** Order ids *)

Definition order_prefix : bytes := cs "velocity:order:".

Definition mvcc_order_id_add (ids : list bytes) (id : bytes) : list bytes :=
  if decide (id = [] \/ (160 <= length id)%nat) then ids else if decide (id ∈ ids) then ids else ids ++ [id].

(** The callback, which is also the body of the loop over the overlay. *)
Definition mvcc_collect_order_key_cb (l : MvccOrderIdList) (key : bytes) : MvccOrderIdList :=
  if decide (take (length order_prefix) key <> order_prefix) then l
  else
    let scanned := oi_scanned_keys l +64 1 in
    let p := drop (length order_prefix) key in
    let id := take_while (fun c => bool_decide (c <> x3a)) p in
    if decide (drop (length id) p = cs ":owner") then mkIds (mvcc_order_id_add (oi_ids l) id) scanned
    else mkIds (oi_ids l) scanned.

Definition mvcc_collect_order_ids : M MvccOrderIdList :=
  ws_track_prefix order_prefix;;
  mret (foldl mvcc_collect_order_key_cb (mkIds [] 0) order_keys).

(** ** Agents *)

Definition mvcc_agent_usage_bucket (height : Z) : Z :=
  let blocks := (86400 + block_time - 1) ÷ block_time in
  let blocks := if decide (blocks <= 0) then 1 else blocks in
  let height := if decide (height < 0) then 0 else height in
  height ÷ blocks.

(** A key that must be there: [inl 1] when it is not. *)
Definition mvcc_required_ll (key : bytes) : M (Z + Z) :=
  found ← mvcc_local_get key 128;
  match found with None => mret (inl 1) | Some b => v ← mlift (strtoll_checked b); mret (inr v) end.

(** The checks that come before the limits; a field that is missing is the
    answer 1, and one that is wrong fails. *)
Fixpoint check_fields (agent : bytes) (checks : list (bytes * (bytes -> bool))) (rest : M Z) : M Z :=
  match checks with
  | [] => rest
  | (f, ok) :: checks =>
      found ← mvcc_local_get (snprintf_s 1200 (cs "velocity:agent:" ++ agent ++ cs ":" ++ f)) 4096;
      match found with
      | None => mret 1
      | Some v => mcheck (ok v = true);; check_fields agent checks rest
      end
  end.

Definition agent_ll (agent f : bytes) : M (Z + Z) := mvcc_required_ll (snprintf_s 1200 (cs "velocity:agent:" ++ agent ++ cs ":" ++ f)).

Definition mvcc_authorize_native_agent (agent owner market : bytes) (qty height : Z) (consume_usage : bool) : M Z :=
  check_fields agent
    [(cs "owner", fun v => bool_decide (v = owner)); (cs "status", fun v => bool_decide (v = cs "active"));
     (cs "permissions", fun v => mvcc_token_list_contains_ci v (cs "TRADE_NATIVE") || mvcc_token_list_contains_ci v (cs "TRADE"));
     (cs "market_allowlist", fun v => mvcc_token_list_contains_ci v market)]
    (expires ← agent_ll agent (cs "expires_height");
     match expires with
     | inl rr => mret rr
     | inr expires =>
         mcheck (0 < expires /\ height < expires);;
         if consume_usage then
           max_trade ← agent_ll agent (cs "max_trade_atoms");
           match max_trade with
           | inl rr => mret rr
           | inr max_trade =>
               daily ← agent_ll agent (cs "daily_limit_atoms");
               match daily with
               | inl rr => mret rr
               | inr daily =>
                   mcheck (0 < qty /\ 0 < max_trade /\ qty <= max_trade /\ 0 < daily);;
                   let usage_key := snprintf_s 1024 (cs "velocity:agent_usage:" ++ agent ++ cs ":" ++ print_d (mvcc_agent_usage_bucket height)) in
                   used ← mvcc_local_get_ll usage_key 0;
                   next ← mlift (add_ll used qty);
                   mcheck (next <= daily);;
                   ws_put_ll usage_key next;;
                   mret 0
               end
           end
         else mret 0
     end).

(** ** Orders *)

(** The fields that are copied from the payload when they are there. *)
Fixpoint copy_fields (id payload : bytes) (fields : list bytes) : M unit :=
  match fields with
  | [] => mret tt
  | f :: fields =>
      match payload_field_mvcc payload f 4096 with Some v => mvcc_order_put id f v | None => mret tt end;;
      copy_fields id payload fields
  end.

Definition mvcc_stage_order_payload (id agent owner payload body_hash replaces : bytes) (height : Z) : M unit :=
  let hb := snprintf_s 64 (print_d height) in
  mvcc_order_put id (cs "owner") owner;; mvcc_order_put id (cs "agent") agent;; mvcc_order_put id (cs "kind") (cs "native");;
  mvcc_order_put id (cs "status") (cs "open");; mvcc_order_put id (cs "created_height") hb;; mvcc_order_put id (cs "updated_height") hb;;
  mvcc_order_put id (cs "last_tx") body_hash;;
  (if decide (replaces <> []) then mvcc_order_put id (cs "replaces") replaces else mret tt);;
  copy_fields id payload [cs "market"; cs "side"; cs "order_type"; cs "quantity_atoms"; cs "limit_price_atoms"; cs "order_expires_height";
    cs "venue"; cs "client_order_id"];;
  v ← mlift (payload_field_mvcc payload (cs "quantity_atoms") 4096);
  qty ← mlift (parse_ll v true);
  mvcc_order_put_ll id (cs "filled_atoms") 0;;
  mvcc_order_put_ll id (cs "remaining_atoms") qty.

Definition mvcc_release_locked (id : bytes) : M unit :=
  asset ← mvcc_order_get id (cs "locked_asset") 64;
  owner ← mvcc_order_get id (cs "owner") 512;
  atoms ← mvcc_order_get_ll id (cs "locked_atoms") 0;
  match asset, owner with
  | Some asset, Some owner => if decide (0 < atoms) then mvcc_asset_adjust asset owner atoms else mret tt
  | _, _ => mret tt
  end;;
  mvcc_order_put_ll id (cs "locked_atoms") 0.

(** ** Matching *)

Definition mvcc_candidate_better (a b : MvccMatchOrder) (want_sells : bool) : bool :=
  if decide (mo_price a <> mo_price b) then
    if want_sells then bool_decide (mo_price a < mo_price b) else bool_decide (mo_price a > mo_price b)
  else if decide (mo_created_height a <> mo_created_height b) then bool_decide (mo_created_height a < mo_created_height b)
  else bool_decide (strcmp_le (mo_id a) (mo_id b) /\ mo_id a <> mo_id b).

(** The inner loop of the insertion sort, on the sorted part in reverse. *)
Fixpoint shift_in (want_sells : bool) (key : MvccMatchOrder) (l : list MvccMatchOrder) : list MvccMatchOrder :=
  match l with
  | x :: l' => if mvcc_candidate_better key x want_sells then x :: shift_in want_sells key l' else key :: l
  | [] => [key]
  end.
Definition sort_candidates (want_sells : bool) (l : list MvccMatchOrder) : list MvccMatchOrder :=
  reverse (foldl (fun sorted key => shift_in want_sells key sorted) [] l).

(** One order id: expired orders are closed on the way, and an open native
    order of the other side of the market and of another owner is a candidate. *)
Definition consider_id (taker_id market taker_side taker_owner : bytes) (height : Z) (out : list MvccMatchOrder) (id : bytes)
    : M (list MvccMatchOrder) :=
  if decide (id = taker_id) then mret out
  else
    kind ← mvcc_order_get id (cs "kind") 64;
    status ← mvcc_order_get id (cs "status") 64;
    if decide (kind <> Some (cs "native") \/ (status <> Some (cs "open") /\ status <> Some (cs "partially_filled"))) then mret out
    else
      exp ← mvcc_order_get_ll id (cs "order_expires_height") 0;
      if decide (0 < exp /\ exp <= height) then
        mvcc_release_locked id;;
        mvcc_order_put id (cs "status") (cs "expired");;
        mvcc_order_put_ll id (cs "updated_height") height;;
        ws_modify (count_dynamic 0 0 1);;
        mret out
      else
        omarket ← mvcc_order_get id (cs "market") 512;
        side ← mvcc_order_get id (cs "side") 32;
        sv ← mvcc_order_get id (cs "settlement_version") 32;
        owner ← mvcc_order_get id (cs "owner") 512;
        match omarket, side, sv, owner with
        | Some omarket, Some side, Some sv, Some owner =>
            if decide (mvcc_ieq omarket market = false \/ mvcc_ieq side taker_side = true \/ sv <> cs "1" \/ owner = taker_owner) then mret out
            else
              price ← mvcc_order_get_ll id (cs "limit_price_atoms") 0;
              remaining ← mvcc_order_get_ll id (cs "remaining_atoms") 0;
              created ← mvcc_order_get_ll id (cs "created_height") 0;
              mret (out ++ [mkMatch (snprintf_s 160 id) (snprintf_s 512 owner) (snprintf_s 16 side) price remaining created])
        | _, _, _, _ => mret out
        end.

Fixpoint consider_ids (taker_id market taker_side taker_owner : bytes) (height : Z) (out : list MvccMatchOrder) (ids : list bytes)
    : M (list MvccMatchOrder) :=
  match ids with
  | [] => mret out
  | id :: ids =>
      out ← consider_id taker_id market taker_side taker_owner height out id;
      consider_ids taker_id market taker_side taker_owner height out ids
  end.

Definition mvcc_collect_candidates (taker_id market taker_side : bytes) (height : Z) : M (list MvccMatchOrder) :=
  found ← mvcc_order_get taker_id (cs "owner") 512;
  taker_owner ← mlift found;
  ids ← mvcc_collect_order_ids;
  ws_modify (count_dynamic (oi_scanned_keys ids) 0 0);;
  out ← consider_ids taker_id market taker_side taker_owner height [] (oi_ids ids);
  mret (sort_candidates (mvcc_ieq taker_side (cs "BUY")) out).

(** [ws_put_ll] writes this. *)
Definition ll (v : Z) : bytes := snprintf_s 64 (print_d v).

(** The new numbers of an order: filled, remaining and locked. *)
Definition match_fields (filled remaining locked height : Z) (trade_id : bytes) : list (bytes * bytes) :=
  [(cs "filled_atoms", ll filled); (cs "remaining_atoms", ll remaining); (cs "locked_atoms", ll locked); (cs "updated_height", ll height);
   (cs "status", if decide (remaining = 0) then cs "filled" else cs "partially_filled"); (cs "last_trade_id", trade_id)].
Definition put_match (id : bytes) (filled remaining locked height : Z) (trade_id : bytes) : M unit :=
  put_fields (mvcc_order_key id) (match_fields filled remaining locked height trade_id).

Definition bar (s : bytes) : bytes := cs "|" ++ s.
Definition field_line (k v : bytes) : bytes := k ++ cs "=" ++ v ++ [x0a].

Definition trade_material (market maker_id taker_id : bytes) (seq qty price : Z) : bytes :=
  snprintf_s 2048 (cs "QRX-TRADE-V1" ++ bar market ++ bar maker_id ++ bar taker_id ++ bar (print_d seq) ++ bar (print_d qty) ++ bar (print_d price)).
Definition settlement_value (market maker_id taker_id : bytes) (qty price quote_amt height seq : Z) : bytes :=
  snprintf_s 1400 (field_line (cs "version") (cs "1") ++ field_line (cs "market") market ++ field_line (cs "maker") maker_id
    ++ field_line (cs "taker") taker_id ++ field_line (cs "quantity_atoms") (print_d qty) ++ field_line (cs "price_atoms") (print_d price)
    ++ field_line (cs "quote_atoms") (print_d quote_amt) ++ field_line (cs "height") (print_d height) ++ field_line (cs "sequence") (print_d seq)
    ++ field_line (cs "pre_state_root") (hex snap_root) ++ field_line (cs "mvcc_snapshot_generation") (print_u snap_generation)).

(** The record of a trade. *)
Definition put_trade (market maker_id taker_id buyer seller trade_id : bytes) (qty price quote_amt height seq : Z) : M unit :=
  put_fields (mvcc_trade_key trade_id)
    [(cs "market", market); (cs "maker_order_id", maker_id); (cs "taker_order_id", taker_id); (cs "buyer", buyer); (cs "seller", seller);
     (cs "quantity_atoms", ll qty); (cs "price_atoms", ll price); (cs "quote_atoms", ll quote_amt); (cs "height", ll height);
     (cs "sequence", ll seq)];;
  ws_put_ll (cs "velocity:trade_sequence:global") seq;;
  ws_put (snprintf_s 1024 (cs "velocity:settlement:" ++ trade_id)) (settlement_value market maker_id taker_id qty price quote_amt height seq).

Definition mvcc_settle_match (market maker_id taker_id : bytes) (qty price height : Z) : M unit :=
  found ← mvcc_order_get maker_id (cs "side") 32;
  maker_side ← mlift found;
  let buyer_id := if mvcc_ieq maker_side (cs "BUY") then maker_id else taker_id in
  let seller_id := if mvcc_ieq maker_side (cs "SELL") then maker_id else taker_id in
  found ← mvcc_order_get buyer_id (cs "owner") 512;
  found' ← mvcc_order_get seller_id (cs "owner") 512;
  buyer ← mlift found;
  seller ← mlift found';
  mcheck (buyer <> seller);;
  '(base, quote_asset) ← mlift (mvcc_parse_market market);
  quote_amt ← mlift (mvcc_quote_for_quantity qty price);
  buyer_lock ← mvcc_order_get_ll buyer_id (cs "locked_atoms") 0;
  seller_lock ← mvcc_order_get_ll seller_id (cs "locked_atoms") 0;
  buyer_rem_before ← mvcc_order_get_ll buyer_id (cs "remaining_atoms") 0;
  seller_rem_before ← mvcc_order_get_ll seller_id (cs "remaining_atoms") 0;
  buyer_filled_before ← mvcc_order_get_ll buyer_id (cs "filled_atoms") 0;
  seller_filled_before ← mvcc_order_get_ll seller_id (cs "filled_atoms") 0;
  buyer_limit ← mvcc_order_get_ll buyer_id (cs "limit_price_atoms") 0;
  mcheck (0 < qty /\ qty <= buyer_rem_before /\ qty <= seller_rem_before /\ quote_amt <= buyer_lock /\ qty <= seller_lock);;
  let buyer_rem := buyer_rem_before - qty in
  let seller_rem := seller_rem_before - qty in
  buyer_filled ← mlift (add_ll buyer_filled_before qty);
  seller_filled ← mlift (add_ll seller_filled_before qty);
  let buyer_left := buyer_lock - quote_amt in
  let seller_left := seller_lock - qty in
  buyer_needed ← mlift (if decide (0 < buyer_rem) then mvcc_quote_for_quantity buyer_rem buyer_limit else Some 0);
  mcheck (buyer_needed <= buyer_left /\ seller_rem <= seller_left);;
  let buyer_refund := buyer_left - buyer_needed in
  let seller_refund := seller_left - seller_rem in
  buyer_base ← mvcc_asset_get_ll base buyer;
  seller_quote ← mvcc_asset_get_ll quote_asset seller;
  buyer_quote ← mvcc_asset_get_ll quote_asset buyer;
  seller_base ← mvcc_asset_get_ll base seller;
  buyer_base_new ← mlift (add_ll buyer_base qty);
  seller_quote_new ← mlift (add_ll seller_quote quote_amt);
  buyer_quote_new ← mlift (add_ll buyer_quote buyer_refund);
  seller_base_new ← mlift (add_ll seller_base seller_refund);
  seq ← mvcc_local_get_ll (cs "velocity:trade_sequence:global") 0;
  mcheck (seq <> LLONG_MAX);;
  let seq := seq + 1 in
  let trade_id := mvcc_sha3_512_hex (trade_material market maker_id taker_id seq qty price) in
  mvcc_asset_put_ll base buyer buyer_base_new;; mvcc_asset_put_ll quote_asset seller seller_quote_new;;
  mvcc_asset_put_ll quote_asset buyer buyer_quote_new;; mvcc_asset_put_ll base seller seller_base_new;;
  put_match buyer_id buyer_filled buyer_rem buyer_needed height trade_id;;
  put_match seller_id seller_filled seller_rem seller_rem height trade_id;;
  put_trade market maker_id taker_id buyer seller trade_id qty price quote_amt height seq;;
  ws_modify (count_dynamic 0 1 0).

(** The loop over the candidates, which ends when nothing remains or the next
    price does not cross. *)
Fixpoint match_loop (market side taker_id : bytes) (taker_price height : Z) (arr : list MvccMatchOrder) : M unit :=
  match arr with
  | [] => mret tt
  | m :: arr =>
      trem ← mvcc_order_get_ll taker_id (cs "remaining_atoms") 0;
      mrem ← mvcc_order_get_ll (mo_id m) (cs "remaining_atoms") 0;
      if decide (trem <= 0) then mret tt
      else if decide (mrem <= 0) then match_loop market side taker_id taker_price height arr
      else if (if mvcc_ieq side (cs "BUY") then bool_decide (mo_price m <= taker_price) else bool_decide (mo_price m >= taker_price)) then
        mvcc_settle_match market (mo_id m) taker_id (if decide (trem < mrem) then trem else mrem) (mo_price m) height;;
        match_loop market side taker_id taker_price height arr
      else mret tt
  end.

Definition mvcc_match_taker (taker_id : bytes) (height : Z) : M unit :=
  found ← mvcc_order_get taker_id (cs "market") 512;
  found' ← mvcc_order_get taker_id (cs "side") 32;
  market ← mlift found;
  side ← mlift found';
  taker_price ← mvcc_order_get_ll taker_id (cs "limit_price_atoms") 0;
  mcheck (0 < taker_price);;
  arr ← mvcc_collect_candidates taker_id market side height;
  match_loop market side taker_id taker_price height arr;;
  ws_put (snprintf_s 1024 (cs "velocity:match_pending:" ++ taker_id)) (cs "0").

(** ** Transactions *)

Definition live_status (status : option bytes) : Prop := status = Some (cs "open") \/ status = Some (cs "partially_filled").
#[export] Instance live_status_dec status : Decision (live_status status).
Proof. unfold live_status. apply _. Defined.

Definition order_cancel (agent owner payload body_hash : bytes) (height : Z) : M Z :=
  target ← mlift (payload_field_mvcc payload (cs "order_id") 160);
  kind ← mvcc_order_get target (cs "kind") 64;
  if decide (kind <> Some (cs "native")) then mret QRX_MVCC_BARRIER
  else
    status ← mvcc_order_get target (cs "status") 64;
    old_agent ← mvcc_order_get target (cs "agent") 512;
    old_owner ← mvcc_order_get target (cs "owner") 512;
    market ← mvcc_order_get target (cs "market") 512;
    market ← mlift market;
    mcheck (old_agent = Some agent /\ old_owner = Some owner /\ live_status status);;
    ws_modify (set_scope market);;
    auth ← mvcc_authorize_native_agent agent owner market 0 height false;
    if decide (auth = 1) then mret QRX_MVCC_BARRIER
    else
      mcheck (auth = 0);;
      mvcc_release_locked target;;
      mvcc_order_put target (cs "status") (cs "canceled");;
      mvcc_order_put_ll target (cs "updated_height") height;;
      mvcc_order_put target (cs "last_tx") body_hash;;
      mret QRX_MVCC_OK.

(** The asset and the atoms that an order locks. *)
Definition to_lock (side base quote : bytes) (qty price : Z) : option (bytes * Z) :=
  if mvcc_ieq side (cs "SELL") then Some (base, qty)
  else atoms ← mvcc_quote_for_quantity qty price; Some (quote, atoms).

(** The new order, with what is locked for it, is matched. *)
Definition place_order (agent owner payload body_hash replaces asset : bytes) (atoms height : Z) : M unit :=
  mvcc_stage_order_payload body_hash agent owner payload body_hash replaces height;;
  mvcc_order_put body_hash (cs "locked_asset") asset;;
  mvcc_order_put_ll body_hash (cs "locked_atoms") atoms;;
  mvcc_order_put body_hash (cs "settlement_version") (cs "1");;
  mvcc_match_taker body_hash height.

Definition order_replace (agent owner payload body_hash side base quote : bytes) (qty price height : Z) : M Z :=
  target ← mlift (payload_field_mvcc payload (cs "order_id") 160);
  kind ← mvcc_order_get target (cs "kind") 64;
  status ← mvcc_order_get target (cs "status") 64;
  old_agent ← mvcc_order_get target (cs "agent") 512;
  old_owner ← mvcc_order_get target (cs "owner") 512;
  mcheck (kind = Some (cs "native") /\ old_agent = Some agent /\ old_owner = Some owner /\ live_status status);;
  old_asset ← mvcc_order_get target (cs "locked_asset") 64;
  old_atoms ← mvcc_order_get_ll target (cs "locked_atoms") 0;
  '(new_asset, new_atoms) ← mlift (to_lock side base quote qty price);
  let take_from (extra : Z) :=
    cur ← mvcc_asset_get_ll new_asset owner;
    avail ← mlift (add_ll cur extra);
    mcheck (new_atoms <= avail);;
    mvcc_asset_put_ll new_asset owner (avail - new_atoms) in
  match old_asset with
  | Some old =>
      if mvcc_ieq old new_asset then take_from old_atoms
      else (if decide (0 < old_atoms) then mvcc_asset_adjust old owner old_atoms else mret tt);; take_from 0
  | None => take_from 0
  end;;
  mvcc_order_put target (cs "status") (cs "replaced");;
  mvcc_order_put_ll target (cs "updated_height") height;;
  mvcc_order_put_ll target (cs "locked_atoms") 0;;
  mvcc_order_put target (cs "replacement_order_id") body_hash;;
  mvcc_order_put target (cs "last_tx") body_hash;;
  place_order agent owner payload body_hash target new_asset new_atoms height;;
  mret QRX_MVCC_OK.

Definition order_create (agent owner payload body_hash side base quote : bytes) (qty price height : Z) : M Z :=
  found ← mvcc_order_get body_hash (cs "owner") 32;
  mcheck (found = None);;
  '(asset, lock) ← mlift (to_lock side base quote qty price);
  cur ← mvcc_asset_get_ll asset owner;
  mcheck (lock <= cur);;
  mvcc_asset_put_ll asset owner (cur - lock);;
  place_order agent owner payload body_hash [] asset lock height;;
  mret QRX_MVCC_OK.

Definition dynamic_body (tx : bytes) (plan_index height : Z) : M Z :=
  '(type, agent, owner, payload, body_hash) ← prepare_common_nontransfer tx plan_index height;
  ws_modify set_dynamic;;
  if decide (type <> cs "ORDER_CREATE" /\ type <> cs "ORDER_CANCEL" /\ type <> cs "ORDER_REPLACE") then mret QRX_MVCC_UNSUPPORTED
  else if decide (type = cs "ORDER_CANCEL") then order_cancel agent owner payload body_hash height
  else
    market ← mlift (payload_field_mvcc payload (cs "market") 512);
    side ← mlift (payload_field_mvcc payload (cs "side") 32);
    _ ← mlift (payload_field_mvcc payload (cs "order_type") 32);
    qtys ← mlift (payload_field_mvcc payload (cs "quantity_atoms") 64);
    prices ← mlift (payload_field_mvcc payload (cs "limit_price_atoms") 64);
    exps ← mlift (payload_field_mvcc payload (cs "order_expires_height") 64);
    qty ← mlift (parse_ll qtys true);
    price ← mlift (parse_ll prices true);
    exp ← mlift (parse_ll exps true);
    mcheck (height < exp /\ (mvcc_ieq side (cs "BUY") = true \/ mvcc_ieq side (cs "SELL") = true));;
    '(base, quote) ← mlift (mvcc_parse_market market);
    ws_modify (set_scope market);;
    auth ← mvcc_authorize_native_agent agent owner market qty height true;
    if decide (auth = 1) then mret QRX_MVCC_BARRIER
    else
      mcheck (auth = 0);;
      if decide (type = cs "ORDER_REPLACE") then order_replace agent owner payload body_hash side base quote qty price height
      else order_create agent owner payload body_hash side base quote qty price height.

Definition mvcc_prepare_native_dynamic : adapter := run_adapter dynamic_body.
End orders.
