(* ===== verification/MvccBatch.v ===== *)
(** * VELOCITY execution: batches
      (src/qrx-core/src/mempool/qrx_velocity_mvcc.c, .h)

    The waves of a plan are executed speculatively by parallel workers on the
    state before the wave; the results are then taken in order, and those that
    an earlier one invalidates are executed again.  The writes of all waves are
    committed as one batch of the database.

    The statistics, which repeat the counters, and the clock are left out. *)

From stdpp Require Import gmap sorting.
From S2P Require Import Prelude Format DbStore DbWal Scheduler Mempool Mvcc MvccOrders.

Record QrxVelocityMvccPrepared := mkPrepared {
  snapshot : QrxDBReadTxn;
  sets : list QrxVelocityMvccWriteSet;
  merged : list QrxVelocityMvccKV;
  fee_delta_total : Z;
  prep_waves : Z;
  prep_workers : Z;
  prepared : Z;
  unsupported : Z;
  barriers : Z;
  stateful_prepared : Z;
  dynamic_prepared : Z;
  dynamic_discovered_keys : Z;
  dynamic_trades : Z;
  expired_orders : Z;
  failed : Z;
  conflict_rechecks : Z;
  speculative_prepared : Z;
  runtime_read_keys : Z;
  runtime_read_prefixes : Z;
  conflict_edges : Z;
  deterministic_conflicts : Z;
  selective_retries : Z;
  speculative_winners : Z
}.

(** ** Updates of the record *)

Definition set_sets (o : QrxVelocityMvccPrepared) (l : list QrxVelocityMvccWriteSet) : QrxVelocityMvccPrepared :=
  mkPrepared (snapshot o) l (merged o) (fee_delta_total o) (prep_waves o) (prep_workers o) (prepared o) (unsupported o) (barriers o)
    (stateful_prepared o) (dynamic_prepared o) (dynamic_discovered_keys o) (dynamic_trades o) (expired_orders o) (failed o)
    (conflict_rechecks o) (speculative_prepared o) (runtime_read_keys o) (runtime_read_prefixes o) (conflict_edges o)
    (deterministic_conflicts o) (selective_retries o) (speculative_winners o).
Definition set_merged (o : QrxVelocityMvccPrepared) (m : list QrxVelocityMvccKV) : QrxVelocityMvccPrepared :=
  mkPrepared (snapshot o) (sets o) m (fee_delta_total o) (prep_waves o) (prep_workers o) (prepared o) (unsupported o) (barriers o)
    (stateful_prepared o) (dynamic_prepared o) (dynamic_discovered_keys o) (dynamic_trades o) (expired_orders o) (failed o)
    (conflict_rechecks o) (speculative_prepared o) (runtime_read_keys o) (runtime_read_prefixes o) (conflict_edges o)
    (deterministic_conflicts o) (selective_retries o) (speculative_winners o).
(** The counters that [resolve_wave] adds to when it looks at a result. *)
Definition count_reads (o : QrxVelocityMvccPrepared) (ws : QrxVelocityMvccWriteSet) (speculative : Z) : QrxVelocityMvccPrepared :=
  mkPrepared (snapshot o) (sets o) (merged o) (fee_delta_total o) (prep_waves o) (prep_workers o) (prepared o) (unsupported o) (barriers o)
    (stateful_prepared o) (dynamic_prepared o) (dynamic_discovered_keys o) (dynamic_trades o) (expired_orders o) (failed o)
    (conflict_rechecks o) (speculative_prepared o +64 speculative) (runtime_read_keys o +64 blen (ws_reads ws))
    (runtime_read_prefixes o +64 blen (ws_read_prefixes ws)) (conflict_edges o)
    (deterministic_conflicts o) (selective_retries o) (speculative_winners o).
Definition count_skip (o : QrxVelocityMvccPrepared) (u b : Z) : QrxVelocityMvccPrepared :=
  mkPrepared (snapshot o) (sets o) (merged o) (fee_delta_total o) (prep_waves o) (prep_workers o) (prepared o) (unsupported o +64 u)
    (barriers o +64 b)
    (stateful_prepared o) (dynamic_prepared o) (dynamic_discovered_keys o) (dynamic_trades o) (expired_orders o) (failed o)
    (conflict_rechecks o) (speculative_prepared o) (runtime_read_keys o) (runtime_read_prefixes o) (conflict_edges o)
    (deterministic_conflicts o) (selective_retries o) (speculative_winners o).
Definition count_conflicts (o : QrxVelocityMvccPrepared) (edges conflicts winners : Z) : QrxVelocityMvccPrepared :=
  mkPrepared (snapshot o) (sets o) (merged o) (fee_delta_total o) (prep_waves o) (prep_workers o) (prepared o) (unsupported o) (barriers o)
    (stateful_prepared o) (dynamic_prepared o) (dynamic_discovered_keys o) (dynamic_trades o) (expired_orders o) (failed o)
    (conflict_rechecks o) (speculative_prepared o) (runtime_read_keys o) (runtime_read_prefixes o) (conflict_edges o +64 edges)
    (deterministic_conflicts o +64 conflicts) (selective_retries o +64 conflicts) (speculative_winners o +64 winners).

(** ** Workers *)

Section batch.
(** The adapter of order transactions at a snapshot and an overlay. *)
Variable mvcc_prepare_native_dynamic : QrxDBReadTxn -> list QrxVelocityMvccKV -> adapter.
Variables (db : QrxDB) (plan : QrxVelocityPlan) (valid_mask : option (list Z)) (height : Z).

(** The lookup function: the overlay, then the snapshot, as strings. *)
Definition look_at (snap : QrxDBReadTxn) (overlay : list QrxVelocityMvccKV) (key : bytes) : option bytes :=
  match kv_find overlay key with
  | Some ov => Some ov
  | None => (fun v => cstr (vw_value v)) <$> qrxdb_get_view_at db (Some snap) key
  end.

Definition prepare_at (snap : QrxDBReadTxn) (overlay : list QrxVelocityMvccKV) (wave : Z) (i : nat) : Z * QrxVelocityMvccWriteSet :=
  prepare_phase4c_tx (mvcc_prepare_native_dynamic snap overlay) (look_at snap overlay)
    (default [] (txs plan !! i)) (default [] (txids plan !! i)) (Z.of_nat i) wave height.

Definition is_valid (i : nat) : bool :=
  match valid_mask with Some m => bool_decide (default 0 (m !! i) <> 0) | None => true end.

(** What a worker leaves in the set of the index it took. *)
Definition prep_one (snap : QrxDBReadTxn) (overlay : list QrxVelocityMvccKV) (wave speculative : Z) (i : nat)
    (ws : QrxVelocityMvccWriteSet) : QrxVelocityMvccWriteSet :=
  if is_valid i then
    let ws := snd (prepare_at snap overlay wave i) in set_flags ws speculative (ws_retried ws) (ws_conflict_loser ws)
  else set_status ws QRX_MVCC_ERROR.

Inductive prep_state := PTake | PPrepare (i : nat) | PDone.

Record PrepWork := mkPrepWork { pw_sets : list QrxVelocityMvccWriteSet; pw_next : nat; pw_workers : list prep_state }.

(** The steps of the workers: [prep_take] under the lock, then the work. *)
Inductive prep_step (snap : QrxDBReadTxn) (overlay : list QrxVelocityMvccKV) (wave speculative : Z) (indices : list nat) :
    PrepWork -> PrepWork -> Prop :=
| ps_take w k i : pw_workers w !! k = Some PTake -> indices !! pw_next w = Some i ->
    prep_step snap overlay wave speculative indices w (mkPrepWork (pw_sets w) (S (pw_next w)) (<[k := PPrepare i]> (pw_workers w)))
| ps_stop w k : pw_workers w !! k = Some PTake -> indices !! pw_next w = None ->
    prep_step snap overlay wave speculative indices w (mkPrepWork (pw_sets w) (S (pw_next w)) (<[k := PDone]> (pw_workers w)))
| ps_prepare w k i : pw_workers w !! k = Some (PPrepare i) ->
    prep_step snap overlay wave speculative indices w
      (mkPrepWork (alter (prep_one snap overlay wave speculative i) i (pw_sets w)) (pw_next w) (<[k := PTake]> (pw_workers w))).

(** The number of workers of a wave. *)
Definition wave_workers (workers : Z) (cnt : Z) : Z :=
  let wc := if decide (workers > cnt) then cnt else workers in if decide (wc < 1) then 1 else wc.

(** The sets when all workers are done. *)
Definition speculate (snap : QrxDBReadTxn) (overlay : list QrxVelocityMvccKV) (wave speculative : Z) (indices : list nat)
    (sets : list QrxVelocityMvccWriteSet) : list QrxVelocityMvccWriteSet :=
  foldl (fun sets i => alter (prep_one snap overlay wave speculative i) i sets) sets indices.

(** ** Resolution *)

Definition ws_runtime_conflict (current prior : QrxVelocityMvccWriteSet) : bool :=
  existsb (fun r => existsb (fun w : QrxVelocityMvccKV => bool_decide (r = fst w)) (ws_writes prior)) (ws_reads current)
  || existsb (fun p => existsb (fun w : QrxVelocityMvccKV => key_has_prefix (fst w) p
       && negb (bool_decide (p = cs "velocity:order:") && bool_decide (ws_dynamic_scope current <> [])
                && bool_decide (ws_dynamic_scope prior <> []) && negb (mvcc_ieq (ws_dynamic_scope current) (ws_dynamic_scope prior))))
       (ws_writes prior)) (ws_read_prefixes current)
  || existsb (fun a : QrxVelocityMvccKV => existsb (fun b : QrxVelocityMvccKV => bool_decide (fst a = fst b)) (ws_writes prior)) (ws_writes current).

Definition set_all (arr : list QrxVelocityMvccKV) (writes : list QrxVelocityMvccKV) : list QrxVelocityMvccKV :=
  foldl (fun arr kv => kv_set arr (fst kv) (snd kv)) arr writes.

Definition merge_final_ws (o : QrxVelocityMvccPrepared) (i : nat) (ws : QrxVelocityMvccWriteSet) : option QrxVelocityMvccPrepared :=
  total ← add_ll (fee_delta_total o) (ws_fee_delta ws);
  let dyn := bool_decide (ws_dynamic ws <> 0) in
  let stateful := bool_decide (default [] (field (default [] (txs plan !! i)) (cs "tx_type") 64) <> cs "TRANSFER_FAST") in
  Some (mkPrepared (snapshot o) (sets o) (set_all (merged o) (ws_writes ws)) total (prep_waves o) (prep_workers o) (prepared o +64 1)
    (unsupported o) (barriers o)
    (if negb dyn && stateful then stateful_prepared o +64 1 else stateful_prepared o)
    (if dyn then dynamic_prepared o +64 1 else dynamic_prepared o)
    (if dyn then dynamic_discovered_keys o +64 ws_discovered_keys ws else dynamic_discovered_keys o)
    (if dyn then dynamic_trades o +64 ws_dynamic_trades ws else dynamic_trades o)
    (if dyn then expired_orders o +64 ws_expired_orders ws else expired_orders o) (failed o)
    (conflict_rechecks o) (speculative_prepared o) (runtime_read_keys o) (runtime_read_prefixes o) (conflict_edges o)
    (deterministic_conflicts o) (selective_retries o) (speculative_winners o)).

Definition get_set (o : QrxVelocityMvccPrepared) (i : nat) : QrxVelocityMvccWriteSet := default ws_zero (sets o !! i).

(** One result of the wave; the accepted indices grow when it is merged, and
    [None] is the error return, after which nothing of the batch is kept. *)
Definition resolve_one (wave : Z) (st : QrxVelocityMvccPrepared * list nat) (i : nat) : option (QrxVelocityMvccPrepared * list nat) :=
  let '(o, accepted) := st in
  let ws := get_set o i in
  let o := count_reads o ws (if decide (ws_speculative ws <> 0) then 1 else 0) in
  if decide (ws_status ws = QRX_MVCC_UNSUPPORTED) then Some (count_skip o 1 0, accepted)
  else if decide (ws_status ws = QRX_MVCC_BARRIER) then Some (count_skip o 0 1, accepted)
  else if decide (ws_status ws <> QRX_MVCC_OK) then None
  else
    let edges := blen (List.filter (fun a => ws_runtime_conflict ws (get_set o a)) accepted) in
    if decide (edges <> 0) then
      let o := count_conflicts o edges 1 0 in
      let '(rc, ws) := prepare_at (snapshot o) (merged o) wave i in
      let ws := set_flags ws 1 1 1 in
      let o := count_reads (set_sets o (<[i := ws]> (sets o))) ws 0 in
      let rc := if is_valid i then rc else QRX_MVCC_ERROR in
      if decide (rc = QRX_MVCC_UNSUPPORTED \/ ws_status ws = QRX_MVCC_UNSUPPORTED) then Some (count_skip o 1 0, accepted)
      else if decide (rc = QRX_MVCC_BARRIER \/ ws_status ws = QRX_MVCC_BARRIER) then Some (count_skip o 0 1, accepted)
      else if decide (rc <> QRX_MVCC_OK \/ ws_status ws <> QRX_MVCC_OK) then None
      else o ← merge_final_ws o i ws; Some (o, accepted ++ [i])
    else
      let o := if decide (ws_speculative ws <> 0) then count_conflicts o 0 0 1 else o in
      o ← merge_final_ws o i ws; Some (o, accepted ++ [i]).

Definition resolve_wave (wave : Z) (o : QrxVelocityMvccPrepared) (indices : list nat) : option QrxVelocityMvccPrepared :=
  fst <$> foldl (fun st i => st ← st; resolve_one wave st i) (Some (o, [])) indices.

(** ** The batch *)

Definition wave_indices (wave : Z) : list nat :=
  filter (fun i => plan_waves plan !! i = Some wave) (seq 0 (Z.to_nat (count plan))).

Definition one_wave (o : QrxVelocityMvccPrepared) (wave : nat) : option QrxVelocityMvccPrepared :=
  let indices := wave_indices (Z.of_nat wave) in
  if decide (indices = []) then Some o
  else
    let speculative := if decide (blen indices > 1) then 1 else 0 in
    resolve_wave (Z.of_nat wave)
      (set_sets o (speculate (snapshot o) (merged o) (Z.of_nat wave) speculative indices (sets o))) indices.

Definition prepared_new (workers : Z) : QrxVelocityMvccPrepared :=
  let workers := if decide (workers < 1) then 1 else workers in
  let workers := if decide (workers > 64) then 64 else workers in
  mkPrepared (qrxdb_read_txn_begin db) (replicate (Z.to_nat (count plan)) ws_zero) [] 0 (plan_wave_count plan) workers
    0 0 0 0 0 0 0 0 0 0 0 0 0 0 0 0 0.

(** The waves in order. *)
Definition run_waves (workers : Z) : option QrxVelocityMvccPrepared :=
  foldl (fun o wave => o ← o; one_wave o wave) (Some (prepared_new workers)) (seq 0 (Z.to_nat (plan_wave_count plan))).

Definition fee_pool_key : bytes := cs "consensus:fee_pool:pending".

(** The fees go to the pool. *)
Definition add_fees (o : QrxVelocityMvccPrepared) : option QrxVelocityMvccPrepared :=
  if decide (fee_delta_total o = 0) then Some o
  else
    fee_base ← match look_at (snapshot o) (merged o) fee_pool_key with
               | None => Some 0
               | Some v => strtoll_checked (snprintf_s 128 v)
               end;
    fee_new ← add_ll fee_base (fee_delta_total o);
    Some (set_merged o (kv_set (merged o) fee_pool_key (snprintf_s 64 (print_d fee_new)))).

(** The code, and the prepared batch unless it was freed. *)
Definition qrx_velocity_mvcc_prepare_batch (workers : Z) : Z * option QrxVelocityMvccPrepared :=
  match o ← run_waves workers; add_fees o with
  | None => (QRX_MVCC_ERROR, None)
  | Some o =>
      (if decide (failed o <> 0) then QRX_MVCC_ERROR
       else if decide (barriers o <> 0) then QRX_MVCC_BARRIER
       else if decide (unsupported o <> 0) then QRX_MVCC_UNSUPPORTED
       else QRX_MVCC_OK, Some o)
  end.
End batch.

(** ** Commit *)

(** [cmp_kv] *)
Definition cmp_mvcc_kv (a b : QrxVelocityMvccKV) : Prop := cmp_key (fst a) (fst b) <= 0.
#[export] Instance cmp_mvcc_kv_dec : RelDecision cmp_mvcc_kv.
Proof. intros a b. unfold cmp_mvcc_kv. apply _. Defined.

Section commit.
Variable sha3_512 : bytes -> bytes.
(** [block_time_seconds] of [chain.conf], 10 without it. *)
Variable block_time : Z.

(** The keys that [mvcc_collect_order_ids] sees: those of the snapshot in
    order, then those of the overlay. *)
Definition order_keys (db : QrxDB) (snap : QrxDBReadTxn) (overlay : list QrxVelocityMvccKV) : list bytes :=
  (qrxdb_scan_prefix_at (fun keys k _ => (keys ++ [cstr k], 0)) db snap order_prefix []).1 ++ (fst <$> overlay).
Definition order_adapter (db : QrxDB) (snap : QrxDBReadTxn) (overlay : list QrxVelocityMvccKV) : adapter :=
  mvcc_prepare_native_dynamic sha3_512 (tx_merkle_root snap) (tx_generation snap) (order_keys db snap overlay) block_time.

Definition qrx_velocity_mvcc_commit (db : QrxDB) (o : QrxVelocityMvccPrepared) : QrxDB * Z :=
  if decide (generation db <> tx_generation (snapshot o)) then (db, QRX_MVCC_RETRY)
  else if decide (merged o = []) then (db, QRX_MVCC_OK)
  else
    match qrxdb_batch_begin db with
    | None => (db, QRX_MVCC_ERROR)
    | Some b =>
        match foldl (fun ob kv => b ← ob; qrxdb_batch_put b (fst kv) (snd kv)) (Some b) (merge_sort cmp_mvcc_kv (merged o)) with
        | None => (db, QRX_MVCC_ERROR)
        | Some b =>
            let '(db, rc) := qrxdb_batch_commit sha3_512 db b in
            (db, if decide (rc <> 0) then QRX_MVCC_ERROR else QRX_MVCC_OK)
        end
    end.

Definition qrx_velocity_mvcc_execute_batch (db : QrxDB) (plan : QrxVelocityPlan)
    (valid_mask : option (list Z)) (workers height : Z) : QrxDB * Z :=
  match qrx_velocity_mvcc_prepare_batch (order_adapter db) db plan valid_mask height workers with
  | (rc, Some o) => if decide (rc = QRX_MVCC_OK) then qrx_velocity_mvcc_commit db o else (db, rc)
  | (rc, None) => (db, rc)
  end.

Definition qrx_velocity_mvcc_prepare_transfer_batch (db : QrxDB) (plan : QrxVelocityPlan)
    (valid_mask : option (list Z)) (workers height : Z) : Z * option QrxVelocityMvccPrepared :=
  let '(rc, o) := qrx_velocity_mvcc_prepare_batch (order_adapter db) db plan valid_mask height workers in
  (if decide (rc = QRX_MVCC_BARRIER) then QRX_MVCC_UNSUPPORTED else rc, o).

Definition qrx_velocity_mvcc_execute_transfer_batch (db : QrxDB) (plan : QrxVelocityPlan)
    (valid_mask : option (list Z)) (workers height : Z) : QrxDB * Z :=
  let '(db, rc) := qrx_velocity_mvcc_execute_batch db plan valid_mask workers height in
  (db, if decide (rc = QRX_MVCC_BARRIER) then QRX_MVCC_UNSUPPORTED else rc).
End commit.
