(* ===== verification/MvccWorkers.v ===== *)
(** * VELOCITY execution: the workers of a wave, and what an adapter reads

    Whatever the interleaving of the threads of [prep_worker], the wave ends,
    and the write sets are those of [speculate].  [Framed]: the result of a
    computation is determined by the values of the keys it records as read.  The
    adapters are framed by construction. *)

From stdpp Require Import gmap sorting.
From S2P Require Import Prelude Format DbStore DbWal Scheduler Mempool Mvcc MvccBatch.

#[export] Instance prep_state_eq_dec : EqDecision prep_state.
Proof. solve_decision. Defined.

Section workers.
Variable dyn : QrxDBReadTxn -> list QrxVelocityMvccKV -> adapter.
Variables (db : QrxDB) (plan : QrxVelocityPlan) (valid_mask : option (list Z)) (height : Z).
Variables (snap : QrxDBReadTxn) (overlay : list QrxVelocityMvccKV) (wave speculative : Z) (indices : list nat).

Abbreviation step := (prep_step dyn db plan valid_mask height snap overlay wave speculative indices).
Abbreviation speculate' := (speculate dyn db plan valid_mask height snap overlay wave speculative).

Definition taken (w : prep_state) : option nat := match w with PPrepare i => Some i | _ => None end.

(** [D] are the indices that are done, in the order in which they were. *)
Record prep_inv (l : list QrxVelocityMvccWriteSet) (w : PrepWork) (D : list nat) : Prop := {
  pi_idx : D ++ omap taken (pw_workers w) ≡ₚ take (pw_next w) indices;
  pi_sets : pw_sets w = speculate' D l;
  pi_done : forall k, pw_workers w !! k = Some PDone -> (length indices <= pw_next w)%nat
}.

Definition prep_init (l : list QrxVelocityMvccWriteSet) (wc : nat) : PrepWork := mkPrepWork l 0 (replicate wc PTake).

Lemma prep_inv_init l wc : prep_inv l (prep_init l wc) [].
Proof using.
  split; cbn [prep_init pw_workers pw_next pw_sets]; [|done|].
  - cbn. induction wc; [done|]. cbn. done.
  - intros k [Hf _]%lookup_replicate. done.
Qed.

Lemma prep_inv_step l w w' D : prep_inv l w D -> step w w' -> exists D', prep_inv l w' D'.
Proof using.
  intros [H1 H2 H3] Hs. inversion Hs as [w0 k i Hk Hi|w0 k Hk Hi|w0 k i Hk]; subst w0 w'.
  - exists D. destruct (omap_insert taken _ k _ (PPrepare i) Hk) as (r & E1 & E2). cbn [taken app] in E1, E2.
    split; cbn [pw_workers pw_next pw_sets]; [|done|].
    + rewrite E2, (take_S_r _ _ i Hi), <- H1, E1, <- app_assoc. f_equiv. apply Permutation_cons_append.
    + intros k' Hk'. apply list_lookup_insert_Some in Hk' as [(_ & Hf & _)|[_ Hk']]; [done|]. specialize (H3 k' Hk'). lia.
  - exists D. apply lookup_ge_None_1 in Hi. destruct (omap_insert taken _ k _ PDone Hk) as (r & E1 & E2). cbn [taken app] in E1, E2.
    split; cbn [pw_workers pw_next pw_sets]; [|done|lia]. rewrite E2, <- E1, H1. by rewrite !take_ge by lia.
  - exists (D ++ [i]). destruct (omap_insert taken _ k _ PTake Hk) as (r & E1 & E2). cbn [taken app] in E1, E2.
    split; cbn [pw_workers pw_next pw_sets].
    + rewrite E2, <- H1, E1, <- app_assoc. done.
    + rewrite H2. unfold speculate. by rewrite foldl_app.
    + intros k' Hk'. apply list_lookup_insert_Some in Hk' as [(_ & Hf & _)|[_ Hk']]; [done|by apply (H3 k')].
Qed.

Lemma speculate_perm D D' l : NoDup D -> D ≡ₚ D' -> speculate' D l = speculate' D' l.
Proof using.
  intros Hd Hp. revert l Hd. unfold speculate. induction Hp as [|i D D' Hp IH|i j D|D D' D'' Hp1 IH1 Hp2 IH2]; intros l Hd; cbn [foldl].
  - done.
  - apply NoDup_cons in Hd as [_ Hd]. by apply IH.
  - f_equal. symmetry. apply list_alter_alter_ne. apply NoDup_cons in Hd as [Hn _]. set_solver.
  - rewrite IH1 by done. apply IH2. by rewrite <- Hp1.
Qed.

(** What remains to be done. *)
Definition prep_weight (w : prep_state) : nat := match w with PTake => 1 | PPrepare _ => 2 | PDone => 0 end.
Definition prep_left (w : PrepWork) : nat := (2 * (length indices - pw_next w) + sum_list_with prep_weight (pw_workers w))%nat.

Lemma prep_decreases w w' : step w w' -> (prep_left w' < prep_left w)%nat.
Proof using.
  intros Hs. inversion Hs as [w0 k i Hk Hi|w0 k Hk Hi|w0 k i Hk]; subst; unfold prep_left; cbn [pw_next pw_workers].
  - pose proof (sum_insert prep_weight _ k _ (PPrepare i) Hk). apply lookup_lt_Some in Hi. cbn [prep_weight] in *. lia.
  - pose proof (sum_insert prep_weight _ k _ PDone Hk). cbn [prep_weight] in *. lia.
  - pose proof (sum_insert prep_weight _ k _ PTake Hk). cbn [prep_weight] in *. lia.
Qed.

Lemma prep_reach l wc w : rtc step (prep_init l wc) w -> (exists D, prep_inv l w D) /\ length (pw_workers w) = wc.
Proof using.
  revert w. apply (rtc_ind_r (R := step)).
  - split; [exists []; apply prep_inv_init|]. apply length_replicate.
  - intros w1 w2 _ Hs [[D Hi] Hl]. split; [by apply (prep_inv_step l w1 w2 D)|].
    rewrite <- Hl. inversion Hs; subst; cbn [pw_workers]; apply length_insert.
Qed.

Lemma wave_workers_pos workers : 1 <= wave_workers workers (blen indices).
Proof using. unfold wave_workers. repeat case_decide; lia. Qed.

Lemma prep_finishes l wc w : NoDup indices -> (0 < wc)%nat -> rtc step (prep_init l wc) w ->
  (exists w', step w w') \/ (Forall (fun x => x = PDone) (pw_workers w) /\ pw_sets w = speculate' indices l).
Proof using.
  intros Hnd Hwc Hr. destruct (prep_reach l wc w Hr) as [[D Hi] Hl]. destruct (decide (Forall (fun x => x = PDone) (pw_workers w))) as [Hdone|Hn].
  - right. split; [done|]. rewrite (pi_sets _ _ _ Hi). assert (D ≡ₚ indices) as HD.
    { pose proof (pi_idx _ _ _ Hi) as Hp. destruct (pw_workers w) as [|x ws] eqn:E; [cbn in Hl; lia|].
      rewrite take_ge in Hp by (apply (pi_done _ _ _ Hi 0%nat); rewrite E; by apply Forall_cons in Hdone as [-> _]).
      replace (omap taken (x :: ws)) with (@nil nat) in Hp; [by rewrite app_nil_r in Hp|].
      clear -Hdone. induction Hdone as [|y ys -> _ IH]; [done|exact IH]. }
    symmetry. by apply speculate_perm.
  - left. apply not_Forall_Exists, Exists_exists in Hn as (x & Hx & Hnx); [|apply _].
    apply list_elem_of_lookup in Hx as [k Hk]. destruct x as [|i|]; [| |by destruct Hnx].
    + destruct (indices !! pw_next w) as [i|] eqn:Hi'; eexists; [by eapply (ps_take _ _ _ _ _ _ _ _ _ _ w k)|by eapply (ps_stop _ _ _ _ _ _ _ _ _ _ w k)].
    + eexists. by eapply (ps_prepare _ _ _ _ _ _ _ _ _ _ w k).
Qed.

End workers.

(** C17: under every interleaving of the threads a wave takes at most
    [prep_left] steps, is stuck only when every worker has finished, and then
    the write sets are those of the sequential [speculate], however many
    workers there were. *)
Theorem wave_deterministic dyn db plan valid_mask height snap overlay wave speculative l workers :
  let indices := wave_indices plan wave in
  let step := prep_step dyn db plan valid_mask height snap overlay wave speculative indices in
  let w0 := prep_init l (Z.to_nat (wave_workers workers (blen indices))) in
  (forall w w', step w w' -> (prep_left indices w' < prep_left indices w)%nat) /\
  forall w, rtc step w0 w ->
    (exists w', step w w') \/
    (Forall (fun x => x = PDone) (pw_workers w) /\
     pw_sets w = speculate dyn db plan valid_mask height snap overlay wave speculative indices l).
Proof.
  intros indices step w0. split; [intros w w'; apply prep_decreases|]. intros w. apply prep_finishes.
  - apply NoDup_filter, NoDup_seq.
  - pose proof (wave_workers_pos indices workers). lia.
Qed.

Definition agree_on (keys : list bytes) (look look' : bytes -> option bytes) : Prop := forall k, k ∈ keys -> look k = look' k.

Class Framed {A} (c : M A) : Prop := {
  framed : forall look look' ws, agree_on (ws_reads (fst (c look ws))) look look' -> c look' ws = c look ws;
  framed_reads : forall look ws k, k ∈ ws_reads ws -> k ∈ ws_reads (fst (c look ws))
}.

#[export] Instance framed_ret {A} (x : A) : Framed (mret x).
Proof. by split. Qed.

#[export] Instance framed_lift {A} (o : option A) : Framed (mlift o).
Proof. by split. Qed.

#[export] Instance framed_check P {dec : Decision P} : Framed (mcheck P).
Proof. by split. Qed.

#[export] Instance framed_bind {A B} (c : M A) (f : A -> M B) : Framed c -> (forall x, Framed (f x)) -> Framed (mbind f c).
Proof.
  intros [C1 C2] Hf. split.
  - intros look look' ws Ha. unfold mbind, M_bind in *. destruct (c look ws) as [ws1 [x|]] eqn:E; cbn [fst] in Ha.
    + assert (c look' ws = c look ws) as ->.
      { apply C1. rewrite E. cbn [fst]. intros k Hk. apply Ha. destruct (Hf x) as [_ F2]. by apply F2. }
      rewrite E. destruct (Hf x) as [F1 _]. by apply F1.
    + assert (c look' ws = c look ws) as -> by (apply C1; by rewrite E). by rewrite E.
  - intros look ws k Hk. unfold mbind, M_bind. specialize (C2 look ws k Hk). destruct (c look ws) as [ws1 [x|]]; cbn [fst] in *; [|done].
    destruct (Hf x) as [_ F2]. by apply F2.
Qed.

#[export] Instance framed_track key : Framed (ws_track_read key).
Proof.
  split; [by intros|]. intros look ws k Hk. unfold ws_track_read, strset_add. repeat (case_decide; cbn [fst ws_reads set_reads]); try done.
  apply elem_of_app. by left.
Qed.

Lemma track_read_in key ws look r : ws_track_read key look ws = (r, Some tt) -> key ∈ ws_reads r.
Proof.
  unfold ws_track_read, strset_add. repeat case_decide; intros [= <-]; cbn [ws_reads set_reads]; [done|].
  apply elem_of_app. right. by apply list_elem_of_singleton.
Qed.

#[export] Instance framed_get key out_sz : Framed (snapshot_get key out_sz).
Proof.
  split.
  - intros look look' ws Ha. unfold snapshot_get, mbind, M_bind in *.
    destruct (ws_track_read key look ws) as [ws1 [[]|]] eqn:E.
    + assert (ws_track_read key look' ws = (ws1, Some tt)) as -> by exact E. cbn [fst] in Ha.
      rewrite (Ha key); [done|]. by apply (track_read_in key ws look).
    + by assert (ws_track_read key look' ws = (ws1, None)) as -> by exact E.
  - intros look ws k Hk. unfold snapshot_get, mbind, M_bind. pose proof (framed_reads (c := ws_track_read key) look ws k Hk) as Hr.
    destruct (ws_track_read key look ws) as [ws1 [x|]]; exact Hr.
Qed.

#[export] Instance framed_put key value : Framed (ws_put key value).
Proof. by split. Qed.
#[export] Instance framed_put_fee fee : Framed (put_fee fee).
Proof. by split. Qed.

(** Case analysis in the middle of a computation. *)
#[export] Hint Extern 2 (Framed (if ?b then _ else _)) => destruct b : typeclass_instances.
#[export] Hint Extern 2 (Framed (match ?x with _ => _ end)) => destruct x : typeclass_instances.

#[export] Instance framed_get_ll key def : Framed (snapshot_get_ll key def).
Proof. unfold snapshot_get_ll. apply framed_bind; [apply _|]. intros [buf|]; apply _. Qed.
#[export] Instance framed_put_ll key v : Framed (ws_put_ll key v).
Proof. unfold ws_put_ll. apply _. Qed.
#[export] Instance framed_marks tx h t a b c : Framed (put_marks tx h t a b c).
Proof. unfold put_marks. apply _. Qed.
#[export] Instance framed_fields key kvs : Framed (put_fields key kvs).
Proof. induction kvs as [|[f v] kvs IH]; cbn [put_fields]; apply _. Qed.

#[export] Instance framed_transfer tx i h : Framed (transfer_main tx i h).
Proof. unfold transfer_main, transfer_body. cbv zeta. apply _. Qed.
#[export] Instance framed_common tx i h : Framed (prepare_common_nontransfer tx i h).
Proof. unfold prepare_common_nontransfer. cbv zeta. apply _. Qed.
#[export] Instance framed_agent tx i h : Framed (agent_body tx i h).
Proof. unfold agent_body. cbv zeta. apply _. Qed.
#[export] Instance framed_gateway tx i h : Framed (gateway_body tx i h).
Proof. unfold gateway_body. cbv zeta. apply _. Qed.

(** ** The dispatcher *)

Lemma run_adapter_frame body look look' tx txid i wave h : (forall tx i h, Framed (body tx i h)) ->
  agree_on (ws_reads (snd (run_adapter body look tx txid i wave h))) look look' ->
  run_adapter body look' tx txid i wave h = run_adapter body look tx txid i wave h.
Proof.
  intros Hf Ha. unfold run_adapter in *. f_equal. apply (framed (c := body tx i h)).
  intros k Hk. apply Ha. destruct (body tx i h look _) as [ws [rc|]]; exact Hk.
Qed.

Lemma run_adapter_status body look tx txid i wave h :
  ws_status (snd (run_adapter body look tx txid i wave h)) = fst (run_adapter body look tx txid i wave h).
Proof. unfold run_adapter. by destruct (body tx i h look _) as [ws [rc|]]. Qed.

(** A transaction that is not for the order book. *)
Definition not_dynamic (tx : bytes) : Prop := qrx_velocity_tx_adapter_class tx <> QRX_VELOCITY_ADAPTER_DYNAMIC.

(** The adapter of orders does not matter to other transactions. *)
Lemma phase4c_not_dynamic dyn dyn' look tx txid i wave h : not_dynamic tx ->
  prepare_phase4c_tx dyn look tx txid i wave h = prepare_phase4c_tx dyn' look tx txid i wave h.
Proof. intros Hn. unfold prepare_phase4c_tx. cbv zeta. repeat case_decide; done. Qed.

Lemma phase4c_frame dyn look look' tx txid i wave h : not_dynamic tx ->
  agree_on (ws_reads (snd (prepare_phase4c_tx dyn look tx txid i wave h))) look look' ->
  prepare_phase4c_tx dyn look' tx txid i wave h = prepare_phase4c_tx dyn look tx txid i wave h.
Proof.
  intros Hn. unfold prepare_phase4c_tx. cbv zeta. repeat case_decide; try done; apply run_adapter_frame; apply _.
Qed.

Lemma phase4c_status dyn look tx txid i wave h : not_dynamic tx ->
  ws_status (snd (prepare_phase4c_tx dyn look tx txid i wave h)) = fst (prepare_phase4c_tx dyn look tx txid i wave h).
Proof.
  intros Hn. unfold prepare_phase4c_tx. cbv zeta. repeat case_decide; try done; apply run_adapter_status.
Qed.
