(* ===== verification/MvccSerial.v ===== *)
(** * VELOCITY execution: speculation is serial execution

    Executing a wave speculatively on the state before it, checking the results
    against the earlier writes and executing the losers again gives what
    executing its transactions one after the other gives. *)

From stdpp Require Import gmap sorting.
From S2P Require Import Prelude Format DbStore DbWal Scheduler Mempool Mvcc MvccBatch MvccWorkers.

(** ** Overlays *)

Lemma kv_find_set_ne arr key value k : k <> key -> kv_find (kv_set arr key value) k = kv_find arr k.
Proof.
  intros Hne. induction arr as [|[k1 v1] arr IH]; cbn [kv_set kv_find]; [by rewrite decide_False|].
  case_decide; cbn [kv_find]; [subst; by rewrite !(decide_False (P := key = k)) by done|by rewrite IH].
Qed.

Lemma kv_find_set_all arr writes k : k ∉ writes.*1 -> kv_find (set_all arr writes) k = kv_find arr k.
Proof.
  revert arr. unfold set_all. induction writes as [|[k1 v1] writes IH]; intros arr Hk; [done|]. cbn [foldl fst snd].
  cbn [fmap list_fmap fst] in Hk. rewrite IH by set_solver. apply kv_find_set_ne. set_solver.
Qed.

(** ** Serial execution *)

Section serial.
Variable dyn : QrxDBReadTxn -> list QrxVelocityMvccKV -> adapter.
Variables (db : QrxDB) (plan : QrxVelocityPlan) (valid_mask : option (list Z)) (height : Z).
Hypothesis plan_not_dynamic : forall i t, txs plan !! i = Some t -> not_dynamic t.

Abbreviation prepare_at' := (prepare_at dyn db plan height).
Abbreviation prep_one' := (prep_one dyn db plan valid_mask height).

(** One transaction on top of all earlier ones: the overlay and the fees. *)
Definition serial_one (snap : QrxDBReadTxn) (st : list QrxVelocityMvccKV * Z) (wi : Z * nat) : option (list QrxVelocityMvccKV * Z) :=
  let '(m, fee) := st in
  let '(rc, ws) := prepare_at' snap m (fst wi) (snd wi) in
  if is_valid valid_mask (snd wi) && bool_decide (rc = QRX_MVCC_OK) then
    total ← add_ll fee (ws_fee_delta ws); Some (set_all m (ws_writes ws), total)
  else None.

Definition serial (snap : QrxDBReadTxn) (st : list QrxVelocityMvccKV * Z) (order : list (Z * nat)) : option (list QrxVelocityMvccKV * Z) :=
  foldl (fun st wi => st ← st; serial_one snap st wi) (Some st) order.

Lemma tx_not_dynamic i : not_dynamic (default [] (txs plan !! i)).
Proof using plan_not_dynamic.
  destruct (txs plan !! i) as [t|] eqn:E; [by apply (plan_not_dynamic i)|]. unfold not_dynamic. by vm_compute.
Qed.

Lemma prepare_frame snap m m' wave i :
  agree_on (ws_reads (snd (prepare_at' snap m wave i))) (look_at db snap m) (look_at db snap m') ->
  prepare_at' snap m' wave i = prepare_at' snap m wave i.
Proof using plan_not_dynamic.
  unfold prepare_at. rewrite (phase4c_not_dynamic (dyn snap m') (dyn snap m)) by apply tx_not_dynamic. apply phase4c_frame, tx_not_dynamic.
Qed.

Lemma prepare_status snap m wave i : ws_status (snd (prepare_at' snap m wave i)) = fst (prepare_at' snap m wave i).
Proof using plan_not_dynamic. apply phase4c_status, tx_not_dynamic. Qed.

(** ** One result *)

Record resolving (snap : QrxDBReadTxn) (m0 : list QrxVelocityMvccKV) (o : QrxVelocityMvccPrepared) (accepted : list nat) : Prop := {
  rs_snap : snapshot o = snap;
  rs_writes : forall k, kv_find (merged o) k = kv_find m0 k \/ exists a, a ∈ accepted /\ k ∈ (ws_writes (get_set o a)).*1
}.

Lemma no_conflict_reads cur prior : ws_runtime_conflict cur prior = false -> forall k, k ∈ ws_reads cur -> k ∉ (ws_writes prior).*1.
Proof.
  unfold ws_runtime_conflict. intros [[H _]%orb_false_iff _]%orb_false_iff k Hk Hin.
  apply not_true_iff_false in H. apply H. apply existsb_exists. exists k. split; [by apply list_elem_of_In|].
  apply list_elem_of_fmap in Hin as (w & -> & Hw). apply existsb_exists. exists w. split; [by apply list_elem_of_In|].
  by apply bool_decide_eq_true.
Qed.

Lemma no_filter_hit {A} (f : A -> bool) l : blen (List.filter f l) = 0 -> forall x, x ∈ l -> f x = false.
Proof.
  intros Hl x Hx. destruct (f x) eqn:E; [|done]. exfalso. unfold blen in Hl.
  destruct (List.filter f l) as [|y ys] eqn:Ef; [|cbn in Hl; lia].
  assert (In x (List.filter f l)) as Hin by (apply filter_In; split; [by apply list_elem_of_In|done]). by rewrite Ef in Hin.
Qed.

Lemma merge_final_ok o i ws o' : merge_final_ws plan o i ws = Some o' ->
  snapshot o' = snapshot o /\ sets o' = sets o /\ merged o' = set_all (merged o) (ws_writes ws) /\ failed o' = failed o /\
  add_ll (fee_delta_total o) (ws_fee_delta ws) = Some (fee_delta_total o') /\ unsupported o' = unsupported o /\ barriers o' = barriers o.
Proof using. unfold merge_final_ws. destruct (add_ll _ _) as [t|]; [|done]. intros [= <-]. done. Qed.

Lemma resolving_accept snap m0 o accepted i ws o' :
  resolving snap m0 o accepted -> merge_final_ws plan o i ws = Some o' -> ws_writes (get_set o i) = ws_writes ws ->
  resolving snap m0 o' (accepted ++ [i]).
Proof using.
  intros [R1 R2] Hm Hw. apply merge_final_ok in Hm as (M1 & M2 & M3 & _). split; [congruence|]. intros k. rewrite M3.
  assert (forall j, get_set o' j = get_set o j) as Hgs by (intros j; unfold get_set; by rewrite M2).
  destruct (decide (k ∈ (ws_writes ws).*1)) as [Hin|Hin].
  - right. exists i. rewrite Hgs, Hw. split; [apply elem_of_app; right; by apply list_elem_of_singleton|done].
  - rewrite kv_find_set_all by done. destruct (R2 k) as [|(a & Ha & Hk)]; [by left|]. right. exists a. rewrite Hgs.
    split; [apply elem_of_app; by left|done].
Qed.

Lemma resolving_same snap m0 o o' accepted i :
  resolving snap m0 o accepted -> snapshot o' = snapshot o -> merged o' = merged o -> i ∉ accepted ->
  (forall j, j <> i -> get_set o' j = get_set o j) -> resolving snap m0 o' accepted.
Proof using.
  intros [R1 R2] H1 H2 Hi Hj. split; [congruence|]. intros k. rewrite H2. destruct (R2 k) as [|(a & Ha & Hk)]; [by left|].
  right. exists a. split; [done|]. rewrite Hj; [done|]. by intros ->.
Qed.

Lemma get_set_insert o i ws j : get_set (set_sets o (<[i := ws]> (sets o))) j =
  if decide (j = i /\ (i < length (sets o))%nat) then ws else get_set o j.
Proof using.
  unfold get_set. cbn [sets set_sets]. case_decide as H.
  - destruct H as [-> H]. by rewrite list_lookup_insert_eq.
  - destruct (decide (j = i)) as [->|]; [|by rewrite list_lookup_insert_ne].
    by rewrite list_insert_ge by (destruct (decide (i < length (sets o))%nat); [tauto|lia]).
Qed.

(** What a step of the resolution leaves: a skipped transaction, or one that
    is executed as if it came after all that were accepted. *)
Record resolved (snap : QrxDBReadTxn) (m0 : list QrxVelocityMvccKV) (wave : Z) (i : nat)
    (o : QrxVelocityMvccPrepared) (accepted : list nat) (o' : QrxVelocityMvccPrepared) (accepted' : list nat) : Prop := {
  rv_others : forall j, j <> i -> get_set o' j = get_set o j;
  rv_length : length (sets o') = length (sets o);
  rv_failed : failed o' = failed o;
  rv_resolving : resolving snap m0 o' accepted';
  rv_accepted : incl accepted' (i :: accepted);
  rv_effect :
    (serial_one snap (merged o, fee_delta_total o) (wave, i) = Some (merged o', fee_delta_total o') /\
     unsupported o' = unsupported o /\ barriers o' = barriers o) \/
    (unsupported o' = unsupported o +64 1 /\ barriers o' = barriers o +64 0) \/
    (unsupported o' = unsupported o +64 0 /\ barriers o' = barriers o +64 1)
}.

Lemma resolved_skip snap m0 wave i o accepted o1 u b :
  resolving snap m0 o accepted -> i ∉ accepted -> snapshot o1 = snapshot o -> merged o1 = merged o -> failed o1 = failed o ->
  length (sets o1) = length (sets o) -> unsupported o1 = unsupported o -> barriers o1 = barriers o ->
  (forall j, j <> i -> get_set o1 j = get_set o j) -> (u = 1 /\ b = 0) \/ (u = 0 /\ b = 1) ->
  resolved snap m0 wave i o accepted (count_skip o1 u b) accepted.
Proof using.
  intros Hr Hi H1 H2 H3 H4 H5 H6 H7 Hub. split; try done.
  - by apply (resolving_same snap m0 o _ accepted i).
  - intros x Hx. by right.
  - right. cbn [unsupported barriers count_skip]. rewrite H5, H6. destruct Hub as [[-> ->]|[-> ->]]; [by left|by right].
Qed.

Lemma resolved_merge snap m0 wave i o accepted o1 ws o2 :
  resolving snap m0 o accepted -> i ∉ accepted -> snapshot o1 = snapshot o -> merged o1 = merged o -> failed o1 = failed o ->
  fee_delta_total o1 = fee_delta_total o ->
  length (sets o1) = length (sets o) -> unsupported o1 = unsupported o -> barriers o1 = barriers o ->
  (forall j, j <> i -> get_set o1 j = get_set o j) -> ws_writes (get_set o1 i) = ws_writes ws ->
  is_valid valid_mask i = true -> fst (prepare_at' snap (merged o) wave i) = QRX_MVCC_OK ->
  ws_writes (snd (prepare_at' snap (merged o) wave i)) = ws_writes ws ->
  ws_fee_delta (snd (prepare_at' snap (merged o) wave i)) = ws_fee_delta ws ->
  merge_final_ws plan o1 i ws = Some o2 ->
  resolved snap m0 wave i o accepted o2 (accepted ++ [i]).
Proof using.
  intros Hr Hi H1 H2 H3 Hf H4 H5 H6 H7 Hw Hv Hok Hpw Hpf Hm.
  assert (resolving snap m0 o1 accepted) as Hr1 by (by apply (resolving_same snap m0 o _ accepted i)).
  pose proof (resolving_accept snap m0 o1 accepted i ws o2 Hr1 Hm Hw) as Hr2.
  apply merge_final_ok in Hm as (M1 & M2 & M3 & M4 & M5 & M6 & M7). split; try congruence.
  - intros j Hj. rewrite <- (H7 j Hj). unfold get_set. by rewrite M2.
  - intros x Hx. apply in_app_iff in Hx as [Hx|[<-|[]]]; [by right|by left].
  - left. split; [|split; congruence]. unfold serial_one. cbn [fst snd].
    destruct (prepare_at' snap (merged o) wave i) as [rc w]. cbn [fst snd] in *. subst rc. rewrite Hv.
    change (bool_decide (QRX_MVCC_OK = QRX_MVCC_OK)) with true. cbn [andb]. rewrite Hpf, <- Hf, M5. cbn [mbind option_bind].
    by rewrite M3, H2, Hpw.
Qed.

Lemma resolve_one_ok snap m0 wave sp o accepted i o' accepted' :
  resolving snap m0 o accepted -> i ∉ accepted -> (i < length (sets o))%nat ->
  get_set o i = prep_one' snap m0 wave sp i ws_zero ->
  resolve_one dyn db plan valid_mask height wave (o, accepted) i = Some (o', accepted') ->
  resolved snap m0 wave i o accepted o' accepted'.
Proof using plan_not_dynamic.
  intros Hr Hi Hlen Hset. unfold resolve_one. cbv zeta. set (ws := get_set o i) in *.
  set (sb := if decide (ws_speculative ws <> 0) then 1 else 0). clearbody sb.
  case_decide as Hu; [intros [= <- <-]; by apply resolved_skip; auto|].
  case_decide as Hb; [intros [= <- <-]; by apply resolved_skip; auto|].
  case_decide as Hok; [done|].
  set (oc := count_reads o ws _). set (E := blen (List.filter _ accepted)).
  assert (is_valid valid_mask i = true) as Hv.
  { destruct (is_valid valid_mask i) eqn:Hv; [done|]. unfold prep_one in Hset. rewrite Hv in Hset. by rewrite Hset in Hok. }
  case_decide as He.
  - change (snapshot (count_conflicts oc E 1 0)) with (snapshot o). change (merged (count_conflicts oc E 1 0)) with (merged o).
    rewrite (rs_snap _ _ _ _ Hr). destruct (prepare_at' snap (merged o) wave i) as [rc w] eqn:Ep.
    assert (ws_status w = rc) as Hst by (pose proof (prepare_status snap (merged o) wave i) as Hs; by rewrite Ep in Hs).
    rewrite Hv. change (ws_status (set_flags w 1 1 1)) with (ws_status w). rewrite Hst.
    set (o1 := count_reads _ _ _).
    assert (forall j, get_set o1 j = if decide (j = i /\ (i < length (sets o))%nat) then set_flags w 1 1 1 else get_set o j) as Hg
      by (intros j; apply (get_set_insert (count_conflicts oc E 1 0))).
    assert (forall j, j <> i -> get_set o1 j = get_set o j) as Hgo by (intros j Hj; rewrite Hg; by rewrite decide_False by tauto).
    assert (ws_writes (get_set o1 i) = ws_writes w) as Hgi by (by rewrite Hg, decide_True).
    assert (length (sets o1) = length (sets o)) as Hlo by apply length_insert. clear Hg.
    case_decide; [intros [= <- <-]; by apply resolved_skip; auto|].
    case_decide; [intros [= <- <-]; by apply resolved_skip; auto|].
    case_decide as Hrc; [done|]. destruct (merge_final_ws plan o1 i _) as [o2|] eqn:Hm; [|done]. intros [= <- <-].
    apply (resolved_merge snap m0 wave i o accepted o1 (set_flags w 1 1 1) o2); try done.
    + rewrite Ep. cbn [fst]. destruct (decide (rc = QRX_MVCC_OK)); [done|]. tauto.
    + by rewrite Ep.
    + by rewrite Ep.
  - assert (prepare_at' snap (merged o) wave i = prepare_at' snap m0 wave i) as Hsame.
    { apply prepare_frame. intros k Hk. unfold look_at. destruct (rs_writes _ _ _ _ Hr k) as [->|(a & Ha & Hka)]; [done|]. exfalso.
      assert (ws_runtime_conflict ws (get_set o a) = false) as Hnc
        by (by apply (no_filter_hit (fun a => ws_runtime_conflict ws (get_set oc a)) accepted)).
      apply (no_conflict_reads _ _ Hnc k); [|done]. unfold prep_one in Hset. rewrite Hv in Hset. by rewrite Hset. }
    unfold prep_one in Hset. rewrite Hv in Hset. destruct (prepare_at' snap m0 wave i) as [rc w] eqn:Ep. cbn [snd] in Hset.
    assert (ws_status w = rc) as Hst by (pose proof (prepare_status snap m0 wave i) as Hs; by rewrite Ep in Hs).
    set (o1 := if decide (ws_speculative ws <> 0) then _ else oc).
    assert (snapshot o1 = snapshot o /\ merged o1 = merged o /\ failed o1 = failed o /\ fee_delta_total o1 = fee_delta_total o /\
      sets o1 = sets o /\ unsupported o1 = unsupported o /\ barriers o1 = barriers o) as (S1 & S2 & S3 & S4 & S5 & S6 & S7)
      by (unfold o1; case_decide; done).
    destruct (merge_final_ws plan o1 i ws) as [o2|] eqn:Hm; [|done]. intros [= <- <-].
    apply (resolved_merge snap m0 wave i o accepted o1 ws o2); rewrite ?Hsame; try done.
    + by rewrite S5.
    + intros j _. unfold get_set. by rewrite S5.
    + unfold get_set. by rewrite S5.
    + cbn [fst]. rewrite <- Hst, <- Hok, Hset. done.
    + cbn [snd]. by rewrite Hset.
    + cbn [snd]. by rewrite Hset.
Qed.
(** ** One wave *)

Definition upto (n : Z) (o : QrxVelocityMvccPrepared) : Prop := 0 <= unsupported o <= n /\ 0 <= barriers o <= n.

(** From [o] to [o'] over [order]: what was not skipped was executed serially. *)
Record advanced (snap : QrxDBReadTxn) (order : list (Z * nat)) (n : Z) (o o' : QrxVelocityMvccPrepared) : Prop := {
  ad_snap : snapshot o' = snapshot o;
  ad_length : length (sets o') = length (sets o);
  ad_failed : failed o' = failed o;
  ad_upto : upto (n + blen order) o';
  ad_more : unsupported o <= unsupported o' /\ barriers o <= barriers o';
  ad_serial : unsupported o' = unsupported o -> barriers o' = barriers o ->
    serial snap (merged o, fee_delta_total o) order = Some (merged o', fee_delta_total o')
}.

Lemma serial_app snap st l k : serial snap st (l ++ k) = st' ← serial snap st l; serial snap st' k.
Proof using.
  unfold serial. rewrite foldl_app. destruct (foldl _ (Some st) l) as [st'|]; [done|]. cbn [mbind option_bind].
  induction k as [|x k IH]; [done|exact IH].
Qed.

Lemma advanced_refl snap n o : upto n o -> advanced snap [] n o o.
Proof using. intros H. rewrite <- (Z.add_0_r n) in H. by split. Qed.

Lemma advanced_app snap l k n o1 o2 o3 :
  advanced snap l n o1 o2 -> advanced snap k (n + blen l) o2 o3 -> advanced snap (l ++ k) n o1 o3.
Proof using.
  intros [A1 A2 A3 A4 [A5 A5'] A6] [B1 B2 B3 B4 [B5 B5'] B6]. split; try congruence.
  - by rewrite blen_app, Z.add_assoc.
  - lia.
  - intros H1 H2. rewrite serial_app, A6 by lia. cbn [mbind option_bind]. apply B6; lia.
Qed.

Lemma resolved_advanced snap m0 wave i o accepted o' accepted' n : upto n o -> 0 <= n -> n + 1 < 2 ^ 64 ->
  resolving snap m0 o accepted -> resolved snap m0 wave i o accepted o' accepted' -> advanced snap [(wave, i)] n o o'.
Proof using.
  intros [U1 U2] Hn0 Hn Hr [_ R2 R3 R4 _ R6]. split; [by rewrite (rs_snap _ _ _ _ Hr), (rs_snap _ _ _ _ R4)|done|done|..];
    change (blen [(wave, i)]) with 1; unfold upto; destruct R6 as [(H1 & H2 & H3)|[[H1 H2]|[H1 H2]]];
    rewrite ?H1, ?H2, ?H3; rewrite ?u64_small by word; try lia.
  intros _ _. exact H1.
Qed.

Lemma resolve_all snap m0 wave sp rest : forall o accepted o' accepted' n,
  resolving snap m0 o accepted -> NoDup rest -> upto n o -> 0 <= n -> n + blen rest < 2 ^ 64 ->
  (forall i, i ∈ rest -> (i ∉ accepted) /\ (i < length (sets o))%nat /\ get_set o i = prep_one' snap m0 wave sp i ws_zero) ->
  foldl (fun st i => st ← st; resolve_one dyn db plan valid_mask height wave st i) (Some (o, accepted)) rest = Some (o', accepted') ->
  advanced snap (pair wave <$> rest) n o o' /\ forall j, j ∉ rest -> get_set o' j = get_set o j.
Proof using plan_not_dynamic.
  induction rest as [|i rest IH]; intros o accepted o' accepted' n Hr Hnd Hu Hn0 Hn Hi; cbn [foldl].
  - intros [= <- <-]. split; [by apply advanced_refl|done].
  - cbn [mbind option_bind]. destruct (resolve_one dyn db plan valid_mask height wave (o, accepted) i) as [[o1 acc1]|] eqn:E.
    2:{ intros Hx. exfalso. revert Hx. clear. induction rest as [|j l IHl]; [done|exact IHl]. }
    apply NoDup_cons in Hnd as [Hni Hnd]. rewrite blen_cons in Hn. pose proof (blen_nonneg rest).
    destruct (Hi i (list_elem_of_here _ _)) as (Hia & Hil & His).
    pose proof (resolve_one_ok snap m0 wave sp o accepted i o1 acc1 Hr Hia Hil His E) as Hres.
    pose proof (resolved_advanced snap m0 wave i o accepted o1 acc1 n Hu Hn0 ltac:(lia) Hr Hres) as Hadv.
    destruct Hres as [V1 V2 _ V4 V5 _]. intros Hrest.
    destruct (IH o1 acc1 o' accepted' (n + 1) V4 Hnd (ad_upto _ _ _ _ _ Hadv) ltac:(lia) ltac:(lia)) as [Hadv2 Hoth].
    + intros j Hj. destruct (Hi j (list_elem_of_further _ _ _ Hj)) as (Hja & Hjl & Hjs). assert (j <> i) as Hji by congruence.
      split; [|split; [lia|by rewrite V1]]. intros Hja1. apply list_elem_of_In, V5 in Hja1 as [Heq|Hin]; [congruence|].
      by apply list_elem_of_In in Hin.
    + exact Hrest.
    + split; [|intros j Hj; rewrite Hoth, V1 by set_solver; done]. cbn [fmap list_fmap].
      by apply (advanced_app snap [(wave, i)] (pair wave <$> rest) n o o1 o').
Qed.

(** ** Speculation *)

Lemma get_set_alter l i f j : default ws_zero (alter f i l !! j) =
  if decide (j = i /\ (i < length l)%nat) then f (default ws_zero (l !! j)) else default ws_zero (l !! j).
Proof using.
  destruct (decide (j = i)) as [->|Hne].
  - rewrite list_lookup_alter_eq. destruct (decide (i < length l)%nat) as [Hlt|Hge].
    + rewrite decide_True by done. by destruct (lookup_lt_is_Some_2 l i Hlt) as [x ->].
    + rewrite decide_False by tauto. by rewrite lookup_ge_None_2 by lia.
  - rewrite decide_False by tauto. by rewrite list_lookup_alter_ne.
Qed.

Lemma speculate_length snap m0 wave sp indices l : length (speculate dyn db plan valid_mask height snap m0 wave sp indices l) = length l.
Proof using. unfold speculate. revert l. induction indices as [|i ix IH]; intros l; [done|]. cbn [foldl]. by rewrite IH, length_alter. Qed.

Lemma speculate_get snap m0 wave sp indices l j : NoDup indices ->
  default ws_zero (speculate dyn db plan valid_mask height snap m0 wave sp indices l !! j) =
  if decide (j ∈ indices /\ (j < length l)%nat) then prep_one' snap m0 wave sp j (default ws_zero (l !! j)) else default ws_zero (l !! j).
Proof using.
  unfold speculate. revert l. induction indices as [|i ix IH]; intros l Hnd; cbn [foldl].
  - rewrite decide_False; [done|]. intros [H _]. by apply elem_of_nil in H.
  - apply NoDup_cons in Hnd as [Hni Hnd]. rewrite IH, length_alter, get_set_alter by done. destruct (decide (j = i)) as [->|Hne].
    + rewrite (decide_False (P := i ∈ ix /\ _)) by tauto. pose proof (list_elem_of_here i ix) as Hin.
      destruct (decide (i < length l)%nat).
      * rewrite (decide_True (P := i = i /\ _)), (decide_True (P := i ∈ i :: ix /\ _)) by done. done.
      * rewrite (decide_False (P := i = i /\ _)), (decide_False (P := i ∈ i :: ix /\ _)) by tauto. done.
    + rewrite (decide_False (P := j = i /\ _)) by tauto. destruct (decide (j ∈ ix /\ (j < length l)%nat)).
      * rewrite decide_True; [done|]. split; [apply list_elem_of_further; tauto|tauto].
      * rewrite decide_False; [done|]. intros [[?|?]%elem_of_cons ?]; tauto.
Qed.

(** ** All waves *)

Definition order_of (wave : nat) : list (Z * nat) := pair (Z.of_nat wave) <$> wave_indices plan (Z.of_nat wave).
Definition plan_order (n : nat) : list (Z * nat) := concat (order_of <$> seq 0 n).

Lemma wave_indices_spec wave i : i ∈ wave_indices plan wave <-> plan_waves plan !! i = Some wave /\ (i < Z.to_nat (count plan))%nat.
Proof using. unfold wave_indices. rewrite list_elem_of_filter, elem_of_seq. split; intros [? ?]; split; done || lia. Qed.

Lemma wave_indices_nodup wave : NoDup (wave_indices plan wave).
Proof using. apply NoDup_filter, NoDup_seq. Qed.

Lemma one_wave_ok o wave o' n :
  upto n o -> 0 <= n -> n + blen (order_of wave) < 2 ^ 64 -> length (sets o) = Z.to_nat (count plan) ->
  (forall i, i ∈ wave_indices plan (Z.of_nat wave) -> get_set o i = ws_zero) ->
  one_wave dyn db plan valid_mask height o wave = Some o' ->
  advanced (snapshot o) (order_of wave) n o o' /\ forall j, (j ∉ wave_indices plan (Z.of_nat wave)) -> get_set o' j = get_set o j.
Proof using plan_not_dynamic.
  intros Hu Hn0 Hn Hl Hz. unfold one_wave, order_of in *. cbv zeta. set (ix := wave_indices plan (Z.of_nat wave)) in *.
  case_decide as Hix; [intros [= <-]; rewrite Hix; split; [by apply advanced_refl|done]|].
  set (sp := if decide (blen ix > 1) then 1 else 0). clearbody sp. set (o1 := set_sets o _). unfold resolve_wave.
  destruct (foldl _ (Some (o1, [])) ix) as [[o2 acc]|] eqn:E; [|done]. intros [= <-]. cbn [fst].
  assert (forall j, get_set o1 j = if decide (j ∈ ix /\ (j < length (sets o))%nat)
    then prep_one' (snapshot o) (merged o) (Z.of_nat wave) sp j (get_set o j) else get_set o j) as Hg
    by (intros j; apply (speculate_get (snapshot o) (merged o) (Z.of_nat wave) sp ix (sets o) j), wave_indices_nodup).
  assert (length (sets o1) = length (sets o)) as Hl1 by apply speculate_length.
  rewrite blen_fmap in Hn.
  destruct (resolve_all (snapshot o) (merged o) (Z.of_nat wave) sp ix o1 [] o2 acc n) as [Ha Ho]; try done.
  - split; [done|]. intros k. by left.
  - apply wave_indices_nodup.
  - intros i Hi. split; [apply not_elem_of_nil|]. pose proof Hi as [_ Hlt]%wave_indices_spec. split; [lia|].
    rewrite Hg, decide_True by (split; [done|lia]). by rewrite Hz.
  - split; [|intros j Hj; rewrite Ho by done; rewrite Hg, decide_False by tauto; done].
    destruct Ha as [A1 A2 A3 A4 A5 A6]. split; try done. by rewrite A2.
Qed.

Lemma plan_order_mono w n : blen (plan_order w) <= blen (plan_order (w + n)).
Proof using.
  unfold plan_order. rewrite seq_app, fmap_app, concat_app, blen_app. pose proof (blen_nonneg (concat (order_of <$> seq (0 + w) n))). lia.
Qed.

Lemma run_waves_ok o0 w n o' :
  blen (plan_order (w + n)) < 2 ^ 64 -> length (sets o0) = Z.to_nat (count plan) -> upto (blen (plan_order w)) o0 ->
  (forall w' i, (w <= w')%nat -> i ∈ wave_indices plan (Z.of_nat w') -> get_set o0 i = ws_zero) ->
  foldl (fun o wave => o ← o; one_wave dyn db plan valid_mask height o wave) (Some o0) (seq w n) = Some o' ->
  advanced (snapshot o0) (concat (order_of <$> seq w n)) (blen (plan_order w)) o0 o'.
Proof using plan_not_dynamic.
  revert o0 w. induction n as [|n IH]; intros o0 w Hb Hl Hu Hz; cbn [seq foldl].
  - intros [= <-]. by apply advanced_refl.
  - cbn [mbind option_bind]. destruct (one_wave dyn db plan valid_mask height o0 w) as [o1|] eqn:E.
    2:{ intros Hx. exfalso. revert Hx. clear. induction (seq (S w) n) as [|j l IHl]; [done|exact IHl]. }
    assert (plan_order (S w) = plan_order w ++ order_of w) as Hsnoc
      by (unfold plan_order; rewrite seq_S, fmap_app, concat_app; cbn [fmap list_fmap concat Nat.add]; by rewrite app_nil_r).
    assert (blen (plan_order w) + blen (order_of w) < 2 ^ 64) as Hlt.
    { rewrite <- blen_app, <- Hsnoc. pose proof (plan_order_mono (S w) n). replace (S w + n)%nat with (w + S n)%nat in * by lia. lia. }
    destruct (one_wave_ok o0 w o1 (blen (plan_order w)) Hu (blen_nonneg _) Hlt Hl (fun i Hi => Hz w i ltac:(done) Hi) E) as [Ha Ho].
    intros Hrest. cbn [fmap list_fmap concat]. apply (advanced_app _ (order_of w) (concat (order_of <$> seq (S w) n)) _ o0 o1 o' Ha).
    rewrite <- blen_app, <- Hsnoc, <- (ad_snap _ _ _ _ _ Ha). apply IH; try done.
    + by replace (S w + n)%nat with (w + S n)%nat by lia.
    + by rewrite (ad_length _ _ _ _ _ Ha).
    + rewrite Hsnoc, blen_app. apply (ad_upto _ _ _ _ _ Ha).
    + intros w' i Hw' Hi. rewrite Ho; [apply (Hz w'); [lia|done]|].
      apply wave_indices_spec in Hi as [Hi _]. intros [Hi' _]%wave_indices_spec. rewrite Hi in Hi'. injection Hi' as Hi'. lia.
Qed.
(** The fees of the batch added to the pool. *)
Definition serial_fees (snap : QrxDBReadTxn) (st : list QrxVelocityMvccKV * Z) : option (list QrxVelocityMvccKV) :=
  let '(m, fee) := st in
  if decide (fee = 0) then Some m
  else
    base ← match look_at db snap m fee_pool_key with None => Some 0 | Some v => strtoll_checked (snprintf_s 128 v) end;
    new ← add_ll base fee; Some (kv_set m fee_pool_key (snprintf_s 64 (print_d new))).

(** The batch executed serially: the transactions of the waves in order, one
    after the other, and then the fees. *)
Definition serial_batch : option (list QrxVelocityMvccKV) :=
  let snap := qrxdb_read_txn_begin db in
  st ← serial snap ([], 0) (plan_order (Z.to_nat (plan_wave_count plan))); serial_fees snap st.

Lemma prepare_batch_serial workers o :
  blen (plan_order (Z.to_nat (plan_wave_count plan))) < 2 ^ 64 ->
  qrx_velocity_mvcc_prepare_batch dyn db plan valid_mask height workers = (QRX_MVCC_OK, Some o) ->
  serial_batch = Some (merged o) /\ snapshot o = qrxdb_read_txn_begin db.
Proof using plan_not_dynamic.
  intros Hlen. unfold qrx_velocity_mvcc_prepare_batch. destruct (run_waves dyn db plan valid_mask height workers) as [o1|] eqn:E; [|done].
  cbn [mbind option_bind]. destruct (add_fees db o1) as [o2|] eqn:Ef; [|done]. intros Hrc.
  set (o0 := prepared_new db plan workers) in *. pose proof (run_waves_ok o0 0 (Z.to_nat (plan_wave_count plan)) o1) as Hrun.
  destruct Hrun as [A1 _ _ _ _ A6].
  - exact Hlen.
  - unfold o0, prepared_new. cbv zeta. cbn [sets]. apply length_replicate.
  - unfold upto, o0, prepared_new. cbv zeta. cbn [unsupported barriers]. change (blen (plan_order 0)) with 0. lia.
  - intros w' i _ Hi. unfold get_set, o0, prepared_new. cbv zeta. cbn [sets]. apply wave_indices_spec in Hi as [_ Hi].
    by rewrite lookup_replicate_2.
  - exact E.
  - assert (snapshot o2 = snapshot o1 /\ failed o2 = failed o1 /\ barriers o2 = barriers o1 /\ unsupported o2 = unsupported o1 /\
      serial_fees (snapshot o1) (merged o1, fee_delta_total o1) = Some (merged o2)) as (F1 & F2 & F3 & F4 & F5).
    { clear Hrc A6. revert Ef. unfold add_fees, serial_fees. case_decide; [intros Hx; injection Hx as <-; done|].
      destruct (look_at db (snapshot o1) (merged o1) fee_pool_key) as [v|]; [destruct (strtoll_checked (snprintf_s 128 v)) as [base|]|];
        cbn [mbind option_bind]; [|intros Hx; discriminate Hx|];
        (destruct (add_ll _ _); cbn [mbind option_bind]; [intros Hx; injection Hx as <-; done|intros Hx; discriminate Hx]). }
    assert (o = o2 /\ barriers o2 = 0 /\ unsupported o2 = 0) as (-> & Hb & Hu).
    { injection Hrc as Hrc <-. split; [done|]. revert Hrc. repeat case_decide; try done. }
    change (snapshot o0) with (qrxdb_read_txn_begin db) in *. split; [|by rewrite F1].
    unfold serial_batch. cbv zeta. unfold plan_order. change ([], 0) with (merged o0, fee_delta_total o0). rewrite A6; [|by rewrite <- F4, Hu|by rewrite <- F3, Hb].
    cbn [mbind option_bind]. by rewrite <- A1.
Qed.
End serial.
