(* ===== verification/MvccLedger.v ===== *)
(** * VELOCITY execution: balances

    What one transaction does to the balances: a transfer moves its amount from
    the sender to the recipient, every transaction takes its fee from the
    sender, and nothing else touches a balance or the pool of fees. *)

From stdpp Require Import gmap sorting.
From S2P Require Import Prelude Format ChainParamsFacts ChainGenesis DbStore DbWal Scheduler Mempool Mvcc MvccBatch MvccWorkers MvccSerial.

(** ** Numbers *)

Lemma digits_only fuel n tl : 0 <= n -> Forall (fun c => is_digit c = true) tl -> skip_digits tl = [] ->
  skip_digits (udec_loop fuel n tl) = [].
Proof.
  intros Hn Ht Hs. pose proof (proj1 (udec_loop_ok fuel n tl Ht)) as Hf. clear Ht.
  induction Hf as [|c l Hc _ IH]; [done|]. cbn [skip_digits]. by rewrite Hc.
Qed.

Lemma print_u_skip n : 0 <= n -> skip_digits (print_u n) = [].
Proof. intros Hn. by apply digits_only. Qed.

Lemma print_u_shape n : in_u64 n ->
  exists c s, print_u n = c :: s /\ is_digit c = true /\ is_space c = false /\ c <> x2d /\ c <> x2b /\
    digits 0 (c :: s) = n /\ skip_digits (c :: s) = [].
Proof.
  intros Hn. destruct (udec_loop_head 20 n [] ltac:(lia) ltac:(word)) as (d & s & Hd & Hs).
  destruct (digit_byte d Hd) as (c & Hc & H1 & H2 & H3). exists c, s. rewrite Hc in Hs.
  assert (print_u n = c :: s) as Hp by exact Hs. rewrite <- Hp, print_u_digits, print_u_skip by word. split_and!; try done.
  rewrite <- Hc. unfold is_digit. rewrite byte_of_digit by done. apply bool_decide_eq_true_2. lia.
Qed.

Lemma strtoll_checked_print n : LLONG_MIN <= n <= LLONG_MAX -> strtoll_checked (print_d n) = Some n.
Proof.
  intros Hn. unfold strtoll_checked, print_d. case_decide as Hneg.
  - destruct (print_u_shape (- n) ltac:(word)) as (c & s & -> & Hdig & _ & _ & _ & Hv & Hsk).
    cbn [skip_space]. change (is_space x2d) with false. cbn match. rewrite Hdig, Hv, Hsk.
    rewrite decide_True by (split; [done|lia]). f_equal. lia.
  - destruct (print_u_shape n ltac:(word)) as (c & s & -> & Hdig & Hsp & H1 & H2 & Hv & Hsk).
    cbn [skip_space]. rewrite Hsp. destruct c; try done; rewrite Hdig, Hv, Hsk; by rewrite decide_True by done.
Qed.

Lemma strtoll_checked_range s v : strtoll_checked s = Some v -> LLONG_MIN <= v <= LLONG_MAX.
Proof.
  unfold strtoll_checked. cbv zeta. match goal with |- context [let '(_, _) := ?x in _] => destruct x as [neg t] end. destruct t as [|c t].
  - case_decide; [|done]. intros [= <-]. word.
  - destruct (is_digit c); [|done]. case_decide as Hr; [|done]. intros [= <-]. tauto.
Qed.

Lemma add_ll_spec a b c : add_ll a b = Some c -> LLONG_MIN <= a <= LLONG_MAX -> c = a + b /\ LLONG_MIN <= c <= LLONG_MAX.
Proof. unfold add_ll. case_decide; [done|]. intros [= <-] Ha. split; [done|]. word. Qed.

(** ** Keys *)

(** The keys whose values are money: balances and the pool of fees. *)
Definition balance_key (k : bytes) : Prop := take 13 k = cs "acct:balance:".
Definition money_key (k : bytes) : Prop := balance_key k \/ k = fee_pool_key.
#[export] Instance balance_key_dec k : Decision (balance_key k).
Proof. unfold balance_key. apply _. Defined.

Lemma prefix_not_money m k q : take m k = q -> q <> take m (cs "acct:balance:") -> q <> take m fee_pool_key -> (m <= 13)%nat -> ~ money_key k.
Proof.
  intros Hk Hb Hp Hm [Hbk| ->]; [|done]. apply Hb. unfold balance_key in Hbk. rewrite <- Hbk, take_take, <- Hk. f_equal. lia.
Qed.

Lemma take_snprintf m sz prefix s : (m <= length prefix)%nat -> (m < sz)%nat -> take m (snprintf_s sz (prefix ++ s)) = take m prefix.
Proof. intros H1 H2. unfold snprintf_s. rewrite take_take, take_app_le by lia. f_equal. lia. Qed.

Ltac not_money m := eapply (prefix_not_money m);
  [apply take_snprintf; [cbn; lia|lia] | by vm_compute | by vm_compute | lia].

Lemma applied_not_money h : ~ money_key (key_of (cs "tx:applied:") h). Proof. not_money 7%nat. Qed.
Lemma loc_not_money h : ~ money_key (key_of (cs "tx:loc:") h). Proof. not_money 7%nat. Qed.
Lemma payload_not_money h : ~ money_key (key_of (cs "tx:payload:") h). Proof. not_money 7%nat. Qed.
Lemma consensus_not_money h : ~ money_key (key_of (cs "consensus:applytx:") h). Proof. not_money 11%nat. Qed.
Lemma nonce_not_money from lane : ~ money_key (nonce_key from lane).
Proof. unfold nonce_key. case_decide; not_money 7%nat. Qed.
Lemma agent_not_money a f : ~ money_key (agent_key a f). Proof. unfold agent_key. not_money 7%nat. Qed.
Lemma gateway_not_money g f : ~ money_key (gateway_key g f). Proof. unfold gateway_key. not_money 7%nat. Qed.

Create HintDb money.
#[export] Hint Resolve applied_not_money loc_not_money payload_not_money consensus_not_money nonce_not_money agent_not_money
  gateway_not_money : money.

Lemma key_of_balance from : balance_key (key_of (cs "acct:balance:") from).
Proof. unfold balance_key, key_of. rewrite take_snprintf by (cbn; lia). done. Qed.

Lemma key_of_inj a b : (length a <= 511)%nat -> (length b <= 511)%nat -> key_of (cs "acct:balance:") a = key_of (cs "acct:balance:") b -> a = b.
Proof.
  intros Ha Hb. unfold key_of, snprintf_s. rewrite !take_ge by (rewrite length_app; cbn; lia). apply app_inv_head.
Qed.

Lemma field_length tx key n v : field tx key n = Some v -> (length v <= n - 1)%nat.
Proof. unfold field, sep_field. destruct (first_value _ _) as [w|]; [|done]. intros [= <-]. unfold snprintf_s. rewrite length_take. lia. Qed.

(** ** Computations that leave the money alone *)

Class Keeps {A} (c : M A) : Prop :=
  keeps look ws ws' x : c look ws = (ws', Some x) ->
    (forall k, money_key k -> kv_find (ws_writes ws') k = kv_find (ws_writes ws) k) /\ ws_fee_delta ws' = ws_fee_delta ws.

#[export] Instance keeps_ret {A} (x : A) : Keeps (mret x).
Proof. intros look ws ws' y [= <- _]. done. Qed.
#[export] Instance keeps_lift {A} (o : option A) : Keeps (mlift o).
Proof. intros look ws ws' y [= <- _]. done. Qed.
#[export] Instance keeps_check P {dec : Decision P} : Keeps (mcheck P).
Proof. intros look ws ws' y [= <- _]. done. Qed.

Lemma bind_inv {A B} (c : M A) (f : A -> M B) look ws ws' y : mbind f c look ws = (ws', Some y) ->
  exists x ws1, c look ws = (ws1, Some x) /\ f x look ws1 = (ws', Some y).
Proof. unfold mbind, M_bind. destruct (c look ws) as [ws1 [x|]]; [|done]. intros H. by exists x, ws1. Qed.

Lemma lift_inv {A} (o : option A) look ws ws' x : mlift o look ws = (ws', Some x) -> ws' = ws /\ o = Some x.
Proof. by intros [= <- ->]. Qed.
Lemma check_inv P {dec : Decision P} look ws ws' x : mcheck P look ws = (ws', Some x) -> ws' = ws /\ P.
Proof. unfold mcheck, mlift. case_decide; by intros [= <-]. Qed.

#[export] Instance keeps_bind {A B} (c : M A) (f : A -> M B) : Keeps c -> (forall x, Keeps (f x)) -> Keeps (mbind f c).
Proof.
  intros Hc Hf look ws ws' y H. apply bind_inv in H as (x & ws1 & H1 & H2).
  destruct (Hc look ws ws1 x H1) as [E1 E2]. destruct (Hf x look ws1 ws' y H2) as [F1 F2].
  split; [intros k Hk; by rewrite F1, E1|congruence].
Qed.

#[export] Instance keeps_track key : Keeps (ws_track_read key).
Proof. intros look ws ws' [] H. unfold ws_track_read in H. destruct (strset_add _ _); [|done]. injection H as <-. done. Qed.
#[export] Instance keeps_get key sz : Keeps (snapshot_get key sz).
Proof.
  unfold snapshot_get. apply keeps_bind; [apply _|]. intros [] look ws ws' x [= <- _]. done.
Qed.

Lemma keeps_put key value : ~ money_key key -> Keeps (ws_put key value).
Proof.
  intros Hk look ws ws' x [= <-]. cbn [ws_writes ws_fee_delta set_writes]. split; [|done]. intros k Hm. apply kv_find_set_ne. by intros ->.
Qed.
#[export] Hint Extern 1 (Keeps (ws_put _ _)) => (apply keeps_put; auto with money) : typeclass_instances.
#[export] Hint Extern 1 (Keeps (ws_put_ll _ _)) => (unfold ws_put_ll; apply keeps_put; auto with money) : typeclass_instances.
#[export] Hint Extern 2 (Keeps (if ?b then _ else _)) => destruct b : typeclass_instances.
#[export] Hint Extern 2 (Keeps (match ?x with _ => _ end)) => destruct x : typeclass_instances.

#[export] Instance keeps_get_ll key def : Keeps (snapshot_get_ll key def).
Proof. unfold snapshot_get_ll. apply keeps_bind; [apply _|]. intros [buf|]; apply _. Qed.
#[export] Instance keeps_marks tx h t a b c : Keeps (put_marks tx h t a b c).
Proof. unfold put_marks. apply _. Qed.
Lemma keeps_fields key kvs : (forall f, ~ money_key (key f)) -> Keeps (put_fields key kvs).
Proof.
  intros Hk. induction kvs as [|[f v] kvs IH]; cbn [put_fields]; [apply _|]. apply keeps_bind; [by apply keeps_put|done].
Qed.
#[export] Hint Extern 1 (Keeps (put_fields _ _)) => (apply keeps_fields; intros; auto with money) : typeclass_instances.

(** ** Lists with one pair for every key *)

Lemma kv_find_none arr k : k ∉ arr.*1 -> kv_find arr k = None.
Proof.
  induction arr as [|[k1 v1] arr IH]; cbn [fmap list_fmap fst kv_find]; [done|]. intros H. rewrite IH by set_solver.
  rewrite decide_False; [done|set_solver].
Qed.

Lemma kv_set_keys arr key value : (kv_set arr key value).*1 = if decide (key ∈ arr.*1) then arr.*1 else arr.*1 ++ [key].
Proof.
  induction arr as [|[k1 v1] arr IH]; cbn [kv_set fmap list_fmap fst app]; [done|]. destruct (decide (k1 = key)) as [->|Hne].
  - rewrite decide_True by apply list_elem_of_here. done.
  - cbn [fmap list_fmap fst]. rewrite IH. do 2 case_decide; set_solver.
Qed.

Lemma kv_set_nodup arr key value : NoDup arr.*1 -> NoDup (kv_set arr key value).*1.
Proof.
  intros H. rewrite kv_set_keys. case_decide; [done|]. apply NoDup_app. split_and!; [done|set_solver|apply NoDup_singleton].
Qed.

Lemma kv_find_set_eq arr key value : NoDup arr.*1 -> kv_find (kv_set arr key value) key = Some value.
Proof.
  induction arr as [|[k1 v1] arr IH]; cbn [kv_set fmap list_fmap fst kv_find]; intros Hd; [by rewrite decide_True|].
  apply NoDup_cons in Hd as [Hn Hd]. case_decide as Hk; cbn [kv_find]; [|by rewrite IH].
  subst. rewrite kv_find_none by done. by rewrite decide_True.
Qed.

Lemma kv_find_set arr key value k : NoDup arr.*1 ->
  kv_find (kv_set arr key value) k = if decide (k = key) then Some value else kv_find arr k.
Proof. intros Hd. case_decide as H; [subst; by apply kv_find_set_eq|by apply kv_find_set_ne]. Qed.

Lemma set_all_nodup arr writes : NoDup arr.*1 -> NoDup (set_all arr writes).*1.
Proof.
  unfold set_all. revert arr. induction writes as [|w writes IH]; intros arr H; [done|]. cbn [foldl]. by apply IH, kv_set_nodup.
Qed.

Lemma kv_find_all arr writes k : NoDup arr.*1 ->
  kv_find (set_all arr writes) k = match kv_find writes k with Some v => Some v | None => kv_find arr k end.
Proof.
  unfold set_all. revert arr. induction writes as [|[k1 v1] writes IH]; intros arr H; [done|]. cbn [foldl fst snd kv_find].
  rewrite IH by by apply kv_set_nodup. destruct (kv_find writes k); [done|]. rewrite kv_find_set by done.
  destruct (decide (k = k1)), (decide (k1 = k)); by subst.
Qed.

Lemma set_all_keys arr writes k : k ∈ (set_all arr writes).*1 <-> k ∈ arr.*1 \/ k ∈ writes.*1.
Proof.
  unfold set_all. revert arr. induction writes as [|[k1 v1] writes IH]; intros arr; cbn [foldl fmap list_fmap fst snd]; [set_solver|].
  rewrite IH, kv_set_keys. case_decide; set_solver.
Qed.

Lemma kv_find_elem arr k v : kv_find arr k = Some v -> k ∈ arr.*1.
Proof. intros H. destruct (decide (k ∈ arr.*1)); [done|]. by rewrite kv_find_none in H. Qed.

(** ** Reading numbers *)

(** The number at a key, as [snapshot_get_ll] reads it with default 0. *)
Definition read_ll (o : option bytes) : option Z :=
  match o with None => Some 0 | Some v => strtoll_checked (snprintf_s 128 v) end.
Definition printed (n : Z) : bytes := snprintf_s 64 (print_d n).

Lemma read_printed n : LLONG_MIN <= n <= LLONG_MAX -> read_ll (Some (printed n)) = Some n.
Proof.
  intros Hn. unfold read_ll, printed, snprintf_s. assert (length (print_d n) <= 21)%nat as Hl.
  { unfold print_d, print_u. assert (forall m, length (udec_loop 20 m []) <= 20)%nat as Hu
      by (intros m; pose proof (udec_loop_ok 20 m [] (Forall_nil_2 _)) as [_ H]; cbn [length] in H; lia).
    case_decide; cbn [length]; [pose proof (Hu (- n))|pose proof (Hu n)]; lia. }
  rewrite !take_ge by (rewrite ?length_take; lia). by apply strtoll_checked_print.
Qed.

Lemma read_ll_range o v : read_ll o = Some v -> LLONG_MIN <= v <= LLONG_MAX.
Proof. destruct o as [s|]; [apply strtoll_checked_range|]. intros [= <-]. word. Qed.

(** Reads leave the writes and the fee. *)
Definition quiet (ws ws' : QrxVelocityMvccWriteSet) : Prop := ws_writes ws' = ws_writes ws /\ ws_fee_delta ws' = ws_fee_delta ws.

Lemma quiet_trans a b c : quiet a b -> quiet b c -> quiet a c.
Proof. intros [? ?] [? ?]. split; congruence. Qed.

Lemma track_quiet key look ws ws' x : ws_track_read key look ws = (ws', Some x) -> quiet ws ws'.
Proof. unfold ws_track_read. destruct (strset_add _ _); [|done]. by intros [= <- _]. Qed.

Lemma get_inv key sz look ws ws' x : snapshot_get key sz look ws = (ws', Some x) -> quiet ws ws' /\ x = snprintf_s sz <$> look key.
Proof. intros H. apply bind_inv in H as ([] & ws1 & H1 & [= <- <-]). split; [by eapply track_quiet|done]. Qed.

Lemma get_ll_inv key look ws ws' x : snapshot_get_ll key 0 look ws = (ws', Some x) -> quiet ws ws' /\ read_ll (look key) = Some x.
Proof.
  intros H. apply bind_inv in H as (found & ws1 & [Hq ->]%get_inv & H2). unfold read_ll. destruct (look key) as [v|]; cbn [fmap option_fmap option_map] in H2.
  - apply lift_inv in H2 as [-> H2]. done.
  - injection H2 as <- <-. done.
Qed.
