(* ===== verification/MvccMoves.v ===== *)
(** * VELOCITY execution: what a transaction does to the balances

    A transfer moves its amount from the sender to the recipient, every
    transaction takes its fee from the sender, who must have both, and no
    adapter writes another balance or the pool of fees. *)

From stdpp Require Import gmap sorting.
From S2P Require Import Prelude Format DbStore DbWal Scheduler Mempool Mvcc MvccBatch MvccWorkers MvccSerial MvccLedger.

(** The change of the balance at [k] when [a] goes from [kf] to [kt] and [fee]
    to the pool. *)
Definition delta (kf kt : bytes) (a fee : Z) (k : bytes) : Z :=
  (if decide (k = kt) then a else 0) - (if decide (k = kf) then a + fee else 0).

Record moves (look : bytes -> option bytes) (writes : list QrxVelocityMvccKV) (kf kt : bytes) (a fee : Z) : Prop := {
  mv_from : balance_key kf;
  mv_to : balance_key kt;
  mv_amount : 0 <= a;
  mv_fee : 0 <= fee;
  mv_touched : forall k, k = kf \/ k = kt -> exists v, read_ll (look k) = Some v /\ (k = kf -> a + fee <= v) /\
    LLONG_MIN <= v + delta kf kt a fee k <= LLONG_MAX /\ kv_find writes k = Some (printed (v + delta kf kt a fee k));
  mv_rest : forall k, money_key k -> k <> kf -> k <> kt -> kv_find writes k = None
}.

(** The end of both adapters. *)
Lemma fee_end {A} (c : M unit) fee (r : A) look ws ws' x : Keeps c -> (c;; put_fee fee;; mret r) look ws = (ws', Some x) ->
  (forall k, money_key k -> kv_find (ws_writes ws') k = kv_find (ws_writes ws) k) /\ ws_fee_delta ws' = fee /\ x = r.
Proof.
  intros Hc H. apply bind_inv in H as ([] & ws1 & H1 & [= <- <-]). destruct (Hc _ _ _ _ H1) as [Hw _]. by split_and!.
Qed.

Lemma money_of_balance k : balance_key k -> money_key k.
Proof. by left. Qed.
#[export] Hint Resolve money_of_balance key_of_balance : money.

(** [snapshot_get] and [snapshot_get_ll] one after the other. *)
Tactic Notation "peel" ident(H) ident(x) ident(Hx) := let ws := fresh "ws" in apply bind_inv in H as (x & ws & Hx & H).
Tactic Notation "peel_lift" ident(H) ident(x) ident(Hx) := peel H x Hx; apply lift_inv in Hx as [-> Hx].
Tactic Notation "peel_check" ident(H) ident(Hx) := let x := fresh "u" in let ws := fresh "ws" in
  apply bind_inv in H as (x & ws & Hx & H); apply check_inv in Hx as [-> Hx].
Tactic Notation "peel_ll" ident(H) ident(x) ident(Hx) ident(Hq) := peel H x Hx; apply get_ll_inv in Hx as [Hq Hx].

Lemma parse_ll_nonneg s b v : parse_ll s b = Some v -> 0 <= v /\ LLONG_MIN <= v <= LLONG_MAX.
Proof.
  unfold parse_ll. case_decide; [done|]. destruct (strtoll_checked s) as [n|] eqn:E; [|done]. cbn [mbind option_bind].
  case_decide as Hn; [done|]. intros [= <-]. split; [destruct b; lia|by eapply strtoll_checked_range].
Qed.

(** Everything that follows the puts of the balances. *)
Lemma tail_keeps from lane nonce tx h t height i sz : Keeps (ws_put_ll (nonce_key from lane) nonce;; put_marks tx h t height i sz).
Proof. apply keeps_bind; [apply keeps_put, nonce_not_money|intros []; apply keeps_marks]. Qed.

Lemma one_write_moves look kf v fee (ws ws' : QrxVelocityMvccWriteSet) :
  balance_key kf -> 0 <= fee -> read_ll (look kf) = Some v -> fee <= v -> LLONG_MIN <= v - fee <= LLONG_MAX -> ws_writes ws = [(kf, printed (v - fee))] ->
  (forall k, money_key k -> kv_find (ws_writes ws') k = kv_find (ws_writes ws) k) -> moves look (ws_writes ws') kf kf 0 fee.
Proof.
  intros Hkf Hf Hr Hfv Hra Hw Hk. rewrite Hw in Hk. split; try done.
  - intros k Hor. assert (k = kf) as -> by tauto. exists v. unfold delta. rewrite !decide_True by done. replace (v + (0 - (0 + fee))) with (v - fee) by lia.
    split_and!; [done|intros; lia|word|word|]. rewrite Hk by auto with money. cbn [kv_find]. by rewrite decide_True.
  - intros k Hm H1 _. rewrite Hk by done. cbn [kv_find]. by rewrite decide_False.
Qed.

Lemma two_writes_moves look kf kt v w a fee (ws ws' : QrxVelocityMvccWriteSet) :
  balance_key kf -> balance_key kt -> kf <> kt -> 0 <= a -> 0 <= fee -> read_ll (look kf) = Some v -> read_ll (look kt) = Some w ->
  a + fee <= v -> LLONG_MIN <= v - (a + fee) <= LLONG_MAX -> LLONG_MIN <= w + a <= LLONG_MAX ->
  ws_writes ws = [(kf, printed (v - (a + fee))); (kt, printed (w + a))] ->
  (forall k, money_key k -> kv_find (ws_writes ws') k = kv_find (ws_writes ws) k) -> moves look (ws_writes ws') kf kt a fee.
Proof.
  intros Hkf Hkt Hne Ha Hf Hr Hrw Hv Hra Hrb Hw Hk. rewrite Hw in Hk. split; try done.
  - intros k [->| ->]; unfold delta.
    + exists v. rewrite (decide_False (P := kf = kt)), decide_True by done. replace (v + (0 - (a + fee))) with (v - (a + fee)) by lia.
      split_and!; [done|done|word|word|]. rewrite Hk by auto with money. cbn [kv_find]. by rewrite decide_False, decide_True.
    + exists w. rewrite (decide_True (P := kt = kt)), decide_False by done. replace (w + (a - 0)) with (w + a) by lia.
      split_and!; [done|congruence|word|word|]. rewrite Hk by auto with money. cbn [kv_find]. by rewrite decide_True.
  - intros k Hm H1 H2. rewrite Hk by done. cbn [kv_find]. by rewrite !decide_False.
Qed.

Lemma adapter_tail {A} from lane nonce tx h t height i sz fee (r : A) look ws ws' x :
  (ws_put_ll (nonce_key from lane) nonce;; put_marks tx h t height i sz;; put_fee fee;; mret r) look ws = (ws', Some x) ->
  (forall k, money_key k -> kv_find (ws_writes ws') k = kv_find (ws_writes ws) k) /\ ws_fee_delta ws' = fee /\ x = r.
Proof.
  intros H. peel H u Hn. assert (Keeps (ws_put_ll (nonce_key from lane) nonce)) as Hk by apply keeps_put, nonce_not_money.
  destruct (Hk _ _ _ _ Hn) as [Hw _]. apply fee_end in H as (Hw2 & Hf & Hx); [|apply keeps_marks].
  split_and!; [|done..]. intros k Hm. by rewrite Hw2, Hw.
Qed.

Lemma transfer_moves tx i h look ws ws' rc : transfer_body tx i h look ws = (ws', Some rc) -> ws_writes ws = [] ->
  rc = QRX_MVCC_OK /\ exists kf kt a fee, moves look (ws_writes ws') kf kt a fee /\ ws_fee_delta ws' = fee.
Proof.
  intros H Hw. unfold transfer_body in H.
  peel_lift H from Hfrom. peel_lift H to Hto. peel_lift H amount_s Ha. peel_lift H fee_s Hf. peel_lift H nonce_s Hn. peel_lift H lane_s Hl.
  peel_lift H bh Hb. peel_lift H amount Ham. peel_lift H fee Hfe. peel_lift H nonce Hno. peel_lift H lane Hla. cbv zeta in H.
  peel H found Hfd. apply get_inv in Hfd as [Hq0 _]. peel_check H Hnone. peel_ll H fb Hfb Hq1. peel_ll H tb Htb Hq2. peel_ll H cn Hcn Hq3.
  peel_check H Hnc. peel_lift H debit Hd. peel_check H Hdb.
  pose proof (quiet_trans _ _ _ (quiet_trans _ _ _ Hq0 Hq1) (quiet_trans _ _ _ Hq2 Hq3)) as [Hq _]. rewrite Hw in Hq.
  apply parse_ll_nonneg in Ham as [Ham Har]. apply parse_ll_nonneg in Hfe as [Hfe Hfr]. apply read_ll_range in Hfb as Hfbr. apply read_ll_range in Htb as Htbr.
  apply add_ll_spec in Hd as [-> Hdr]; [|done].
  set (kf := key_of (cs "acct:balance:") from) in *. set (kt := key_of (cs "acct:balance:") to) in *.
  assert (balance_key kf /\ balance_key kt) as [Hbf Hbt] by (split; apply key_of_balance).
  peel H p Hp. destruct (decide (from = to)) as [Heq|Hne].
  - peel_lift Hp n Hnf. injection Hp as <- <-. apply add_ll_spec in Hnf as [-> Hnr]; [|done].
    peel H p1 Hput. injection Hput as <-. peel H p2 Hput. injection Hput as <-.
    apply adapter_tail in H as (Hk & Hfd & ->). split; [done|]. exists kf, kf, 0, fee. split; [|done].
    apply (one_write_moves look kf fb fee _ ws' Hbf Hfe Hfb ltac:(lia) ltac:(lia)) with (2 := Hk).
    cbn [ws_writes set_writes]. rewrite Hq. reflexivity.
  - peel_lift Hp n Hnf. peel_lift Hp t Hnt. injection Hp as <- <-. apply add_ll_spec in Hnf as [-> Hnr]; [|done]. apply add_ll_spec in Hnt as [-> Hnt]; [|done].
    peel H p1 Hput. injection Hput as <-. peel H p2 Hput. injection Hput as <-.
    apply adapter_tail in H as (Hk & Hfd & ->). split; [done|]. exists kf, kt, amount, fee. split; [|done].
    assert (kf <> kt) as Hkne.
    { intros He. apply Hne, (key_of_inj from to); [apply field_length in Hfrom; lia|apply field_length in Hto; lia|done]. }
    apply (two_writes_moves look kf kt fb tb amount fee _ ws' Hbf Hbt Hkne Ham Hfe Hfb Htb Hdb ltac:(lia) Hnt) with (2 := Hk).
    cbn [ws_writes set_writes]. rewrite Hq. cbn [kv_set]. by rewrite decide_False by done.
Qed.

Lemma common_moves tx i h look ws ws' x : prepare_common_nontransfer tx i h look ws = (ws', Some x) -> ws_writes ws = [] ->
  exists kf kt a fee, moves look (ws_writes ws') kf kt a fee /\ ws_fee_delta ws' = fee.
Proof.
  intros H Hw. unfold prepare_common_nontransfer in H. peel_check H Hver. peel_lift H type Htype.
  peel_lift H from Hfrom. peel_lift H to Hto. peel_lift H fee_s Hf. peel_lift H nonce_s Hn. peel_lift H lane_s Hl.
  peel_lift H payload Hpay. peel_lift H bh Hb. peel_lift H fee Hfe. peel_lift H nonce Hno. peel_lift H lane Hla. cbv zeta in H.
  peel H found Hfd. apply get_inv in Hfd as [Hq0 _]. peel_check H Hnone. peel_ll H fb Hfb Hq1. peel_ll H cn Hcn Hq3.
  peel_check H Hnc. destruct Hnc as (_ & _ & Hdb). peel_lift H n Hnf.
  pose proof (quiet_trans _ _ _ Hq0 (quiet_trans _ _ _ Hq1 Hq3)) as [Hq _]. rewrite Hw in Hq.
  apply parse_ll_nonneg in Hfe as [Hfe Hfr]. apply read_ll_range in Hfb as Hfbr. apply add_ll_spec in Hnf as [-> Hnr]; [|done].
  set (kf := key_of (cs "acct:balance:") from) in *. assert (balance_key kf) as Hbf by apply key_of_balance.
  peel H p1 Hput. injection Hput as <-. apply adapter_tail in H as (Hk & Hfd & ->). exists kf, kf, 0, fee. split; [|done].
  apply (one_write_moves look kf fb fee _ ws' Hbf Hfe Hfb ltac:(lia) ltac:(lia)) with (2 := Hk).
  cbn [ws_writes set_writes]. rewrite Hq. reflexivity.
Qed.

(** ** Agents and gateways *)

Ltac keeps := repeat (intros; cbv zeta; match goal with
  | |- Keeps (mbind _ _) => apply keeps_bind
  | |- Keeps (mret _) => apply keeps_ret
  | |- Keeps (mlift _) => apply keeps_lift
  | |- Keeps (mcheck _) => apply keeps_check
  | |- Keeps (snapshot_get _ _) => apply keeps_get
  | |- Keeps (put_fields _ _) => apply keeps_fields; intros; auto with money
  | |- Keeps (if ?b then _ else _) => destruct b
  end).

(** An adapter that goes on after the common part without touching money. *)
Lemma stateful_moves tx i h (rest : bytes * bytes * bytes * bytes * bytes -> M Z) look ws ws' rc :
  (prepare_common_nontransfer tx i h ≫= rest) look ws = (ws', Some rc) -> (forall x, Keeps (rest x)) -> ws_writes ws = [] ->
  exists kf kt a fee, moves look (ws_writes ws') kf kt a fee /\ ws_fee_delta ws' = fee.
Proof.
  intros H Hr Hw. apply bind_inv in H as (x & ws1 & Hc & H). destruct (Hr x _ _ _ _ H) as [Hk Hf].
  destruct (common_moves tx i h look ws ws1 x Hc Hw) as (kf & kt & a & fee & [M1 M2 M3 M4 M5 M6] & Hfee).
  exists kf, kt, a, fee. split; [|congruence]. split; try done.
  - intros k Hor. destruct (M5 k Hor) as (v & V1 & V2 & V3 & V4). exists v. refine (conj V1 (conj V2 (conj V3 _))).
    rewrite Hk; [done|]. left. by destruct Hor as [->| ->].
  - intros k Hm H1 H2. rewrite Hk by done. by apply M6.
Qed.

(** ** The dispatcher *)

Lemma finish_ok r ws : finish r = (QRX_MVCC_OK, ws) -> exists ws0, r = (ws0, Some QRX_MVCC_OK) /\ ws_writes ws = ws_writes ws0 /\ ws_fee_delta ws = ws_fee_delta ws0.
Proof. destruct r as [ws0 [rc0|]]; intros Hf; injection Hf as Hr <-; [subst; by exists ws0|discriminate Hr]. Qed.

Lemma phase4c_moves dyn look tx txid i wave h ws : not_dynamic tx -> prepare_phase4c_tx dyn look tx txid i wave h = (QRX_MVCC_OK, ws) ->
  exists kf kt a fee, moves look (ws_writes ws) kf kt a fee /\ ws_fee_delta ws = fee.
Proof.
  intros Hn. unfold prepare_phase4c_tx. cbv zeta. repeat case_decide; try done; intros Hrun; apply finish_ok in Hrun as (ws0 & Hrun & -> & ->).
  - unfold transfer_main in Hrun. case_decide; [|done]. by apply (transfer_moves tx i h look (ws_init txid i wave) ws0 _ Hrun).
  - apply (stateful_moves tx i h _ look (ws_init txid i wave) ws0 _ Hrun); [|done]. intros ((((type & owner) & agent) & payload) & bh). keeps.
  - apply (stateful_moves tx i h _ look (ws_init txid i wave) ws0 _ Hrun); [|done]. intros ((((type & owner) & agent) & payload) & bh). keeps.
Qed.
