(* ===== verification/MvccExec.v ===== *)
(** * VELOCITY execution: the state of the database

    What a batch of [qrx_velocity_mvcc_execute_batch] does to the contents of
    the database: all or nothing, with the state that the transactions leave
    when they are executed one after the other on the state before the batch
    ([exec_plan]), and without money appearing or disappearing ([supply]). *)

From stdpp Require Import gmap sorting.
From S2P Require Import Prelude Format DbCodec DbStore DbLog DbView DbMerkle DbWal DbCommit Scheduler Mempool Mvcc MvccBatch MvccWorkers MvccSerial MvccLedger MvccMoves.

(** ** The specification: one transaction after the other *)

(** A map of strings below the writes made so far. *)
Definition over (m : list QrxVelocityMvccKV) (base : bytes -> option bytes) (k : bytes) : option bytes :=
  match kv_find m k with Some v => Some v | None => base k end.
Definition state_look (s : kvs) (k : bytes) : option bytes := cstr <$> s !! k.

Section spec.
(** The adapter of order transactions, over the writes made so far. *)
Variable dyn : list QrxVelocityMvccKV -> adapter.
Variables (plan : QrxVelocityPlan) (valid_mask : option (list Z)) (height : Z).
Variable base : bytes -> option bytes.

Definition exec_one (st : list QrxVelocityMvccKV * Z) (wi : Z * nat) : option (list QrxVelocityMvccKV * Z) :=
  let '(m, fee) := st in
  let '(rc, ws) := prepare_phase4c_tx (dyn m) (over m base) (default [] (txs plan !! snd wi)) (default [] (txids plan !! snd wi))
    (Z.of_nat (snd wi)) (fst wi) height in
  if is_valid valid_mask (snd wi) && bool_decide (rc = QRX_MVCC_OK) then
    total ← add_ll fee (ws_fee_delta ws); Some (set_all m (ws_writes ws), total)
  else None.

Definition exec_fees (st : list QrxVelocityMvccKV * Z) : option (list QrxVelocityMvccKV) :=
  let '(m, fee) := st in
  if decide (fee = 0) then Some m
  else b ← read_ll (over m base fee_pool_key); new ← add_ll b fee; Some (kv_set m fee_pool_key (printed new)).

(** The waves in order, each in the order of the plan, and then the fees. *)
Definition exec_plan : option (list QrxVelocityMvccKV) :=
  st ← foldl (fun st wi => st ← st; exec_one st wi) (Some ([], 0)) (plan_order plan (Z.to_nat (plan_wave_count plan)));
  exec_fees st.
End spec.

(** ** The snapshot is the state *)

Section refine.
Variable dyn : QrxDBReadTxn -> list QrxVelocityMvccKV -> adapter.
Variables (db : QrxDB) (plan : QrxVelocityPlan) (valid_mask : option (list Z)) (height : Z).
Variable base : bytes -> option bytes.
Hypothesis plan_not_dynamic : forall i t, txs plan !! i = Some t -> not_dynamic t.
Hypothesis base_snapshot : forall k, (fun v => cstr (vw_value v)) <$> qrxdb_get_view_at db (Some (qrxdb_read_txn_begin db)) k = base k.

Lemma look_at_over m k : look_at db (qrxdb_read_txn_begin db) m k = over m base k.
Proof using base_snapshot. unfold look_at, over. by rewrite base_snapshot. Qed.

Lemma serial_exec_one st wi : serial_one dyn db plan valid_mask height (qrxdb_read_txn_begin db) st wi = exec_one (dyn (qrxdb_read_txn_begin db)) plan valid_mask height base st wi.
Proof using plan_not_dynamic base_snapshot.
  destruct st as [m fee]. unfold serial_one, exec_one, prepare_at.
  assert (forall tx txid i w, not_dynamic tx -> prepare_phase4c_tx (dyn (qrxdb_read_txn_begin db) m) (over m base) tx txid i w height
    = prepare_phase4c_tx (dyn (qrxdb_read_txn_begin db) m) (look_at db (qrxdb_read_txn_begin db) m) tx txid i w height) as ->; [|done|].
  - intros tx txid i w Hn. apply phase4c_frame; [done|]. intros k _. apply look_at_over.
  - by apply tx_not_dynamic.
Qed.

Lemma serial_exec_plan : serial_batch dyn db plan valid_mask height = exec_plan (dyn (qrxdb_read_txn_begin db)) plan valid_mask height base.
Proof using plan_not_dynamic base_snapshot.
  unfold serial_batch, exec_plan. cbv zeta. unfold serial.
  assert (forall l st, foldl (fun st wi => st ← st; serial_one dyn db plan valid_mask height (qrxdb_read_txn_begin db) st wi) st l
    = foldl (fun st wi => st ← st; exec_one (dyn (qrxdb_read_txn_begin db)) plan valid_mask height base st wi) st l) as ->.
  { induction l as [|wi l IH]; intros st; [done|]. cbn [foldl]. rewrite IH. destruct st as [st|]; cbn [mbind option_bind]; [by rewrite serial_exec_one|done]. }
  destruct (foldl _ _ _) as [[m fee]|]; [|done]. cbn [mbind option_bind]. unfold serial_fees, exec_fees, read_ll, printed.
  rewrite look_at_over. done.
Qed.
End refine.

(** ** Accounts *)

Definition amount_at (o : option bytes) : Z := default 0 (read_ll o).
Definition total (look : bytes -> option bytes) (ks : list bytes) : Z := zsum ((fun k => amount_at (look k)) <$> ks).

Lemma zsum_add {A} (f g : A -> Z) l : zsum ((fun x => f x + g x) <$> l) = zsum (f <$> l) + zsum (g <$> l).
Proof. induction l as [|x l IH]; [done|]. rewrite !fmap_cons, !zsum_cons, IH. lia. Qed.

Lemma zsum_ext {A} (f g : A -> Z) l : (forall x, x ∈ l -> f x = g x) -> zsum (f <$> l) = zsum (g <$> l).
Proof.
  intros H. f_equal. apply list_fmap_ext. intros i x Hx. by apply H, (list_elem_of_lookup_2 _ i).
Qed.

Lemma zsum_at {A} `{EqDecision A} (x : A) c l : NoDup l -> zsum ((fun k => if decide (k = x) then c else 0) <$> l) = if decide (x ∈ l) then c else 0.
Proof.
  induction l as [|y l IH]; intros Hd; [by rewrite decide_False by apply not_elem_of_nil|]. apply NoDup_cons in Hd as [Hn Hd].
  rewrite fmap_cons, zsum_cons, IH by done. destruct (decide (y = x)) as [->|Hne].
  - rewrite (decide_False (P := x ∈ l)), decide_True by (done || apply list_elem_of_here). lia.
  - destruct (decide (x ∈ l)).
    + rewrite decide_True by by apply list_elem_of_further. lia.
    + rewrite decide_False; [lia|]. by intros [?|?]%elem_of_cons; [congruence|].
Qed.

Lemma total_delta kf kt a fee ks : NoDup ks -> kf ∈ ks -> kt ∈ ks -> zsum (delta kf kt a fee <$> ks) = - fee.
Proof.
  intros Hd Hf Ht. rewrite (zsum_ext _ (fun k => (if decide (k = kt) then a else 0) + (if decide (k = kf) then - (a + fee) else 0)))
    by (intros k _; unfold delta; repeat case_decide; lia).
  rewrite zsum_add, !zsum_at by done. rewrite !decide_True by done. lia.
Qed.

(** What the writes [m] and the fees of a prefix of the batch look like. *)
Record book (base : bytes -> option bytes) (st : list QrxVelocityMvccKV * Z) : Prop := {
  bk_nodup : NoDup st.1.*1;
  bk_pool : kv_find st.1 fee_pool_key = None;
  bk_fee : 0 <= st.2 <= LLONG_MAX;
  bk_printed : forall k v, balance_key k -> kv_find st.1 k = Some v -> exists n, LLONG_MIN <= n <= LLONG_MAX /\ v = printed n;
  bk_total : forall ks, NoDup ks -> (forall k, balance_key k -> k ∈ st.1.*1 -> k ∈ ks) -> Forall balance_key ks ->
    total (over st.1 base) ks + st.2 = total base ks;
  bk_solvent : forall k, balance_key k -> 0 <= amount_at (base k) -> 0 <= amount_at (over st.1 base k)
}.

Lemma book_nil base : book base ([], 0).
Proof. split; try done. - constructor. - intros ks _ _ _. unfold total. cbn [fst snd over kv_find]. lia. Qed.

(** A balance after a transaction. *)
Lemma moves_amount base m ws kf kt a fee k : NoDup m.*1 -> moves (over m base) (ws_writes ws) kf kt a fee -> balance_key k ->
  amount_at (over (set_all m (ws_writes ws)) base k) = amount_at (over m base k) + delta kf kt a fee k /\
  (k = kf -> a + fee <= amount_at (over m base k)).
Proof.
  intros Hd [M1 M2 M3 M4 M5 M6] Hk. unfold over at 1. rewrite kv_find_all by done. destruct (decide (k = kf \/ k = kt)) as [Hor|Hn].
  - destruct (M5 k Hor) as (v & V1 & V2 & V3 & ->). unfold amount_at. rewrite read_printed by done. by rewrite V1.
  - rewrite M6 by (try tauto; by left). unfold delta. rewrite !decide_False by tauto. split; [fold (over m base k); lia|tauto].
Qed.

Lemma book_step dyn plan valid_mask height base st wi st' :
  not_dynamic (default [] (txs plan !! snd wi)) -> book base st -> exec_one dyn plan valid_mask height base st wi = Some st' -> book base st'.
Proof.
  intros Hn [B1 B2 B3 B4 B5 B6] H. destruct st as [m f]. cbn [fst snd] in *. unfold exec_one in H.
  destruct (prepare_phase4c_tx _ _ _ _ _ _ _) as [rc ws] eqn:Ep. destruct (is_valid _ _); [|done]. cbn [andb] in H.
  case_bool_decide as Hrc; [|done]. subst rc. destruct (add_ll f (ws_fee_delta ws)) as [t|] eqn:Ea; [|done].
  injection H as <-. apply phase4c_moves in Ep as (kf & kt & a & fee & Hm & Hfee); [|done]. rewrite Hfee in Ea.
  apply add_ll_spec in Ea as [-> Hr]; [|word]. pose proof (mv_fee _ _ _ _ _ _ Hm) as Hf0. pose proof (mv_amount _ _ _ _ _ _ Hm) as Ha0.
  split; cbn [fst snd]; try lia.
  - by apply set_all_nodup.
  - rewrite kv_find_all by done. rewrite (mv_rest _ _ _ _ _ _ Hm), B2; [done|by right|..].
    + intros E. pose proof (mv_from _ _ _ _ _ _ Hm) as Hb. rewrite <- E in Hb. by vm_compute in Hb.
    + intros E. pose proof (mv_to _ _ _ _ _ _ Hm) as Hb. rewrite <- E in Hb. by vm_compute in Hb.
  - intros k v Hk. rewrite kv_find_all by done. destruct (decide (k = kf \/ k = kt)) as [Hor|Hno].
    + destruct (mv_touched _ _ _ _ _ _ Hm k Hor) as (w & _ & _ & V3 & ->). intros [= <-]. by eexists.
    + rewrite (mv_rest _ _ _ _ _ _ Hm) by (try tauto; by left). by apply B4.
  - intros ks Hnd Hin Hall. assert (forall k, k = kf \/ k = kt -> k ∈ ks) as Hks.
    { intros k Hor. apply Hin; [destruct Hor as [->| ->]; apply Hm|]. apply set_all_keys. right.
      destruct (mv_touched _ _ _ _ _ _ Hm k Hor) as (w & _ & _ & _ & V4). by eapply kv_find_elem. }
    rewrite <- (B5 ks Hnd) by first [done|intros k Hk Hkm; apply Hin; [done|]; apply set_all_keys; by left]. unfold total.
    rewrite (zsum_ext _ (fun k => amount_at (over m base k) + delta kf kt a fee k)).
    + rewrite zsum_add, total_delta by auto. lia.
    + intros k Hk. rewrite Forall_forall in Hall. by apply moves_amount; auto.
  - intros k Hk Hb. destruct (moves_amount base m ws kf kt a fee k B1 Hm Hk) as [-> Hs]. specialize (B6 k Hk Hb). unfold delta.
    destruct (decide (k = kf)) as [Hkf|]; [specialize (Hs Hkf)|]; case_decide; lia.
Qed.

(** The same for all writes of a batch, the pool of fees included. *)
Record settled (base : bytes -> option bytes) (m : list QrxVelocityMvccKV) : Prop := {
  st_nodup : NoDup m.*1;
  st_printed : forall k v, money_key k -> kv_find m k = Some v -> exists n, LLONG_MIN <= n <= LLONG_MAX /\ v = printed n;
  st_total : forall ks, NoDup ks -> (forall k, balance_key k -> k ∈ m.*1 -> k ∈ ks) -> Forall balance_key ks ->
    total (over m base) ks + amount_at (over m base fee_pool_key) = total base ks + amount_at (base fee_pool_key);
  st_solvent : forall k, balance_key k -> 0 <= amount_at (base k) -> 0 <= amount_at (over m base k)
}.

Lemma pool_not_balance k : balance_key k -> k <> fee_pool_key.
Proof. intros H ->. by vm_compute in H. Qed.

Lemma book_settled base st m : book base st -> exec_fees base st = Some m -> settled base m.
Proof.
  intros [B1 B2 B3 B4 B5 B6] H. destruct st as [m0 fee]. cbn [fst snd] in *. unfold exec_fees in H.
  assert (over m0 base fee_pool_key = base fee_pool_key) as Hp by (unfold over; by rewrite B2). case_decide as Hz.
  - injection H as <-. split; try done.
    + intros k v [Hk| ->]; [by apply B4|by rewrite B2].
    + intros ks H1 H2 H3. specialize (B5 ks H1 H2 H3). rewrite Hp. lia.
  - rewrite Hp in H. destruct (read_ll (base fee_pool_key)) as [b|] eqn:Eb; [|done]. cbn [mbind option_bind] in H.
    apply read_ll_range in Eb as Hbr. destruct (add_ll b fee) as [new|] eqn:Ea; [|done]. injection H as <-. apply add_ll_spec in Ea as [-> Hr]; [|done].
    assert (forall k, balance_key k -> over (kv_set m0 fee_pool_key (printed (b + fee))) base k = over m0 base k) as Hov
      by (intros k Hk; unfold over; rewrite kv_find_set_ne; [done|by apply pool_not_balance]).
    split.
    + by apply kv_set_nodup.
    + intros k v [Hk| ->].
      * rewrite kv_find_set_ne by by apply pool_not_balance. by apply B4.
      * rewrite kv_find_set_eq by done. intros [= <-]. by exists (b + fee).
    + intros ks H1 H2 H3. assert (forall k, balance_key k -> k ∈ m0.*1 -> k ∈ ks) as H2'.
      { intros k Hk Hin. apply H2; [done|]. cbn [fst]. rewrite kv_set_keys. case_decide; [done|]. apply elem_of_app. by left. }
      rewrite <- (B5 ks H1 H2' H3).
      assert (total (over (kv_set m0 fee_pool_key (printed (b + fee))) base) ks = total (over m0 base) ks) as ->.
      { apply zsum_ext. intros k Hk. rewrite Hov; [done|]. rewrite Forall_forall in H3. by apply H3. }
      unfold over at 2. rewrite kv_find_set_eq by done. unfold amount_at. rewrite read_printed, Eb by done. cbn [default from_option]. unfold id. lia.
    + intros k Hk. rewrite Hov by done. by apply B6.
Qed.

Lemma exec_plan_settled dyn plan valid_mask height base m : (forall i t, txs plan !! i = Some t -> not_dynamic t) ->
  exec_plan dyn plan valid_mask height base = Some m -> settled base m.
Proof.
  intros Hn. unfold exec_plan. destruct (foldl _ _ _) as [st|] eqn:E; [|done]. cbn [mbind option_bind]. apply book_settled.
  revert E. assert (forall l st0, book base st0 -> foldl (fun st wi => st ← st; exec_one dyn plan valid_mask height base st wi) (Some st0) l = Some st -> book base st) as Hl.
  { induction l as [|wi l IH]; intros st0 Hb; cbn [foldl]; [by intros [= <-]|]. cbn [mbind option_bind].
    destruct (exec_one dyn plan valid_mask height base st0 wi) as [st1|] eqn:E1.
    - apply IH. eapply book_step; [|exact Hb|exact E1]. apply (tx_not_dynamic plan Hn).
    - intros Hx. exfalso. revert Hx. clear. induction l as [|x l IHl]; [done|exact IHl]. }
  apply Hl, book_nil.
Qed.
