(* ===== verification/MvccState.v ===== *)
(** * VELOCITY execution: batches on the database

    [qrx_velocity_mvcc_execute_batch] against the contents of the database:
    the state after it, and the supply of money. *)

From stdpp Require Import gmap sorting.
From S2P Require Import Prelude Format DbCodec DbStore DbLog DbView DbMerkle DbWal DbCommit Scheduler Mempool Mvcc MvccBatch MvccWorkers MvccSerial MvccLedger MvccMoves MvccExec.

(** ** Puts without repeated keys *)

Lemma kv_find_Some m k v : NoDup m.*1 -> kv_find m k = Some v <-> (k, v) ∈ m.
Proof.
  induction m as [|[k1 v1] m IH]; cbn [fmap list_fmap fst kv_find]; intros Hd; [split; [done|by intros ?%elem_of_nil]|].
  apply NoDup_cons in Hd as [Hn Hd]. specialize (IH Hd). rewrite elem_of_cons. destruct (kv_find m k) as [w|] eqn:E.
  - rewrite IH. split; [by right|]. intros [[= -> ->]|H]; [|done]. by apply kv_find_elem in E.
  - case_decide as Hk; [subst|]; split.
    + intros [= ->]. by left.
    + intros [[= ->]|H]; [done|]. exfalso. apply Hn, list_elem_of_fmap. by exists (k, v).
    + done.
    + intros [[= <- <-]|H]; [done|]. by apply IH.
Qed.

Lemma kv_find_perm m m' k : NoDup m.*1 -> m ≡ₚ m' -> kv_find m k = kv_find m' k.
Proof.
  intros Hd Hp. assert (NoDup m'.*1) as Hd' by by rewrite <- Hp. apply option_eq. intros v.
  rewrite !kv_find_Some by done. by rewrite Hp.
Qed.

Lemma apply_puts_lookup s m k : NoDup m.*1 -> apply_puts s m !! k =
  match kv_find m k with Some v => if qrxdb_is_tombstone v then None else Some v | None => s !! k end.
Proof.
  unfold apply_puts. revert s. induction m as [|[k1 v1] m IH]; cbn [fmap list_fmap fst kv_find foldl snd]; intros s Hd; [done|].
  apply NoDup_cons in Hd as [Hn Hd]. rewrite IH by done. destruct (kv_find m k) as [v|] eqn:E; [done|].
  unfold put_or_delete. case_decide as Hk.
  - subst. destruct (qrxdb_is_tombstone v1); [apply lookup_delete_eq|apply lookup_insert_eq].
  - destruct (qrxdb_is_tombstone v1); [by apply lookup_delete_ne|by apply lookup_insert_ne].
Qed.

Lemma apply_puts_perm s m m' : NoDup m.*1 -> m ≡ₚ m' -> apply_puts s m = apply_puts s m'.
Proof.
  intros Hd Hp. apply map_eq. intros k. rewrite !apply_puts_lookup by (done || by rewrite <- Hp). by rewrite (kv_find_perm m m').
Qed.

(** ** The commit *)

(** The database has room for the writes, and its counters for one more
    generation. *)
Record room (db : QrxDB) (m : list (bytes * bytes)) : Prop := {
  rm_short : short_puts m;
  rm_generation : generation db < UINT64_MAX;
  rm_segment : wal_segment_id db < UINT64_MAX;
  rm_space : write_offset db + zsum ((fun kv => qrxdb_record_storage_size (blen kv.1) (blen kv.2)) <$> m) <= 2 ^ 61
}.

Section commit.
Variable sha3_512 : bytes -> bytes.

Lemma mvcc_commit_ok db s o db' rc :
  contents sha3_512 db s -> snapshot o = qrxdb_read_txn_begin db -> NoDup (merged o).*1 -> room db (merged o) ->
  qrx_velocity_mvcc_commit sha3_512 db o = (db', rc) ->
  if decide (rc = QRX_MVCC_OK)
  then contents sha3_512 db' (apply_puts s (merged o)) /\ serves sha3_512 db' (apply_puts s (merged o))
  else db' = db.
Proof.
  intros Hc Hsn Hd [R1 R2 R3 R4] H. unfold qrx_velocity_mvcc_commit in H. rewrite Hsn in H.
  rewrite decide_False in H by (unfold qrxdb_read_txn_begin; cbn [tx_generation]; tauto).
  destruct (decide (merged o = [])) as [He|Hne]; [injection H as <- <-; rewrite He; cbn; by split; [|apply contents_serves]|].
  set (puts := merge_sort cmp_mvcc_kv (merged o)) in *. assert (merged o ≡ₚ puts) as Hp by (symmetry; apply merge_sort_Permutation).
  destruct (qrxdb_batch_begin db) as [b0|] eqn:Eb; [|by injection H as <- <-]. fold (fill b0 puts) in H.
  destruct (fill b0 puts) as [b|] eqn:Ef; [|by injection H as <- <-].
  assert (batch_for db puts b) as Hb.
  { split; try done.
    - rewrite Eb. exact Ef.
    - intros E. rewrite E in Hp. by apply Permutation_nil_r in Hp.
    - unfold short_puts. by rewrite <- Hp.
    - rewrite <- (zsum_permutation _ _ (fmap_Permutation _ _ _ Hp)). done. }
  pose proof (batch_commit_ok sha3_512 db s puts b Hc Hb) as Hok. rewrite (apply_puts_perm s _ _ Hd Hp). revert Hok. case_decide.
  - intros Hok. rewrite Hok in H. by injection H as <- <-.
  - intros (db1 & Hok & H1 & H2 & _). rewrite Hok in H. by injection H as <- <-.
Qed.
End commit.

(** ** Batches *)

Lemma plan_order_snoc plan n : plan_order plan (S n) = plan_order plan n ++ order_of plan n.
Proof. unfold plan_order. rewrite seq_S, fmap_app, concat_app. cbn [fmap list_fmap concat Nat.add]. by rewrite app_nil_r. Qed.

Lemma plan_order_elem plan n wi : wi ∈ plan_order plan n ->
  plan_waves plan !! wi.2 = Some wi.1 /\ wi.1 < Z.of_nat n /\ (wi.2 < Z.to_nat (count plan))%nat.
Proof.
  induction n as [|n IH]; [by intros ?%elem_of_nil|]. rewrite plan_order_snoc, elem_of_app. intros [H|H].
  - destruct (IH H) as (? & ? & ?). split_and!; [done|lia|done].
  - unfold order_of in H. apply list_elem_of_fmap in H as (i & -> & Hi). apply wave_indices_spec in Hi as [H1 H2]. cbn [fst snd]. split_and!; [done|lia|done].
Qed.

Lemma plan_order_nodup plan n : NoDup (plan_order plan n).*2.
Proof.
  induction n as [|n IH]; [constructor|]. rewrite plan_order_snoc, fmap_app. apply NoDup_app. split_and!; [done| |].
  - intros i (wi & -> & H1)%list_elem_of_fmap (wj & Heq & H2)%list_elem_of_fmap. apply plan_order_elem in H1 as (H1 & H3 & _).
    unfold order_of in H2. apply list_elem_of_fmap in H2 as (j & -> & Hj). cbn [snd] in Heq. subst j.
    apply wave_indices_spec in Hj as [Hj _]. rewrite H1 in Hj. injection Hj as Hj. lia.
  - unfold order_of. rewrite <- list_fmap_compose. rewrite (list_fmap_ext _ id) by done. rewrite list_fmap_id. apply wave_indices_nodup.
Qed.

Lemma plan_order_length plan n : blen (plan_order plan n) <= Z.max 0 (count plan).
Proof.
  assert (length (plan_order plan n).*2 <= length (seq 0 (Z.to_nat (count plan))))%nat as H.
  { apply submseteq_length, NoDup_submseteq; [apply plan_order_nodup|]. intros i (wi & -> & Hw)%list_elem_of_fmap.
    apply plan_order_elem in Hw as (_ & _ & ?). apply elem_of_seq. lia. }
  rewrite length_fmap, length_seq in H. unfold blen. lia.
Qed.

(** A plan of [qrx_velocity_build_plan] without transactions for the order book. *)
Record native_plan (plan : QrxVelocityPlan) : Prop := {
  np_count : count plan < 2 ^ 64;
  np_native : forall i t, txs plan !! i = Some t -> not_dynamic t
}.

(** The amount at a key of the state, and all money: the balances and the pool. *)
Definition amount (s : kvs) (k : bytes) : Z := amount_at (state_look s k).
Definition supply (s : kvs) : Z := zsum (amount s <$> filter balance_key (elements (dom s))) + amount s fee_pool_key.

Lemma supply_over s ks : NoDup ks -> (forall k, balance_key k -> k ∈ dom s -> k ∈ ks) -> Forall balance_key ks ->
  supply s = total (state_look s) ks + amount s fee_pool_key.
Proof.
  intros Hd Hin Hall. unfold supply, total. f_equal. change (fun k => amount_at (state_look s k)) with (amount s).
  rewrite <- (zsum_permutation _ _ (fmap_Permutation (amount s) _ _ (filter_app_complement (.∈ dom s) ks))), fmap_app, zsum_app.
  assert (filter (.∈ dom s) ks ≡ₚ filter balance_key (elements (dom s))) as ->.
  { apply NoDup_Permutation; [by apply NoDup_filter|apply NoDup_filter, NoDup_elements|]. intros k. rewrite !list_elem_of_filter, elem_of_elements.
    rewrite Forall_forall in Hall. split; intros [H1 H2]; split; auto. }
  rewrite (zsum_ext (amount s) (fun _ => 0) (filter (fun x => ~ x ∈ dom s) ks)).
  - assert (forall l : list bytes, zsum ((fun _ => 0) <$> l) = 0) as -> by (induction l as [|x l IH]; [done|exact IH]). lia.
  - intros k Hk. apply list_elem_of_filter in Hk as [Hk _]. apply not_elem_of_dom in Hk. unfold amount, state_look. by rewrite Hk.
Qed.

Lemma print_d_chars n : Forall (fun c => is_digit c = true \/ c = x2d) (print_d n).
Proof.
  assert (forall m, Forall (fun c => is_digit c = true \/ c = x2d) (print_u m)) as Hu.
  { intros m. eapply Forall_impl; [apply (proj1 (ChainGenesis.udec_loop_ok 20 m [] (Forall_nil_2 _)))|]. intros c Hc. by left. }
  unfold print_d. case_decide; [constructor; [by right|]|]; apply Hu.
Qed.

Lemma printed_clean n : cstr (printed n) = printed n /\ qrxdb_is_tombstone (printed n) = false.
Proof.
  assert (Forall (fun c => is_digit c = true \/ c = x2d) (printed n)) as H by (unfold printed, snprintf_s; apply Forall_take, print_d_chars).
  split.
  - apply cstr_no_nul. intros Hin. rewrite Forall_forall in H. destruct (H _ Hin) as [Hc|Hc]; [by vm_compute in Hc|done].
  - apply not_true_is_false. unfold qrxdb_is_tombstone. intros Ht. apply bool_decide_eq_true in Ht. rewrite Ht in H. unfold qrxdb_tombstone_value in H.
    apply Forall_cons in H as [[H|H] _]; [by vm_compute in H|done].
Qed.

Lemma amount_after s m k : settled (state_look s) m -> money_key k -> amount (apply_puts s m) k = amount_at (over m (state_look s) k).
Proof.
  intros [Hd Hp _ _] Hk. unfold amount, state_look at 1, over. rewrite apply_puts_lookup by done. destruct (kv_find m k) as [v|] eqn:E; [|done].
  destruct (Hp k v Hk E) as (n & _ & ->). destruct (printed_clean n) as [Hc ->]. cbn [fmap option_fmap option_map]. by rewrite Hc.
Qed.

Lemma supply_after s m : settled (state_look s) m -> supply (apply_puts s m) = supply s.
Proof.
  intros Hs. set (ks := filter balance_key (elements (dom s ∪ dom (apply_puts s m) ∪ list_to_set m.*1))).
  assert (NoDup ks) as Hd by apply NoDup_filter, NoDup_elements.
  assert (Forall balance_key ks) as Hb by (apply Forall_forall; intros k [? _]%list_elem_of_filter; done).
  assert (forall k, balance_key k -> k ∈ dom s \/ k ∈ dom (apply_puts s m) \/ k ∈ m.*1 -> k ∈ ks) as Hin.
  { intros k Hk Hor. apply list_elem_of_filter. split; [done|]. apply elem_of_elements. rewrite !elem_of_union, elem_of_list_to_set. tauto. }
  rewrite (supply_over s ks), (supply_over (apply_puts s m) ks) by auto.
  rewrite (amount_after s m fee_pool_key Hs) by by right. pose proof (st_total _ _ Hs ks Hd ltac:(auto) Hb) as Ht.
  change (amount_at (state_look s fee_pool_key)) with (amount s fee_pool_key) in Ht. rewrite <- Ht. f_equal.
  apply zsum_ext. intros k Hk. rewrite Forall_forall in Hb. apply (amount_after s m k Hs). left. by apply Hb.
Qed.

Section batch.
Variable sha3_512 : bytes -> bytes.
Variable block_time : Z.
(** The adapter of order transactions on the database. *)
Definition orders (db : QrxDB) : list QrxVelocityMvccKV -> adapter := order_adapter sha3_512 block_time db (qrxdb_read_txn_begin db).
Variables (db : QrxDB) (s : kvs) (plan : QrxVelocityPlan) (valid_mask : option (list Z)) (workers height : Z).
Hypothesis db_contents : contents sha3_512 db s.
Hypothesis plan_native : native_plan plan.
Hypothesis db_room : forall m, exec_plan (orders db) plan valid_mask height (state_look s) = Some m -> room db m.

Lemma prepared_exec_plan o : qrx_velocity_mvcc_prepare_batch (order_adapter sha3_512 block_time db) db plan valid_mask height workers = (QRX_MVCC_OK, Some o) ->
  exec_plan (orders db) plan valid_mask height (state_look s) = Some (merged o) /\ snapshot o = qrxdb_read_txn_begin db.
Proof using db_contents plan_native.
  intros H. destruct plan_native as [Hc Hn]. apply prepare_batch_serial in H as [H Hs]; [|done|].
  - split; [|done]. rewrite <- H. symmetry. apply serial_exec_plan; [done|]. intros k. unfold state_look.
    rewrite <- (snapshot_reads sha3_512 db db s k db_contents (commits_refl _ _)). by rewrite <- option_fmap_compose.
  - pose proof (plan_order_length plan (Z.to_nat (plan_wave_count plan))). lia.
Qed.

Lemma execute_batch_ok db' rc : qrx_velocity_mvcc_execute_batch sha3_512 block_time db plan valid_mask workers height = (db', rc) ->
  if decide (rc = QRX_MVCC_OK)
  then exists m, exec_plan (orders db) plan valid_mask height (state_look s) = Some m /\
    contents sha3_512 db' (apply_puts s m) /\ serves sha3_512 db' (apply_puts s m)
  else db' = db.
Proof using db_contents plan_native db_room.
  unfold qrx_velocity_mvcc_execute_batch. destruct (qrx_velocity_mvcc_prepare_batch _ _ _ _ _ _) as [rc0 [o|]] eqn:E.
  - case_decide as H0.
    + subst rc0. apply prepared_exec_plan in E as [He Hs]. intros H.
      pose proof (st_nodup _ _ (exec_plan_settled (orders db) plan valid_mask height (state_look s) (merged o) (np_native _ plan_native) He)) as Hd.
      pose proof (mvcc_commit_ok sha3_512 db s o db' rc db_contents Hs Hd (db_room _ He) H) as Hc. revert Hc. case_decide; [|done].
      intros [H1 H2]. by exists (merged o).
    + intros [= <- <-]. by rewrite decide_False.
  - intros [= <- <-]. revert E. unfold qrx_velocity_mvcc_prepare_batch. destruct (o ← _; _) as [o|]; [done|].
    intros [= <-]. by rewrite decide_False.
Qed.
End batch.

(** C3: speculation is invisible.  Whatever the number of workers and whatever
    conflicts are found between the speculative results, a batch without
    order-book transactions ([native_plan]) either leaves the database as it
    was, or it commits, and then the database holds and serves the state that
    executing the transactions one after the other, wave by wave and in the
    order of the plan, and paying the fees to the pool leaves.  The writes must
    have room ([room]): keys and values below 4 GiB, a file below 2^61 bytes,
    generation and segment numbers that do not overflow.
    Batches with ORDER_* transactions are not covered. *)
Theorem execute_batch_serializable (sha3_512 : bytes -> bytes) (block_time : Z) (db db' : QrxDB) (s : kvs) (plan : QrxVelocityPlan)
    (valid_mask : option (list Z)) (workers height rc : Z) :
  contents sha3_512 db s -> native_plan plan ->
  (forall m, exec_plan (orders sha3_512 block_time db) plan valid_mask height (state_look s) = Some m -> room db m) ->
  qrx_velocity_mvcc_execute_batch sha3_512 block_time db plan valid_mask workers height = (db', rc) ->
  if decide (rc = QRX_MVCC_OK)
  then exists m, exec_plan (orders sha3_512 block_time db) plan valid_mask height (state_look s) = Some m /\
    contents sha3_512 db' (apply_puts s m) /\ serves sha3_512 db' (apply_puts s m)
  else db' = db.
Proof. intros Hc Hp Hr. by apply execute_batch_ok. Qed.

(** C7: a batch without order-book transactions ([native_plan]) neither creates
    nor destroys money: when it commits, with room for its writes ([room]), the
    sum of all balances and the pool of fees is what it was before, and no
    balance that was not negative becomes so.  An ORDER_* transaction moves
    money between balances and locks; a match of orders is the subject of
    [settle_match_conserves]. *)
Theorem batch_conserves_money (sha3_512 : bytes -> bytes) (block_time : Z) (db db' : QrxDB) (s : kvs) (plan : QrxVelocityPlan)
    (valid_mask : option (list Z)) (workers height : Z) :
  contents sha3_512 db s -> native_plan plan ->
  (forall m, exec_plan (orders sha3_512 block_time db) plan valid_mask height (state_look s) = Some m -> room db m) ->
  qrx_velocity_mvcc_execute_batch sha3_512 block_time db plan valid_mask workers height = (db', QRX_MVCC_OK) ->
  exists s', contents sha3_512 db' s' /\ serves sha3_512 db' s' /\ supply s' = supply s /\
    forall k, balance_key k -> 0 <= amount s k -> 0 <= amount s' k.
Proof.
  intros Hc Hp Hr H. apply (execute_batch_ok sha3_512 block_time db s plan valid_mask workers height Hc Hp Hr) in H. rewrite decide_True in H by done.
  destruct H as (m & He & H1 & H2). apply exec_plan_settled in He; [|apply Hp]. exists (apply_puts s m). split_and!; [done|done|by apply supply_after|].
  intros k Hk H0. rewrite amount_after by (done || by left). by apply (st_solvent _ _ He).
Qed.
