(* ===== verification/MvccBook.v ===== *)
(** * VELOCITY execution: facts on the order book

    Quotes are exact, candidates are taken by price and age, and a match moves
    exactly what it says between the two owners and their locks. *)

From stdpp Require Import gmap sorting.
From S2P Require Import Prelude Format Scheduler Mempool MempoolPlan Mvcc MvccOrders MvccBatch MvccWorkers MvccSerial MvccLedger MvccMoves MvccExec.

(** ** Quotes *)

Lemma md_step_spec ub ud ua q rem n : 0 <= ua -> 0 <= ub <= LLONG_MAX -> 0 < ud <= LLONG_MAX -> 0 <= n ->
  q * ud + rem = Z.shiftr ua (n + 1) * ub -> 0 <= rem < ud -> 0 <= q <= LLONG_MAX ->
  match md_step ub ud ua (q, rem) n with
  | Some (q', rem') => q' * ud + rem' = Z.shiftr ua n * ub /\ 0 <= rem' < ud /\ 0 <= q' <= LLONG_MAX
  | None => LLONG_MAX < Z.shiftr ua n * ub / ud
  end.
Proof.
  intros Ha Hb Hd Hn Hi Hr Hq. unfold md_step. cbv zeta.
  assert (Z.shiftr ua n = 2 * Z.shiftr ua (n + 1) + (if Z.testbit ua n then 1 else 0)) as Hs.
  { rewrite <- Z.shiftr_shiftr by lia. rewrite <- (Z.div2_spec (Z.shiftr ua n)).
    rewrite (Z.div2_odd (Z.shiftr ua n)) at 1. rewrite <- Z.bit0_odd, Z.shiftr_spec by lia. rewrite Z.add_0_l.
    by destruct (Z.testbit ua n). }
  pose proof (Z.div_mod ub ud ltac:(lia)) as Hbd. pose proof (Z.mod_pos_bound ub ud ltac:(lia)) as Hbr.
  assert (0 <= ub / ud) as Hbq by (apply Z.div_pos; lia).
  set (S1 := Z.shiftr ua (n + 1)) in *. set (bq := ub / ud) in *. set (br := ub mod ud) in *.
  assert (LLONG_MAX = 2 ^ 63 - 1) as HM by done. assert (LLONG_MAX / 2 = 2 ^ 62 - 1) as HM2 by done. rewrite HM2.
  assert (forall x y, LLONG_MAX < x -> 0 <= y -> LLONG_MAX < (x * ud + y) / ud) as Hbig.
  { intros x y Hx Hy. rewrite Z.div_add_l by lia. pose proof (Z.div_pos y ud Hy ltac:(lia)). lia. }
  assert (Z.shiftr ua n * ub = 2 * (q * ud + rem) + (if Z.testbit ua n then bq * ud + br else 0)) as Ht.
  { rewrite Hs, Hi. destruct (Z.testbit ua n); nia. }
  rewrite Ht. clear Hs Ht Hi.
  assert (0 <= (if Z.testbit ua n then bq * ud + br else 0)) as Ht0 by (destruct (Z.testbit ua n); nia).
  case_decide as H1.
  { replace (2 * (q * ud + rem)) with (2 * q * ud + 2 * rem) by lia. rewrite <- Z.add_assoc. apply Hbig; lia. }
  rewrite (u64_small (q * 2)), (u64_small (rem * 2)) by word.
  destruct (decide (rem * 2 >= ud)) as [H2|H2].
  - destruct (decide (q * 2 >= LLONG_MAX)) as [H3|H3]; cbn [mbind option_bind]; [exfalso; lia|].
    rewrite (u64_small (q * 2 + 1)), (u64_small (rem * 2 - ud)) by word. destruct (Z.testbit ua n); [|split; [nia|lia]].
    case_decide as H4.
    { replace (2 * (q * ud + rem) + (bq * ud + br)) with ((q * 2 + 1 + bq) * ud + (rem * 2 - ud + br)) by lia. apply Hbig; lia. }
    rewrite (u64_small (q * 2 + 1 + bq)), (u64_small (rem * 2 - ud + br)) by word. case_decide as H5.
    + case_decide as H6.
      { replace (2 * (q * ud + rem) + (bq * ud + br)) with ((q * 2 + 1 + bq + 1) * ud + (rem * 2 - ud + br - ud)) by lia. apply Hbig; lia. }
      rewrite (u64_small (q * 2 + 1 + bq + 1)), (u64_small (rem * 2 - ud + br - ud)) by word. split; [nia|lia].
    + split; [nia|lia].
  - cbn [mbind option_bind]. destruct (Z.testbit ua n); [|split; [nia|lia]].
    case_decide as H4.
    { replace (2 * (q * ud + rem) + (bq * ud + br)) with ((q * 2 + bq) * ud + (rem * 2 + br)) by lia. apply Hbig; lia. }
    rewrite (u64_small (q * 2 + bq)), (u64_small (rem * 2 + br)) by word. case_decide as H5.
    + case_decide as H6.
      { replace (2 * (q * ud + rem) + (bq * ud + br)) with ((q * 2 + bq + 1) * ud + (rem * 2 + br - ud)) by lia. apply Hbig; lia. }
      rewrite (u64_small (q * 2 + bq + 1)), (u64_small (rem * 2 + br - ud)) by word. split; [nia|lia].
    + split; [nia|lia].
Qed.

Lemma md_loop_spec ub ud ua n q rem : 0 <= ua -> 0 <= ub <= LLONG_MAX -> 0 < ud <= LLONG_MAX ->
  q * ud + rem = Z.shiftr ua (Z.of_nat n) * ub -> 0 <= rem < ud -> 0 <= q <= LLONG_MAX ->
  match md_loop n ub ud ua (q, rem) with
  | Some (q', rem') => q' * ud + rem' = ua * ub /\ 0 <= rem' < ud /\ 0 <= q' <= LLONG_MAX
  | None => LLONG_MAX < ua * ub / ud
  end.
Proof.
  intros Ha Hb Hd. revert q rem. induction n as [|n IH]; intros q rem Hi Hr Hq; cbn [md_loop].
  - rewrite Z.shiftr_0_r in Hi. done.
  - replace (Z.of_nat (S n)) with (Z.of_nat n + 1) in Hi by lia.
    pose proof (md_step_spec ub ud ua q rem (Z.of_nat n) Ha Hb Hd ltac:(lia) Hi Hr Hq) as Hs.
    destruct (md_step ub ud ua (q, rem) (Z.of_nat n)) as [[q' rem']|]; cbn [mbind option_bind].
    + destruct Hs as (S1 & S2 & S3). by apply IH.
    + eapply Z.lt_le_trans; [exact Hs|]. apply Z.div_le_mono; [lia|]. apply Z.mul_le_mono_nonneg_r; [lia|].
      rewrite Z.shiftr_div_pow2 by lia. pose proof (Z.pow_pos_nonneg 2 (Z.of_nat n) ltac:(lia) ltac:(lia)).
      pose proof (Z.mul_div_le ua (2 ^ Z.of_nat n) ltac:(lia)). nia.
Qed.

Lemma mul_div_spec a b d : a <= LLONG_MAX -> b <= LLONG_MAX -> d <= LLONG_MAX ->
  mvcc_mul_div_floor_nonneg a b d =
  if decide (0 <= a /\ 0 <= b /\ 0 < d /\ a * b / d <= LLONG_MAX) then Some (a * b / d) else None.
Proof.
  intros Ha Hb Hd. unfold mvcc_mul_div_floor_nonneg. case_decide as H0; [rewrite decide_False by lia; done|].
  pose proof (md_loop_spec b d a 63 0 0 ltac:(lia) ltac:(lia) ltac:(lia)) as H.
  rewrite Z.shiftr_div_pow2, Z.div_small in H by (change (2 ^ Z.of_nat 63) with (LLONG_MAX + 1); lia).
  specialize (H ltac:(lia) ltac:(lia) ltac:(word)). change (Z.of_nat 63) with 63 in H.
  destruct (md_loop 63 b d a (0, 0)) as [[q rem]|]; cbn [fmap option_fmap option_map fst].
  - destruct H as (H1 & H2 & H3). assert (a * b / d = q) as Hq by (symmetry; apply Z.div_unique with rem; lia).
    rewrite decide_True by lia. by rewrite Hq.
  - by rewrite decide_False by lia.
Qed.

(** ** Priority *)

(** [a] is not before [b]. *)
Definition not_before (want_sells : bool) (a b : MvccMatchOrder) : Prop := mvcc_candidate_better a b want_sells = false.

Definition rank (want_sells : bool) (a : MvccMatchOrder) : Z := if want_sells then mo_price a else - mo_price a.

Lemma not_before_spec ws a b : not_before ws a b <->
  rank ws b < rank ws a \/ (rank ws a = rank ws b /\
    (mo_created_height b < mo_created_height a \/ (mo_created_height a = mo_created_height b /\ strcmp_le (mo_id b) (mo_id a)))).
Proof.
  unfold not_before, mvcc_candidate_better, rank. destruct (decide (mo_price a <> mo_price b)) as [Hp|Hp%dec_stable].
  - destruct ws; rewrite bool_decide_eq_false; lia.
  - destruct (decide (mo_created_height a <> mo_created_height b)) as [Hc|Hc%dec_stable]; rewrite bool_decide_eq_false.
    + destruct ws; lia.
    + assert (~ (strcmp_le (mo_id a) (mo_id b) /\ mo_id a <> mo_id b) <-> strcmp_le (mo_id b) (mo_id a)) as ->; [|rewrite Hp, Hc; intuition lia].
      split.
      * intros H. destruct (strcmp_le_total (mo_id a) (mo_id b)) as [H1|H1]; [|done].
        destruct (decide (mo_id a = mo_id b)) as [He|Hne]; [by rewrite He in *|tauto].
      * intros H [H1 H2]. by apply H2, strcmp_le_antisymm.
Qed.

Lemma better_asym ws a b : mvcc_candidate_better a b ws = true -> not_before ws b a.
Proof.
  intros H. assert (~ not_before ws a b) as Hn by (unfold not_before; by rewrite H). clear H. rewrite not_before_spec in *.
  destruct (Z.lt_trichotomy (rank ws a) (rank ws b)) as [?|[?|?]], (Z.lt_trichotomy (mo_created_height a) (mo_created_height b)) as [?|[?|?]],
    (strcmp_le_total (mo_id a) (mo_id b));
    first [left; lia | right; split; [lia|left; lia] | right; split; [lia|right; split; [lia|assumption]]
      | exfalso; apply Hn; first [left; lia | right; split; [lia|left; lia] | right; split; [lia|right; split; [lia|assumption]]]].
Qed.

Lemma not_before_trans ws a b c : not_before ws a b -> not_before ws b c -> not_before ws a c.
Proof.
  rewrite !not_before_spec. pose proof (strcmp_le_trans (mo_id c) (mo_id b) (mo_id a)) as Ht. intros [H1|[H1 H1']] [H2|[H2 H2']]; [left; lia..|right]. split; [lia|].
  destruct H1' as [?|[? ?]], H2' as [?|[? ?]]; [left; lia..|right; split; [lia|by apply Ht]].
Qed.

Lemma shift_in_perm ws key l : shift_in ws key l ≡ₚ key :: l.
Proof.
  induction l as [|x l IH]; [done|]. cbn [shift_in]. destruct (mvcc_candidate_better key x ws); [|done]. rewrite IH. apply Permutation_swap.
Qed.

Lemma shift_in_sorted ws key l : StronglySorted (not_before ws) l -> StronglySorted (not_before ws) (shift_in ws key l).
Proof.
  induction 1 as [|x l Hl IH Hx]; cbn [shift_in]; [by repeat constructor|]. destruct (mvcc_candidate_better key x ws) eqn:E.
  - constructor; [exact IH|]. rewrite shift_in_perm. constructor; [by apply better_asym|done].
  - constructor; [by constructor|]. constructor; [done|]. eapply Forall_impl; [exact Hx|]. intros y Hy. by apply (not_before_trans ws key x y).
Qed.

Lemma sorted_lookup {A} (R : A -> A -> Prop) l i j a b : StronglySorted R l -> (i < j)%nat -> l !! i = Some a -> l !! j = Some b -> R a b.
Proof.
  intros H. revert i j. induction H as [|x l _ IH Hx]; intros i j Hij Ha Hb; [done|]. destruct j as [|j]; [lia|]. destruct i as [|i].
  - injection Ha as ->. rewrite Forall_forall in Hx. by eapply Hx, list_elem_of_lookup_2.
  - apply (IH i j); [lia|done..].
Qed.

Lemma sort_candidates_spec ws l : sort_candidates ws l ≡ₚ l /\
  forall i j a b, (i < j)%nat -> sort_candidates ws l !! i = Some a -> sort_candidates ws l !! j = Some b -> not_before ws b a.
Proof.
  unfold sort_candidates. set (r := foldl _ [] l).
  assert (r ≡ₚ l /\ StronglySorted (not_before ws) r) as [Hp Hs].
  { unfold r. assert (forall acc, StronglySorted (not_before ws) acc ->
      (foldl (fun sorted key => shift_in ws key sorted) acc l ≡ₚ l ++ acc) /\
      StronglySorted (not_before ws) (foldl (fun sorted key => shift_in ws key sorted) acc l)) as Hg.
    { clear r. induction l as [|x l IH]; intros acc Ha; cbn [foldl]; [done|].
      destruct (IH (shift_in ws x acc) (shift_in_sorted ws x acc Ha)) as [I1 I2]. split; [|done]. rewrite I1, shift_in_perm.
      cbn [app]. symmetry. apply Permutation_middle. }
    destruct (Hg [] (SSorted_nil _)) as [H1 H2]. rewrite app_nil_r in H1. done. }
  split; [by rewrite reverse_Permutation|]. intros i j a b Hij Ha Hb. apply reverse_lookup_Some in Ha as [Ha Hi]. apply reverse_lookup_Some in Hb as [Hb Hj].
  by apply (sorted_lookup _ r (length r - S j) (length r - S i)); [|lia|..].
Qed.

(** ** Keys *)

Lemma upper_idem c : upper (upper c) = upper c.
Proof. destruct c; reflexivity. Qed.

Lemma normalize_idem s : mvcc_asset_normalize (mvcc_asset_normalize s) = mvcc_asset_normalize s.
Proof.
  unfold mvcc_asset_normalize. rewrite (take_ge (upper <$> take 31 s)) by (rewrite length_fmap, length_take; lia).
  rewrite <- list_fmap_compose. apply list_fmap_ext. intros i c _. apply upper_idem.
Qed.

Lemma normalize_length s : (length (mvcc_asset_normalize s) <= 31)%nat.
Proof. unfold mvcc_asset_normalize. rewrite length_fmap, length_take. lia. Qed.

Lemma upper_colon c : upper c = x3a -> c = x3a.
Proof. destruct c; done. Qed.

Lemma normalize_colon s : x3a ∉ s -> x3a ∉ mvcc_asset_normalize s.
Proof.
  intros H Hin. apply list_elem_of_fmap in Hin as (c & Hc & Hin). symmetry in Hc. apply upper_colon in Hc as ->.
  apply H. rewrite <- (take_drop 31 s). apply elem_of_app. by left.
Qed.

Lemma split_colon a b o p : x3a ∉ a -> x3a ∉ b -> a ++ x3a :: o = b ++ x3a :: p -> a = b /\ o = p.
Proof.
  revert b. induction a as [|c a IH]; intros [|d b] Ha Hb H; cbn [app] in H.
  - by injection H as ->.
  - injection H as <- _. exfalso. apply Hb, list_elem_of_here.
  - injection H as -> _. exfalso. apply Ha, list_elem_of_here.
  - injection H as -> H. apply IH in H as [-> ->]; [done|set_solver|set_solver].
Qed.

Lemma asset_key_inj a b o p : x3a ∉ a -> x3a ∉ b -> (length a <= 31)%nat -> (length b <= 31)%nat -> (length o <= 511)%nat -> (length p <= 511)%nat ->
  mvcc_asset_key a o = mvcc_asset_key b p -> a = b /\ o = p.
Proof.
  intros Ha Hb La Lb Lo Lp. unfold mvcc_asset_key, snprintf_s. repeat case_decide;
    rewrite !take_ge by (rewrite ?length_app; cbn [length]; rewrite ?length_app; cbn; lia); intros E.
  - apply app_inv_head in E. by subst.
  - apply (f_equal (take 4)) in E. by vm_compute in E.
  - apply (f_equal (take 4)) in E. by vm_compute in E.
  - apply app_inv_head in E. by apply split_colon.
Qed.

(** A field name has no colon. *)
Lemma order_key_inj i j f g : x3a ∉ f -> x3a ∉ g -> (length i <= 159)%nat -> (length j <= 159)%nat -> (length f <= 31)%nat -> (length g <= 31)%nat ->
  mvcc_order_key i f = mvcc_order_key j g -> i = j /\ f = g.
Proof.
  intros Hf Hg Li Lj Lf Lg. unfold mvcc_order_key, snprintf_s.
  rewrite !take_ge by (rewrite !length_app; cbn [length cs]; cbn; lia). intros E. apply app_inv_head in E.
  apply (f_equal reverse) in E. rewrite !reverse_app in E. cbn [cs] in E.
  assert (forall x, reverse (cs ":") ++ reverse x = x3a :: reverse x) as Hr by done.
  rewrite <- !app_assoc in E. change (reverse (cs ":")) with [x3a] in E. cbn [app] in E.
  apply split_colon in E as [E1 E2]; [by apply (inj reverse) in E1; apply (inj reverse) in E2|by rewrite elem_of_reverse..].
Qed.

(** ** Reads and writes of the order book *)

Lemma local_get_inv key sz look ws ws' x : mvcc_local_get key sz look ws = (ws', Some x) ->
  quiet ws ws' /\ x = snprintf_s sz <$> over (ws_writes ws) look key.
Proof.
  unfold mvcc_local_get, over. destruct (kv_find (ws_writes ws) key); [by intros [= <- <-]|]. apply get_inv.
Qed.

Lemma local_get_ll_inv key look ws ws' x : mvcc_local_get_ll key 0 look ws = (ws', Some x) ->
  quiet ws ws' /\ read_ll (over (ws_writes ws) look key) = Some x.
Proof.
  intros H. apply bind_inv in H as (found & ws1 & [Hq ->]%local_get_inv & H2). unfold read_ll.
  destruct (over (ws_writes ws) look key) as [v|]; cbn [fmap option_fmap option_map] in H2.
  - apply lift_inv in H2 as [-> H2]. done.
  - injection H2 as <- <-. done.
Qed.

(** A computation that only writes, and what. *)
Definition writes_only (c : M unit) (kvs : list QrxVelocityMvccKV) : Prop :=
  forall look ws ws' x, c look ws = (ws', Some x) -> ws_writes ws' = set_all (ws_writes ws) kvs.

Lemma writes_put key v : writes_only (ws_put key v) [(key, v)].
Proof. by intros look ws ws' x [= <- _]. Qed.

Lemma writes_seq c d k l : writes_only c k -> writes_only d l -> writes_only (c;; d) (k ++ l).
Proof.
  intros Hc Hd look ws ws' x H. apply bind_inv in H as (u & ws1 & H1 & H2). unfold set_all. rewrite foldl_app.
  fold (set_all (ws_writes ws) k). rewrite <- (Hc _ _ _ _ H1). by apply (Hd _ _ _ _ H2).
Qed.

Definition keyed (key : bytes -> bytes) (kvs : list (bytes * bytes)) : list QrxVelocityMvccKV := (fun kv => (key kv.1, kv.2)) <$> kvs.

Lemma writes_fields key kvs : writes_only (put_fields key kvs) (keyed key kvs).
Proof.
  induction kvs as [|[f v] kvs IH]; cbn [put_fields]; [by intros look ws ws' x [= <- _]|].
  apply (writes_seq _ _ [(key f, v)]); [apply writes_put|done].
Qed.

Lemma writes_asset asset owner v : writes_only (mvcc_asset_put_ll asset owner v) [(mvcc_asset_key (mvcc_asset_normalize asset) owner, printed v)].
Proof. intros look ws ws' x H. unfold mvcc_asset_put_ll in H. peel_check H Hc. by apply (writes_put _ _ look _ _ x H). Qed.

Lemma writes_modify f : (forall ws, ws_writes (f ws) = ws_writes ws) -> writes_only (ws_modify f) [].
Proof. intros Hf look ws ws' x [= <- _]. apply Hf. Qed.

(** *** Looking up in lists of writes *)

Lemma kv_find_app l1 l2 k : kv_find (l1 ++ l2) k = match kv_find l2 k with Some v => Some v | None => kv_find l1 k end.
Proof.
  induction l1 as [|[k1 v1] l1 IH]; cbn [app kv_find]; [by destruct (kv_find l2 k)|]. rewrite IH. by destruct (kv_find l2 k).
Qed.

Lemma kv_find_other l k (p : bytes -> Prop) : p k -> Forall (fun kv => ~ p kv.1) l -> kv_find l k = None.
Proof.
  intros Hk Hl. apply kv_find_none. intros Hin. apply list_elem_of_fmap in Hin as (kv & -> & Hin).
  rewrite Forall_forall in Hl. by apply (Hl kv Hin).
Qed.

Lemma kv_find_keyed key kvs f : (forall g, g ∈ kvs.*1 -> key g = key f -> g = f) -> kv_find (keyed key kvs) (key f) = kv_find kvs f.
Proof.
  induction kvs as [|[g v] kvs IH]; intros Hi; [done|]. cbn [keyed fmap list_fmap kv_find fst snd].
  change ((fun kv : bytes * bytes => (key kv.1, kv.2)) <$> kvs) with (keyed key kvs). rewrite IH by (intros h Hh; apply Hi; by right).
  destruct (kv_find kvs f); [done|]. destruct (decide (g = f)) as [->|Hne]; [by rewrite decide_True|].
  rewrite decide_False; [done|]. intros He. apply Hne, Hi; [by left|done].
Qed.

(** The kind of a key. *)
Definition kind_is (p : bytes) (k : bytes) : Prop := take 13 k = p.

Lemma order_kind id f : kind_is (take 13 order_prefix) (mvcc_order_key id f).
Proof. unfold kind_is, mvcc_order_key. by rewrite take_snprintf by (cbn; lia). Qed.

Definition asset_kind (k : bytes) : Prop := kind_is (cs "acct:balance:") k \/ kind_is (cs "velocity:asse") k.
Lemma asset_key_kind a o : asset_kind (mvcc_asset_key a o).
Proof.
  unfold mvcc_asset_key. case_decide; [left|right]; unfold kind_is.
  - by rewrite take_snprintf by (cbn; lia).
  - rewrite take_snprintf by (cbn; lia). done.
Qed.

Lemma asset_not_order k : asset_kind k -> ~ kind_is (take 13 order_prefix) k.
Proof. unfold asset_kind, kind_is. by intros [->| ->]. Qed.

(** ** One match *)

Tactic Notation "peel_read" ident(H) ident(x) ident(Hx) ident(HW) := let ws := fresh "ws" in let Hw := fresh "Hw" in
  apply bind_inv in H as (x & ws & Hx & H);
  first [apply local_get_ll_inv in Hx as [[Hw _] Hx] | apply local_get_inv in Hx as [[Hw _] Hx]];
  rewrite HW in Hx; rewrite HW in Hw; clear HW; rename Hw into HW.

(** What a match reads ([view]) and writes. *)
Record match_terms := mkTerms {
  mt_buyer_id : bytes; mt_seller_id : bytes; mt_buyer : bytes; mt_seller : bytes; mt_base : bytes; mt_quote : bytes;
  mt_amount : Z; mt_needed : Z; mt_buyer_lock : Z; mt_seller_lock : Z; mt_buyer_rem : Z; mt_seller_rem : Z;
  mt_buyer_filled : Z; mt_seller_filled : Z; mt_limit : Z;
  mt_buyer_base : Z; mt_seller_quote : Z; mt_buyer_quote : Z; mt_seller_base : Z; mt_trade_id : bytes; mt_trade : list QrxVelocityMvccKV
}.

Definition match_writes (t : match_terms) (qty height : Z) : list QrxVelocityMvccKV :=
  [(mvcc_asset_key (mt_base t) (mt_buyer t), printed (mt_buyer_base t + qty))] ++
  [(mvcc_asset_key (mt_quote t) (mt_seller t), printed (mt_seller_quote t + mt_amount t))] ++
  [(mvcc_asset_key (mt_quote t) (mt_buyer t), printed (mt_buyer_quote t + (mt_buyer_lock t - mt_amount t - mt_needed t)))] ++
  [(mvcc_asset_key (mt_base t) (mt_seller t), printed (mt_seller_base t + (mt_seller_lock t - qty - (mt_seller_rem t - qty))))] ++
  keyed (mvcc_order_key (mt_buyer_id t)) (match_fields (mt_buyer_filled t + qty) (mt_buyer_rem t - qty) (mt_needed t) height (mt_trade_id t)) ++
  keyed (mvcc_order_key (mt_seller_id t))
    (match_fields (mt_seller_filled t + qty) (mt_seller_rem t - qty) (mt_seller_rem t - qty) height (mt_trade_id t)) ++
  mt_trade t ++ [].

Record match_facts (view : bytes -> option bytes) (market maker_id taker_id : bytes) (qty price : Z) (t : match_terms) : Prop := {
  mf_ids : (mt_buyer_id t = maker_id /\ mt_seller_id t = taker_id) \/ (mt_buyer_id t = taker_id /\ mt_seller_id t = maker_id);
  mf_owners : Some (mt_buyer t) = snprintf_s 512 <$> view (mvcc_order_key (mt_buyer_id t) (cs "owner")) /\
              Some (mt_seller t) = snprintf_s 512 <$> view (mvcc_order_key (mt_seller_id t) (cs "owner")) /\ mt_buyer t <> mt_seller t;
  mf_market : mvcc_parse_market market = Some (mt_base t, mt_quote t);
  mf_amount : mvcc_quote_for_quantity qty price = Some (mt_amount t);
  mf_buyer : read_ll (view (mvcc_order_key (mt_buyer_id t) (cs "locked_atoms"))) = Some (mt_buyer_lock t) /\
             read_ll (view (mvcc_order_key (mt_buyer_id t) (cs "remaining_atoms"))) = Some (mt_buyer_rem t) /\
             read_ll (view (mvcc_order_key (mt_buyer_id t) (cs "filled_atoms"))) = Some (mt_buyer_filled t) /\
             read_ll (view (mvcc_order_key (mt_buyer_id t) (cs "limit_price_atoms"))) = Some (mt_limit t);
  mf_seller : read_ll (view (mvcc_order_key (mt_seller_id t) (cs "locked_atoms"))) = Some (mt_seller_lock t) /\
              read_ll (view (mvcc_order_key (mt_seller_id t) (cs "remaining_atoms"))) = Some (mt_seller_rem t) /\
              read_ll (view (mvcc_order_key (mt_seller_id t) (cs "filled_atoms"))) = Some (mt_seller_filled t);
  mf_cover : 0 < qty /\ qty <= mt_buyer_rem t /\ qty <= mt_seller_rem t /\ mt_amount t <= mt_buyer_lock t /\ qty <= mt_seller_lock t;
  mf_needed : (if decide (0 < mt_buyer_rem t - qty) then mvcc_quote_for_quantity (mt_buyer_rem t - qty) (mt_limit t) else Some 0) = Some (mt_needed t);
  mf_left : mt_needed t <= mt_buyer_lock t - mt_amount t /\ mt_seller_rem t - qty <= mt_seller_lock t - qty;
  mf_balances : read_ll (view (mvcc_asset_key (mt_base t) (mt_buyer t))) = Some (mt_buyer_base t) /\
                read_ll (view (mvcc_asset_key (mt_quote t) (mt_seller t))) = Some (mt_seller_quote t) /\
                read_ll (view (mvcc_asset_key (mt_quote t) (mt_buyer t))) = Some (mt_buyer_quote t) /\
                read_ll (view (mvcc_asset_key (mt_base t) (mt_seller t))) = Some (mt_seller_base t);
  mf_range : Forall (fun n => LLONG_MIN <= n <= LLONG_MAX) [mt_buyer_base t + qty; mt_seller_quote t + mt_amount t;
    mt_buyer_quote t + (mt_buyer_lock t - mt_amount t - mt_needed t); mt_seller_base t + (mt_seller_lock t - qty - (mt_seller_rem t - qty));
    mt_buyer_filled t + qty; mt_seller_filled t + qty];
  mf_trade : Forall (fun kv => ~ asset_kind kv.1 /\ ~ kind_is (take 13 order_prefix) kv.1) (mt_trade t)
}.

Lemma parse_market_spec market base quote : mvcc_parse_market market = Some (base, quote) ->
  mvcc_asset_normalize base = base /\ mvcc_asset_normalize quote = quote /\ (length base <= 31)%nat /\ (length quote <= 31)%nat /\ base <> quote /\
  (x3a ∉ market -> (x3a ∉ base) /\ x3a ∉ quote).
Proof.
  unfold mvcc_parse_market. destruct (split_on x2f market) as [|b [|q [|? ?]]] eqn:E; try done. case_decide; [done|]. cbv zeta. case_decide as Hne; [done|].
  intros [= <- <-]. rewrite !normalize_idem. split_and!; try done; try apply normalize_length.
  intros Hm. assert (forall x, x ∈ split_on x2f market -> x3a ∉ x) as Hs.
  { revert Hm. clear. induction market as [|c s IH]; intros Hm x Hx; cbn [split_on] in Hx.
    - apply list_elem_of_singleton in Hx as ->. apply not_elem_of_nil.
    - assert (x3a ∉ s) as Hs by set_solver. specialize (IH Hs). case_decide.
      + apply elem_of_cons in Hx as [->|Hx]; [apply not_elem_of_nil|by apply IH].
      + destruct (split_on x2f s) as [|l ls]; [apply list_elem_of_singleton in Hx as ->; set_solver|].
        apply elem_of_cons in Hx as [->|Hx]; [|apply IH; by right]. specialize (IH l (list_elem_of_here _ _)). set_solver. }
  rewrite E in Hs. split; apply normalize_colon, Hs; set_solver.
Qed.

Lemma trade_key_kind id f : kind_is (cs "velocity:trad") (mvcc_trade_key id f).
Proof. unfold kind_is, mvcc_trade_key. by rewrite take_snprintf by (cbn; lia). Qed.
Lemma other_kind p k : kind_is p k -> p <> cs "acct:balance:" -> p <> cs "velocity:asse" -> p <> take 13 order_prefix ->
  ~ asset_kind k /\ ~ kind_is (take 13 order_prefix) k.
Proof. unfold asset_kind, kind_is. intros -> H1 H2 H3. tauto. Qed.

Ltac mt_simpl := cbn [mt_base mt_quote mt_buyer mt_seller mt_buyer_id mt_seller_id mt_trade mt_trade_id mt_amount mt_needed mt_buyer_lock
  mt_seller_lock mt_buyer_rem mt_seller_rem mt_buyer_filled mt_seller_filled mt_limit mt_buyer_base mt_seller_quote mt_buyer_quote
  mt_seller_base].

Section settle.
Variable sha3_512 : bytes -> bytes.
Variables (snap_root : bytes) (snap_generation : Z).

Lemma writes_trade market maker_id taker_id buyer seller trade_id qty price quote_amt height seq :
  exists kvs, writes_only (put_trade snap_root snap_generation market maker_id taker_id buyer seller trade_id qty price quote_amt height seq) kvs /\
    Forall (fun kv => ~ asset_kind kv.1 /\ ~ kind_is (take 13 order_prefix) kv.1) kvs.
Proof using.
  eexists. split.
  - unfold put_trade. eapply writes_seq; [apply writes_fields|]. eapply writes_seq; [apply writes_put|apply writes_put].
  - apply Forall_app. split.
    + apply Forall_forall. intros kv (fv & -> & _)%list_elem_of_fmap. cbn [fst]. by eapply other_kind; [apply trade_key_kind|..].
    + apply Forall_app. split; apply Forall_singleton; cbn [fst].
      * eapply (other_kind (cs "velocity:trad")); [by vm_compute|done..].
      * eapply (other_kind (cs "velocity:sett")); [unfold kind_is; by rewrite take_snprintf by (cbn; lia)|done..].
Qed.

Lemma settle_inv market maker_id taker_id qty price height look ws ws' x :
  mvcc_settle_match sha3_512 snap_root snap_generation market maker_id taker_id qty price height look ws = (ws', Some x) ->
  exists t, match_facts (over (ws_writes ws) look) market maker_id taker_id qty price t /\
    ws_writes ws' = set_all (ws_writes ws) (match_writes t qty height).
Proof using.
  intros H. unfold mvcc_settle_match in H. remember (ws_writes ws) as W eqn:HW. symmetry in HW.
  peel_read H fs Hfs HW. peel_lift H maker_side Hside. cbv zeta in H.
  set (bid := if mvcc_ieq maker_side (cs "BUY") then maker_id else taker_id) in *.
  set (sid := if mvcc_ieq maker_side (cs "SELL") then maker_id else taker_id) in *.
  peel_read H fb Hfb HW. peel_read H fsl Hfsl HW. peel_lift H buyer Hbuyer. peel_lift H seller Hseller. peel_check H Hne.
  peel_lift H bq Hbq. destruct bq as [base quote]. pose proof (parse_market_spec _ _ _ Hbq) as (Hnb & Hnq & _).
  peel_lift H amt Hamt. peel_read H bl Hbl HW. peel_read H sl Hsl HW. peel_read H br Hbr HW. peel_read H sr Hsr HW.
  peel_read H bf Hbf HW. peel_read H sf Hsf HW. peel_read H lim Hlim HW. peel_check H Hcov. peel_lift H bfn Hbfn. peel_lift H sfn Hsfn.
  peel_lift H need Hneed. peel_check H Hleft. unfold mvcc_asset_get_ll in H. rewrite Hnb, Hnq in H.
  peel_read H bb Hbb HW. peel_read H sq Hsq HW. peel_read H bqq Hbqq HW. peel_read H sb Hsb HW.
  peel_lift H n1 Hn1. peel_lift H n2 Hn2. peel_lift H n3 Hn3. peel_lift H n4 Hn4. peel_read H seq Hseq HW. peel_check H Hmax.
  apply add_ll_spec in Hbfn as [-> R5]; [|by eapply read_ll_range]. apply add_ll_spec in Hsfn as [-> R6]; [|by eapply read_ll_range].
  apply add_ll_spec in Hn1 as [-> R1]; [|by eapply read_ll_range]. apply add_ll_spec in Hn2 as [-> R2]; [|by eapply read_ll_range].
  apply add_ll_spec in Hn3 as [-> R3]; [|by eapply read_ll_range]. apply add_ll_spec in Hn4 as [-> R4]; [|by eapply read_ll_range].
  set (tid := mvcc_sha3_512_hex _ _) in *.
  destruct (writes_trade market maker_id taker_id buyer seller tid qty price amt height (seq + 1)) as (kvs & Hkvs & Hkind).
  exists (mkTerms bid sid buyer seller base quote amt need bl sl br sr bf sf lim bb sq bqq sb tid kvs). split.
  - split; mt_simpl; try done.
    + unfold bid, sid in *. destruct (mvcc_ieq maker_side (cs "BUY")), (mvcc_ieq maker_side (cs "SELL")); try tauto; exfalso; apply Hne;
        congruence.
    + split_and!; [congruence|congruence|done].
    + repeat constructor; lia.
  - match type of H with ?c look ?w = _ => match goal with |- _ = set_all _ ?l => assert (writes_only c l) as Hc; [|rewrite <- HW; exact (Hc _ _ _ _ H)] end end.
    clear H. unfold match_writes. mt_simpl.
    assert (forall o v, writes_only (mvcc_asset_put_ll base o v) [(mvcc_asset_key base o, printed v)]) as Wb
      by (intros o v; pose proof (writes_asset base o v) as Hw; by rewrite Hnb in Hw).
    assert (forall o v, writes_only (mvcc_asset_put_ll quote o v) [(mvcc_asset_key quote o, printed v)]) as Wq
      by (intros o v; pose proof (writes_asset quote o v) as Hw; by rewrite Hnq in Hw).
    repeat (eapply writes_seq; [first [apply Wb|apply Wq|apply writes_fields|exact Hkvs]|]). by apply writes_modify.
Qed.
End settle.

(** *** What the writes of a match say *)

Section found.
Variables (view : bytes -> option bytes) (market maker_id taker_id : bytes) (qty price height : Z) (t : match_terms).
Hypothesis facts : match_facts view market maker_id taker_id qty price t.
Hypothesis short_ids : (length maker_id <= 159)%nat /\ (length taker_id <= 159)%nat.
Hypothesis no_colon : x3a ∉ market.

Abbreviation find := (kv_find (match_writes t qty height)).

Lemma ids_differ : mt_buyer_id t <> mt_seller_id t /\ (length (mt_buyer_id t) <= 159)%nat /\ (length (mt_seller_id t) <= 159)%nat.
Proof using facts short_ids.
  destruct facts as [Hids (Hb & Hs & Hne) _ _ _ _ _ _ _ _ _ _]. split.
  - intros He. rewrite He, <- Hs in Hb. congruence.
  - destruct Hids as [[-> ->]|[-> ->]]; tauto.
Qed.

Lemma find_asset k : asset_kind k -> find k =
  kv_find ([(mvcc_asset_key (mt_base t) (mt_buyer t), printed (mt_buyer_base t + qty))] ++
    [(mvcc_asset_key (mt_quote t) (mt_seller t), printed (mt_seller_quote t + mt_amount t))] ++
    [(mvcc_asset_key (mt_quote t) (mt_buyer t), printed (mt_buyer_quote t + (mt_buyer_lock t - mt_amount t - mt_needed t)))] ++
    [(mvcc_asset_key (mt_base t) (mt_seller t), printed (mt_seller_base t + (mt_seller_lock t - qty - (mt_seller_rem t - qty))))]) k.
Proof using facts.
  intros Hk. unfold match_writes. rewrite !kv_find_app.
  assert (forall id kvs, kv_find (keyed (mvcc_order_key id) kvs) k = None) as Ho.
  { intros id kvs. apply (kv_find_other _ k asset_kind Hk), Forall_forall. intros kv (fv & -> & _)%list_elem_of_fmap. cbn [fst].
    intros Ha. by apply (asset_not_order _ Ha), order_kind. }
  rewrite !Ho. rewrite (kv_find_other (mt_trade t) k asset_kind Hk)
    by (eapply Forall_impl; [apply (mf_trade _ _ _ _ _ _ _ facts)|]; intros kv [H _]; exact H).
  done.
Qed.

Lemma find_order id f : kv_find (mt_trade t ++ []) (mvcc_order_key id f) = None /\
  forall a o v, kv_find [(mvcc_asset_key a o, v)] (mvcc_order_key id f) = None.
Proof using facts.
  pose proof (order_kind id f) as Hk. split.
  - rewrite app_nil_r. apply (kv_find_other _ _ _ Hk). eapply Forall_impl; [apply (mf_trade _ _ _ _ _ _ _ facts)|]. intros kv [_ H]. exact H.
  - intros a o v. apply (kv_find_other _ _ _ Hk), Forall_singleton. cbn [fst]. apply asset_not_order, asset_key_kind.
Qed.

Lemma match_fields_plain filled rem locked h tid g : g ∈ (match_fields filled rem locked h tid).*1 -> (x3a ∉ g) /\ (length g <= 31)%nat.
Proof using.
  assert (Forall (fun g => bool_decide ((x3a ∉ g) /\ (length g <= 31)%nat) = true) (match_fields filled rem locked h tid).*1) as H
    by (unfold match_fields; cbn [fmap list_fmap fst]; repeat (apply Forall_cons; split; [by vm_compute|]); apply Forall_nil_2).
  intros Hg. rewrite Forall_forall in H. by apply H, bool_decide_eq_true in Hg.
Qed.

Lemma find_keyed id jd filled rem locked h tid f : (length id <= 159)%nat -> (length jd <= 159)%nat -> (x3a ∉ f) -> (length f <= 31)%nat ->
  kv_find (keyed (mvcc_order_key id) (match_fields filled rem locked h tid)) (mvcc_order_key jd f) =
  if decide (id = jd) then kv_find (match_fields filled rem locked h tid) f else None.
Proof using.
  intros Hi Hj Hf Hl. case_decide as He.
  - subst jd. apply kv_find_keyed. intros g [Hg Hgl]%match_fields_plain E. by apply order_key_inj in E as [_ ?].
  - apply kv_find_none. intros Hin. apply list_elem_of_fmap in Hin as (kv & Hkv & Hin). apply list_elem_of_fmap in Hin as (gv & -> & Hg).
    cbn [fst] in Hkv. apply order_key_inj in Hkv as [? _]; [done|done| |done|done|done|];
      (destruct (match_fields_plain filled rem locked h tid gv.1) as [? ?]; [apply list_elem_of_fmap; by exists gv|done]).
Qed.
End found.

Lemma quote_spec qty price a : qty <= LLONG_MAX -> price <= LLONG_MAX -> mvcc_quote_for_quantity qty price = Some a ->
  0 < qty /\ 0 < price /\ a = qty * price / QRX_MVCC_TRADE_PRICE_SCALE /\ 0 < a <= LLONG_MAX.
Proof.
  intros Hq Hp. unfold mvcc_quote_for_quantity. case_decide; [done|]. rewrite mul_div_spec by (done || lia).
  destruct (decide (0 <= qty /\ 0 <= price /\ 0 < QRX_MVCC_TRADE_PRICE_SCALE /\ qty * price / QRX_MVCC_TRADE_PRICE_SCALE <= LLONG_MAX)); [|done].
  cbn [mbind option_bind]. case_decide; [done|]. intros [= <-]. lia.
Qed.

(** Amounts in a view of the state. *)
Definition balance_in (view : bytes -> option bytes) (asset owner : bytes) : Z := amount_at (view (mvcc_asset_key asset owner)).
Definition order_in (view : bytes -> option bytes) (id f : bytes) : Z := amount_at (view (mvcc_order_key id f)).

(** What a match of [qty] at [price] between a buyer's and a seller's order
    does to a state. *)
Record matched (before after : bytes -> option bytes) (buyer_id seller_id buyer seller base quote : bytes) (qty amt : Z) : Prop := {
  ma_base : balance_in after base buyer + balance_in after base seller + order_in after seller_id (cs "locked_atoms")
    = balance_in before base buyer + balance_in before base seller + order_in before seller_id (cs "locked_atoms");
  ma_quote : balance_in after quote buyer + balance_in after quote seller + order_in after buyer_id (cs "locked_atoms")
    = balance_in before quote buyer + balance_in before quote seller + order_in before buyer_id (cs "locked_atoms");
  ma_paid : balance_in after base buyer = balance_in before base buyer + qty /\
    balance_in after quote seller = balance_in before quote seller + amt;
  ma_filled : forall id, id = buyer_id \/ id = seller_id ->
    order_in after id (cs "remaining_atoms") = order_in before id (cs "remaining_atoms") - qty /\
    0 <= order_in after id (cs "remaining_atoms") /\
    order_in after id (cs "filled_atoms") = order_in before id (cs "filled_atoms") + qty;
  ma_covered : order_in after seller_id (cs "locked_atoms") = order_in after seller_id (cs "remaining_atoms") /\
    order_in after buyer_id (cs "locked_atoms")
      = order_in after buyer_id (cs "remaining_atoms") * order_in before buyer_id (cs "limit_price_atoms") / QRX_MVCC_TRADE_PRICE_SCALE;
  ma_rest : forall asset owner, (x3a ∉ asset) -> (length asset <= 31)%nat -> (length owner <= 511)%nat ->
    ~ ((asset = base \/ asset = quote) /\ (owner = buyer \/ owner = seller)) ->
    after (mvcc_asset_key asset owner) = before (mvcc_asset_key asset owner)
}.

Lemma amount_read o n : read_ll o = Some n -> amount_at o = n.
Proof. unfold amount_at. by intros ->. Qed.

Lemma amount_printed n : LLONG_MIN <= n <= LLONG_MAX -> amount_at (Some (printed n)) = n.
Proof. intros Hn. by apply amount_read, read_printed. Qed.

Lemma owner_short (o : option bytes) b : Some b = snprintf_s 512 <$> o -> (length b <= 511)%nat.
Proof. destruct o; [|done]. intros [= ->]. unfold snprintf_s. rewrite length_take. lia. Qed.

Lemma find_four (k1 k2 k3 k4 v1 v2 v3 v4 : bytes) : k1 <> k2 -> k1 <> k3 -> k1 <> k4 -> k2 <> k3 -> k2 <> k4 -> k3 <> k4 ->
  let l := [(k1, v1)] ++ [(k2, v2)] ++ [(k3, v3)] ++ [(k4, v4)] in
  kv_find l k1 = Some v1 /\ kv_find l k2 = Some v2 /\ kv_find l k3 = Some v3 /\ kv_find l k4 = Some v4 /\
  forall k, k <> k1 -> k <> k2 -> k <> k3 -> k <> k4 -> kv_find l k = None.
Proof. intros. unfold l. cbn [app kv_find]. split_and!; intros; repeat case_decide; congruence. Qed.

Lemma match_fields_find filled rem locked h tid :
  kv_find (match_fields filled rem locked h tid) (cs "filled_atoms") = Some (printed filled) /\
  kv_find (match_fields filled rem locked h tid) (cs "remaining_atoms") = Some (printed rem) /\
  kv_find (match_fields filled rem locked h tid) (cs "locked_atoms") = Some (printed locked).
Proof.
  unfold match_fields. change ll with printed. generalize (printed filled), (printed rem), (printed locked), (printed h), (if decide (rem = 0) then cs "filled" else cs "partially_filled").
  intros a b c d e. split_and!; reflexivity.
Qed.

Section matched.
Variables (look : bytes -> option bytes) (W : list QrxVelocityMvccKV) (market maker_id taker_id : bytes) (qty price height : Z) (t : match_terms).
Hypothesis W_nodup : NoDup W.*1.
Abbreviation view := (over W look).
Abbreviation after := (over (set_all W (match_writes t qty height)) look).
Hypothesis facts : match_facts view market maker_id taker_id qty price t.
Hypothesis short_ids : (length maker_id <= 159)%nat /\ (length taker_id <= 159)%nat.
Hypothesis no_colon : x3a ∉ market.

Lemma after_found k : after k = match kv_find (match_writes t qty height) k with Some v => Some v | None => view k end.
Proof using W_nodup. unfold over at 1. rewrite kv_find_all by done. by destruct (kv_find (match_writes t qty height) k). Qed.

Lemma accounts_differ : (x3a ∉ mt_base t) /\ (x3a ∉ mt_quote t) /\ (length (mt_base t) <= 31)%nat /\ (length (mt_quote t) <= 31)%nat /\
  (length (mt_buyer t) <= 511)%nat /\ (length (mt_seller t) <= 511)%nat /\ mt_base t <> mt_quote t /\ mt_buyer t <> mt_seller t.
Proof using facts no_colon.
  destruct facts as [_ (Hb & Hs & Hne) Hm _ _ _ _ _ _ _ _ _]. apply parse_market_spec in Hm as (_ & _ & L1 & L2 & Hbq & Hc).
  destruct (Hc no_colon). split_and!; try done; by eapply owner_short.
Qed.

Lemma after_assets :
  after (mvcc_asset_key (mt_base t) (mt_buyer t)) = Some (printed (mt_buyer_base t + qty)) /\
  after (mvcc_asset_key (mt_quote t) (mt_seller t)) = Some (printed (mt_seller_quote t + mt_amount t)) /\
  after (mvcc_asset_key (mt_quote t) (mt_buyer t)) = Some (printed (mt_buyer_quote t + (mt_buyer_lock t - mt_amount t - mt_needed t))) /\
  after (mvcc_asset_key (mt_base t) (mt_seller t)) = Some (printed (mt_seller_base t + (mt_seller_lock t - qty - (mt_seller_rem t - qty)))) /\
  forall asset owner, (x3a ∉ asset) -> (length asset <= 31)%nat -> (length owner <= 511)%nat ->
    ~ ((asset = mt_base t \/ asset = mt_quote t) /\ (owner = mt_buyer t \/ owner = mt_seller t)) ->
    after (mvcc_asset_key asset owner) = view (mvcc_asset_key asset owner).
Proof using W_nodup facts no_colon short_ids.
  destruct accounts_differ as (C1 & C2 & L1 & L2 & L3 & L4 & D1 & D2).
  rewrite !after_found, !(find_asset _ _ _ _ _ _ _ _ facts) by apply asset_key_kind.
  assert (forall a b o p, (x3a ∉ a) -> (x3a ∉ b) -> (length a <= 31)%nat -> (length b <= 31)%nat -> (length o <= 511)%nat -> (length p <= 511)%nat ->
    a <> b \/ o <> p -> mvcc_asset_key a o <> mvcc_asset_key b p) as Hne
    by (intros a b o p A1 A2 A3 A4 A5 A6 Hor E; apply asset_key_inj in E as [-> ->]; [destruct Hor; congruence|done..]).
  match goal with |- context [kv_find ([(?k1, ?v1)] ++ [(?k2, ?v2)] ++ [(?k3, ?v3)] ++ [(?k4, ?v4)])] =>
    destruct (find_four k1 k2 k3 k4 v1 v2 v3 v4) as (F1 & F2 & F3 & F4 & F5) end; try (apply Hne; auto; fail).
  rewrite F1, F2, F3, F4. split_and!; [done..|]. intros asset owner A1 A2 A3 Hno.
  rewrite after_found, (find_asset _ _ _ _ _ _ _ _ facts), F5; [done| | | | |apply asset_key_kind]; apply Hne; try done;
    (destruct (decide (asset = mt_base t)), (decide (asset = mt_quote t)), (decide (owner = mt_buyer t)), (decide (owner = mt_seller t)); tauto).
Qed.

Lemma after_orders id : id = mt_buyer_id t \/ id = mt_seller_id t ->
  let '(filled, rem, locked) := if decide (id = mt_buyer_id t) then (mt_buyer_filled t + qty, mt_buyer_rem t - qty, mt_needed t)
    else (mt_seller_filled t + qty, mt_seller_rem t - qty, mt_seller_rem t - qty) in
  after (mvcc_order_key id (cs "filled_atoms")) = Some (printed filled) /\
  after (mvcc_order_key id (cs "remaining_atoms")) = Some (printed rem) /\
  after (mvcc_order_key id (cs "locked_atoms")) = Some (printed locked).
Proof using W_nodup facts short_ids.
  intros Hid. destruct (ids_differ _ _ _ _ _ _ _ facts short_ids) as (Hne & L1 & L2).
  assert (length id <= 159)%nat as L by (by destruct Hid as [->| ->]).
  assert (forall f, (x3a ∉ f) -> (length f <= 31)%nat -> kv_find (match_writes t qty height) (mvcc_order_key id f) =
    kv_find (if decide (id = mt_buyer_id t) then match_fields (mt_buyer_filled t + qty) (mt_buyer_rem t - qty) (mt_needed t) height (mt_trade_id t)
      else match_fields (mt_seller_filled t + qty) (mt_seller_rem t - qty) (mt_seller_rem t - qty) height (mt_trade_id t)) f) as Hf.
  { intros f Hf Hl. unfold match_writes. destruct (find_order _ _ _ _ _ _ _ facts id f) as [Ht Ha].
    rewrite !kv_find_app, !Ha. rewrite kv_find_app in Ht. destruct (kv_find [] (mvcc_order_key id f)) eqn:E; [done|]. rewrite Ht.
    rewrite !find_keyed by done. destruct (decide (id = mt_buyer_id t)) as [Hd|Hd].
    - rewrite (decide_False (P := mt_seller_id t = id)) by congruence. rewrite decide_True by congruence. by destruct (kv_find _ f).
    - rewrite (decide_True (P := mt_seller_id t = id)) by (destruct Hid; congruence). rewrite (decide_False (P := mt_buyer_id t = id)) by congruence.
      by destruct (kv_find _ f). }
  rewrite !after_found, !Hf by (apply (bool_decide_eq_true_1 _); vm_compute; reflexivity). destruct (decide (id = mt_buyer_id t)).
  - destruct (match_fields_find (mt_buyer_filled t + qty) (mt_buyer_rem t - qty) (mt_needed t) height (mt_trade_id t)) as (-> & -> & ->). done.
  - destruct (match_fields_find (mt_seller_filled t + qty) (mt_seller_rem t - qty) (mt_seller_rem t - qty) height (mt_trade_id t)) as (-> & -> & ->). done.
Qed.

Lemma match_matched :
  matched view after (mt_buyer_id t) (mt_seller_id t) (mt_buyer t) (mt_seller t) (mt_base t) (mt_quote t) qty (mt_amount t).
Proof using W_nodup facts no_colon short_ids.
  destruct after_assets as (A1 & A2 & A3 & A4 & A5). destruct (ids_differ _ _ _ _ _ _ _ facts short_ids) as (Hne & L1 & L2).
  pose proof (after_orders _ (or_introl eq_refl)) as Ob. pose proof (after_orders _ (or_intror eq_refl)) as Os.
  rewrite decide_True in Ob by done. rewrite decide_False in Os by congruence. destruct Ob as (B1 & B2 & B3), Os as (S1 & S2 & S3).
  destruct facts as [_ _ _ Fa (Fb1 & Fb2 & Fb3 & Fb4) (Fs1 & Fs2 & Fs3) (C1 & C2 & C3 & C4 & C5) Fn (G1 & G2) (H1 & H2 & H3 & H4) Fr _].
  rewrite !Forall_cons in Fr. destruct Fr as (R1 & R2 & R3 & R4 & R5 & R6 & _).
  pose proof (read_ll_range _ _ Fb1) as Q1. pose proof (read_ll_range _ _ Fb2) as Q2. pose proof (read_ll_range _ _ Fs2) as Q3.
  pose proof (read_ll_range _ _ Fb4) as Q4.
  assert (mt_needed t = (mt_buyer_rem t - qty) * mt_limit t / QRX_MVCC_TRADE_PRICE_SCALE /\ 0 <= mt_needed t <= LLONG_MAX) as [Hn Hn0].
  { case_decide as Hd.
    - apply quote_spec in Fn as (_ & _ & -> & Hr); [|lia|lia]. split; [done|lia].
    - injection Fn as <-. assert (mt_buyer_rem t - qty = 0) as -> by lia. split; [done|word]. }
  split; unfold balance_in, order_in.
  - rewrite A1, A4, S3, !amount_printed by (done || word). rewrite (amount_read _ _ H1), (amount_read _ _ H4), (amount_read _ _ Fs1). lia.
  - rewrite A2, A3, B3, !amount_printed by (done || word). rewrite (amount_read _ _ H2), (amount_read _ _ H3), (amount_read _ _ Fb1). lia.
  - rewrite A1, A2, !amount_printed by (done || word). by rewrite (amount_read _ _ H1), (amount_read _ _ H2).
  - intros id [->| ->].
    + rewrite B1, B2, !amount_printed by (done || word). rewrite (amount_read _ _ Fb2), (amount_read _ _ Fb3). split_and!; lia.
    + rewrite S1, S2, !amount_printed by (done || word). rewrite (amount_read _ _ Fs2), (amount_read _ _ Fs3). split_and!; lia.
  - rewrite S2, S3, B2, B3, !amount_printed by (done || word). by rewrite (amount_read _ _ Fb4).
  - exact A5.
Qed.
End matched.

(** C20: a match moves what it says and nothing else.  When a maker and a taker
    are matched for [qty] at [price], the buyer gains [qty] of the base, the
    seller gains [qty * price] in quote atoms rounded down, what the two own of
    either asset, free and locked in these orders, is the same as before, both
    orders are filled by [qty] and never beyond what remained, what stays locked
    is exactly what the rest can still cost, and no other balance changes. *)
Theorem settle_match_conserves sha3_512 snap_root snap_generation market maker_id taker_id qty price height look ws ws' x :
  mvcc_settle_match sha3_512 snap_root snap_generation market maker_id taker_id qty price height look ws = (ws', Some x) ->
  NoDup (ws_writes ws).*1 -> (length maker_id <= 159)%nat -> (length taker_id <= 159)%nat -> (x3a ∉ market) -> qty <= LLONG_MAX -> price <= LLONG_MAX ->
  exists buyer_id seller_id buyer seller base quote,
    ((buyer_id = maker_id /\ seller_id = taker_id) \/ (buyer_id = taker_id /\ seller_id = maker_id)) /\
    mvcc_parse_market market = Some (base, quote) /\ 0 < qty * price / QRX_MVCC_TRADE_PRICE_SCALE /\
    matched (over (ws_writes ws) look) (over (ws_writes ws') look) buyer_id seller_id buyer seller base quote qty
      (qty * price / QRX_MVCC_TRADE_PRICE_SCALE).
Proof.
  intros H Hd Hm Ht Hc Hq Hp. apply settle_inv in H as (t & Hf & ->). pose proof (mf_amount _ _ _ _ _ _ _ Hf) as Ha.
  apply quote_spec in Ha as (_ & _ & Ha & Ha0); [|done..]. rewrite <- Ha.
  exists (mt_buyer_id t), (mt_seller_id t), (mt_buyer t), (mt_seller t), (mt_base t), (mt_quote t). split_and!.
  - apply (mf_ids _ _ _ _ _ _ _ Hf).
  - apply (mf_market _ _ _ _ _ _ _ Hf).
  - lia.
  - by apply (match_matched look (ws_writes ws) market maker_id taker_id qty price height t).
Qed.
