(* ===== verification/MvccMatch.v ===== *)
(** * VELOCITY execution: whom an order meets

    The candidates of a taker are the open native orders of other owners on the
    other side of its market, cheapest (or dearest) first and older ones before
    younger ones; and an order too small to be priced stops its market. *)

From stdpp Require Import gmap sorting.
From S2P Require Import Prelude Format Scheduler Mempool MempoolPlan Mvcc MvccOrders MvccBatch MvccWorkers MvccSerial MvccLedger MvccMoves MvccExec MvccBook.

(** ** What stays *)

(** Every pair has its own key, and the keys in [P] are not written. *)
Definition Leaves {A} (P : bytes -> Prop) (c : M A) : Prop := forall look ws ws' x, c look ws = (ws', Some x) ->
  (NoDup (ws_writes ws).*1 -> NoDup (ws_writes ws').*1) /\ forall k, P k -> kv_find (ws_writes ws') k = kv_find (ws_writes ws) k.

Lemma leaves_bind {A B} P (c : M A) (f : A -> M B) : Leaves P c -> (forall x, Leaves P (f x)) -> Leaves P (mbind f c).
Proof.
  intros Hc Hf look ws ws' y H. apply bind_inv in H as (x & ws1 & H1 & H2). destruct (Hc _ _ _ _ H1) as [C1 C2], (Hf _ _ _ _ _ H2) as [F1 F2].
  split; [auto|]. intros k Hk. by rewrite F2, C2.
Qed.
Lemma leaves_quiet {A} P (c : M A) : (forall look ws ws' x, c look ws = (ws', Some x) -> ws_writes ws' = ws_writes ws) -> Leaves P c.
Proof. intros Hc look ws ws' x H. by rewrite (Hc _ _ _ _ H). Qed.
Lemma leaves_ret {A} P (x : A) : Leaves P (mret x : M A).
Proof. apply leaves_quiet. by intros ???? [= <- _]. Qed.
Lemma leaves_lift {A} P (o : option A) : Leaves P (mlift o).
Proof. apply leaves_quiet. by intros ???? [= <- _]. Qed.
Lemma leaves_get P key sz : Leaves P (mvcc_local_get key sz).
Proof. apply leaves_quiet. intros ???? [[? _] _]%local_get_inv. done. Qed.
Lemma leaves_get_ll P key : Leaves P (mvcc_local_get_ll key 0).
Proof. apply leaves_quiet. intros ???? [[? _] _]%local_get_ll_inv. done. Qed.
Lemma leaves_modify P f : (forall ws, ws_writes (f ws) = ws_writes ws) -> Leaves P (ws_modify f).
Proof. intros Hf. apply leaves_quiet. intros ???? [= <- _]. apply Hf. Qed.
Lemma leaves_put (P : bytes -> Prop) key v : ~ P key -> Leaves P (ws_put key v).
Proof.
  intros Hk look ws ws' x [= <- _]. cbn [ws_writes set_writes]. split; [apply kv_set_nodup|]. intros k H. apply kv_find_set_ne. by intros ->.
Qed.
Create HintDb leaves.
#[export] Hint Resolve leaves_ret leaves_lift leaves_get leaves_get_ll : leaves.

(** A goal [Leaves P c] with [c] a sequence; the writes are left. *)
Ltac leaves := repeat (intros; cbv zeta; match goal with
  | |- Leaves _ (mbind _ _) => apply leaves_bind
  | |- Leaves _ (if ?b then _ else _) => destruct b
  | |- Leaves _ (match ?x with _ => _ end) => destruct x
  | |- Leaves _ (mcheck _) => unfold mcheck; apply leaves_lift
  | |- Leaves _ (ws_put _ _) => apply leaves_put
  | |- Leaves _ _ => solve [auto with leaves]
  end).

Section priority.
Variables (taker_id market taker_side taker_owner : bytes) (height : Z).
Variable order_keys : list bytes.

(** The fields of order [id], where names of orders and fields fit the keys. *)
Definition order_field (id k : bytes) : Prop := exists f, k = mvcc_order_key id f /\ (x3a ∉ f) /\ (length f <= 31)%nat.

Lemma other_order_field id jd f : id <> jd -> (length id <= 159)%nat -> (length jd <= 159)%nat -> (x3a ∉ f) -> (length f <= 31)%nat ->
  ~ order_field id (mvcc_order_key jd f).
Proof. intros Hne L1 L2 Hf Lf (g & E & Hg & Lg). symmetry in E. by apply order_key_inj in E as [? _]. Qed.
Lemma asset_order_field id a o : ~ order_field id (mvcc_asset_key a o).
Proof. intros (f & E & _). apply (asset_not_order (mvcc_asset_key a o)); [apply asset_key_kind|]. rewrite E. apply order_kind. Qed.

Ltac leaves_consider := unfold consider_id, mvcc_release_locked, mvcc_order_get, mvcc_order_get_ll, mvcc_order_put, mvcc_order_put_ll,
  mvcc_asset_adjust, mvcc_asset_get_ll, mvcc_asset_put_ll, ws_put_ll; leaves.

Lemma release_writes id look ws ws' x : mvcc_release_locked id look ws = (ws', Some x) -> NoDup (ws_writes ws).*1 -> NoDup (ws_writes ws').*1.
Proof. intros H. assert (Leaves (fun _ => False) (mvcc_release_locked id)) as Hl by (leaves_consider; auto). apply (Hl _ _ _ _ H). Qed.
Lemma consider_id_writes id out look ws ws' x : consider_id taker_id market taker_side taker_owner height out id look ws = (ws', Some x) ->
  NoDup (ws_writes ws).*1 -> NoDup (ws_writes ws').*1.
Proof.
  intros H. assert (Leaves (fun _ => False) (consider_id taker_id market taker_side taker_owner height out id)) as Hl
    by (leaves_consider; first [by apply leaves_modify|auto]). apply (Hl _ _ _ _ H).
Qed.

Lemma consider_id_leaves id jd out : id <> jd -> (length id <= 159)%nat -> (length jd <= 159)%nat ->
  Leaves (order_field id) (consider_id taker_id market taker_side taker_owner height out jd).
Proof.
  intros Hne L1 L2.
  assert (forall f, bool_decide ((x3a ∉ f) /\ (length f <= 31)%nat) = true -> ~ order_field id (mvcc_order_key jd f)) as Hf.
  { intros f [? ?]%bool_decide_eq_true. by apply other_order_field. }
  leaves_consider; first [by apply leaves_modify | apply asset_order_field | by apply Hf].
Qed.

(** A candidate, in a view of the state. *)
Record candidate (view : bytes -> option bytes) (m : MvccMatchOrder) : Prop := {
  ca_taker : mo_id m <> taker_id;
  ca_kind : snprintf_s 64 <$> view (mvcc_order_key (mo_id m) (cs "kind")) = Some (cs "native");
  ca_live : live_status (snprintf_s 64 <$> view (mvcc_order_key (mo_id m) (cs "status")));
  ca_expiry : exists exp, read_ll (view (mvcc_order_key (mo_id m) (cs "order_expires_height"))) = Some exp /\ (exp <= 0 \/ height < exp);
  ca_market : exists o, snprintf_s 512 <$> view (mvcc_order_key (mo_id m) (cs "market")) = Some o /\ mvcc_ieq o market = true;
  ca_side : exists s, snprintf_s 32 <$> view (mvcc_order_key (mo_id m) (cs "side")) = Some s /\ mvcc_ieq s taker_side = false /\ mo_side m = snprintf_s 16 s;
  ca_version : snprintf_s 32 <$> view (mvcc_order_key (mo_id m) (cs "settlement_version")) = Some (cs "1");
  ca_owner : snprintf_s 512 <$> view (mvcc_order_key (mo_id m) (cs "owner")) = Some (mo_owner m) /\ mo_owner m <> taker_owner;
  ca_price : read_ll (view (mvcc_order_key (mo_id m) (cs "limit_price_atoms"))) = Some (mo_price m);
  ca_remaining : read_ll (view (mvcc_order_key (mo_id m) (cs "remaining_atoms"))) = Some (mo_remaining m);
  ca_created : read_ll (view (mvcc_order_key (mo_id m) (cs "created_height"))) = Some (mo_created_height m)
}.

Lemma candidate_same view view' m : (forall k, order_field (mo_id m) k -> view' k = view k) -> candidate view m -> candidate view' m.
Proof.
  intros Hv [].
  assert (forall f, bool_decide ((x3a ∉ f) /\ (length f <= 31)%nat) = true -> view' (mvcc_order_key (mo_id m) f) = view (mvcc_order_key (mo_id m) f)) as Hf.
  { intros f [? ?]%bool_decide_eq_true. apply Hv. by exists f. }
  split; try done; by rewrite Hf.
Qed.

(** The fields say which candidate it is. *)
Lemma candidate_unique view m m' : candidate view m -> candidate view m' -> mo_id m = mo_id m' -> m = m'.
Proof.
  intros [_ _ _ _ _ (s & S1 & _ & S2) _ [O1 _] P1 R1 C1] [_ _ _ _ _ (s' & S1' & _ & S2') _ [O1' _] P1' R1' C1'] E. rewrite <- E in *.
  destruct m as [i1 o1 s1 p1 r1 c1], m' as [i2 o2 s2 p2 r2 c2]. cbn [mo_id mo_owner mo_side mo_price mo_remaining mo_created_height] in *. f_equal; congruence.
Qed.

Lemma consider_id_cases id out look ws ws' out' : (length id <= 159)%nat -> NoDup (ws_writes ws).*1 ->
  consider_id taker_id market taker_side taker_owner height out id look ws = (ws', Some out') ->
  (exists m, mo_id m = id /\ out' = out ++ [m] /\ candidate (over (ws_writes ws') look) m) \/
  (out' = out /\ forall m, mo_id m = id -> ~ candidate (over (ws_writes ws') look) m).
Proof.
  intros L Hd H. unfold consider_id in H.
  destruct (decide (id = taker_id)) as [->|Ht]; [injection H as <- <-; right; split; [done|by intros m <- []]|].
  remember (ws_writes ws) as W eqn:HW. symmetry in HW. peel_read H kind Hk HW. peel_read H status Hs HW.
  destruct (decide (kind <> _ \/ _)) as [Hn|Hn].
  { injection H as <- <-. rewrite HW. right. split; [done|]. intros m <- []. unfold live_status in *. destruct Hn as [Hn|[Hn1 Hn2]]; [congruence|].
    destruct ca_live0; congruence. }
  peel_read H exp He HW. destruct (decide (0 < exp /\ exp <= height)) as [Hx|Hx].
  - right. peel H u1 H1. peel H u2 H2. injection H2 as <-. peel H u3 H3. injection H3 as <-. peel H u4 H4. injection H4 as <-. injection H as <- <-.
    split; [done|]. intros m <- []. cbn [ws_writes set_writes count_dynamic] in ca_live0.
    assert (NoDup (ws_writes ws3).*1) as Hd3 by (apply (release_writes _ _ _ _ _ H1); by rewrite HW).
    unfold over in ca_live0. rewrite kv_find_set_ne, kv_find_set_eq in ca_live0; [|done|].
    + by destruct ca_live0.
    + intros E. by apply order_key_inj in E as [_ ?]; [|apply (bool_decide_eq_true_1 _); vm_compute; reflexivity..|done|done|cbn; lia|cbn; lia].
  - peel_read H om Hm HW. peel_read H side Hsd HW. peel_read H sv Hsv HW. peel_read H owner Ho HW.
    destruct om as [om|], side as [side|], sv as [sv|], owner as [owner|];
      try (injection H as <- <-; rewrite HW; right; split; [done|]; intros m <- []; destruct ca_market0 as (? & ? & ?), ca_side0 as (? & ? & ? & ?), ca_owner0 as [? ?]; congruence).
    destruct (decide (mvcc_ieq om market = false \/ _)) as [Hn2|Hn2].
    { injection H as <- <-. rewrite HW. right. split; [done|]. intros m <- [].
      destruct ca_market0 as (? & ? & ?), ca_side0 as (? & ? & ? & ?), ca_owner0 as [? ?], Hn2 as [?|[?|[?|?]]]; congruence. }
    peel_read H price Hp HW. peel_read H remaining Hr HW. peel_read H created Hc HW. injection H as <- <-. rewrite HW. left. eexists. split; [|split; [reflexivity|]].
    + cbn [mo_id]. unfold snprintf_s. rewrite take_ge; [done|lia].
    + assert (snprintf_s 160 id = id) as Hid by (unfold snprintf_s; rewrite take_ge; [done|lia]).
      assert (snprintf_s 512 owner = owner) as How.
      { destruct (over W look (mvcc_order_key id (cs "owner"))); [|done]. injection Ho as ->. unfold snprintf_s. by rewrite take_take. }
      split; cbn [mo_id mo_owner mo_side mo_price mo_remaining mo_created_height]; rewrite ?Hid, ?How; try done.
      * destruct (decide (kind = Some (cs "native"))); [congruence|tauto].
      * rewrite <- Hs. unfold live_status. destruct (decide (status = Some (cs "open"))), (decide (status = Some (cs "partially_filled"))); tauto.
      * exists exp. split; [done|lia].
      * exists om. split; [done|]. destruct (mvcc_ieq om market); [done|tauto].
      * exists side. split_and!; [done| |done]. destruct (mvcc_ieq side taker_side); [tauto|done].
      * rewrite <- Hsv. destruct (decide (sv = cs "1")); [congruence|tauto].
      * split; [done|tauto].
Qed.

Lemma consider_ids_spec ids out look ws ws' out' : NoDup ids -> Forall (fun id => (length id <= 159)%nat) ids -> NoDup (ws_writes ws).*1 ->
  consider_ids taker_id market taker_side taker_owner height out ids look ws = (ws', Some out') ->
  (forall m, m ∈ out' <-> m ∈ out \/ (mo_id m ∈ ids /\ candidate (over (ws_writes ws') look) m)) /\
  (forall id k, id ∉ ids -> (length id <= 159)%nat -> order_field id k -> kv_find (ws_writes ws') k = kv_find (ws_writes ws) k).
Proof.
  intros Hn Hl. revert out ws. induction ids as [|jd ids IH]; intros out ws Hd H; cbn [consider_ids] in H.
  { injection H as <- <-. split; [|done]. intros m. rewrite elem_of_nil. tauto. }
  apply NoDup_cons in Hn as [Hj Hn]. apply Forall_cons in Hl as [Lj Hl]. peel H out1 H1.
  assert (NoDup (ws_writes ws0).*1) as Hd1 by (by apply (consider_id_writes jd out _ _ _ _ H1)).
  destruct (IH Hn Hl out1 ws0 Hd1 H) as [I1 I2]. split.
  - assert (forall m, mo_id m = jd -> candidate (over (ws_writes ws') look) m <-> candidate (over (ws_writes ws0) look) m) as Hc.
    { intros m <-. split; apply candidate_same; intros k Hk; unfold over; by rewrite (I2 (mo_id m) k Hj Lj Hk). }
    destruct (consider_id_cases jd out look ws ws0 out1 Lj Hd H1) as [(m0 & E0 & -> & C0)|[-> C0]]; intros m; rewrite I1, ?elem_of_app.
    + rewrite list_elem_of_singleton, elem_of_cons. split.
      * intros [[?| ->]|[? ?]]; [tauto| |tauto]. right. split; [by left|]. by apply Hc.
      * intros [?|[[E|?] C]]; [tauto| |tauto]. left. right. apply (candidate_unique (over (ws_writes ws0) look)); [by apply Hc|done|congruence].
    + rewrite elem_of_cons. split; [tauto|]. intros [?|[[E|?] C]]; [tauto| |tauto]. exfalso. apply (C0 m E). by apply Hc.
  - intros id k Hid L Hk. rewrite not_elem_of_cons in Hid. rewrite (I2 id k) by tauto.
    apply (consider_id_leaves id jd out ltac:(tauto) L Lj _ _ _ _ H1). done.
Qed.
End priority.

(** ** The list of names *)

Lemma take_while_spec (s : bytes) : (x3a ∉ take_while (fun c => bool_decide (c <> x3a)) s) /\
  forall i t, (x3a ∉ i) -> s = i ++ x3a :: t -> take_while (fun c => bool_decide (c <> x3a)) s = i.
Proof.
  split.
  - induction s as [|c s IH]; cbn [take_while]; [apply not_elem_of_nil|]. case_bool_decide; [|apply not_elem_of_nil]. set_solver.
  - intros i t Hi ->. induction i as [|c i IH]; cbn [take_while app]; [by rewrite bool_decide_eq_false_2 by auto|].
    rewrite bool_decide_eq_true_2 by set_solver. f_equal. apply IH. set_solver.
Qed.

Lemma take_while_prefix p (s : bytes) : take_while p s ++ drop (length (take_while p s)) s = s.
Proof. induction s as [|c s IH]; cbn [take_while]; [done|]. destruct (p c); [|done]. cbn [length drop app]. by f_equal. Qed.

Definition owner_key (id : bytes) : bytes := order_prefix ++ id ++ cs ":owner".
Definition good_id (id : bytes) : Prop := id <> [] /\ (length id <= 159)%nat /\ x3a ∉ id.

Lemma id_add_elem ids id x : x ∈ mvcc_order_id_add ids id <-> x ∈ ids \/ (x = id /\ id <> [] /\ (length id <= 159)%nat).
Proof.
  unfold mvcc_order_id_add. repeat case_decide; rewrite ?elem_of_app, ?list_elem_of_singleton; split; try tauto.
  - intros [?|(-> & ? & ?)]; [done|]. destruct H as [?|?]; [done|lia].
  - intros [?|(-> & ? & ?)]; done.
  - intros [?| ->]; [tauto|]. right. split_and!; [done|tauto|lia].
Qed.
Lemma id_add_nodup ids id : NoDup ids -> NoDup (mvcc_order_id_add ids id).
Proof.
  intros H. unfold mvcc_order_id_add. repeat case_decide; [done..|]. apply NoDup_app. split_and!; [done| |apply NoDup_singleton].
  intros x Hx ->%list_elem_of_singleton. done.
Qed.

Lemma collect_ids_spec keys l : NoDup (oi_ids l) -> let ids := oi_ids (foldl mvcc_collect_order_key_cb l keys) in
  NoDup ids /\ forall id, id ∈ ids <-> id ∈ oi_ids l \/ (good_id id /\ owner_key id ∈ keys).
Proof.
  revert l. induction keys as [|k keys IH]; intros l Hl; cbn [foldl]; [split; [done|]; set_solver|].
  assert (NoDup (oi_ids (mvcc_collect_order_key_cb l k)) /\
    forall id, id ∈ oi_ids (mvcc_collect_order_key_cb l k) <-> id ∈ oi_ids l \/ (good_id id /\ owner_key id = k)) as [H1 H2].
  { unfold mvcc_collect_order_key_cb, owner_key, good_id. case_decide as Hp.
    - split; [done|]. intros id. split; [tauto|]. intros [?|[_ <-]]; [done|]. exfalso. apply Hp. by rewrite take_app_length.
    - cbv zeta. set (p := drop _ k). set (i := take_while _ p).
      assert (k = order_prefix ++ p) as Hkp by (rewrite <- (take_drop (length order_prefix) k) at 1; by rewrite Hp).
      clearbody p. subst k.
      destruct (take_while_spec p) as [T1 T2]. fold i in T1, T2. pose proof (take_while_prefix (fun c => bool_decide (c <> x3a)) p) as Hi. fold i in Hi.
      assert (forall id, (x3a ∉ id) -> order_prefix ++ id ++ cs ":owner" = order_prefix ++ p -> id = i /\ drop (length i) p = cs ":owner") as Hu.
      { intros id Hid E%app_inv_head. rewrite <- E in *. specialize (T2 id (cs "owner") Hid eq_refl). split; [done|]. rewrite T2. by rewrite drop_app_length. }
      case_decide as Ho; cbn [oi_ids].
      + split; [by apply id_add_nodup|]. intros id. rewrite id_add_elem. split.
        * intros [?|(-> & ? & ?)]; [tauto|]. right. split_and!; try done. by rewrite <- Ho, Hi.
        * intros [?|[(? & ? & ?) E]]; [tauto|]. right. destruct (Hu id) as [-> _]; done.
      + split; [done|]. intros id. split; [tauto|]. intros [?|[(_ & _ & Hid) E]]; [done|]. by destruct (Hu id Hid E). }
  destruct (IH _ H1) as [I1 I2]. split; [done|]. intros id. rewrite I2, H2, elem_of_cons. naive_solver.
Qed.

(** C21: price and time priority.  The candidates of a taker are exactly the
    named orders that, once the expired ones are closed, are live native orders
    of another owner on the other side of the same market, with their price,
    their rest and their age; the best price comes first, of two at the same
    price the older, and of two as old the smaller name. *)
Theorem candidates_by_priority order_keys taker_id market side height look ws ws' arr :
  mvcc_collect_candidates order_keys taker_id market side height look ws = (ws', Some arr) -> NoDup (ws_writes ws).*1 ->
  exists owner, snprintf_s 512 <$> over (ws_writes ws) look (mvcc_order_key taker_id (cs "owner")) = Some owner /\
  (forall m, m ∈ arr <-> good_id (mo_id m) /\ owner_key (mo_id m) ∈ order_keys /\ candidate taker_id market side owner height (over (ws_writes ws') look) m) /\
  forall i j a b, (i < j)%nat -> arr !! i = Some a -> arr !! j = Some b ->
    (if mvcc_ieq side (cs "BUY") then mo_price a <= mo_price b else mo_price b <= mo_price a) /\
    (mo_price a = mo_price b -> mo_created_height a <= mo_created_height b /\
      (mo_created_height a = mo_created_height b -> strcmp_le (mo_id a) (mo_id b))).
Proof.
  intros H Hd. unfold mvcc_collect_candidates in H. remember (ws_writes ws) as W eqn:HW. symmetry in HW.
  peel_read H found Hf HW. peel_lift H owner Ho. subst found. exists owner. split; [done|].
  peel H ids Hids. unfold mvcc_collect_order_ids in Hids. apply bind_inv in Hids as (u & ws2 & Ht & Hids). injection Hids as -> <-.
  assert (ws_writes ws1 = W) as HW1 by (unfold ws_track_prefix in Ht; destruct (strset_add _ _); [|done]; injection Ht as <- _; exact HW).
  peel H u2 Hm. injection Hm as <-. peel H out Hout. injection H as <- <-.
  destruct (collect_ids_spec order_keys (mkIds [] 0) (NoDup_nil_2)) as [Hn Hi].
  apply consider_ids_spec in Hout as [Hc _]; [|done| |by cbn [ws_writes count_dynamic]; rewrite HW1].
  - destruct (sort_candidates_spec (mvcc_ieq side (cs "BUY")) out) as [Hp Hs]. split.
    + intros m. rewrite Hp, Hc, Hi, !elem_of_nil. tauto.
    + intros i j a b Hij Ha Hb. specialize (Hs i j a b Hij Ha Hb). apply not_before_spec in Hs. unfold rank in Hs.
      destruct (mvcc_ieq side (cs "BUY")); (split; [lia|]; intros E; destruct Hs as [?|(_ & [?|[? ?]])]; [lia|split; lia|split; [lia|done]]).
  - apply Forall_forall. intros id [?%not_elem_of_nil|[(_ & ? & _) _]]%Hi; done.
Qed.

(** ** Orders that cannot be priced *)

Lemma settle_dust sha3_512 snap_root snap_generation market maker_id taker_id qty price height look ws : qty <= LLONG_MAX -> price <= LLONG_MAX ->
  qty * price < QRX_MVCC_TRADE_PRICE_SCALE ->
  snd (mvcc_settle_match sha3_512 snap_root snap_generation market maker_id taker_id qty price height look ws) = None.
Proof.
  intros Hq Hp Hs. destruct (mvcc_settle_match _ _ _ _ _ _ _ _ _ _ _) as [ws' [x|]] eqn:E; [|done]. exfalso.
  apply settle_inv in E as (t & Hf & _). pose proof (mf_amount _ _ _ _ _ _ _ Hf) as Ha.
  apply quote_spec in Ha as (H1 & H2 & Ha & H3); [|done..]. rewrite Z.div_small in Ha; [lia|]. split; [nia|done].
Qed.
