(* ===== verification/MvccMarket.v ===== *)
(** * VELOCITY execution: concrete runs

    A batch of three transfers in two waves on a small database; and a small
    market, where two owners with their agents trade ABC for QUB and one of
    their orders is too small to be priced. *)

From stdpp Require Import gmap sorting.
From S2P Require Import Prelude Format DbCodec DbStore DbLog DbView DbMerkle DbWal DbReplay DbCommit DbScenarios Scheduler Mempool Mvcc MvccOrders MvccBatch MvccWorkers MvccSerial MvccLedger MvccMoves MvccExec MvccState MvccBook MvccMatch.

(** ** A run *)

Definition mv_tx (from to amount fee nonce hash : bytes) : bytes :=
  concat ((fun l => l ++ [x0a]) <$> [cs "tx_version=3"; cs "tx_type=TRANSFER_FAST"; cs "from=" ++ from; cs "to=" ++ to; cs "amount=" ++ amount;
    cs "fee=" ++ fee; cs "nonce=" ++ nonce; cs "lane_id=0"; cs "body_hash_sha3_512=" ++ hash]).
Definition mv_txs : list bytes :=
  [mv_tx (cs "alice") (cs "bob") (cs "40") (cs "2") (cs "1") (cs "h1"); mv_tx (cs "carol") (cs "bob") (cs "5") (cs "1") (cs "1") (cs "h2");
   mv_tx (cs "bob") (cs "dave") (cs "45") (cs "0") (cs "1") (cs "h3")].
(** Two payments to bob in one wave, the second of which is executed again, and
    one from him in the next. *)
Definition mv_plan : QrxVelocityPlan := mkPlan [cs "t1"; cs "t2"; cs "t3"] mv_txs [0; 0; 1] 3 2 0 0 0 0 0 0 [].
Definition mv_puts : list (bytes * bytes) := [(cs "acct:balance:alice", cs "100"); (cs "acct:balance:carol", cs "30")].
Definition mv_state : kvs := apply_puts ∅ mv_puts.
Definition mv_db : QrxDB := ex_commit ex_db0 mv_puts.
Definition mv_after : QrxDB := fst (qrx_velocity_mvcc_execute_batch example_sha 10 mv_db mv_plan None 4 7).

Lemma mv_db_contents : contents example_sha mv_db mv_state.
Proof.
  assert (batch_for ex_db0 mv_puts (ex_batch ex_db0 mv_puts)) as Hb by prove_batch_for.
  pose proof (batch_commit_ok example_sha ex_db0 ∅ mv_puts _ ex_db0_contents Hb) as H.
  rewrite decide_False in H by (vm_compute; discriminate). destruct H as (db' & Hc & H & _).
  unfold mv_db, ex_commit. by rewrite Hc.
Qed.

Lemma mv_plan_native : native_plan mv_plan.
Proof.
  split; [done|]. intros i t Ht. apply list_elem_of_lookup_2 in Ht. unfold mv_plan, mv_txs in Ht. cbn [txs] in Ht.
  repeat (apply elem_of_cons in Ht as [->|Ht]; [unfold not_dynamic; vm_compute; discriminate|]). by apply elem_of_nil in Ht.
Qed.

Definition mv_writes : list (bytes * bytes) := default [] (exec_plan (orders example_sha 10 mv_db) mv_plan None 7 (state_look mv_state)).
Lemma mv_exec : exec_plan (orders example_sha 10 mv_db) mv_plan None 7 (state_look mv_state) = Some mv_writes.
Proof. unfold mv_writes. destruct (exec_plan _ _ _ _ _) eqn:E; [done|]. by vm_compute in E. Qed.

Lemma mv_room m : exec_plan (orders example_sha 10 mv_db) mv_plan None 7 (state_look mv_state) = Some m -> room mv_db m.
Proof.
  rewrite mv_exec. intros H. apply (inj Some) in H as <-. split.
  - unfold short_puts. apply (bool_decide_eq_true_1 (Forall short_kv mv_writes)). vm_compute. reflexivity.
  - vm_compute. reflexivity.
  - vm_compute. reflexivity.
  - vm_compute. discriminate.
Qed.

Lemma pair_snd {A B} (p : A * B) b : snd p = b -> p = (fst p, b).
Proof. destruct p. by intros <-. Qed.

Lemma mv_run_ok : qrx_velocity_mvcc_execute_batch example_sha 10 mv_db mv_plan None 4 7 = (mv_after, QRX_MVCC_OK).
Proof. unfold mv_after. apply pair_snd. vm_compute. reflexivity. Qed.

Example mv_amounts :
  (fun k => amount_at (over mv_writes (state_look mv_state) k)) <$>
    [cs "acct:balance:alice"; cs "acct:balance:carol"; cs "acct:balance:bob"; cs "acct:balance:dave"; fee_pool_key]
  = [58; 24; 0; 45; 3].
Proof. vm_compute. reflexivity. Qed.

Example execute_batch_serializable_witness :
  exists m, exec_plan (orders example_sha 10 mv_db) mv_plan None 7 (state_look mv_state) = Some m /\
    contents example_sha mv_after (apply_puts mv_state m) /\ serves example_sha mv_after (apply_puts mv_state m).
Proof.
  pose proof (execute_batch_serializable example_sha 10 mv_db mv_after mv_state mv_plan None 4 7 QRX_MVCC_OK
    mv_db_contents mv_plan_native mv_room mv_run_ok) as H.
  rewrite decide_True in H by reflexivity. exact H.
Defined.

Example batch_conserves_money_witness :
  supply mv_state = 130 /\
  exists s', contents example_sha mv_after s' /\ serves example_sha mv_after s' /\ supply s' = supply mv_state /\
    forall k, balance_key k -> 0 <= amount mv_state k -> 0 <= amount s' k.
Proof.
  split; [vm_compute; reflexivity|].
  exact (batch_conserves_money example_sha 10 mv_db mv_after mv_state mv_plan None 4 7
    mv_db_contents mv_plan_native mv_room mv_run_ok).
Defined.

(** ** One match *)

Definition mk_order (id side price rem locked : bytes) : list QrxVelocityMvccKV :=
  keyed (mvcc_order_key id) [(cs "owner", cs "owner-of-" ++ id); (cs "kind", cs "native"); (cs "status", cs "open"); (cs "side", side);
    (cs "market", cs "abc/qub"); (cs "settlement_version", cs "1"); (cs "limit_price_atoms", price); (cs "remaining_atoms", rem);
    (cs "filled_atoms", cs "0"); (cs "locked_atoms", locked); (cs "created_height", cs "3")].
(** A buyer of four at 3 QUB, and a seller of two who takes that price. *)
Definition mk_look : bytes -> option bytes :=
  kv_find (mk_order (cs "b") (cs "BUY") (cs "300000000") (cs "4") (cs "12") ++ mk_order (cs "s") (cs "SELL") (cs "200000000") (cs "2") (cs "2")).
Definition mk_ws : QrxVelocityMvccWriteSet := ws_init (cs "t") 0 0.
Definition mk_settled : QrxVelocityMvccWriteSet :=
  fst (mvcc_settle_match example_sha [] 0 (cs "ABC/QUB") (cs "b") (cs "s") 2 300000000 9 mk_look mk_ws).
Lemma mk_settle_ok : mvcc_settle_match example_sha [] 0 (cs "ABC/QUB") (cs "b") (cs "s") 2 300000000 9 mk_look mk_ws = (mk_settled, Some tt).
Proof. unfold mk_settled. apply pair_snd. vm_compute. reflexivity. Qed.

Example settle_match_conserves_witness :
  exists buyer_id seller_id buyer seller base quote,
    ((buyer_id = cs "b" /\ seller_id = cs "s") \/ (buyer_id = cs "s" /\ seller_id = cs "b")) /\
    mvcc_parse_market (cs "ABC/QUB") = Some (base, quote) /\ 0 < 2 * 300000000 / QRX_MVCC_TRADE_PRICE_SCALE /\
    matched (over (ws_writes mk_ws) mk_look) (over (ws_writes mk_settled) mk_look) buyer_id seller_id buyer seller base quote 2
      (2 * 300000000 / QRX_MVCC_TRADE_PRICE_SCALE).
Proof.
  apply (settle_match_conserves example_sha [] 0 (cs "ABC/QUB") (cs "b") (cs "s") 2 300000000 9 mk_look mk_ws mk_settled tt mk_settle_ok);
    first [apply NoDup_nil_2 | apply (bool_decide_eq_true_1 _); vm_compute; reflexivity].
Defined.

(** ** Candidates *)

(** A taker who sells meets three buyers: the dearest first, and of two at the
    same price the older name; a buyer of another market and the taker's own
    order are not asked. *)
Definition mk_bids : list QrxVelocityMvccKV :=
  mk_order (cs "b1") (cs "BUY") (cs "300000000") (cs "4") (cs "12") ++ mk_order (cs "b2") (cs "BUY") (cs "500000000") (cs "1") (cs "5") ++
  mk_order (cs "b3") (cs "BUY") (cs "300000000") (cs "1") (cs "3") ++ mk_order (cs "s") (cs "SELL") (cs "200000000") (cs "2") (cs "2").
Definition mk_collected : QrxVelocityMvccWriteSet :=
  fst (mvcc_collect_candidates mk_bids.*1 (cs "s") (cs "ABC/QUB") (cs "SELL") 9 (kv_find mk_bids) mk_ws).
Definition mk_candidates : list MvccMatchOrder :=
  default [] (snd (mvcc_collect_candidates mk_bids.*1 (cs "s") (cs "ABC/QUB") (cs "SELL") 9 (kv_find mk_bids) mk_ws)).
Example mk_candidates_order : mo_id <$> mk_candidates = [cs "b2"; cs "b1"; cs "b3"].
Proof. vm_compute. reflexivity. Qed.
Lemma pair_default {A B} (p : A * option B) b : snd p <> None -> p = (fst p, Some (default b (snd p))).
Proof. by destruct p as [? [?|]]. Qed.
Lemma mk_collected_ok : mvcc_collect_candidates mk_bids.*1 (cs "s") (cs "ABC/QUB") (cs "SELL") 9 (kv_find mk_bids) mk_ws
  = (mk_collected, Some mk_candidates).
Proof.
  assert (snd (mvcc_collect_candidates mk_bids.*1 (cs "s") (cs "ABC/QUB") (cs "SELL") 9 (kv_find mk_bids) mk_ws) <> None) as H
    by (vm_compute; discriminate).
  revert H. unfold mk_collected, mk_candidates. generalize (mvcc_collect_candidates mk_bids.*1 (cs "s") (cs "ABC/QUB") (cs "SELL") 9 (kv_find mk_bids) mk_ws).
  intros p H. by apply pair_default.
Qed.

Example candidates_by_priority_witness :
  exists owner, snprintf_s 512 <$> over (ws_writes mk_ws) (kv_find mk_bids) (mvcc_order_key (cs "s") (cs "owner")) = Some owner /\
  (forall m, m ∈ mk_candidates <-> good_id (mo_id m) /\ owner_key (mo_id m) ∈ mk_bids.*1 /\
    candidate (cs "s") (cs "ABC/QUB") (cs "SELL") owner 9 (over (ws_writes mk_collected) (kv_find mk_bids)) m) /\
  forall i j a b, (i < j)%nat -> mk_candidates !! i = Some a -> mk_candidates !! j = Some b ->
    (if mvcc_ieq (cs "SELL") (cs "BUY") then mo_price a <= mo_price b else mo_price b <= mo_price a) /\
    (mo_price a = mo_price b -> mo_created_height a <= mo_created_height b /\
      (mo_created_height a = mo_created_height b -> strcmp_le (mo_id a) (mo_id b))).
Proof.
  apply (candidates_by_priority mk_bids.*1 (cs "s") (cs "ABC/QUB") (cs "SELL") 9 (kv_find mk_bids) mk_ws mk_collected mk_candidates mk_collected_ok).
  apply NoDup_nil_2.
Defined.

(** ** An order too small *)

Definition ob_order (agent owner hash side qty price : bytes) : bytes :=
  concat ((fun l => l ++ [x0a]) <$> [cs "tx_version=3"; cs "tx_type=ORDER_CREATE"; cs "from=" ++ agent; cs "to=" ++ owner; cs "fee=0"; cs "nonce=1";
    cs "lane_id=0"; cs "payload=market=ABC/QUB;side=" ++ side ++ cs ";order_type=limit;quantity_atoms=" ++ qty ++ cs ";limit_price_atoms=" ++ price
      ++ cs ";order_expires_height=100;venue=native"; cs "body_hash_sha3_512=" ++ hash]).
Definition ob_agent (agent owner : bytes) : list (bytes * bytes) :=
  (fun kv => (cs "velocity:agent:" ++ agent ++ cs ":" ++ kv.1, kv.2)) <$>
    [(cs "owner", owner); (cs "status", cs "active"); (cs "permissions", cs "TRADE"); (cs "market_allowlist", cs "*");
     (cs "expires_height", cs "100"); (cs "max_trade_atoms", cs "1000"); (cs "daily_limit_atoms", cs "1000")].
Definition ob_state : list (bytes * bytes) :=
  ob_agent (cs "a1") (cs "alice") ++ ob_agent (cs "b1") (cs "bob") ++
  [(cs "velocity:asset:balance:ABC:alice", cs "10"); (cs "acct:balance:bob", cs "100")].
(** A transaction on a state: its code, and the state after it. *)
Definition ob_run (state : list (bytes * bytes)) (tx : bytes) : Z * list (bytes * bytes) :=
  let '(rc, ws) := mvcc_prepare_native_dynamic example_sha [] 0 state.*1 10 (kv_find state) tx (cs "t") 0 0 7 in (rc, state ++ ws_writes ws).
(** One atom of ABC for half a QUB, and two. *)
Definition ob_dust : bytes := ob_order (cs "a1") (cs "alice") (cs "s1") (cs "SELL") (cs "1") (cs "50000000").
Definition ob_sell : bytes := ob_order (cs "a1") (cs "alice") (cs "s1") (cs "SELL") (cs "2") (cs "50000000").
Definition ob_buy : bytes := ob_order (cs "b1") (cs "bob") (cs "o2") (cs "BUY") (cs "4") (cs "50000000").

(** An order to sell so little that its price is less than one atom of the
    quote is accepted and rests in the book; from then on a buyer's order that
    would meet it cannot be executed.  The same order is executed when the
    other is not there, or is twice as large. *)
Theorem dust_order_blocks_buyer :
  (ob_run ob_state ob_dust).1 = QRX_MVCC_OK /\
  (ob_run (ob_run ob_state ob_dust).2 ob_buy).1 = QRX_MVCC_ERROR /\
  (ob_run (ob_run ob_state ob_sell).2 ob_buy).1 = QRX_MVCC_OK /\
  (ob_run ob_state ob_buy).1 = QRX_MVCC_OK.
Proof. split_and!; vm_compute; reflexivity. Qed.
