(* ===== verification/Spv.v ===== *)
(** * Bitcoin headers (src/qrx-core/src/bitcoin/qrx_btc_spv.c, .h)

    The header chain of a Bitcoin network, kept in the database and written by
    transactions: proof of work, difficulty, median time, chain of most work,
    Merkle proofs and outputs of transactions.

    [get] is what [qrxdb_get] finds at a key, as a C string, before it is cut
    to the buffer of the caller; a staging function returns the puts it makes
    in the batch, in order.  The messages for the caller ([err]) are left out.
    OpenSSL's big numbers are an interface, SHA-256 is a parameter; allocation
    succeeds. *)

From stdpp Require Import gmap.
From S2P Require Import Prelude Format.

Definition BTC_RETARGET_INTERVAL : Z := 2016.
Definition BTC_TARGET_TIMESPAN : Z := 1209600.
Definition BTC_TX_MAX_BYTES : Z := 4 * 1024 * 1024.

(** ** Big numbers (openssl/bn.h) *)

Class BnOps (BIGNUM : Type) := {
  BN_set_word : Z -> BIGNUM;
  BN_bin2bn : bytes -> BIGNUM;
  BN_lshift : BIGNUM -> Z -> BIGNUM;
  BN_rshift : BIGNUM -> Z -> BIGNUM;
  BN_is_zero : BIGNUM -> bool;
  BN_is_negative : BIGNUM -> bool;
  BN_num_bits : BIGNUM -> Z;
  BN_get_word : BIGNUM -> Z;
  BN_cmp : BIGNUM -> BIGNUM -> Z;
  BN_add : BIGNUM -> BIGNUM -> BIGNUM;
  BN_add_word : BIGNUM -> Z -> BIGNUM;
  BN_mul_word : BIGNUM -> Z -> BIGNUM;
  BN_div_word : BIGNUM -> Z -> BIGNUM;
  BN_div : BIGNUM -> BIGNUM -> BIGNUM;
  BN_bn2hex : BIGNUM -> bytes;
  BN_hex2bn : bytes -> option BIGNUM
}.

(** What they do on numbers that are not negative, as documented. *)
Class BnLaws (BIGNUM : Type) {ops : BnOps BIGNUM} := {
  bn_val : BIGNUM -> Z;
  bn_set_word w : 0 <= w < 2 ^ 64 -> bn_val (BN_set_word w) = w;
  bn_bin2bn s : bn_val (BN_bin2bn s) = foldl (fun n c => 256 * n + byte.unsigned c) 0 s;
  bn_lshift b n : 0 <= n -> bn_val (BN_lshift b n) = bn_val b * 2 ^ n;
  bn_rshift b n : 0 <= n -> 0 <= bn_val b -> bn_val (BN_rshift b n) = bn_val b / 2 ^ n;
  bn_is_zero b : BN_is_zero b = bool_decide (bn_val b = 0);
  bn_is_negative b : BN_is_negative b = bool_decide (bn_val b < 0);
  bn_num_bits b : 0 < bn_val b -> 0 < BN_num_bits b /\ 2 ^ (BN_num_bits b - 1) <= bn_val b < 2 ^ BN_num_bits b;
  bn_get_word b : 0 <= bn_val b < 2 ^ 64 -> BN_get_word b = bn_val b;
  bn_cmp a b : BN_cmp a b = Z.sgn (bn_val a - bn_val b);
  bn_add a b : bn_val (BN_add a b) = bn_val a + bn_val b;
  bn_add_word b w : 0 <= w < 2 ^ 64 -> bn_val (BN_add_word b w) = bn_val b + w;
  bn_mul_word b w : 0 <= w < 2 ^ 64 -> bn_val (BN_mul_word b w) = bn_val b * w;
  bn_div_word b w : 0 < w < 2 ^ 64 -> 0 <= bn_val b -> bn_val (BN_div_word b w) = bn_val b / w;
  bn_div a b : 0 <= bn_val a -> 0 < bn_val b -> bn_val (BN_div a b) = bn_val a / bn_val b;
  (** Two digits for every byte. *)
  bn_hex_length b n : 0 <= n -> 0 <= bn_val b < 256 ^ n -> blen (BN_bn2hex b) <= Z.max 1 (2 * n);
  bn_hex_chars b : 0 <= bn_val b -> Forall (fun c => 48 <= byte.unsigned c <= 57 \/ 65 <= byte.unsigned c <= 70) (BN_bn2hex b)
}.

(** ** Strings *)

(** [tolower] in the C locale. *)
Definition c_tolower (c : byte) : byte :=
  let n := byte.unsigned c in if decide (65 <= n <= 90) then byte.of_Z (n + 32) else c.
(** [!strcasecmp(a, b)] *)
Definition strcaseeq (a b : bytes) : bool := bool_decide (c_tolower <$> a = c_tolower <$> b).

(** That a number comes back from its lower-case digits. *)
Class BnHex (BIGNUM : Type) {ops : BnOps BIGNUM} {laws : BnLaws BIGNUM} : Prop :=
  bn_hex2bn b : 0 <= bn_val b -> exists b', BN_hex2bn (c_tolower <$> BN_bn2hex b) = Some b' /\ bn_val b' = bn_val b.

Definition hexval (c : byte) : option Z :=
  let n := byte.unsigned c in
  if decide (48 <= n <= 57) then Some (n - 48) else if decide (97 <= n <= 102) then Some (n - 97 + 10)
  else if decide (65 <= n <= 70) then Some (n - 65 + 10) else None.

(** The bytes of pairs of digits; [None] for an odd number or a wrong one. *)
Fixpoint hex_pairs (s : bytes) : option bytes :=
  match s with
  | [] => Some []
  | a :: b :: s => a ← hexval a; b ← hexval b; r ← hex_pairs s; Some (byte.of_Z (Z.lor (Z.shiftl a 4) b) :: r)
  | [_] => None
  end.
Definition hex_decode (s : bytes) (cap : Z) : option bytes :=
  if decide (Z.odd (blen s) = true \/ blen s / 2 > cap) then None else hex_pairs s.

Definition display_hex_to_internal (s : bytes) : option bytes :=
  if decide (length s <> 64%nat) then None else reverse <$> hex_decode s 32.
(** [reverse32] and [hex_encode] *)
Definition field_hash_display (raw : bytes) : bytes := hex (reverse raw).

Definition rd_le (p : bytes) : Z := foldr (fun c n => byte.unsigned c + 256 * n) 0 p.
Definition rd32le (raw : bytes) (off : nat) : Z := rd_le (take 4 (drop off raw)).

(** [strtoull(s, &end, 10)] with [errno] and [*end] checked. *)
Definition strtoull_checked (s : bytes) : option Z :=
  let t := skip_space s in
  let '(negative, t) := match t with x2d :: t => (true, t) | x2b :: t => (false, t) | _ => (false, t) end in
  match t with
  | c :: _ =>
      if is_digit c then
        if decide (skip_digits t = [] /\ digits 0 t <= UINT64_MAX) then Some (if negative : bool then u64 (- digits 0 t) else digits 0 t)
        else None
      else None
  | [] => if decide (s = []) then Some 0 else None
  end.

(** ** Networks *)

Definition normnet (n : bytes) : option bytes :=
  if strcaseeq n (cs "mainnet") || strcaseeq n (cs "bitcoin") then Some (cs "mainnet")
  else if strcaseeq n (cs "testnet") || strcaseeq n (cs "testnet3") then Some (cs "testnet")
  else if strcaseeq n (cs "regtest") then Some (cs "regtest") else None.
Definition qrx_btc_spv_network_valid (n : bytes) : bool := bool_decide (normnet n <> None).

Definition qrx_btc_spv_funding_policy_valid (current deadline proof_locked has_funding_txid status_awaiting_funding : Z) : Z :=
  if decide (deadline <= 0 \/ current > deadline) then 0
  else if decide (proof_locked <> 0 \/ has_funding_txid <> 0 \/ status_awaiting_funding = 0) then 0 else 1.

Definition qrx_btc_spv_genesis_header_hex (network : bytes) : option bytes :=
  n ← normnet network;
  Some (if decide (n = cs "mainnet") then cs "0100000000000000000000000000000000000000000000000000000000000000000000003ba3edfd7a7b12b27ac72c3e67768f617fc81bc3888a51323a9fb8aa4b1e5e4a29ab5f49ffff001d1dac2b7c"
    else if decide (n = cs "testnet") then cs "0100000000000000000000000000000000000000000000000000000000000000000000003ba3edfd7a7b12b27ac72c3e67768f617fc81bc3888a51323a9fb8aa4b1e5e4adae5494dffff001d1aa4ae18"
    else cs "0100000000000000000000000000000000000000000000000000000000000000000000003ba3edfd7a7b12b27ac72c3e67768f617fc81bc3888a51323a9fb8aa4b1e5e4adae5494dffff7f2002000000").

Definition powlimit_bits (network : bytes) : Z :=
  if decide (normnet network = Some (cs "regtest")) then 0x207fffff else 0x1d00ffff.

(** ** Targets *)

Section bn.
Context {BIGNUM : Type} `{!BnOps BIGNUM}.

Definition compact_to_bn (compact : Z) : option BIGNUM :=
  let size := Z.shiftr compact 24 in
  let word := Z.land compact 0x007fffff in
  if decide (Z.land compact 0x00800000 <> 0 \/ word = 0) then None
  else if decide (size > 34 \/ (word > 0xff /\ size > 33) \/ (word > 0xffff /\ size > 32)) then None
  else
    let bn := BN_set_word word in
    let bn := if decide (size <= 3) then BN_rshift bn (8 * (3 - size)) else BN_lshift bn (8 * (size - 3)) in
    if BN_is_zero bn || BN_is_negative bn then None else Some bn.

Definition bn_to_compact (bn : BIGNUM) : Z :=
  if BN_is_zero bn then 0
  else
    let size := (BN_num_bits bn + 7) / 8 in
    let t := if decide (size <= 3) then BN_lshift bn (8 * (3 - size)) else BN_rshift bn (8 * (size - 3)) in
    let compact := Z.land (u32 (BN_get_word t)) 0x00ffffff in
    let '(compact, size) := if decide (Z.land compact 0x00800000 <> 0) then (Z.shiftr compact 8, size + 1) else (compact, size) in
    Z.lor compact (u32 (Z.shiftl size 24)).

Definition work_from_bits (bits : Z) : option BIGNUM :=
  t ← compact_to_bn bits;
  Some (BN_div (BN_lshift (BN_set_word 1) 256) (BN_add_word t 1)).

Definition bn_to_hex (bn : BIGNUM) (sz : Z) : option bytes :=
  let x := BN_bn2hex bn in if decide (blen x + 1 > sz) then None else Some (c_tolower <$> x).

Definition qrx_btc_spv_retarget_bits (previous_bits network_powlimit_bits actual_timespan : Z) : option Z :=
  let lo := BTC_TARGET_TIMESPAN / 4 in
  let hi := BTC_TARGET_TIMESPAN * 4 in
  let span := if decide (actual_timespan < lo) then lo else actual_timespan in
  let span := if decide (span > hi) then hi else span in
  t ← compact_to_bn previous_bits;
  limit ← compact_to_bn network_powlimit_bits;
  let t := BN_div_word (BN_mul_word t span) BTC_TARGET_TIMESPAN in
  let t := if decide (BN_cmp t limit > 0) then limit else t in
  let out := bn_to_compact t in
  if decide (out <> 0) then Some out else None.

(** ** Keys and headers *)

Definition hkey (n hash f : bytes) : bytes := snprintf_s 256 (cs "btcspv:" ++ n ++ cs ":header:" ++ hash ++ cs ":" ++ f).
Definition akey (n : bytes) (h : Z) : bytes := snprintf_s 256 (cs "btcspv:" ++ n ++ cs ":active:" ++ print_u h).
Definition pkey (n txid f : bytes) : bytes := snprintf_s 320 (cs "btcspv:" ++ n ++ cs ":proof:" ++ txid ++ cs ":" ++ f).
Definition nkey (n f : bytes) : bytes := snprintf_s 128 (cs "btcspv:" ++ n ++ cs ":" ++ f).

Record QrxBtcSpvHeaderInfo := mkHeader {
  si_hash : bytes; si_prev_hash : bytes; si_merkle_root : bytes; si_header_hex : bytes; si_chainwork_hex : bytes;
  si_height : Z; si_version : Z; si_timestamp : Z; si_bits : Z; si_nonce : Z; si_active : Z
}.

Definition puts := list (bytes * bytes).

Section state.
Variable sha256 : bytes -> bytes.
Variable get : bytes -> option bytes.

Definition db_get (key : bytes) (out_sz : nat) : option bytes := snprintf_s out_sz <$> get key.
Definition db_get_u64 (key : bytes) : option Z := b ← db_get key 128; strtoull_checked b.
Definition db_get_u32 (key : bytes) : option Z := v ← db_get_u64 key; if decide (v > UINT32_MAX) then None else Some v.

Definition put_u (key : bytes) (v : Z) : bytes * bytes := (key, print_u v).

Definition sha256d (data : bytes) : bytes := sha256 (sha256 data).
Definition header_hash_from_raw (raw : bytes) : bytes := field_hash_display (sha256d raw).

Definition header_exists (n hash : bytes) : bool := bool_decide (db_get (hkey n hash (cs "height")) 16 <> None).

Definition load_header_hash (n hash : bytes) : option QrxBtcSpvHeaderInfo :=
  if decide (length hash <> 64%nat) then None
  else
    prev ← db_get (hkey n hash (cs "prev")) 65;
    merkle ← db_get (hkey n hash (cs "merkle")) 65;
    header ← db_get (hkey n hash (cs "header")) 161;
    chainwork ← db_get (hkey n hash (cs "chainwork")) 96;
    height ← db_get_u64 (hkey n hash (cs "height"));
    version ← db_get_u32 (hkey n hash (cs "version"));
    timestamp ← db_get_u32 (hkey n hash (cs "time"));
    bits ← db_get_u32 (hkey n hash (cs "bits"));
    nonce ← db_get_u32 (hkey n hash (cs "nonce"));
    Some (mkHeader hash prev merkle header chainwork height version timestamp bits nonce
      (if decide (db_get (akey n height) 256 = Some hash) then 1 else 0)).

(** A decimal number is a height of the active chain, anything else a hash. *)
Definition qrx_btc_spv_get_header (network hash_or_height : bytes) : option QrxBtcSpvHeaderInfo :=
  n ← normnet network;
  hash ← (if decide (forallb is_digit hash_or_height = true /\ hash_or_height <> []) then
            h ← db_get (akey n (Z.min (digits 0 hash_or_height) UINT64_MAX)) 65; if decide (h = cs "-") then None else Some h
          else if decide (length hash_or_height <> 64%nat) then None else Some hash_or_height);
  load_header_hash n hash.

Definition qrx_btc_spv_get_best (network : bytes) : option QrxBtcSpvHeaderInfo :=
  n ← normnet network;
  h ← db_get (nkey n (cs "best_hash")) 65;
  qrx_btc_spv_get_header n h.

(** ** Rules for a header *)

Definition pow_valid (header : bytes) (bits : Z) (network : bytes) : bool :=
  match compact_to_bn bits, compact_to_bn (powlimit_bits network) with
  | Some t, Some limit =>
      negb (bool_decide (BN_cmp t limit > 0)) && negb (bool_decide (BN_cmp (BN_bin2bn (reverse (sha256d header))) t > 0))
  | _, _ => false
  end.

(** Loops to a parent take one step more than the height they start from. *)
Definition height_fuel (h : QrxBtcSpvHeaderInfo) : nat := S (Z.to_nat (si_height h)).

Fixpoint ancestor_loop (fuel : nat) (n : bytes) (target : Z) (cur : QrxBtcSpvHeaderInfo) : option QrxBtcSpvHeaderInfo :=
  if decide (si_height cur > target) then
    match fuel with
    | O => None
    | S fuel => cur ← load_header_hash n (si_prev_hash cur); ancestor_loop fuel n target cur
    end
  else Some cur.
Definition get_ancestor (n start : bytes) (target : Z) : option QrxBtcSpvHeaderInfo :=
  cur ← load_header_hash n start;
  cur ← ancestor_loop (height_fuel cur) n target cur;
  if decide (si_height cur <> target) then None else Some cur.

(** The last header of the period with a difficulty of its own. *)
Fixpoint testnet_loop (fuel : nat) (n : bytes) (cur : QrxBtcSpvHeaderInfo) : option QrxBtcSpvHeaderInfo :=
  if decide (si_height cur mod BTC_RETARGET_INTERVAL <> 0 /\ si_bits cur = powlimit_bits n) then
    match fuel with
    | O => None
    | S fuel => cur ← load_header_hash n (si_prev_hash cur); testnet_loop fuel n cur
    end
  else Some cur.

Definition expected_bits (n : bytes) (prev : QrxBtcSpvHeaderInfo) (new_height new_time : Z) : option Z :=
  if decide (n = cs "regtest") then Some (si_bits prev)
  else if decide (new_height mod BTC_RETARGET_INTERVAL <> 0) then
    if decide (n = cs "testnet") then
      if decide (new_time > si_timestamp prev + 20 * 60) then Some (powlimit_bits n)
      else si_bits <$> testnet_loop (height_fuel prev) n prev
    else Some (si_bits prev)
  else
    first ← get_ancestor n (si_hash prev) (new_height -64 BTC_RETARGET_INTERVAL);
    qrx_btc_spv_retarget_bits (si_bits prev) (powlimit_bits n) (si_timestamp prev - si_timestamp first).

(** The times of up to [k] headers from [cur] down. *)
Fixpoint times_from (k : nat) (n : bytes) (cur : QrxBtcSpvHeaderInfo) : option (list Z) :=
  match k with
  | O => Some []
  | S k =>
      if decide (si_height cur = 0) then Some [si_timestamp cur]
      else cur' ← load_header_hash n (si_prev_hash cur); ts ← times_from k n cur'; Some (si_timestamp cur :: ts)
  end.
(** Insertion of [x] behind the times that are not later. *)
Fixpoint insert_time (x : Z) (sorted : list Z) : list Z :=
  match sorted with
  | [] => [x]
  | y :: sorted => if decide (y > x) then x :: y :: sorted else y :: insert_time x sorted
  end.
Definition median_time_past (n prev_hash : bytes) : option Z :=
  cur ← load_header_hash n prev_hash;
  ts ← times_from 11 n cur;
  let t := foldl (fun sorted x => insert_time x sorted) [] ts in
  t !! (length ts / 2)%nat.

(** ** Staging *)

Definition stage_header_fields (n : bytes) (h : QrxBtcSpvHeaderInfo) : puts :=
  [(hkey n (si_hash h) (cs "prev"), si_prev_hash h); (hkey n (si_hash h) (cs "merkle"), si_merkle_root h);
   (hkey n (si_hash h) (cs "header"), si_header_hex h); (hkey n (si_hash h) (cs "chainwork"), si_chainwork_hex h);
   put_u (hkey n (si_hash h) (cs "height")) (si_height h); put_u (hkey n (si_hash h) (cs "version")) (si_version h);
   put_u (hkey n (si_hash h) (cs "time")) (si_timestamp h); put_u (hkey n (si_hash h) (cs "bits")) (si_bits h);
   put_u (hkey n (si_hash h) (cs "nonce")) (si_nonce h)].

(** The new branch down to the height of the old best header, or to the end:
    its hashes, and where it stops. *)
Fixpoint climb_new (fuel : nat) (n : bytes) (old : option QrxBtcSpvHeaderInfo) (path : list bytes) (a : QrxBtcSpvHeaderInfo)
    : option (list bytes * QrxBtcSpvHeaderInfo) :=
  if match old with Some bh => bool_decide (si_height a <= si_height bh) | None => false end then Some (path, a)
  else
    let path := path ++ [si_hash a] in
    if decide (si_height a = 0) then Some (path, a)
    else match fuel with
         | O => None
         | S fuel => a ← load_header_hash n (si_prev_hash a); climb_new fuel n old path a
         end.
(** The old branch down to the height of the new one. *)
Fixpoint climb_old (fuel : nat) (n : bytes) (height : Z) (bh : QrxBtcSpvHeaderInfo) : option QrxBtcSpvHeaderInfo :=
  if decide (si_height bh > height /\ si_height bh <> 0) then
    match fuel with
    | O => None
    | S fuel => bh ← load_header_hash n (si_prev_hash bh); climb_old fuel n height bh
    end
  else Some bh.
(** Both down to the fork. *)
Fixpoint climb_both (fuel : nat) (n : bytes) (path : list bytes) (a bh : QrxBtcSpvHeaderInfo) : option (list bytes) :=
  if decide (si_hash a = si_hash bh) then Some path
  else
    let path := path ++ [si_hash a] in
    if decide (si_height a = 0 \/ si_height bh = 0) then None
    else match fuel with
         | O => None
         | S fuel => a ← load_header_hash n (si_prev_hash a); bh ← load_header_hash n (si_prev_hash bh); climb_both fuel n path a bh
         end.

Fixpoint activate (n : bytes) (newh : QrxBtcSpvHeaderInfo) (path : list bytes) : option puts :=
  match path with
  | [] => Some []
  | h :: path =>
      x ← (if decide (h = si_hash newh) then Some newh else load_header_hash n h);
      r ← activate n newh path;
      Some ((akey n (si_height x), si_hash x) :: r)
  end.

Definition best_puts (n : bytes) (h : QrxBtcSpvHeaderInfo) : puts :=
  [(nkey n (cs "best_hash"), si_hash h); put_u (nkey n (cs "best_height")) (si_height h); (nkey n (cs "best_chainwork"), si_chainwork_hex h)].

(** Whether the header becomes the best, and the puts. *)
Definition stage_best_chain (n : bytes) (newh : QrxBtcSpvHeaderInfo) : option (Z * puts) :=
  let old := h ← db_get (nkey n (cs "best_hash")) 65; load_header_hash n h in
  nw ← BN_hex2bn (si_chainwork_hex newh);
  better ← match old with
           | Some oldh => ow ← BN_hex2bn (si_chainwork_hex oldh); Some (bool_decide (BN_cmp nw ow > 0))
           | None => Some true
           end;
  if negb better then Some (0, [])
  else
    '(path, a) ← climb_new (height_fuel newh) n old [] newh;
    path ← match old with
           | Some oldh => bh ← climb_old (height_fuel oldh) n (si_height a) oldh; climb_both (height_fuel a) n path a bh
           | None => Some path
           end;
    act ← activate n newh (reverse path);
    let clear := match old with
                 | Some oldh => (fun h => (akey n h, cs "-")) <$> seqZ (si_height newh + 1) (si_height oldh - si_height newh)
                 | None => []
                 end in
    Some (1, act ++ clear ++ best_puts n newh).

(** The header of 80 bytes, before its height and its work are known. *)
Definition parse_header (header_hex raw prev : bytes) : QrxBtcSpvHeaderInfo :=
  mkHeader (header_hash_from_raw raw) prev (field_hash_display (take 32 (drop 36 raw))) (snprintf_s 161 header_hex) []
    0 (rd32le raw 0) (rd32le raw 68) (rd32le raw 72) (rd32le raw 76) 0.
Definition set_place (h : QrxBtcSpvHeaderInfo) (height : Z) (chainwork : bytes) : QrxBtcSpvHeaderInfo :=
  mkHeader (si_hash h) (si_prev_hash h) (si_merkle_root h) (si_header_hex h) chainwork height (si_version h) (si_timestamp h) (si_bits h)
    (si_nonce h) (si_active h).

(** The puts of the first header of a network. *)
Definition genesis_puts (n : bytes) (h : QrxBtcSpvHeaderInfo) : puts :=
  stage_header_fields n h ++ [(akey n 0, si_hash h)] ++
  [(nkey n (cs "best_hash"), si_hash h); put_u (nkey n (cs "best_height")) 0; (nkey n (cs "best_chainwork"), si_chainwork_hex h)] ++
  [(nkey n (cs "initialized"), cs "1")].
Definition place_genesis (n raw : bytes) (h : QrxBtcSpvHeaderInfo) : option QrxBtcSpvHeaderInfo :=
  if pow_valid raw (si_bits h) n then
    w ← work_from_bits (si_bits h); cw ← bn_to_hex w 96; Some (set_place h 0 cw)
  else None.

(** The puts of the batch of its own; [Some []] when there is a best header. *)
Definition qrx_btc_spv_init (network : bytes) : option puts :=
  n ← normnet network;
  match db_get (nkey n (cs "best_hash")) 65 with
  | Some _ => Some []
  | None =>
      gh ← qrx_btc_spv_genesis_header_hex n;
      raw ← hex_decode gh 80;
      if decide (length raw <> 80%nat) then None
      else h ← place_genesis n raw (parse_header gh raw (replicate 64 x30)); Some (genesis_puts n h)
  end.

(** A header that is not the first: its place and work. *)
Definition place_header (n raw : bytes) (h : QrxBtcSpvHeaderInfo) : option QrxBtcSpvHeaderInfo :=
  prev ← load_header_hash n (si_prev_hash h);
  let height := si_height prev +64 1 in
  if match median_time_past n (si_hash prev) with Some mtp => bool_decide (si_timestamp h <= mtp) | None => false end then None
  else
    expbits ← expected_bits n prev height (si_timestamp h);
    if decide (si_bits h <> expbits) then None
    else if pow_valid raw (si_bits h) n then
      pw ← work_from_bits (si_bits h);
      pp ← BN_hex2bn (si_chainwork_hex prev);
      cw ← bn_to_hex (BN_add pp pw) 96;
      Some (set_place h height cw)
    else None.

(** The header, whether it is the best now, and the puts. *)
Definition qrx_btc_spv_stage_header (network header_hex : bytes) : option (QrxBtcSpvHeaderInfo * Z * puts) :=
  n ← normnet network;
  if decide (length header_hex <> 160%nat) then None
  else
    raw ← hex_decode header_hex 80;
    let h := parse_header header_hex raw (field_hash_display (take 32 (drop 4 raw))) in
    if header_exists n (si_hash h) then h ← load_header_hash n (si_hash h); Some (h, 0, [])
    else if decide (db_get (nkey n (cs "best_hash")) 65 = None) then
      gen ← qrx_btc_spv_genesis_header_hex n;
      if strcaseeq gen header_hex then h ← place_genesis n raw h; Some (h, 1, genesis_puts n h) else None
    else
      h ← place_header n raw h;
      '(best, ps) ← stage_best_chain n h;
      Some (h, best, stage_header_fields n h ++ ps).
End state.
End bn.
