(* ===== verification/SpvProof.v ===== *)
(** * Bitcoin payments (src/qrx-core/src/bitcoin/qrx_btc_spv.c)

    Confirmations of a header, proofs that a transaction is in its block,
    outputs of a serialized transaction, and the record of a proof. *)

From stdpp Require Import gmap.
From S2P Require Import Prelude Format Spv.

Record QrxBtcSpvProofResult := mkProof {
  bp_txid : bytes; bp_block_hash : bytes; bp_block_height : Z; bp_confirmations : Z; bp_merkle_index : Z; bp_merkle_valid : Z; bp_active_chain : Z
}.
Record QrxBtcTxOutputMatch := mkMatchOut { bm_txid : bytes; bm_vout : Z; bm_sats : Z }.

(** [strtok_r] with one separator: the pieces that are not empty. *)
Definition strtok (sep : byte) (s : bytes) : list bytes := filter (fun p => p <> []) (split_on sep s).
Definition trim_space (s : bytes) : bytes := reverse (skip_space (reverse (skip_space s))).

Section proof.
Variable sha256 : bytes -> bytes.
Variable get : bytes -> option bytes.
Abbreviation sha256d := (sha256d sha256).

(** Confirmations, and whether the block is on the active chain. *)
Definition qrx_btc_spv_confirmations (network block_hash : bytes) (block_height : Z) : option (Z * bool) :=
  n ← normnet network;
  best ← qrx_btc_spv_get_best get n;
  let act := bool_decide (db_get get (akey n block_height) 65 = Some block_hash) in
  Some (if act && bool_decide (si_height best >= block_height) then si_height best -64 block_height +64 1 else 0, act).

(** ** Merkle branches *)

(** One step up: the hash of the pair, with the bit of the index on the side. *)
Definition merkle_step (cur sib : bytes) (idx : Z) : bytes := sha256d (if Z.odd idx then sib ++ cur else cur ++ sib).
Fixpoint merkle_fold (cur : bytes) (idx : Z) (toks : list bytes) : option bytes :=
  match toks with
  | [] => Some cur
  | tok :: toks =>
      sib ← display_hex_to_internal (trim_space tok);
      merkle_fold (merkle_step cur sib idx) (Z.shiftr idx 1) toks
  end.
Definition branch_tokens (branch_csv : bytes) : list bytes :=
  let copy := if decide (branch_csv = []) then cs "-" else branch_csv in
  if decide (copy = cs "-") then [] else strtok x2c copy.

Definition qrx_btc_spv_verify_merkle (network txid block_hash : bytes) (tx_index : Z) (branch_csv : bytes) : option QrxBtcSpvProofResult :=
  n ← normnet network;
  if decide (length txid <> 64%nat \/ length block_hash <> 64%nat) then None
  else
    hdr ← qrx_btc_spv_get_header get n block_hash;
    cur ← display_hex_to_internal txid;
    cur ← merkle_fold cur tx_index (branch_tokens branch_csv);
    if strcaseeq (field_hash_display cur) (si_merkle_root hdr) then
      '(conf, act) ← qrx_btc_spv_confirmations n block_hash (si_height hdr);
      if act : bool then Some (mkProof txid block_hash (si_height hdr) conf tx_index 1 1) else None
    else None.

(** ** Transactions *)

(** A number in Bitcoin's variable length, in its shortest form, and the rest. *)
Definition read_varint (b : bytes) : option (Z * bytes) :=
  match b with
  | [] => None
  | c :: b =>
      let c := byte.unsigned c in
      if decide (c < 0xfd) then Some (c, b)
      else
        let need := if decide (c = 0xfd) then 2%nat else if decide (c = 0xfe) then 4%nat else 8%nat in
        if decide (length b < need)%nat then None
        else
          let x := rd_le (take need b) in
          if decide ((c = 0xfd /\ x < 0xfd) \/ (c = 0xfe /\ x <= 0xffff) \/ (c = 0xff /\ x <= 0xffffffff)) then None
          else Some (x, drop need b)
  end.

(** [n] bytes, and the rest. *)
Definition skip_bytes (n : Z) (b : bytes) : option bytes := if decide (blen b < n) then None else Some (drop (Z.to_nat n) b).
(** A length and as many bytes. *)
Definition read_var_bytes (b : bytes) : option (bytes * bytes) :=
  '(l, b) ← read_varint b; if decide (l > blen b) then None else Some (take (Z.to_nat l) b, drop (Z.to_nat l) b).

Definition skip_input (b : bytes) : option bytes :=
  b ← skip_bytes 36 b; '(_, b) ← read_var_bytes b; skip_bytes 4 b.
Fixpoint skip_n (step : bytes -> option bytes) (n : nat) (b : bytes) : option bytes :=
  match n with O => Some b | S n => b ← step b; skip_n step n b end.

(** The outputs: the index of the first that pays [sats] to [spk], or -1. *)
Fixpoint find_outputs (n : nat) (i : Z) (sats : Z) (spk : bytes) (found : Z) (b : bytes) : option (Z * bytes) :=
  match n with
  | O => Some (found, b)
  | S n =>
      b' ← skip_bytes 8 b;
      let val := rd_le (take 8 b) in
      '(script, b') ← read_var_bytes b';
      let found := if decide (val <= LLONG_MAX /\ val = sats /\ script = spk /\ found < 0) then i else found in
      find_outputs n (i + 1) sats spk found b'
  end.

Definition skip_witness (b : bytes) : option bytes :=
  '(items, b) ← read_varint b;
  if decide (items > 100000) then None else skip_n (fun b => snd <$> read_var_bytes b) (Z.to_nat items) b.

(** Version, inputs and outputs, witnesses, lock time; the answer is the
    found output and the bytes that the identifier is the hash of. *)
Definition parse_tx (b : bytes) (sats : Z) (spk : bytes) : option (Z * bytes) :=
  if decide (blen b < 8) then None
  else
    let rest := drop 4 b in
    let '(segwit, body) := match rest with
                           | x00 :: c :: r => if decide (c <> x00) then (true, r) else (false, rest)
                           | _ => (false, rest)
                           end in
    '(vin, r) ← read_varint body;
    if decide (vin > 100000) then None
    else
      r ← skip_n skip_input (Z.to_nat vin) r;
      '(voutc, r) ← read_varint r;
      if decide (voutc > 100000) then None
      else
        '(found, r) ← find_outputs (Z.to_nat voutc) 0 sats spk (-1) r;
        let inner := take (length body - length r) body in
        r ← (if segwit : bool then skip_n skip_witness (Z.to_nat vin) r else Some r);
        if decide (blen r <> 4) then None
        else Some (found, if segwit then take 4 b ++ inner ++ r else b).

Definition qrx_btc_tx_find_output (rawtx_hex : bytes) (expected_sats : Z) (expected_scriptpubkey_hex : bytes) : option QrxBtcTxOutputMatch :=
  let hl := blen rawtx_hex in
  if decide (expected_sats < 0 \/ Z.odd hl = true \/ hl / 2 > BTC_TX_MAX_BYTES \/ hl < 20) then None
  else
    b ← hex_decode rawtx_hex (hl / 2);
    spk ← hex_decode expected_scriptpubkey_hex (blen expected_scriptpubkey_hex / 2 + 1);
    '(found, material) ← parse_tx b expected_sats spk;
    if decide (found < 0) then None
    else Some (mkMatchOut (field_hash_display (sha256d material)) found expected_sats).

(** ** Stored proofs *)

Definition qrx_btc_spv_stage_proof (network : bytes) (p : QrxBtcSpvProofResult) (vout sats : Z) (spk : bytes) : option puts :=
  n ← normnet network;
  Some [(pkey n (bp_txid p) (cs "block_hash"), bp_block_hash p); put_u (pkey n (bp_txid p) (cs "block_height")) (bp_block_height p);
    put_u (pkey n (bp_txid p) (cs "merkle_index")) (bp_merkle_index p); put_u (pkey n (bp_txid p) (cs "vout")) (u64 vout);
    put_u (pkey n (bp_txid p) (cs "sats")) (u64 sats); (pkey n (bp_txid p) (cs "scriptpubkey"), spk); (pkey n (bp_txid p) (cs "verified"), cs "1")].

(** The proof, the output, its value and its script in a buffer of [script_sz]. *)
Definition qrx_btc_spv_get_stored_proof (network txid : bytes) (script_sz : nat) : option (QrxBtcSpvProofResult * Z * Z * bytes) :=
  n ← normnet network;
  if decide (length txid <> 64%nat) then None
  else
    v ← db_get get (pkey n txid (cs "verified")) 256;
    if decide (v <> cs "1") then None
    else
      bh ← db_get get (pkey n txid (cs "block_hash")) 65;
      height ← db_get_u64 get (pkey n txid (cs "block_height"));
      index ← db_get_u64 get (pkey n txid (cs "merkle_index"));
      vv ← db_get_u64 get (pkey n txid (cs "vout"));
      ss ← db_get_u64 get (pkey n txid (cs "sats"));
      let spk := default [] (db_get get (pkey n txid (cs "scriptpubkey")) script_sz) in
      '(conf, act) ← qrx_btc_spv_confirmations n bh height;
      Some (mkProof txid bh height conf index 1 (if act : bool then 1 else 0), i32 vv, i64 ss, spk).
End proof.
