(* ===== verification/SpvTarget.v ===== *)
(** * Bitcoin headers: targets

    The compact form of a target keeps its three leading bytes; a difficulty
    change multiplies the target by the time that passed, within a factor of
    four and below the limit of the network. *)

From stdpp Require Import gmap.
From S2P Require Import Prelude Format Spv.

(** The target that the compact form stands for. *)
Definition compact_size (c : Z) : Z := c / 2 ^ 24.
Definition compact_word (c : Z) : Z := c mod 2 ^ 23.
Definition compact_sign (c : Z) : Z := (c / 2 ^ 23) mod 2.
Definition compact_val (c : Z) : Z :=
  if decide (compact_size c <= 3) then compact_word c / 256 ^ (3 - compact_size c) else compact_word c * 256 ^ (compact_size c - 3).
(** What [compact_to_bn] accepts. *)
Definition compact_fits (c : Z) : Prop :=
  compact_sign c = 0 /\ (compact_size c <= 32 \/ (compact_size c = 33 /\ compact_word c <= 0xffff) \/ (compact_size c = 34 /\ compact_word c <= 0xff)) /\
  0 < compact_val c.
#[export] Instance compact_fits_dec c : Decision (compact_fits c).
Proof. unfold compact_fits. apply _. Defined.

Lemma land_word c : Z.land c 0x007fffff = compact_word c.
Proof. change 0x007fffff with (Z.ones 23). by rewrite Z.land_ones by lia. Qed.
Lemma land_sign c : Z.land c 0x00800000 = 2 ^ 23 * compact_sign c.
Proof.
  unfold compact_sign. rewrite <- Z.shiftr_div_pow2, <- Z.bit0_mod, Z.shiftr_spec by lia. rewrite Z.add_0_l.
  change 0x00800000 with (2 ^ 23). apply Z.bits_inj_iff. intros i. destruct (decide (i < 0)); [by rewrite !Z.testbit_neg_r by done|].
  rewrite Z.land_spec, Z.pow2_bits_eqb, Z.mul_comm by lia. destruct (Z.eqb_spec 23 i) as [<-|Hne].
  - destruct (Z.testbit c 23); [by rewrite Z.mul_1_l, Z.pow2_bits_true by lia|by rewrite Z.mul_0_l, Z.bits_0].
  - rewrite andb_false_r. destruct (Z.testbit c 23); [by rewrite Z.mul_1_l, Z.pow2_bits_false by lia|by rewrite Z.mul_0_l, Z.bits_0].
Qed.
Lemma pow256 n : 0 <= n -> 2 ^ (8 * n) = 256 ^ n.
Proof. intros. by rewrite Z.pow_mul_r by lia. Qed.

Lemma pow_le a b : 0 <= a <= b -> 256 ^ a <= 256 ^ b.
Proof. intros. apply Z.pow_le_mono_r; lia. Qed.

(** The bound of a target. *)
Lemma compact_val_bound c : 0 <= c -> compact_fits c -> 0 < compact_val c < 2 ^ 256.
Proof.
  intros Hc (_ & Hs & Hp). split; [done|]. unfold compact_val in *. assert (0 <= compact_word c < 2 ^ 23) as Hw by (apply Z.mod_pos_bound; lia).
  assert (0 <= compact_size c) as Hs0 by (apply Z.div_pos; lia). change (2 ^ 256) with (256 ^ 32). case_decide as Hd.
  - assert (compact_word c / 256 ^ (3 - compact_size c) <= compact_word c).
    { apply Z.div_le_upper_bound; [apply Z.pow_pos_nonneg; lia|]. pose proof (Z.pow_pos_nonneg 256 (3 - compact_size c) ltac:(lia) ltac:(lia)). nia. }
    lia.
  - pose proof (Z.pow_pos_nonneg 256 (compact_size c - 3) ltac:(lia) ltac:(lia)) as Hpw. destruct Hs as [Hs|[[-> Hs]|[-> Hs]]].
    + assert (256 ^ (compact_size c - 3) <= 256 ^ 29) by (apply pow_le; lia). change (256 ^ 32) with (2 ^ 24 * 256 ^ 29). nia.
    + change (256 ^ 32) with (2 ^ 16 * 256 ^ (33 - 3)). nia.
    + change (256 ^ 32) with (2 ^ 8 * 256 ^ (34 - 3)). nia.
Qed.

Section bn.
Context {BIGNUM : Type} `{!BnOps BIGNUM} `{!BnLaws BIGNUM}.

Lemma compact_to_bn_spec c : 0 <= c -> match compact_to_bn c with Some b => compact_fits c /\ bn_val b = compact_val c | None => ~ compact_fits c end.
Proof.
  intros Hc. unfold compact_to_bn, compact_fits. cbv zeta. rewrite land_word, land_sign, Z.shiftr_div_pow2 by lia. fold (compact_size c).
  assert (0 <= compact_word c < 2 ^ 23) as Hw by (apply Z.mod_pos_bound; lia). assert (0 <= compact_size c) as Hs0 by (apply Z.div_pos; lia).
  case_decide as H1.
  - destruct H1 as [H1|H1]; [lia|]. intros (_ & _ & H). unfold compact_val in H. rewrite H1 in H. rewrite Zdiv_0_l, Z.mul_0_l in H. by destruct (decide _).
  - case_decide as H2; [lia|].
    set (b := if decide (compact_size c <= 3) then _ else _).
    assert (bn_val b = compact_val c) as Hb.
    { unfold b, compact_val. case_decide; [rewrite bn_rshift by (rewrite ?bn_set_word; lia)|rewrite bn_lshift by lia];
        rewrite bn_set_word, pow256 by lia; done. }
    rewrite bn_is_zero, bn_is_negative, Hb.
    assert (0 <= compact_val c).
    { unfold compact_val. case_decide; [apply Z.div_pos; [lia|apply Z.pow_pos_nonneg; lia]|]. apply Z.mul_nonneg_nonneg; [lia|apply Z.pow_nonneg; lia]. }
    case_bool_decide; [cbn; lia|]. rewrite bool_decide_eq_false_2 by lia. cbn [orb]. split; [|done]. split_and!; lia.
Qed.

Lemma work_spec c b : 0 <= c -> work_from_bits c = Some b -> compact_fits c /\ bn_val b = 2 ^ 256 / (compact_val c + 1) /\ 0 < bn_val b < 2 ^ 256.
Proof.
  intros Hc. unfold work_from_bits. pose proof (compact_to_bn_spec c Hc) as H. destruct (compact_to_bn c) as [t|]; [|done]. destruct H as [Hf Ht].
  cbn [mbind option_bind]. intros [= <-]. pose proof (compact_val_bound c Hc Hf) as Hb.
  assert (bn_val (BN_add_word t 1) = compact_val c + 1) as Hd by (rewrite bn_add_word, Ht; lia).
  assert (bn_val (BN_lshift (BN_set_word 1) 256) = 2 ^ 256) as Hn by (rewrite bn_lshift, bn_set_word; lia).
  rewrite bn_div, Hd, Hn by lia. split_and!; [done|done| |].
  - apply Z.div_str_pos. lia.
  - apply Z.div_lt_upper_bound; nia.
Qed.

(** ** The compact form of a number *)

Lemma num_bits_size b : 0 < bn_val b -> let size := (BN_num_bits b + 7) / 8 in 1 <= size /\ 256 ^ (size - 1) <= bn_val b < 256 ^ size.
Proof.
  intros H size. destruct (bn_num_bits b H) as (H1 & H2 & H3). unfold size. rewrite <- !pow256 by dlia. split; [dlia|]. split.
  - eapply Z.le_trans; [|exact H2]. apply Z.pow_le_mono_r; [lia|]. dlia.
  - eapply Z.lt_le_trans; [exact H3|]. apply Z.pow_le_mono_r; [lia|]. dlia.
Qed.

(** The leading three bytes of [v], which has [size]. *)
Definition mantissa (v size : Z) : Z := if decide (size <= 3) then v * 256 ^ (3 - size) else v / 256 ^ (size - 3).
Definition compact_of (v size : Z) : Z :=
  if decide (2 ^ 23 <= mantissa v size) then mantissa v size / 256 + 2 ^ 24 * (size + 1) else mantissa v size + 2 ^ 24 * size.

Lemma mantissa_bound v size : 1 <= size -> 256 ^ (size - 1) <= v < 256 ^ size -> 2 ^ 16 <= mantissa v size < 2 ^ 24.
Proof.
  intros Hs [H1 H2]. unfold mantissa. case_decide as Hd.
  - assert (size = 1 \/ size = 2 \/ size = 3) as [-> |[-> | ->]] by lia; cbn in *; lia.
  - assert (256 ^ (size - 1) = 2 ^ 16 * 256 ^ (size - 3)) as E1 by (rewrite <- !pow256, <- Z.pow_add_r by lia; f_equal; lia).
    assert (256 ^ size = 2 ^ 24 * 256 ^ (size - 3)) as E2 by (rewrite <- !pow256, <- Z.pow_add_r by lia; f_equal; lia).
    pose proof (Z.pow_pos_nonneg 256 (size - 3) ltac:(lia) ltac:(lia)). split; [apply Z.div_le_lower_bound; lia|apply Z.div_lt_upper_bound; lia].
Qed.

Lemma lor_shift a k : 0 <= a < 2 ^ 24 -> 0 <= k -> Z.lor a (Z.shiftl k 24) = a + 2 ^ 24 * k.
Proof.
  intros Ha Hk. rewrite Z.shiftl_mul_pow2, (Z.mul_comm (2 ^ 24)) by lia. assert (Z.land a (k * 2 ^ 24) = 0) as Hl.
  { apply Z.bits_inj_iff'. intros i Hi. rewrite Z.land_spec, Z.bits_0. destruct (decide (i < 24)).
    - by rewrite Z.mul_pow2_bits_low, andb_false_r by lia.
    - by rewrite (testbit_high 24 a) by lia. }
  by rewrite Z.add_nocarry_lxor, Z.lxor_lor.
Qed.

Lemma bn_to_compact_spec b : 0 < bn_val b < 2 ^ 256 -> exists size, 1 <= size <= 32 /\ 256 ^ (size - 1) <= bn_val b < 256 ^ size /\
  bn_to_compact b = compact_of (bn_val b) size.
Proof.
  intros Hb. destruct (num_bits_size b ltac:(lia)) as [H1 H2]. set (size := (BN_num_bits b + 7) / 8) in *. exists size.
  assert (size <= 32) as H3.
  { destruct (decide (size <= 32)); [done|]. assert (256 ^ 32 <= 256 ^ (size - 1)) by (apply pow_le; lia). change (256 ^ 32) with (2 ^ 256) in *. lia. }
  split; [done|]. split; [done|]. unfold bn_to_compact. rewrite bn_is_zero, bool_decide_eq_false_2 by lia. cbv zeta. fold size.
  pose proof (mantissa_bound (bn_val b) size H1 H2) as Hm.
  assert (BN_get_word (if decide (size <= 3) then BN_lshift b (8 * (3 - size)) else BN_rshift b (8 * (size - 3))) = mantissa (bn_val b) size) as ->.
  { assert (bn_val (if decide (size <= 3) then BN_lshift b (8 * (3 - size)) else BN_rshift b (8 * (size - 3))) = mantissa (bn_val b) size) as E.
    { unfold mantissa. case_decide; [rewrite bn_lshift|rewrite bn_rshift]; rewrite ?pow256 by lia; lia || done. }
    rewrite bn_get_word; rewrite E; [done|lia]. }
  rewrite u32_small by word. change 0x00ffffff with (Z.ones 24). rewrite Z.land_ones, Z.mod_small by lia. rewrite land_sign. unfold compact_of.
  assert (compact_sign (mantissa (bn_val b) size) = if decide (2 ^ 23 <= mantissa (bn_val b) size) then 1 else 0) as ->.
  { unfold compact_sign. case_decide; dlia. }
  destruct (decide (2 ^ 23 <= mantissa (bn_val b) size)).
  - rewrite decide_True by lia. rewrite Z.shiftr_div_pow2 by lia. change (2 ^ 8) with 256.
    rewrite (u32_small (Z.shiftl _ 24)) by (rewrite Z.shiftl_mul_pow2 by lia; word). apply lor_shift; [dlia|lia].
  - rewrite decide_False by lia. rewrite (u32_small (Z.shiftl _ 24)) by (rewrite Z.shiftl_mul_pow2 by lia; word). apply lor_shift; lia.
Qed.

Lemma kept q w r : 0 < q -> 0 <= r < q -> 2 ^ 15 <= w -> 0 < w * q <= q * w + r /\ (q * w + r - w * q) * 2 ^ 15 <= w * q.
Proof. intros. assert (w * q = q * w) as -> by lia. assert (q * 2 ^ 15 <= q * w) by (apply Z.mul_le_mono_nonneg_l; lia). lia. Qed.

(** What is kept: at most the number, and less by a small part of it only. *)
Lemma compact_of_fits v size : 1 <= size <= 32 -> 256 ^ (size - 1) <= v < 256 ^ size ->
  compact_fits (compact_of v size) /\ 0 < compact_of v size < 2 ^ 32 /\
  compact_val (compact_of v size) <= v /\ (v - compact_val (compact_of v size)) * 2 ^ 15 <= compact_val (compact_of v size).
Proof.
  intros Hs Hv. pose proof (mantissa_bound v size ltac:(lia) Hv) as Hm. unfold compact_of.
  assert (forall w k, 0 <= w < 2 ^ 23 -> 0 <= k -> compact_size (w + 2 ^ 24 * k) = k /\ compact_word (w + 2 ^ 24 * k) = w /\ compact_sign (w + 2 ^ 24 * k) = 0) as Hc.
  { intros w k Hw Hk. unfold compact_size, compact_word, compact_sign. dlia. }
  unfold compact_fits, compact_val. destruct (decide (2 ^ 23 <= mantissa v size)) as [Hb|Hb].
  - destruct (Hc (mantissa v size / 256) (size + 1) ltac:(dlia) ltac:(lia)) as (-> & -> & ->). unfold mantissa in *.
    destruct (decide (size <= 3)) as [Hd|Hd].
    + clear Hc. assert (size = 1 \/ size = 2 \/ size = 3) as [-> |[-> | ->]] by lia;
        [rewrite (decide_True (P := 1 + 1 <= 3)) by lia|rewrite (decide_True (P := 2 + 1 <= 3)) by lia|rewrite (decide_False (P := 3 + 1 <= 3)) by lia];
        split_and!; cbn in *; try lia; dlia.
    + rewrite !(decide_False (P := size + 1 <= 3)) by lia. replace (size + 1 - 3) with (Z.succ (size - 3)) by lia. rewrite Z.pow_succ_r by lia.
      set (p := 256 ^ (size - 3)) in *. assert (0 < p) by (apply Z.pow_pos_nonneg; lia). set (m := v / p) in *.
      pose proof (Z.div_mod v p ltac:(lia)) as Hdm. fold m in Hdm. pose proof (Z.mod_pos_bound v p ltac:(lia)).
      pose proof (Z.div_mod m 256 ltac:(lia)) as Hd2. pose proof (Z.mod_pos_bound m 256 ltac:(lia)).
      assert (v = 256 * p * (m / 256) + (p * (m mod 256) + v mod p)) as Hv' by (rewrite Hdm at 1; rewrite Hd2 at 1; ring).
      assert (0 <= p * (m mod 256) + v mod p < 256 * p) as Hr by nia.
      destruct (kept (256 * p) (m / 256) _ ltac:(lia) Hr ltac:(dlia)) as [K1 K2]. rewrite <- Hv' in K1, K2.
      split_and!; lia.
  - destruct (Hc (mantissa v size) size ltac:(lia) ltac:(lia)) as (-> & -> & ->). unfold mantissa in *.
    destruct (decide (size <= 3)) as [Hd|Hd].
    + assert (size = 1 \/ size = 2 \/ size = 3) as [-> |[-> | ->]] by lia; split_and!; cbn in *; try lia; dlia.
    + set (p := 256 ^ (size - 3)) in *. assert (0 < p) by (apply Z.pow_pos_nonneg; lia). set (m := v / p) in *.
      pose proof (Z.div_mod v p ltac:(lia)) as Hdm. fold m in Hdm. pose proof (Z.mod_pos_bound v p ltac:(lia)) as Hr.
      destruct (kept p m _ ltac:(lia) Hr ltac:(lia)) as [K1 K2]. rewrite <- Hdm in K1, K2. split_and!; lia.
Qed.

Lemma bn_to_compact_ok b : 0 < bn_val b < 2 ^ 256 -> let c := bn_to_compact b in
  compact_fits c /\ 0 < c < 2 ^ 32 /\ compact_val c <= bn_val b /\ (bn_val b - compact_val c) * 2 ^ 15 <= compact_val c.
Proof. intros Hb c. destruct (bn_to_compact_spec b Hb) as (size & H1 & H2 & H3). unfold c. rewrite H3. by apply compact_of_fits. Qed.

(** ** Changes of difficulty *)

(** The time that passed, within the factor of four. *)
Definition span_of (actual : Z) : Z := Z.min (Z.max actual (BTC_TARGET_TIMESPAN / 4)) (BTC_TARGET_TIMESPAN * 4).
Definition wanted (prev limit actual : Z) : Z := Z.min (compact_val limit) (compact_val prev * span_of actual / BTC_TARGET_TIMESPAN).

(** C27: a difficulty change is the wanted target, less a part of 2^-15 of it. *)
Theorem retarget_bounds prev limit actual : 0 <= prev -> 0 <= limit -> compact_fits prev -> compact_fits limit -> 0 < wanted prev limit actual ->
  exists c, qrx_btc_spv_retarget_bits prev limit actual = Some c /\ compact_fits c /\ 0 < c < 2 ^ 32 /\
    compact_val c <= wanted prev limit actual /\ (wanted prev limit actual - compact_val c) * 2 ^ 15 <= compact_val c.
Proof.
  intros Hp Hl Fp Fl Hw. unfold qrx_btc_spv_retarget_bits. cbv zeta.
  assert ((if decide ((if decide (actual < BTC_TARGET_TIMESPAN / 4) then BTC_TARGET_TIMESPAN / 4 else actual) > BTC_TARGET_TIMESPAN * 4)
    then BTC_TARGET_TIMESPAN * 4 else (if decide (actual < BTC_TARGET_TIMESPAN / 4) then BTC_TARGET_TIMESPAN / 4 else actual)) = span_of actual) as ->
    by (unfold span_of; repeat case_decide; lia).
  pose proof (compact_to_bn_spec prev Hp) as H1. destruct (compact_to_bn prev) as [t|]; [|done]. destruct H1 as [_ H1].
  pose proof (compact_to_bn_spec limit Hl) as H2. destruct (compact_to_bn limit) as [l|]; [|done]. destruct H2 as [_ H2].
  cbn [mbind option_bind]. pose proof (compact_val_bound prev Hp Fp) as B1. pose proof (compact_val_bound limit Hl Fl) as B2.
  assert (BTC_TARGET_TIMESPAN / 4 <= span_of actual <= BTC_TARGET_TIMESPAN * 4) as Hs by (unfold span_of, BTC_TARGET_TIMESPAN in *; dlia).
  unfold BTC_TARGET_TIMESPAN in Hs. change (1209600 / 4) with 302400 in Hs.
  assert (bn_val (BN_div_word (BN_mul_word t (span_of actual)) BTC_TARGET_TIMESPAN) = compact_val prev * span_of actual / BTC_TARGET_TIMESPAN) as Hv.
  { rewrite bn_div_word, bn_mul_word, H1 by (rewrite ?bn_mul_word; unfold BTC_TARGET_TIMESPAN; lia || nia). done. }
  set (x := BN_div_word _ _) in *. set (y := if decide (BN_cmp x l > 0) then l else x).
  assert (bn_val y = wanted prev limit actual) as Hy.
  { unfold y, wanted. rewrite <- Hv, <- H2. rewrite bn_cmp. pose proof (Z.sgn_spec (bn_val x - bn_val l)). case_decide; lia. }
  destruct (bn_to_compact_ok y) as (C1 & C2 & C3 & C4); [rewrite Hy; unfold wanted in *; lia|]. rewrite Hy in *.
  exists (bn_to_compact y). rewrite decide_True by lia. done.
Qed.
End bn.

(** ** An instance: the integers *)

Definition z_digit (d : Z) : byte := byte.of_Z (if decide (d < 10) then 48 + d else 55 + d).
Fixpoint z_hex (fuel : nat) (n : Z) (acc : bytes) : bytes :=
  match fuel with
  | O => acc
  | S fuel => if decide (n = 0) then acc else z_hex fuel (n / 256) (z_digit (n / 16 mod 16) :: z_digit (n mod 16) :: acc)
  end.
Fixpoint z_unhex (acc : Z) (s : bytes) : option Z :=
  match s with [] => Some acc | c :: s => d ← hexval c; z_unhex (16 * acc + d) s end.

#[export] Instance z_bn_ops : BnOps Z := {
  BN_set_word w := w; BN_bin2bn s := foldl (fun n c => 256 * n + byte.unsigned c) 0 s;
  BN_lshift b n := b * 2 ^ n; BN_rshift b n := b / 2 ^ n; BN_is_zero b := bool_decide (b = 0); BN_is_negative b := bool_decide (b < 0);
  BN_num_bits b := if decide (b = 0) then 0 else Z.log2 b + 1; BN_get_word b := b; BN_cmp a b := Z.sgn (a - b); BN_add := Z.add; BN_add_word := Z.add;
  BN_mul_word := Z.mul; BN_div_word := Z.div; BN_div := Z.div;
  BN_bn2hex b := if decide (b = 0) then [x30] else z_hex (S (Z.to_nat (Z.log2 b))) b []; BN_hex2bn s := if decide (s = []) then None else z_unhex 0 s
}.

Definition is_upper_hex (c : byte) : Prop := 48 <= byte.unsigned c <= 57 \/ 65 <= byte.unsigned c <= 70.
Lemma z_digit_ok d : 0 <= d < 16 -> is_upper_hex (z_digit d) /\ hexval (c_tolower (z_digit d)) = Some d.
Proof.
  assert (Forall (fun d => is_upper_hex (z_digit d) /\ hexval (c_tolower (z_digit d)) = Some d) (seqZ 0 16)) as H.
  { unfold is_upper_hex. apply (bool_decide_eq_true_1 _). vm_compute. reflexivity. }
  rewrite Forall_forall in H. intros Hd. apply H, elem_of_seqZ. lia.
Qed.

Lemma z_hex_app fuel n acc : z_hex fuel n acc = z_hex fuel n [] ++ acc.
Proof.
  revert n acc. induction fuel as [|fuel IH]; intros n acc; [done|]. cbn [z_hex]. case_decide; [done|].
  rewrite IH, (IH (n / 256) [_; _]), <- app_assoc. done.
Qed.

Lemma z_unhex_app s t acc : z_unhex acc (s ++ t) = a ← z_unhex acc s; z_unhex a t.
Proof. revert acc. induction s as [|c s IH]; intros acc; [done|]. cbn [app z_unhex]. destruct (hexval c); [apply IH|done]. Qed.

Lemma z_unhex_two acc a b x y : hexval (c_tolower a) = Some x -> hexval (c_tolower b) = Some y ->
  z_unhex acc (c_tolower <$> [a; b]) = Some (16 * (16 * acc + x) + y).
Proof. intros Ha Hb. cbn [fmap list_fmap z_unhex]. rewrite Ha. cbn [mbind option_bind]. rewrite Hb. done. Qed.
Lemma unhex_pair n : n = 16 * (16 * (n / 256) + n / 16 mod 16) + n mod 16.
Proof. dlia. Qed.

Lemma z_hex_spec fuel n : 0 <= n < 2 ^ Z.of_nat fuel -> z_unhex 0 (c_tolower <$> z_hex fuel n []) = Some n /\ Forall is_upper_hex (z_hex fuel n []) /\
  forall k, 0 <= k -> n < 256 ^ k -> blen (z_hex fuel n []) <= 2 * k.
Proof.
  revert n. induction fuel as [|fuel IH]; intros n Hn.
  { change (2 ^ Z.of_nat 0) with 1 in Hn. assert (n = 0) as -> by lia. split_and!; [done|constructor|]. intros k ? _. change (blen _) with 0. lia. }
  cbn [z_hex]. case_decide as H0; [subst; split_and!; [done|constructor|]; intros k ? _; change (blen _) with 0; lia|].
  rewrite z_hex_app. rewrite Nat2Z.inj_succ, Z.pow_succ_r in Hn by lia.
  assert (0 <= n / 256 < 2 ^ Z.of_nat fuel) as Hq by (split; [dlia|]; apply Z.div_lt_upper_bound; lia).
  destruct (IH (n / 256) Hq) as (I1 & I2 & I3).
  assert (0 <= n / 16 mod 16 < 16) as Ha by (apply Z.mod_pos_bound; lia). assert (0 <= n mod 16 < 16) as Hb by (apply Z.mod_pos_bound; lia).
  destruct (z_digit_ok _ Ha) as [A1 A2], (z_digit_ok _ Hb) as [B1 B2]. split_and!.
  - rewrite fmap_app, z_unhex_app, I1. cbn [mbind option_bind]. rewrite (z_unhex_two _ _ _ _ _ A2 B2). f_equal. symmetry. apply unhex_pair.
  - rewrite Forall_app, !Forall_cons. split_and!; done || apply Forall_nil_2.
  - intros k Hk Hlt. rewrite blen_app. unfold blen at 2. cbn [length]. destruct (decide (k = 0)) as [->|Hk0]; [rewrite Z.pow_0_r in Hlt; lia|].
    replace k with (Z.succ (k - 1)) in Hlt by lia. rewrite Z.pow_succ_r in Hlt by lia.
    pose proof (I3 (k - 1) ltac:(lia) ltac:(apply Z.div_lt_upper_bound; lia)). lia.
Qed.

Lemma z_log_fuel b : 0 < b -> 0 <= b < 2 ^ Z.of_nat (S (Z.to_nat (Z.log2 b))).
Proof. intros H. rewrite Nat2Z.inj_succ, Z2Nat.id by apply Z.log2_nonneg. pose proof (Z.log2_spec b H). lia. Qed.

#[export] Program Instance z_bn_laws : BnLaws Z := { bn_val := fun b => b }.
Solve All Obligations with try done.
Next Obligation.
  intros b H. cbn in *. rewrite decide_False by lia. pose proof (Z.log2_spec b H). pose proof (Z.log2_nonneg b).
  rewrite Z.add_simpl_r. split; [lia|]. by rewrite Z.add_1_r.
Qed.
Next Obligation.
  intros b n Hn Hb. cbn -[z_hex blen Z.mul] in *. destruct (decide (b = 0)); [change (blen _) with 1; lia|].
  destruct (z_hex_spec _ b (z_log_fuel b ltac:(lia))) as (_ & _ & H). pose proof (H n Hn ltac:(lia)). lia.
Qed.
Next Obligation.
  intros b Hb. cbn -[z_hex] in *. destruct (decide (b = 0)); [rewrite Forall_singleton; change (byte.unsigned x30) with 48; lia|]. apply (z_hex_spec _ b (z_log_fuel b ltac:(lia))).
Qed.

#[export] Instance z_bn_hex : BnHex Z.
Proof.
  intros b Hb. exists b. split; [|done]. cbn -[z_hex] in *. destruct (decide (b = 0)) as [->|]; [done|].
  destruct (z_hex_spec _ b (z_log_fuel b ltac:(lia))) as (H & _). set (x := z_hex _ _ _) in *. rewrite decide_False; [done|].
  intros E. rewrite E in H. cbn in H. congruence.
Qed.
