(* ===== verification/SpvState.v ===== *)
(** * Bitcoin headers: the state

    Where the fields of a header are, and how headers read after puts. *)

From stdpp Require Import gmap sorting.
From S2P Require Import Prelude Format ChainParamsFacts ChainGenesis Mvcc MvccBatch MvccSerial MvccLedger MvccExec MvccBook Spv.

(** ** Keys *)

Definition is_net (n : bytes) : Prop := n = cs "mainnet" \/ n = cs "testnet" \/ n = cs "regtest".
Lemma normnet_net m n : normnet m = Some n -> is_net n.
Proof.
  unfold normnet, is_net. repeat match goal with |- context [if ?b then _ else _] => destruct b end; intros H; try discriminate H;
    apply (inj Some) in H as <-; tauto.
Qed.
Lemma normnet_idem n : is_net n -> normnet n = Some n.
Proof. intros [-> |[-> | ->]]; vm_compute; reflexivity. Qed.
Lemma net_length n : is_net n -> length n = 7%nat.
Proof. by intros [-> |[-> | ->]]. Qed.

Definition spv_key (n rest : bytes) : bytes := cs "btcspv:" ++ n ++ cs ":" ++ rest.
Lemma spv_key_inj n r r' : spv_key n r = spv_key n r' -> r = r'.
Proof. unfold spv_key. intros H. by apply app_inv_head, app_inv_head, app_inv_head in H. Qed.

(** Names of fields. *)
Definition short_field (f : bytes) : Prop := (length f <= 16)%nat.

Lemma hkey_eq n h f : is_net n -> length h = 64%nat -> short_field f -> hkey n h f = spv_key n (cs "header:" ++ h ++ cs ":" ++ f).
Proof.
  intros Hn Hh Hf. unfold hkey, snprintf_s, spv_key. rewrite take_ge; [done|]. rewrite !length_app, (net_length n Hn), Hh. unfold short_field in Hf. cbn. lia.
Qed.
Lemma print_u_length k : (length (print_u k) <= 20)%nat.
Proof. destruct (udec_loop_ok 20 k [] (Forall_nil_2 _)) as [_ H]. cbn [length] in H. unfold print_u. lia. Qed.
Lemma akey_eq n k : is_net n -> akey n k = spv_key n (cs "active:" ++ print_u k).
Proof.
  intros Hn. unfold akey, snprintf_s, spv_key. rewrite take_ge; [done|]. rewrite !length_app, (net_length n Hn). pose proof (print_u_length k) as H. revert H. generalize (print_u k). intros s H. cbn. lia.
Qed.
Lemma nkey_eq n f : is_net n -> short_field f -> nkey n f = spv_key n f.
Proof. intros Hn Hf. unfold nkey, snprintf_s, spv_key. rewrite take_ge; [done|]. rewrite !length_app, (net_length n Hn). unfold short_field in Hf. cbn. lia. Qed.

Lemma hkey_inj n h h' f f' : is_net n -> length h = 64%nat -> length h' = 64%nat -> short_field f -> short_field f' ->
  hkey n h f = hkey n h' f' -> h = h' /\ f = f'.
Proof.
  intros Hn L L' Hf Hf'. rewrite !hkey_eq by done. intros H%spv_key_inj%app_inv_head. apply app_inj_1 in H as [-> H]; [|congruence].
  by apply app_inv_head in H.
Qed.
Lemma print_u_inj j k : in_u64 j -> in_u64 k -> print_u j = print_u k -> j = k.
Proof. intros Hj Hk H. rewrite <- (print_u_digits j), <- (print_u_digits k) by done. by rewrite H. Qed.
Lemma akey_inj n j k : is_net n -> in_u64 j -> in_u64 k -> akey n j = akey n k -> j = k.
Proof. intros Hn Hj Hk. rewrite !akey_eq by done. intros H%spv_key_inj%app_inv_head. by apply print_u_inj. Qed.

(** The three kinds of keys differ. *)
Lemma hkey_not_akey n h f k : is_net n -> length h = 64%nat -> short_field f -> hkey n h f <> akey n k.
Proof. intros Hn L Hf. rewrite hkey_eq, akey_eq by done. intros H%spv_key_inj. by injection H. Qed.
Definition state_field (f : bytes) : Prop := f = cs "best_hash" \/ f = cs "best_height" \/ f = cs "best_chainwork" \/ f = cs "initialized".
Lemma state_field_short f : state_field f -> short_field f.
Proof. unfold short_field. intros [-> |[-> |[-> | ->]]]; cbn; lia. Qed.
Lemma hkey_not_nkey n h f g : is_net n -> length h = 64%nat -> short_field f -> state_field g -> hkey n h f <> nkey n g.
Proof. intros Hn L Hf Hg. rewrite hkey_eq, nkey_eq by (done || by apply state_field_short). intros H%spv_key_inj. destruct Hg as [-> |[-> |[-> | ->]]]; by injection H. Qed.
Lemma akey_not_nkey n k g : is_net n -> state_field g -> akey n k <> nkey n g.
Proof. intros Hn Hg. rewrite akey_eq, nkey_eq by (done || by apply state_field_short). intros H%spv_key_inj. destruct Hg as [-> |[-> |[-> | ->]]]; by injection H. Qed.

(** ** Numbers *)

Lemma strtoull_print v : in_u64 v -> strtoull_checked (snprintf_s 128 (print_u v)) = Some v.
Proof.
  intros Hv. assert (snprintf_s 128 (print_u v) = print_u v) as -> by (unfold snprintf_s; apply take_ge; pose proof (print_u_length v); lia).
  destruct (print_u_shape v Hv) as (c & s & -> & Hdig & Hsp & H1 & H2 & Hd & Hsk). unfold strtoull_checked. cbn [skip_space]. rewrite Hsp.
  destruct c; try done; rewrite Hdig, Hd, Hsk; by rewrite decide_True by (split; [done|word]).
Qed.

Section read.
Variable get : bytes -> option bytes.

Lemma get_u64_put k v : in_u64 v -> get k = Some (print_u v) -> db_get_u64 get k = Some v.
Proof. intros Hv Hk. unfold db_get_u64, db_get. rewrite Hk. cbn [fmap option_fmap option_map mbind option_bind]. by apply strtoull_print. Qed.
Lemma get_u32_put k v : in_u32 v -> get k = Some (print_u v) -> db_get_u32 get k = Some v.
Proof. intros Hv Hk. unfold db_get_u32. rewrite (get_u64_put k v) by (word || done). cbn [mbind option_bind]. by rewrite decide_False by word. Qed.
Lemma get_str_put sz k v : (length v <= sz - 1)%nat -> get k = Some v -> db_get get k sz = Some v.
Proof. intros Hv Hk. unfold db_get. rewrite Hk. cbn [fmap option_fmap option_map]. f_equal. by apply take_ge. Qed.
End read.

(** ** Headers *)

Definition set_active (i : QrxBtcSpvHeaderInfo) (a : Z) : QrxBtcSpvHeaderInfo :=
  mkHeader (si_hash i) (si_prev_hash i) (si_merkle_root i) (si_header_hex i) (si_chainwork_hex i) (si_height i) (si_version i) (si_timestamp i)
    (si_bits i) (si_nonce i) a.

(** A header whose fields are what a database can give back. *)
Record storable (i : QrxBtcSpvHeaderInfo) : Prop := {
  so_hash : length (si_hash i) = 64%nat;
  so_prev : length (si_prev_hash i) = 64%nat;
  so_merkle : length (si_merkle_root i) = 64%nat;
  so_hex : (length (si_header_hex i) <= 160)%nat;
  so_work : (length (si_chainwork_hex i) <= 95)%nat;
  so_height : in_u64 (si_height i);
  so_u32 : in_u32 (si_version i) /\ in_u32 (si_timestamp i) /\ in_u32 (si_bits i) /\ in_u32 (si_nonce i)
}.

Lemma fields_keyed n i : stage_header_fields n i = keyed (hkey n (si_hash i))
  [(cs "prev", si_prev_hash i); (cs "merkle", si_merkle_root i); (cs "header", si_header_hex i); (cs "chainwork", si_chainwork_hex i);
   (cs "height", print_u (si_height i)); (cs "version", print_u (si_version i)); (cs "time", print_u (si_timestamp i));
   (cs "bits", print_u (si_bits i)); (cs "nonce", print_u (si_nonce i))].
Proof. done. Qed.

Definition header_fields : list bytes :=
  [cs "prev"; cs "merkle"; cs "header"; cs "chainwork"; cs "height"; cs "version"; cs "time"; cs "bits"; cs "nonce"].
Lemma header_fields_short f : f ∈ header_fields -> short_field f.
Proof. revert f. apply Forall_forall. unfold short_field. apply (bool_decide_eq_true_1 _). vm_compute. reflexivity. Qed.

Lemma fields_find n i f : is_net n -> length (si_hash i) = 64%nat -> f ∈ header_fields ->
  kv_find (stage_header_fields n i) (hkey n (si_hash i) f) = kv_find
  [(cs "prev", si_prev_hash i); (cs "merkle", si_merkle_root i); (cs "header", si_header_hex i); (cs "chainwork", si_chainwork_hex i);
   (cs "height", print_u (si_height i)); (cs "version", print_u (si_version i)); (cs "time", print_u (si_timestamp i));
   (cs "bits", print_u (si_bits i)); (cs "nonce", print_u (si_nonce i))] f.
Proof.
  intros Hn L Hf. rewrite fields_keyed. apply kv_find_keyed. intros g Hg E. apply hkey_inj in E as [_ E]; [done|done|done|done| |by apply header_fields_short].
  by apply header_fields_short.
Qed.

(** The puts [ps] leave the fields of header [h] alone. *)
Definition leaves_header (n : bytes) (ps : puts) (h : bytes) : Prop := forall f, f ∈ header_fields -> kv_find ps (hkey n h f) = None.

Lemma load_left get n ps h : leaves_header n ps h ->
  exists a, load_header_hash (over ps get) n h = (fun i => set_active i (a (si_height i))) <$> load_header_hash get n h.
Proof.
  intros Hl. exists (fun k => if decide (db_get (over ps get) (akey n k) 256 = Some h) then 1 else 0).
  assert (forall f sz, f ∈ header_fields -> db_get (over ps get) (hkey n h f) sz = db_get get (hkey n h f) sz) as Hg
    by (intros f sz Hf; unfold db_get, over; by rewrite Hl).
  assert (forall f, f ∈ header_fields -> db_get_u64 (over ps get) (hkey n h f) = db_get_u64 get (hkey n h f)) as Hg64
    by (intros f Hf; unfold db_get_u64; by rewrite Hg).
  assert (forall f, f ∈ header_fields -> db_get_u32 (over ps get) (hkey n h f) = db_get_u32 get (hkey n h f)) as Hg32
    by (intros f Hf; unfold db_get_u32; by rewrite Hg64).
  unfold load_header_hash. destruct (decide (length h <> 64%nat)); [done|].
  rewrite !Hg, !Hg64, !Hg32 by (apply (bool_decide_eq_true_1 _); vm_compute; reflexivity).
  repeat (match goal with |- context [mbind _ ?x] => destruct x end; cbn [mbind option_bind fmap option_fmap option_map]; [|done]). done.
Qed.

(** A header that was just put. *)
Lemma load_put get n i ps : is_net n -> storable i -> leaves_header n ps (si_hash i) ->
  exists a, load_header_hash (over (stage_header_fields n i ++ ps) get) n (si_hash i) = Some (set_active i a).
Proof.
  intros Hn [H1 H2 H3 H4 H5 H6 (H7 & H8 & H9 & H10)] Hl.
  assert (forall f v, f ∈ header_fields -> kv_find
    [(cs "prev", si_prev_hash i); (cs "merkle", si_merkle_root i); (cs "header", si_header_hex i); (cs "chainwork", si_chainwork_hex i);
     (cs "height", print_u (si_height i)); (cs "version", print_u (si_version i)); (cs "time", print_u (si_timestamp i));
     (cs "bits", print_u (si_bits i)); (cs "nonce", print_u (si_nonce i))] f = Some v ->
    over (stage_header_fields n i ++ ps) get (hkey n (si_hash i) f) = Some v) as Hg.
  { intros f v Hf Hv. unfold over. rewrite kv_find_app, Hl, fields_find, Hv by done. done. }
  eexists. unfold load_header_hash. rewrite decide_False by congruence.
  rewrite (get_str_put _ 65 (hkey n (si_hash i) (cs "prev")) (si_prev_hash i)), (get_str_put _ 65 (hkey n (si_hash i) (cs "merkle")) (si_merkle_root i)),
    (get_str_put _ 161 (hkey n (si_hash i) (cs "header")) (si_header_hex i)), (get_str_put _ 96 (hkey n (si_hash i) (cs "chainwork")) (si_chainwork_hex i)),
    (get_u64_put _ (hkey n (si_hash i) (cs "height")) (si_height i)), (get_u32_put _ (hkey n (si_hash i) (cs "version")) (si_version i)),
    (get_u32_put _ (hkey n (si_hash i) (cs "time")) (si_timestamp i)), (get_u32_put _ (hkey n (si_hash i) (cs "bits")) (si_bits i)),
    (get_u32_put _ (hkey n (si_hash i) (cs "nonce")) (si_nonce i));
    try (apply Hg; [apply (bool_decide_eq_true_1 _); vm_compute; reflexivity|reflexivity]); try done; try lia.
  all: cbn [mbind option_bind]; reflexivity.
Qed.

Lemma load_hash get n h i : load_header_hash get n h = Some i -> si_hash i = h /\ length h = 64%nat.
Proof.
  unfold load_header_hash. destruct (decide (length h <> 64%nat)); [done|]. intros H.
  repeat (match type of H with context [mbind _ ?x] => destruct x end; cbn [mbind option_bind] in H; [|done]).
  injection H as <-. cbn [si_hash]. split; [done|]. lia.
Qed.

Lemma load_none get n h : db_get get (hkey n h (cs "height")) 16 = None -> load_header_hash get n h = None.
Proof.
  unfold db_get. intros Hk. assert (get (hkey n h (cs "height")) = None) as Hg by (by destruct (get _)). unfold load_header_hash. case_decide; [done|].
  assert (db_get_u64 get (hkey n h (cs "height")) = None) as -> by (unfold db_get_u64, db_get; by rewrite Hg).
  repeat (match goal with |- context [mbind _ ?x] => destruct x end; cbn [mbind option_bind]; [|done]). done.
Qed.

(** ** Puts made from a list *)

Lemma kv_find_pair l k v : kv_find l k = Some v -> (k, v) ∈ l.
Proof.
  induction l as [|[k1 v1] l IH]; cbn [kv_find]; [done|]. destruct (kv_find l k) as [w|]; [intros [= ->]; right; by apply IH|].
  case_decide; [|done]. intros [= ->]. subst. by left.
Qed.
Lemma kv_find_is_Some l k v : (k, v) ∈ l -> is_Some (kv_find l k).
Proof.
  induction l as [|[k1 v1] l IH]; [by intros ?%not_elem_of_nil|]. intros [E|H]%elem_of_cons; cbn [kv_find].
  - injection E as <- <-. destruct (kv_find l k); [done|]. by rewrite decide_True.
  - by destruct (IH H) as [w ->].
Qed.

Section mapped.
Context {A : Type}.
Variables (key : A -> bytes) (val : A -> bytes).
Abbreviation mapped l := ((fun x => (key x, val x)) <$> l).

Lemma kv_find_mapped_none l k : (forall x, x ∈ l -> key x <> k) -> kv_find (mapped l) k = None.
Proof using. intros H. apply kv_find_none. rewrite <- list_fmap_compose. intros (x & E & Hx)%list_elem_of_fmap. by apply (H x Hx). Qed.

Lemma kv_find_mapped l x : x ∈ l -> (forall y, y ∈ l -> key y = key x -> val y = val x) -> kv_find (mapped l) (key x) = Some (val x).
Proof using.
  intros Hx Hl. destruct (kv_find_is_Some (mapped l) (key x) (val x)) as [v E]; [apply list_elem_of_fmap; by exists x|]. rewrite E.
  apply kv_find_pair, list_elem_of_fmap in E as (y & [= E1 ->] & Hy). f_equal. by apply Hl.
Qed.
End mapped.

(** ** Which keys puts are at *)

Lemma fields_none n i k : (forall f, f ∈ header_fields -> hkey n (si_hash i) f <> k) -> kv_find (stage_header_fields n i) k = None.
Proof.
  intros H. apply kv_find_none. change ((stage_header_fields n i).*1) with (hkey n (si_hash i) <$> header_fields). intros (f & -> & Hf)%list_elem_of_fmap.
  by apply (H f Hf).
Qed.

(** The puts that are not fields of headers. *)
Definition index_key (n k : bytes) : Prop := (exists j, k = akey n j) \/ (exists f, state_field f /\ k = nkey n f).
Lemma index_not_header n h f k : is_net n -> length h = 64%nat -> f ∈ header_fields -> index_key n k -> hkey n h f <> k.
Proof. intros Hn Hh Hf%header_fields_short [[j ->]|(g & Hg & ->)]; [by apply hkey_not_akey|by apply hkey_not_nkey]. Qed.
Lemma index_leaves n ps h : is_net n -> length h = 64%nat -> Forall (fun kv => index_key n kv.1) ps -> leaves_header n ps h.
Proof.
  intros Hn Hh Hp f Hf. apply kv_find_none. intros ([k v] & Ek & Hin)%list_elem_of_fmap. rewrite Forall_forall in Hp.
  by apply (index_not_header n h f k Hn Hh Hf (Hp _ Hin)).
Qed.
Lemma fields_leave n i h : is_net n -> length (si_hash i) = 64%nat -> length h = 64%nat -> h <> si_hash i -> leaves_header n (stage_header_fields n i) h.
Proof.
  intros Hn Hi Hh Hne f Hf. apply fields_none. intros g Hg E. apply hkey_inj in E as [E _]; try done; by apply header_fields_short.
Qed.
Lemma fields_off_index n i k : is_net n -> length (si_hash i) = 64%nat -> index_key n k -> kv_find (stage_header_fields n i) k = None.
Proof. intros Hn Hi Hk. apply fields_none. intros f Hf. by apply index_not_header. Qed.

Lemma best_puts_index n h : Forall (fun kv => index_key n kv.1) (best_puts n h).
Proof. unfold best_puts, index_key, state_field. repeat apply Forall_cons_2; try apply Forall_nil_2; right; eexists; (split; [|reflexivity]); tauto. Qed.
Lemma best_puts_akey n h j : is_net n -> kv_find (best_puts n h) (akey n j) = None.
Proof.
  intros Hn. apply kv_find_none. unfold best_puts, put_u. rewrite !fmap_cons, fmap_nil. cbn [fst].
  rewrite !not_elem_of_cons. split_and!; try apply not_elem_of_nil; apply akey_not_nkey; unfold state_field; tauto.
Qed.
Lemma best_puts_hash n h : is_net n -> kv_find (best_puts n h) (nkey n (cs "best_hash")) = Some (si_hash h).
Proof.
  intros Hn. unfold best_puts, put_u. cbn [kv_find]. rewrite decide_False, decide_False, decide_True; [done|done| |];
    rewrite !nkey_eq by (done || apply state_field_short; unfold state_field; tauto); intros H%spv_key_inj; by injection H.
Qed.
