(* ===== verification/SpvChain.v ===== *)
(** * Bitcoin headers: the rules of a header, the tree, the chain of most work

    The difficulty that a header must have and the median time before it are
    read from its ancestors: they are the same in every later state.
    [spv_ok]: every stored header is what its 80 bytes say and has proof of
    work; every one but the genesis has a stored parent, the difficulty that
    the rules ask for, a time after the median, and the work of its parent plus
    its own; the best header has the most work; and the active heights are
    exactly its ancestors.  Here the loops over the two branches of a fork are
    shown to find it. *)

From stdpp Require Import gmap sorting.
From S2P Require Import Prelude Format Mvcc MvccSerial MvccLedger MvccExec MvccBook Spv SpvTarget SpvState.

(** A header but for whether it is active, which changes. *)
Definition erase (i : QrxBtcSpvHeaderInfo) : QrxBtcSpvHeaderInfo := set_active i 0.
Definition header (n : bytes) (get : bytes -> option bytes) (h : bytes) : option QrxBtcSpvHeaderInfo := erase <$> load_header_hash get n h.

(** The second state has the headers of the first. *)
Definition grows (n : bytes) (get get' : bytes -> option bytes) : Prop := forall h i, header n get h = Some i -> header n get' h = Some i.

Lemma header_load n get h i : header n get h = Some i -> exists i', load_header_hash get n h = Some i' /\ erase i' = i.
Proof. unfold header. destruct (load_header_hash get n h) as [i'|]; [|done]. intros [= <-]. by exists i'. Qed.
Lemma header_hash n get h i : header n get h = Some i -> si_hash i = h /\ length h = 64%nat /\ erase i = i.
Proof. intros (i' & Hl & <-)%header_load. apply load_hash in Hl as [<- ?]. done. Qed.

Lemma erase_same a b : erase a = erase b -> si_hash a = si_hash b /\ si_prev_hash a = si_prev_hash b /\ si_height a = si_height b /\
  si_timestamp a = si_timestamp b /\ si_bits a = si_bits b.
Proof. unfold erase, set_active. by intros [= ? ? ? ? ? ? ? ? ? ?]. Qed.

(** Headers after the puts of an accepted header. *)
Lemma header_over n get i ps h : is_net n -> storable i -> Forall (fun kv => index_key n kv.1) ps ->
  header n (over (stage_header_fields n i ++ ps) get) h = if decide (h = si_hash i) then Some (erase i) else header n get h.
Proof.
  intros Hn Hi Hp. unfold header. case_decide as Hh.
  - subst. destruct (load_put get n i ps Hn Hi) as [a ->]; [by apply index_leaves, Hp; try apply Hi|done].
  - destruct (decide (length h = 64%nat)) as [Hl|Hl].
    + destruct (load_left get n (stage_header_fields n i ++ ps) h) as [a ->].
      { intros f Hf. rewrite kv_find_app, (index_leaves n ps h Hn Hl Hp f Hf). by apply fields_leave; try apply Hi. }
      by destruct (load_header_hash get n h).
    + unfold load_header_hash. by rewrite !decide_True by done.
Qed.

(** An insertion sort permutes. *)
Lemma insert_time_perm x l : insert_time x l ≡ₚ x :: l.
Proof. induction l as [|y l IH]; cbn [insert_time]; [done|]. case_decide; [done|]. rewrite IH. apply perm_swap. Qed.
Lemma insert_times_perm ts l : foldl (fun sorted x => insert_time x sorted) l ts ≡ₚ ts ++ l.
Proof.
  revert l. induction ts as [|t ts IH]; intros l; cbn [foldl app]; [done|]. rewrite IH, insert_time_perm. symmetry. apply Permutation_middle.
Qed.

Section grow.
Context {BIGNUM : Type} `{!BnOps BIGNUM}.
Variables (n : bytes) (get get' : bytes -> option bytes).
Hypothesis grow : grows n get get'.

Lemma load_grows h i : load_header_hash get n h = Some i -> exists i', load_header_hash get' n h = Some i' /\ erase i' = erase i.
Proof using grow. intros Hl. apply header_load, grow. unfold header. by rewrite Hl. Qed.

(** One step of a loop to the parent, in both states. *)
Ltac step_up Hl := match type of Hl with
  | (load_header_hash get n (si_prev_hash ?a) ≫= _) = Some _ =>
      let x := fresh "x" in let E := fresh "E" in let x' := fresh "x'" in let E' := fresh "E'" in let S := fresh "S" in
      destruct (load_header_hash get n (si_prev_hash a)) as [x|] eqn:E; cbn [mbind option_bind] in Hl; [|done];
      destruct (load_grows _ _ E) as (x' & E' & S); rewrite E'; cbn [mbind option_bind]
  end.

Lemma ancestor_loop_grows fuel target a a' r : erase a' = erase a -> ancestor_loop get fuel n target a = Some r ->
  exists r', ancestor_loop get' fuel n target a' = Some r' /\ erase r' = erase r.
Proof using grow.
  revert a a'. induction fuel as [|fuel IH]; intros a a' S Hl; cbn [ancestor_loop] in *; destruct (erase_same _ _ S) as (_ & P & H & _); rewrite ?P, ?H;
    destruct (decide (si_height a > target)); try done; try (injection Hl as <-; by exists a').
  step_up Hl. by apply (IH x).
Qed.

Lemma testnet_loop_grows fuel a a' r : erase a' = erase a -> testnet_loop get fuel n a = Some r ->
  exists r', testnet_loop get' fuel n a' = Some r' /\ erase r' = erase r.
Proof using grow.
  revert a a'. induction fuel as [|fuel IH]; intros a a' S Hl; cbn [testnet_loop] in *; destruct (erase_same _ _ S) as (_ & P & H & _ & B); rewrite ?P, ?H, ?B;
    destruct (decide (si_height a mod BTC_RETARGET_INTERVAL <> 0 /\ si_bits a = powlimit_bits n)); try done; try (injection Hl as <-; by exists a').
  step_up Hl. by apply (IH x).
Qed.

Lemma get_ancestor_grows h target r : get_ancestor get n h target = Some r -> exists r', get_ancestor get' n h target = Some r' /\ erase r' = erase r.
Proof using grow.
  unfold get_ancestor. intros Hl. destruct (load_header_hash get n h) as [a|] eqn:E; cbn [mbind option_bind] in Hl; [|done].
  destruct (load_grows _ _ E) as (a' & -> & S). cbn [mbind option_bind]. destruct (ancestor_loop get _ n target a) as [b|] eqn:Eb; cbn [mbind option_bind] in Hl; [|done].
  unfold height_fuel in *. destruct (erase_same _ _ S) as (_ & _ & -> & _). destruct (ancestor_loop_grows _ _ _ _ _ S Eb) as (b' & -> & Sb). cbn [mbind option_bind].
  destruct (erase_same _ _ Sb) as (_ & _ & -> & _). case_decide; [done|]. injection Hl as <-. by exists b'.
Qed.

Lemma expected_bits_grows p p' height time b : erase p' = erase p -> expected_bits get n p height time = Some b -> expected_bits get' n p' height time = Some b.
Proof using grow.
  intros S. unfold expected_bits, height_fuel. destruct (erase_same _ _ S) as (Hh & _ & Ht & Htm & Hb). rewrite Hh, Ht, Htm, Hb.
  repeat case_decide; try done.
  - destruct (testnet_loop get _ n p) as [r|] eqn:E; [|done]. intros [= <-]. destruct (testnet_loop_grows _ _ _ _ S E) as (r' & -> & Sr).
    destruct (erase_same _ _ Sr) as (_ & _ & _ & _ & Hr). cbn [fmap option_fmap option_map]. by rewrite Hr.
  - destruct (get_ancestor get n _ _) as [r|] eqn:E; cbn [mbind option_bind]; [|done]. destruct (get_ancestor_grows _ _ _ E) as (r' & -> & Sr).
    cbn [mbind option_bind]. by destruct (erase_same _ _ Sr) as (_ & _ & _ & -> & _).
Qed.

Lemma times_from_grows k a a' ts : erase a' = erase a -> times_from get k n a = Some ts -> times_from get' k n a' = Some ts.
Proof using grow.
  revert a a' ts. induction k as [|k IH]; intros a a' ts S Hl; cbn [times_from] in *; [done|]. destruct (erase_same _ _ S) as (_ & P & H & T & _). rewrite ?P, ?H, ?T.
  destruct (decide (si_height a = 0)); [done|]. step_up Hl.
  destruct (times_from get k n x) as [r|] eqn:Er; cbn [mbind option_bind] in Hl; [|done]. by rewrite (IH x _ r).
Qed.

Lemma median_grows h m : median_time_past get n h = Some m -> median_time_past get' n h = Some m.
Proof using grow.
  unfold median_time_past. intros Hl. destruct (load_header_hash get n h) as [a|] eqn:E; cbn [mbind option_bind] in Hl; [|done].
  destruct (load_grows _ _ E) as (a' & -> & S). cbn [mbind option_bind]. destruct (times_from get 11 n a) as [ts|] eqn:Et; cbn [mbind option_bind] in Hl; [|done].
  rewrite (times_from_grows _ _ _ _ S Et). done.
Qed.
End grow.

(** The median of times that were read. *)
Lemma median_some n get h a ts : load_header_hash get n h = Some a -> times_from get 11 n a = Some ts -> ts <> [] ->
  exists m, median_time_past get n h = Some m.
Proof.
  intros Hl Ht Hne. unfold median_time_past. rewrite Hl. cbn [mbind option_bind]. rewrite Ht. cbn [mbind option_bind].
  apply lookup_lt_is_Some_2. rewrite (Permutation_length (insert_times_perm ts [])), length_app. destruct ts; [done|]. cbn [length]. apply Nat.lt_le_trans with (S (length ts)); [apply Nat.div_lt; lia|lia].
Qed.

Definition be_val (d : bytes) : Z := foldl (fun n c => 256 * n + byte.unsigned c) 0 d.
Definition block_work (bits : Z) : Z := 2 ^ 256 / (compact_val bits + 1).

Section chain.
Context {BIGNUM : Type} `{!BnOps BIGNUM} `{!BnLaws BIGNUM}.
Variable sha256 : bytes -> bytes.

Definition work_of (i : QrxBtcSpvHeaderInfo) : option Z := bn_val <$> BN_hex2bn (si_chainwork_hex i).

(** The bytes of a network's first header. *)
Definition genesis_raw (n : bytes) : bytes := default [] (gh ← qrx_btc_spv_genesis_header_hex n; hex_decode gh 80).
Definition genesis_hash (n : bytes) : bytes := header_hash_from_raw sha256 (genesis_raw n).

(** What the header says is in its bytes, whose hash meets its target. *)
Definition genuine (n : bytes) (i : QrxBtcSpvHeaderInfo) : Prop :=
  exists raw, hex_decode (si_header_hex i) 80 = Some raw /\ length raw = 80%nat /\
    i = set_place (parse_header sha256 (si_header_hex i) raw (field_hash_display (take 32 (drop 4 raw)))) (si_height i) (si_chainwork_hex i) /\
    compact_fits (si_bits i) /\ be_val (reverse (sha256d sha256 raw)) <= compact_val (si_bits i) <= compact_val (powlimit_bits n).

Section view.
Variables (n : bytes) (get : bytes -> option bytes).

Abbreviation header := (header n get).
Definition active (k : Z) : option bytes := db_get get (akey n k) 65.
Definition best_hash : option bytes := db_get get (nkey n (cs "best_hash")) 65.

Definition parent (i p : QrxBtcSpvHeaderInfo) : Prop := header (si_prev_hash i) = Some p /\ si_height i = si_height p + 1.

(** [j] is [i] or an ancestor of it. *)
Inductive ancestor : QrxBtcSpvHeaderInfo -> QrxBtcSpvHeaderInfo -> Prop :=
| an_self i : ancestor i i
| an_up i p j : parent i p -> ancestor p j -> ancestor i j.

(** The difficulty and the time of [i] after [p]. *)
Definition lawful (i p : QrxBtcSpvHeaderInfo) : Prop :=
  expected_bits get n p (si_height i) (si_timestamp i) = Some (si_bits i) /\
  exists m, median_time_past get n (si_hash p) = Some m /\ m < si_timestamp i.

(** A place in the tree: the genesis, or below a stored header. *)
Definition placed (i : QrxBtcSpvHeaderInfo) : Prop :=
  0 <= si_height i /\ (exists w, work_of i = Some w /\ 0 < w) /\
  if decide (si_height i = 0) then si_hash i = genesis_hash n /\ work_of i = Some (block_work (si_bits i))
  else exists p w, parent i p /\ lawful i p /\ work_of p = Some w /\ work_of i = Some (w + block_work (si_bits i)).

(** No height is [limit] or more. *)
Record tree_ok (limit : Z) : Prop := {
  tr_placed : forall h i, header h = Some i -> placed i;
  tr_genuine : forall h i, header h = Some i -> genuine n i;
  tr_limit : forall h i, header h = Some i -> si_height i < limit
}.

(** The best header and the active heights. *)
Record best_ok (b : bytes) (ib : QrxBtcSpvHeaderInfo) : Prop := {
  be_hash : best_hash = Some b;
  be_header : header b = Some ib;
  be_most : forall h i w wb, header h = Some i -> work_of i = Some w -> work_of ib = Some wb -> w <= wb;
  be_active : forall j, ancestor ib j -> active (si_height j) = Some (si_hash j);
  be_above : forall k, in_u64 k -> si_height ib < k -> active k = None \/ active k = Some (cs "-")
}.

Definition spv_ok (limit : Z) : Prop := tree_ok limit /\ exists b ib, best_ok b ib.
Definition spv_empty : Prop := best_hash = None /\ (forall h, header h = None) /\ forall k, in_u64 k -> active k = None.

(** ** Walking up *)

(** From [a] up to [b], through [l], which ends before [b]. *)
Inductive run : QrxBtcSpvHeaderInfo -> list QrxBtcSpvHeaderInfo -> QrxBtcSpvHeaderInfo -> Prop :=
| run_nil a : run a [] a
| run_cons a p l b : parent a p -> run p l b -> run a (a :: l) b.

Lemma run_snoc a l b c : run a l b -> parent b c -> run a (l ++ [b]) c.
Proof. induction 1 as [a|a p l b Hp _ IH]; intros Hc; cbn [app]; [by apply (run_cons _ c); [|constructor]|apply (run_cons _ p); auto]. Qed.
Lemma run_app a l b k c : run a l b -> run b k c -> run a (l ++ k) c.
Proof. induction 1 as [a|a p l b Hp _ IH]; intros Hc; cbn [app]; [done|apply (run_cons _ p); auto]. Qed.
Lemma run_height a l b : run a l b -> si_height b = si_height a - Z.of_nat (length l) /\ forall x, x ∈ l -> si_height b < si_height x <= si_height a.
Proof.
  induction 1 as [a|a p l b [_ Hp] _ [IH1 IH2]]; cbn [length]; [split; [lia|by intros x ?%not_elem_of_nil]|]. split; [lia|].
  intros x [->|Hx]%elem_of_cons; [lia|]. specialize (IH2 x Hx). lia.
Qed.
Lemma run_ancestor a l b : run a l b -> ancestor a b.
Proof. induction 1 as [a|a p l b Hp _ IH]; [constructor|by apply (an_up _ p)]. Qed.
Lemma ancestor_trans a b c : ancestor a b -> ancestor b c -> ancestor a c.
Proof. induction 1 as [|i p j Hp _ IH]; intros Hc; [done|]. apply (an_up _ p); auto. Qed.
Lemma ancestor_height a b : ancestor a b -> si_height b <= si_height a.
Proof. induction 1 as [|i p j [_ Hp] _ IH]; lia. Qed.

(** What is below the start of a run is in it or below its end. *)
Lemma run_split a l b j : run a l b -> ancestor a j -> j ∈ l \/ ancestor b j.
Proof.
  induction 1 as [a|a p l b Hp _ IH]; intros Hj; [by right|]. inversion Hj as [|? p' ? Hp' Hj']; subst; [left; by left|].
  assert (p' = p) as -> by (destruct Hp, Hp'; congruence). destruct (IH Hj') as [?|?]; [left; by right|by right].
Qed.

Section tree.
Variable limit : Z.
Hypothesis tree : tree_ok limit.

Lemma parent_of i : placed i -> si_height i <> 0 -> exists p, parent i p /\ placed p.
Proof using tree. intros (_ & _ & H) Hz. rewrite decide_False in H by done. destruct H as (p & w & Hp & _). exists p. split; [done|]. apply (tr_placed _ tree _ _ (proj1 Hp)). Qed.

(** The parent that the loops load. *)
Lemma load_parent a p : parent (erase a) p -> exists p', load_header_hash get n (si_prev_hash a) = Some p' /\ erase p' = p.
Proof using. intros [Hp _]. by apply header_load. Qed.

(** A header that is stored, or the new one, whose parent is. *)
Variable newh : QrxBtcSpvHeaderInfo.
Hypothesis new_placed : placed (erase newh).
Hypothesis new_fresh : header (si_hash newh) = None.
Hypothesis new_height : 0 < si_height newh.

Definition node (i : QrxBtcSpvHeaderInfo) : Prop := header (si_hash i) = Some i \/ i = erase newh.
Lemma node_placed i : node i -> placed i.
Proof using tree new_placed. intros [H| ->]; [by apply (tr_placed _ tree _ _ H)|done]. Qed.
Lemma node_parent i p : node i -> parent i p -> node p.
Proof using. intros Hi [Hp _]. left. by destruct (header_hash _ _ _ _ Hp) as (-> & _). Qed.
Lemma node_genesis i : node i -> si_height i = 0 -> si_hash i = genesis_hash n /\ header (si_hash i) = Some i.
Proof using tree new_height.
  intros [H|E] Hz; [|rewrite E in Hz; cbn in Hz; lia]. pose proof (tr_placed _ tree _ _ H) as (_ & _ & Hp). rewrite decide_True in Hp by done. by destruct Hp.
Qed.

Lemma climb_new_ok fuel bh path a : (Z.to_nat (si_height a) <= fuel)%nat -> node (erase a) -> 0 <= si_height bh ->
  exists l b, climb_new get fuel n (Some bh) path a = Some (path ++ (si_hash <$> l), b) /\ run (erase a) l (erase b) /\ node (erase b) /\ Forall node l /\
    si_height b <= si_height bh /\ (si_height a <= si_height bh -> b = a).
Proof using tree new_placed.
  revert path a. induction fuel as [|fuel IH]; intros path a Hf Hn Hb; cbn [climb_new]; case_bool_decide as Hh.
  - exists [], a. rewrite app_nil_r. split_and!; try done; constructor.
  - destruct (node_placed _ Hn) as [Hz _]. cbn in Hz. lia.
  - exists [], a. rewrite app_nil_r. split_and!; try done; constructor.
  - destruct (node_placed _ Hn) as [Hz _]. cbn in Hz. rewrite decide_False by lia.
    destruct (parent_of _ (node_placed _ Hn)) as (p & Hp & _); [cbn; lia|]. destruct (load_parent _ _ Hp) as (p' & Hl & Ep). rewrite Hl.
    cbn [mbind option_bind]. assert (si_height a = si_height p' + 1) as Hs by (destruct Hp as [_ Hp]; rewrite <- Ep in Hp; exact Hp).
    destruct (IH (path ++ [si_hash a]) p' ltac:(lia)) as (l & b & He & Hr & Hb' & Hl' & Hle & _); [rewrite Ep; by apply (node_parent (erase a))|done|].
    exists (erase a :: l), b. rewrite He, <- app_assoc. split_and!; try done.
    + apply (run_cons _ p); [done|]. by rewrite <- Ep.
    + by apply Forall_cons.
Qed.

Lemma climb_old_ok fuel k bh : (Z.to_nat (si_height bh) <= fuel)%nat -> header (si_hash bh) = Some (erase bh) -> 0 <= k <= si_height bh ->
  exists b l, climb_old get fuel n k bh = Some b /\ run (erase bh) l (erase b) /\ header (si_hash b) = Some (erase b) /\ si_height b = k.
Proof using tree.
  revert bh. induction fuel as [|fuel IH]; intros bh Hf Hh Hk; cbn [climb_old]; case_decide as Hd; try lia.
  - exists bh, []. split_and!; try done; [constructor|lia].
  - destruct (parent_of (erase bh)) as (p & Hp & _); [apply (tr_placed _ tree _ _ Hh)|cbn; lia|].
    destruct (load_parent _ _ Hp) as (p' & Hl & Ep). rewrite Hl. cbn [mbind option_bind].
    assert (si_height bh = si_height p' + 1) as Hs by (destruct Hp as [_ Hp]; rewrite <- Ep in Hp; exact Hp).
    assert (header (si_hash p') = Some (erase p')) as Hp'.
    { destruct Hp as [Hp _]. destruct (header_hash _ _ _ _ Hp) as (E & _). rewrite <- Ep in E. cbn in E. rewrite E, Ep. done. }
    destruct (IH p' ltac:(lia) Hp' ltac:(lia)) as (b & l & He & Hr & Hb & Hkb). exists b, (erase bh :: l). split_and!; try done.
    apply (run_cons _ p); [done|]. by rewrite <- Ep.
  - exists bh, []. split_and!; try done; [constructor|lia].
Qed.

Lemma climb_both_ok fuel path a bh : (Z.to_nat (si_height a) <= fuel)%nat -> node (erase a) -> header (si_hash bh) = Some (erase bh) ->
  si_height a = si_height bh ->
  exists l l2 c, climb_both get fuel n path a bh = Some (path ++ (si_hash <$> l)) /\ run (erase a) l c /\ run (erase bh) l2 c /\ Forall node l /\ node c.
Proof using tree new_placed new_fresh new_height.
  revert path a bh. induction fuel as [|fuel IH]; intros path a bh Hf Ha Hb He; cbn [climb_both];
    (destruct (decide (si_hash a = si_hash bh)) as [Heq|Heq];
      [exists [], [], (erase bh); rewrite app_nil_r; assert (erase a = erase bh) as E
        by (destruct Ha as [Ha|Ha]; [cbn in Ha; rewrite Heq in Ha; congruence|exfalso; apply (f_equal si_hash) in Ha; cbn in Ha; congruence]);
       rewrite E; split; [done|split; [apply run_nil|split; [apply run_nil|split; [constructor|by left]]]]|]).
  - exfalso. destruct (node_placed _ Ha) as [Hz _]. cbn in Hz. assert (si_height a = 0) as H0 by lia.
    destruct (node_genesis (erase a) Ha H0) as [E1 _]. destruct (node_genesis (erase bh) (or_introl Hb)) as [E2 _]; [cbn; lia|].
    cbn in E1, E2. congruence.
  - destruct (node_placed _ Ha) as [Hz _]. cbn in Hz. destruct (decide (si_height a = 0 \/ si_height bh = 0)) as [H0|H0].
    { exfalso. destruct (node_genesis (erase a) Ha) as [E1 _]; [cbn; lia|]. destruct (node_genesis (erase bh) (or_introl Hb)) as [E2 _]; [cbn; lia|].
      cbn in E1, E2. congruence. }
    destruct (parent_of _ (node_placed _ Ha)) as (p & Hp & _); [cbn; lia|]. destruct (load_parent _ _ Hp) as (p' & Hl & Ep).
    destruct (parent_of (erase bh) (tr_placed _ tree _ _ Hb)) as (q & Hq & _); [cbn; lia|]. destruct (load_parent _ _ Hq) as (q' & Hl2 & Eq).
    rewrite Hl. cbn [mbind option_bind]. rewrite Hl2. cbn [mbind option_bind].
    assert (si_height a = si_height p' + 1) as Hs by (destruct Hp as [_ Hp]; rewrite <- Ep in Hp; exact Hp).
    assert (si_height bh = si_height q' + 1) as Hs2 by (destruct Hq as [_ Hq]; rewrite <- Eq in Hq; exact Hq).
    destruct (IH (path ++ [si_hash a]) p' q' ltac:(lia)) as (l & l2 & c & Hc & R1 & R2 & R3 & R4).
    + rewrite Ep. by apply (node_parent (erase a)).
    + destruct Hq as [Hq _]. destruct (header_hash _ _ _ _ Hq) as (E & _). rewrite <- Eq in E. cbn in E. by rewrite E, Eq.
    + lia.
    + exists (erase a :: l), (erase bh :: l2), c. rewrite Hc, <- app_assoc. split_and!; try done.
      * apply (run_cons _ p); [done|by rewrite <- Ep].
      * apply (run_cons _ q); [done|by rewrite <- Eq].
      * by apply Forall_cons.
Qed.

Lemma activate_ok l : Forall node l -> activate get n newh (si_hash <$> l) = Some ((fun x => (akey n (si_height x), si_hash x)) <$> l).
Proof using new_fresh.
  induction 1 as [|x l Hx _ IH]; [done|]. rewrite !fmap_cons. cbn [activate]. destruct Hx as [Hx| ->].
  - assert (si_hash x <> si_hash newh) by congruence. rewrite decide_False by done. destruct (header_load _ _ _ _ Hx) as (x' & Hl & <-).
    cbn [erase set_active si_hash] in *. rewrite Hl. cbn [mbind option_bind]. by rewrite IH.
  - rewrite decide_True by done. cbn [mbind option_bind]. by rewrite IH.
Qed.
End tree.
End view.
End chain.
