(* ===== verification/SpvBest.v ===== *)
(** * Bitcoin headers: switching to the best chain

    [stage_best_chain] finds the fork of the new header's branch with the old
    one, and its puts make the active heights the ancestors of the new header. *)

From stdpp Require Import gmap sorting.
From S2P Require Import Prelude Format Mvcc MvccSerial MvccLedger MvccExec MvccBook Spv SpvTarget SpvState SpvChain.

Section best.
Context {BIGNUM : Type} `{!BnOps BIGNUM} `{!BnLaws BIGNUM}.
Variable sha256 : bytes -> bytes.
Variables (n : bytes) (get : bytes -> option bytes) (limit : Z).
Hypothesis net : is_net n.
Hypothesis tree : tree_ok sha256 n get limit.
Hypothesis limit_bound : limit < 2 ^ 64.
Variables (b : bytes) (ib : QrxBtcSpvHeaderInfo).
Hypothesis best : best_ok n get b ib.

Variable newh : QrxBtcSpvHeaderInfo.
Hypothesis new_storable : storable newh.
Hypothesis new_placed : placed sha256 n get (erase newh).
Hypothesis new_fresh : header n get (si_hash newh) = None.
Hypothesis new_height : 0 < si_height newh <= limit.

Abbreviation node := (node n get newh).
Abbreviation run := (run n get).

Definition active_put (x : QrxBtcSpvHeaderInfo) : bytes * bytes := (akey n (si_height x), si_hash x).
(** The puts of a switch to the branch [l] of [newh]. *)
Definition chain_puts (l : list QrxBtcSpvHeaderInfo) : puts :=
  (active_put <$> reverse l) ++ ((fun h => (akey n h, cs "-")) <$> seqZ (si_height newh + 1) (si_height ib - si_height newh)) ++ best_puts n newh.

Lemma old_best : (h ← db_get get (nkey n (cs "best_hash")) 65; load_header_hash get n h) =
  load_header_hash get n b.
Proof using best. pose proof (be_hash _ _ _ _ best) as H. unfold best_hash in H. by rewrite H. Qed.

Lemma stage_best_spec wn wb : work_of (erase newh) = Some wn -> work_of ib = Some wb ->
  if decide (wn <= wb) then stage_best_chain get n newh = Some (0, [])
  else exists l k c, stage_best_chain get n newh = Some (1, chain_puts l) /\ run (erase newh) l c /\ run ib k c /\ Forall node l.
Proof using tree best new_placed new_fresh new_height.
  intros Hn Hb. unfold stage_best_chain. rewrite old_best. destruct (header_load _ _ _ _ (be_header _ _ _ _ best)) as (ob & Hl & Eo). rewrite Hl.
  unfold work_of in Hn, Hb. rewrite <- Eo in Hb. cbn [erase set_active si_chainwork_hex] in Hn, Hb.
  destruct (BN_hex2bn (si_chainwork_hex newh)) as [nw|]; [|done]. destruct (BN_hex2bn (si_chainwork_hex ob)) as [ow|]; [|done].
  cbn [fmap option_fmap option_map mbind option_bind] in *. injection Hn as Hn. injection Hb as Hb.
  rewrite bn_cmp, Hn, Hb. case_decide as Hw.
  { rewrite bool_decide_eq_false_2 by (pose proof (Z.sgn_spec (wn - wb)); lia). done. }
  rewrite bool_decide_eq_true_2 by (pose proof (Z.sgn_spec (wn - wb)); lia). cbn [negb].
  assert (0 <= si_height ob /\ si_hash ob = b) as [Ho Hob].
  { pose proof (tr_placed _ _ _ _ tree _ _ (be_header _ _ _ _ best)) as [H _]. destruct (header_hash _ _ _ _ (be_header _ _ _ _ best)) as [E _].
    rewrite <- Eo in H, E. done. }
  destruct (climb_new_ok sha256 n get limit tree newh new_placed (height_fuel newh) ob [] newh) as (l1 & a & H1 & R1 & N1 & F1 & L1 & E1);
    [unfold height_fuel; lia|by right|done|].
  rewrite H1. cbn [mbind option_bind app]. assert (0 <= si_height a) as Ha by (by destruct (node_placed sha256 n get limit tree newh new_placed _ N1)).
  assert (header n get (si_hash ob) = Some (erase ob)) as Hho by (rewrite Hob, Eo; apply (be_header _ _ _ _ best)).
  destruct (climb_old_ok sha256 n get limit tree (height_fuel ob) (si_height a) ob) as (bh & k1 & H2 & R2 & N2 & E2); [unfold height_fuel; lia|done|lia|].
  rewrite H2. cbn [mbind option_bind].
  destruct (climb_both_ok sha256 n get limit tree newh new_placed new_fresh ltac:(lia) (height_fuel a) (si_hash <$> l1) a bh) as (l2 & k2 & c & H3 & R3 & R4 & F2 & _);
    [unfold height_fuel; lia|done|done|done|].
  rewrite H3. cbn [mbind option_bind]. rewrite <- fmap_app, <- fmap_reverse.
  assert (Forall node (l1 ++ l2)) as Hf by (by apply Forall_app).
  rewrite (activate_ok n get newh new_fresh (reverse (l1 ++ l2))) by (by apply Forall_reverse). cbn [mbind option_bind].
  exists (l1 ++ l2), (k1 ++ k2), c. split.
  - unfold chain_puts. rewrite <- Eo. done.
  - split; [by apply (run_app _ _ _ _ (erase a))|]. split; [rewrite <- Eo; by apply (run_app _ _ _ _ (erase bh))|]. done.
Qed.

(** ** The state after the puts *)

Variable l : list QrxBtcSpvHeaderInfo.
Variables (k : list QrxBtcSpvHeaderInfo) (c : QrxBtcSpvHeaderInfo).
Hypothesis new_run : run (erase newh) l c.
Hypothesis old_run : run ib k c.
Hypothesis nodes : Forall node l.

Lemma run_unique a m d x y : run a m d -> x ∈ m -> y ∈ m -> si_height x = si_height y -> x = y.
Proof using.
  induction 1 as [a|a p m d [_ Hp] Hr IH]; [by intros ?%not_elem_of_nil|]. destruct (run_height _ _ _ _ _ Hr) as [_ Hh].
  intros [-> |Hx]%elem_of_cons [-> |Hy]%elem_of_cons Heq; [done|pose proof (Hh y Hy); lia|pose proof (Hh x Hx); lia|by apply IH].
Qed.

Lemma node_u64 x : node x -> in_u64 (si_height x).
Proof using tree limit_bound new_placed new_height.
  intros Hx. destruct (node_placed sha256 n get limit tree newh new_placed _ Hx) as [Hz _]. destruct Hx as [Hx| ->]; [|cbn; word].
  pose proof (tr_limit _ _ _ _ tree _ _ Hx). word.
Qed.

Lemma best_u64 : in_u64 (si_height ib).
Proof using tree limit_bound best.
  destruct (tr_placed _ _ _ _ tree _ _ (be_header _ _ _ _ best)) as [Hz _]. pose proof (tr_limit _ _ _ _ tree _ _ (be_header _ _ _ _ best)). word.
Qed.

Lemma ancestor_placed i j : node i -> ancestor n get i j -> placed sha256 n get j.
Proof using tree new_placed.
  intros Hi Hj. revert Hi. induction Hj as [i|i p j Hp _ IH]; intros Hi; [by apply (node_placed sha256 n get limit tree newh)|].
  by apply IH, (node_parent n get newh i).
Qed.

(** What the puts say of an active height. *)
Lemma chain_puts_active j : in_u64 j ->
  kv_find (stage_header_fields n newh ++ chain_puts l) (akey n j) =
  match kv_find ((fun h => (akey n h, cs "-")) <$> seqZ (si_height newh + 1) (si_height ib - si_height newh)) (akey n j) with
  | Some v => Some v
  | None => kv_find (active_put <$> reverse l) (akey n j)
  end.
Proof using net new_storable.
  intros Hj. unfold chain_puts. rewrite !kv_find_app, best_puts_akey by done.
  rewrite (fields_off_index n newh (akey n j)); [|done|apply new_storable|left; by exists j].
  repeat match goal with |- context [match kv_find ?m ?x with _ => _ end] => destruct (kv_find m x) end; done.
Qed.

Lemma chain_puts_index : Forall (fun kv => index_key n kv.1) (chain_puts l).
Proof using.
  unfold chain_puts. rewrite !Forall_app. split_and!; [| |apply best_puts_index]; apply Forall_forall; intros kv (x & -> & _)%list_elem_of_fmap; left; by eexists.
Qed.

Definition after : bytes -> option bytes := over (stage_header_fields n newh ++ chain_puts l) get.

Lemma active_after j : in_u64 j -> active n after j =
  if decide (si_height newh < j <= si_height ib) then Some (cs "-")
  else match kv_find (active_put <$> reverse l) (akey n j) with Some v => Some (snprintf_s 65 v) | None => active n get j end.
Proof using net new_storable tree limit_bound best new_height.
  intros Hj. unfold active, db_get, after, over. rewrite chain_puts_active by done. pose proof best_u64 as Hib. case_decide as Hd.
  - rewrite (kv_find_mapped (akey n) (fun _ => cs "-") (seqZ _ _) j); [done| |done]. apply elem_of_seqZ. lia.
  - rewrite (kv_find_mapped_none (akey n) (fun _ => cs "-")); [by destruct (kv_find (active_put <$> reverse l) (akey n j))|].
    intros x Hx%elem_of_seqZ E. apply akey_inj in E; [lia|done| |done]. word.
Qed.

Section after.
(** A later state: the new header and index entries were put. *)
Variables (ps : puts) (get' : bytes -> option bytes).
Hypothesis ps_index : Forall (fun kv => index_key n kv.1) ps.
Hypothesis after_def : get' = over (stage_header_fields n newh ++ ps) get.

Lemma header_after h : header n get' h = if decide (h = si_hash newh) then Some (erase newh) else header n get h.
Proof using net new_storable ps_index after_def. subst get'. by apply header_over. Qed.

Lemma after_grows : grows n get get'.
Proof using net new_storable ps_index after_def new_fresh. intros h i Hi. rewrite header_after. case_decide; [congruence|done]. Qed.

Lemma parent_after i p : node i -> parent n get' i p -> parent n get i p.
Proof using net new_storable ps_index after_def new_fresh new_placed new_height tree.
  intros Hi [Hp Hh]. pose proof (node_placed sha256 n get limit tree newh new_placed _ Hi) as (_ & _ & Hpl). case_decide as Hz.
  - exfalso. rewrite header_after in Hp. case_decide; [injection Hp as <-; cbn in Hh; lia|].
    destruct (tr_placed _ _ _ _ tree _ _ Hp) as [? _]. lia.
  - destruct Hpl as (p' & w & [Hp' Hh'] & _). rewrite (after_grows _ _ Hp') in Hp. by injection Hp as <-.
Qed.

Lemma ancestor_after i j : node i -> ancestor n get' i j -> ancestor n get i j.
Proof using net new_storable ps_index after_def new_fresh new_placed new_height tree.
  intros Hi Hj. revert Hi. induction Hj as [i|i p j Hp _ IH]; intros Hi; [constructor|]. pose proof (parent_after i p Hi Hp) as Hp'.
  apply (an_up _ _ _ p); [done|]. apply IH. by apply (node_parent n get newh i).
Qed.

(** One more header in the tree. *)
Lemma placed_after i : placed sha256 n get i -> placed sha256 n get' i.
Proof using net new_storable ps_index after_def new_fresh.
  intros (H1 & H2 & H3). split; [done|]. split; [done|]. case_decide; [done|]. destruct H3 as (p & w & [Hp Hh] & (He & m & Hm & Hlt) & Hw & Hw').
  exists p, w. split; [|split; [|done]]; [split; [by apply after_grows|done]|]. split.
  - by apply (expected_bits_grows n get get' after_grows p p).
  - exists m. split; [|done]. by apply (median_grows n get get' after_grows).
Qed.

Lemma tree_after : genuine sha256 n (erase newh) -> tree_ok sha256 n get' (limit + 1).
Proof using net new_storable ps_index after_def new_fresh new_placed new_height tree.
  intros Hg. split; intros h i; rewrite header_after; case_decide; intros Hi; try (injection Hi as <-).
  - by apply placed_after.
  - by apply placed_after, (tr_placed _ _ _ _ tree _ _ Hi).
  - done.
  - apply (tr_genuine _ _ _ _ tree _ _ Hi).
  - cbn. lia.
  - pose proof (tr_limit _ _ _ _ tree _ _ Hi). lia.
Qed.

(** The best header is stored, so it is not the new one. *)
Lemma best_node : node ib.
Proof using best. left. pose proof (be_header _ _ _ _ best) as H. by destruct (header_hash _ _ _ _ H) as (-> & _). Qed.
End after.

(** A header with no more work than the best changes no index. *)
Lemma best_kept wn wb : work_of (erase newh) = Some wn -> work_of ib = Some wb -> wn <= wb ->
  best_ok n (over (stage_header_fields n newh ++ []) get) b ib.
Proof using net new_storable new_fresh new_placed new_height tree best.
  intros Hn Hb Hle. pose proof (Forall_nil_2 (fun kv : bytes * bytes => index_key n kv.1)) as Hnil.
  assert (forall k0, index_key n k0 -> over (stage_header_fields n newh ++ []) get k0 = get k0) as Hix
    by (intros k0 Hk; unfold over; by rewrite app_nil_r, (fields_off_index n newh) by (done || apply new_storable)).
  split.
  - unfold best_hash, db_get. rewrite Hix by (right; exists (cs "best_hash"); split; [by left|done]). apply (be_hash _ _ _ _ best).
  - apply (after_grows _ _ Hnil eq_refl), (be_header _ _ _ _ best).
  - intros h i w wb' Hi Hw Hw'. rewrite (header_after _ _ Hnil eq_refl) in Hi. case_decide.
    + injection Hi as <-. assert (w = wn) by congruence. assert (wb' = wb) by congruence. lia.
    + by apply (be_most _ _ _ _ best h i).
  - intros j Hj%(ancestor_after _ _ Hnil eq_refl _ _ best_node). unfold active, db_get. rewrite Hix by (left; by eexists).
    by apply (be_active _ _ _ _ best).
  - intros j Hj Hlt. unfold active, db_get. rewrite Hix by (left; by eexists). by apply (be_above _ _ _ _ best).
Qed.

(** The switch leaves a state whose best header is the new one. *)
Lemma best_switched wn : work_of (erase newh) = Some wn -> (forall w, work_of ib = Some w -> w < wn) -> best_ok n after (si_hash newh) (erase newh).
Proof using All.
  intros Hwn Hw. pose proof (header_after _ _ chain_puts_index eq_refl) as Hh.
  destruct (run_height _ _ _ _ _ new_run) as [_ Hl]. cbn [erase set_active si_height] in Hl.
  assert (forall x, x ∈ l -> in_u64 (si_height x) /\ length (si_hash x) = 64%nat) as Hlu.
  { intros x Hx. rewrite Forall_forall in nodes. pose proof (nodes x Hx) as Hn. split; [by apply node_u64|].
    destruct Hn as [Hn| ->]; [by destruct (header_hash _ _ _ _ Hn) as (_ & ? & _)|apply new_storable]. }
  split.
  - unfold best_hash, db_get, after, over. unfold chain_puts. rewrite !kv_find_app, best_puts_hash by done. cbn [fmap option_fmap option_map]. f_equal.
    apply take_ge. rewrite (so_hash _ new_storable). lia.
  - unfold after. rewrite Hh. by rewrite decide_True.
  - intros h i w wb Hi Hiw Hbw. unfold after in Hi. rewrite Hh in Hi. assert (wb = wn) as -> by congruence. case_decide as E; [injection Hi as <-; assert (w = wn) by congruence; lia|].
    destruct (tr_placed _ _ _ _ tree _ _ (be_header _ _ _ _ best)) as (_ & (wib & Ewb & _) & _).
    pose proof (be_most _ _ _ _ best _ _ _ _ Hi Hiw Ewb). pose proof (Hw _ Ewb). lia.
  - intros j Hj%(ancestor_after _ _ chain_puts_index eq_refl); [|by right].
    pose proof (ancestor_height _ _ _ _ Hj) as Hle. cbn [erase set_active si_height] in Hle.
    destruct (run_split _ _ _ _ _ _ new_run Hj) as [Hin|Hc].
    + destruct (Hlu j Hin) as [Hj64 Hjl]. rewrite active_after by done. rewrite decide_False by lia.
      rewrite (kv_find_mapped (fun x => akey n (si_height x)) si_hash _ j); [f_equal; apply take_ge; lia|by apply elem_of_reverse|].
      intros y Hy%(proj1 (elem_of_reverse _ _)) E. apply akey_inj in E; [|done|apply (Hlu y Hy)|done]. f_equal. by apply (run_unique _ _ _ _ _ new_run).
    + assert (ancestor n get ib j) as Hij by (apply (ancestor_trans _ _ _ c); [by apply (run_ancestor _ _ _ k)|done]).
      pose proof (ancestor_height _ _ _ _ Hc) as Hlc. pose proof (ancestor_height _ _ _ _ Hij) as Hli.
      assert (in_u64 (si_height j)) as Hj64.
      { pose proof best_u64. assert (0 <= si_height j); [|word]. by destruct (ancestor_placed _ _ best_node Hij). }
      rewrite active_after by done. rewrite decide_False by lia. rewrite (kv_find_mapped_none (fun x => akey n (si_height x)) si_hash).
      * by apply (be_active _ _ _ _ best).
      * intros x Hx%(proj1 (elem_of_reverse _ _)) E. apply akey_inj in E; [|done|apply (Hlu x Hx)|done]. specialize (Hl x Hx). lia.
  - intros j Hj Ha. cbn [erase set_active si_height] in Ha. rewrite active_after by done. case_decide as Hd; [by right|].
    rewrite (kv_find_mapped_none (fun x => akey n (si_height x)) si_hash).
    + apply (be_above _ _ _ _ best); [done|lia].
    + intros x Hx%(proj1 (elem_of_reverse _ _)) E. apply akey_inj in E; [|done|apply (Hlu x Hx)|done]. specialize (Hl x Hx). lia.
Qed.
End best.
