(* ===== verification/SpvNode.v ===== *)
(** * Bitcoin headers: accepting headers

    Every header that [qrx_btc_spv_stage_header] accepts keeps [spv_ok].  So,
    from an empty database, after any sequence of starts and headers, valid or
    not: every accepted header is genuine and in the tree, and the active chain
    is the one of most work. *)

From stdpp Require Import gmap sorting.
From S2P Require Import Prelude Format Mvcc MvccSerial MvccLedger MvccExec MvccBook Spv SpvTarget SpvState SpvChain SpvBest.

(** ** Digits in either case *)

Lemma hexval_lower c : hexval (c_tolower c) = hexval c.
Proof. destruct c; vm_compute; reflexivity. Qed.
Lemma hex_pairs_lower s : hex_pairs (c_tolower <$> s) = hex_pairs s.
Proof.
  remember (length s) as k eqn:Hk. assert (length s <= k)%nat as Hle by lia. clear Hk. revert s Hle.
  induction k as [|k IH]; intros [|a [|b s]] Hle; try done; cbn [length] in Hle; [lia|]. rewrite !fmap_cons. cbn [hex_pairs].
  rewrite !hexval_lower, IH by lia. done.
Qed.
Lemma hex_decode_caseeq a b cap : strcaseeq a b = true -> hex_decode a cap = hex_decode b cap.
Proof.
  intros H%bool_decide_eq_true_1. unfold hex_decode, blen. assert (length a = length b) as -> by (apply (f_equal length) in H; by rewrite !length_fmap in H).
  case_decide; [done|]. by rewrite <- (hex_pairs_lower a), H, hex_pairs_lower.
Qed.
Lemma hex_pairs_length s r : hex_pairs s = Some r -> length s = (2 * length r)%nat.
Proof.
  remember (length s) as k eqn:Hk. assert (length s <= k)%nat as Hle by lia. rewrite Hk. clear Hk. revert s r Hle.
  induction k as [|k IH]; intros [|a [|b s]] r Hle; try done; cbn [length] in Hle; try lia; cbn [hex_pairs].
  - by intros [= <-].
  - by intros [= <-].
  - intros H. destruct (hexval a), (hexval b), (hex_pairs s) as [q|] eqn:E; try done. cbn [mbind option_bind] in H. injection H as <-.
    cbn [length]. rewrite (IH s q) by (done || lia). lia.
Qed.
Lemma hex_decode_length s cap r : hex_decode s cap = Some r -> length s = (2 * length r)%nat.
Proof. unfold hex_decode. case_decide; [done|]. apply hex_pairs_length. Qed.

Lemma rd_le_bound p : 0 <= rd_le p < 256 ^ Z.of_nat (length p).
Proof.
  unfold rd_le. induction p as [|c p IH]; [cbn; lia|]. cbn [foldr length]. rewrite Nat2Z.inj_succ, Z.pow_succ_r by lia.
  pose proof (byte.unsigned_range c). lia.
Qed.
Lemma rd32le_bound raw off : in_u32 (rd32le raw off).
Proof.
  unfold rd32le. pose proof (rd_le_bound (take 4 (drop off raw))) as H. assert (length (take 4 (drop off raw)) <= 4)%nat as Hl by (rewrite length_take; lia).
  assert (256 ^ Z.of_nat (length (take 4 (drop off raw))) <= 256 ^ 4) by (apply pow_le; lia). word.
Qed.

Section accept.
Context {BIGNUM : Type} `{!BnOps BIGNUM} `{!BnLaws BIGNUM} `{!BnHex BIGNUM}.
Variable sha256 : bytes -> bytes.
Hypothesis sha256_length : forall x, length (sha256 x) = 32%nat.

Lemma hash_display_length raw : length (field_hash_display raw) = (2 * length raw)%nat.
Proof using. unfold field_hash_display. by rewrite hex_length, length_reverse. Qed.

Lemma powlimit_range n : 0 <= powlimit_bits n.
Proof using. unfold powlimit_bits. case_decide; lia. Qed.

Lemma pow_valid_spec raw bits n : 0 <= bits -> pow_valid sha256 raw bits n = true ->
  compact_fits bits /\ be_val (reverse (sha256d sha256 raw)) <= compact_val bits <= compact_val (powlimit_bits n).
Proof using BnLaws0.
  intros Hb. unfold pow_valid. pose proof (compact_to_bn_spec bits Hb) as H1. destruct (compact_to_bn bits) as [t|]; [|done].
  pose proof (compact_to_bn_spec (powlimit_bits n) (powlimit_range n)) as H2. destruct (compact_to_bn (powlimit_bits n)) as [l|]; [|done].
  destruct H1 as [Hf Ht], H2 as [_ Hl]. rewrite !bn_cmp, bn_bin2bn, Ht, Hl, <- (Ht). fold (be_val (reverse (sha256d sha256 raw))).
  rewrite Ht. intros [P1%negb_true_iff%bool_decide_eq_false_1 P2%negb_true_iff%bool_decide_eq_false_1]%andb_true_iff.
  split; [done|]. pose proof (Z.sgn_spec (compact_val bits - compact_val (powlimit_bits n))). pose proof (Z.sgn_spec (be_val (reverse (sha256d sha256 raw)) - compact_val bits)). lia.
Qed.

Lemma work_hex x cw : 0 <= bn_val x -> bn_to_hex x 96 = Some cw -> bn_val <$> BN_hex2bn cw = Some (bn_val x) /\ (length cw <= 95)%nat.
Proof using BnHex0.
  intros Hx. unfold bn_to_hex. cbv zeta. case_decide as Hl; [done|]. intros [= <-]. destruct (bn_hex2bn x Hx) as (y & -> & Hy). split; [cbn; by f_equal|].
  rewrite length_fmap. unfold blen in Hl. lia.
Qed.

(** ** The bytes of a header *)

Section header.
Variables (n header_hex raw : bytes).
Hypothesis header_length : length header_hex = 160%nat.
Hypothesis raw_bytes : hex_decode header_hex 80 = Some raw.
Abbreviation parsed := (parse_header sha256 header_hex raw (field_hash_display (take 32 (drop 4 raw)))).

Lemma raw_length : length raw = 80%nat.
Proof using header_length raw_bytes. pose proof (hex_decode_length _ _ _ raw_bytes). lia. Qed.
Lemma parsed_hex : si_header_hex parsed = header_hex.
Proof using header_length. cbn [parse_header si_header_hex]. apply take_ge. lia. Qed.

Lemma parsed_storable height cw : in_u64 height -> (length cw <= 95)%nat -> storable (set_place parsed height cw).
Proof using header_length raw_bytes sha256_length.
  intros Hh Hc. pose proof raw_length as Hr. split; cbn [set_place parse_header si_hash si_prev_hash si_merkle_root si_header_hex si_chainwork_hex si_height si_version si_timestamp si_bits si_nonce]; try done.
  - unfold header_hash_from_raw, sha256d. by rewrite hash_display_length, sha256_length.
  - rewrite hash_display_length, length_take, length_drop. lia.
  - rewrite hash_display_length, length_take, length_drop. lia.
  - unfold snprintf_s. rewrite length_take. lia.
  - split_and!; apply rd32le_bound.
Qed.

Lemma parsed_genuine height cw : pow_valid sha256 raw (rd32le raw 72) n = true -> genuine sha256 n (erase (set_place parsed height cw)).
Proof using header_length raw_bytes BnLaws0.
  intros Hp. pose proof (rd32le_bound raw 72) as Hb. destruct (pow_valid_spec raw (rd32le raw 72) n ltac:(word) Hp) as [Hf Hv].
  exists raw. cbn [erase set_active set_place si_header_hex parse_header si_bits si_height si_chainwork_hex]. split; [by rewrite <- raw_bytes; f_equal; apply parsed_hex|].
  split; [apply raw_length|]. split; [|done]. unfold erase, set_active, set_place, parse_header.
  cbn [si_hash si_prev_hash si_merkle_root si_header_hex si_chainwork_hex si_height si_version si_timestamp si_bits si_nonce si_active].
  f_equal. unfold snprintf_s. by rewrite !(take_ge header_hex) by lia.
Qed.
End header.

(** ** The first header *)

Lemma place_genesis_spec n raw h newh : 0 <= si_bits h -> place_genesis sha256 n raw h = Some newh ->
  exists cw, newh = set_place h 0 cw /\ pow_valid sha256 raw (si_bits h) n = true /\ (length cw <= 95)%nat /\
    bn_val <$> BN_hex2bn cw = Some (block_work (si_bits h)) /\ 0 < block_work (si_bits h).
Proof using BnHex0.
  intros Hb. unfold place_genesis. destruct (pow_valid sha256 raw (si_bits h) n); [|done].
  destruct (work_from_bits (si_bits h)) as [w|] eqn:Ew; cbn [mbind option_bind]; [|done]. destruct (work_spec _ _ Hb Ew) as (_ & Hw & Hp & _).
  destruct (bn_to_hex w 96) as [cw|] eqn:Ec; cbn [mbind option_bind]; [|done]. intros [= <-]. exists cw.
  destruct (work_hex w cw ltac:(lia) Ec) as [E L]. unfold block_work. rewrite <- Hw. done.
Qed.

(** The index entries of the first header. *)
Definition genesis_index (n : bytes) (h : QrxBtcSpvHeaderInfo) : puts :=
  [(akey n 0, si_hash h)] ++ [(nkey n (cs "best_hash"), si_hash h); put_u (nkey n (cs "best_height")) 0; (nkey n (cs "best_chainwork"), si_chainwork_hex h)] ++
  [(nkey n (cs "initialized"), cs "1")].
Lemma genesis_index_ok n h : Forall (fun kv => index_key n kv.1) (genesis_index n h).
Proof using.
  unfold genesis_index, index_key, state_field. cbn [app]. apply Forall_cons_2; [left; by exists 0|].
  repeat apply Forall_cons_2; try apply Forall_nil_2; right; eexists; (split; [|reflexivity]); tauto.
Qed.

Lemma genesis_ok n get h cw : is_net n -> spv_empty n get -> storable (set_place h 0 cw) -> genuine sha256 n (erase (set_place h 0 cw)) ->
  si_hash h = genesis_hash sha256 n -> bn_val <$> BN_hex2bn cw = Some (block_work (si_bits h)) -> 0 < block_work (si_bits h) ->
  let get' := over (genesis_puts n (set_place h 0 cw)) get in
  spv_ok sha256 n get' 1 /\ header n get' (si_hash h) = Some (erase (set_place h 0 cw)) /\ best_hash n get' = Some (si_hash h).
Proof using.
  intros Hn (E1 & E2 & E3) Hs Hg Hh Hw Hp get'. set (i := set_place h 0 cw) in *.
  assert (forall x, header n get' x = if decide (x = si_hash i) then Some (erase i) else header n get x) as Hhd
    by (intros x; apply (header_over n get i (genesis_index n i)); [done|done|apply genesis_index_ok]).
  assert (forall k, index_key n k -> get' k = match kv_find (genesis_index n i) k with Some v => Some v | None => get k end) as Hix.
  { intros k Hk. unfold get', over. change (genesis_puts n i) with (stage_header_fields n i ++ genesis_index n i).
    rewrite kv_find_app, (fields_off_index n i k) by (done || apply Hs). by destruct (kv_find _ k). }
  assert (forall k, in_u64 k -> active n get' k = if decide (k = 0) then Some (si_hash i) else None) as Hact.
  { intros k Hk. unfold active, db_get. rewrite Hix by (left; by eexists). unfold genesis_index. rewrite kv_find_app.
    assert (kv_find ([(nkey n (cs "best_hash"), si_hash i); put_u (nkey n (cs "best_height")) 0; (nkey n (cs "best_chainwork"), si_chainwork_hex i)] ++
      [(nkey n (cs "initialized"), cs "1")]) (akey n k) = None) as ->.
    { apply (kv_find_other _ _ (fun key => key = akey n k)); [done|]. unfold put_u. cbn [app]. repeat apply Forall_cons_2; try apply Forall_nil_2;
        cbn [fst]; intros E; symmetry in E; revert E; apply akey_not_nkey; try done; unfold state_field; tauto. }
    cbn [kv_find]. case_decide as Ek.
    - apply akey_inj in Ek; [|done|word|done]. rewrite decide_True by done. cbn [fmap option_fmap option_map]. f_equal. apply take_ge. rewrite (so_hash _ Hs). lia.
    - rewrite decide_False by (intros ->; done). specialize (E3 k Hk). exact E3. }
  assert (best_hash n get' = Some (si_hash i)) as Hbh.
  { unfold best_hash, db_get. rewrite Hix by (right; exists (cs "best_hash"); split; [by left|done]).
    assert (kv_find (genesis_index n i) (nkey n (cs "best_hash")) = Some (si_hash i)) as ->.
    { unfold genesis_index, put_u. cbn [app kv_find]. rewrite decide_False, decide_False, decide_False, decide_True; [done|done| | |];
        rewrite !nkey_eq by (done || apply state_field_short; unfold state_field; tauto); intros H%spv_key_inj; by injection H. }
    cbn [fmap option_fmap option_map]. f_equal. apply take_ge. rewrite (so_hash _ Hs). lia. }
  split; [|split; [rewrite Hhd; by rewrite decide_True|done]]. split.
  - split; intros x j; rewrite Hhd, E2; case_decide; try done; intros [= <-].
    + split; [done|]. split; [by exists (block_work (si_bits h))|]. rewrite decide_True by done. done.
    + done.
    + cbn. lia.
  - exists (si_hash i), (erase i). split.
    + done.
    + rewrite Hhd. by rewrite decide_True.
    + intros x j w wb Hx Hjw Hbw. rewrite Hhd, E2 in Hx. case_decide; [|done]. injection Hx as <-. assert (w = wb) by congruence. lia.
    + intros j Hj. inversion Hj as [|? p ? [Hpar Hph] _]; subst.
      * change (active n get' 0 = Some (si_hash i)). by rewrite Hact by word.
      * exfalso. rewrite Hhd, E2 in Hpar. case_decide; [|done]. injection Hpar as <-. cbn in Hph. lia.
    + intros k Hk Hlt. left. rewrite Hact by done. rewrite decide_False; [done|]. cbn in Hlt. lia.
Qed.

(** ** The next headers *)

Section next.
Variables (n : bytes) (get : bytes -> option bytes) (limit : Z).
Hypothesis net : is_net n.
Hypothesis tree : tree_ok sha256 n get limit.
Hypothesis limit_bound : limit < 2 ^ 64.

(** The median of the times above a stored header exists. *)
Lemma median_total h i : load_header_hash get n h = Some i -> exists m, median_time_past get n h = Some m.
Proof using tree.
  intros Hl. assert (forall k h i, load_header_hash get n h = Some i -> exists ts, times_from get k n i = Some ts /\ (k <> 0%nat -> ts <> [])) as Ht.
  { induction k as [|k IH]; intros g j Hj; cbn [times_from]; [by exists []|]. case_decide as Hz; [exists [si_timestamp j]; done|].
    assert (header n get g = Some (erase j)) as Hh by (unfold header; by rewrite Hj).
    destruct (parent_of sha256 n get limit tree (erase j)) as (p & [Hp _] & _); [apply (tr_placed _ _ _ _ tree _ _ Hh)|done|].
    destruct (header_load _ _ _ _ Hp) as (p' & Hp' & _). cbn [erase set_active si_prev_hash] in Hp'. rewrite Hp'. cbn [mbind option_bind].
    destruct (IH _ _ Hp') as (ts & -> & _). cbn [mbind option_bind]. by exists (si_timestamp j :: ts). }
  destruct (Ht 11%nat h i Hl) as (ts & E & Hne). apply (median_some n get h i ts); [done|done|by apply Hne].
Qed.

Lemma place_header_spec raw h newh : 0 <= si_bits h -> place_header sha256 get n raw h = Some newh ->
  exists height cw, newh = set_place h height cw /\ 0 < height <= limit /\ (length cw <= 95)%nat /\ pow_valid sha256 raw (si_bits h) n = true /\
    placed sha256 n get (erase newh).
Proof using tree limit_bound BnHex0.
  intros Hb. unfold place_header. destruct (load_header_hash get n (si_prev_hash h)) as [prev|] eqn:El; cbn [mbind option_bind]; [|done].
  assert (header n get (si_prev_hash h) = Some (erase prev)) as Hh by (unfold header; by rewrite El).
  destruct (load_hash _ _ _ _ El) as [Eh _].
  pose proof (tr_placed _ _ _ _ tree _ _ Hh) as (Hz & (w & Hw & Hw0) & _). pose proof (tr_limit _ _ _ _ tree _ _ Hh) as Hlim.
  cbn [erase set_active si_height] in Hz, Hlim. assert (si_height prev +64 1 = si_height prev + 1) as -> by (apply u64_small; word).
  destruct (median_total _ _ El) as [m Hm]. rewrite Eh, Hm. case_bool_decide as Ht; [done|].
  destruct (expected_bits get n prev (si_height prev + 1) (si_timestamp h)) as [eb|] eqn:Ee; cbn [mbind option_bind]; [|done].
  case_decide as Hbe; [done|]. destruct (pow_valid sha256 raw (si_bits h) n) eqn:Ep; [|done].
  destruct (work_from_bits (si_bits h)) as [pw|] eqn:Ew; cbn [mbind option_bind]; [|done]. destruct (work_spec _ _ Hb Ew) as (_ & Hpw & Hp0 & _).
  fold (block_work (si_bits h)) in Hpw. unfold work_of in Hw. cbn [erase set_active si_chainwork_hex] in Hw. destruct (BN_hex2bn (si_chainwork_hex prev)) as [pp|] eqn:Epp; [|done].
  cbn [fmap option_fmap option_map mbind option_bind] in *. injection Hw as Hw.
  destruct (bn_to_hex (BN_add pp pw) 96) as [cw|] eqn:Ec; cbn [mbind option_bind]; [|done]. intros [= <-].
  assert (bn_val (BN_add pp pw) = w + block_work (si_bits h)) as Hs by (rewrite bn_add; lia).
  destruct (work_hex (BN_add pp pw) cw ltac:(rewrite bn_add; lia) Ec) as [E L]. rewrite Hs in E.
  exists (si_height prev + 1), cw. split; [done|]. split; [lia|]. split; [done|]. split; [done|]. split; [|split]; cbn [erase set_active set_place si_height].
  - lia.
  - exists (w + block_work (si_bits h)). split; [exact E|]. lia.
  - rewrite decide_False by lia. exists (erase prev), w. split; [|split; [|split]].
    + split; [exact Hh|done].
    + split; [|exists m; cbn [erase set_active si_hash si_timestamp set_place]; split; [by rewrite Eh|lia]].
      apply (expected_bits_grows n get get (fun _ _ H => H) prev); [done|]. cbn [erase set_active set_place si_height si_timestamp si_bits].
      rewrite Ee. f_equal. lia.
    + unfold work_of. cbn [erase set_active si_chainwork_hex]. rewrite Epp. cbn. by f_equal.
    + exact E.
Qed.

(** The best chain after a header that was placed. *)
Lemma stage_best_keeps b ib newh best ps : best_ok n get b ib -> storable newh -> placed sha256 n get (erase newh) -> header n get (si_hash newh) = None ->
  0 < si_height newh <= limit -> genuine sha256 n (erase newh) -> stage_best_chain get n newh = Some (best, ps) ->
  let get' := over (stage_header_fields n newh ++ ps) get in
  spv_ok sha256 n get' (limit + 1) /\ header n get' (si_hash newh) = Some (erase newh) /\
  best_hash n get' = (if decide (best = 1) then Some (si_hash newh) else best_hash n get).
Proof using net tree limit_bound BnLaws0.
  intros Hbest Hs Hp Hf Hh Hg Hst get'. destruct (tr_placed _ _ _ _ tree _ _ (be_header _ _ _ _ Hbest)) as (_ & (wb & Hwb & _) & _).
  destruct Hp as (Hp1 & (wn & Hwn & Hwn0) & Hp2). assert (placed sha256 n get (erase newh)) as Hp by (split; [done|split; [by exists wn|done]]).
  pose proof (stage_best_spec sha256 n get limit tree b ib Hbest newh Hp Hf Hh wn wb Hwn Hwb) as Hspec. case_decide as Hle.
  - rewrite Hspec in Hst. injection Hst as <- <-. pose proof (Forall_nil_2 (fun kv : bytes * bytes => index_key n kv.1)) as Hnil.
    assert (best_ok n get' b ib) as Hb' by (apply (best_kept sha256 n get limit net tree b ib Hbest newh Hs Hp Hf Hh wn wb); done).
    split; [split; [by apply (tree_after sha256 n get limit net tree newh Hs Hp Hf Hh [] get' Hnil eq_refl)|by exists b, ib]|]. split.
    + rewrite (header_after n get net newh Hs [] get' Hnil eq_refl). by rewrite decide_True.
    + rewrite (be_hash _ _ _ _ Hb'). by rewrite (be_hash _ _ _ _ Hbest).
  - destruct Hspec as (l & k & c & E & R1 & R2 & F). rewrite E in Hst. injection Hst as <- <-.
    assert (best_ok n get' (si_hash newh) (erase newh)) as Hb'
      by (apply (best_switched sha256 n get limit net tree limit_bound b ib Hbest newh Hs Hp Hf Hh l k c R1 R2 F wn Hwn); intros w Hw; assert (w = wb) by congruence; lia).
    split; [split|split].
    + by apply (tree_after sha256 n get limit net tree newh Hs Hp Hf Hh _ get' (chain_puts_index n ib newh l) eq_refl).
    + by exists (si_hash newh), (erase newh).
    + apply (be_header _ _ _ _ Hb').
    + apply (be_hash _ _ _ _ Hb').
Qed.
End next.
End accept.

Section node.
Context {BIGNUM : Type} `{!BnOps BIGNUM} `{!BnLaws BIGNUM} `{!BnHex BIGNUM}.
Variable sha256 : bytes -> bytes.
Hypothesis sha256_length : forall x, length (sha256 x) = 32%nat.

Lemma tree_limit n get a b : a <= b -> tree_ok sha256 n get a -> tree_ok sha256 n get b.
Proof using. intros Hab [T1 T2 T3]. split; [done|done|]. intros h i Hi. pose proof (T3 h i Hi). lia. Qed.
Lemma spv_limit n get a b : a <= b -> spv_ok sha256 n get a -> spv_ok sha256 n get b.
Proof using. intros Hab [T B]. split; [by apply (tree_limit n get a)|done]. Qed.

(** The first header of every network, as [parse_header] reads it. *)
Lemma genesis_bytes n gh : is_net n -> qrx_btc_spv_genesis_header_hex n = Some gh ->
  length gh = 160%nat /\ hex_decode gh 80 = Some (genesis_raw n) /\ length (genesis_raw n) = 80%nat /\
  field_hash_display (take 32 (drop 4 (genesis_raw n))) = replicate 64 x30.
Proof using.
  intros Hn Hg. unfold genesis_raw. rewrite Hg. cbn [mbind option_bind]. destruct Hn as [-> |[-> | ->]]; vm_compute in Hg; injection Hg as <-;
    (split; [vm_compute; reflexivity|split; [vm_compute; reflexivity|split; vm_compute; reflexivity]]).
Qed.

Lemma genesis_accepted n get header_hex raw newh : is_net n -> spv_empty n get -> length header_hex = 160%nat -> hex_decode header_hex 80 = Some raw ->
  raw = genesis_raw n -> place_genesis sha256 n raw (parse_header sha256 header_hex raw (field_hash_display (take 32 (drop 4 raw)))) = Some newh ->
  let get' := over (genesis_puts n newh) get in spv_ok sha256 n get' 1 /\ header n get' (si_hash newh) = Some (erase newh) /\
  best_hash n get' = Some (si_hash newh).
Proof using sha256_length BnLaws0 BnHex0.
  intros Hn He Hl Hr Hg Hp get'. pose proof (rd32le_bound raw 72) as Hb.
  destruct (place_genesis_spec sha256 n raw (parse_header sha256 header_hex raw (field_hash_display (take 32 (drop 4 raw)))) newh (proj1 Hb) Hp) as (cw & -> & Hpow & Hc & Hw & Hw0). cbn [parse_header si_bits] in Hpow, Hw, Hw0.
  pose proof (parsed_storable sha256 sha256_length header_hex raw Hl Hr 0 cw ltac:(word) Hc) as Hs.
  pose proof (parsed_genuine sha256 n header_hex raw Hl Hr 0 cw Hpow) as Hgen.
  apply (genesis_ok sha256 n get _ cw Hn He Hs Hgen); [by rewrite Hg|done|done].
Qed.

(** What every accepted header leaves. *)
Lemma stage_header_keeps network n get limit header_hex newh best ps : normnet network = Some n -> 0 < limit < 2 ^ 64 ->
  spv_empty n get \/ spv_ok sha256 n get limit -> qrx_btc_spv_stage_header sha256 get network header_hex = Some (newh, best, ps) ->
  let get' := over ps get in
  spv_ok sha256 n get' (limit + 1) /\ header n get' (si_hash newh) = Some (erase newh) /\
  best_hash n get' = (if decide (best = 1) then Some (si_hash newh) else best_hash n get).
Proof using sha256_length BnLaws0 BnHex0.
  intros Hnet Hlim Hst. unfold qrx_btc_spv_stage_header. rewrite Hnet. cbn [mbind option_bind]. pose proof (normnet_net _ _ Hnet) as Hn.
  case_decide as Hl; [done|]. destruct (hex_decode header_hex 80) as [raw|] eqn:Hr; cbn [mbind option_bind]; [|done].
  set (h := parse_header sha256 header_hex raw _). destruct (header_exists get n (si_hash h)) eqn:Hex.
  { destruct (load_header_hash get n (si_hash h)) as [i|] eqn:Ei; cbn [mbind option_bind]; [|done]. intros E. injection E as <- <- <-. change (over [] get) with get. cbv zeta.
    assert (header n get (si_hash i) = Some (erase i)) as Hh by (unfold header; destruct (load_hash _ _ _ _ Ei) as [-> _]; by rewrite Ei).
    destruct Hst as [(_ & He & _)|Hok]; [by rewrite He in Hh|]. split; [by apply (spv_limit n get limit); [lia|]|done]. }
  assert (header n get (si_hash h) = None) as Hfresh.
  { unfold header_exists in Hex. apply bool_decide_eq_false_1, dec_stable in Hex. unfold header. by rewrite load_none. }
  case_decide as Hb.
  - destruct Hst as [He|[_ (b & ib & Hbest)]]; [|pose proof (be_hash _ _ _ _ Hbest) as E; unfold best_hash in E; congruence].
    destruct (qrx_btc_spv_genesis_header_hex n) as [gen|] eqn:Eg; cbn [mbind option_bind]; [|done]. destruct (strcaseeq gen header_hex) eqn:Ec; [|done].
    destruct (place_genesis sha256 n raw h) as [i|] eqn:Ep; cbn [mbind option_bind]; [|done]. intros [= <- <- <-].
    destruct (genesis_bytes n gen Hn Eg) as (_ & Hraw & _). rewrite (hex_decode_caseeq gen header_hex 80 Ec), Hr in Hraw. injection Hraw as Hraw.
    destruct (genesis_accepted n get header_hex raw i Hn He Hl Hr Hraw Ep) as (K1 & K2 & K3). split; [by apply (spv_limit _ _ 1); [lia|]|done].
  - destruct Hst as [[He _]|[Htree (b & ib & Hbest)]]; [by unfold best_hash in He|].
    destruct (place_header sha256 get n raw h) as [i|] eqn:Ep; cbn [mbind option_bind]; [|done].
    destruct (stage_best_chain get n i) as [[best' ps']|] eqn:Es; cbn [mbind option_bind]; [|done]. intros [= <- <- <-].
    pose proof (rd32le_bound raw 72) as Hbits.
    destruct (place_header_spec sha256 n get limit Htree ltac:(lia) raw h i (proj1 Hbits) Ep) as (height & cw & -> & Hh & Hc & Hpow & Hpl).
    apply (stage_best_keeps sha256 n get limit Hn Htree ltac:(lia) b ib); try done.
    + apply parsed_storable; try done. word.
    + by apply parsed_genuine.
Qed.

(** ** Starts and headers *)

Inductive spv_event := EvInit | EvHeader (header_hex : bytes).

(** The database after an event; what is refused leaves it. *)
Definition spv_step (network : bytes) (get : bytes -> option bytes) (e : spv_event) : bytes -> option bytes :=
  match e with
  | EvInit => match qrx_btc_spv_init sha256 get network with Some ps => over ps get | None => get end
  | EvHeader x => match qrx_btc_spv_stage_header sha256 get network x with Some (_, _, ps) => over ps get | None => get end
  end.

Lemma spv_step_keeps network n get limit e : normnet network = Some n -> 0 < limit < 2 ^ 64 ->
  spv_empty n get \/ spv_ok sha256 n get limit ->
  spv_empty n (spv_step network get e) \/ spv_ok sha256 n (spv_step network get e) (limit + 1).
Proof using sha256_length BnLaws0 BnHex0.
  intros Hnet Hlim Hst. pose proof (normnet_net _ _ Hnet) as Hn.
  assert (spv_empty n get \/ spv_ok sha256 n get (limit + 1)) as Hst' by (destruct Hst as [?|?]; [by left|right; by apply (spv_limit n get limit); [lia|]]).
  destruct e as [|x]; cbn [spv_step].
  - unfold qrx_btc_spv_init. rewrite Hnet. cbn [mbind option_bind]. destruct (db_get get (nkey n (cs "best_hash")) 65) eqn:Eb; [done|].
    destruct Hst as [He|[_ (b & ib & Hbest)]]; [|pose proof (be_hash _ _ _ _ Hbest) as E; unfold best_hash in E; congruence].
    destruct (qrx_btc_spv_genesis_header_hex n) as [gen|] eqn:Eg; cbn [mbind option_bind]; [|done].
    destruct (genesis_bytes n gen Hn Eg) as (Hl & Hraw & Hr & Hz). rewrite Hraw. cbn [mbind option_bind]. rewrite decide_False by congruence. rewrite <- Hz.
    destruct (place_genesis sha256 n _ _) as [i|] eqn:Ep; cbn [mbind option_bind]; [|done]. right.
    destruct (genesis_accepted n get gen (genesis_raw n) i Hn He Hl Hraw eq_refl Ep) as (K1 & _). by apply (spv_limit _ _ 1); [lia|].
  - destruct (qrx_btc_spv_stage_header sha256 get network x) as [[[i best] ps]|] eqn:Es; [|done]. right.
    by destruct (stage_header_keeps network n get limit x i best ps Hnet Hlim Hst Es).
Qed.

(** C10: the active chain of a network is the chain of most work. *)
Theorem spv_chain_of_most_work network n get es : normnet network = Some n -> spv_empty n get -> Z.of_nat (length es) < 2 ^ 63 ->
  let get' := foldl (spv_step network) get es in
  spv_empty n get' \/ spv_ok sha256 n get' (Z.of_nat (length es) + 1).
Proof using sha256_length BnLaws0 BnHex0.
  intros Hnet He Hlen. cbv zeta. assert (forall k get, 0 < k -> k + Z.of_nat (length es) < 2 ^ 64 -> spv_empty n get \/ spv_ok sha256 n get k ->
    spv_empty n (foldl (spv_step network) get es) \/ spv_ok sha256 n (foldl (spv_step network) get es) (k + Z.of_nat (length es))) as H.
  { clear He Hlen get. induction es as [|e es IH]; intros k get Hk Hlt Hst; cbn [foldl length]; [by rewrite Z.add_0_r|].
    cbn [length] in Hlt. replace (k + Z.of_nat (S (length es))) with (k + 1 + Z.of_nat (length es)) by lia.
    apply IH; [lia|lia|]. apply spv_step_keeps; [done|lia|done]. }
  rewrite Z.add_comm. apply H; [lia|lia|by left].
Qed.
End node.
