(* ===== verification/SpvMerkle.v ===== *)
(** * Bitcoin payments: Merkle proofs

    The proof of every transaction of a block is accepted; two transactions
    with proofs at one place of a block need a collision of the hash.  What the
    index has above the branch is not looked at. *)

From stdpp Require Import gmap sorting.
From S2P Require Import Prelude Format ChainParamsFacts Spv SpvProof SpvTarget SpvNode.

(** ** Digits *)

Lemma hexval_digit v : 0 <= v < 16 -> hexval (hex_digit v) = Some v /\ is_space (hex_digit v) = false /\ c_tolower (hex_digit v) = hex_digit v /\ hex_digit v <> x2c /\ hex_digit v <> x2d.
Proof.
  intros Hv. assert (Forall (fun v => hexval (hex_digit v) = Some v /\ is_space (hex_digit v) = false /\ c_tolower (hex_digit v) = hex_digit v /\
    hex_digit v <> x2c /\ hex_digit v <> x2d) (seqZ 0 16)) as H by (apply (bool_decide_eq_true_1 _); vm_compute; reflexivity).
  rewrite Forall_forall in H. apply H, elem_of_seqZ. lia.
Qed.
Lemma hexval_some c v : hexval c = Some v -> c_tolower c = hex_digit v.
Proof.
  intros H. assert (match hexval c with Some v => c_tolower c = hex_digit v | None => True end) as E by (destruct c; vm_compute; trivial).
  by rewrite H in E.
Qed.
Lemma hexval_range c v : hexval c = Some v -> 0 <= v < 16.
Proof. destruct c; vm_compute; intros H; try discriminate H; injection H as <-; done. Qed.

Lemma hi_digit (b : byte) : 0 <= Z.shiftr (byte.unsigned b) 4 < 16.
Proof. pose proof (byte.unsigned_range b). rewrite Z.shiftr_div_pow2 by lia. change (2 ^ 4) with 16. dlia. Qed.
Lemma lo_digit (b : byte) : 0 <= Z.land (byte.unsigned b) 15 < 16.
Proof. change 15 with (Z.ones 4). rewrite Z.land_ones by lia. apply Z.mod_pos_bound. lia. Qed.
Lemma join_digits (b : byte) : byte.of_Z (Z.lor (Z.shiftl (Z.shiftr (byte.unsigned b) 4) 4) (Z.land (byte.unsigned b) 15)) = b.
Proof. destruct b; vm_compute; reflexivity. Qed.

Lemma hex_cons b d : hex (b :: d) = hex_digit (Z.shiftr (byte.unsigned b) 4) :: hex_digit (Z.land (byte.unsigned b) 15) :: hex d.
Proof. done. Qed.
Lemma hex_pairs_hex d : hex_pairs (hex d) = Some d.
Proof.
  induction d as [|b d IH]; [done|]. rewrite hex_cons. cbn [hex_pairs].
  destruct (hexval_digit _ (hi_digit b)) as [-> _], (hexval_digit _ (lo_digit b)) as [-> _]. cbn [mbind option_bind]. rewrite IH. cbn [mbind option_bind].
  by rewrite join_digits.
Qed.
(** What every digit has, all digits have. *)
Lemma hex_forall (p : byte -> Prop) d : (forall v, 0 <= v < 16 -> p (hex_digit v)) -> Forall p (hex d).
Proof.
  intros Hp. induction d as [|b d IH]; [apply Forall_nil_2|]. rewrite hex_cons. repeat apply Forall_cons_2; [apply Hp, hi_digit|apply Hp, lo_digit|done].
Qed.

Lemma caseeq_display a b s : strcaseeq (field_hash_display a) s = true -> strcaseeq (field_hash_display b) s = true -> a = b.
Proof.
  intros H1%bool_decide_eq_true_1 H2%bool_decide_eq_true_1. unfold field_hash_display in *. apply (inj reverse), (inj Some).
  by rewrite <- (hex_pairs_hex (reverse a)), <- (hex_pairs_hex (reverse b)), <- (hex_pairs_lower (hex (reverse a))), H1, <- H2, hex_pairs_lower.
Qed.

(** Two bytes have the two digits they are made of. *)
Lemma pair_byte x y : 0 <= x < 16 -> 0 <= y < 16 -> byte.unsigned (byte.of_Z (Z.lor (Z.shiftl x 4) y)) = 16 * x + y.
Proof.
  intros Hx Hy. assert (Forall (fun x => Forall (fun y => byte.unsigned (byte.of_Z (Z.lor (Z.shiftl x 4) y)) = 16 * x + y) (seqZ 0 16)) (seqZ 0 16)) as H
    by (apply (bool_decide_eq_true_1 _); vm_compute; reflexivity).
  rewrite Forall_forall in H. specialize (H x ltac:(apply elem_of_seqZ; lia)). rewrite Forall_forall in H. apply H, elem_of_seqZ. lia.
Qed.

Lemma hex_pairs_inj s t r : hex_pairs s = Some r -> hex_pairs t = Some r -> c_tolower <$> s = c_tolower <$> t.
Proof.
  remember (length s) as k eqn:Hk. assert (length s <= k)%nat as Hle by lia. clear Hk. revert s t r Hle.
  induction k as [|k IH]; intros [|a [|b s]] [|a' [|b' t]] r Hle; cbn [length] in Hle; cbn [hex_pairs]; intros H1 H2; try done; try lia.
  - injection H1 as <-. destruct (hexval a'), (hexval b'), (hex_pairs t); by try injection H2.
  - injection H1 as <-. destruct (hexval a'), (hexval b'), (hex_pairs t); by try injection H2.
  - injection H2 as <-. destruct (hexval a), (hexval b), (hex_pairs s); by try injection H1.
  - destruct (hexval a) as [x|] eqn:Ea, (hexval b) as [y|] eqn:Eb, (hex_pairs s) as [q|] eqn:Es; try done. cbn [mbind option_bind] in H1. injection H1 as <-.
    destruct (hexval a') as [x'|] eqn:Ea', (hexval b') as [y'|] eqn:Eb', (hex_pairs t) as [q'|] eqn:Et; try done. cbn [mbind option_bind] in H2. injection H2 as Eq ->.
    apply (f_equal byte.unsigned) in Eq. pose proof (hexval_range _ _ Ea). pose proof (hexval_range _ _ Eb). pose proof (hexval_range _ _ Ea'). pose proof (hexval_range _ _ Eb').
    rewrite !pair_byte in Eq by done. assert (x' = x) as -> by lia. assert (y' = y) as -> by lia.
    rewrite !fmap_cons, (hexval_some _ _ Ea), (hexval_some _ _ Eb), (hexval_some _ _ Ea'), (hexval_some _ _ Eb'). do 2 f_equal. apply (IH s t q); done || lia.
Qed.

Lemma display_internal s : length s = 32%nat -> display_hex_to_internal (field_hash_display s) = Some s.
Proof.
  intros Hs. unfold display_hex_to_internal, field_hash_display, hex_decode, blen. rewrite !hex_length, length_reverse, Hs. cbn [decide].
  rewrite decide_False by lia. rewrite decide_False by (intros [H|H]; by vm_compute in H). rewrite hex_pairs_hex. cbn. by rewrite reverse_involutive.
Qed.
Lemma internal_length s d : display_hex_to_internal s = Some d -> length d = 32%nat.
Proof.
  unfold display_hex_to_internal. case_decide as Hl; [done|]. destruct (hex_decode s 32) as [r|] eqn:E; [|done]. intros [= <-].
  apply hex_decode_length in E. rewrite length_reverse. lia.
Qed.
Lemma internal_inj s t d : display_hex_to_internal s = Some d -> display_hex_to_internal t = Some d -> strcaseeq s t = true.
Proof.
  unfold display_hex_to_internal, hex_decode. repeat case_decide; try done. destruct (hex_pairs s) as [r|] eqn:E1, (hex_pairs t) as [q|] eqn:E2; try done.
  cbn. intros [= <-] [= E]. apply (inj reverse) in E as ->. apply bool_decide_eq_true_2. by apply (hex_pairs_inj s t r).
Qed.

(** ** The text of a branch *)

Lemma display_chars (p : byte -> Prop) d : (forall v, 0 <= v < 16 -> p (hex_digit v)) -> Forall p (field_hash_display d).
Proof. apply hex_forall. Qed.

Lemma skip_none s : Forall (fun c => is_space c = false) s -> skip_space s = s.
Proof. intros H. destruct H as [|c s Hc _]; [done|]. cbn [skip_space]. by rewrite Hc. Qed.
Lemma trim_display d : trim_space (field_hash_display d) = field_hash_display d.
Proof.
  assert (Forall (fun c => is_space c = false) (field_hash_display d)) as H by (apply display_chars; intros v Hv; by destruct (hexval_digit v Hv) as (_ & ? & _)).
  unfold trim_space. rewrite (skip_none _ H). rewrite skip_none by by apply Forall_reverse. by rewrite reverse_involutive.
Qed.

(** Pieces joined by commas. *)
Fixpoint join_csv (ps : list bytes) : bytes :=
  match ps with [] => [] | [p] => p | p :: ps => p ++ x2c :: join_csv ps end.
Lemma split_on_none sep s : sep ∉ s -> split_on sep s = [s].
Proof.
  induction s as [|c s IH]; intros H; [done|]. apply not_elem_of_cons in H as [Hc Hs]. cbn [split_on]. rewrite decide_False by congruence. by rewrite IH.
Qed.
Lemma strtok_join ps : Forall (fun p => (x2c ∉ p) /\ p <> []) ps -> strtok x2c (join_csv ps) = ps.
Proof.
  unfold strtok. induction 1 as [|p ps [Hc Hn] Hps IH]; [done|]. destruct ps as [|q ps].
  - cbn [join_csv]. rewrite split_on_none by done. by rewrite filter_cons_True by done.
  - change (join_csv (p :: q :: ps)) with (p ++ x2c :: join_csv (q :: ps)). rewrite split_on_line by done. rewrite filter_cons_True by done. by rewrite IH.
Qed.

Lemma display_token d : length d = 32%nat -> (x2c ∉ field_hash_display d) /\ field_hash_display d <> [].
Proof.
  intros Hd. split.
  - assert (Forall (fun c => c <> x2c) (field_hash_display d)) as H by (apply display_chars; intros v Hv; by destruct (hexval_digit v Hv) as (_ & _ & _ & ? & _)).
    rewrite Forall_forall in H. intros Hin. by apply (H _ Hin).
  - intros E. apply (f_equal length) in E. unfold field_hash_display in E. rewrite hex_length, length_reverse, Hd in E. done.
Qed.

Lemma branch_tokens_join ds : Forall (fun d => length d = 32%nat) ds -> branch_tokens (join_csv (field_hash_display <$> ds)) = field_hash_display <$> ds.
Proof.
  intros Hds. destruct ds as [|d ds]; [done|]. assert (Forall (fun p => (x2c ∉ p) /\ p <> []) (field_hash_display <$> d :: ds)) as Hp
    by (apply Forall_fmap; eapply Forall_impl; [exact Hds|intros x Hx; by apply display_token]).
  unfold branch_tokens. set (s := join_csv _). assert (64 <= length s)%nat as Hl.
  { apply Forall_cons in Hds as [Hd _]. unfold s. rewrite fmap_cons.
    assert (length (field_hash_display d) = 64%nat) as Hd2 by (unfold field_hash_display; rewrite hex_length, length_reverse; lia).
    destruct ds as [|e ds]; cbn [fmap list_fmap join_csv]; [lia|]. rewrite length_app. lia. }
  rewrite (decide_False (P := s = [])) by (intros ->; cbn in Hl; lia). rewrite decide_False by (intros E; rewrite E in Hl; cbn in Hl; lia). by apply strtok_join.
Qed.

(** ** The tree of a block *)

Section tree.
Variable sha256 : bytes -> bytes.
Hypothesis sha256_length : forall x, length (sha256 x) = 32%nat.
Abbreviation H := (sha256d sha256).

(** A level of the tree; the last of an odd number stands twice. *)
Fixpoint pair_up (l : list bytes) : list bytes :=
  match l with a :: b :: l => H (a ++ b) :: pair_up l | [a] => [H (a ++ a)] | [] => [] end.
Fixpoint bitcoin_root (fuel : nat) (l : list bytes) : option bytes :=
  match l, fuel with
  | [], _ => None
  | [a], _ => Some a
  | _, O => None
  | _, S fuel => bitcoin_root fuel (pair_up l)
  end.
Definition sibling (i : nat) (l : list bytes) : option bytes :=
  if Nat.odd i then l !! (i - 1)%nat else match l !! (i + 1)%nat with Some b => Some b | None => l !! i end.
Fixpoint bitcoin_branch (fuel : nat) (i : nat) (l : list bytes) : list bytes :=
  match l, fuel with
  | [], _ | [_], _ | _, O => []
  | _, S fuel => default [] (sibling i l) :: bitcoin_branch fuel (i / 2) (pair_up l)
  end.

Lemma hash_length x : length (H x) = 32%nat.
Proof using sha256_length. apply sha256_length. Qed.

Lemma two_steps (P : list bytes -> Prop) : P [] -> (forall a, P [a]) -> (forall a b l, P l -> P (a :: b :: l)) -> forall l, P l.
Proof using.
  intros H0 H1 H2 l. assert (P l /\ forall a, P (a :: l)) as [? _]; [|done]. induction l as [|b l [IH1 IH2]]; [done|]. split; [apply IH2|]. intros a. by apply H2.
Qed.

Lemma half_SS i : (S (S i) / 2 = S (i / 2))%nat.
Proof using. replace (S (S i)) with (i + 1 * 2)%nat by lia. rewrite Nat.div_add by lia. lia. Qed.

Lemma pair_up_lookup l : forall i x, l !! i = Some x -> exists y, sibling i l = Some y /\ pair_up l !! (i / 2)%nat = Some (merkle_step sha256 x y (Z.of_nat i)).
Proof using.
  apply (two_steps (fun l => forall i x, l !! i = Some x -> exists y, sibling i l = Some y /\ pair_up l !! (i / 2)%nat = Some (merkle_step sha256 x y (Z.of_nat i)))).
  - done.
  - intros a [|i] x; [|done]. intros [= <-]. by exists a.
  - intros a b m IH [|[|i]] x; cbn [lookup list_lookup].
    + intros [= <-]. by exists b.
    + intros [= <-]. by exists a.
    + intros Hx. destruct (IH i x Hx) as (y & Hs & Hp). exists y. split.
      * revert Hs. unfold sibling. rewrite Nat.odd_succ, Nat.even_succ. destruct (Nat.odd i) eqn:Eo; [|done].
        destruct i as [|i]; [done|]. replace (S (S (S i)) - 1)%nat with (S (S i)) by lia. replace (S i - 1)%nat with i by lia. done.
      * rewrite half_SS. change (pair_up (a :: b :: m) !! S (i / 2)) with (pair_up m !! (i / 2)%nat). rewrite Hp. f_equal. unfold merkle_step.
        rewrite !Nat2Z.inj_succ, Z.odd_succ, Z.even_succ. done.
Qed.

Lemma pair_up_length l : (length (pair_up l) = (length l + 1) / 2)%nat.
Proof using.
  apply (two_steps (fun l => length (pair_up l) = (length l + 1) / 2)%nat); [done|done|]. intros a b m IH. cbn [pair_up length]. rewrite IH.
  replace (S (S (length m)) + 1)%nat with (S (S (length m + 1))) by lia. by rewrite half_SS.
Qed.
Lemma pair_up_hashes l : Forall (fun d => length d = 32%nat) (pair_up l).
Proof using sha256_length.
  apply (two_steps (fun l => Forall (fun d => length d = 32%nat) (pair_up l))); [apply Forall_nil_2|intros a; apply Forall_singleton, hash_length|].
  intros a b m IH. apply Forall_cons_2; [apply hash_length|done].
Qed.

(** The branch of a leaf leads to the root. *)
Lemma fold_branch fuel : forall i l x, (length l <= S fuel)%nat -> Forall (fun d => length d = 32%nat) l -> l !! i = Some x ->
  exists r, bitcoin_root fuel l = Some r /\ Forall (fun d => length d = 32%nat) (bitcoin_branch fuel i l) /\
    merkle_fold sha256 x (Z.of_nat i) (field_hash_display <$> bitcoin_branch fuel i l) = Some r.
Proof using sha256_length.
  induction fuel as [|fuel IH]; intros i l x Hl Hf Hx.
  - destruct l as [|a [|b l]]; [done| |cbn in Hl; lia]. destruct i; [|done]. injection Hx as ->. exists x. split; [done|]. split; [apply Forall_nil_2|done].
  - destruct l as [|a [|b l]]; [done| |].
    { destruct i; [|done]. injection Hx as ->. exists x. split; [done|]. split; [apply Forall_nil_2|done]. }
    destruct (pair_up_lookup (a :: b :: l) i x Hx) as (y & Hs & Hp).
    destruct (IH (i / 2)%nat (pair_up (a :: b :: l)) (merkle_step sha256 x y (Z.of_nat i))) with (3 := Hp) as (r & Hr & Hb & Hm).
    { rewrite pair_up_length. cbn [length] in *. assert ((S (S (length l)) + 1) / 2 < S (S (length l)))%nat; [|lia]. apply Nat.div_lt_upper_bound; lia. }
    { apply pair_up_hashes. }
    assert (length y = 32%nat) as Hy.
    { rewrite Forall_forall in Hf. apply Hf. unfold sibling in Hs. destruct (Nat.odd i); [by apply list_elem_of_lookup_2 in Hs|].
      destruct ((a :: b :: l) !! (i + 1)%nat) eqn:E; [injection Hs as <-|]; by eapply list_elem_of_lookup_2. }
    exists r. change (bitcoin_branch (S fuel) i (a :: b :: l)) with (default [] (sibling i (a :: b :: l)) :: bitcoin_branch fuel (i / 2) (pair_up (a :: b :: l))).
    rewrite Hs. cbn [default]. split; [done|]. split; [by apply Forall_cons_2|]. rewrite fmap_cons. cbn [merkle_fold].
    rewrite trim_display, display_internal by done. cbn [mbind option_bind]. rewrite Z.shiftr_div_pow2 by lia. change (2 ^ 1) with 2.
    change 2 with (Z.of_nat 2). by rewrite <- Nat2Z.inj_div.
Qed.

(** Two leaves at one place, one root. *)
Lemma fold_collision t1 : forall t2 c1 c2 i1 i2 r, length t1 = length t2 -> length c1 = 32%nat -> length c2 = 32%nat -> c1 <> c2 -> 0 <= i1 -> 0 <= i2 ->
  i1 mod 2 ^ Z.of_nat (length t1) = i2 mod 2 ^ Z.of_nat (length t1) -> merkle_fold sha256 c1 i1 t1 = Some r -> merkle_fold sha256 c2 i2 t2 = Some r ->
  exists x y, x <> y /\ length x = 64%nat /\ length y = 64%nat /\ H x = H y.
Proof using sha256_length.
  induction t1 as [|p1 t1 IH]; intros [|p2 t2] c1 c2 i1 i2 r Hlen L1 L2 Hne Hi1 Hi2 Hmod F1 F2; try done; cbn [merkle_fold] in F1, F2; [congruence|].
  destruct (display_hex_to_internal (trim_space p1)) as [s1|] eqn:E1; cbn [mbind option_bind] in F1; [|done].
  destruct (display_hex_to_internal (trim_space p2)) as [s2|] eqn:E2; cbn [mbind option_bind] in F2; [|done].
  apply internal_length in E1, E2. cbn [length] in Hmod. rewrite Nat2Z.inj_succ, Z.pow_succ_r in Hmod by lia.
  pose proof (Z.pow_pos_nonneg 2 (Z.of_nat (length t1)) ltac:(lia) ltac:(lia)) as Hq. set (q := 2 ^ Z.of_nat (length t1)) in *.
  assert (i1 mod 2 = i2 mod 2 /\ (i1 / 2) mod q = (i2 / 2) mod q) as [Hodd Hdiv].
  { rewrite !Z.rem_mul_r in Hmod by lia. pose proof (Z.mod_pos_bound i1 2 ltac:(lia)). pose proof (Z.mod_pos_bound i2 2 ltac:(lia)). lia. }
  assert (Z.odd i1 = Z.odd i2) as Ho by (rewrite !Zmod_odd in Hodd; destruct (Z.odd i1), (Z.odd i2); done).
  set (x := if Z.odd i1 then s1 ++ c1 else c1 ++ s1). set (y := if Z.odd i1 then s2 ++ c2 else c2 ++ s2).
  assert (x <> y) as Hxy.
  { unfold x, y. destruct (Z.odd i1); intros E; [apply app_inj_2 in E as [_ E]; congruence|apply app_inj_1 in E as [E _]; congruence]. }
  destruct (decide (H x = H y)) as [Heq|Hneq].
  - exists x, y. split; [done|]. split; [|split; [|done]]; unfold x, y; destruct (Z.odd i1); rewrite length_app; lia.
  - unfold merkle_step in F1, F2. rewrite <- Ho in F2. fold x in F1. fold y in F2. rewrite Z.shiftr_div_pow2 in F1, F2 by lia. change (2 ^ 1) with 2 in *.
    apply (IH t2 (H x) (H y) (i1 / 2) (i2 / 2) r); try done; try apply hash_length; [by injection Hlen|dlia|dlia].
Qed.

(** Bits above the branch. *)
Lemma fold_high_bits t : forall c i k, 0 <= i -> 0 <= k -> merkle_fold sha256 c (i + k * 2 ^ Z.of_nat (length t)) t = merkle_fold sha256 c i t.
Proof using.
  induction t as [|p t IH]; intros c i k Hi Hk; [done|]. cbn [merkle_fold length]. rewrite Nat2Z.inj_succ, Z.pow_succ_r by lia.
  destruct (display_hex_to_internal (trim_space p)) as [s|]; [|done]. cbn [mbind option_bind].
  pose proof (Z.pow_pos_nonneg 2 (Z.of_nat (length t)) ltac:(lia) ltac:(lia)) as Hq.
  replace (i + k * (2 * 2 ^ Z.of_nat (length t))) with (i + (k * 2 ^ Z.of_nat (length t)) * 2) by ring.
  assert (merkle_step sha256 c s (i + k * 2 ^ Z.of_nat (length t) * 2) = merkle_step sha256 c s i) as ->
    by (unfold merkle_step; by rewrite Z.odd_add, Z.odd_mul, andb_false_r, xorb_false_r).
  rewrite !Z.shiftr_div_pow2 by lia. change (2 ^ 1) with 2. rewrite Z.div_add by lia. apply IH; [dlia|lia].
Qed.

(** ** The command *)

Variable get : bytes -> option bytes.
Abbreviation verify := (qrx_btc_spv_verify_merkle sha256 get).

(** What an accepted proof has. *)
Lemma verify_spec network txid bh i csv p : verify network txid bh i csv = Some p <->
  exists n hdr c r conf, normnet network = Some n /\ length txid = 64%nat /\ length bh = 64%nat /\ qrx_btc_spv_get_header get n bh = Some hdr /\
    display_hex_to_internal txid = Some c /\ merkle_fold sha256 c i (branch_tokens csv) = Some r /\
    strcaseeq (field_hash_display r) (si_merkle_root hdr) = true /\ qrx_btc_spv_confirmations get n bh (si_height hdr) = Some (conf, true) /\
    p = mkProof txid bh (si_height hdr) conf i 1 1.
Proof using.
  unfold qrx_btc_spv_verify_merkle. split.
  - destruct (normnet network) as [n|]; cbn [mbind option_bind]; [|done]. case_decide as Hl; [done|].
    destruct (qrx_btc_spv_get_header get n bh) as [hdr|] eqn:E1; cbn [mbind option_bind]; [|done].
    destruct (display_hex_to_internal txid) as [c|] eqn:E2; cbn [mbind option_bind]; [|done].
    destruct (merkle_fold sha256 c i (branch_tokens csv)) as [r|] eqn:E3; cbn [mbind option_bind]; [|done].
    destruct (strcaseeq _ _) eqn:E4; [|done]. destruct (qrx_btc_spv_confirmations get n bh (si_height hdr)) as [[conf [|]]|] eqn:E5; cbn [mbind option_bind]; try done.
    intros [= <-]. exists n, hdr, c, r, conf. split_and!; done || lia.
  - intros (n & hdr & c & r & conf & -> & H1 & H2 & H3 & H4 & H5 & H6 & H7 & ->). cbn [mbind option_bind]. rewrite decide_False by lia.
    rewrite H3. cbn [mbind option_bind]. rewrite H4. cbn [mbind option_bind]. rewrite H5. cbn [mbind option_bind]. rewrite H6, H7. done.
Qed.

(** C22: the proof of every transaction of an active block is accepted. *)
Theorem merkle_complete network n leaves i x r bh hdr conf : normnet network = Some n -> length bh = 64%nat ->
  Forall (fun d => length d = 32%nat) leaves -> leaves !! i = Some x -> bitcoin_root (length leaves) leaves = Some r ->
  qrx_btc_spv_get_header get n bh = Some hdr -> si_merkle_root hdr = field_hash_display r ->
  qrx_btc_spv_confirmations get n bh (si_height hdr) = Some (conf, true) ->
  verify network (field_hash_display x) bh (Z.of_nat i) (join_csv (field_hash_display <$> bitcoin_branch (length leaves) i leaves)) =
    Some (mkProof (field_hash_display x) bh (si_height hdr) conf (Z.of_nat i) 1 1).
Proof using sha256_length.
  intros Hn Hb Hf Hx Hr Hh Hm Hc. assert (length x = 32%nat) as Hxl by (rewrite Forall_forall in Hf; apply Hf; by apply list_elem_of_lookup_2 in Hx).
  destruct (fold_branch (length leaves) i leaves x ltac:(lia) Hf Hx) as (r' & Hr' & Hbl & Hfold). assert (r' = r) as -> by congruence.
  apply verify_spec. exists n, hdr, x, r, conf. rewrite branch_tokens_join by done. split_and!; try done.
  - unfold field_hash_display. rewrite hex_length, length_reverse. lia.
  - by apply display_internal.
  - rewrite Hm. by apply bool_decide_eq_true_2.
Qed.

(** Two transactions with accepted proofs at the same place of a block. *)
Theorem merkle_sound network bh t1 t2 i1 i2 csv1 csv2 p1 p2 : 0 <= i1 -> 0 <= i2 ->
  verify network t1 bh i1 csv1 = Some p1 -> verify network t2 bh i2 csv2 = Some p2 ->
  length (branch_tokens csv1) = length (branch_tokens csv2) ->
  i1 mod 2 ^ Z.of_nat (length (branch_tokens csv1)) = i2 mod 2 ^ Z.of_nat (length (branch_tokens csv1)) -> strcaseeq t1 t2 = false ->
  exists x y, x <> y /\ length x = 64%nat /\ length y = 64%nat /\ H x = H y.
Proof using sha256_length.
  intros Hi1 Hi2 (n & hdr & c1 & r1 & f1 & N1 & _ & _ & G1 & D1 & F1 & S1 & _)%verify_spec (n2 & hdr2 & c2 & r2 & f2 & N2 & _ & _ & G2 & D2 & F2 & S2 & _)%verify_spec Hl Hm Ht.
  assert (n2 = n) as -> by congruence. assert (hdr2 = hdr) as -> by congruence. pose proof (caseeq_display _ _ _ S1 S2) as ->.
  apply (fold_collision (branch_tokens csv1) (branch_tokens csv2) c1 c2 i1 i2 r2); try done.
  - by apply internal_length in D1.
  - by apply internal_length in D2.
  - intros ->. by rewrite (internal_inj t1 t2 c2) in Ht.
Qed.

(** The place that is reported can be any with the same low bits. *)
Theorem merkle_index_free network txid bh i csv p k : 0 <= i -> 0 <= k -> verify network txid bh i csv = Some p ->
  let j := i + k * 2 ^ Z.of_nat (length (branch_tokens csv)) in
  exists q, verify network txid bh j csv = Some q /\ bp_merkle_index q = j /\ bp_merkle_valid q = 1.
Proof using.
  intros Hi Hk (n & hdr & c & r & conf & H1 & H2 & H3 & H4 & H5 & H6 & H7 & H8 & ->)%verify_spec j.
  exists (mkProof txid bh (si_height hdr) conf j 1 1). split; [|done]. apply verify_spec. exists n, hdr, c, r, conf. unfold j. by rewrite fold_high_bits.
Qed.
End tree.
