(* ===== verification/SpvPayments.v ===== *)
(** * Bitcoin payments: transactions and stored proofs

    A transaction in Bitcoin's serialization, with or without witnesses, is
    read back: the output found is the first that pays the value to the script,
    and the identifier is the hash of the transaction without witnesses.  A
    stored proof is read back. *)

From stdpp Require Import gmap sorting.
From S2P Require Import Prelude Format Mvcc MvccSerial MvccLedger MvccExec MvccBook Spv SpvProof SpvTarget SpvState SpvNode SpvMerkle.

(** ** Numbers *)

Fixpoint le_bytes (k : nat) (v : Z) : bytes := match k with O => [] | S k => byte.of_Z (v mod 256) :: le_bytes k (v / 256) end.
Lemma le_bytes_length k v : length (le_bytes k v) = k.
Proof. revert v. induction k as [|k IH]; intros v; [done|]. cbn [le_bytes length]. by rewrite IH. Qed.
Lemma rd_le_bytes k v : 0 <= v < 256 ^ Z.of_nat k -> rd_le (le_bytes k v) = v.
Proof.
  unfold rd_le. revert v. induction k as [|k IH]; intros v Hv; [cbn in *; lia|]. cbn [le_bytes foldr]. rewrite Nat2Z.inj_succ, Z.pow_succ_r in Hv by lia.
  rewrite IH by (split; [dlia|apply Z.div_lt_upper_bound; lia]). rewrite byte.unsigned_of_Z. unfold byte.wrap. change (2 ^ 8) with 256. rewrite Zmod_mod. dlia.
Qed.

(** The shortest form. *)
Definition put_varint (x : Z) : bytes :=
  if decide (x < 0xfd) then [byte.of_Z x] else if decide (x <= 0xffff) then xfd :: le_bytes 2 x
  else if decide (x <= 0xffffffff) then xfe :: le_bytes 4 x else xff :: le_bytes 8 x.

Lemma varint_long (c : byte) k x rest : (c = xfd /\ k = 2%nat /\ 0xfd <= x) \/ (c = xfe /\ k = 4%nat /\ 0xffff < x) \/ (c = xff /\ k = 8%nat /\ 0xffffffff < x) ->
  0 <= x < 256 ^ Z.of_nat k -> read_varint (c :: le_bytes k x ++ rest) = Some (x, rest).
Proof.
  intros Hc Hx. unfold read_varint. cbv zeta.
  assert ((if decide (byte.unsigned c = 0xfd) then 2%nat else if decide (byte.unsigned c = 0xfe) then 4%nat else 8%nat) = k) as -> by (by destruct Hc as [(-> & -> & _)|[(-> & -> & _)|(-> & -> & _)]]).
  rewrite decide_False by (by destruct Hc as [(-> & _)|[(-> & _)|(-> & _)]]).
  rewrite decide_False by (rewrite length_app, le_bytes_length; lia).
  rewrite take_app_length', drop_app_length' by (symmetry; apply le_bytes_length). rewrite rd_le_bytes by done.
  rewrite decide_False; [done|]. destruct Hc as [(-> & -> & H)|[(-> & -> & H)|(-> & -> & H)]];
    change (byte.unsigned xfd) with 253; change (byte.unsigned xfe) with 254; change (byte.unsigned xff) with 255; lia.
Qed.
Lemma read_put x rest : in_u64 x -> read_varint (put_varint x ++ rest) = Some (x, rest).
Proof.
  intros Hx. unfold put_varint. repeat case_decide; cbn [app].
  - unfold read_varint. cbv zeta. assert (byte.unsigned (byte.of_Z x) = x) as -> by (rewrite byte.unsigned_of_Z; unfold byte.wrap; apply Z.mod_small; word).
    by rewrite decide_True by lia.
  - apply varint_long; [left; split_and!; done || lia|word].
  - apply varint_long; [right; left; split_and!; done || lia|word].
  - apply varint_long; [right; right; split_and!; done || lia|word].
Qed.
Lemma put_varint_first x : 0 < x -> exists c s, put_varint x = c :: s /\ c <> x00.
Proof.
  intros Hx. unfold put_varint. repeat case_decide; eexists _, _; (split; [reflexivity|]); try done. intros E. apply (f_equal byte.unsigned) in E.
  rewrite byte.unsigned_of_Z in E. unfold byte.wrap in E. rewrite Z.mod_small in E by lia. change (byte.unsigned x00) with 0 in E. lia.
Qed.

Lemma skip_bytes_app n a rest : blen a = n -> skip_bytes n (a ++ rest) = Some rest.
Proof. intros <-. unfold skip_bytes, blen. rewrite length_app. rewrite decide_False by lia. by rewrite Nat2Z.id, drop_app_length. Qed.
Definition put_var_bytes (s : bytes) : bytes := put_varint (blen s) ++ s.
Lemma read_var_bytes_app s rest : in_u64 (blen s) -> read_var_bytes (put_var_bytes s ++ rest) = Some (s, rest).
Proof.
  intros Hs. unfold read_var_bytes, put_var_bytes. rewrite <- app_assoc, read_put by done. cbn [mbind option_bind]. unfold blen in *. rewrite length_app.
  rewrite decide_False by lia. rewrite Nat2Z.id. by rewrite take_app_length, drop_app_length.
Qed.

Lemma skip_n_encoded {A} (step : bytes -> option bytes) (enc : A -> bytes) xs rest :
  Forall (fun x => forall r, step (enc x ++ r) = Some r) xs -> skip_n step (length xs) (concat (enc <$> xs) ++ rest) = Some rest.
Proof.
  induction 1 as [|x xs Hx _ IH]; [done|]. rewrite fmap_cons. cbn [concat length skip_n]. rewrite <- app_assoc, Hx. cbn [mbind option_bind]. apply IH.
Qed.

(** ** Transactions *)

Record TxIn := mkTxIn { ti_outpoint : bytes; ti_script : bytes; ti_sequence : bytes; ti_witness : list bytes }.
Record TxOut := mkTxOut { to_value : Z; to_script : bytes }.
Record Tx := mkTx { tx_version : bytes; tx_ins : list TxIn; tx_outs : list TxOut; tx_locktime : bytes }.

Record txin_ok (i : TxIn) : Prop := {
  ti_out36 : blen (ti_outpoint i) = 36; ti_seq4 : blen (ti_sequence i) = 4; ti_scr : in_u64 (blen (ti_script i));
  ti_items : Z.of_nat (length (ti_witness i)) <= 100000; ti_wit : Forall (fun w => in_u64 (blen w)) (ti_witness i)
}.
Record tx_ok (t : Tx) : Prop := {
  tx_ver4 : length (tx_version t) = 4%nat; tx_lock4 : length (tx_locktime t) = 4%nat;
  tx_ins_ok : Forall txin_ok (tx_ins t); tx_ins_count : 0 < Z.of_nat (length (tx_ins t)) <= 100000;
  tx_outs_ok : Forall (fun o => in_u64 (to_value o) /\ in_u64 (blen (to_script o))) (tx_outs t); tx_outs_count : Z.of_nat (length (tx_outs t)) <= 100000
}.

Definition ser_in (i : TxIn) : bytes := ti_outpoint i ++ put_var_bytes (ti_script i) ++ ti_sequence i.
Definition ser_out (o : TxOut) : bytes := le_bytes 8 (to_value o) ++ put_var_bytes (to_script o).
Definition ser_witness (i : TxIn) : bytes := put_varint (Z.of_nat (length (ti_witness i))) ++ concat (put_var_bytes <$> ti_witness i).
Definition ser_body (t : Tx) : bytes :=
  put_varint (Z.of_nat (length (tx_ins t))) ++ concat (ser_in <$> tx_ins t) ++ put_varint (Z.of_nat (length (tx_outs t))) ++ concat (ser_out <$> tx_outs t).
(** Without witnesses; with them. *)
Definition ser_legacy (t : Tx) : bytes := tx_version t ++ ser_body t ++ tx_locktime t.
Definition ser_segwit (flag : byte) (t : Tx) : bytes :=
  tx_version t ++ x00 :: flag :: ser_body t ++ concat (ser_witness <$> tx_ins t) ++ tx_locktime t.

(** The first output that pays [sats] to [spk]. *)
Definition pays (sats : Z) (spk : bytes) (o : TxOut) : Prop := to_value o = sats /\ to_script o = spk.
#[export] Instance pays_dec sats spk o : Decision (pays sats spk o).
Proof. unfold pays. apply _. Defined.
Definition first_paying (sats : Z) (spk : bytes) (outs : list TxOut) : Z :=
  match list_find (pays sats spk) outs with Some (i, _) => Z.of_nat i | None => -1 end.

Lemma skip_input_app i r : txin_ok i -> skip_input (ser_in i ++ r) = Some r.
Proof.
  intros [H1 H2 H3 _ _]. unfold skip_input, ser_in. rewrite <- !app_assoc, skip_bytes_app by done. cbn [mbind option_bind].
  rewrite read_var_bytes_app by done. cbn [mbind option_bind]. by rewrite skip_bytes_app.
Qed.
Lemma skip_witness_app i r : txin_ok i -> skip_witness (ser_witness i ++ r) = Some r.
Proof.
  intros [_ _ _ H1 H2]. unfold skip_witness, ser_witness. rewrite <- app_assoc, read_put by word. cbn [mbind option_bind]. rewrite decide_False by lia.
  rewrite Nat2Z.id. apply (skip_n_encoded _ put_var_bytes). eapply Forall_impl; [exact H2|]. intros w Hw q. by rewrite read_var_bytes_app.
Qed.

Lemma ser_out_app o r : ser_out o ++ r = le_bytes 8 (to_value o) ++ put_var_bytes (to_script o) ++ r.
Proof. unfold ser_out. by rewrite <- app_assoc. Qed.

Lemma find_outputs_app outs : forall i sats spk found r, sats <= LLONG_MAX -> Forall (fun o => in_u64 (to_value o) /\ in_u64 (blen (to_script o))) outs ->
  0 <= i -> find_outputs (length outs) i sats spk found (concat (ser_out <$> outs) ++ r) =
    Some (if decide (found < 0) then match list_find (pays sats spk) outs with Some (j, _) => i + Z.of_nat j | None => found end else found, r).
Proof.
  induction outs as [|o outs IH]; intros i sats spk found r Hs Ho Hi; [by case_decide|]. apply Forall_cons in Ho as [[Hv Hl] Ho].
  rewrite fmap_cons. cbn [concat length find_outputs]. rewrite <- app_assoc, ser_out_app.
  rewrite skip_bytes_app by (unfold blen; by rewrite le_bytes_length). cbn [mbind option_bind].
  rewrite take_app_length' by (symmetry; apply le_bytes_length). rewrite rd_le_bytes by (change (256 ^ Z.of_nat 8) with (2 ^ 64); exact Hv).
  rewrite read_var_bytes_app by done. cbn [mbind option_bind]. rewrite IH by (done || lia). do 2 f_equal. cbn [list_find].
  destruct (decide (pays sats spk o)) as [Hp|Hp].
  - destruct Hp as [Hp1 Hp2]. destruct (decide (found < 0)) as [Hf|Hf].
    + rewrite (decide_True (P := to_value o <= LLONG_MAX /\ _)) by (split_and!; done || lia). rewrite decide_False by lia. cbn. lia.
    + rewrite (decide_False (P := to_value o <= LLONG_MAX /\ _)) by tauto. by rewrite decide_False.
  - rewrite (decide_False (P := to_value o <= LLONG_MAX /\ _)) by (unfold pays in Hp; tauto). case_decide; [|done].
    destruct (list_find (pays sats spk) outs) as [[j o']|]; cbn; [lia|done].
Qed.

(** Up to the outputs, in either form. *)
Lemma body_app t r : ser_body t ++ r = put_varint (Z.of_nat (length (tx_ins t))) ++ concat (ser_in <$> tx_ins t) ++
  put_varint (Z.of_nat (length (tx_outs t))) ++ concat (ser_out <$> tx_outs t) ++ r.
Proof. unfold ser_body. by rewrite <- 3!app_assoc. Qed.

Lemma ser_body_first t : tx_ok t -> exists c s, ser_body t = c :: s /\ c <> x00.
Proof.
  intros Ht. destruct (put_varint_first (Z.of_nat (length (tx_ins t)))) as (c & s & E & Hc); [apply (tx_ins_count _ Ht)|].
  unfold ser_body. rewrite E. cbn [app]. by eexists _, _.
Qed.

Lemma put_varint_length x : (1 <= length (put_varint x))%nat.
Proof. unfold put_varint. repeat case_decide; cbn [length]; lia. Qed.
Lemma ser_body_length t : (2 <= length (ser_body t))%nat.
Proof.
  unfold ser_body. rewrite !length_app. pose proof (put_varint_length (Z.of_nat (length (tx_ins t)))). pose proof (put_varint_length (Z.of_nat (length (tx_outs t)))). lia.
Qed.

(** [parse_tx] from the body on, where [w] are the witnesses. *)
Lemma parse_rest t sats spk w (segwit : bool) b : tx_ok t -> sats <= LLONG_MAX ->
  (if segwit then w = concat (ser_witness <$> tx_ins t) else w = []) ->
  (let body := ser_body t ++ w ++ tx_locktime t in
   '(vin, r) ← read_varint body;
   if decide (vin > 100000) then None
   else
     r ← skip_n skip_input (Z.to_nat vin) r;
     '(voutc, r) ← read_varint r;
     if decide (voutc > 100000) then None
     else
       '(found, r) ← find_outputs (Z.to_nat voutc) 0 sats spk (-1) r;
       let inner := take (length body - length r) body in
       r ← (if segwit then skip_n skip_witness (Z.to_nat vin) r else Some r);
       if decide (blen r <> 4) then None
       else Some (found, if segwit then take 4 b ++ inner ++ r else b)) =
  Some (first_paying sats spk (tx_outs t), if segwit then take 4 b ++ ser_body t ++ tx_locktime t else b).
Proof.
  intros Ht Hs Hw. cbv zeta. rewrite body_app, read_put by (pose proof (tx_ins_count _ Ht); word). cbn [mbind option_bind].
  rewrite decide_False by (pose proof (tx_ins_count _ Ht); lia). rewrite Nat2Z.id.
  rewrite (skip_n_encoded skip_input ser_in) by (eapply Forall_impl; [apply (tx_ins_ok _ Ht)|intros i Hi q; by apply skip_input_app]). cbn [mbind option_bind].
  rewrite read_put by (pose proof (tx_outs_count _ Ht); word). cbn [mbind option_bind].
  rewrite decide_False by (pose proof (tx_outs_count _ Ht); lia). rewrite Nat2Z.id.
  rewrite find_outputs_app by (done || lia || apply (tx_outs_ok _ Ht)). cbn [mbind option_bind]. rewrite decide_True by lia.
  rewrite <- body_app. assert (length (ser_body t ++ w ++ tx_locktime t) - length (w ++ tx_locktime t) = length (ser_body t))%nat as -> by (rewrite length_app; lia).
  rewrite take_app_length. assert ((if segwit then skip_n skip_witness (length (tx_ins t)) (w ++ tx_locktime t) else Some (w ++ tx_locktime t)) = Some (tx_locktime t)) as ->.
  { destruct segwit; subst w; [|done]. apply (skip_n_encoded skip_witness ser_witness). eapply Forall_impl; [apply (tx_ins_ok _ Ht)|intros i Hi q; by apply skip_witness_app]. }
  cbn [mbind option_bind]. rewrite decide_False by (unfold blen; rewrite (tx_lock4 _ Ht); lia). done.
Qed.

Lemma parse_legacy t sats spk : tx_ok t -> sats <= LLONG_MAX -> parse_tx (ser_legacy t) sats spk = Some (first_paying sats spk (tx_outs t), ser_legacy t).
Proof.
  intros Ht Hs. unfold parse_tx. rewrite decide_False by (unfold ser_legacy, blen; rewrite !length_app, (tx_ver4 _ Ht), (tx_lock4 _ Ht); lia).
  assert (drop 4 (ser_legacy t) = ser_body t ++ tx_locktime t) as Hd by (unfold ser_legacy; apply drop_app_length'; symmetry; apply Ht). cbv zeta. rewrite Hd.
  pose proof (parse_rest t sats spk [] false (ser_legacy t) Ht Hs eq_refl) as H. cbv zeta in H. cbn [app] in H.
  destruct (ser_body_first t Ht) as (c & s & E & Hc). rewrite E in *. cbn [app] in *. destruct c; try exact H. done.
Qed.

Lemma parse_segwit flag t sats spk : flag <> x00 -> tx_ok t -> sats <= LLONG_MAX ->
  parse_tx (ser_segwit flag t) sats spk = Some (first_paying sats spk (tx_outs t), ser_legacy t).
Proof.
  intros Hf Ht Hs. unfold parse_tx. rewrite decide_False by (unfold ser_segwit, blen; rewrite !length_app, (tx_ver4 _ Ht); cbn [length]; rewrite !length_app, (tx_lock4 _ Ht); lia).
  assert (drop 4 (ser_segwit flag t) = x00 :: flag :: ser_body t ++ concat (ser_witness <$> tx_ins t) ++ tx_locktime t) as Hd by (unfold ser_segwit; apply drop_app_length'; symmetry; apply Ht).
  cbv zeta. rewrite Hd. rewrite decide_True by done.
  pose proof (parse_rest t sats spk _ true (ser_segwit flag t) Ht Hs eq_refl) as H. cbv zeta in H. rewrite H. do 2 f_equal.
  unfold ser_segwit, ser_legacy. by rewrite take_app_length' by (symmetry; apply Ht).
Qed.

Section tx.
Variable sha256 : bytes -> bytes.

Lemma hex_decode_hex d cap : blen d <= cap -> hex_decode (hex d) cap = Some d.
Proof using.
  intros Hc. unfold hex_decode, blen in *. rewrite hex_length. rewrite decide_False; [apply hex_pairs_hex|].
  rewrite Nat2Z.inj_mul, Z.odd_mul. change (Z.odd (Z.of_nat 2)) with false. change (Z.of_nat 2) with 2. rewrite Z.mul_comm, Z.div_mul by lia.
  intros [H|H]; [done|lia].
Qed.

(** A serialized transaction is read back, with or without witnesses. *)
Theorem tx_output_found (witnesses : option byte) t sats spk : tx_ok t -> 0 <= sats <= LLONG_MAX ->
  match witnesses with Some flag => flag <> x00 | None => True end ->
  let raw := match witnesses with Some flag => ser_segwit flag t | None => ser_legacy t end in
  blen raw <= BTC_TX_MAX_BYTES ->
  qrx_btc_tx_find_output sha256 (hex raw) sats (hex spk) =
    match list_find (pays sats spk) (tx_outs t) with
    | Some (i, _) => Some (mkMatchOut (field_hash_display (sha256d sha256 (ser_legacy t))) (Z.of_nat i) sats)
    | None => None
    end.
Proof using.
  intros Ht Hs Hw raw Hmax.
  pose proof (ser_body_length t) as Hb. assert (10 <= blen raw) as Hmin.
  { unfold raw. destruct witnesses; unfold ser_segwit, ser_legacy, blen; rewrite !length_app; cbn [length]; rewrite ?length_app, (tx_ver4 _ Ht), (tx_lock4 _ Ht); lia. }
  unfold qrx_btc_tx_find_output. cbv zeta. assert (blen (hex raw) = 2 * blen raw) as El by (unfold blen; rewrite hex_length; lia).
  rewrite El. assert (2 * blen raw / 2 = blen raw) as -> by (rewrite Z.mul_comm; apply Z.div_mul; lia).
  rewrite decide_False by (rewrite Z.odd_mul; change (Z.odd 2) with false; intros [?|[?|?]]; [lia|done|lia]).
  rewrite (hex_decode_hex raw) by lia. cbn [mbind option_bind].
  rewrite (hex_decode_hex spk) by (unfold blen; rewrite hex_length, Nat2Z.inj_mul, Z.mul_comm, Z.div_mul by lia; lia). cbn [mbind option_bind].
  assert (parse_tx raw sats spk = Some (first_paying sats spk (tx_outs t), ser_legacy t)) as -> by
    (unfold raw; destruct witnesses; [by apply parse_segwit; try lia|apply parse_legacy; [done|lia]]).
  cbn [mbind option_bind]. unfold first_paying. destruct (list_find (pays sats spk) (tx_outs t)) as [[i o]|]; [by rewrite decide_False by lia|by rewrite decide_True by lia].
Qed.
End tx.

(** ** Stored proofs *)

Definition proof_fields : list bytes := [cs "block_hash"; cs "block_height"; cs "merkle_index"; cs "vout"; cs "sats"; cs "scriptpubkey"; cs "verified"].
Lemma pkey_inj n txid f f' : is_net n -> length txid = 64%nat -> f ∈ proof_fields -> f' ∈ proof_fields -> pkey n txid f = pkey n txid f' -> f = f'.
Proof.
  intros Hn Ht Hf Hf'. assert (forall g, g ∈ proof_fields -> pkey n txid g = spv_key n (cs "proof:" ++ txid ++ cs ":" ++ g)) as E.
  { intros g Hg. assert (length g <= 16)%nat by (revert g Hg; apply Forall_forall, (bool_decide_eq_true_1 _); vm_compute; reflexivity).
    unfold pkey, snprintf_s, spv_key. rewrite take_ge; [done|]. rewrite !length_app, (net_length n Hn), Ht. cbn. lia. }
  rewrite !E by done. intros H%spv_key_inj%app_inv_head%app_inv_head. by apply app_inv_head in H.
Qed.

Lemma stage_proof_find n txid kvs f v : is_net n -> length txid = 64%nat -> kvs.*1 = proof_fields -> f ∈ proof_fields -> kv_find kvs f = Some v ->
  kv_find (keyed (pkey n txid) kvs) (pkey n txid f) = Some v.
Proof.
  intros Hn Ht Hk Hf Hv. rewrite kv_find_keyed; [done|]. intros g Hg. rewrite Hk in Hg. by apply pkey_inj.
Qed.

(** A proof that was staged is read back, with the confirmations of now. *)
Theorem stored_proof_roundtrip network n get p vout sats spk script_sz ps : normnet network = Some n ->
  length (bp_txid p) = 64%nat -> (length (bp_block_hash p) <= 64)%nat -> in_u64 (bp_block_height p) -> in_u64 (bp_merkle_index p) ->
  in_i32 vout -> in_i64 sats -> (length spk <= script_sz - 1)%nat ->
  qrx_btc_spv_stage_proof network p vout sats spk = Some ps ->
  let get' := over ps get in
  qrx_btc_spv_get_stored_proof get' network (bp_txid p) script_sz =
    '(conf, act) ← qrx_btc_spv_confirmations get' n (bp_block_hash p) (bp_block_height p);
    Some (mkProof (bp_txid p) (bp_block_hash p) (bp_block_height p) conf (bp_merkle_index p) 1 (if act : bool then 1 else 0), vout, sats, spk).
Proof.
  intros Hnet Ht Hb Hh Hi Hv Hs Hsz. pose proof (normnet_net _ _ Hnet) as Hn. unfold qrx_btc_spv_stage_proof. rewrite Hnet. cbn [mbind option_bind]. intros E.
  set (kvs := [(cs "block_hash", bp_block_hash p); (cs "block_height", print_u (bp_block_height p)); (cs "merkle_index", print_u (bp_merkle_index p));
    (cs "vout", print_u (u64 vout)); (cs "sats", print_u (u64 sats)); (cs "scriptpubkey", spk); (cs "verified", cs "1")]).
  assert (ps = keyed (pkey n (bp_txid p)) kvs) as -> by (by injection E as <-). clear E. set (get' := over (keyed (pkey n (bp_txid p)) kvs) get).
  assert (forall f v, f ∈ proof_fields -> kv_find kvs f = Some v -> get' (pkey n (bp_txid p) f) = Some v) as Hg.
  { intros f v Hf Hfv. unfold get', over. by rewrite (stage_proof_find n (bp_txid p) kvs f v). }
  clearbody get'. unfold qrx_btc_spv_get_stored_proof. rewrite Hnet. cbn [mbind option_bind]. rewrite decide_False by lia.
  assert (forall sz f v, f ∈ proof_fields -> kv_find kvs f = Some v -> (length v <= sz - 1)%nat -> db_get get' (pkey n (bp_txid p) f) sz = Some v) as Hg1
    by (intros sz f v Hf Hfv Hl; apply get_str_put; [done|by apply Hg]).
  assert (forall f v, f ∈ proof_fields -> kv_find kvs f = Some (print_u v) -> in_u64 v -> db_get_u64 get' (pkey n (bp_txid p) f) = Some v) as Hg2
    by (intros f v Hf Hfv Hl; apply get_u64_put; [done|by apply Hg]).
  assert (length (cs "1") <= 256 - 1)%nat by (vm_compute; lia).
  rewrite (Hg1 256%nat (cs "verified") (cs "1")), (Hg1 65%nat (cs "block_hash") (bp_block_hash p)), (Hg1 script_sz (cs "scriptpubkey") spk),
    (Hg2 (cs "block_height") (bp_block_height p)), (Hg2 (cs "merkle_index") (bp_merkle_index p)), (Hg2 (cs "vout") (u64 vout)), (Hg2 (cs "sats") (u64 sats));
    try (match goal with |- _ ∈ _ => apply (bool_decide_eq_true_1 _); vm_compute; reflexivity | |- kv_find _ _ = _ => reflexivity end); try assumption; try apply u64_range.
  cbn [mbind option_bind]. rewrite decide_False by tauto.
  assert (i32 (u64 vout) = vout) as -> by (unfold i32, u64; word). assert (i64 (u64 sats) = sats) as -> by (unfold i64, u64; word). done.
Qed.
