(* ===== verification/SpvScenarios.v ===== *)
(** * Bitcoin headers and payments: scenarios

    Runs with integers as big numbers and a small hash: on the test chain, one
    header, then two on a branch beside it, which becomes the best chain; a
    payment in a block. *)

From stdpp Require Import gmap sorting.
From S2P Require Import Prelude Format Mvcc MvccSerial MvccLedger MvccExec MvccBook Spv SpvProof SpvTarget SpvState SpvChain SpvBest SpvNode SpvMerkle SpvPayments.

(** The last 30 bytes, backwards, and two zeros. *)
Definition toy_sha (x : bytes) : bytes := take 30 (reverse x ++ replicate 30 x00) ++ [x00; x00].
Lemma toy_sha_length x : length (toy_sha x) = 32%nat.
Proof. unfold toy_sha. rewrite length_app, length_take, length_app, length_reverse, length_replicate. cbn [length]. lia. Qed.

Definition rt : bytes := cs "regtest".
Definition rt_genesis : bytes := default [] (qrx_btc_spv_genesis_header_hex rt).
Definition le32 (v : Z) : bytes := (fun k => byte.of_Z (v / 256 ^ k)) <$> [0; 1; 2; 3].
(** A header after the one whose hex is [prev]. *)
Definition rt_next (prev root : bytes) (time nonce : Z) : bytes :=
  hex ([x01; x00; x00; x00] ++ sha256d toy_sha (default [] (hex_decode prev 80)) ++ root ++ le32 time ++ le32 0x207fffff ++ le32 nonce).


(** ** A fork *)

Definition rt_root : bytes := replicate 32 x11.
Definition rt_a1 : bytes := rt_next rt_genesis rt_root 1296688700 1.
Definition rt_b1 : bytes := rt_next rt_genesis rt_root 1296688800 2.
Definition rt_b2 : bytes := rt_next rt_b1 rt_root 1296688900 3.
Definition rt_events : list spv_event := [EvInit; EvHeader rt_a1; EvHeader rt_b1; EvHeader rt_b2; EvHeader (cs "00")].
Definition rt_state : bytes -> option bytes := foldl (spv_step toy_sha rt) (fun _ => None) rt_events.
Definition rt_hash (h : bytes) : bytes := header_hash_from_raw toy_sha (default [] (hex_decode h 80)).

Lemma rt_best : bool_decide (best_hash rt rt_state = Some (rt_hash rt_b2)) = true.
Proof. vm_compute. reflexivity. Qed.
Lemma rt_empty : spv_empty rt (fun _ => None).
Proof. split; [done|]. split; [|done]. intros h. unfold header, load_header_hash. by case_decide. Qed.

Lemma spv_chain_of_most_work_witness : normnet rt = Some rt /\ spv_ok toy_sha rt rt_state 6 /\ best_hash rt rt_state = Some (rt_hash rt_b2).
Proof.
  pose proof (bool_decide_eq_true_1 _ rt_best) as Hb. split; [reflexivity|]. split; [|exact Hb].
  destruct (spv_chain_of_most_work toy_sha toy_sha_length rt rt (fun _ => None) rt_events eq_refl rt_empty) as [[E _]|H].
  - reflexivity.
  - exfalso. change (best_hash rt rt_state = None) in E. rewrite E in Hb. discriminate Hb.
  - exact H.
Defined.

Lemma retarget_bounds_witness : 0 < wanted 0x1b0404cb 0x1d00ffff 1000000 /\
  exists c, qrx_btc_spv_retarget_bits 0x1b0404cb 0x1d00ffff 1000000 = Some c /\ compact_fits c /\ 0 < c < 2 ^ 32 /\
    compact_val c <= wanted 0x1b0404cb 0x1d00ffff 1000000 /\ (wanted 0x1b0404cb 0x1d00ffff 1000000 - compact_val c) * 2 ^ 15 <= compact_val c.
Proof.
  assert (0 < wanted 0x1b0404cb 0x1d00ffff 1000000) as Hw by (vm_compute; reflexivity). split; [exact Hw|].
  apply (retarget_bounds 0x1b0404cb 0x1d00ffff 1000000); [lia|lia| | |exact Hw]; apply (bool_decide_eq_true_1 _); vm_compute; reflexivity.
Defined.

(** ** A payment *)

Definition pay_tx : bytes := replicate 32 x22.
Definition pay_other : bytes := replicate 32 x33.
Definition pay_leaves : list bytes := [pay_tx; pay_other].
Definition pay_root : bytes := default [] (bitcoin_root toy_sha 2 pay_leaves).
Definition pay_block : bytes := rt_next rt_genesis pay_root 1296688700 1.
Definition pay_hash : bytes := rt_hash pay_block.
(** The database after the block, as a list. *)
Definition pay_db : puts :=
  default [] (qrx_btc_spv_init toy_sha (fun _ => None) rt) ++
  default [] (snd <$> qrx_btc_spv_stage_header toy_sha (over (default [] (qrx_btc_spv_init toy_sha (fun _ => None) rt)) (fun _ => None)) rt pay_block).
Definition pay_get : bytes -> option bytes := over pay_db (fun _ => None).
Definition pay_info : QrxBtcSpvHeaderInfo := default (mkHeader [] [] [] [] [] 0 0 0 0 0 0) (qrx_btc_spv_get_header pay_get rt pay_hash).

(** What the proofs look at. *)
Definition pay_facts : bool :=
  match qrx_btc_spv_get_header pay_get rt pay_hash, qrx_btc_spv_confirmations pay_get rt pay_hash 1, bitcoin_root toy_sha 2 pay_leaves with
  | Some i, Some (conf, true), Some r =>
      bool_decide (si_merkle_root i = field_hash_display pay_root /\ si_height i = 1 /\ conf = 1 /\ length pay_hash = 64%nat /\ r = pay_root)
  | _, _, _ => false
  end.
Lemma pay_facts_ok : pay_facts = true.
Proof. vm_compute. reflexivity. Qed.
Lemma pay_block_facts : exists i, qrx_btc_spv_get_header pay_get rt pay_hash = Some i /\ si_merkle_root i = field_hash_display pay_root /\ si_height i = 1 /\
  qrx_btc_spv_confirmations pay_get rt pay_hash 1 = Some (1, true) /\ length pay_hash = 64%nat /\ bitcoin_root toy_sha 2 pay_leaves = Some pay_root.
Proof.
  pose proof pay_facts_ok as H. unfold pay_facts in H. revert H.
  generalize (qrx_btc_spv_get_header pay_get rt pay_hash), (qrx_btc_spv_confirmations pay_get rt pay_hash 1), (bitcoin_root toy_sha 2 pay_leaves).
  intros [i|] [[conf [|]]|] [r|] H; try discriminate H. apply bool_decide_eq_true_1 in H as (H1 & H2 & -> & H3 & ->).
  exists i. exact (conj eq_refl (conj H1 (conj H2 (conj eq_refl (conj H3 eq_refl))))).
Qed.

Definition pay_csv (i : nat) : bytes := join_csv (field_hash_display <$> bitcoin_branch toy_sha 2 i pay_leaves).
Abbreviation pay_verify t i csv := (qrx_btc_spv_verify_merkle toy_sha pay_get rt t pay_hash i csv).

Lemma merkle_complete_witness :
  pay_verify (field_hash_display pay_tx) 0 (pay_csv 0) = Some (mkProof (field_hash_display pay_tx) pay_hash 1 1 0 1 1).
Proof.
  destruct pay_block_facts as (i & H1 & H2 & H3 & H4 & H5 & H6).
  assert (Forall (fun d => length d = 32%nat) pay_leaves) as Hl by (apply (bool_decide_eq_true_1 _); vm_compute; reflexivity).
  pose proof (merkle_complete toy_sha toy_sha_length pay_get rt rt pay_leaves 0 pay_tx pay_root pay_hash i 1 eq_refl H5 Hl eq_refl H6 H1 H2) as T.
  rewrite H3 in T. exact (T H4).
Defined.

(** The small hash only sees the end of a pair: another transaction has the
    same proof. *)
Definition pay_wrong : bytes := field_hash_display (replicate 32 x44).
Definition accepted (o : option QrxBtcSpvProofResult) : bool := match o with Some _ => true | None => false end.
Lemma pay_accepted : accepted (pay_verify (field_hash_display pay_tx) 0 (pay_csv 0)) && accepted (pay_verify pay_wrong 0 (pay_csv 0)) = true.
Proof. vm_compute. reflexivity. Qed.
Lemma accepted_some o : accepted o = true -> exists p, o = Some p.
Proof. destruct o as [p|]; [by exists p|done]. Qed.

Lemma merkle_sound_witness : accepted (pay_verify pay_wrong 0 (pay_csv 0)) = true /\
  exists x y, x <> y /\ length x = 64%nat /\ length y = 64%nat /\ sha256d toy_sha x = sha256d toy_sha y.
Proof.
  pose proof pay_accepted as H. apply andb_true_iff in H as [Ha Hb]. split; [exact Hb|].
  destruct (accepted_some _ Ha) as [p1 H1], (accepted_some _ Hb) as [p2 H2].
  apply (merkle_sound toy_sha toy_sha_length pay_get rt pay_hash (field_hash_display pay_tx) pay_wrong 0 0 (pay_csv 0) (pay_csv 0) p1 p2);
    [lia|lia|exact H1|exact H2|reflexivity|reflexivity|vm_compute; reflexivity].
Defined.

Lemma merkle_index_free_witness : exists q, pay_verify (field_hash_display pay_tx) (0 + 3 * 2 ^ 1) (pay_csv 0) = Some q /\ bp_merkle_index q = 6 /\ bp_merkle_valid q = 1.
Proof.
  pose proof pay_accepted as H. apply andb_true_iff in H as [Ha _]. destruct (accepted_some _ Ha) as [p H1].
  assert (length (branch_tokens (pay_csv 0)) = 1%nat) as Hl by (vm_compute; reflexivity).
  pose proof (merkle_index_free toy_sha pay_get rt (field_hash_display pay_tx) pay_hash 0 (pay_csv 0) p 3) as T. rewrite Hl in T. apply T; [lia|lia|exact H1].
Defined.

(** ** A transaction *)

Definition pay_script : bytes := [x00; x14; xaa].
Definition pay_full : Tx :=
  mkTx [x02; x00; x00; x00] [mkTxIn (replicate 36 x11) [] [xff; xff; xff; xff] [[x01; x02]; []]] [mkTxOut 7 pay_script; mkTxOut 500 pay_script] [x00; x00; x00; x00].
Lemma pay_full_ok : tx_ok pay_full.
Proof.
  split; try done; try (apply Forall_cons_2; [|apply Forall_nil_2]).
  - split; try done. repeat apply Forall_cons_2; try apply Forall_nil_2; unfold blen; cbn [length]; word.
  - repeat apply Forall_cons_2; try apply Forall_nil_2; unfold blen; cbn; word.
Qed.

Lemma tx_output_found_witness : qrx_btc_tx_find_output toy_sha (hex (ser_segwit x01 pay_full)) 500 (hex pay_script) =
  Some (mkMatchOut (field_hash_display (sha256d toy_sha (ser_legacy pay_full))) 1 500).
Proof. rewrite (tx_output_found toy_sha (Some x01) pay_full 500 pay_script pay_full_ok); [reflexivity|word|done|vm_compute; discriminate]. Defined.

Definition pay_proof : QrxBtcSpvProofResult := mkProof (field_hash_display pay_tx) pay_hash 1 1 0 1 1.
Definition pay_staged : puts := default [] (qrx_btc_spv_stage_proof rt pay_proof 1 500 (cs "0014aa")).
Lemma pay_confirmed : match qrx_btc_spv_confirmations (over pay_staged pay_get) rt pay_hash 1 with Some (1, true) => true | _ => false end = true.
Proof. vm_compute. reflexivity. Qed.

Lemma stored_proof_roundtrip_witness : qrx_btc_spv_stage_proof rt pay_proof 1 500 (cs "0014aa") = Some pay_staged /\
  qrx_btc_spv_get_stored_proof (over pay_staged pay_get) rt (field_hash_display pay_tx) 520 = Some (pay_proof, 1, 500, cs "0014aa").
Proof.
  assert (qrx_btc_spv_stage_proof rt pay_proof 1 500 (cs "0014aa") = Some pay_staged) as Hs by reflexivity. split; [exact Hs|].
  assert (length (bp_txid pay_proof) = 64%nat) as H1 by (vm_compute; reflexivity). assert (length pay_hash <= 64)%nat as H2 by (vm_compute; lia).
  pose proof (stored_proof_roundtrip rt rt pay_get pay_proof 1 500 (cs "0014aa") 520 pay_staged eq_refl H1 H2 ltac:(cbn; word) ltac:(cbn; word)
    ltac:(word) ltac:(word) ltac:(cbn; lia) Hs) as T. cbv zeta in T. pose proof pay_confirmed as Hc. revert T Hc.
  change (bp_block_hash pay_proof) with pay_hash. change (bp_block_height pay_proof) with 1.
  generalize (qrx_btc_spv_confirmations (over pay_staged pay_get) rt pay_hash 1). intros [[conf [|]]|] T Hc; [|destruct conf as [|[]|]; discriminate Hc|discriminate Hc].
  assert (conf = 1) as -> by (destruct conf as [|[]|]; first [reflexivity|discriminate Hc]). exact T.
Defined.
