(* ===== verification/DriveMerkle.v ===== *)
(** * Merkle trees of the drive (src/qrx-core/src/storage/qrx_merkle.c, .h)

    Hashes of chunks in a binary tree whose width is a power of two; the last
    leaf stands in for the missing ones.  SHA3-512 is a parameter.  Built proofs
    are accepted; an accepted proof of a chunk shows that the chunk is the one of
    the tree, whatever depth the proof claims, or one of the inputs hashed to
    check it has the hash of another input, of those hashed to build the tree. *)

From stdpp Require Import list sets.
From S2P Require Import Prelude Format.

Definition QRX_MERKLE_HASH_BYTES : nat := 64.
Definition QRX_MERKLE_MAX_DEPTH : Z := 64.

Record QrxMerkleProof := mkMerkleProof { mp_leaf_index : Z; mp_leaf_count : Z; mp_depth : Z; mp_siblings : list bytes }.

Definition put_u64be (v : Z) : bytes := rev (le_split 8 v).

Section merkle.
Variable sha3_512 : bytes -> bytes.

Definition leaf_domain : bytes := cs "QRX-MERKLE-LEAF-V1".
Definition node_domain : bytes := cs "QRX-MERKLE-NODE-V1".
Definition chunk_leaf_input (index : Z) (data : bytes) : bytes := leaf_domain ++ put_u64be index ++ data.
Definition tree_node_input (left right : bytes) : bytes := node_domain ++ left ++ right.
Definition qrx_merkle_leaf_hash (index : Z) (data : bytes) : bytes := sha3_512 (chunk_leaf_input index data).
Definition node_hash (left right : bytes) : bytes := sha3_512 (tree_node_input left right).

(** 0 when the power is too large. *)
Fixpoint next_pow2_loop (fuel : nat) (p n : Z) : Z :=
  if decide (p < n) then
    if decide (p > SIZE_MAX / 2) then 0 else match fuel with O => 0 | S fuel => next_pow2_loop fuel (2 * p) n end
  else p.
Definition next_pow2 (n : Z) : Z := if decide (n = 0) then 0 else next_pow2_loop 64 1 n.

(** The leaves on the full width. *)
Definition pad_leaves (leaves : list bytes) : option (list bytes) :=
  let width := next_pow2 (Z.of_nat (length leaves)) in
  if decide (leaves = [] \/ width = 0 \/ width > SIZE_MAX / 64) then None
  else Some (leaves ++ replicate (Z.to_nat width - length leaves) (default [] (last leaves))).

Fixpoint level_up (level : list bytes) : list bytes :=
  match level with a :: b :: level => node_hash a b :: level_up level | _ => [] end.
Fixpoint root_loop (fuel : nat) (level : list bytes) : option bytes :=
  match level with
  | [] => None
  | [r] => Some r
  | _ => match fuel with O => None | S fuel => root_loop fuel (level_up level) end
  end.
(** Widths are at most 2^58. *)
Definition qrx_merkle_root_from_leaves (leaves : list bytes) : option bytes := level ← pad_leaves leaves; root_loop 64 level.

(** The pieces of [chunk_size] bytes. *)
Definition chunk (data : bytes) (chunk_size : Z) (i : nat) : bytes := take (Z.to_nat chunk_size) (drop (i * Z.to_nat chunk_size) data).
Definition qrx_merkle_root_from_chunks (data : bytes) (chunk_size : Z) : option (bytes * Z) :=
  if decide (chunk_size = 0) then None
  else
    let leaves := if decide (data = []) then 1 else ((blen data +64 chunk_size) -64 1) / chunk_size in
    if decide (leaves > SIZE_MAX / 64) then None
    else
      r ← qrx_merkle_root_from_leaves ((fun i => qrx_merkle_leaf_hash (Z.of_nat i) (chunk data chunk_size i)) <$> seq 0 (Z.to_nat leaves));
      Some (r, leaves).

Fixpoint proof_loop (fuel : nat) (idx : Z) (level siblings : list bytes) : option (list bytes) :=
  match level with
  | [] | [_] => Some siblings
  | _ =>
      if decide (Z.of_nat (length siblings) >= QRX_MERKLE_MAX_DEPTH) then None
      else match fuel with
           | O => None
           | S fuel => proof_loop fuel (Z.shiftr idx 1) (level_up level) (siblings ++ [default [] (level !! Z.to_nat (Z.lxor idx 1))])
           end
  end.
Definition qrx_merkle_build_proof_from_leaves (leaves : list bytes) (leaf_index : Z) : option QrxMerkleProof :=
  if decide (leaf_index >= Z.of_nat (length leaves)) then None
  else
    level ← pad_leaves leaves;
    siblings ← proof_loop 65 leaf_index level [];
    Some (mkMerkleProof leaf_index (Z.of_nat (length leaves)) (Z.of_nat (length siblings)) siblings).

(** One step up, on the side that the index says. *)
Definition path_step (idx : Z) (cur sibling : bytes) : bytes := if Z.odd idx then node_hash sibling cur else node_hash cur sibling.
Fixpoint path_fold (siblings : list bytes) (idx : Z) (cur : bytes) : bytes :=
  match siblings with [] => cur | s :: siblings => path_fold siblings (Z.shiftr idx 1) (path_step idx cur s) end.

(** The array of a proof has [QRX_MERKLE_MAX_DEPTH] entries; those behind the
    list are zero. *)
Definition proof_path (p : QrxMerkleProof) : list bytes :=
  (fun d => default (replicate QRX_MERKLE_HASH_BYTES x00) (mp_siblings p !! d)) <$> seq 0 (Z.to_nat (mp_depth p)).
Definition qrx_merkle_verify_proof (leaf_hash : bytes) (p : QrxMerkleProof) (expected_root : bytes) : Z :=
  if decide (mp_leaf_count p = 0 \/ mp_leaf_index p >= mp_leaf_count p \/ mp_depth p > QRX_MERKLE_MAX_DEPTH) then -1
  else if decide (path_fold (proof_path p) (mp_leaf_index p) leaf_hash = expected_root) then 0 else -1.
End merkle.

Section proofs.
Variable sha3_512 : bytes -> bytes.
Hypothesis sha3_512_length : forall x, length (sha3_512 x) = QRX_MERKLE_HASH_BYTES.
Abbreviation node := (node_hash sha3_512).
Abbreviation leaf := (qrx_merkle_leaf_hash sha3_512).
Abbreviation up := (level_up sha3_512).

(** An input of [V] and another of [T] with one hash.  Both lists are short and
    given, so this says more than that the hash is not injective. *)
Definition collide (V T : list bytes) : Prop := exists x y, x ∈ V /\ y ∈ T /\ x <> y /\ sha3_512 x = sha3_512 y.
Lemma collide_mono V T V' T' : V ⊆ V' -> T ⊆ T' -> collide V T -> collide V' T'.
Proof using. intros HV HT (x & y & Hx & Hy & H). exists x, y. split_and!; [by apply HV|by apply HT|apply H..]. Qed.

Definition is_hash (x : bytes) : Prop := length x = QRX_MERKLE_HASH_BYTES.
Lemma node_is_hash a b : is_hash (node a b).
Proof using sha3_512_length. apply sha3_512_length. Qed.

Lemma hash_inj V T x y : x ∈ V -> y ∈ T -> sha3_512 x = sha3_512 y -> collide V T \/ x = y.
Proof using. intros Hx Hy H. destruct (decide (x = y)); [by right|left; by exists x, y]. Qed.
Lemma node_inj V T a b a' b' : tree_node_input a b ∈ V -> tree_node_input a' b' ∈ T -> is_hash a -> is_hash a' -> node a b = node a' b' -> collide V T \/ (a = a' /\ b = b').
Proof using.
  intros HV HT Ha Ha' H. destruct (hash_inj _ _ _ _ HV HT H) as [?|E]; [by left|right]. apply app_inv_head in E. apply app_inj_1 in E; [done|]. unfold is_hash in *. congruence.
Qed.
Lemma chunk_not_node i data a b : chunk_leaf_input i data <> tree_node_input a b.
Proof using. intros E. by apply (app_inj_1 leaf_domain node_domain) in E as [E _]. Qed.
Lemma leaf_inj V T i data data' : chunk_leaf_input i data ∈ V -> chunk_leaf_input i data' ∈ T -> leaf i data = leaf i data' -> collide V T \/ data = data'.
Proof using. intros HV HT H. destruct (hash_inj _ _ _ _ HV HT H) as [?|E]; [by left|right]. by apply app_inv_head, app_inv_head in E. Qed.

(** ** The tree *)

(** The root of a tree of [d] levels over [2 ^ d] leaves. *)
Fixpoint tree (d : nat) (l : list bytes) : bytes :=
  match d with O => default [] (head l) | S d => node (tree d (take (2 ^ d) l)) (tree d (drop (2 ^ d) l)) end.

Lemma up_lookup l : forall j a b, l !! (2 * j)%nat = Some a -> l !! (2 * j + 1)%nat = Some b -> up l !! j = Some (node a b).
Proof using.
  assert (forall k l j a b, (length l <= k)%nat -> l !! (2 * j)%nat = Some a -> l !! (2 * j + 1)%nat = Some b -> up l !! j = Some (node a b)) as H;
    [|intros j a b; by apply (H (length l))].
  clear l. induction k as [|k IH]; intros [|x [|y l]] j a b Hk Ha Hb; cbn [length] in Hk; try done; try lia.
  { destruct j as [|j]; [done|]. replace (2 * S j + 1)%nat with (S (S (2 * j + 1)))%nat in Hb by lia. done. }
  destruct j as [|j]; [by injection Ha as ->; injection Hb as ->|]. cbn [level_up].
  replace (2 * S j)%nat with (S (S (2 * j))) in Ha, Hb by lia. apply (IH l j a b); [lia|done|done].
Qed.
Lemma up_length d l : length l = (2 ^ S d)%nat -> length (up l) = (2 ^ d)%nat.
Proof using.
  assert (forall k l, length l = (2 * k)%nat -> length (up l) = k) as H.
  { induction k as [|k IH]; intros [|x [|y m]] Hm; cbn [length] in Hm; try done; try lia. cbn [level_up length]. f_equal. apply IH. lia. }
  intros Hl. apply H. rewrite Hl. cbn [Nat.pow]. lia.
Qed.
Lemma up_take k l : up (take (2 * k) l) = take k (up l).
Proof using.
  revert l. induction k as [|k IH]; intros l; [done|]. replace (2 * S k)%nat with (S (S (2 * k))) by lia.
  destruct l as [|x [|y l]]; [done|done|]. cbn [take level_up]. by rewrite IH.
Qed.
Lemma up_drop k l : up (drop (2 * k) l) = drop k (up l).
Proof using.
  revert l. induction k as [|k IH]; intros l; [done|]. replace (2 * S k)%nat with (S (S (2 * k))) by lia.
  destruct l as [|x [|y l]]; [done|cbn [drop level_up]; by rewrite ?drop_nil|]. cbn [drop level_up]. apply IH.
Qed.

Lemma tree_up d l : length l = (2 ^ S d)%nat -> tree (S d) l = tree d (up l).
Proof using.
  revert l. induction d as [|d IH]; intros l Hl.
  - destruct l as [|x [|y [|z l]]]; cbn in Hl; try lia. done.
  - assert (2 ^ S (S d) = 2 ^ S d + 2 ^ S d)%nat as E by (cbn [Nat.pow]; lia).
    change (tree (S (S d)) l) with (node (tree (S d) (take (2 ^ S d) l)) (tree (S d) (drop (2 ^ S d) l))).
    rewrite !IH by (rewrite ?length_take, ?length_drop; lia). change (2 ^ S d)%nat with (2 * 2 ^ d)%nat. rewrite up_take, up_drop. done.
Qed.

(** What is hashed above the leaves [l]: from the root down, and as
    [root_loop] does it, level by level. *)
Fixpoint tree_inputs (d : nat) (l : list bytes) : list bytes :=
  match d with
  | O => []
  | S d => let l1 := take (2 ^ d) l in let l2 := drop (2 ^ d) l in tree_node_input (tree d l1) (tree d l2) :: tree_inputs d l1 ++ tree_inputs d l2
  end.
Fixpoint level_inputs (level : list bytes) : list bytes :=
  match level with a :: b :: level => tree_node_input a b :: level_inputs level | _ => [] end.
Fixpoint root_inputs (fuel : nat) (level : list bytes) : list bytes :=
  match level with
  | [] | [_] => []
  | _ => level_inputs level ++ match fuel with O => [] | S fuel => root_inputs fuel (level_up sha3_512 level) end
  end.
Lemma level_inputs_split k l : level_inputs l = level_inputs (take (2 * k) l) ++ level_inputs (drop (2 * k) l).
Proof using.
  revert l. induction k as [|k IH]; intros l; [done|]. replace (2 * S k)%nat with (S (S (2 * k))) by lia.
  destruct l as [|x [|y l]]; [done|cbn [take drop level_inputs]; by rewrite ?drop_nil|]. cbn [take drop level_inputs app]. f_equal. apply IH.
Qed.
Lemma tree_inputs_up d : forall l, length l = (2 ^ S d)%nat -> tree_inputs (S d) l ⊆ level_inputs l ++ tree_inputs d (up l).
Proof using.
  clear sha3_512_length. induction d as [|d IH]; intros l Hl.
  - destruct l as [|x [|y [|z l]]]; cbn in Hl; try lia. cbn. set_solver.
  - assert (2 ^ S (S d) = 2 ^ S d + 2 ^ S d)%nat as E by (cbn [Nat.pow]; lia).
    assert (length (take (2 ^ S d) l) = 2 ^ S d /\ length (drop (2 ^ S d) l) = 2 ^ S d)%nat as [Hl1 Hl2] by (rewrite length_take, length_drop; lia).
    change (tree_inputs (S (S d)) l) with (tree_node_input (tree (S d) (take (2 ^ S d) l)) (tree (S d) (drop (2 ^ S d) l)) ::
      tree_inputs (S d) (take (2 ^ S d) l) ++ tree_inputs (S d) (drop (2 ^ S d) l)).
    pose proof (IH _ Hl1) as H1. pose proof (IH _ Hl2) as H2. rewrite !tree_up by done. change (2 ^ S d)%nat with (2 * 2 ^ d)%nat in *.
    rewrite up_take in *. rewrite up_drop in *. rewrite (level_inputs_split (2 ^ d) l). cbn [tree_inputs]. set_solver.
Qed.
Lemma pow2_two d : (2 <= 2 ^ S d)%nat.
Proof using. pose proof (Nat.pow_nonzero 2 d ltac:(lia)). cbn [Nat.pow]. lia. Qed.

Lemma root_loop_tree d : forall fuel l, length l = (2 ^ d)%nat -> (d <= fuel)%nat -> root_loop sha3_512 fuel l = Some (tree d l).
Proof using.
  induction d as [|d IH]; intros fuel l Hl Hf.
  - destruct l as [|x [|y l]]; [done| |by cbn in Hl; lia]. by destruct fuel.
  - rewrite tree_up by done. rewrite <- (IH (pred fuel) (up l)); [|by apply up_length|lia]. pose proof (pow2_two d) as H2. rewrite <- Hl in H2.
    destruct fuel as [|fuel]; [lia|]. destruct l as [|x [|y l]]; [cbn in H2; lia|cbn in H2; lia|done].
Qed.

Lemma root_inputs_tree d : forall fuel l, length l = (2 ^ d)%nat -> (d <= fuel)%nat -> tree_inputs d l ⊆ root_inputs fuel l.
Proof using.
  clear sha3_512_length. induction d as [|d IH]; intros fuel l Hl Hf; [intros x Hx; by apply not_elem_of_nil in Hx|].
  pose proof (tree_inputs_up d l Hl) as Hu. pose proof (IH (pred fuel) (up l) (up_length _ _ Hl) ltac:(lia)) as Hr. pose proof (pow2_two d) as H2. rewrite <- Hl in H2.
  destruct fuel as [|fuel]; [lia|]. destruct l as [|x [|y l]]; [cbn in H2; lia|cbn in H2; lia|]. cbn [Nat.pred] in Hr.
  change (root_inputs (S fuel) (x :: y :: l)) with (level_inputs (x :: y :: l) ++ root_inputs fuel (up (x :: y :: l))).
  intros z [Hz|Hz]%Hu%elem_of_app; apply elem_of_app; [by left|right; by apply Hr].
Qed.

(** ** Paths *)

(** The siblings above leaf [i]. *)
Fixpoint path (d : nat) (i : Z) (l : list bytes) : list bytes :=
  match d with O => [] | S d => default [] (l !! Z.to_nat (Z.lxor i 1)) :: path d (Z.shiftr i 1) (up l) end.
Lemma path_length d i l : length (path d i l) = d.
Proof using. revert i l. induction d as [|d IH]; intros i l; [done|]. cbn [path length]. by rewrite IH. Qed.

Lemma proof_loop_path d : forall fuel i l acc, length l = (2 ^ d)%nat -> (d < fuel)%nat -> Z.of_nat (length acc + d) <= QRX_MERKLE_MAX_DEPTH ->
  proof_loop sha3_512 fuel i l acc = Some (acc ++ path d i l).
Proof using.
  induction d as [|d IH]; intros fuel i l acc Hl Hf Ha.
  - destruct l as [|x [|y l]]; [done| |by cbn in Hl; lia]. cbn [path]. rewrite app_nil_r. by destruct fuel.
  - pose proof (pow2_two d) as H2. rewrite <- Hl in H2. destruct l as [|x [|y l]]; [cbn in H2; lia|cbn in H2; lia|].
    destruct fuel as [|fuel]; [lia|]. cbn [proof_loop]. rewrite decide_False by lia. rewrite IH; [|by apply up_length|lia|rewrite length_app; cbn [length]; lia].
    cbn [path]. by rewrite <- app_assoc.
Qed.

Lemma lxor_bit q (b : bool) : Z.lxor (2 * q + Z.b2z b) 1 = 2 * q + Z.b2z (negb b).
Proof using.
  apply Z.bits_inj_iff'. intros k Hk. rewrite Z.lxor_spec. destruct (decide (k = 0)) as [->|Hk0].
  - rewrite !Z.testbit_0_r. by destruct b.
  - replace k with (Z.succ (k - 1)) by lia. rewrite !Z.testbit_succ_r, (Z.bits_above_log2 1) by (cbn; lia). by rewrite xorb_false_r.
Qed.
Lemma lxor_one i : Z.lxor i 1 = if Z.odd i then i - 1 else i + 1.
Proof using. rewrite (Z.div2_odd i) at 1. rewrite lxor_bit. pose proof (Z.div2_odd i). destruct (Z.odd i); cbn [Z.b2z negb] in *; lia. Qed.

(** One step of the path of leaf [i]. *)
Lemma path_step_up l i x : length l = (2 * (length l / 2))%nat -> l !! Z.to_nat i = Some x -> 0 <= i ->
  exists s, l !! Z.to_nat (Z.lxor i 1) = Some s /\ up l !! Z.to_nat (Z.shiftr i 1) = Some (path_step sha3_512 i x s).
Proof using.
  intros Hl Hx Hi. rewrite lxor_one. pose proof (lookup_lt_Some _ _ _ Hx) as Hlt. rewrite Z.shiftr_div_pow2 by lia. change (2 ^ 1) with 2.
  pose proof (Zmod_odd i) as Ho. unfold path_step. destruct (Z.odd i).
  - destruct (lookup_lt_is_Some_2 l (Z.to_nat (i - 1))) as [s Hs]; [lia|]. exists s. split; [done|]. apply up_lookup.
    + rewrite <- Hs. f_equal. dlia.
    + rewrite <- Hx. f_equal. dlia.
  - destruct (lookup_lt_is_Some_2 l (Z.to_nat (i + 1))) as [s Hs]; [dlia|]. exists s. split; [done|]. apply up_lookup.
    + rewrite <- Hx. f_equal. dlia.
    + rewrite <- Hs. f_equal. dlia.
Qed.

Lemma path_complete d : forall i l x, length l = (2 ^ d)%nat -> 0 <= i -> l !! Z.to_nat i = Some x -> path_fold sha3_512 (path d i l) i x = tree d l.
Proof using.
  induction d as [|d IH]; intros i l x Hl Hi Hx.
  - destruct l as [|y [|z l]]; [done| |by cbn in Hl; lia]. pose proof (lookup_lt_Some _ _ _ Hx) as Hlt. cbn in Hlt. replace (Z.to_nat i) with 0%nat in Hx by lia.
    by injection Hx as ->.
  - destruct (path_step_up l i x) as (s & Hs & Hu); [rewrite Hl; cbn [Nat.pow]; rewrite Nat.mul_comm, Nat.div_mul by lia; lia|done|done|].
    cbn [path path_fold]. rewrite Hs. cbn [default]. rewrite tree_up by done. apply IH; [by apply up_length| |done]. rewrite Z.shiftr_div_pow2 by lia. change (2 ^ 1) with 2. dlia.
Qed.

(** ** What an accepted path shows *)

Lemma path_fold_snoc s t i cur : 0 <= i -> path_fold sha3_512 (s ++ [t]) i cur = path_step sha3_512 (Z.shiftr i (Z.of_nat (length s))) (path_fold sha3_512 s i cur) t.
Proof using.
  revert i cur. induction s as [|x s IH]; intros i cur Hi; [cbn; by rewrite Z.shiftr_0_r|]. cbn [app path_fold length].
  rewrite IH by (apply Z.shiftr_nonneg; lia). rewrite Z.shiftr_shiftr by lia. do 2 f_equal. lia.
Qed.
Lemma path_fold_hash s i cur : is_hash cur -> is_hash (path_fold sha3_512 s i cur).
Proof using sha3_512_length.
  revert i cur. induction s as [|x s IH]; intros i cur Hc; [done|]. cbn [path_fold]. apply IH. unfold path_step. destruct (Z.odd i); apply node_is_hash.
Qed.
Lemma tree_hash d l : length l = (2 ^ d)%nat -> Forall is_hash l -> is_hash (tree d l).
Proof using sha3_512_length.
  destruct d as [|d]; intros Hl Hf; [|apply node_is_hash]. destruct l as [|x l]; [done|]. by apply Forall_cons in Hf as [? _].
Qed.

(** What is hashed along a path. *)
Definition step_input (idx : Z) (cur sibling : bytes) : bytes := if Z.odd idx then tree_node_input sibling cur else tree_node_input cur sibling.
Fixpoint path_inputs (siblings : list bytes) (idx : Z) (cur : bytes) : list bytes :=
  match siblings with [] => [] | s :: siblings => step_input idx cur s :: path_inputs siblings (Z.shiftr idx 1) (path_step sha3_512 idx cur s) end.
Lemma path_inputs_snoc s t i cur : 0 <= i ->
  path_inputs (s ++ [t]) i cur = path_inputs s i cur ++ [step_input (Z.shiftr i (Z.of_nat (length s))) (path_fold sha3_512 s i cur) t].
Proof using.
  revert i cur. induction s as [|x s IH]; intros i cur Hi; [cbn; by rewrite Z.shiftr_0_r|]. cbn [app path_inputs path_fold length].
  rewrite IH by (apply Z.shiftr_nonneg; lia). rewrite Z.shiftr_shiftr by lia.
  by replace (1 + Z.of_nat (length s)) with (Z.of_nat (S (length s))) by lia.
Qed.

(** Where a path can have come from. *)
Definition path_origin (D : nat) (l s : list bytes) (i : Z) (cur : bytes) : Prop :=
  (length s = D /\ l !! Z.to_nat (i mod 2 ^ Z.of_nat D) = Some cur) \/
  (exists a b, cur = node a b /\ tree_node_input a b ∈ tree_inputs D l) \/ (exists x a b, x ∈ l /\ x = node a b /\ tree_node_input a b ∈ path_inputs s i cur).

(** The half of the tree that the path comes through. *)
Lemma path_origin_half D l (b : bool) s t i cur : length l = (2 ^ S D)%nat -> 0 <= i -> Z.testbit i (Z.of_nat (length s)) = b ->
  path_origin D (if b then drop (2 ^ D) l else take (2 ^ D) l) s i cur -> path_origin (S D) l (s ++ [t]) i cur.
Proof using.
  clear sha3_512_length. intros Hl Hi Eb Ho. set (h := if b then drop (2 ^ D) l else take (2 ^ D) l) in *.
  assert (h ⊆ l) as Hsub by (unfold h; intros x Hx; rewrite <- (take_drop (2 ^ D) l); apply elem_of_app; destruct b; tauto).
  assert (tree_inputs D h ⊆ tree_inputs (S D) l) as Ht by (unfold h; cbn [tree_inputs]; destruct b; set_solver).
  destruct Ho as [[E Ho]|[(a & c & Hc & Ho)|(x & a & c & Hx & Hc & Ho)]].
  - left. split; [rewrite length_app; cbn; lia|]. pose proof (Z.pow_pos_nonneg 2 (Z.of_nat D) ltac:(lia) ltac:(lia)) as Hp0.
    assert (Z.of_nat (2 ^ D) = 2 ^ Z.of_nat D) as Hp by (by rewrite Nat2Z.inj_pow).
    assert (i mod 2 ^ Z.of_nat (S D) = i mod 2 ^ Z.of_nat D + Z.b2z b * 2 ^ Z.of_nat D) as ->.
    { rewrite Nat2Z.inj_succ, Z.pow_succ_r, (Z.mul_comm 2), Z.rem_mul_r by lia. rewrite E in Eb. rewrite <- Eb, Z.testbit_spec' by lia. lia. }
    pose proof (Z.mod_pos_bound i _ Hp0) as Hm. unfold h in Ho. destruct b; cbn [Z.b2z].
    + rewrite lookup_drop in Ho. rewrite <- Ho. f_equal. lia.
    + apply lookup_take_Some in Ho as [Ho _]. rewrite <- Ho. f_equal. lia.
  - right. left. exists a, c. split; [done|by apply Ht].
  - right. right. exists x, a, c. split_and!; [by apply Hsub|done|]. rewrite path_inputs_snoc by done. apply elem_of_app. by left.
Qed.

Lemma path_sound D : forall l s i cur, length l = (2 ^ D)%nat -> Forall is_hash l -> Forall is_hash s -> is_hash cur -> 0 <= i ->
  path_fold sha3_512 s i cur = tree D l -> collide (path_inputs s i cur) (tree_inputs D l) \/ path_origin D l s i cur.
Proof using sha3_512_length.
  induction D as [|D IH]; intros l s i cur Hl Hf Hs Hc Hi He; destruct s as [|t s _] using rev_ind.
  - right. left. split; [done|]. destruct l as [|x [|y l]]; [done| |by cbn in Hl; lia]. change (2 ^ Z.of_nat 0) with 1. rewrite Z.mod_1_r. cbn in He. by subst.
  - right. right. right. destruct l as [|x [|y l]]; [done| |by cbn in Hl; lia]. rewrite path_inputs_snoc by done.
    rewrite path_fold_snoc in He by done. change (tree 0 [x]) with x in He. unfold path_step, step_input in *.
    destruct (Z.odd _); eexists x, _, _; (split_and!; [by left|symmetry; exact He|apply elem_of_app; right; by left]).
  - right. right. left. cbn [path_fold] in He. eexists _, _. split; [exact He|by left].
  - rewrite path_fold_snoc in He by done. apply Forall_app in Hs as [Hs Ht]. apply Forall_cons in Ht as [Ht _].
    assert (length (take (2 ^ D) l) = 2 ^ D)%nat as Hl1 by (rewrite length_take; cbn [Nat.pow] in Hl; lia).
    assert (length (drop (2 ^ D) l) = 2 ^ D)%nat as Hl2 by (rewrite length_drop; cbn [Nat.pow] in Hl; lia).
    assert (Forall is_hash (take (2 ^ D) l) /\ Forall is_hash (drop (2 ^ D) l)) as [Hf1 Hf2] by (split; [by apply Forall_take|by apply Forall_drop]).
    assert (step_input (Z.shiftr i (Z.of_nat (length s))) (path_fold sha3_512 s i cur) t ∈ path_inputs (s ++ [t]) i cur) as HV
      by (rewrite path_inputs_snoc by done; apply elem_of_app; right; by left).
    assert (tree_node_input (tree D (take (2 ^ D) l)) (tree D (drop (2 ^ D) l)) ∈ tree_inputs (S D) l) as HT by by left.
    assert (path_inputs s i cur ⊆ path_inputs (s ++ [t]) i cur) as Hsub by (rewrite path_inputs_snoc by done; set_solver).
    assert (forall b : bool, tree_inputs D (if b then drop (2 ^ D) l else take (2 ^ D) l) ⊆ tree_inputs (S D) l) as Htsub by (intros []; cbn [tree_inputs]; set_solver).
    change (tree (S D) l) with (node (tree D (take (2 ^ D) l)) (tree D (drop (2 ^ D) l))) in He. unfold path_step, step_input in He, HV. rewrite <- Z.testbit_odd in He, HV.
    destruct (Z.testbit i (Z.of_nat (length s))) eqn:Eb; (edestruct node_inj as [?|[H1 H2]];
      [exact HV|exact HT|first [done|by apply tree_hash|by apply path_fold_hash]..|exact He|by left|]).
    + destruct (IH _ s i cur Hl2 Hf2 Hs Hc Hi H2) as [Hcol|Ho]; [left; eapply collide_mono; [exact Hsub|exact (Htsub true)|exact Hcol]|].
      right. by apply (path_origin_half D l true).
    + destruct (IH _ s i cur Hl1 Hf1 Hs Hc Hi H1) as [Hcol|Ho]; [left; eapply collide_mono; [exact Hsub|exact (Htsub false)|exact Hcol]|].
      right. by apply (path_origin_half D l false).
Qed.

(** ** Roots and proofs of leaves *)

Lemma next_pow2_loop_spec fuel : forall p n e, p = 2 ^ Z.of_nat e -> next_pow2_loop fuel p n <> 0 ->
  exists d, next_pow2_loop fuel p n = 2 ^ Z.of_nat d /\ n <= 2 ^ Z.of_nat d.
Proof using.
  induction fuel as [|fuel IH]; intros p n e Hp Hne; cbn [next_pow2_loop] in *; case_decide; try (exists e; subst; split; [done|lia]).
  - by case_decide.
  - case_decide; [done|]. apply (IH _ _ (S e)); [|done]. rewrite Nat2Z.inj_succ, Z.pow_succ_r by lia. lia.
Qed.

(** The full width and what stands on it. *)
Lemma pad_leaves_spec leaves l : pad_leaves leaves = Some l ->
  exists d, (d < 58)%nat /\ length l = (2 ^ d)%nat /\ leaves <> [] /\ (length leaves <= 2 ^ d)%nat /\
    (forall i x, leaves !! i = Some x -> l !! i = Some x) /\ (forall x, x ∈ l -> x ∈ leaves).
Proof using.
  unfold pad_leaves. case_decide as Hc; [done|]. intros [= <-]. assert (leaves <> [] /\ next_pow2 (Z.of_nat (length leaves)) <> 0) as [Hne Hz] by tauto.
  assert (next_pow2 (Z.of_nat (length leaves)) <= SIZE_MAX / 64) as Hmax by lia. clear Hc. unfold next_pow2 in *. case_decide as H0; [done|].
  destruct (next_pow2_loop_spec 64 1 _ 0%nat eq_refl Hz) as (d & Hd & Hn). rewrite Hd in *.
  assert (Z.to_nat (2 ^ Z.of_nat d) = 2 ^ d)%nat as E by (rewrite <- (Nat2Z.id (2 ^ d)), Nat2Z.inj_pow; done).
  assert (Z.of_nat (2 ^ d) = 2 ^ Z.of_nat d) as E2 by (rewrite Nat2Z.inj_pow; done). exists d. split_and!.
  - destruct (decide (d < 58)%nat); [done|]. exfalso. assert (2 ^ 58 <= 2 ^ Z.of_nat d) by (apply Z.pow_le_mono_r; lia). change (SIZE_MAX / 64) with (2 ^ 58 - 1) in Hmax. lia.
  - rewrite length_app, length_replicate, E. lia.
  - done.
  - lia.
  - intros i x Hx. by apply lookup_app_l_Some.
  - intros x [Hx|Hx]%elem_of_app; [done|]. apply elem_of_replicate in Hx as [-> _]. destruct (last leaves) as [y|] eqn:El; [|by apply last_None in El].
    apply last_Some in El as [l' ->]. cbn [default]. apply elem_of_app. right. by left.
Qed.

Lemma root_spec leaves r : qrx_merkle_root_from_leaves sha3_512 leaves = Some r ->
  exists d l, pad_leaves leaves = Some l /\ length l = (2 ^ d)%nat /\ (d < 58)%nat /\ r = tree d l.
Proof using.
  unfold qrx_merkle_root_from_leaves. destruct (pad_leaves leaves) as [l|] eqn:E; cbn [mbind option_bind]; [|done].
  destruct (pad_leaves_spec _ _ E) as (d & Hd & Hl & _). rewrite (root_loop_tree d) by (done || lia). intros [= <-]. by exists d, l.
Qed.

(** The built proof of every leaf is accepted against the root. *)
Lemma proof_accepted leaves i x r : qrx_merkle_root_from_leaves sha3_512 leaves = Some r -> 0 <= i -> leaves !! Z.to_nat i = Some x ->
  exists p, qrx_merkle_build_proof_from_leaves sha3_512 leaves i = Some p /\ mp_leaf_index p = i /\ mp_leaf_count p = Z.of_nat (length leaves) /\
    qrx_merkle_verify_proof sha3_512 x p r = 0.
Proof using.
  intros Hr Hi Hx. destruct (root_spec _ _ Hr) as (d & l & Hp & Hl & Hd & ->). destruct (pad_leaves_spec _ _ Hp) as (_ & _ & _ & _ & _ & Hlook & _).
  pose proof (lookup_lt_Some _ _ _ Hx) as Hlt. unfold qrx_merkle_build_proof_from_leaves. rewrite decide_False by lia. rewrite Hp. cbn [mbind option_bind].
  rewrite (proof_loop_path d) by (done || unfold QRX_MERKLE_MAX_DEPTH; cbn [length]; lia). cbn [mbind option_bind app]. eexists. split; [reflexivity|]. split; [done|]. split; [done|].
  unfold qrx_merkle_verify_proof. cbn [mp_leaf_index mp_leaf_count mp_depth]. rewrite path_length. rewrite decide_False by (unfold QRX_MERKLE_MAX_DEPTH; lia).
  assert (proof_path (mkMerkleProof i (Z.of_nat (length leaves)) (Z.of_nat d) (path d i l)) = path d i l) as ->.
  { unfold proof_path. cbn [mp_depth mp_siblings]. rewrite Nat2Z.id. apply list_eq. intros j. rewrite list_lookup_fmap.
    destruct (decide (j < d)%nat) as [Hj|Hj].
    - rewrite lookup_seq_lt by done. cbn [fmap option_fmap option_map]. destruct (lookup_lt_is_Some_2 (path d i l) j) as [y Hy]; [by rewrite path_length|].
      by rewrite Nat.add_0_l, Hy.
    - rewrite lookup_seq_ge by lia. symmetry. apply lookup_ge_None_2. rewrite path_length. lia. }
  by rewrite decide_True by (apply path_complete; [done|done|by apply Hlook]).
Qed.

(** A proof as the array of the struct holds it. *)
Definition proof_ok (p : QrxMerkleProof) : Prop := 0 <= mp_depth p /\ Forall is_hash (mp_siblings p).
Lemma proof_path_hashes p : proof_ok p -> Forall is_hash (proof_path p).
Proof using.
  intros [_ H]. unfold proof_path. apply Forall_fmap, Forall_forall. intros d _. unfold compose. destruct (mp_siblings p !! d) as [x|] eqn:E; [|reflexivity].
  rewrite Forall_forall in H. apply H. by apply list_elem_of_lookup_2 in E.
Qed.

(** The leaves of chunks. *)
Definition leaf_hashes (chunks : list bytes) : list bytes := imap (fun i c => leaf (Z.of_nat i) c) chunks.
Lemma leaf_hashes_lookup chunks i : leaf_hashes chunks !! i = leaf (Z.of_nat i) <$> chunks !! i.
Proof using. unfold leaf_hashes; by rewrite list_lookup_imap. Qed.
Lemma leaf_hashes_elem chunks x : x ∈ leaf_hashes chunks -> exists i c, x = leaf (Z.of_nat i) c /\ chunks !! i = Some c.
Proof using. intros (i & Hi)%list_elem_of_lookup. rewrite leaf_hashes_lookup in Hi. destruct (chunks !! i) as [c|] eqn:E; [|done]. injection Hi as <-. by exists i, c. Qed.

Definition chunk_inputs (chunks : list bytes) : list bytes := imap (fun i c => chunk_leaf_input (Z.of_nat i) c) chunks.
Lemma chunk_input_elem chunks i c : chunks !! i = Some c -> chunk_leaf_input (Z.of_nat i) c ∈ chunk_inputs chunks.
Proof using. intros Hc. apply list_elem_of_lookup. exists i. unfold chunk_inputs. by rewrite list_lookup_imap, Hc. Qed.

(** What is hashed for the root of chunks, and to check an answer. *)
Definition commit_inputs (chunks : list bytes) : list bytes :=
  chunk_inputs chunks ++ match pad_leaves (leaf_hashes chunks) with Some level => root_inputs 64 level | None => [] end.
Definition answer_inputs (i : Z) (c : bytes) (p : QrxMerkleProof) : list bytes := chunk_leaf_input i c :: path_inputs (proof_path p) (mp_leaf_index p) (leaf i c).

(** An accepted proof of a chunk. *)
Lemma accepted_chunk chunks r p i c : qrx_merkle_root_from_leaves sha3_512 (leaf_hashes chunks) = Some r -> proof_ok p ->
  mp_leaf_index p = i -> 0 <= i < Z.of_nat (length chunks) -> qrx_merkle_verify_proof sha3_512 (leaf i c) p r = 0 ->
  collide (answer_inputs i c p) (commit_inputs chunks) \/ chunks !! Z.to_nat i = Some c.
Proof using sha3_512_length.
  intros Hr Hp Hi Hb Hv. destruct (root_spec _ _ Hr) as (d & l & Hpad & Hl & Hd & ->). destruct (pad_leaves_spec _ _ Hpad) as (_ & _ & _ & _ & _ & Hlook & Helem).
  unfold qrx_merkle_verify_proof in Hv. case_decide; [done|]. case_decide as Hf; [|done]. clear Hv. rewrite Hi in Hf.
  assert (forall x, x ∈ l -> exists j y, x = leaf (Z.of_nat j) y /\ chunks !! j = Some y) as Hleaf by (intros x Hx; by apply leaf_hashes_elem, Helem).
  assert (Forall is_hash l) as Hlh by (apply Forall_forall; intros x (j & y & -> & _)%Hleaf; apply sha3_512_length).
  unfold answer_inputs, commit_inputs. rewrite Hpad, Hi. pose proof (root_inputs_tree d 64 l Hl ltac:(lia)) as Hri.
  destruct (path_sound d l (proof_path p) i (leaf i c) Hl Hlh (proof_path_hashes p Hp) (sha3_512_length _) (proj1 Hb) Hf)
    as [Hcol|[[E Ho]|[(a & b & Ho & Hin)|(x & a & b & Hx & Ho & Hin)]]].
  - left. eapply collide_mono; [intros z Hz; by right|intros z Hz; apply elem_of_app; right; by apply Hri|exact Hcol].
  - assert (Z.of_nat (length chunks) <= 2 ^ Z.of_nat d) as Hw.
    { destruct (pad_leaves_spec _ _ Hpad) as (d' & _ & Hl' & _ & Hle & _). rewrite <- Hl', Hl in Hle. unfold leaf_hashes in Hle. rewrite length_imap in Hle.
      change 2 with (Z.of_nat 2). rewrite <- Nat2Z.inj_pow. lia. }
    rewrite Z.mod_small in Ho by lia. destruct (lookup_lt_is_Some_2 chunks (Z.to_nat i)) as [c' Hc']; [lia|].
    rewrite (Hlook (Z.to_nat i) (leaf (Z.of_nat (Z.to_nat i)) c')) in Ho by (by rewrite leaf_hashes_lookup, Hc'). pose proof (chunk_input_elem _ _ _ Hc') as Hel.
    rewrite Z2Nat.id in Ho, Hel by lia. injection Ho as Ho. symmetry in Ho.
    edestruct (leaf_inj (chunk_leaf_input i c :: path_inputs (proof_path p) i (leaf i c)) (chunk_inputs chunks ++ root_inputs 64 l) i c c') as [Hcol| ->]; [by left|apply elem_of_app; left; exact Hel|exact Ho|left; exact Hcol|by right].
  - left. exists (chunk_leaf_input i c), (tree_node_input a b). split_and!; [by left|apply elem_of_app; right; by apply Hri|apply chunk_not_node|exact Ho].
  - left. destruct (Hleaf x Hx) as (j & y & -> & Hy). exists (tree_node_input a b), (chunk_leaf_input (Z.of_nat j) y).
    split_and!; [by right|apply elem_of_app; left; by apply chunk_input_elem|intros E; by eapply chunk_not_node|done].
Qed.
End proofs.
