(* ===== verification/DriveCapacity.v ===== *)
(** * Proofs of storage (src/qrx-core/src/resource/qrx_capacity_proof.c,
      src/qrx-core/src/storage/qrx_postor.c)

    A provider commits to slots of its disk, or stores the shard of a contract,
    and must show the chunk that a finalized block points at.  The theorems on
    concrete inputs are at the end. *)

From stdpp Require Import list.
From S2P Require Import Prelude Format Rotation DriveMerkle.

Definition QRX_CAPACITY_PROOF_VERSION : Z := 1.
(** [sizeof(out->provider_id)] *)
Definition ID_SIZE : Z := 129.

Record QrxCapacityCommitment := mkCommitment {
  cc_version : Z; cc_provider_id : bytes; cc_epoch : Z; cc_slot_count : Z; cc_slot_bytes : Z; cc_merkle_root : bytes
}.
Record QrxCapacityChallengeProof := mkChallengeProof { cp_slot_index : Z; cp_merkle_proof : QrxMerkleProof }.
Record QrxPoStorChallenge := mkChallenge { pc_contract_id : bytes; pc_provider_id : bytes; pc_shard_index : Z; pc_epoch : Z; pc_leaf_index : Z }.

Definition put_u32be (v : Z) : bytes := rev (le_split 4 v).

Section capacity.
Variable sha3_512 : bytes -> bytes.

(** The leaves of [slot_count] slots. *)
Definition slot_leaves (slots : bytes) (slot_count slot_bytes : Z) : list bytes :=
  (fun i => qrx_merkle_leaf_hash sha3_512 (Z.of_nat i) (chunk slots slot_bytes i)) <$> seq 0 (Z.to_nat slot_count).

Definition qrx_capacity_commit (provider_id : bytes) (epoch : Z) (slots : bytes) (slot_count slot_bytes : Z) : option QrxCapacityCommitment :=
  if decide (provider_id = [] \/ blen provider_id >= ID_SIZE \/ slot_count = 0 \/ slot_bytes = 0 \/ slot_bytes > UINT32_MAX \/ slot_count > SIZE_MAX / 64)
  then None
  else
    root ← qrx_merkle_root_from_leaves sha3_512 (slot_leaves slots slot_count slot_bytes);
    Some (mkCommitment QRX_CAPACITY_PROOF_VERSION provider_id epoch slot_count slot_bytes root).

Definition challenge_digest (c : QrxCapacityCommitment) (finalized_block_hash : bytes) : option bytes :=
  if decide (cc_provider_id c = [] \/ cc_slot_count c = 0) then None
  else Some (sha3_512 (cs "QRX-CAPACITY-CHALLENGE-V1" ++ cc_provider_id c ++ put_u64be (cc_epoch c) ++ put_u64be (cc_slot_count c) ++
               cc_merkle_root c ++ finalized_block_hash)).
Definition qrx_capacity_challenge_index (c : QrxCapacityCommitment) (finalized_block_hash : bytes) : Z :=
  match challenge_digest c finalized_block_hash with
  | Some h => be64_of h mod cc_slot_count c
  | None => UINT64_MAX
  end.

Definition qrx_capacity_build_challenge_proof (c : QrxCapacityCommitment) (slots : bytes) (slot_count slot_bytes : Z) (finalized_block_hash : bytes)
    : option QrxCapacityChallengeProof :=
  if decide (slot_count <> cc_slot_count c \/ slot_bytes <> cc_slot_bytes c \/ slot_count > SIZE_MAX / 64) then None
  else
    let idx := qrx_capacity_challenge_index c finalized_block_hash in
    if decide (idx = UINT64_MAX \/ idx >= slot_count) then None
    else
      let leaves := slot_leaves slots slot_count slot_bytes in
      root ← qrx_merkle_root_from_leaves sha3_512 leaves;
      if decide (root <> cc_merkle_root c) then None
      else p ← qrx_merkle_build_proof_from_leaves sha3_512 leaves idx; Some (mkChallengeProof idx p).

Definition qrx_capacity_verify_challenge (c : QrxCapacityCommitment) (finalized_block_hash revealed_slot : bytes) (proof : QrxCapacityChallengeProof) : Z :=
  if decide (blen revealed_slot <> cc_slot_bytes c) then -1
  else
    let want := qrx_capacity_challenge_index c finalized_block_hash in
    if decide (want = UINT64_MAX \/ cp_slot_index proof <> want \/ mp_leaf_index (cp_merkle_proof proof) <> want \/
               mp_leaf_count (cp_merkle_proof proof) <> cc_slot_count c) then -1
    else qrx_merkle_verify_proof sha3_512 (qrx_merkle_leaf_hash sha3_512 want revealed_slot) (cp_merkle_proof proof) (cc_merkle_root c).

(** ** Shards of contracts *)

Definition qrx_postor_derive_challenge (cid pid : bytes) (shard epoch leaves : Z) (block : bytes) : option QrxPoStorChallenge :=
  if decide (cid = [] \/ blen cid >= ID_SIZE \/ pid = [] \/ blen pid >= ID_SIZE \/ leaves = 0) then None
  else
    let h := sha3_512 (cs "QRX-POSTOR-CHALLENGE-V1" ++ cid ++ pid ++ put_u32be shard ++ put_u64be epoch ++ put_u64be leaves ++ block) in
    Some (mkChallenge cid pid shard epoch (be64_of h mod leaves)).
Definition qrx_postor_verify (c : QrxPoStorChallenge) (leaf : bytes) (p : QrxMerkleProof) (root : bytes) : Z :=
  if decide (mp_leaf_index p <> pc_leaf_index c) then -1
  else qrx_merkle_verify_proof sha3_512 (qrx_merkle_leaf_hash sha3_512 (pc_leaf_index c) leaf) p root.

(** ** What they show *)

Hypothesis sha3_512_length : forall x, length (sha3_512 x) = QRX_MERKLE_HASH_BYTES.

Definition chunks_of (data : bytes) (size : Z) (count : Z) : list bytes := (fun i => chunk data size i) <$> seq 0 (Z.to_nat count).
Lemma chunks_length data size count : length (chunks_of data size count) = Z.to_nat count.
Proof using. unfold chunks_of. by rewrite length_fmap, length_seq. Qed.
Lemma chunks_lookup data size count i : (i < Z.to_nat count)%nat -> chunks_of data size count !! i = Some (chunk data size i).
Proof using. intros Hi. unfold chunks_of. rewrite list_lookup_fmap, lookup_seq_lt by done. done. Qed.
Lemma slot_leaves_hashes slots count size : slot_leaves slots count size = leaf_hashes sha3_512 (chunks_of slots size count).
Proof using.
  apply list_eq. intros i. rewrite leaf_hashes_lookup. unfold slot_leaves, chunks_of. rewrite !list_lookup_fmap. destruct (seq 0 (Z.to_nat count) !! i) as [j|] eqn:E; [|done].
  apply lookup_seq in E as [-> _]. done.
Qed.

Lemma commit_spec provider_id epoch slots slot_count slot_bytes c : qrx_capacity_commit provider_id epoch slots slot_count slot_bytes = Some c ->
  provider_id <> [] /\ slot_count <> 0 /\ slot_count <= SIZE_MAX / 64 /\ cc_slot_count c = slot_count /\ cc_slot_bytes c = slot_bytes /\ cc_provider_id c = provider_id /\
  qrx_merkle_root_from_leaves sha3_512 (leaf_hashes sha3_512 (chunks_of slots slot_bytes slot_count)) = Some (cc_merkle_root c).
Proof using.
  unfold qrx_capacity_commit. case_decide as Hc; [done|]. rewrite <- slot_leaves_hashes. destruct (qrx_merkle_root_from_leaves _ _) as [r|]; cbn [mbind option_bind]; [|done].
  intros [= <-]. cbn [cc_slot_count cc_slot_bytes cc_provider_id cc_merkle_root]. split_and!; try done; try tauto; lia.
Qed.

(** The challenge points at a slot. *)
Lemma challenge_in_range c h : cc_provider_id c <> [] -> 0 < cc_slot_count c <= SIZE_MAX / 64 ->
  0 <= qrx_capacity_challenge_index c h < cc_slot_count c /\ qrx_capacity_challenge_index c h <> UINT64_MAX.
Proof using.
  intros Hp Hc. unfold qrx_capacity_challenge_index, challenge_digest. rewrite decide_False by (intros [?|?]; [done|lia]).
  match goal with |- context [be64_of ?x mod _] => pose proof (Z.mod_pos_bound (be64_of x) (cc_slot_count c) ltac:(lia)) end. change (SIZE_MAX / 64) with (2 ^ 58 - 1) in Hc. change UINT64_MAX with (2 ^ 64 - 1). lia.
Qed.

(** C23: a provider that has its slots answers every challenge, and who answers
    a challenge has the slot, or else one of the inputs hashed to check the
    answer has the same hash as another input, one of those hashed for the
    commitment. *)
Theorem capacity_proof_exact provider_id epoch slots slot_count slot_bytes c h : 0 <= slot_count -> blen slots = slot_count * slot_bytes ->
  qrx_capacity_commit provider_id epoch slots slot_count slot_bytes = Some c ->
  let i := Z.to_nat (qrx_capacity_challenge_index c h) in
  (exists proof, qrx_capacity_build_challenge_proof c slots slot_count slot_bytes h = Some proof /\
     qrx_capacity_verify_challenge c h (chunk slots slot_bytes i) proof = 0) /\
  forall revealed proof, proof_ok (cp_merkle_proof proof) -> qrx_capacity_verify_challenge c h revealed proof = 0 ->
    revealed = chunk slots slot_bytes i \/
    collide sha3_512 (answer_inputs sha3_512 (qrx_capacity_challenge_index c h) revealed (cp_merkle_proof proof))
      (commit_inputs sha3_512 (chunks_of slots slot_bytes slot_count)).
Proof using sha3_512_length.
  intros Hn Hlen Hc i. destruct (commit_spec _ _ _ _ _ _ Hc) as (Hp & Hz & Hmax & Ec & Es & Ep & Hroot).
  destruct (challenge_in_range c h) as [Hi Hu]; [by rewrite Ep|lia|]. rewrite Ec in Hi. set (want := qrx_capacity_challenge_index c h) in *.
  pose proof (chunks_lookup slots slot_bytes slot_count i ltac:(unfold i; lia)) as Hlook. split.
  - destruct (proof_accepted sha3_512 (leaf_hashes sha3_512 (chunks_of slots slot_bytes slot_count)) want (qrx_merkle_leaf_hash sha3_512 want (chunk slots slot_bytes i)) _ Hroot)
      as (p & Hb & P1 & P2 & Hv); [lia|rewrite leaf_hashes_lookup; fold i; rewrite Hlook; cbn [fmap option_fmap option_map]; unfold i; by rewrite Z2Nat.id by lia|].
    exists (mkChallengeProof want p). split.
    + unfold qrx_capacity_build_challenge_proof. rewrite decide_False by lia. cbv zeta. fold want. rewrite decide_False by lia. rewrite slot_leaves_hashes, Hroot.
      cbn [mbind option_bind]. rewrite decide_False by tauto. by rewrite Hb.
    + unfold qrx_capacity_verify_challenge. rewrite decide_False.
      2:{ rewrite Es. unfold blen, chunk in *. rewrite length_take, length_drop. assert (0 <= slot_bytes) by nia.
          assert (Z.of_nat i + 1 <= slot_count) by (unfold i; lia). assert ((Z.of_nat i + 1) * slot_bytes <= slot_count * slot_bytes) by (apply Z.mul_le_mono_nonneg_r; lia).
          assert (Z.of_nat (i * Z.to_nat slot_bytes) = Z.of_nat i * slot_bytes) by (rewrite Nat2Z.inj_mul, Z2Nat.id by lia; done). lia. }
      cbv zeta. fold want. cbn [cp_slot_index cp_merkle_proof]. rewrite decide_False; [exact Hv|]. rewrite P1, P2, Ec. unfold leaf_hashes. rewrite length_imap, chunks_length. lia.
  - intros revealed proof Hok. unfold qrx_capacity_verify_challenge. case_decide; [done|]. cbv zeta. fold want. case_decide as Hd; [done|]. intros Hv.
    destruct (accepted_chunk sha3_512 sha3_512_length (chunks_of slots slot_bytes slot_count) _ (cp_merkle_proof proof) want revealed Hroot Hok) as [?|E];
      [lia|rewrite chunks_length; lia|done|by right|]. left. fold i in E. congruence.
Qed.

(** Who answers the challenge of a shard has the chunk of the shard, up to such
    collisions. *)
Theorem postor_sound data chunk_size root leaves cid pid shard epoch block c leaf p :
  qrx_merkle_root_from_chunks sha3_512 data chunk_size = Some (root, leaves) ->
  qrx_postor_derive_challenge cid pid shard epoch leaves block = Some c -> proof_ok p -> qrx_postor_verify c leaf p root = 0 ->
  leaf = chunk data chunk_size (Z.to_nat (pc_leaf_index c)) \/
  collide sha3_512 (answer_inputs sha3_512 (pc_leaf_index c) leaf p) (commit_inputs sha3_512 (chunks_of data chunk_size leaves)).
Proof using sha3_512_length.
  unfold qrx_merkle_root_from_chunks. case_decide; [done|]. set (n := if decide (data = []) then 1 else _). case_decide as Hmax; [done|].
  assert ((fun i => qrx_merkle_leaf_hash sha3_512 (Z.of_nat i) (chunk data chunk_size i)) <$> seq 0 (Z.to_nat n) = leaf_hashes sha3_512 (chunks_of data chunk_size n)) as ->
    by (rewrite <- slot_leaves_hashes; done).
  destruct (qrx_merkle_root_from_leaves _ _) as [r|] eqn:Hroot; cbn [mbind option_bind]; [|done]. intros [= <- <-].
  unfold qrx_postor_derive_challenge. case_decide as Hd; [done|]. intros [= <-] Hok. unfold qrx_postor_verify. cbn [pc_leaf_index]. case_decide as Hi; [done|]. intros Hv.
  match type of Hv with context [be64_of ?x mod n] => set (h := x) in * end.
  assert (0 < n) as Hn.
  { destruct (root_spec _ _ _ Hroot) as (d & l & Hpad & _). destruct (pad_leaves_spec _ _ Hpad) as (_ & _ & _ & Hne & _).
    destruct (decide (0 < n)); [done|]. exfalso. apply Hne. unfold leaf_hashes, chunks_of. by replace (Z.to_nat n) with 0%nat by lia. }
  pose proof (Z.mod_pos_bound (be64_of h) n Hn) as Hb.
  destruct (accepted_chunk sha3_512 sha3_512_length (chunks_of data chunk_size n) _ p (be64_of h mod n) leaf Hroot Hok) as [?|E];
    [lia|rewrite chunks_length; lia|done|by right|]. left. rewrite chunks_lookup in E by lia. congruence.
Qed.
End capacity.

(** ** Concrete inputs

    Three slots of four bytes, with a stand-in for the hash that keeps the last
    64 bytes of its input in reverse. *)

Definition dr_hash (x : bytes) : bytes := take 64 (reverse x ++ replicate 64 x00).
Lemma dr_hash_length x : length (dr_hash x) = QRX_MERKLE_HASH_BYTES.
Proof. unfold dr_hash, QRX_MERKLE_HASH_BYTES. rewrite length_take, length_app, length_replicate. lia. Qed.

Definition dr_slots : bytes := cs "aaaabbbbcccc".
Definition dr_root : bytes := default [] (qrx_merkle_root_from_leaves dr_hash (slot_leaves dr_hash dr_slots 3 4)).
Definition dr_commit : QrxCapacityCommitment := mkCommitment QRX_CAPACITY_PROOF_VERSION (cs "p") 5 3 4 dr_root.
Definition dr_block : bytes := replicate 64 x02.

(** The slot of the challenge passes, and any other answer would have to
    collide. *)
Lemma capacity_proof_exact_witness :
  let i := Z.to_nat (qrx_capacity_challenge_index dr_hash dr_commit dr_block) in
  (exists proof, qrx_capacity_build_challenge_proof dr_hash dr_commit dr_slots 3 4 dr_block = Some proof /\
     qrx_capacity_verify_challenge dr_hash dr_commit dr_block (chunk dr_slots 4 i) proof = 0) /\
  forall revealed proof, proof_ok (cp_merkle_proof proof) -> qrx_capacity_verify_challenge dr_hash dr_commit dr_block revealed proof = 0 ->
    revealed = chunk dr_slots 4 i \/
    collide dr_hash (answer_inputs dr_hash (qrx_capacity_challenge_index dr_hash dr_commit dr_block) revealed (cp_merkle_proof proof))
      (commit_inputs dr_hash (chunks_of dr_slots 4 3)).
Proof.
  refine (capacity_proof_exact dr_hash dr_hash_length (cs "p") 5 dr_slots 3 4 dr_commit dr_block _ _ _); [done|reflexivity|vm_compute; reflexivity].
Defined.

Definition dr_challenge : QrxPoStorChallenge := default (mkChallenge [] [] 0 0 0) (qrx_postor_derive_challenge dr_hash (cs "c") (cs "p") 1 5 3 dr_block).
Definition dr_proof : QrxMerkleProof := default (mkMerkleProof 0 0 0 []) (qrx_merkle_build_proof_from_leaves dr_hash (slot_leaves dr_hash dr_slots 3 4) (pc_leaf_index dr_challenge)).

Lemma postor_sound_witness :
  qrx_postor_verify dr_hash dr_challenge (chunk dr_slots 4 (Z.to_nat (pc_leaf_index dr_challenge))) dr_proof dr_root = 0 /\
  (forall leaf, qrx_postor_verify dr_hash dr_challenge leaf dr_proof dr_root = 0 ->
    leaf = chunk dr_slots 4 (Z.to_nat (pc_leaf_index dr_challenge)) \/
    collide dr_hash (answer_inputs dr_hash (pc_leaf_index dr_challenge) leaf dr_proof) (commit_inputs dr_hash (chunks_of dr_slots 4 3))).
Proof.
  split; [vm_compute; reflexivity|]. intros leaf H.
  refine (postor_sound dr_hash dr_hash_length dr_slots 4 dr_root 3 (cs "c") (cs "p") 1 5 dr_block dr_challenge leaf dr_proof _ _ _ H);
    [vm_compute; reflexivity|vm_compute; reflexivity|split; [vm_compute; done|vm_compute; repeat constructor]].
Defined.
