(* ===== verification/Erasure.v ===== *)
(** * The erasure code of the drive (src/qrx-core/src/storage/qrx_erasure.c)

    Bytes are integers below 256.  A matrix is the list of its rows (the code
    keeps them one after the other in one array); a shard that is [NULL] is
    [None].  Allocation succeeds. *)

From stdpp Require Import list.
From S2P Require Import Prelude.

(** ** The field of 256 elements *)

(** One step of [gf_init]: the power x of two at place i. *)
Definition gf_step (st : Z * list Z * list Z) (i : nat) : Z * list Z * list Z :=
  let '(x, e, l) := st in
  let e := <[i := x mod 256]> e in
  let l := <[Z.to_nat x := Z.of_nat i mod 256]> l in
  let x := Z.shiftl x 1 in
  (if decide (Z.land x 0x100 <> 0) then Z.lxor x 0x11d else x, e, l).
Definition gf_init : list Z * list Z :=
  let '(_, e, l) := foldl gf_step (1, replicate 512 0, replicate 256 0) (seq 0 255) in
  (foldl (fun e i => <[i := e !!! (i - 255)%nat]> e) e (seq 255 257), <[0%nat := 0]> l).
Definition gf_exp : list Z := Eval vm_compute in fst gf_init.
Definition gf_log : list Z := Eval vm_compute in snd gf_init.

Definition gf_mul (a b : Z) : Z :=
  if decide (a = 0 \/ b = 0) then 0 else gf_exp !!! Z.to_nat (gf_log !!! Z.to_nat a + gf_log !!! Z.to_nat b).
Definition gf_inv (a : Z) : Z := if decide (a = 0) then 0 else gf_exp !!! Z.to_nat (255 - gf_log !!! Z.to_nat a).
Definition gf_pow (a : Z) (p : nat) : Z :=
  if decide (p = 0%nat) then 1
  else if decide (a = 0) then 0
  else gf_exp !!! Z.to_nat ((gf_log !!! Z.to_nat a * Z.of_nat p) mod 255).

(** ** Matrices *)

Abbreviation vec := (list Z).
Abbreviation mat := (list (list Z)).

(** The sum of products that the loops over one index compute. *)
Definition dot (u v : vec) : Z := foldl Z.lxor 0 (zip_with gf_mul u v).
Definition unit_row (n r : nat) : vec := (fun j => if decide (j = r) then 1 else 0) <$> seq 0 n.
Definition find_pivot (aug : mat) (n c : nat) : option nat := head (filter (fun p => (aug !!! p) !!! c <> 0) (seq c (n - c))).
Definition swap_rows (aug : mat) (i j : nat) : mat := <[i := aug !!! j]> (<[j := aug !!! i]> aug).
Definition normalise (aug : mat) (c : nat) : mat :=
  let row := aug !!! c in
  let inv := gf_inv (row !!! c) in
  <[c := (fun x => gf_mul x inv) <$> row]> aug.
Definition eliminate (aug : mat) (c : nat) : mat :=
  let pivot := aug !!! c in
  imap (fun r row =>
          if decide (r = c) then row
          else
            let f := row !!! c in
            if decide (f = 0) then row else zip_with (fun x y => Z.lxor x (gf_mul f y)) row pivot) aug.
Definition invert_step (n : nat) (aug : option mat) (c : nat) : option mat :=
  aug ← aug;
  pivot ← find_pivot aug n c;
  let aug := if decide (pivot <> c) then swap_rows aug c pivot else aug in
  Some (eliminate (normalise aug c) c).
Definition matrix_invert (m : mat) (n : nat) : option mat :=
  let aug := imap (fun r row => row ++ unit_row n r) m in
  fmap (M := option) (fun aug : mat => drop n <$> aug) (foldl (invert_step n) (Some aug) (seq 0 n)).

(** The rows of powers of 1, 2, 3, ... *)
Definition vandermonde (n k : nat) : mat := (fun r => (fun c => gf_pow (Z.of_nat (r + 1) mod 256) c) <$> seq 0 k) <$> seq 0 n.
Definition column (m : mat) (c : nat) : vec := (fun row => row !!! c) <$> m.
(** The sum [k+m] is of 32 bits; when it wraps around the code goes on with
    tables that are too small, which is outside the model. *)
Definition too_many (k m : nat) : bool := bool_decide (u32 (Z.of_nat k + Z.of_nat m) > 255).
Definition generator_matrix (k m : nat) : option mat :=
  if decide (k = 0%nat \/ m = 0%nat \/ too_many k m) then None
  else
    let v := vandermonde (k + m) k in
    inv ← matrix_invert (take k v) k;
    Some ((fun row => (fun c => dot row (column inv c)) <$> seq 0 k) <$> v).

(** ** Sets of shards *)

Record QrxErasureSet := mkErasureSet {
  er_data_shards : nat; er_parity_shards : nat; er_shard_size : nat; er_original_size : nat;
  er_shards : list (option vec); er_present : list bool
}.

Definition shard_size (len k : nat) : nat :=
  if decide (len = 0%nat) then 1%nat else Z.to_nat (((Z.of_nat len +64 Z.of_nat k) -64 1) / Z.of_nat k).
(** The part of the data at [off], filled up with zeros. *)
Definition data_at (data : vec) (off size : nat) : vec := let part := take size (drop off data) in part ++ replicate (size - length part) 0.
(** A byte of a row: the sum over the data shards. *)
Definition row_bytes (row : vec) (shards : list vec) (size : nat) : vec := (fun b => dot row ((fun s => s !!! b) <$> shards)) <$> seq 0 size.

Definition qrx_erasure_encode (data : vec) (k m : nat) : option QrxErasureSet :=
  if decide (k = 0%nat \/ m = 0%nat \/ too_many k m) then None
  else
    let ss := shard_size (length data) k in
    let shards := (fun i => data_at data (i * ss) ss) <$> seq 0 k in
    g ← generator_matrix k m;
    let parity := (fun row => row_bytes row shards ss) <$> drop k g in
    Some (mkErasureSet k m ss (length data) (Some <$> (shards ++ parity)) (replicate (k + m) true)).

Definition available (s : QrxErasureSet) (i : nat) : bool := (er_present s !!! i) && bool_decide (er_shards s !!! i <> None).
Definition shard_at (s : QrxErasureSet) (i : nat) : vec := default [] (er_shards s !!! i).
Definition qrx_erasure_reconstruct (s : QrxErasureSet) : option QrxErasureSet :=
  let k := er_data_shards s in
  let n := (k + er_parity_shards s)%nat in
  if decide (k = 0%nat \/ er_parity_shards s = 0%nat) then None
  else if decide (length (filter (fun i => available s i) (seq 0 n)) < k)%nat then None
  else
    g ← generator_matrix k (er_parity_shards s);
    let rows := take k (filter (fun i => available s i) (seq 0 n)) in
    inv ← matrix_invert ((fun r => g !!! r) <$> rows) k;
    let orig := (fun row => row_bytes row (shard_at s <$> rows) (er_shard_size s)) <$> inv in
    let parity := (fun r => if available s r then er_shards s !!! r else Some (row_bytes (g !!! r) orig (er_shard_size s))) <$> seq k (er_parity_shards s) in
    Some (mkErasureSet k (er_parity_shards s) (er_shard_size s) (er_original_size s) ((Some <$> orig) ++ parity) (replicate n true)).

Definition qrx_erasure_join (s : QrxErasureSet) : option vec :=
  if forallb (available s) (seq 0 (er_data_shards s))
  then Some (take (er_original_size s) (concat (shard_at s <$> seq 0 (er_data_shards s))))
  else None.

(** ** Encoding a file

    A stripe of every shard at a time.  [outs] is what has been written to the
    output files; reads and writes succeed. *)

Definition file_stripe (g : mat) (data : vec) (k m ss tk off : nat) (outs : list vec) : list vec :=
  let db := (fun d => data_at data (d * ss + off) tk) <$> seq 0 k in
  let pb := (fun pr => row_bytes (g !!! (k + pr)%nat) db tk) <$> seq 0 m in
  zip_with app outs (db ++ pb).
Fixpoint file_loop (fuel : nat) (g : mat) (data : vec) (k m ss stripe off : nat) (outs : list vec) : list vec :=
  if decide (off < ss)%nat then
    match fuel with
    | O => outs
    | S fuel =>
        let tk := if decide (ss - off < stripe)%nat then (ss - off)%nat else stripe in
        file_loop fuel g data k m ss stripe (off + stripe) (file_stripe g data k m ss tk off outs)
    end
  else outs.
(** The files, the size of the source and that of a shard. *)
Definition qrx_erasure_encode_file (data : vec) (k m stripe : nat) : option (list vec * nat * nat) :=
  if decide (k = 0%nat \/ m = 0%nat \/ too_many k m) then None
  else
    let stripe := if decide (stripe = 0%nat) then (128 * 1024)%nat else stripe in
    let ss := shard_size (length data) k in
    g ← generator_matrix k m;
    Some (file_loop ss g data k m ss stripe 0 (replicate (k + m) []), length data, ss).
