(* ===== verification/ErasureMatrix.v ===== *)
(** * The field of the erasure code and the inversion of matrices

    The tables hold the powers of two modulo x^8+x^4+x^3+x^2+1; the product is
    repeated doubling, hence distributes over exclusive or, and the logarithms
    make it a commutative group on the elements other than zero.  Every row
    operation keeps the solutions of the augmented rows, so a matrix that
    [matrix_invert] answers is the inverse, and a column without a pivot gives a
    vector other than zero that the matrix sends to zero. *)

From stdpp Require Import list.
From S2P Require Import Prelude Erasure.

Definition gf (a : Z) : Prop := 0 <= a < 256.
#[export] Instance gf_dec a : Decision (gf a).
Proof. unfold gf. apply _. Defined.

Declare Scope gf_scope.
Create HintDb gf.
Notation "a +! b" := (Z.lxor a b) (at level 50, left associativity) : gf_scope.
Notation "a *! b" := (gf_mul a b) (at level 40, left associativity) : gf_scope.
Open Scope gf_scope.

Lemma gf_tables_built : (gf_exp, gf_log) = gf_init.
Proof. vm_compute. reflexivity. Qed.

Lemma gf_xor a b : gf a -> gf b -> gf (a +! b).
Proof. apply (lxor_bound 8). lia. Qed.
Lemma gf_0 : gf 0.
Proof. split; lia. Qed.
Lemma gf_1 : gf 1.
Proof. split; lia. Qed.
#[export] Hint Resolve gf_xor gf_0 gf_1 : gf.

(** ** Doubling *)

Definition twice (x : Z) : Z := Z.lxor (Z.shiftl x 1) (if Z.testbit x 7 then 0x11d else 0).

Lemma twice_xor a b : twice (a +! b) = twice a +! twice b.
Proof.
  unfold twice. apply Z.bits_inj'. intros i Hi. rewrite !Z.lxor_spec, !Z.shiftl_spec, !Z.lxor_spec by done.
  destruct (Z.testbit a 7), (Z.testbit b 7), (Z.testbit a (i - 1)), (Z.testbit b (i - 1)); cbn [xorb]; rewrite ?Z.bits_0; by destruct (Z.testbit 285 i).
Qed.
Lemma twice_0 : twice 0 = 0.
Proof. reflexivity. Qed.

Abbreviation double n := (Nat.iter n twice).
Lemma double_xor n a b : double n (a +! b) = double n a +! double n b.
Proof. induction n as [|n IH]; [done|]. by rewrite !Nat.iter_succ, IH, twice_xor. Qed.
Lemma double_0 n : double n 0 = 0.
Proof. induction n as [|n IH]; [done|]. by rewrite Nat.iter_succ, IH. Qed.

(** ** What the tables hold *)

Fixpoint doubles (n : nat) (x : Z) : list Z := match n with O => [] | S n => x :: doubles n (twice x) end.

Lemma doubles_lookup n i x : (i < n)%nat -> doubles n x !! i = Some (double i x).
Proof.
  revert i x. induction n as [|n IH]; intros i x Hi; [lia|]. destruct i as [|i]; [done|]. cbn [doubles lookup list_lookup]. rewrite IH by lia. f_equal. by rewrite <- Nat.iter_succ_r.
Qed.

Lemma exp_doubles : gf_exp = doubles 512 1.
Proof. vm_compute. reflexivity. Qed.
Lemma exp_spec i : (i < 512)%nat -> gf_exp !!! i = double i 1.
Proof. intros Hi. rewrite exp_doubles. by apply list_lookup_total_correct, doubles_lookup. Qed.

(** The checks that run over the tables once. *)
Definition all_upto (n : nat) (f : nat -> bool) : bool := forallb f (seq 0 n).
Lemma all_upto_spec n f i : all_upto n f = true -> (i < n)%nat -> f i = true.
Proof. unfold all_upto. intros H Hi. rewrite forallb_forall in H. apply H, in_seq. lia. Qed.

Lemma log_table : all_upto 255 (fun i => bool_decide (gf (gf_exp !!! i) /\ gf_exp !!! i <> 0 /\ gf_log !!! Z.to_nat (gf_exp !!! i) = Z.of_nat i)) = true.
Proof. vm_compute. reflexivity. Qed.
Lemma exp_table : all_upto 255 (fun i => bool_decide (0 <= gf_log !!! S i < 255 /\ gf_exp !!! Z.to_nat (gf_log !!! S i) = Z.of_nat (S i))) = true.
Proof. vm_compute. reflexivity. Qed.
Lemma wrap_table : all_upto 257 (fun i => bool_decide (gf_exp !!! (255 + i)%nat = gf_exp !!! i)) = true.
Proof. vm_compute. reflexivity. Qed.

Abbreviation log a := (gf_log !!! Z.to_nat a).
Abbreviation pow i := (gf_exp !!! Z.to_nat i).

Lemma log_spec a : gf a -> a <> 0 -> 0 <= log a < 255 /\ pow (log a) = a.
Proof.
  intros [H1 H2] Hn. pose proof (all_upto_spec _ _ (Z.to_nat (a - 1)) exp_table ltac:(lia)) as H. apply bool_decide_eq_true in H.
  replace (S (Z.to_nat (a - 1))) with (Z.to_nat a) in H by lia. destruct H as [H ->]. split; [done|lia].
Qed.
Lemma pow_spec i : 0 <= i < 255 -> gf (pow i) /\ pow i <> 0 /\ log (pow i) = i.
Proof. intros Hi. pose proof (all_upto_spec _ _ (Z.to_nat i) log_table ltac:(lia)) as H. apply bool_decide_eq_true in H. by rewrite Z2Nat.id in H by lia. Qed.
Lemma pow_mod i : 0 <= i < 512 -> pow i = pow (i mod 255).
Proof.
  intros Hi. destruct (decide (i < 255)); [by rewrite Z.mod_small by lia|].
  assert (forall j, 0 <= j < 257 -> pow (255 + j) = pow j) as Hw.
  { intros j Hj. pose proof (all_upto_spec _ _ (Z.to_nat j) wrap_table ltac:(lia)) as H. apply bool_decide_eq_true in H. rewrite <- H. f_equal. lia. }
  replace i with (255 + (i - 255)) at 1 by lia. rewrite Hw by lia. destruct (decide (i < 510)).
  - f_equal. f_equal. apply (Z.mod_unique_pos _ _ 1); lia.
  - replace (i - 255) with (255 + (i - 510)) by lia. rewrite Hw by lia. f_equal. f_equal. apply (Z.mod_unique_pos _ _ 2); lia.
Qed.
Lemma log_inj a b : gf a -> gf b -> a <> 0 -> b <> 0 -> log a = log b -> a = b.
Proof. intros Ha Hb Na Nb E. rewrite <- (proj2 (log_spec a Ha Na)), E. by apply log_spec. Qed.

(** ** The laws of the product *)

Lemma mul_0_l a : 0 *! a = 0.
Proof. unfold gf_mul. by rewrite decide_True by auto. Qed.
Lemma mul_0_r a : a *! 0 = 0.
Proof. unfold gf_mul. by rewrite decide_True by auto. Qed.
Lemma mul_nonzero a b : a <> 0 -> b <> 0 -> a *! b = pow (log a + log b).
Proof. intros. unfold gf_mul. by rewrite decide_False by tauto. Qed.

Lemma log_mul a b : gf a -> gf b -> a <> 0 -> b <> 0 -> gf (a *! b) /\ a *! b <> 0 /\ log (a *! b) = (log a + log b) mod 255.
Proof.
  intros Ha Hb Na Nb. rewrite mul_nonzero by done. destruct (log_spec a Ha Na), (log_spec b Hb Nb). rewrite pow_mod by lia. apply pow_spec. apply Z.mod_pos_bound. lia.
Qed.
Lemma gf_mul_ok a b : gf a -> gf b -> gf (a *! b).
Proof.
  intros Ha Hb. destruct (decide (a = 0)) as [->|]; [by rewrite mul_0_l|]. destruct (decide (b = 0)) as [->|]; [by rewrite mul_0_r|]. by apply log_mul.
Qed.
#[export] Hint Resolve gf_mul_ok : gf.

Lemma mul_comm a b : a *! b = b *! a.
Proof. unfold gf_mul. rewrite Z.add_comm. by repeat case_decide; tauto || done. Qed.
Lemma mul_eq_0 a b : gf a -> gf b -> a *! b = 0 -> a = 0 \/ b = 0.
Proof. intros Ha Hb H. destruct (decide (a = 0)); [by left|]. destruct (decide (b = 0)); [by right|]. by destruct (log_mul a b Ha Hb) as (_ & ? & _). Qed.

Lemma mul_assoc a b c : gf a -> gf b -> gf c -> a *! (b *! c) = a *! b *! c.
Proof.
  intros Ha Hb Hc. destruct (decide (a = 0)) as [->|Na]; [by rewrite !mul_0_l|]. destruct (decide (b = 0)) as [->|Nb]; [by rewrite mul_0_l, mul_0_r, mul_0_l|].
  destruct (decide (c = 0)) as [->|Nc]; [by rewrite !mul_0_r|].
  destruct (log_mul a b Ha Hb Na Nb) as (G1 & N1 & L1), (log_mul b c Hb Hc Nb Nc) as (G2 & N2 & L2).
  destruct (log_mul a (b *! c) Ha G2 Na N2) as (G3 & N3 & L3), (log_mul (a *! b) c G1 Hc N1 Nc) as (G4 & N4 & L4).
  apply log_inj; try done. rewrite L3, L4, L1, L2, Z.add_mod_idemp_r, Z.add_mod_idemp_l by lia. f_equal. lia.
Qed.

Lemma mul_1_l a : gf a -> 1 *! a = a.
Proof.
  intros Ha. destruct (decide (a = 0)) as [->|Na]; [done|]. rewrite mul_nonzero by done. change (gf_log !!! Z.to_nat 1) with 0. rewrite Z.add_0_l. by apply log_spec.
Qed.

Lemma gf_inv_spec a : gf a -> a <> 0 -> gf (gf_inv a) /\ a *! gf_inv a = 1.
Proof.
  intros Ha Na. destruct (log_spec a Ha Na) as [Hl Hp]. unfold gf_inv. rewrite decide_False by done. rewrite pow_mod by lia.
  destruct (pow_spec ((255 - log a) mod 255)) as (G & N & L); [apply Z.mod_pos_bound; lia|]. split; [done|].
  rewrite mul_nonzero by done. rewrite L. rewrite pow_mod by (pose proof (Z.mod_pos_bound (255 - log a) 255); lia).
  rewrite Z.add_mod_idemp_r by lia. replace (log a + (255 - log a)) with 255 by lia. reflexivity.
Qed.

(** A product is as many doublings as the logarithm says. *)
Lemma mul_doubles a b : gf a -> gf b -> a <> 0 -> a *! b = double (Z.to_nat (log a)) b.
Proof.
  intros Ha Hb Na. destruct (decide (b = 0)) as [->|Nb]; [by rewrite mul_0_r, double_0|]. rewrite mul_nonzero by done.
  destruct (log_spec a Ha Na) as [Hl _], (log_spec b Hb Nb) as [Hm Hp]. rewrite Z2Nat.inj_add, exp_spec, Nat.iter_add by lia.
  rewrite <- exp_spec by lia. by rewrite Hp.
Qed.
Lemma mul_xor_r a b c : gf a -> gf b -> gf c -> a *! (b +! c) = a *! b +! a *! c.
Proof.
  intros Ha Hb Hc. destruct (decide (a = 0)) as [->|Na]; [by rewrite !mul_0_l|]. rewrite !mul_doubles by auto with gf. apply double_xor.
Qed.
Lemma mul_xor_l a b c : gf a -> gf b -> gf c -> (b +! c) *! a = b *! a +! c *! a.
Proof. intros. rewrite !(mul_comm _ a). by apply mul_xor_r. Qed.

(** ** Powers *)

Lemma gf_pow_0 a : gf_pow a 0 = 1.
Proof. done. Qed.
Lemma gf_pow_S a n : gf a -> a <> 0 -> gf (gf_pow a n) /\ gf_pow a n <> 0 /\ gf_pow a (S n) = a *! gf_pow a n.
Proof.
  intros Ha Na. destruct (log_spec a Ha Na) as [Hl Hp]. unfold gf_pow at 3. rewrite !decide_False by done.
  assert (gf_pow a n = pow ((log a * Z.of_nat n) mod 255)) as E.
  { unfold gf_pow. rewrite (decide_False (P := a = 0)) by done. case_decide; [subst n; rewrite Z.mul_0_r; done|done]. }
  destruct (pow_spec ((log a * Z.of_nat n) mod 255)) as (G & N & L); [apply Z.mod_pos_bound; lia|]. rewrite E. split_and!; try done.
  rewrite mul_nonzero by done. rewrite L. rewrite (pow_mod (log a + _)) by (pose proof (Z.mod_pos_bound (log a * Z.of_nat n) 255); lia).
  rewrite Z.add_mod_idemp_r by lia. replace (log a * Z.of_nat (S n)) with (log a + log a * Z.of_nat n) by (rewrite Nat2Z.inj_succ; ring). done.
Qed.

(** Vectors of [n] elements of the field. *)
Definition gfv (n : nat) (u : vec) : Prop := length u = n /\ Forall gf u.
Definition zeros (n : nat) : vec := replicate n 0.

Lemma gfv_lookup n u i : gfv n u -> gf (u !!! i).
Proof.
  intros [_ H]. destruct (decide (i < length u)%nat) as [Hi|Hi].
  - rewrite Forall_lookup in H. apply (H i). by apply list_lookup_lookup_total_lt.
  - rewrite list_lookup_total_alt, lookup_ge_None_2 by lia. apply gf_1.
Qed.
Lemma gfv_eq n u v : gfv n u -> gfv n v -> (forall i, (i < n)%nat -> u !!! i = v !!! i) -> u = v.
Proof.
  intros [Hu _] [Hv _] H. apply list_eq. intros i. destruct (decide (i < n)%nat) as [Hi|Hi].
  - rewrite !list_lookup_lookup_total_lt by lia. f_equal. by apply H.
  - by rewrite !lookup_ge_None_2 by lia.
Qed.
Lemma gfv_app n m u v : gfv n u -> gfv m v -> gfv (n + m) (u ++ v).
Proof. intros [<- ?] [<- ?]. split; [apply length_app|by apply Forall_app]. Qed.
Lemma gfv_zeros n : gfv n (zeros n).
Proof. split; [apply length_replicate|]. apply Forall_replicate, gf_0. Qed.
Lemma gfv_build n f : (forall i, (i < n)%nat -> gf (f i)) -> gfv n (f <$> seq 0 n).
Proof. intros H. split; [by rewrite length_fmap, length_seq|]. apply Forall_fmap, Forall_seq. intros j Hj. apply H. lia. Qed.
Lemma build_lookup {A} `{!Inhabited A} (f : nat -> A) n i : (i < n)%nat -> (f <$> seq 0 n) !!! i = f i.
Proof. intros Hi. apply list_lookup_total_correct. rewrite list_lookup_fmap, lookup_seq_lt by done. done. Qed.
Lemma gfv_unit n r : gfv n (unit_row n r).
Proof. apply gfv_build. intros i _. by case_decide; auto with gf. Qed.

(** ** Sums of products *)

Lemma xor_fold a l : foldl Z.lxor a l = a +! foldl Z.lxor 0 l.
Proof.
  revert a. induction l as [|b l IH]; intros a; cbn [foldl]; [by rewrite Z.lxor_0_r|]. rewrite (IH (a +! b)), (IH (0 +! b)). by rewrite Z.lxor_0_l, Z.lxor_assoc.
Qed.
Lemma dot_cons a u b v : dot (a :: u) (b :: v) = a *! b +! dot u v.
Proof. unfold dot. cbn [zip_with foldl]. by rewrite xor_fold, Z.lxor_0_l. Qed.
Lemma dot_nil v : dot [] v = 0.
Proof. done. Qed.
Lemma dot_comm u v : dot u v = dot v u.
Proof. unfold dot. f_equal. revert v. induction u as [|a u IH]; intros [|b v]; cbn; try done. by rewrite mul_comm, IH. Qed.
Lemma dot_gf u v : Forall gf u -> Forall gf v -> gf (dot u v).
Proof.
  intros Hu. revert v. induction Hu as [|a u Ha Hu IH]; intros v Hv; [apply gf_0|]. destruct Hv as [|b v Hb Hv]; [apply gf_0|]. rewrite dot_cons. auto with gf.
Qed.
Lemma dot_app u1 u2 v1 v2 : length u1 = length v1 -> dot (u1 ++ u2) (v1 ++ v2) = dot u1 v1 +! dot u2 v2.
Proof.
  revert v1. induction u1 as [|a u1 IH]; intros [|b v1] Hl; try done; cbn [app].
  rewrite !dot_cons, IH by (cbn in Hl; lia). by rewrite Z.lxor_assoc.
Qed.
Lemma dot_scale_l a u v : gf a -> Forall gf u -> Forall gf v -> dot ((fun x => a *! x) <$> u) v = a *! dot u v.
Proof.
  intros Ha Hu. revert v. induction Hu as [|b u Hb Hu IH]; intros v Hv; [by rewrite mul_0_r|]. destruct Hv as [|c v Hc Hv]; [by rewrite dot_comm, (dot_comm _ []), mul_0_r|].
  cbn [fmap list_fmap]. rewrite !dot_cons, IH, <- mul_assoc by done. symmetry. apply mul_xor_r; auto using dot_gf with gf.
Qed.
Lemma dot_add_l u w v : length u = length w -> Forall gf u -> Forall gf w -> Forall gf v -> dot (zip_with Z.lxor u w) v = dot u v +! dot w v.
Proof.
  intros Hl Hu. revert w v Hl. induction Hu as [|a u Ha Hu IH]; intros w v Hl Hw Hv; [destruct w; done|]. destruct Hw as [|b w Hb Hw]; [done|].
  destruct Hv as [|c v Hc Hv]; [done|]. cbn [zip_with]. rewrite !dot_cons, IH by (done || cbn in Hl; lia). rewrite mul_xor_l by done.
  apply Z.bits_inj'. intros i _. rewrite !Z.lxor_spec. by destruct (Z.testbit _ i), (Z.testbit _ i), (Z.testbit _ i), (Z.testbit _ i).
Qed.
Lemma dot_zeros_r u n : dot u (zeros n) = 0.
Proof. revert u. induction n as [|n IH]; intros [|a u]; try done. cbn [zeros replicate]. fold (zeros n). by rewrite dot_cons, IH, mul_0_r. Qed.
(** The elements from [s] on of a unit row. *)
Definition unit_from (r s n : nat) : vec := (fun j => if decide (j = r) then 1 else 0) <$> seq s n.
Lemma unit_from_S r s n : unit_from r s (S n) = (if decide (s = r) then 1 else 0) :: unit_from r (S s) n.
Proof. done. Qed.
Lemma dot_unit_from v r s : Forall gf v -> dot (unit_from r s (length v)) v = if decide (s <= r < s + length v)%nat then v !!! (r - s)%nat else 0.
Proof.
  intros Hv. revert s. induction Hv as [|a v Ha Hv IH]; intros s; [by rewrite decide_False by (cbn; lia)|]. cbn [length]. rewrite unit_from_S, dot_cons, IH.
  destruct (decide (s = r)) as [->|Hs].
  - rewrite mul_1_l, decide_False, decide_True, Z.lxor_0_r, Nat.sub_diag by (done || lia). done.
  - rewrite mul_0_l, Z.lxor_0_l. destruct (decide (S s <= r < S s + length v)%nat); [|by rewrite decide_False by lia].
    rewrite decide_True by lia. by replace (r - s)%nat with (S (r - S s)) by lia.
Qed.
Lemma dot_unit n r v : gfv n v -> (r < n)%nat -> dot (unit_row n r) v = v !!! r.
Proof. intros [<- Hv] Hr. change (unit_row (length v) r) with (unit_from r 0 (length v)). by rewrite dot_unit_from, decide_True, Nat.sub_0_r by (done || lia). Qed.

(** ** Matrices of [n] rows of [w] elements *)

Definition wf (n w : nat) (m : mat) : Prop := length m = n /\ forall r, (r < n)%nat -> gfv w (m !!! r).
Definition mvec (m : mat) (x : vec) : vec := (fun row => dot row x) <$> m.

Lemma mvec_lookup m x r : (r < length m)%nat -> mvec m x !!! r = dot (m !!! r) x.
Proof. intros Hr. apply list_lookup_total_correct. unfold mvec. by rewrite list_lookup_fmap, list_lookup_lookup_total_lt by done. Qed.
Lemma mvec_gfv n w m x : wf n w m -> gfv w x -> gfv n (mvec m x).
Proof.
  intros [Hl Hm] [_ Hx]. split; [by unfold mvec; rewrite length_fmap|]. apply Forall_fmap, Forall_lookup. intros r row Hr. pose proof (lookup_lt_Some _ _ _ Hr).
  apply dot_gf; [|done]. rewrite <- (list_lookup_total_correct _ _ _ Hr). apply Hm. lia.
Qed.
Lemma mvec_eq n w m x y : wf n w m -> gfv w x -> gfv n y -> (mvec m x = y <-> forall r, (r < n)%nat -> dot (m !!! r) x = y !!! r).
Proof.
  intros Hw Hx Hy. pose proof (mvec_gfv n w m x Hw Hx) as Hv. destruct Hw as [Hl Hm]. split.
  - intros <- r Hr. by rewrite mvec_lookup by lia.
  - intros H. apply (gfv_eq n); try done. intros r Hr. rewrite mvec_lookup by lia. by apply H.
Qed.
Lemma wf_build n w (f : nat -> vec) : (forall r, (r < n)%nat -> gfv w (f r)) -> wf n w (f <$> seq 0 n).
Proof. intros H. split; [by rewrite length_fmap, length_seq|]. intros r Hr. rewrite build_lookup by done. by apply H. Qed.

(** ** Row operations keep the solutions *)

Definition sol (n : nat) (m : mat) (z : vec) : Prop := forall r, (r < n)%nat -> dot (m !!! r) z = 0.

Lemma insert_lookup_total {A} `{!Inhabited A} (l : list A) i j x : (i < length l)%nat -> <[i := x]> l !!! j = if decide (j = i) then x else l !!! j.
Proof. intros Hi. case_decide as Hj; [subst; by apply list_lookup_total_insert_eq|by apply list_lookup_total_insert_ne]. Qed.

Lemma swap_lookup m i j r : (i < length m)%nat -> (j < length m)%nat ->
  swap_rows m i j !!! r = m !!! (if decide (r = i) then j else if decide (r = j) then i else r).
Proof. intros Hi Hj. unfold swap_rows. rewrite !insert_lookup_total by (rewrite ?length_insert; done). by repeat case_decide. Qed.
Lemma swap_wf n w m i j : wf n w m -> (i < n)%nat -> (j < n)%nat -> wf n w (swap_rows m i j).
Proof.
  intros [Hl Hm] Hi Hj. split; [unfold swap_rows; by rewrite !length_insert|]. intros r Hr. rewrite swap_lookup by lia. apply Hm. by repeat case_decide.
Qed.
Lemma swap_sol n m i j z : length m = n -> (i < n)%nat -> (j < n)%nat -> sol n (swap_rows m i j) z <-> sol n m z.
Proof.
  intros Hl Hi Hj. split; intros H r Hr.
  - specialize (H (if decide (r = i) then j else if decide (r = j) then i else r)). rewrite swap_lookup in H by lia.
    repeat case_decide; subst; try done; try (by apply H); naive_solver.
  - rewrite swap_lookup by lia. apply H. by repeat case_decide.
Qed.

Lemma scale_gfv w row a : gf a -> gfv w row -> gfv w ((fun x => gf_mul x a) <$> row).
Proof. intros Ha [Hl Hr]. split; [by rewrite length_fmap|]. apply Forall_fmap. eapply Forall_impl; [done|]. intros x Hx. cbn. auto with gf. Qed.
Lemma normalise_lookup m c r : (c < length m)%nat ->
  normalise m c !!! r = if decide (r = c) then (fun x => gf_mul x (gf_inv (m !!! c !!! c))) <$> (m !!! c) else m !!! r.
Proof. intros Hc. unfold normalise. by rewrite insert_lookup_total. Qed.
Lemma normalise_wf n w m c : wf n w m -> (c < n)%nat -> m !!! c !!! c <> 0 -> wf n w (normalise m c).
Proof.
  intros [Hl Hm] Hc Hp. split; [unfold normalise; by rewrite length_insert|]. intros r Hr. rewrite normalise_lookup by lia. case_decide; [|by apply Hm].
  apply scale_gfv; [|by apply Hm]. apply gf_inv_spec; [|done]. eapply gfv_lookup. by apply Hm.
Qed.
Lemma dot_scale w row a z : gf a -> gfv w row -> gfv w z -> dot ((fun x => gf_mul x a) <$> row) z = a *! dot row z.
Proof. intros Ha [_ Hr] [_ Hz]. rewrite <- dot_scale_l by done. f_equal. apply list_fmap_ext. intros i x _. apply mul_comm. Qed.
Lemma normalise_sol n w m c z : wf n w m -> (c < n)%nat -> m !!! c !!! c <> 0 -> gfv w z -> sol n (normalise m c) z <-> sol n m z.
Proof.
  intros [Hl Hm] Hc Hp Hz. destruct (gf_inv_spec (m !!! c !!! c)) as [Hi H1]; [eapply gfv_lookup; by apply Hm|done|].
  assert (dot (normalise m c !!! c) z = gf_inv (m !!! c !!! c) *! dot (m !!! c) z) as Hd.
  { rewrite normalise_lookup, decide_True by (done || lia). eapply dot_scale; [done|by apply Hm|done]. }
  split; intros H r Hr; destruct (decide (r = c)) as [->|Hrc].
  - specialize (H c Hc). rewrite Hd in H. apply mul_eq_0 in H as [H|H]; [|done|done|by apply dot_gf; [apply Hm|apply Hz]]. rewrite H, mul_0_r in H1. done.
  - specialize (H r Hr). by rewrite normalise_lookup, decide_False in H by (done || lia).
  - rewrite Hd, (H c Hc). apply mul_0_r.
  - rewrite normalise_lookup, decide_False by (done || lia). by apply H.
Qed.

Definition axpy (f : Z) (row pivot : vec) : vec := zip_with (fun x y => Z.lxor x (gf_mul f y)) row pivot.
Lemma axpy_split f row pivot : axpy f row pivot = zip_with Z.lxor row ((fun y => f *! y) <$> pivot).
Proof. unfold axpy. by rewrite zip_with_fmap_r. Qed.
Lemma axpy_gfv w f row pivot : gf f -> gfv w row -> gfv w pivot -> gfv w (axpy f row pivot).
Proof.
  intros Hf [Hl Hr] [Hl' Hp]. split; [unfold axpy; rewrite length_zip_with; lia|]. apply Forall_lookup. intros i x Hx.
  apply lookup_zip_with_Some in Hx as (a & b & -> & Ha & Hb). rewrite Forall_lookup in Hr, Hp. apply gf_xor; [by eapply Hr|]. apply gf_mul_ok; [done|by eapply Hp].
Qed.
Lemma axpy_dot w f row pivot z : gf f -> gfv w row -> gfv w pivot -> gfv w z -> dot (axpy f row pivot) z = dot row z +! f *! dot pivot z.
Proof.
  intros Hf [Hl Hr] [Hl' Hp] [_ Hz]. rewrite axpy_split, dot_add_l, dot_scale_l; try done; [by rewrite length_fmap, Hl, Hl'|].
  apply Forall_fmap. eapply Forall_impl; [done|]. intros x Hx. cbn. auto with gf.
Qed.
Lemma axpy_lookup w f row pivot j : gfv w row -> gfv w pivot -> (j < w)%nat -> axpy f row pivot !!! j = row !!! j +! f *! pivot !!! j.
Proof.
  intros [Hl _] [Hl' _] Hj. apply list_lookup_total_correct. unfold axpy. apply lookup_zip_with_Some. eexists _, _. split; [done|].
  split; apply list_lookup_lookup_total_lt; lia.
Qed.

Lemma eliminate_lookup w m c r : (c < w)%nat -> gfv w (m !!! r) -> gfv w (m !!! c) -> (r < length m)%nat ->
  eliminate m c !!! r = if decide (r = c) then m !!! r else axpy (m !!! r !!! c) (m !!! r) (m !!! c).
Proof.
  intros Hc Hr Hp Hl. apply list_lookup_total_correct. unfold eliminate. rewrite list_lookup_imap, (list_lookup_lookup_total_lt m r) by done. cbn. f_equal. case_decide; [done|].
  case_decide as H0; [|done]. rewrite H0. symmetry. apply (gfv_eq w); [apply axpy_gfv; auto with gf|done|]. intros j Hj. by rewrite (axpy_lookup w), mul_0_l, Z.lxor_0_r.
Qed.
Lemma eliminate_wf n w m c : wf n w m -> (c < n)%nat -> (c < w)%nat -> wf n w (eliminate m c).
Proof.
  intros [Hl Hm] Hc Hw. split; [unfold eliminate; by rewrite length_imap|]. intros r Hr. rewrite (eliminate_lookup w) by (auto || lia). case_decide; [by apply Hm|].
  apply axpy_gfv; try by apply Hm. eapply gfv_lookup. by apply Hm.
Qed.
Lemma eliminate_sol n w m c z : wf n w m -> (c < n)%nat -> (c < w)%nat -> gfv w z -> sol n (eliminate m c) z <-> sol n m z.
Proof.
  intros [Hl Hm] Hc Hw Hz.
  assert (forall r, (r < n)%nat -> dot (m !!! c) z = 0 -> dot (eliminate m c !!! r) z = dot (m !!! r) z) as H.
  { intros r Hr H0. rewrite (eliminate_lookup w) by (auto || lia). case_decide; [done|]. rewrite (axpy_dot w) by first [done | by apply Hm | eapply gfv_lookup; by apply Hm].
    by rewrite H0, mul_0_r, Z.lxor_0_r. }
  split; intros Hs.
  - assert (dot (m !!! c) z = 0) as H0 by (specialize (Hs c Hc); by rewrite (eliminate_lookup w), decide_True in Hs by (auto || lia)).
    intros r Hr. rewrite <- H by done. by apply Hs.
  - intros r Hr. rewrite H by (done || by apply Hs). by apply Hs.
Qed.

(** ** One column *)

(** The first [c] columns are those of the unit matrix. *)
Definition unit_columns (n : nat) (m : mat) (c : nat) : Prop := forall r j, (r < n)%nat -> (j < c)%nat -> m !!! r !!! j = if decide (r = j) then 1 else 0.

Lemma find_pivot_spec m n c : match find_pivot m n c with
  | Some p => (c <= p < n)%nat /\ m !!! p !!! c <> 0
  | None => forall p, (c <= p < n)%nat -> m !!! p !!! c = 0
  end.
Proof.
  unfold find_pivot. destruct (filter _ _) as [|p l] eqn:E; cbn.
  - intros p Hp. destruct (decide (m !!! p !!! c = 0)) as [|Hn]; [done|]. assert (p ∈ filter (fun p => m !!! p !!! c <> 0) (seq c (n - c))) as H; [|rewrite E in H; by apply elem_of_nil in H].
    apply list_elem_of_filter. split; [done|]. apply elem_of_seq. lia.
  - assert (p ∈ filter (fun p => m !!! p !!! c <> 0) (seq c (n - c))) as H by (rewrite E; left). apply list_elem_of_filter in H as [H1 H2]. apply elem_of_seq in H2. split; [lia|done].
Qed.

Definition invert_inv (n : nat) (m0 m : mat) (c : nat) : Prop :=
  wf n (n + n) m /\ unit_columns n m c /\ forall z, gfv (n + n) z -> sol n m z <-> sol n m0 z.

Lemma clear_column n m0 m c : (c < n)%nat -> wf n (n + n) m -> m !!! c !!! c <> 0 -> unit_columns n m c ->
  (forall z, gfv (n + n) z -> sol n m z <-> sol n m0 z) -> invert_inv n m0 (eliminate (normalise m c) c) (S c).
Proof.
  intros Hc Hw Hn Hu Hs.
  pose proof (normalise_wf n _ m c Hw Hc Hn) as Hw2. assert (length m = n) as Hl by apply Hw. assert (c < n + n)%nat as Hcn by lia.
  destruct (gf_inv_spec (m !!! c !!! c)) as [Hi H1]; [eapply gfv_lookup; by apply Hw|done|].
  assert (forall j, (j < n + n)%nat -> ((fun x => gf_mul x (gf_inv (m !!! c !!! c))) <$> (m !!! c)) !!! j = (m !!! c !!! j) *! gf_inv (m !!! c !!! c)) as Hj.
  { intros j Hj. apply list_lookup_total_correct. rewrite list_lookup_fmap, list_lookup_lookup_total_lt; [done|]. destruct Hw as [_ Hw]. destruct (Hw c Hc). lia. }
  assert (normalise m c !!! c !!! c = 1) as Hone by (by rewrite normalise_lookup, decide_True, Hj by (done || lia)).
  assert (unit_columns n (normalise m c) c) as Hu2.
  { intros r j Hr Hjc. rewrite normalise_lookup by lia. destruct (decide (r = c)) as [->|]; [|by apply Hu]. rewrite Hj, Hu, decide_False, mul_0_l by lia. done. }
  assert (forall z, gfv (n + n) z -> sol n (normalise m c) z <-> sol n m0 z) as Hs2 by (intros z Hz; rewrite (normalise_sol n (n + n)) by done; by apply Hs).
  revert Hone Hu2 Hs2 Hw2. generalize (normalise m c). clear m Hw Hu Hn Hs Hl Hi H1 Hj. intros m Hone Hu Hs Hw. split_and!.
  - by apply eliminate_wf.
  - assert (length m = n) as Hl by apply Hw. intros r j Hr Hj. rewrite (eliminate_lookup (n + n)) by (apply Hw || lia; lia). destruct (decide (r = c)) as [->|Hrc].
    + destruct (decide (j = c)) as [->|]; [by rewrite decide_True|]. rewrite Hu by lia. done.
    + rewrite (axpy_lookup (n + n)) by (apply Hw || lia; lia). destruct (decide (j = c)) as [->|]; [|by rewrite (Hu c), (decide_False (P := c = j)), mul_0_r, Z.lxor_0_r, Hu by lia].
      rewrite Hone, mul_comm, mul_1_l, Z.lxor_nilpotent, decide_False by (done || (eapply gfv_lookup; by apply Hw)). done.
  - intros z Hz. rewrite (eliminate_sol n (n + n)) by (done || lia). by apply Hs.
Qed.

Lemma invert_step_inv n m0 m c : invert_inv n m0 m c -> (c < n)%nat ->
  match invert_step n (Some m) c with
  | Some m' => invert_inv n m0 m' (S c)
  | None => forall p, (c <= p < n)%nat -> m !!! p !!! c = 0
  end.
Proof.
  intros (Hw & Hu & Hs) Hc. unfold invert_step. cbn [mbind option_bind]. pose proof (find_pivot_spec m n c) as Hp. destruct (find_pivot m n c) as [p|]; cbn [mbind option_bind]; [|done].
  destruct Hp as [Hp Hn0]. set (m1 := if decide (p <> c) then swap_rows m c p else m).
  assert (m1 = swap_rows m c p) as E1.
  { subst m1. case_decide as Hpc; [done|]. subst p. unfold swap_rows. rewrite list_insert_insert_eq. symmetry. apply list_insert_id, list_lookup_lookup_total_lt. destruct Hw. lia. }
  clearbody m1. subst m1. assert (length m = n) as Hl by apply Hw. assert (p < n)%nat as Hpn by lia. pose proof (swap_wf n _ m c p Hw Hc Hpn) as Hw1.
  assert (forall r, swap_rows m c p !!! r = m !!! (if decide (r = c) then p else if decide (r = p) then c else r)) as Hl1 by (intros r; apply swap_lookup; lia).
  assert (unit_columns n (swap_rows m c p) c) as Hu1.
  { intros r j Hr Hj. rewrite Hl1. destruct (decide (r = c)) as [->|]; [rewrite Hu, !decide_False by lia; done|]. destruct (decide (r = p)) as [->|]; [rewrite Hu, !decide_False by lia; done|]. by apply Hu. }
  assert (swap_rows m c p !!! c !!! c <> 0) as Hn1 by (by rewrite Hl1, decide_True).
  assert (forall z, gfv (n + n) z -> sol n (swap_rows m c p) z <-> sol n m0 z) as Hs1 by (intros z Hz; rewrite swap_sol by done; by apply Hs).
  by apply clear_column.
Qed.

(** ** The whole inversion *)

Lemma invert_fold n m0 c : (c <= n)%nat -> invert_inv n m0 m0 0 ->
  match foldl (invert_step n) (Some m0) (seq 0 c) with
  | Some m => invert_inv n m0 m c
  | None => exists c' m, (c' < c)%nat /\ invert_inv n m0 m c' /\ forall p, (c' <= p < n)%nat -> m !!! p !!! c' = 0
  end.
Proof.
  intros Hc H0. induction c as [|c IH]; [done|]. rewrite seq_S, foldl_app. cbn [foldl]. specialize (IH ltac:(lia)).
  destruct (foldl _ _ _) as [m|].
  - pose proof (invert_step_inv n m0 m c IH ltac:(lia)) as Hs. destruct (invert_step n (Some m) (0 + c)) eqn:E; cbn [Nat.add] in E; rewrite E in Hs; [done|].
    exists c, m. split; [lia|done].
  - destruct IH as (c' & m & Hc' & H). cbn. exists c', m. split; [lia|done].
Qed.

(** A column without a pivot: the vector that combines the columns before it. *)
Definition kernel_vector (n c : nat) (m : mat) : vec := (fun j => if decide (j < c)%nat then m !!! j !!! c else if decide (j = c) then 1 else 0) <$> seq 0 n.

Lemma dot_take_drop k u v : dot u v = dot (take k u) (take k v) +! dot (drop k u) (drop k v) \/ (length u < k)%nat \/ (length v < k)%nat.
Proof.
  destruct (decide (length u < k)%nat); [by right; left|]. destruct (decide (length v < k)%nat); [by right; right|]. left.
  rewrite <- (take_drop k u) at 1. rewrite <- (take_drop k v) at 1. apply dot_app. rewrite !length_take. lia.
Qed.
Lemma gfv_take n k u : gfv n u -> (k <= n)%nat -> gfv k (take k u).
Proof. intros [Hl H] Hk. split; [rewrite length_take; lia|by apply Forall_take]. Qed.
Lemma gfv_drop n k u : gfv n u -> (k <= n)%nat -> gfv (n - k) (drop k u).
Proof. intros [Hl H] Hk. split; [rewrite length_drop; lia|by apply Forall_drop]. Qed.
Lemma take_total u k i : (i < k)%nat -> (k <= length u)%nat -> take k u !!! i = (u : vec) !!! i.
Proof. intros Hi Hk. apply list_lookup_total_correct. rewrite lookup_take_lt by done. apply list_lookup_lookup_total_lt. lia. Qed.
Lemma drop_total u k i : (k + i < length u)%nat -> drop k u !!! i = (u : vec) !!! (k + i)%nat.
Proof. intros Hi. apply list_lookup_total_correct. rewrite lookup_drop. by apply list_lookup_lookup_total_lt. Qed.
Lemma split_total u k : (k < length u)%nat -> drop k u = (u : vec) !!! k :: drop (S k) u.
Proof. intros Hk. apply drop_S. by apply list_lookup_lookup_total_lt. Qed.

Lemma kernel_solves n m c : (c < n)%nat -> wf n (n + n) m -> unit_columns n m c -> (forall p, (c <= p < n)%nat -> m !!! p !!! c = 0) ->
  let x := kernel_vector n c m in gfv n x /\ x <> zeros n /\ sol n m (x ++ zeros n).
Proof.
  intros Hc [Hl Hm] Hu Hp x.
  assert (gfv n x) as Hx.
  { apply gfv_build. intros j Hj. case_decide; [|by case_decide; auto with gf]. eapply gfv_lookup. apply Hm. lia. }
  assert (forall j, (j < n)%nat -> x !!! j = if decide (j < c)%nat then m !!! j !!! c else if decide (j = c) then 1 else 0) as Hxj by (intros j Hj; by apply build_lookup).
  split; [done|]. split.
  { intros E. assert (x !!! c = 0) as H by (rewrite E; apply list_lookup_total_correct, lookup_replicate_2; done). rewrite Hxj, decide_False, decide_True in H by lia. done. }
  intros r Hr. pose proof (Hm r Hr) as Hrow. destruct Hrow as [Hrl Hrg]. destruct Hx as [Hxl Hxg].
  destruct (dot_take_drop n (m !!! r) (x ++ zeros n)) as [E|[E|E]]; [|lia|rewrite length_app, Hxl in E; lia]. rewrite E. clear E.
  rewrite take_app_length', drop_app_length', dot_zeros_r, Z.lxor_0_r by done.
  destruct (dot_take_drop c (take n (m !!! r)) x) as [E|[E|E]]; [|rewrite length_take in E; lia|lia]. rewrite E. clear E.
  rewrite take_take, (Nat.min_l c n) by lia. rewrite (split_total (take n (m !!! r))), (split_total x) by (rewrite ?length_take; lia).
  rewrite dot_cons, take_total, Hxj, decide_False, decide_True by lia. rewrite mul_comm, mul_1_l by (eapply gfv_lookup; by apply Hm).
  assert (drop (S c) x = zeros (n - S c)) as ->.
  { apply (gfv_eq (n - S c)); [by apply gfv_drop|apply gfv_zeros|]. intros i Hi. rewrite drop_total, Hxj, !decide_False by lia. symmetry. by apply list_lookup_total_correct, lookup_replicate_2. }
  rewrite dot_zeros_r, Z.lxor_0_r. assert (gfv c (take c x)) as Htx by (eapply gfv_take; [done|lia]).
  destruct (decide (r < c)%nat) as [Hrc|Hrc].
  - assert (take c (m !!! r) = unit_row c r) as ->.
    { apply (gfv_eq c); [eapply gfv_take; [by apply Hm|lia]|apply gfv_unit|]. intros j Hj. rewrite take_total by lia. rewrite Hu by lia. unfold unit_row. rewrite build_lookup by done. by do 2 case_decide; subst. }
    rewrite dot_unit by done. rewrite take_total, Hxj, decide_True by lia. apply Z.lxor_nilpotent.
  - rewrite (Hp r) by lia. rewrite Z.lxor_0_r. assert (take c (m !!! r) = zeros c) as ->; [|by rewrite dot_comm, dot_zeros_r].
    apply (gfv_eq c); [eapply gfv_take; [by apply Hm|lia]|apply gfv_zeros|]. intros j Hj. rewrite take_total by lia. rewrite Hu, decide_False by lia.
    symmetry. by apply list_lookup_total_correct, lookup_replicate_2.
Qed.

Lemma imp_iff (P Q R : Prop) : (P -> (Q <-> R)) -> ((P -> Q) <-> (P -> R)).
Proof. tauto. Qed.

Definition augment (n : nat) (m : mat) : mat := imap (fun r row => row ++ unit_row n r) m.
Lemma augment_lookup n m r : (r < length m)%nat -> augment n m !!! r = m !!! r ++ unit_row n r.
Proof. intros Hr. apply list_lookup_total_correct. unfold augment. by rewrite list_lookup_imap, list_lookup_lookup_total_lt. Qed.
Lemma augment_sol n m x y : wf n n m -> gfv n x -> gfv n y -> sol n (augment n m) (x ++ y) <-> mvec m x = y.
Proof.
  intros Hw Hx Hy. rewrite (mvec_eq n n) by done. destruct Hw as [Hl Hm]. unfold sol.
  apply forall_proper. intros r. apply imp_iff. intros Hr.
  rewrite augment_lookup, dot_app, dot_unit by (done || lia || (destruct (Hm r Hr), Hx; lia)). apply Z.lxor_eq_0_iff.
Qed.
Lemma augment_inv n m : wf n n m -> invert_inv n (augment n m) (augment n m) 0.
Proof.
  intros [Hl Hm]. split; [|split; [intros r j _ ?; lia|done]]. split; [unfold augment; by rewrite length_imap|].
  intros r Hr. rewrite augment_lookup by lia. apply gfv_app; [by apply Hm|apply gfv_unit].
Qed.
Lemma mvec_zeros n m : wf n n m -> mvec m (zeros n) = zeros n.
Proof.
  intros Hw. apply (mvec_eq n n); [done|apply gfv_zeros|apply gfv_zeros|]. intros r Hr. rewrite dot_zeros_r. symmetry. by apply list_lookup_total_correct, lookup_replicate_2.
Qed.

(** The inverse is returned exactly for the matrices that are invertible: it solves every system of
    equations, and a matrix without an inverse sends some vector other than zero to zero. *)
Theorem matrix_invert_spec n m : wf n n m ->
  match matrix_invert m n with
  | Some inv => wf n n inv /\ forall x y, gfv n x -> gfv n y -> mvec m x = y <-> mvec inv y = x
  | None => exists x, gfv n x /\ x <> zeros n /\ mvec m x = zeros n
  end.
Proof.
  intros Hw. unfold matrix_invert. cbv zeta. fold (augment n m). pose proof (invert_fold n (augment n m) n (le_n _) (augment_inv n m Hw)) as H.
  destruct (foldl _ _ _) as [aug|]; cbn [fmap option_fmap option_map].
  - destruct H as ([Hl Ha] & Hu & Hs). assert (forall r, (r < n)%nat -> (drop n <$> aug) !!! r = drop n (aug !!! r)) as Hd.
    { intros r Hr. apply list_lookup_total_correct. rewrite list_lookup_fmap, list_lookup_lookup_total_lt by lia. done. }
    assert (wf n n (drop n <$> aug)) as Hwi.
    { split; [by rewrite length_fmap|]. intros r Hr. rewrite Hd by done. replace n with (n + n - n)%nat at 1 by lia. apply gfv_drop; [by apply Ha|lia]. }
    split; [done|]. intros x y Hx Hy. rewrite <- augment_sol by done. rewrite <- Hs by (by apply gfv_app). rewrite (mvec_eq n n) by done.
    unfold sol. apply forall_proper. intros r. apply imp_iff. intros Hr. rewrite Hd by done.
    assert (aug !!! r = unit_row n r ++ drop n (aug !!! r)) as E.
    { rewrite <- (take_drop n (aug !!! r)) at 1. f_equal. apply (gfv_eq n); [eapply gfv_take; [by apply Ha|lia]|apply gfv_unit|]. intros j Hj.
      destruct (Ha r Hr). rewrite take_total by lia. rewrite Hu by lia. unfold unit_row. rewrite build_lookup by done. by do 2 case_decide; subst. }
    rewrite E at 1. rewrite dot_app by (destruct (gfv_unit n r), Hx; lia). rewrite dot_unit by done. rewrite Z.lxor_eq_0_iff. done.
  - destruct H as (c & aug & Hc & (Ha & Hu & Hs) & Hp). destruct (kernel_solves n aug c Hc Ha Hu Hp) as (Hx & Hn & Hz).
    exists (kernel_vector n c aug). split_and!; try done. apply (proj1 (augment_sol n m _ _ Hw Hx (gfv_zeros n))). apply Hs; [apply gfv_app; [done|apply gfv_zeros]|done].
Qed.
