(* ===== verification/ErasureCode.v ===== *)
(** * The erasure code: any k shards give the data back

    Rows of powers of distinct elements are independent (a polynomial has no
    more roots than its degree), so any k rows of the generator are invertible,
    and the first k are those of the unit matrix.  Encoding a file in stripes
    gives the shards of the whole.  Witnesses of the theorems on the erasure
    code follow. *)

From stdpp Require Import list.
From S2P Require Import Prelude Erasure ErasureMatrix.

(** ** Polynomials *)

Fixpoint eval (p : vec) (x : Z) : Z := match p with [] => 0 | a :: p => a +! x *! eval p x end.
(** The quotient by x + a. *)
Fixpoint quot (a : Z) (p : vec) : vec := match p with [] => [] | _ :: p => match p with [] => [] | _ => eval p a :: quot a p end end.

Lemma eval_gf p x : Forall gf p -> gf x -> gf (eval p x).
Proof. intros Hp Hx. induction Hp as [|a p Ha Hp IH]; cbn; auto with gf. Qed.
#[local] Hint Resolve eval_gf : gf.
Lemma quot_gf a p : gf a -> Forall gf p -> Forall gf (quot a p).
Proof. intros Ha Hp. induction Hp as [|b p Hb Hp IH]; [done|]. cbn. destruct p; [done|]. constructor; auto with gf. Qed.
Lemma quot_length a p : length (quot a p) = (length p - 1)%nat.
Proof. induction p as [|b p IH]; [done|]. cbn [quot]. destruct p as [|c p]; [done|]. cbn [length] in *. lia. Qed.

Lemma eval_quot p x a : Forall gf p -> gf x -> gf a -> eval p x +! eval p a = (x +! a) *! eval (quot a p) x.
Proof.
  intros Hp Hx Ha. induction Hp as [|b p Hb Hp IH]; [by rewrite mul_0_r|]. cbn [quot]. destruct p as [|c p].
  { cbn. rewrite !mul_0_r, !Z.lxor_0_r. apply Z.lxor_nilpotent. }
  set (p' := c :: p) in *. clearbody p'. cbn [eval]. pose proof (quot_gf a p' Ha Hp).
  rewrite mul_xor_r by auto with gf. rewrite (mul_assoc (x +! a) x), (mul_comm (x +! a) x), <- mul_assoc by auto with gf. rewrite <- IH.
  rewrite (mul_xor_r x), (mul_xor_l _ x a) by auto with gf.
  apply Z.bits_inj'. intros i _. rewrite !Z.lxor_spec. by destruct (Z.testbit b i), (Z.testbit (x *! eval p' x) i), (Z.testbit (a *! eval p' a) i), (Z.testbit (x *! eval p' a) i).
Qed.

Lemma quot_zero a p : gf a -> Forall gf p -> Forall (eq 0) (quot a p) -> eval p a = 0 -> Forall (eq 0) p.
Proof.
  intros Ha Hp. induction Hp as [|b p Hb Hp IH]; [done|]. cbn [quot eval]. destruct p as [|c p].
  - intros _ H. cbn in H. rewrite mul_0_r, Z.lxor_0_r in H. by repeat constructor.
  - intros [H1 H2]%Forall_cons H. rewrite <- H1, mul_0_r, Z.lxor_0_r in H. constructor; [done|]. by apply IH.
Qed.

(** No more roots than coefficients. *)
Lemma too_many_roots rs : forall p, NoDup rs -> Forall gf rs -> Forall gf p -> (length p <= length rs)%nat -> (forall r, r ∈ rs -> eval p r = 0) -> Forall (eq 0) p.
Proof.
  induction rs as [|a rs IH]; intros p Hn Hr Hp Hl H; [destruct p; [constructor|cbn in Hl; lia]|].
  apply NoDup_cons in Hn as [Hna Hn]. apply Forall_cons in Hr as [Ha Hr]. assert (eval p a = 0) as Hpa by (apply H; left).
  apply (quot_zero a); try done. apply IH; try done; [by apply quot_gf|rewrite quot_length; cbn in Hl; lia|]. intros r Hin.
  assert (gf r) as Hgr by (rewrite Forall_forall in Hr; by apply Hr). pose proof (eval_quot p r a Hp Hgr Ha) as E. assert (eval p r = 0) as Hpr by (apply H; by apply list_elem_of_further). rewrite Hpa, Hpr in E.
  symmetry in E. apply mul_eq_0 in E as [E|E]; [|done|auto with gf|apply eval_gf; [by apply quot_gf|done]]. apply Z.lxor_eq in E. subst a. by destruct Hna.
Qed.

(** ** Rows of powers *)

Definition powers (x : Z) (k : nat) : vec := (fun c => gf_pow x c) <$> seq 0 k.
Lemma powers_dot_from x p s : gf x -> x <> 0 -> Forall gf p -> dot ((fun c => gf_pow x c) <$> seq s (length p)) p = gf_pow x s *! eval p x.
Proof.
  intros Hx Hn Hp. revert s. induction Hp as [|a p Ha Hp IH]; intros s; [by rewrite mul_0_r|].
  change (seq s (length (a :: p))) with (s :: seq (S s) (length p)). rewrite fmap_cons, dot_cons, IH. destruct (gf_pow_S x s Hx Hn) as (G & _ & ->). cbn [eval].
  rewrite mul_xor_r by auto with gf. f_equal. rewrite (mul_comm x), <- mul_assoc by auto with gf. done.
Qed.
Lemma powers_gfv x k : gf x -> x <> 0 -> gfv k (powers x k).
Proof. intros Hx Hn. apply gfv_build. intros c _. by apply gf_pow_S. Qed.
Lemma powers_dot x k p : gf x -> x <> 0 -> gfv k p -> dot (powers x k) p = eval p x.
Proof. intros Hx Hn [<- Hp]. unfold powers. rewrite powers_dot_from by done. rewrite gf_pow_0, mul_1_l; [done|]. by apply eval_gf. Qed.

Definition point (r : nat) : Z := Z.of_nat (r + 1) mod 256.
Lemma vandermonde_lookup n k r : (r < n)%nat -> vandermonde n k !!! r = powers (point r) k.
Proof. intros Hr. unfold vandermonde. by rewrite build_lookup. Qed.
Lemma point_gf r : (r < 255)%nat -> gf (point r) /\ point r <> 0 /\ point r = Z.of_nat r + 1.
Proof. intros Hr. unfold point, gf. rewrite Z.mod_small by lia. lia. Qed.
Lemma vandermonde_wf n k : (n <= 255)%nat -> wf n k (vandermonde n k).
Proof. intros Hn. apply wf_build. intros r Hr. change (gfv k (powers (point r) k)). destruct (point_gf r) as (? & ? & ?); [lia|]. by apply powers_gfv. Qed.

Lemma vandermonde_injective n k rows x : (n <= 255)%nat -> NoDup rows -> length rows = k -> Forall (fun r => (r < n)%nat) rows -> gfv k x ->
  (forall r, r ∈ rows -> dot (vandermonde n k !!! r) x = 0) -> x = zeros k.
Proof.
  intros Hn Hnd Hl Hr Hx H. rewrite Forall_forall in Hr.
  assert (Forall (eq 0) x) as H0.
  { apply (too_many_roots (point <$> rows)).
    - apply (NoDup_fmap_2_strong point); [|done]. intros a b Ha Hb E. pose proof (point_gf a ltac:(specialize (Hr a Ha); lia)). pose proof (point_gf b ltac:(specialize (Hr b Hb); lia)). lia.
    - apply Forall_forall. intros y Hy. apply list_elem_of_fmap in Hy as (r & -> & Hin). apply point_gf. specialize (Hr r Hin). lia.
    - apply Hx.
    - rewrite length_fmap. destruct Hx. lia.
    - intros y Hy. apply list_elem_of_fmap in Hy as (r & -> & Hin). specialize (Hr r Hin). rewrite <- (H r Hin). rewrite vandermonde_lookup by done.
      destruct (point_gf r) as (? & ? & ?); [lia|]. symmetry. by apply powers_dot. }
  destruct Hx as [<- _]. clear -H0. induction H0 as [|a x <- Hx IH]; [done|]. cbn [length zeros replicate]. f_equal. done.
Qed.

(** ** The generator *)

Lemma zip_xor_build k (f g : nat -> Z) : (fun c => f c +! g c) <$> seq 0 k = zip_with Z.lxor (f <$> seq 0 k) (g <$> seq 0 k).
Proof. generalize 0%nat. induction k as [|k IH]; intros s; [done|]. cbn [seq fmap list_fmap zip_with]. f_equal. apply IH. Qed.
Lemma build_row k (b : vec) : length b = k -> (fun c => b !!! c) <$> seq 0 k = b.
Proof.
  intros Hl. apply list_eq. intros i. destruct (decide (i < k)%nat) as [Hi|Hi].
  - rewrite list_lookup_fmap, lookup_seq_lt by done. cbn. symmetry. apply list_lookup_lookup_total_lt. lia.
  - rewrite !lookup_ge_None_2; [done|lia|rewrite length_fmap, length_seq; lia].
Qed.

Lemma xor_gfv k u v : gfv k u -> gfv k v -> gfv k (zip_with Z.lxor u v).
Proof.
  intros [Hl1 H1] [Hl2 H2]. split; [rewrite length_zip_with; lia|]. apply Forall_lookup. intros i x Hx. apply lookup_zip_with_Some in Hx as (a & b & -> & Ha & Hb).
  rewrite Forall_lookup in H1, H2. apply gf_xor; [by eapply H1|by eapply H2].
Qed.

(** A row times a matrix times a vector. *)
Lemma dot_assoc k (v : vec) (m : mat) x : length v = length m -> Forall gf v -> Forall (gfv k) m -> gfv k x ->
  dot ((fun c => dot v (column m c)) <$> seq 0 k) x = dot v (mvec m x) /\ gfv k ((fun c => dot v (column m c)) <$> seq 0 k).
Proof.
  intros Hl Hv Hm Hx. revert v Hl Hv. induction Hm as [|b m Hb Hm IH]; intros [|a v] Hl Hv; try done.
  - split; [|apply gfv_build; intros; apply gf_0]. cbn. transitivity (dot (zeros k) x); [|by rewrite dot_comm, dot_zeros_r]. f_equal.
    apply (gfv_eq k); [apply gfv_build; intros; apply gf_0|apply gfv_zeros|]. intros i Hi. rewrite build_lookup by done. symmetry. by apply list_lookup_total_correct, lookup_replicate_2.
  - apply Forall_cons in Hv as [Ha Hv]. destruct (IH v) as [IH1 IH2]; [cbn in Hl; lia|done|].
    assert ((fun c => dot (a :: v) (column (b :: m) c)) <$> seq 0 k = zip_with Z.lxor ((fun x => a *! x) <$> b) ((fun c => dot v (column m c)) <$> seq 0 k)) as E.
    { assert ((fun x => a *! x) <$> b = (fun c => a *! (b !!! c)) <$> seq 0 k) as ->.
      { transitivity ((fun x => a *! x) <$> ((fun c => b !!! c) <$> seq 0 k)); [by rewrite build_row by apply Hb|by rewrite <- list_fmap_compose]. }
      rewrite <- zip_xor_build. apply list_fmap_ext. intros _ c _. by rewrite <- dot_cons. }
    assert (gfv k ((fun x => a *! x) <$> b)) as Hab by (split; [rewrite length_fmap; apply Hb|]; apply Forall_fmap; eapply Forall_impl; [apply Hb|]; intros; cbn; auto with gf).
    rewrite E. cbn [mvec fmap list_fmap]. rewrite dot_add_l, IH1, dot_scale_l by (try apply Hab; try apply IH2; try apply Hb; try apply Hx; destruct Hab, IH2; done || lia).
    rewrite dot_cons. split; [done|by apply xor_gfv].
Qed.

Lemma wf_rows n w m : wf n w m -> Forall (gfv w) m.
Proof. intros [Hl Hm]. apply Forall_lookup. intros r row Hr. rewrite <- (list_lookup_total_correct _ _ _ Hr). apply Hm. apply lookup_lt_Some in Hr. lia. Qed.
Lemma wf_take n w m k : wf n w m -> (k <= n)%nat -> wf k w (take k m).
Proof.
  intros [Hl Hm] Hk. split; [rewrite length_take; lia|]. intros r Hr. assert (take k m !!! r = m !!! r) as ->; [|apply Hm; lia].
  apply list_lookup_total_correct. rewrite lookup_take_lt by done. apply list_lookup_lookup_total_lt. lia.
Qed.
Lemma wf_pick n w m rows : wf n w m -> Forall (fun r => (r < n)%nat) rows -> wf (length rows) w ((fun r => m !!! r) <$> rows).
Proof.
  intros [Hl Hm] Hr. split; [by rewrite length_fmap|]. intros i Hi. assert (((fun r => m !!! r) <$> rows) !!! i = m !!! (rows !!! i)) as ->.
  { apply list_lookup_total_correct. by rewrite list_lookup_fmap, list_lookup_lookup_total_lt. }
  apply Hm. rewrite Forall_lookup in Hr. apply (Hr i). by apply list_lookup_lookup_total_lt.
Qed.

(** Rows that are independent have an inverse. *)
Lemma independent_inverse n m : wf n n m -> (forall x, gfv n x -> (forall r, (r < n)%nat -> dot (m !!! r) x = 0) -> x = zeros n) ->
  exists inv, matrix_invert m n = Some inv /\ wf n n inv /\ forall x y, gfv n x -> gfv n y -> mvec m x = y <-> mvec inv y = x.
Proof.
  intros Hw Hi. pose proof (matrix_invert_spec n m Hw) as H. destruct (matrix_invert m n) as [inv|]; [by exists inv|].
  destruct H as (x & Hx & Hn & Hz). destruct Hn. apply Hi; [done|]. intros r Hr. assert (length m = n) by apply Hw.
  rewrite <- mvec_lookup, Hz by lia. by apply list_lookup_total_correct, lookup_replicate_2.
Qed.

Definition good_counts (k m : nat) : Prop := (0 < k)%nat /\ (0 < m)%nat /\ (k + m <= 255)%nat.
Lemma too_many_spec k m : (k + m <= 255)%nat -> too_many k m = false.
Proof. intros H. unfold too_many. apply bool_decide_eq_false. rewrite u32_small by word. lia. Qed.

(** The generator: unit rows first, and any k rows independent. *)
Record generator (k m : nat) (g : mat) : Prop := {
  gen_wf : wf (k + m) k g;
  gen_unit : forall r x, (r < k)%nat -> gfv k x -> dot (g !!! r) x = x !!! r;
  gen_independent : forall rows x, NoDup rows -> length rows = k -> Forall (fun r => (r < k + m)%nat) rows -> gfv k x ->
    (forall r, r ∈ rows -> dot (g !!! r) x = 0) -> x = zeros k
}.

Lemma generator_spec k m : good_counts k m -> exists g, generator_matrix k m = Some g /\ generator k m g.
Proof.
  intros (Hk & Hm & Hn). unfold generator_matrix. rewrite (too_many_spec k m Hn), decide_False by (intros [?|[?|?]]; lia || done). cbv zeta.
  set (v := vandermonde (k + m) k). assert (wf (k + m) k v) as Hv by by apply vandermonde_wf. assert (wf k k (take k v)) as Ht by (eapply wf_take; [done|lia]).
  assert (forall r, (r < k)%nat -> take k v !!! r = v !!! r) as Htl.
  { intros r Hr. apply list_lookup_total_correct. rewrite lookup_take_lt by done. apply list_lookup_lookup_total_lt. destruct Hv. lia. }
  assert (forall rows x, NoDup rows -> length rows = k -> Forall (fun r => (r < k + m)%nat) rows -> gfv k x -> (forall r, r ∈ rows -> dot (v !!! r) x = 0) -> x = zeros k) as Hind.
  { intros rows x. apply vandermonde_injective. done. }
  destruct (independent_inverse k (take k v) Ht) as (inv & Ei & Hi & Hs).
  { intros x Hx H. apply (Hind (seq 0 k)); try done; [apply NoDup_seq|apply length_seq|apply Forall_seq; intros; lia|].
    intros r Hr. apply elem_of_seq in Hr. rewrite <- Htl by lia. apply H. lia. }
  rewrite Ei. cbn [mbind option_bind]. eexists. split; [done|].
  assert (forall r, (r < k + m)%nat -> ((fun row => (fun c => dot row (column inv c)) <$> seq 0 k) <$> v) !!! r = (fun c => dot (v !!! r) (column inv c)) <$> seq 0 k) as Hl.
  { intros r Hr. apply list_lookup_total_correct. rewrite list_lookup_fmap, list_lookup_lookup_total_lt by (destruct Hv; lia). done. }
  assert (forall r x, (r < k + m)%nat -> gfv k x -> dot (((fun row => (fun c => dot row (column inv c)) <$> seq 0 k) <$> v) !!! r) x = dot (v !!! r) (mvec inv x)) as Hd.
  { intros r x Hr Hx. rewrite Hl by done. destruct Hv as [Hvl Hv], Hi as [Hil Hi]. destruct (Hv r Hr). apply dot_assoc; try done; [lia|by apply (wf_rows k)]. }
  assert (forall x, gfv k x -> gfv k (mvec inv x)) as Hg by (intros x Hx; eapply mvec_gfv; [done|done]).
  split.
  - split; [rewrite length_fmap; apply Hv|]. intros r Hr. rewrite Hl by done. destruct Hv as [Hvl Hv], Hi as [Hil Hi]. destruct (Hv r Hr).
    apply (dot_assoc k _ _ (zeros k)); [lia|done|by apply (wf_rows k)|apply gfv_zeros].
  - intros r x Hr Hx. rewrite Hd, <- Htl by (done || lia). pose proof (proj2 (Hs (mvec inv x) x (Hg x Hx) Hx) eq_refl) as E.
    rewrite <- mvec_lookup by (destruct Ht; lia). by rewrite E.
  - intros rows x Hnd Hlen Hr Hx H. assert (mvec inv x = zeros k) as E.
    { apply (Hind rows); try done; [by apply Hg|]. intros r Hin. rewrite <- Hd; [by apply H| |done]. rewrite Forall_forall in Hr. by apply Hr. }
    apply (Hs (zeros k) x) in E; [|apply gfv_zeros|done]. rewrite <- E. by apply mvec_zeros.
Qed.

(** ** Encoding *)

Definition symbol (shards : list vec) (b : nat) : vec := (fun s => s !!! b) <$> shards.
Lemma symbol_gfv k size shards b : length shards = k -> Forall (gfv size) shards -> gfv k (symbol shards b).
Proof.
  intros Hl Hs. split; [by unfold symbol; rewrite length_fmap|]. apply Forall_fmap. eapply Forall_impl; [exact Hs|]. intros s Hg. by eapply gfv_lookup.
Qed.
Lemma row_bytes_lookup row shards size b : (b < size)%nat -> row_bytes row shards size !!! b = dot row (symbol shards b).
Proof. intros Hb. unfold row_bytes. by rewrite build_lookup. Qed.
Lemma row_bytes_gfv k row shards size : gfv k row -> length shards = k -> Forall (gfv size) shards -> gfv size (row_bytes row shards size).
Proof. intros [_ Hr] Hl Hs. apply gfv_build. intros b _. apply dot_gf; [done|]. by eapply symbol_gfv. Qed.

(** All shards of a set, as rows of the generator. *)
Definition coded (g : mat) (n : nat) (ds : list vec) (size : nat) : list vec := (fun r => row_bytes (g !!! r) ds size) <$> seq 0 n.

Lemma coded_data k m g ds size r : generator k m g -> length ds = k -> Forall (gfv size) ds -> (r < k)%nat -> row_bytes (g !!! r) ds size = ds !!! r.
Proof.
  intros [Hw Hu _] Hl Hs Hr. assert (gfv size (ds !!! r)) as Hd by (rewrite Forall_lookup in Hs; apply (Hs r), list_lookup_lookup_total_lt; lia).
  apply (gfv_eq size); [apply (row_bytes_gfv k); try done; apply Hw; lia|done|]. intros b Hb. rewrite row_bytes_lookup by done. rewrite Hu by (done || by eapply symbol_gfv).
  apply list_lookup_total_correct. unfold symbol. by rewrite list_lookup_fmap, list_lookup_lookup_total_lt by lia.
Qed.
Lemma coded_split k m g ds size : generator k m g -> length ds = k -> Forall (gfv size) ds ->
  ds ++ ((fun row => row_bytes row ds size) <$> drop k g) = coded g (k + m) ds size.
Proof.
  intros Hg Hl Hs. assert (length g = (k + m)%nat) as Hgl by apply (gen_wf _ _ _ Hg). apply list_eq. intros r. destruct (decide (r < k + m)%nat) as [Hr|Hr].
  - unfold coded. rewrite list_lookup_fmap, lookup_seq_lt by done. cbn. destruct (decide (r < k)%nat) as [Hk|Hk].
    + rewrite lookup_app_l by lia. rewrite (coded_data k m) by done. apply list_lookup_lookup_total_lt. lia.
    + rewrite lookup_app_r, list_lookup_fmap, lookup_drop, Hl by lia. replace (k + (r - k))%nat with r by lia. by rewrite list_lookup_lookup_total_lt by lia.
  - rewrite !lookup_ge_None_2; [done|unfold coded; rewrite length_fmap, length_seq; lia|rewrite length_app, length_fmap, length_drop; lia].
Qed.

Definition data_shards (data : vec) (k : nat) : list vec := let ss := shard_size (length data) k in (fun i => data_at data (i * ss) ss) <$> seq 0 k.
Lemma data_at_gfv data off size : Forall gf data -> gfv size (data_at data off size).
Proof.
  intros Hd. unfold data_at. split; [rewrite length_app, length_replicate, length_take; lia|]. apply Forall_app. split; [by apply Forall_take, Forall_drop|apply Forall_replicate, gf_0].
Qed.
Lemma data_shards_ok data k : Forall gf data -> length (data_shards data k) = k /\ Forall (gfv (shard_size (length data) k)) (data_shards data k).
Proof. intros Hd. split; [by unfold data_shards; rewrite length_fmap, length_seq|]. apply Forall_fmap, Forall_seq. intros i _. by apply data_at_gfv. Qed.

Definition encoded (g : mat) (data : vec) (k m : nat) : QrxErasureSet :=
  let ss := shard_size (length data) k in
  mkErasureSet k m ss (length data) (Some <$> coded g (k + m) (data_shards data k) ss) (replicate (k + m) true).

Lemma encode_is_coded data k m : good_counts k m -> Forall gf data ->
  exists g, generator_matrix k m = Some g /\ generator k m g /\ qrx_erasure_encode data k m = Some (encoded g data k m).
Proof.
  intros Hc Hd. destruct (generator_spec k m Hc) as (g & Eg & Hg). exists g. split; [done|]. split; [done|].
  unfold qrx_erasure_encode. rewrite (too_many_spec k m), decide_False by (destruct Hc as (? & ? & ?); try intros [?|[?|?]]; lia || done). cbv zeta. rewrite Eg. cbn [mbind option_bind].
  destruct (data_shards_ok data k Hd). fold (data_shards data k). by rewrite (coded_split k m).
Qed.

(** ** Reconstruction *)

(** A set of which some shards are lost, and what is left is right. *)
Definition damaged (full s : QrxErasureSet) : Prop :=
  er_data_shards s = er_data_shards full /\ er_parity_shards s = er_parity_shards full /\ er_shard_size s = er_shard_size full /\
  er_original_size s = er_original_size full /\
  forall i, (i < er_data_shards full + er_parity_shards full)%nat -> available s i = true -> er_shards s !!! i = er_shards full !!! i.
Definition survivors (s : QrxErasureSet) : list nat := filter (fun i => available s i) (seq 0 (er_data_shards s + er_parity_shards s)).

Lemma survivors_ok s i : i ∈ survivors s -> (i < er_data_shards s + er_parity_shards s)%nat /\ available s i = true.
Proof. unfold survivors. intros [H1 H2]%list_elem_of_filter. apply elem_of_seq in H2. split; [lia|by apply Is_true_true]. Qed.

Lemma invert_symbols k m g rows inv ds size : generator k m g -> length ds = k -> Forall (gfv size) ds ->
  length rows = k -> Forall (fun r => (r < k + m)%nat) rows ->
  wf k k inv -> (forall x y, gfv k x -> gfv k y -> mvec ((fun r => g !!! r) <$> rows) x = y <-> mvec inv y = x) ->
  (fun row => row_bytes row ((fun r => row_bytes (g !!! r) ds size) <$> rows) size) <$> inv = ds.
Proof.
  intros Hg Hl Hs Hlr Hr [Hil Hi] Hinv. apply list_eq. intros d. destruct (decide (d < k)%nat) as [Hd|Hd].
  2:{ rewrite !lookup_ge_None_2; [done|lia|rewrite length_fmap; lia]. }
  rewrite list_lookup_fmap, !list_lookup_lookup_total_lt by lia. cbn. f_equal. assert (gfv size (ds !!! d)) as Hdd by (rewrite Forall_lookup in Hs; apply (Hs d), list_lookup_lookup_total_lt; lia).
  assert (Forall (gfv size) ((fun r => row_bytes (g !!! r) ds size) <$> rows)) as Hrs.
  { apply Forall_fmap, (Forall_impl _ _ _ Hr). intros r Hrn. cbn. apply (row_bytes_gfv k); [by apply (gen_wf _ _ _ Hg)|done|done]. }
  assert (length ((fun r => row_bytes (g !!! r) ds size) <$> rows) = k) as Hrl by by rewrite length_fmap.
  apply (gfv_eq size); [apply (row_bytes_gfv k); [by apply Hi|done|done]|done|]. intros b Hb. rewrite row_bytes_lookup by done.
  assert (gfv k (symbol ds b)) as Hx by by eapply symbol_gfv.
  assert (symbol ((fun r => row_bytes (g !!! r) ds size) <$> rows) b = mvec ((fun r => g !!! r) <$> rows) (symbol ds b)) as E.
  { unfold symbol at 1, mvec. rewrite <- !list_fmap_compose. apply list_fmap_ext. intros _ r _. cbn. by apply row_bytes_lookup. }
  assert (gfv k (mvec ((fun r => g !!! r) <$> rows) (symbol ds b))) as Hy by (rewrite <- E; by eapply symbol_gfv).
  pose proof (proj1 (Hinv _ _ Hx Hy) eq_refl) as Hres. rewrite <- E in Hres. rewrite <- (mvec_lookup inv) by lia. rewrite Hres.
  apply list_lookup_total_correct. unfold symbol. by rewrite list_lookup_fmap, list_lookup_lookup_total_lt by lia.
Qed.

Lemma coded_lookup g n ds size r : (r < n)%nat -> coded g n ds size !! r = Some (row_bytes (g !!! r) ds size).
Proof. intros Hr. unfold coded. by rewrite list_lookup_fmap, lookup_seq_lt by done. Qed.
Lemma encoded_shard g data k m r : (r < k + m)%nat ->
  er_shards (encoded g data k m) !!! r = Some (row_bytes (g !!! r) (data_shards data k) (shard_size (length data) k)).
Proof. intros Hr. apply list_lookup_total_correct. cbn. by rewrite list_lookup_fmap, coded_lookup. Qed.

Lemma reconstruct_encoded g data k m s : good_counts k m -> Forall gf data -> generator_matrix k m = Some g -> generator k m g ->
  damaged (encoded g data k m) s -> qrx_erasure_reconstruct s = if decide (k <= length (survivors s))%nat then Some (encoded g data k m) else None.
Proof.
  intros Hc Hd Eg Hg (Ek & Em & Es & Eo & Hsh). cbn in Ek, Em, Es, Eo, Hsh. destruct (data_shards_ok data k Hd) as [Hl Hds]. unfold qrx_erasure_reconstruct, survivors. rewrite Ek, Em, Es, Eo, Eg.
  destruct Hc as (Hk & Hm & Hn). rewrite decide_False by lia. set (alive := filter _ _). assert (forall r, r ∈ alive -> (r < k + m)%nat /\ available s r = true) as Ha.
  { intros r Hr. subst alive. apply list_elem_of_filter in Hr as [H1 H2]. apply elem_of_seq in H2. split; [lia|by apply Is_true_true]. }
  assert (NoDup alive) as Hnd by (apply NoDup_filter, NoDup_seq). destruct (decide (length alive < k)%nat) as [Hlt|Hge]; [by rewrite decide_False by lia|].
  rewrite decide_True by lia. cbn [mbind option_bind]. set (rows := take k alive). assert (length rows = k) as Hlr by (subst rows; rewrite length_take; lia).
  assert (NoDup rows) as Hndr by (by eapply sublist_NoDup, sublist_take). assert (forall r, r ∈ rows -> (r < k + m)%nat /\ available s r = true) as Hr.
  { intros r Hin. apply Ha. rewrite <- (take_drop k alive). apply elem_of_app. by left. }
  assert (Forall (fun r => (r < k + m)%nat) rows) as Hrf by (apply Forall_forall; intros r Hin; by apply Hr).
  pose proof (wf_pick _ _ _ _ (gen_wf _ _ _ Hg) Hrf) as Hsub. rewrite Hlr in Hsub.
  destruct (independent_inverse k ((fun r => g !!! r) <$> rows) Hsub) as (inv & Ei & Hi & Hinv).
  { intros x Hx H. apply (gen_independent _ _ _ Hg rows); try done. intros r Hin. apply list_elem_of_lookup in Hin as [i Hi].
    specialize (H i). rewrite (list_lookup_total_correct _ i (g !!! r)) in H by (by rewrite list_lookup_fmap, Hi). apply H. apply lookup_lt_Some in Hi. lia. }
  rewrite Ei. cbn [mbind option_bind]. assert (shard_at s <$> rows = (fun r => row_bytes (g !!! r) (data_shards data k) (shard_size (length data) k)) <$> rows) as ->.
  { apply list_fmap_ext. intros i r Hir. destruct (Hr r) as [Hrn Hav]; [by eapply list_elem_of_lookup_2|]. unfold shard_at. rewrite Hsh by done.
    change (Some <$> coded g (k + m) (data_shards data k) (shard_size (length data) k)) with (er_shards (encoded g data k m)). by rewrite encoded_shard. }
  rewrite (invert_symbols k m) by done. unfold encoded. cbv zeta. rewrite <- (coded_split k m) by done. do 2 f_equal. rewrite fmap_app. f_equal.
  apply list_eq. intros i. destruct (decide (i < m)%nat) as [Him|Him].
  - rewrite !list_lookup_fmap, lookup_seq_lt, lookup_drop by done. cbn. assert (length g = (k + m)%nat) as Hgl by apply (gen_wf _ _ _ Hg).
    rewrite (list_lookup_lookup_total_lt g) by lia. cbn. f_equal. destruct (available s (k + i)) eqn:Hav; [|done]. rewrite Hsh by (done || lia).
    change (Some <$> coded g (k + m) (data_shards data k) (shard_size (length data) k)) with (er_shards (encoded g data k m)). by rewrite encoded_shard by lia.
  - assert (length g = (k + m)%nat) as Hgl by apply (gen_wf _ _ _ Hg). rewrite !lookup_ge_None_2; [done|rewrite !length_fmap, length_drop; lia|rewrite length_fmap, length_seq; lia].
Qed.

(** What is left of an encoded set gives the whole set back, every byte of every shard, exactly when
    at least as many shards are left as there were data shards, whichever those are. *)
Theorem erasure_reconstructs data k m full s : good_counts k m -> Forall gf data -> qrx_erasure_encode data k m = Some full -> damaged full s ->
  qrx_erasure_reconstruct s = if decide (k <= length (survivors s))%nat then Some full else None.
Proof.
  intros Hc Hd He Hs. destruct (encode_is_coded data k m Hc Hd) as (g & Eg & Hg & E). rewrite E in He. injection He as <-. by apply reconstruct_encoded.
Qed.

(** ** Joining *)

Lemma concat_chunks (l : vec) size k : concat ((fun i => take size (drop (i * size) l)) <$> seq 0 k) = take (k * size) l.
Proof.
  induction k as [|k IH]; [done|]. rewrite seq_S, fmap_app, concat_app, IH. cbn [fmap list_fmap concat]. rewrite app_nil_r. cbn [Nat.add].
  rewrite (Nat.mul_succ_l k), take_take_drop. done.
Qed.
Lemma data_at_padded data off size big : (off + size <= length data + big)%nat -> data_at data off size = take size (drop off (data ++ replicate big 0)).
Proof.
  intros Hb. unfold data_at. destruct (decide (off <= length data)%nat) as [Ho|Ho].
  - rewrite drop_app_le, take_app by done. f_equal. rewrite length_drop, take_replicate. f_equal. rewrite length_take, length_drop. lia.
  - rewrite drop_app_ge, (drop_ge data) by lia. rewrite take_nil, drop_replicate, take_replicate. cbn. f_equal. lia.
Qed.
Lemma shard_size_covers len k : (0 < k)%nat -> Z.of_nat len + Z.of_nat k < 2 ^ 64 -> (len <= k * shard_size len k)%nat /\ (0 < shard_size len k)%nat.
Proof.
  intros Hk Hb. unfold shard_size. case_decide as H0; [subst; lia|]. rewrite (u64_small (Z.of_nat len + _)), (u64_small (_ - 1)) by (word_unfold; lia). set (q := (Z.of_nat len + Z.of_nat k - 1) / Z.of_nat k).
  assert (Z.of_nat len <= Z.of_nat k * q /\ 0 < q) as [H1 H2].
  { subst q. pose proof (Z.div_mod (Z.of_nat len + Z.of_nat k - 1) (Z.of_nat k) ltac:(lia)). pose proof (Z.mod_pos_bound (Z.of_nat len + Z.of_nat k - 1) (Z.of_nat k) ltac:(lia)).
    split; [lia|]. apply Z.div_str_pos. lia. }
  clearbody q. split; [|lia]. apply Nat2Z.inj_le. rewrite Nat2Z.inj_mul, Z2Nat.id by lia. done.
Qed.

Lemma encoded_available g data k m i : (i < k + m)%nat -> available (encoded g data k m) i = true.
Proof.
  intros Hi. unfold available. rewrite encoded_shard by done. rewrite bool_decide_eq_true_2 by done. rewrite andb_true_r. cbn.
  apply list_lookup_total_correct. by apply lookup_replicate_2.
Qed.

Lemma join_encoded g data k m : good_counts k m -> Forall gf data -> generator k m g -> Z.of_nat (length data) + Z.of_nat k < 2 ^ 64 ->
  qrx_erasure_join (encoded g data k m) = Some data.
Proof.
  intros (Hk & Hm & Hn) Hd Hg Hb. unfold qrx_erasure_join. cbn [er_data_shards er_original_size encoded].
  assert (forallb (available (encoded g data k m)) (seq 0 k) = true) as ->.
  { apply forallb_forall. intros i Hi. apply in_seq in Hi. apply encoded_available. lia. }
  f_equal. destruct (data_shards_ok data k Hd) as [Hl Hds]. destruct (shard_size_covers (length data) k Hk Hb) as [Hc _]. set (ss := shard_size (length data) k) in *.
  assert (shard_at (encoded g data k m) <$> seq 0 k = (fun i => take ss (drop (i * ss) (data ++ replicate (k * ss) 0))) <$> seq 0 k) as ->.
  { apply list_fmap_ext. intros i j Hij. apply lookup_seq in Hij as [-> Hi]. cbn. unfold shard_at. rewrite encoded_shard by lia. cbn. rewrite (coded_data k m) by done.
    unfold data_shards. rewrite build_lookup by done. fold ss. apply data_at_padded. assert ((i + 1) * ss <= k * ss)%nat by (apply Nat.mul_le_mono_r; lia). lia. }
  rewrite concat_chunks. rewrite take_take, Nat.min_l by done. by apply take_app_length.
Qed.

(** C11: encoding works for up to 255 shards, and whatever is lost of what it answers, if at least as many
    shards are left as there were data shards then reconstruction and joining give the data back. *)
Theorem erasure_roundtrip data k m : good_counts k m -> Forall gf data -> Z.of_nat (length data) + Z.of_nat k < 2 ^ 64 ->
  exists full, qrx_erasure_encode data k m = Some full /\ qrx_erasure_join full = Some data /\
    forall s, damaged full s -> (k <= length (survivors s))%nat -> (qrx_erasure_reconstruct s ≫= qrx_erasure_join) = Some data.
Proof.
  intros Hc Hd Hb. destruct (encode_is_coded data k m Hc Hd) as (g & Eg & Hg & E). exists (encoded g data k m). pose proof (join_encoded g data k m Hc Hd Hg Hb) as Hj.
  split; [done|]. split; [done|]. intros s Hs Hlen. rewrite (reconstruct_encoded g data k m s), decide_True by done. exact Hj.
Qed.

Lemma data_at_part data p off tk ss : (off + tk <= ss)%nat -> data_at data (p + off) tk = take tk (drop off (data_at data p ss)).
Proof.
  intros H. rewrite (data_at_padded data (p + off) tk (p + ss)), (data_at_padded data p ss (p + ss)) by lia.
  rewrite <- drop_drop. generalize (drop p (data ++ replicate (p + ss) 0)). intros l. replace ss with (off + (ss - off))%nat by lia.
  rewrite <- take_drop_commute, take_take. f_equal. lia.
Qed.

Lemma row_bytes_part row ds ss off tk : (off + tk <= ss)%nat -> Forall (fun s => length s = ss) ds ->
  row_bytes row ((fun s => take tk (drop off s)) <$> ds) tk = take tk (drop off (row_bytes row ds ss)).
Proof.
  intros Hle Hd. unfold row_bytes at 2. rewrite <- fmap_drop, drop_seq, <- fmap_take, take_seq. unfold row_bytes.
  replace (tk `min` (ss - off))%nat with tk by lia. cbn [Nat.add]. apply list_eq. intros b. destruct (decide (b < tk)%nat) as [Hb|Hb].
  2:{ rewrite !lookup_ge_None_2; [done|rewrite length_fmap, length_seq; lia|rewrite length_fmap, length_seq; lia]. }
  rewrite !list_lookup_fmap, !lookup_seq_lt by lia. cbn. do 2 f_equal. rewrite <- list_fmap_compose. apply list_fmap_ext. intros i s Hs. cbn.
  rewrite Forall_lookup in Hd. specialize (Hd i s Hs). rewrite take_total by (rewrite ?length_drop; lia). rewrite drop_total by lia. done.
Qed.

Lemma coded_length g n ds ss : length (coded g n ds ss) = n.
Proof. unfold coded. by rewrite length_fmap, length_seq. Qed.
Lemma row_bytes_length row ds ss : length (row_bytes row ds ss) = ss.
Proof. unfold row_bytes. by rewrite length_fmap, length_seq. Qed.

(** A stripe extends every file by its part of the shard. *)
Lemma stripe_extends g data k m tk off : Forall gf data -> generator k m g ->
  let ss := shard_size (length data) k in let files := coded g (k + m) (data_shards data k) ss in
  (off + tk <= ss)%nat -> file_stripe g data k m ss tk off (take off <$> files) = take (off + tk) <$> files.
Proof.
  intros Hd Hg ss files Hle. destruct (data_shards_ok data k Hd) as [Hl Hds]. fold ss in Hds.
  assert (Forall (fun s => length s = ss) (data_shards data k)) as Hlen by (eapply Forall_impl; [exact Hds|]; by intros s []).
  assert ((fun d => data_at data (d * ss + off) tk) <$> seq 0 k = (fun s => take tk (drop off s)) <$> data_shards data k) as E.
  { unfold data_shards. rewrite <- list_fmap_compose. apply list_fmap_ext. intros _ d _. cbn. by apply data_at_part. }
  unfold file_stripe. cbv zeta. rewrite E.
  assert (((fun s => take tk (drop off s)) <$> data_shards data k) ++
          ((fun pr => row_bytes (g !!! (k + pr)%nat) ((fun s => take tk (drop off s)) <$> data_shards data k) tk) <$> seq 0 m)
          = (fun s => take tk (drop off s)) <$> files) as ->.
  { subst files. rewrite <- (coded_split k m) by done. rewrite fmap_app. f_equal. assert (length g = (k + m)%nat) as Hgl by apply (gen_wf _ _ _ Hg).
    apply list_eq. intros i. destruct (decide (i < m)%nat) as [Hi|Hi]; [|rewrite !lookup_ge_None_2; [done|rewrite !length_fmap, length_drop; lia|rewrite length_fmap, length_seq; lia]].
    rewrite !list_lookup_fmap, lookup_seq_lt, lookup_drop, (list_lookup_lookup_total_lt g) by lia. cbn. f_equal. apply row_bytes_part; done. }
  apply list_eq. intros r. rewrite lookup_zip_with, !list_lookup_fmap. destruct (files !! r) as [f|]; [|done]. cbn. f_equal. by rewrite take_take_drop.
Qed.

Lemma file_loop_spec fuel g data k m stripe off : Forall gf data -> generator k m g -> (0 < stripe)%nat ->
  let ss := shard_size (length data) k in let files := coded g (k + m) (data_shards data k) ss in
  (ss - off <= fuel)%nat -> file_loop fuel g data k m ss stripe off (take off <$> files) = files.
Proof.
  intros Hd Hg Hs ss files. revert off.
  assert (forall off, (ss <= off)%nat -> take off <$> files = files) as Hdone.
  { intros off Hoff. apply list_eq. intros r. rewrite list_lookup_fmap. destruct (files !! r) as [f|] eqn:E; [|done]. cbn. f_equal. apply take_ge.
    subst files. pose proof (lookup_lt_Some _ _ _ E) as Hr. rewrite coded_length in Hr. rewrite coded_lookup in E by done. injection E as <-. by rewrite row_bytes_length. }
  induction fuel as [|fuel IH]; intros off Hf; cbn [file_loop]; case_decide as Ho; try (apply Hdone; lia).
  case_decide as Ht.
  - rewrite stripe_extends by (done || fold ss; lia). fold ss files. rewrite Hdone by lia. rewrite <- (Hdone (off + stripe)%nat) at 1 by lia. apply IH. lia.
  - rewrite stripe_extends by (done || fold ss; lia). apply IH. lia.
Qed.

(** C25: encoding a file in stripes of any size writes the shards of the whole. *)
Theorem encode_file_is_encode data k m stripe : good_counts k m -> Forall gf data ->
  exists full files, qrx_erasure_encode data k m = Some full /\ er_shards full = Some <$> files /\
    qrx_erasure_encode_file data k m stripe = Some (files, length data, er_shard_size full).
Proof.
  intros Hc Hd. destruct (encode_is_coded data k m Hc Hd) as (g & Eg & Hg & E). rewrite E. eexists _, _. split; [done|]. split; [done|].
  unfold qrx_erasure_encode_file. destruct Hc as (Hk & Hm & Hn). rewrite (too_many_spec k m), decide_False by (try intros [?|[?|?]]; lia || done). rewrite Eg. cbn [mbind option_bind er_shard_size encoded]. cbv zeta.
  do 3 f_equal. assert (replicate (k + m) [] = take 0 <$> coded g (k + m) (data_shards data k) (shard_size (length data) k)) as ->.
  { apply list_eq. intros r. rewrite list_lookup_fmap. destruct (decide (r < k + m)%nat); [by rewrite lookup_replicate_2, coded_lookup|]. by rewrite !lookup_ge_None_2 by (rewrite ?length_replicate, ?coded_length; lia). }
  apply file_loop_spec; try done; [|lia]. case_decide; [|lia]. apply Nat.lt_0_mul'. split; apply Nat.lt_0_succ.
Qed.

(** ** Witnesses *)

Definition ef_data : vec := [10; 20; 30; 40; 50; 60; 70].
Definition ef_full : QrxErasureSet := default (mkErasureSet 0 0 0 0 [] []) (qrx_erasure_encode ef_data 3 2).
(** The first and the third shard are lost; the buffer of the third holds something else. *)
Definition ef_damaged : QrxErasureSet :=
  mkErasureSet 3 2 3 7 [None; er_shards ef_full !!! 1%nat; Some [1; 2; 3]; er_shards ef_full !!! 3%nat; er_shards ef_full !!! 4%nat] [false; true; false; true; true].

Lemma ef_data_gf : Forall gf ef_data.
Proof. repeat constructor; done. Qed.
Lemma ef_counts : good_counts 3 2.
Proof. unfold good_counts. lia. Qed.
Lemma ef_is_damaged : damaged ef_full ef_damaged.
Proof.
  split_and!; try (vm_compute; reflexivity). intros i Hi. change (i < 5)%nat in Hi. do 5 (destruct i as [|i]; [vm_compute; done|]). lia.
Qed.

Lemma erasure_reconstructs_witness : qrx_erasure_reconstruct ef_damaged = Some ef_full.
Proof.
  rewrite (erasure_reconstructs ef_data 3 2 ef_full ef_damaged ef_counts ef_data_gf ltac:(vm_compute; reflexivity) ef_is_damaged). reflexivity.
Defined.
Lemma erasure_roundtrip_witness : exists full, qrx_erasure_encode ef_data 3 2 = Some full /\
  (qrx_erasure_reconstruct ef_damaged ≫= qrx_erasure_join) = Some ef_data.
Proof.
  destruct (erasure_roundtrip ef_data 3 2 ef_counts ef_data_gf ltac:(done)) as (full & E & _ & H). exists full. split; [done|].
  assert (full = ef_full) as -> by (assert (Some full = Some ef_full) as [= ?] by (rewrite <- E; vm_compute; reflexivity); done).
  apply H; [exact ef_is_damaged|vm_compute; lia].
Defined.
Lemma encode_file_is_encode_witness : exists full files, qrx_erasure_encode ef_data 3 2 = Some full /\ er_shards full = Some <$> files /\
  qrx_erasure_encode_file ef_data 3 2 2 = Some (files, 7%nat, er_shard_size full).
Proof. apply (encode_file_is_encode ef_data 3 2 2 ef_counts ef_data_gf). Defined.
Lemma matrix_invert_spec_witness : exists inv, matrix_invert [[1; 1]; [1; 2]] 2 = Some inv /\ forall x y, gfv 2 x -> gfv 2 y -> mvec [[1; 1]; [1; 2]] x = y <-> mvec inv y = x.
Proof.
  assert (wf 2 2 [[1; 1]; [1; 2]]) as Hw.
  { split; [done|]. intros [|[|r]] Hr; [|idtac|lia]; (split; [done|]; repeat constructor; done). }
  pose proof (matrix_invert_spec 2 [[1; 1]; [1; 2]] Hw) as H. destruct (matrix_invert [[1; 1]; [1; 2]] 2) as [inv|] eqn:E; [exists inv; split; [done|apply H]|].
  vm_compute in E. discriminate E.
Defined.
