(* ===== verification/Market.v ===== *)
(** * The market for storage (src/qrx-core/src/resource/)

    Contract values and capacity weights (qrx_resource.c), bonds, reputation,
    rewards and payments of providers (qrx_storage_market.c), capacity of the
    network (qrx_storage_capacity.c), the choice of a provider
    (qrx_storage_placement.c) and repairs (qrx_storage_repair.c).  An operation
    on a state answers the state, or [None] for the error -1. *)

From stdpp Require Import list.
From S2P Require Import Prelude Format Rotation.

(** ** qrx_resource.h, qrx_resource.c *)

Definition QRX_BPS_DENOMINATOR : Z := 10000.
Definition QRX_STORAGE_DEV_SHARE_BPS : Z := 50.
Definition QRX_STORAGE_RESILIENCE_RESERVE_BPS : Z := 200.

Definition mul_bps_floor (amount bps : Z) : Z :=
  ((amount / QRX_BPS_DENOMINATOR) *64 bps) +64 (((amount mod QRX_BPS_DENOMINATOR) *64 bps) / QRX_BPS_DENOMINATOR).

Record QrxStorageContractSplit := mkSplit { sp_development_atoms : Z; sp_resilience_atoms : Z; sp_provider_budget_atoms : Z }.
Record QrxStorageRedundancyProfile := mkProfile { pr_name : bytes; pr_data_shards : Z; pr_parity_shards : Z; pr_full_replicas : Z }.

Definition qrx_storage_split_contract_value (contract_atoms development_bps resilience_bps : Z) : option QrxStorageContractSplit :=
  if decide (development_bps > QRX_BPS_DENOMINATOR \/ resilience_bps > QRX_BPS_DENOMINATOR) then None
  else if decide (development_bps +64 resilience_bps > QRX_BPS_DENOMINATOR) then None
  else
    let dev := mul_bps_floor contract_atoms development_bps in
    let resilience := mul_bps_floor contract_atoms resilience_bps in
    if decide (dev > contract_atoms \/ resilience > contract_atoms -64 dev) then None
    else Some (mkSplit dev resilience ((contract_atoms -64 dev) -64 resilience)).

Definition PROFILES : list QrxStorageRedundancyProfile :=
  [mkProfile (cs "FAST") 0 0 3; mkProfile (cs "STANDARD") 10 4 0; mkProfile (cs "ARCHIVE") 16 4 0].
Definition qrx_storage_profile_by_name (name : bytes) : option QrxStorageRedundancyProfile := snd <$> list_find (fun p => name = pr_name p) PROFILES.

(** The integer square root, a power of four at a time. *)
Fixpoint first_bit (fuel : nat) (bit x : Z) : Z :=
  if decide (bit > x) then match fuel with O => bit | S fuel => first_bit fuel (Z.shiftr bit 2) x end else bit.
Fixpoint sqrt_loop (fuel : nat) (bit x r : Z) : Z :=
  if decide (bit = 0) then r
  else match fuel with
       | O => r
       | S fuel =>
           if decide (x >= r +64 bit) then sqrt_loop fuel (Z.shiftr bit 2) (x -64 (r +64 bit)) (Z.shiftr r 1 +64 bit)
           else sqrt_loop fuel (Z.shiftr bit 2) x (Z.shiftr r 1)
       end.
(** The bit starts at 2^62. *)
Definition qrx_resource_capacity_weight (proven_free_bytes : Z) : Z :=
  let x := Z.shiftr proven_free_bytes 20 in
  if decide (x = 0) then if decide (proven_free_bytes = 0) then 0 else 1
  else sqrt_loop 32 (first_bit 32 (2 ^ 62) x) x 0.

(** ** qrx_storage_market.c *)

Definition QRX_STORAGE_REPUTATION_INITIAL_BPS : Z := 8000.
Definition QRX_STORAGE_REPUTATION_MIN_BPS : Z := 1000.
Definition QRX_STORAGE_BOND_BASE_ATOMS : Z := 1000000.
Definition QRX_STORAGE_BOND_WEIGHT_ATOMS : Z := 1000.
Definition QRX_STORAGE_EXIT_DELAY_BLOCKS : Z := 8640.

Record QrxStorageProviderReputation := mkReputation {
  rp_availability_bps : Z; rp_proof_success_bps : Z; rp_performance_bps : Z; rp_reputation_bps : Z;
  rp_proofs_ok : Z; rp_proofs_failed : Z; rp_bytes_served : Z; rp_repairs_completed : Z
}.
Inductive QrxStorageProviderStatus :=
| QRX_PROVIDER_REGISTERED | QRX_PROVIDER_ACTIVE | QRX_PROVIDER_EXITING | QRX_PROVIDER_WITHDRAWN | QRX_PROVIDER_SLASHED.
#[export] Instance status_eq_dec : EqDecision QrxStorageProviderStatus.
Proof. solve_decision. Defined.
Record QrxStorageBondState := mkBond {
  bs_status : QrxStorageProviderStatus; bs_bond_atoms : Z; bs_proven_capacity_bytes : Z; bs_allocated_bytes : Z; bs_exit_height : Z
}.
Record QrxStorageFinancialState := mkFinancial {
  fs_original_atoms : Z; fs_development_atoms : Z; fs_resilience_atoms : Z; fs_provider_escrow_atoms : Z;
  fs_provider_paid_atoms : Z; fs_repair_paid_atoms : Z; fs_egress_paid_atoms : Z
}.
Record QrxStorageRewardInput := mkRewardInput {
  ri_stored_bytes : Z; ri_epochs : Z; ri_base_atoms_per_gib_epoch : Z; ri_availability_bps : Z; ri_proof_factor_bps : Z; ri_performance_bps : Z
}.

Definition muldiv_u64 (a b d : Z) : Z :=
  if decide (d = 0) then 0
  else
    let q := a / d in
    let r := a mod d in
    if decide (b <> 0 /\ q > UINT64_MAX / b) then UINT64_MAX
    else
      let x := q *64 b in
      let y := (r *64 b) / d in
      if decide (UINT64_MAX - x < y) then UINT64_MAX else x + y.
Definition clamp_bps (v lo hi : Z) : Z := if decide (v < lo) then lo else if decide (v > hi) then hi else v.

Definition qrx_storage_reputation_init : QrxStorageProviderReputation :=
  mkReputation QRX_STORAGE_REPUTATION_INITIAL_BPS QRX_STORAGE_REPUTATION_INITIAL_BPS 10000 QRX_STORAGE_REPUTATION_INITIAL_BPS 0 0 0 0.
Definition qrx_storage_reputation_record_proof (r : QrxStorageProviderReputation) (ok : bool) (latency : Z) : option QrxStorageProviderReputation :=
  if decide (latency > 20000) then None
  else
    let sample := if ok then 10000 else 0 in
    let proof_success := u32 (((rp_proof_success_bps r *64 15) +64 sample) / 16) in
    let availability := u32 (((rp_availability_bps r *64 31) +64 sample) / 32) in
    let lp := clamp_bps latency 5000 11500 in
    let performance := u32 (((rp_performance_bps r *64 15) +64 lp) / 16) in
    let rep := ((proof_success *64 5) +64 (availability *64 3)) +64 (clamp_bps performance 5000 11500 *64 2) in
    let reputation := u32 (rep / 10) in
    let reputation := if decide (reputation < QRX_STORAGE_REPUTATION_MIN_BPS) then QRX_STORAGE_REPUTATION_MIN_BPS else reputation in
    let reputation := if decide (reputation > 10000) then 10000 else reputation in
    Some (mkReputation availability proof_success performance reputation
            (if ok then rp_proofs_ok r +64 1 else rp_proofs_ok r) (if ok then rp_proofs_failed r else rp_proofs_failed r +64 1)
            (rp_bytes_served r) (rp_repairs_completed r)).

Definition qrx_storage_required_bond (bytes : Z) : Z :=
  let w := qrx_resource_capacity_weight bytes in
  if decide (w > (UINT64_MAX - QRX_STORAGE_BOND_BASE_ATOMS) / QRX_STORAGE_BOND_WEIGHT_ATOMS) then UINT64_MAX
  else QRX_STORAGE_BOND_BASE_ATOMS +64 (w *64 QRX_STORAGE_BOND_WEIGHT_ATOMS).
Definition qrx_storage_bond_register (cap bond : Z) : option QrxStorageBondState :=
  if decide (cap = 0 \/ bond < qrx_storage_required_bond cap) then None else Some (mkBond QRX_PROVIDER_REGISTERED bond cap 0 0).
Definition set_status (s : QrxStorageBondState) (st : QrxStorageProviderStatus) : QrxStorageBondState :=
  mkBond st (bs_bond_atoms s) (bs_proven_capacity_bytes s) (bs_allocated_bytes s) (bs_exit_height s).
Definition qrx_storage_bond_activate (s : QrxStorageBondState) : option QrxStorageBondState :=
  if decide (bs_status s <> QRX_PROVIDER_REGISTERED \/ bs_bond_atoms s = 0) then None else Some (set_status s QRX_PROVIDER_ACTIVE).
Definition qrx_storage_bond_begin_exit (s : QrxStorageBondState) (h : Z) : option QrxStorageBondState :=
  if decide (bs_status s <> QRX_PROVIDER_ACTIVE) then None
  else Some (mkBond QRX_PROVIDER_EXITING (bs_bond_atoms s) (bs_proven_capacity_bytes s) (bs_allocated_bytes s) h).
Definition qrx_storage_bond_withdrawable (s : QrxStorageBondState) (h : Z) : bool :=
  if decide (bs_status s <> QRX_PROVIDER_EXITING \/ bs_allocated_bytes s <> 0) then false
  else if decide (h < bs_exit_height s) then false
  else bool_decide (h -64 bs_exit_height s >= QRX_STORAGE_EXIT_DELAY_BLOCKS).
Definition qrx_storage_bond_withdraw (s : QrxStorageBondState) (h : Z) : option (QrxStorageBondState * Z) :=
  if qrx_storage_bond_withdrawable s h then
    Some (mkBond QRX_PROVIDER_WITHDRAWN 0 (bs_proven_capacity_bytes s) (bs_allocated_bytes s) (bs_exit_height s), bs_bond_atoms s)
  else None.
Definition qrx_storage_bond_slash (s : QrxStorageBondState) (atoms : Z) : option (QrxStorageBondState * Z) :=
  if decide (atoms = 0 \/ bs_bond_atoms s = 0) then None
  else
    let x := if decide (atoms < bs_bond_atoms s) then atoms else bs_bond_atoms s in
    let left := bs_bond_atoms s -64 x in
    Some (mkBond (if decide (left = 0) then QRX_PROVIDER_SLASHED else bs_status s) left (bs_proven_capacity_bytes s) (bs_allocated_bytes s) (bs_exit_height s), x).

Definition qrx_storage_financial_init (atoms : Z) : option QrxStorageFinancialState :=
  if decide (atoms = 0) then None
  else
    sp ← qrx_storage_split_contract_value atoms QRX_STORAGE_DEV_SHARE_BPS QRX_STORAGE_RESILIENCE_RESERVE_BPS;
    Some (mkFinancial atoms (sp_development_atoms sp) (sp_resilience_atoms sp) (sp_provider_budget_atoms sp) 0 0 0).
Definition qrx_storage_provider_reward (i : QrxStorageRewardInput) : Z :=
  if decide (ri_stored_bytes i = 0 \/ ri_epochs i = 0 \/ ri_base_atoms_per_gib_epoch i = 0 \/ ri_availability_bps i > 10000 \/ ri_proof_factor_bps i > 10000) then 0
  else
    let perf := clamp_bps (ri_performance_bps i) 5000 11500 in
    let gib_epochs := muldiv_u64 (ri_stored_bytes i) (ri_epochs i) (2 ^ 30) in
    let gib_epochs := if decide (gib_epochs = 0) then 1 else gib_epochs in
    let x := muldiv_u64 gib_epochs (ri_base_atoms_per_gib_epoch i) 1 in
    let x := muldiv_u64 x (ri_availability_bps i) 10000 in
    let x := muldiv_u64 x (ri_proof_factor_bps i) 10000 in
    muldiv_u64 x perf 10000.

Definition set_paid (s : QrxStorageFinancialState) (provider repair egress : Z) : QrxStorageFinancialState :=
  mkFinancial (fs_original_atoms s) (fs_development_atoms s) (fs_resilience_atoms s) (fs_provider_escrow_atoms s) provider repair egress.
Definition qrx_storage_financial_pay_provider (s : QrxStorageFinancialState) (a : Z) : option QrxStorageFinancialState :=
  if decide (a = 0 \/ a > fs_provider_escrow_atoms s -64 fs_provider_paid_atoms s) then None
  else Some (set_paid s (fs_provider_paid_atoms s +64 a) (fs_repair_paid_atoms s) (fs_egress_paid_atoms s)).
Definition qrx_storage_financial_pay_repair (s : QrxStorageFinancialState) (a : Z) : option QrxStorageFinancialState :=
  if decide (a = 0 \/ a > fs_resilience_atoms s -64 fs_repair_paid_atoms s) then None
  else Some (set_paid s (fs_provider_paid_atoms s) (fs_repair_paid_atoms s +64 a) (fs_egress_paid_atoms s)).
Definition qrx_storage_financial_pay_egress (s : QrxStorageFinancialState) (a : Z) : option QrxStorageFinancialState :=
  if decide (a = 0 \/ a > (fs_provider_escrow_atoms s -64 fs_provider_paid_atoms s) -64 fs_egress_paid_atoms s) then None
  else Some (set_paid s (fs_provider_paid_atoms s) (fs_repair_paid_atoms s) (fs_egress_paid_atoms s +64 a)).
Definition qrx_storage_financial_refundable (s : QrxStorageFinancialState) : Z :=
  let p := (fs_provider_escrow_atoms s -64 fs_provider_paid_atoms s) -64 fs_egress_paid_atoms s in
  let r := fs_resilience_atoms s -64 fs_repair_paid_atoms s in
  if decide (UINT64_MAX - p < r) then UINT64_MAX else p + r.

(** ** qrx_storage_capacity.c *)

Record QrxStorageProviderCapacity := mkProviderCapacity {
  pv_provider_id : bytes; pv_configured_bytes : Z; pv_physical_eligible_bytes : Z; pv_proven_bytes : Z; pv_allocated_physical_bytes : Z;
  pv_reserve_committed_bytes : Z; pv_availability_bps : Z; pv_proof_success_bps : Z
}.
Record QrxStorageNetworkCapacity := mkNetworkCapacity {
  nw_configured_bytes : Z; nw_raw_eligible_bytes : Z; nw_proven_bytes : Z; nw_allocated_physical_bytes : Z; nw_logical_user_bytes : Z;
  nw_free_proven_physical_bytes : Z; nw_available_usable_bytes : Z; nw_usable_capacity_bytes : Z; nw_reserve_committed_bytes : Z;
  nw_providers_total : Z; nw_providers_proven : Z; nw_healthy_shards : Z; nw_degraded_shards : Z; nw_repairing_shards : Z;
  nw_utilization_bps : Z; nw_resilience_headroom_bps : Z; nw_redundancy_x10000 : Z
}.

Definition add_u64 (dst v : Z) : option Z := if decide (UINT64_MAX - dst < v) then None else Some (dst + v).
Definition mul_ratio_floor (value num den : Z) : Z :=
  if decide (den = 0) then 0
  else
    let q := value / den in
    let r := value mod den in
    if decide (num <> 0 /\ q > UINT64_MAX / num) then UINT64_MAX
    else
      let a := q *64 num in
      let b := (r *64 num) / den in
      if decide (UINT64_MAX - a < b) then UINT64_MAX else a + b.
Definition ratio_bps (numerator denominator : Z) : Z :=
  if decide (denominator = 0) then 0
  else let v := mul_ratio_floor numerator 10000 denominator in if decide (v > UINT32_MAX) then UINT32_MAX else v.

Definition raw_bytes (p : QrxStorageProviderCapacity) : Z :=
  if decide (pv_configured_bytes p < pv_physical_eligible_bytes p) then pv_configured_bytes p else pv_physical_eligible_bytes p.
Definition qrx_storage_provider_capacity_validate (p : QrxStorageProviderCapacity) : bool :=
  if decide (pv_provider_id p = []) then false
  else if decide (pv_proven_bytes p > raw_bytes p) then false
  else if decide (pv_allocated_physical_bytes p > pv_proven_bytes p) then false
  else if decide (pv_reserve_committed_bytes p > pv_proven_bytes p -64 pv_allocated_physical_bytes p) then false
  else bool_decide (pv_availability_bps p <= 10000 /\ pv_proof_success_bps p <= 10000).

Definition qrx_storage_logical_capacity_for_profile (physical_bytes : Z) (profile : QrxStorageRedundancyProfile) : Z :=
  if decide (pr_full_replicas profile <> 0) then physical_bytes / pr_full_replicas profile
  else
    let total := pr_data_shards profile +64 pr_parity_shards profile in
    if decide (pr_data_shards profile = 0 \/ total = 0) then 0 else mul_ratio_floor physical_bytes (pr_data_shards profile) total.

(** The sums so far: configured, raw, proven, allocated, reserved, and the
    number of providers with proven bytes. *)
Definition capacity_sums := (Z * Z * Z * Z * Z * Z)%type.
Definition capacity_add (acc : option capacity_sums) (p : QrxStorageProviderCapacity) : option capacity_sums :=
  '(c, r, v, a, s, n) ← acc;
  if qrx_storage_provider_capacity_validate p then
    c ← add_u64 c (pv_configured_bytes p);
    r ← add_u64 r (raw_bytes p);
    v ← add_u64 v (pv_proven_bytes p);
    a ← add_u64 a (pv_allocated_physical_bytes p);
    s ← add_u64 s (pv_reserve_committed_bytes p);
    Some (c, r, v, a, s, if decide (pv_proven_bytes p <> 0) then n +64 1 else n)
  else None.
Definition qrx_storage_capacity_aggregate (providers : list QrxStorageProviderCapacity)
    (logical_user_bytes healthy_shards degraded_shards repairing_shards : Z) (profile : QrxStorageRedundancyProfile) : option QrxStorageNetworkCapacity :=
  '(c, r, v, a, s, n) ← foldl capacity_add (Some (0, 0, 0, 0, 0, 0)) providers;
  if decide (a > v) then None
  else
    let free := v -64 a in
    let usable := qrx_storage_logical_capacity_for_profile free profile in
    if decide (UINT64_MAX - logical_user_bytes < usable) then None
    else Some (mkNetworkCapacity c r v a logical_user_bytes free usable (logical_user_bytes +64 usable) s
                 (Z.of_nat (length providers)) n healthy_shards degraded_shards repairing_shards
                 (ratio_bps a v) (ratio_bps free v) (if decide (logical_user_bytes <> 0) then ratio_bps a logical_user_bytes else 0)).

(** ** qrx_storage_placement.c *)

Record QrxStoragePlacementCandidate := mkPlacement {
  pl_provider_id : bytes; pl_operator_id : bytes; pl_asn : bytes; pl_region : bytes; pl_proven_free_bytes : Z; pl_bond_atoms : Z;
  pl_price_atoms_per_gib_epoch : Z; pl_availability_bps : Z; pl_proof_success_bps : Z; pl_performance_bps : Z; pl_active : Z; pl_failure_domain_attested : Z
}.
Record QrxStoragePlacementExclusions := mkExclusions { ex_provider_ids : list bytes; ex_operator_ids : list bytes; ex_asns : list bytes; ex_regions : list bytes }.

(** [qrx_storage_repair.h] *)
Inductive QrxStorageAssignmentState := QRX_ASSIGN_PENDING | QRX_ASSIGN_ACTIVE | QRX_ASSIGN_DEGRADED | QRX_ASSIGN_REPAIRING | QRX_ASSIGN_REPLACED.
#[export] Instance assignment_state_eq_dec : EqDecision QrxStorageAssignmentState.
Proof. solve_decision. Defined.
Record QrxStorageAssignment := mkAssignment {
  sa_contract_id : bytes; sa_provider_id : bytes; sa_shard_index : Z; sa_physical_bytes : Z; sa_state : QrxStorageAssignmentState; sa_last_proof_epoch : Z
}.
Record QrxStorageRepairPlan := mkRepairPlan { rr_replacement_candidate_index : nat; rr_shard_index : Z; rr_physical_bytes : Z }.

Definition contains (s : bytes) (a : list bytes) : bool := bool_decide (s <> [] /\ s ∈ a).

Section placement.
Variable sha3_512 : bytes -> bytes.

Definition tie_hash (provider randomness : bytes) : Z := be64_of (sha3_512 (cs "QRX-STORAGE-PLACEMENT-V1" ++ provider ++ randomness)).
(** The factor of a price, 10000 for nothing. *)
Definition price_factor (p : Z) : Z :=
  if decide (p = 0) then 10000
  else
    let f := (10000 * 1000000) / (1000000 +64 (if decide (p > UINT64_MAX / 10000) then UINT64_MAX else p *64 10)) in
    if decide (f < 1000) then 1000 else f.
Definition qrx_storage_placement_score (c : QrxStoragePlacementCandidate) (randomness : bytes) : Z :=
  if decide (pl_active c = 0 \/ pl_provider_id c = []) then 0
  else
    let cap := qrx_resource_capacity_weight (pl_proven_free_bytes c) in
    let reliability := (pl_availability_bps c +64 pl_proof_success_bps c) / 2 in
    let reliability := if decide (reliability > 10000) then 10000 else reliability in
    let perf := clamp_bps (pl_performance_bps c) 5000 11500 in
    let base := if decide (cap = 0) then 1 else cap in
    let base := if decide (base > UINT64_MAX / 10000) then UINT64_MAX / 10000 else base in
    let base := (base *64 reliability) / 10000 in
    let base := (base *64 perf) / 10000 in
    let base := (base *64 price_factor (pl_price_atoms_per_gib_epoch c)) / 10000 in
    Z.lxor (u64 (Z.shiftl base 16)) (Z.land (tie_hash (pl_provider_id c) randomness) 0xffff).

Definition eligible (x : QrxStoragePlacementExclusions) (minfree minbond : Z) (p : QrxStoragePlacementCandidate) : bool :=
  if decide (pl_active p = 0 \/ pl_proven_free_bytes p < minfree \/ pl_bond_atoms p < minbond \/ pl_provider_id p = []) then false
  else if contains (pl_provider_id p) (ex_provider_ids x) || contains (pl_operator_id p) (ex_operator_ids x) then false
  else if bool_decide (pl_failure_domain_attested p <> 0) && (contains (pl_asn p) (ex_asns x) || contains (pl_region p) (ex_regions x)) then false
  else true.
(** The best so far: its index and score. *)
Definition select_step (x : QrxStoragePlacementExclusions) (minfree minbond : Z) (rnd : bytes) (best : option (nat * Z)) (ip : nat * QrxStoragePlacementCandidate)
    : option (nat * Z) :=
  let '(i, p) := ip in
  if eligible x minfree minbond p then
    let s := qrx_storage_placement_score p rnd in
    match best with
    | Some (_, b) => if decide (s > b) then Some (i, s) else best
    | None => Some (i, s)
    end
  else best.
Definition qrx_storage_select_provider (c : list QrxStoragePlacementCandidate) (x : QrxStoragePlacementExclusions) (minfree minbond : Z) (rnd : bytes) : option nat :=
  fst <$> foldl (select_step x minfree minbond rnd) None (imap pair c).

(** ** qrx_storage_repair.c *)

Definition with_state (a : QrxStorageAssignment) (s : QrxStorageAssignmentState) : QrxStorageAssignment :=
  mkAssignment (sa_contract_id a) (sa_provider_id a) (sa_shard_index a) (sa_physical_bytes a) s (sa_last_proof_epoch a).
Definition qrx_storage_mark_degraded (a : QrxStorageAssignment) (missed : Z) : option QrxStorageAssignment :=
  if decide (sa_state a <> QRX_ASSIGN_ACTIVE \/ missed <= sa_last_proof_epoch a) then None else Some (with_state a QRX_ASSIGN_DEGRADED).

(** The providers of the other shards that still count. *)
Definition other_providers (all : list QrxStorageAssignment) (fi : nat) : list bytes :=
  sa_provider_id <$> (snd <$> filter (fun ia => ia.1 <> fi /\ sa_state ia.2 <> QRX_ASSIGN_REPLACED /\ sa_provider_id ia.2 <> []) (imap pair all)).
Definition qrx_storage_plan_repair (all : list QrxStorageAssignment) (fi : nat) (c : list QrxStoragePlacementCandidate) (minbond : Z) (rnd : bytes)
    : option QrxStorageRepairPlan :=
  a ← all !! fi;
  if decide (c = [] \/ sa_state a <> QRX_ASSIGN_DEGRADED) then None
  else
    sel ← qrx_storage_select_provider c (mkExclusions (other_providers all fi) [] [] []) (sa_physical_bytes a) minbond rnd;
    Some (mkRepairPlan sel (sa_shard_index a) (sa_physical_bytes a)).
(** The failed assignment and the replacement. *)
Definition qrx_storage_begin_repair (f : QrxStorageAssignment) (c : QrxStoragePlacementCandidate) (p : QrxStorageRepairPlan)
    : option (QrxStorageAssignment * QrxStorageAssignment) :=
  if decide (sa_state f <> QRX_ASSIGN_DEGRADED \/ pl_proven_free_bytes c < rr_physical_bytes p) then None
  else Some (with_state f QRX_ASSIGN_REPAIRING,
             mkAssignment (sa_contract_id f) (pl_provider_id c) (rr_shard_index p) (rr_physical_bytes p) QRX_ASSIGN_REPAIRING 0).
Definition qrx_storage_complete_repair (f r : QrxStorageAssignment) (verified : bool) : option (QrxStorageAssignment * QrxStorageAssignment) :=
  if decide (sa_state f <> QRX_ASSIGN_REPAIRING \/ sa_state r <> QRX_ASSIGN_REPAIRING \/ verified = false) then None
  else Some (with_state f QRX_ASSIGN_REPLACED, with_state r QRX_ASSIGN_ACTIVE).
End placement.
