(* ===== verification/MarketFacts.v ===== *)
(** * The market for storage: theorems

    Contract values split exactly, the weight of a capacity is a square root,
    bonds are conserved and leave only after the delay, the choice of a provider
    is the best eligible one; and what the payments and scores get wrong. *)

From stdpp Require Import list.
From S2P Require Import Prelude Format Rotation Market.

(** ** Values *)

Lemma mul_bps_exact amount bps : in_u64 amount -> 0 <= bps <= 10000 -> mul_bps_floor amount bps = amount * bps / 10000.
Proof.
  intros [Ha Hb] Hbps. unfold mul_bps_floor, QRX_BPS_DENOMINATOR.
  pose proof (Z.div_mod amount 10000 ltac:(lia)) as E. pose proof (Z.mod_pos_bound amount 10000 ltac:(lia)) as Hm.
  set (q := amount / 10000) in *. set (m := amount mod 10000) in *. assert (0 <= q) by (apply Z.div_pos; lia).
  assert (0 <= q * bps <= q * 10000) by (split; [apply Z.mul_nonneg_nonneg|apply Z.mul_le_mono_nonneg_l]; lia).
  assert (0 <= m * bps <= m * 10000) by (split; [apply Z.mul_nonneg_nonneg|apply Z.mul_le_mono_nonneg_l]; lia).
  rewrite (u64_small (q * bps)), (u64_small (m * bps)) by word.
  assert (amount * bps / 10000 = q * bps + m * bps / 10000) as ->.
  { replace (amount * bps) with (q * bps * 10000 + m * bps) by (rewrite E; ring). apply Z.div_add_l. lia. }
  apply u64_small. assert (0 <= m * bps / 10000 <= m) by (split; [apply Z.div_pos; lia|apply Z.div_le_upper_bound; lia]). word.
Qed.

(** The parts of a contract value are exact and lose nothing. *)
Theorem split_contract_exact amount dev res : in_u64 amount -> 0 <= dev -> 0 <= res ->
  qrx_storage_split_contract_value amount dev res =
    if decide (dev + res <= 10000) then
      Some (mkSplit (amount * dev / 10000) (amount * res / 10000) (amount - amount * dev / 10000 - amount * res / 10000))
    else None.
Proof.
  intros Ha Hd Hr. unfold qrx_storage_split_contract_value, QRX_BPS_DENOMINATOR. case_decide as H1; [by rewrite decide_False by lia|].
  rewrite u64_small by word. destruct (decide (dev + res > 10000)) as [H2|H2]; [by rewrite decide_False by lia|]. rewrite (decide_True (P := dev + res <= 10000)) by lia.
  rewrite !mul_bps_exact by (done || lia). cbv zeta.
  assert (0 <= amount * dev / 10000 /\ 0 <= amount * res / 10000) as [P1 P2] by (split; apply Z.div_pos; word_unfold; nia).
  assert (amount * dev / 10000 + amount * res / 10000 <= amount) as Hsum.
  { assert (amount * dev / 10000 * 10000 <= amount * dev) by (pose proof (Z.mul_div_le (amount * dev) 10000); lia).
    assert (amount * res / 10000 * 10000 <= amount * res) by (pose proof (Z.mul_div_le (amount * res) 10000); lia). word_unfold. nia. }
  rewrite (u64_small (amount - _)) by word. rewrite decide_False by lia. by rewrite (u64_small (amount - _ - _)) by word.
Qed.

(** ** The square root *)

Lemma first_bit_spec fuel : forall k x, 0 < x -> (Z.to_nat k <= fuel)%nat -> 0 <= k -> x < 4 ^ (k + 1) ->
  exists j, 0 <= j <= k /\ first_bit fuel (4 ^ k) x = 4 ^ j /\ 4 ^ j <= x < 4 ^ (j + 1).
Proof.
  induction fuel as [|fuel IH]; intros k x Hx Hf Hk Hlt; cbn [first_bit]; case_decide as Hb; try (exists k; split_and!; lia || done).
  - exfalso. assert (k = 0) as -> by lia. cbn in Hb. lia.
  - assert (k <> 0) by (intros ->; cbn in Hb; lia). replace (Z.shiftr (4 ^ k) 2) with (4 ^ (k - 1)).
    2:{ rewrite Z.shiftr_div_pow2 by lia. replace k with (Z.succ (k - 1)) at 2 by lia. rewrite Z.pow_succ_r, Z.mul_comm by lia. change (2 ^ 2) with 4. by rewrite Z.div_mul. }
    destruct (IH (k - 1) x) as (j & Hj & E & B); [lia|lia|lia|replace (k - 1 + 1) with k by lia; lia|]. exists j. split; [lia|done].
Qed.

(** [a] is the root so far, a multiple of 2^(k+1). *)
Lemma sqrt_loop_spec fuel : forall k n a, (Z.to_nat (k + 1) < fuel)%nat -> -1 <= k <= 30 -> 0 <= a -> a * 2 ^ (k + 1) < 2 ^ 63 -> n < 2 ^ 63 ->
  (exists q, a = q * 2 ^ (k + 1)) -> a * a <= n < (a + 2 ^ (k + 1)) * (a + 2 ^ (k + 1)) ->
  exists r, sqrt_loop fuel (if decide (k = -1) then 0 else 4 ^ k) (n - a * a) (a * 2 ^ (k + 1)) = r /\ 0 <= r /\ r * r <= n < (r + 1) * (r + 1).
Proof.
  induction fuel as [|fuel IH]; intros k n a Hf Hk Ha Hs Hn Hq Hb; [lia|]. cbn [sqrt_loop]. destruct (decide (k = -1)) as [->|Hk1].
  - rewrite decide_True by done. change (-1 + 1) with 0 in *. rewrite Z.pow_0_r in *. exists (a * 1). split; [done|]. rewrite Z.mul_1_r. split; [done|lia].
  - assert (0 <= k) by lia. assert (0 < 4 ^ k) as Hp by (apply Z.pow_pos_nonneg; lia). rewrite decide_False by lia.
    assert (4 ^ k = 2 ^ k * 2 ^ k) as E4 by (change 4 with (2 * 2); by rewrite Z.pow_mul_l). assert (2 ^ (k + 1) = 2 * 2 ^ k) as E2 by (rewrite Z.add_1_r; by apply Z.pow_succ_r).
    assert (2 ^ k <= 2 ^ 30) by (apply Z.pow_le_mono_r; lia). assert (0 < 2 ^ k) by (apply Z.pow_pos_nonneg; lia).
    set (p := 2 ^ k) in *. assert (p * p <= 2 ^ 30 * 2 ^ 30) by (apply Z.mul_le_mono_nonneg; lia). change (2 ^ 30 * 2 ^ 30) with (2 ^ 60) in *.
    assert (a * 2 ^ (k + 1) +64 4 ^ k = 2 * a * p + p * p) as -> by (rewrite E4, E2; rewrite u64_small; [ring|rewrite E2 in Hs; word_unfold; split; [nia|nia]]).
    assert ((if decide (k - 1 = -1) then 0 else 4 ^ (k - 1)) = Z.shiftr (4 ^ k) 2) as Ebit.
    { case_decide; [assert (k = 0) as -> by lia; done|]. rewrite Z.shiftr_div_pow2 by lia. replace k with (Z.succ (k - 1)) at 2 by lia.
      rewrite Z.pow_succ_r, Z.mul_comm by lia. change (2 ^ 2) with 4. by rewrite Z.div_mul. }
    assert (Z.shiftr (a * 2 ^ (k + 1)) 1 = a * p) as Eshift by (rewrite Z.shiftr_div_pow2, E2 by lia; change (2 ^ 1) with 2; rewrite <- (Z.div_mul (a * p) 2) by lia; f_equal; ring).
    replace (k + 1) with (Z.succ k) in Hf by lia. rewrite Eshift, <- Ebit. destruct Hq as [q Hq]. rewrite E2 in Hq, Hb, Hs.
    assert (0 <= a * a /\ 0 <= a * p /\ 0 < p * p) as (Q1 & Q2 & Q3) by (split_and!; try apply Z.mul_nonneg_nonneg; try apply Z.mul_pos_pos; lia).
    destruct (decide (n - a * a >= _)) as [Hx|Hx].
    + rewrite (u64_small (n - a * a - _)) by (word_unfold; lia). rewrite (u64_small (a * p + 4 ^ k)) by (rewrite E4; word_unfold; lia).
      replace (n - a * a - (2 * a * p + p * p)) with (n - (a + p) * (a + p)) by ring. rewrite E4. replace (a * p + p * p) with ((a + p) * 2 ^ (k - 1 + 1)) by (replace (k - 1 + 1) with k by lia; fold p; ring).
      apply IH; [lia|lia|lia| |done| |]; replace (k - 1 + 1) with k by lia; fold p; [lia|exists (2 * q + 1); lia|lia].
    + replace (a * p) with (a * 2 ^ (k - 1 + 1)) by (replace (k - 1 + 1) with k by lia; done).
      apply IH; [lia|lia|lia| |done| |]; replace (k - 1 + 1) with k by lia; fold p; [lia|exists (2 * q); lia|lia].
Qed.

(** The weight of a capacity is the integer square root of its MiB, and 1 below one MiB. *)
Theorem capacity_weight_sqrt bytes : in_u64 bytes ->
  let w := qrx_resource_capacity_weight bytes in let x := bytes / 2 ^ 20 in
  if decide (x = 0) then w = (if decide (bytes = 0) then 0 else 1) else 0 < w /\ w * w <= x < (w + 1) * (w + 1).
Proof.
  intros [Hb Hm] w x. subst w. unfold qrx_resource_capacity_weight. rewrite Z.shiftr_div_pow2 by lia. fold x. case_decide as Hx; [done|].
  assert (0 <= x) by (apply Z.div_pos; lia). assert (x < 2 ^ 44) by (apply Z.div_lt_upper_bound; [lia|]; change (2 ^ 20 * 2 ^ 44) with (2 ^ 64); word).
  destruct (first_bit_spec 32 31 x) as (j & Hj & E & B); [lia|lia|lia|change (4 ^ (31 + 1)) with (2 ^ 64); lia|].
  change (4 ^ 31) with (2 ^ 62) in E. rewrite E. assert (j < 22).
  { destruct (decide (j < 22)) as [|Hn]; [done|]. assert (4 ^ 22 <= 4 ^ j) by (apply Z.pow_le_mono_r; lia). change (4 ^ 22) with (2 ^ 44) in *. lia. }
  assert (0 < 2 ^ (j + 1)) by (apply Z.pow_pos_nonneg; lia).
  destruct (sqrt_loop_spec 32 j x 0) as (r & Er & Hr & Br); try lia; [exists 0; lia| |].
  { split; [lia|]. rewrite !Z.add_0_l, <- Z.pow_mul_l. change (2 * 2) with 4. apply B. }
  rewrite decide_False, Z.mul_0_l, Z.sub_0_r, Z.mul_0_l in Er by lia. rewrite Er.
  split; [destruct (decide (r = 0)); lia|done].
Qed.

(** ** Bonds *)

Inductive bond_event := EvActivate | EvBeginExit (h : Z) | EvWithdraw (h : Z) | EvSlash (atoms : Z).
(** The bond, what was paid back and what was taken. *)
Definition bond_step (acc : option (QrxStorageBondState * Z * Z)) (e : bond_event) : option (QrxStorageBondState * Z * Z) :=
  '(s, back, taken) ← acc;
  match e with
  | EvActivate => s' ← qrx_storage_bond_activate s; Some (s', back, taken)
  | EvBeginExit h => s' ← qrx_storage_bond_begin_exit s h; Some (s', back, taken)
  | EvWithdraw h => '(s', x) ← qrx_storage_bond_withdraw s h; Some (s', back + x, taken)
  | EvSlash a => '(s', x) ← qrx_storage_bond_slash s a; Some (s', back, taken + x)
  end.
Definition bond_run (s : QrxStorageBondState) (es : list bond_event) := foldl bond_step (Some (s, 0, 0)) es.

(** Nothing is lost or created, and nothing is paid back before the exit has lasted long enough. *)
Definition bond_ok (bond : Z) (es : list bond_event) (s : QrxStorageBondState) (back taken : Z) : Prop :=
  0 <= bs_bond_atoms s /\ 0 <= back /\ 0 <= taken /\ bs_bond_atoms s + back + taken = bond /\
  (bs_status s = QRX_PROVIDER_EXITING -> EvBeginExit (bs_exit_height s) ∈ es) /\
  (bs_status s = QRX_PROVIDER_REGISTERED \/ bs_status s = QRX_PROVIDER_ACTIVE \/ bs_status s = QRX_PROVIDER_EXITING -> back = 0) /\
  (back <> 0 -> bs_bond_atoms s = 0 /\ exists h0 h1, EvBeginExit h0 ∈ es /\ EvWithdraw h1 ∈ es /\ h0 + QRX_STORAGE_EXIT_DELAY_BLOCKS <= h1).

Lemma withdrawable_spec s h : qrx_storage_bond_withdrawable s h = true -> in_u64 h -> in_u64 (bs_exit_height s) ->
  bs_status s = QRX_PROVIDER_EXITING /\ bs_allocated_bytes s = 0 /\ bs_exit_height s + QRX_STORAGE_EXIT_DELAY_BLOCKS <= h.
Proof.
  unfold qrx_storage_bond_withdrawable. intros H Hh He. repeat case_decide; try done. apply bool_decide_eq_true in H.
  rewrite u64_small in H by word. split_and!; [|lia|word]. destruct (decide (bs_status s = QRX_PROVIDER_EXITING)); [done|naive_solver].
Qed.

Definition event_in_range (e : bond_event) : Prop :=
  match e with EvActivate => True | EvBeginExit h | EvWithdraw h => in_u64 h | EvSlash a => in_u64 a end.
Definition bond_inv (bond : Z) (es : list bond_event) (s : QrxStorageBondState) (back taken : Z) : Prop :=
  bond_ok bond es s back taken /\ in_u64 (bs_exit_height s).

Lemma bond_inv_more bond es e s back taken : bond_inv bond es s back taken -> bond_inv bond (es ++ [e]) s back taken.
Proof.
  intros [(A & B & C & D & E & F & G) I]. split; [|done]. split_and!; try done.
  - intros H. apply elem_of_app. left. by apply E.
  - intros H. destruct (G H) as [G0 (h0 & h1 & G1 & G2 & G3)]. split; [done|]. exists h0, h1. rewrite !elem_of_app. auto.
Qed.

Lemma bond_step_inv bond es e s back taken s' back' taken' : in_u64 bond -> event_in_range e -> bond_inv bond es s back taken ->
  bond_step (Some (s, back, taken)) e = Some (s', back', taken') -> bond_inv bond (es ++ [e]) s' back' taken'.
Proof.
  intros Hb He Hi Hs. apply (bond_inv_more _ _ e) in Hi as [(A & B & C & D & E & F & G) I]. assert (in_u64 (bs_bond_atoms s)) by word.
  assert (e ∈ es ++ [e]) as Hin by (apply elem_of_app; right; by apply list_elem_of_singleton).
  cbn [bond_step mbind option_bind] in Hs. destruct e as [|h|h|a]; cbn [event_in_range] in He.
  - unfold qrx_storage_bond_activate in Hs. case_decide as Hc; [done|]. simplify_eq/=. split; [|done]. split_and!; try done.
    cbn. intros _. apply F. left. destruct (decide (bs_status s = QRX_PROVIDER_REGISTERED)); [done|naive_solver].
  - unfold qrx_storage_bond_begin_exit in Hs. case_decide as Hc; [done|]. simplify_eq/=. split; [|done]. split_and!; try done.
    cbn. intros _. apply F. by right; left.
  - unfold qrx_storage_bond_withdraw in Hs. destruct (qrx_storage_bond_withdrawable s h) eqn:Hw; [|done]. simplify_eq/=.
    destruct (withdrawable_spec _ _ Hw He I) as (W1 & W2 & W3). assert (back = 0) as -> by (apply F; by right; right).
    split; [|done]. split_and!; cbn; try done || lia; try (by intros [?|[?|?]]). intros _. split; [done|]. exists (bs_exit_height s), h. auto.
  - unfold qrx_storage_bond_slash in Hs. destruct (decide (a = 0 \/ bs_bond_atoms s = 0)) as [|Hc]; [done|].
    assert (back = 0) as -> by (destruct (decide (back = 0)) as [|Hn]; [done|]; apply G in Hn; naive_solver).
    set (x := if decide (a < bs_bond_atoms s) then a else bs_bond_atoms s) in *. assert (0 <= x <= bs_bond_atoms s) by (subst x; destruct (decide (a < bs_bond_atoms s)); word_unfold; lia).
    rewrite u64_small in Hs by word. injection Hs as <- <- <-. split; [|done]. split_and!; cbn; try done || lia.
    intros H1. apply E. by case_decide.
Qed.

(** C24: over any sequence of events of a registered bond, what is left, what was paid back and what
    was taken add up to the bond; and it is paid back only once, after an exit that lasted 8640 blocks. *)
Theorem bond_lifecycle cap bond es s0 s back taken :
  in_u64 bond -> Forall event_in_range es -> qrx_storage_bond_register cap bond = Some s0 ->
  bond_run s0 es = Some (s, back, taken) -> bond_ok bond es s back taken.
Proof.
  intros Hb Hes Hr Hrun. cut (bond_inv bond es s back taken); [by intros []|]. revert s back taken Hrun.
  induction es as [|e es IH] using rev_ind; intros s back taken Hrun.
  - unfold qrx_storage_bond_register in Hr. case_decide; [done|]. injection Hr as <-. injection Hrun as <- <- <-.
    split; [|cbn; word]. split_and!; cbn; try done || lia || word.
  - apply Forall_app in Hes as [H1 H2]. apply Forall_cons in H2 as [H2 _]. unfold bond_run in Hrun. rewrite foldl_app in Hrun. cbn [foldl] in Hrun.
    destruct (foldl bond_step (Some (s0, 0, 0)) es) as [[[s1 b1] t1]|] eqn:E; [|done]. eapply bond_step_inv; [done|done| |exact Hrun]. by apply IH.
Qed.

(** ** Reputation *)

Definition reputation_ok (r : QrxStorageProviderReputation) : Prop :=
  0 <= rp_availability_bps r <= 10000 /\ 0 <= rp_proof_success_bps r <= 10000 /\ 5000 <= rp_performance_bps r <= 11500 /\
  QRX_STORAGE_REPUTATION_MIN_BPS <= rp_reputation_bps r <= 10000.

Lemma reputation_init_ok : reputation_ok qrx_storage_reputation_init.
Proof. unfold reputation_ok. cbn. unfold QRX_STORAGE_REPUTATION_INITIAL_BPS, QRX_STORAGE_REPUTATION_MIN_BPS. lia. Qed.

(** A moving average of n samples. *)
Lemma blend_spec L B n x s : 0 < n -> 0 <= L -> B * n < 2 ^ 32 -> L <= x <= B -> L <= s <= B ->
  u32 (((x *64 (n - 1)) +64 s) / n) = (x * (n - 1) + s) / n /\ L <= (x * (n - 1) + s) / n <= B.
Proof.
  intros Hn HL HB Hx Hs. assert (L * (n - 1) <= x * (n - 1) <= B * (n - 1)) by (split; apply Z.mul_le_mono_nonneg_r; lia).
  assert (0 <= L * (n - 1)) by (apply Z.mul_nonneg_nonneg; lia). rewrite (u64_small (x * (n - 1))) by (word_unfold; lia). rewrite u64_small by (word_unfold; lia).
  assert (L <= (x * (n - 1) + s) / n <= B) as Hr by (split; [apply Z.div_le_lower_bound; lia|apply Z.div_le_upper_bound; lia]).
  split; [|done]. apply u32_small. assert (B * 1 <= B * n) by (apply Z.mul_le_mono_nonneg_l; lia). word_unfold. lia.
Qed.

(** Every record of a proof keeps a reputation in its bounds, and a failure never raises it above what a success gives. *)
Theorem reputation_bounded r latency : reputation_ok r -> 0 <= latency <= 20000 ->
  exists good bad, qrx_storage_reputation_record_proof r true latency = Some good /\ qrx_storage_reputation_record_proof r false latency = Some bad /\
    reputation_ok good /\ reputation_ok bad /\ rp_reputation_bps bad <= rp_reputation_bps good.
Proof.
  intros (A & B & C & D) Hl. unfold qrx_storage_reputation_record_proof. rewrite !(decide_False (P := latency > 20000)) by lia. cbv zeta. do 2 eexists. split; [reflexivity|]. split; [reflexivity|].
  unfold reputation_ok. cbn [rp_availability_bps rp_proof_success_bps rp_performance_bps rp_reputation_bps]. unfold clamp_bps, QRX_STORAGE_REPUTATION_MIN_BPS in *.
  assert (5000 <= (if decide (latency < 5000) then 5000 else if decide (latency > 11500) then 11500 else latency) <= 11500) as Hlp by (repeat case_decide; lia).
  set (lp := if decide (latency < 5000) then 5000 else _) in *. clearbody lp.
  destruct (blend_spec 0 10000 16 (rp_proof_success_bps r) 10000) as [P1 P2]; try lia. destruct (blend_spec 0 10000 16 (rp_proof_success_bps r) 0) as [P3 P4]; try lia.
  destruct (blend_spec 0 10000 32 (rp_availability_bps r) 10000) as [A1 A2]; try lia. destruct (blend_spec 0 10000 32 (rp_availability_bps r) 0) as [A3 A4]; try lia.
  destruct (blend_spec 5000 11500 16 (rp_performance_bps r) lp) as [F1 F2]; try lia.
  change (16 - 1) with 15 in *. change (32 - 1) with 31 in *. rewrite P1, P3, A1, A3, F1.
  assert ((rp_proof_success_bps r * 15 + 0) / 16 <= (rp_proof_success_bps r * 15 + 10000) / 16) by (apply Z.div_le_mono; lia).
  assert ((rp_availability_bps r * 31 + 0) / 32 <= (rp_availability_bps r * 31 + 10000) / 32) by (apply Z.div_le_mono; lia).
  set (p1 := (rp_proof_success_bps r * 15 + 10000) / 16) in *. set (p0 := (rp_proof_success_bps r * 15 + 0) / 16) in *. set (a1 := (_ + 10000) / 32) in *. set (a0 := (_ + 0) / 32) in *. set (f := (_ + lp) / 16) in *.
  clearbody p1 p0 a1 a0 f. rewrite !(decide_False (P := f < 5000)), !(decide_False (P := f > 11500)) by lia.
  rewrite !(u64_small (_ * _)) by (word_unfold; lia). rewrite !(u64_small (_ * _ + _ * _)) by (word_unfold; lia). rewrite !(u64_small (_ + _)) by (word_unfold; lia).
  rewrite !u32_small by (word_unfold; dlia).
  assert ((p0 * 5 + a0 * 3 + f * 2) / 10 <= (p1 * 5 + a1 * 3 + f * 2) / 10) by (apply Z.div_le_mono; lia).
  assert (0 <= (p0 * 5 + a0 * 3 + f * 2) / 10) by (apply Z.div_pos; lia).
  set (q1 := (p1 * 5 + _ + _) / 10) in *. set (q0 := (p0 * 5 + _ + _) / 10) in *. clearbody q1 q0. clear D. repeat case_decide; split_and!; lia.
Qed.

(** ** Payments *)

(** A payment to a provider does not count what was paid for egress: together they exceed the
    escrow, and what is refundable wraps around. *)
Theorem finance_overpaid atoms s e : in_u64 atoms -> qrx_storage_financial_init atoms = Some s -> 0 < e <= fs_provider_escrow_atoms s ->
  exists s1 s2, qrx_storage_financial_pay_egress s e = Some s1 /\ qrx_storage_financial_pay_provider s1 (fs_provider_escrow_atoms s) = Some s2 /\
    fs_provider_paid_atoms s2 + fs_egress_paid_atoms s2 = fs_provider_escrow_atoms s + e /\ 2 ^ 64 - e <= qrx_storage_financial_refundable s2.
Proof.
  intros Ha Hi He. unfold qrx_storage_financial_init in Hi. case_decide; [done|]. destruct (qrx_storage_split_contract_value _ _ _) as [sp|] eqn:Hsp; [|done].
  injection Hi as <-. rewrite split_contract_exact in Hsp by (done || unfold QRX_STORAGE_DEV_SHARE_BPS, QRX_STORAGE_RESILIENCE_RESERVE_BPS; lia).
  case_decide; [|done]. injection Hsp as <-. unfold QRX_STORAGE_DEV_SHARE_BPS, QRX_STORAGE_RESILIENCE_RESERVE_BPS in *. cbn in He.
  set (d := atoms * 50 / 10000) in *. set (r := atoms * 200 / 10000) in *. assert (0 <= d /\ 0 <= r) as [Hd Hr] by (word_unfold; split; apply Z.div_pos; lia). clearbody d r.
  unfold qrx_storage_financial_pay_egress, qrx_storage_financial_pay_provider. cbn. unfold in_u64, U64 in Ha.
  set (esc := atoms - d - r) in *. assert (0 <= esc < 2 ^ 64 /\ r < 2 ^ 64) as [? ?] by (subst esc; lia). clearbody esc. rewrite !Z.sub_0_r, !(u64_small esc) by word.
  rewrite decide_False by lia. eexists _, _. split; [reflexivity|]. cbn. rewrite !Z.sub_0_r, ?(u64_small esc) by word. rewrite decide_False by lia. split; [reflexivity|]. cbn.
  rewrite !Z.add_0_l, !(u64_small esc), !(u64_small e) by word. split; [done|]. unfold qrx_storage_financial_refundable. cbn.
  replace (esc - esc) with 0 by lia. rewrite (u64_small 0) by word. rewrite !Z.sub_0_r, (u64_small r) by word.
  assert (0 -64 e = 2 ^ 64 - e) as -> by (symmetry; apply (Z.mod_unique_pos _ _ (-1)); word_unfold; lia). case_decide; word.
Qed.
