(* ===== verification/PlacementFacts.v ===== *)
(** * Placement of storage: theorems

    The capacity of a network adds up, the provider chosen is the first of the
    best eligible ones, a repair never chooses the provider of another shard;
    witnesses of the market, and the inputs on which the scores go wrong. *)

From stdpp Require Import list strings.
From S2P Require Import Prelude Format Rotation Market MarketFacts.

(** ** The capacity of the network *)

Definition sum_of (f : QrxStorageProviderCapacity -> Z) (ps : list QrxStorageProviderCapacity) : Z := foldr (fun p n => f p + n) 0 ps.

Lemma sum_of_snoc f ps p : sum_of f (ps ++ [p]) = sum_of f ps + f p.
Proof. induction ps as [|q ps IH]; cbn; [lia|]. fold (sum_of f (ps ++ [p])). rewrite IH. fold (sum_of f ps). lia. Qed.

Lemma add_u64_spec d v w : add_u64 d v = Some w <-> w = d + v /\ d + v <= UINT64_MAX.
Proof. unfold add_u64. case_decide; split; intros; simplify_eq; try split; try lia. f_equal. lia. Qed.

Lemma capacity_fold_spec ps c r v a s n : foldl capacity_add (Some (0, 0, 0, 0, 0, 0)) ps = Some (c, r, v, a, s, n) ->
  c = sum_of pv_configured_bytes ps /\ r = sum_of raw_bytes ps /\ v = sum_of pv_proven_bytes ps /\ a = sum_of pv_allocated_physical_bytes ps /\
  s = sum_of pv_reserve_committed_bytes ps /\ Forall (fun p => qrx_storage_provider_capacity_validate p = true) ps /\ (ps <> [] -> v <= UINT64_MAX).
Proof.
  revert c r v a s n. induction ps as [|p ps IH] using rev_ind; intros c r v a s n.
  - cbn. intros [=]; subst. split_and!; done.
  - rewrite foldl_app. cbn [foldl]. unfold capacity_add at 1. destruct (foldl capacity_add _ ps) as [[[[[[c0 r0] v0] a0] s0] n0]|] eqn:E; [|done].
    cbn [mbind option_bind]. destruct (qrx_storage_provider_capacity_validate p) eqn:Hv; [|done].
    destruct (IH _ _ _ _ _ _ eq_refl) as (-> & -> & -> & -> & -> & Hf & _). intros H.
    repeat match type of H with (add_u64 ?x ?y ≫= _) = _ => let E := fresh "E" in destruct (add_u64 x y) eqn:E; [|done]; cbn [mbind option_bind] in H; apply add_u64_spec in E as [-> ?] end.
    injection H as <- <- <- <- <- <-. rewrite !sum_of_snoc. split_and!; try done. apply Forall_app. split; [done|by constructor].
Qed.

Lemma validated p : qrx_storage_provider_capacity_validate p = true -> in_u64 (pv_proven_bytes p) -> 0 <= pv_allocated_physical_bytes p -> 0 <= pv_reserve_committed_bytes p ->
  pv_allocated_physical_bytes p + pv_reserve_committed_bytes p <= pv_proven_bytes p <= raw_bytes p.
Proof.
  unfold qrx_storage_provider_capacity_validate. intros H Hp Ha Hr. repeat case_decide; try done. rewrite u64_small in * by word. lia.
Qed.

(** An aggregate is the sum of valid providers; its free bytes are proven and not allocated, and cover the reserve. *)
Theorem aggregate_sums ps logical h d q profile out :
  qrx_storage_capacity_aggregate ps logical h d q profile = Some out ->
  Forall (fun p => in_u64 (pv_proven_bytes p) /\ 0 <= pv_allocated_physical_bytes p /\ 0 <= pv_reserve_committed_bytes p) ps ->
  nw_proven_bytes out = sum_of pv_proven_bytes ps /\ nw_allocated_physical_bytes out = sum_of pv_allocated_physical_bytes ps /\
  nw_free_proven_physical_bytes out = sum_of pv_proven_bytes ps - sum_of pv_allocated_physical_bytes ps /\
  nw_reserve_committed_bytes out = sum_of pv_reserve_committed_bytes ps /\
  nw_reserve_committed_bytes out <= nw_free_proven_physical_bytes out /\ nw_proven_bytes out <= nw_raw_eligible_bytes out /\
  nw_available_usable_bytes out = qrx_storage_logical_capacity_for_profile (nw_free_proven_physical_bytes out) profile.
Proof.
  unfold qrx_storage_capacity_aggregate. intros H Hr. destruct (foldl _ _ _) as [[[[[[c r] v] a] s] n]|] eqn:E; [|done]. cbn [mbind option_bind] in H.
  destruct (capacity_fold_spec _ _ _ _ _ _ _ E) as (-> & -> & -> & -> & -> & Hf & Hmax).
  destruct (decide (sum_of pv_allocated_physical_bytes ps > _)) as [|Hle]; [done|]. case_decide as Hu; [done|]. injection H as <-. cbn.
  assert (0 <= sum_of pv_allocated_physical_bytes ps /\ sum_of pv_allocated_physical_bytes ps + sum_of pv_reserve_committed_bytes ps <= sum_of pv_proven_bytes ps <= sum_of raw_bytes ps) as (H0 & H1 & H2).
  { clear -Hr Hf. induction ps as [|p ps IH]; [cbn; lia|]. apply Forall_cons in Hr as [(A & B & C) Hr]. apply Forall_cons in Hf as [Hp Hf]. pose proof (validated p Hp A B C).
    destruct (IH Hr Hf) as (? & ? & ?). cbn. fold (sum_of pv_allocated_physical_bytes ps) (sum_of pv_reserve_committed_bytes ps) (sum_of pv_proven_bytes ps) (sum_of raw_bytes ps). lia. }
  assert (sum_of pv_proven_bytes ps <= UINT64_MAX) by (destruct ps; [cbn; word|by apply Hmax]). rewrite (u64_small (_ - _)) in * by word. split_and!; lia || done.
Qed.

(** ** Ratios *)

Lemma mul_ratio_floor_exact v n d : in_u64 v -> 0 < d -> 0 <= n -> d * n <= 2 ^ 64 -> v * n / d <= UINT64_MAX -> mul_ratio_floor v n d = v * n / d.
Proof.
  intros [Hv1 Hv2] Hd Hn Hdn Hmax. unfold mul_ratio_floor. rewrite decide_False by lia.
  pose proof (Z.div_mod v d ltac:(lia)) as E. pose proof (Z.mod_pos_bound v d ltac:(lia)) as Hm. assert (0 <= v / d) by (apply Z.div_pos; lia).
  set (q := v / d) in *. set (m := v mod d) in *.
  assert (v * n / d = q * n + m * n / d) as Eq by (replace (v * n) with (q * n * d + m * n) by (rewrite E; ring); apply Z.div_add_l; lia).
  assert (0 <= m * n) by (apply Z.mul_nonneg_nonneg; lia). assert (0 <= q * n) by (apply Z.mul_nonneg_nonneg; lia). assert (0 <= m * n / d) by (apply Z.div_pos; lia).
  rewrite decide_False. 2:{ intros [Hn0 Hq]. assert (UINT64_MAX / n < q) by lia. assert (UINT64_MAX < n * q) by (apply Z.div_lt_upper_bound in Hq || (pose proof (Z.mul_succ_div_gt UINT64_MAX n); nia); lia). lia. }
  assert (m * n < 2 ^ 64) by (destruct (decide (n = 0)) as [->|]; [lia|]; assert (m * n < d * n) by (apply Z.mul_lt_mono_pos_r; lia); lia).
  rewrite (u64_small (q * n)), (u64_small (m * n)) by word. rewrite decide_False by lia. lia.
Qed.

(** The utilisation of a network is the floor of its basis points for up to 2^64/10000 proven
    bytes; above, the product of the remainder wraps: a network 82 % full is reported as empty. *)
Theorem utilization_wraps :
  (forall a v, 0 <= a <= v -> 0 < v <= 2 ^ 64 / 10000 -> ratio_bps a v = a * 10000 / v) /\
  ratio_bps 1844674407370956 (2 ^ 51) = 0 /\ 1844674407370956 * 10000 / 2 ^ 51 = 8192.
Proof.
  split; [|by split; vm_compute]. intros a v Ha Hv. unfold ratio_bps. rewrite decide_False by lia. change (2 ^ 64 / 10000) with 1844674407370955 in Hv.
  assert (a * 10000 / v <= 10000) by (apply Z.div_le_upper_bound; lia). cbv zeta. rewrite mul_ratio_floor_exact by word. rewrite decide_False by word. done.
Qed.

(** ** The choice of a provider *)

Section choice.
Variable sha3_512 : bytes -> bytes.
Abbreviation score := (qrx_storage_placement_score sha3_512).

(** Above UINT64_MAX/10000 atoms the sum wraps to 999999: a price is scored like no price at all. *)
(** A price above UINT64_MAX/10000 costs no score, while 900000 atoms already cost nine tenths. *)
Theorem extreme_price_is_free p : UINT64_MAX / 10000 < p -> price_factor p = price_factor 0 /\ price_factor 900000 = 1000.
Proof.
  intros Hp. split; [|done]. unfold price_factor at 1. rewrite decide_False by word. rewrite (decide_True (P := p > _)) by lia. done.
Qed.

Lemma imap_pair_snoc {A} (l : list A) x : imap pair (l ++ [x]) = imap pair l ++ [(length l, x)].
Proof. rewrite imap_app. cbn. by rewrite Nat.add_0_r. Qed.

(** The best so far is eligible, scores at least as much as every eligible candidate, and more than those before it. *)
Lemma select_fold_spec x minfree minbond rnd cs :
  match foldl (select_step sha3_512 x minfree minbond rnd) None (imap pair cs) with
  | Some (i, b) => (i < length cs)%nat /\ exists c, cs !! i = Some c /\ eligible x minfree minbond c = true /\ b = score c rnd /\
      forall j d, cs !! j = Some d -> eligible x minfree minbond d = true -> score d rnd <= b /\ ((j < i)%nat -> score d rnd < b)
  | None => forall d, d ∈ cs -> eligible x minfree minbond d = false
  end.
Proof.
  induction cs as [|c cs IH] using rev_ind; [cbn; by intros d ?%elem_of_nil|].
  rewrite imap_pair_snoc, foldl_app. cbn [foldl]. set (best := foldl _ _ _) in *. clearbody best. unfold select_step. destruct (eligible x minfree minbond c) eqn:He.
  - assert (forall j d, (cs ++ [c]) !! j = Some d -> cs !! j = Some d \/ j = length cs /\ d = c) as Hlk.
    { intros j d [H|[H1 H2]]%lookup_app_Some; [by left|]. right. destruct (j - length cs)%nat as [|k] eqn:Ej; cbn in H2; [|done]. split; [lia|congruence]. }
    assert ((cs ++ [c]) !! length cs = Some c) as Hc by (rewrite lookup_app_r, Nat.sub_diag; done).
    assert (length (cs ++ [c]) = S (length cs)) as Hlen by (rewrite length_app; cbn; lia). destruct best as [[i b]|].
    + destruct IH as (Hi & d & Hd & Hed & -> & Hmax). case_decide as Hs.
      * split; [lia|]. exists c. split_and!; try done. intros j d' [H|[-> ->]]%Hlk He'; [|lia]. destruct (Hmax j d' H He'). lia.
      * split; [lia|]. exists d. split; [by apply lookup_app_l_Some|]. split_and!; try done.
        intros j d' [H|[-> ->]]%Hlk He'; [by apply (Hmax j)|]. split; [lia|]. lia.
    + split; [lia|]. exists c. split_and!; try done. intros j d' [H|[-> ->]]%Hlk He'; [|lia]. apply list_elem_of_lookup_2, IH in H. congruence.
  - destruct best as [[i b]|].
    + destruct IH as (Hi & d & Hd & Hed & -> & Hmax). rewrite length_app. split; [cbn; lia|]. exists d. split; [by apply lookup_app_l_Some|]. split_and!; try done.
      intros j d' H He'. apply lookup_app_Some in H as [H|[H1 H2]]; [by apply (Hmax j)|]. destruct (j - length cs)%nat as [|k]; cbn in H2; [congruence|done].
    + intros d [H|H]%elem_of_app; [by apply IH|]. apply list_elem_of_singleton in H as ->. done.
Qed.

(** The provider chosen is eligible and the first of those with the greatest score; none is chosen only if none is eligible. *)
Theorem select_provider_best cs x minfree minbond rnd :
  match qrx_storage_select_provider sha3_512 cs x minfree minbond rnd with
  | Some i => exists c, cs !! i = Some c /\ eligible x minfree minbond c = true /\
      forall j d, cs !! j = Some d -> eligible x minfree minbond d = true -> score d rnd <= score c rnd /\ ((j < i)%nat -> score d rnd < score c rnd)
  | None => forall d, d ∈ cs -> eligible x minfree minbond d = false
  end.
Proof.
  unfold qrx_storage_select_provider. pose proof (select_fold_spec x minfree minbond rnd cs) as H.
  destruct (foldl _ _ _) as [[i b]|]; cbn; [|done]. destruct H as (_ & c & H1 & H2 & -> & H3). by exists c.
Qed.

Lemma eligible_spec x minfree minbond c : eligible x minfree minbond c = true ->
  pl_active c <> 0 /\ minfree <= pl_proven_free_bytes c /\ minbond <= pl_bond_atoms c /\ pl_provider_id c <> [] /\
  pl_provider_id c ∉ ex_provider_ids x /\ (pl_operator_id c <> [] -> pl_operator_id c ∉ ex_operator_ids x).
Proof.
  unfold eligible, contains. intros H. case_decide as H1; [done|]. destruct (_ || _) eqn:H2 in H; [done|]. apply orb_false_iff in H2 as [A%bool_decide_eq_false B%bool_decide_eq_false].
  assert (pl_provider_id c <> []) by (intros E; apply H1; auto). split_and!; [lia|lia|lia|done| |]; intros ?; naive_solver.
Qed.

(** The assignments while a shard is repaired. *)
Definition assigned_elsewhere (all : list QrxStorageAssignment) (fi : nat) (p : bytes) : Prop :=
  exists i a, all !! i = Some a /\ i <> fi /\ sa_state a <> QRX_ASSIGN_REPLACED /\ sa_provider_id a = p.

Lemma other_providers_spec all fi p : p <> [] -> (p ∈ other_providers all fi <-> assigned_elsewhere all fi p).
Proof.
  intros Hp. unfold other_providers, assigned_elsewhere. rewrite list_elem_of_fmap. split.
  - intros (a & -> & Ha). apply list_elem_of_fmap in Ha as ([i a'] & -> & Hi). apply list_elem_of_filter in Hi as [(H1 & H2 & H3) Hi].
    apply elem_of_lookup_imap in Hi as (j & b & [= -> ->] & Hj). by exists j, b.
  - intros (i & a & Hi & Hne & Hs & <-). exists a. split; [done|]. apply list_elem_of_fmap. exists (i, a). split; [done|].
    apply list_elem_of_filter. split; [done|]. apply elem_of_lookup_imap. by exists i, a.
Qed.

(** Planned, begun and completed, a repair leaves the failed assignment replaced and the shard, with
    the same bytes, active on a provider that can hold it and holds no other shard of the contract. *)
Theorem repair_restores_shard all fi cs minbond rnd plan c f' r f'' r' :
  qrx_storage_plan_repair sha3_512 all fi cs minbond rnd = Some plan -> cs !! rr_replacement_candidate_index plan = Some c ->
  forall f, all !! fi = Some f -> qrx_storage_begin_repair f c plan = Some (f', r) -> qrx_storage_complete_repair f' r true = Some (f'', r') ->
  sa_state f = QRX_ASSIGN_DEGRADED /\ sa_state f'' = QRX_ASSIGN_REPLACED /\ sa_provider_id f'' = sa_provider_id f /\
  sa_state r' = QRX_ASSIGN_ACTIVE /\ sa_contract_id r' = sa_contract_id f /\ sa_shard_index r' = sa_shard_index f /\
  sa_physical_bytes r' = sa_physical_bytes f /\ sa_physical_bytes r' <= pl_proven_free_bytes c /\ minbond <= pl_bond_atoms c /\
  ~ assigned_elsewhere all fi (sa_provider_id r').
Proof.
  intros Hp Hc f Hf Hb Hco. unfold qrx_storage_plan_repair in Hp. rewrite Hf in Hp. cbn [mbind option_bind] in Hp. case_decide as H1; [done|].
  destruct (qrx_storage_select_provider _ _ _ _ _ _) as [i|] eqn:Hs; [|done]. injection Hp as <-. cbn in Hc.
  pose proof (select_provider_best cs (mkExclusions (other_providers all fi) [] [] []) (sa_physical_bytes f) minbond rnd) as Hbest. rewrite Hs in Hbest.
  destruct Hbest as (c' & Hc' & He & _). assert (c' = c) as -> by congruence. apply eligible_spec in He as (E1 & E2 & E3 & E4 & E5 & _).
  unfold qrx_storage_begin_repair in Hb. case_decide as H2; [done|]. injection Hb as <- <-. unfold qrx_storage_complete_repair in Hco. case_decide; [done|]. injection Hco as <- <-.
  cbn in *. assert (sa_state f = QRX_ASSIGN_DEGRADED) by (destruct (decide (sa_state f = QRX_ASSIGN_DEGRADED)); [done|naive_solver]).
  split_and!; try done. by rewrite <- (other_providers_spec all fi).
Qed.

(** The provider that failed is not excluded: with no other candidate, its shard is given to it again. *)
Theorem repair_reselects_failed contract shard phys epoch c rnd : eligible (mkExclusions [] [] [] []) phys 0 c = true ->
  qrx_storage_plan_repair sha3_512 [mkAssignment contract (pl_provider_id c) shard phys QRX_ASSIGN_DEGRADED epoch] 0 [c] 0 rnd
  = Some (mkRepairPlan 0 shard phys).
Proof.
  intros He. unfold qrx_storage_plan_repair. cbn [lookup list_lookup mbind option_bind sa_state sa_physical_bytes sa_shard_index]. rewrite decide_False by naive_solver.
  change (other_providers [_] 0) with (@nil bytes). unfold qrx_storage_select_provider. cbn [imap foldl compose]. unfold select_step. rewrite He. done.
Qed.
End choice.

(** ** Witnesses *)

Definition mp_hash (x : bytes) : bytes := take 64 (reverse x ++ replicate 64 x00).
Definition mp_candidate (id : string) (free price : Z) : QrxStoragePlacementCandidate :=
  mkPlacement (cs id) (cs "op") (cs "as1") (cs "eu") free 5000000 price 9000 9500 10000 1 1.
Definition mp_candidates := [mp_candidate "p0" (2 ^ 40) 0; mp_candidate "p1" (2 ^ 36) 100; mp_candidate "p2" (2 ^ 42) 100].
Definition mp_shards := [mkAssignment (cs "c1") (cs "p2") 0 1000 QRX_ASSIGN_ACTIVE 7; mkAssignment (cs "c1") (cs "px") 1 1000 QRX_ASSIGN_DEGRADED 5].

Lemma split_contract_exact_witness :
  qrx_storage_split_contract_value 1000001 50 200 = Some (mkSplit 5000 20000 975001).
Proof.
  pose proof (split_contract_exact 1000001 50 200 ltac:(split; done) ltac:(done) ltac:(done)) as H. vm_compute in H |- *. exact H.
Defined.
Lemma capacity_weight_sqrt_witness : qrx_resource_capacity_weight (2 ^ 40) = 1024.
Proof.
  pose proof (capacity_weight_sqrt (2 ^ 40) ltac:(split; done)) as H. vm_compute. reflexivity.
Defined.
Definition mp_events := [EvActivate; EvSlash 7; EvBeginExit 100; EvSlash 3; EvWithdraw 8740].
Lemma bond_lifecycle_witness : exists s, bond_run (mkBond QRX_PROVIDER_REGISTERED 3000000 (2 ^ 40) 0 0) mp_events = Some (s, 2999990, 10) /\
  bond_ok 3000000 mp_events s 2999990 10.
Proof.
  eexists. split; [vm_compute; reflexivity|].
  apply (bond_lifecycle (2 ^ 40) 3000000 mp_events (mkBond QRX_PROVIDER_REGISTERED 3000000 (2 ^ 40) 0 0)); [split; done| |vm_compute; reflexivity|vm_compute; reflexivity].
  repeat constructor; done.
Defined.
Lemma reputation_bounded_witness : exists good bad, qrx_storage_reputation_record_proof qrx_storage_reputation_init true 9000 = Some good /\
  qrx_storage_reputation_record_proof qrx_storage_reputation_init false 9000 = Some bad /\
  reputation_ok good /\ reputation_ok bad /\ rp_reputation_bps bad <= rp_reputation_bps good.
Proof. apply (reputation_bounded qrx_storage_reputation_init 9000 reputation_init_ok). split; done. Defined.
Definition mp_financial := mkFinancial 1000000 5000 20000 975000 0 0 0.
Lemma finance_overpaid_witness : exists s1 s2, qrx_storage_financial_pay_egress mp_financial 10 = Some s1 /\
  qrx_storage_financial_pay_provider s1 975000 = Some s2 /\ fs_provider_paid_atoms s2 + fs_egress_paid_atoms s2 = 975000 + 10 /\
  2 ^ 64 - 10 <= qrx_storage_financial_refundable s2.
Proof.
  apply (finance_overpaid 1000000 mp_financial 10); [split; done|vm_compute; reflexivity|split; done].
Defined.
Lemma extreme_price_is_free_witness : price_factor (2 ^ 60) = 10000 /\ price_factor 900000 = 1000.
Proof. apply (extreme_price_is_free (2 ^ 60)). done. Defined.
Definition mp_capacity (id : string) := mkProviderCapacity (cs id) (2 ^ 42) (2 ^ 41) (2 ^ 40) (2 ^ 39) (2 ^ 38) 9000 9000.
Lemma aggregate_sums_witness : exists out,
  qrx_storage_capacity_aggregate [mp_capacity "a"; mp_capacity "b"] 1000 1 0 0 (mkProfile (cs "STANDARD") 10 4 0) = Some out /\
  nw_proven_bytes out = 2 ^ 41 /\ nw_free_proven_physical_bytes out = 2 ^ 40.
Proof.
  eexists. split; [vm_compute; reflexivity|].
  destruct (aggregate_sums [mp_capacity "a"; mp_capacity "b"] 1000 1 0 0 (mkProfile (cs "STANDARD") 10 4 0) _ ltac:(vm_compute; reflexivity)
    ltac:(repeat constructor; done)) as (H1 & _ & H3 & _).
  split; vm_compute; reflexivity.
Defined.
Lemma repair_restores_shard_witness : exists plan f' r f'' r',
  qrx_storage_plan_repair mp_hash mp_shards 1 mp_candidates 10 (replicate 64 x00) = Some plan /\
  qrx_storage_begin_repair (mkAssignment (cs "c1") (cs "px") 1 1000 QRX_ASSIGN_DEGRADED 5) (mp_candidate "p0" (2 ^ 40) 0) plan = Some (f', r) /\
  qrx_storage_complete_repair f' r true = Some (f'', r') /\ ~ assigned_elsewhere mp_shards 1 (sa_provider_id r').
Proof.
  do 5 eexists. split; [vm_compute; reflexivity|]. split; [vm_compute; reflexivity|]. split; [vm_compute; reflexivity|].
  refine (proj2 (proj2 (proj2 (proj2 (proj2 (proj2 (proj2 (proj2 (proj2 (repair_restores_shard mp_hash mp_shards 1 mp_candidates 10 (replicate 64 x00) _ _ _ _ _ _ _ _ _ _ _ _))))))))));
    [vm_compute; reflexivity|vm_compute; reflexivity|vm_compute; reflexivity|vm_compute; reflexivity|vm_compute; reflexivity].
Defined.
Lemma repair_reselects_failed_witness :
  qrx_storage_plan_repair mp_hash [mkAssignment (cs "c1") (cs "p0") 3 1000 QRX_ASSIGN_DEGRADED 5] 0 [mp_candidate "p0" (2 ^ 40) 0] 0 (replicate 64 x00)
  = Some (mkRepairPlan 0 3 1000).
Proof. apply (repair_reselects_failed mp_hash (cs "c1") 3 1000 5 (mp_candidate "p0" (2 ^ 40) 0)). vm_compute. reflexivity. Defined.
