(* ===== verification/PoucUndo.v ===== *)
(** * Rollback of compute transactions (src/qrx-core/src/compute/qrx_pouc_undo.c, .h)

    Before the batch of a compute transaction is committed, the state of every
    key that it writes is put into the same batch, with an entry that says how
    many keys there are.  When blocks are disconnected the entries above the
    canonical height are undone, newest first, in one batch.  The database is
    that of [DbStore] and [DbWal]; a callback of a scan gets the C strings of a
    record.  Of the array of entries the length is kept, not the capacity, which
    doubles from 64 up to [QRX_POUC_TX_UNDO_MAX_REVERT]. *)

From stdpp Require Import gmap sorting.
From S2P Require Import Prelude Format DbStore DbWal.

Definition QRX_POUC_TX_UNDO_PREFIX : bytes := cs "consensus:compute:tx_undo:".
Definition QRX_POUC_TX_UNDO_MAX_REVERT : Z := 4096.
Definition QRX_POUC_TX_UNDO_MAX_SNAPSHOT_VALUE : Z := 1024 * 1024.
Definition META_APPLIED : bytes := cs "APPLIED".

Record QrxPoucTxUndoEntry := mkUndo {
  un_version : Z; un_apply_height : Z; un_apply_generation : Z; un_snapshot_count : Z; un_txid : bytes; un_tx_type : bytes
}.

(** ** Strings *)

Definition is_bar (c : byte) : bool := bool_decide (c = x7c).
Definition safe_token (s : bytes) : bool :=
  bool_decide (s <> []) && forallb (fun c => negb (is_bar c) && negb (bool_decide (c = x0a)) && negb (bool_decide (c = x0d))) s.
Definition starts (s p : bytes) : bool := has_prefix p s.
Definition unhx (c : byte) : option Z :=
  let v := byte.unsigned c in
  if decide (48 <= v <= 57) then Some (v - 48) else if decide (97 <= v <= 102) then Some (v - 87)
  else if decide (65 <= v <= 70) then Some (v - 55) else None.
Fixpoint unhex (s : bytes) : option bytes :=
  match s with
  | [] => Some []
  | [_] => None
  | a :: b :: s => a ← unhx a; b ← unhx b; r ← unhex s; Some (byte.of_Z (Z.lor (Z.shiftl a 4) b) :: r)
  end.
(** ["%0<n>llu"]. *)
Definition zero_pad (n : nat) (v : Z) : bytes := repeat x30 (n - length (print_u v)) ++ print_u v.
(** [strtoull(s, NULL, 10)] and the conversions ["%llu"] and ["%u"] of [sscanf]. *)
Definition strtoull (s : bytes) : Z :=
  match skip_space s with
  | x2d :: s => if decide (digits 0 s > UINT64_MAX) then UINT64_MAX else u64 (- digits 0 s)
  | x2b :: s => Z.min UINT64_MAX (digits 0 s)
  | s => Z.min UINT64_MAX (digits 0 s)
  end.
Definition scan_llu (s : bytes) : option (Z * bytes) :=
  let s := skip_space s in
  let digits_at := match s with x2d :: s' | x2b :: s' => s' | _ => s end in
  match digits_at with
  | c :: _ => if is_digit c then Some (strtoull s, skip_digits digits_at) else None
  | [] => None
  end.
Definition scan_u (s : bytes) : option (Z * bytes) := '(n, s) ← scan_llu s; Some (u32 n, s).

(** ** Staging *)

(** The keys that are not of the journal, each at its first place; [seen] are
    the keys before [ks]. *)
Fixpoint undo_keys (seen ks : list bytes) : list bytes :=
  match ks with
  | [] => []
  | k :: ks =>
      if starts k QRX_POUC_TX_UNDO_PREFIX || bool_decide (k ∈ seen) then undo_keys (seen ++ [k]) ks
      else k :: undo_keys (seen ++ [k]) ks
  end.

Definition undo_base (h gen : Z) (txid : bytes) : bytes :=
  snprintf_s 512 (QRX_POUC_TX_UNDO_PREFIX ++ zero_pad 20 h ++ cs ":" ++ zero_pad 20 gen ++ cs ":" ++ txid).
Definition snapshot_key (base : bytes) (idx : Z) : bytes := snprintf_s 640 (base ++ cs ":snapshot:" ++ zero_pad 4 idx).
(** The buffer of the value is 32 bytes longer than both strings. *)
Definition snapshot_value (k : bytes) (v : option bytes) : bytes :=
  print_u (if v then 1 else 0) ++ cs "|" ++ hex k ++ cs "|" ++ match v with Some v => hex v | None => [] end.
Definition undo_meta (h gen snaps : Z) (ty txid : bytes) : bytes :=
  snprintf_s 320 (META_APPLIED ++ cs "|" ++ print_u h ++ cs "|" ++ print_u gen ++ cs "|" ++ print_u snaps ++ cs "|" ++ ty ++ cs "|" ++ txid).

Definition snapshot_stage (d : QrxDB) (b : QrxDBBatch) (base : bytes) (idx : Z) (k : bytes) : option QrxDBBatch :=
  if decide (k = [] \/ blen k > 4096) then None else
  let v := vw_value <$> qrxdb_get_view d k in
  if decide (QRX_POUC_TX_UNDO_MAX_SNAPSHOT_VALUE < default 0 (blen <$> v)) then None else
  qrxdb_batch_put b (snapshot_key base idx) (snapshot_value k v).
(** The batch when a snapshot is refused, for the caller to abort, or after the
    last one. *)
Fixpoint snapshot_loop (d : QrxDB) (b : QrxDBBatch) (base : bytes) (idx : Z) (ks : list bytes) : Z * QrxDBBatch :=
  match ks with
  | [] => (0, b)
  | k :: ks => match snapshot_stage d b base idx k with None => (-3, b) | Some b => snapshot_loop d b base (idx + 1) ks end
  end.

Definition qrx_pouc_tx_undo_stage (d : QrxDB) (b : QrxDBBatch) (txid ty : bytes) (h : Z) : Z * QrxDBBatch :=
  if decide (bt_active b = false \/ safe_token txid = false \/ safe_token ty = false \/ h = 0) then (-1, b) else
  let ks := undo_keys [] (be_key <$> bt_entries b) in
  if decide (ks = [] \/ blen ks > 65535) then (-2, b) else
  let base := undo_base h (bt_generation b) txid in
  let '(rc, b) := snapshot_loop d b base 0 ks in
  if decide (rc <> 0) then (rc, b) else
  match qrxdb_batch_put b base (undo_meta h (bt_generation b) (blen ks) ty txid) with
  | None => (-1, b)
  | Some b => (0, b)
  end.

(** ** Reverting *)

Definition parse_meta (v : bytes) : option QrxPoucTxUndoEntry :=
  '(st, v) ← scan_set 15 is_bar v; v ← scan_lit (cs "|") v;
  '(h, v) ← scan_llu v; v ← scan_lit (cs "|") v;
  '(g, v) ← scan_llu v; v ← scan_lit (cs "|") v;
  '(snaps, v) ← scan_u v; v ← scan_lit (cs "|") v;
  '(ty, v) ← scan_set 63 is_bar v; v ← scan_lit (cs "|") v;
  '(tx, v) ← scan_word 128 v;
  if decide (st = META_APPLIED) then Some (mkUndo 1 h g snaps tx ty) else None.

Definition collect_meta (s : list QrxPoucTxUndoEntry) (k v : bytes) : list QrxPoucTxUndoEntry * Z :=
  if strstr (cstr k) (cs ":snapshot:") then (s, 0) else
  match parse_meta (cstr v) with
  | None => (s, 0)
  | Some e =>
      if decide (safe_token (un_tx_type e) = false \/ safe_token (un_txid e) = false \/ un_apply_height e = 0 \/
                 un_apply_generation e = 0 \/ un_snapshot_count e = 0) then (s, -1)
      else if decide (QRX_POUC_TX_UNDO_MAX_REVERT <= blen s) then (s, -1)
      else (s ++ [e], 0)
  end.

(** [cmp_desc(a, b) <= 0]; the keys of a sort are C strings, so [strcmp] is the
    order of [cmp_key]. *)
Definition cmp_desc (a b : QrxPoucTxUndoEntry) : Prop :=
  un_apply_generation b < un_apply_generation a \/
  (un_apply_generation a = un_apply_generation b /\ cmp_key (un_txid b) (un_txid a) <= 0).
#[export] Instance cmp_desc_dec a b : Decision (cmp_desc a b).
Proof. unfold cmp_desc. apply _. Defined.

(** The string before the first bar and the one after it. *)
Fixpoint cut_bar (s : bytes) : option (bytes * bytes) :=
  match s with
  | [] => None
  | c :: s => if is_bar c then Some ([], s) else '(a, r) ← cut_bar s; Some (c :: a, r)
  end.

Definition restore_snapshot (d : QrxDB) (b : QrxDBBatch) (base : bytes) (idx : Z) : option QrxDBBatch :=
  let sk := snapshot_key base idx in
  v ← qrxdb_get_view d sk;
  '(tmp, r) ← cut_bar (cstr (vw_value v));
  '(kh, vh) ← cut_bar r;
  let ex := u32 (strtoull tmp) in
  k ← unhex kh; old ← unhex vh;
  if decide (k = [] \/ ex > 1) then None else
  b ← (if decide (ex <> 0) then qrxdb_batch_put b (cstr k) (cstr old) else qrxdb_batch_delete b (cstr k));
  qrxdb_batch_delete b sk.

(** [for (j = n; j > 0; j--) restore_snapshot(d, &b, base, j - 1)]. *)
Fixpoint restore_loop (d : QrxDB) (b : QrxDBBatch) (base : bytes) (n : nat) : option QrxDBBatch :=
  match n with
  | O => Some b
  | S n => b ← restore_snapshot d b base (Z.of_nat n); restore_loop d b base n
  end.

(** The batch of the entries above the height, or the code of the failure. *)
Fixpoint revert_loop (d : QrxDB) (b : QrxDBBatch) (canon : Z) (es : list QrxPoucTxUndoEntry) : Z + QrxDBBatch :=
  match es with
  | [] => inr b
  | e :: es =>
      if decide (un_apply_height e <= canon) then revert_loop d b canon es else
      let base := undo_base (un_apply_height e) (un_apply_generation e) (un_txid e) in
      match restore_loop d b base (Z.to_nat (un_snapshot_count e)) with
      | None => inl (-4)
      | Some b => match qrxdb_batch_delete b base with None => inl (-5) | Some b => revert_loop d b canon es end
      end
  end.

(** What is committed: the entries above the height and the batch. *)
Definition revert_batch (d : QrxDB) (canon : Z) : Z + (list QrxPoucTxUndoEntry * option QrxDBBatch) :=
  let '(s, rc) := qrxdb_scan_prefix collect_meta d QRX_POUC_TX_UNDO_PREFIX [] in
  if decide (rc <> 0) then inl (-2) else
  let s := merge_sort cmp_desc s in
  let above := filter (fun e => canon < un_apply_height e) s in
  if decide (above = []) then inr ([], None) else
  match qrxdb_batch_begin d with
  | None => inl (-3)
  | Some b => match revert_loop d b canon s with inl rc => inl rc | inr b => inr (above, Some b) end
  end.

(** The database, the answer and [*out]. *)
Definition qrx_pouc_tx_undo_revert_above_height (sha3_512 : bytes -> bytes) (d : QrxDB) (canon : Z) : QrxDB * Z * Z :=
  match revert_batch d canon with
  | inl rc => (d, rc, 0)
  | inr (_, None) => (d, 0, 0)
  | inr (above, Some b) =>
      let '(d, rc) := qrxdb_batch_commit sha3_512 d b in
      if decide (rc <> 0) then (d, -6, 0) else (d, 0, u32 (blen above))
  end.
