(* ===== verification/PoucUndoFacts.v ===== *)
(** * Rollback of compute transactions: theorems

    A scan of an open database calls back for its live pairs.  The journal of a
    history of transactions, and that a rollback gives back the state at the
    height. *)

From stdpp Require Import gmap sorting.
From S2P Require Import Prelude Format ChainGenesis DbCodec DbStore DbLog DbView DbMerkle DbWal DbReplay DbCommit MvccLedger SpvState PoucUndo.

(** ** Scans *)

Section scans.
Context {C : Type} (callback : C -> bytes -> bytes -> C * Z).

Fixpoint scan_pairs (l : list (bytes * bytes)) (ctx : C) : C * Z :=
  match l with
  | [] => (ctx, 0)
  | (k, v) :: l => let '(ctx, rc) := callback ctx k v in if decide (rc <> 0) then (ctx, rc) else scan_pairs l ctx
  end.

Definition live_pair (prefix : bytes) (r : kvs) (ie : QrxDBIndexEntry) : option (bytes * bytes) :=
  v ← r !! ie_key ie; if has_prefix prefix (ie_key ie) && negb (qrxdb_is_tombstone v) then Some (ie_key ie, v) else None.

Lemma index_upsert_keys idx key off gen :
  ie_key <$> qrxdb_index_upsert idx key off gen =
  if decide (key ∈ ie_key <$> idx) then ie_key <$> idx else (ie_key <$> idx) ++ [key].
Proof.
  induction idx as [|e idx IH]; [done|]. cbn [qrxdb_index_upsert]. destruct (decide (ie_key e = key)) as [Hd|Hd]; rewrite !fmap_cons; cbn [ie_key].
  - by rewrite (decide_True (P := key ∈ _)) by set_solver.
  - rewrite IH. repeat case_decide; set_solver.
Qed.

Lemma index_of_nodup l : NoDup (ie_key <$> index_of l).
Proof.
  induction l as [|r l IH] using rev_ind; [constructor|]. rewrite index_of_snoc, index_upsert_keys. case_decide; [done|].
  apply NoDup_app. split_and!; [done|set_solver|apply NoDup_singleton].
Qed.

Lemma index_find_elem idx ie : NoDup (ie_key <$> idx) -> ie ∈ idx -> qrxdb_index_find idx (ie_key ie) = Some (ie_offset ie).
Proof.
  induction idx as [|e idx IH]; [set_solver|]. rewrite fmap_cons, NoDup_cons, elem_of_cons. intros [Hn Hd] [->|Hi]; cbn.
  - by rewrite decide_True.
  - rewrite decide_False; [by apply IH|]. intros E. apply Hn. rewrite E. apply list_elem_of_fmap. eauto.
Qed.

Lemma index_find_key idx k off : qrxdb_index_find idx k = Some off -> exists ie, ie ∈ idx /\ ie_key ie = k.
Proof.
  induction idx as [|e idx IH]; cbn; [done|]. case_decide as Hd; [intros _; exists e; split; [apply list_elem_of_here|done]|].
  intros H. destruct (IH H) as (ie & Hi & Hk). exists ie. split; [by apply list_elem_of_further|done].
Qed.

Lemma live_pairs_nodup prefix r idx : NoDup (ie_key <$> idx) -> NoDup (omap (live_pair prefix r) idx).*1.
Proof.
  induction idx as [|ie idx IH]; [intros _; constructor|]. rewrite fmap_cons, NoDup_cons. intros [Hn Hd]. cbn [omap list_omap].
  destruct (live_pair prefix r ie) as [[k v]|] eqn:E; [|by apply IH]. rewrite fmap_cons. constructor; [|by apply IH].
  assert (k = ie_key ie) as ->.
  { unfold live_pair in E. destruct (r !! ie_key ie); [|done]. cbn in E. by destruct (_ && _); simplify_eq. }
  cbn [fst]. intros (kv & Hk & Hin)%list_elem_of_fmap. apply list_elem_of_omap in Hin as (ie' & Hie' & E'). apply Hn. rewrite Hk.
  unfold live_pair in E'. destruct (r !! ie_key ie'); [|done]. cbn in E'. destruct (_ && _); simplify_eq. cbn [fst]. apply list_elem_of_fmap. eauto.
Qed.

(** What is read at an entry of the index. *)
Lemma raw_after l1 r l2 : Forall (fun r => r_gen r <= UINT64_MAX) (l1 ++ r :: l2) -> Forall (fun r' => r_key r' <> r_key r) l2 ->
  raw UINT64_MAX (l1 ++ r :: l2) !! r_key r = Some (r_val r).
Proof.
  intros Hg Hk. apply Forall_app in Hg as [_ Hg]. inversion_clear Hg as [|? ? Hr Hg2]. unfold raw. rewrite foldl_app. cbn [foldl].
  assert (forall s, foldl (raw_step UINT64_MAX) s l2 !! r_key r = s !! r_key r) as Hf.
  { clear Hg2. induction Hk as [|r2 l2 Hr2 _ IH]; intros s; [done|]. cbn [foldl]. rewrite IH. unfold raw_step. case_decide; [|done]. by rewrite lookup_insert_ne. }
  rewrite Hf. unfold raw_step. rewrite decide_True by done. by rewrite lookup_insert_eq.
Qed.

Lemma index_entry_read db l ie : opened db l -> ie ∈ index db ->
  exists h v, read_record_at (map db) (ie_offset ie) (write_offset db) = Some (h, ie_key ie, v) /\ raw UINT64_MAX l !! ie_key ie = Some v.
Proof.
  intros Ho Hie. pose proof (op_gens _ _ Ho) as Hgens. pose proof (op_generation _ _ Ho) as Hgen. destruct (Ho) as [[Hlog Hend Hmax] Hi _ _].
  rewrite Hi in Hie. pose proof (index_find_spec l (ie_key ie)) as Hf. rewrite (index_find_elem _ _ (index_of_nodup l) Hie) in Hf.
  destruct Hf as (l1 & r & l2 & -> & Hoff & Hk & Hl2). pose proof (log_at_ok _ _ _ Hlog) as Hok.
  apply log_at_app in Hlog as (_ & Hr & Hat & _). apply Forall_app in Hok as [Hok1 Hok2]. inversion_clear Hok2 as [|? ? _ Hok2'].
  rewrite log_size_app, log_size_cons in Hend. pose proof (log_size_bounds l1 Hok1). pose proof (log_size_bounds l2 Hok2').
  pose proof (rec_size_bounds r Hr). pose proof (body_size_bounds r Hr). rewrite data_start_eq in *.
  destruct (rec_at_read (map db) (112 + log_size l1) (write_offset db) r) as (h & Hread & _); [lia|done|done|lia|].
  exists h, (r_val r). rewrite Hoff, Hread, <- Hk. split; [done|]. apply raw_after; [|by rewrite Hk].
  eapply Forall_impl; [exact Hgens|]. cbn. word.
Qed.

(** The scan of an open database calls back once for every live pair with the
    prefix, in some order. *)
Lemma scan_opened db l prefix ctx : opened db l ->
  qrxdb_scan_prefix callback db prefix ctx = scan_pairs (omap (live_pair prefix (raw UINT64_MAX l)) (index db)) ctx.
Proof.
  intros Ho. unfold qrxdb_scan_prefix. assert (forall ie, ie ∈ index db -> ie ∈ index db) as Hsub by done. revert Hsub ctx.
  generalize (index db) at 1 3 4. intros idx. induction idx as [|ie idx IH]; intros Hsub ctx; [done|]. cbn [scan_prefix_loop omap list_omap].
  destruct (index_entry_read db l ie Ho (Hsub ie (list_elem_of_here _ _))) as (h & v & Hr & Hraw).
  assert (forall ctx, scan_prefix_loop callback db prefix idx ctx = scan_pairs (omap (live_pair prefix (raw UINT64_MAX l)) idx) ctx) as IH'
    by (intros c; apply IH; intros x Hx; by apply Hsub, list_elem_of_further).
  unfold live_pair at 1. rewrite Hraw. cbn [mbind option_bind]. destruct (has_prefix prefix (ie_key ie)); [|by apply IH'].
  rewrite Hr. destruct (qrxdb_is_tombstone v); [by apply IH'|]. cbn [andb negb scan_pairs]. destruct (callback ctx (ie_key ie) v) as [c rc].
  case_decide; [done|]. apply IH'.
Qed.

Lemma scan_contents sha db s prefix ctx : contents sha db s ->
  exists l, NoDup l.*1 /\ (forall k v, (k, v) ∈ l <-> s !! k = Some v /\ has_prefix prefix k = true) /\
    qrxdb_scan_prefix callback db prefix ctx = scan_pairs l ctx.
Proof.
  intros (segs & id & ts & Hok & ->). set (lg := seg_log _) in *.
  assert (opened db lg) as Ho.
  { destruct (do_clean _ _ _ _ _ Hok) as [Hl _ Hoff _ Hi _ Hs]. split; [split; [done|done|rewrite Hoff; lia]|done|apply Hok|apply Hok]. }
  exists (omap (live_pair prefix (raw UINT64_MAX lg)) (index db)). split_and!; [| |by apply scan_opened].
  - apply live_pairs_nodup. rewrite (op_index _ _ Ho). apply index_of_nodup.
  - intros k v. rewrite list_elem_of_omap, live_raw, map_lookup_filter_Some. unfold live_pair. split.
    + intros (ie & _ & He). destruct (raw UINT64_MAX lg !! ie_key ie) as [v'|] eqn:E; [|done]. cbn [mbind option_bind] in He.
      destruct (has_prefix prefix (ie_key ie)) eqn:Ep, (qrxdb_is_tombstone v') eqn:Et; cbn in He; try done.
      apply (inj Some) in He as [= <- <-]. by rewrite E.
    + intros [[Hraw Ht] Hp]. pose proof (index_find_spec lg k) as Hf. destruct (qrxdb_index_find (index_of lg) k) as [off|] eqn:E; [|by destruct Hf; congruence].
      apply index_find_key in E as (ie & Hie & <-). exists ie. rewrite (op_index _ _ Ho). split; [done|]. rewrite Hraw. cbn [mbind option_bind].
      unfold not_tombstone in Ht. cbn in Ht. by rewrite Hp, Ht.
Qed.
End scans.

(** ** Strings *)

Lemma unhex_cons b d : unhex (hex (b :: d)) = (byte.of_Z (byte.unsigned b) ::.) <$> unhex (hex d).
Proof.
  assert (unhx (hex_digit (Z.shiftr (byte.unsigned b) 4)) = Some (Z.shiftr (byte.unsigned b) 4) /\
    unhx (hex_digit (Z.land (byte.unsigned b) 15)) = Some (Z.land (byte.unsigned b) 15) /\
    Z.lor (Z.shiftl (Z.shiftr (byte.unsigned b) 4) 4) (Z.land (byte.unsigned b) 15) = byte.unsigned b) as (H1 & H2 & H3) by (by destruct b).
  change (hex (b :: d)) with (hex_digit (Z.shiftr (byte.unsigned b) 4) :: hex_digit (Z.land (byte.unsigned b) 15) :: hex d).
  cbn [unhex]. rewrite H1, H2. cbn [mbind option_bind]. rewrite H3. by destruct (unhex (hex d)).
Qed.
Lemma unhex_hex d : unhex (hex d) = Some d.
Proof. induction d as [|b d IH]; [done|]. rewrite unhex_cons, IH. cbn. by rewrite byte.of_Z_unsigned. Qed.

(** Digits end at a byte that is none. *)
Definition all_digits (s : bytes) : Prop := Forall (fun c => is_digit c = true) s.
Lemma print_u_all n : all_digits (print_u n).
Proof. exact (proj1 (udec_loop_ok 20 n [] (Forall_nil_2 _))). Qed.
Lemma digits_stop acc s c r : all_digits s -> is_digit c = false -> digits acc (s ++ c :: r) = digits acc s.
Proof. intros Hs Hc. revert acc. induction Hs as [|d s Hd _ IH]; intros acc; cbn; [by rewrite Hc|]. by rewrite Hd, IH. Qed.
Lemma skip_digits_stop s c r : all_digits s -> is_digit c = false -> skip_digits (s ++ c :: r) = c :: r.
Proof. intros Hs Hc. induction Hs as [|d s Hd _ IH]; cbn; [by rewrite Hc|]. by rewrite Hd. Qed.
Lemma scan_llu_print n c r : in_u64 n -> is_digit c = false -> scan_llu (print_u n ++ c :: r) = Some (n, c :: r).
Proof.
  intros Hn Hc. pose proof (print_u_all n) as Ha. pose proof (digits_stop 0 (print_u n) c r Ha Hc) as Hd. pose proof (skip_digits_stop (print_u n) c r Ha Hc) as Hk.
  rewrite print_u_digits in Hd by done. destruct (print_u_shape n Hn) as (c0 & s & Hs & Hdig & Hsp & H1 & H2 & _). rewrite Hs in *. cbn [app] in *.
  unfold scan_llu, strtoull. cbn [skip_space]. rewrite Hsp. cbn [skip_space]. rewrite Hsp. destruct c0; try done; cbn [skip_space]; rewrite Hdig, Hd, Hk, Z.min_r by word; done.
Qed.
Lemma scan_bar r : scan_lit (cs "|") (x7c :: r) = Some r.
Proof. reflexivity. Qed.
Lemma scan_set_bar n w r : w <> [] -> (length w <= n)%nat -> forallb (fun c => negb (is_bar c)) w = true -> scan_set n is_bar (w ++ x7c :: r) = Some (w, x7c :: r).
Proof.
  intros Hne Hl Hb. assert (scan_until n is_bar (w ++ x7c :: r) = w) as E.
  { clear Hne. revert n Hl Hb. induction w as [|c w IH]; intros [|n] Hl Hb; cbn in *; [done|done|lia|]. apply andb_prop in Hb as [Hc Hb].
    destruct (is_bar c); [done|]. by rewrite IH by (done || lia). }
  unfold scan_set. rewrite E. destruct w; [done|]. by rewrite drop_app_length.
Qed.
Lemma scan_word_all n w : w <> [] -> (length w <= n)%nat -> forallb (fun c => negb (is_space c)) w = true -> scan_word n w = Some (w, []).
Proof.
  intros Hne Hl Hb. assert (scan_until n is_space w = w) as E.
  { clear Hne. revert n Hl Hb. induction w as [|c w IH]; intros [|n] Hl Hb; cbn in *; [done|done|lia|]. apply andb_prop in Hb as [Hc Hb].
    destruct (is_space c); [done|]. by rewrite IH by (done || lia). }
  unfold scan_word, scan_set. destruct w as [|c w]; [done|]. cbn [skip_space]. cbn in Hb. destruct (is_space c) eqn:Ec; [done|]. rewrite E, drop_all. done.
Qed.

(** Numbers with leading zeros. *)
Lemma digits_zeros n acc s : digits acc (repeat x30 n ++ s) = digits (acc * 10 ^ Z.of_nat n) s.
Proof.
  revert acc. induction n as [|n IH]; intros acc; [cbn; f_equal; lia|]. cbn [repeat app digits]. change (is_digit x30) with true. cbn match.
  rewrite IH. f_equal. change (byte.unsigned x30 - 48) with 0. rewrite Nat2Z.inj_succ, Z.pow_succ_r by lia. lia.
Qed.
Lemma zero_pad_digits n v : in_u64 v -> digits 0 (zero_pad n v) = v.
Proof. intros Hv. unfold zero_pad. rewrite digits_zeros, Z.mul_0_l. by apply print_u_digits. Qed.
Lemma zero_pad_inj n v w : in_u64 v -> in_u64 w -> zero_pad n v = zero_pad n w -> v = w.
Proof. intros Hv Hw H. by rewrite <- (zero_pad_digits n v), <- (zero_pad_digits n w), H. Qed.
Lemma zero_pad_length v : length (zero_pad 20 v) = 20%nat.
Proof. unfold zero_pad. rewrite length_app, repeat_length. pose proof (print_u_length v). lia. Qed.
Lemma zero_pad_short v : (length (zero_pad 4 v) <= 20)%nat.
Proof. unfold zero_pad. rewrite length_app, repeat_length. pose proof (print_u_length v). lia. Qed.

(** ** The journal of a transaction *)

(** A transaction as it was staged: its height, generation, identifier, type
    and puts. *)
Record utx := mkUtx { ut_height : Z; ut_gen : Z; ut_id : bytes; ut_type : bytes; ut_puts : list (bytes * bytes) }.

Definition is_undo (k : bytes) : bool := starts k QRX_POUC_TX_UNDO_PREFIX.
(** A put of a C string under a key that is not of the journal, within the
    limits of the database. *)
Record put_ok (kv : bytes * bytes) : Prop := {
  po_key : kv.1 <> [] /\ blen kv.1 <= QRXDB_MAX_KEY_SIZE;
  po_value : blen kv.2 <= QRXDB_MAX_VALUE_SIZE;
  po_text : no_nul kv.1 /\ no_nul kv.2;
  po_plain : is_undo kv.1 = false
}.
(** Identifiers are hexadecimal hashes, types words that fit what reads them. *)
Definition id_ok (s : bytes) : Prop := s <> [] /\ (length s <= 128)%nat /\ Forall (fun c => unhx c <> None) s.
Definition type_ok (s : bytes) : Prop := (length s <= 63)%nat /\ no_nul s /\ safe_token s = true.
Record utx_ok (t : utx) : Prop := {
  uo_height : in_u64 (ut_height t) /\ ut_height t <> 0;
  uo_gen : in_u64 (ut_gen t) /\ ut_gen t <> 0;
  uo_id : id_ok (ut_id t);
  uo_type : type_ok (ut_type t);
  uo_puts : Forall put_ok (ut_puts t);
  uo_keys : let n := blen (undo_keys [] (ut_puts t).*1) in 0 < n <= 65535
}.

Definition ut_keys (t : utx) : list bytes := undo_keys [] (ut_puts t).*1.
Definition ut_base (t : utx) : bytes := undo_base (ut_height t) (ut_gen t) (ut_id t).
Definition ut_entry (t : utx) : QrxPoucTxUndoEntry := mkUndo 1 (ut_height t) (ut_gen t) (blen (ut_keys t)) (ut_id t) (ut_type t).
Definition ut_meta (t : utx) : bytes := undo_meta (ut_height t) (ut_gen t) (blen (ut_keys t)) (ut_type t) (ut_id t).

(** What staging puts for the keys [ks] of a state [s], from the index [i]. *)
Definition snapshots (s : kvs) (base : bytes) (i : Z) (ks : list bytes) : list (bytes * bytes) :=
  imap (fun j k => (snapshot_key base (i + Z.of_nat j), snapshot_value k (s !! k))) ks.
Definition undo_puts (s : kvs) (t : utx) : list (bytes * bytes) := snapshots s (ut_base t) 0 (ut_keys t) ++ [(ut_base t, ut_meta t)].

(** *** Identifiers and entries *)

Lemma unhx_plain c : unhx c <> None -> is_bar c = false /\ is_space c = false /\ c <> x00 /\ c <> x3a /\ c <> x73 /\ c <> x0a /\ c <> x0d.
Proof. destruct c; vm_compute; intros H; (by destruct H) || (split_and!; done). Qed.
Lemma id_forallb (p : byte -> bool) s : id_ok s -> (forall c, unhx c <> None -> p c = true) -> forallb p s = true.
Proof. intros (_ & _ & Hs) Hp. induction Hs as [|c s Hc _ IH]; [done|]. cbn. by rewrite Hp, IH. Qed.
Lemma id_safe s : id_ok s -> safe_token s = true.
Proof.
  intros Hs. unfold safe_token. rewrite bool_decide_eq_true_2 by apply Hs. apply id_forallb; [done|]. intros c Hc.
  destruct (unhx_plain c Hc) as (-> & _ & _ & _ & _ & H1 & H2). by rewrite !bool_decide_eq_false_2.
Qed.
Lemma type_no_bar s : type_ok s -> s <> [] /\ forallb (fun c => negb (is_bar c)) s = true.
Proof.
  intros (_ & _ & Hs). apply andb_prop in Hs as [Hne Hs]. apply bool_decide_eq_true in Hne. split; [done|]. clear Hne.
  induction s as [|c s IH]; [done|]. cbn in *. apply andb_prop in Hs as [Hc Hs]. apply andb_prop in Hc as [Hc _]. apply andb_prop in Hc as [-> _]. by apply IH.
Qed.

Lemma digits_no_nul s : all_digits s -> no_nul s.
Proof. intros Hs H. unfold all_digits in Hs. rewrite Forall_forall in Hs. by apply Hs in H. Qed.
Lemma id_no_nul s : id_ok s -> no_nul s.
Proof. intros (_ & _ & Hs) H. rewrite Forall_forall in Hs. apply Hs, unhx_plain in H. tauto. Qed.
Lemma no_nul_app a b : no_nul (a ++ b) <-> no_nul a /\ no_nul b.
Proof. unfold no_nul. rewrite elem_of_app. tauto. Qed.

(** The entry of a transaction is read back. *)
Lemma meta_eq t : utx_ok t -> ut_meta t = META_APPLIED ++ cs "|" ++ print_u (ut_height t) ++ cs "|" ++ print_u (ut_gen t) ++ cs "|" ++
  print_u (blen (ut_keys t)) ++ cs "|" ++ ut_type t ++ cs "|" ++ ut_id t.
Proof.
  intros [_ _ (_ & Hid & _) (Hty & _) _ _]. unfold ut_meta, undo_meta, snprintf_s. apply take_ge. rewrite !length_app.
  pose proof (print_u_length (ut_height t)). pose proof (print_u_length (ut_gen t)). pose proof (print_u_length (blen (ut_keys t))).
  change (length META_APPLIED) with 7%nat. change (length (cs "|")) with 1%nat. lia.
Qed.
Lemma meta_no_nul t : utx_ok t -> no_nul (ut_meta t).
Proof.
  intros Hok. rewrite meta_eq by done. destruct Hok as [_ _ Hid Hty _ _]. rewrite !no_nul_app.
  split_and!; try (by apply digits_no_nul, print_u_all); try (by apply id_no_nul); try apply Hty; by vm_compute; set_solver.
Qed.
Lemma meta_parsed t : utx_ok t -> parse_meta (cstr (ut_meta t)) = Some (ut_entry t).
Proof.
  intros Hok. rewrite cstr_no_nul by (by apply meta_no_nul). rewrite meta_eq by done. destruct Hok as [[Hh _] [Hg _] Hid Hty _ Hk]. unfold parse_meta.
  change (cs "|") with [x7c]. cbn [app]. destruct (type_no_bar _ Hty) as [Hne Hbar].
  assert (in_u64 (blen (ut_keys t))) as Hn by (unfold ut_keys; cbv zeta in Hk; word).
  rewrite scan_set_bar by (done || cbn; lia). cbn [mbind option_bind]. rewrite scan_bar. cbn [mbind option_bind].
  rewrite scan_llu_print by done. cbn [mbind option_bind]. rewrite scan_bar. cbn [mbind option_bind].
  rewrite scan_llu_print by done. cbn [mbind option_bind]. rewrite scan_bar. cbn [mbind option_bind].
  unfold scan_u. rewrite scan_llu_print by done. cbn [mbind option_bind]. rewrite scan_bar. cbn [mbind option_bind].
  rewrite scan_set_bar by (done || apply Hty). cbn [mbind option_bind]. rewrite scan_bar. cbn [mbind option_bind].
  rewrite scan_word_all; [|apply Hid..|apply id_forallb; [done|]; intros c Hc; by destruct (unhx_plain c Hc) as (_ & -> & _)].
  cbn [mbind option_bind]. rewrite decide_True by done. unfold ut_entry. rewrite u32_small; [done|]. unfold ut_keys in *. cbv zeta in Hk. word.
Qed.

(** *** Keys of the journal *)

Lemma zero_pad_all n v : all_digits (zero_pad n v).
Proof. apply Forall_app. split; [|apply print_u_all]. apply Forall_forall. intros c Hc. by apply list_elem_of_In, repeat_spec in Hc as ->. Qed.

Lemma base_eq t : utx_ok t ->
  ut_base t = QRX_POUC_TX_UNDO_PREFIX ++ zero_pad 20 (ut_height t) ++ cs ":" ++ zero_pad 20 (ut_gen t) ++ cs ":" ++ ut_id t.
Proof.
  intros [_ _ (_ & Hid & _) _ _ _]. unfold ut_base, undo_base, snprintf_s. apply take_ge. rewrite !length_app, !zero_pad_length.
  change (length QRX_POUC_TX_UNDO_PREFIX) with 26%nat. change (length (cs ":")) with 1%nat. lia.
Qed.
Lemma base_length t : utx_ok t -> (68 < length (ut_base t) <= 196)%nat.
Proof.
  intros Hok. rewrite base_eq by done. destruct Hok as [_ _ (Hne & Hid & _) _ _ _]. rewrite !length_app, !zero_pad_length.
  change (length QRX_POUC_TX_UNDO_PREFIX) with 26%nat. change (length (cs ":")) with 1%nat. destruct (ut_id t); [done|]. cbn [length] in *. lia.
Qed.
Lemma skey_eq t i : utx_ok t -> snapshot_key (ut_base t) i = ut_base t ++ cs ":snapshot:" ++ zero_pad 4 i.
Proof.
  intros Hok. unfold snapshot_key, snprintf_s. apply take_ge. pose proof (base_length t Hok). pose proof (zero_pad_short i). rewrite !length_app.
  change (length (cs ":snapshot:")) with 10%nat. lia.
Qed.

(** A key of the journal of [t]. *)
Definition journal_key (t : utx) (k : bytes) : Prop := k = ut_base t \/ exists i, in_u64 i /\ k = snapshot_key (ut_base t) i.

Lemma journal_key_shape t k : utx_ok t -> journal_key t k ->
  exists r, k = QRX_POUC_TX_UNDO_PREFIX ++ zero_pad 20 (ut_height t) ++ cs ":" ++ zero_pad 20 (ut_gen t) ++ r /\ (length r <= 159)%nat /\ no_nul r.
Proof.
  intros Hok Hk. pose proof (id_no_nul _ (uo_id _ Hok)) as Hn. assert (length (ut_id t) <= 128)%nat as Hl by apply (uo_id _ Hok).
  assert (no_nul (cs ":") /\ no_nul (cs ":snapshot:")) as [N1 N2] by (split; vm_compute; set_solver).
  destruct Hk as [-> | (i & _ & ->)]; [|rewrite skey_eq by done]; rewrite base_eq by done; rewrite <- ?app_assoc; eexists; (split; [reflexivity|]);
    rewrite !length_app, !no_nul_app; cbn [length]; [split; [change (length (cs ":")) with 1%nat; lia|done]|].
  pose proof (zero_pad_short i). change (length (cs ":")) with 1%nat. change (length (cs ":snapshot:")) with 10%nat. split; [lia|]. split_and!; try done.
  apply digits_no_nul, zero_pad_all.
Qed.
Lemma journal_key_gen t t' k : utx_ok t -> utx_ok t' -> journal_key t k -> journal_key t' k -> ut_gen t = ut_gen t'.
Proof.
  intros Hok Hok' Hk Hk'. apply journal_key_shape in Hk as (r & -> & _); [|done]. apply journal_key_shape in Hk' as (r' & E & _); [|done].
  apply app_inv_head in E. apply app_inj_1 in E as [_ E]; [|by rewrite !zero_pad_length]. apply app_inv_head in E.
  apply app_inj_1 in E as [E _]; [|by rewrite !zero_pad_length]. by apply zero_pad_inj in E; [|apply Hok|apply Hok'].
Qed.
Lemma journal_key_ok t k : utx_ok t -> journal_key t k -> is_undo k = true /\ k <> [] /\ blen k <= QRXDB_MAX_KEY_SIZE /\ no_nul k.
Proof.
  intros Hok Hk. apply journal_key_shape in Hk as (r & -> & Hr & Hn); [|done]. split_and!.
  - unfold is_undo, starts, has_prefix. rewrite take_app_length. by apply bool_decide_eq_true_2.
  - done.
  - unfold blen. rewrite !length_app, !zero_pad_length. change (length QRX_POUC_TX_UNDO_PREFIX) with 26%nat. change (length (cs ":")) with 1%nat. unfold QRXDB_MAX_KEY_SIZE. lia.
  - rewrite !no_nul_app. split_and!; try (by apply digits_no_nul, zero_pad_all); [by vm_compute; set_solver..|done].
Qed.

Lemma skey_inj t i j : utx_ok t -> in_u64 i -> in_u64 j -> snapshot_key (ut_base t) i = snapshot_key (ut_base t) j -> i = j.
Proof. intros Hok Hi Hj. rewrite !skey_eq by done. intros E%app_inv_head%app_inv_head. by apply zero_pad_inj in E. Qed.
Lemma skey_not_base t i : utx_ok t -> snapshot_key (ut_base t) i <> ut_base t.
Proof. intros Hok E. apply (f_equal length) in E. rewrite skey_eq, length_app in E by done. cbn in E. lia. Qed.

(** *** Which keys are of snapshots *)

Lemma strstr_weaken s a b : strstr s (a ++ b) = true -> strstr s a = true.
Proof.
  assert (forall s, bool_decide (take (length (a ++ b)) s = a ++ b) = true -> bool_decide (take (length a) s = a) = true) as Hhd.
  { intros s' H. apply bool_decide_eq_true in H. apply bool_decide_eq_true. apply (f_equal (take (length a))) in H.
    rewrite take_take, take_app_length, length_app, Nat.min_l in H by lia. done. }
  induction s as [|c s IH]; cbn [strstr]; intros H; apply orb_prop in H as [H|H]; rewrite ?(Hhd _ H); try done. rewrite IH by done. apply orb_true_r.
Qed.
Lemma strstr_app s a c : strstr (s ++ a ++ c) a = true.
Proof.
  induction s as [|b s IH]; cbn [app strstr].
  - destruct (a ++ c) eqn:E; cbn [strstr]; rewrite <- E, take_app_length, bool_decide_eq_true_2; done.
  - by rewrite IH, orb_true_r.
Qed.
Lemma strstr_colon w r : x3a ∉ w -> strstr (w ++ r) (cs ":s") = strstr r (cs ":s").
Proof.
  induction w as [|c w IH]; intros H; [done|]. cbn [app strstr]. rewrite IH by set_solver. rewrite bool_decide_eq_false_2; [done|].
  intros E. change (length (cs ":s")) with 2%nat in E. cbn in E. injection E as -> _. set_solver.
Qed.
Lemma strstr_colon_then c r : c <> x73 -> strstr (x3a :: c :: r) (cs ":s") = strstr (c :: r) (cs ":s").
Proof. intros H. cbn [strstr]. rewrite bool_decide_eq_false_2; [done|]. intros E. cbn in E. by injection E. Qed.
Lemma digits_head s : all_digits s -> s <> [] -> exists c r, s = c :: r /\ c <> x73 /\ x3a ∉ s.
Proof.
  intros Hs Hne. destruct s as [|c r]; [done|]. exists c, r. unfold all_digits in Hs. rewrite Forall_forall in Hs.
  split; [done|]. split; [intros ->; by specialize (Hs x73 ltac:(set_solver))|]. intros H. by apply Hs in H.
Qed.
Lemma base_not_snapshot t : utx_ok t -> strstr (ut_base t) (cs ":snapshot:") = false.
Proof.
  intros Hok. destruct (strstr (ut_base t) _) eqn:E; [|done]. apply (strstr_weaken _ (cs ":s") (cs "napshot:")) in E. exfalso. revert E.
  rewrite base_eq by done. destruct Hok as [_ _ (Hne & _ & Hid) _ _ _].
  destruct (digits_head (zero_pad 20 (ut_height t)) (zero_pad_all _ _)) as (c1 & r1 & E1 & N1 & D1); [by intros E; pose proof (zero_pad_length (ut_height t)); rewrite E in *|].
  destruct (digits_head (zero_pad 20 (ut_gen t)) (zero_pad_all _ _)) as (c2 & r2 & E2 & N2 & D2); [by intros E; pose proof (zero_pad_length (ut_gen t)); rewrite E in *|].
  assert (x3a ∉ ut_id t) as D3 by (intros H; rewrite Forall_forall in Hid; apply Hid, unhx_plain in H; tauto).
  change (QRX_POUC_TX_UNDO_PREFIX) with (cs "consensus" ++ x3a :: x63 :: cs "ompute" ++ x3a :: x74 :: cs "x_undo" ++ [x3a]). change (cs ":") with [x3a].
  rewrite <- ?app_assoc. cbn [app]. rewrite <- ?app_assoc. cbn [app]. rewrite <- ?app_assoc. cbn [app].
  rewrite strstr_colon, strstr_colon_then by (done || vm_compute; set_solver).
  change (x63 :: cs "ompute" ++ ?r) with (cs "compute" ++ r). rewrite strstr_colon, strstr_colon_then by (done || vm_compute; set_solver).
  change (x74 :: cs "x_undo" ++ ?r) with (cs "tx_undo" ++ r). rewrite strstr_colon by (vm_compute; set_solver).
  rewrite E1. cbn [app]. rewrite strstr_colon_then by done. rewrite (app_comm_cons r1), <- E1, strstr_colon by done.
  rewrite E2. cbn [app]. rewrite strstr_colon_then by done. rewrite (app_comm_cons r2), <- E2, strstr_colon by done.
  destruct (ut_id t) as [|c r]; [done|]. rewrite strstr_colon_then by (inversion_clear Hid as [|? ? Hc _]; apply unhx_plain in Hc; tauto).
  rewrite <- (app_nil_r (c :: r)), strstr_colon by done. done.
Qed.

(** ** Batches *)

Definition fits (kv : bytes * bytes) : Prop := kv.1 <> [] /\ blen kv.1 <= QRXDB_MAX_KEY_SIZE /\ blen kv.2 <= QRXDB_MAX_VALUE_SIZE.
Definition entry_put (e : QrxDBBatchEntry) : bytes * bytes := (be_key e, be_value e).

Lemma fits_short kv : fits kv -> short_kv kv.
Proof. intros (_ & Hk & Hv). unfold QRXDB_MAX_KEY_SIZE, QRXDB_MAX_VALUE_SIZE in *. pose proof (blen_nonneg kv.1). pose proof (blen_nonneg kv.2). split; word. Qed.

Lemma put_fits b kv : fits kv -> bt_active b = true ->
  exists b', qrxdb_batch_put b kv.1 kv.2 = Some b' /\ bt_active b' = true /\ bt_generation b' = bt_generation b /\
    entry_put <$> bt_entries b' = (entry_put <$> bt_entries b) ++ [kv].
Proof.
  intros Hf Ha. destruct (fits_short kv Hf) as [Sk Sv]. destruct Hf as (Hne & Hk & Hv). unfold qrxdb_batch_put. rewrite decide_False by congruence.
  rewrite !u32_small by done. rewrite decide_False by (unfold blen in *; destruct kv.1; [done|cbn in *; lia]).
  eexists. split; [reflexivity|]. split_and!; try done. cbn [bt_entries]. rewrite fmap_app. cbn [fmap list_fmap entry_put be_key be_value].
  unfold entry_put at 2. cbn [be_key be_value]. rewrite <- (u32_small (blen kv.1)), <- (u32_small (blen kv.2)), !clip_short by done. by destruct kv.
Qed.

Lemma fill_app b p q : fill b (p ++ q) = b' ← fill b p; fill b' q.
Proof. unfold fill. rewrite foldl_app. destruct (foldl _ (Some b) p) as [b'|]; [done|]. apply fill_none. Qed.
Lemma fill_cons b kv p : fill b (kv :: p) = b' ← qrxdb_batch_put b kv.1 kv.2; fill b' p.
Proof. change (kv :: p) with ([kv] ++ p). by rewrite fill_app. Qed.

Lemma fill_fits b puts : Forall fits puts -> bt_active b = true ->
  exists b', fill b puts = Some b' /\ bt_active b' = true /\ bt_generation b' = bt_generation b /\
    entry_put <$> bt_entries b' = (entry_put <$> bt_entries b) ++ puts.
Proof.
  intros Hf. revert b. induction Hf as [|kv puts Hkv _ IH]; intros b Ha; [exists b; by rewrite app_nil_r|].
  destruct (put_fits b kv Hkv Ha) as (b1 & Hp & Ha1 & Hg1 & He1). destruct (IH b1 Ha1) as (b2 & Hf2 & Ha2 & Hg2 & He2).
  exists b2. rewrite fill_cons, Hp. cbn [mbind option_bind]. split_and!; [done|done|congruence|]. by rewrite He2, He1, <- app_assoc.
Qed.

Lemma fill_generation b puts b' : fill b puts = Some b' -> bt_generation b' = bt_generation b.
Proof.
  revert b. induction puts as [|kv puts IH]; intros b; [by intros [= <-]|]. rewrite fill_cons. destruct (qrxdb_batch_put b kv.1 kv.2) as [b1|] eqn:E; [|done].
  cbn [mbind option_bind]. intros H. rewrite (IH _ H). unfold qrxdb_batch_put in E. case_decide; [done|]. case_decide; [done|]. by apply (inj Some) in E as <-.
Qed.

(** The counters of the database are far from their limits and the records of
    the batch fit in one segment of the log. *)
Record room (db : QrxDB) (b : QrxDBBatch) : Prop := {
  rm_generation : generation db < UINT64_MAX;
  rm_segment : wal_segment_id db < UINT64_MAX;
  rm_space : write_offset db + zsum ((fun e => qrxdb_record_storage_size (blen (be_key e)) (blen (be_value e))) <$> bt_entries b) <= 2 ^ 61;
  rm_log : batch_wal_bytes b <= QRXDB_WAL_SEGMENT_SIZE
}.

(** A batch with room is committed. *)
Lemma commit_room sha db s b0 b puts : contents sha db s -> qrxdb_batch_begin db = Some b0 -> fill b0 puts = Some b ->
  Forall fits puts -> puts <> [] -> room db b ->
  exists db', qrxdb_batch_commit sha db b = (db', 0) /\ contents sha db' (apply_puts s puts) /\ generation db' = generation db + 1.
Proof.
  intros Hc Hb Hfill Hf Hne [Rg Rs Rw Rl]. assert (bt_active b0 = true /\ bt_entries b0 = []) as [Ha He].
  { unfold qrxdb_batch_begin in Hb. case_decide; [done|]. by apply (inj Some) in Hb as <-. }
  destruct (fill_fits b0 puts Hf Ha) as (b' & Hfill' & _ & _ & Hen). assert (b' = b) as -> by congruence. rewrite He in Hen. cbn in Hen.
  assert (batch_for db puts b) as Hbf.
  { split; try done.
    - by rewrite Hb.
    - eapply Forall_impl; [exact Hf|]. apply fits_short.
    - rewrite <- Hen, <- list_fmap_compose. exact Rw. }
  pose proof (batch_commit_ok sha db s puts b Hc Hbf) as H. rewrite decide_False in H by lia. destruct H as (db' & H1 & H2 & _ & H3). eauto.
Qed.

(** ** Staging *)

Lemma snapshot_loop_spec d s base i ks b b' : (forall k, vw_value <$> qrxdb_get_view d k = s !! k) -> snapshot_loop d b base i ks = (0, b') ->
  fill b (snapshots s base i ks) = Some b' /\ Forall (fun k => k <> [] /\ blen k <= 4096 /\ default 0 (blen <$> s !! k) <= QRX_POUC_TX_UNDO_MAX_SNAPSHOT_VALUE) ks.
Proof.
  intros Hs. revert i b. induction ks as [|k ks IH]; intros i b H; cbn [snapshot_loop] in H; [injection H as ->; split; [done|constructor]|].
  unfold snapshot_stage in H. rewrite Hs in H. case_decide as Hk; [done|]. case_decide as Hv; [done|].
  destruct (qrxdb_batch_put b _ _) as [b1|] eqn:Hp; [|done]. apply IH in H as [H Hall]. split.
  - unfold snapshots. cbn [imap]. rewrite fill_cons. cbn [fst snd]. rewrite Z.add_0_r, Hp. cbn [mbind option_bind].
    rewrite <- H. unfold snapshots. f_equal. apply imap_ext. intros j x _. unfold compose. replace (i + Z.of_nat (S j)) with (i + 1 + Z.of_nat j) by lia. done.
  - constructor; [|done]. assert (k <> [] /\ ~ blen k > 4096) as [? ?] by tauto. split_and!; [done|lia|lia].
Qed.

(** What a successful call adds to the batch. *)
Lemma stage_spec d s b b' t : (forall k, vw_value <$> qrxdb_get_view d k = s !! k) -> be_key <$> bt_entries b = (ut_puts t).*1 ->
  bt_generation b = ut_gen t -> qrx_pouc_tx_undo_stage d b (ut_id t) (ut_type t) (ut_height t) = (0, b') ->
  fill b (undo_puts s t) = Some b' /\ 0 < blen (ut_keys t) <= 65535 /\
  Forall (fun k => k <> [] /\ blen k <= 4096 /\ default 0 (blen <$> s !! k) <= QRX_POUC_TX_UNDO_MAX_SNAPSHOT_VALUE) (ut_keys t).
Proof.
  intros Hs He Hg. unfold qrx_pouc_tx_undo_stage. rewrite He, Hg. fold (ut_keys t) (ut_base t) (ut_meta t). case_decide; [done|]. case_decide as Hn; [done|].
  destruct (snapshot_loop d b (ut_base t) 0 (ut_keys t)) as [rc b1] eqn:E. case_decide as Hrc; [by intros [= ->]|].
  assert (rc = 0) as -> by (destruct (decide (rc = 0)); tauto). apply snapshot_loop_spec with (s := s) in E as [E Hall]; [|done].
  rewrite (fill_generation _ _ _ E), Hg. fold (ut_meta t).
  destruct (qrxdb_batch_put b1 _ _) as [b2|] eqn:Hp; [|done]. intros [= <-]. assert (ut_keys t <> [] /\ ~ blen (ut_keys t) > 65535) as [H1 H2] by tauto. split_and!; [| |lia|done].
  - unfold undo_puts. rewrite fill_app, E. cbn [mbind option_bind]. rewrite fill_cons. cbn [fst snd]. by rewrite Hp.
  - destruct (ut_keys t) as [|k ks]; [done|]. rewrite blen_cons. pose proof (blen_nonneg ks). lia.
Qed.
