(* ===== verification/PoucRollback.v ===== *)
(** * Rollback of compute transactions: histories

    A rollback gives back the state at the height: the theorem
    [rollback_restores] over every sequence of transactions and rollbacks. *)

From stdpp Require Import gmap sorting.
From S2P Require Import Prelude Format DbCodec DbStore DbView DbMerkle DbWal DbCommit DbScenarios PoucUndo PoucUndoFacts.

(** ** Puts *)

Lemma apply_puts_app s p q : apply_puts s (p ++ q) = apply_puts (apply_puts s p) q.
Proof. apply foldl_app. Qed.
Lemma put_or_delete_other s k v k' : k <> k' -> put_or_delete s k v !! k' = s !! k'.
Proof. intros H. unfold put_or_delete. destruct (qrxdb_is_tombstone v); [by rewrite lookup_delete_ne|by rewrite lookup_insert_ne]. Qed.
Lemma put_or_delete_same s k v : put_or_delete s k v !! k = if qrxdb_is_tombstone v then None else Some v.
Proof. unfold put_or_delete. destruct (qrxdb_is_tombstone v); [by rewrite lookup_delete_eq|by rewrite lookup_insert_eq]. Qed.
Lemma apply_puts_notin s puts k : k ∉ puts.*1 -> apply_puts s puts !! k = s !! k.
Proof.
  revert s. induction puts as [|[k' v] puts IH]; intros s H; [done|]. cbn [fmap list_fmap fst] in H. apply not_elem_of_cons in H as [Hn H].
  change (apply_puts s ((k', v) :: puts)) with (apply_puts (put_or_delete s k' v) puts). rewrite IH by done. by apply put_or_delete_other.
Qed.
Lemma apply_puts_in s puts k v : NoDup puts.*1 -> (k, v) ∈ puts -> apply_puts s puts !! k = if qrxdb_is_tombstone v then None else Some v.
Proof.
  revert s. induction puts as [|[k' v'] puts IH]; intros s Hd Hin; [set_solver|]. rewrite fmap_cons in Hd. apply NoDup_cons in Hd as [Hn Hd].
  change (apply_puts s ((k', v') :: puts)) with (apply_puts (put_or_delete s k' v') puts). apply elem_of_cons in Hin as [[= -> ->]|Hin]; [|by apply IH].
  rewrite apply_puts_notin by done. apply put_or_delete_same.
Qed.

(** ** Keys *)

Lemma undo_keys_elem seen ks k : k ∈ undo_keys seen ks <-> k ∈ ks /\ is_undo k = false /\ k ∉ seen.
Proof.
  revert seen. induction ks as [|k' ks IH]; intros seen; cbn [undo_keys]; [set_solver|].
  destruct (starts k' _ || _) eqn:E; rewrite ?elem_of_cons, IH, not_elem_of_app, list_elem_of_singleton.
  - apply orb_prop in E as [E|E]; [|apply bool_decide_eq_true in E]; split; [intuition|intros ([->|] & Hu & Hs); [|destruct (decide (k = k'))]|intuition|intros ([->|] & Hu & Hs)];
      unfold is_undo in *; try congruence; try (subst; congruence); try tauto. split_and!; try done. intros ->. tauto.
  - apply orb_false_elim in E as [E1 E2]. apply bool_decide_eq_false in E2. unfold is_undo. destruct (decide (k = k')) as [->|]; intuition.
Qed.
Lemma undo_keys_nodup seen ks : NoDup (undo_keys seen ks).
Proof.
  revert seen. induction ks as [|k' ks IH]; intros seen; cbn [undo_keys]; [constructor|]. destruct (starts k' _ || _); [done|].
  constructor; [|done]. rewrite undo_keys_elem. set_solver.
Qed.
Lemma ut_keys_elem t k : k ∈ ut_keys t <-> k ∈ (ut_puts t).*1 /\ is_undo k = false.
Proof. unfold ut_keys. rewrite undo_keys_elem. set_solver. Qed.
Lemma ut_puts_plain t k : utx_ok t -> k ∈ (ut_puts t).*1 -> is_undo k = false.
Proof. intros Hok (kv & -> & Hin)%list_elem_of_fmap. pose proof (uo_puts _ Hok) as Hp. rewrite Forall_forall in Hp. by apply Hp. Qed.

Lemma snapshots_elem s base i ks kv : kv ∈ snapshots s base i ks <->
  exists j k, ks !! j = Some k /\ kv = (snapshot_key base (i + Z.of_nat j), snapshot_value k (s !! k)).
Proof. unfold snapshots. rewrite elem_of_lookup_imap. naive_solver. Qed.
Lemma snapshots_nodup s t i ks : utx_ok t -> 0 <= i -> i + blen ks <= 2 ^ 64 -> NoDup (snapshots s (ut_base t) i ks).*1.
Proof.
  intros Hok. revert i. induction ks as [|k ks IH]; intros i Hi Hn; [constructor|]. rewrite blen_cons in Hn. pose proof (blen_nonneg ks).
  assert (snapshots s (ut_base t) i (k :: ks) = (snapshot_key (ut_base t) i, snapshot_value k (s !! k)) :: snapshots s (ut_base t) (i + 1) ks) as ->.
  { unfold snapshots. cbn [imap]. rewrite Z.add_0_r. f_equal. apply imap_ext. intros j x _. unfold compose. by replace (i + Z.of_nat (S j)) with (i + 1 + Z.of_nat j) by lia. }
  rewrite fmap_cons. constructor; [|apply IH; lia]. cbn [fst]. intros (kv & Hk & Hin)%list_elem_of_fmap. apply snapshots_elem in Hin as (j & k' & Hj & ->).
  cbn [fst] in Hk. apply lookup_lt_Some in Hj. apply skey_inj in Hk; unfold blen in *; [lia|done|word|word].
Qed.
Lemma undo_puts_nodup s t : utx_ok t -> NoDup (undo_puts s t).*1.
Proof.
  intros Hok. unfold undo_puts. rewrite fmap_app. apply NoDup_app. split_and!; [|..|by apply NoDup_singleton].
  - apply snapshots_nodup; [done|done|]. pose proof (uo_keys _ Hok) as Hk. cbv zeta in Hk. unfold ut_keys. lia.
  - intros k (kv & -> & Hin)%list_elem_of_fmap. apply snapshots_elem in Hin as (j & k' & _ & ->). cbn. rewrite list_elem_of_singleton. by apply skey_not_base.
Qed.
Lemma undo_puts_journal s t k : utx_ok t -> k ∈ (undo_puts s t).*1 -> journal_key t k.
Proof.
  intros Hok. unfold undo_puts. rewrite fmap_app, elem_of_app. intros [(kv & -> & Hin)%list_elem_of_fmap|H]; [right|left; by apply list_elem_of_singleton in H].
  apply snapshots_elem in Hin as (j & k' & Hj & ->). exists (Z.of_nat j). split; [|done]. apply lookup_lt_Some in Hj.
  pose proof (uo_keys _ Hok) as Hk. cbv zeta in Hk. unfold ut_keys, blen in *. word.
Qed.

(** ** Histories *)

(** The state after the transactions [H], newest first, with their journals. *)
Fixpoint ledger (s0 : kvs) (H : list utx) : kvs :=
  match H with [] => s0 | t :: H => let s := ledger s0 H in apply_puts s (ut_puts t ++ undo_puts s t) end.

(** A state to start from: nothing of the journal, and C strings within the
    limits. *)
Definition value_ok (v : bytes) : Prop := blen v <= QRXDB_MAX_VALUE_SIZE /\ no_nul v /\ qrxdb_is_tombstone v = false.
Definition start_ok (s0 : kvs) : Prop := map_Forall (fun k v => is_undo k = false /\ value_ok v) s0.

(** Transactions as they follow each other. *)
Definition newer (a b : utx) : Prop := ut_gen b < ut_gen a /\ ut_height b <= ut_height a.
Definition chain_ok (H : list utx) : Prop := Forall utx_ok H /\ StronglySorted newer H.

Lemma chain_cons t H : chain_ok (t :: H) -> utx_ok t /\ Forall (newer t) H /\ chain_ok H.
Proof. intros [Hok Hs]. inversion_clear Hok. inversion_clear Hs. done. Qed.

(** The state without the journals: the puts, oldest first. *)
Lemma ledger_plain s0 H k : Forall utx_ok H -> is_undo k = false -> ledger s0 H !! k = foldr (fun t s => apply_puts s (ut_puts t)) s0 H !! k.
Proof.
  intros Hok Hk. assert (forall s s' puts, s !! k = s' !! k -> apply_puts s puts !! k = apply_puts s' puts !! k) as Hext.
  { intros s s' puts. revert s s'. induction puts as [|[k' v] puts IH]; intros s s' E; [done|]. cbn. apply IH. cbn [fst snd].
    destruct (decide (k' = k)) as [->|]; [by rewrite !put_or_delete_same|by rewrite !put_or_delete_other]. }
  induction Hok as [|t H Ht _ IH]; [done|]. cbn [ledger foldr]. rewrite apply_puts_app, apply_puts_notin; [by apply Hext|].
  intros Hin. apply undo_puts_journal in Hin; [|done]. apply journal_key_ok in Hin as [Hu _]; [|done]. congruence.
Qed.

Lemma apply_puts_value s puts k v : (forall v, s !! k = Some v -> value_ok v) -> Forall (fun kv => kv.1 = k -> blen kv.2 <= QRXDB_MAX_VALUE_SIZE /\ no_nul kv.2) puts ->
  apply_puts s puts !! k = Some v -> value_ok v.
Proof.
  intros Hs Hp. revert s Hs. induction Hp as [|[k' v'] puts Hkv _ IH]; intros s Hs; [apply Hs|]. cbn. apply IH. intros w. cbn [fst snd] in *.
  destruct (decide (k' = k)) as [->|Hne]; [|rewrite put_or_delete_other by done; apply Hs]. rewrite put_or_delete_same.
  destruct (qrxdb_is_tombstone v') eqn:E; [done|]. intros [= <-]. by destruct (Hkv eq_refl).
Qed.
Lemma ledger_value s0 H k v : start_ok s0 -> Forall utx_ok H -> is_undo k = false -> ledger s0 H !! k = Some v -> value_ok v.
Proof.
  intros Hs Hok Hk. rewrite ledger_plain by done. revert v. induction Hok as [|t H Ht _ IH]; intros v; cbn [foldr]; [apply Hs|].
  apply apply_puts_value; [exact IH|]. eapply Forall_impl; [apply (uo_puts _ Ht)|]. intros kv [_ Hv [_ Hn] _] _. done.
Qed.

(** Keys of later journals are fresh, those of earlier ones stay. *)
Lemma ledger_step_journal s t t' k : utx_ok t -> utx_ok t' -> ut_gen t <> ut_gen t' -> journal_key t k ->
  apply_puts s (ut_puts t' ++ undo_puts s t') !! k = s !! k.
Proof.
  intros Hok Hok' Hg Hk. apply apply_puts_notin. rewrite fmap_app, not_elem_of_app. split.
  - intros Hin. apply ut_puts_plain in Hin; [|done]. apply journal_key_ok in Hk as [Hu _]; [|done]. congruence.
  - intros Hin. apply undo_puts_journal in Hin; [|done]. apply Hg. by apply (journal_key_gen t t' k).
Qed.
Lemma ledger_fresh s0 H t k : start_ok s0 -> chain_ok (t :: H) -> journal_key t k -> ledger s0 H !! k = None.
Proof.
  intros Hs Hc Hk. apply chain_cons in Hc as (Ht & Hn & [Hok _]). induction Hok as [|t' H Ht' _ IH]; cbn [ledger].
  - destruct (s0 !! k) as [v|] eqn:E; [|done]. apply Hs in E as [Hu _]. apply journal_key_ok in Hk as [Hu' _]; [congruence|done].
  - inversion_clear Hn as [|? ? [Hg _] Hn']. rewrite (ledger_step_journal _ t) by (done || lia). by apply IH.
Qed.
Lemma ledger_stays s0 H1 t H2 k : chain_ok (H1 ++ t :: H2) -> journal_key t k -> ledger s0 (H1 ++ t :: H2) !! k = ledger s0 (t :: H2) !! k.
Proof.
  intros Hc Hk. assert (utx_ok t) as Ht by (destruct Hc as [Hok _]; by apply Forall_app in Hok as [_ Hok]; inversion_clear Hok).
  induction H1 as [|t' H1 IH]; [done|]. cbn [app] in *. apply chain_cons in Hc as (Ht' & Hn & Hc). cbn [ledger].
  rewrite (ledger_step_journal _ t); [by apply IH|done|done| |done]. apply Forall_app in Hn as [_ Hn]. inversion_clear Hn as [|? ? [Hg _] _]. lia.
Qed.

(** *** One transaction undone *)

Fixpoint restores (s : kvs) (base : bytes) (ks : list bytes) (n : nat) : list (bytes * bytes) :=
  match n with
  | O => []
  | S n => let k := nth n ks [] in [(k, default qrxdb_tombstone_value (s !! k)); (snapshot_key base (Z.of_nat n), qrxdb_tombstone_value)] ++ restores s base ks n
  end.
Definition revert_puts (s : kvs) (t : utx) : list (bytes * bytes) :=
  restores s (ut_base t) (ut_keys t) (length (ut_keys t)) ++ [(ut_base t, qrxdb_tombstone_value)].

Lemma restores_elem s base ks n kv : kv ∈ restores s base ks n <->
  exists j, (j < n)%nat /\ (kv = (nth j ks [], default qrxdb_tombstone_value (s !! nth j ks [])) \/ kv = (snapshot_key base (Z.of_nat j), qrxdb_tombstone_value)).
Proof.
  induction n as [|n IH]; cbn [restores]; [split; [set_solver|intros (j & ? & _); lia]|]. rewrite elem_of_app, IH, !elem_of_cons. split.
  - intros [[-> |[-> |Hn]]|(j & Hj & Hkv)]; [exists n; split; [lia|by left]|exists n; split; [lia|by right]|by apply not_elem_of_nil in Hn|exists j; split; [lia|done]].
  - intros (j & Hj & Hkv). destruct (decide (j = n)) as [->|]; [left; tauto|right; exists j; split; [lia|done]].
Qed.

Lemma nth_key t j : (j < length (ut_keys t))%nat -> nth j (ut_keys t) [] ∈ ut_keys t.
Proof. intros Hj. apply list_elem_of_In, nth_In. done. Qed.
Lemma key_index t j : utx_ok t -> (j < length (ut_keys t))%nat -> in_u64 (Z.of_nat j).
Proof. intros Hok Hj. pose proof (uo_keys _ Hok) as Hk. cbv zeta in Hk. unfold ut_keys, blen in *. word. Qed.
Lemma restores_nodup s t n : utx_ok t -> (n <= length (ut_keys t))%nat -> NoDup (restores s (ut_base t) (ut_keys t) n).*1.
Proof.
  intros Hok. induction n as [|n IH]; intros Hn; cbn [restores]; [constructor|]. cbn [app]. rewrite !fmap_cons. cbn [fst].
  assert (forall j, (j < length (ut_keys t))%nat -> is_undo (nth j (ut_keys t) []) = false) as Hpl by (intros j Hj; by apply nth_key, ut_keys_elem in Hj as [_ Hj]).
  assert (forall j, (j < length (ut_keys t))%nat -> journal_key t (snapshot_key (ut_base t) (Z.of_nat j))) as Hjr
    by (intros j Hj; right; exists (Z.of_nat j); split; [by apply (key_index t)|done]).
  assert (forall j i, (j < length (ut_keys t))%nat -> (i < length (ut_keys t))%nat -> nth j (ut_keys t) [] <> snapshot_key (ut_base t) (Z.of_nat i)) as Hdiff.
  { intros j i Hj Hi E. specialize (Hpl j Hj). rewrite E in Hpl. destruct (journal_key_ok t _ Hok (Hjr i Hi)) as [Hu _]. congruence. }
  constructor; [|constructor; [|apply IH; lia]].
  - rewrite elem_of_cons. intros [E|(kv & E & Hin)%list_elem_of_fmap]; [by apply (Hdiff n n) in E; [|lia|lia]|].
    apply restores_elem in Hin as (j & Hj & [-> | ->]); cbn [fst] in E; [|by apply Hdiff in E; [|lia|lia]].
    pose proof (undo_keys_nodup [] (ut_puts t).*1) as Hd. fold (ut_keys t) in Hd. apply NoDup_ListNoDup in Hd.
    pose proof (proj1 (NoDup_nth (ut_keys t) []) Hd n j ltac:(lia) ltac:(lia) E). lia.
  - intros (kv & E & Hin)%list_elem_of_fmap. apply restores_elem in Hin as (j & Hj & [-> | ->]); cbn [fst] in E; [symmetry in E; by apply Hdiff in E; [|lia|lia]|].
    apply skey_inj in E; [lia|done|apply (key_index t); [done|lia]..].
Qed.
Lemma revert_nodup s t : utx_ok t -> NoDup (revert_puts s t).*1.
Proof.
  intros Hok. unfold revert_puts. rewrite fmap_app. apply NoDup_app. split_and!; [by apply restores_nodup| |apply NoDup_singleton].
  intros k (kv & -> & Hin)%list_elem_of_fmap. cbn [fmap list_fmap]. rewrite list_elem_of_singleton. cbn [fst].
  apply restores_elem in Hin as (j & Hj & [-> | ->]); cbn [fst]; [|by apply skey_not_base].
  intros E. apply nth_key, ut_keys_elem in Hj as [_ Hu]. rewrite E in Hu. destruct (journal_key_ok t (ut_base t) Hok) as [Hu' _]; [by left|]. congruence.
Qed.

Lemma undo_step s0 t H : start_ok s0 -> chain_ok (t :: H) -> apply_puts (ledger s0 (t :: H)) (revert_puts (ledger s0 H) t) = ledger s0 H.
Proof.
  intros Hs Hc. pose proof (chain_cons _ _ Hc) as (Hok & _ & [Hoks _]). cbn [ledger]. set (s := ledger s0 H). pose proof (revert_nodup s t Hok) as Hd.
  assert (forall k, journal_key t k -> s !! k = None) as Hfresh by (intros k Hk; by apply (ledger_fresh s0 H t)).
  apply map_eq. intros k. destruct (decide (k ∈ (revert_puts s t).*1)) as [(kv & -> & Hin)%list_elem_of_fmap|Hn].
  - rewrite (apply_puts_in _ _ kv.1 kv.2) by (done || by destruct kv). unfold revert_puts in Hin. rewrite elem_of_app, list_elem_of_singleton, restores_elem in Hin.
    destruct Hin as [(j & Hj & [-> | ->])| ->]; cbn [fst snd].
    + destruct (s !! nth j (ut_keys t) []) as [v|] eqn:E; [|done]. change (default qrxdb_tombstone_value (Some v)) with v. apply nth_key, ut_keys_elem in Hj as [_ Hu].
      destruct (ledger_value s0 H _ v Hs Hoks Hu E) as (_ & _ & Ht). by rewrite Ht.
    + symmetry. apply Hfresh. right. exists (Z.of_nat j). split; [by apply (key_index t)|done].
    + symmetry. apply Hfresh. by left.
  - rewrite apply_puts_notin by done. apply apply_puts_notin. rewrite fmap_app, not_elem_of_app. unfold revert_puts in Hn. rewrite fmap_app, not_elem_of_app in Hn.
    destruct Hn as [Hr Hb]. split; [intros Hin|].
    + assert (k ∈ ut_keys t) as (j & Hj)%list_elem_of_lookup_1 by (apply ut_keys_elem; split; [done|by apply (ut_puts_plain t)]).
      apply Hr, list_elem_of_fmap. exists (k, default qrxdb_tombstone_value (s !! k)). split; [done|]. apply restores_elem. exists j.
      split; [by apply lookup_lt_Some in Hj|]. left. by rewrite (nth_lookup_Some _ _ _ _ Hj).
    + unfold undo_puts. rewrite fmap_app, elem_of_app. intros [(kv & -> & Hin)%list_elem_of_fmap|Hin]; [|done]. apply snapshots_elem in Hin as (j & k' & Hj & ->).
      cbn [fst] in Hr. apply Hr, list_elem_of_fmap. exists (snapshot_key (ut_base t) (Z.of_nat j), qrxdb_tombstone_value). split; [done|]. apply restores_elem. exists j.
      split; [by apply lookup_lt_Some in Hj|by right].
Qed.

(** *** Many transactions undone *)

Fixpoint revert_all (s0 : kvs) (H : list utx) (canon : Z) : list (bytes * bytes) :=
  match H with
  | [] => []
  | t :: H => (if decide (ut_height t <= canon) then [] else revert_puts (ledger s0 H) t) ++ revert_all s0 H canon
  end.
Definition kept (canon : Z) (H : list utx) : list utx := filter (fun t => ut_height t <= canon) H.

Lemma kept_sorted canon H : StronglySorted newer H -> StronglySorted newer (kept canon H).
Proof.
  unfold kept. induction 1 as [|t H _ IH Hn]; [constructor|]. rewrite filter_cons. case_decide; [|done]. constructor; [done|].
  rewrite Forall_forall in Hn |- *. intros x [_ Hx]%list_elem_of_filter. by apply Hn.
Qed.
Lemma below_all s0 t H canon : Forall (newer t) H -> ut_height t <= canon -> kept canon H = H /\ revert_all s0 H canon = [].
Proof.
  intros Hn Hh. induction Hn as [|t' H [_ Ht'] _ [IH1 IH2]]; [done|]. unfold kept. rewrite filter_cons_True by lia. fold (kept canon H). cbn [revert_all].
  by rewrite decide_True, IH1, IH2 by lia.
Qed.
Lemma undo_all s0 H canon : start_ok s0 -> chain_ok H -> apply_puts (ledger s0 H) (revert_all s0 H canon) = ledger s0 (kept canon H).
Proof.
  intros Hs Hc. induction H as [|t H IH]; [done|]. pose proof (chain_cons _ _ Hc) as (Hok & Hn & Hc'). cbn [revert_all]. case_decide as Hh.
  - destruct (below_all s0 t H canon Hn Hh) as [E1 E2]. unfold kept. rewrite filter_cons_True by done. fold (kept canon H). by rewrite E1, E2.
  - rewrite apply_puts_app, undo_step by done. unfold kept. rewrite filter_cons_False by done. by apply IH.
Qed.

(** ** The journal in the database *)

Fixpoint all_undo (s0 : kvs) (H : list utx) : list (bytes * bytes) :=
  match H with [] => [] | t :: H => undo_puts (ledger s0 H) t ++ all_undo s0 H end.

Lemma snapshot_value_alive k v : qrxdb_is_tombstone (snapshot_value k v) = false.
Proof. unfold qrxdb_is_tombstone. apply bool_decide_eq_false. by destruct v. Qed.
Lemma undo_puts_alive s t kv : utx_ok t -> kv ∈ undo_puts s t -> qrxdb_is_tombstone kv.2 = false.
Proof.
  intros Hok. unfold undo_puts. rewrite elem_of_app, list_elem_of_singleton. intros [Hin| ->]; [|cbn [snd]; rewrite meta_eq by done; by apply bool_decide_eq_false].
  apply snapshots_elem in Hin as (j & k & _ & ->). apply snapshot_value_alive.
Qed.
Lemma all_undo_gens s0 H k : Forall utx_ok H -> k ∈ (all_undo s0 H).*1 -> exists t, t ∈ H /\ journal_key t k.
Proof.
  intros Hok. induction Hok as [|t H Ht _ IH]; cbn [all_undo]; [intros []%not_elem_of_nil|]. rewrite fmap_app, elem_of_app. intros [Hin|Hin].
  - exists t. split; [apply list_elem_of_here|by eapply undo_puts_journal].
  - destruct (IH Hin) as (t' & Ht' & Hk). exists t'. split; [by apply list_elem_of_further|done].
Qed.
Lemma all_undo_nodup s0 H : chain_ok H -> NoDup (all_undo s0 H).*1.
Proof.
  induction H as [|t H IH]; intros Hc; cbn [all_undo]; [constructor|]. pose proof (chain_cons _ _ Hc) as (Hok & Hn & Hc'). rewrite fmap_app. apply NoDup_app.
  split_and!; [by apply undo_puts_nodup| |by apply IH]. intros k Hk Hin. apply undo_puts_journal in Hk; [|done]. destruct Hc' as [Hoks _].
  apply all_undo_gens in Hin as (t' & Ht' & Hk'); [|done]. rewrite Forall_forall in Hn, Hoks. destruct (Hn _ Ht') as [Hg _].
  pose proof (journal_key_gen t t' k Hok (Hoks _ Ht') Hk Hk'). lia.
Qed.
(** What is under the prefix of the journal. *)
Lemma ledger_journal s0 H k v : start_ok s0 -> chain_ok H -> is_undo k = true -> ledger s0 H !! k = Some v <-> (k, v) ∈ all_undo s0 H.
Proof.
  intros Hs Hc Hk. induction H as [|t H IH]; cbn [ledger all_undo].
  { split; [|by intros []%not_elem_of_nil]. intros E. apply Hs in E as [Hu _]. congruence. }
  pose proof (chain_cons _ _ Hc) as (Hok & Hn & Hc'). specialize (IH Hc'). rewrite elem_of_app, apply_puts_app. set (s := ledger s0 H) in *.
  destruct (decide (k ∈ (undo_puts s t).*1)) as [Hin|Hin].
  - pose proof Hin as (kv & Ek & Hkv)%list_elem_of_fmap. pose proof (undo_puts_journal s t k Hok Hin) as Hj.
    rewrite (apply_puts_in _ _ k kv.2), (undo_puts_alive s t kv) by (done || by apply undo_puts_nodup || by subst k; destruct kv).
    assert ((k, v) ∉ all_undo s0 H) as Hno by (rewrite <- IH; unfold s; by rewrite (ledger_fresh s0 H t k)).
    split; [intros [= <-]; left; subst k; by destruct kv|]. intros [Hv|Hv]; [|done]. f_equal.
    assert (NoDup (undo_puts s t).*1) as Hd by by apply undo_puts_nodup.
    assert (list_to_map (M := kvs) (undo_puts s t) !! k = Some kv.2) as E1 by (apply elem_of_list_to_map; [done|]; subst k; by destruct kv).
    assert (list_to_map (M := kvs) (undo_puts s t) !! k = Some v) as E2 by (by apply elem_of_list_to_map). congruence.
  - rewrite apply_puts_notin by done. rewrite apply_puts_notin by (intros Hp; apply ut_puts_plain in Hp; [congruence|done]). fold s in IH. rewrite IH.
    split; [tauto|]. intros [Hv|Hv]; [|done]. destruct Hin. apply list_elem_of_fmap. by exists (k, v).
Qed.

(** ** Reading the journal *)

Definition journal_entry (kv : bytes * bytes) : option QrxPoucTxUndoEntry :=
  if strstr (cstr kv.1) (cs ":snapshot:") then None else parse_meta (cstr kv.2).
Definition entry_ok (e : QrxPoucTxUndoEntry) : Prop :=
  safe_token (un_tx_type e) = true /\ safe_token (un_txid e) = true /\ un_apply_height e <> 0 /\ un_apply_generation e <> 0 /\ un_snapshot_count e <> 0.

Lemma collect_entry ctx k v : (forall e, journal_entry (k, v) = Some e -> entry_ok e) -> collect_meta ctx k v =
  match journal_entry (k, v) with
  | None => (ctx, 0)
  | Some e => if decide (QRX_POUC_TX_UNDO_MAX_REVERT <= blen ctx) then (ctx, -1) else (ctx ++ [e], 0)
  end.
Proof.
  unfold journal_entry, collect_meta. cbn [fst snd]. destruct (strstr (cstr k) _); [done|]. destruct (parse_meta (cstr v)) as [e|]; [|done].
  intros Hok. destruct (Hok e eq_refl) as (H1 & H2 & H3 & H4 & H5). rewrite decide_False; [done|]. rewrite H1, H2. by intros [?|[?|[?|[?|?]]]].
Qed.
Lemma scan_collect P ctx : Forall (fun kv => forall e, journal_entry kv = Some e -> entry_ok e) P ->
  if decide (blen ctx + blen (omap journal_entry P) <= QRX_POUC_TX_UNDO_MAX_REVERT) then scan_pairs collect_meta P ctx = (ctx ++ omap journal_entry P, 0)
  else blen ctx <= QRX_POUC_TX_UNDO_MAX_REVERT -> (scan_pairs collect_meta P ctx).2 = -1.
Proof.
  intros HP. revert ctx. induction HP as [|[k v] P Hkv _ IH]; intros ctx; cbn [omap list_omap scan_pairs].
  { rewrite blen_nil. case_decide; [by rewrite app_nil_r|lia]. }
  rewrite (collect_entry ctx k v Hkv). destruct (journal_entry (k, v)) as [e|]; [|apply IH].
  rewrite blen_cons. pose proof (blen_nonneg (omap journal_entry P)) as H0. specialize (IH (ctx ++ [e])). rewrite blen_app, <- app_assoc in IH. cbn [app] in IH.
  change (blen [e]) with 1 in IH. set (n := blen (omap journal_entry P)) in *.
  destruct (decide (QRX_POUC_TX_UNDO_MAX_REVERT <= blen ctx)) as [Hf|Hf]; cbn match.
  - rewrite decide_False by lia. intros _. done.
  - destruct (decide (blen ctx + (1 + n) <= QRX_POUC_TX_UNDO_MAX_REVERT)); [rewrite decide_True in IH by lia|rewrite decide_False in IH by lia]; [done|].
    intros _. apply IH. lia.
Qed.

(** The entries in the journal are those of the transactions. *)
Lemma omap_none {A B} (f : A -> option B) l : Forall (fun x => f x = None) l -> omap f l = [].
Proof. induction 1 as [|x l Hx _ IH]; [done|]. cbn. by rewrite Hx. Qed.
Lemma undo_puts_entry s t : utx_ok t -> omap journal_entry (undo_puts s t) = [ut_entry t].
Proof.
  intros Hok. unfold undo_puts. rewrite omap_app, omap_none.
  - cbn [app omap list_omap]. unfold journal_entry. cbn [fst snd]. rewrite cstr_no_nul by (apply (journal_key_ok t); [done|by left]).
    by rewrite base_not_snapshot, meta_parsed.
  - apply Forall_forall. intros kv (j & k & Hj & ->)%snapshots_elem. unfold journal_entry. cbn [fst].
    rewrite cstr_no_nul by (apply (journal_key_ok t); [done|right; eexists; split; [|done]; apply lookup_lt_Some in Hj; by apply (key_index t)]).
    rewrite skey_eq by done. by rewrite strstr_app.
Qed.
Lemma all_undo_entries s0 H : Forall utx_ok H -> omap journal_entry (all_undo s0 H) = ut_entry <$> H.
Proof. induction 1 as [|t H Ht _ IH]; [done|]. cbn [all_undo]. by rewrite omap_app, undo_puts_entry, IH. Qed.
Lemma ut_entry_ok t : utx_ok t -> entry_ok (ut_entry t).
Proof.
  intros Hok. pose proof (uo_keys _ Hok) as Hk. cbv zeta in Hk. split_and!; cbn [ut_entry un_tx_type un_txid un_apply_height un_apply_generation un_snapshot_count];
    [apply Hok|apply id_safe, Hok|apply Hok|apply Hok|unfold ut_keys; lia].
Qed.

#[export] Instance cmp_desc_total : Total cmp_desc.
Proof.
  intros a b. unfold cmp_desc. destruct (decide (cmp_key (un_txid b) (un_txid a) <= 0)) as [H|H]; [lia|].
  assert (cmp_key (un_txid a) (un_txid b) <= 0) by (apply cmp_key_sym; lia). lia.
Qed.
#[export] Instance cmp_desc_trans : Transitive cmp_desc.
Proof.
  intros a b c. unfold cmp_desc. intros [H1|[E1 K1]] [H2|[E2 K2]]; [left; lia|left; lia|left; lia|right]. split; [congruence|]. by apply (cmp_key_trans _ (un_txid b)).
Qed.

Lemma entries_sorted H es : chain_ok H -> es ≡ₚ ut_entry <$> H -> merge_sort cmp_desc es = ut_entry <$> H.
Proof.
  intros [_ Hs] Hp. apply (StronglySorted_unique_strong cmp_desc); [|apply (StronglySorted_merge_sort _)| |by rewrite merge_sort_Permutation].
  - intros a b Ha Hb. rewrite merge_sort_Permutation, Hp in Ha. intros H1 H2. apply list_elem_of_fmap in Ha as (t & -> & Ht), Hb as (t' & -> & Ht'). f_equal.
    assert (ut_gen t = ut_gen t') as E by (unfold cmp_desc in *; cbn in *; lia). clear Hp H1 H2. induction Hs as [|t0 H Hs IH Hn]; [set_solver|].
    rewrite Forall_forall in Hn. apply elem_of_cons in Ht as [->|Ht], Ht' as [->|Ht']; [done|destruct (Hn _ Ht'); lia|destruct (Hn _ Ht); lia|by apply IH].
  - clear Hp. induction Hs as [|t H Hs IH Hn]; [constructor|]. rewrite fmap_cons. constructor; [done|]. apply Forall_fmap. eapply Forall_impl; [exact Hn|].
    intros t' [Hg _]. left. done.
Qed.

(** ** The batch of a rollback *)

Lemma cut_bar_app w r : forallb (fun c => negb (is_bar c)) w = true -> cut_bar (w ++ x7c :: r) = Some (w, r).
Proof.
  induction w as [|c w IH]; intros H; [done|]. cbn in H. apply andb_prop in H as [Hc H]. cbn [cut_bar app]. destruct (is_bar c); [done|]. by rewrite IH.
Qed.
Lemma hex_no_bar d : forallb (fun c => negb (is_bar c)) (hex d) = true.
Proof.
  induction d as [|b d IH]; [done|]. change (hex (b :: d)) with (hex_digit (Z.shiftr (byte.unsigned b) 4) :: hex_digit (Z.land (byte.unsigned b) 15) :: hex d).
  cbn [forallb]. rewrite IH. by destruct b.
Qed.
Lemma snapshot_value_no_nul k v : no_nul (snapshot_value k v).
Proof.
  unfold snapshot_value. assert (no_nul (cs "|")) by (vm_compute; set_solver). rewrite !no_nul_app.
  split_and!; [by apply digits_no_nul, print_u_all|done|apply hex_no_nul|done|]. destruct v; [apply hex_no_nul|by apply not_elem_of_nil].
Qed.

Lemma restore_snapshot_spec d b base i k v : vw_value <$> qrxdb_get_view d (snapshot_key base i) = Some (snapshot_value k v) ->
  k <> [] -> no_nul k -> (forall w, v = Some w -> no_nul w) ->
  restore_snapshot d b base i = fill b [(k, default qrxdb_tombstone_value v); (snapshot_key base i, qrxdb_tombstone_value)].
Proof.
  intros Hv Hne Hk Hw. unfold restore_snapshot. destruct (qrxdb_get_view d _) as [vw|]; [|done]. apply (inj Some) in Hv. cbn [mbind option_bind].
  rewrite Hv, cstr_no_nul by apply snapshot_value_no_nul. unfold snapshot_value. change (cs "|") with [x7c]. cbn [app].
  rewrite cut_bar_app by by destruct v. cbn [mbind option_bind]. rewrite cut_bar_app by apply hex_no_bar. cbn [mbind option_bind].
  rewrite unhex_hex. cbn [mbind option_bind]. destruct v as [w|].
  - rewrite unhex_hex. cbn [mbind option_bind]. change (u32 (strtoull (print_u 1))) with 1. rewrite decide_False by (intros [?|?]; done). cbn [decide]. by rewrite !cstr_no_nul by auto.
  - cbn [unhex mbind option_bind]. change (u32 (strtoull (print_u 0))) with 0. rewrite decide_False by (intros [?|?]; done). cbn [decide]. by rewrite !cstr_no_nul by auto.
Qed.

Lemma restore_loop_spec d s0 H1 t H2 b n : (forall k, vw_value <$> qrxdb_get_view d k = ledger s0 (H1 ++ t :: H2) !! k) ->
  start_ok s0 -> chain_ok (H1 ++ t :: H2) -> (n <= length (ut_keys t))%nat ->
  restore_loop d b (ut_base t) n = fill b (restores (ledger s0 H2) (ut_base t) (ut_keys t) n).
Proof.
  intros Hd Hs Hc. assert (chain_ok (t :: H2)) as Hc2.
  { clear Hd. induction H1 as [|t' H1 IH]; [done|]. apply IH. by apply chain_cons in Hc as (_ & _ & Hc). }
  pose proof (chain_cons _ _ Hc2) as (Hok & _ & [Hoks _]). revert b. induction n as [|n IH]; intros b Hn; [done|]. cbn [restore_loop restores].
  rewrite fill_app. cbv zeta. set (k := nth n (ut_keys t) []). assert (k ∈ ut_keys t) as Hk by (apply nth_key; lia).
  pose proof (proj1 (ut_keys_elem t k) Hk) as [Hin Hu]. apply list_elem_of_fmap in Hin as (kv & Ekv & Hin).
  pose proof (uo_puts _ Hok) as Hp. rewrite Forall_forall in Hp. destruct (Hp _ Hin) as [[Hne _] _ [Hnn _] _]. rewrite <- Ekv in *.
  rewrite (restore_snapshot_spec _ _ _ _ k (ledger s0 H2 !! k)); [|rewrite Hd|done|done|].
  - destruct (fill b _) as [b1|]; [|done]. cbn [mbind option_bind]. apply IH. lia.
  - assert (journal_key t (snapshot_key (ut_base t) (Z.of_nat n))) as Hj by (right; exists (Z.of_nat n); split; [by apply (key_index t)|done]).
    rewrite (ledger_stays s0 H1 t H2) by done. apply journal_key_ok in Hj as (Hju & _); [|done]. apply (ledger_journal s0 (t :: H2)); [done..|].
    cbn [all_undo]. apply elem_of_app. left. unfold undo_puts. apply elem_of_app. left. apply snapshots_elem. exists n, k. split; [|done].
    unfold k. destruct (lookup_lt_is_Some_2 (ut_keys t) n ltac:(lia)) as [x Hx]. by rewrite (nth_lookup_Some _ _ _ _ Hx).
  - intros w Hw. by destruct (ledger_value s0 H2 k w Hs Hoks Hu Hw) as (_ & Hnw & _).
Qed.

Lemma chain_suffix H1 H2 : chain_ok (H1 ++ H2) -> chain_ok H2.
Proof. induction H1 as [|t H1 IH]; [done|]. intros (_ & _ & Hc)%chain_cons. by apply IH. Qed.

Lemma revert_loop_spec d s0 H1 H2 b b' canon : (forall k, vw_value <$> qrxdb_get_view d k = ledger s0 (H1 ++ H2) !! k) ->
  start_ok s0 -> chain_ok (H1 ++ H2) -> fill b (revert_all s0 H2 canon) = Some b' -> revert_loop d b canon (ut_entry <$> H2) = inr b'.
Proof.
  intros Hd Hs Hc. revert H1 b Hd Hc. induction H2 as [|t H2 IH]; intros H1 b Hd Hc Hf; [by injection Hf as ->|]. cbn [revert_loop fmap list_fmap revert_all] in *.
  change (un_apply_height (ut_entry t)) with (ut_height t). rewrite (cons_middle t H1 H2), app_assoc in Hd, Hc.
  case_decide as Hh; [by apply (IH (H1 ++ [t]))|]. cbn [ut_entry un_apply_generation un_txid un_snapshot_count]. fold (ut_base t). cbv zeta.
  unfold blen. rewrite Nat2Z.id. rewrite <- app_assoc in Hd, Hc. cbn [app] in Hd, Hc. rewrite (restore_loop_spec d s0 H1 t H2) by done.
  unfold revert_puts in Hf. rewrite !fill_app in Hf. destruct (fill b (restores _ _ _ _)) as [b1|]; [|done]. cbn [mbind option_bind] in Hf. rewrite fill_cons in Hf. cbn [fst snd] in Hf.
  unfold qrxdb_batch_delete. destruct (qrxdb_batch_put b1 _ _) as [b2|]; [|done]. cbn [mbind option_bind] in Hf.
  apply (IH (H1 ++ [t])); [by rewrite <- app_assoc|by rewrite <- app_assoc|done].
Qed.

Lemma hex_blen d : blen (hex d) = 2 * blen d.
Proof. unfold blen. rewrite hex_length. lia. Qed.
Lemma tombstone_fits k : k <> [] -> blen k <= QRXDB_MAX_KEY_SIZE -> fits (k, qrxdb_tombstone_value).
Proof. intros Hne Hk. split_and!; [done|done|]. by vm_compute. Qed.
Lemma revert_puts_fits s0 t H : start_ok s0 -> chain_ok (t :: H) -> Forall fits (revert_puts (ledger s0 H) t).
Proof.
  intros Hs Hc. pose proof (chain_cons _ _ Hc) as (Hok & _ & [Hoks _]). apply Forall_forall. intros kv. unfold revert_puts.
  rewrite elem_of_app, list_elem_of_singleton, restores_elem. assert (forall k, journal_key t k -> fits (k, qrxdb_tombstone_value)) as Hj
    by (intros k Hk; apply journal_key_ok in Hk as (_ & Hne & Hl & _); [by apply tombstone_fits|done]).
  intros [(j & Hj' & [-> | ->])| ->]; [|apply Hj; right; exists (Z.of_nat j); split; [by apply (key_index t)|done]|apply Hj; by left].
  apply nth_key, ut_keys_elem in Hj' as [Hin Hu]. set (k := nth j (ut_keys t) []) in *. apply list_elem_of_fmap in Hin as (kv & Ekv & Hin).
  pose proof (uo_puts _ Hok) as Hp. rewrite Forall_forall in Hp. destruct (Hp _ Hin) as [[Hne Hk] _ _ _]. rewrite <- Ekv in *.
  destruct (ledger s0 H !! k) as [v|] eqn:E; [|by apply tombstone_fits]. destruct (ledger_value s0 H k v Hs Hoks Hu E) as (Hv & _). done.
Qed.
Lemma revert_all_fits s0 H canon : start_ok s0 -> chain_ok H -> Forall fits (revert_all s0 H canon).
Proof.
  intros Hs Hc. induction H as [|t H IH]; [constructor|]. pose proof (chain_cons _ _ Hc) as (_ & _ & Hc'). cbn [revert_all].
  case_decide; [by apply IH|]. apply Forall_app. split; [by apply revert_puts_fits|by apply IH].
Qed.

Definition above (canon : Z) (H : list utx) : list utx := filter (fun t => canon < ut_height t) H.
Lemma above_entries canon H : filter (fun e => canon < un_apply_height e) (ut_entry <$> H) = ut_entry <$> above canon H.
Proof.
  unfold above. induction H as [|t H IH]; [done|]. rewrite fmap_cons, !filter_cons. change (un_apply_height (ut_entry t)) with (ut_height t).
  case_decide; [by rewrite fmap_cons, IH|done].
Qed.
Lemma above_nil s0 canon H : above canon H = [] -> kept canon H = H /\ revert_all s0 H canon = [].
Proof.
  unfold above, kept. induction H as [|t H IH]; [done|]. rewrite !filter_cons. cbn [revert_all]. case_decide; [done|]. intros E. destruct (IH E) as [-> ->].
  by rewrite !decide_True by lia.
Qed.
Lemma revert_all_nonempty s0 canon H : above canon H <> [] -> revert_all s0 H canon <> [].
Proof.
  unfold above. induction H as [|t H IH]; [done|]. rewrite filter_cons. cbn [revert_all]. case_decide as Hh; [rewrite decide_False by lia; intros _|rewrite decide_True by lia; done].
  unfold revert_puts. by destruct (restores _ _ _ _).
Qed.

Section database.
Variable sha3_512 : bytes -> bytes.

(** What a scan of the journal gives. *)
Lemma scan_journal d s0 H : contents sha3_512 d (ledger s0 H) -> start_ok s0 -> chain_ok H ->
  if decide (blen H <= QRX_POUC_TX_UNDO_MAX_REVERT) then exists es, qrxdb_scan_prefix collect_meta d QRX_POUC_TX_UNDO_PREFIX [] = (es, 0) /\ es ≡ₚ ut_entry <$> H
  else (qrxdb_scan_prefix collect_meta d QRX_POUC_TX_UNDO_PREFIX []).2 = -1.
Proof.
  intros Hd Hs Hc. destruct (scan_contents collect_meta sha3_512 d _ QRX_POUC_TX_UNDO_PREFIX [] Hd) as (P & Hnd & HP & ->).
  assert (P ≡ₚ all_undo s0 H) as Hperm.
  { apply NoDup_Permutation; [by apply (NoDup_fmap_1 fst)|by apply (NoDup_fmap_1 fst), all_undo_nodup|]. intros [k v]. rewrite HP. split.
    - intros [E Hp]. by apply (proj1 (ledger_journal s0 H k v Hs Hc Hp)).
    - intros Hin. assert (is_undo k = true) as Hu.
      { destruct (all_undo_gens s0 H k) as (t & Ht & Hk); [apply Hc|by apply list_elem_of_fmap; exists (k, v)|]. pose proof (proj1 Hc) as Hoks.
        rewrite Forall_forall in Hoks. by apply (journal_key_ok t k (Hoks _ Ht)) in Hk as [Hk _]. }
      split; [by apply (proj2 (ledger_journal s0 H k v Hs Hc Hu))|done]. }
  assert (omap journal_entry P ≡ₚ ut_entry <$> H) as Ho by (rewrite Hperm, all_undo_entries; [done|apply Hc]).
  assert (blen (omap journal_entry P) = blen H) as Hl by (unfold blen; rewrite Ho, length_fmap; done).
  assert (Forall (fun kv => forall e, journal_entry kv = Some e -> entry_ok e) P) as Hall.
  { apply Forall_forall. intros kv Hkv e He. assert (e ∈ omap journal_entry P) as Hin by (apply list_elem_of_omap; eauto). rewrite Ho in Hin.
    apply list_elem_of_fmap in Hin as (t & -> & Ht). destruct Hc as [Hoks _]. rewrite Forall_forall in Hoks. by apply ut_entry_ok, Hoks. }
  pose proof (scan_collect P [] Hall) as Hscan. rewrite Hl, blen_nil in Hscan. change (0 + blen H) with (blen H) in Hscan.
  case_decide; [eexists; by rewrite Hscan|]. by apply Hscan.
Qed.

Lemma contents_begin d s : contents sha3_512 d s ->
  exists b0, qrxdb_batch_begin d = Some b0 /\ bt_active b0 = true /\ bt_entries b0 = [] /\ bt_generation b0 = generation d +64 1.
Proof.
  intros (segs & id & ts & Hok & _). unfold qrxdb_batch_begin. rewrite decide_False by apply Hok. by eexists.
Qed.

Lemma revert_batch_spec d s0 H canon : contents sha3_512 d (ledger s0 H) -> start_ok s0 -> chain_ok H -> blen H <= QRX_POUC_TX_UNDO_MAX_REVERT ->
  if decide (above canon H = []) then revert_batch d canon = inr ([], None)
  else exists b0 b, qrxdb_batch_begin d = Some b0 /\ fill b0 (revert_all s0 H canon) = Some b /\ revert_batch d canon = inr (ut_entry <$> above canon H, Some b).
Proof.
  intros Hd Hs Hc Hn. pose proof (scan_journal d s0 H Hd Hs Hc) as Hscan. rewrite decide_True in Hscan by done. destruct Hscan as (es & Hscan & Hp).
  unfold revert_batch. rewrite Hscan. rewrite (decide_False (P := 0 <> 0)) by (intros E; by apply E). cbv zeta.
  rewrite (entries_sorted H es Hc Hp), above_entries. case_decide as Ha; [by rewrite Ha|]. rewrite decide_False by (by intros E%fmap_nil_inv).
  destruct (contents_begin d _ Hd) as (b0 & Hb & Hact & _). rewrite Hb. exists b0.
  destruct (fill_fits b0 (revert_all s0 H canon) (revert_all_fits s0 H canon Hs Hc) Hact) as (b & Hf & _). exists b. split_and!; [done|done|].
  by rewrite (revert_loop_spec d s0 [] H b0 b canon (sv_get _ _ _ (contents_serves _ _ _ Hd)) Hs Hc Hf).
Qed.

(** ** Histories *)

Context (s0 : kvs).

(** Transactions that are staged and committed, and rollbacks, in any order; a
    later transaction is not at a lower height. *)
Inductive history : QrxDB -> list utx -> Prop :=
| history_open db : contents sha3_512 db s0 -> history db []
| history_apply db H t b0 b b' db' : history db H ->
    in_u64 (ut_height t) -> id_ok (ut_id t) -> type_ok (ut_type t) -> Forall put_ok (ut_puts t) ->
    Forall (fun t' => ut_height t' <= ut_height t) H ->
    qrxdb_batch_begin db = Some b0 -> fill b0 (ut_puts t) = Some b -> ut_gen t = bt_generation b ->
    qrx_pouc_tx_undo_stage db b (ut_id t) (ut_type t) (ut_height t) = (0, b') -> room db b' ->
    qrxdb_batch_commit sha3_512 db b' = (db', 0) -> history db' (t :: H)
| history_revert db H canon db' n : history db H -> (forall es b, revert_batch db canon = inr (es, Some b) -> room db b) ->
    qrx_pouc_tx_undo_revert_above_height sha3_512 db canon = (db', 0, n) -> history db' (kept canon H).

Lemma snapshot_fits s t : utx_ok t -> Forall (fun k => k <> [] /\ blen k <= 4096 /\ default 0 (blen <$> s !! k) <= QRX_POUC_TX_UNDO_MAX_SNAPSHOT_VALUE) (ut_keys t) ->
  Forall fits (undo_puts s t).
Proof.
  intros Hok Hk. apply Forall_forall. intros kv Hin. assert (journal_key t kv.1) as Hj by (apply (undo_puts_journal s); [done|apply list_elem_of_fmap; eauto]).
  apply journal_key_ok in Hj as (_ & Hne & Hl & _); [|done]. split_and!; [done|done|]. unfold undo_puts in Hin. rewrite elem_of_app, list_elem_of_singleton in Hin.
  unfold QRXDB_MAX_VALUE_SIZE. destruct Hin as [(j & k & Hj & ->)%snapshots_elem| ->]; cbn [snd].
  - rewrite Forall_forall in Hk. apply list_elem_of_lookup_2, Hk in Hj as (_ & Hlk & Hlv). unfold snapshot_value. rewrite !blen_app, hex_blen.
    unfold QRX_POUC_TX_UNDO_MAX_SNAPSHOT_VALUE in Hlv. change (blen (cs "|")) with 1.
    destruct (s !! k) as [v|]; cbn [fmap option_fmap option_map default from_option] in Hlv; rewrite ?hex_blen; [change (blen (print_u 1)) with 1|change (blen (print_u 0)) with 1; change (blen []) with 0];
      unfold Datatypes.id in *; lia.
  - unfold ut_meta, undo_meta, snprintf_s, blen. rewrite length_take. lia.
Qed.

(** A rollback of a database whose journal is that of [H]. *)
Lemma revert_spec d H canon : contents sha3_512 d (ledger s0 H) -> start_ok s0 -> chain_ok H -> blen H <= QRX_POUC_TX_UNDO_MAX_REVERT ->
  (forall es b, revert_batch d canon = inr (es, Some b) -> room d b) ->
  exists d', qrx_pouc_tx_undo_revert_above_height sha3_512 d canon = (d', 0, blen (above canon H)) /\
    contents sha3_512 d' (ledger s0 (kept canon H)) /\ generation d <= generation d'.
Proof.
  intros Hd Hs Hc Hn Hr. pose proof (revert_batch_spec d s0 H canon Hd Hs Hc Hn) as Hb. unfold qrx_pouc_tx_undo_revert_above_height. case_decide as Ha.
  - rewrite Hb, Ha. destruct (above_nil s0 canon H Ha) as [-> _]. exists d. split_and!; [done|done|lia].
  - destruct Hb as (b0 & b & Hbeg & Hf & Hb). rewrite Hb. specialize (Hr _ _ Hb).
    destruct (commit_room sha3_512 d _ b0 b (revert_all s0 H canon) Hd Hbeg Hf) as (d' & -> & Hd' & Hg); [by apply revert_all_fits|by apply revert_all_nonempty|done|].
    rewrite (decide_False (P := 0 <> 0)) by (intros E; by apply E). exists d'. rewrite undo_all in Hd' by done. split_and!; [|done|lia]. do 2 f_equal. unfold blen. rewrite length_fmap. apply u32_small.
    pose proof (length_filter (fun t => canon < ut_height t) H) as Hl. fold (above canon H) in Hl. unfold QRX_POUC_TX_UNDO_MAX_REVERT, blen in *. word.
Qed.

Lemma begin_generation d s b0 : contents sha3_512 d s -> qrxdb_batch_begin d = Some b0 -> generation d < UINT64_MAX -> bt_generation b0 = generation d + 1 /\ 0 <= generation d.
Proof.
  intros Hd Hb Hg. destruct (contents_begin d s Hd) as (b1 & Hb1 & _ & _ & E). assert (b1 = b0) as -> by congruence.
  destruct Hd as (segs & id & ts & Hok & _). pose proof (do_generation _ _ _ _ _ Hok) as Hr. rewrite E, u64_small by word. split; [done|word].
Qed.

Lemma history_apply_ok db H t b0 b b' db' : start_ok s0 -> contents sha3_512 db (ledger s0 H) -> chain_ok H -> Forall (fun t => ut_gen t <= generation db) H ->
  in_u64 (ut_height t) -> id_ok (ut_id t) -> type_ok (ut_type t) -> Forall put_ok (ut_puts t) -> Forall (fun t' => ut_height t' <= ut_height t) H ->
  qrxdb_batch_begin db = Some b0 -> fill b0 (ut_puts t) = Some b -> ut_gen t = bt_generation b ->
  qrx_pouc_tx_undo_stage db b (ut_id t) (ut_type t) (ut_height t) = (0, b') -> room db b' -> qrxdb_batch_commit sha3_512 db b' = (db', 0) ->
  contents sha3_512 db' (ledger s0 (t :: H)) /\ chain_ok (t :: H) /\ Forall (fun t => ut_gen t <= generation db') (t :: H).
Proof.
  intros Hs Hd Hc Hg Hh Hid Hty Hp Hn Hb Hf Hgen Hst Hr Hcm. assert (Forall fits (ut_puts t)) as Hfit.
  { eapply Forall_impl; [exact Hp|]. intros kv [[Hne Hk] Hv _ _]. done. }
  destruct (contents_begin db _ Hd) as (b1 & Hb1 & Hact & Hent & _). assert (b1 = b0) as -> by congruence.
  destruct (fill_fits b0 (ut_puts t) Hfit Hact) as (b2 & Hf2 & _ & Hg2 & He2). assert (b2 = b) as -> by congruence. rewrite Hent in He2. cbn [fmap list_fmap app] in He2.
  destruct (begin_generation db _ b0 Hd Hb (rm_generation _ _ Hr)) as [Hbg Hdg].
  assert (ut_height t <> 0) as Hh0.
  { intros E. unfold qrx_pouc_tx_undo_stage in Hst. rewrite decide_True in Hst by tauto. done. }
  destruct (stage_spec db (ledger s0 H) b b' t) as (Hfu & Hnk & Hks); [apply contents_serves in Hd; apply Hd| |congruence|done|].
  { rewrite <- He2, <- list_fmap_compose. done. }
  assert (utx_ok t) as Hok.
  { split; try done. rewrite Hgen, Hg2, Hbg. pose proof (rm_generation _ _ Hr). split; [word|lia]. }
  destruct (commit_room sha3_512 db _ b0 b' (ut_puts t ++ undo_puts (ledger s0 H) t) Hd Hb) as (db2 & Hcm2 & Hd2 & Hg3).
  { by rewrite fill_app, Hf. }
  { apply Forall_app. split; [done|by apply snapshot_fits]. }
  { unfold undo_puts. by destruct (ut_puts t), (snapshots _ _ _ _). }
  { done. }
  assert (db2 = db') as -> by congruence. split; [done|]. split.
  - destruct Hc as [Hoks Hsort]. split; [by constructor|]. constructor; [done|]. rewrite Forall_forall in Hg, Hn. apply Forall_forall. intros t' Ht'.
    specialize (Hg _ Ht'). specialize (Hn _ Ht'). split; [lia|done].
  - constructor; [lia|]. eapply Forall_impl; [exact Hg|]. cbn. lia.
Qed.

Lemma history_ok db H : start_ok s0 -> history db H ->
  contents sha3_512 db (ledger s0 H) /\ chain_ok H /\ Forall (fun t => ut_gen t <= generation db) H.
Proof.
  intros Hs Hh. induction Hh as [db Hd|db H t b0 b b' db' _ (Hd & Hc & Hg) Hh Hid Hty Hp Hn Hb Hf Hgen Hst Hr Hcm|db H canon db' n _ (Hd & Hc & Hg) Hr Hv].
  - split; [done|]. split; [by split; constructor|constructor].
  - by apply (history_apply_ok db H t b0 b b' db').
  - assert (blen H <= QRX_POUC_TX_UNDO_MAX_REVERT) as Hn.
    { destruct (decide (blen H <= QRX_POUC_TX_UNDO_MAX_REVERT)); [done|]. pose proof (scan_journal db s0 H Hd Hs Hc) as Hsc. rewrite decide_False in Hsc by done.
      unfold qrx_pouc_tx_undo_revert_above_height, revert_batch in Hv. destruct (qrxdb_scan_prefix _ _ _ _) as [es rc]. cbn in Hsc. subst rc. done. }
    destruct (revert_spec db H canon Hd Hs Hc Hn Hr) as (d' & Hv' & Hd' & Hg'). assert (d' = db') as -> by congruence. split; [done|].
    assert (kept canon H ⊆ H) as Hsub by (intros x; unfold kept; rewrite list_elem_of_filter; tauto). split.
    + destruct Hc as [Hoks Hsort]. split; [apply Forall_forall; intros x Hx; rewrite Forall_forall in Hoks; by apply Hoks, Hsub|]. by apply kept_sorted.
    + apply Forall_forall. intros x Hx. rewrite Forall_forall in Hg. apply Hsub, Hg in Hx. lia.
Qed.
End database.

(** The state that the transactions [H], newest first, leave without a journal. *)
Definition replay (s0 : kvs) (H : list utx) : kvs := foldr (fun t s => apply_puts s (ut_puts t)) s0 H.

(** The journal of canonical transactions is never shortened: after more than
    4096 of them no rollback succeeds, whatever the height. *)
Lemma full_journal_blocks_rollback sha3_512 s0 db H canon : start_ok s0 -> history sha3_512 s0 db H -> QRX_POUC_TX_UNDO_MAX_REVERT < blen H ->
  qrx_pouc_tx_undo_revert_above_height sha3_512 db canon = (db, -2, 0).
Proof.
  intros Hs Hh Hn. destruct (history_ok sha3_512 s0 db H Hs Hh) as (Hd & Hc & _). pose proof (scan_journal sha3_512 db s0 H Hd Hs Hc) as Hsc.
  rewrite decide_False in Hsc by lia. unfold qrx_pouc_tx_undo_revert_above_height, revert_batch. destruct (qrxdb_scan_prefix _ _ _ _) as [es rc]. cbn in Hsc. by subst rc.
Qed.

(** C37: rolling back.  After any sequence of compute transactions that were
    staged with their snapshots and committed, and of earlier rollbacks: when
    the journal holds more than 4096 of them, a rollback answers -2 and changes
    nothing, whatever the height.  When it holds at most 4096, and the batch of
    the rollback fits in the log segment, a rollback to a height answers 0 and
    the number of transactions above it; then every key outside the journal has
    the value that the transactions up to the height alone give it, and the
    journal is theirs. *)
Theorem rollback_restores sha3_512 s0 db H canon : start_ok s0 -> history sha3_512 s0 db H ->
  (forall es b, revert_batch db canon = inr (es, Some b) -> room db b) ->
  if decide (blen H <= QRX_POUC_TX_UNDO_MAX_REVERT)
  then exists db', qrx_pouc_tx_undo_revert_above_height sha3_512 db canon = (db', 0, blen (above canon H)) /\ history sha3_512 s0 db' (kept canon H) /\
    serves sha3_512 db' (ledger s0 (kept canon H)) /\
    forall k, is_undo k = false -> vw_value <$> qrxdb_get_view db' k = replay s0 (kept canon H) !! k
  else qrx_pouc_tx_undo_revert_above_height sha3_512 db canon = (db, -2, 0).
Proof.
  intros Hs Hh Hr. case_decide as Hn; [|by apply (full_journal_blocks_rollback _ s0 _ H); [..|lia]].
  destruct (history_ok sha3_512 s0 db H Hs Hh) as (Hd & Hc & Hg).
  destruct (revert_spec sha3_512 s0 db H canon Hd Hs Hc Hn Hr) as (db' & Hv & Hd' & _). exists db'. pose proof (contents_serves _ _ _ Hd') as Hsv.
  split_and!; [done|by eapply history_revert|done|]. intros k Hk. rewrite (sv_get _ _ _ Hsv). apply ledger_plain; [|done].
  apply Forall_forall. intros x [_ Hx]%list_elem_of_filter. destruct Hc as [Hoks _]. rewrite Forall_forall in Hoks. by apply Hoks.
Qed.

(** ** A run

    Two transactions at the heights 5 and 6, and a rollback to 5. *)

Definition rb_txn (gen h : Z) (id : bytes) (puts : list (bytes * bytes)) : utx := mkUtx h gen id (cs "COMPUTE_VERIFY") puts.
Definition rb_t1 : utx := rb_txn 1 5 (cs "a1") [(cs "acct:balance:a", cs "10")].
Definition rb_t2 : utx := rb_txn 2 6 (cs "b2") [(cs "acct:balance:a", cs "7"); (cs "pool", cs "3"); (cs "pool", cs "4")].
Definition rb_stage (db : QrxDB) (t : utx) : QrxDBBatch := (qrx_pouc_tx_undo_stage db (ex_batch db (ut_puts t)) (ut_id t) (ut_type t) (ut_height t)).2.
Definition rb_apply (db : QrxDB) (t : utx) : QrxDB := (qrxdb_batch_commit example_sha db (rb_stage db t)).1.
Definition rb_db1 : QrxDB := rb_apply ex_db0 rb_t1.
Definition rb_db2 : QrxDB := rb_apply rb_db1 rb_t2.

Ltac prove_room := split; vm_compute; (reflexivity || discriminate).
Ltac prove_txn :=
  repeat match goal with
  | |- id_ok _ => split_and!; [discriminate|cbn; lia|repeat constructor; discriminate]
  | |- type_ok _ => split_and!; [cbn; lia|vm_compute; set_solver|reflexivity]
  | |- put_ok _ => split; [split; [discriminate|by vm_compute]|by vm_compute|split; apply (bool_decide_eq_true_1 _); reflexivity|reflexivity]
  | |- Forall _ _ => apply List.Forall_nil || apply List.Forall_cons
  | |- _ <= _ => by vm_compute
  end.

Lemma rb_start : start_ok ∅.
Proof. apply map_Forall_empty. Qed.
Lemma rb_history : history example_sha ∅ rb_db2 [rb_t2; rb_t1].
Proof.
  assert (history example_sha ∅ rb_db1 [rb_t1]) as H1.
  { apply (history_apply example_sha ∅ ex_db0 [] rb_t1 (default qrxdb_batch_abort (qrxdb_batch_begin ex_db0)) (ex_batch ex_db0 (ut_puts rb_t1)) (rb_stage ex_db0 rb_t1));
      [apply history_open, ex_db0_contents|by vm_compute|prove_txn..|vm_compute; reflexivity|vm_compute; reflexivity|vm_compute; reflexivity|vm_compute; reflexivity|prove_room|vm_compute; reflexivity]. }
  apply (history_apply example_sha ∅ rb_db1 [rb_t1] rb_t2 (default qrxdb_batch_abort (qrxdb_batch_begin rb_db1)) (ex_batch rb_db1 (ut_puts rb_t2)) (rb_stage rb_db1 rb_t2));
    [done|by vm_compute|prove_txn..|vm_compute; reflexivity|vm_compute; reflexivity|vm_compute; reflexivity|vm_compute; reflexivity|prove_room|vm_compute; reflexivity].
Qed.

Definition rb_batch : QrxDBBatch := match revert_batch rb_db2 5 with inr (_, Some b) => b | _ => qrxdb_batch_abort end.
Lemma rb_room es b : revert_batch rb_db2 5 = inr (es, Some b) -> room rb_db2 b.
Proof. intros Hb. assert (b = rb_batch) as -> by (unfold rb_batch; by rewrite Hb). clear Hb. prove_room. Qed.

Example rollback_restores_witness :
  exists db', qrx_pouc_tx_undo_revert_above_height example_sha rb_db2 5 = (db', 0, 1) /\
    vw_value <$> qrxdb_get_view db' (cs "acct:balance:a") = Some (cs "10") /\ vw_value <$> qrxdb_get_view db' (cs "pool") = None.
Proof.
  pose proof (rollback_restores example_sha ∅ rb_db2 [rb_t2; rb_t1] 5 rb_start rb_history rb_room) as Hb.
  match type of Hb with if decide ?P then _ else _ => destruct (decide P) as [_|Hn]; [|exfalso; apply Hn; by vm_compute] end.
  destruct Hb as (db' & Hv & _ & _ & Hget). exists db'. split_and!; [by rewrite Hv|by rewrite Hget|by rewrite Hget].
Defined.
