(* ===== verification/Pouc.v ===== *)
(** * Proofs of useful computation: evidence, settlement, verifiers
      (src/qrx-core/src/compute/qrx_compute_adversarial.c, qrx_pouc_mainnet.c,
      qrx_pouc_consensus.c, qrx_pouc_verifier.c)

    Evidence against a provider becomes a verdict; a receipt, its verification
    and a verdict become a decision on the escrow of a job, and the decision
    credits that empty it.  Verifiers are drawn by stake from a block hash.  A
    function that answers a code and fills a structure answers a sum: the code
    of the failure or the structure.  Values hashed from memory have the low
    byte first.  Prefixes: [ev_] evidence, [vd_] verdict, [rn_] readiness,
    [cb_] binding, [sr_] request, [sd_] decision, [rg_] guard, [ce_] credits,
    [ca_] candidate, [vs_] selection. *)

From stdpp Require Import gmap sorting.
From S2P Require Import Prelude Format Spv DbStore Aura AuraAgent Compute ComputeMarket.

(** ** Evidence *)

Definition QRX_COMPUTE_ADVERSARIAL_VERSION : Z := 1.
Definition QRX_COMPUTE_ADVERSARIAL_ID_MAX : nat := 96.
Definition QRX_ADV_FAKE_COMPUTE : Z := 1.
Definition QRX_ADV_RESULT_MISMATCH : Z := 2.
Definition QRX_ADV_MODEL_RUNTIME_MISMATCH : Z := 3.
Definition QRX_ADV_VERIFIER_COLLUSION : Z := 4.
Definition QRX_ADV_SYBIL_PROVIDER_SET : Z := 5.
Definition QRX_ADV_CACHE_FRAUD : Z := 6.
Definition QRX_ADV_SLOW_WORKER : Z := 7.
Definition QRX_ADV_QUEUE_STARVATION : Z := 8.
Definition QRX_ADV_WAN_PARTITION : Z := 9.
Definition QRX_ADV_POD_FAILURE : Z := 10.
Definition QRX_ADV_SEVERITY_INFO : Z := 1.
Definition QRX_ADV_SEVERITY_MEDIUM : Z := 3.
Definition QRX_ADV_SEVERITY_HIGH : Z := 4.
Definition QRX_ADV_SEVERITY_CRITICAL : Z := 5.
Definition QRX_ADV_ACTION_CHALLENGE : Z := 1.
Definition QRX_ADV_ACTION_REJECT_RESULT : Z := 2.
Definition QRX_ADV_ACTION_FREEZE_PAYOUT : Z := 4.
Definition QRX_ADV_ACTION_QUARANTINE : Z := 8.
Definition QRX_ADV_ACTION_SLASH_CANDIDATE : Z := 16.
Definition QRX_ADV_ACTION_REROUTE : Z := 32.
Definition QRX_ADV_ACTION_DRAIN_PROVIDER : Z := 64.
Definition QRX_ADV_ACTION_RETRY_REDUNDANT : Z := 128.
Definition QRX_RESOURCE_PROVIDER_ID_MAX : nat := 128.

Record QrxComputeAdversarialEvidence := mkEvidence {
  ev_version : Z; ev_scenario_id : bytes; ev_attack : Z; ev_provider_id : bytes; ev_expected_model_commitment : bytes; ev_observed_model_commitment : bytes;
  ev_expected_runtime : bytes; ev_observed_runtime : bytes; ev_expected_result_commitment : bytes; ev_observed_result_commitment : bytes;
  ev_claimed_compute_atoms : Z; ev_measured_compute_atoms : Z; ev_verifier_count : Z; ev_matching_verifiers : Z; ev_distinct_operator_count : Z;
  ev_distinct_provider_count : Z; ev_timeout_bps : Z; ev_queue_wait_bps : Z; ev_cache_hit_claim_bps : Z; ev_cache_hit_verified_bps : Z;
  ev_unavailable_peer_bps : Z; ev_unavailable_pod_bps : Z
}.
Record QrxComputeAdversarialVerdict := mkVerdict {
  vd_version : Z; vd_attack : Z; vd_severity : Z; vd_action_mask : Z; vd_risk_bps : Z; vd_challenge_bps : Z; vd_detected : Z; vd_block_new_work : Z;
  vd_payout_allowed : Z; vd_consensus_slash_applied : Z; vd_evidence_commitment : bytes
}.

Definition nz (s : bytes) (n : nat) : bool := bounded_nonempty s (S n).
Definition is_hex64 (s : bytes) : bool := if decide (blen (cstr s) <> 64) then false else forallb is_hex_lower (cstr s).
Definition hex64_or_none (s : bytes) : bool := if decide (cstr s = []) then true else is_hex64 s.
Definition adv_clamp_bps (v : Z) : Z := if decide (v > 10000) then 10000 else v.

Definition evidence_attack_code (e : QrxComputeAdversarialEvidence) : Z :=
  if decide (ev_attack e = QRX_ADV_FAKE_COMPUTE) then (if decide (ev_claimed_compute_atoms e = 0) then -6 else 0)
  else if decide (ev_attack e = QRX_ADV_RESULT_MISMATCH) then
    (if decide (cstr (ev_expected_result_commitment e) = [] \/ cstr (ev_observed_result_commitment e) = []) then -7 else 0)
  else if decide (ev_attack e = QRX_ADV_MODEL_RUNTIME_MISMATCH) then
    (if decide ((cstr (ev_expected_model_commitment e) = [] \/ cstr (ev_observed_model_commitment e) = []) /\
                (nz (ev_expected_runtime e) (QRX_POUC_MAX_RUNTIME - 1) = false \/ nz (ev_observed_runtime e) (QRX_POUC_MAX_RUNTIME - 1) = false)) then -8 else 0)
  else if decide (ev_attack e = QRX_ADV_VERIFIER_COLLUSION) then (if decide (ev_verifier_count e < 2) then -9 else 0)
  else if decide (ev_attack e = QRX_ADV_SYBIL_PROVIDER_SET) then (if decide (ev_distinct_provider_count e = 0) then -10 else 0)
  else if decide (ev_attack e = QRX_ADV_CACHE_FRAUD) then 0
  else if decide (ev_attack e = QRX_ADV_SLOW_WORKER) then (if decide (ev_timeout_bps e = 0) then -11 else 0)
  else if decide (ev_attack e = QRX_ADV_QUEUE_STARVATION) then (if decide (ev_queue_wait_bps e = 0) then -12 else 0)
  else if decide (ev_attack e = QRX_ADV_WAN_PARTITION) then (if decide (ev_unavailable_peer_bps e = 0) then -13 else 0)
  else if decide (ev_attack e = QRX_ADV_POD_FAILURE) then (if decide (ev_unavailable_pod_bps e = 0) then -14 else 0)
  else -15.
Definition qrx_compute_adversarial_evidence_validate (e : QrxComputeAdversarialEvidence) : Z :=
  if decide (ev_version e <> QRX_COMPUTE_ADVERSARIAL_VERSION \/ nz (ev_scenario_id e) QRX_COMPUTE_ADVERSARIAL_ID_MAX = false \/
             ev_attack e < QRX_ADV_FAKE_COMPUTE \/ ev_attack e > QRX_ADV_POD_FAILURE) then -1
  else if negb (nz (ev_provider_id e) QRX_RESOURCE_PROVIDER_ID_MAX) then -2
  else if negb (hex64_or_none (ev_expected_model_commitment e)) || negb (hex64_or_none (ev_observed_model_commitment e)) ||
          negb (hex64_or_none (ev_expected_result_commitment e)) || negb (hex64_or_none (ev_observed_result_commitment e)) then -3
  else if negb (bps_ok (ev_timeout_bps e)) || negb (bps_ok (ev_queue_wait_bps e)) || negb (bps_ok (ev_cache_hit_claim_bps e)) ||
          negb (bps_ok (ev_cache_hit_verified_bps e)) || negb (bps_ok (ev_unavailable_peer_bps e)) || negb (bps_ok (ev_unavailable_pod_bps e)) then -4
  else if decide (ev_matching_verifiers e > ev_verifier_count e) then -5
  else evidence_attack_code e.

(** [adv_field]: eight bytes of length and the bytes. *)
Definition adv_field (p : bytes) : bytes := le_split 8 (blen p) ++ p.
Definition adv_u32 (v : Z) : bytes := adv_field (le_split 4 v).
Definition adv_u64 (v : Z) : bytes := adv_field (le_split 8 v).
Definition evidence_preimage (e : QrxComputeAdversarialEvidence) : bytes :=
  adv_field (cs "QRX/COMPUTE/ADVERSARIAL-EVIDENCE/V1") ++ adv_field (cstr (ev_scenario_id e)) ++ adv_u32 (ev_attack e) ++ adv_field (cstr (ev_provider_id e)) ++
  adv_field (cstr (ev_expected_model_commitment e)) ++ adv_field (cstr (ev_observed_model_commitment e)) ++ adv_field (cstr (ev_expected_runtime e)) ++ adv_field (cstr (ev_observed_runtime e)) ++
  adv_field (cstr (ev_expected_result_commitment e)) ++ adv_field (cstr (ev_observed_result_commitment e)) ++ adv_u64 (ev_claimed_compute_atoms e) ++ adv_u64 (ev_measured_compute_atoms e) ++
  adv_u32 (ev_verifier_count e) ++ adv_u32 (ev_matching_verifiers e) ++ adv_u32 (ev_distinct_operator_count e) ++ adv_u32 (ev_distinct_provider_count e) ++
  adv_u32 (ev_timeout_bps e) ++ adv_u32 (ev_queue_wait_bps e) ++ adv_u32 (ev_cache_hit_claim_bps e) ++ adv_u32 (ev_cache_hit_verified_bps e) ++
  adv_u32 (ev_unavailable_peer_bps e) ++ adv_u32 (ev_unavailable_pod_bps e).

(** ** The verdict *)

Definition detected (v : QrxComputeAdversarialVerdict) (risk sev actions challenge block payout : Z) : QrxComputeAdversarialVerdict :=
  mkVerdict (vd_version v) (vd_attack v) sev actions (adv_clamp_bps risk) (adv_clamp_bps challenge) 1 block payout (vd_consensus_slash_applied v) (vd_evidence_commitment v).

Definition fake_compute_risk (e : QrxComputeAdversarialEvidence) : Z :=
  let claimed := ev_claimed_compute_atoms e in
  let deficit := if decide (claimed > ev_measured_compute_atoms e) then claimed - ev_measured_compute_atoms e else 0 in
  if decide (claimed = 0) then 0 else u32 (((if decide (deficit > claimed) then claimed else deficit) *64 10000) / claimed).
(** [(n - d) * 10000 / n] for [d] below [n], with one in the place of none. *)
Definition excess_bps (n d : Z) : Z :=
  let d := if decide (d = 0) then 1 else d in if decide (n > d) then u32 (((n - d) *64 10000) / n) else 0.

Definition FULL_ACTIONS : Z :=
  Z.lor (Z.lor (Z.lor (Z.lor QRX_ADV_ACTION_CHALLENGE QRX_ADV_ACTION_REJECT_RESULT) QRX_ADV_ACTION_FREEZE_PAYOUT) QRX_ADV_ACTION_QUARANTINE) QRX_ADV_ACTION_SLASH_CANDIDATE.
Definition evidence_switch (e : QrxComputeAdversarialEvidence) (v : QrxComputeAdversarialVerdict) : option QrxComputeAdversarialVerdict :=
  let flag (b : bool) : Z := if b then 1 else 0 in
  if decide (ev_attack e = QRX_ADV_FAKE_COMPUTE) then
    let r := fake_compute_risk e in
    Some (if decide (r >= 500) then detected v r (if decide (r >= 5000) then QRX_ADV_SEVERITY_CRITICAL else QRX_ADV_SEVERITY_HIGH) FULL_ACTIONS 10000 1 0 else v)
  else if decide (ev_attack e = QRX_ADV_RESULT_MISMATCH) then
    Some (if decide (cstr (ev_expected_result_commitment e) <> cstr (ev_observed_result_commitment e))
          then detected v 10000 QRX_ADV_SEVERITY_CRITICAL (Z.lor FULL_ACTIONS QRX_ADV_ACTION_RETRY_REDUNDANT) 10000 1 0 else v)
  else if decide (ev_attack e = QRX_ADV_MODEL_RUNTIME_MISMATCH) then
    let mm := bool_decide (cstr (ev_expected_model_commitment e) <> []) && bool_decide (cstr (ev_expected_model_commitment e) <> cstr (ev_observed_model_commitment e)) in
    let rm := nz (ev_expected_runtime e) (QRX_POUC_MAX_RUNTIME - 1) && bool_decide (cstr (ev_expected_runtime e) <> cstr (ev_observed_runtime e)) in
    Some (if mm || rm then detected v 9000 QRX_ADV_SEVERITY_CRITICAL
            (Z.lor (Z.lor (Z.lor QRX_ADV_ACTION_REJECT_RESULT QRX_ADV_ACTION_FREEZE_PAYOUT) QRX_ADV_ACTION_QUARANTINE) QRX_ADV_ACTION_RETRY_REDUNDANT) 10000 1 0 else v)
  else if decide (ev_attack e = QRX_ADV_VERIFIER_COLLUSION) then
    let concentration := excess_bps (ev_verifier_count e) (ev_distinct_operator_count e) in
    let agreement := if decide (ev_verifier_count e = 0) then 0 else u32 ((ev_matching_verifiers e *64 10000) / ev_verifier_count e) in
    Some (if decide (concentration >= 5000 /\ agreement >= 6667) then detected v ((concentration +32 agreement) / 2) QRX_ADV_SEVERITY_CRITICAL
            (Z.lor (Z.lor (Z.lor QRX_ADV_ACTION_CHALLENGE QRX_ADV_ACTION_FREEZE_PAYOUT) QRX_ADV_ACTION_QUARANTINE) QRX_ADV_ACTION_RETRY_REDUNDANT) 10000 1 0 else v)
  else if decide (ev_attack e = QRX_ADV_SYBIL_PROVIDER_SET) then
    let ratio := excess_bps (ev_distinct_provider_count e) (ev_distinct_operator_count e) in
    Some (if decide (ev_distinct_provider_count e >= 3 /\ ratio >= 5000) then detected v ratio QRX_ADV_SEVERITY_HIGH
            (Z.lor (Z.lor QRX_ADV_ACTION_CHALLENGE QRX_ADV_ACTION_QUARANTINE) QRX_ADV_ACTION_REROUTE) 5000 1 1 else v)
  else if decide (ev_attack e = QRX_ADV_CACHE_FRAUD) then
    let gap := if decide (ev_cache_hit_claim_bps e > ev_cache_hit_verified_bps e) then ev_cache_hit_claim_bps e - ev_cache_hit_verified_bps e else 0 in
    let big := bool_decide (gap >= 5000) in
    Some (if decide (gap >= 1000) then detected v gap (if big then QRX_ADV_SEVERITY_HIGH else QRX_ADV_SEVERITY_MEDIUM)
            (Z.lor (Z.lor QRX_ADV_ACTION_CHALLENGE QRX_ADV_ACTION_REROUTE) (if big then QRX_ADV_ACTION_FREEZE_PAYOUT else 0)) (if big then 10000 else 3000)
            (flag big) (flag (negb big)) else v)
  else if decide (ev_attack e = QRX_ADV_SLOW_WORKER) then
    let big := bool_decide (ev_timeout_bps e >= 5000) in
    Some (if decide (ev_timeout_bps e >= 1000) then detected v (ev_timeout_bps e) (if big then QRX_ADV_SEVERITY_HIGH else QRX_ADV_SEVERITY_MEDIUM)
            (Z.lor (Z.lor QRX_ADV_ACTION_REROUTE QRX_ADV_ACTION_DRAIN_PROVIDER) QRX_ADV_ACTION_RETRY_REDUNDANT) 1000 (flag big) 1 else v)
  else if decide (ev_attack e = QRX_ADV_QUEUE_STARVATION) then
    let big := bool_decide (ev_queue_wait_bps e >= 7000) in
    Some (if decide (ev_queue_wait_bps e >= 2000) then detected v (ev_queue_wait_bps e) (if big then QRX_ADV_SEVERITY_HIGH else QRX_ADV_SEVERITY_MEDIUM)
            (Z.lor QRX_ADV_ACTION_REROUTE QRX_ADV_ACTION_DRAIN_PROVIDER) 500 (flag big) 1 else v)
  else if decide (ev_attack e = QRX_ADV_WAN_PARTITION) then
    let big := bool_decide (ev_unavailable_peer_bps e >= 7000) in
    Some (if decide (ev_unavailable_peer_bps e >= 2000) then detected v (ev_unavailable_peer_bps e) (if big then QRX_ADV_SEVERITY_CRITICAL else QRX_ADV_SEVERITY_HIGH)
            (Z.lor (Z.lor QRX_ADV_ACTION_REROUTE QRX_ADV_ACTION_RETRY_REDUNDANT) QRX_ADV_ACTION_DRAIN_PROVIDER) 1000 (flag big) 1 else v)
  else if decide (ev_attack e = QRX_ADV_POD_FAILURE) then
    let big := bool_decide (ev_unavailable_pod_bps e >= 7000) in
    Some (if decide (ev_unavailable_pod_bps e >= 2000) then detected v (ev_unavailable_pod_bps e) (if big then QRX_ADV_SEVERITY_CRITICAL else QRX_ADV_SEVERITY_HIGH)
            (Z.lor (Z.lor QRX_ADV_ACTION_REROUTE QRX_ADV_ACTION_RETRY_REDUNDANT) QRX_ADV_ACTION_DRAIN_PROVIDER) 2000 (flag big) 1 else v)
  else None.

Section sha.
Variable sha3_256 : bytes -> bytes.

Definition qrx_compute_adversarial_evidence_commitment (e : QrxComputeAdversarialEvidence) : option bytes :=
  if decide (qrx_compute_adversarial_evidence_validate e <> 0) then None else Some (hex (sha3_256 (evidence_preimage e))).
Definition qrx_compute_adversarial_evaluate (e : QrxComputeAdversarialEvidence) : Z + QrxComputeAdversarialVerdict :=
  if decide (qrx_compute_adversarial_evidence_validate e <> 0) then inl (-1) else
  match qrx_compute_adversarial_evidence_commitment e with
  | None => inl (-2)
  | Some c => match evidence_switch e (mkVerdict QRX_COMPUTE_ADVERSARIAL_VERSION (ev_attack e) QRX_ADV_SEVERITY_INFO 0 0 0 0 0 1 0 c) with
              | None => inl (-3) | Some v => inr v end
  end.
End sha.

(** ** Settlement *)

Definition QRX_POUC_MAINNET_VERSION : Z := 1.
Definition QRX_POUC_MAINNET_CHAIN_ID_MAX : nat := 64.
Definition QRX_POUC_MAINNET_PROTOCOL_MAX : nat := 32.
Definition QRX_POUC_MAINNET_REPLAY_SLOTS : Z := 128.

Record QrxPoucMainnetReadiness := mkReadiness {
  rn_version : Z; rn_verification_stable : Z; rn_rewards_simulated : Z; rn_fasttrack_fair : Z; rn_standard_tasks_protected : Z; rn_fasttrack_dev_share_transparent : Z;
  rn_model_integrity_verified : Z; rn_provider_fraud_controlled : Z; rn_resource_globe_privacy_checked : Z; rn_server_independence_verified : Z
}.
Record QrxPoucChainBinding := mkBinding { cb_version : Z; cb_chain_id : bytes; cb_genesis_hash : bytes; cb_protocol_version : bytes }.
Inductive QrxPoucSettlementOutcome := QRX_POUC_SETTLEMENT_REJECTED | QRX_POUC_SETTLEMENT_FROZEN | QRX_POUC_SETTLEMENT_PAYOUT.
#[export] Instance outcome_eq_dec : EqDecision QrxPoucSettlementOutcome.
Proof. solve_decision. Defined.
Definition outcome_code (o : QrxPoucSettlementOutcome) : Z :=
  match o with QRX_POUC_SETTLEMENT_REJECTED => 1 | QRX_POUC_SETTLEMENT_FROZEN => 2 | QRX_POUC_SETTLEMENT_PAYOUT => 3 end.
Record QrxPoucSettlementRequest := mkRequest {
  sr_version : Z; sr_chain : QrxPoucChainBinding; sr_readiness : QrxPoucMainnetReadiness; sr_receipt : QrxPoucReceipt; sr_verification : QrxPoucVerification;
  sr_challenge_finalized : Z; sr_challenge_passed : Z; sr_has_adversarial_verdict : Z; sr_adversarial : QrxComputeAdversarialVerdict;
  sr_settlement_nonce : Z; sr_current_height : Z
}.
Record QrxPoucSettlementDecision := mkDecision {
  sd_version : Z; sd_outcome : QrxPoucSettlementOutcome; sd_activation_ready : Z; sd_payout_allowed : Z; sd_slash_candidate : Z; sd_jail_candidate : Z;
  sd_payout_compute_atoms : Z; sd_refund_atoms : Z; sd_receipt_commitment : bytes; sd_replay_key : bytes; sd_decision_commitment : bytes
}.
Record QrxPoucReplayGuard := mkReplayGuard { rg_version : Z; rg_keys : list bytes }.

Definition qrx_pouc_mainnet_readiness_validate (r : QrxPoucMainnetReadiness) : Z :=
  if decide (rn_version r <> QRX_POUC_MAINNET_VERSION) then -1
  else if decide (rn_verification_stable r <> 0 /\ rn_rewards_simulated r <> 0 /\ rn_fasttrack_fair r <> 0 /\ rn_standard_tasks_protected r <> 0 /\
    rn_fasttrack_dev_share_transparent r <> 0 /\ rn_model_integrity_verified r <> 0 /\ rn_provider_fraud_controlled r <> 0 /\
    rn_resource_globe_privacy_checked r <> 0 /\ rn_server_independence_verified r <> 0) then 0 else -2.
Definition qrx_pouc_chain_binding_validate (b : QrxPoucChainBinding) : Z :=
  if decide (cb_version b <> QRX_POUC_MAINNET_VERSION) then -1
  else if negb (nz (cb_chain_id b) QRX_POUC_MAINNET_CHAIN_ID_MAX) || negb (is_hex64 (cb_genesis_hash b)) || negb (nz (cb_protocol_version b) QRX_POUC_MAINNET_PROTOCOL_MAX) then -1
  else 0.

Definition replay_preimage (r : QrxPoucSettlementRequest) (receipt : bytes) : bytes :=
  adv_field (cs "QRX/POUC/SETTLEMENT-REPLAY/V1") ++ adv_field (cstr (cb_chain_id (sr_chain r))) ++ adv_field (take 64 (cb_genesis_hash (sr_chain r))) ++
  adv_field (cstr (cb_protocol_version (sr_chain r))) ++ adv_field (take 64 receipt) ++ adv_u64 (sr_settlement_nonce r).
Definition decision_preimage (r : QrxPoucSettlementRequest) (d : QrxPoucSettlementDecision) : bytes :=
  adv_field (cs "QRX/POUC/MAINNET-SETTLEMENT/V1") ++ adv_field (cstr (cb_chain_id (sr_chain r))) ++ adv_field (take 64 (cb_genesis_hash (sr_chain r))) ++
  adv_field (cstr (cb_protocol_version (sr_chain r))) ++ adv_field (take 64 (sd_receipt_commitment d)) ++ adv_field (take 64 (sd_replay_key d)) ++ adv_u32 (outcome_code (sd_outcome d)) ++
  adv_field (le_split 1 (sd_activation_ready d)) ++ adv_field (le_split 1 (sd_payout_allowed d)) ++ adv_field (le_split 1 (sd_slash_candidate d)) ++ adv_field (le_split 1 (sd_jail_candidate d)) ++
  adv_u64 (sd_payout_compute_atoms d) ++ adv_u64 (sd_refund_atoms d) ++ adv_u64 (sr_current_height r).

(** [reject], [freeze] and [slash] (with [jail]) of the verdict and the
    challenge. *)
Definition has_action (v : QrxComputeAdversarialVerdict) (a : Z) : bool := bool_decide (vd_detected v <> 0) && bool_decide (Z.land (vd_action_mask v) a <> 0).
Definition settlement_flags (r : QrxPoucSettlementRequest) : bool * bool * bool :=
  let v := sr_adversarial r in
  let adv := bool_decide (sr_has_adversarial_verdict r <> 0) in
  let challenge := bool_decide (pv_challenge_required (sr_verification r) <> 0) in
  let final := bool_decide (sr_challenge_finalized r <> 0) in
  (adv && has_action v QRX_ADV_ACTION_REJECT_RESULT || negb (pv_accepted (sr_verification r)) || challenge && final && bool_decide (sr_challenge_passed r = 0),
   adv && has_action v QRX_ADV_ACTION_FREEZE_PAYOUT || challenge && negb final,
   adv && has_action v QRX_ADV_ACTION_SLASH_CANDIDATE).

Section settlement.
Variable sha3_256 : bytes -> bytes.

Definition qrx_pouc_mainnet_decide (r : QrxPoucSettlementRequest) (e : QrxComputeEscrow) : Z + QrxPoucSettlementDecision :=
  if decide (sr_version r <> QRX_POUC_MAINNET_VERSION \/ sr_settlement_nonce r = 0 \/ sr_current_height r = 0) then inl (-1)
  else if decide (qrx_pouc_chain_binding_validate (sr_chain r) <> 0 \/ qrx_pouc_mainnet_readiness_validate (sr_readiness r) <> 0) then inl (-2)
  else if decide (qrx_pouc_receipt_validate (sr_receipt r) <> 0 \/ es_state e <> QRX_COMPUTE_ESCROW_ASSIGNED \/
                  cstr (es_graph_commitment e) <> cstr (pr_graph_commitment (sr_receipt r))) then inl (-3)
  else
    match qrx_pouc_receipt_commitment sha3_256 (sr_receipt r) with
    | None => inl (-4)
    | Some rc =>
        let ver := sr_verification r in
        if decide (rc <> cstr (pv_receipt_commitment ver) \/ pv_matching_verifiers ver > pv_verifier_count ver) then inl (-5) else
        let key := hex (sha3_256 (replay_preimage r rc)) in
        if decide (sr_has_adversarial_verdict r <> 0 /\ vd_version (sr_adversarial r) <> QRX_COMPUTE_ADVERSARIAL_VERSION) then inl (-7) else
        let '(reject, freeze, slash) := settlement_flags r in
        if decide (es_verification_reward_spent_atoms e > es_verification_reward_atoms e \/ es_verification_reward_spent_atoms e > es_locked_atoms e) then inl (-8) else
        let s : Z := if slash : bool then 1 else 0 in
        let seal (d : QrxPoucSettlementDecision) : Z + QrxPoucSettlementDecision :=
          inr (mkDecision (sd_version d) (sd_outcome d) (sd_activation_ready d) (sd_payout_allowed d) (sd_slash_candidate d) (sd_jail_candidate d)
                 (sd_payout_compute_atoms d) (sd_refund_atoms d) (sd_receipt_commitment d) (sd_replay_key d) (hex (sha3_256 (decision_preimage r d)))) in
        if reject : bool then
          seal (mkDecision QRX_POUC_MAINNET_VERSION QRX_POUC_SETTLEMENT_REJECTED 1 0 s s 0 (es_locked_atoms e -64 es_verification_reward_spent_atoms e) rc key [])
        else if freeze : bool then seal (mkDecision QRX_POUC_MAINNET_VERSION QRX_POUC_SETTLEMENT_FROZEN 1 0 s s 0 0 rc key [])
        else if decide (pr_verified_compute_atoms (sr_receipt r) > es_max_compute_atoms e) then inl (-8)
        else
          seal (mkDecision QRX_POUC_MAINNET_VERSION QRX_POUC_SETTLEMENT_PAYOUT 1 1 0 0 (pr_verified_compute_atoms (sr_receipt r))
            ((es_max_compute_atoms e -64 pr_verified_compute_atoms (sr_receipt r)) +64
             (es_verification_reward_atoms e -64 es_verification_reward_spent_atoms e)) rc key [])
    end.
End settlement.

Definition qrx_pouc_mainnet_apply_payout (d : QrxPoucSettlementDecision) (e : QrxComputeEscrow) (h : Z) : Z * QrxComputeEscrow :=
  if decide (sd_version d <> QRX_POUC_MAINNET_VERSION \/ sd_outcome d <> QRX_POUC_SETTLEMENT_PAYOUT \/ sd_payout_allowed d = 0) then (-1, e)
  else qrx_compute_escrow_settle e (sd_payout_compute_atoms d) h.
Definition qrx_pouc_replay_guard_init : QrxPoucReplayGuard := mkReplayGuard QRX_POUC_MAINNET_VERSION [].
Definition qrx_pouc_replay_guard_accept (g : QrxPoucReplayGuard) (d : QrxPoucSettlementDecision) : Z * QrxPoucReplayGuard :=
  if decide (rg_version g <> QRX_POUC_MAINNET_VERSION \/ sd_version d <> QRX_POUC_MAINNET_VERSION \/ is_hex64 (sd_replay_key d) = false) then (-1, g)
  else if decide (cstr (sd_replay_key d) ∈ rg_keys g) then (-2, g)
  else if decide (QRX_POUC_MAINNET_REPLAY_SLOTS <= blen (rg_keys g)) then (-3, g)
  else (0, mkReplayGuard (rg_version g) (rg_keys g ++ [cstr (sd_replay_key d)])).
Definition qrx_pouc_settlement_outcome_name (o : QrxPoucSettlementOutcome) : bytes :=
  match o with QRX_POUC_SETTLEMENT_REJECTED => cs "REJECTED" | QRX_POUC_SETTLEMENT_FROZEN => cs "FROZEN" | QRX_POUC_SETTLEMENT_PAYOUT => cs "PAYOUT" end.

(** The money of a settlement: the end of [qrx_pouc_consensus_prepare], with the
    pool of the escrows as the database has it. *)
Record QrxPoucCredits := mkCredits {
  ce_escrow_after : QrxComputeEscrow; ce_provider : Z; ce_owner : Z; ce_development : Z; ce_network : Z; ce_pool_debit : Z
}.
Definition transition_copy (d : QrxPoucSettlementDecision) (before : QrxComputeEscrow) (h : Z) : Z * QrxComputeEscrow :=
  match sd_outcome d with
  | QRX_POUC_SETTLEMENT_PAYOUT => qrx_pouc_mainnet_apply_payout d before h
  | QRX_POUC_SETTLEMENT_REJECTED => qrx_compute_escrow_refund before h
  | QRX_POUC_SETTLEMENT_FROZEN => (0, before)
  end.
Definition check_credits (pool : option Z) (c : QrxPoucCredits) : Z + QrxPoucCredits :=
  if decide (ce_pool_debit c <> 0 /\ (pool = None \/ default 0 pool < ce_pool_debit c)) then inl (-12)
  else if decide (ce_provider c > LLONG_MAX \/ ce_owner c > LLONG_MAX \/ ce_development c > LLONG_MAX \/ ce_network c > LLONG_MAX \/ ce_pool_debit c > LLONG_MAX) then inl (-13)
  else inr c.
Definition settlement_credits (d : QrxPoucSettlementDecision) (before : QrxComputeEscrow) (h : Z) (pool : option Z) : Z + QrxPoucCredits :=
  let '(rc, after) := transition_copy d before h in
  if decide (rc <> 0) then inl (-11)
  else if decide (es_verification_reward_spent_atoms before > es_locked_atoms before) then inl (-12)
  else
    let remaining := es_locked_atoms before -64 es_verification_reward_spent_atoms before in
    match sd_outcome d with
    | QRX_POUC_SETTLEMENT_PAYOUT =>
        let fast := es_fasttrack_fee_atoms after in
        let dev := es_fasttrack_dev_atoms after in
        let net := es_fasttrack_net_atoms after in
        if decide (dev > fast \/ net > fast - dev) then inl (-13)
        else if decide (UINT64_MAX - es_actual_compute_atoms after < fast - dev - net) then inl (-13)
        else check_credits pool (mkCredits after (es_actual_compute_atoms after + (fast - dev - net)) (es_refund_atoms after) dev net remaining)
    | QRX_POUC_SETTLEMENT_REJECTED => check_credits pool (mkCredits after 0 (es_refund_atoms after) 0 0 remaining)
    | QRX_POUC_SETTLEMENT_FROZEN => check_credits pool (mkCredits after 0 0 0 0 0)
    end.

(** ** Verifiers *)

Definition QRX_POUC_VERIFIER_SELECTION_VERSION : Z := 1.
Definition QRX_POUC_VERIFIER_MAX_PRIMARY : Z := 3.
Definition QRX_POUC_VERIFIER_MAX_CHALLENGE : Z := 3.
Definition QRX_POUC_VERIFIER_MAX_CANDIDATES : Z := 512.
Definition QRX_POUC_VERIFIER_ADDRESS_MAX : nat := 160.
Definition QRX_POUC_VERIFY_WINDOW_BLOCKS : Z := 20.
Definition QRX_POUC_CHALLENGE_WINDOW_BLOCKS : Z := 20.
Definition QRX_POUC_PRIMARY_REWARD_WEIGHT : Z := 2.
Definition QRX_POUC_CHALLENGE_REWARD_WEIGHT : Z := 1.
Definition QRX_POUC_COMPUTE_JAIL_PREFIX : bytes := cs "consensus:compute:jail_until_height:".

Record Candidate := mkVerifierCandidate { ca_address : bytes; ca_power : Z; ca_selected : bool }.
Record CandidateSet := mkCandidates { cs_v : list Candidate; cs_error : bool }.
Record QrxPoucVerifierSelection := mkSelection {
  vs_version : Z; vs_receipt_commitment : bytes; vs_entropy_height : Z; vs_entropy_block_hash : bytes; vs_verification_mode : Z; vs_target_verifiers : Z;
  vs_primary_count : Z; vs_challenge_count : Z; vs_primary : list bytes; vs_challenger : list bytes; vs_primary_reward_atoms : Z; vs_challenge_reward_atoms : Z;
  vs_verification_deadline_height : Z; vs_challenge_deadline_height : Z; vs_selection_commitment : bytes
}.

Definition safe_address (s : bytes) : bool :=
  bool_decide (s <> []) && forallb (fun c => negb (bool_decide (c = x7c)) && negb (bool_decide (c = x3b)) && negb (bool_decide (c = x0a)) && negb (bool_decide (c = x0d))) s.
Definition hexn (s : bytes) (n : Z) : bool := bool_decide (blen (cstr s) = n) && forallb is_hex_lower (cstr s).
Definition hashhex (s : bytes) : bool := hexn s 64 || hexn s 128.
Definition u64parse (s : bytes) : option Z := match s with [] | x2d :: _ => None | _ => strtoull_checked s end.
Definition dbu64 (d : QrxDB) (k : bytes) : option Z := b ← qrxdb_get d k 128; u64parse (cstr b).
(** [qrxdb_chain_get_block_hash_by_height], of the database. *)
Definition qrxdb_chain_get_block_hash_by_height (d : QrxDB) (height : Z) (out_sz : Z) : option bytes :=
  let digits := print_u height in
  qrxdb_get d (snprintf_s 96 (cs "block:height:" ++ repeat x30 (20 - length digits) ++ digits)) out_sz.

(** The candidates with the power added to the first of the address; [None] when
    there is none, and [Some None] when the sum is too large. *)
Fixpoint add_power (l : list Candidate) (a : bytes) (p : Z) : option (option (list Candidate)) :=
  match l with
  | [] => None
  | c :: l =>
      if decide (ca_address c = a) then
        Some (if decide (UINT64_MAX - ca_power c < p) then None else Some (mkVerifierCandidate (ca_address c) (ca_power c + p) (ca_selected c) :: l))
      else match add_power l a p with None => None | Some None => Some None | Some (Some l) => Some (Some (c :: l)) end
  end.
Definition add_candidate (s : CandidateSet) (a : bytes) (p : Z) : CandidateSet * Z :=
  if decide (safe_address a = false \/ p = 0) then (s, 0) else
  match add_power (cs_v s) a p with
  | Some None => (mkCandidates (cs_v s) true, -1)
  | Some (Some l) => (mkCandidates l (cs_error s), 0)
  | None =>
      if decide (QRX_POUC_VERIFIER_MAX_CANDIDATES <= blen (cs_v s)) then (mkCandidates (cs_v s) true, -1)
      else (mkCandidates (cs_v s ++ [mkVerifierCandidate (snprintf_s QRX_POUC_VERIFIER_ADDRESS_MAX a) p false]) (cs_error s), 0)
  end.
Definition scan_stake (s : CandidateSet) (k v : bytes) : CandidateSet * Z :=
  match u64parse (cstr v) with
  | None | Some 0 => (s, 0)
  | Some p =>
      let k := cstr k in
      let found : option bytes :=
        if has_prefix (cs "staking:self:") k then Some (drop 13 k) else if has_prefix (cs "staking:delegated_total:") k then Some (drop 24 k) else None in
      match found with
      | None => (s, 0)
      | Some a => if safe_address a then add_candidate s (snprintf_s QRX_POUC_VERIFIER_ADDRESS_MAX a) p else (s, -1)
      end
  end.
Definition scan_genesis (s : CandidateSet) (k v : bytes) : CandidateSet * Z :=
  let k := cstr k in
  let pfx := cs "genesis:validator:" in
  let suf := cs ":amount_atoms" in
  if decide (blen k <= blen pfx + blen suf) then (s, 0)
  else if negb (has_prefix pfx k) || bool_decide (drop (length k - length suf) k <> suf) then (s, 0)
  else
    match u64parse (cstr v) with
    | None | Some 0 => (s, 0)
    | Some p =>
        let al := (length k - length pfx - length suf)%nat in
        if decide (QRX_POUC_VERIFIER_ADDRESS_MAX <= al)%nat then (s, -1) else add_candidate s (take al (drop (length pfx) k)) p
    end.

Definition qrx_pouc_verifier_is_compute_jailed (d : QrxDB) (v : bytes) (h : Z) : bool :=
  if safe_address v then
    match dbu64 d (snprintf_s 512 (QRX_POUC_COMPUTE_JAIL_PREFIX ++ v)) with
    | Some until => if decide (until >= h) then true else bool_decide (default 0 (dbu64 d (snprintf_s 512 (cs "staking:validator_paused:" ++ v))) <> 0)
    | None => bool_decide (default 0 (dbu64 d (snprintf_s 512 (cs "staking:validator_paused:" ++ v))) <> 0)
    end
  else true.
(** [cmpcand(a, b) <= 0]. *)
Definition cmpcand (a b : Candidate) : Prop := cmp_key (ca_address a) (ca_address b) <= 0.
#[export] Instance cmpcand_dec a b : Decision (cmpcand a b).
Proof. unfold cmpcand. apply _. Defined.
Definition collect_eligible (d : QrxDB) (owner provider : bytes) (h : Z) (c : Candidate) : bool :=
  negb (bool_decide (ca_address c = owner) || bool_decide (ca_address c = provider) || qrx_pouc_verifier_is_compute_jailed d (ca_address c) h).
Definition collect (d : QrxDB) (owner provider : bytes) (h : Z) : option (list Candidate) :=
  let '(s, rc) := qrxdb_scan_prefix scan_stake d (cs "staking:self:") (mkCandidates [] false) in
  if decide (rc <> 0) then None else
  let '(s, rc) := qrxdb_scan_prefix scan_stake d (cs "staking:delegated_total:") s in
  if decide (rc <> 0) then None else
  let '(s, rc) := qrxdb_scan_prefix scan_genesis d (cs "genesis:validator:") s in
  if decide (rc <> 0 \/ cs_error s = true) then None
  else Some (merge_sort cmpcand (filter (fun c => collect_eligible d owner provider h c = true) (cs_v s))).

(** The sum of the powers that are not taken; [None] when it is too large. *)
Definition total_power (l : list Candidate) : option Z :=
  foldl (fun t c => t ← t; if ca_selected c then Some t else if decide (UINT64_MAX - t < ca_power c) then None else Some (t + ca_power c)) (Some 0) l.
(** The first candidate at which the sum exceeds the target, marked. *)
Fixpoint pick_loop (l : list Candidate) (target acc : Z) : option (list Candidate * bytes) :=
  match l with
  | [] => None
  | c :: l =>
      if ca_selected c then '(l, a) ← pick_loop l target acc; Some (c :: l, a)
      else if decide (UINT64_MAX - acc < ca_power c) then None
      else if decide (target < acc + ca_power c) then Some (mkVerifierCandidate (ca_address c) (ca_power c) true :: l, snprintf_s QRX_POUC_VERIFIER_ADDRESS_MAX (ca_address c))
      else '(l, a) ← pick_loop l target (acc + ca_power c); Some (c :: l, a)
  end.

Section selection.
Variable sha3_256 : bytes -> bytes.

Definition random64 (block receipt role : bytes) (slot : Z) : Z :=
  foldl (fun x c => Z.lor (u64 (Z.shiftl x 8)) (byte.unsigned c)) 0
    (take 8 (sha3_256 (qrx_digest_field (cs "QRX/POUC/VERIFIER-SELECTION/RANDOM/V1") ++ qrx_digest_field block ++ qrx_digest_field (take 64 receipt) ++
       qrx_digest_field role ++ qrx_job_digest_u32 slot))).
Definition pick (l : list Candidate) (block receipt role : bytes) (slot : Z) : option (list Candidate * bytes) :=
  total ← total_power l;
  if decide (total = 0) then None else pick_loop l (random64 block receipt role slot mod total) 0.
(** [n] picks for the slots from [i]. *)
Fixpoint pick_slots (l : list Candidate) (block receipt role : bytes) (i : Z) (n : nat) : option (list Candidate * list bytes) :=
  match n with
  | O => Some (l, [])
  | S n => '(l, a) ← pick l block receipt role i; '(l, s) ← pick_slots l block receipt role (i + 1) n; Some (l, a :: s)
  end.

Definition selection_preimage (s : QrxPoucVerifierSelection) : bytes :=
  qrx_digest_field (cs "QRX/POUC/VERIFIER-SELECTION/V1") ++ qrx_digest_field (take 64 (vs_receipt_commitment s)) ++ qrx_job_digest_u64 (vs_entropy_height s) ++
  qrx_digest_field (cstr (vs_entropy_block_hash s)) ++ qrx_job_digest_u32 (vs_verification_mode s) ++ qrx_job_digest_u32 (vs_target_verifiers s) ++
  qrx_job_digest_u32 (vs_primary_count s) ++ qrx_job_digest_u32 (vs_challenge_count s) ++ concat ((fun a => qrx_digest_field (cstr a)) <$> vs_primary s) ++
  concat ((fun a => qrx_digest_field (cstr a)) <$> vs_challenger s) ++ qrx_job_digest_u64 (vs_primary_reward_atoms s) ++ qrx_job_digest_u64 (vs_challenge_reward_atoms s) ++
  qrx_job_digest_u64 (vs_verification_deadline_height s) ++ qrx_job_digest_u64 (vs_challenge_deadline_height s).
Definition qrx_pouc_verifier_selection_commitment (s : QrxPoucVerifierSelection) : option bytes :=
  if decide (vs_version s <> QRX_POUC_VERIFIER_SELECTION_VERSION \/ hexn (vs_receipt_commitment s) 64 = false \/ hashhex (vs_entropy_block_hash s) = false \/
             vs_entropy_height s = 0 \/ vs_target_verifiers s = 0 \/ vs_primary_count s <> vs_target_verifiers s \/
             vs_primary_count s > QRX_POUC_VERIFIER_MAX_PRIMARY \/ vs_challenge_count s > QRX_POUC_VERIFIER_MAX_CHALLENGE) then None
  else Some (hex (sha3_256 (selection_preimage s))).

Definition target_of (mode : Z) : Z :=
  if decide (mode = QRX_POUC_VERIFY_SPOT) then 1 else if decide (mode = QRX_POUC_VERIFY_RANDOM) then 2 else if decide (mode = QRX_POUC_VERIFY_REDUNDANT_2_OF_3) then 3 else 0.
Definition qrx_pouc_verifier_selection_build (d : QrxDB) (rc owner provider : bytes) (mode eh rh budget : Z) : Z + QrxPoucVerifierSelection :=
  if decide (hexn rc 64 = false \/ safe_address owner = false \/ safe_address provider = false \/ eh = 0 \/ rh = 0 \/ rh <= eh) then inl (-1)
  else
    let target := target_of mode in
    if decide (target = 0) then inl (-2) else
    match qrxdb_chain_get_block_hash_by_height d eh 129 with
    | None => inl (-3)
    | Some block =>
      let block := cstr block in
      if hashhex block then
        match collect d owner provider eh with
        | None => inl (-4)
        | Some l =>
          let chall := if decide (mode = QRX_POUC_VERIFY_REDUNDANT_2_OF_3) then 0 else QRX_POUC_VERIFIER_MAX_CHALLENGE in
          if decide (blen l < target + chall) then inl (-5) else
          match pick_slots l block rc (cs "PRIMARY") 0 (Z.to_nat target) with
          | None => inl (-6)
          | Some (l, primary) =>
            match pick_slots l block rc (cs "CHALLENGE") 0 (Z.to_nat chall) with
            | None => inl (-7)
            | Some (_, challenger) =>
              let weights := target * QRX_POUC_PRIMARY_REWARD_WEIGHT + chall * QRX_POUC_CHALLENGE_REWARD_WEIGHT in
              let unit := if decide (budget <> 0 /\ weights <> 0) then budget / weights else 0 in
              let vd := rh +64 QRX_POUC_VERIFY_WINDOW_BLOCKS in
              let s := mkSelection QRX_POUC_VERIFIER_SELECTION_VERSION (snprintf_s 65 rc) eh block mode target target chall primary challenger
                (unit *64 QRX_POUC_PRIMARY_REWARD_WEIGHT) (unit *64 QRX_POUC_CHALLENGE_REWARD_WEIGHT) vd (vd +64 QRX_POUC_CHALLENGE_WINDOW_BLOCKS) [] in
              match qrx_pouc_verifier_selection_commitment s with
              | None => inl (-8)
              | Some c => inr (mkSelection (vs_version s) (vs_receipt_commitment s) (vs_entropy_height s) (vs_entropy_block_hash s) (vs_verification_mode s)
                  (vs_target_verifiers s) (vs_primary_count s) (vs_challenge_count s) (vs_primary s) (vs_challenger s) (vs_primary_reward_atoms s)
                  (vs_challenge_reward_atoms s) (vs_verification_deadline_height s) (vs_challenge_deadline_height s) c)
              end
            end
          end
        end
      else inl (-3)
    end.
End selection.
Definition qrx_pouc_verifier_is_primary (s : QrxPoucVerifierSelection) (v : bytes) : bool := safe_address v && bool_decide (v ∈ vs_primary s).
Definition qrx_pouc_verifier_is_challenger (s : QrxPoucVerifierSelection) (v : bytes) : bool := safe_address v && bool_decide (v ∈ vs_challenger s).

(** ** Penalties

    The arithmetic of [qrx_pouc_stage_consensus_penalty_custom]: what is taken
    from a validator's own stake and from the delegations to it. *)

Definition pouc_mul_bps (v bps : Z) : Z := if decide (bps > 10000) then UINT64_MAX else ((v / 10000) *64 bps) +64 (((v mod 10000) *64 bps) / 10000).
(** The amount to slash and the parts of it. *)
Definition penalty_cuts (self deleg bps : Z) : option (Z * Z * Z) :=
  if decide (UINT64_MAX - self < deleg) then None else
  let total := self + deleg in
  if decide (bps = 0 \/ total = 0) then Some (0, 0, 0) else
  let amt := pouc_mul_bps total bps in
  if decide (amt = UINT64_MAX) then None else
  let amt := if decide (amt = 0) then 1 else amt in
  let amt := if decide (amt > total) then total else amt in
  let self_cut := pouc_mul_bps self bps in
  let deleg_cut := pouc_mul_bps deleg bps in
  if decide (self_cut > self \/ deleg_cut > deleg) then None else
  let component := self_cut +64 deleg_cut in
  if decide (component > amt) then None else
  let extra := amt - component in
  let '(self_cut, extra) := if decide (extra <> 0 /\ self_cut < self) then (self_cut + 1, extra - 1) else (self_cut, extra) in
  let '(deleg_cut, extra) := if decide (extra <> 0 /\ deleg_cut < deleg) then (deleg_cut + 1, extra - 1) else (deleg_cut, extra) in
  if decide (extra <> 0) then None else Some (amt, self_cut, deleg_cut).
(** The delegations after their proportional parts, and the sum of the parts. *)
Fixpoint penalty_parts (ds : list Z) (bps removed : Z) : option (list Z * Z) :=
  match ds with
  | [] => Some ([], removed)
  | v :: ds =>
      let part := pouc_mul_bps v bps in
      if decide (part > v) then None
      else if decide (UINT64_MAX - removed < part) then None
      else '(ds, removed) ← penalty_parts ds bps (removed + part); Some (v - part :: ds, removed)
  end.
(** The rest is taken from the delegations in their order. *)
Fixpoint penalty_rest (ds : list Z) (rem : Z) : list Z * Z :=
  match ds with
  | [] => ([], rem)
  | v :: ds =>
      if decide (rem = 0) then (v :: ds, 0)
      else let take := if decide (v < rem) then v else rem in let '(ds, rem) := penalty_rest ds (rem - take) in (v - take :: ds, rem)
  end.
(** The delegations after the slash and what was taken of them. *)
Definition penalty_delegations (ds : list Z) (bps deleg_cut : Z) : option (list Z * Z) :=
  '(ds, removed) ← penalty_parts ds bps 0;
  let '(ds, rem) := penalty_rest ds (deleg_cut -64 removed) in
  if decide (rem <> 0) then None else Some (ds, removed +64 (deleg_cut -64 removed)).
