(* ===== verification/PoucFacts.v ===== *)
(** * Proofs of useful computation: theorems

    What a settlement pays is what the escrow holds; convicted results are not
    paid; the verifiers drawn are distinct, unrelated to the job and paid within
    the reward; a penalty takes exactly its amount. *)

From stdpp Require Import gmap sorting.
From S2P Require Import Prelude Format Economics Spv DbCodec DbStore DbCommit DbScenarios Aura AuraAgent Compute ComputeMarket ComputeFacts Pouc.

(** ** Verdicts *)

(** The risk of a claim is exact while its basis points fit in 64 bits. *)
Lemma fake_compute_risk_exact e : in_u64 (ev_claimed_compute_atoms e) -> in_u64 (ev_measured_compute_atoms e) ->
  ev_claimed_compute_atoms e <> 0 -> (ev_claimed_compute_atoms e - ev_measured_compute_atoms e) * 10000 < 2 ^ 64 ->
  fake_compute_risk e = Z.max 0 (ev_claimed_compute_atoms e - ev_measured_compute_atoms e) * 10000 / ev_claimed_compute_atoms e.
Proof.
  unfold fake_compute_risk. set (c := ev_claimed_compute_atoms e). set (m := ev_measured_compute_atoms e). intros Hc Hm Hne Hfit. rewrite decide_False by done.
  assert (0 < c) by word. set (d := if decide (c > m) then c - m else 0). assert (d = Z.max 0 (c - m)) as -> by (unfold d; case_decide; lia).
  rewrite decide_False by word. rewrite (u64_small (_ * _)) by word. apply u32_small. split; [apply Z.div_pos; lia|].
  apply Z.div_lt_upper_bound; word.
Qed.

(** A claim of a multiple of 2^60 operations with nothing measured has risk 0:
    it is not detected, and it may be paid. *)
Lemma overclaim_undetected sha3_256 e m : qrx_compute_adversarial_evidence_validate e = 0 -> ev_attack e = QRX_ADV_FAKE_COMPUTE ->
  ev_claimed_compute_atoms e = 2 ^ 60 * m -> in_u64 (ev_claimed_compute_atoms e) -> ev_measured_compute_atoms e = 0 ->
  exists v, qrx_compute_adversarial_evaluate sha3_256 e = inr v /\ vd_detected v = 0 /\ vd_payout_allowed v = 1.
Proof.
  intros Hv Ha Hc Hu Hm. unfold qrx_compute_adversarial_evaluate, qrx_compute_adversarial_evidence_commitment. rewrite Hv, !decide_False by lia.
  unfold evidence_switch. rewrite (decide_True (P := ev_attack e = _)) by done.
  assert (fake_compute_risk e = 0) as ->; [|eexists; split; [by rewrite decide_False by lia|done]].
  unfold fake_compute_risk. rewrite Hm, Hc. case_decide as Hz; [done|]. assert (0 < 2 ^ 60 * m) by word.
  rewrite (decide_True (P := _ > 0)) by lia. rewrite decide_False by lia. rewrite Z.sub_0_r.
  assert (2 ^ 60 * m *64 10000 = 0) as ->; [|by rewrite Z.div_0_l by lia].
  unfold u64. replace (2 ^ 60 * m * 10000) with (m * 625 * 2 ^ 64) by lia. apply Z.mod_mul. lia.
Qed.

(** A verdict that forbids the payout asks for a freeze or a rejection. *)
Lemma verdict_actions sha3_256 e v : qrx_compute_adversarial_evaluate sha3_256 e = inr v ->
  vd_version v = QRX_COMPUTE_ADVERSARIAL_VERSION /\
  (vd_payout_allowed v = 0 -> has_action v QRX_ADV_ACTION_REJECT_RESULT || has_action v QRX_ADV_ACTION_FREEZE_PAYOUT = true).
Proof.
  unfold qrx_compute_adversarial_evaluate. case_decide; [done|]. destruct (qrx_compute_adversarial_evidence_commitment _ e) as [c|]; [|done].
  destruct (evidence_switch e _) as [w|] eqn:E; [|done]. intros [= <-]. revert E. unfold evidence_switch. cbv zeta.
  repeat (case_decide; [solve [intros [= <-]; repeat (case_decide || destruct (bool_decide _) ||
    match goal with |- context [if ?b then detected _ _ _ _ _ _ _ else _] => destruct b end); (split; [done|]); by vm_compute]|]). done.
Qed.

(** ** Settlement *)

(** What a decision rests on. *)
Definition decided (r : QrxPoucSettlementRequest) (e : QrxComputeEscrow) (d : QrxPoucSettlementDecision) : Prop :=
  let '(reject, freeze, slash) := settlement_flags r in
  match sd_outcome d with
  | QRX_POUC_SETTLEMENT_REJECTED => reject = true /\ sd_payout_compute_atoms d = 0 /\
      sd_refund_atoms d = es_locked_atoms e - es_verification_reward_spent_atoms e /\ sd_slash_candidate d = (if slash then 1 else 0)
  | QRX_POUC_SETTLEMENT_FROZEN => reject = false /\ freeze = true /\ sd_payout_compute_atoms d = 0 /\ sd_refund_atoms d = 0 /\
      sd_slash_candidate d = (if slash then 1 else 0)
  | QRX_POUC_SETTLEMENT_PAYOUT => reject = false /\ freeze = false /\ sd_payout_allowed d = 1 /\
      sd_payout_compute_atoms d = pr_verified_compute_atoms (sr_receipt r) /\ sd_payout_compute_atoms d <= es_max_compute_atoms e /\
      sd_refund_atoms d = es_max_compute_atoms e - sd_payout_compute_atoms d + (es_verification_reward_atoms e - es_verification_reward_spent_atoms e)
  end.

Lemma check_spec pool c c' : check_credits pool c = inr c' -> c' = c /\ (ce_pool_debit c <> 0 -> exists p, pool = Some p /\ ce_pool_debit c <= p).
Proof.
  unfold check_credits. case_decide as Hp; [done|]. case_decide; [done|]. intros [= <-]. split; [done|]. intros Hd.
  destruct pool as [p|]; [exists p; cbn in Hp; split; [done|lia]|tauto].
Qed.
Lemma decide_spec sha3_256 r e d : escrow_funded e -> 0 <= pr_verified_compute_atoms (sr_receipt r) -> qrx_pouc_mainnet_decide sha3_256 r e = inr d ->
  sd_version d = QRX_POUC_MAINNET_VERSION /\ es_state e = QRX_COMPUTE_ESCROW_ASSIGNED /\ decided r e d.
Proof.
  intros [_ Hm Hf Hr Hl Hu] Hp. unfold qrx_pouc_mainnet_decide, decided. case_decide; [done|]. case_decide; [done|]. case_decide as Hst; [done|].
  destruct (qrx_pouc_receipt_commitment sha3_256 (sr_receipt r)) as [rc|]; [|done]. case_decide; [done|]. case_decide; [done|].
  destruct (settlement_flags r) as [[reject freeze] slash]. case_decide; [done|].
  assert (es_state e = QRX_COMPUTE_ESCROW_ASSIGNED) as Hs by (apply dec_stable; tauto).
  destruct reject; [|destruct freeze; [|case_decide as Hmax; [done|]]]; intros [= <-]; cbn.
  - rewrite u64_small by word. done.
  - done.
  - rewrite (u64_small (es_max_compute_atoms e - _)), (u64_small (es_verification_reward_atoms e - _)) by word.
    rewrite u64_small by word. split_and!; try done; lia.
Qed.

(** C38: a settlement pays out what the escrow holds.  When a decision on a funded
    escrow gives credits, those of the provider, the owner and the two funds are
    not negative and their sum is what leaves the pool of escrows, which has it:
    all that the verifiers left.  The provider is paid only for a payout, whose
    result was accepted and neither rejected nor frozen; the owner gets what
    the decision says; a frozen settlement moves nothing. *)
Theorem settlement_conserves sha3_256 r e d pool c : escrow_funded e -> 0 <= pr_verified_compute_atoms (sr_receipt r) ->
  qrx_pouc_mainnet_decide sha3_256 r e = inr d -> settlement_credits d e (sr_current_height r) pool = inr c ->
  decided r e d /\ 0 <= ce_provider c /\ 0 <= ce_owner c /\ 0 <= ce_development c /\ 0 <= ce_network c /\
  ce_provider c + ce_owner c + ce_development c + ce_network c = ce_pool_debit c /\ ce_owner c = sd_refund_atoms d /\
  (ce_pool_debit c <> 0 -> exists p, pool = Some p /\ ce_pool_debit c <= p) /\
  match sd_outcome d with
  | QRX_POUC_SETTLEMENT_FROZEN => ce_pool_debit c = 0 /\ ce_escrow_after c = e
  | QRX_POUC_SETTLEMENT_REJECTED => ce_pool_debit c = es_locked_atoms e - es_verification_reward_spent_atoms e /\ ce_provider c = 0 /\
      escrow_outcome e (ce_escrow_after c) /\ ~ escrow_open (ce_escrow_after c)
  | QRX_POUC_SETTLEMENT_PAYOUT => ce_pool_debit c = es_locked_atoms e - es_verification_reward_spent_atoms e /\ sd_payout_compute_atoms d <= ce_provider c /\
      sr_current_height r <= es_expiry_height e /\ settled_exactly e (ce_escrow_after c)
  end.
Proof.
  intros He Hp Hd Hc. destruct (decide_spec sha3_256 r e d He Hp Hd) as (Hv & Hst & Hdec). split; [done|]. pose proof He as [Ho Hm Hf Hr Hl Hu].
  unfold decided in Hdec. destruct (settlement_flags r) as [[reject freeze] slash]. revert Hc. unfold settlement_credits, transition_copy.
  assert (es_locked_atoms e -64 es_verification_reward_spent_atoms e = es_locked_atoms e - es_verification_reward_spent_atoms e) as Erem by (apply u64_small; word).
  rewrite Erem. destruct (sd_outcome d) eqn:Eo.
  - destruct Hdec as (_ & _ & Href & _). pose proof (refund_step e e (sr_current_height r) He ltac:(done)) as Hout. revert Hout.
    unfold qrx_compute_escrow_refund. rewrite (decide_False (P := ~ escrow_open e)) by tauto. rewrite !(decide_False (P := _ > es_locked_atoms e)) by lia.
    rewrite (decide_False (P := 0 <> 0)) by (intros E; by apply E). cbn [snd es_refund_atoms escrow_with]. rewrite Erem. intros Hout [-> Hpool]%check_spec.
    cbn [ce_provider ce_owner ce_development ce_network ce_pool_debit ce_escrow_after] in *. split_and!; try done; try lia.
    unfold escrow_open. cbn. case_decide; by intros [|].
  - destruct Hdec as (_ & _ & _ & Href & _). rewrite (decide_False (P := 0 <> 0)) by (intros E; by apply E). rewrite (decide_False (P := _ > _)) by lia.
    intros [-> Hpool]%check_spec. cbn [ce_provider ce_owner ce_development ce_network ce_pool_debit ce_escrow_after] in *. split_and!; try done; lia.
  - destruct Hdec as (_ & _ & Hpa & Hpay & Hmax & Href). unfold qrx_pouc_mainnet_apply_payout. rewrite (decide_False (P := sd_version d <> _ \/ _)) by (rewrite Hv, Hpa; intros [?|[?|?]]; congruence).
    pose proof (settle_step e e (sd_payout_compute_atoms d) (sr_current_height r) He ltac:(done) ltac:(lia)) as Hout. revert Hout.
    unfold qrx_compute_escrow_settle. rewrite (decide_False (P := ~ escrow_open e)) by tauto. case_decide as Hh; [by rewrite decide_True|].
    rewrite (decide_False (P := es_verification_reward_spent_atoms e > _)) by lia. rewrite (decide_False (P := 0 <> 0)) by (intros E; by apply E). cbn [snd].
    set (a := escrow_with _ _ _ _ _ _). intros Hout. change (settled_exactly e a) in Hout.
    change (es_fasttrack_fee_atoms a) with (es_fasttrack_fee_atoms e). change (es_actual_compute_atoms a) with (sd_payout_compute_atoms d).
    rewrite (decide_False (P := es_verification_reward_spent_atoms e > _)) by lia.
    pose proof Hout as (_ & S1 & S2 & S3 & S4 & S5 & _). change (es_actual_compute_atoms a) with (sd_payout_compute_atoms d) in S5.
    case_decide; [done|]. case_decide; [done|]. intros [-> Hpool]%check_spec.
    cbn [ce_provider ce_owner ce_development ce_network ce_pool_debit ce_escrow_after] in *. split_and!; try done; lia.
Qed.

(** A result whose evidence forbids a payout is not paid. *)
Lemma convicted_not_paid sha3_256 ev r e d : escrow_funded e -> 0 <= pr_verified_compute_atoms (sr_receipt r) ->
  qrx_compute_adversarial_evaluate sha3_256 ev = inr (sr_adversarial r) -> vd_payout_allowed (sr_adversarial r) = 0 -> sr_has_adversarial_verdict r <> 0 ->
  qrx_pouc_mainnet_decide sha3_256 r e = inr d -> sd_outcome d <> QRX_POUC_SETTLEMENT_PAYOUT.
Proof.
  intros He Hp Hv Hpay Hadv Hd Ho. destruct (decide_spec sha3_256 r e d He Hp Hd) as (_ & _ & Hdec). unfold decided in Hdec.
  destruct (verdict_actions _ _ _ Hv) as [_ Hact]. specialize (Hact Hpay). unfold settlement_flags in Hdec. rewrite Ho, bool_decide_eq_true_2 in Hdec by done.
  destruct Hdec as (H1 & H2 & _). apply orb_false_elim in H1 as [H1 _]. apply orb_false_elim in H1 as [H1 _]. apply orb_false_elim in H2 as [H2 _].
  cbn [andb] in H1, H2. by rewrite H1, H2 in Hact.
Qed.

(** A guard accepts a decision at most once, and no more than its slots. *)
Definition guard_run (g : QrxPoucReplayGuard) (ds : list QrxPoucSettlementDecision) : QrxPoucReplayGuard := foldl (fun g d => snd (qrx_pouc_replay_guard_accept g d)) g ds.
Lemma guard_accepts_once ds : let g := guard_run qrx_pouc_replay_guard_init ds in
  NoDup (rg_keys g) /\ blen (rg_keys g) <= QRX_POUC_MAINNET_REPLAY_SLOTS /\
  forall d, fst (qrx_pouc_replay_guard_accept g d) = 0 -> cstr (sd_replay_key d) ∉ rg_keys g.
Proof.
  intros g. assert (NoDup (rg_keys g) /\ blen (rg_keys g) <= QRX_POUC_MAINNET_REPLAY_SLOTS) as [H1 H2].
  { subst g. induction ds as [|d ds IH] using rev_ind; [split; [constructor|done]|]. unfold guard_run. rewrite foldl_snoc. fold (guard_run qrx_pouc_replay_guard_init ds).
    unfold qrx_pouc_replay_guard_accept. case_decide; [done|]. case_decide; [done|]. case_decide; [done|]. cbn [snd rg_keys]. split.
    - apply NoDup_app. split_and!; [apply IH|set_solver|apply NoDup_singleton].
    - rewrite blen_app. change (blen [_]) with 1. lia. }
  split_and!; [done|done|]. intros d. unfold qrx_pouc_replay_guard_accept. case_decide; [done|]. case_decide; done.
Qed.

(** ** Candidates *)

Definition candidates_ok (l : list Candidate) : Prop :=
  NoDup (ca_address <$> l) /\ Forall (fun c => (length (ca_address c) < QRX_POUC_VERIFIER_ADDRESS_MAX)%nat /\ 0 < ca_power c /\ ca_selected c = false) l.

Lemma snprintf_short n s : (length s < n)%nat -> snprintf_s n s = s.
Proof. intros H. unfold snprintf_s. apply take_ge. lia. Qed.
Lemma snprintf_length n s : (0 < n)%nat -> (length (snprintf_s n s) < n)%nat.
Proof. intros H. unfold snprintf_s. rewrite length_take. lia. Qed.

Lemma add_power_spec l a p : 0 <= p ->
  match add_power l a p with
  | None => a ∉ ca_address <$> l
  | Some None => True
  | Some (Some l') => ca_address <$> l' = ca_address <$> l /\ (candidates_ok l -> candidates_ok l')
  end.
Proof.
  intros Hp. assert (match add_power l a p with None => a ∉ ca_address <$> l | Some None => True
    | Some (Some l') => ca_address <$> l' = ca_address <$> l /\
        forall P : Candidate -> Prop, (forall c, P c -> P (mkVerifierCandidate (ca_address c) (ca_power c + p) (ca_selected c))) -> Forall P l -> Forall P l' end) as H.
  { induction l as [|c l IH]; cbn [add_power]; [set_solver|]. case_decide as Hd.
    - case_decide; [done|]. rewrite !fmap_cons. split; [done|]. intros P HP Hl. inversion_clear Hl. constructor; [by apply HP|done].
    - destruct (add_power l a p) as [[l'|]|]; [|done|rewrite fmap_cons; set_solver]. destruct IH as [E IH]. rewrite !fmap_cons, E. split; [done|].
      intros P HP Hl. inversion_clear Hl. constructor; [done|by apply IH]. }
  destruct (add_power l a p) as [[l'|]|]; [|done|done]. destruct H as [E H]. split; [done|]. intros [Hn Hf]. split; [by rewrite E|]. apply H; [|done].
  intros c (H1 & H2 & H3). cbn. split_and!; [done|lia|done].
Qed.
Lemma digits_nonneg acc s : 0 <= acc -> 0 <= digits acc s.
Proof.
  revert acc. induction s as [|c s IH]; intros acc Ha; [done|]. cbn. unfold is_digit. case_bool_decide; [|done]. apply IH. lia.
Qed.
Lemma u64parse_range s v : u64parse s = Some v -> 0 <= v.
Proof.
  assert (forall t, strtoull_checked t = Some v -> 0 <= v) as H.
  { intros t. unfold strtoull_checked. cbv zeta. match goal with |- context [let '(_, _) := ?x in _] => destruct x as [neg u] end. destruct u as [|c u].
    - case_decide; [by intros [= <-]|done].
    - destruct (is_digit c) eqn:Ec; [|done]. case_decide as Hd; [|done]. intros E. apply (inj Some) in E as <-.
      assert (0 <= digits 0 (c :: u)) as H0 by (apply digits_nonneg; lia). destruct neg; [pose proof (u64_range (- digits 0 (c :: u))); word|done]. }
  destruct s as [|c s]; [done|]. intros E. apply (H (c :: s)). revert E. unfold u64parse. by destruct c.
Qed.

Lemma add_candidate_ok s a p : candidates_ok (cs_v s) -> (length a < QRX_POUC_VERIFIER_ADDRESS_MAX)%nat -> 0 <= p -> candidates_ok (cs_v (add_candidate s a p).1).
Proof.
  intros Hok Hl Hp. unfold add_candidate. case_decide as Hz; [done|]. pose proof (add_power_spec (cs_v s) a p Hp) as Hs.
  destruct (add_power (cs_v s) a p) as [[l'|]|]; [cbn; by apply Hs|done|]. case_decide; [done|]. cbn [fst cs_v]. rewrite snprintf_short by done.
  destruct Hok as [Hn Hf]. assert (p <> 0) by tauto. split.
  - rewrite fmap_app. apply NoDup_app. split_and!; [done|set_solver|apply NoDup_singleton].
  - apply Forall_app. split; [done|]. constructor; [|constructor]. cbn. split_and!; [done|lia|done].
Qed.
Lemma scan_stake_ok s k v : candidates_ok (cs_v s) -> candidates_ok (cs_v (scan_stake s k v).1).
Proof.
  intros Hok. unfold scan_stake. destruct (u64parse (cstr v)) as [p|] eqn:Ep; [|done]. apply u64parse_range in Ep. destruct p; [done| |done].
  cbv zeta. match goal with |- context [match ?x with None => _ | Some _ => _ end] => destruct x as [a|] end; [|done]. destruct (safe_address a); [|done].
  apply add_candidate_ok; [done|by apply snprintf_length; unfold QRX_POUC_VERIFIER_ADDRESS_MAX; lia|done].
Qed.
Lemma scan_genesis_ok s k v : candidates_ok (cs_v s) -> candidates_ok (cs_v (scan_genesis s k v).1).
Proof.
  intros Hok. unfold scan_genesis. cbv zeta. case_decide; [done|]. destruct (negb _ || _); [done|]. destruct (u64parse (cstr v)) as [p|] eqn:Ep; [|done].
  apply u64parse_range in Ep. destruct p; [done| |done]. case_decide as Hl; [done|]. apply add_candidate_ok; [done| |done]. rewrite length_take. lia.
Qed.
(** A property that the callback keeps holds after a scan. *)
Lemma scan_keeps {C} (callback : C -> bytes -> bytes -> C * Z) (P : C -> Prop) d prefix ctx :
  (forall c k v, P c -> P (callback c k v).1) -> P ctx -> P (qrxdb_scan_prefix callback d prefix ctx).1.
Proof.
  intros HP. unfold qrxdb_scan_prefix. revert ctx. induction (index d) as [|ie idx IH]; intros ctx Hc; cbn [scan_prefix_loop]; [done|].
  destruct (has_prefix prefix (ie_key ie)); [|by apply IH]. destruct (read_record_at _ _ _) as [[[h k] v]|]; [|done]. destruct (qrxdb_is_tombstone v); [by apply IH|].
  specialize (HP ctx k v Hc). destruct (callback ctx k v) as [c rc]. case_decide; [done|by apply IH].
Qed.

Lemma collect_spec d owner provider h l : collect d owner provider h = Some l -> candidates_ok l /\ Forall (fun c => collect_eligible d owner provider h c = true) l.
Proof.
  unfold collect. assert (candidates_ok []) as Q0 by (split; constructor).
  pose proof (scan_keeps scan_stake (fun s => candidates_ok (cs_v s)) d (cs "staking:self:") (mkCandidates [] false) scan_stake_ok Q0) as Q1.
  destruct (qrxdb_scan_prefix scan_stake d (cs "staking:self:") _) as [s1 rc1]. case_decide; [done|].
  pose proof (scan_keeps scan_stake (fun s => candidates_ok (cs_v s)) d (cs "staking:delegated_total:") s1 scan_stake_ok Q1) as Q2.
  destruct (qrxdb_scan_prefix scan_stake d (cs "staking:delegated_total:") _) as [s2 rc2]. case_decide; [done|].
  pose proof (scan_keeps scan_genesis (fun s => candidates_ok (cs_v s)) d (cs "genesis:validator:") s2 scan_genesis_ok Q2) as Q3.
  destruct (qrxdb_scan_prefix scan_genesis d _ _) as [s3 rc3]. case_decide; [done|]. intros [= <-]. cbn [fst] in Q3. destruct Q3 as [Hn Hf].
  set (p := fun c => collect_eligible d owner provider h c = true). unfold candidates_ok. rewrite merge_sort_Permutation. split; [split|].
  - eapply sublist_NoDup; [exact Hn|]. apply fmap_sublist, sublist_filter.
  - apply Forall_forall. intros c [_ Hc]%list_elem_of_filter. rewrite Forall_forall in Hf. by apply Hf.
  - apply Forall_forall. by intros c [Hc _]%list_elem_of_filter.
Qed.

(** ** Picks *)

(** The candidates that are still to be drawn. *)
Definition free (l : list Candidate) : list Candidate := filter (fun c => ca_selected c = false) l.
Definition free_power (l : list Candidate) : Z := zsum (ca_power <$> free l).

Lemma free_cons c l : free (c :: l) = if ca_selected c then free l else c :: free l.
Proof. unfold free. rewrite filter_cons. by destruct (ca_selected c). Qed.

Lemma total_power_spec l t : Forall (fun c => 0 < ca_power c) l -> 0 <= t -> t + free_power l < 2 ^ 64 ->
  foldl (fun t c => t ← t; if ca_selected c then Some t else if decide (UINT64_MAX - t < ca_power c) then None else Some (t + ca_power c)) (Some t) l = Some (t + free_power l).
Proof.
  intros Hp. revert t. unfold free_power. induction Hp as [|c l Hc Hp IH]; intros t Ht Hs; [cbn; f_equal; lia|]. cbn [foldl mbind option_bind]. rewrite free_cons in *.
  destruct (ca_selected c); [by apply IH|]. rewrite fmap_cons, zsum_cons in *.
  assert (0 <= zsum (ca_power <$> free l)).
  { apply zsum_nonneg, Forall_fmap, Forall_forall. intros x [_ Hx]%list_elem_of_filter. rewrite Forall_forall in Hp. specialize (Hp _ Hx). cbn. lia. }
  rewrite decide_False by word. rewrite IH by lia. f_equal. lia.
Qed.

(** A target below the sum draws the candidate at it. *)
Lemma pick_loop_spec l target acc : Forall (fun c => 0 < ca_power c /\ (length (ca_address c) < QRX_POUC_VERIFIER_ADDRESS_MAX)%nat) l -> 0 <= acc <= target ->
  target < acc + free_power l -> acc + free_power l < 2 ^ 64 ->
  exists l1 c l2, l = l1 ++ c :: l2 /\ ca_selected c = false /\ acc + free_power l1 <= target < acc + free_power l1 + ca_power c /\
    pick_loop l target acc = Some (l1 ++ mkVerifierCandidate (ca_address c) (ca_power c) true :: l2, ca_address c).
Proof.
  intros Hp. revert acc. induction Hp as [|c l [Hc Hl] Hp IH]; intros acc Ha Ht Hs; [unfold free_power in Ht; cbn in Ht; lia|]. cbn [pick_loop].
  unfold free_power in Ht, Hs. rewrite free_cons in Ht, Hs. destruct (ca_selected c) eqn:Es.
  - destruct (IH acc Ha Ht Hs) as (l1 & c' & l2 & -> & Hs' & Hb & ->). exists (c :: l1), c', l2. unfold free_power in *. rewrite free_cons, Es. done.
  - rewrite fmap_cons, zsum_cons in Ht, Hs. fold (free_power l) in Ht, Hs. assert (0 <= free_power l).
    { apply zsum_nonneg, Forall_fmap, Forall_forall. intros x [_ Hx]%list_elem_of_filter. rewrite Forall_forall in Hp. destruct (Hp _ Hx). cbn. lia. }
    rewrite (decide_False (P := UINT64_MAX - acc < _)) by word. case_decide as Hd.
    + exists [], c, l. rewrite snprintf_short by done. change (free_power []) with 0. split_and!; try done; lia.
    + destruct (IH (acc + ca_power c)) as (l1 & c' & l2 & -> & Hs' & Hb & ->); [lia|lia|lia|]. exists (c :: l1), c', l2. unfold free_power in *.
      rewrite free_cons, Es, fmap_cons, zsum_cons. split_and!; try done; lia.
Qed.

(** What a draw leaves. *)
Definition drawable (l : list Candidate) : Prop :=
  NoDup (ca_address <$> l) /\ Forall (fun c => 0 < ca_power c /\ (length (ca_address c) < QRX_POUC_VERIFIER_ADDRESS_MAX)%nat) l /\ free_power l < 2 ^ 64.

Lemma free_app l1 l2 : free (l1 ++ l2) = free l1 ++ free l2.
Proof. apply filter_app. Qed.
Lemma drawn_spec l1 c l2 (l' := l1 ++ mkVerifierCandidate (ca_address c) (ca_power c) true :: l2) : drawable (l1 ++ c :: l2) -> ca_selected c = false ->
  drawable l' /\ ca_address <$> l' = ca_address <$> l1 ++ c :: l2 /\ length (free (l1 ++ c :: l2)) = S (length (free l')) /\
  (forall a, a ∈ ca_address <$> free l' <-> a ∈ ca_address <$> free (l1 ++ c :: l2) /\ a <> ca_address c).
Proof.
  intros (Hn & Hp & Hs) Hc. unfold l'. assert (ca_address <$> l1 ++ mkVerifierCandidate (ca_address c) (ca_power c) true :: l2 = ca_address <$> l1 ++ c :: l2) as E by by rewrite !fmap_app.
  unfold drawable. rewrite E. unfold free_power in *. rewrite !free_app, !free_cons in *. cbn [ca_selected]. rewrite Hc in *. split_and!.
  - done.
  - apply Forall_app in Hp as [Hp1 Hp2]. inversion_clear Hp2 as [|? ? [Hpc1 Hpc2] Hp3]. apply Forall_app. split; [done|]. constructor; [done|done].
  - rewrite fmap_app, zsum_app in *. rewrite fmap_cons, zsum_cons in Hs. apply Forall_app in Hp as [_ Hp2]. inversion_clear Hp2 as [|? ? [Hpc _] _]. lia.
  - done.
  - rewrite !length_app. cbn [length]. lia.
  - intros a. rewrite !fmap_app, fmap_cons, !elem_of_app, elem_of_cons. rewrite fmap_app, fmap_cons in Hn. apply NoDup_app in Hn as (_ & Hd & Hn2).
    apply NoDup_cons in Hn2 as [Hn2 _]. assert (forall l, a ∈ ca_address <$> free l -> a ∈ ca_address <$> l) as Hsub.
    { intros l (x & -> & Hx)%list_elem_of_fmap. apply list_elem_of_filter in Hx as [_ Hx]. apply list_elem_of_fmap. eauto. }
    split; [|tauto]. intros [H|H]; (split; [tauto|]); intros ->; [by apply (Hd _ (Hsub _ H)), list_elem_of_here|by apply Hn2, Hsub].
Qed.

Section picks.
Variable sha3_256 : bytes -> bytes.

Lemma pick_slots_spec l block receipt role i n : drawable l -> (n <= length (free l))%nat ->
  exists l' s, pick_slots sha3_256 l block receipt role i n = Some (l', s) /\ length s = n /\ NoDup s /\ drawable l' /\ length (free l) = (n + length (free l'))%nat /\
    (forall a, a ∈ s -> a ∈ ca_address <$> free l) /\ (forall a, a ∈ ca_address <$> free l' <-> a ∈ ca_address <$> free l /\ a ∉ s).
Proof.
  revert l i. induction n as [|n IH]; intros l i Hd Hn; cbn [pick_slots].
  { exists l, []. split_and!; try done; [constructor|set_solver|]. intros a. set_solver. }
  pose proof Hd as (_ & Hp & Hs). assert (0 < free_power l) as Hpos.
  { unfold free_power. destruct (free l) as [|c fl] eqn:E; [cbn in Hn; lia|]. assert (Forall (fun c => 0 < ca_power c) (c :: fl)) as Hf.
    { rewrite <- E. apply Forall_forall. intros x [_ Hx]%list_elem_of_filter. rewrite Forall_forall in Hp. by destruct (Hp _ Hx). }
    inversion_clear Hf as [|? ? Hc Hfl]. rewrite fmap_cons, zsum_cons. assert (0 <= zsum (ca_power <$> fl)); [|lia].
    apply zsum_nonneg, Forall_fmap. eapply Forall_impl; [exact Hfl|]. cbn. lia. }
  assert (total_power l = Some (free_power l)) as Ht.
  { unfold total_power. rewrite total_power_spec; [done| |done|lia]. eapply Forall_impl; [exact Hp|]. cbn. tauto. }
  unfold pick at 1. rewrite Ht. cbn [mbind option_bind]. rewrite decide_False by lia. pose proof (Z.mod_pos_bound (random64 sha3_256 block receipt role i) (free_power l) Hpos) as Hm.
  destruct (pick_loop_spec l (random64 sha3_256 block receipt role i mod free_power l) 0 Hp) as (l1 & c & l2 & -> & Hc & _ & ->); [lia..|]. cbn [mbind option_bind].
  destruct (drawn_spec l1 c l2 Hd Hc) as (Hd' & _ & Hlen & Hfree). set (l' := l1 ++ mkVerifierCandidate (ca_address c) (ca_power c) true :: l2) in *. destruct (IH l' (i + 1) Hd') as (l'' & s & -> & Hls & Hns & Hd'' & Hlf & Hin & Hiff); [lia|].
  cbn [mbind option_bind]. exists l'', (ca_address c :: s). split_and!; [done|cbn; lia| |done|lia| |].
  - constructor; [|done]. intros H. apply Hin, Hfree in H as [_ H]. done.
  - intros a. rewrite elem_of_cons. intros [->|Ha]; [|by apply Hin, Hfree in Ha as [Ha _]]. rewrite free_app, free_cons, Hc, fmap_app, elem_of_app. right. rewrite fmap_cons. apply list_elem_of_here.
  - intros a. rewrite Hiff, Hfree, not_elem_of_cons. tauto.
Qed.

Lemma candidates_drawable l : candidates_ok l -> zsum (ca_power <$> l) < 2 ^ 64 -> drawable l /\ free l = l.
Proof.
  intros [Hn Hf] Hs. assert (free l = l) as E.
  { clear Hn Hs. induction Hf as [|c l (_ & _ & Hc) _ IH]; [done|]. by rewrite free_cons, Hc, IH. }
  split; [|done]. split_and!; [done| |unfold free_power; by rewrite E]. eapply Forall_impl; [exact Hf|]. cbn. tauto.
Qed.

Lemma cstr_take s : cstr (take (length (cstr s)) s) = cstr s.
Proof. induction s as [|c s IH]; [done|]. cbn [cstr]. case_decide as Hc; [done|]. cbn [length take cstr]. by rewrite decide_False, IH by done. Qed.
Lemma hexn_receipt rc : hexn rc 64 = true -> hexn (snprintf_s 65 rc) 64 = true.
Proof.
  intros H. assert (length (cstr rc) = 64%nat) as Hl by (unfold hexn in H; apply andb_prop in H as [H _]; apply bool_decide_eq_true in H; unfold blen in H; lia).
  unfold hexn, snprintf_s in *. change (65 - 1)%nat with 64%nat. by rewrite <- Hl, cstr_take.
Qed.
Lemma hashhex_cstr s : hashhex (cstr s) = hashhex s.
Proof. unfold hashhex, hexn. by rewrite (cstr_no_nul (cstr s)) by apply cstr_is_no_nul. Qed.

(** C39: verifiers are drawn exactly when there are enough candidates.  For a
    receipt with proper arguments, a block hash at the entropy height and
    candidates whose stakes sum to less than 2^64, a selection is built unless
    they are fewer than the verifiers and challengers of the mode.  Those drawn
    are different candidates, none is the owner or the provider or jailed, and
    what they are all paid is within the reward. *)
Theorem selection_spec d rc owner provider mode eh rh budget block l : hexn rc 64 = true -> safe_address owner = true -> safe_address provider = true ->
  0 < eh < rh -> target_of mode <> 0 -> qrxdb_chain_get_block_hash_by_height d eh 129 = Some block -> hashhex block = true ->
  collect d owner provider eh = Some l -> zsum (ca_power <$> l) < 2 ^ 64 -> in_u64 budget ->
  let target := target_of mode in
  let chall := if decide (mode = QRX_POUC_VERIFY_REDUNDANT_2_OF_3) then 0 else 3 in
  if decide (blen l < target + chall) then qrx_pouc_verifier_selection_build sha3_256 d rc owner provider mode eh rh budget = inl (-5)
  else exists s, qrx_pouc_verifier_selection_build sha3_256 d rc owner provider mode eh rh budget = inr s /\
    blen (vs_primary s) = target /\ blen (vs_challenger s) = chall /\ NoDup (vs_primary s ++ vs_challenger s) /\
    (forall a, a ∈ vs_primary s ++ vs_challenger s -> a ∈ ca_address <$> l /\ a <> owner /\ a <> provider /\ qrx_pouc_verifier_is_compute_jailed d a eh = false) /\
    0 <= target * vs_primary_reward_atoms s + chall * vs_challenge_reward_atoms s <= budget.
Proof.
  intros Hrc Ho Hpr Heh Ht Hb Hh Hl Hs Hu target chall. destruct (collect_spec _ _ _ _ _ Hl) as [Hok Hel]. destruct (candidates_drawable l Hok Hs) as [Hd Hfree].
  unfold qrx_pouc_verifier_selection_build. rewrite Hrc, Ho, Hpr. rewrite (decide_False (P := _ \/ _)) by (intros [?|[?|[?|?]]]; [done|done|done|lia]).
  fold target. rewrite (decide_False (P := target = 0)) by done. rewrite Hb, hashhex_cstr, Hh, Hl.
  change (if decide (mode = QRX_POUC_VERIFY_REDUNDANT_2_OF_3) then 0 else QRX_POUC_VERIFIER_MAX_CHALLENGE) with chall.
  case_decide as Hfew; [done|]. assert (0 < target <= 3 /\ 0 <= chall <= 3) as [Htr Hcr].
  { unfold target, target_of, chall in *. repeat (let H := fresh in case_decide as H); lia. }
  unfold blen in Hfew.
  destruct (pick_slots_spec l (cstr block) rc (cs "PRIMARY") 0 (Z.to_nat target) Hd) as (l1 & p & -> & Hlp & Hnp & Hd1 & Hl1 & Hinp & Hiff); [rewrite Hfree; lia|].
  destruct (pick_slots_spec l1 (cstr block) rc (cs "CHALLENGE") 0 (Z.to_nat chall) Hd1) as (l2 & q & -> & Hlq & Hnq & _ & _ & Hinq & _); [rewrite Hfree in Hl1; lia|].
  rewrite Hfree in *. set (u := if decide (budget <> 0 /\ _) then _ else 0).
  assert (0 <= u /\ u * (target * 2 + chall) <= budget) as [Hu0 Hub].
  { unfold u, QRX_POUC_PRIMARY_REWARD_WEIGHT, QRX_POUC_CHALLENGE_REWARD_WEIGHT. case_decide; [|word]. rewrite Z.mul_1_r. split; [apply Z.div_pos; word|].
    rewrite Z.mul_comm. apply Z.mul_div_le. lia. }
  unfold qrx_pouc_verifier_selection_commitment. cbn [vs_version vs_receipt_commitment vs_entropy_block_hash vs_entropy_height vs_target_verifiers vs_primary_count vs_challenge_count].
  rewrite hexn_receipt, hashhex_cstr, Hh by done.
  rewrite decide_False by (unfold QRX_POUC_VERIFIER_MAX_PRIMARY, QRX_POUC_VERIFIER_MAX_CHALLENGE; intros [?|[?|[?|[?|[?|[?|[?|?]]]]]]]; [done|done|done|lia|lia|lia|lia|lia]).
  eexists. split; [done|]. cbn [vs_primary vs_challenger vs_primary_reward_atoms vs_challenge_reward_atoms]. unfold blen, QRX_POUC_PRIMARY_REWARD_WEIGHT, QRX_POUC_CHALLENGE_REWARD_WEIGHT.
  split_and!; [lia|lia| | | |].
  - apply NoDup_app. split_and!; [done| |done]. intros a Ha Hq. apply Hinq, Hiff in Hq as [_ Hq]. done.
  - intros a Ha. assert (a ∈ ca_address <$> l) as Hin by (apply elem_of_app in Ha as [Ha|Ha]; [by apply Hinp|by apply Hinq, Hiff in Ha as [Ha _]]).
    split; [done|]. apply list_elem_of_fmap in Hin as (c & -> & Hc). rewrite Forall_forall in Hel. specialize (Hel _ Hc). unfold collect_eligible in Hel.
    apply negb_true_iff, orb_false_iff in Hel as [[H1 H2]%orb_false_iff H3]. by apply bool_decide_eq_false in H1, H2.
  - rewrite !u64_small by word. nia.
  - rewrite !u64_small by word. nia.
Qed.
End picks.

(** ** Penalties *)

Lemma bps_share v bps : in_u64 v -> 0 <= bps <= 10000 -> 0 <= v * bps / 10000 <= v.
Proof. intros [Hv _] Hb. split; [apply Z.div_pos; nia|apply Z.div_le_upper_bound; nia]. Qed.
Lemma pouc_mul_bps_exact v bps : in_u64 v -> 0 <= bps <= 10000 -> pouc_mul_bps v bps = v * bps / 10000.
Proof.
  intros Hv Hb. pose proof (bps_share v bps Hv Hb) as Hr. unfold pouc_mul_bps. rewrite decide_False by lia. pose proof (Z.div_mod v 10000 ltac:(lia)) as E.
  pose proof (Z.mod_pos_bound v 10000 ltac:(lia)) as Hmod. set (q := v / 10000) in *. set (m := v mod 10000) in *.
  assert (v * bps / 10000 = q * bps + m * bps / 10000) as Ed.
  { replace (v * bps) with (q * bps * 10000 + m * bps) by nia. by rewrite Z.div_add_l by lia. }
  assert (0 <= q) by (unfold q; apply Z.div_pos; [apply Hv|lia]). assert (0 <= m * bps / 10000) by (apply Z.div_pos; nia). assert (0 <= q * bps) by nia.
  rewrite (u64_small (m * bps)) by (unfold in_u64; nia). rewrite (u64_small (q * bps)) by word. rewrite u64_small by word. done.
Qed.

(** The parts of a slash are the own stake's and the delegations', and neither is
    more than there is: the amount is always divided. *)
Lemma penalty_cuts_exact self deleg bps : in_u64 self -> in_u64 deleg -> 0 < self + deleg < UINT64_MAX -> 0 < bps <= 10000 ->
  exists amt sc dc, penalty_cuts self deleg bps = Some (amt, sc, dc) /\ amt = Z.max 1 ((self + deleg) * bps / 10000) /\
    sc + dc = amt /\ self * bps / 10000 <= sc <= self /\ deleg * bps / 10000 <= dc <= deleg.
Proof.
  intros Hs Hd Ht Hb. unfold penalty_cuts. rewrite (decide_False (P := _ < deleg)) by word. rewrite (decide_False (P := bps = 0 \/ _)) by lia.
  assert (in_u64 (self + deleg)) as Hu by word. rewrite !pouc_mul_bps_exact by (done || lia).
  pose proof (bps_share _ bps Hu ltac:(lia)) as Hr. pose proof (bps_share self bps Hs ltac:(lia)) as Hrs. pose proof (bps_share deleg bps Hd ltac:(lia)) as Hrd.
  pose proof (Z.div_mod (self * bps) 10000 ltac:(lia)) as E1. pose proof (Z.div_mod (deleg * bps) 10000 ltac:(lia)) as E2. pose proof (Z.div_mod ((self + deleg) * bps) 10000 ltac:(lia)) as E3.
  pose proof (Z.mod_pos_bound (self * bps) 10000 ltac:(lia)). pose proof (Z.mod_pos_bound (deleg * bps) 10000 ltac:(lia)). pose proof (Z.mod_pos_bound ((self + deleg) * bps) 10000 ltac:(lia)).
  set (A := self * bps / 10000) in *. set (D := deleg * bps / 10000) in *. set (T := (self + deleg) * bps / 10000) in *. assert (A + D <= T <= A + D + 1) as HT by lia.
  rewrite (decide_False (P := T = UINT64_MAX)) by word. set (amt := if decide (T = 0) then 1 else T). assert (amt = Z.max 1 T) as Ea by (unfold amt; case_decide; lia).
  rewrite (decide_False (P := amt > _)) by lia. rewrite (decide_False (P := _ \/ _)) by lia. rewrite (u64_small (A + D)) by word. rewrite (decide_False (P := _ > amt)) by lia.
  destruct (decide (amt - (A + D) <> 0 /\ A < self)) as [Hx1|Hx1].
  - rewrite (decide_False (P := _ /\ D < deleg)) by lia. rewrite decide_False by lia. exists amt, (A + 1), D. split_and!; [done|lia..].
  - destruct (decide (amt - (A + D) <> 0 /\ D < deleg)) as [Hx2|Hx2]; rewrite decide_False by lia; [exists amt, A, (D + 1)|exists amt, A, D]; split_and!; (done || lia).
Qed.

Lemma penalty_parts_spec ds bps removed : Forall in_u64 ds -> 0 <= bps <= 10000 -> 0 <= removed -> removed + zsum ds < 2 ^ 64 ->
  exists ds' r, penalty_parts ds bps removed = Some (ds', removed + r) /\ zsum ds' + r = zsum ds /\ 0 <= r <= zsum ds * bps / 10000 /\
    Forall2 (fun v v' => 0 <= v' <= v) ds ds'.
Proof.
  intros Hds Hb. revert removed. induction Hds as [|v ds Hv Hds IH]; intros removed Hr Hs; cbn [penalty_parts].
  { exists [], 0. rewrite Z.add_0_r. split_and!; (done || constructor). }
  rewrite zsum_cons in *. assert (0 <= zsum ds) by (apply zsum_nonneg; eapply Forall_impl; [exact Hds|]; cbn; word). rewrite pouc_mul_bps_exact by done.
  pose proof (bps_share v bps Hv Hb) as Hp. rewrite decide_False by lia. rewrite decide_False by word. destruct (IH (removed + v * bps / 10000)) as (ds' & r & -> & Hz & Hr' & Hf); [lia|lia|].
  cbn [mbind option_bind]. exists (v - v * bps / 10000 :: ds'), (v * bps / 10000 + r). rewrite zsum_cons. split_and!; [do 2 f_equal; lia|lia|lia| |constructor; [lia|done]].
  rewrite Z.mul_add_distr_r. pose proof (Z.div_mod (v * bps) 10000 ltac:(lia)). pose proof (Z.div_mod (zsum ds * bps) 10000 ltac:(lia)).
  pose proof (Z.div_mod (v * bps + zsum ds * bps) 10000 ltac:(lia)). pose proof (Z.mod_pos_bound (v * bps) 10000 ltac:(lia)).
  pose proof (Z.mod_pos_bound (zsum ds * bps) 10000 ltac:(lia)). pose proof (Z.mod_pos_bound (v * bps + zsum ds * bps) 10000 ltac:(lia)). lia.
Qed.
Lemma penalty_rest_spec ds rem : Forall (fun v => 0 <= v) ds -> 0 <= rem <= zsum ds ->
  exists ds', penalty_rest ds rem = (ds', 0) /\ zsum ds' = zsum ds - rem /\ Forall2 (fun v v' => 0 <= v' <= v) ds ds'.
Proof.
  intros Hds. revert rem. induction Hds as [|v ds Hv Hds IH]; intros rem Hr; cbn [penalty_rest].
  { exists []. cbn in *. split_and!; [f_equal; lia|lia|constructor]. }
  rewrite zsum_cons in *. case_decide as Hz.
  { subst rem. exists (v :: ds). rewrite zsum_cons. split_and!; [done|lia|]. apply Forall_Forall2_diag. constructor; [lia|]. eapply Forall_impl; [exact Hds|]. cbn. lia. }
  pose proof (zsum_nonneg ds Hds). set (t := if decide (v < rem) then v else rem). assert (t = Z.min v rem) as -> by (unfold t; case_decide; lia).
  destruct (IH (rem - Z.min v rem)) as (ds' & -> & E & Hf); [lia|]. exists (v - Z.min v rem :: ds'). rewrite zsum_cons. split_and!; [done|lia|]. constructor; [lia|done].
Qed.

(** C40: a penalty takes exactly its amount.  For a validator whose delegations sum
    to the total recorded, the amount is the share of the whole stake, at least
    one, it is divided into a part of the own stake and one of the delegations,
    the delegations lose exactly their part and none becomes negative or grows. *)
Theorem penalty_exact self ds bps : in_u64 self -> Forall in_u64 ds -> 0 < self + zsum ds < UINT64_MAX -> 0 < bps <= 10000 ->
  exists amt sc dc ds', penalty_cuts self (zsum ds) bps = Some (amt, sc, dc) /\ penalty_delegations ds bps dc = Some (ds', dc) /\
    amt = Z.max 1 ((self + zsum ds) * bps / 10000) /\ 0 <= sc <= self /\ (self - sc) + zsum ds' + amt = self + zsum ds /\
    Forall2 (fun v v' => 0 <= v' <= v) ds ds'.
Proof.
  intros Hs Hds Ht Hb. assert (0 <= zsum ds) by (apply zsum_nonneg; eapply Forall_impl; [exact Hds|]; cbn; word).
  destruct (penalty_cuts_exact self (zsum ds) bps Hs ltac:(word) Ht Hb) as (amt & sc & dc & E & Ea & Esum & Hsc & Hdc).
  pose proof (bps_share self bps Hs ltac:(lia)). destruct (penalty_parts_spec ds bps 0 Hds ltac:(lia) ltac:(lia) ltac:(word)) as (ds1 & r & Ep & Ez & Hr & Hf).
  assert (Forall (fun v => 0 <= v) ds1) as Hds1 by (clear -Hf; induction Hf; constructor; [lia|done]).
  destruct (penalty_rest_spec ds1 (dc - r) Hds1 ltac:(lia)) as (ds2 & Er & Ez2 & Hf2). exists amt, sc, dc, ds2. rewrite E. split_and!; try done; try lia.
  - unfold penalty_delegations. rewrite Ep. cbn [mbind option_bind]. rewrite Z.add_0_l, u64_small by word. rewrite Er, decide_False by (intros F; by apply F).
    rewrite u64_small by word. do 2 f_equal. lia.
  - clear -Hf Hf2. revert ds2 Hf2. induction Hf; intros ds2 Hf2; inversion_clear Hf2; constructor; [lia|auto].
Qed.

(** ** Runs *)

Definition run_verifiers : QrxDB := ex_commit ex_db0
  [(cs "block:height:00000000000000000009", repeat x61 64); (cs "staking:self:ann", cs "10"); (cs "staking:self:bob", cs "20"); (cs "staking:delegated_total:bob", cs "5");
   (cs "genesis:validator:eve:amount_atoms", cs "7"); (cs "staking:self:fay", cs "9"); (cs "staking:self:gil", cs "3"); (cs "staking:self:hal", cs "4");
   (cs "consensus:compute:jail_until_height:hal", cs "99")].
Definition run_candidates : list Candidate := default [] (collect run_verifiers (cs "ann") (cs "zoe") 9).
Example selection_spec_witness :
  ca_address <$> run_candidates = [cs "bob"; cs "eve"; cs "fay"; cs "gil"] /\
  exists s, qrx_pouc_verifier_selection_build toy_hash run_verifiers (repeat x62 64) (cs "ann") (cs "zoe") QRX_POUC_VERIFY_SPOT 9 12 100 = inr s /\
    blen (vs_primary s) = 1 /\ blen (vs_challenger s) = 3 /\ NoDup (vs_primary s ++ vs_challenger s) /\
    0 <= 1 * vs_primary_reward_atoms s + 3 * vs_challenge_reward_atoms s <= 100.
Proof.
  split; [by vm_compute|]. pose proof (selection_spec toy_hash run_verifiers (repeat x62 64) (cs "ann") (cs "zoe") QRX_POUC_VERIFY_SPOT 9 12 100 (repeat x61 64) run_candidates
    ltac:(by vm_compute) ltac:(by vm_compute) ltac:(by vm_compute) ltac:(lia) ltac:(by vm_compute) ltac:(by vm_compute) ltac:(by vm_compute) ltac:(by vm_compute)
    ltac:(by vm_compute) ltac:(by split; vm_compute)) as H.
  cbv zeta in H. match type of H with if decide ?P then _ else _ => destruct (decide P) as [Hl|_]; [exfalso; revert Hl; by vm_compute|] end.
  destruct H as (s & Hs & Hp & Hc & Hn & _ & Hr). exists s. exact (conj Hs (conj Hp (conj Hc (conj Hn Hr)))).
Defined.

Definition run_receipt : QrxPoucReceipt :=
  mkReceipt 1 chain_commitment 7 (arr 160 (cs "zoe")) (repeat x61 64) (repeat x61 64) (arr 96 (cs "cpu")) (repeat x61 64) (repeat x61 64) 60000 5 6 QRX_POUC_VERIFY_REDUNDANT_2_OF_3.
Definition run_escrow : QrxComputeEscrow := (qrx_compute_escrow_mark_assigned locked_escrow).2.
Definition run_request (matching : Z) : QrxPoucSettlementRequest :=
  mkRequest 1 (mkBinding 1 (arr 65 (cs "qrx-1")) (repeat x61 64) (arr 33 (cs "1"))) (mkReadiness 1 1 1 1 1 1 1 1 1 1) run_receipt
    (default (mkVerification [] 0 0 0 false) (qrx_pouc_verify_result toy_hash run_receipt 3 matching)) 0 0 0 (mkVerdict 0 0 0 0 0 0 0 0 0 0 []) 1 20.
Definition run_decision (matching : Z) : QrxPoucSettlementDecision :=
  match qrx_pouc_mainnet_decide toy_hash (run_request matching) run_escrow with
  | inr d => d | inl _ => mkDecision 0 QRX_POUC_SETTLEMENT_FROZEN 0 0 0 0 0 0 [] [] [] end.
Definition run_credits (matching : Z) : QrxPoucCredits :=
  match settlement_credits (run_decision matching) run_escrow 20 (Some 500000) with inr c => c | inl _ => mkCredits run_escrow 0 0 0 0 0 end.
Lemma run_escrow_funded : escrow_funded run_escrow.
Proof. constructor; [right; vm_compute; reflexivity|closed|closed|closed|vm_compute; reflexivity|closed]. Qed.
(** Two of three verifiers agree and the provider is paid; with one of three the
    owner has everything back. *)
Example settlement_conserves_witness :
  let paid (m : Z) := (sd_outcome (run_decision m), ce_provider (run_credits m), ce_owner (run_credits m), ce_development (run_credits m), ce_network (run_credits m)) in
  paid 2 = (QRX_POUC_SETTLEMENT_PAYOUT, 78000, 40000, 100, 1900) /\ paid 1 = (QRX_POUC_SETTLEMENT_REJECTED, 0, 120000, 0, 0) /\
  forall m, m = 1 \/ m = 2 -> let c := run_credits m in ce_provider c + ce_owner c + ce_development c + ce_network c = ce_pool_debit c.
Proof.
  cbv zeta. split; [vm_compute; reflexivity|]. split; [vm_compute; reflexivity|]. intros m Hm.
  destruct (settlement_conserves toy_hash (run_request m) run_escrow (run_decision m) (Some 500000) (run_credits m)) as (_ & _ & _ & _ & _ & Hsum & _); [exact run_escrow_funded| | | |exact Hsum].
  - discriminate.
  - destruct Hm as [-> | ->]; vm_compute; reflexivity.
  - destruct Hm as [-> | ->]; vm_compute; reflexivity.
Defined.

Example penalty_exact_witness :
  exists amt sc dc ds', penalty_cuts 1000 (zsum [333; 1; 166]) 50 = Some (amt, sc, dc) /\ penalty_delegations [333; 1; 166] 50 dc = Some (ds', dc) /\
    (amt, sc, dc, ds') = (7, 5, 2, [331; 1; 166]) /\ 1000 - sc + zsum ds' + amt = 1500.
Proof.
  destruct (penalty_exact 1000 [333; 1; 166] 50) as (amt & sc & dc & ds' & E & E' & _ & _ & Hz & _);
    [by split; vm_compute|repeat (apply List.Forall_cons; [by split; vm_compute|]); apply List.Forall_nil|by split; vm_compute|lia|].
  exists amt, sc, dc, ds'. split_and!; [done|done| |exact Hz]. vm_compute in E. injection E as <- <- <-. vm_compute in E'. by injection E' as <-.
Defined.
